(* ===== verification/_CoqProject ===== *)
-Q . S2P
Prelude.v
Opcode.v
IR.v
Contract.v
Lower.v
Stream.v
Flatten.v
Cfg.v
Liveness.v
Dce.v
Compact.v
DceCorrect.v
Interference.v
Color.v
Rewrite.v
Reload.v
RegAlloc.v
Pipeline.v
CodeCache.v
Value.v
Shape.v
ShapeLocks.v
Unicode.v
StringForge.v
Codec.v
Uri.v
Object.v
Proto.v
Civil.v
Hebrew.v
Rounding.v
Offset.v
TimeZone.v
Tzif.v
Difference.v
Float.v
Coercion.v
Arith.v
Fold.v
FoldCorrect.v
Gc.v
GcCorrect.v
GcCollect.v
GcExact.v
SetKey.v
Collections.v
CollectionsCorrect.v
Digits.v
Radix.v
NumberMethods.v
Json.v
JsonText.v
