(* ===== verification/Prelude.v ===== *)
(** * OxideJS: a verification library

    OxideJS is a JavaScript engine.  Its compiler works in stages: the parser
    builds an AST, the emitter turns it into register IR, a folding pass
    simplifies it, and the back end optimises the IR, allocates registers,
    lowers it to 32-bit words and numbers the nested modules for the virtual
    machine.  At run time the virtual machine works on 64-bit values, on
    objects with shapes and prototypes, and on interned strings shared by all
    sessions; the standard library is written on top of it.  This library
    models the compiler from constant folding to the module table the VM loads
    and the cache of compiled modules, the run-time representation of values,
    shapes, objects and strings, the garbage collector, the operators on
    primitive values, and the parts of the standard library that compute on their own: base64 and
    hexadecimal codecs, URI functions, Map and Set, and the dates, calendars, durations and
    time zones of Temporal.  It proves what these parts promise each other.

    ** The parts and the files that model them

    Sources are relative to src/crates.

    - [Prelude] (this file): outcomes of Rust code, traversals, vectors with
      checked indexing, fixed-width integers, sorting, the bit-packing lemmas
      and the tactics and hint databases the other files use.

    The compiler:
    - [Opcode]: oxide_bytecode/src/opcode.rs.  The 166 rows of
      [define_opcodes!] as data, the enum, [TryFrom<u8>], [semantics], the
      32-bit word and [ext_word_count] (Module [Instr]).
    - [IR]: oxide_ir/src/operand.rs, inst.rs, lib.rs and the constants and
      captures of oxide_bytecode/src/module.rs.  [Inst], [IRFunction]; Module
      [MkInst] is the constructor API of [Inst].
    - [Contract]: oxide_ir/src/contract.rs.  [def_reg], [use_regs], [is_pure]:
      the interface between the opcode table and every pass.
    - [Lower]: oxide_ir/src/lower.rs and [CompiledModule] of
      oxide_bytecode/src/module.rs.  Emission, jump patching, recursion into
      nested functions, module assembly.
    - [Stream]: the walk over compiled words, with [clear_ic_caches] of
      oxide_vm/src/ic_helper.rs.
    - [Flatten]: oxide_compiler/src/flatten.rs and the table the VM builds from
      its numbers, [collect_flat_modules] of oxide_vm/src/vm_runtime.rs.
    - [Cfg]: oxide_cfg/src (partition.rs, split.rs, exception.rs, finalize.rs,
      lib.rs).  Basic blocks and their edges.
    - [Liveness]: oxide_liveness/src (live_info.rs, dataflow.rs, ranges.rs,
      lib.rs).  Bit sets as vectors of 64-bit words, the block data flow, the
      rows before and after each instruction.
    - [Dce]: oxide_dce/src (reachability.rs, iter_sweep.rs, precise_sweep.rs,
      the compaction of rebuild.rs, and lib.rs).  Passes A, B, C and the
      precise round.
    - [Compact]: the simulation that relates a function to its compaction, and
      the class [Machine], which states what the deletions rely on of the
      execution of single instructions.
    - [DceCorrect]: the theorems on the two entry points of oxide_dce, [dce]
      and [dce_precise], and an instance of [Machine].
    - [Interference], [Color], [Rewrite], [RegAlloc]: oxide_regalloc/src
      (graph.rs and alloc_map.rs; color.rs; rewrite.rs and finish.rs; lib.rs
      and call_window.rs).  Register allocation by graph colouring with
      spilling, and the register windows of calls; [Reload]: what a rewritten
      group reads and writes under the map that colouring gives.
    - [Pipeline]: oxide_compiler/src/compiler.rs, [compile_ir] after folding.
    - [CodeCache]: oxide_code_cache/src/lib.rs.  [CodeForge] over an interface
      to the third-party lru package ([LruOps] and its laws [LruLaws]), and
      the interleavings of the threads that share it ([cache_step]).
    - [Fold]: oxide_fold/src (fold_table.rs, propagate.rs, lib.rs).  The tables
      of folded operators, the scan over a function and the recursion over
      nested ones; [FoldCorrect]: the class [FoldMachine], which states what
      folding relies on of execution, the simulation, and an instance on
      primitive values.

    Values and operators:
    - [Value]: oxide_types/src/value.rs.  The 64-bit word with its tags.
    - [Float]: binary64 numbers as bit patterns (module [F64]), on the
      specification of floating-point operations of the Standard Library.
    - [Coercion]: oxide_runtime_api/src/coercion.rs.  Conversions and
      comparisons of primitive values, numbers as text.
    - [Arith]: the operator instructions on primitive values,
      oxide_vm/src/dispatch (arithmetic.rs, bitwise.rs, comparison.rs,
      control_flow.rs, misc.rs) and the macro of oxide_vm/src/vm/dispatch_loop.rs.

    Objects, shapes and strings:
    - [Shape]: oxide_types/src/shape.rs and oxide_kernel/src (shape_forge.rs,
      prop_forge.rs).  The store of a session, the shared store with its caches
      and the interleavings of its callers; [ShapeLocks]: the same calls with
      the guards they take and drop, waiting for each other.
    - [Object]: oxide_types/src/object.rs and object/ (props.rs, prop_meta.rs).
      Element, property and metadata stores; [Proto]: prototype chains.
    - [Unicode], [StringForge]: oxide_types/src/string_forge.rs.  UTF-16 units
      and keys, the permanent interner and its callers.

    The garbage collector:
    - [Gc]: oxide_vm/src/session_gc.rs, vm/gc_hooks.rs, native_box_dispatch.rs,
      with weak_map.rs of oxide_builtins, the registries of vm/vmhost.rs, the
      allocation of objects in vm/call.rs and the safe point of
      vm/dispatch_loop.rs.  Memory maps addresses to objects, strings, cells and
      BigInts; [Vm] has the fields that hold roots.
    - [GcCorrect]: what is reachable, and marking; [GcCollect]: the sweeps, what
      a sound heap is ([heap_ok]) and what a collection keeps; [GcExact]: the
      theorems, a check for concrete machines and examples.

    The standard library (oxide_builtins/src):
    - [Codec]: ta_codec.rs; [Uri]: global/uri.rs and global/annex_b.rs.
    - [Civil]: ISO dates of temporal/ (common.rs, plain_date.rs,
      difference.rs); [Hebrew]: the Hebrew calendar of temporal/calendar.rs;
      [Rounding]: rounding and time durations of temporal/ (instant.rs,
      duration.rs, plain_time.rs); [Offset]: numeric offsets; [TimeZone]:
      time_zone.rs and zoned_date_time.rs; [Tzif]: the reader of zone files;
      [Difference]: rounded differences of difference.rs.
    - [SetKey]: the keys of Map and Set (set.rs); [Collections]: map.rs, set.rs
      and their iterators in iterator.rs, the programs that use a collection
      and the interface they use; [CollectionsCorrect]: the simulations.
    - number.rs: [Digits], the decimal expansion on limbs and the methods that
      print it; [Radix], other bases and parseInt; [NumberMethods], parseFloat
      and the handlers with receivers, conversions and errors over a host.
    - json.rs: [Json], the parser and the grammar it reads; [JsonText], the
      writer over the operations of the VM it asks for, and plain data.

    ** How the code is translated

    Functions are executable definitions.  A Rust function that may fail or
    panic returns [res]: [Ok], [Err] with its message, or [Panic] for an index
    out of range and [unreachable!].  The model follows the release profile:
    [debug_assert!] is not evaluated and fixed-width arithmetic wraps.
    [usize] is [nat]; [u8] to [u64] are [N] with the truncation written out;
    signed integers are [Z].  A [f64] is its bit pattern, an [N]; a [BigInt] is
    a [Z].  A [BTreeMap] is a [gmap] whose iteration goes
    through the ordered list [keys]; a [Vec] is a list, its indexing [vec_get]
    and [vec_set], which panic out of range as the code does.  Mutable
    arguments are passed and returned.  Code shared between threads is a step
    relation with one step per locked section; for the shape store [ShapeLocks]
    also has the steps that take and drop a guard.  An instruction handler gives
    the exceptions it raises, in order, and the value it writes.  Third-party
    code is a parameter: the lru package, the shortest decimal of a double
    ([ryu]), the power function of the platform ([powf]), the table of time
    zones, the ordered set of indexmap, the bytes of a BigInt, the reader of
    decimals of fast_float; so is the form [{:e}] of a double.  Log output is
    left out.

    ** Loops, fuel and bounds

    A loop that is not a traversal takes fuel and panics when it runs out; the
    callers give enough, and the theorems say so, since they show that the
    result is not [Panic]:
    - the worklist of pass A: one step per edge of the graph and one more;
    - the queue of pass B: one step per instruction, an instruction being
      queued at most once;
    - the rounds of liveness: [max_rounds], twice the number of blocks and 16
      more, which is the bound the code asserts; a round without a change
      comes earlier because every live register is reached along a simple
      path;
    - the spill loop of colouring: one round per register and one more, since
      each round spills a register that was not spilled before;
    - [alloc]: the depth of the tree of nested functions;
    - readers of a word stream: the length of the stream;
    - the walk along a prototype chain: for every heap the operations build
      there is a fuel that is enough, and more gives the same answer;
    - the month loops of Temporal: fourteen rounds for the months of a Hebrew
      year, and for the difference of two dates the months between them;
    - a forEach loop: as many rounds as it is given, since a callback may add
      entries for ever; the code needs no more than the list;
    - the digits of a number: one round per binary digit, of its integer part
      or of its fraction;
    - the JSON parser: two units per character and one more, since each round
      of its loops reads a character; the writer: one unit per level of
      nesting, at most one more than the number of objects;
    - marking: one step per object pushed, which is at most one per value, cell
      and payload value of the objects, and three per string for ropes.

    ** What the theorems show

    - Encoding: opcode bytes and words round-trip; each constructor emits the
      number of extension words readers expect.
    - Lowering: exactly when it succeeds, that it never panics, and where each
      instruction and each jump target is found in the words; a reader visits
      exactly the instruction starts; resetting inline caches zeroes exactly
      the cache words.
    - Flattening: the VM table has no gap, and closures name the right entry.
    - Control-flow graph: when it is built, that its blocks partition the
      code, and that its edges cover the control transfers, but for the entry of
      a finally from later blocks of its body.
    - Liveness: termination, exactness against paths of the block graph (where
      exceptions leave at the ends of blocks), soundness
      against transfers of single instructions in code without handlers.
    - Dead-code elimination: the exact set each pass deletes, totality, and
      equality of results before and after for each [Machine]; the precise
      round for code without handlers.
    - Constant folding: the tables give what the handlers write, and every
      function of the folded tree has the results of the original for each
      [FoldMachine], jumps and handlers included.
    - Register allocation: totality, properness and range of colours, what
      spill plans contain, the layout of rewritten code, that under the map of
      the colouring a rewritten group reads the places of the original operands
      and writes the place of the original result, and that call windows cover
      what is live after a call.
    - Pipeline: no panic on well-formed IR, and the exact shape of its result or
      the limit that makes it fail.
    - Code cache: it stays within its capacity and returns what compiling
      gives, in every interleaving; what an insertion evicts.
    - Values and operators: boxing round-trips and every word has one kind;
      reductions to 32 bits and comparisons of numbers are exact, numbers
      survive their text, compound operators agree with plain ones.
    - Shapes: the shared store answers as the plain one while identifiers are
      left, shapes are shared in every interleaving, the calls with their locks
      do not block each other for good and refine the locked sections.  Objects refine a map of properties; prototype
      chains end.  Keys of strings round-trip; interned strings are stored once
      when calls do not overlap.
    - Garbage collection: marking finds exactly what is reachable and ends, a
      collection frees exactly the rest and changes nothing reachable but weak
      entries with dead keys, and every sequence of collections keeps the heap
      sound.
    - Codecs and URIs: decoders accept exactly what encoders give, and give it
      back.
    - Map and Set: keys that are equal hash alike; a program with loops and
      iterators, whose callbacks call the collection again, sees an
      ordered list of entries with the keys as given, unless it clears a Map or
      deletes from a Set behind a scan; the operations of two sets are those of
      mathematics for arguments that behave as sets.
    - Numbers: the methods that print digits give the exact expansion rounded
      half up where the shifts keep their bits, integers survive their text in every base, and parseFloat reads
      the longest literal.
    - JSON: the parser accepts exactly the grammar, the writer ends and finds
      exactly the cycles, and what it writes is read back when it has no lone
      surrogate and at most 128 levels.
    - Dates: day numbers and dates of both calendars correspond one to one,
      differences add up, rounding chooses the multiple its mode names, the
      instants of a wall-clock time are exactly those at which the clock shows
      it.
    - Some theorems show behaviour outside these guarantees: flattening reads
      extension words as instructions ([flatten_rewrites_extension_words]), a
      handler may read a value the analysis takes for dead
      ([liveness_misses_handler_read]), a finally may be entered without an edge
      ([finally_entry_uncovered]) and lose a store it reads
      ([finally_store_deleted]), a builtin may share a fixed colour
      with a slot of a nested function ([color_fixed_collision]), two calls
      may intern a string twice ([intern_race]), shapes past the limit lose
      their names ([shape_limit_loses_names]), a difference may be carried too
      far ([truncation_overshoots]), [NaN <= 1] is folded to true
      ([fold_lte_nan]), compound operators lose negative zero
      ([compound_loses_negative_zero]), a handler writes its register after
      it raised ([raising_goes_on]), the listeners of a permanent object are
      lost ([listener_on_global_lost]), and a broadcast channel may hold a
      freed string ([channel_string_freed]); a loop over a Set skips elements
      after a deletion ([delete_in_loop_skips]), one over a Map after a clear
      ([clear_in_loop_skips]), and -0 stays a key ([negative_zero_kept]); printed digits are wrong for some exponents
      ([digits_lose_bits]), -0 keeps its sign in base 2
      ([negative_zero_printed]), and the integer tests look at the receiver
      when they get no argument ([tests_of_receiver]); the JSON parser cuts
      escaped surrogate pairs ([escaped_pair_truncated]) and refuses the lone
      surrogates the writer escapes ([lone_surrogate_unreadable]).

    [Machine] has four laws: the effect of an instruction depends on the
    registers it reads, a pure one only writes its result and does not raise,
    a plain store to a local slot only writes that slot, and handlers are
    pushed by the two [TRY] markers only.  It takes the [pure] column
    of the opcode table at its word, also for [CELL_GET] and [LOAD_UPVALUE],
    and the [def] column too, also for the four increment and decrement
    instructions, whose handlers write a second register;
    it does not describe a callee that reads a slot of its caller, and a
    [RETURN] ends the function without running the [finally] handlers around it.
    [heap_ok] is what the collector relies on of the rest of the VM: reachable
    pointers lead to allocated memory, the tables list the session objects,
    and the flat form of a rope belongs to it alone.
    [FoldMachine] adds that loads, moves and the folded operators act as their
    handlers do, each instruction with the constants of its function.

    ** What is not modelled

    The parser and the emitter (their types are those of a third-party
    parser), the conversion of objects to primitive values and the rest of
    the dispatch loop (they run user code), [clear_transient] of the shape store
    while calls are under way (it resets the counter), the builtins that work through the
    VM, the disassembler, the compiler service and the hash of the AST,
    logging, networking, the command line and the test runner.

    ** Plan

    Next: preservation of results by register allocation as a whole (spill
    slots, argument windows, nested functions), iterators and typed arrays, revivers. *)

From stdpp Require Import base tactics numbers list option strings.
From Stdlib Require Import NArith ZArith Lia.

(** ** Outcomes of Rust code

    [res A] is the outcome of a Rust function of return type [A] or
    [Result<A, String>]: a value, an [Err] with its message, or a panic
    (out-of-range slice index, [unreachable!]).  The model follows the release
    profile: [debug_assert!] is not evaluated and fixed-width arithmetic
    wraps. *)
Inductive res (A : Type) : Type :=
  | Ok (a : A)
  | Err (msg : string)
  | Panic.
Arguments Ok {A} a.
Arguments Err {A} msg.
Arguments Panic {A}.

Definition res_bind {A B} (c : res A) (k : A → res B) : res B :=
  match c with
  | Ok a => k a
  | Err e => Err e
  | Panic => Panic
  end.

Declare Scope res_scope.
Delimit Scope res_scope with res.
Notation "'let*' x ':=' c 'in' k" := (res_bind c (fun x => k))
  (at level 10, x pattern, c at level 100, k at level 200) : res_scope.
Open Scope res_scope.

Definition is_ok {A} (c : res A) : Prop := ∃ a, c = Ok a.

(** Left-to-right monadic traversals: [fold_res] is a [for] loop whose body
    may fail, [map_res] collects its results. *)
Section traversals.
Context {A B S : Type}.

Fixpoint fold_res (f : S → A → res S) (l : list A) (s : S) : res S :=
  match l with
  | [] => Ok s
  | x :: l => let* s' := f s x in fold_res f l s'
  end.

Context (g : A → res B).

Fixpoint map_res (l : list A) : res (list B) :=
  match l with
  | [] => Ok []
  | x :: l => let* y := g x in let* ys := map_res l in Ok (y :: ys)
  end.
End traversals.

(** [v[i]] and [v[i] = x] on a [Vec]: out of range panics. *)
Definition vec_get {A} (l : list A) (i : nat) : res A :=
  match l !! i with Some x => Ok x | None => Panic end.

Definition vec_set {A} (l : list A) (i : nat) (x : A) : res (list A) :=
  if decide (i < length l)%nat then Ok (<[i:=x]> l) else Panic.

(** ** Fixed-width unsigned integers as [N] *)
Definition u8 (n : N) : N := (n mod 2^8)%N.
Definition u16 (n : N) : N := (n mod 2^16)%N.
Definition u32 (n : N) : N := (n mod 2^32)%N.

Definition u64 (n : N) : N := (n mod 2^64)%N.

(** [x as u32] of an [i32] and back, and the same at 16 bits: two's
    complement. *)
Definition i32_to_u32 (z : Z) : N := Z.to_N (z mod 2^32).
Definition u32_to_i32 (n : N) : Z :=
  if (n <? 2^31)%N then Z.of_N n else (Z.of_N n - 2^32)%Z.
Definition in_i32 (z : Z) : Prop := (-2^31 <= z < 2^31)%Z.

Definition i16_to_u16 (z : Z) : N := Z.to_N (z mod 2^16).
Definition u16_to_i16 (n : N) : Z :=
  if (n <? 2^15)%N then Z.of_N n else (Z.of_N n - 2^16)%Z.

Definition in_i16 (z : Z) : Prop := (-2^15 <= z < 2^15)%Z.

(** ** Automation *)
Create HintDb oxide.
Create Rewrite HintDb bits.

(** Case analysis on the scrutinee of the first [match] of a hypothesis or of
    the goal, closing the contradictory branches. *)
Ltac res_inv :=
  repeat match goal with
  | H : Ok _ = Ok _ |- _ => injection H as H; subst
  | H : Err _ = Ok _ |- _ => discriminate H
  | H : Panic = Ok _ |- _ => discriminate H
  | H : Ok _ = Err _ |- _ => discriminate H
  | H : Ok _ = Panic |- _ => discriminate H
  | H : res_bind ?c _ = _ |- _ =>
      let E := fresh "E" in destruct c eqn:E; simpl in H
  end.

(** Arithmetic on bit fields: shifts and masks become division and remainder. *)
Ltac pow_literals :=
  change (2^8)%N with 256%N in *; change (2^16)%N with 65536%N in *;
  change (2^24)%N with 16777216%N in *; change (2^31)%N with 2147483648%N in *;
  change (2^32)%N with 4294967296%N in *; change (2^15)%N with 32768%N in *;
  change (2^15)%Z with 32768%Z in *; change (2^16)%Z with 65536%Z in *.

Ltac bits_lia :=
  autorewrite with bits in *; pow_literals; zify; Z.to_euclidean_division_equations; lia.

(** ** Generic lemmas *)
Section res_lemmas.
Context {A B : Type}.

Lemma vec_get_Ok (l : list A) i x : vec_get l i = Ok x ↔ l !! i = Some x.
Proof. unfold vec_get. destruct (l !! i); naive_solver. Qed.

Lemma vec_get_is_ok (l : list A) i : (i < length l)%nat → is_ok (vec_get l i).
Proof.
  intros [x Hx]%lookup_lt_is_Some_2. exists x. by apply vec_get_Ok.
Qed.

Lemma vec_set_Ok (l l' : list A) i x :
  vec_set l i x = Ok l' ↔ (i < length l)%nat ∧ l' = <[i:=x]> l.
Proof.
  unfold vec_set. destruct (decide _) as [Hi|Hi].
  - split; [intros [= <-] | intros [_ ->]]; done.
  - split; [done | intros [? _]; done].
Qed.

Lemma vec_set_lt (l : list A) i x :
  (i < length l)%nat → vec_set l i x = Ok (<[i:=x]> l).
Proof. intros. by apply vec_set_Ok. Qed.

Lemma map_res_Forall2 (f : A → res B) l l' :
  map_res f l = Ok l' ↔ Forall2 (λ x y, f x = Ok y) l l'.
Proof.
  revert l'. induction l as [|x l IH]; intros l'; simpl.
  { split; [by intros [= <-]; constructor | by inversion 1]. }
  split.
  - intros Hb. res_inv. constructor; [done | by apply IH].
  - inversion 1 as [|? y ? l'' Hx Hl]; subst.
    rewrite Hx. simpl. apply IH in Hl. by rewrite Hl.
Qed.

Lemma map_res_ok (f : A → res B) (P : A → B → Prop) l :
  (∀ x, x ∈ l → ∃ y, f x = Ok y ∧ P x y) → ∃ l', map_res f l = Ok l' ∧ Forall2 P l l'.
Proof.
  induction l as [|x l IH]; intros H; simpl; [by exists []; repeat constructor|].
  destruct (H x) as (y & -> & Hy); [by left|]. simpl.
  destruct IH as (l' & -> & Hl'); [intros; apply H; by right|]. simpl.
  exists (y :: l'). by repeat constructor.
Qed.

(** Every element succeeds with [P], or fails with the same message. *)
Lemma map_res_or (f : A → res B) (P : B → Prop) e l :
  (∀ x, x ∈ l → (∃ y, f x = Ok y ∧ P y) ∨ f x = Err e) →
  (∃ l', map_res f l = Ok l' ∧ Forall P l') ∨ map_res f l = Err e.
Proof.
  induction l as [|x l IH]; intros H; simpl; [left; by exists []; repeat constructor|].
  destruct (H x) as [(y & -> & Hy)| ->]; [by left| |by right]. simpl.
  destruct IH as [(l' & -> & Hl')| ->]; [intros; apply H; by right| |by right].
  left. exists (y :: l'). by repeat constructor.
Qed.

Lemma fold_res_app {S} (f : S → A → res S) l1 l2 s :
  fold_res f (l1 ++ l2) s = res_bind (fold_res f l1 s) (fold_res f l2).
Proof.
  revert s. induction l1 as [|x l1 IH]; intros s; simpl; [done|].
  destruct (f s x); simpl; auto.
Qed.

(** The rule for [for] loops: an invariant indexed by the elements already
    visited. *)
Lemma fold_res_inv {S} (f : S → A → res S) (I : list A → S → Prop) l s :
  I [] s →
  (∀ pre x post s, l = pre ++ x :: post → I pre s →
     ∃ s', f s x = Ok s' ∧ I (pre ++ [x]) s') →
  ∃ s', fold_res f l s = Ok s' ∧ I l s'.
Proof.
  intros H0 Hstep.
  cut (∀ post pre s, l = pre ++ post → I pre s →
         ∃ s', fold_res f post s = Ok s' ∧ I l s').
  { intros Hcut. by apply (Hcut l []). }
  induction post as [|x post IH]; intros pre s' Hl Hpre; simpl.
  { rewrite app_nil_r in Hl. subst. eauto. }
  destruct (Hstep pre x post s' Hl Hpre) as (s'' & -> & Hs''). simpl.
  apply (IH (pre ++ [x])); [|done]. by rewrite <- app_assoc.
Qed.
End res_lemmas.

Lemma mjoin_cons {A} (x : list A) (l : list (list A)) : mjoin (x :: l) = x ++ mjoin l.
Proof. done. Qed.

(** ** Bit fields *)
Section bit_fields.
Open Scope N_scope.

Lemma lor_shiftl_add x y n : x < 2^n → N.lor (N.shiftl y n) x = y * 2^n + x.
Proof.
  intros Hx. rewrite N.shiftl_mul_pow2, N.lor_comm, N.add_comm.
  apply N.bits_inj. intros i. rewrite N.lor_spec.
  destruct (N.lt_ge_cases i n) as [Hi|Hi].
  - rewrite N.mul_pow2_bits_low, orb_false_r by done.
    rewrite <- (N.mod_pow2_bits_low (x + y * 2^n) n) by done.
    by rewrite N.Div0.mod_add, N.mod_small.
  - rewrite <- (N.sub_add n i) by done.
    rewrite <- !N.div_pow2_bits.
    rewrite N.div_add, N.div_mul, N.div_small by (done || lia).
    by rewrite N.bits_0.
Qed.

Lemma land_byte x : N.land x 0xFF = x mod 256.
Proof. apply (N.land_ones x 8). Qed.

Lemma land_half x : N.land x 0xFFFF = x mod 65536.
Proof. apply (N.land_ones x 16). Qed.

Lemma land_31 x : N.land x 0x7FFFFFFF = x mod 2^31.
Proof. apply (N.land_ones x 31). Qed.

(** Four bytes packed little-endian into one word. *)
Lemma pack_bytes w0 w1 w2 w3 :
  w0 < 256 → w1 < 256 → w2 < 256 →
  N.lor (N.lor (N.lor (N.shiftl w3 24) (N.shiftl w2 16)) (N.shiftl w1 8)) w0 =
  w3 * 2^24 + w2 * 2^16 + w1 * 2^8 + w0.
Proof.
  intros H0 H1 H2.
  replace (N.shiftl w3 24) with (N.shiftl (N.shiftl w3 8) 16)
    by (rewrite N.shiftl_shiftl; done).
  rewrite <- N.shiftl_lor.
  replace (N.shiftl (N.lor (N.shiftl w3 8) w2) 16)
    with (N.shiftl (N.shiftl (N.lor (N.shiftl w3 8) w2) 8) 8)
    by (rewrite N.shiftl_shiftl; done).
  rewrite <- N.shiftl_lor.
  rewrite (lor_shiftl_add w2 w3 8) by lia.
  rewrite (lor_shiftl_add w1 _ 8) by lia.
  rewrite (lor_shiftl_add w0 _ 8) by lia. lia.
Qed.
End bit_fields.

#[export] Hint Rewrite land_byte land_half land_31 N.shiftr_div_pow2 : bits.

(** ** Sorting and ranges *)

(** [v.sort_by(le)] (stable) and [v.dedup()]. *)
Section sorting.
Context {A : Type} (le : A → A → bool).

Fixpoint insert_by (x : A) (l : list A) : list A :=
  match l with
  | [] => [x]
  | y :: l' => if le x y then x :: l else y :: insert_by x l'
  end.

Definition sort_by (l : list A) : list A := foldr insert_by [] l.

Lemma insert_by_Permutation x l : insert_by x l ≡ₚ x :: l.
Proof.
  induction l as [|y l IH]; simpl; [done|]. destruct (le x y); [done|].
  rewrite IH. apply Permutation_swap.
Qed.

Lemma sort_by_Permutation l : sort_by l ≡ₚ l.
Proof. induction l as [|x l IH]; simpl; [done|]. by rewrite insert_by_Permutation, IH. Qed.

Lemma elem_of_sort_by x l : x ∈ sort_by l ↔ x ∈ l.
Proof. by rewrite sort_by_Permutation. Qed.
End sorting.

Section dedup.
Context {A : Type} `{!EqDecision A}.

Fixpoint dedup (l : list A) : list A :=
  match l with
  | x :: ((y :: _) as l') => if decide (x = y) then dedup l' else x :: dedup l'
  | _ => l
  end.

Lemma elem_of_dedup x l : x ∈ dedup l ↔ x ∈ l.
Proof.
  induction l as [|y [|z l] IH]; [done..|].
  cbn [dedup]. case_decide as E; rewrite ?elem_of_cons, IH, ?elem_of_cons; [subst; tauto|done].
Qed.
End dedup.

(** [lo..hi] as a list. *)
Definition n_range (lo hi : N) : list N :=
  (λ i, (lo + N.of_nat i)%N) <$> seq 0 (N.to_nat (hi - lo)).

Lemma elem_of_n_range lo hi x : x ∈ n_range lo hi ↔ (lo <= x < hi)%N.
Proof.
  unfold n_range. rewrite list_elem_of_fmap. split.
  - intros (i & -> & Hi%elem_of_seq). lia.
  - intros H. exists (N.to_nat (x - lo)). rewrite elem_of_seq. lia.
Qed.

Lemma NoDup_n_range lo hi : NoDup (n_range lo hi).
Proof. unfold n_range. apply NoDup_fmap_2; [intros ?? ?; lia|apply NoDup_seq]. Qed.
