(* ===== verification/Opcode.v ===== *)
(** * Opcode table and instruction words (crates/oxide_bytecode/src/opcode.rs)

    The 166-row [define_opcodes!] table, the enum, byte conversion and
    semantics accessor the macro generates from it, the 32-bit instruction
    word with its encoders and field decoders, and the extension-word count
    that lets a reader step over the stream one instruction at a time. *)

From stdpp Require Import base tactics numbers list option strings countable.
From Stdlib Require Import NArith ZArith Lia.
From S2P Require Import Prelude.

Open Scope N_scope.

(** ** Slots *)
Module Slot.
Inductive t := Rd | A | B.
End Slot.

Inductive SlotSpec :=
  | SSlot (s : Slot.t)
  | Reg0
  | SRange (s : Slot.t)
  | SpreadArgs
  | TemplateExprs
  | BrandReg
  | ExtReg.

Record OpSemantics := mkOpSemantics {
  sem_def : option SlotSpec;
  sem_uses : list SlotSpec;
  sem_pure : bool;
  sem_is_jump : bool;
  sem_is_terminator : bool;
  sem_ic_ext : bool;
}.

Definition IC_SLOTS : nat := 4.
Definition IC_EXT_WORDS : nat := IC_SLOTS * 2.

(** ** The enum and its discriminants *)
Inductive OpCode :=
  | ADD | SUB | MUL | DIV | MOD | NEG | COMPOUND_ADD | COMPOUND_SUB | COMPOUND_MUL
  | COMPOUND_DIV | COMPOUND_MOD | COMPOUND_EXP | EXP | MOV | SPILL | UNSPILL
  | SPREAD_OBJECT | EQ | NEQ | LT | GT | LTE | GTE | IN | NOT | AND | OR | STRICT_EQ
  | STRICT_NEQ | UNARY_PLUS | BREAK | CONTINUE | JMP | JMP_IF_FALSE | JMP_IF_TRUE
  | FOR_OF_INIT | FOR_OF_NEXT | INC_PRE | INC_POST | DEC_PRE | DEC_POST | FOR_IN_INIT
  | FOR_IN_NEXT | FOR_IN_DONE | DISPOSE_REGISTER | FOR_IN_CLEANUP | THROW | TRY_BEGIN
  | TRY_END | TRY_FINALLY_BEGIN | TRY_FINALLY_ENTER | TRY_FINALLY_END | FOR_OF_DONE
  | FOR_OF_CLOSE | TEMPLATE_STR | GET_TEMPLATE_OBJECT | DELETE_PROP_STATIC
  | DELETE_PROP_DYNAMIC | INSTANCEOF | MAKE_CELL | CELL_GET | REST_OBJECT | CELL_SET
  | LOAD_VAR | STORE_VAR | LOAD_CONST | LOAD_GLOBAL | LOAD_GLOBAL_TYPEOF | CALL | RETURN
  | CALL_NATIVE | NEW_EXPRESSION | SUPER_CALL | SUPER_GET_PROP | SUPER_STATIC_GET_PROP
  | SET_HOME_OBJECT | DEFINE_ACCESSOR | LOAD_UPVALUE | CREATE_CLOSURE | CREATE_REGEXP
  | STORE_UPVALUE | CALL_SPREAD | NEW_EXPRESSION_SPREAD | SUPER_CALL_SPREAD | IC_GET_PROP
  | IC_SET_PROP | GET_PROP | GET_PROP_DYNAMIC | SET_PROP | SET_PROP_DYNAMIC | NEW_OBJECT
  | NEW_ARRAY | SET_ELEM | SET_PROP_BATCH | CONCAT_N | MEMBER_INC | MEMBER_DEC
  | DYN_MEMBER_INC | DYN_MEMBER_DEC | COMPOUND_MEMBER_ADD | COMPOUND_MEMBER_SUB
  | COMPOUND_MEMBER_MUL | COMPOUND_MEMBER_DIV | COMPOUND_MEMBER_MOD | COMPOUND_MEMBER_EXP
  | CREATE_ARGUMENTS | CREATE_REST_ARRAY | DISPOSE_MARK | DISPOSE_POP | SUPER_PUT_PROP
  | DEFINE_PROP | DEFINE_GLOBAL_PROP | DEFINE_PROP_ATTRS | DEFINE_ACCESSOR_ATTRS
  | DEFINE_GLOBAL_PROP_C | DEFINE_GLOBAL_PROP_IF_ABSENT | DEFINE_GLOBAL_PROP_C_IF_ABSENT
  | NEW_SESSION_OBJECT | DELETE_GLOBAL_PROP_C | CAN_DECLARE_GLOBAL_FUNC
  | DEFINE_GLOBAL_FUNC_BIND | DEFINE_ACCESSOR_ATTRS_DYNAMIC | LOAD_GLOBAL_LEX
  | STORE_GLOBAL_LEX | COMPOUND_MEMBER_BIT_AND | COMPOUND_MEMBER_BIT_OR
  | COMPOUND_MEMBER_BIT_XOR | COMPOUND_MEMBER_SHL | COMPOUND_MEMBER_SHR
  | COMPOUND_MEMBER_USHR | GET_PRIVATE | SET_PRIVATE | INIT_PRIVATE | PRIVATE_BRAND_IN
  | YIELD | SUSPEND_BODY | YIELD_STAR | AWAIT | FOR_AWAIT_OF_INIT | FOR_AWAIT_OF_NEXT
  | FOR_AWAIT_OF_DONE | FOR_AWAIT_OF_CLOSE | MAKE_CELL_FRESH | DEFINE_ACCESSOR_DYNAMIC
  | BIT_AND | BIT_OR | BIT_XOR | SHL | SHR | USHR | BIT_NOT | TO_OBJECT | COMPOUND_AND
  | COMPOUND_OR | COMPOUND_XOR | COMPOUND_SHL | COMPOUND_SHR | COMPOUND_USHR | NULLISH
  | JMP_IF_NULLISH | NOP | HALT | TYPEOF | VOID | DEFINE_GLOBAL_PROP_C_STRICT
  | SET_PROP_DYNAMIC_STRICT.

(** [op as u8]: the explicit discriminant of each variant. *)
Definition discriminant (op : OpCode) : N :=
  match op with
  | ADD => 0x00 | SUB => 0x01 | MUL => 0x02 | DIV => 0x03 | MOD => 0x04 | NEG => 0x05
  | COMPOUND_ADD => 0x06 | COMPOUND_SUB => 0x07 | COMPOUND_MUL => 0x08 | COMPOUND_DIV => 0x09
  | COMPOUND_MOD => 0x0a | COMPOUND_EXP => 0x0b | EXP => 0x94 | MOV => 0x0c | SPILL => 0x0d
  | UNSPILL => 0x0e | SPREAD_OBJECT => 0x0f | EQ => 0x10 | NEQ => 0x11 | LT => 0x12
  | GT => 0x13 | LTE => 0x14 | GTE => 0x15 | IN => 0x16 | NOT => 0x17 | AND => 0x18
  | OR => 0x19 | STRICT_EQ => 0x1a | STRICT_NEQ => 0x1c | UNARY_PLUS => 0x1d | BREAK => 0x1e
  | CONTINUE => 0x1f | JMP => 0x20 | JMP_IF_FALSE => 0x21 | JMP_IF_TRUE => 0x22
  | FOR_OF_INIT => 0x23 | FOR_OF_NEXT => 0x24 | INC_PRE => 0x25 | INC_POST => 0x26
  | DEC_PRE => 0x27 | DEC_POST => 0x28 | FOR_IN_INIT => 0x29 | FOR_IN_NEXT => 0x2a
  | FOR_IN_DONE => 0x2b | DISPOSE_REGISTER => 0x2c | FOR_IN_CLEANUP => 0x2d | THROW => 0x2e
  | TRY_BEGIN => 0x2f | TRY_END => 0x33 | TRY_FINALLY_BEGIN => 0x34 | TRY_FINALLY_ENTER => 0x1b
  | TRY_FINALLY_END => 0x35 | FOR_OF_DONE => 0x36 | FOR_OF_CLOSE => 0x37 | TEMPLATE_STR => 0x38
  | GET_TEMPLATE_OBJECT => 0x97 | DELETE_PROP_STATIC => 0x39 | DELETE_PROP_DYNAMIC => 0x3a
  | INSTANCEOF => 0x3b | MAKE_CELL => 0x3c | CELL_GET => 0x3d | REST_OBJECT => 0x3e
  | CELL_SET => 0x3f | LOAD_VAR => 0x30 | STORE_VAR => 0x31 | LOAD_CONST => 0x32
  | LOAD_GLOBAL => 0x95 | LOAD_GLOBAL_TYPEOF => 0x96 | CALL => 0x40 | RETURN => 0x41
  | CALL_NATIVE => 0x42 | NEW_EXPRESSION => 0x43 | SUPER_CALL => 0x44 | SUPER_GET_PROP => 0x45
  | SUPER_STATIC_GET_PROP => 0x46 | SET_HOME_OBJECT => 0x47 | DEFINE_ACCESSOR => 0x48
  | LOAD_UPVALUE => 0x49 | CREATE_CLOSURE => 0x4a | CREATE_REGEXP => 0x4b
  | STORE_UPVALUE => 0x4c | CALL_SPREAD => 0x4d | NEW_EXPRESSION_SPREAD => 0x4e
  | SUPER_CALL_SPREAD => 0x4f | IC_GET_PROP => 0x50 | IC_SET_PROP => 0x51 | GET_PROP => 0x52
  | GET_PROP_DYNAMIC => 0x53 | SET_PROP => 0x54 | SET_PROP_DYNAMIC => 0x55 | NEW_OBJECT => 0x56
  | NEW_ARRAY => 0x57 | SET_ELEM => 0x58 | SET_PROP_BATCH => 0x92 | CONCAT_N => 0x93
  | MEMBER_INC => 0x59 | MEMBER_DEC => 0x5a | DYN_MEMBER_INC => 0x5b | DYN_MEMBER_DEC => 0x5c
  | COMPOUND_MEMBER_ADD => 0x5d | COMPOUND_MEMBER_SUB => 0x5e | COMPOUND_MEMBER_MUL => 0x5f
  | COMPOUND_MEMBER_DIV => 0x60 | COMPOUND_MEMBER_MOD => 0x61 | COMPOUND_MEMBER_EXP => 0x62
  | CREATE_ARGUMENTS => 0x63 | CREATE_REST_ARRAY => 0x6e | DISPOSE_MARK => 0x6a
  | DISPOSE_POP => 0x6b | SUPER_PUT_PROP => 0x6c | DEFINE_PROP => 0x6d
  | DEFINE_GLOBAL_PROP => 0x6f | DEFINE_PROP_ATTRS => 0x90 | DEFINE_ACCESSOR_ATTRS => 0x91
  | DEFINE_GLOBAL_PROP_C => 0x98 | DEFINE_GLOBAL_PROP_IF_ABSENT => 0x99
  | DEFINE_GLOBAL_PROP_C_IF_ABSENT => 0x9a | NEW_SESSION_OBJECT => 0x9b
  | DELETE_GLOBAL_PROP_C => 0x9c | CAN_DECLARE_GLOBAL_FUNC => 0x9d
  | DEFINE_GLOBAL_FUNC_BIND => 0x9e | DEFINE_ACCESSOR_ATTRS_DYNAMIC => 0x9f
  | LOAD_GLOBAL_LEX => 0xa0 | STORE_GLOBAL_LEX => 0xa1 | COMPOUND_MEMBER_BIT_AND => 0x64
  | COMPOUND_MEMBER_BIT_OR => 0x65 | COMPOUND_MEMBER_BIT_XOR => 0x66
  | COMPOUND_MEMBER_SHL => 0x67 | COMPOUND_MEMBER_SHR => 0x68 | COMPOUND_MEMBER_USHR => 0x69
  | GET_PRIVATE => 0x72 | SET_PRIVATE => 0x73 | INIT_PRIVATE => 0x74 | PRIVATE_BRAND_IN => 0x75
  | YIELD => 0x76 | SUSPEND_BODY => 0x77 | YIELD_STAR => 0x78 | AWAIT => 0x79
  | FOR_AWAIT_OF_INIT => 0x7a | FOR_AWAIT_OF_NEXT => 0x7b | FOR_AWAIT_OF_DONE => 0x7c
  | FOR_AWAIT_OF_CLOSE => 0x7d | MAKE_CELL_FRESH => 0x7e | DEFINE_ACCESSOR_DYNAMIC => 0x7f
  | BIT_AND => 0x80 | BIT_OR => 0x81 | BIT_XOR => 0x82 | SHL => 0x83 | SHR => 0x84
  | USHR => 0x85 | BIT_NOT => 0x86 | TO_OBJECT => 0x87 | COMPOUND_AND => 0x88
  | COMPOUND_OR => 0x89 | COMPOUND_XOR => 0x8a | COMPOUND_SHL => 0x8b | COMPOUND_SHR => 0x8c
  | COMPOUND_USHR => 0x8d | NULLISH => 0x8e | JMP_IF_NULLISH => 0x8f | NOP => 0xf0
  | HALT => 0xf1 | TYPEOF => 0xf2 | VOID => 0xf3 | DEFINE_GLOBAL_PROP_C_STRICT => 0xf5
  | SET_PROP_DYNAMIC_STRICT => 0xf4
  end.

(** One row of the table: the variant, its [Display] name and its semantics. *)
Record op_row := Row {
  row_op : OpCode;
  row_disp : string;
  row_sem : OpSemantics;
}.

#[local] Abbreviation row op d df us p j t ic :=
  (Row op d (mkOpSemantics df us p j t ic)).
#[local] Open Scope string_scope.

(** Arithmetic. *)
Definition rows_arith : list op_row := [
  row ADD "ADD" (Some (SSlot Slot.Rd)) [SSlot Slot.A; SSlot Slot.B] false false false false;
  row SUB "SUB" (Some (SSlot Slot.Rd)) [SSlot Slot.A; SSlot Slot.B] false false false false;
  row MUL "MUL" (Some (SSlot Slot.Rd)) [SSlot Slot.A; SSlot Slot.B] false false false false;
  row DIV "DIV" (Some (SSlot Slot.Rd)) [SSlot Slot.A; SSlot Slot.B] false false false false;
  row MOD "MOD" (Some (SSlot Slot.Rd)) [SSlot Slot.A; SSlot Slot.B] false false false false;
  row NEG "NEG" (Some (SSlot Slot.Rd)) [SSlot Slot.A] false false false false;
  row COMPOUND_ADD "COMPOUND_ADD" (Some (SSlot Slot.Rd)) [SSlot Slot.Rd; SSlot Slot.A] false false false false;
  row COMPOUND_SUB "COMPOUND_SUB" (Some (SSlot Slot.Rd)) [SSlot Slot.Rd; SSlot Slot.A] false false false false;
  row COMPOUND_MUL "COMPOUND_MUL" (Some (SSlot Slot.Rd)) [SSlot Slot.Rd; SSlot Slot.A] false false false false;
  row COMPOUND_DIV "COMPOUND_DIV" (Some (SSlot Slot.Rd)) [SSlot Slot.Rd; SSlot Slot.A] false false false false;
  row COMPOUND_MOD "COMPOUND_MOD" (Some (SSlot Slot.Rd)) [SSlot Slot.Rd; SSlot Slot.A] false false false false;
  row COMPOUND_EXP "COMPOUND_EXP" (Some (SSlot Slot.Rd)) [SSlot Slot.Rd; SSlot Slot.A] false false false false;
  row EXP "EXP" (Some (SSlot Slot.Rd)) [SSlot Slot.A; SSlot Slot.B] false false false false;
  row MOV "MOV" (Some (SSlot Slot.Rd)) [SSlot Slot.A] true false false false;
  row SPILL "SPILL" None [SSlot Slot.Rd] false false false false;
  row UNSPILL "UNSPILL" (Some (SSlot Slot.Rd)) [] false false false false;
  row SPREAD_OBJECT "SPREAD_OBJECT" (Some (SSlot Slot.Rd)) [SSlot Slot.Rd; SSlot Slot.A] false false false false].

(** Comparison. *)
Definition rows_compare : list op_row := [
  row EQ "EQ" (Some (SSlot Slot.Rd)) [SSlot Slot.A; SSlot Slot.B] false false false false;
  row NEQ "NEQ" (Some (SSlot Slot.Rd)) [SSlot Slot.A; SSlot Slot.B] false false false false;
  row LT "LT" (Some (SSlot Slot.Rd)) [SSlot Slot.A; SSlot Slot.B] false false false false;
  row GT "GT" (Some (SSlot Slot.Rd)) [SSlot Slot.A; SSlot Slot.B] false false false false;
  row LTE "LTE" (Some (SSlot Slot.Rd)) [SSlot Slot.A; SSlot Slot.B] false false false false;
  row GTE "GTE" (Some (SSlot Slot.Rd)) [SSlot Slot.A; SSlot Slot.B] false false false false;
  row IN "IN" (Some (SSlot Slot.Rd)) [SSlot Slot.A; SSlot Slot.B] false false false false;
  row NOT "NOT" (Some (SSlot Slot.Rd)) [SSlot Slot.A] true false false false;
  row AND "AND" (Some (SSlot Slot.Rd)) [SSlot Slot.A; SSlot Slot.B] true false false false;
  row OR "OR" (Some (SSlot Slot.Rd)) [SSlot Slot.A; SSlot Slot.B] true false false false;
  row STRICT_EQ "STRICT_EQ" (Some (SSlot Slot.Rd)) [SSlot Slot.A; SSlot Slot.B] true false false false;
  row STRICT_NEQ "STRICT_NEQ" (Some (SSlot Slot.Rd)) [SSlot Slot.A; SSlot Slot.B] true false false false;
  row UNARY_PLUS "UNARY_PLUS" (Some (SSlot Slot.Rd)) [SSlot Slot.A] false false false false].

(** Control flow. *)
Definition rows_control : list op_row := [
  row BREAK "BREAK" None [] false true true false;
  row CONTINUE "CONTINUE" None [] false true true false;
  row JMP "JMP" None [] false true true false;
  row JMP_IF_FALSE "JMP_IF_FALSE" None [SSlot Slot.Rd] false true true false;
  row JMP_IF_TRUE "JMP_IF_TRUE" None [SSlot Slot.Rd] false true true false;
  row FOR_OF_INIT "FOR_OF_INIT" None [SSlot Slot.A] false false false false;
  row FOR_OF_NEXT "FOR_OF_NEXT" (Some (SSlot Slot.Rd)) [] false false false false].

(** Update. *)
Definition rows_update : list op_row := [
  row INC_PRE "INC_PRE" (Some (SSlot Slot.Rd)) [SSlot Slot.Rd] false false false false;
  row INC_POST "INC_POST" (Some (SSlot Slot.Rd)) [SSlot Slot.Rd] false false false false;
  row DEC_PRE "DEC_PRE" (Some (SSlot Slot.Rd)) [SSlot Slot.Rd] false false false false;
  row DEC_POST "DEC_POST" (Some (SSlot Slot.Rd)) [SSlot Slot.Rd] false false false false;
  row FOR_IN_INIT "FOR_IN_INIT" None [SSlot Slot.A] false false false false;
  row FOR_IN_NEXT "FOR_IN_NEXT" (Some (SSlot Slot.Rd)) [] false false false false;
  row FOR_IN_DONE "FOR_IN_DONE" (Some (SSlot Slot.Rd)) [] false false false false;
  row DISPOSE_REGISTER "DISPOSE_REGISTER" None [SSlot Slot.Rd] false false false false;
  row FOR_IN_CLEANUP "FOR_IN_CLEANUP" None [] false false false false].

(** Exceptions. *)
Definition rows_exception : list op_row := [
  row THROW "THROW" None [SSlot Slot.Rd] false false true false;
  row TRY_BEGIN "TRY_BEGIN" None [] false true false false;
  row TRY_END "TRY_END" None [] false false false false;
  row TRY_FINALLY_BEGIN "TRY_FINALLY_BEGIN" None [] false true false false;
  row TRY_FINALLY_ENTER "TRY_FINALLY_ENTER" None [] false false false false;
  row TRY_FINALLY_END "TRY_FINALLY_END" None [] false false false false;
  row FOR_OF_DONE "FOR_OF_DONE" (Some (SSlot Slot.Rd)) [] false false false false;
  row FOR_OF_CLOSE "FOR_OF_CLOSE" None [] false false false false].

(** Template strings. *)
Definition rows_template : list op_row := [
  row TEMPLATE_STR "TEMPLATE_STR" (Some (SSlot Slot.Rd)) [TemplateExprs] false false false false].

(** Tagged template objects. *)
Definition rows_template_object : list op_row := [
  row GET_TEMPLATE_OBJECT "GET_TEMPLATE_OBJECT" (Some (SSlot Slot.Rd)) [] false false false false].

(** Small language features. *)
Definition rows_language : list op_row := [
  row DELETE_PROP_STATIC "DELETE_PROP_STATIC" None [SSlot Slot.Rd] false false false false;
  row DELETE_PROP_DYNAMIC "DELETE_PROP_DYNAMIC" None [SSlot Slot.Rd; SSlot Slot.B] false false false false;
  row INSTANCEOF "INSTANCEOF" (Some (SSlot Slot.Rd)) [SSlot Slot.A; SSlot Slot.B] false false false false;
  row MAKE_CELL "MAKE_CELL" None [SSlot Slot.Rd] false false false false;
  row CELL_GET "CELL_GET" (Some (SSlot Slot.Rd)) [SSlot Slot.A] true false false false;
  row REST_OBJECT "REST_OBJECT" (Some (SSlot Slot.Rd)) [SSlot Slot.A; SSlot Slot.B] false false false false;
  row CELL_SET "CELL_SET" None [SSlot Slot.A] false false false false].

(** Variables. *)
Definition rows_variable : list op_row := [
  row LOAD_VAR "LOAD_VAR" (Some (SSlot Slot.Rd)) [SSlot Slot.A] true false false false;
  row STORE_VAR "STORE_VAR" (Some (SSlot Slot.Rd)) [SSlot Slot.A] false false false false;
  row LOAD_CONST "LOAD_CONST" (Some (SSlot Slot.Rd)) [] true false false false;
  row LOAD_GLOBAL "LOAD_GLOBAL" (Some (SSlot Slot.Rd)) [] false false false false;
  row LOAD_GLOBAL_TYPEOF "LOAD_GLOBAL_TYPEOF" (Some (SSlot Slot.Rd)) [] false false false false].

(** Calls. *)
Definition rows_call : list op_row := [
  row CALL "CALL" (Some (Reg0)) [SSlot Slot.Rd; SSlot Slot.A; SRange Slot.B] false false false false;
  row RETURN "RETURN" None [SSlot Slot.Rd] false false true false;
  row CALL_NATIVE "CALL_NATIVE" (Some (Reg0)) [SSlot Slot.Rd; SSlot Slot.A; SRange Slot.B] false false false false;
  row NEW_EXPRESSION "NEW_EXPRESSION" (Some (SSlot Slot.Rd)) [SSlot Slot.A; SRange Slot.B] false false false false;
  row SUPER_CALL "SUPER_CALL" (Some (SSlot Slot.Rd)) [SRange Slot.A] false false false false;
  row SUPER_GET_PROP "SUPER_GET_PROP" (Some (SSlot Slot.Rd)) [SSlot Slot.A; SSlot Slot.B] false false false false;
  row SUPER_STATIC_GET_PROP "SUPER_STATIC_GET_PROP" (Some (SSlot Slot.Rd)) [SSlot Slot.A; SSlot Slot.B] false false false false;
  row SET_HOME_OBJECT "SET_HOME_OBJECT" None [SSlot Slot.Rd; SSlot Slot.A] false false false false;
  row DEFINE_ACCESSOR "DEFINE_ACCESSOR" None [SSlot Slot.Rd; SSlot Slot.A; SSlot Slot.B] false false false false;
  row LOAD_UPVALUE "LOAD_UPVALUE" (Some (SSlot Slot.Rd)) [] true false false false;
  row CREATE_CLOSURE "CREATE_CLOSURE" (Some (SSlot Slot.Rd)) [] true false false false;
  row CREATE_REGEXP "CREATE_REGEXP" (Some (SSlot Slot.Rd)) [SSlot Slot.A; SSlot Slot.B] false false false false;
  row STORE_UPVALUE "STORE_UPVALUE" None [SSlot Slot.A] false false false false;
  row CALL_SPREAD "CALL_SPREAD" (Some (Reg0)) [SSlot Slot.Rd; SSlot Slot.A; SpreadArgs] false false false false;
  row NEW_EXPRESSION_SPREAD "NEW_EXPRESSION_SPREAD" (Some (SSlot Slot.Rd)) [SSlot Slot.A; SpreadArgs] false false false false;
  row SUPER_CALL_SPREAD "SUPER_CALL_SPREAD" (Some (SSlot Slot.Rd)) [SpreadArgs] false false false false].

(** Object properties. *)
Definition rows_property : list op_row := [
  row IC_GET_PROP "IC_GET_PROP" (Some (SSlot Slot.A)) [SSlot Slot.A; SSlot Slot.B] false false false true;
  row IC_SET_PROP "IC_SET_PROP" None [SSlot Slot.Rd; SSlot Slot.A; SSlot Slot.B] false false false true;
  row GET_PROP "GET_PROP" (Some (SSlot Slot.A)) [SSlot Slot.Rd; SSlot Slot.B] false false false false;
  row GET_PROP_DYNAMIC "GET_PROP_DYNAMIC" (Some (SSlot Slot.B)) [SSlot Slot.Rd; SSlot Slot.A] false false false false;
  row SET_PROP "SET_PROP" None [SSlot Slot.Rd; SSlot Slot.A; SSlot Slot.B] false false false false;
  row SET_PROP_DYNAMIC "SET_PROP_DYNAMIC" None [SSlot Slot.Rd; SSlot Slot.A; SSlot Slot.B] false false false false;
  row NEW_OBJECT "NEW_OBJECT" (Some (SSlot Slot.Rd)) [] true false false false;
  row NEW_ARRAY "NEW_ARRAY" (Some (SSlot Slot.Rd)) [] true false false false;
  row SET_ELEM "SET_ELEM" None [SSlot Slot.Rd; SSlot Slot.A; SSlot Slot.B] false false false false;
  row SET_PROP_BATCH "SET_PROP_BATCH" None [SSlot Slot.Rd; SSlot Slot.A; SSlot Slot.B] false false false false;
  row CONCAT_N "CONCAT_N" (Some (SSlot Slot.Rd)) [SSlot Slot.A; SpreadArgs] false false false false].

(** Member update. *)
Definition rows_member_update : list op_row := [
  row MEMBER_INC "MEMBER_INC" (Some (SSlot Slot.A)) [SSlot Slot.Rd; SSlot Slot.B] false false false true;
  row MEMBER_DEC "MEMBER_DEC" (Some (SSlot Slot.A)) [SSlot Slot.Rd; SSlot Slot.B] false false false true;
  row DYN_MEMBER_INC "DYN_MEMBER_INC" (Some (SSlot Slot.B)) [SSlot Slot.Rd; SSlot Slot.A] false false false false;
  row DYN_MEMBER_DEC "DYN_MEMBER_DEC" (Some (SSlot Slot.B)) [SSlot Slot.Rd; SSlot Slot.A] false false false false;
  row COMPOUND_MEMBER_ADD "COMPOUND_MEMBER_ADD" (Some (SSlot Slot.A)) [SSlot Slot.Rd; SSlot Slot.A; SSlot Slot.B] false false false true;
  row COMPOUND_MEMBER_SUB "COMPOUND_MEMBER_SUB" (Some (SSlot Slot.A)) [SSlot Slot.Rd; SSlot Slot.A; SSlot Slot.B] false false false true;
  row COMPOUND_MEMBER_MUL "COMPOUND_MEMBER_MUL" (Some (SSlot Slot.A)) [SSlot Slot.Rd; SSlot Slot.A; SSlot Slot.B] false false false true;
  row COMPOUND_MEMBER_DIV "COMPOUND_MEMBER_DIV" (Some (SSlot Slot.A)) [SSlot Slot.Rd; SSlot Slot.A; SSlot Slot.B] false false false true;
  row COMPOUND_MEMBER_MOD "COMPOUND_MEMBER_MOD" (Some (SSlot Slot.A)) [SSlot Slot.Rd; SSlot Slot.A; SSlot Slot.B] false false false true;
  row COMPOUND_MEMBER_EXP "COMPOUND_MEMBER_EXP" (Some (SSlot Slot.A)) [SSlot Slot.Rd; SSlot Slot.A; SSlot Slot.B] false false false true].

(** Objects. *)
Definition rows_object : list op_row := [
  row CREATE_ARGUMENTS "CREATE_ARGUMENTS" (Some (SSlot Slot.Rd)) [] false false false false;
  row CREATE_REST_ARRAY "CREATE_REST_ARRAY" (Some (SSlot Slot.Rd)) [] false false false false].

(** using / await using. *)
Definition rows_dispose : list op_row := [
  row DISPOSE_MARK "DISPOSE_MARK" None [] false false false false;
  row DISPOSE_POP "DISPOSE_POP" None [] false false false false;
  row SUPER_PUT_PROP "SUPER_PUT_PROP" None [SSlot Slot.Rd; SSlot Slot.A; SSlot Slot.B] false false false false].

(** define-semantics property writes. *)
Definition rows_define : list op_row := [
  row DEFINE_PROP "DEFINE_PROP" None [SSlot Slot.Rd; SSlot Slot.A; SSlot Slot.B] false false false false;
  row DEFINE_GLOBAL_PROP "DEFINE_GLOBAL_PROP" None [SSlot Slot.Rd; SSlot Slot.A; SSlot Slot.B] false false false false;
  row DEFINE_PROP_ATTRS "DEFINE_PROP_ATTRS" None [SSlot Slot.Rd; SSlot Slot.A; SSlot Slot.B] false false false false;
  row DEFINE_ACCESSOR_ATTRS "DEFINE_ACCESSOR_ATTRS" None [SSlot Slot.Rd; SSlot Slot.A; SSlot Slot.B] false false false false;
  row DEFINE_GLOBAL_PROP_C "DEFINE_GLOBAL_PROP_C" None [SSlot Slot.A] false false false false;
  row DEFINE_GLOBAL_PROP_IF_ABSENT "DEFINE_GLOBAL_PROP_IF_ABSENT" None [SSlot Slot.Rd; SSlot Slot.A; SSlot Slot.B] false false false false;
  row DEFINE_GLOBAL_PROP_C_IF_ABSENT "DEFINE_GLOBAL_PROP_C_IF_ABSENT" None [SSlot Slot.A] false false false false;
  row NEW_SESSION_OBJECT "NEW_SESSION_OBJECT" (Some (SSlot Slot.Rd)) [] true false false false;
  row DELETE_GLOBAL_PROP_C "DELETE_GLOBAL_PROP_C" (Some (SSlot Slot.Rd)) [SSlot Slot.A] false false false false;
  row CAN_DECLARE_GLOBAL_FUNC "CAN_DECLARE_GLOBAL_FUNC" None [SSlot Slot.Rd; SSlot Slot.B] false false false false;
  row DEFINE_GLOBAL_FUNC_BIND "DEFINE_GLOBAL_FUNC_BIND" None [SSlot Slot.Rd; SSlot Slot.A; SSlot Slot.B] false false false false;
  row DEFINE_ACCESSOR_ATTRS_DYNAMIC "DEFINE_ACCESSOR_ATTRS_DYNAMIC" None [SSlot Slot.Rd; SSlot Slot.A; SSlot Slot.B; ExtReg] false false false false;
  row LOAD_GLOBAL_LEX "LOAD_GLOBAL_LEX" (Some (SSlot Slot.Rd)) [] false false false false;
  row STORE_GLOBAL_LEX "STORE_GLOBAL_LEX" None [SSlot Slot.A] false false false false].

(** Member compound assignment: bitwise. *)
Definition rows_member_bitwise : list op_row := [
  row COMPOUND_MEMBER_BIT_AND "COMPOUND_MEMBER_BIT_AND" (Some (SSlot Slot.A)) [SSlot Slot.Rd; SSlot Slot.A; SSlot Slot.B] false false false true;
  row COMPOUND_MEMBER_BIT_OR "COMPOUND_MEMBER_BIT_OR" (Some (SSlot Slot.A)) [SSlot Slot.Rd; SSlot Slot.A; SSlot Slot.B] false false false true;
  row COMPOUND_MEMBER_BIT_XOR "COMPOUND_MEMBER_BIT_XOR" (Some (SSlot Slot.A)) [SSlot Slot.Rd; SSlot Slot.A; SSlot Slot.B] false false false true;
  row COMPOUND_MEMBER_SHL "COMPOUND_MEMBER_SHL" (Some (SSlot Slot.A)) [SSlot Slot.Rd; SSlot Slot.A; SSlot Slot.B] false false false true;
  row COMPOUND_MEMBER_SHR "COMPOUND_MEMBER_SHR" (Some (SSlot Slot.A)) [SSlot Slot.Rd; SSlot Slot.A; SSlot Slot.B] false false false true;
  row COMPOUND_MEMBER_USHR "COMPOUND_MEMBER_USHR" (Some (SSlot Slot.A)) [SSlot Slot.Rd; SSlot Slot.A; SSlot Slot.B] false false false true].

(** Private names. *)
Definition rows_private : list op_row := [
  row GET_PRIVATE "GET_PRIVATE" (Some (SSlot Slot.Rd)) [SSlot Slot.A; SSlot Slot.B; BrandReg] false false false false;
  row SET_PRIVATE "SET_PRIVATE" None [SSlot Slot.Rd; SSlot Slot.A; SSlot Slot.B; BrandReg] false false false false;
  row INIT_PRIVATE "INIT_PRIVATE" None [SSlot Slot.Rd; SSlot Slot.A; SSlot Slot.B] false false false false;
  row PRIVATE_BRAND_IN "PRIVATE_BRAND_IN" (Some (SSlot Slot.Rd)) [SSlot Slot.A; SSlot Slot.B] false false false false].

(** Generators and async. *)
Definition rows_generator : list op_row := [
  row YIELD "YIELD" (Some (Reg0)) [SSlot Slot.Rd] false false false false;
  row SUSPEND_BODY "SUSPEND_BODY" None [] false false false false;
  row YIELD_STAR "YIELD_STAR" (Some (Reg0)) [SSlot Slot.Rd] false false false false;
  row AWAIT "AWAIT" (Some (Reg0)) [SSlot Slot.Rd] false false false false;
  row FOR_AWAIT_OF_INIT "FOR_AWAIT_OF_INIT" None [SSlot Slot.A] false false false false;
  row FOR_AWAIT_OF_NEXT "FOR_AWAIT_OF_NEXT" (Some (SSlot Slot.Rd)) [] false false false false;
  row FOR_AWAIT_OF_DONE "FOR_AWAIT_OF_DONE" (Some (SSlot Slot.Rd)) [SSlot Slot.A] false false false false;
  row FOR_AWAIT_OF_CLOSE "FOR_AWAIT_OF_CLOSE" None [] false false false false;
  row MAKE_CELL_FRESH "MAKE_CELL_FRESH" None [SSlot Slot.Rd] false false false false;
  row DEFINE_ACCESSOR_DYNAMIC "DEFINE_ACCESSOR_DYNAMIC" None [SSlot Slot.Rd; SSlot Slot.A; SSlot Slot.B; ExtReg] false false false false].

(** Bitwise. *)
Definition rows_bitwise : list op_row := [
  row BIT_AND "BIT_AND" (Some (SSlot Slot.Rd)) [SSlot Slot.A; SSlot Slot.B] false false false false;
  row BIT_OR "BIT_OR" (Some (SSlot Slot.Rd)) [SSlot Slot.A; SSlot Slot.B] false false false false;
  row BIT_XOR "BIT_XOR" (Some (SSlot Slot.Rd)) [SSlot Slot.A; SSlot Slot.B] false false false false;
  row SHL "SHL" (Some (SSlot Slot.Rd)) [SSlot Slot.A; SSlot Slot.B] false false false false;
  row SHR "SHR" (Some (SSlot Slot.Rd)) [SSlot Slot.A; SSlot Slot.B] false false false false;
  row USHR "USHR" (Some (SSlot Slot.Rd)) [SSlot Slot.A; SSlot Slot.B] false false false false;
  row BIT_NOT "BIT_NOT" (Some (SSlot Slot.Rd)) [SSlot Slot.A] false false false false;
  row TO_OBJECT "TO_OBJECT" (Some (SSlot Slot.Rd)) [SSlot Slot.Rd] false false false false;
  row COMPOUND_AND "COMPOUND_AND" (Some (SSlot Slot.Rd)) [SSlot Slot.Rd; SSlot Slot.A] false false false false;
  row COMPOUND_OR "COMPOUND_OR" (Some (SSlot Slot.Rd)) [SSlot Slot.Rd; SSlot Slot.A] false false false false;
  row COMPOUND_XOR "COMPOUND_XOR" (Some (SSlot Slot.Rd)) [SSlot Slot.Rd; SSlot Slot.A] false false false false;
  row COMPOUND_SHL "COMPOUND_SHL" (Some (SSlot Slot.Rd)) [SSlot Slot.Rd; SSlot Slot.A] false false false false;
  row COMPOUND_SHR "COMPOUND_SHR" (Some (SSlot Slot.Rd)) [SSlot Slot.Rd; SSlot Slot.A] false false false false;
  row COMPOUND_USHR "COMPOUND_USHR" (Some (SSlot Slot.Rd)) [SSlot Slot.Rd; SSlot Slot.A] false false false false;
  row NULLISH "NULLISH" (Some (SSlot Slot.Rd)) [SSlot Slot.A; SSlot Slot.B] true false false false;
  row JMP_IF_NULLISH "JMP_IF_NULLISH" None [SSlot Slot.Rd] false true true false].

(** Miscellaneous. *)
Definition rows_misc : list op_row := [
  row NOP "NOP" (Some (SSlot Slot.Rd)) [] true false false false;
  row HALT "HALT" None [Reg0] false false true false;
  row TYPEOF "TYPEOF" (Some (SSlot Slot.Rd)) [SSlot Slot.A] true false false false;
  row VOID "VOID" (Some (SSlot Slot.Rd)) [] true false false false;
  row DEFINE_GLOBAL_PROP_C_STRICT "DEFINE_GLOBAL_PROP_C_STRICT" None [SSlot Slot.A] false false false false;
  row SET_PROP_DYNAMIC_STRICT "SET_PROP_DYNAMIC_STRICT" None [SSlot Slot.Rd; SSlot Slot.A; SSlot Slot.B] false false false false].

(** The whole table, in source order. *)
Definition opcode_table : list op_row :=
  rows_arith ++ rows_compare ++ rows_control ++ rows_update ++ rows_exception ++
  rows_template ++ rows_template_object ++ rows_language ++ rows_variable ++ rows_call ++
  rows_property ++ rows_member_update ++ rows_object ++ rows_dispose ++ rows_define ++
  rows_member_bitwise ++ rows_private ++ rows_generator ++ rows_bitwise ++ rows_misc.

#[local] Close Scope string_scope.

(** ** What the macro generates from the table *)

(** [TryFrom<u8>]: the variant whose discriminant is the byte. *)
Definition try_from (value : N) : option OpCode :=
  row_op <$> List.find (λ r, discriminant (row_op r) =? value) opcode_table.

Definition row_of (op : OpCode) : option op_row :=
  List.find (λ r, discriminant (row_op r) =? discriminant op) opcode_table.

(** [OpCode::semantics]; the table has a row for every variant
    ([row_of_total]), so the default is never taken. *)
Definition semantics (op : OpCode) : OpSemantics :=
  match row_of op with
  | Some r => row_sem r
  | None => mkOpSemantics None [] false false false false
  end.

Definition op_display (op : OpCode) : string :=
  match row_of op with Some r => row_disp r | None => EmptyString end.

Definition is_jump (op : OpCode) : bool := sem_is_jump (semantics op).
Definition is_terminator (op : OpCode) : bool := sem_is_terminator (semantics op).
Definition has_ic_ext_words (op : OpCode) : bool := sem_ic_ext (semantics op).

(** ** Instruction words *)
Module Instr.

Definition encode (op : OpCode) (rd a b : N) : N :=
  N.lor (N.lor (N.lor (N.shiftl b 24) (N.shiftl a 16)) (N.shiftl rd 8)) (discriminant op).

Definition opcode (instr : N) : OpCode :=
  match try_from (N.land instr 0xFF) with Some op => op | None => NOP end.

Definition rd (instr : N) : N := N.land (N.shiftr instr 8) 0xFF.
Definition a (instr : N) : N := N.land (N.shiftr instr 16) 0xFF.
Definition b (instr : N) : N := N.land (N.shiftr instr 24) 0xFF.
Definition imm16 (instr : N) : N := N.land (N.shiftr instr 16) 0xFFFF.
Definition offset16 (instr : N) : Z := u16_to_i16 (N.land (N.shiftr instr 16) 0xFFFF).

(** The low and high byte of an [i16] offset, as the encoders split it. *)
Definition off_lo (offset : Z) : N := N.land (i16_to_u16 offset) 0xFF.
Definition off_hi (offset : Z) : N := N.land (N.shiftr (i16_to_u16 offset) 8) 0xFF.

Definition encode_jmp (offset : Z) : N :=
  encode JMP 0 (off_lo offset) (off_hi offset).
Definition encode_jmp_if_false (rd : N) (offset : Z) : N :=
  encode JMP_IF_FALSE rd (off_lo offset) (off_hi offset).
Definition encode_jmp_if_true (rd : N) (offset : Z) : N :=
  encode JMP_IF_TRUE rd (off_lo offset) (off_hi offset).
Definition encode_jmp_if_nullish (rd : N) (offset : Z) : N :=
  encode JMP_IF_NULLISH rd (off_lo offset) (off_hi offset).
Definition encode_try_begin (offset : Z) : N :=
  encode TRY_BEGIN 0 (off_lo offset) (off_hi offset).
Definition encode_try_finally_begin (offset : Z) : N :=
  encode TRY_FINALLY_BEGIN 0 (off_lo offset) (off_hi offset).

(** The number of extension words as a function of the opcode, the header
    word and the [a] byte. *)
Definition ext_count (op : OpCode) (header abyte : N) : nat :=
  if has_ic_ext_words op then IC_EXT_WORDS
  else match op with
  | SPILL | UNSPILL | CALL | CALL_NATIVE | NEW_EXPRESSION | SUPER_CALL
  | DEFINE_ACCESSOR | DEFINE_ACCESSOR_DYNAMIC | DEFINE_PROP_ATTRS
  | DEFINE_GLOBAL_PROP_C | DEFINE_GLOBAL_PROP_C_STRICT
  | DEFINE_GLOBAL_PROP_C_IF_ABSENT | DELETE_GLOBAL_PROP_C | DELETE_PROP_STATIC
  | REST_OBJECT | INIT_PRIVATE | STORE_GLOBAL_LEX => 1%nat
  | DEFINE_ACCESSOR_ATTRS | DEFINE_ACCESSOR_ATTRS_DYNAMIC | GET_PRIVATE
  | SET_PRIVATE | PRIVATE_BRAND_IN => 2%nat
  | BREAK | CONTINUE | RETURN => 2%nat
  | CALL_SPREAD | NEW_EXPRESSION_SPREAD | SUPER_CALL_SPREAD =>
      (1 + N.to_nat (N.land header 0xFF) + N.to_nat (N.land (N.shiftr header 8) 0xFF))%nat
  | TEMPLATE_STR => (1 + N.to_nat (N.land (N.shiftr header 16) 0xFFFF))%nat
  | GET_TEMPLATE_OBJECT => (2 + 2 * N.to_nat header)%nat
  | CONCAT_N => N.to_nat header
  | NEW_OBJECT => N.to_nat abyte
  | _ => 0%nat
  end.

(** [ext_word_count]: [bytecode[pc]] panics out of range, the header word
    defaults to [0] past the end. *)
Definition ext_word_count (bytecode : list N) (pc : nat) : res nat :=
  let* instr := vec_get bytecode pc in
  Ok (ext_count (opcode instr) (default 0 (bytecode !! (pc + 1)%nat)) (a instr)).

End Instr.

(** ** The table is a bijection *)

Lemma row_of_total op : ∃ r, row_of op = Some r ∧ row_op r = op.
Proof. destruct op; (eexists; split; reflexivity). Qed.

Lemma try_from_discriminant op : try_from (discriminant op) = Some op.
Proof. by destruct op. Qed.

#[export] Instance discriminant_inj : Inj (=) (=) discriminant.
Proof.
  intros op1 op2 E. apply (f_equal try_from) in E.
  rewrite !try_from_discriminant in E. congruence.
Qed.

#[export] Instance OpCode_eq_dec : EqDecision OpCode.
Proof.
  refine (λ op1 op2, match decide (discriminant op1 = discriminant op2) with
                     | left E => left _ | right E => right _ end).
  - by apply (inj discriminant).
  - congruence.
Defined.

#[export] Program Instance OpCode_countable : Countable OpCode :=
  inj_countable discriminant try_from _.
Next Obligation. intros; by rewrite try_from_discriminant. Qed.

Lemma try_from_Some value op : try_from value = Some op → discriminant op = value.
Proof.
  unfold try_from. destruct (List.find _ _) as [r|] eqn:E; simpl; [|done].
  intros [= <-]. apply List.find_some in E as [_ E]. by apply N.eqb_eq in E.
Qed.

Lemma discriminant_lt op : discriminant op < 256.
Proof. by destruct op. Qed.
#[export] Hint Resolve discriminant_lt : oxide.

(** ** Round trips of the instruction word *)

Lemma encode_arith op rd a b :
  rd < 256 → a < 256 → Instr.encode op rd a b =
  b * 2^24 + a * 2^16 + rd * 2^8 + discriminant op.
Proof. intros. apply pack_bytes; [apply discriminant_lt | done..]. Qed.

Section encode_fields.
Context (op : OpCode) (r x y : N) (Hr : r < 256) (Hx : x < 256) (Hy : y < 256).

Lemma opcode_encode : Instr.opcode (Instr.encode op r x y) = op.
Proof.
  unfold Instr.opcode. rewrite encode_arith, land_byte by done.
  replace (_ mod 256) with (discriminant op).
  - by rewrite try_from_discriminant.
  - pose proof (discriminant_lt op). bits_lia.
Qed.

Lemma rd_encode : Instr.rd (Instr.encode op r x y) = r.
Proof.
  unfold Instr.rd. rewrite encode_arith by done.
  pose proof (discriminant_lt op). bits_lia.
Qed.

Lemma a_encode : Instr.a (Instr.encode op r x y) = x.
Proof.
  unfold Instr.a. rewrite encode_arith by done.
  pose proof (discriminant_lt op). bits_lia.
Qed.

Lemma b_encode : Instr.b (Instr.encode op r x y) = y.
Proof.
  unfold Instr.b. rewrite encode_arith by done.
  pose proof (discriminant_lt op). bits_lia.
Qed.

Lemma imm16_encode : Instr.imm16 (Instr.encode op r x y) = y * 256 + x.
Proof.
  unfold Instr.imm16. rewrite encode_arith by done.
  pose proof (discriminant_lt op). bits_lia.
Qed.

Lemma encode_u32 : Instr.encode op r x y < 2^32.
Proof.
  rewrite encode_arith by done. pose proof (discriminant_lt op). bits_lia.
Qed.
End encode_fields.

Lemma offset16_encode op r z :
  r < 256 → in_i16 z →
  Instr.offset16 (Instr.encode op r (Instr.off_lo z) (Instr.off_hi z)) = z.
Proof.
  intros Hr [Hlo Hhi]. unfold Instr.offset16.
  change (N.land (N.shiftr ?w 16) 0xFFFF) with (Instr.imm16 w).
  assert (Instr.off_lo z < 256 ∧ Instr.off_hi z < 256 ∧
          Instr.off_hi z * 256 + Instr.off_lo z = i16_to_u16 z) as (? & ? & E).
  { unfold Instr.off_lo, Instr.off_hi, i16_to_u16. bits_lia. }
  rewrite imm16_encode, E by done.
  unfold u16_to_i16, i16_to_u16. destruct (N.ltb_spec (Z.to_N (z mod 2^16)) (2^15)); bits_lia.
Qed.

Lemma encode_fields w :
  w < 2^32 → discriminant (Instr.opcode w) = N.land w 0xFF →
  Instr.encode (Instr.opcode w) (Instr.rd w) (Instr.a w) (Instr.b w) = w.
Proof.
  intros Hw Hop. rewrite encode_arith.
  - rewrite Hop. unfold Instr.rd, Instr.a, Instr.b. bits_lia.
  - unfold Instr.rd. bits_lia.
  - unfold Instr.a. bits_lia.
Qed.

(** ** Properties *)

(** The conversion from a byte accepts exactly the discriminants of the
    166 opcodes and inverts them: no two opcodes share a byte, and every other
    byte is rejected. *)
Theorem try_from_iff value op : try_from value = Some op ↔ discriminant op = value.
Proof.
  split; [apply try_from_Some|]. intros <-. apply try_from_discriminant.
Qed.

(** Encoding an instruction word and reading its fields back gives the
    opcode and the three slot bytes, the word fits 32 bits, and the 16-bit
    immediate is the two upper bytes. *)
Theorem encode_roundtrip op r x y :
  r < 256 → x < 256 → y < 256 →
  Instr.encode op r x y < 2^32 ∧
  Instr.opcode (Instr.encode op r x y) = op ∧ Instr.rd (Instr.encode op r x y) = r ∧
  Instr.a (Instr.encode op r x y) = x ∧ Instr.b (Instr.encode op r x y) = y ∧
  Instr.imm16 (Instr.encode op r x y) = N.shiftl y 8 + x.
Proof.
  intros. rewrite opcode_encode, rd_encode, a_encode, b_encode, imm16_encode by done.
  split_and!; [by apply encode_u32 | done..|]. by rewrite N.shiftl_mul_pow2.
Qed.

(** Decoding and re-encoding a word gives the word back, for every 32-bit
    word whose low byte is an opcode; the sign-extended offset of a jump word
    survives being split into two bytes for every 16-bit distance. *)
Theorem decode_roundtrip w z r op :
  w < 2^32 → is_Some (try_from (N.land w 0xFF)) → in_i16 z → r < 256 →
  Instr.encode (Instr.opcode w) (Instr.rd w) (Instr.a w) (Instr.b w) = w ∧
  Instr.offset16 (Instr.encode op r (Instr.off_lo z) (Instr.off_hi z)) = z.
Proof.
  intros Hw [op' Hop] Hz Hr. split; [|by apply offset16_encode].
  apply encode_fields; [done|]. unfold Instr.opcode. rewrite Hop. by apply try_from_Some.
Qed.

Lemma encode_roundtrip_witness :
  Instr.encode ADD 3 7 250 < 2^32 ∧
  Instr.opcode (Instr.encode ADD 3 7 250) = ADD ∧ Instr.rd (Instr.encode ADD 3 7 250) = 3 ∧
  Instr.a (Instr.encode ADD 3 7 250) = 7 ∧ Instr.b (Instr.encode ADD 3 7 250) = 250 ∧
  Instr.imm16 (Instr.encode ADD 3 7 250) = N.shiftl 250 8 + 7.
Proof. apply (encode_roundtrip ADD 3 7 250); reflexivity. Defined.

Lemma decode_roundtrip_witness :
  Instr.encode (Instr.opcode 0xFFFE0200) (Instr.rd 0xFFFE0200) (Instr.a 0xFFFE0200)
    (Instr.b 0xFFFE0200) = 0xFFFE0200 ∧
  Instr.offset16 (Instr.encode JMP_IF_FALSE 9 (Instr.off_lo (-300)) (Instr.off_hi (-300))) = (-300)%Z.
Proof.
  apply (decode_roundtrip 0xFFFE0200 (-300) 9 JMP_IF_FALSE); [reflexivity | | | reflexivity].
  - eexists. reflexivity.
  - split; reflexivity || discriminate.
Defined.
