(* ===== verification/IR.v ===== *)
(** * Intermediate representation (crates/oxide_ir/src: operand.rs, inst.rs, lib.rs)

    Operands, instructions with their extension words, the constructor API
    that fixes each instruction's extension layout, and the per-function IR
    record with its nested functions. *)

From stdpp Require Import base tactics numbers list option strings.
From Stdlib Require Import NArith ZArith Lia.
From S2P Require Import Prelude Opcode.
#[local] Set Warnings "-register-all".

Open Scope N_scope.

(** ** Operands *)
Definition LabelId := N.

Inductive Operand :=
  | Reg (r : N)
  | Const (idx : N)
  | Label (l : N)
  | Imm (v : N)
  | This
  | NewTarget
  | ONone.

#[export] Instance Operand_eq_dec : EqDecision Operand.
Proof. solve_decision. Defined.

(** ** Instructions *)
Record Inst := mkInst {
  i_op : OpCode;
  i_rd : Operand;
  i_a : Operand;
  i_b : Operand;
  i_ext : list N;
}.

#[export] Instance Inst_eq_dec : EqDecision Inst.
Proof. solve_decision. Defined.

(** ** Constructor API *)
Module MkInst.

Definition new (op : OpCode) (rd a b : Operand) : Inst := mkInst op rd a b [].
Definition with_ext (op : OpCode) (rd a b : Operand) (ext : list N) : Inst :=
  mkInst op rd a b ext.

(** Escaped for-of / for-in depths packed into one word. *)
Definition pack_escape_counts (for_of_count for_in_count : N) : N :=
  N.lor (u32 (N.shiftl (N.min for_in_count 0xFFFF) 16)) (N.min for_of_count 0xFFFF).

Definition is_spread_word (w : N) : bool := N.shiftr w 31 =? 1.

(** Header word [nstatic | nspread << 8] followed by the argument words. *)
Definition spread_ext (words : list N) : list N :=
  let nspread := N.of_nat (length (List.filter is_spread_word words)) in
  let nstatic := N.of_nat (length words) - nspread in
  N.lor nstatic (u32 (N.shiftl nspread 8)) :: words.

Definition ic_words : list N := replicate IC_EXT_WORDS 0.

(** Inline-cached property access: [IC_EXT_WORDS] zeroed cache words. *)
Definition ic_get (dst key : Operand) : Inst :=
  with_ext IC_GET_PROP ONone dst key ic_words.
Definition ic_set (obj value key : Operand) : Inst :=
  with_ext IC_SET_PROP obj value key ic_words.
Definition member_inc (obj val key : Operand) : Inst :=
  with_ext MEMBER_INC obj val key ic_words.
Definition member_dec (obj val key : Operand) : Inst :=
  with_ext MEMBER_DEC obj val key ic_words.
Definition compound_member_add (obj val key : Operand) : Inst :=
  with_ext COMPOUND_MEMBER_ADD obj val key ic_words.
Definition compound_member_sub (obj val key : Operand) : Inst :=
  with_ext COMPOUND_MEMBER_SUB obj val key ic_words.
Definition compound_member_mul (obj val key : Operand) : Inst :=
  with_ext COMPOUND_MEMBER_MUL obj val key ic_words.
Definition compound_member_div (obj val key : Operand) : Inst :=
  with_ext COMPOUND_MEMBER_DIV obj val key ic_words.
Definition compound_member_mod (obj val key : Operand) : Inst :=
  with_ext COMPOUND_MEMBER_MOD obj val key ic_words.
Definition compound_member_exp (obj val key : Operand) : Inst :=
  with_ext COMPOUND_MEMBER_EXP obj val key ic_words.
Definition compound_member_bit_and (obj val key : Operand) : Inst :=
  with_ext COMPOUND_MEMBER_BIT_AND obj val key ic_words.
Definition compound_member_bit_or (obj val key : Operand) : Inst :=
  with_ext COMPOUND_MEMBER_BIT_OR obj val key ic_words.
Definition compound_member_bit_xor (obj val key : Operand) : Inst :=
  with_ext COMPOUND_MEMBER_BIT_XOR obj val key ic_words.
Definition compound_member_shl (obj val key : Operand) : Inst :=
  with_ext COMPOUND_MEMBER_SHL obj val key ic_words.
Definition compound_member_shr (obj val key : Operand) : Inst :=
  with_ext COMPOUND_MEMBER_SHR obj val key ic_words.
Definition compound_member_ushr (obj val key : Operand) : Inst :=
  with_ext COMPOUND_MEMBER_USHR obj val key ic_words.

(** Calls: [ext = [nargs]]; register allocation adds the live bound later. *)
Definition call (callee this first_arg : Operand) (nargs : N) : Inst :=
  with_ext CALL callee this first_arg [nargs].
Definition call_native (callee this first_arg : Operand) (nargs : N) : Inst :=
  with_ext CALL_NATIVE callee this first_arg [nargs].
Definition new_expression (result constructor first_arg : Operand) (nargs : N) : Inst :=
  with_ext NEW_EXPRESSION result constructor first_arg [nargs].
Definition super_call (result first_arg : Operand) (nargs : N) : Inst :=
  with_ext SUPER_CALL result first_arg ONone [nargs].
Definition call_spread (callee this : Operand) (words : list N) : Inst :=
  with_ext CALL_SPREAD callee this ONone (spread_ext words).
Definition new_expression_spread (result constructor : Operand) (words : list N) : Inst :=
  with_ext NEW_EXPRESSION_SPREAD result constructor ONone (spread_ext words).
Definition super_call_spread (result : Operand) (words : list N) : Inst :=
  with_ext SUPER_CALL_SPREAD result ONone ONone (spread_ext words).

(** Private names, accessors and property definition. *)
Definition get_private (result obj key : Operand) (brand_reg brand_id : N) : Inst :=
  with_ext GET_PRIVATE result obj key [brand_reg; brand_id].
Definition private_brand_in (result obj key : Operand) (brand_reg brand_id : N) : Inst :=
  with_ext PRIVATE_BRAND_IN result obj key [brand_reg; brand_id].
Definition set_private (obj value key : Operand) (brand_reg brand_id : N) : Inst :=
  with_ext SET_PRIVATE obj value key [brand_reg; brand_id].
Definition init_private (target value key : Operand) (is_method : bool) : Inst :=
  with_ext INIT_PRIVATE target value key [N.b2n is_method].
Definition define_accessor (home get set : Operand) (key_idx : N) : Inst :=
  with_ext DEFINE_ACCESSOR home get set [key_idx].
Definition define_accessor_attrs (home get set : Operand) (key_idx attrs : N) : Inst :=
  with_ext DEFINE_ACCESSOR_ATTRS home get set [key_idx; attrs].
Definition define_accessor_attrs_dynamic (home get set : Operand) (key_reg attrs : N) : Inst :=
  with_ext DEFINE_ACCESSOR_ATTRS_DYNAMIC home get set [N.lor 0x80000000 key_reg; attrs].
Definition define_accessor_dynamic (home get set : Operand) (key_reg : N) : Inst :=
  with_ext DEFINE_ACCESSOR_DYNAMIC home get set [N.lor 0x80000000 key_reg].
Definition define_prop (target value key : Operand) : Inst :=
  new DEFINE_PROP target value key.
Definition define_prop_attrs (target value key : Operand) (attrs : N) : Inst :=
  with_ext DEFINE_PROP_ATTRS target value key [attrs].
Definition define_global_prop (target value key : Operand) : Inst :=
  new DEFINE_GLOBAL_PROP target value key.
Definition define_global_prop_c (value : Operand) (key_idx : N) : Inst :=
  with_ext DEFINE_GLOBAL_PROP_C ONone value ONone [key_idx].
Definition define_global_prop_c_strict (value : Operand) (key_idx : N) : Inst :=
  with_ext DEFINE_GLOBAL_PROP_C_STRICT ONone value ONone [key_idx].
Definition define_global_prop_if_absent (target value key : Operand) : Inst :=
  new DEFINE_GLOBAL_PROP_IF_ABSENT target value key.
Definition define_global_prop_c_if_absent (value : Operand) (key_idx : N) : Inst :=
  with_ext DEFINE_GLOBAL_PROP_C_IF_ABSENT ONone value ONone [key_idx].
Definition store_global_lex (value : Operand) (key_idx : N) : Inst :=
  with_ext STORE_GLOBAL_LEX ONone value ONone [key_idx].
Definition can_declare_global_func (target key : Operand) : Inst :=
  new CAN_DECLARE_GLOBAL_FUNC target ONone key.
Definition define_global_func_bind (target value key : Operand) : Inst :=
  new DEFINE_GLOBAL_FUNC_BIND target value key.

(** Deletion, rest/spread and object literals. *)
Definition delete_prop_static (obj : Operand) (const_idx : N) : Inst :=
  with_ext DELETE_PROP_STATIC obj obj ONone [const_idx].
Definition delete_global_prop_c (result slot : Operand) (key_idx : N) : Inst :=
  with_ext DELETE_GLOBAL_PROP_C result slot ONone [key_idx].
Definition rest_object (rest src : Operand) (excluded_idx : N) (excl_arr : option Operand) : Inst :=
  with_ext REST_OBJECT rest src (default ONone excl_arr) [excluded_idx].
Definition spread_object (target src : Operand) : Inst :=
  new SPREAD_OBJECT target src ONone.
Definition new_object (dst : Operand) (nprops : N) (key_idxs : list N) : Inst :=
  with_ext NEW_OBJECT dst (Imm (u16 nprops)) ONone key_idxs.
Definition set_prop_batch (target value : Operand) (slot : N) : Inst :=
  new SET_PROP_BATCH target value (Imm slot).

(** [CONCAT_N]: first operand in slot [a], the rest after the count word;
    [operands[0]] panics on an empty slice. *)
Definition concat_n (dst : Operand) (operands : list N) : res Inst :=
  match operands with
  | [] => Panic
  | x :: rest => Ok (mkInst CONCAT_N dst (Reg x) ONone (u32 (N.of_nat (length operands)) :: rest))
  end.

Definition template_str (dst : Operand) (segment_count total_len_hint : N) (parts : list N) : Inst :=
  mkInst TEMPLATE_STR dst ONone ONone
    (N.lor (N.shiftl (N.land segment_count 0xFFFF) 16) (N.land total_len_hint 0xFFFF) :: parts).

(** Interleaved cooked/raw words between the segment count and the site
    number; [raw_idx[i]] panics when [raw_idx] is shorter. *)
Fixpoint interleave (cooked_idx raw_idx : list N) : res (list N) :=
  match cooked_idx, raw_idx with
  | [], _ => Ok []
  | _ :: _, [] => Panic
  | c :: cs, r :: rs => let* ws := interleave cs rs in Ok (c :: r :: ws)
  end.

Definition get_template_object (dst : Operand) (site_no : N) (cooked_idx raw_idx : list N) : res Inst :=
  let* ws := interleave cooked_idx raw_idx in
  Ok (mkInst GET_TEMPLATE_OBJECT dst ONone ONone
        (u32 (N.of_nat (length cooked_idx)) :: ws ++ [site_no])).

(** Register-allocation helpers. *)
Definition inst_mov (dst src : Operand) : Inst :=
  with_ext MOV dst src ONone [].
Definition inst_spill (src : Operand) (slot : N) : Inst :=
  with_ext SPILL src ONone ONone [slot].
Definition inst_unspill (dst : Operand) (slot : N) : Inst :=
  with_ext UNSPILL dst ONone ONone [slot].

(** Immediates, closures, generators. *)
Definition load_const (dst : Operand) (idx : N) : Inst :=
  new LOAD_CONST dst (Const idx) ONone.
Definition create_closure (dst : Operand) (sub_idx : N) : Inst :=
  new CREATE_CLOSURE dst (Imm sub_idx) ONone.
Definition create_arguments (dst : Operand) : Inst :=
  new CREATE_ARGUMENTS dst ONone ONone.
Definition create_rest_array (dst : Operand) (fixed_count : N) : Inst :=
  new CREATE_REST_ARRAY dst ONone (Imm (u16 fixed_count)).
Definition yield_value (src : Operand) : Inst :=
  new YIELD src ONone ONone.
Definition yield_star (src : Operand) : Inst :=
  new YIELD_STAR src ONone ONone.
Definition suspend_body : Inst :=
  new SUSPEND_BODY ONone ONone ONone.
Definition await_expr (src : Operand) : Inst :=
  new AWAIT src ONone ONone.

(** Jumps: the label sits in slot [b]. *)
Definition jmp (label : LabelId) : Inst :=
  new JMP ONone ONone (Label label).
Definition brk (label : LabelId) (crossed for_of_count for_in_count dispose_count : N) : Inst :=
  with_ext BREAK (Imm crossed) ONone (Label label) 
    [pack_escape_counts for_of_count for_in_count; u32 dispose_count].
Definition cont (label : LabelId) (crossed for_of_count for_in_count dispose_count : N) : Inst :=
  with_ext CONTINUE (Imm crossed) ONone (Label label) 
    [pack_escape_counts for_of_count for_in_count; u32 dispose_count].
Definition ret (src : Operand) (for_of_count for_in_count dispose_count : N) : Inst :=
  with_ext RETURN src ONone ONone 
    [pack_escape_counts for_of_count for_in_count; u32 dispose_count].
Definition jmp_if_false (cond_reg : N) (label : LabelId) : Inst :=
  new JMP_IF_FALSE (Reg cond_reg) ONone (Label label).
Definition jmp_if_true (cond_reg : N) (label : LabelId) : Inst :=
  new JMP_IF_TRUE (Reg cond_reg) ONone (Label label).
Definition jmp_if_nullish (cond_reg : N) (label : LabelId) : Inst :=
  new JMP_IF_NULLISH (Reg cond_reg) ONone (Label label).
Definition try_begin (label : LabelId) : Inst :=
  new TRY_BEGIN ONone ONone (Label label).
Definition try_finally_begin (label : LabelId) : Inst :=
  new TRY_FINALLY_BEGIN ONone ONone (Label label).
Definition try_finally_enter : Inst :=
  new TRY_FINALLY_ENTER ONone ONone ONone.

End MkInst.

(** ** Constants, captures and functions *)

(** A constant-pool entry.  [Number] holds the bit pattern of the [f64];
    [BigInt] its value. *)
Inductive Constant :=
  | CNumber (bits : N)
  | CInt (i : Z)
  | CBigInt (z : Z)
  | CString (s : string)
  | CBoolean (b : bool)
  | CNull
  | CUndefined.

Record UpvalueCapture := mkUpvalueCapture {
  uc_name : string;
  uc_enclosing_reg : N;
  uc_cell_idx : N;
  uc_parent_uv_idx : option N;
}.

Record ParamLayout := mkParamLayout { pl_base : N; pl_count : N }.

Inductive IRFunction := mkIRFunction {
  insts : list Inst;
  label_pos : list (option nat);
  label_count : N;
  constants : list Constant;
  param_layout : ParamLayout;
  builtin_reg_map : list (string * N);
  upvalue_captures : list UpvalueCapture;
  cells_needed : N;
  cell_names : list string;
  n_registers : N;
  is_arrow : bool;
  is_class_constructor : bool;
  is_derived_constructor : bool;
  needs_home_object : bool;
  is_generator : bool;
  is_async : bool;
  is_strict : bool;
  captured_this_const_idx : N;
  function_name : option string;
  function_name_reg : option N;
  function_length : N;
  has_simple_params : bool;
  is_top_level : bool;
  const_overflow : bool;
  nested : list IRFunction;
}.

(** [IRFunction::new]. *)
Definition ir_new : IRFunction :=
  mkIRFunction [] [] 0 [] (mkParamLayout 0 0) [] [] 0 [] 0
    false false false false false false false 0 None None 0 false false false [].

(** Replacing the code of a function (the [insts] and [label_pos] fields). *)
Definition with_code (f : IRFunction) (is' : list Inst) (lp : list (option nat)) : IRFunction :=
  mkIRFunction is' lp (label_count f) (constants f) (param_layout f) (builtin_reg_map f)
    (upvalue_captures f) (cells_needed f) (cell_names f) (n_registers f) (is_arrow f)
    (is_class_constructor f) (is_derived_constructor f) (needs_home_object f)
    (is_generator f) (is_async f) (is_strict f) (captured_this_const_idx f)
    (function_name f) (function_name_reg f) (function_length f) (has_simple_params f)
    (is_top_level f) (const_overflow f) (nested f).

(** [label_pos.get(l).and_then(|p| *p)]. *)
Definition label_target (f : IRFunction) (l : N) : option nat :=
  mjoin (label_pos f !! N.to_nat l).

(** Induction over a function and, first, its nested functions. *)
Section IRFunction_nested_ind.
Context (P : IRFunction → Prop).
Context (Hstep : ∀ f, Forall P (nested f) → P f).

Fixpoint IRFunction_nested_ind (f : IRFunction) : P f.
Proof.
  apply Hstep. destruct f as [???????????????????????? subs]. simpl.
  induction subs as [|g subs IH]; constructor; [apply IRFunction_nested_ind | apply IH].
Defined.
End IRFunction_nested_ind.
