(* ===== verification/Contract.v ===== *)
(** * Register contract of instructions (crates/oxide_ir/src/contract.rs)

    Which registers an instruction defines and reads, and whether it may be
    deleted when its result is unused.  Liveness, dead-code elimination and
    register allocation all consume these three functions. *)

From stdpp Require Import base tactics numbers list option.
From Stdlib Require Import NArith Lia.
From S2P Require Import Prelude Opcode IR.

Open Scope N_scope.

Definition slot_operand (slot : Slot.t) (i : Inst) : Operand :=
  match slot with
  | Slot.Rd => i_rd i
  | Slot.A => i_a i
  | Slot.B => i_b i
  end.

Definition reg_of (o : Operand) : option N :=
  match o with
  | Reg r => Some r
  | This => Some 254
  | NewTarget => Some 255
  | ONone => Some 0
  | Const _ | Imm _ | Label _ => None
  end.

Definition push_operand (us : list N) (o : Operand) : list N :=
  match reg_of o with Some r => us ++ [r] | None => us end.

(** The argument window [first, first + nargs). *)
Definition push_range (us : list N) (first : option N) (nargs : N) : list N :=
  match first with
  | Some f => us ++ ((λ i, u32 (f + N.of_nat i)) <$> seq 0 (N.to_nat nargs))
  | None => us
  end.

Definition ext_first (i : Inst) : N := default 0 (head (i_ext i)).

Definition def_reg (i : Inst) : option N :=
  match sem_def (semantics (i_op i)) with
  | Some (SSlot slot) => reg_of (slot_operand slot i)
  | Some Reg0 => Some 0
  | _ => None
  end.

Definition use_spec (i : Inst) (us : list N) (spec : SlotSpec) : list N :=
  match spec with
  | SSlot slot => push_operand us (slot_operand slot i)
  | Reg0 => us ++ [0]
  | SRange slot => push_range us (reg_of (slot_operand slot i)) (ext_first i)
  | SpreadArgs => us ++ ((λ w, N.land w 0x7FFFFFFF) <$> drop 1 (i_ext i))
  | TemplateExprs =>
      us ++ ((λ seg, N.land seg 0x7FFFFFFF) <$>
               List.filter (λ seg, N.shiftr seg 31 =? 1) (drop 1 (i_ext i)))
  | BrandReg => if ext_first i =? 0 then us else us ++ [ext_first i]
  | ExtReg => us ++ [N.land (ext_first i) 0x7FFFFFFF]
  end.

Definition use_regs (i : Inst) : list N :=
  fold_left (use_spec i) (sem_uses (semantics (i_op i))) [].

Definition is_pure (i : Inst) (f : IRFunction) : bool :=
  sem_pure (semantics (i_op i)) &&
  negb (bool_decide (i_op i = LOAD_VAR) && bool_decide (i_a i = This)
        && is_derived_constructor f).
