(* ===== verification/Lower.v ===== *)
(** * Lowering IR to bytecode (crates/oxide_ir/src/lower.rs)

    [lower_owned] flattens a function into 32-bit words, records every jump,
    patches jump offsets from instruction indices to word distances, and
    recurses into nested functions.  The theorems say exactly when it
    succeeds, that it never panics, and what the emitted stream contains. *)

From stdpp Require Import base tactics numbers list option strings pretty.
From Stdlib Require Import NArith ZArith Lia.
From S2P Require Import Prelude Opcode IR Contract.
#[local] Set Warnings "-register-all".

Open Scope N_scope.

(** The compiled function unit. *)
Inductive CompiledModule := mkCompiledModule {
  bytecode : list N;
  m_constants : list Constant;
  m_n_registers : N;
  m_n_args : N;
  m_param_base : N;
  m_builtin_reg_map : list (string * N);
  sub_modules : list CompiledModule;
  m_is_arrow : bool;
  m_is_strict : bool;
  m_captured_this_const_idx : N;
  m_function_name : option string;
  m_function_name_reg : option N;
  m_function_length : N;
  m_has_simple_params : bool;
  m_is_class_constructor : bool;
  m_is_derived_constructor : bool;
  m_needs_home_object : bool;
  m_is_generator : bool;
  m_is_async : bool;
  m_upvalue_captures : list UpvalueCapture;
  m_cells_needed : N;
  m_cell_names : list string;
  flat_id : N;
  is_es_module : bool;
}.

(** [CompiledModule::new]. *)
Definition module_new : CompiledModule :=
  mkCompiledModule [] [] 0 0 0 [] [] false false 0 None None 0 false false false
    false false false [] 0 [] 0 false.

(** ** Operand encoding *)

Definition operand_to_u8 (o : Operand) : N :=
  match o with
  | Reg r => u8 r
  | This => 254
  | NewTarget => 255
  | Imm v => N.land v 0xFF
  | Const v => N.land v 0xFF
  | Label _ | ONone => 0
  end.

(** Slots [a] and [b]: a [Const]/[Imm] in [a] takes both bytes. *)
Definition operand_pair_to_u8 (a b : Operand) : N * N :=
  match a with
  | Const idx => (N.land idx 0xFF, u8 (N.shiftr idx 8))
  | Imm v => (N.land v 0xFF, u8 (N.shiftr v 8))
  | _ => (operand_to_u8 a, operand_to_u8 b)
  end.

(** [encode_inst] appends one instruction to [instrs] and, for a jump, the
    pair (its word index, its label) to [jumps]. *)
Definition encode_inst (inst : Inst) (instrs : list N) (jumps : list (nat * N))
    : res (list N * list (nat * N)) :=
  if is_jump (i_op inst) then
    match i_b inst with
    | Label label =>
        let cond := operand_to_u8 (i_rd inst) in
        let* instr :=
          match i_op inst with
          | JMP => Ok (Instr.encode_jmp 0)
          | BREAK | CONTINUE => Ok (Instr.encode (i_op inst) cond 0 0)
          | JMP_IF_FALSE => Ok (Instr.encode_jmp_if_false cond 0)
          | JMP_IF_TRUE => Ok (Instr.encode_jmp_if_true cond 0)
          | JMP_IF_NULLISH => Ok (Instr.encode_jmp_if_nullish cond 0)
          | TRY_BEGIN => Ok (Instr.encode_try_begin 0)
          | TRY_FINALLY_BEGIN => Ok (Instr.encode_try_finally_begin 0)
          | _ => Panic
          end in
        Ok (instrs ++ [instr] ++ i_ext inst, jumps ++ [(length instrs, label)])
    | _ => Err ("jump op " ++ op_display (i_op inst) ++ " requires Label operand in b slot")
    end
  else
    let rd := operand_to_u8 (i_rd inst) in
    let (a, b) := operand_pair_to_u8 (i_a inst) (i_b inst) in
    Ok (instrs ++ [Instr.encode (i_op inst) rd a b] ++ i_ext inst, jumps).

(** ** The passes of [lower_owned] *)

Definition too_many_registers : string :=
  "RangeError: function body uses too many registers (max 253)".

Definition reg_over_253 (o : Operand) : bool :=
  match o with Reg r => 253 <? r | _ => false end.

Definition uses_reg_over_253 (inst : Inst) : bool :=
  reg_over_253 (i_rd inst) || reg_over_253 (i_a inst) || reg_over_253 (i_b inst).

(** One iteration of the emission loop; the first component is
    [inst_to_instr]. *)
Definition emit_step (st : list nat * list N * list (nat * N)) (inst : Inst)
    : res (list nat * list N * list (nat * N)) :=
  let '(inst_to_instr, instrs, jumps) := st in
  let* (instrs', jumps') := encode_inst inst instrs jumps in
  Ok (inst_to_instr ++ [length instrs], instrs', jumps').

Definition label_error (label : N) : string :=
  "Label " ++ pretty label ++ " not found in bytecode map".

(** One iteration of the back-patching loop. *)
Definition patch_step (f : IRFunction) (inst_to_instr : list nat)
    (instrs : list N) (jump : nat * N) : res (list N) :=
  let '(instr_idx, label) := jump in
  match label_target f label with
  | None => Err (label_error label)
  | Some target_inst =>
      match inst_to_instr !! target_inst with
      | None => Err (label_error label)
      | Some target_instr =>
          let offset := (Z.of_nat target_instr - Z.of_nat instr_idx)%Z in
          if bool_decide (offset < -2^15)%Z || bool_decide (2^15 - 1 < offset)%Z
          then Err "RangeError: jump offset out of range"
          else
            let* existing := vec_get instrs instr_idx in
            vec_set instrs instr_idx
              (Instr.encode (Instr.opcode existing) (Instr.rd existing)
                 (Instr.off_lo offset) (Instr.off_hi offset))
      end
  end.

(** The fields of the result. *)
Definition assemble_module (f : IRFunction) (instrs : list N) (subs : list CompiledModule)
    : CompiledModule :=
  mkCompiledModule instrs (constants f) (u8 (n_registers f))
    (u8 (pl_count (param_layout f))) (u8 (pl_base (param_layout f)))
    (builtin_reg_map f) subs (is_arrow f) (is_strict f)
    (captured_this_const_idx f) (function_name f) (function_name_reg f)
    (function_length f) (has_simple_params f) (is_class_constructor f)
    (is_derived_constructor f) (needs_home_object f) (is_generator f)
    (is_async f) (upvalue_captures f) (cells_needed f) (cell_names f) 0 false.

(** The body of [lower_owned], given the outcome [lowered_nested] of lowering
    the nested functions (reached only after this function's own checks,
    emission and patching). *)
Definition lower_body (f : IRFunction) (lowered_nested : res (list CompiledModule))
    : res CompiledModule :=
  if const_overflow f || (65535 <? N.of_nat (length (constants f)))
  then Err "RangeError: too many constants"
  else if existsb uses_reg_over_253 (insts f) then Err too_many_registers
  else if 254 <? n_registers f then Err too_many_registers
  else
    let* (inst_to_instr, instrs, jumps) := fold_res emit_step (insts f) ([], [], []) in
    let* instrs := fold_res (patch_step f inst_to_instr) jumps instrs in
    let* subs := lowered_nested in
    Ok (assemble_module f instrs subs).

Fixpoint lower_owned (f : IRFunction) : res CompiledModule :=
  lower_body f (map_res lower_owned (nested f)).

(** [lower]: clone, then [lower_owned]. *)
Definition lower (f : IRFunction) : res CompiledModule := lower_owned f.

(** ** Layout of the emitted stream *)

Definition inst_size (i : Inst) : nat := S (length (i_ext i)).

(** The word index at which instruction [k] starts: the sum of the sizes of
    the instructions before it. *)
Definition start_of (is' : list Inst) (k : nat) : nat :=
  sum_list (inst_size <$> take k is').

(** The slot byte a jump keeps beside its offset: [JMP] and the [TRY_*]
    markers carry none. *)
Definition jump_rd (i : Inst) : N :=
  match i_op i with
  | JMP | TRY_BEGIN | TRY_FINALLY_BEGIN => 0
  | _ => operand_to_u8 (i_rd i)
  end.

(** What the stream holds for instruction [k]: its opcode word, decodable
    field by field, followed by its extension words; a jump's offset is the
    distance in words to the start of its target instruction. *)
Definition emitted (f : IRFunction) (ws : list N) (k : nat) (i : Inst) : Prop :=
  ∃ w, ws !! start_of (insts f) k = Some w ∧
    Instr.opcode w = i_op i ∧
    (∀ j x, i_ext i !! j = Some x → ws !! (start_of (insts f) k + 1 + j)%nat = Some x) ∧
    (if is_jump (i_op i) then
       ∃ l p, i_b i = Label l ∧ label_target f l = Some p ∧ (p < length (insts f))%nat ∧
         Instr.rd w = jump_rd i ∧
         Instr.offset16 w = (Z.of_nat (start_of (insts f) p) - Z.of_nat (start_of (insts f) k))%Z
     else
       Instr.rd w = operand_to_u8 (i_rd i) ∧
       (Instr.a w, Instr.b w) = operand_pair_to_u8 (i_a i) (i_b i)).

(** A jump is resolvable: its label sits in slot [b], points at an
    instruction, and the distance fits an [i16]. *)
Definition jump_resolves (f : IRFunction) (k : nat) (i : Inst) : Prop :=
  is_jump (i_op i) = true →
  ∃ l p, i_b i = Label l ∧ label_target f l = Some p ∧ (p < length (insts f))%nat ∧
    in_i16 (Z.of_nat (start_of (insts f) p) - Z.of_nat (start_of (insts f) k)).

(** The functions [lower] accepts. *)
Fixpoint lowerable (f : IRFunction) : Prop :=
  const_overflow f = false ∧
  N.of_nat (length (constants f)) <= 65535 ∧
  Forall (λ i, uses_reg_over_253 i = false) (insts f) ∧
  n_registers f <= 254 ∧
  (∀ k i, insts f !! k = Some i → jump_resolves f k i) ∧
  foldr (λ g P, lowerable g ∧ P) True (nested f).

(** ** Emission *)

Definition first_word (i : Inst) : N :=
  if is_jump (i_op i) then Instr.encode (i_op i) (jump_rd i) 0 0
  else let (a, b) := operand_pair_to_u8 (i_a i) (i_b i) in
       Instr.encode (i_op i) (operand_to_u8 (i_rd i)) a b.

Definition inst_words (i : Inst) : list N := first_word i :: i_ext i.

Definition jump_label (i : Inst) : option N :=
  if is_jump (i_op i) then match i_b i with Label l => Some l | _ => None end else None.

Definition has_label (i : Inst) : bool :=
  if is_jump (i_op i) then match i_b i with Label _ => true | _ => false end else true.

Fixpoint starts_from (base : nat) (is' : list Inst) : list nat :=
  match is' with
  | [] => []
  | i :: is' => base :: starts_from (base + inst_size i) is'
  end.

Fixpoint jumps_from (base : nat) (is' : list Inst) : list (nat * N) :=
  match is' with
  | [] => []
  | i :: is' =>
      match jump_label i with Some l => [(base, l)] | None => [] end
      ++ jumps_from (base + inst_size i) is'
  end.

Lemma u8_lt n : u8 n < 256.
Proof. unfold u8. bits_lia. Qed.

Lemma operand_to_u8_lt o : operand_to_u8 o < 256.
Proof. destruct o; simpl; try lia; try apply u8_lt; bits_lia. Qed.

Lemma operand_pair_lt a b :
  (operand_pair_to_u8 a b).1 < 256 ∧ (operand_pair_to_u8 a b).2 < 256.
Proof.
  destruct a; simpl; split; try lia; try apply u8_lt; try apply operand_to_u8_lt; bits_lia.
Qed.

Lemma jump_rd_lt i : jump_rd i < 256.
Proof. unfold jump_rd. destruct (i_op i); try apply operand_to_u8_lt; lia. Qed.

#[export] Hint Resolve u8_lt operand_to_u8_lt jump_rd_lt : oxide.

Lemma encode_inst_spec i ws js :
  encode_inst i ws js =
  if has_label i then
    Ok (ws ++ inst_words i, js ++ match jump_label i with Some l => [(length ws, l)] | None => [] end)
  else Err ("jump op " ++ op_display (i_op i) ++ " requires Label operand in b slot").
Proof.
  unfold encode_inst, has_label, inst_words, first_word, jump_label.
  destruct (is_jump (i_op i)) eqn:Hj.
  - destruct (i_b i); try done. unfold jump_rd.
    destruct (i_op i); try discriminate Hj; reflexivity.
  - destruct (operand_pair_to_u8 _ _). by rewrite app_nil_r.
Qed.

Lemma emit_loop is' ss ws js :
  Forall (λ i, has_label i = true) is' →
  fold_res emit_step is' (ss, ws, js) =
  Ok (ss ++ starts_from (length ws) is', ws ++ mjoin (inst_words <$> is'),
      js ++ jumps_from (length ws) is').
Proof.
  intros H. revert ss ws js.
  induction H as [|i is' Hi _ IH]; intros ss ws js; simpl.
  { by rewrite !app_nil_r. }
  rewrite encode_inst_spec, Hi. simpl. rewrite IH, length_app. simpl.
  by rewrite <- !app_assoc.
Qed.

Lemma emit_loop_err is' st :
  ¬ Forall (λ i, has_label i = true) is' → ∃ e, fold_res emit_step is' st = Err e.
Proof.
  revert st. induction is' as [|i is' IH]; intros [[ss ws] js] H; [by destruct H|].
  simpl. rewrite encode_inst_spec.
  destruct (has_label i) eqn:Hi; simpl; [|eauto].
  apply IH. intros H'. apply H. by constructor.
Qed.

#[local] Arguments inst_size : simpl never.
#[local] Arguments start_of : simpl never.

Lemma start_of_0 is' : start_of is' 0 = 0%nat.
Proof. done. Qed.

Lemma start_of_cons i is' k :
  start_of (i :: is') (S k) = (inst_size i + start_of is' k)%nat.
Proof. done. Qed.

Lemma length_starts_from base is' : length (starts_from base is') = length is'.
Proof. revert base. induction is'; intros; simpl; auto. Qed.

Lemma starts_from_lookup base is' k :
  (k < length is')%nat → starts_from base is' !! k = Some (base + start_of is' k)%nat.
Proof.
  revert base k. induction is' as [|i is' IH]; intros base [|k] Hk; simpl in *; try lia.
  - rewrite start_of_0. f_equal. lia.
  - rewrite IH, start_of_cons by lia. f_equal. lia.
Qed.

Lemma start_of_S is' k i :
  is' !! k = Some i → start_of is' (S k) = (start_of is' k + inst_size i)%nat.
Proof.
  revert k. induction is' as [|i' is' IH]; intros [|k] Hk; try done.
  - injection Hk as ->. rewrite start_of_cons, !start_of_0. lia.
  - rewrite !start_of_cons, (IH k) by done. lia.
Qed.

Lemma start_of_lt is' j k :
  (j < k)%nat → (k <= length is')%nat → (start_of is' j < start_of is' k)%nat.
Proof.
  induction k as [|k IH]; [lia|]. intros Hj Hk.
  destruct (lookup_lt_is_Some_2 is' k) as [i Hi]; [lia|].
  rewrite (start_of_S _ _ _ Hi). unfold inst_size.
  destruct (decide (j = k)) as [->|]; [lia|]. enough (start_of is' j < start_of is' k)%nat by lia.
  apply IH; lia.
Qed.

Lemma start_of_inj is' j k :
  (j < length is')%nat → (k < length is')%nat → start_of is' j = start_of is' k → j = k.
Proof.
  intros Hj Hk E. destruct (Nat.lt_trichotomy j k) as [H|[H|H]]; [|done|].
  - pose proof (start_of_lt is' j k). lia.
  - pose proof (start_of_lt is' k j). lia.
Qed.

(** The unpatched words of instruction [k] sit at its start. *)
Lemma words_lookup is' k i j :
  is' !! k = Some i → (j < inst_size i)%nat →
  mjoin (inst_words <$> is') !! (start_of is' k + j)%nat = inst_words i !! j.
Proof.
  revert k. induction is' as [|i' is' IH]; intros k Hk Hj; [done|].
  rewrite fmap_cons, mjoin_cons. destruct k as [|k].
  - injection Hk as ->. rewrite start_of_0. by rewrite lookup_app_l.
  - rewrite start_of_cons.
    rewrite (lookup_app_r (inst_words i')) by (unfold inst_words, inst_size; simpl; lia).
    rewrite <- (IH k) by done. f_equal. unfold inst_words, inst_size. simpl. lia.
Qed.

Lemma length_words is' : length (mjoin (inst_words <$> is')) = start_of is' (length is').
Proof.
  induction is' as [|i is' IH]; [done|]. simpl length at 2. rewrite start_of_cons, <- IH.
  by rewrite fmap_cons, mjoin_cons, length_app.
Qed.

Lemma jumps_from_elem base is' s l :
  (s, l) ∈ jumps_from base is' ↔
  ∃ k i, is' !! k = Some i ∧ jump_label i = Some l ∧ s = (base + start_of is' k)%nat.
Proof.
  revert base. induction is' as [|i is' IH]; intros base; simpl.
  { split; [by intros ?%elem_of_nil | by intros (k & i & ? & _)]. }
  rewrite elem_of_app, IH. split.
  - intros [H|(k & i' & Hk & Hl & ->)].
    + exists 0%nat, i. destruct (jump_label i) as [l'|]; [|by apply elem_of_nil in H].
      apply list_elem_of_singleton in H as [= -> ->].
      rewrite start_of_0. split_and!; [done|done|lia].
    + exists (S k), i'. rewrite start_of_cons. split_and!; [done|done|lia].
  - intros (k & i' & Hk & Hl & ->). destruct k as [|k]; simpl in Hk.
    + injection Hk as ->. left. rewrite Hl, start_of_0.
      apply list_elem_of_singleton. f_equal. lia.
    + right. exists k, i'. rewrite start_of_cons. split_and!; [done|done|lia].
Qed.

Lemma jumps_from_NoDup base is' : NoDup (jumps_from base is').*1.
Proof.
  revert base. induction is' as [|i is' IH]; intros base; simpl; [constructor|].
  rewrite fmap_app. apply NoDup_app. split_and!.
  - destruct (jump_label i); simpl; [apply NoDup_singleton | constructor].
  - intros s Hs ((s' & l) & -> & H)%list_elem_of_fmap.
    apply jumps_from_elem in H as (k & i' & _ & _ & E).
    destruct (jump_label i); simpl in Hs; [|by apply elem_of_nil in Hs].
    apply list_elem_of_singleton in Hs. simpl in *. unfold inst_size in *. lia.
  - apply IH.
Qed.

(** ** Back-patching *)

Definition retarget (w : N) (offset : Z) : N :=
  Instr.encode (Instr.opcode w) (Instr.rd w) (Instr.off_lo offset) (Instr.off_hi offset).

#[local] Arguments patch_step : simpl never.

(** A recorded jump whose label resolves within reach. *)
Definition patch_ok (f : IRFunction) (tbl : list nat) (j : nat * N) : Prop :=
  ∃ p t, label_target f j.2 = Some p ∧ tbl !! p = Some t ∧
    in_i16 (Z.of_nat t - Z.of_nat j.1).

Lemma patch_step_ok f tbl ws s l p t w :
  label_target f l = Some p → tbl !! p = Some t → ws !! s = Some w →
  in_i16 (Z.of_nat t - Z.of_nat s) →
  patch_step f tbl ws (s, l) = Ok (<[s:=retarget w (Z.of_nat t - Z.of_nat s)]> ws).
Proof.
  intros Hp Ht Hw [Hlo Hhi]. unfold patch_step. rewrite Hp, Ht.
  rewrite !bool_decide_eq_false_2 by lia. simpl.
  rewrite (proj2 (vec_get_Ok _ _ _) Hw). simpl.
  apply vec_set_lt. by eapply lookup_lt_Some.
Qed.

Lemma patch_step_err f tbl ws j :
  ¬ patch_ok f tbl j → ∃ e, patch_step f tbl ws j = Err e.
Proof.
  destruct j as [s l]. intros H. unfold patch_step.
  destruct (label_target f l) as [p|] eqn:Hp; [|eauto].
  destruct (tbl !! p) as [t|] eqn:Ht; [|eauto].
  destruct (bool_decide _ || bool_decide _) eqn:Hb; [eauto|].
  apply orb_false_iff in Hb as [Hlo%bool_decide_eq_false Hhi%bool_decide_eq_false].
  destruct H. exists p, t. split_and!; [done..|]. unfold in_i16. simpl. lia.
Qed.

#[export] Instance patch_ok_dec f tbl j : Decision (patch_ok f tbl j).
Proof.
  unfold patch_ok. destruct (label_target f j.2) as [p|] eqn:Hp;
    [|right; by intros (? & ? & ? & _)].
  destruct (tbl !! p) as [t|] eqn:Ht;
    [|right; intros (? & ? & [= <-] & ? & _); congruence].
  unfold in_i16.
  destruct (decide (-2^15 <= Z.of_nat t - Z.of_nat j.1 < 2^15)%Z) as [H|H].
  - left. eauto.
  - right. intros (p' & t' & [= <-] & Ht' & Hr). rewrite Ht in Ht'. injection Ht' as <-. done.
Qed.

Lemma patch_loop f tbl js ws :
  Forall (patch_ok f tbl) js → NoDup js.*1 → Forall (λ s, (s < length ws)%nat) js.*1 →
  ∃ ws', fold_res (patch_step f tbl) js ws = Ok ws' ∧ length ws' = length ws ∧
    (∀ n, n ∉ js.*1 → ws' !! n = ws !! n) ∧
    (∀ s l p t w, (s, l) ∈ js → label_target f l = Some p → tbl !! p = Some t →
       ws !! s = Some w → ws' !! s = Some (retarget w (Z.of_nat t - Z.of_nat s))).
Proof.
  intros Hok. revert ws. induction Hok as [|[s l] js (p & t & Hp & Ht & Hr) _ IH];
    intros ws Hnd Hlt; simpl in *.
  { exists ws. split_and!; [done..|]. intros ????? []%elem_of_nil. }
  apply NoDup_cons in Hnd as [Hs Hnd]. apply Forall_cons in Hlt as [Hslt Hlt].
  destruct (lookup_lt_is_Some_2 ws s Hslt) as [w Hw].
  rewrite (patch_step_ok _ _ _ _ _ p t w) by done. simpl.
  destruct (IH (<[s:=retarget w (Z.of_nat t - Z.of_nat s)]> ws)) as (ws' & Hf & Hlen & Hout & Hin);
    [done|by rewrite length_insert|].
  rewrite length_insert in Hlen. exists ws'. split_and!; [done|done| |].
  - intros n Hn. apply not_elem_of_cons in Hn as [Hne Hn].
    rewrite Hout by done. by rewrite list_lookup_insert_ne.
  - intros s' l' p' t' w' Hj Hp' Ht' Hw'. apply elem_of_cons in Hj as [[= -> ->]|Hj].
    + rewrite Hout by done. rewrite list_lookup_insert_eq by done. congruence.
    + apply (Hin s' l' p' t' w'); try done.
      rewrite list_lookup_insert_ne; [done|]. intros ->. apply Hs.
      apply list_elem_of_fmap. by exists (s', l').
Qed.

Lemma patch_loop_err f tbl js ws :
  ¬ Forall (patch_ok f tbl) js → Forall (λ s, (s < length ws)%nat) js.*1 →
  ∃ e, fold_res (patch_step f tbl) js ws = Err e.
Proof.
  revert ws. induction js as [|[s l] js IH]; intros ws H Hlt; [by destruct H|].
  simpl in *. apply Forall_cons in Hlt as [Hs Hlt].
  destruct (patch_ok_dec f tbl (s, l)) as [(p & t & Hp & Ht & Hr)|Hn].
  - destruct (lookup_lt_is_Some_2 ws s Hs) as [w Hw].
    rewrite (patch_step_ok _ _ _ _ _ p t w) by done. simpl. apply IH.
    + intros H'. apply H. constructor; [by exists p, t|done].
    + by rewrite length_insert.
  - destruct (patch_step_err f tbl ws _ Hn) as [e ->]. simpl. eauto.
Qed.

(** ** Emission and patching together *)

Section code.
Context (f : IRFunction).
#[local] Abbreviation tbl := (starts_from 0 (insts f)).
#[local] Abbreviation js := (jumps_from 0 (insts f)).
#[local] Abbreviation ws := (mjoin (inst_words <$> insts f)).

Lemma jump_starts_bound : Forall (λ s, (s < length ws)%nat) js.*1.
Proof.
  apply Forall_fmap, Forall_forall. intros [s l] (k & i & Hk & _ & ->)%jumps_from_elem.
  rewrite length_words. apply start_of_lt; [|done]. by eapply lookup_lt_Some.
Qed.

Lemma patch_ok_resolves k i l :
  insts f !! k = Some i → jump_label i = Some l →
  patch_ok f tbl (start_of (insts f) k, l) ↔
  ∃ p, label_target f l = Some p ∧ (p < length (insts f))%nat ∧
    in_i16 (Z.of_nat (start_of (insts f) p) - Z.of_nat (start_of (insts f) k)).
Proof.
  intros Hk Hl. split.
  - intros (p & t & Hp & Ht & Hr). exists p.
    assert (p < length (insts f))%nat as Hlt.
    { rewrite <- (length_starts_from 0). by eapply lookup_lt_Some. }
    rewrite starts_from_lookup in Ht by done. injection Ht as <-. done.
  - intros (p & Hp & Hlt & Hr). exists p, (start_of (insts f) p).
    by rewrite starts_from_lookup.
Qed.

Lemma resolves_iff :
  (∀ k i, insts f !! k = Some i → jump_resolves f k i) ↔
  Forall (λ i, has_label i = true) (insts f) ∧ Forall (patch_ok f tbl) js.
Proof.
  split.
  - intros H. split; apply Forall_forall.
    + intros i [k Hk]%list_elem_of_lookup. specialize (H k i Hk).
      unfold has_label. unfold jump_resolves in H.
      destruct (is_jump (i_op i)); [|done]. by destruct H as (l & _ & -> & _).
    + intros [s l] (k & i & Hk & Hl & ->)%jumps_from_elem.
      apply (patch_ok_resolves k i); [done|done|].
      specialize (H k i Hk). unfold jump_label in Hl. unfold jump_resolves in H.
      destruct (is_jump (i_op i)); [|done].
      destruct H as (l' & p & Hb & Hp); [done|]. rewrite Hb in Hl.
      injection Hl as ->. by exists p.
  - intros [Hlab Hpatch] k i Hk Hj. rewrite Forall_forall in Hlab. rewrite Forall_forall in Hpatch.
    specialize (Hlab i (list_elem_of_lookup_2 _ _ _ Hk)). unfold has_label in Hlab.
    rewrite Hj in Hlab. destruct (i_b i) as [| |l| | | |] eqn:Hb; try done.
    assert (jump_label i = Some l) as Hl by (unfold jump_label; by rewrite Hj, Hb).
    destruct (proj1 (patch_ok_resolves k i l Hk Hl)) as (p & ? & ? & ?).
    { apply Hpatch, jumps_from_elem. eauto. }
    by exists l, p.
Qed.

Lemma first_word_fields i :
  Instr.opcode (first_word i) = i_op i ∧
  Instr.rd (first_word i) = (if is_jump (i_op i) then jump_rd i else operand_to_u8 (i_rd i)) ∧
  (is_jump (i_op i) = false →
   (Instr.a (first_word i), Instr.b (first_word i)) = operand_pair_to_u8 (i_a i) (i_b i)).
Proof.
  unfold first_word. pose proof (operand_pair_lt (i_a i) (i_b i)) as [H1 H2].
  destruct (is_jump (i_op i)).
  - rewrite opcode_encode, rd_encode by (auto with oxide; lia). done.
  - destruct (operand_pair_to_u8 _ _) as [a b]. simpl in *.
    rewrite opcode_encode, rd_encode, a_encode, b_encode by auto with oxide. done.
Qed.

Lemma words_emitted ws' k i :
  length ws' = length ws → insts f !! k = Some i → jump_resolves f k i →
  (∀ n, n ∉ js.*1 → ws' !! n = ws !! n) →
  (∀ s l p t w, (s, l) ∈ js → label_target f l = Some p → tbl !! p = Some t →
     ws !! s = Some w → ws' !! s = Some (retarget w (Z.of_nat t - Z.of_nat s))) →
  emitted f ws' k i.
Proof.
  intros Hlen Hk Hres Hout Hin. unfold emitted.
  pose proof (first_word_fields i) as (Hop & Hrd & Hab).
  assert (ws !! start_of (insts f) k = Some (first_word i)) as Hw.
  { rewrite <- (Nat.add_0_r (start_of _ _)).
    by rewrite (words_lookup _ k i) by (done || unfold inst_size; lia). }
  assert (∀ j x, i_ext i !! j = Some x →
            ws' !! (start_of (insts f) k + 1 + j)%nat = Some x) as Hext.
  { intros j x Hj. apply lookup_lt_Some in Hj as Hlt. rewrite Hout.
    - rewrite <- Nat.add_assoc, (words_lookup _ k i);
        [by rewrite <- Hj | done | unfold inst_size; lia].
    - intros ([s l] & Hs & (k' & i' & Hk' & _ & E)%jumps_from_elem)%list_elem_of_fmap.
      simpl in *. subst s. apply lookup_lt_Some in Hk as Hkl.
      apply lookup_lt_Some in Hk' as Hkl'.
      pose proof (start_of_S _ _ _ Hk). unfold inst_size in *.
      destruct (decide (k' <= k)%nat).
      + assert (start_of (insts f) k' <= start_of (insts f) k)%nat; [|lia].
        destruct (decide (k' = k)) as [->|]; [lia|]. apply Nat.lt_le_incl, start_of_lt; lia.
      + assert (start_of (insts f) (S k) <= start_of (insts f) k')%nat; [|lia].
        destruct (decide (k' = S k)) as [->|]; [lia|]. apply Nat.lt_le_incl, start_of_lt; lia. }
  destruct (is_jump (i_op i)) eqn:Hj.
  - destruct (Hres Hj) as (l & p & Hb & Hp & Hlt & Hr).
    exists (retarget (first_word i) (Z.of_nat (start_of (insts f) p) - Z.of_nat (start_of (insts f) k))).
    assert (∀ z, Instr.off_lo z < 256 ∧ Instr.off_hi z < 256) as Hoff.
    { intros z. unfold Instr.off_lo, Instr.off_hi. bits_lia. }
    unfold retarget. rewrite Hop, Hrd. split_and!; [ | | done | ].
    + rewrite (Hin (start_of (insts f) k) l p (start_of (insts f) p) (first_word i));
        [by unfold retarget; rewrite Hop, Hrd | | done | by rewrite starts_from_lookup | done].
      apply jumps_from_elem. exists k, i. unfold jump_label. by rewrite Hj, Hb.
    + apply opcode_encode; auto with oxide; apply Hoff.
    + exists l, p. rewrite rd_encode, offset16_encode by (auto with oxide; apply Hoff).
      done.
  - exists (first_word i). split_and!; [ | done | done | done | by apply Hab].
    rewrite Hout; [done|].
    intros ([s l] & Hs & (k' & i' & Hk' & Hl' & E)%jumps_from_elem)%list_elem_of_fmap.
    simpl in *. subst s. apply start_of_inj in E; [|by eapply lookup_lt_Some..]. subst k'.
    rewrite Hk in Hk'. injection Hk' as <-. unfold jump_label in Hl'. by rewrite Hj in Hl'.
Qed.

(** The two loops of [lower_owned] on an acceptable instruction list. *)
Lemma code_ok :
  (∀ k i, insts f !! k = Some i → jump_resolves f k i) →
  ∃ ws', fold_res emit_step (insts f) ([], [], []) = Ok (tbl, ws, js) ∧
    fold_res (patch_step f tbl) js ws = Ok ws' ∧ length ws' = length ws ∧
    ∀ k i, insts f !! k = Some i → emitted f ws' k i.
Proof.
  intros H. apply resolves_iff in H as H'. destruct H' as [Hlab Hpatch].
  destruct (patch_loop f tbl js ws) as (ws' & Hf & Hlen & Hout & Hin);
    [done | apply jumps_from_NoDup | apply jump_starts_bound |].
  exists ws'. rewrite emit_loop by done. simpl. split_and!; [done..|].
  intros k i Hk. by apply words_emitted; auto.
Qed.

Lemma code_err :
  ¬ (∀ k i, insts f !! k = Some i → jump_resolves f k i) →
  (∃ e, fold_res emit_step (insts f) ([], [], []) = Err e) ∨
  (∃ e, fold_res emit_step (insts f) ([], [], []) = Ok (tbl, ws, js) ∧
        fold_res (patch_step f tbl) js ws = Err e).
Proof.
  intros H. rewrite resolves_iff in H.
  destruct (decide (Forall (λ i, has_label i = true) (insts f))) as [Hlab|Hlab];
    [|left; by apply emit_loop_err].
  right. rewrite emit_loop by done. simpl.
  destruct (patch_loop_err f tbl js ws) as [e He];
    [naive_solver | apply jump_starts_bound | eauto].
Qed.
End code.

(** ** Nested functions *)

Lemma map_res_lower (gs : list IRFunction) :
  Forall (λ g, lower_owned g ≠ Panic ∧ (is_ok (lower_owned g) ↔ lowerable g)) gs →
  map_res lower_owned gs ≠ Panic ∧
  (is_ok (map_res lower_owned gs) ↔ foldr (λ g P, lowerable g ∧ P) True gs).
Proof.
  induction 1 as [|g gs [Hnp Hiff] _ [IHnp IHiff]]; simpl.
  { split; [done|]. split; [done|by eexists]. }
  destruct (lower_owned g) as [m|e|]; simpl; [|split; [done|]|done].
  - destruct (map_res lower_owned gs) as [ms|e|]; simpl; [|split; [done|]|done].
    + split; [done|]. split; [|by eexists]. intros _. split; [apply Hiff | apply IHiff]; by eexists.
    + split; [by intros [? ?]|]. intros [_ H]. by apply IHiff in H as [? ?].
  - split; [by intros [? ?]|]. intros [H _]. by apply Hiff in H as [? ?].
Qed.

Lemma lower_owned_eq f : lower_owned f = lower_body f (map_res lower_owned (nested f)).
Proof. by destruct f. Qed.

(** What is checked before emission. *)
Definition within_limits (f : IRFunction) : Prop :=
  const_overflow f = false ∧ N.of_nat (length (constants f)) <= 65535 ∧
  Forall (λ i, uses_reg_over_253 i = false) (insts f) ∧ n_registers f <= 254.

Lemma lowerable_eq f :
  lowerable f ↔ within_limits f ∧
  (∀ k i, insts f !! k = Some i → jump_resolves f k i) ∧
  foldr (λ g P, lowerable g ∧ P) True (nested f).
Proof. unfold within_limits. destruct f; simpl. tauto. Qed.

Lemma lower_body_unlimited f sub : ¬ within_limits f → ∃ e, lower_body f sub = Err e.
Proof.
  intros H. unfold lower_body.
  destruct (const_overflow f) eqn:Hco; simpl; [eauto|].
  destruct (N.ltb_spec 65535 (N.of_nat (length (constants f)))); [eauto|].
  destruct (existsb uses_reg_over_253 (insts f)) eqn:Hex; [eauto|].
  destruct (N.ltb_spec 254 (n_registers f)); [eauto|].
  destruct H. split_and!; [done|lia| |done]. apply Forall_forall. intros i Hi.
  destruct (uses_reg_over_253 i) eqn:Hu; [|done]. rewrite <- Hex. symmetry.
  apply existsb_exists. exists i. split; [by apply list_elem_of_In | done].
Qed.

Lemma lower_body_limited f sub :
  within_limits f →
  lower_body f sub =
    let* (inst_to_instr, instrs, jumps) := fold_res emit_step (insts f) ([], [], []) in
    let* instrs := fold_res (patch_step f inst_to_instr) jumps instrs in
    let* subs := sub in
    Ok (assemble_module f instrs subs).
Proof.
  intros (Hco & Hc & Hr & Hn). unfold lower_body. rewrite Hco. simpl.
  destruct (N.ltb_spec 65535 (N.of_nat (length (constants f)))); [lia|].
  destruct (N.ltb_spec 254 (n_registers f)); [lia|].
  destruct (existsb uses_reg_over_253 (insts f)) eqn:Hex; [|done].
  apply existsb_exists in Hex as (i & Hi & Hu). rewrite Forall_forall in Hr.
  apply list_elem_of_In in Hi. apply Hr in Hi. congruence.
Qed.

#[export] Instance within_limits_dec f : Decision (within_limits f).
Proof. unfold within_limits. apply _. Defined.

Lemma resolves_dec f : Decision (∀ k i, insts f !! k = Some i → jump_resolves f k i).
Proof.
  destruct (decide (Forall (λ i, has_label i = true) (insts f) ∧
    Forall (patch_ok f (starts_from 0 (insts f))) (jumps_from 0 (insts f)))) as [H|H].
  - left. by apply resolves_iff.
  - right. intros H'. by apply H, resolves_iff.
Qed.

Lemma lower_owned_outcome f :
  lower_owned f ≠ Panic ∧ (is_ok (lower_owned f) ↔ lowerable f).
Proof.
  induction f as [f IH%map_res_lower] using IRFunction_nested_ind.
  destruct IH as [Hnp Hiff]. rewrite lower_owned_eq, lowerable_eq.
  destruct (decide (within_limits f)) as [Hlim|Hlim].
  2: { destruct (lower_body_unlimited f (map_res lower_owned (nested f)) Hlim) as [e ->].
       split; [done|]. split; [by intros [? ?] | tauto]. }
  rewrite lower_body_limited by done.
  destruct (resolves_dec f) as [Hres|Hres].
  - destruct (code_ok f Hres) as (ws' & -> & Hp & _). simpl. rewrite Hp. simpl.
    destruct (map_res lower_owned (nested f)) as [ms|e|]; simpl; [|split; [done|]|done].
    + split; [done|]. split; [|by eexists]. intros _. split_and!; [done..|].
      apply Hiff. by eexists.
    + split; [by intros [? ?]|]. intros (_ & _ & H). by apply Hiff in H as [? ?].
  - destruct (code_err f Hres) as [[e ->]|(e & -> & Hp)]; simpl; [|rewrite Hp; simpl];
      (split; [done|]; split; [by intros [? ?] | tauto]).
Qed.

Lemma lower_stream_layout f m :
  lower f = Ok m →
  length (bytecode m) = start_of (insts f) (length (insts f)) ∧
  ∀ k i, insts f !! k = Some i → emitted f (bytecode m) k i.
Proof.
  unfold lower. intros Hm.
  assert (lowerable f) as Hl by (apply lower_owned_outcome; by exists m).
  apply lowerable_eq in Hl as (Hlim & Hres & _).
  rewrite lower_owned_eq, lower_body_limited in Hm by done.
  destruct (code_ok f Hres) as (ws' & He & Hp & Hlen & Hem).
  rewrite He in Hm. simpl in Hm. rewrite Hp in Hm. res_inv. simpl.
  by rewrite Hlen, length_words.
Qed.

(** ** Which error *)

Definition too_many_constants (f : IRFunction) : Prop :=
  const_overflow f = true ∨ 65535 < N.of_nat (length (constants f)).

(** The jumps before instruction [k] resolve. *)
Definition resolves_before (f : IRFunction) (k : nat) : Prop :=
  ∀ k' i', (k' < k)%nat → insts f !! k' = Some i' → jump_resolves f k' i'.

(** [lower_fault f e]: the first limit that the tree of [f] exceeds, in the
    order constants, registers, jumps without a label, targets and distances
    of the jumps, nested functions, has the message [e]. *)
Inductive lower_fault : IRFunction → string → Prop :=
  | fault_constants f : too_many_constants f → lower_fault f "RangeError: too many constants"
  | fault_registers f :
      ¬ too_many_constants f → Exists (λ i, uses_reg_over_253 i = true) (insts f) ∨ 254 < n_registers f →
      lower_fault f too_many_registers
  | fault_no_label f k i :
      within_limits f → insts f !! k = Some i → is_jump (i_op i) = true → (∀ l, i_b i ≠ Label l) →
      Forall (λ i', has_label i' = true) (take k (insts f)) →
      lower_fault f ("jump op " ++ op_display (i_op i) ++ " requires Label operand in b slot")
  | fault_label f k i l :
      within_limits f → Forall (λ i', has_label i' = true) (insts f) → resolves_before f k →
      insts f !! k = Some i → is_jump (i_op i) = true → i_b i = Label l →
      (∀ p, label_target f l = Some p → (length (insts f) <= p)%nat) → lower_fault f (label_error l)
  | fault_offset f k i l p :
      within_limits f → Forall (λ i', has_label i' = true) (insts f) → resolves_before f k →
      insts f !! k = Some i → is_jump (i_op i) = true → i_b i = Label l →
      label_target f l = Some p → (p < length (insts f))%nat →
      ¬ in_i16 (Z.of_nat (start_of (insts f) p) - Z.of_nat (start_of (insts f) k)) →
      lower_fault f "RangeError: jump offset out of range"
  | fault_nested f pre g post e :
      within_limits f → (∀ k i, insts f !! k = Some i → jump_resolves f k i) →
      nested f = pre ++ g :: post → Forall lowerable pre → lower_fault g e → lower_fault f e.

Lemma jump_label_spec i l : jump_label i = Some l ↔ is_jump (i_op i) = true ∧ i_b i = Label l.
Proof. unfold jump_label. destruct (is_jump _); [|naive_solver]. destruct (i_b i); naive_solver. Qed.

Lemma emit_fault is' st e :
  fold_res emit_step is' st = Err e →
  ∃ k i, is' !! k = Some i ∧ is_jump (i_op i) = true ∧ (∀ l, i_b i ≠ Label l) ∧
    e = ("jump op " ++ op_display (i_op i) ++ " requires Label operand in b slot")%string ∧
    Forall (λ i', has_label i' = true) (take k is').
Proof.
  revert st. induction is' as [|i is' IH]; intros [[ss ws] js] H; [done|].
  cbn [fold_res emit_step] in H. rewrite encode_inst_spec in H. destruct (has_label i) eqn:Hi; simpl in H.
  - destruct (IH _ H) as (k & i' & Hk & Hj & Hb & He & Hf). exists (S k), i'. split_and!; [done..|]. by constructor.
  - exists 0%nat, i. unfold has_label in Hi. destruct (is_jump (i_op i)) eqn:Hj; [|done]. injection H as <-.
    split_and!; [done..| |done|constructor]. intros l E. by rewrite E in Hi.
Qed.

Lemma patch_fault f tbl js ws e :
  fold_res (patch_step f tbl) js ws = Err e → Forall (λ s, (s < length ws)%nat) js.*1 →
  ∃ pre s l post, js = pre ++ (s, l) :: post ∧ Forall (patch_ok f tbl) pre ∧
    ((∀ p, label_target f l = Some p → tbl !! p = None) ∧ e = label_error l ∨
     ∃ p t, label_target f l = Some p ∧ tbl !! p = Some t ∧ ¬ in_i16 (Z.of_nat t - Z.of_nat s) ∧
       e = "RangeError: jump offset out of range"%string).
Proof.
  revert ws. induction js as [|[s l] js IH]; intros ws H Hlt; [done|]. cbn [fold_res] in H.
  rewrite fmap_cons in Hlt. apply Forall_cons in Hlt as [Hs Hlt]. simpl in Hs.
  destruct (patch_ok_dec f tbl (s, l)) as [Hok|Hn].
  - destruct Hok as (p & t & Hp & Ht & Hr). destruct (lookup_lt_is_Some_2 ws s Hs) as [w Hw].
    rewrite (patch_step_ok _ _ _ _ _ p t w) in H by done. cbn [res_bind] in H.
    destruct (IH _ H) as (pre & s' & l' & post & -> & Hpre & Hcase); [by rewrite length_insert|].
    exists ((s, l) :: pre), s', l', post. split_and!; [done| |done]. constructor; [by exists p, t|done].
  - exists [], s, l, js. split_and!; [done|constructor|]. unfold patch_step in H.
    destruct (label_target f l) as [p|] eqn:Hp; [|left; split; [done|by injection H as <-]].
    destruct (tbl !! p) as [t|] eqn:Ht; [|left; split; [by intros ? [= <-]|by injection H as <-]].
    assert (¬ in_i16 (Z.of_nat t - Z.of_nat s)) as Hr by (intros Hr; apply Hn; by exists p, t).
    right. exists p, t. split_and!; [done..|]. destruct (bool_decide _ || bool_decide _) eqn:Hb; [by injection H as <-|].
    apply orb_false_iff in Hb as [?%bool_decide_eq_false ?%bool_decide_eq_false]. destruct Hr. unfold in_i16. lia.
Qed.

(** The recorded jumps are those of the instructions, in order. *)
Lemma jumps_from_split base is' pre s l post :
  jumps_from base is' = pre ++ (s, l) :: post →
  ∃ k i, is' !! k = Some i ∧ jump_label i = Some l ∧ s = (base + start_of is' k)%nat ∧ pre = jumps_from base (take k is').
Proof.
  revert base pre. induction is' as [|i is' IH]; intros base pre E; [by destruct pre|]. cbn [jumps_from] in E.
  destruct (jump_label i) as [l'|] eqn:Hl; cbn [app] in E.
  - destruct pre as [|x pre]; cbn [app] in E.
    + injection E as -> -> _. exists 0%nat, i. rewrite start_of_0. split_and!; [done..|lia|done].
    + injection E as <- E. destruct (IH _ _ E) as (k & i' & Hk & Hi & -> & ->). exists (S k), i'. rewrite start_of_cons.
      split_and!; [done..|lia|]. cbn [take jumps_from]. by rewrite Hl.
  - destruct (IH _ _ E) as (k & i' & Hk & Hi & -> & ->). exists (S k), i'. rewrite start_of_cons.
    split_and!; [done..|lia|]. cbn [take jumps_from]. by rewrite Hl.
Qed.

Lemma start_of_take is' k k' : (k' <= k)%nat → start_of (take k is') k' = start_of is' k'.
Proof. intros H. unfold start_of. by rewrite take_take, Nat.min_l. Qed.

Lemma patched_before f k :
  Forall (λ i, has_label i = true) (insts f) →
  Forall (patch_ok f (starts_from 0 (insts f))) (jumps_from 0 (take k (insts f))) → resolves_before f k.
Proof.
  intros Hlab Hp k' i' Hk Hi Hj. rewrite Forall_lookup in Hlab. pose proof (Hlab k' i' Hi) as Hl. unfold has_label in Hl.
  rewrite Hj in Hl. destruct (i_b i') as [| | | | | |l] eqn:Hb; try done. rewrite Forall_forall in Hp.
  destruct (Hp (start_of (insts f) k', l)) as (p & t & Hpt & Ht & Hr).
  - apply jumps_from_elem. exists k', i'. rewrite start_of_take by lia. split_and!; [by rewrite lookup_take_lt|by apply jump_label_spec|done].
  - pose proof (lookup_lt_Some _ _ _ Ht) as Hlt. rewrite length_starts_from in Hlt. rewrite starts_from_lookup in Ht by done.
    injection Ht as <-. by exists l, p.
Qed.

Lemma code_fault f ws e :
  within_limits f → Forall (λ i, has_label i = true) (insts f) →
  fold_res (patch_step f (starts_from 0 (insts f))) (jumps_from 0 (insts f)) ws = Err e →
  Forall (λ s, (s < length ws)%nat) (jumps_from 0 (insts f)).*1 → lower_fault f e.
Proof.
  intros Hlim Hlab H Hlt. destruct (patch_fault _ _ _ _ _ H Hlt) as (pre & s & l & post & E & Hpre & Hcase).
  destruct (jumps_from_split _ _ _ _ _ _ E) as (k & i & Hk & [Hj Hb]%jump_label_spec & -> & ->).
  pose proof (patched_before f k Hlab Hpre) as Hbefore. destruct Hcase as [[Hnone ->]|(p & t & Hp & Ht & Hr & ->)].
  - eapply fault_label; [done..|]. intros p Hp%Hnone. by apply lookup_ge_None in Hp; rewrite length_starts_from in Hp.
  - pose proof (lookup_lt_Some _ _ _ Ht) as Hlt'. rewrite length_starts_from in Hlt'. rewrite starts_from_lookup in Ht by done.
    injection Ht as <-. by eapply fault_offset.
Qed.

Lemma limits_fault f sub e : ¬ within_limits f → lower_body f sub = Err e → lower_fault f e.
Proof.
  intros H E. unfold lower_body in E. destruct (const_overflow f) eqn:Hco; simpl in E; [injection E as <-; constructor; by left|].
  destruct (N.ltb_spec 65535 (N.of_nat (length (constants f)))); [injection E as <-; constructor; by right|].
  assert (¬ too_many_constants f) as Hc by (intros [?|?]; [congruence|lia]).
  destruct (existsb uses_reg_over_253 (insts f)) eqn:Hex.
  { injection E as <-. apply fault_registers; [done|]. left. apply existsb_exists in Hex as (i & Hi & Hu). apply Exists_exists.
    exists i. split; [by apply list_elem_of_In|done]. }
  destruct (N.ltb_spec 254 (n_registers f)); [injection E as <-; apply fault_registers; auto|].
  destruct H. split_and!; [done..| |done]. apply Forall_forall. intros i Hi.
  destruct (uses_reg_over_253 i) eqn:Hu; [|done]. rewrite <- Hex. symmetry.
  apply existsb_exists. exists i. split; [by apply list_elem_of_In|done].
Qed.

Lemma nested_fault gs e :
  Forall (λ g, ∀ e, lower_owned g = Err e → lower_fault g e) gs → map_res lower_owned gs = Err e →
  ∃ pre g post, gs = pre ++ g :: post ∧ Forall lowerable pre ∧ lower_fault g e.
Proof.
  induction 1 as [|g gs Hg _ IH]; intros E; [done|]. cbn [map_res] in E. destruct (lower_owned g) as [m|e'|] eqn:Em; simpl in E; [|..].
  - destruct (map_res lower_owned gs) as [ms|e'|]; simpl in E; [done| |done]. injection E as ->.
    destruct (IH eq_refl) as (pre & g' & post & -> & Hpre & Hf). exists (g :: pre), g', post. split_and!; [done| |done].
    constructor; [|done]. apply lower_owned_outcome. by exists m.
  - injection E as ->. exists [], g, gs. split_and!; [done|constructor|by apply Hg].
  - done.
Qed.

Lemma lower_owned_fault f e : lower_owned f = Err e → lower_fault f e.
Proof.
  revert e. induction f as [f IH] using IRFunction_nested_ind. intros e E. rewrite lower_owned_eq in E.
  destruct (decide (within_limits f)) as [Hlim|Hlim]; [|by eapply limits_fault]. rewrite lower_body_limited in E by done.
  destruct (resolves_dec f) as [Hres|Hres].
  { destruct (code_ok f Hres) as (ws' & He & Hp & _). rewrite He in E. simpl in E. rewrite Hp in E. simpl in E.
    destruct (map_res lower_owned (nested f)) as [ms|e'|] eqn:Em; simpl in E; [done| |done]. injection E as ->.
    destruct (nested_fault _ _ IH Em) as (pre & g & post & En & Hpre & Hf). by eapply fault_nested. }
  destruct (decide (Forall (λ i, has_label i = true) (insts f))) as [Hlab|Hlab].
  - rewrite emit_loop in E by done. simpl in E. destruct (fold_res (patch_step _ _) _ _) as [ws|e'|] eqn:Ep in E; simpl in E.
    + destruct (code_err f Hres) as [[e1 He]|(e1 & He & Hp)]; [by rewrite emit_loop in He by done|congruence].
    + injection E as ->. by eapply code_fault; [..|apply jump_starts_bound].
    + done.
  - destruct (emit_loop_err (insts f) ([], [], []) Hlab) as [e' He]. rewrite He in E. injection E as ->.
    destruct (emit_fault _ _ _ He) as (k & i & Hk & Hj & Hb & -> & Hf). by eapply fault_no_label.
Qed.

(** ** Properties *)

(** C22: Lowering succeeds exactly on the functions within its documented
    limits: no constant-pool overflow, every register operand at most 253 and
    at most 254 registers, every jump labelled in slot [b] with a target
    instruction whose word distance fits 16 bits, and the same of every nested
    function. *)
Theorem lower_succeeds_iff f : is_ok (lower f) ↔ lowerable f.
Proof. apply lower_owned_outcome. Qed.

(** Lowering never panics: the [unreachable!] arm of [encode_inst] and
    the two indexings of the patch loop are unreachable on every input. *)
Theorem lower_never_panics f : lower f ≠ Panic.
Proof. apply lower_owned_outcome. Qed.

(** C3: Every instruction of a lowered function is found in the bytecode at
    the sum of the sizes of its predecessors, with its opcode and slots
    decodable, its extension words intact, and, for a jump, a signed offset
    that leads to the first word of the instruction its label names; the
    stream holds nothing else. *)
Theorem lower_stream f m :
  lower f = Ok m →
  length (bytecode m) = start_of (insts f) (length (insts f)) ∧
  ∀ k i, insts f !! k = Some i → emitted f (bytecode m) k i.
Proof. apply lower_stream_layout. Qed.

(** A counted loop: [x = c; while (x) { x = x - y }; return x]. *)
Definition sample_loop : IRFunction :=
  with_code ir_new
    [MkInst.load_const (Reg 1) 0;
     MkInst.jmp_if_false 1 1;
     MkInst.ic_get (Reg 2) (Reg 3);
     MkInst.new SUB (Reg 1) (Reg 1) (Reg 2);
     MkInst.jmp 0;
     MkInst.ret (Reg 1) 0 0 0]
    [Some 1%nat; Some 5%nat].

Definition sample_loop_module : CompiledModule :=
  match lower sample_loop with Ok m => m | _ => module_new end.

Lemma lower_stream_witness :
  lower sample_loop = Ok sample_loop_module ∧
  length (bytecode sample_loop_module) = start_of (insts sample_loop) (length (insts sample_loop)) ∧
  ∀ k i, insts sample_loop !! k = Some i → emitted sample_loop (bytecode sample_loop_module) k i.
Proof.
  split; [reflexivity|]. apply (lower_stream sample_loop sample_loop_module). reflexivity.
Defined.
