(* ===== verification/Stream.v ===== *)
(** * Walking an instruction stream (opcode.rs [ext_word_count], crates/oxide_vm/src/ic_helper.rs)

    Readers of compiled bytecode (the inline-cache reset, the disassembler,
    the NEW_OBJECT table scan) advance by [1 + ext_word_count].  The theorems
    show that on lowered code this visits exactly the instruction starts, and
    that resetting the caches zeroes exactly the cache words. *)

From stdpp Require Import base tactics numbers list option strings.
From Stdlib Require Import NArith ZArith Lia.
From S2P Require Import Prelude Opcode IR Contract Lower.

Open Scope N_scope.

(** ** The extension words an instruction announces *)

(** The count a reader computes for an instruction from its opcode, its
    first extension word and its [a] byte. *)
Definition ext_arity (i : Inst) : nat :=
  Instr.ext_count (i_op i) (ext_first i) (operand_pair_to_u8 (i_a i) (i_b i)).1.

(** An instruction carries the extension words it announces. *)
Definition ext_wf (i : Inst) : Prop :=
  length (i_ext i) = ext_arity i ∧ (i_op i = CONCAT_N → i_ext i ≠ []).

#[export] Instance ext_wf_dec i : Decision (ext_wf i).
Proof. unfold ext_wf. apply _. Defined.

(** ** The walk *)

(** [while i < bytecode.len() { visit(i); i += 1 + ext_word_count(bytecode, i); }],
    collecting the visited positions. *)
Fixpoint walk (fuel : nat) (ws : list N) (pc : nat) : res (list nat) :=
  if decide (pc < length ws)%nat then
    match fuel with
    | O => Panic
    | S fuel =>
        let* n := Instr.ext_word_count ws pc in
        let* rest := walk fuel ws (pc + 1 + n) in
        Ok (pc :: rest)
    end
  else Ok [].

(** [clear_ic_caches]; every step advances, so the length of the stream is
    enough fuel. *)
Fixpoint clear_ic_loop (fuel : nat) (ws : list N) (i : nat) : res (list N) :=
  if decide (i < length ws)%nat then
    match fuel with
    | O => Panic
    | S fuel =>
        let* instr := vec_get ws i in
        let ws' :=
          if has_ic_ext_words (Instr.opcode instr)
             && bool_decide (i + IC_EXT_WORDS < length ws)%nat
          then take (i + 1) ws ++ replicate IC_EXT_WORDS 0 ++ drop (i + 1 + IC_EXT_WORDS) ws
          else ws in
        let* n := Instr.ext_word_count ws' i in
        clear_ic_loop fuel ws' (i + 1 + n)
    end
  else Ok ws.

Definition clear_ic_caches (ws : list N) : res (list N) :=
  clear_ic_loop (length ws) ws 0.

(** ** The constructor API announces its words *)

(** Fewer than 256 spread and fewer than 256 static arguments: the two bytes
    of the header word of a spread call. *)
Definition spread_fits (ws : list N) : Prop :=
  let nspread := length (List.filter MkInst.is_spread_word ws) in
  (nspread < 256)%nat ∧ (length ws - nspread < 256)%nat.

(** Instructions built through the constructor API within its documented
    argument ranges. *)
Inductive built : Inst → Prop :=
  | built_ic op rd a b :
      has_ic_ext_words op = true → built (MkInst.with_ext op rd a b MkInst.ic_words)
  | built_plain op rd a b :
      ext_arity (MkInst.new op rd a b) = 0%nat → op ≠ CONCAT_N → built (MkInst.new op rd a b)
  | built_call c t a n : built (MkInst.call c t a n)
  | built_call_native c t a n : built (MkInst.call_native c t a n)
  | built_new_expression r c a n : built (MkInst.new_expression r c a n)
  | built_super_call r a n : built (MkInst.super_call r a n)
  | built_call_spread c t ws :
      spread_fits ws → built (MkInst.call_spread c t ws)
  | built_new_spread r c ws :
      spread_fits ws → built (MkInst.new_expression_spread r c ws)
  | built_super_spread r ws :
      spread_fits ws → built (MkInst.super_call_spread r ws)
  | built_get_private r o k x y : built (MkInst.get_private r o k x y)
  | built_private_brand_in r o k x y : built (MkInst.private_brand_in r o k x y)
  | built_set_private o v k x y : built (MkInst.set_private o v k x y)
  | built_init_private t v k m : built (MkInst.init_private t v k m)
  | built_define_accessor h g s k : built (MkInst.define_accessor h g s k)
  | built_define_accessor_attrs h g s k t : built (MkInst.define_accessor_attrs h g s k t)
  | built_define_accessor_attrs_dynamic h g s k t :
      built (MkInst.define_accessor_attrs_dynamic h g s k t)
  | built_define_accessor_dynamic h g s k : built (MkInst.define_accessor_dynamic h g s k)
  | built_define_prop_attrs t v k x : built (MkInst.define_prop_attrs t v k x)
  | built_define_global_prop_c v k : built (MkInst.define_global_prop_c v k)
  | built_define_global_prop_c_strict v k : built (MkInst.define_global_prop_c_strict v k)
  | built_define_global_prop_c_if_absent v k : built (MkInst.define_global_prop_c_if_absent v k)
  | built_store_global_lex v k : built (MkInst.store_global_lex v k)
  | built_delete_prop_static o k : built (MkInst.delete_prop_static o k)
  | built_delete_global_prop_c r s k : built (MkInst.delete_global_prop_c r s k)
  | built_rest_object r s e x : built (MkInst.rest_object r s e x)
  | built_new_object d ks :
      (length ks < 256)%nat → built (MkInst.new_object d (N.of_nat (length ks)) ks)
  | built_concat_n d os i :
      MkInst.concat_n d os = Ok i → N.of_nat (length os) < 2^32 → built i
  | built_template_str d hint ps :
      N.of_nat (length ps) < 2^16 →
      built (MkInst.template_str d (N.of_nat (length ps)) hint ps)
  | built_get_template_object d site cs rs i :
      MkInst.get_template_object d site cs rs = Ok i →
      N.of_nat (length cs) < 2^32 → built i
  | built_spill s n : built (MkInst.inst_spill s n)
  | built_unspill d n : built (MkInst.inst_unspill d n)
  | built_brk l c x y z : built (MkInst.brk l c x y z)
  | built_cont l c x y z : built (MkInst.cont l c x y z)
  | built_ret s x y z : built (MkInst.ret s x y z).

Lemma filter_le {A} (p : A → bool) l : (length (List.filter p l) <= length l)%nat.
Proof. induction l; simpl; [lia|]. destruct (p a); simpl; lia. Qed.

Lemma spread_header (s n : N) :
  s < 256 → n < 256 →
  N.land (N.lor s (u32 (N.shiftl n 8))) 0xFF = s ∧
  N.land (N.shiftr (N.lor s (u32 (N.shiftl n 8))) 8) 0xFF = n.
Proof.
  intros Hs Hn. unfold u32. rewrite (N.mod_small (N.shiftl n 8)).
  2: { rewrite N.shiftl_mul_pow2. bits_lia. }
  rewrite N.lor_comm, lor_shiftl_add by bits_lia. split; bits_lia.
Qed.

Lemma spread_wf op rd a ws :
  ext_arity (mkInst op rd a ONone (MkInst.spread_ext ws)) =
    (1 + N.to_nat (N.land (ext_first (mkInst op rd a ONone (MkInst.spread_ext ws))) 0xFF)
       + N.to_nat (N.land (N.shiftr (ext_first (mkInst op rd a ONone (MkInst.spread_ext ws))) 8) 0xFF))%nat →
  op ≠ CONCAT_N → spread_fits ws → ext_wf (mkInst op rd a ONone (MkInst.spread_ext ws)).
Proof.
  intros E Hop [H1 H2]. split; [|intros; simpl; done].
  rewrite E. unfold MkInst.spread_ext, ext_first. simpl.
  pose proof (filter_le MkInst.is_spread_word ws).
  destruct (spread_header (N.of_nat (length ws) - N.of_nat (length (List.filter MkInst.is_spread_word ws)))
              (N.of_nat (length (List.filter MkInst.is_spread_word ws)))) as [-> ->]; [lia..|].
  lia.
Qed.

Lemma interleave_length cs rs ws :
  MkInst.interleave cs rs = Ok ws → length ws = (2 * length cs)%nat.
Proof.
  revert rs ws. induction cs as [|c cs IH]; intros rs ws H; simpl in H; res_inv; [done|].
  destruct rs; [done|]. res_inv. simpl. rewrite (IH rs) by done. lia.
Qed.

Lemma u32_small n : n < 2^32 → u32 n = n.
Proof. apply N.mod_small. Qed.

Lemma ic_not_concat op : has_ic_ext_words op = true → op ≠ CONCAT_N.
Proof. by destruct op. Qed.

(** Every instruction built by the constructor API carries exactly the
    number of extension words that a reader of the bytecode computes for it
    from its opcode byte, its header word and its [a] byte. *)
Theorem built_ext_wf i : built i → ext_wf i.
Proof.
  destruct 1; try (split; [reflexivity | discriminate]).
  - split; [|intros ?; by destruct (ic_not_concat op)].
    unfold ext_arity, Instr.ext_count. simpl. by rewrite H.
  - by split.
  - by apply spread_wf.
  - by apply spread_wf.
  - by apply spread_wf.
  - split; [|discriminate]. unfold ext_arity, Instr.ext_count, MkInst.new_object. simpl.
    unfold u16. rewrite N.mod_small by bits_lia. bits_lia.
  - unfold MkInst.concat_n in H. destruct os; [done|]. res_inv.
    split; [|done]. unfold ext_arity, Instr.ext_count, ext_first. simpl. rewrite u32_small by done. lia.
  - split; [|discriminate]. unfold ext_arity, Instr.ext_count, ext_first, MkInst.template_str. simpl.
    rewrite lor_shiftl_add by bits_lia. bits_lia.
  - unfold MkInst.get_template_object in H. res_inv.
    split; [|discriminate]. unfold ext_arity, Instr.ext_count, ext_first. simpl.
    rewrite length_app, (interleave_length _ _ _ E), u32_small by done. simpl. lia.
Qed.

(** ** Streams as sequences of chunks *)

(** One instruction as it lies in the stream: its word and its extension. *)
Definition chunk_words (c : N * list N) : list N := c.1 :: c.2.

Definition chunk_wf (c : N * list N) : Prop :=
  length c.2 = Instr.ext_count (Instr.opcode c.1) (default 0 (head c.2)) (Instr.a c.1) ∧
  (Instr.opcode c.1 = CONCAT_N → c.2 ≠ []).

Definition flatten_chunks (cs : list (N * list N)) : list N := mjoin (chunk_words <$> cs).

Fixpoint chunk_starts (base : nat) (cs : list (N * list N)) : list nat :=
  match cs with
  | [] => []
  | c :: cs => base :: chunk_starts (base + length (chunk_words c)) cs
  end.

(** Resetting one chunk: the cache words of an IC instruction become zero. *)
Definition clear_chunk (c : N * list N) : N * list N :=
  if has_ic_ext_words (Instr.opcode c.1) then (c.1, replicate (length c.2) 0) else c.

Lemma ext_count_zero op h a h' :
  Instr.ext_count op h a = 0%nat → op ≠ CONCAT_N → Instr.ext_count op h' a = 0%nat.
Proof. destruct op; unfold Instr.ext_count; simpl; try done; lia. Qed.

Lemma ext_count_ic op h a :
  has_ic_ext_words op = true → Instr.ext_count op h a = IC_EXT_WORDS.
Proof. intros H. unfold Instr.ext_count. by rewrite H. Qed.

Lemma flatten_cons c cs : flatten_chunks (c :: cs) = c.1 :: c.2 ++ flatten_chunks cs.
Proof. done. Qed.

(** The reader's count at the head of a well-formed chunk. *)
Lemma ext_word_count_chunk pre c post :
  chunk_wf c →
  Instr.ext_word_count (pre ++ c.1 :: c.2 ++ post) (length pre) = Ok (length c.2).
Proof.
  intros [Hlen Hne]. unfold Instr.ext_word_count.
  rewrite (proj2 (vec_get_Ok _ _ c.1)) by (by apply list_lookup_middle). simpl.
  f_equal. rewrite lookup_app_r by lia.
  replace (length pre + 1 - length pre)%nat with 1%nat by lia. simpl.
  destruct c as [w [|x ext]]; simpl in *; [|done].
  destruct (decide (Instr.opcode w = CONCAT_N)) as [E|E]; [by destruct (Hne E)|].
  by eapply ext_count_zero.
Qed.

Lemma walk_chunks fuel pre cs :
  Forall chunk_wf cs → (length cs <= fuel)%nat →
  walk fuel (pre ++ flatten_chunks cs) (length pre) = Ok (chunk_starts (length pre) cs).
Proof.
  intros H. revert fuel pre. induction H as [|c cs Hc _ IH]; intros fuel pre Hf.
  { unfold flatten_chunks. simpl. rewrite app_nil_r. destruct fuel; simpl; by rewrite decide_False by lia. }
  destruct fuel as [|fuel]; simpl in Hf; [lia|]. rewrite flatten_cons. simpl.
  rewrite decide_True by (rewrite length_app; simpl; lia).
  rewrite ext_word_count_chunk by done. simpl.
  replace (pre ++ c.1 :: c.2 ++ flatten_chunks cs)
    with ((pre ++ chunk_words c) ++ flatten_chunks cs) by (by rewrite <- app_assoc).
  replace (length pre + 1 + length c.2)%nat with (length (pre ++ chunk_words c))
    by (rewrite length_app; simpl; lia).
  rewrite IH by lia. simpl. rewrite length_app. done.
Qed.

Lemma clear_chunk_wf c : chunk_wf c → chunk_wf (clear_chunk c).
Proof.
  intros [H1 H2]. unfold clear_chunk, chunk_wf.
  destruct (has_ic_ext_words (Instr.opcode c.1)) eqn:E; [|done]. simpl.
  rewrite length_replicate. split.
  - rewrite H1. by rewrite !ext_count_ic.
  - intros ?. by destruct (ic_not_concat _ E).
Qed.

Lemma clear_step pre c post :
  chunk_wf c →
  (if has_ic_ext_words (Instr.opcode c.1)
      && bool_decide (length pre + IC_EXT_WORDS < length (pre ++ c.1 :: c.2 ++ post))%nat
   then take (length pre + 1) (pre ++ c.1 :: c.2 ++ post) ++ replicate IC_EXT_WORDS 0 ++
        drop (length pre + 1 + IC_EXT_WORDS) (pre ++ c.1 :: c.2 ++ post)
   else pre ++ c.1 :: c.2 ++ post) =
  pre ++ chunk_words (clear_chunk c) ++ post.
Proof.
  intros [H1 _]. unfold clear_chunk.
  destruct (has_ic_ext_words (Instr.opcode c.1)) eqn:E; [|done]. simpl.
  rewrite ext_count_ic in H1 by done.
  rewrite bool_decide_eq_true_2 by (rewrite !length_app; simpl; rewrite length_app; lia).
  rewrite H1.
  replace (pre ++ c.1 :: c.2 ++ post) with ((pre ++ [c.1]) ++ c.2 ++ post)
    by (by rewrite <- app_assoc).
  rewrite take_app_length' by (rewrite length_app; simpl; lia).
  rewrite app_assoc, drop_app_length' by (rewrite !length_app, H1; simpl; lia).
  by rewrite <- app_assoc.
Qed.

Lemma clear_ic_chunks fuel pre cs :
  Forall chunk_wf cs → (length cs <= fuel)%nat →
  clear_ic_loop fuel (pre ++ flatten_chunks cs) (length pre) =
  Ok (pre ++ flatten_chunks (clear_chunk <$> cs)).
Proof.
  intros H. revert fuel pre. induction H as [|c cs Hc _ IH]; intros fuel pre Hf.
  { unfold flatten_chunks. simpl. rewrite app_nil_r. destruct fuel; simpl; by rewrite decide_False by lia. }
  destruct fuel as [|fuel]; simpl in Hf; [lia|]. rewrite flatten_cons. cbn [clear_ic_loop].
  rewrite decide_True by (rewrite length_app; simpl; lia).
  rewrite (proj2 (vec_get_Ok _ _ c.1)) by (by apply list_lookup_middle). cbn [res_bind].
  rewrite clear_step by done.
  pose proof (clear_chunk_wf c Hc) as Hc'.
  assert (length (clear_chunk c).2 = length c.2 ∧ (clear_chunk c).1 = c.1) as [El E1].
  { unfold clear_chunk. case_match; simpl; by rewrite ?length_replicate. }
  pose proof (ext_word_count_chunk pre (clear_chunk c) (flatten_chunks cs) Hc') as Hn.
  unfold chunk_words. simpl app. rewrite Hn. cbn [res_bind].
  replace (pre ++ (clear_chunk c).1 :: (clear_chunk c).2 ++ flatten_chunks cs)
    with ((pre ++ chunk_words (clear_chunk c)) ++ flatten_chunks cs) by (by rewrite <- app_assoc).
  replace (length pre + 1 + length (clear_chunk c).2)%nat
    with (length (pre ++ chunk_words (clear_chunk c))) by (rewrite length_app; simpl; lia).
  rewrite IH by lia. by rewrite <- app_assoc.
Qed.

(** ** Lowered code is a sequence of chunks *)

(** Chunk [c] is instruction [i] as lowered. *)
Definition chunk_of (i : Inst) (c : N * list N) : Prop :=
  c.2 = i_ext i ∧ Instr.opcode c.1 = i_op i ∧
  (is_jump (i_op i) = false → Instr.a c.1 = (operand_pair_to_u8 (i_a i) (i_b i)).1).

Lemma drop_chunk (ws : list N) s w ext :
  ws !! s = Some w → (∀ j x, ext !! j = Some x → ws !! (s + 1 + j)%nat = Some x) →
  drop s ws = w :: ext ++ drop (s + 1 + length ext) ws.
Proof.
  intros Hw Hext. rewrite (drop_S ws w s Hw). f_equal.
  replace (S s) with (s + 1)%nat by lia. clear Hw. revert s Hext.
  induction ext as [|x ext IH]; intros s Hext; simpl; [f_equal; lia|].
  assert (ws !! (s + 1)%nat = Some x) as Hx.
  { rewrite <- (Nat.add_0_r (s + 1)). by apply Hext. }
  rewrite (drop_S ws x _ Hx). f_equal.
  replace (S (s + 1)) with (S s + 1)%nat by lia. rewrite (IH (S s)).
  - do 2 f_equal. lia.
  - intros j y Hj. specialize (Hext (S j) y Hj). rewrite <- Hext. f_equal. lia.
Qed.

Lemma lower_chunks f m :
  lower f = Ok m →
  ∃ cs, bytecode m = flatten_chunks cs ∧ Forall2 chunk_of (insts f) cs.
Proof.
  intros [Hlen Hem]%lower_stream_layout.
  cut (∀ n k, (k + n = length (insts f))%nat →
    ∃ cs, drop (start_of (insts f) k) (bytecode m) = flatten_chunks cs ∧
      Forall2 chunk_of (drop k (insts f)) cs).
  { intros Hcut. destruct (Hcut (length (insts f)) 0%nat) as (cs & Hcs & Hall); [done|].
    exists cs. by rewrite start_of_0, !drop_0 in *. }
  induction n as [|n IH]; intros k Hk.
  - exists []. split; [|rewrite drop_ge by lia; constructor].
    apply drop_ge. rewrite Hlen. by replace k with (length (insts f)) by lia.
  - destruct (lookup_lt_is_Some_2 (insts f) k) as [i Hi]; [lia|].
    destruct (IH (S k)) as (cs & Hcs & Hall); [lia|].
    destruct (Hem k i Hi) as (w & Hw & Hop & Hext & Hrest).
    exists ((w, i_ext i) :: cs). split.
    + rewrite (drop_chunk _ _ w (i_ext i)) by done. rewrite flatten_cons, <- Hcs. simpl.
      do 3 f_equal. rewrite (start_of_S _ _ _ Hi). unfold inst_size. lia.
    + rewrite (drop_S _ _ _ Hi). constructor; [|done]. split_and!; [done..|].
      intros Hj. rewrite Hj in Hrest. destruct Hrest as [_ E]. by rewrite <- E.
Qed.

Lemma jump_not_new_object op : is_jump op = true → op ≠ NEW_OBJECT.
Proof. by destruct op. Qed.

Lemma ext_count_abyte op h x y :
  op ≠ NEW_OBJECT → Instr.ext_count op h x = Instr.ext_count op h y.
Proof. by destruct op. Qed.

Lemma chunk_of_wf i c : ext_wf i → chunk_of i c → chunk_wf c.
Proof.
  intros [H1 H2] (Hext & Hop & Ha). unfold chunk_wf. rewrite Hext, Hop. split; [|done].
  rewrite H1. unfold ext_arity, ext_first. destruct (is_jump (i_op i)) eqn:Hj.
  - by apply ext_count_abyte, jump_not_new_object.
  - by rewrite Ha.
Qed.

Lemma chunk_starts_of is' cs base :
  Forall2 chunk_of is' cs → chunk_starts base cs = starts_from base is'.
Proof.
  intros H. revert base. induction H as [|i c is' cs (Hext & _) _ IH]; intros base; [done|].
  simpl. rewrite IH, Hext. done.
Qed.

Lemma chunks_wf is' cs :
  Forall ext_wf is' → Forall2 chunk_of is' cs → Forall chunk_wf cs.
Proof.
  intros Hw H. induction H as [|i c is' cs Hc _ IH]; [constructor|].
  apply Forall_cons in Hw as [Hi Hw]. constructor; [by eapply chunk_of_wf | auto].
Qed.

Lemma length_flatten_chunks cs : (length cs <= length (flatten_chunks cs))%nat.
Proof.
  induction cs as [|c cs IH]; [done|]. rewrite flatten_cons. simpl. rewrite length_app. lia.
Qed.

(** ** Properties *)

(** A reader that advances by [1 + ext_word_count] over lowered code
    visits exactly the first words of its instructions, in order: it never
    mistakes an extension word for an instruction, for every function whose
    instructions carry the words they announce. *)
Theorem walk_lowered f m :
  lower f = Ok m → Forall ext_wf (insts f) →
  walk (length (bytecode m)) (bytecode m) 0 = Ok (starts_from 0 (insts f)).
Proof.
  intros Hm Hw. destruct (lower_chunks f m Hm) as (cs & Hcs & Hall). rewrite Hcs.
  rewrite (walk_chunks _ [] cs); [by rewrite (chunk_starts_of _ _ _ Hall) | by eapply chunks_wf |].
  apply length_flatten_chunks.
Qed.

(** Resetting the inline caches of lowered code succeeds, and the result
    is the same stream with the extension words of the inline-cached
    instructions zeroed: every opcode word and every other extension word is
    kept. *)
Theorem clear_ic_caches_lowered f m :
  lower f = Ok m → Forall ext_wf (insts f) →
  ∃ cs, bytecode m = flatten_chunks cs ∧ Forall2 chunk_of (insts f) cs ∧
    clear_ic_caches (bytecode m) = Ok (flatten_chunks (clear_chunk <$> cs)).
Proof.
  intros Hm Hw. destruct (lower_chunks f m Hm) as (cs & Hcs & Hall). rewrite Hcs.
  exists cs. split_and!; [done..|]. unfold clear_ic_caches.
  apply (clear_ic_chunks _ []); [by eapply chunks_wf|].
  apply length_flatten_chunks.
Qed.

Lemma built_ext_wf_witness :
  spread_fits [5; 0x80000006; 7] ∧ ext_wf (MkInst.call_spread (Reg 1) (Reg 2) [5; 0x80000006; 7]).
Proof.
  assert (spread_fits [5; 0x80000006; 7]) as H by (split; vm_compute; lia).
  split; [exact H|]. apply (built_ext_wf _ (built_call_spread (Reg 1) (Reg 2) _ H)).
Defined.

Lemma walk_lowered_witness :
  walk (length (bytecode sample_loop_module)) (bytecode sample_loop_module) 0 =
    Ok (starts_from 0 (insts sample_loop)) ∧ starts_from 0 (insts sample_loop) = [0; 1; 2; 11; 12; 13]%nat.
Proof.
  split; [|reflexivity]. apply (walk_lowered sample_loop sample_loop_module); [reflexivity|].
  repeat constructor; vm_compute; done.
Defined.

Lemma clear_ic_caches_lowered_witness :
  ∃ cs, bytecode sample_loop_module = flatten_chunks cs ∧ Forall2 chunk_of (insts sample_loop) cs ∧
    clear_ic_caches (bytecode sample_loop_module) = Ok (flatten_chunks (clear_chunk <$> cs)).
Proof.
  apply (clear_ic_caches_lowered sample_loop sample_loop_module); [reflexivity|].
  repeat constructor; vm_compute; done.
Defined.
