(* ===== verification/Flatten.v ===== *)
(** * Submodule flattening (crates/oxide_compiler/src/flatten.rs, crates/oxide_vm/src/vm_runtime.rs)

    [flatten_submodules] numbers the modules of a compiled tree and rewrites
    the operand of [CREATE_CLOSURE] from a 1-based child index to the child's
    number; the VM then lays the tree out in a table indexed by number.  The
    theorems show that the numbers fill the table without a gap and that the
    rewriting of closure instructions is right on streams whose extension
    words do not look like [CREATE_CLOSURE]; the scan reads every word, and
    a counterexample shows what it does to the others. *)

From stdpp Require Import base tactics numbers list option strings.
From Stdlib Require Import NArith ZArith Lia.
From S2P Require Import Prelude Opcode IR Lower Stream.

Open Scope N_scope.

(** ** Field updates of a compiled module *)
Definition with_module (m : CompiledModule) (bc : list N) (subs : list CompiledModule)
    (id : N) : CompiledModule :=
  mkCompiledModule bc (m_constants m) (m_n_registers m) (m_n_args m) (m_param_base m)
    (m_builtin_reg_map m) subs (m_is_arrow m) (m_is_strict m) (m_captured_this_const_idx m)
    (m_function_name m) (m_function_name_reg m) (m_function_length m) (m_has_simple_params m)
    (m_is_class_constructor m) (m_is_derived_constructor m) (m_needs_home_object m)
    (m_is_generator m) (m_is_async m) (m_upvalue_captures m) (m_cells_needed m)
    (m_cell_names m) id (is_es_module m).

(** [Arc::make_mut(sub).flat_id = id]. *)
Definition set_flat_id (m : CompiledModule) (id : N) : CompiledModule :=
  with_module m (bytecode m) (sub_modules m) id.

(** ** Rewriting closure operands *)

(** One word of the scan: a word whose low byte is [CREATE_CLOSURE] gets the
    number of the child its [imm16] names, [0] when there is none. *)
Definition rewrite_closure (ids : list N) (instr : N) : N :=
  if decide (Instr.opcode instr = CREATE_CLOSURE) then
    let rel := Instr.imm16 instr in
    let flat := if 0 <? rel then default 0 (ids !! N.to_nat (rel - 1)) else 0 in
    Instr.encode CREATE_CLOSURE (Instr.rd instr) (N.land flat 0xFF)
      (N.land (N.shiftr flat 8) 0xFF)
  else instr.

(** The entry of an async module: every child index moves up by one. *)
Definition shift_closure (instr : N) : N :=
  if decide (Instr.opcode instr = CREATE_CLOSURE) then
    let rel := Instr.imm16 instr in
    Instr.encode CREATE_CLOSURE (Instr.rd instr) (N.land (rel + 1) 0xFF)
      (N.land (N.shiftr (rel + 1) 8) 0xFF)
  else instr.

(** ** Numbering *)

(** The numbers given to [n] children, and the next free number; with
    [skip], the first child is the placeholder and gets [0]. *)
Definition child_ids (n : nat) (next_id : N) (skip : bool) : list N * N :=
  match n, skip with
  | S n', true => (0 :: ((λ k, next_id + N.of_nat k) <$> seq 0 n'), next_id + N.of_nat n')
  | _, _ => ((λ k, next_id + N.of_nat k) <$> seq 0 n, next_id + N.of_nat n)
  end.

(** [assign_ids]: number the children, rewrite this module's closures, then
    recurse into the children.  The recursion does not read or write the
    child's own number, so it is set on the result. *)
Fixpoint assign_ids (m : CompiledModule) (next_id : N) (skip_placeholder : bool)
    : CompiledModule * N :=
  let (ids, next1) := child_ids (length (sub_modules m)) next_id skip_placeholder in
  let bc := rewrite_closure ids <$> bytecode m in
  let fix go (subs : list CompiledModule) (ids : list N) (next : N)
      : list CompiledModule * N :=
    match subs with
    | [] => ([], next)
    | s :: subs =>
        let (s', n1) := assign_ids s next false in
        let (rest, n2) := go subs (tail ids) n1 in
        (set_flat_id s' (default 0 (head ids)) :: rest, n2)
    end in
  let (subs, next2) := go (sub_modules m) ids next1 in
  (with_module m bc subs (flat_id m), next2).

Definition flatten_submodules (m : CompiledModule) : CompiledModule :=
  if m_is_async m then
    let m1 := with_module m (shift_closure <$> bytecode m) (module_new :: sub_modules m) 1 in
    (assign_ids m1 2 true).1
  else (assign_ids m 1 false).1.

(** ** The VM's table *)

(** [place_flat]: grow the table to hold the number, store the module, recurse. *)
Fixpoint place_flat (m : CompiledModule) (out : list (option CompiledModule))
    : list (option CompiledModule) :=
  let idx := N.to_nat (flat_id m) in
  let out := out ++ replicate (S idx - length out) None in
  let out := <[idx := Some m]> out in
  (fix go (subs : list CompiledModule) out :=
     match subs with [] => out | s :: subs => go subs (place_flat s out) end)
    (sub_modules m) out.

(** [collect_flat_modules]; an unfilled slot panics. *)
Definition collect_flat_modules (m : CompiledModule) : res (list CompiledModule) :=
  map_res (λ o, match o with Some s => Ok s | None => Panic end) (place_flat m []).

(** ** The tree in preorder *)
Fixpoint modules_of (m : CompiledModule) : list CompiledModule :=
  m :: (fix go (subs : list CompiledModule) :=
          match subs with [] => [] | s :: subs => modules_of s ++ go subs end)
         (sub_modules m).

Example flatten_ids_ex :
  let leaf := module_new in
  let mid := with_module module_new [] [leaf] 0 in
  let top := with_module module_new [Instr.encode CREATE_CLOSURE 3 2 0] [mid; leaf] 0 in
  flat_id <$> modules_of (flatten_submodules top) = [0; 1; 3; 2] ∧
  bytecode (flatten_submodules top) = [Instr.encode CREATE_CLOSURE 3 2 0].
Proof. vm_compute. done. Qed.

(** ** The numbering is gap-free *)

Section CompiledModule_nested_ind.
Context (P : CompiledModule → Prop).
Context (Hstep : ∀ m, Forall P (sub_modules m) → P m).

Fixpoint CompiledModule_nested_ind (m : CompiledModule) : P m.
Proof.
  apply Hstep. destruct m as [?????? subs ?????????????????]. simpl.
  induction subs as [|s subs IH]; constructor; [apply CompiledModule_nested_ind | apply IH].
Defined.
End CompiledModule_nested_ind.

(** The modules below the given ones, each with its own subtree. *)
Definition forest (subs : list CompiledModule) : list CompiledModule :=
  mjoin (modules_of <$> subs).

Lemma modules_of_eq m : modules_of m = m :: forest (sub_modules m).
Proof.
  destruct m as [?????? subs ?????????????????]. simpl. f_equal.
  induction subs as [|s subs IH]; [done|]. by rewrite IH.
Qed.

Lemma forest_cons s subs : forest (s :: subs) = s :: forest (sub_modules s) ++ forest subs.
Proof. unfold forest at 1. rewrite fmap_cons, mjoin_cons. by rewrite modules_of_eq. Qed.

Fixpoint assign_subs (subs : list CompiledModule) (ids : list N) (next : N)
    : list CompiledModule * N :=
  match subs with
  | [] => ([], next)
  | s :: subs =>
      let (s', n1) := assign_ids s next false in
      let (rest, n2) := assign_subs subs (tail ids) n1 in
      (set_flat_id s' (default 0 (head ids)) :: rest, n2)
  end.

Lemma assign_ids_eq m next skip :
  assign_ids m next skip =
  let (ids, next1) := child_ids (length (sub_modules m)) next skip in
  let (subs, next2) := assign_subs (sub_modules m) ids next1 in
  (with_module m (rewrite_closure ids <$> bytecode m) subs (flat_id m), next2).
Proof. by destruct m. Qed.

(** The numbers [next, next + n). *)
Definition numbers (next : N) (n : nat) : list N := (λ k, next + N.of_nat k) <$> seq 0 n.

Lemma numbers_app next n k : numbers next (n + k) = numbers next n ++ numbers (next + N.of_nat n) k.
Proof.
  unfold numbers. rewrite seq_app, fmap_app. f_equal. simpl.
  rewrite <- (Nat.add_0_r n) at 1. rewrite <- fmap_add_seq, <- list_fmap_compose.
  apply list_fmap_ext. intros i x _. simpl. lia.
Qed.

Lemma numbers_elem next n x : x ∈ numbers next n ↔ next <= x < next + N.of_nat n.
Proof.
  unfold numbers. rewrite list_elem_of_fmap. split.
  - intros (k & -> & Hk%elem_of_seq). lia.
  - intros Hx. exists (N.to_nat (x - next)). rewrite elem_of_seq. lia.
Qed.

Lemma numbers_NoDup next n : NoDup (numbers next n).
Proof. apply NoDup_fmap_2; [|apply NoDup_seq]. intros x y. simpl. lia. Qed.

(** One module and the list of its children are numbered together. *)
Definition numbers_below (m : CompiledModule) : Prop :=
  ∀ next m' next', assign_ids m next false = (m', next') →
    next' = next + N.of_nat (length (forest (sub_modules m'))) ∧
    flat_id <$> forest (sub_modules m') ≡ₚ numbers next (length (forest (sub_modules m'))).

Lemma assign_subs_numbers subs ids next subs' next' :
  Forall numbers_below subs → length ids = length subs →
  assign_subs subs ids next = (subs', next') →
  ∃ cnt, next' = next + N.of_nat cnt ∧ length (forest subs') = (length ids + cnt)%nat ∧
    flat_id <$> forest subs' ≡ₚ ids ++ numbers next cnt.
Proof.
  intros H. revert ids next subs' next'.
  induction H as [|s subs Hs _ IH]; intros ids next subs' next' Hlen E; simpl in E.
  { injection E as <- <-. exists 0%nat. destruct ids; [|done].
    split_and!; [lia|done|done]. }
  destruct ids as [|id ids]; simpl in *; [done|].
  destruct (assign_ids s next false) as [s' n1] eqn:Es.
  destruct (assign_subs subs ids n1) as [rest n2] eqn:Er. injection E as <- <-.
  apply Hs in Es as [-> Hperm]. set (c := length (forest (sub_modules s'))) in *.
  apply IH in Er as (cnt & -> & Hl & Hp); [|lia].
  exists (c + cnt)%nat. rewrite forest_cons. simpl.
  rewrite length_app, fmap_app, Hl, Hp, Hperm. fold c. split_and!; [lia|lia|].
  apply Permutation_skip. rewrite numbers_app.
  rewrite !(Permutation_app_comm ids), app_assoc. done.
Qed.

Lemma child_ids_false n next : child_ids n next false = (numbers next n, next + N.of_nat n).
Proof. by destruct n. Qed.

Lemma length_numbers next n : length (numbers next n) = n.
Proof. unfold numbers. by rewrite length_fmap, length_seq. Qed.

Lemma assign_ids_numbers m : numbers_below m.
Proof.
  induction m as [m IH] using CompiledModule_nested_ind. intros next m' next' E.
  rewrite assign_ids_eq, child_ids_false in E.
  destruct (assign_subs _ _ _) as [subs n2] eqn:Es. injection E as <- <-. simpl.
  apply assign_subs_numbers in Es as (cnt & -> & Hl & Hp); [|done|by rewrite length_numbers].
  rewrite Hl, length_numbers, Hp, numbers_app. split; [lia|done].
Qed.

Lemma flatten_numbers m :
  let ms := modules_of (flatten_submodules m) in
  flat_id m = 0 →
  flat_id <$> ms ≡ₚ numbers 0 (length ms).
Proof.
  intros ms H0. subst ms. unfold flatten_submodules. destruct (m_is_async m).
  - rewrite assign_ids_eq. cbn [with_module sub_modules child_ids length].
    destruct (assign_subs _ _ _) as [subs n2] eqn:Es.
    apply assign_subs_numbers in Es as (cnt & -> & Hl & Hp).
    + rewrite modules_of_eq. cbn [fst with_module sub_modules flat_id fmap list_fmap].
      simpl. rewrite Hl, Hp. simpl. rewrite length_fmap, length_seq.
      change (S (S (?a + cnt))) with (2 + (a + cnt))%nat.
      rewrite numbers_app. simpl. rewrite numbers_app.
      replace (2 + N.of_nat (length (sub_modules m))) with (0 + N.of_nat 2 + N.of_nat (length (sub_modules m))) by lia.
      apply Permutation_swap.
    + apply Forall_forall. intros; apply assign_ids_numbers.
    + simpl. by rewrite length_fmap, length_seq.
  - rewrite assign_ids_eq, child_ids_false.
    destruct (assign_subs _ _ _) as [subs n2] eqn:Es.
    apply assign_subs_numbers in Es as (cnt & -> & Hl & Hp).
    + rewrite modules_of_eq. simpl. rewrite H0, Hl, Hp, length_numbers.
      change (S ?a) with (1 + a)%nat. rewrite numbers_app. simpl. by rewrite numbers_app.
    + apply Forall_forall. intros; apply assign_ids_numbers.
    + by rewrite length_numbers.
Qed.

(** ** The VM's table *)

Definition store_flat (out : list (option CompiledModule)) (m : CompiledModule)
    : list (option CompiledModule) :=
  let idx := N.to_nat (flat_id m) in
  <[idx := Some m]> (out ++ replicate (S idx - length out) None).

Lemma place_flat_unfold m out :
  place_flat m out =
  fold_left (λ out s, place_flat s out) (sub_modules m) (store_flat out m).
Proof.
  destruct m. reflexivity.
Qed.

Lemma place_flat_eq m out : place_flat m out = fold_left store_flat (modules_of m) out.
Proof.
  revert out. induction m as [m IH] using CompiledModule_nested_ind. intros out.
  rewrite place_flat_unfold, modules_of_eq. simpl. generalize (store_flat out m).
  induction IH as [|s subs Hs _ IHs]; intros out'; [done|]. simpl.
  rewrite Hs, IHs, modules_of_eq, forest_cons. simpl. by rewrite fold_left_app.
Qed.

Lemma store_flat_lookup_eq out m :
  store_flat out m !! N.to_nat (flat_id m) = Some (Some m).
Proof. apply list_lookup_insert_eq. rewrite length_app, length_replicate. lia. Qed.

Lemma store_flat_lookup_ne out m j s :
  j ≠ N.to_nat (flat_id m) → out !! j = Some (Some s) → store_flat out m !! j = Some (Some s).
Proof.
  intros Hne Hj. unfold store_flat. rewrite list_lookup_insert_ne by done.
  by apply lookup_app_l_Some.
Qed.

Lemma length_store_flat out m :
  length (store_flat out m) = (length out `max` S (N.to_nat (flat_id m)))%nat.
Proof. unfold store_flat. rewrite length_insert, length_app, length_replicate. lia. Qed.

Lemma place_all_keep ms out j s :
  N.of_nat j ∉ flat_id <$> ms → out !! j = Some (Some s) →
  fold_left store_flat ms out !! j = Some (Some s).
Proof.
  revert out. induction ms as [|m ms IH]; intros out Hj Hs; [done|]. simpl.
  rewrite fmap_cons in Hj. apply not_elem_of_cons in Hj as [Hne Hj].
  apply IH; [done|]. apply store_flat_lookup_ne; [lia|done].
Qed.

Lemma place_all_lookup ms out m :
  NoDup (flat_id <$> ms) → m ∈ ms →
  fold_left store_flat ms out !! N.to_nat (flat_id m) = Some (Some m).
Proof.
  revert out. induction ms as [|m' ms IH]; intros out Hnd Hm; [by apply elem_of_nil in Hm|].
  rewrite fmap_cons in Hnd. apply NoDup_cons in Hnd as [Hn Hnd]. simpl.
  apply elem_of_cons in Hm as [<-|Hm]; [|by apply IH].
  apply place_all_keep; [by rewrite N2Nat.id | apply store_flat_lookup_eq].
Qed.

Lemma place_all_length ms out n :
  (∀ x, x ∈ flat_id <$> ms → x < N.of_nat n) → (length out <= n)%nat →
  (length (fold_left store_flat ms out) <= n)%nat.
Proof.
  revert out. induction ms as [|m ms IH]; intros out H Hl; [done|]. simpl. apply IH.
  - intros x Hx. apply H. rewrite fmap_cons. by right.
  - rewrite length_store_flat. assert (flat_id m < N.of_nat n); [|lia].
    apply H. rewrite fmap_cons. by left.
Qed.

(** Flattening numbers the modules of a tree so that the VM's table has
    one slot per module and no gap: building the table never hits the
    "slot must be filled" panic, and the module with number [k] is found at
    index [k]. *)
Theorem flatten_table m :
  flat_id m = 0 →
  ∃ tbl, collect_flat_modules (flatten_submodules m) = Ok tbl ∧
    length tbl = length (modules_of (flatten_submodules m)) ∧
    ∀ s, s ∈ modules_of (flatten_submodules m) → tbl !! N.to_nat (flat_id s) = Some s.
Proof.
  intros H0. pose proof (flatten_numbers m H0) as Hp. simpl in Hp.
  unfold collect_flat_modules. rewrite place_flat_eq.
  set (ms := modules_of _) in *. set (out := fold_left store_flat ms []).
  assert (∀ s, s ∈ ms → out !! N.to_nat (flat_id s) = Some (Some s)) as Hout.
  { intros s Hs. apply place_all_lookup; [|done]. rewrite Hp. apply numbers_NoDup. }
  assert (∀ k, (k < length ms)%nat → ∃ s, s ∈ ms ∧ flat_id s = N.of_nat k) as Hcov.
  { intros k Hk. assert (N.of_nat k ∈ flat_id <$> ms) as (s & -> & Hs)%list_elem_of_fmap; [|eauto].
    rewrite Hp. apply numbers_elem. lia. }
  assert (length out = length ms) as Hlen.
  { apply Nat.le_antisymm.
    - apply place_all_length; [|simpl; lia]. intros x Hx. rewrite Hp in Hx.
      apply numbers_elem in Hx. lia.
    - destruct (decide (length ms = 0)%nat) as [->|Hne]; [lia|].
      destruct (Hcov (length ms - 1)%nat) as (s & Hs & Hid); [lia|].
      apply Hout, lookup_lt_Some in Hs. lia. }
  assert (∀ k, (k < length out)%nat → ∃ s, out !! k = Some (Some s)) as Hall.
  { intros k Hk. rewrite Hlen in Hk. destruct (Hcov k Hk) as (s & Hs & Hid).
    exists s. rewrite <- (Nat2N.id k), <- Hid. by apply Hout. }
  exists (omap id out).
  assert (out = Some <$> omap id out) as Eout.
  { clear Hout Hlen. clearbody out. induction out as [|o out IH]; [done|].
    destruct (Hall 0%nat) as [s [= ->]]; [simpl; lia|]. simpl. f_equal.
    apply IH. intros k Hk. apply (Hall (S k)). simpl. lia. }
  split_and!.
  - apply map_res_Forall2. rewrite Eout at 1. apply Forall2_fmap_l, Forall2_same_length_lookup.
    split; [done|]. intros i x y Hx Hy. simpl. congruence.
  - rewrite <- Hlen. rewrite Eout at 2. by rewrite length_fmap.
  - intros s Hs. apply Hout in Hs. rewrite Eout, list_lookup_fmap in Hs.
    destruct (omap id out !! _); simplify_eq/=; done.
Qed.

(** ** Closure operands *)

(** No extension word of the chunk has the byte of [CREATE_CLOSURE]. *)
Definition no_alias (c : N * list N) : Prop :=
  Forall (λ x, Instr.opcode x ≠ CREATE_CLOSURE) c.2.

(** Chunk [c'] is chunk [c] with its closure operand, if it has one, redirected
    by [target], which maps a 1-based child index to a number. *)
Definition closure_redirected (target : N → N → Prop) (c c' : N * list N) : Prop :=
  c'.2 = c.2 ∧
  (Instr.opcode c.1 ≠ CREATE_CLOSURE → c'.1 = c.1) ∧
  (Instr.opcode c.1 = CREATE_CLOSURE →
     Instr.opcode c'.1 = CREATE_CLOSURE ∧ Instr.rd c'.1 = Instr.rd c.1 ∧
     ∀ id, target (Instr.imm16 c.1) id → Instr.imm16 c'.1 = id).

Lemma rd_lt w : Instr.rd w < 256.
Proof. unfold Instr.rd. bits_lia. Qed.

Lemma imm16_lt w : Instr.imm16 w < 65536.
Proof. unfold Instr.imm16. bits_lia. Qed.

Lemma encode_imm16_fields op r v :
  r < 256 →
  Instr.opcode (Instr.encode op r (N.land v 0xFF) (N.land (N.shiftr v 8) 0xFF)) = op ∧
  Instr.rd (Instr.encode op r (N.land v 0xFF) (N.land (N.shiftr v 8) 0xFF)) = r ∧
  (v < 65536 →
   Instr.imm16 (Instr.encode op r (N.land v 0xFF) (N.land (N.shiftr v 8) 0xFF)) = v).
Proof.
  intros Hr. assert (N.land v 0xFF < 256 ∧ N.land (N.shiftr v 8) 0xFF < 256) as [H1 H2] by bits_lia.
  rewrite opcode_encode, rd_encode, imm16_encode by done. split_and!; [done..|].
  intros Hv. clear H1 H2. bits_lia.
Qed.

Lemma map_flatten_chunks (g : N → N) cs :
  (∀ x, Instr.opcode x ≠ CREATE_CLOSURE → g x = x) → Forall no_alias cs →
  g <$> flatten_chunks cs = flatten_chunks ((λ c, (g c.1, c.2)) <$> cs).
Proof.
  intros Hg. induction 1 as [|c cs Hc _ IH]; [done|].
  rewrite fmap_cons, !flatten_cons, fmap_cons, fmap_app, IH. simpl. do 2 f_equal.
  induction Hc as [|x ext Hx _ IHx]; [done|]. rewrite fmap_cons, IHx. by rewrite Hg.
Qed.

Lemma flat_ids_assigned subs ids next :
  length ids = length subs → flat_id <$> (assign_subs subs ids next).1 = ids.
Proof.
  revert ids next. induction subs as [|s subs IH]; intros [|id ids] next H; try done.
  simpl. destruct (assign_ids s next false) as [s' n1].
  specialize (IH ids n1). destruct (assign_subs subs ids n1) as [rest n2]. simpl in *.
  f_equal. apply IH. lia.
Qed.

Lemma length_child_ids n next skip : length (child_ids n next skip).1 = n.
Proof. destruct n, skip; simpl; by rewrite ?length_fmap, ?length_seq. Qed.

(** The scan of one module, given the numbers of its children. *)
Lemma rewrite_closure_redirects ids w :
  (∀ id, id ∈ ids → id < 65536) →
  Instr.opcode w = CREATE_CLOSURE →
  Instr.opcode (rewrite_closure ids w) = CREATE_CLOSURE ∧
  Instr.rd (rewrite_closure ids w) = Instr.rd w ∧
  ∀ id, 0 < Instr.imm16 w → ids !! N.to_nat (Instr.imm16 w - 1) = Some id →
    Instr.imm16 (rewrite_closure ids w) = id.
Proof.
  intros Hids Hop. unfold rewrite_closure. rewrite decide_True by done. cbv zeta.
  match goal with |- context [Instr.encode _ _ (N.land ?v _) _] =>
    pose proof (encode_imm16_fields CREATE_CLOSURE (Instr.rd w) v (rd_lt w)) as (-> & -> & H) end.
  split_and!; [done..|]. intros id Hpos Hid.
  destruct (N.ltb_spec 0 (Instr.imm16 w)); [|lia]. rewrite Hid in *. simpl in *.
  apply H, Hids. by eapply list_elem_of_lookup_2.
Qed.

Lemma rewrite_closure_other ids w :
  Instr.opcode w ≠ CREATE_CLOSURE → rewrite_closure ids w = w.
Proof. intros H. unfold rewrite_closure. by rewrite decide_False. Qed.

Lemma assign_ids_closures m next skip cs :
  bytecode m = flatten_chunks cs → Forall no_alias cs →
  (∀ s, s ∈ sub_modules (assign_ids m next skip).1 → flat_id s < 65536) →
  ∃ cs', bytecode (assign_ids m next skip).1 = flatten_chunks cs' ∧
    Forall2 (closure_redirected (λ rel id, 0 < rel ∧
      ∃ s, sub_modules (assign_ids m next skip).1 !! N.to_nat (rel - 1) = Some s ∧ flat_id s = id))
      cs cs'.
Proof.
  rewrite assign_ids_eq. intros Hbc Hna.
  pose proof (length_child_ids (length (sub_modules m)) next skip) as Hl.
  destruct (child_ids _ _ _) as [ids next1]. simpl in Hl.
  pose proof (flat_ids_assigned (sub_modules m) ids next1 Hl) as Hids.
  destruct (assign_subs _ _ _) as [subs next2]. simpl in *. intros Hlt.
  exists ((λ c, (rewrite_closure ids c.1, c.2)) <$> cs). split.
  { rewrite Hbc. apply map_flatten_chunks; [|done]. apply rewrite_closure_other. }
  apply Forall2_fmap_r, Forall_Forall2_diag, Forall_true. intros [w ext].
  split_and!; simpl; [done | apply rewrite_closure_other |]. intros Hop.
  destruct (rewrite_closure_redirects ids w) as (-> & -> & Hi); [|done|].
  { intros id. rewrite <- Hids. intros (s & -> & Hs)%list_elem_of_fmap. by apply Hlt. }
  split_and!; [done..|]. intros id [Hpos (s & Hs & <-)]. apply Hi; [done|].
  by rewrite <- Hids, list_lookup_fmap, Hs.
Qed.

(** ** The whole tree *)

#[local] Set Warnings "-register-all".

(** [m'] is [m] flattened, its children shifted by [k] slots: on every
    alias-free stream each closure instruction names the number of the child
    it named by position, and so on below. *)
Inductive resolves : nat → CompiledModule → CompiledModule → Prop :=
  | resolves_intro k m m' :
      (∀ cs, bytecode m = flatten_chunks cs → Forall no_alias cs →
        ∃ cs', bytecode m' = flatten_chunks cs' ∧
          Forall2 (closure_redirected (λ rel id, 0 < rel ∧
            ∃ s, drop k (sub_modules m') !! N.to_nat (rel - 1) = Some s ∧ flat_id s = id))
            cs cs') →
      Forall2 (resolves 0) (sub_modules m) (drop k (sub_modules m')) →
      resolves k m m'.

Lemma resolves_set_flat_id k m m' id : resolves k m m' → resolves k m (set_flat_id m' id).
Proof. intros H. inversion H; subst. by constructor. Qed.

Lemma in_forest s subs x : s ∈ subs → x ∈ forest (sub_modules s) → x ∈ forest subs.
Proof.
  intros Hs Hx. unfold forest. apply list_elem_of_join. exists (modules_of s). split.
  - rewrite modules_of_eq. by right.
  - by apply list_elem_of_fmap_2.
Qed.

Lemma self_in_forest s subs : s ∈ subs → s ∈ forest subs.
Proof.
  intros Hs. unfold forest. apply list_elem_of_join. exists (modules_of s). split.
  - rewrite modules_of_eq. by left.
  - by apply list_elem_of_fmap_2.
Qed.

Definition assign_resolves_at (m : CompiledModule) : Prop :=
  ∀ next, (∀ s, s ∈ forest (sub_modules (assign_ids m next false).1) → flat_id s < 65536) →
    resolves 0 m (assign_ids m next false).1.

Lemma assign_subs_resolves subs ids next :
  Forall assign_resolves_at subs →
  (∀ s, s ∈ forest (assign_subs subs ids next).1 → flat_id s < 65536) →
  Forall2 (resolves 0) subs (assign_subs subs ids next).1.
Proof.
  intros H. revert ids next. induction H as [|s subs Hs _ IH]; intros ids next Hlt; [constructor|].
  simpl in *. specialize (Hs next). destruct (assign_ids s next false) as [s' n1].
  specialize (IH (tail ids) n1). destruct (assign_subs subs (tail ids) n1) as [rest n2].
  simpl in *. constructor.
  - apply resolves_set_flat_id, Hs. intros x Hx. apply Hlt. rewrite forest_cons.
    apply elem_of_cons. right. apply elem_of_app. by left.
  - apply IH. intros x Hx. apply Hlt. rewrite forest_cons.
    apply elem_of_cons. right. apply elem_of_app. by right.
Qed.

Lemma assign_ids_resolves m : assign_resolves_at m.
Proof.
  induction m as [m IH] using CompiledModule_nested_ind. intros next Hlt. constructor.
  - intros cs Hbc Hna. apply assign_ids_closures; [done..|].
    intros s Hs. by apply Hlt, self_in_forest.
  - rewrite drop_0, assign_ids_eq in *. destruct (child_ids _ _ _) as [ids n1].
    pose proof (assign_subs_resolves (sub_modules m) ids n1 IH) as Hr.
    destruct (assign_subs _ _ _) as [subs n2]. by apply Hr.
Qed.

(** The entry of an async module: the index moves up, then is resolved. *)
Lemma shift_closure_fields w :
  Instr.opcode w = CREATE_CLOSURE →
  Instr.opcode (shift_closure w) = CREATE_CLOSURE ∧ Instr.rd (shift_closure w) = Instr.rd w ∧
  (Instr.imm16 w < 65535 → Instr.imm16 (shift_closure w) = Instr.imm16 w + 1).
Proof.
  intros H. unfold shift_closure. rewrite decide_True by done.
  destruct (encode_imm16_fields CREATE_CLOSURE (Instr.rd w) (Instr.imm16 w + 1) (rd_lt w))
    as (H1 & H2 & H3).
  split_and!; [done..|]. intros. apply H3. lia.
Qed.

Lemma shift_closure_other w : Instr.opcode w ≠ CREATE_CLOSURE → shift_closure w = w.
Proof. intros H. unfold shift_closure. by rewrite decide_False. Qed.

Lemma redirected_shifted (T T' : N → N → Prop) c c' :
  (∀ rel id, rel < 65535 → T rel id → T' (rel + 1) id) →
  (∀ id, ¬ T 65535 id) →
  closure_redirected T' (shift_closure c.1, c.2) c' → closure_redirected T c c'.
Proof.
  intros HT Hno (H1 & H2 & H3). simpl in *. split_and!; [done|..].
  - intros Hop. rewrite shift_closure_other in * by done. auto.
  - intros Hop. destruct (shift_closure_fields c.1 Hop) as (E1 & E2 & E3).
    destruct (H3 E1) as (F1 & F2 & F3). split_and!; [done|congruence|].
    intros id Hid. pose proof (imm16_lt c.1).
    destruct (decide (Instr.imm16 c.1 = 65535)) as [E|E].
    { rewrite E in Hid. by destruct (Hno id). }
    apply F3. rewrite E3 by lia. apply HT; [lia|done].
Qed.

Lemma flatten_ids_lt m s :
  flat_id m = 0 → s ∈ modules_of (flatten_submodules m) →
  flat_id s < N.of_nat (length (modules_of (flatten_submodules m))).
Proof.
  intros H0 Hs. assert (flat_id s ∈ flat_id <$> modules_of (flatten_submodules m)) as Hin
    by (by apply list_elem_of_fmap_2).
  rewrite (flatten_numbers m H0) in Hin. apply numbers_elem in Hin. lia.
Qed.

Lemma length_forest subs : (length subs <= length (forest subs))%nat.
Proof.
  induction subs as [|s subs IH]; [done|]. rewrite forest_cons. simpl. rewrite length_app. lia.
Qed.

Lemma flatten_async_resolves m :
  (∀ s, s ∈ modules_of (flatten_submodules m) → flat_id s < 65536) →
  N.of_nat (length (modules_of (flatten_submodules m))) <= 65536 →
  m_is_async m = true → resolves 1 m (flatten_submodules m).
Proof.
  unfold flatten_submodules. intros Hlt Hlen Hasync. rewrite Hasync in *.
  set (m1 := with_module m (shift_closure <$> bytecode m) (module_new :: sub_modules m) 1) in *.
  rewrite modules_of_eq in Hlt, Hlen. rewrite length_cons in Hlen.
  pose proof (length_forest (sub_modules (assign_ids m1 2 true).1)) as Hf.
  constructor.
  - intros cs Hbc Hna.
    destruct (assign_ids_closures m1 2 true ((λ c, (shift_closure c.1, c.2)) <$> cs))
      as (cs' & Hbc' & Hall).
    + simpl. rewrite Hbc. apply map_flatten_chunks; [apply shift_closure_other | done].
    + by apply Forall_fmap.
    + intros s Hs. apply Hlt. right. by apply self_in_forest.
    + exists cs'. split; [done|]. rewrite Forall2_fmap_l in Hall.
      eapply Forall2_impl; [exact Hall|]. intros c c'. apply redirected_shifted.
      * intros rel id _ (Hpos & s & Hs & Hid). split; [lia|]. exists s. split; [|done].
        rewrite lookup_drop in Hs. rewrite <- Hs. f_equal. lia.
      * intros id (_ & s & Hs & _). rewrite lookup_drop in Hs. apply lookup_lt_Some in Hs. lia.
  - assert (∀ s, s ∈ forest (sub_modules (assign_ids m1 2 true).1) → flat_id s < 65536) as Hb
      by (intros s Hs; apply Hlt; by right).
    clear Hlt Hlen Hf. rewrite assign_ids_eq in *. destruct (child_ids _ _ _) as [ids n1].
    pose proof (assign_subs_resolves (sub_modules m1) ids n1) as Hr.
    destruct (assign_subs _ _ _) as [subs n2]. simpl in *.
    apply Forall2_cons_inv_l in Hr as (s & subs' & _ & Hr & ->); [done| |done].
    apply Forall_forall. intros; apply assign_ids_resolves.
Qed.

(** Flattening redirects closures correctly: in a tree of at most 65536
    modules, in every module whose extension words do not have the byte of
    [CREATE_CLOSURE], each [CREATE_CLOSURE] that named its child by position
    names it by its number afterwards (in an async entry, past the
    placeholder), and every other word is kept. *)
Theorem flatten_closures m :
  flat_id m = 0 → N.of_nat (length (modules_of (flatten_submodules m))) <= 65536 →
  resolves (if m_is_async m then 1 else 0) m (flatten_submodules m).
Proof.
  intros H0 Hlen.
  assert (∀ s, s ∈ modules_of (flatten_submodules m) → flat_id s < 65536) as Hlt.
  { intros s Hs%flatten_ids_lt; [lia|done]. }
  destruct (m_is_async m) eqn:Ha; [by apply flatten_async_resolves|].
  unfold flatten_submodules in *. rewrite Ha in *. apply assign_ids_resolves.
  intros s Hs. apply Hlt. rewrite modules_of_eq. by right.
Qed.

(** ** Witnesses and the aliasing counterexample *)

(** A sample tree: an async entry with two children, the first of which has
    a child of its own. *)
Definition sample_leaf : CompiledModule := module_new.
Definition sample_mid : CompiledModule :=
  with_module module_new [Instr.encode CREATE_CLOSURE 2 1 0] [sample_leaf] 0.
Definition sample_tree : CompiledModule :=
  with_module module_new
    [Instr.encode CREATE_CLOSURE 1 2 0; Instr.encode CREATE_CLOSURE 4 1 0]
    [sample_mid; sample_leaf] 0.

Lemma flatten_table_witness :
  flat_id sample_tree = 0 ∧
  ∃ tbl, collect_flat_modules (flatten_submodules sample_tree) = Ok tbl ∧
    length tbl = length (modules_of (flatten_submodules sample_tree)) ∧
    ∀ s, s ∈ modules_of (flatten_submodules sample_tree) → tbl !! N.to_nat (flat_id s) = Some s.
Proof. split; [reflexivity|]. apply (flatten_table sample_tree). reflexivity. Defined.

Lemma flatten_closures_witness :
  flat_id sample_tree = 0 ∧
  N.of_nat (length (modules_of (flatten_submodules sample_tree))) <= 65536 ∧
  resolves 0 sample_tree (flatten_submodules sample_tree) ∧
  (Instr.imm16 <$> bytecode (flatten_submodules sample_tree)) = [2; 1].
Proof.
  split_and!; [reflexivity | apply N.leb_le; reflexivity | | reflexivity].
  apply (flatten_closures sample_tree); [reflexivity | apply N.leb_le; reflexivity].
Defined.

(** The template literal that builds a string of 74 literal characters:
    [74] is the byte of [CREATE_CLOSURE], and the scan takes the header word
    of [TEMPLATE_STR] for an instruction. *)
Definition alias_template : IRFunction :=
  with_code ir_new
    [MkInst.template_str (Reg 1) 3 74 [0; 0x80000002; 1];
     MkInst.ret (Reg 1) 0 0 0] [].

(** The scan of flattening reads extension words as instructions: a
    template literal whose literal parts have 74 characters lowers to a
    stream that a reader walks correctly, and flattening overwrites its
    header word, after which the reader no longer finds the instructions. *)
Theorem flatten_rewrites_extension_words :
  ∃ m, lower alias_template = Ok m ∧ Forall ext_wf (insts alias_template) ∧
    sub_modules m = [] ∧
    walk (length (bytecode m)) (bytecode m) 0 = Ok (starts_from 0 (insts alias_template)) ∧
    bytecode (flatten_submodules m) ≠ bytecode m ∧
    walk (length (bytecode m)) (bytecode (flatten_submodules m)) 0 ≠
      Ok (starts_from 0 (insts alias_template)).
Proof.
  eexists. split; [vm_compute; reflexivity|]. split_and!.
  - repeat constructor; vm_compute; done.
  - reflexivity.
  - vm_compute. reflexivity.
  - vm_compute. discriminate.
  - vm_compute. discriminate.
Qed.
