(* ===== verification/Cfg.v ===== *)
(** * Control-flow graph (crates/oxide_cfg/src)

    [build_cfg] partitions the instructions of a function into basic blocks and
    connects them: [partition_blocks] marks block heads, [split_and_edges] cuts
    the blocks and adds jump and fall-through edges, [add_exception_edges] adds
    edges to handlers, [finalize] appends the exit sentinel and inverts the
    edges.  The theorems relate the graph to the control transfers of single
    instructions. *)

From stdpp Require Import base tactics numbers list option sets.
From Stdlib Require Import NArith ZArith Lia Sorting.Sorted.
From S2P Require Import Prelude Opcode IR.
#[local] Set Warnings "-clear-no-such-hyp".

Open Scope nat_scope.

(** ** Data *)

Inductive EdgeKind := Jump | Fallthrough | Exception.

#[export] Instance EdgeKind_eq_dec : EqDecision EdgeKind.
Proof. solve_decision. Defined.

(** [inst_range] is the half-open interval [[range_start, range_end)]. *)
Record BasicBlock := mkBlock {
  range_start : nat;
  range_end : nat;
  preds : list nat;
  succs : list (nat * EdgeKind);
}.

Record Cfg := mkCfg {
  blocks : list BasicBlock;
  entry : nat;
  exit : nat;
}.

Definition set_succs (b : BasicBlock) (s : list (nat * EdgeKind)) : BasicBlock :=
  mkBlock (range_start b) (range_end b) (preds b) s.
Definition set_preds (b : BasicBlock) (p : list nat) : BasicBlock :=
  mkBlock (range_start b) (range_end b) p (succs b).

(** [Cfg::new]. *)
Definition cfg_new : Cfg := mkCfg [] 0 0.

(** ** Pass 1: block heads *)

(** The jumps after which a block ends. *)
Definition splits_block (op : OpCode) : bool :=
  match op with
  | JMP | BREAK | CONTINUE | JMP_IF_TRUE | JMP_IF_FALSE | JMP_IF_NULLISH => true
  | _ => false
  end.

(** One instruction of the scan: its label's position and, after a jump, the
    next position become heads. *)
Definition head_step (f : IRFunction) (heads : list bool) (ii : nat * Inst) : res (list bool) :=
  let '(i, inst) := ii in
  let* heads :=
    match i_b inst with
    | Label l => match label_target f l with
                 | Some p => vec_set heads p true
                 | None => Ok heads
                 end
    | _ => Ok heads
    end in
  if splits_block (i_op inst) then vec_set heads (i + 1) true else Ok heads.

(** [iter().enumerate()]. *)
Definition enumerate {A} (l : list A) : list (nat * A) := imap pair l.

Definition partition_blocks (f : IRFunction) : res (list bool) :=
  let len := length (insts f) in
  let heads := replicate (len + 1) false in
  let* heads := vec_set heads 0 true in
  let* heads := fold_res (λ heads p, vec_set heads p true) (omap id (label_pos f)) heads in
  fold_res (head_step f) (enumerate (insts f)) heads.

(** ** Pass 2: blocks, jump and fall-through edges *)

Definition head_positions (heads : list bool) : list nat :=
  (filter (λ ih, ih.2 = true) (enumerate heads)).*1.

(** Each head opens a block that ends at the next head, the last one at [len]. *)
Fixpoint cut_blocks (positions : list nat) (len : nat) : list BasicBlock :=
  match positions with
  | [] => []
  | start :: rest =>
      mkBlock start (match rest with next :: _ => next | [] => len end) [] [] :: cut_blocks rest len
  end.

(** [slice::partition_point]: the length of the longest prefix that satisfies
    the predicate (the blocks are sorted by start). *)
Fixpoint partition_point {A} (p : A → bool) (l : list A) : nat :=
  match l with
  | [] => 0
  | x :: l => if p x then S (partition_point p l) else 0
  end.

(** [block_id_of]: the last block that starts at or before [p].  A result of
    [0 - 1] is not a block index, and its first use panics. *)
Definition block_id_of (p : nat) (bs : list BasicBlock) : res nat :=
  match partition_point (λ b, range_start b <=? p) bs with
  | 0 => Panic
  | S k => Ok k
  end.

(** The edge of a jump to the label in slot [b]; an unresolved label gives
    none. *)
Definition jump_edge (f : IRFunction) (bs : list BasicBlock) (last : Inst)
    : res (list (nat * EdgeKind)) :=
  match i_b last with
  | Label l =>
      match label_target f l with
      | Some p => let* target := block_id_of p bs in Ok [(target, Jump)]
      | None => Ok []
      end
  | _ => Ok []
  end.

(** The out-edges of block [i], from its last instruction. *)
Definition block_edges (f : IRFunction) (bs : list BasicBlock) (exit_id : nat)
    (ib : nat * BasicBlock) : res (list (nat * EdgeKind)) :=
  let '(i, blk) := ib in
  if range_end blk <=? range_start blk then Ok []
  else
    let* last := vec_get (insts f) (range_end blk - 1) in
    if negb (is_terminator (i_op last)) then
      Ok (if i + 1 <? length bs then [(i + 1, Fallthrough)] else [])
    else
      match i_op last with
      | JMP | BREAK | CONTINUE => jump_edge f bs last
      | JMP_IF_TRUE | JMP_IF_FALSE | JMP_IF_NULLISH =>
          let* jump := jump_edge f bs last in
          Ok (jump ++ [(i + 1, Fallthrough)])
      | RETURN | HALT => Ok [(exit_id, Fallthrough)]
      | THROW => Ok []
      | _ => Panic
      end.

(** The edge of one block depends on the ranges of the others only, so the
    loop is a map over the freshly cut blocks. *)
Definition split_and_edges (f : IRFunction) (heads : list bool)
    : res (list BasicBlock * nat) :=
  let bs := cut_blocks (head_positions heads) (length (insts f)) in
  let exit_id := length bs in
  let* bs' := map_res (λ ib, let* es := block_edges f bs exit_id ib in Ok (set_succs ib.2 es))
                (enumerate bs) in
  Ok (bs', exit_id).

(** ** Pass 3: exception edges *)

(** One instruction of the stack matching of [TRY_BEGIN]/[TRY_END]: the open
    [TRY_BEGIN]s and the completed spans [(begin, end, catch label)]. *)
Definition span_step (st : list (nat * N) * list (nat * nat * N)) (ii : nat * Inst)
    : list (nat * N) * list (nat * nat * N) :=
  let '(stack, spans) := st in
  let '(idx, inst) := ii in
  match i_op inst with
  | TRY_BEGIN =>
      match i_b inst with Label l => ((idx, l) :: stack, spans) | _ => (stack, spans) end
  | TRY_END =>
      match stack with
      | (p_begin, l) :: stack => (stack, spans ++ [(p_begin, idx, l)])
      | [] => (stack, spans)
      end
  | _ => (stack, spans)
  end.

Definition try_spans (f : IRFunction) : list (nat * nat * N) :=
  (fold_left span_step (enumerate (insts f)) ([], [])).2.

(** Add an exception edge unless the block already has it. *)
Definition add_edge (target : nat) (b : BasicBlock) : BasicBlock :=
  if decide ((target, Exception) ∈ succs b) then b
  else set_succs b (succs b ++ [(target, Exception)]).

(** Every block that overlaps [[p_begin, p_end)] gets an edge to the handler. *)
Definition span_edges (f : IRFunction) (bs : list BasicBlock) (span : nat * nat * N)
    : res (list BasicBlock) :=
  let '(p_begin, p_end, l) := span in
  match label_target f l with
  | Some p =>
      let* target := block_id_of p bs in
      Ok ((λ b, if (range_start b <? p_end) && (p_begin <? range_end b)
                then add_edge target b else b) <$> bs)
  | None => Ok bs
  end.

(** The handlers of the [TRY_FINALLY_BEGIN]s of block [k]. *)
Definition finally_step (f : IRFunction) (bs : list BasicBlock) (k : nat)
    (acc : list (nat * nat)) (idx : nat) : res (list (nat * nat)) :=
  let* inst := vec_get (insts f) idx in
  if decide (i_op inst = TRY_FINALLY_BEGIN) then
    match i_b inst with
    | Label l =>
        match label_target f l with
        | Some p => let* target := block_id_of p bs in Ok (acc ++ [(k, target)])
        | None => Ok acc
        end
    | _ => Ok acc
    end
  else Ok acc.

Definition finally_targets (f : IRFunction) (bs : list BasicBlock) (ib : nat * BasicBlock)
    : res (list (nat * nat)) :=
  fold_res (finally_step f bs ib.1)
    (seq (range_start ib.2) (range_end ib.2 - range_start ib.2)) [].

Definition add_finally (bs : list BasicBlock) (e : nat * nat) : res (list BasicBlock) :=
  let* b := vec_get bs e.1 in vec_set bs e.1 (add_edge e.2 b).

Definition add_exception_edges (f : IRFunction) (bs : list BasicBlock)
    : res (list BasicBlock) :=
  let* bs := fold_res (span_edges f) (try_spans f) bs in
  let* edges := map_res (finally_targets f bs) (enumerate bs) in
  fold_res add_finally (mjoin edges) bs.

(** ** Pass 4: exit sentinel, predecessors *)

Definition push_pred (i : nat) (bs : list BasicBlock) (target : nat) : res (list BasicBlock) :=
  let* b := vec_get bs target in vec_set bs target (set_preds b (preds b ++ [i])).

Definition finalize (bs : list BasicBlock) (exit_id : nat) : res Cfg :=
  let bs := bs ++ [mkBlock 0 0 [] []] in
  let* bs :=
    fold_res (λ bs i, let* b := vec_get bs i in fold_res (push_pred i) (succs b).*1 bs)
      (seq 0 (length bs)) bs in
  Ok (mkCfg bs 0 exit_id).

(** ** The build *)
Definition build_cfg (f : IRFunction) : res Cfg :=
  match insts f with
  | [] => Ok (mkCfg [mkBlock 0 0 [] []] 0 0)
  | _ =>
      let* heads := partition_blocks f in
      let* (bs, exit_id) := split_and_edges f heads in
      let* bs := add_exception_edges f bs in
      finalize bs exit_id
  end.

(** ** Block heads *)

Lemma enumerate_lookup {A} (l : list A) k ix :
  enumerate l !! k = Some ix ↔ ix.1 = k ∧ l !! k = Some ix.2.
Proof.
  unfold enumerate. rewrite list_lookup_imap. destruct ix as [i x], (l !! k); simpl.
  - split; [intros [= -> ->] | intros [-> [= ->]]]; done.
  - split; [done | intros [_ ?]; done].
Qed.

Lemma elem_of_enumerate {A} (l : list A) i x :
  (i, x) ∈ enumerate l ↔ l !! i = Some x.
Proof.
  rewrite list_elem_of_lookup. split.
  - intros (k & [<- ?]%enumerate_lookup). done.
  - intros H. exists i. by apply enumerate_lookup.
Qed.

Lemma length_enumerate {A} (l : list A) : length (enumerate l) = length l.
Proof. apply length_imap. Qed.

(** The positions at which a block starts. *)
Definition head_at (f : IRFunction) (p : nat) : Prop :=
  p = 0 ∨ Some p ∈ label_pos f ∨
  ∃ i inst, insts f !! i = Some inst ∧ splits_block (i_op inst) = true ∧ p = S i.

(** Every label points at an instruction or just past the last one. *)
Definition labels_ok (f : IRFunction) : Prop :=
  ∀ p, Some p ∈ label_pos f → p <= length (insts f).

#[export] Instance labels_ok_dec f : Decision (labels_ok f).
Proof.
  destruct (decide (Forall (λ p, p <= length (insts f)) (omap id (label_pos f)))) as [H|H].
  - left. intros p Hp. rewrite Forall_forall in H. apply H, list_elem_of_omap. by exists (Some p).
  - right. intros H'. apply H, Forall_forall. intros p (o & Ho & Hp)%list_elem_of_omap.
    apply H'. simpl in Hp. by subst.
Defined.

Lemma label_target_pos f l p : label_target f l = Some p → Some p ∈ label_pos f.
Proof.
  unfold label_target. intros H. apply list_elem_of_lookup. exists (N.to_nat l).
  destruct (label_pos f !! N.to_nat l) as [o|]; simpl in *; [by subst | done].
Qed.

(** [heads] marks exactly the positions of [S]. *)
Definition marks (len : nat) (S : nat → Prop) (heads : list bool) : Prop :=
  length heads = len + 1 ∧ ∀ p, heads !! p = Some true ↔ S p.

Lemma marks_set len S heads p :
  marks len S heads → p <= len →
  ∃ heads', vec_set heads p true = Ok heads' ∧ marks len (λ q, S q ∨ q = p) heads'.
Proof.
  intros [Hl HS] Hp. exists (<[p:=true]> heads). split; [apply vec_set_lt; lia|].
  split; [by rewrite length_insert|]. intros q.
  destruct (decide (q = p)) as [->|Hne].
  - rewrite list_lookup_insert_eq by lia. split; auto.
  - rewrite list_lookup_insert_ne by done. rewrite HS. split; [auto | by intros [?|?]].
Qed.

Lemma marks_ext len S S' heads :
  (∀ p, S p ↔ S' p) → marks len S heads → marks len S' heads.
Proof. intros H [Hl HS]. split; [done|]. intros p. by rewrite HS, H. Qed.

Lemma mark_all len S ps heads :
  marks len S heads → (∀ p, p ∈ ps → p <= len) →
  ∃ heads', fold_res (λ heads p, vec_set heads p true) ps heads = Ok heads' ∧
    marks len (λ q, S q ∨ q ∈ ps) heads'.
Proof.
  revert S heads. induction ps as [|p ps IH]; intros S heads HS Hps; simpl.
  - exists heads. split; [done|]. eapply marks_ext; [|done]. set_solver.
  - destruct (marks_set len S heads p HS) as (h1 & -> & H1); [apply Hps; by left|]. simpl.
    destruct (IH _ _ H1) as (h2 & E & H2); [intros; apply Hps; by right|].
    exists h2. split; [done|]. eapply marks_ext; [|done]. set_solver.
Qed.

(** The positions one instruction contributes. *)
Definition inst_head (f : IRFunction) (ii : nat * Inst) (q : nat) : Prop :=
  (∃ l, i_b ii.2 = Label l ∧ label_target f l = Some q) ∨
  (splits_block (i_op ii.2) = true ∧ q = S ii.1).

Lemma head_step_marks f S heads i inst :
  labels_ok f → i < length (insts f) → marks (length (insts f)) S heads →
  ∃ heads', head_step f heads (i, inst) = Ok heads' ∧
    marks (length (insts f)) (λ q, S q ∨ inst_head f (i, inst) q) heads'.
Proof.
  intros Hlab Hi HS. unfold head_step, inst_head. simpl.
  assert (∃ h1, match i_b inst with
    | Label l => match label_target f l with Some p => vec_set heads p true | None => Ok heads end
    | _ => Ok heads end = Ok h1 ∧
    marks (length (insts f)) (λ q, S q ∨ ∃ l, i_b inst = Label l ∧ label_target f l = Some q) h1)
    as (h1 & -> & H1).
  { destruct (i_b inst) as [| |l| | | |];
      try (exists heads; split; [done|]; eapply marks_ext; [|done]; naive_solver).
    destruct (label_target f l) as [p|] eqn:Hp;
      [|exists heads; split; [done|]; eapply marks_ext; [|done]; naive_solver].
    destruct (marks_set _ S heads p HS) as (h1 & -> & H1);
      [by apply Hlab; eapply label_target_pos|].
    exists h1. split; [done|]. eapply marks_ext; [|done]. naive_solver. }
  simpl. destruct (splits_block (i_op inst)).
  - destruct (marks_set _ _ h1 (i + 1) H1) as (h2 & -> & H2); [lia|].
    exists h2. split; [done|]. eapply marks_ext; [|done]. intros q.
    replace (i + 1) with (Datatypes.S i) by lia. naive_solver.
  - exists h1. split; [done|]. eapply marks_ext; [|done]. naive_solver.
Qed.

Lemma partition_ok f :
  labels_ok f →
  ∃ heads, partition_blocks f = Ok heads ∧ marks (length (insts f)) (head_at f) heads.
Proof.
  intros Hlab. unfold partition_blocks.
  assert (marks (length (insts f)) (λ _, False) (replicate (length (insts f) + 1) false)) as H0.
  { split; [apply length_replicate|]. intros p. split; [|done].
    intros [? _]%lookup_replicate. done. }
  destruct (marks_set _ _ _ 0 H0) as (h1 & -> & H1); [lia|]. simpl.
  destruct (mark_all _ _ (omap id (label_pos f)) h1 H1) as (h2 & -> & H2).
  { intros p (o & Ho & Hp)%list_elem_of_omap. apply Hlab. simpl in Hp. by subst. }
  simpl.
  destruct (fold_res_inv (head_step f)
    (λ pre hs, marks (length (insts f))
       (λ q, (q = 0 ∨ Some q ∈ label_pos f) ∨ ∃ ii, ii ∈ pre ∧ inst_head f ii q) hs)
    (enumerate (insts f)) h2) as (h3 & E3 & H3).
  - eapply marks_ext; [|done]. intros q. simpl.
    rewrite list_elem_of_omap. set_solver.
  - intros pre [i inst] post hs Hsplit Hpre.
    assert (insts f !! i = Some inst) as Hi.
    { apply elem_of_enumerate. rewrite Hsplit. set_solver. }
    apply lookup_lt_Some in Hi as Hlt.
    destruct (head_step_marks f _ hs i inst Hlab Hlt Hpre) as (hs' & -> & H').
    exists hs'. split; [done|]. eapply marks_ext; [|done]. set_solver.
  - exists h3. split; [done|]. eapply marks_ext; [|done]. intros q. unfold head_at, inst_head.
    split.
    + intros [[?|?]|([i inst] & Hin%elem_of_enumerate & [(l & _ & Ht)|[Hs ->]])]; [tauto..| |].
      * right; left. by eapply label_target_pos.
      * right; right. eauto.
    + intros [?|[?|(i & inst & Hi & Hs & ->)]]; [tauto..|]. right. exists (i, inst).
      split; [by apply elem_of_enumerate | auto].
Qed.

(** ** Layout of the blocks *)

Abbreviation starts bs := (range_start <$> bs).

(** The blocks of [bs] tile [[0, len)] in order: they start at increasing
    positions, the first at [0], and each ends where the next starts. *)
Record tiles (len : nat) (bs : list BasicBlock) : Prop := {
  tiles_sorted : StronglySorted lt (starts bs);
  tiles_first : starts bs !! 0 = Some 0;
  tiles_bound : Forall (λ s, s <= len) (starts bs);
  tiles_end : ∀ k b, bs !! k = Some b → range_end b = default len (starts bs !! S k);
}.

Lemma head_positions_elem heads p : p ∈ head_positions heads ↔ heads !! p = Some true.
Proof.
  unfold head_positions. rewrite list_elem_of_fmap. split.
  - intros ([i h] & -> & [Hh Hin]%list_elem_of_filter). simpl in *. subst.
    by apply elem_of_enumerate.
  - intros H. exists (p, true). split; [done|]. apply list_elem_of_filter.
    split; [done|]. by apply elem_of_enumerate.
Qed.

Lemma enumerate_from_sorted {A} (P : nat * A → Prop) `{!∀ x, Decision (P x)} (l : list A) n :
  StronglySorted lt (filter P (imap (λ i x, (n + i, x)) l)).*1.
Proof.
  revert n. induction l as [|x l IH]; intros n; [constructor|]. simpl.
  specialize (IH (S n)).
  replace (imap (λ i x, (S n + i, x)) l) with (imap ((λ i x, (n + i, x)) ∘ S) l) in IH.
  2: { apply imap_ext. intros i y _. simpl. f_equal. lia. }
  rewrite filter_cons. case_decide; [|done]. simpl. constructor; [done|].
  apply Forall_fmap, Forall_forall. intros [i y] [_ Hin]%list_elem_of_filter.
  apply elem_of_lookup_imap in Hin as (j & z & [= -> ->] & _). simpl. lia.
Qed.

Lemma head_positions_sorted heads : StronglySorted lt (head_positions heads).
Proof. apply (enumerate_from_sorted _ heads 0). Qed.

Lemma starts_cut ps len : starts (cut_blocks ps len) = ps.
Proof. induction ps as [|p ps IH]; [done|]. simpl. by f_equal. Qed.

Lemma cut_end ps len k b :
  cut_blocks ps len !! k = Some b → range_end b = default len (ps !! S k).
Proof.
  revert k. induction ps as [|p ps IH]; intros [|k] H; simpl in H; try done.
  - injection H as <-. by destruct ps.
  - by apply IH.
Qed.

Lemma cut_tiles f heads :
  marks (length (insts f)) (head_at f) heads →
  tiles (length (insts f)) (cut_blocks (head_positions heads) (length (insts f))).
Proof.
  intros [Hl Hm]. constructor; rewrite ?starts_cut.
  - apply head_positions_sorted.
  - assert (0 ∈ head_positions heads) as H0 by (apply head_positions_elem, Hm; by left).
    pose proof (head_positions_sorted heads) as Hs.
    destruct (head_positions heads) as [|[|p] ps]; [by apply elem_of_nil in H0|done|].
    apply elem_of_cons in H0 as [|H0]; [done|]. inversion Hs as [|? ? _ Hall]; subst.
    rewrite Forall_forall in Hall. apply Hall in H0. lia.
  - apply Forall_forall. intros p Hp%head_positions_elem%lookup_lt_Some. lia.
  - intros k b Hb. by apply cut_end.
Qed.

Lemma sorted_lookup_lt (ss : list nat) i j x y :
  StronglySorted lt ss → i < j → ss !! i = Some x → ss !! j = Some y → x < y.
Proof.
  intros Hs. revert i j. induction Hs as [|z ss _ IH Hall]; intros [|i] [|j] Hij Hi Hj;
    simpl in *; try done; try lia.
  - injection Hi as ->. rewrite Forall_forall in Hall.
    apply Hall. by eapply list_elem_of_lookup_2.
  - apply (IH i j); [lia|done..].
Qed.

(** [block_id_of] finds the block that starts at a head. *)
Lemma partition_point_sorted bs k p :
  StronglySorted lt (starts bs) → starts bs !! k = Some p →
  partition_point (λ b, range_start b <=? p) bs = S k.
Proof.
  revert k. induction bs as [|b bs IH]; intros k Hs Hk; [done|]. simpl in *.
  destruct k as [|k]; simpl in Hk.
  - injection Hk as <-. rewrite Nat.leb_refl. f_equal.
    inversion Hs as [|? ? _ Hall]; subst. destruct bs as [|b' bs]; [done|].
    apply Forall_cons in Hall as [? _]. simpl.
    by rewrite (proj2 (Nat.leb_gt (range_start b') (range_start b))).
  - inversion Hs as [|? ? Hs' Hall]; subst. rewrite Forall_forall in Hall.
    assert (range_start b < p) by (apply Hall; by eapply list_elem_of_lookup_2).
    rewrite (proj2 (Nat.leb_le (range_start b) p)) by lia. f_equal. by apply IH.
Qed.

Lemma block_id_of_start bs p :
  StronglySorted lt (starts bs) → p ∈ starts bs →
  ∃ k, block_id_of p bs = Ok k ∧ starts bs !! k = Some p.
Proof.
  intros Hs [k Hk]%list_elem_of_lookup. exists k. unfold block_id_of.
  by rewrite (partition_point_sorted bs k p).
Qed.

(** The passes after the cut keep the ranges. *)
Definition ranges (bs : list BasicBlock) : list (nat * nat) :=
  (λ b, (range_start b, range_end b)) <$> bs.

Lemma starts_ranges bs : starts bs = (ranges bs).*1.
Proof. unfold ranges. by rewrite <- list_fmap_compose. Qed.

Lemma ranges_lookup bs bs' k b :
  ranges bs = ranges bs' → bs !! k = Some b →
  ∃ b', bs' !! k = Some b' ∧ range_start b' = range_start b ∧ range_end b' = range_end b.
Proof.
  intros E Hb. apply (f_equal (lookup k)) in E. unfold ranges in E.
  rewrite !list_lookup_fmap, Hb in E. destruct (bs' !! k) as [b'|]; simplify_eq/=. eauto.
Qed.

Lemma tiles_ranges len bs bs' : ranges bs = ranges bs' → tiles len bs → tiles len bs'.
Proof.
  intros E [H1 H2 H3 H4].
  assert (starts bs = starts bs') as Es by (by rewrite !starts_ranges, E).
  rewrite Es in *. constructor; [done..|]. intros k b' Hb'.
  destruct (ranges_lookup bs' bs k b' (eq_sym E) Hb') as (b & Hb & _ & <-).
  by rewrite (H4 k b Hb).
Qed.

Lemma ranges_length bs bs' : ranges bs = ranges bs' → length bs = length bs'.
Proof. intros E%(f_equal length). unfold ranges in E. by rewrite !length_fmap in E. Qed.

Lemma starts_lookup_block (bs : list BasicBlock) (k s : nat) :
  starts bs !! k = Some s → ∃ b, bs !! k = Some b ∧ range_start b = s.
Proof. rewrite list_lookup_fmap. destruct (bs !! k) as [b|]; naive_solver. Qed.

Section tiles.
Context (len : nat) (bs : list BasicBlock) (Ht : tiles len bs).

Lemma tiles_range k b : bs !! k = Some b → range_start b <= range_end b <= len.
Proof.
  intros Hb. rewrite (tiles_end _ _ Ht k b Hb).
  assert (starts bs !! k = Some (range_start b)) as Hk by (by rewrite list_lookup_fmap, Hb).
  pose proof (tiles_bound _ _ Ht) as Hbd. rewrite Forall_lookup in Hbd.
  destruct (starts bs !! S k) as [s|] eqn:Hs; simpl.
  - pose proof (sorted_lookup_lt _ _ _ _ _ (tiles_sorted _ _ Ht) (Nat.lt_succ_diag_r k) Hk Hs).
    specialize (Hbd _ _ Hs). simpl in *. lia.
  - specialize (Hbd _ _ Hk). simpl in *. lia.
Qed.

(** Only a block at the end of the code is empty. *)
Lemma tiles_nonempty k b : bs !! k = Some b → range_start b < len → range_start b < range_end b.
Proof.
  intros Hb Hlt. rewrite (tiles_end _ _ Ht k b Hb).
  destruct (starts bs !! S k) as [s|] eqn:Hs; simpl; [|done].
  apply (sorted_lookup_lt (starts bs) k (S k)); [apply Ht|lia|by rewrite list_lookup_fmap, Hb|done].
Qed.

(** A head past the start of a block is not inside it. *)
Lemma tiles_head_end k b s :
  bs !! k = Some b → s ∈ starts bs → range_start b < s → range_end b <= s.
Proof.
  intros Hb [j Hj]%list_elem_of_lookup Hlt. rewrite (tiles_end _ _ Ht k b Hb).
  assert (starts bs !! k = Some (range_start b)) as Hk by (by rewrite list_lookup_fmap, Hb).
  assert (k < j).
  { destruct (Nat.lt_trichotomy k j) as [|[->|Hjk]]; [done|simplify_eq; lia|].
    pose proof (sorted_lookup_lt _ _ _ _ _ (tiles_sorted _ _ Ht) Hjk Hj Hk). lia. }
  destruct (starts bs !! S k) as [s'|] eqn:Hs; simpl.
  - destruct (decide (S k = j)) as [<-|]; [simplify_eq; lia|].
    assert (S k < j) as Hkj by lia.
    pose proof (sorted_lookup_lt _ _ _ _ _ (tiles_sorted _ _ Ht) Hkj Hs Hj). lia.
  - apply lookup_lt_Some in Hj. apply lookup_ge_None in Hs. lia.
Qed.

Lemma tiles_cover i : i < len → ∃ k b, bs !! k = Some b ∧ range_start b <= i < range_end b.
Proof.
  intros Hi.
  assert (∀ n, n <= length bs → (∃ k b, k < n ∧ bs !! k = Some b ∧ range_start b <= i < range_end b)
            ∨ (∀ k b, k < n → bs !! k = Some b → range_end b <= i)) as Hscan.
  { induction n as [|n IH]; intros Hn; [right; intros; lia|].
    destruct IH as [(k & b & Hk & Hb & Hin)|Hout]; [lia|left; exists k, b; split_and!; [lia|done|lia..]|].
    destruct (lookup_lt_is_Some_2 bs n) as [b Hb]; [lia|].
    assert (range_start b <= i).
    { destruct n as [|n].
      - pose proof (tiles_first _ _ Ht) as H0. rewrite list_lookup_fmap, Hb in H0.
        simplify_eq/=. lia.
      - destruct (lookup_lt_is_Some_2 bs n) as [b' Hb']; [lia|].
        pose proof (tiles_end _ _ Ht n b' Hb') as He.
        rewrite list_lookup_fmap, Hb in He. simpl in He.
        specialize (Hout n b' ltac:(lia) Hb'). lia. }
    destruct (decide (i < range_end b)).
    - left. exists n, b. split_and!; [lia|done|lia..].
    - right. intros k b' Hk Hb'. destruct (decide (k = n)) as [->|]; [simplify_eq; lia|].
      apply (Hout k); [lia|done]. }
  destruct (Hscan (length bs) ltac:(lia)) as [(k & b & _ & H)|Hout]; [eauto|].
  destruct bs as [|b0 bs'] eqn:Ebs; [by destruct Ht|]. rewrite <- Ebs in *.
  destruct (lookup_lt_is_Some_2 bs (length bs - 1)) as [b Hb]; [rewrite Ebs; simpl; lia|].
  pose proof (tiles_end _ _ Ht _ _ Hb) as He. rewrite lookup_ge_None_2 in He.
  - simpl in He. apply lookup_lt_Some in Hb as Hlt. specialize (Hout _ _ Hlt Hb). lia.
  - rewrite length_fmap, Ebs. simpl. lia.
Qed.

Lemma tiles_unique j k b c i :
  bs !! j = Some b → bs !! k = Some c → range_start b <= i < range_end b →
  range_start c <= i < range_end c → j = k.
Proof.
  intros Hb Hc Hib Hic.
  assert (∀ j k b c, bs !! j = Some b → bs !! k = Some c → j < k → range_end b <= range_start c) as Hw.
  { clear -Ht. intros j k b c Hb Hc Hjk. apply (tiles_head_end j b); [done|..].
    - apply list_elem_of_fmap. exists c. split; [done|]. by eapply list_elem_of_lookup_2.
    - apply (sorted_lookup_lt (starts bs) j k); [apply Ht|done|..];
        by rewrite list_lookup_fmap, ?Hb, ?Hc. }
  destruct (Nat.lt_trichotomy j k) as [H|[H|H]]; [|done|].
  - specialize (Hw j k b c Hb Hc H). lia.
  - specialize (Hw k j c b Hc Hb H). lia.
Qed.
End tiles.

(** ** Edges *)

Definition cond_jump (op : OpCode) : bool :=
  match op with JMP_IF_TRUE | JMP_IF_FALSE | JMP_IF_NULLISH => true | _ => false end.

(** Jump [inst] leads to position [p]. *)
Definition jump_to (f : IRFunction) (inst : Inst) (p : nat) : Prop :=
  ∃ l, i_b inst = Label l ∧ label_target f l = Some p.

Definition last_inst (f : IRFunction) (b : BasicBlock) (inst : Inst) : Prop :=
  range_start b < range_end b ∧ insts f !! (range_end b - 1) = Some inst.

Lemma last_inst_det f b inst inst' : last_inst f b inst → last_inst f b inst' → inst' = inst.
Proof. intros [_ H] [_ H']. congruence. Qed.

(** The edges of pass 2 out of block [k], given the starts of the [n] blocks. *)
Inductive normal_edge (f : IRFunction) (ss : list nat) (k : nat) (b : BasicBlock)
    : nat → EdgeKind → Prop :=
  | edge_jump inst p t :
      last_inst f b inst → splits_block (i_op inst) = true → jump_to f inst p →
      ss !! t = Some p → normal_edge f ss k b t Jump
  | edge_next inst :
      last_inst f b inst → is_terminator (i_op inst) = false → S k < length ss →
      normal_edge f ss k b (S k) Fallthrough
  | edge_cond inst :
      last_inst f b inst → cond_jump (i_op inst) = true →
      normal_edge f ss k b (S k) Fallthrough
  | edge_exit inst :
      last_inst f b inst → i_op inst = RETURN ∨ i_op inst = HALT →
      normal_edge f ss k b (length ss) Fallthrough.

(** The edges of pass 3. *)
Inductive handler_edge (f : IRFunction) (ss : list nat) (b : BasicBlock)
    : nat → EdgeKind → Prop :=
  | edge_catch p_begin p_end l p t :
      (p_begin, p_end, l) ∈ try_spans f → label_target f l = Some p →
      range_start b < p_end → p_begin < range_end b → ss !! t = Some p →
      handler_edge f ss b t Exception
  | edge_finally i inst p t :
      range_start b <= i < range_end b → insts f !! i = Some inst →
      i_op inst = TRY_FINALLY_BEGIN → jump_to f inst p → ss !! t = Some p →
      handler_edge f ss b t Exception.

Lemma terminator_cases op :
  is_terminator op = true →
  splits_block op = true ∧ cond_jump op = false ∧ (op = JMP ∨ op = BREAK ∨ op = CONTINUE) ∨
  splits_block op = true ∧ cond_jump op = true ∨
  splits_block op = false ∧ (op = RETURN ∨ op = HALT ∨ op = THROW).
Proof. destruct op; try discriminate; intros _; auto 8. Qed.

Lemma splits_terminator op : splits_block op = true → is_terminator op = true.
Proof. by destruct op. Qed.

Lemma cond_splits op : cond_jump op = true → splits_block op = true.
Proof. by destruct op. Qed.

Section edges.
Context (f : IRFunction) (bs : list BasicBlock).
Context (Ht : tiles (length (insts f)) bs) (Hheads : ∀ p, p ∈ starts bs ↔ head_at f p).

Lemma target_block l p :
  label_target f l = Some p → ∃ t, block_id_of p bs = Ok t ∧ starts bs !! t = Some p.
Proof.
  intros Hp. apply block_id_of_start; [apply Ht|]. apply Hheads. right; left.
  by eapply label_target_pos.
Qed.

Lemma start_inj i j p : starts bs !! i = Some p → starts bs !! j = Some p → i = j.
Proof.
  intros Hi Hj. destruct (Nat.lt_trichotomy i j) as [H|[H|H]]; [|done|];
    [pose proof (sorted_lookup_lt _ _ _ _ _ (tiles_sorted _ _ Ht) H Hi Hj)
    |pose proof (sorted_lookup_lt _ _ _ _ _ (tiles_sorted _ _ Ht) H Hj Hi)]; lia.
Qed.

Lemma jump_edge_ok inst :
  ∃ es, jump_edge f bs inst = Ok es ∧
    ∀ t kd, (t, kd) ∈ es ↔ kd = Jump ∧ ∃ p, jump_to f inst p ∧ starts bs !! t = Some p.
Proof.
  unfold jump_edge, jump_to. destruct (i_b inst) as [| |l| | | |];
    try (exists []; split; [done|]; set_solver).
  destruct (label_target f l) as [p|] eqn:Hp;
    [|exists []; split; [done|]; intros t kd; split; [by intros ?%elem_of_nil|];
      intros (_ & p & (l' & [= <-] & Hp') & _); congruence].
  destruct (target_block l p Hp) as (t & -> & Ht'). simpl. eexists; split; [done|].
  intros t' kd. rewrite list_elem_of_singleton. split.
  - intros [= -> ->]. split; [done|]. exists p. eauto.
  - intros (-> & p' & (l' & [= <-] & Hp') & Hs). rewrite Hp in Hp'. injection Hp' as <-.
    f_equal. by eapply start_inj.
Qed.

(** After a jump the next position is a head, so the next block exists. *)
Lemma after_jump k b inst :
  bs !! k = Some b → last_inst f b inst → splits_block (i_op inst) = true →
  starts bs !! S k = Some (range_end b).
Proof.
  intros Hb [Hne Hl] Hs.
  assert (range_end b ∈ starts bs) as Hin.
  { apply Hheads. right; right. exists (range_end b - 1), inst. split_and!; [done..|lia]. }
  rewrite (tiles_end _ _ Ht k b Hb) in *.
  destruct (starts bs !! S k) as [s|] eqn:Es; [done|]. simpl in *. exfalso.
  apply list_elem_of_lookup in Hin as [j Hj].
  apply lookup_ge_None in Es. apply lookup_lt_Some in Hj as Hjl.
  assert (starts bs !! k = Some (range_start b)) as Hk by (by rewrite list_lookup_fmap, Hb).
  destruct (decide (j = k)) as [->|]; [simplify_eq; lia|].
  assert (j < k) as Hjk by lia.
  pose proof (sorted_lookup_lt _ _ _ _ _ (tiles_sorted _ _ Ht) Hjk Hj Hk). lia.
Qed.

(** The edges of a block by its last instruction. *)
Lemma normal_edge_iff k b inst t kd :
  last_inst f b inst →
  normal_edge f (starts bs) k b t kd ↔
    splits_block (i_op inst) = true ∧ (kd = Jump ∧ ∃ p, jump_to f inst p ∧ starts bs !! t = Some p) ∨
    kd = Fallthrough ∧
      (is_terminator (i_op inst) = false ∧ S k < length bs ∧ t = S k ∨
       cond_jump (i_op inst) = true ∧ t = S k ∨
       (i_op inst = RETURN ∨ i_op inst = HALT) ∧ t = length bs).
Proof.
  intros Hl. rewrite <- (length_fmap range_start bs). split.
  - destruct 1 as [x p t Hx|x Hx|x Hx|x Hx]; rewrite (last_inst_det f b inst x Hl Hx) in *; eauto 10.
  - intros [(Hs & -> & p & Hp & Ht')|(-> & [(? & ? & ->)|[[? ->]|[? ->]]])];
      [by eapply edge_jump|by eapply edge_next|by eapply edge_cond|by eapply edge_exit].
Qed.

Lemma block_edges_ok k b :
  bs !! k = Some b →
  ∃ es, block_edges f bs (length bs) (k, b) = Ok es ∧
    ∀ t kd, (t, kd) ∈ es ↔ normal_edge f (starts bs) k b t kd.
Proof.
  intros Hb. unfold block_edges.
  destruct (Nat.leb_spec (range_end b) (range_start b)) as [Hemp|Hne].
  { exists []. split; [done|]. intros t kd. split; [by intros ?%elem_of_nil|].
    inversion 1; subst;
      match goal with H : last_inst _ _ _ |- _ => destruct H; lia end. }
  destruct (lookup_lt_is_Some_2 (insts f) (range_end b - 1)) as [inst Hi].
  { pose proof (tiles_range _ _ Ht k b Hb). lia. }
  rewrite (proj2 (vec_get_Ok _ _ _) Hi). simpl. replace (k + 1) with (S k) by lia.
  setoid_rewrite (λ t kd, normal_edge_iff k b inst t kd (conj Hne Hi)).
  destruct (is_terminator (i_op inst)) eqn:Hterm; simpl.
  2: { eexists. split; [done|]. intros t kd.
       rewrite (proj1 (not_true_iff_false (splits_block (i_op inst)))) by (intros ?%splits_terminator; congruence).
       rewrite (proj1 (not_true_iff_false (cond_jump (i_op inst))))
         by (intros ?%cond_splits%splits_terminator; congruence).
       assert (¬ (i_op inst = RETURN ∨ i_op inst = HALT)) by (by intros [E|E]; rewrite E in Hterm).
       destruct (Nat.ltb_spec (S k) (length bs)); [rewrite list_elem_of_singleton|rewrite elem_of_nil];
         naive_solver lia. }
  destruct (jump_edge_ok inst) as (es & Hes & Helem).
  destruct (terminator_cases _ Hterm) as [(Hs & Hc & Hop)|[[Hs Hc]|[Hs Hop]]]; rewrite Hs.
  - exists es. split; [by destruct Hop as [-> | [-> | ->]]|]. intros t kd. rewrite Helem, Hc.
    destruct Hop as [-> | [-> | ->]]; naive_solver.
  - exists (es ++ [(S k, Fallthrough)]). split; [rewrite Hes; by destruct (i_op inst)|].
    intros t kd. rewrite elem_of_app, Helem, list_elem_of_singleton, Hc.
    assert (¬ (i_op inst = RETURN ∨ i_op inst = HALT)) by (by intros [E|E]; rewrite E in Hc).
    naive_solver.
  - exists (if decide (i_op inst = THROW) then [] else [(length bs, Fallthrough)]).
    destruct Hop as [-> | [-> | ->]]; (split; [done|]); intros t kd; clear; simpl;
      rewrite ?list_elem_of_singleton, ?elem_of_nil; naive_solver.
Qed.
End edges.

(** The out-edges of every block of [bs] are those of [E]. *)
Definition has_edges (bs : list BasicBlock) (E : nat → BasicBlock → nat → EdgeKind → Prop) : Prop :=
  ∀ k b t kd, bs !! k = Some b → (t, kd) ∈ succs b ↔ E k b t kd.

Definition same_range (b b' : BasicBlock) : Prop :=
  range_start b = range_start b' ∧ range_end b = range_end b'.

Lemma last_inst_range f b b' inst : same_range b b' → last_inst f b inst → last_inst f b' inst.
Proof. unfold last_inst. by intros [-> ->]. Qed.

Lemma normal_edge_range f ss k b b' t kd :
  same_range b b' → normal_edge f ss k b t kd → normal_edge f ss k b' t kd.
Proof.
  intros Hr. destruct 1.
  - eapply edge_jump; eauto using last_inst_range.
  - eapply edge_next; eauto using last_inst_range.
  - eapply edge_cond; eauto using last_inst_range.
  - eapply edge_exit; eauto using last_inst_range.
Qed.

Lemma cut_preds ps len : Forall (λ b, preds b = []) (cut_blocks ps len).
Proof. induction ps; constructor; done. Qed.

Lemma split_ok f heads :
  marks (length (insts f)) (head_at f) heads →
  ∃ bs, split_and_edges f heads = Ok (bs, length bs) ∧ tiles (length (insts f)) bs ∧
    (∀ p, p ∈ starts bs ↔ head_at f p) ∧ Forall (λ b, preds b = []) bs ∧
    has_edges bs (normal_edge f (starts bs)).
Proof.
  intros Hm. unfold split_and_edges.
  pose proof (cut_tiles f heads Hm) as Ht. pose proof (cut_preds (head_positions heads) (length (insts f))) as Hp.
  assert (∀ p, p ∈ starts (cut_blocks (head_positions heads) (length (insts f))) ↔ head_at f p) as Hheads.
  { intros p. rewrite starts_cut, head_positions_elem. apply Hm. }
  set (bs0 := cut_blocks _ _) in *. clearbody bs0.
  destruct (map_res_ok (λ ib, let* es := block_edges f bs0 (length bs0) ib in Ok (set_succs ib.2 es))
    (λ ib b', same_range ib.2 b' ∧ preds b' = preds ib.2 ∧
       ∀ t kd, (t, kd) ∈ succs b' ↔ normal_edge f (starts bs0) ib.1 ib.2 t kd)
    (enumerate bs0)) as (bs & -> & Hall).
  { intros [k b] Hb%elem_of_enumerate.
    destruct (block_edges_ok f bs0 Ht Hheads k b Hb) as (es & -> & Hes). simpl. eexists.
    split; [done|]. split; [by split|]. split; [done | exact Hes]. }
  simpl. exists bs.
  assert (length bs0 = length bs) as Hl.
  { apply Forall2_length in Hall. by rewrite length_enumerate in Hall. }
  assert (∀ k b', bs !! k = Some b' → ∃ b, bs0 !! k = Some b ∧ same_range b b' ∧ preds b' = preds b ∧
    ∀ t kd, (t, kd) ∈ succs b' ↔ normal_edge f (starts bs0) k b t kd) as Hlk.
  { intros k b' Hb'. destruct (Forall2_lookup_r _ _ _ _ _ Hall Hb') as ([k' b] & Hk & H).
    apply enumerate_lookup in Hk as [E Hb]. simpl in *. subst k'. exists b. split; [exact Hb|]. apply H. }
  assert (ranges bs0 = ranges bs) as Er.
  { apply list_eq_same_length with (n := length bs0); [by unfold ranges; rewrite length_fmap|by unfold ranges; rewrite length_fmap, Hl|].
    intros i x y Hi Hx Hy. unfold ranges in *. rewrite list_lookup_fmap in Hx, Hy.
    destruct (bs !! i) as [b'|] eqn:Eb'; [|done]. destruct (Hlk i b' Eb') as (b & Eb & [H1 H2] & _).
    rewrite Eb in *. simplify_eq/=. congruence. }
  assert (starts bs0 = starts bs) as Es by (by rewrite !starts_ranges, Er).
  rewrite Hl. split_and!; [done|by eapply tiles_ranges|by rewrite <- Es| |].
  - apply Forall_lookup. intros k b' (b & Hb & _ & -> & _)%Hlk. rewrite Forall_lookup in Hp. by eapply Hp.
  - intros k b' t kd (b & Hb & Hr & _ & ->)%Hlk. rewrite Es. split; apply normal_edge_range; [done|].
    destruct Hr; by split.
Qed.

(** ** Exception edges *)

(** [bs'] is [bs] with the exception edges of [N], which sees a block's index
    and range. *)
Definition extends (N : nat → nat * nat → nat → Prop) (bs bs' : list BasicBlock) : Prop :=
  ranges bs = ranges bs' ∧
  ∀ k b', bs' !! k = Some b' → ∃ b, bs !! k = Some b ∧ preds b' = preds b ∧ same_range b b' ∧
    ∀ t kd, (t, kd) ∈ succs b' ↔
      (t, kd) ∈ succs b ∨ kd = Exception ∧ N k (range_start b, range_end b) t.

Lemma extends_refl (N : nat → nat * nat → nat → Prop) bs :
  (∀ k r t, ¬ N k r t) → extends N bs bs.
Proof.
  intros HN. split; [done|]. intros k b Hb. exists b. split_and!; [done..|].
  intros t kd. split; [auto|]. intros [?|[_ ?]]; [done|by destruct (HN k (range_start b, range_end b) t)].
Qed.

Lemma extends_trans (N1 N2 N3 : nat → nat * nat → nat → Prop) bs1 bs2 bs3 :
  (∀ k r t, N3 k r t ↔ N1 k r t ∨ N2 k r t) →
  extends N1 bs1 bs2 → extends N2 bs2 bs3 → extends N3 bs1 bs3.
Proof.
  intros HN [E1 H1] [E2 H2]. split; [congruence|]. intros k b3 Hb3.
  destruct (H2 k b3 Hb3) as (b2 & Hb2 & P2 & [R2 R2'] & S2).
  destruct (H1 k b2 Hb2) as (b1 & Hb1 & P1 & [R1 R1'] & S1).
  exists b1. split_and!; [done|congruence|split; congruence|].
  intros t kd. rewrite S2, S1, HN, R1, R1'. tauto.
Qed.

Lemma add_edge_range target b : same_range b (add_edge target b).
Proof. unfold add_edge. case_decide; by split. Qed.

Lemma add_edge_preds target b : preds (add_edge target b) = preds b.
Proof. unfold add_edge. by case_decide. Qed.

Lemma add_edge_elem target b t kd :
  (t, kd) ∈ succs (add_edge target b) ↔ (t, kd) ∈ succs b ∨ kd = Exception ∧ t = target.
Proof.
  unfold add_edge. case_decide as H; simpl.
  - split; [auto|]. by intros [?|[-> ->]].
  - rewrite elem_of_app, list_elem_of_singleton. split; [|naive_solver].
    intros [?|[= -> ->]]; auto.
Qed.

Section exceptions.
Context (f : IRFunction) (bs0 : list BasicBlock).
Context (Ht : tiles (length (insts f)) bs0) (Hheads : ∀ p, p ∈ starts bs0 ↔ head_at f p).

(** The edges of one span. *)
Definition span_edge (span : nat * nat * N) (k : nat) (r : nat * nat) (t : nat) : Prop :=
  let '(p_begin, p_end, l) := span in
  r.1 < p_end ∧ p_begin < r.2 ∧ ∃ p, label_target f l = Some p ∧ starts bs0 !! t = Some p.

Lemma span_edges_ok bs span :
  ranges bs0 = ranges bs →
  ∃ bs', span_edges f bs span = Ok bs' ∧ extends (span_edge span) bs bs'.
Proof.
  intros Er. destruct span as [[pb pe] l]. unfold span_edges.
  assert (starts bs0 = starts bs) as Es by (by rewrite !starts_ranges, Er).
  destruct (label_target f l) as [p|] eqn:Hp.
  2: { exists bs. split; [done|]. apply extends_refl. intros k r t (_ & _ & p & ? & _). congruence. }
  destruct (target_block f bs0 Ht Hheads l p Hp) as (t & Hbt & Hst).
  destruct (block_id_of_start bs p) as (t' & -> & Ht').
  { rewrite <- Es. apply Ht. }
  { rewrite <- Es. by eapply list_elem_of_lookup_2. }
  simpl. eexists. split; [done|].
  assert (t' = t) as -> by (rewrite <- Es in Ht'; by eapply start_inj).
  split.
  { unfold ranges. rewrite <- list_fmap_compose. apply list_fmap_ext. intros k b _. simpl.
    case_match; [|done]. by destruct (add_edge_range t b) as [-> ->]. }
  intros k b'. rewrite list_lookup_fmap. destruct (bs !! k) as [b|]; simpl; [|done].
  intros [= <-]. exists b. split; [done|].
  destruct (Nat.ltb_spec (range_start b) pe), (Nat.ltb_spec pb (range_end b)); simpl;
    rewrite ?add_edge_preds;
    (split; [done|]); (split; [done || apply add_edge_range|]);
    intros t' kd; rewrite ?add_edge_elem; unfold span_edge; simpl;
    (split; [|intros [?|(? & ? & ? & p' & Hp' & Hs')]; [by auto|try lia]]); try tauto.
  - intros [?|[-> ->]]; [auto|]. right. split; [done|]. split_and!; [done..|]. eauto.
  - right. split; [done|]. rewrite Hp in Hp'. injection Hp' as <-. by eapply start_inj.
Qed.

Lemma all_spans_ok spans bs :
  ranges bs0 = ranges bs →
  ∃ bs', fold_res (span_edges f) spans bs = Ok bs' ∧
    extends (λ k r t, ∃ span, span ∈ spans ∧ span_edge span k r t) bs bs'.
Proof.
  revert bs. induction spans as [|s spans IH]; intros bs Er; simpl.
  { exists bs. split; [done|]. apply extends_refl. intros k r t (? & ?%elem_of_nil & _). done. }
  destruct (span_edges_ok bs s Er) as (bs1 & -> & H1). simpl.
  destruct (IH bs1) as (bs2 & -> & H2); [destruct H1; congruence|].
  exists bs2. split; [done|]. eapply extends_trans; [|done..]. intros k r t. simpl. set_solver.
Qed.

(** The edge of a [TRY_FINALLY_BEGIN] at [i]. *)
Definition finally_at (i t : nat) : Prop :=
  ∃ inst p, insts f !! i = Some inst ∧ i_op inst = TRY_FINALLY_BEGIN ∧
    jump_to f inst p ∧ starts bs0 !! t = Some p.

Definition finally_edge (r : nat * nat) (t : nat) : Prop :=
  ∃ i, r.1 <= i < r.2 ∧ finally_at i t.

Lemma finally_step_ok bs k es i :
  ranges bs0 = ranges bs → i < length (insts f) →
  ∃ es', finally_step f bs k es i = Ok es' ∧
    ∀ j t, (j, t) ∈ es' ↔ (j, t) ∈ es ∨ j = k ∧ finally_at i t.
Proof.
  intros Er [inst Hinst]%lookup_lt_is_Some_2. unfold finally_step, finally_at.
  assert (starts bs0 = starts bs) as Es by (by rewrite !starts_ranges, Er).
  rewrite (proj2 (vec_get_Ok _ _ _) Hinst). simpl.
  assert ((∀ t, ¬ finally_at i t) → ∃ es', Ok es = Ok es' ∧
    ∀ j t, (j, t) ∈ es' ↔ (j, t) ∈ es ∨ j = k ∧ finally_at i t) as Hnone.
  { intros Hno. exists es. split; [done|]. intros j t. specialize (Hno t). tauto. }
  case_decide as Hop.
  2: { apply Hnone. intros t (inst' & p & Hi' & ? & _). congruence. }
  destruct (i_b inst) as [| |l| | | |] eqn:Eb;
    try (apply Hnone; intros t (inst' & p & Hi' & _ & (l' & ? & _) & _); congruence).
  destruct (label_target f l) as [p|] eqn:Hp;
    [|apply Hnone; intros t (inst' & p & Hi' & _ & (l' & ? & ?) & _); congruence].
  destruct (target_block f bs0 Ht Hheads l p Hp) as (t0 & _ & Hst).
  destruct (block_id_of_start bs p) as (t' & -> & Ht');
    [rewrite <- Es; apply Ht | rewrite <- Es; by eapply list_elem_of_lookup_2 |].
  simpl. eexists. split; [done|]. intros j t.
  rewrite elem_of_app, list_elem_of_singleton. rewrite <- Es in Ht'. split.
  - intros [?|[= -> ->]]; [auto|]. right. split; [done|]. exists inst, p. split_and!; [done..| |done].
    by exists l.
  - intros [?|(-> & inst' & p' & Hi' & _ & (l' & El & Hp') & Hs)]; [auto|]. right. f_equal.
    simplify_eq. rewrite Eb in El. injection El as <-. rewrite Hp in Hp'. injection Hp' as <-.
    by eapply start_inj.
Qed.

Lemma finally_targets_ok bs k b :
  ranges bs0 = ranges bs → range_start b <= range_end b <= length (insts f) →
  ∃ es, finally_targets f bs (k, b) = Ok es ∧
    ∀ j t, (j, t) ∈ es ↔ j = k ∧ finally_edge (range_start b, range_end b) t.
Proof.
  intros Er Hrange. unfold finally_targets. simpl.
  destruct (fold_res_inv (finally_step f bs k)
    (λ pre es, ∀ j t, (j, t) ∈ es ↔ j = k ∧ ∃ i, i ∈ pre ∧ finally_at i t)
    (seq (range_start b) (range_end b - range_start b)) []) as (es & -> & Hes).
  - intros j t. set_solver.
  - intros pre i post es Hsplit Hpre.
    assert (i ∈ seq (range_start b) (range_end b - range_start b)) as Hi%elem_of_seq
      by (rewrite Hsplit; set_solver).
    destruct (finally_step_ok bs k es i Er) as (es' & -> & Hes'); [lia|].
    exists es'. split; [done|]. intros j t. rewrite Hes', Hpre. set_solver.
  - exists es. split; [done|]. intros j t. rewrite Hes. unfold finally_edge. simpl.
    split; intros (-> & i & Hi & H); (split; [done|]); exists i;
      (split; [|done]); [apply elem_of_seq in Hi; lia | apply elem_of_seq; lia].
Qed.

Lemma add_finally_at bs k t b :
  bs !! k = Some b → add_finally bs (k, t) = Ok (<[k:=add_edge t b]> bs).
Proof.
  intros Hb. unfold add_finally. simpl. rewrite (proj2 (vec_get_Ok _ _ _) Hb). simpl.
  apply vec_set_lt. by eapply lookup_lt_Some.
Qed.

Lemma add_finally_ok es bs :
  (∀ k t, (k, t) ∈ es → k < length bs) →
  ∃ bs', fold_res add_finally es bs = Ok bs' ∧ extends (λ k _ t, (k, t) ∈ es) bs bs'.
Proof.
  revert bs. induction es as [|[k t] es IH]; intros bs Hlt; cbn [fold_res].
  { exists bs. split; [done|]. apply extends_refl. by intros ??? ?%elem_of_nil. }
  destruct (lookup_lt_is_Some_2 bs k) as [b Hb]; [apply (Hlt k t); by left|].
  rewrite (add_finally_at bs k t b Hb). cbn [res_bind].
  assert (extends (λ j _ t', (j, t') = (k, t)) bs (<[k:=add_edge t b]> bs)) as H1.
  { split.
    - unfold ranges. rewrite list_fmap_insert. destruct (add_edge_range t b) as [<- <-].
      symmetry. apply list_insert_id. by rewrite list_lookup_fmap, Hb.
    - intros j b' Hj. destruct (decide (j = k)) as [->|Hne].
      + rewrite list_lookup_insert_eq in Hj by (by eapply lookup_lt_Some). injection Hj as <-.
        exists b. rewrite add_edge_preds. split_and!; [done|done|apply add_edge_range..|].
        intros t' kd. rewrite add_edge_elem. naive_solver.
      + rewrite list_lookup_insert_ne in Hj by done. exists b'. split_and!; [done..|].
        intros t' kd. naive_solver. }
  destruct (IH (<[k:=add_edge t b]> bs)) as (bs' & -> & H2).
  { intros k' t' Hin. rewrite length_insert. apply (Hlt k' t'). by right. }
  exists bs'. split; [done|]. eapply extends_trans; [|done..]. intros j r t'. simpl.
  by rewrite elem_of_cons.
Qed.

Lemma exception_edges_ok :
  ∃ bs', add_exception_edges f bs0 = Ok bs' ∧
    extends (λ k r t, (∃ span, span ∈ try_spans f ∧ span_edge span k r t) ∨ finally_edge r t) bs0 bs'.
Proof.
  unfold add_exception_edges.
  destruct (all_spans_ok (try_spans f) bs0 eq_refl) as (bs1 & -> & H1). simpl.
  assert (ranges bs0 = ranges bs1) as Er by apply H1.
  pose proof (tiles_ranges _ _ _ Er Ht) as Ht1.
  destruct (map_res_ok (finally_targets f bs1)
    (λ ib es, ∀ j t, (j, t) ∈ es ↔ j = ib.1 ∧ finally_edge (range_start ib.2, range_end ib.2) t)
    (enumerate bs1)) as (es & -> & Hes).
  { intros [k b] Hb%elem_of_enumerate. apply finally_targets_ok; [done|]. by eapply tiles_range. }
  simpl.
  assert (∀ k t, (k, t) ∈ mjoin es ↔ ∃ b, bs1 !! k = Some b ∧ finally_edge (range_start b, range_end b) t)
    as Hj.
  { intros k t. rewrite list_elem_of_join. split.
    - intros (e & He & [n Hn]%list_elem_of_lookup).
      destruct (Forall2_lookup_r _ _ _ _ _ Hes Hn) as ([k' b] & Hk & H).
      apply enumerate_lookup in Hk as [E Hb]. apply H in He as [-> ?]. simpl in *. subst. eauto.
    - intros (b & Hb & Hf).
      destruct (Forall2_lookup_l _ _ _ k (k, b) Hes) as (e & He & H).
      { by apply enumerate_lookup. }
      exists e. split; [by apply H | by eapply list_elem_of_lookup_2]. }
  destruct (add_finally_ok (mjoin es) bs1) as (bs2 & -> & H2).
  { intros k t (b & Hb & _)%Hj. by eapply lookup_lt_Some. }
  exists bs2. split; [done|]. destruct H1 as [_ H1], H2 as [E2 H2]. split; [congruence|].
  intros k b2 Hb2. destruct (H2 k b2 Hb2) as (b1 & Hb1 & P2 & [R2 R2'] & S2).
  destruct (H1 k b1 Hb1) as (b & Hb & P1 & [R1 R1'] & S1).
  exists b. split_and!; [done|congruence|split; congruence|].
  intros t kd. rewrite S2, S1, Hj. rewrite R1, R1'. naive_solver.
Qed.
End exceptions.

(** ** Predecessors *)

(** The number of edges to [k] among the targets [ts]. *)
Definition count (k : nat) (ts : list nat) : nat := length (filter (k =.) ts).

Definition more_preds (ps : nat → list nat) (k : nat) (b : BasicBlock) : BasicBlock :=
  set_preds b (preds b ++ ps k).

Lemma more_preds_nil bs : imap (more_preds (λ _, [])) bs = bs.
Proof.
  apply list_eq. intros k. rewrite list_lookup_imap. destruct (bs !! k) as [[]|]; [|done].
  simpl. unfold more_preds. simpl. by rewrite app_nil_r.
Qed.

Lemma more_preds_app ps qs bs :
  imap (more_preds qs) (imap (more_preds ps) bs) = imap (more_preds (λ k, ps k ++ qs k)) bs.
Proof.
  apply list_eq. intros k. rewrite !list_lookup_imap. destruct (bs !! k) as [[]|]; [|done].
  simpl. unfold more_preds. simpl. by rewrite app_assoc.
Qed.

Lemma more_preds_ext ps qs bs :
  (∀ k, ps k = qs k) → imap (more_preds ps) bs = imap (more_preds qs) bs.
Proof. intros E. apply imap_ext. intros k b _. unfold more_preds. by rewrite E. Qed.

Lemma push_pred_ok i bs t :
  t < length bs →
  push_pred i bs t = Ok (imap (more_preds (λ k, replicate (count k [t]) i)) bs).
Proof.
  intros [b Hb]%lookup_lt_is_Some_2. unfold push_pred.
  rewrite (proj2 (vec_get_Ok _ _ _) Hb). simpl. rewrite vec_set_lt by (by eapply lookup_lt_Some).
  f_equal. apply list_eq. intros k. rewrite list_lookup_imap. unfold count, more_preds.
  destruct (decide (k = t)) as [->|Hne].
  - rewrite list_lookup_insert_eq by (by eapply lookup_lt_Some). rewrite Hb. simpl.
    by rewrite filter_cons_True.
  - rewrite list_lookup_insert_ne by done. destruct (bs !! k) as [[]|]; [|done]. simpl.
    rewrite filter_cons_False by done. simpl. by rewrite app_nil_r.
Qed.

Lemma push_preds_ok i ts bs :
  Forall (λ t, t < length bs) ts →
  fold_res (push_pred i) ts bs = Ok (imap (more_preds (λ k, replicate (count k ts) i)) bs).
Proof.
  intros H. revert bs H. induction ts as [|t ts IH]; intros bs H; cbn [fold_res].
  { by rewrite more_preds_nil. }
  apply Forall_cons in H as [Ht Hts]. rewrite push_pred_ok by done. cbn [res_bind].
  rewrite IH by (by rewrite length_imap). rewrite more_preds_app. f_equal.
  apply more_preds_ext. intros k. unfold count. rewrite filter_cons.
  case_decide; simpl; [rewrite filter_cons_True by done | rewrite filter_cons_False by done]; done.
Qed.

(** The predecessors of block [k]: the sources of its in-edges, once each. *)
Definition preds_of (bs : list BasicBlock) (k : nat) (is' : list nat) : list nat :=
  mjoin ((λ i, match bs !! i with Some b => replicate (count k (succs b).*1) i | None => [] end) <$> is').

Lemma finalize_loop bs is' :
  (∀ i b t, i ∈ is' → bs !! i = Some b → t ∈ (succs b).*1 → t < length bs) →
  Forall (λ i, i < length bs) is' →
  fold_res (λ bs i, let* b := vec_get bs i in fold_res (push_pred i) (succs b).*1 bs) is' bs =
  Ok (imap (more_preds (λ k, preds_of bs k is')) bs).
Proof.
  intros Ht Hi.
  cut (∀ post pre, is' = pre ++ post →
    fold_res (λ bs i, let* b := vec_get bs i in fold_res (push_pred i) (succs b).*1 bs) post
      (imap (more_preds (λ k, preds_of bs k pre)) bs) =
    Ok (imap (more_preds (λ k, preds_of bs k is')) bs)).
  { intros Hcut. rewrite <- (Hcut is' []) by done. f_equal. symmetry.
    rewrite <- (more_preds_nil bs) at 2. by apply more_preds_ext. }
  induction post as [|i post IH]; intros pre E; cbn [fold_res].
  { by rewrite app_nil_r in E; subst. }
  rewrite Forall_forall in Hi. specialize (Hi i). destruct (lookup_lt_is_Some_2 bs i) as [b Hb];
    [apply Hi; set_solver|].
  unfold vec_get at 1. rewrite list_lookup_imap, Hb. cbn [res_bind fmap option_fmap option_map].
  rewrite push_preds_ok.
  2: { rewrite length_imap. apply Forall_forall. intros t Hin. apply (Ht i b); [set_solver|done..]. }
  cbn [res_bind]. rewrite <- (IH (pre ++ [i])) by (by rewrite <- app_assoc). f_equal.
  rewrite more_preds_app. apply more_preds_ext. intros k. unfold preds_of.
  rewrite fmap_app, join_app. simpl. rewrite Hb. by rewrite app_nil_r.
Qed.

Lemma preds_of_elem bs k is' i :
  i ∈ preds_of bs k is' ↔ i ∈ is' ∧ ∃ b kd, bs !! i = Some b ∧ (k, kd) ∈ succs b.
Proof.
  unfold preds_of. rewrite list_elem_of_join. split.
  - intros (l & Hl & (j & -> & Hj)%list_elem_of_fmap). destruct (bs !! j) as [b|] eqn:Hb;
      [|by apply elem_of_nil in Hl].
    apply elem_of_replicate in Hl as [-> Hne]. split; [done|]. exists b.
    unfold count in Hne. destruct (filter (k =.) (succs b).*1) as [|x l] eqn:Ef; [done|].
    assert (x ∈ filter (k =.) (succs b).*1) as [<- Hx]%list_elem_of_filter by (rewrite Ef; by left).
    apply list_elem_of_fmap in Hx as ([x' kd] & -> & Hx). simpl. eauto.
  - intros (Hi & b & kd & Hb & Hk). eexists. split; [|apply list_elem_of_fmap; exists i; split; [done|done]].
    simpl. rewrite Hb. apply elem_of_replicate. split; [done|]. unfold count.
    assert (k ∈ filter (k =.) (succs b).*1) as Hin.
    { apply list_elem_of_filter. split; [done|]. apply list_elem_of_fmap. by exists (k, kd). }
    destruct (filter (k =.) (succs b).*1); [by apply elem_of_nil in Hin | done].
Qed.

(** ** The whole graph *)

Definition real_blocks (g : Cfg) : list BasicBlock := take (exit g) (blocks g).

Record cfg_ok (f : IRFunction) (g : Cfg) : Prop := {
  ok_entry : entry g = 0;
  ok_length : length (blocks g) = S (exit g);
  ok_tiles : tiles (length (insts f)) (real_blocks g);
  ok_heads : ∀ p, p ∈ starts (real_blocks g) ↔ head_at f p;
  ok_sentinel : ∃ ps, blocks g !! exit g = Some (mkBlock 0 0 ps []);
  ok_edges : has_edges (real_blocks g) (λ k b t kd,
    normal_edge f (starts (real_blocks g)) k b t kd ∨ handler_edge f (starts (real_blocks g)) b t kd);
  ok_preds : ∀ k b, blocks g !! k = Some b →
    preds b = preds_of (blocks g) k (seq 0 (length (blocks g)));
}.

Lemma handler_edge_iff f bs0 k b t :
  handler_edge f (starts bs0) b t Exception ↔
  (∃ span, span ∈ try_spans f ∧ span_edge f bs0 span k (range_start b, range_end b) t) ∨
  finally_edge f bs0 (range_start b, range_end b) t.
Proof.
  split.
  - intros H. remember Exception as kd eqn:Ekd.
    destruct H as [pb pe l p t Hin Hp H1 H2 Hs|i inst p t Hi Hin Hop Hj Hs].
    + left. exists (pb, pe, l). split; [done|]. split_and!; [done..|]. eauto.
    + right. exists i. split; [done|]. by exists inst, p.
  - intros [([[pb pe] l] & Hin & H1 & H2 & p & Hp & Hs)|(i & Hi & inst & p & Hin & Hop & Hj & Hs)].
    + by eapply edge_catch.
    + by eapply edge_finally.
Qed.

Lemma handler_edge_kind f ss b t kd : handler_edge f ss b t kd → kd = Exception.
Proof. by destruct 1. Qed.

Lemma handler_edge_range f ss b b' t kd :
  same_range b b' → handler_edge f ss b t kd → handler_edge f ss b' t kd.
Proof.
  intros [E1 E2]. destruct 1; [eapply edge_catch | eapply edge_finally]; rewrite <- ?E1, <- ?E2; eauto.
Qed.

(** The block count bounds every edge target. *)
Lemma edge_bound f bs k b t kd :
  tiles (length (insts f)) bs → (∀ p, p ∈ starts bs ↔ head_at f p) → bs !! k = Some b →
  normal_edge f (starts bs) k b t kd ∨ handler_edge f (starts bs) b t kd → t <= length bs.
Proof.
  intros Ht Hh Hb Hedge. rewrite <- (length_fmap range_start bs).
  destruct Hedge as [[i' p t' _ _ _ Hs|i' _ _ Hlt|i' Hl Hc|i' _ _]|He].
  - apply lookup_lt_Some in Hs. lia.
  - lia.
  - apply cond_splits in Hc. pose proof (after_jump f bs Ht Hh k b i' Hb Hl Hc) as Hs.
    apply lookup_lt_Some in Hs. lia.
  - lia.
  - destruct He; match goal with H : starts bs !! _ = Some _ |- _ => apply lookup_lt_Some in H; lia end.
Qed.

Lemma more_preds_ranges ps bs : ranges bs = ranges (imap (more_preds ps) bs).
Proof.
  apply list_eq. intros k. unfold ranges. rewrite !list_lookup_fmap, list_lookup_imap.
  by destruct (bs !! k).
Qed.

Lemma more_preds_edges ps bs E :
  (∀ k b b' t kd, same_range b b' → E k b t kd → E k b' t kd) →
  has_edges bs E → has_edges (imap (more_preds ps) bs) E.
Proof.
  intros HE H k b' t kd. rewrite list_lookup_imap. destruct (bs !! k) as [b|] eqn:Hb; [|done].
  intros [= <-]. simpl. rewrite (H k b t kd Hb). split; by apply HE.
Qed.

Lemma preds_of_ext bs bs' k is' :
  (∀ i, succs <$> bs !! i = succs <$> bs' !! i) → preds_of bs k is' = preds_of bs' k is'.
Proof.
  intros H. unfold preds_of. f_equal. apply list_fmap_ext. intros _ i _. specialize (H i).
  destruct (bs !! i), (bs' !! i); simplify_eq/=; congruence.
Qed.

(** The edges of passes 2 and 3 together. *)
Lemma combined_edges f bs bs' :
  ranges bs = ranges bs' →
  has_edges bs (normal_edge f (starts bs)) →
  extends (λ k r t, (∃ span, span ∈ try_spans f ∧ span_edge f bs span k r t) ∨ finally_edge f bs r t) bs bs' →
  has_edges bs' (λ k b t kd, normal_edge f (starts bs') k b t kd ∨ handler_edge f (starts bs') b t kd).
Proof.
  intros Er He [_ Hx] k b' t kd Hb'. destruct (Hx k b' Hb') as (b & Hb & _ & [R1 R2] & ->).
  assert (starts bs = starts bs') as Es by (by rewrite !starts_ranges, Er).
  rewrite (He k b t kd Hb), <- Es. rewrite <- (handler_edge_iff f bs k b t).
  split; (intros [H|H]; [left|right]).
  - eapply normal_edge_range; [|done]. by split.
  - destruct H as [-> H]. eapply handler_edge_range; [|done]. by split.
  - eapply normal_edge_range; [|done]. by split.
  - pose proof (handler_edge_kind _ _ _ _ _ H) as ->. split; [done|].
    eapply handler_edge_range; [|done]. by split.
Qed.

Lemma sentinel_preds bs ps :
  Forall (λ b, preds b = []) bs → ps = (λ k, preds_of (bs ++ [mkBlock 0 0 [] []]) k (seq 0 (S (length bs)))) →
  let bs' := imap (more_preds ps) (bs ++ [mkBlock 0 0 [] []]) in
  ∀ k b, bs' !! k = Some b → preds b = preds_of bs' k (seq 0 (length bs')).
Proof.
  intros Hp -> bs' k b. unfold bs'. rewrite list_lookup_imap.
  destruct ((bs ++ [mkBlock 0 0 [] []]) !! k) as [b0|] eqn:Hb0; [|done]. intros [= <-]. simpl.
  replace (preds b0) with (@nil nat).
  - rewrite length_imap, length_app. simpl. rewrite Nat.add_1_r. apply preds_of_ext. intros i.
    rewrite list_lookup_imap. by destruct ((bs ++ [mkBlock 0 0 [] []]) !! i).
  - apply lookup_app_Some in Hb0 as [Hb0|[_ Hb0]].
    + rewrite Forall_lookup in Hp. symmetry. by eapply Hp.
    + apply list_lookup_singleton_Some in Hb0 as [_ <-]. done.
Qed.

(** Pass 4 keeps ranges and edges, and the predecessors it adds are right. *)
Lemma finalize_ok f bs :
  tiles (length (insts f)) bs → (∀ p, p ∈ starts bs ↔ head_at f p) → Forall (λ b, preds b = []) bs →
  has_edges bs (λ k b t kd, normal_edge f (starts bs) k b t kd ∨ handler_edge f (starts bs) b t kd) →
  ∃ g, finalize bs (length bs) = Ok g ∧ cfg_ok f g.
Proof.
  intros Ht Hh Hp He. unfold finalize. rewrite finalize_loop.
  2: { intros i b t _ Hb Ht0. rewrite length_app. simpl. apply lookup_app_Some in Hb as [Hb|[_ Hb]].
       - apply list_elem_of_fmap in Ht0 as ([t' kd] & -> & Hin). apply (He i b) in Hin; [|done].
         apply (edge_bound f bs i b) in Hin; [simpl; lia|done..].
       - apply list_lookup_singleton_Some in Hb as [_ <-]. by apply elem_of_nil in Ht0. }
  2: { apply Forall_forall. intros i Hi%elem_of_seq. lia. }
  cbn [res_bind]. eexists. split; [done|]. rewrite length_app, Nat.add_1_r.
  set (ps := λ k, preds_of _ k _). pose proof (sentinel_preds bs ps Hp eq_refl) as Hpreds.
  rewrite imap_app in *. set (rs := imap (more_preds ps) bs) in *.
  assert (length rs = length bs) as Hl by (unfold rs; by rewrite length_imap).
  assert (real_blocks (mkCfg (rs ++ imap (λ n, more_preds ps (length bs + n)) [mkBlock 0 0 [] []]) 0 (length bs)) = rs)
    as Hrs by (unfold real_blocks; simpl; by rewrite take_app_length').
  pose proof (more_preds_ranges ps bs) as Err. fold rs in Err.
  assert (starts bs = starts rs) as Ess by (by rewrite !starts_ranges, Err).
  constructor; rewrite ?Hrs; cbn [blocks entry exit].
  - done.
  - rewrite length_app, Hl. simpl. lia.
  - apply (tiles_ranges _ bs rs Err Ht).
  - by rewrite <- Ess.
  - exists (ps (length bs)). rewrite lookup_app_r, Hl by lia.
    rewrite Nat.sub_diag. simpl. unfold more_preds. simpl. by rewrite Nat.add_0_r.
  - rewrite <- Ess. apply more_preds_edges; [|done]. intros k b b' t kd Hr [H|H];
      [left; by eapply normal_edge_range | right; by eapply handler_edge_range].
  - exact Hpreds.
Qed.

Lemma build_cfg_spec f :
  insts f ≠ [] → labels_ok f → ∃ g, build_cfg f = Ok g ∧ cfg_ok f g.
Proof.
  intros Hne Hlab. unfold build_cfg. destruct (insts f) as [|i0 is0] eqn:Ei; [done|]. rewrite <- Ei in *. clear Hne Ei i0 is0.
  destruct (partition_ok f Hlab) as (heads & -> & Hm). simpl.
  destruct (split_ok f heads Hm) as (bs & -> & Ht & Hh & Hp & He). simpl.
  destruct (exception_edges_ok f bs Ht Hh) as (bs' & -> & Hx). simpl. pose proof Hx as [Er Hx'].
  rewrite (ranges_length _ _ Er). apply finalize_ok.
  - by eapply tiles_ranges.
  - intros p. by rewrite starts_ranges, <- Er, <- starts_ranges.
  - apply Forall_lookup. intros k b' Hb'. destruct (Hx' k b' Hb') as (b & Hb & -> & _).
    rewrite Forall_lookup in Hp. by eapply Hp.
  - by eapply combined_edges.
Qed.

(** ** When the build succeeds *)

Lemma mark_panics ps heads p :
  p ∈ ps → length heads <= p → fold_res (λ heads p, vec_set heads p true) ps heads = Panic.
Proof.
  revert heads. induction ps as [|q ps IH]; intros heads Hin Hp; [by apply elem_of_nil in Hin|].
  simpl. unfold vec_set at 1. case_decide; [|done]. simpl.
  apply elem_of_cons in Hin as [->|Hin]; [lia|]. apply IH; [done|]. by rewrite length_insert.
Qed.

Lemma partition_panics f : ¬ labels_ok f → partition_blocks f = Panic.
Proof.
  intros Hn. unfold partition_blocks. rewrite vec_set_lt by (rewrite length_replicate; lia).
  cbn [res_bind].
  destruct (decide (Exists (λ p, length (insts f) < p) (omap id (label_pos f)))) as [H|H].
  - apply Exists_exists in H as (p & Hin & Hp). erewrite mark_panics; [done|done|].
    rewrite length_insert, length_replicate. lia.
  - destruct Hn. intros p Hp. apply Nat.le_ngt. intros Hlt. apply H, Exists_exists.
    exists p. split; [|done]. apply list_elem_of_omap. by exists (Some p).
Qed.

Lemma build_cfg_inv f g : build_cfg f = Ok g → insts f = [] ∨ labels_ok f ∧ cfg_ok f g.
Proof.
  intros Hg. destruct (decide (insts f = [])) as [?|Hne]; [by left|]. right.
  destruct (decide (labels_ok f)) as [Hl|Hl].
  - destruct (build_cfg_spec f Hne Hl) as (g' & Hg' & Hok). rewrite Hg in Hg'. by injection Hg' as <-.
  - unfold build_cfg in Hg. rewrite (partition_panics f Hl) in Hg. by destruct (insts f).
Qed.

(** ** Protected regions *)

Definition opens (inst : Inst) (l : N) : Prop := i_op inst = TRY_BEGIN ∧ i_b inst = Label l.
Definition closes (inst : Inst) : Prop := i_op inst = TRY_END.

(** Code in which every [TRY_BEGIN] meets its [TRY_END]. *)
Inductive balanced : list Inst → Prop :=
  | balanced_nil : balanced []
  | balanced_other i is' :
      (∀ l, ¬ opens i l) → ¬ closes i → balanced is' → balanced (i :: is')
  | balanced_pair o l is1 c is2 :
      opens o l → balanced is1 → closes c → balanced is2 → balanced (o :: is1 ++ c :: is2).

(** [[p_begin, p_end)] is the body of the [TRY_BEGIN] at [p_begin], whose
    handler is at label [l]. *)
Definition protected (f : IRFunction) (p_begin p_end : nat) (l : N) : Prop :=
  ∃ pre o body c post, insts f = pre ++ o :: body ++ c :: post ∧
    length pre = p_begin ∧ p_end = S (p_begin + length body) ∧
    opens o l ∧ closes c ∧ balanced body.

Lemma balanced_app is1 is2 : balanced is1 → balanced is2 → balanced (is1 ++ is2).
Proof.
  intros H. revert is2. induction H as [|i is' Ho Hc _ IH|o l is1 c is2 Ho H1 IH1 Hc H2 IH2];
    intros is3 H3; simpl; [done|constructor; auto|].
  rewrite <- app_assoc. simpl. eapply balanced_pair; eauto.
Qed.

(** What the stack holds after [pre]: open brackets with balanced code after
    each. *)
Fixpoint stack_ok (pre : list Inst) (st : list (nat * N)) : Prop :=
  match st with
  | [] => True
  | (p_begin, l) :: st =>
      ∃ pre' o seg, pre = pre' ++ o :: seg ∧ length pre' = p_begin ∧ opens o l ∧
        balanced seg ∧ stack_ok pre' st
  end.

Lemma stack_ok_app pre st seg : balanced seg → stack_ok pre st → stack_ok (pre ++ seg) st.
Proof.
  intros Hs. destruct st as [|[pb l] st]; [done|]. simpl.
  intros (pre' & o & s & -> & Hl & Ho & Hb & Hst). exists pre', o, (s ++ seg).
  split_and!; [by rewrite <- app_assoc|done|done|by apply balanced_app|done].
Qed.

Lemma step_cases i st spans inst :
  (∃ l, opens inst l ∧ span_step (st, spans) (i, inst) = ((i, l) :: st, spans)) ∨
  (closes inst ∧ span_step (st, spans) (i, inst) =
     match st with (pb, l) :: st => (st, spans ++ [(pb, i, l)]) | [] => (st, spans) end) ∨
  ((∀ l, ¬ opens inst l) ∧ ¬ closes inst ∧ span_step (st, spans) (i, inst) = (st, spans)).
Proof.
  unfold span_step, opens, closes.
  destruct (decide (i_op inst = TRY_BEGIN)) as [E|E].
  { rewrite E. destruct (i_b inst); eauto 6; right; right; split_and!; try done; naive_solver. }
  destruct (decide (i_op inst = TRY_END)) as [E'|E'].
  { rewrite E'. right; left. split; [done|]. by destruct st as [|[]]. }
  right; right. split_and!; [naive_solver|done|]. destruct (i_op inst); done.
Qed.

(** The spans found are exactly the protected regions: soundness. *)
Lemma spans_protected is' st spans :
  fold_left span_step (enumerate is') ([], []) = (st, spans) →
  stack_ok is' st ∧ ∀ pb pe l, (pb, pe, l) ∈ spans →
    ∃ pre o body c post, is' = pre ++ o :: body ++ c :: post ∧
      length pre = pb ∧ pe = S (pb + length body) ∧ opens o l ∧ closes c ∧ balanced body.
Proof.
  revert st spans. induction is' as [|inst is' IH] using rev_ind; intros st spans H.
  { simpl in H. injection H as <- <-. split; [done|]. by intros ??? ?%elem_of_nil. }
  unfold enumerate in *. rewrite imap_app, fold_left_app in H.
  destruct (fold_left span_step (imap pair is') ([], [])) as [st0 sp0].
  destruct (IH st0 sp0 eq_refl) as [Hst Hsp]. clear IH. cbn [imap fold_left] in H.
  assert (∀ pb pe l, (pb, pe, l) ∈ sp0 → ∃ pre o body c post,
    is' ++ [inst] = pre ++ o :: body ++ c :: post ∧ length pre = pb ∧
    pe = S (pb + length body) ∧ opens o l ∧ closes c ∧ balanced body) as Hsp'.
  { intros pb pe l (pre & o & body & c & post & -> & H')%Hsp.
    exists pre, o, body, c, (post ++ [inst]). split; [|done].
    by rewrite <- app_assoc, app_comm_cons, <- app_assoc. }
  rewrite Nat.add_0_r in H.
  destruct (step_cases (length is') st0 sp0 inst) as [(l & Ho & E)|[[Hc E]|(Ho & Hc & E)]];
    rewrite E in H.
  - injection H as <- <-. split; [|done]. simpl. exists is', inst, []. split_and!; [done..|constructor|done].
  - destruct st0 as [|[pb l] st0]; injection H as <- <-; [split; [done|done]|].
    simpl in Hst. destruct Hst as (pre & o & seg & -> & Hl & Ho & Hb & Hst).
    split.
    + rewrite <- app_assoc. apply stack_ok_app; [|done]. simpl.
      eapply balanced_pair; [done..|constructor].
    + intros pb' pe l' Hin. apply elem_of_app in Hin as [Hin|Hin]; [by apply Hsp'|].
      apply list_elem_of_singleton in Hin as [= -> -> ->].
      exists pre, o, seg, inst, []. split_and!; [by rewrite <- app_assoc|done| |done..].
      rewrite length_app. simpl. lia.
  - injection H as <- <-. split; [|done]. apply stack_ok_app; [|done].
    by repeat constructor.
Qed.

(** Completeness: a balanced segment returns to the stack it started with. *)
Lemma balanced_fold seg n st spans :
  balanced seg →
  ∃ new, fold_left span_step (imap (λ i x, (n + i, x)) seg) (st, spans) = (st, spans ++ new).
Proof.
  intros H. revert n st spans.
  induction H as [|i is' Ho Hc _ IH|o l is1 c is2 Ho H1 IH1 Hc H2 IH2]; intros n st spans.
  - exists []. simpl. by rewrite app_nil_r.
  - cbn [imap fold_left].
    destruct (step_cases (n + 0) st spans i) as [(l & Ho' & _)|[[Hc' _]|(_ & _ & ->)]];
      [by destruct (Ho l)|done|].
    destruct (IH (S n) st spans) as [new E]. exists new. rewrite <- E. f_equal. apply imap_ext.
    intros j x _. simpl. f_equal. lia.
  - cbn [imap fold_left]. rewrite imap_app, fold_left_app.
    destruct (step_cases (n + 0) st spans o) as [(l' & Ho' & ->)|[[Hc' _]|(Ho' & _)]];
      [|unfold opens, closes in *; destruct Ho; congruence|by destruct (Ho' l)].
    destruct (IH1 (S n) ((n + 0, l') :: st) spans) as [new1 E1].
    replace (imap ((λ i x, (n + i, x)) ∘ S) is1) with (imap (λ i x, (S n + i, x)) is1).
    2: { apply imap_ext. intros j x _. simpl. f_equal. lia. }
    rewrite E1. cbn [imap fold_left compose].
    match goal with |- context [span_step _ (?m, c)] =>
      destruct (step_cases m ((n + 0, l') :: st) (spans ++ new1) c) as [(l2 & Ho2 & _)|[[_ ->]|(_ & Hc' & _)]] end;
      [unfold opens, closes in *; destruct Ho2; congruence| |done].
    match goal with |- context [fold_left _ _ (_, ?sp)] =>
      destruct (IH2 (S (n + S (length is1))) st sp) as [new2 E2] end.
    eexists. erewrite imap_ext, E2; [by rewrite <- !app_assoc|].
    intros j x _. simpl. f_equal. lia.
Qed.

Lemma spans_mono iis st spans x :
  x ∈ spans → x ∈ (fold_left span_step iis (st, spans)).2.
Proof.
  revert st spans. induction iis as [|[i inst] iis IH]; intros st spans Hx; [done|]. cbn [fold_left].
  destruct (step_cases i st spans inst) as [(l & _ & ->)|[[_ ->]|(_ & _ & ->)]]; [by apply IH| |by apply IH].
  destruct st as [|[pb l] st]; apply IH; set_solver.
Qed.

Lemma try_spans_iff f pb pe l : (pb, pe, l) ∈ try_spans f ↔ protected f pb pe l.
Proof.
  unfold try_spans. split.
  - destruct (fold_left span_step (enumerate (insts f)) ([], [])) as [st spans] eqn:E.
    apply spans_protected in E as [_ H]. apply H.
  - intros (pre & o & body & c & post & -> & <- & -> & Ho & Hc & Hb).
    unfold enumerate. rewrite imap_app, fold_left_app.
    destruct (fold_left span_step (imap pair pre) ([], [])) as [st0 sp0].
    cbn [imap fold_left].
    destruct (step_cases (length pre + 0) st0 sp0 o) as [(l' & Ho' & ->)|[[Hc' _]|(Ho' & _)]];
      [|unfold opens, closes in *; destruct Ho; congruence|by destruct (Ho' l)].
    assert (l' = l) as -> by (unfold opens in *; destruct Ho, Ho'; congruence).
    rewrite imap_app, fold_left_app.
    destruct (balanced_fold body (S (length pre)) ((length pre + 0, l) :: st0) sp0 Hb) as [new E].
    match goal with |- context [imap ?g body] =>
      replace (imap g body) with (imap (λ i x, (S (length pre) + i, x)) body) end.
    2: { apply imap_ext. intros j x _. simpl. f_equal. lia. }
    rewrite E. cbn [imap fold_left compose].
    match goal with |- context [span_step _ (?m, c)] =>
      destruct (step_cases m ((length pre + 0, l) :: st0) (sp0 ++ new) c)
        as [(l2 & Ho2 & _)|[[_ ->]|(_ & Hc' & _)]] end;
      [unfold opens, closes in *; destruct Ho2; congruence| |done].
    apply spans_mono. apply elem_of_app. right. apply list_elem_of_singleton.
    simpl. do 2 f_equal; lia.
Qed.

(** ** Control transfers of single instructions *)

(** Execution may continue at [j] after instruction [i]: by falling through,
    by jumping, or by an exception raised in a protected region.  A
    [TRY_FINALLY_BEGIN] marker is taken to lead to its handler too, the
    approximation of exception.rs; the transfers into a [finally] that happen
    at run time are those of [transfer] below. *)
Inductive flow (f : IRFunction) : nat → nat → Prop :=
  | flow_next i inst :
      insts f !! i = Some inst →
      is_terminator (i_op inst) = false ∨ cond_jump (i_op inst) = true → flow f i (S i)
  | flow_jump i inst p :
      insts f !! i = Some inst → splits_block (i_op inst) = true → jump_to f inst p → flow f i p
  | flow_catch i p_begin p_end l p :
      protected f p_begin p_end l → p_begin <= i < p_end → label_target f l = Some p → flow f i p
  | flow_finally i inst p :
      insts f !! i = Some inst → i_op inst = TRY_FINALLY_BEGIN → jump_to f inst p → flow f i p.

(** Instruction [i] lies in the body of the [finally] handler at [p] that the
    marker at [m] opens: the [try] body and the [catch] clause are laid out
    between the two. *)
Definition finally_body (f : IRFunction) (m p i : nat) : Prop :=
  ∃ inst, insts f !! m = Some inst ∧ i_op inst = TRY_FINALLY_BEGIN ∧ jump_to f inst p ∧ m <= i < p.

(** The transfers of an execution: those of [flow], and the entry of a
    [finally] from any instruction of its body, by an exception that nothing
    else catches or by a [RETURN], [BREAK] or [CONTINUE] that leaves it. *)
Definition transfer (f : IRFunction) (i j : nat) : Prop := flow f i j ∨ ∃ m, finally_body f m j i.

Definition in_block (b : BasicBlock) (i : nat) : Prop := range_start b <= i < range_end b.

Section flow.
Context (f : IRFunction) (g : Cfg) (Hok : cfg_ok f g).

Lemma jump_to_start inst p : jump_to f inst p → p ∈ starts (real_blocks g).
Proof.
  intros (l & _ & Hp). apply (ok_heads _ _ Hok). right; left. by eapply label_target_pos.
Qed.

Lemma last_of_block k b i inst :
  real_blocks g !! k = Some b → in_block b i → insts f !! i = Some inst → range_end b = S i →
  last_inst f b inst.
Proof.
  intros Hb [H1 H2] Hi He. split; [lia|]. rewrite <- Hi. f_equal. lia.
Qed.

Lemma jump_ends_block k b i inst :
  real_blocks g !! k = Some b → in_block b i → insts f !! i = Some inst →
  splits_block (i_op inst) = true → range_end b = S i.
Proof.
  intros Hb [H1 H2] Hi Hs.
  assert (range_end b <= S i); [|lia].
  apply (tiles_head_end _ _ (ok_tiles _ _ Hok) k b); [done| |lia].
  apply (ok_heads _ _ Hok). right; right. eauto.
Qed.

(** A covered transfer: inside the block, or along an edge to the block that
    starts at the destination. *)
Definition covered (b : BasicBlock) (i j : nat) : Prop :=
  j = S i ∧ j < range_end b ∨
  ∃ t kd b', (t, kd) ∈ succs b ∧ real_blocks g !! t = Some b' ∧ range_start b' = j.

Lemma covered_edge k b i t j kd :
  real_blocks g !! k = Some b → starts (real_blocks g) !! t = Some j →
  normal_edge f (starts (real_blocks g)) k b t kd ∨
    handler_edge f (starts (real_blocks g)) b t kd → covered b i j.
Proof.
  intros Hb Hs He. apply starts_lookup_block in Hs as (b' & Hb' & Hs).
  right. exists t, kd, b'. split; [|done]. by apply (ok_edges _ _ Hok k b).
Qed.

Lemma flow_covered i j k b :
  flow f i j → j < length (insts f) → real_blocks g !! k = Some b → in_block b i → covered b i j.
Proof.
  intros Hf Hj Hb Hin.
  destruct Hf as [i inst Hi Hnext|i inst p Hi Hs Hp|i pb pe l p Hpr Hi Hp|i inst p Hi Hop Hp].
  - destruct (decide (S i < range_end b)) as [Hlt|Hge]; [by left|].
    assert (range_end b = S i) as He by (destruct Hin; lia).
    pose proof (last_of_block k b i inst Hb Hin Hi He) as Hl.
    assert (starts (real_blocks g) !! S k = Some (S i)) as Hs.
    { pose proof (tiles_end _ _ (ok_tiles _ _ Hok) k b Hb) as E. rewrite He in E.
      destruct (starts (real_blocks g) !! S k); simpl in E; [congruence|lia]. }
    apply (covered_edge k b i (S k) (S i) Fallthrough Hb Hs). left.
    destruct Hnext as [Hn|Hc]; [|by eapply edge_cond].
    eapply edge_next; [done..|]. by eapply lookup_lt_Some.
  - pose proof (jump_ends_block k b i inst Hb Hin Hi Hs) as He.
    apply jump_to_start in Hp as Hst. apply list_elem_of_lookup in Hst as [t Ht].
    apply (covered_edge k b i t p Jump Hb Ht). left.
    eapply edge_jump; [by eapply last_of_block|done..].
  - assert (p ∈ starts (real_blocks g)) as [t Ht]%list_elem_of_lookup.
    { apply (ok_heads _ _ Hok). right; left. by eapply label_target_pos. }
    apply (covered_edge k b i t p Exception Hb Ht). right.
    apply try_spans_iff in Hpr. destruct Hin. eapply edge_catch; [done..|lia|lia|done].
  - apply jump_to_start in Hp as Hst. apply list_elem_of_lookup in Hst as [t Ht].
    apply (covered_edge k b i t p Exception Hb Ht). right. by eapply edge_finally.
Qed.

(** The marker and its handler. *)
Lemma finally_covered m i j k b :
  finally_body f m j i → j < length (insts f) → real_blocks g !! k = Some b → in_block b i →
  covered b i j ∨ m < range_start b.
Proof.
  intros (inst & Hm & Hop & Hp & Hmi) Hj Hb Hin. destruct (decide (m < range_start b)) as [?|Hge]; [by right|left].
  apply jump_to_start in Hp as Hst. apply list_elem_of_lookup in Hst as [t Ht].
  apply (covered_edge k b i t j Exception Hb Ht). right. destruct Hin.
  eapply (edge_finally _ _ _ m); [lia|done..].
Qed.

Lemma protected_range pb pe l : protected f pb pe l → pb < pe < length (insts f).
Proof.
  intros (pre & o & body & c & post & -> & <- & -> & _).
  rewrite length_app. simpl. rewrite length_app. simpl. lia.
Qed.

Lemma edge_flow k b t kd :
  real_blocks g !! k = Some b → (t, kd) ∈ succs b →
  (t = exit g ∧ kd = Fallthrough ∧
     ∃ inst, last_inst f b inst ∧ (i_op inst = RETURN ∨ i_op inst = HALT)) ∨
  ∃ i b', in_block b i ∧ real_blocks g !! t = Some b' ∧ flow f i (range_start b').
Proof.
  intros Hb [He|He]%(ok_edges _ _ Hok k b t kd Hb).
  - assert (length (starts (real_blocks g)) = exit g) as Hlen.
    { rewrite length_fmap. unfold real_blocks. rewrite length_take, (ok_length _ _ Hok). lia. }
    assert (∀ inst, last_inst f b inst → in_block b (range_end b - 1) ∧
              insts f !! (range_end b - 1) = Some inst) as Hlast.
    { intros inst [H1 H2]. split; [split; lia|done]. }
    destruct He as [inst p t' Hl Hs Hp Ht|inst Hl Hn Hlt|inst Hl Hc|inst Hl Hr].
    + right. apply Hlast in Hl as [Hin Hi]. apply starts_lookup_block in Ht as (b' & Hb' & <-).
      exists (range_end b - 1), b'. split_and!; [apply Hin..|done|]. by eapply flow_jump.
    + right. destruct (lookup_lt_is_Some_2 (starts (real_blocks g)) (S k)) as [s Hs]; [lia|].
      pose proof (tiles_end _ _ (ok_tiles _ _ Hok) k b Hb) as E. rewrite Hs in E. simpl in E.
      apply Hlast in Hl as [Hin Hi]. apply starts_lookup_block in Hs as (b' & Hb' & Hs).
      exists (range_end b - 1), b'. split_and!; [apply Hin..|done|].
      replace (range_start b') with (S (range_end b - 1)) by (destruct Hin; lia).
      eapply flow_next; eauto.
    + right. pose proof (after_jump f _ (ok_tiles _ _ Hok) (ok_heads _ _ Hok) k b inst Hb Hl (cond_splits _ Hc)) as Hs.
      apply Hlast in Hl as [Hin Hi]. apply starts_lookup_block in Hs as (b' & Hb' & Hs).
      exists (range_end b - 1), b'. split_and!; [apply Hin..|done|].
      replace (range_start b') with (S (range_end b - 1)) by (destruct Hin; lia).
      eapply flow_next; eauto.
    + left. split_and!; [done..|]. eauto.
  - right. pose proof (tiles_range _ _ (ok_tiles _ _ Hok) k b Hb) as Hr.
    destruct He as [pb pe l p t' Hin Hp H1 H2 Ht|i inst p t' Hi Hinst Hop Hp Ht].
    + apply try_spans_iff in Hin. pose proof (protected_range _ _ _ Hin).
      pose proof (tiles_nonempty _ _ (ok_tiles _ _ Hok) k b Hb).
      apply starts_lookup_block in Ht as (b' & Hb' & <-).
      exists (max (range_start b) pb), b'. split_and!; [split; lia|done|].
      eapply flow_catch; [done|lia|done].
    + apply starts_lookup_block in Ht as (b' & Hb' & <-).
      exists i, b'. split_and!; [apply Hi..|done|]. by eapply flow_finally.
Qed.
End flow.

(** ** Properties *)

(** Building the control-flow graph succeeds exactly on the functions
    whose labels point at an instruction or at the end of the code; in
    particular none of the indexings of its four passes is out of range on
    such a function. *)
Theorem build_cfg_succeeds_iff f :
  is_ok (build_cfg f) ↔ insts f = [] ∨ labels_ok f.
Proof.
  split.
  - intros [g [?|[? _]]%build_cfg_inv]; auto.
  - destruct (decide (insts f = [])) as [E|Hne]; intros [H|H]; try done.
    + unfold build_cfg. rewrite E. by eexists.
    + unfold build_cfg. rewrite E. by eexists.
    + destruct (build_cfg_spec f Hne H) as (g & -> & _). by eexists.
Qed.

(** The blocks before the exit sentinel partition the instructions: every
    instruction is in exactly one block, every label points at the start of a
    block, and a jump is always the last instruction of its block. *)
Theorem build_cfg_partition f g :
  build_cfg f = Ok g → insts f ≠ [] →
  (∀ i, i < length (insts f) → ∃ k b, real_blocks g !! k = Some b ∧ in_block b i ∧
     ∀ k' b', real_blocks g !! k' = Some b' → in_block b' i → k' = k) ∧
  (∀ l p, label_target f l = Some p → ∃ b, b ∈ real_blocks g ∧ range_start b = p) ∧
  (∀ k b i inst, real_blocks g !! k = Some b → in_block b i → insts f !! i = Some inst →
     splits_block (i_op inst) = true → range_end b = S i).
Proof.
  intros [?|[_ Hok]]%build_cfg_inv Hne; [done|]. split_and!.
  - intros i Hi. destruct (tiles_cover _ _ (ok_tiles _ _ Hok) i Hi) as (k & b & Hb & Hin).
    exists k, b. split_and!; [done|apply Hin..|]. intros k' b' Hb' Hin'.
    by eapply (tiles_unique _ _ (ok_tiles _ _ Hok)).
  - intros l p Hp. assert (p ∈ starts (real_blocks g)) as (b & -> & Hb)%list_elem_of_fmap; [|eauto].
    apply (ok_heads _ _ Hok). right; left. by eapply label_target_pos.
  - intros k b i inst. by apply jump_ends_block.
Qed.


(** The graph has no other edges: each edge goes to the exit sentinel
    from a block ending in [RETURN] or [HALT], or to a block start that some
    instruction of the source block can transfer to. *)
Theorem build_cfg_edges f g k b t kd :
  build_cfg f = Ok g → insts f ≠ [] → real_blocks g !! k = Some b → (t, kd) ∈ succs b →
  (t = exit g ∧ kd = Fallthrough ∧
     ∃ inst, last_inst f b inst ∧ (i_op inst = RETURN ∨ i_op inst = HALT)) ∨
  ∃ i b', in_block b i ∧ real_blocks g !! t = Some b' ∧ flow f i (range_start b').
Proof.
  intros [E|[_ Hok]]%build_cfg_inv Hne; [done|]. by apply edge_flow.
Qed.

(** Predecessor lists are the exact inverse of the successor lists: block
    [i] occurs in the predecessors of [k] as often as [k] occurs among the
    successors of [i], and nothing else occurs. *)
Theorem build_cfg_preds f g k b :
  build_cfg f = Ok g → insts f ≠ [] → blocks g !! k = Some b →
  preds b = preds_of (blocks g) k (seq 0 (length (blocks g))) ∧
  ∀ i, i ∈ preds b ↔ ∃ b' kd, blocks g !! i = Some b' ∧ (k, kd) ∈ succs b'.
Proof.
  intros [E|[_ Hok]]%build_cfg_inv Hne Hb; [done|].
  rewrite (ok_preds _ _ Hok k b Hb). split; [done|]. intros i. rewrite preds_of_elem.
  split; [by intros [_ ?]|]. intros (b' & kd & Hb' & Hin). split; [|eauto].
  apply elem_of_seq. apply lookup_lt_Some in Hb'. lia.
Qed.

(** A function with a loop, a [try] and a handler. *)
Definition sample_try : IRFunction :=
  with_code ir_new
    [MkInst.try_begin 0%N;
     MkInst.jmp_if_false 1 1%N;
     MkInst.call (Reg 2) (Reg 3) (Reg 4) 1;
     MkInst.new TRY_END ONone ONone ONone;
     MkInst.ret (Reg 1) 0 0 0;
     MkInst.ret (Reg 0) 0 0 0]
    [Some 5; Some 3].

Definition sample_try_cfg : Cfg :=
  match build_cfg sample_try with Ok g => g | _ => cfg_new end.

Example sample_try_blocks :
  (λ b, (range_start b, range_end b, succs b)) <$> blocks sample_try_cfg =
  [(0, 2, [(2, Jump); (1, Fallthrough); (3, Exception)]);
   (2, 3, [(2, Fallthrough); (3, Exception)]);
   (3, 5, [(4, Fallthrough)]);
   (5, 6, [(4, Fallthrough)]);
   (0, 0, [])].
Proof. vm_compute. reflexivity. Qed.

Lemma build_cfg_partition_witness :
  build_cfg sample_try = Ok sample_try_cfg ∧ insts sample_try ≠ [] ∧
  ∃ k b, real_blocks sample_try_cfg !! k = Some b ∧ in_block b 4 ∧
    ∀ k' b', real_blocks sample_try_cfg !! k' = Some b' → in_block b' 4 → k' = k.
Proof.
  split; [reflexivity|]. split; [discriminate|].
  apply (build_cfg_partition sample_try sample_try_cfg); [reflexivity | discriminate |].
  apply Nat.ltb_lt. reflexivity.
Defined.

(** The transfer of the witness: the call at [2] raises and the handler at
    [5] runs. *)
Lemma sample_try_raises : flow sample_try 2 5.
Proof.
  apply (flow_catch sample_try 2 0 3 0%N 5); [|lia|reflexivity].
  exists [], (MkInst.try_begin 0%N), [MkInst.jmp_if_false 1 1%N; MkInst.call (Reg 2) (Reg 3) (Reg 4) 1],
    (MkInst.new TRY_END ONone ONone ONone), [MkInst.ret (Reg 1) 0 0 0; MkInst.ret (Reg 0) 0 0 0].
  split_and!; try reflexivity; [by split|].
  apply balanced_other; [by intros l [] | discriminate |].
  apply balanced_other; [by intros l [] | discriminate | constructor].
Qed.


(** A [try] with a [finally]: [x = a; try { if (c) { x = b; return d } } finally { f(x) }]. *)
Definition return_in_finally : IRFunction :=
  with_code ir_new
    [MkInst.new STORE_VAR (Reg 1) (Reg 2) (Imm 0);
     MkInst.try_finally_begin 0%N;
     MkInst.jmp_if_false 9 1%N;
     MkInst.new STORE_VAR (Reg 1) (Reg 3) (Imm 0);
     MkInst.ret (Reg 4) 0 0 0;
     MkInst.jmp 0%N;
     MkInst.new TRY_FINALLY_ENTER ONone ONone ONone;
     MkInst.call (Reg 5) (Reg 6) (Reg 1) 1;
     MkInst.new TRY_FINALLY_END ONone ONone ONone;
     MkInst.ret (Reg 5) 0 0 0]
    [Some 6; Some 5].

(** Entries of a [finally] from later blocks of its body are not edges: the
    [RETURN] at [4] runs the handler at [6] first, and its block has an edge to
    the exit only. *)
Theorem finally_entry_uncovered :
  ∃ g b, build_cfg return_in_finally = Ok g ∧ real_blocks g !! 1 = Some b ∧ in_block b 4 ∧
    transfer return_in_finally 4 6 ∧ ¬ covered g b 4 6.
Proof.
  eexists _, _. split; [vm_compute; reflexivity|]. split; [vm_compute; reflexivity|]. split; [split; apply Nat.leb_le; reflexivity|]. split.
  - right. exists 1, (MkInst.try_finally_begin 0%N). split_and!; [done..|by exists 0%N|lia|lia].
  - intros [[? _]|(t & kd & b' & Ht & Hb & Hs)]; [done|]. apply list_elem_of_singleton in Ht as [= -> ->]. vm_compute in Hb. discriminate Hb.
Qed.

Lemma build_cfg_edges_witness :
  (3 = exit sample_try_cfg ∧ Exception = Fallthrough ∧
     ∃ inst, last_inst sample_try (mkBlock 2 3 [0] [(2, Fallthrough); (3, Exception)]) inst ∧
       (i_op inst = RETURN ∨ i_op inst = HALT)) ∨
  ∃ i b', in_block (mkBlock 2 3 [0] [(2, Fallthrough); (3, Exception)]) i ∧
    real_blocks sample_try_cfg !! 3 = Some b' ∧ flow sample_try i (range_start b').
Proof.
  apply (build_cfg_edges sample_try sample_try_cfg 1); [reflexivity | discriminate | reflexivity |].
  simpl. right. left.
Defined.

Lemma build_cfg_preds_witness :
  preds (mkBlock 5 6 [0; 1] [(4, Fallthrough)]) = preds_of (blocks sample_try_cfg) 3 (seq 0 5) ∧
  ∀ i, i ∈ preds (mkBlock 5 6 [0; 1] [(4, Fallthrough)]) ↔
    ∃ b' kd, blocks sample_try_cfg !! i = Some b' ∧ (3, kd) ∈ succs b'.
Proof.
  apply (build_cfg_preds sample_try sample_try_cfg 3); [reflexivity | discriminate | reflexivity].
Defined.
