(* ===== verification/Liveness.v ===== *)
(** * Liveness analysis (crates/oxide_liveness/src)

    Bit sets of registers as vectors of 64-bit words, block-level data flow
    iterated to a fixed point in reverse postorder, and a backward scan of
    each block for the sets before and after every instruction. *)

From stdpp Require Import base tactics numbers list option sets.
From Stdlib Require Import NArith ZArith Lia.
From S2P Require Import Prelude Opcode IR Contract Cfg.
#[local] Set Warnings "-clear-no-such-hyp".

Open Scope nat_scope.

(** ** Bit sets *)

(** The word of register [r] and its bit in that word. *)
Definition word_of (r : N) : nat := N.to_nat (N.shiftr r 6).
Definition bit_of (r : N) : N := N.land r 63.

Definition bitset_get (bitset : list N) (r : N) : bool :=
  match bitset !! word_of r with
  | Some w => (N.land (N.shiftr w (bit_of r)) 1 =? 1)%N
  | None => false
  end.

Definition bitset_set (bitset : list N) (r : N) : res (list N) :=
  let* w := vec_get bitset (word_of r) in
  vec_set bitset (word_of r) (N.lor w (N.shiftl 1 (bit_of r))).

(** [w & !(1 << b)] on 64-bit words. *)
Definition bitset_clear (bitset : list N) (r : N) : res (list N) :=
  let* w := vec_get bitset (word_of r) in
  vec_set bitset (word_of r) (N.ldiff w (N.shiftl 1 (bit_of r))).

Record LiveInfo := mkLiveInfo {
  block_live_in : list (list N);
  block_live_out : list (list N);
  inst_live_before : list N;
  inst_live_after : list N;
  li_words : nat;
}.

(** [LiveInfo::new]. *)
Definition live_info_new : LiveInfo := mkLiveInfo [] [] [] [] 0.

(** ** Block summaries *)

(** The largest register an instruction defines or reads, starting from [255]. *)
Definition max_reg_of (m : N) (inst : Inst) : N :=
  let m := match def_reg inst with Some d => N.max m d | None => m end in
  fold_left N.max (use_regs inst) m.

Definition reg_count (f : IRFunction) : N := fold_left max_reg_of (insts f) 255%N.

(** [(reg_count + 1).div_ceil(64)]. *)
Definition words_for (rc : N) : nat := N.to_nat ((rc + 1 + 63) / 64).

(** One instruction of a backward scan: [live = (live - def) + use]. *)
Definition scan_inst (f : IRFunction) (live : list N) (i : nat) : res (list N) :=
  let* inst := vec_get (insts f) i in
  let* live := match def_reg inst with Some d => bitset_clear live d | None => Ok live end in
  fold_res bitset_set (use_regs inst) live.

(** The instruction indices of a block, forwards. *)
Definition block_indices (b : BasicBlock) : list nat :=
  seq (range_start b) (range_end b - range_start b).

Definition kill_inst (f : IRFunction) (kill : list N) (i : nat) : res (list N) :=
  let* inst := vec_get (insts f) i in
  match def_reg inst with Some d => bitset_set kill d | None => Ok kill end.

Definition exception_target_blocks (g : Cfg) : res (list bool) :=
  fold_res (λ targets b,
      fold_res (λ targets e,
          if decide (e.2 = Exception) then vec_set targets e.1 true else Ok targets)
        (succs b) targets)
    (blocks g) (replicate (length (blocks g)) false).

(** The [gen] and [kill] sets of block [b]; the entry of a handler writes
    register 0. *)
Definition block_summary (f : IRFunction) (words : nat) (exc_targets : list bool)
    (ib : nat * BasicBlock) : res (list N * list N) :=
  let '(b, block) := ib in
  let* gen := fold_res (scan_inst f) (rev (block_indices block)) (replicate words 0%N) in
  let* kill := fold_res (kill_inst f) (block_indices block) (replicate words 0%N) in
  let* exc := vec_get exc_targets b in
  if exc : bool then
    let* gen := bitset_clear gen 0 in
    let* kill := bitset_set kill 0 in
    Ok (gen, kill)
  else Ok (gen, kill).

(** ** Reverse postorder *)

(** The recursion visits each block once, so the number of blocks bounds its
    depth. *)
Fixpoint dfs (fuel : nat) (g : Cfg) (st : list bool * list nat) (b : nat)
    : res (list bool * list nat) :=
  match fuel with
  | O => Panic
  | S fuel =>
      let* visited := vec_set st.1 b true in
      let* block := vec_get (blocks g) b in
      let* (visited, postorder) :=
        fold_res (λ st e,
            let* seen := vec_get st.1 e.1 in
            if seen : bool then Ok st else dfs fuel g st e.1)
          (succs block) (visited, st.2) in
      Ok (visited, postorder ++ [b])
  end.

Definition reverse_postorder (g : Cfg) : res (list nat) :=
  let n := length (blocks g) in
  let* (visited, postorder) := dfs n g (replicate n false, []) (entry g) in
  Ok (rev postorder ++ (filter (λ bv, bv.2 = false) (enumerate visited)).*1).

(** ** Fixed point *)

Definition or_words (out si : list N) : res (list N) :=
  map_res (λ iw, let* w := vec_get si iw.1 in Ok (N.lor iw.2 w)) (enumerate out).

(** [input[w] = gen[w] | (out[w] & !kill[w])]. *)
Definition transfer_words (words : nat) (gen kill out : list N) : res (list N) :=
  map_res (λ w, let* x := vec_get gen w in let* o := vec_get out w in
                let* k := vec_get kill w in Ok (N.lor x (N.ldiff o k)))
    (seq 0 words).

(** The state of the iteration: the [live_in] and [live_out] vectors. *)
Definition flow_state : Type := list (list N) * list (list N).

(** One block of a round, with the [changed] flag. *)
Definition round_block (g : Cfg) (words : nat) (sums : list (list N * list N))
    (st : flow_state * bool) (b : nat) : res (flow_state * bool) :=
  let '(live_in, live_out, changed) := st in
  let* block := vec_get (blocks g) b in
  let* out := fold_res (λ out e, let* si := vec_get live_in e.1 in or_words out si)
                (succs block) (replicate words 0%N) in
  let* (gen, kill) := vec_get sums b in
  let* input := transfer_words words gen kill out in
  let* old_in := vec_get live_in b in
  let* old_out := vec_get live_out b in
  if decide (input ≠ old_in ∨ out ≠ old_out) then
    let* live_in := vec_set live_in b input in
    let* live_out := vec_set live_out b out in
    Ok ((live_in, live_out), true)
  else Ok ((live_in, live_out), changed).

Definition round (g : Cfg) (words : nat) (sums : list (list N * list N)) (rpo : list nat)
    (st : flow_state) : res (flow_state * bool) :=
  fold_res (round_block g words sums) rpo (st, false).

(** The loop, bounded by the number of rounds the source asserts. *)
Fixpoint iterate (fuel : nat) (g : Cfg) (words : nat) (sums : list (list N * list N))
    (rpo : list nat) (st : flow_state) : res flow_state :=
  match fuel with
  | O => Panic
  | S fuel =>
      let* (st, changed) := round g words sums rpo st in
      if changed : bool then iterate fuel g words sums rpo st else Ok st
  end.

Definition max_rounds (g : Cfg) : nat := length (blocks g) * 2 + 16.

Definition block_liveness (f : IRFunction) (g : Cfg) : res (flow_state * N) :=
  let rc := reg_count f in
  let words := words_for rc in
  let n := length (blocks g) in
  let* exc_targets := exception_target_blocks g in
  let* sums := map_res (block_summary f words exc_targets) (enumerate (blocks g)) in
  let* rpo := reverse_postorder g in
  let zero := replicate n (replicate words 0%N) in
  let* st := iterate (max_rounds g) g words sums rpo (zero, zero) in
  Ok (st, rc).

(** ** Sets of single instructions *)

(** [dst[i * words..(i + 1) * words].copy_from_slice(src)]. *)
Definition copy_row (words : nat) (dst : list N) (i : nat) (src : list N) : res (list N) :=
  if decide ((i + 1) * words <= length dst ∧ length src = words)
  then Ok (take (i * words) dst ++ src ++ drop ((i + 1) * words) dst)
  else Panic.

(** One instruction of the backward scan of a block. *)
Definition row_step (f : IRFunction) (words : nat) (st : list N * (list N * list N)) (i : nat)
    : res (list N * (list N * list N)) :=
  let '(live, (before, after)) := st in
  let* after := copy_row words after i live in
  let* live := scan_inst f live i in
  let* before := copy_row words before i live in
  Ok (live, (before, after)).

(** The rows of block [b], and the set at its entry. *)
Definition block_rows (f : IRFunction) (words : nat) (live_out : list (list N))
    (exc_targets : list bool) (rows : list N * list N) (ib : nat * BasicBlock)
    : res (list N * (list N * list N)) :=
  let* live := vec_get live_out ib.1 in
  let* (live, rows) := fold_res (row_step f words) (rev (block_indices ib.2)) (live, rows) in
  let* exc := vec_get exc_targets ib.1 in
  let* live := if exc : bool then bitset_clear live 0 else Ok live in
  Ok (live, rows).

Definition inst_liveness (f : IRFunction) (g : Cfg) (live_out : list (list N)) (rc : N)
    : res (list N * list N) :=
  let words := words_for rc in
  let zero := replicate (length (insts f) * words) 0%N in
  let* exc_targets := exception_target_blocks g in
  fold_res (λ rows ib,
      let* (_, rows) := block_rows f words live_out exc_targets rows ib in Ok rows)
    (enumerate (blocks g)) (zero, zero).

Definition liveness (f : IRFunction) (g : Cfg) : res LiveInfo :=
  match insts f with
  | [] => Ok live_info_new
  | _ =>
      let* (live_in, live_out, rc) := block_liveness f g in
      let* (before, after) := inst_liveness f g live_out rc in
      Ok (mkLiveInfo live_in live_out before after (words_for rc))
  end.

(** The row of instruction [i]. *)
Definition live_row (info : LiveInfo) (rows : list N) (i : nat) : list N :=
  take (li_words info) (drop (i * li_words info) rows).

(** ** Bit sets represent sets of registers *)

(** A vector of [words] 64-bit words. *)
Definition wf_bits (words : nat) (s : list N) : Prop :=
  length s = words ∧ Forall (λ w, (w < 2^64)%N) s.

(** [s] is the set [P], all of whose members fit. *)
Definition repr (words : nat) (s : list N) (P : N → Prop) : Prop :=
  wf_bits words s ∧ ∀ r, bitset_get s r = true ↔ P r.

Lemma bitset_get_testbit s r :
  bitset_get s r = match s !! word_of r with Some w => N.testbit w (bit_of r) | None => false end.
Proof.
  unfold bitset_get. destruct (s !! word_of r) as [w|]; [|done].
  rewrite N.testbit_odd, <- N.bit0_odd. change 1%N with (N.ones 1) at 1. rewrite N.land_ones.
  change (2^1)%N with 2%N. rewrite <- N.bit0_mod. by destruct (N.testbit _ 0).
Qed.

Lemma reg_split r : r = (64 * N.of_nat (word_of r) + bit_of r)%N.
Proof.
  unfold word_of, bit_of. change 63%N with (N.ones 6). rewrite N2Nat.id, N.land_ones, N.shiftr_div_pow2.
  change (2^6)%N with 64%N. apply N.div_mod. done.
Qed.

Lemma reg_inj r r' : word_of r = word_of r' → bit_of r = bit_of r' → r = r'.
Proof. intros E1 E2. rewrite (reg_split r), (reg_split r'). congruence. Qed.

Lemma bit_of_lt r : (bit_of r < 64)%N.
Proof.
  unfold bit_of. change 63%N with (N.ones 6). rewrite N.land_ones. by apply N.mod_lt.
Qed.

Lemma word_of_reg w b : (b < 64)%N → word_of (64 * N.of_nat w + b) = w ∧ bit_of (64 * N.of_nat w + b) = b.
Proof.
  intros Hb. unfold word_of, bit_of. change 63%N with (N.ones 6).
  rewrite N.land_ones, N.shiftr_div_pow2. change (2^6)%N with 64%N. split.
  - rewrite N.mul_comm, N.div_add_l, N.div_small by lia. lia.
  - rewrite N.add_comm, N.mul_comm, N.Div0.mod_add. by apply N.mod_small.
Qed.

Lemma word_of_lt r rc : (r <= rc)%N → word_of r < words_for rc.
Proof.
  intros H. unfold word_of, words_for. rewrite N.shiftr_div_pow2. change (2^6)%N with 64%N.
  assert (r / 64 < (rc + 1 + 63) / 64)%N; [|lia].
  apply N.lt_le_trans with (rc / 64 + 1)%N.
  - pose proof (N.Div0.div_le_mono r rc 64 H). lia.
  - rewrite <- N.div_add by done. apply N.Div0.div_le_mono. lia.
Qed.

Lemma high_bits w k : (w < 2^64)%N → (64 <= k)%N → N.testbit w k = false.
Proof.
  intros Hw Hk. destruct (decide (w = 0)%N) as [->|Hne]; [apply N.bits_0|].
  apply N.bits_above_log2. apply N.lt_le_trans with 64%N; [|done].
  apply N.log2_lt_pow2; [lia|done].
Qed.

Lemma lt_pow2_bits w : (∀ k, (64 <= k)%N → N.testbit w k = false) → (w < 2^64)%N.
Proof.
  intros H. destruct (decide (w = 0)%N) as [->|Hne]; [done|].
  apply N.log2_lt_pow2; [lia|]. destruct (N.lt_ge_cases (N.log2 w) 64) as [|Hge]; [done|].
  specialize (H _ Hge). rewrite N.bit_log2 in H by done. done.
Qed.

(** A set determines its bit set. *)
Lemma repr_unique words s s' P : repr words s P → repr words s' P → s = s'.
Proof.
  intros [[Hl Hw] H] [[Hl' Hw'] H'].
  apply list_eq_same_length with (n := words); [done..|]. intros i x y Hi Hx Hy.
  rewrite Forall_lookup in Hw. rewrite Forall_lookup in Hw'. apply N.bits_inj. intros b.
  destruct (N.lt_ge_cases b 64) as [Hb|Hb]; [|by rewrite !high_bits by eauto].
  destruct (word_of_reg i b Hb) as [E1 E2].
  assert (bitset_get s (64 * N.of_nat i + b) = N.testbit x b) as <-
    by (rewrite bitset_get_testbit, E1, E2, Hx; done).
  assert (bitset_get s' (64 * N.of_nat i + b) = N.testbit y b) as <-
    by (rewrite bitset_get_testbit, E1, E2, Hy; done).
  apply eq_true_iff_eq. by rewrite H, H'.
Qed.

Lemma repr_ext words s P Q : (∀ r, P r ↔ Q r) → repr words s P → repr words s Q.
Proof. intros E [Hw H]. split; [done|]. intros r. by rewrite H. Qed.

Lemma repr_fits words s P r : repr words s P → P r → word_of r < words.
Proof.
  intros [[Hl _] H] Hr%H. unfold bitset_get in Hr. destruct (s !! word_of r) eqn:E; [|done].
  apply lookup_lt_Some in E. lia.
Qed.

Lemma repr_zero words : repr words (replicate words 0%N) (λ _, False).
Proof.
  split.
  - split; [apply length_replicate|]. by apply Forall_replicate.
  - intros r. rewrite bitset_get_testbit. split; [|done].
    destruct (replicate words 0%N !! word_of r) as [w|] eqn:E; [|done].
    apply lookup_replicate in E as [-> _]. by rewrite N.bits_0.
Qed.

(** Updating one word by a bit-wise operation on one bit. *)
Lemma update_word words s (P Q : N → Prop) r (op : N → N) (v : bool) :
  repr words s P → word_of r < words →
  (∀ w k, N.testbit (op w) k = if decide (k = bit_of r) then v else N.testbit w k) →
  (Q r ↔ v = true) → (∀ r', r' ≠ r → Q r' ↔ P r') →
  ∃ s', (let* w := vec_get s (word_of r) in vec_set s (word_of r) (op w)) = Ok s' ∧ repr words s' Q.
Proof.
  intros [[Hl Hw] HP] Hr Hop HQ Hother.
  destruct (lookup_lt_is_Some_2 s (word_of r)) as [w Hword]; [lia|].
  rewrite (proj2 (vec_get_Ok _ _ _) Hword). simpl. rewrite vec_set_lt by lia.
  eexists. split; [done|]. rewrite Forall_lookup in Hw. split.
  - split; [by rewrite length_insert|]. apply Forall_lookup. intros i x.
    destruct (decide (i = word_of r)) as [->|Hne].
    + rewrite list_lookup_insert_eq by lia. intros [= <-]. apply lt_pow2_bits. intros k Hk.
      rewrite Hop. pose proof (bit_of_lt r). rewrite decide_False by lia. by eapply high_bits; [eapply Hw|].
    + rewrite list_lookup_insert_ne by done. apply Hw.
  - intros r'. rewrite bitset_get_testbit. destruct (decide (r' = r)) as [->|Hne].
    + rewrite list_lookup_insert_eq by lia. rewrite Hop, decide_True by done. by rewrite HQ.
    + rewrite Hother by done. rewrite <- HP, bitset_get_testbit.
      destruct (decide (word_of r' = word_of r)) as [E|E].
      * rewrite E, list_lookup_insert_eq, Hword by lia. rewrite Hop, decide_False; [done|].
        intros E'. by apply Hne, reg_inj.
      * by rewrite list_lookup_insert_ne.
Qed.

Lemma repr_set words s P r :
  repr words s P → word_of r < words →
  ∃ s', bitset_set s r = Ok s' ∧ repr words s' (λ r', r' = r ∨ P r').
Proof.
  intros HP Hr. apply (update_word words s P _ r _ true HP Hr).
  - intros w k. rewrite N.lor_spec, N.shiftl_1_l. case_decide as E.
    + subst. rewrite N.pow2_bits_true. apply orb_true_r.
    + rewrite N.pow2_bits_false by done. apply orb_false_r.
  - tauto.
  - intros r' Hne. tauto.
Qed.

Lemma repr_clear words s P r :
  repr words s P → word_of r < words →
  ∃ s', bitset_clear s r = Ok s' ∧ repr words s' (λ r', r' ≠ r ∧ P r').
Proof.
  intros HP Hr. apply (update_word words s P _ r _ false HP Hr).
  - intros w k. rewrite N.ldiff_spec, N.shiftl_1_l. case_decide as E.
    + subst. rewrite N.pow2_bits_true. apply andb_false_r.
    + rewrite N.pow2_bits_false by done. apply andb_true_r.
  - split; [by intros [? _]|done].
  - intros r' Hne. tauto.
Qed.

Lemma repr_set_all words s P rs :
  repr words s P → Forall (λ r, word_of r < words) rs →
  ∃ s', fold_res bitset_set rs s = Ok s' ∧ repr words s' (λ r, r ∈ rs ∨ P r).
Proof.
  intros HP Hrs. revert s P HP. induction Hrs as [|r rs Hr _ IH]; intros s P HP; cbn [fold_res].
  - exists s. split; [done|]. eapply repr_ext; [|done]. set_solver.
  - destruct (repr_set words s P r HP Hr) as (s1 & -> & H1). cbn [res_bind].
    destruct (IH s1 _ H1) as (s2 & -> & H2). exists s2. split; [done|].
    eapply repr_ext; [|done]. set_solver.
Qed.

(** Word-wise operations are set operations. *)
Lemma repr_words words (s : list N) (Q : N → Prop) :
  length s = words → (∀ i w, s !! i = Some w → (w < 2^64)%N ∧
    ∀ b, (b < 64)%N → N.testbit w b = true ↔ Q (64 * N.of_nat i + b)%N) →
  (∀ r, Q r → word_of r < words) → repr words s Q.
Proof.
  intros Hl H Hfit. split.
  - split; [done|]. apply Forall_lookup. intros i w Hw. by apply (H i w).
  - intros r. rewrite bitset_get_testbit. destruct (s !! word_of r) as [w|] eqn:E.
    + rewrite (reg_split r) at 2. apply (H _ _ E), bit_of_lt.
    + split; [done|]. intros Hr%Hfit. apply lookup_ge_None in E. lia.
Qed.

Lemma repr_bit words s P i w b :
  repr words s P → s !! i = Some w → (b < 64)%N → N.testbit w b = true ↔ P (64 * N.of_nat i + b)%N.
Proof.
  intros [_ H] Hw Hb. rewrite <- H, bitset_get_testbit. destruct (word_of_reg i b Hb) as [-> ->].
  by rewrite Hw.
Qed.

Lemma repr_word_lt words s P i w : repr words s P → s !! i = Some w → (w < 2^64)%N.
Proof. intros [[_ H] _] Hw. rewrite Forall_lookup in H. by eapply H. Qed.

Lemma repr_lookup words s P i : repr words s P → i < words → ∃ w, s !! i = Some w.
Proof. intros [[Hl _] _] Hi. apply lookup_lt_is_Some_2. lia. Qed.

Lemma repr_or words s s' P Q :
  repr words s P → repr words s' Q →
  ∃ s'', or_words s s' = Ok s'' ∧ repr words s'' (λ r, P r ∨ Q r).
Proof.
  intros HP HQ. unfold or_words.
  destruct (map_res_ok (λ iw, let* w := vec_get s' iw.1 in Ok (N.lor iw.2 w))
    (λ iw y, ∃ w, s' !! iw.1 = Some w ∧ y = N.lor iw.2 w) (enumerate s)) as (s'' & -> & H).
  { intros [i x] Hx%elem_of_enumerate. apply lookup_lt_Some in Hx as Hi. destruct HP as [[Hl _] _].
    destruct (repr_lookup words s' Q i HQ) as [w Hw]; [lia|]. simpl.
    rewrite (proj2 (vec_get_Ok _ _ _) Hw). simpl. eauto. }
  exists s''. split; [done|]. apply repr_words.
  - apply Forall2_length in H. rewrite length_enumerate in H. destruct HP as [[Hl _] _]. lia.
  - intros i y Hy. destruct (Forall2_lookup_r _ _ _ _ _ H Hy) as ([j x] & Hj & w & Hw & ->).
    apply enumerate_lookup in Hj as [E Hx]. simpl in *. subst j. split.
    + apply lt_pow2_bits. intros k Hk. rewrite N.lor_spec.
      by rewrite !high_bits by eauto using repr_word_lt.
    + intros b Hb. rewrite N.lor_spec, orb_true_iff.
      by rewrite (repr_bit _ _ _ _ _ _ HP Hx Hb), (repr_bit _ _ _ _ _ _ HQ Hw Hb).
  - intros r [Hr|Hr]; [exact (repr_fits _ _ _ r HP Hr) | exact (repr_fits _ _ _ r HQ Hr)].
Qed.

Lemma repr_transfer words gen kill out G K O :
  repr words gen G → repr words kill K → repr words out O →
  ∃ s, transfer_words words gen kill out = Ok s ∧ repr words s (λ r, G r ∨ O r ∧ ¬ K r).
Proof.
  intros HG HK HO. unfold transfer_words.
  destruct (map_res_ok (λ w, let* x := vec_get gen w in let* o := vec_get out w in
      let* k := vec_get kill w in Ok (N.lor x (N.ldiff o k)))
    (λ i y, ∃ x o k, gen !! i = Some x ∧ out !! i = Some o ∧ kill !! i = Some k ∧
       y = N.lor x (N.ldiff o k)) (seq 0 words)) as (s & -> & H).
  { intros i Hi%elem_of_seq.
    destruct (repr_lookup _ _ _ i HG) as [x Hx]; [lia|].
    destruct (repr_lookup _ _ _ i HO) as [o Ho]; [lia|].
    destruct (repr_lookup _ _ _ i HK) as [k Hk]; [lia|].
    unfold vec_get. rewrite Hx, Ho, Hk. simpl. eauto 10. }
  exists s. split; [done|]. apply repr_words.
  - apply Forall2_length in H. rewrite length_seq in H. done.
  - intros i y Hy. destruct (Forall2_lookup_r _ _ _ _ _ H Hy) as (j & Hj & x & o & k & Hx & Ho & Hk & ->).
    apply lookup_seq in Hj as [-> Hj]. simpl in *. split.
    + apply lt_pow2_bits. intros b Hb. rewrite N.lor_spec, N.ldiff_spec.
      by rewrite (high_bits x), (high_bits o) by eauto using repr_word_lt.
    + intros b Hb. rewrite N.lor_spec, N.ldiff_spec, orb_true_iff, andb_true_iff, negb_true_iff.
      rewrite (repr_bit _ _ _ _ _ _ HG Hx Hb), (repr_bit _ _ _ _ _ _ HO Ho Hb).
      rewrite <- (repr_bit _ _ _ _ _ _ HK Hk Hb). by rewrite not_true_iff_false.
  - intros r [Hr|[Hr _]]; [exact (repr_fits _ _ _ r HG Hr) | exact (repr_fits _ _ _ r HO Hr)].
Qed.

(** ** Instructions and blocks as set transformers *)

Lemma fold_max_ge l m : (m <= fold_left N.max l m)%N.
Proof.
  revert m. induction l as [|x l IH]; intros m; simpl; [lia|]. specialize (IH (N.max m x)). lia.
Qed.

Lemma fold_max_elem l m x : x ∈ l → (x <= fold_left N.max l m)%N.
Proof.
  revert m. induction l as [|y l IH]; intros m Hx; [by apply elem_of_nil in Hx|]. simpl.
  apply elem_of_cons in Hx as [->|Hx]; [|by apply IH].
  pose proof (fold_max_ge l (N.max m y)). lia.
Qed.

Lemma max_reg_of_ge m inst : (m <= max_reg_of m inst)%N.
Proof.
  unfold max_reg_of. pose proof (fold_max_ge (use_regs inst)
    (match def_reg inst with Some d => N.max m d | None => m end)).
  destruct (def_reg inst); lia.
Qed.

Lemma max_regs_ge is' m : (m <= fold_left max_reg_of is' m)%N.
Proof.
  revert m. induction is' as [|x is' IH]; intros m; simpl; [lia|].
  pose proof (max_reg_of_ge m x). specialize (IH (max_reg_of m x)). lia.
Qed.

Lemma max_regs_elem is' m inst r :
  inst ∈ is' → def_reg inst = Some r ∨ r ∈ use_regs inst → (r <= fold_left max_reg_of is' m)%N.
Proof.
  intros Hi Hr. revert m. induction is' as [|x is' IH]; intros m; [by apply elem_of_nil in Hi|]. simpl.
  apply elem_of_cons in Hi as [<-|Hi]; [|by apply IH].
  apply N.le_trans with (max_reg_of m inst); [|apply max_regs_ge]. unfold max_reg_of.
  destruct Hr as [Hd|Hu]; [|by apply fold_max_elem]. rewrite Hd.
  pose proof (fold_max_ge (use_regs inst) (N.max m r)). lia.
Qed.

Lemma reg_count_bound f i inst r :
  insts f !! i = Some inst → def_reg inst = Some r ∨ r ∈ use_regs inst → (r <= reg_count f)%N.
Proof. intros Hi%list_elem_of_lookup_2. by apply max_regs_elem. Qed.

(** The set before instruction [i], given the set after it. *)
Definition step_live (f : IRFunction) (i : nat) (S : N → Prop) (r : N) : Prop :=
  ∃ inst, insts f !! i = Some inst ∧ (r ∈ use_regs inst ∨ S r ∧ def_reg inst ≠ Some r).

(** The set before the instructions [is'], given the set after them. *)
Definition back (f : IRFunction) (is' : list nat) (S : N → Prop) : N → Prop :=
  foldr (step_live f) S is'.

(** A register written by one of [is']. *)
Definition killed (f : IRFunction) (is' : list nat) (r : N) : Prop :=
  ∃ i inst, i ∈ is' ∧ insts f !! i = Some inst ∧ def_reg inst = Some r.

Lemma step_live_ext f i S S' r : (∀ r, S r ↔ S' r) → step_live f i S r ↔ step_live f i S' r.
Proof. intros E. unfold step_live. setoid_rewrite E. done. Qed.

Lemma back_ext f is' S S' r : (∀ r, S r ↔ S' r) → back f is' S r ↔ back f is' S' r.
Proof.
  intros E. revert r. induction is' as [|i is' IH]; intros r; simpl; [done|]. by apply step_live_ext.
Qed.

Lemma killed_cons f i is' r inst :
  insts f !! i = Some inst → killed f (i :: is') r ↔ def_reg inst = Some r ∨ killed f is' r.
Proof.
  intros Hi. unfold killed. split.
  - intros (j & inst' & Hj & Hi' & Hd). apply elem_of_cons in Hj as [->|Hj]; [left; congruence|].
    right. eauto.
  - intros [Hd|(j & inst' & Hj & H)]; [exists i, inst | exists j, inst']; set_solver.
Qed.

(** A block adds what it generates and removes what it kills. *)
Lemma back_summary f is' S r :
  Forall (λ i, i < length (insts f)) is' →
  back f is' S r ↔ back f is' (λ _, False) r ∨ S r ∧ ¬ killed f is' r.
Proof.
  intros H. revert r. induction H as [|i is' Hi _ IH]; intros r; simpl.
  { split; [|tauto]. intros ?. right. split; [done|]. intros (? & ? & ?%elem_of_nil & _). done. }
  destruct (lookup_lt_is_Some_2 _ _ Hi) as [inst Hinst].
  rewrite (killed_cons f i is' r inst Hinst). unfold step_live. rewrite Hinst. split.
  - intros (? & [= <-] & [Hu|[Hb Hd]]); [left; eauto|]. apply IH in Hb. destruct Hb as [?|[? ?]]; [left; eauto|].
    right. tauto.
  - intros [(? & [= <-] & [Hu|[Hb Hd]])|[HS Hk]]; exists inst; (split; [done|]); [by left|..].
    + right. split; [|done]. apply IH. by left.
    + right. split; [|tauto]. apply IH. right. tauto.
Qed.

Section summaries.
Context (f : IRFunction).
#[local] Abbreviation W := (words_for (reg_count f)).

Lemma reg_fits i inst r :
  insts f !! i = Some inst → def_reg inst = Some r ∨ r ∈ use_regs inst → word_of r < W.
Proof. intros Hi Hr. eapply word_of_lt, reg_count_bound; eauto. Qed.

Lemma zero_fits : word_of 0 < W.
Proof. apply word_of_lt. lia. Qed.

Lemma scan_inst_ok live S i :
  i < length (insts f) → repr W live S →
  ∃ live', scan_inst f live i = Ok live' ∧ repr W live' (step_live f i S).
Proof.
  intros [inst Hi]%lookup_lt_is_Some_2 HS. unfold scan_inst.
  rewrite (proj2 (vec_get_Ok _ _ _) Hi). cbn [res_bind].
  assert (∃ l1, match def_reg inst with Some d => bitset_clear live d | None => Ok live end = Ok l1 ∧
    repr W l1 (λ r, def_reg inst ≠ Some r ∧ S r)) as (l1 & -> & H1).
  { destruct (def_reg inst) as [d|] eqn:Hd.
    - destruct (repr_clear W live S d HS) as (l1 & -> & H1); [eapply reg_fits; eauto|].
      exists l1. split; [done|]. eapply repr_ext; [|done]. intros r. simpl. naive_solver.
    - exists live. split; [done|]. eapply repr_ext; [|done]. naive_solver. }
  cbn [res_bind]. destruct (repr_set_all W l1 _ (use_regs inst) H1) as (l2 & -> & H2).
  { apply Forall_forall. intros r Hr. eapply reg_fits; eauto. }
  exists l2. split; [done|]. eapply repr_ext; [|done]. intros r. unfold step_live. simpl. naive_solver.
Qed.

Lemma scan_block_ok is' live S :
  Forall (λ i, i < length (insts f)) is' → repr W live S →
  ∃ live', fold_res (scan_inst f) (rev is') live = Ok live' ∧ repr W live' (back f is' S).
Proof.
  intros H HS. induction H as [|i is' Hi _ IH]; simpl; [eauto|].
  destruct IH as (l1 & E & H1). rewrite fold_res_app, E. cbn [res_bind fold_res].
  destruct (scan_inst_ok l1 _ i Hi H1) as (l2 & -> & H2). simpl. eauto.
Qed.

Lemma kill_block_ok is' :
  Forall (λ i, i < length (insts f)) is' →
  ∃ kill, fold_res (kill_inst f) is' (replicate W 0%N) = Ok kill ∧ repr W kill (killed f is').
Proof.
  intros H. destruct (fold_res_inv (kill_inst f) (λ pre k, repr W k (killed f pre)) is' (replicate W 0%N))
    as (k & -> & Hk); [| |eauto].
  - eapply repr_ext; [|apply repr_zero]. intros r. split; [done|].
    intros (? & ? & ?%elem_of_nil & _). done.
  - intros pre i post k E HP. unfold kill_inst.
    rewrite Forall_forall in H. specialize (H i). destruct (lookup_lt_is_Some_2 (insts f) i) as [inst Hi].
    { apply H. subst. set_solver. }
    rewrite (proj2 (vec_get_Ok _ _ _) Hi). cbn [res_bind].
    assert (∀ r, killed f (pre ++ [i]) r ↔ killed f pre r ∨ def_reg inst = Some r) as Hsplit.
    { intros r. unfold killed. split.
      - intros (j & inst' & [Hj| ->%list_elem_of_singleton]%elem_of_app & Hi' & Hd); [left; eauto|].
        right. congruence.
      - intros [(j & inst' & Hj & ?)|?]; [exists j, inst'|exists i, inst]; set_solver. }
    destruct (def_reg inst) as [d|] eqn:Hd.
    + destruct (repr_set W k _ d HP) as (k' & -> & Hk'); [eapply reg_fits; eauto|].
      exists k'. split; [done|]. eapply repr_ext; [|done]. intros r. rewrite Hsplit. naive_solver.
    + exists k. split; [done|]. eapply repr_ext; [|done]. intros r. rewrite Hsplit. naive_solver.
Qed.
End summaries.

(** ** Handler entries *)

Definition exc_target (g : Cfg) (t : nat) : Prop := ∃ b, b ∈ blocks g ∧ (t, Exception) ∈ succs b.

(** Every edge of the graph leads to a block. *)
Definition closed_graph (g : Cfg) : Prop :=
  ∀ k b t kd, blocks g !! k = Some b → (t, kd) ∈ succs b → t < length (blocks g).

Lemma exception_targets_ok g :
  closed_graph g →
  ∃ ts, exception_target_blocks g = Ok ts ∧ length ts = length (blocks g) ∧
    ∀ t, ts !! t = Some true ↔ exc_target g t.
Proof.
  intros Hc. unfold exception_target_blocks.
  destruct (fold_res_inv
    (λ targets b, fold_res (λ targets e, if decide (e.2 = Exception) then vec_set targets e.1 true
                                         else Ok targets) (succs b) targets)
    (λ pre ts, length ts = length (blocks g) ∧
       ∀ t, ts !! t = Some true ↔ ∃ b, b ∈ pre ∧ (t, Exception) ∈ succs b)
    (blocks g) (replicate (length (blocks g)) false)) as (ts & -> & Hts); [| |by exists ts].
  { split; [apply length_replicate|]. intros t. split; [by intros [? _]%lookup_replicate|].
    intros (b & ?%elem_of_nil & _). done. }
  intros pre b post ts E [Hl Hpre].
  assert (∀ t kd, (t, kd) ∈ succs b → t < length ts) as Hlt.
  { intros t kd Ht. rewrite Hl. apply (Hc (length pre) b t kd); [|done]. rewrite E.
    by apply list_lookup_middle. }
  destruct (fold_res_inv (λ targets e, if decide (e.2 = Exception) then vec_set targets e.1 true
                                       else Ok targets)
    (λ es ts', length ts' = length ts ∧ ∀ t, ts' !! t = Some true ↔ ts !! t = Some true ∨ (t, Exception) ∈ es)
    (succs b) ts) as (ts' & -> & Hl' & Hts').
  { split; [done|]. set_solver. }
  { intros es [t kd] es' ts1 Es [Hl1 H1]. simpl. case_decide as Hk.
    - subst kd. rewrite vec_set_lt.
      2: { rewrite Hl1. apply (Hlt t Exception). rewrite Es. set_solver. }
      eexists. split; [done|]. split; [by rewrite length_insert|]. intros t'.
      destruct (decide (t' = t)) as [->|Hne].
      + rewrite list_lookup_insert_eq; [set_solver|].
        rewrite Hl1. apply (Hlt t Exception). rewrite Es. set_solver.
      + rewrite list_lookup_insert_ne by done. rewrite H1. set_solver.
    - exists ts1. split; [done|]. split; [done|]. intros t'. rewrite H1. set_solver. }
  exists ts'. split; [done|]. split; [congruence|]. intros t. rewrite Hts', Hpre. set_solver.
Qed.

(** What the analysis needs of a graph. *)
Record graph_ok (f : IRFunction) (g : Cfg) : Prop := {
  graph_closed : closed_graph g;
  graph_ranges : ∀ k b, blocks g !! k = Some b → range_start b <= range_end b <= length (insts f);
  graph_entry : entry g < length (blocks g);
  graph_disjoint : ∀ j k b c i, blocks g !! j = Some b → blocks g !! k = Some c →
    in_block b i → in_block c i → j = k;
  graph_empty : ∀ k b, blocks g !! k = Some b → range_start b = range_end b → succs b = [];
}.

Lemma blocks_cases f g k b :
  cfg_ok f g → blocks g !! k = Some b →
  real_blocks g !! k = Some b ∨ k = exit g ∧ range_start b = 0 ∧ range_end b = 0 ∧ succs b = [].
Proof.
  intros Hok Hb. apply lookup_lt_Some in Hb as Hk. rewrite (ok_length _ _ Hok) in Hk.
  destruct (decide (k = exit g)) as [->|Hne].
  - right. destruct (ok_sentinel _ _ Hok) as [ps Hs]. by simplify_eq.
  - left. unfold real_blocks. rewrite lookup_take_lt; [done|lia].
Qed.

Lemma cfg_graph_ok f g : cfg_ok f g → graph_ok f g.
Proof.
  intros Hok. constructor.
  - intros k b t kd Hb Ht. rewrite (ok_length _ _ Hok).
    destruct (blocks_cases f g k b Hok Hb) as [Hr|(_ & _ & _ & Hs)]; [|rewrite Hs in Ht; by apply elem_of_nil in Ht].
    apply (ok_edges _ _ Hok k b t kd Hr) in Ht.
    apply (edge_bound f _ k b t kd (ok_tiles _ _ Hok) (ok_heads _ _ Hok) Hr) in Ht.
    unfold real_blocks in Ht. rewrite length_take in Ht. lia.
  - intros k b Hb. destruct (blocks_cases f g k b Hok Hb) as [Hr|(_ & -> & -> & _)]; [|lia].
    by apply (tiles_range _ _ (ok_tiles _ _ Hok) k b).
  - rewrite (ok_entry _ _ Hok), (ok_length _ _ Hok). lia.
  - intros j k b c i Hb Hc Hib Hic.
    destruct (blocks_cases f g j b Hok Hb) as [Hr|(_ & _ & E & _)]; [|destruct Hib; lia].
    destruct (blocks_cases f g k c Hok Hc) as [Hr'|(_ & _ & E & _)]; [|destruct Hic; lia].
    by eapply (tiles_unique _ _ (ok_tiles _ _ Hok)).
  - intros k b Hb He. destruct (blocks_cases f g k b Hok Hb) as [Hr|(_ & _ & _ & ?)]; [|done].
    destruct (succs b) as [|[t kd] ss] eqn:Es; [done|]. exfalso.
    pose proof (tiles_nonempty _ _ (ok_tiles _ _ Hok) k b Hr) as Hn.
    assert (t = exit g ∧ kd = Fallthrough ∧
      (∃ inst, last_inst f b inst ∧ (i_op inst = RETURN ∨ i_op inst = HALT)) ∨
      ∃ i b', in_block b i ∧ real_blocks g !! t = Some b' ∧ flow f i (range_start b'))
      as [(_ & _ & inst & [Hlt _] & _)|(i & _ & [H1 H2] & _)]; [|lia..].
    eapply edge_flow; [done..|]. rewrite Es. by left.
Qed.

(** ** Depth-first search *)

Definition unvisited (v : list bool) : nat := length (filter (λ x, x = false) v).

Lemma unvisited_insert v b : v !! b = Some false → S (unvisited (<[b:=true]> v)) = unvisited v.
Proof.
  unfold unvisited. revert b. induction v as [|x v IH]; intros [|b] H; simpl in *; try done.
  - injection H as ->. rewrite filter_cons_False, filter_cons_True by done. done.
  - rewrite !filter_cons. specialize (IH b H). case_decide; simpl; lia.
Qed.

Lemma unvisited_mono v v' :
  length v = length v' → (∀ x, v !! x = Some true → v' !! x = Some true) → unvisited v' <= unvisited v.
Proof.
  unfold unvisited. revert v'. induction v as [|x v IH]; intros [|y v'] Hl H; simpl in *; try done.
  rewrite !filter_cons. specialize (IH v' ltac:(lia) (λ n, H (S n))).
  specialize (H 0). simpl in H. destruct x, y; repeat case_decide; simpl; try done; try lia.
  specialize (H eq_refl). done.
Qed.

Lemma dfs_ok fuel g v p b :
  closed_graph g → length v = length (blocks g) → v !! b = Some false → unvisited v <= fuel →
  ∃ v' new, dfs fuel g (v, p) b = Ok (v', p ++ new) ∧ length v' = length v ∧
    ∀ x, v' !! x = Some true ↔ v !! x = Some true ∨ x ∈ new.
Proof.
  intros Hc. revert v p b. induction fuel as [|fuel IH]; intros v p b Hl Hb Hu.
  { pose proof (unvisited_insert v b Hb). lia. }
  apply lookup_lt_Some in Hb as Hlt. cbn [dfs fst snd]. rewrite vec_set_lt by done. cbn [res_bind].
  destruct (lookup_lt_is_Some_2 (blocks g) b) as [block Hblock]; [lia|].
  rewrite (proj2 (vec_get_Ok _ _ _) Hblock). cbn [res_bind].
  pose proof (unvisited_insert v b Hb) as Hub. set (v0 := <[b:=true]> v) in *.
  assert (length v0 = length v) as Hl0 by apply length_insert.
  assert (∀ x, v0 !! x = Some true ↔ v !! x = Some true ∨ x = b) as Hv0.
  { intros x. unfold v0. destruct (decide (x = b)) as [->|Hne].
    - rewrite list_lookup_insert_eq by done. tauto.
    - rewrite list_lookup_insert_ne by done. tauto. }
  destruct (fold_res_inv
    (λ st e, let* seen := vec_get st.1 e.1 in if seen : bool then Ok st else dfs fuel g st e.1)
    (λ _ st, ∃ new, st.2 = p ++ new ∧ length st.1 = length v ∧
       ∀ x, st.1 !! x = Some true ↔ v0 !! x = Some true ∨ x ∈ new)
    (succs block) (v0, p)) as ([v1 p1] & -> & new & Hp & Hl1 & H1); simpl in *.
  - exists []. rewrite app_nil_r. split_and!; [done..|]. set_solver.
  - intros pre [t kd] post [v1 p1] E (new & Hp1 & Hl1 & H1). simpl in *. subst p1.
    assert (t < length (blocks g)) as Ht by (apply (Hc b block t kd Hblock); rewrite E; set_solver).
    destruct (lookup_lt_is_Some_2 v1 t) as [seen Hs]; [lia|].
    rewrite (proj2 (vec_get_Ok _ _ _) Hs). cbn [res_bind]. destruct seen.
    { eexists. split; [done|]. exists new. by split_and!. }
    destruct (IH v1 (p ++ new) t) as (v2 & new2 & -> & Hl2 & H2).
    + congruence.
    + done.
    + assert (unvisited v1 <= unvisited v0); [|lia].
      apply unvisited_mono; [congruence|]. intros x Hx. apply H1. by left.
    + eexists. split; [done|]. exists (new ++ new2). simpl. split_and!; [by rewrite app_assoc|congruence|].
      intros x. rewrite H2, H1. set_solver.
  - exists v1, (new ++ [b]). rewrite Hp, app_assoc. split_and!; [done..|].
    intros x. rewrite H1, Hv0. set_solver.
Qed.

Lemma unvisited_replicate n : unvisited (replicate n false) = n.
Proof.
  unfold unvisited. induction n as [|n IH]; [done|].
  rewrite replicate_S, filter_cons_True by done. simpl. by rewrite IH.
Qed.

(** The order visits exactly the blocks. *)
Lemma rpo_ok f g :
  graph_ok f g → ∃ rpo, reverse_postorder g = Ok rpo ∧ ∀ b, b ∈ rpo ↔ b < length (blocks g).
Proof.
  intros Hg. unfold reverse_postorder. pose proof (graph_entry _ _ Hg) as He.
  destruct (dfs_ok (length (blocks g)) g (replicate (length (blocks g)) false) [] (entry g))
    as (v & new & -> & Hl & Hv).
  - apply Hg.
  - apply length_replicate.
  - by apply lookup_replicate_2.
  - by rewrite unvisited_replicate.
  - simpl. eexists. split; [done|]. rewrite length_replicate in Hl. intros b.
    rewrite elem_of_app, !list_elem_of_In, <- in_rev, <- !list_elem_of_In, list_elem_of_fmap. split.
    + intros [Hb|([b' x] & -> & [_ Hb]%list_elem_of_filter)].
      * assert (v !! b = Some true) as H%lookup_lt_Some by (apply Hv; by right). lia.
      * apply elem_of_enumerate in Hb. apply lookup_lt_Some in Hb. simpl. lia.
    + intros Hb. destruct (lookup_lt_is_Some_2 v b) as [[] Hx]; [lia|..].
      * left. apply Hv in Hx as [[? _]%lookup_replicate|]; done.
      * right. exists (b, false). split; [done|]. apply list_elem_of_filter. split; [done|].
        by apply elem_of_enumerate.
Qed.

Lemma block_indices_bound f g k b :
  graph_ok f g → blocks g !! k = Some b → Forall (λ i, i < length (insts f)) (block_indices b).
Proof.
  intros Hg Hb. pose proof (graph_ranges _ _ Hg k b Hb). apply Forall_forall.
  intros i Hi%elem_of_seq. lia.
Qed.

(** ** Block summaries *)

(** What block [k] generates and kills; a handler's entry writes register 0. *)
Definition gen_set (f : IRFunction) (g : Cfg) (k : nat) (r : N) : Prop :=
  ∃ b, blocks g !! k = Some b ∧ back f (block_indices b) (λ _, False) r ∧ ¬ (exc_target g k ∧ r = 0%N).
Definition kill_set (f : IRFunction) (g : Cfg) (k : nat) (r : N) : Prop :=
  ∃ b, blocks g !! k = Some b ∧ (killed f (block_indices b) r ∨ exc_target g k ∧ r = 0%N).

Lemma block_summary_ok f g ts k b :
  graph_ok f g → blocks g !! k = Some b → length ts = length (blocks g) →
  (∀ t, ts !! t = Some true ↔ exc_target g t) →
  ∃ gen kill, block_summary f (words_for (reg_count f)) ts (k, b) = Ok (gen, kill) ∧
    repr (words_for (reg_count f)) gen (gen_set f g k) ∧
    repr (words_for (reg_count f)) kill (kill_set f g k).
Proof.
  intros Hg Hb Hl Hts. unfold block_summary.
  pose proof (block_indices_bound f g k b Hg Hb) as Hidx.
  destruct (scan_block_ok f (block_indices b) _ _ Hidx (repr_zero _)) as (gen & -> & Hgen).
  destruct (kill_block_ok f (block_indices b) Hidx) as (kill & E & Hkill). cbn [res_bind]. rewrite E.
  cbn [res_bind]. apply lookup_lt_Some in Hb as Hk.
  destruct (lookup_lt_is_Some_2 ts k) as [exc Hexc]; [lia|].
  rewrite (proj2 (vec_get_Ok _ _ _) Hexc). cbn [res_bind]. destruct exc.
  - apply Hts in Hexc as Ht.
    destruct (repr_clear _ _ _ 0 Hgen (zero_fits f)) as (gen' & -> & Hgen'). cbn [res_bind].
    destruct (repr_set _ _ _ 0 Hkill (zero_fits f)) as (kill' & -> & Hkill'). cbn [res_bind].
    exists gen', kill'. split_and!; [done|..].
    + eapply repr_ext; [|exact Hgen']. intros r. unfold gen_set. rewrite Hb. naive_solver.
    + eapply repr_ext; [|exact Hkill']. intros r. unfold kill_set. rewrite Hb. naive_solver.
  - assert (¬ exc_target g k) as Ht by (intros ?%Hts; congruence).
    exists gen, kill. split_and!; [done|..].
    + eapply repr_ext; [|exact Hgen]. intros r. unfold gen_set. rewrite Hb. naive_solver.
    + eapply repr_ext; [|exact Hkill]. intros r. unfold kill_set. rewrite Hb. naive_solver.
Qed.

(** ** The iteration *)

Section dataflow.
Context (g : Cfg) (W : nat) (sums : list (list N * list N)) (G K : nat → N → Prop).
Context (Hclosed : closed_graph g) (Hlen : length sums = length (blocks g)).
Context (Hsums : ∀ k gen kill, sums !! k = Some (gen, kill) → repr W gen (G k) ∧ repr W kill (K k)).
Context (Hdom : ∀ k r, G k r → k < length (blocks g)).
#[local] Abbreviation n := (length (blocks g)).

Definition edge (k t : nat) : Prop := ∃ b kd, blocks g !! k = Some b ∧ (t, kd) ∈ succs b.

(** The two equations: what flows out of a block, and into it. *)
Definition flow_out (I : nat → N → Prop) (k : nat) (r : N) : Prop := ∃ t, edge k t ∧ I t r.
Definition flow_in (I : nat → N → Prop) (k : nat) (r : N) : Prop :=
  G k r ∨ flow_out I k r ∧ ¬ K k r.

(** Their least solution. *)
Inductive live_from : nat → N → Prop :=
  | live_gen k r : G k r → live_from k r
  | live_step k t r : ¬ K k r → edge k t → live_from t r → live_from k r.

Definition represents (vs : list (list N)) (I : nat → N → Prop) : Prop :=
  length vs = n ∧ ∀ k v, vs !! k = Some v → repr W v (I k).

Definition update (I : nat → N → Prop) (k : nat) (S : N → Prop) (j : nat) : N → Prop :=
  if decide (j = k) then S else I j.

Lemma update_eq I k S : update I k S k = S.
Proof. unfold update. by rewrite decide_True. Qed.

Lemma update_ne I k S j : j ≠ k → update I k S j = I j.
Proof. intros. unfold update. by rewrite decide_False. Qed.

Lemma edge_lt k t : edge k t → k < n ∧ t < n.
Proof. intros (b & kd & Hb & Ht). split; [by eapply lookup_lt_Some | by eapply Hclosed]. Qed.

Lemma represents_update vs I k v S :
  represents vs I → k < n → repr W v S →
  vec_set vs k v = Ok (<[k:=v]> vs) ∧ represents (<[k:=v]> vs) (update I k S).
Proof.
  intros [Hl HI] Hk Hv. split; [apply vec_set_lt; lia|]. split; [by rewrite length_insert|].
  intros j w. destruct (decide (j = k)) as [->|Hne].
  - rewrite list_lookup_insert_eq by lia. intros [= <-]. by rewrite update_eq.
  - rewrite list_lookup_insert_ne by done. rewrite update_ne by done. apply HI.
Qed.

Lemma represents_same vs I k S v :
  represents vs I → vs !! k = Some v → repr W v S → represents vs (update I k S).
Proof.
  intros [Hl HI] Hk Hv. split; [done|]. intros j w Hw. destruct (decide (j = k)) as [->|Hne].
  - rewrite update_eq. congruence.
  - rewrite update_ne by done. by apply HI.
Qed.

Lemma round_out_ok ins I k b :
  represents ins I → blocks g !! k = Some b →
  ∃ out, fold_res (λ out e, let* si := vec_get ins e.1 in or_words out si) (succs b)
           (replicate W 0%N) = Ok out ∧ repr W out (flow_out I k).
Proof.
  intros [Hl HI] Hb.
  destruct (fold_res_inv (λ out e, let* si := vec_get ins e.1 in or_words out si)
    (λ pre out, repr W out (λ r, ∃ e, e ∈ pre ∧ I e.1 r)) (succs b) (replicate W 0%N))
    as (out & -> & Hout).
  - eapply repr_ext; [|apply repr_zero]. set_solver.
  - intros pre [t kd] post out E Hpre. simpl.
    assert (t < n) by (apply (Hclosed k b t kd Hb); rewrite E; set_solver).
    destruct (lookup_lt_is_Some_2 ins t) as [si Hsi]; [lia|].
    rewrite (proj2 (vec_get_Ok _ _ _) Hsi). cbn [res_bind].
    destruct (repr_or W out si _ _ Hpre (HI t si Hsi)) as (out' & -> & H').
    exists out'. split; [done|]. eapply repr_ext; [|done]. intros r. simpl. split.
    + intros [(e & ? & ?)|?]; [exists e | exists (t, kd)]; set_solver.
    + intros (e & [?| ->%list_elem_of_singleton]%elem_of_app & ?); eauto.
  - exists out. split; [done|]. eapply repr_ext; [|done]. intros r. unfold flow_out, edge. split.
    + intros ([t kd] & Hin & ?). exists t. split; [|done]. eauto.
    + intros (t & (b' & kd & Hb' & Hin) & ?). rewrite Hb in Hb'. injection Hb' as <-. by exists (t, kd).
Qed.

Lemma round_block_ok ins outs changed I O k :
  represents ins I → represents outs O → k < n →
  ∃ ins' outs' changed', round_block g W sums (ins, outs, changed) k = Ok (ins', outs', changed') ∧
    represents ins' (update I k (flow_in I k)) ∧ represents outs' (update O k (flow_out I k)) ∧
    (changed' = false → changed = false ∧ ins' = ins ∧ outs' = outs) ∧
    (changed = false → (∀ r, flow_in I k r ↔ I k r) → (∀ r, flow_out I k r ↔ O k r) → changed' = false).
Proof.
  intros HI HO Hk. unfold round_block.
  destruct (lookup_lt_is_Some_2 (blocks g) k Hk) as [b Hb].
  rewrite (proj2 (vec_get_Ok _ _ _) Hb). cbn [res_bind].
  destruct (round_out_ok ins I k b HI Hb) as (out & -> & Hout). cbn [res_bind].
  destruct (lookup_lt_is_Some_2 sums k) as [[gen kill] Hs]; [lia|].
  rewrite (proj2 (vec_get_Ok _ _ _) Hs). cbn [res_bind].
  destruct (Hsums k gen kill Hs) as [HG HK].
  destruct (repr_transfer W gen kill out _ _ _ HG HK Hout) as (input & -> & Hin). cbn [res_bind].
  destruct HI as [HIl HI'], HO as [HOl HO'].
  destruct (lookup_lt_is_Some_2 ins k) as [old_in Hoi]; [lia|].
  destruct (lookup_lt_is_Some_2 outs k) as [old_out Hoo]; [lia|].
  rewrite (proj2 (vec_get_Ok _ _ _) Hoi). cbn [res_bind].
  rewrite (proj2 (vec_get_Ok _ _ _) Hoo). cbn [res_bind].
  assert (represents ins I) as HI by done. assert (represents outs O) as HO by done.
  case_decide as Hch.
  - destruct (represents_update ins I k input _ HI Hk Hin) as [-> HI2]. cbn [res_bind].
    destruct (represents_update outs O k out _ HO Hk Hout) as [-> HO2]. cbn [res_bind].
    do 3 eexists. split_and!; [done..|]. intros _ Hfi Hfo. exfalso. destruct Hch as [Hne|Hne]; apply Hne.
    + eapply repr_unique; [exact Hin|]. eapply repr_ext; [|by apply HI']. intros r. by rewrite <- Hfi.
    + eapply repr_unique; [exact Hout|]. eapply repr_ext; [|by apply HO']. intros r. by rewrite <- Hfo.
  - apply Decidable.not_or in Hch as [E1%dec_stable E2%dec_stable]. subst old_in old_out.
    do 3 eexists. split; [done|]. split_and!.
    + by eapply represents_same.
    + by eapply represents_same.
    + done.
    + done.
Qed.

(** Monotonicity of the equations. *)
Lemma flow_out_mono (I I' : nat → N → Prop) k r :
  (∀ k r, I k r → I' k r) → flow_out I k r → flow_out I' k r.
Proof. intros H (t & He & Ht). exists t. auto. Qed.

Lemma flow_in_mono (I I' : nat → N → Prop) k r :
  (∀ k r, I k r → I' k r) → flow_in I k r → flow_in I' k r.
Proof. intros H [?|[Ho Hk]]; [by left|]. right. split; [by eapply flow_out_mono|done]. Qed.

Lemma live_flow_in k r : flow_in live_from k r ↔ live_from k r.
Proof.
  split.
  - intros [?|[(t & He & Ht) Hk]]; [by apply live_gen | by eapply live_step].
  - destruct 1 as [k r HG|k t r Hk He Ht]; [by left|]. right. split; [|done]. by exists t.
Qed.

(** The invariant of a state: below its own equations, below the solution. *)
Record sound (I O : nat → N → Prop) : Prop := {
  sound_in : ∀ k r, I k r → flow_in I k r;
  sound_out : ∀ k r, O k r → flow_out I k r;
  sound_live : ∀ k r, I k r → live_from k r;
}.

Lemma sound_update I O k :
  sound I O → (∀ j r, I j r → update I k (flow_in I k) j r) ∧
  sound (update I k (flow_in I k)) (update O k (flow_out I k)).
Proof.
  intros [H1 H2 H3].
  assert (∀ j r, I j r → update I k (flow_in I k) j r) as Hup.
  { intros j r Hj. destruct (decide (j = k)) as [->|]; [rewrite update_eq; by apply H1|].
    by rewrite update_ne. }
  split; [done|]. constructor; intros j r; (destruct (decide (j = k)) as [->|];
    [rewrite !update_eq|rewrite !update_ne by done]); intros Hj.
  - by eapply flow_in_mono.
  - eapply flow_in_mono; [done|]. auto.
  - by eapply flow_out_mono.
  - eapply flow_out_mono; [done|]. auto.
  - apply live_flow_in. eapply flow_in_mono; [|done]. auto.
  - auto.
Qed.

(** One round, started in a sound state. *)
Lemma round_ok rpo ins outs I O :
  (∀ k, k ∈ rpo → k < n) → represents ins I → represents outs O → sound I O →
  ∃ ins' outs' changed I' O', round g W sums rpo (ins, outs) = Ok (ins', outs', changed) ∧
    represents ins' I' ∧ represents outs' O' ∧ sound I' O' ∧
    (∀ k r, I k r → I' k r) ∧
    (∀ k r, k ∈ rpo → flow_in I k r → I' k r) ∧ (∀ k r, k ∈ rpo → flow_out I k r → O' k r) ∧
    (changed = false → ins' = ins ∧ outs' = outs) ∧
    ((∀ k r, flow_in I k r ↔ I k r) → (∀ k r, flow_out I k r ↔ O k r) → changed = false).
Proof.
  intros Hrpo HI HO Hs. unfold round.
  destruct (fold_res_inv (S := flow_state * bool) (round_block g W sums) (λ pre st,
    ∃ ins' outs' changed I' O', st = (ins', outs', changed) ∧
    represents ins' I' ∧ represents outs' O' ∧ sound I' O' ∧ (∀ k r, I k r → I' k r) ∧
    (∀ k r, k ∈ pre → flow_in I k r → I' k r) ∧ (∀ k r, k ∈ pre → flow_out I k r → O' k r) ∧
    (changed = false → ins' = ins ∧ outs' = outs) ∧
    ((∀ k r, flow_in I k r ↔ I k r) → (∀ k r, flow_out I k r ↔ O k r) →
      changed = false ∧ (∀ k r, I' k r ↔ I k r) ∧ (∀ k r, O' k r ↔ O k r)))
    rpo ((ins, outs) : flow_state, false)) as (st & -> & ins' & outs' & ch & I' & O' & -> & H).
  - exists ins, outs, false, I, O. split_and!; try done; by intros ???%elem_of_nil.
  - intros pre k post st Erpo (ins1 & outs1 & ch1 & I1 & O1 & -> & HI1 & HO1 & Hs1 & Hup & Hin & Hout & Hch & Hfix).
    assert (k < n) as Hk by (apply Hrpo; rewrite Erpo; set_solver).
    destruct (round_block_ok ins1 outs1 ch1 I1 O1 k HI1 HO1 Hk)
      as (ins2 & outs2 & ch2 & E & HI2 & HO2 & Hch2 & Hfix2).
    destruct (sound_update I1 O1 k Hs1) as [Hup2 Hs2].
    exists (ins2, outs2, ch2). split; [done|].
    exists ins2, outs2, ch2, (update I1 k (flow_in I1 k)), (update O1 k (flow_out I1 k)).
    split_and!; [done..| | | | |].
    + auto.
    + intros j r [Hj| ->%list_elem_of_singleton]%elem_of_app Hf; [by auto|].
      rewrite update_eq. by eapply flow_in_mono.
    + intros j r Hj Hf. destruct (decide (j = k)) as [->|Hne].
      * rewrite update_eq. by eapply flow_out_mono.
      * rewrite update_ne by done. apply Hout; [|done]. set_solver.
    + intros E2. destruct (Hch2 E2) as (E1 & -> & ->). auto.
    + intros Hfi Hfo. destruct (Hfix Hfi Hfo) as (E1 & HeI & HeO).
      assert (∀ j r, flow_out I1 j r ↔ flow_out I j r) as Ho.
      { intros j r. split; apply flow_out_mono; intros; by apply HeI. }
      assert (∀ j r, flow_in I1 j r ↔ flow_in I j r) as Hi.
      { intros j r. split; apply flow_in_mono; intros; by apply HeI. }
      split_and!.
      * apply Hfix2; [done|..]; intros r; [rewrite Hi, Hfi|rewrite Ho, Hfo]; by rewrite ?HeI, ?HeO.
      * intros j r. destruct (decide (j = k)) as [->|]; [rewrite update_eq, Hi; apply Hfi|].
        rewrite update_ne by done. apply HeI.
      * intros j r. destruct (decide (j = k)) as [->|]; [rewrite update_eq, Ho; apply Hfo|].
        rewrite update_ne by done. apply HeO.
  - exists ins', outs', ch, I', O'. split; [done|].
    destruct H as (? & ? & ? & ? & ? & ? & ? & Hf). split_and!; try done. intros Hfi Hfo. by apply Hf.
Qed.

(** Liveness along paths of bounded length. *)
Inductive live_within (r : N) : nat → nat → Prop :=
  | within_gen m k : G k r → live_within r m k
  | within_step m k t : ¬ K k r → edge k t → live_within r m t → live_within r (S m) k.

(** Paths, as their blocks, to cut cycles. *)
Inductive live_path (r : N) : nat → list nat → Prop :=
  | path_gen k : G k r → live_path r k [k]
  | path_step k t p : ¬ K k r → edge k t → live_path r t p → live_path r k (k :: p).

Lemma live_path_suffix r t p k :
  live_path r t p → k ∈ p → ∃ p', live_path r k p' ∧ p' `suffix_of` p.
Proof.
  induction 1 as [t HG|t t' p Hk He Hp IH]; intros Hin.
  - apply list_elem_of_singleton in Hin as ->. exists [t]. split; [by constructor|done].
  - apply elem_of_cons in Hin as [->|Hin].
    + exists (t :: p). split; [by eapply path_step|done].
    + destruct (IH Hin) as (p' & Hp' & Hs). exists p'. split; [done|]. by apply suffix_cons_r.
Qed.

Lemma live_simple_path k r : live_from k r → ∃ p, live_path r k p ∧ NoDup p.
Proof.
  induction 1 as [k r HG|k t r Hk He _ (p & Hp & Hnd)].
  - exists [k]. split; [by constructor | apply NoDup_singleton].
  - destruct (decide (k ∈ p)) as [Hin|Hin].
    + destruct (live_path_suffix r t p k Hp Hin) as (p' & Hp' & [q ->]). exists p'.
      split; [done|]. by apply NoDup_app in Hnd as (_ & _ & ?).
    + exists (k :: p). split; [by eapply path_step | by constructor].
Qed.

Lemma live_path_within r k p m : live_path r k p → length p <= S m → live_within r m k.
Proof.
  intros H. revert m. induction H as [k HG|k t p Hk He Hp IH]; intros m Hm; [by apply within_gen|].
  destruct m as [|m]; simpl in Hm; [destruct Hp; simpl in Hm; lia|].
  eapply within_step; [done..|]. apply IH. lia.
Qed.

Lemma live_path_bound r k p : live_path r k p → Forall (λ j, j < n) p.
Proof.
  induction 1 as [k HG|k t p Hk He Hp IH]; constructor; eauto. by apply edge_lt in He as [? _].
Qed.

Lemma live_within_n k r : live_from k r → live_within r (n - 1) k.
Proof.
  intros (p & Hp & Hnd)%live_simple_path. eapply live_path_within; [done|].
  assert (length p <= n); [|lia]. rewrite <- (length_seq n 0) at 1.
  apply submseteq_length, NoDup_submseteq; [done|]. intros x Hx.
  apply live_path_bound in Hp. rewrite Forall_forall in Hp. apply elem_of_seq.
  specialize (Hp x Hx). lia.
Qed.

(** What [m] rounds have found. *)
Definition complete (m : nat) (I O : nat → N → Prop) : Prop :=
  (∀ j k r, j < m → live_within r j k → I k r) ∧
  (∀ j k t r, S j < m → edge k t → live_within r j t → O k r).

Lemma complete_round m I O I' O' :
  complete m I O → (∀ k r, k < n → flow_in I k r → I' k r) →
  (∀ k r, k < n → flow_out I k r → O' k r) → complete (S m) I' O'.
Proof.
  intros [H1 H2] Hin Hout. split.
  - intros j k r Hj Hl. destruct Hl as [j k HG|j k t Hk He Hl].
    + apply Hin; [by eapply Hdom | by left].
    + apply Hin; [by apply edge_lt in He as [? _]|]. right. split; [|done].
      exists t. split; [done|]. eapply H1; [|done]. lia.
  - intros j k t r Hj He Hl. apply Hout; [by apply edge_lt in He as [? _]|].
    exists t. split; [done|]. eapply H1; [|done]. lia.
Qed.

Lemma iterate_ok rpo fuel m ins outs I O :
  (∀ k, k ∈ rpo ↔ k < n) → n + 2 <= fuel + m → m <= n + 1 →
  represents ins I → represents outs O → sound I O → complete m I O →
  ∃ ins' outs', iterate fuel g W sums rpo (ins, outs) = Ok (ins', outs') ∧
    represents ins' live_from ∧ represents outs' (flow_out live_from).
Proof.
  intros Hrpo. revert m ins outs I O.
  induction fuel as [|fuel IH]; intros m ins outs I O Hf Hm HI HO Hs Hcomp; [lia|]. cbn [iterate].
  destruct (round_ok rpo ins outs I O) as (ins1 & outs1 & ch & I1 & O1 & -> & HI1 & HO1 & Hs1 & Hup & Hin & Hout & Hch & Hfix);
    [by intros ? ?%Hrpo|done..|]. cbn [res_bind].
  destruct ch.
  - apply (IH (S m) ins1 outs1 I1 O1); [lia| |done..|].
    + destruct (decide (m = n + 1)) as [->|]; [|lia]. exfalso.
      destruct Hcomp as [Hc1 Hc2], Hs as [S1 S2 S3].
      assert (∀ k r, live_from k r → I k r) as HL.
      { intros k r Hl%live_within_n. eapply (Hc1 (n - 1)); [lia|done]. }
      assert (∀ k r, flow_in I k r ↔ I k r) as F1.
      { intros k r. split; [|apply S1]. intros Hfi. apply HL, live_flow_in.
        eapply flow_in_mono; [|done]. done. }
      assert (∀ k r, flow_out I k r ↔ O k r) as F2; [|by specialize (Hfix F1 F2)].
      intros k r. split; [|apply S2]. intros (t & He & Ht).
      apply (Hc2 (n - 1) k t); [|done|by apply live_within_n, S3].
      apply edge_lt in He as [? _]. lia.
    + eapply complete_round; [done|..]; intros k r Hk; [apply Hin|apply Hout]; by apply Hrpo.
  - destruct (Hch eq_refl) as [-> ->].
    assert (∀ k r, k < n → I1 k r ↔ I k r) as HeI.
    { intros k r Hk. destruct HI as [Hl HI], HI1 as [_ HI1].
      destruct (lookup_lt_is_Some_2 ins k) as [v Hv]; [lia|].
      rewrite <- (proj2 (HI k v Hv)), <- (proj2 (HI1 k v Hv)). done. }
    destruct Hs as [S1 S2 S3].
    assert (∀ k r, live_from k r → I k r) as HL.
    { induction 1 as [k r HG|k t r Hk He _ IHl].
      - pose proof (Hdom _ _ HG). apply HeI; [done|]. apply Hin; [by apply Hrpo|by left].
      - destruct (edge_lt _ _ He). apply HeI; [done|]. apply Hin; [by apply Hrpo|].
        right. split; [|done]. by exists t. }
    exists ins, outs. split; [done|]. split; (split; [first [apply HI | apply HO]|]); intros k v Hv.
    + eapply repr_ext; [|by apply HI]. intros r. split; auto.
    + destruct HO1 as [Hl1 HO1]. eapply repr_ext; [|by apply HO1]. intros r.
      assert (k < n) by (apply lookup_lt_Some in Hv; lia). split.
      * intros (t & He & Ht)%(sound_out _ _ Hs1). exists t. split; [done|]. by apply (sound_live _ _ Hs1).
      * intros Hfo. apply Hout; [by apply Hrpo|]. eapply flow_out_mono; [|done]. auto.
Qed.
End dataflow.

(** ** Block-level result *)

Section analysis.
Context (f : IRFunction) (g : Cfg) (Hg : graph_ok f g).
#[local] Abbreviation W := (words_for (reg_count f)).

(** Liveness at the entry and at the exit of a block. *)
Definition live_in : nat → N → Prop := live_from g (gen_set f g) (kill_set f g).
Definition live_out : nat → N → Prop := flow_out g live_in.

Lemma block_liveness_ok :
  ∃ ins outs, block_liveness f g = Ok (ins, outs, reg_count f) ∧
    represents g W ins live_in ∧ represents g W outs live_out.
Proof.
  unfold block_liveness.
  destruct (exception_targets_ok g) as (ts & -> & Hl & Hts); [apply Hg|]. cbn [res_bind].
  destruct (map_res_ok (block_summary f W ts) (λ kb s, repr W s.1 (gen_set f g kb.1) ∧
    repr W s.2 (kill_set f g kb.1)) (enumerate (blocks g))) as (sums & -> & Hsums).
  { intros [k b] Hb%elem_of_enumerate.
    destruct (block_summary_ok f g ts k b Hg Hb Hl Hts) as (gen & kill & -> & ? & ?). by exists (gen, kill). }
  cbn [res_bind]. destruct (rpo_ok f g Hg) as (rpo & -> & Hrpo). cbn [res_bind].
  destruct (iterate_ok g W sums (gen_set f g) (kill_set f g)) with (rpo := rpo) (fuel := max_rounds g)
    (m := 0) (ins := replicate (length (blocks g)) (replicate W 0%N))
    (outs := replicate (length (blocks g)) (replicate W 0%N)) (I := λ (_ : nat) (_ : N), False)
    (O := λ (_ : nat) (_ : N), False) as (ins & outs & -> & HI & HO).
  - apply Hg.
  - apply Forall2_length in Hsums. by rewrite length_enumerate in Hsums.
  - intros k gen kill Hs. destruct (Forall2_lookup_r _ _ _ _ _ Hsums Hs) as ([k' b] & Hk & H).
    apply enumerate_lookup in Hk as [E _]. simpl in *. by subst.
  - intros k r (b & Hb & _). by eapply lookup_lt_Some.
  - done.
  - unfold max_rounds. lia.
  - lia.
  - split; [apply length_replicate|]. intros k v [-> _]%lookup_replicate. apply repr_zero.
  - split; [apply length_replicate|]. intros k v [-> _]%lookup_replicate. apply repr_zero.
  - by constructor.
  - split; intros; lia.
  - exists ins, outs. by split.
Qed.

(** The equation of a block, exception entries included. *)
Lemma live_in_block k b r :
  blocks g !! k = Some b →
  live_in k r ↔ back f (block_indices b) (live_out k) r ∧ ¬ (exc_target g k ∧ r = 0%N).
Proof.
  intros Hb. unfold live_in. rewrite <- live_flow_in.
  rewrite (back_summary f _ (live_out k) r (block_indices_bound f g k b Hg Hb)).
  unfold flow_in, gen_set, kill_set. setoid_rewrite Hb.
  change (flow_out g (live_from g (gen_set f g) (kill_set f g)) k r) with (live_out k r). split.
  - intros [(? & [= <-] & ? & ?)|[? Hk]]; [tauto|]. split.
    + right. split; [done|]. intros ?. apply Hk. eauto.
    + intros ?. apply Hk. eauto.
  - intros [[?|[? Hk]] Hx]; [left; eauto|]. right. split; [done|].
    intros (? & [= <-] & [?|?]); tauto.
Qed.

(** ** Rows *)

Definition row_get (rows : list N) (i : nat) : list N := take W (drop (i * W) rows).

Lemma copy_row_ok n rows i src :
  length rows = n * W → i < n → length src = W →
  ∃ rows', copy_row W rows i src = Ok rows' ∧ length rows' = n * W ∧ row_get rows' i = src ∧
    ∀ j, j < n → j ≠ i → row_get rows' j = row_get rows j.
Proof.
  intros Hl Hi Hs. unfold copy_row.
  assert ((i + 1) * W <= n * W) by (apply Nat.mul_le_mono_r; lia).
  rewrite decide_True by (split; [lia|done]). eexists. split; [done|].
  assert (length (take (i * W) rows) = i * W) as Ht by (rewrite length_take; lia).
  split_and!.
  - rewrite !length_app, Ht, length_drop. lia.
  - unfold row_get. rewrite drop_app_length' by done. by rewrite take_app_length'.
  - intros j Hj Hne. unfold row_get. apply list_eq. intros x.
    destruct (decide (x < W)); [|by rewrite !lookup_take_ge by lia].
    rewrite !lookup_take_lt, !lookup_drop by done.
    destruct (decide (j < i)) as [Hji|Hji].
    + assert ((j + 1) * W <= i * W) by (apply Nat.mul_le_mono_r; lia).
      rewrite lookup_app_l by lia. rewrite lookup_take_lt; [done|lia].
    + assert ((i + 1) * W <= j * W) by (apply Nat.mul_le_mono_r; lia).
      rewrite lookup_app_r, Ht by lia. rewrite lookup_app_r by lia. rewrite lookup_drop. f_equal. lia.
Qed.

Definition rows_ok (rows : list N * list N) : Prop :=
  length rows.1 = length (insts f) * W ∧ length rows.2 = length (insts f) * W.

(** The scan of [is'] fills their rows and no others. *)
Lemma block_scan_ok is' live S rows :
  Forall (λ i, i < length (insts f)) is' → NoDup is' → repr W live S → rows_ok rows →
  ∃ live' rows', fold_res (row_step f W) (rev is') (live, rows) = Ok (live', rows') ∧
    repr W live' (back f is' S) ∧ rows_ok rows' ∧
    (∀ i pre post, is' = pre ++ i :: post →
       repr W (row_get rows'.2 i) (back f post S) ∧ repr W (row_get rows'.1 i) (back f (i :: post) S)) ∧
    (∀ i, i < length (insts f) → i ∉ is' →
       row_get rows'.1 i = row_get rows.1 i ∧ row_get rows'.2 i = row_get rows.2 i).
Proof.
  intros H Hnd HS Hrows. induction H as [|i is' Hi Hall IH]; cbn [rev].
  { exists live, rows. split_and!; [done..| |done]. by intros ? [] ?. }
  apply NoDup_cons in Hnd as [Hni Hnd].
  destruct (IH Hnd) as (l1 & [bf1 af1] & E & H1 & [Hlb Hla] & Hin & Hout). clear IH.
  rewrite fold_res_app, E. cbn [res_bind fold_res row_step]. simpl in Hlb, Hla.
  destruct (copy_row_ok (length (insts f)) af1 i l1) as (af2 & -> & Hla2 & Hai & Hao);
    [done|done|apply H1|]. cbn [res_bind].
  destruct (scan_inst_ok f l1 _ i Hi H1) as (l2 & -> & H2). cbn [res_bind].
  destruct (copy_row_ok (length (insts f)) bf1 i l2) as (bf2 & -> & Hlb2 & Hbi & Hbo);
    [done|done|apply H2|]. cbn [res_bind].
  exists l2, (bf2, af2). split_and!; [done..| |]; simpl in *.
  - intros j pre post Ep. destruct pre as [|x pre]; simpl in Ep; injection Ep as <- E'; subst is'.
    + rewrite Hai, Hbi. done.
    + assert (j ≠ i) by (intros ->; apply Hni; set_solver).
      assert (j < length (insts f)) by (rewrite Forall_forall in Hall; apply Hall; set_solver).
      rewrite Hao, Hbo by done. by eapply Hin.
  - intros j Hj Hnj. apply not_elem_of_cons in Hnj as [Hne Hnj].
    rewrite Hao, Hbo by done. by apply Hout.
Qed.

Lemma inst_liveness_ok outs :
  represents g W outs live_out →
  ∃ rows, inst_liveness f g outs (reg_count f) = Ok rows ∧ rows_ok rows ∧
    ∀ k b i, blocks g !! k = Some b → in_block b i →
      repr W (row_get rows.1 i) (back f (seq i (range_end b - i)) (live_out k)) ∧
      repr W (row_get rows.2 i) (back f (seq (S i) (range_end b - S i)) (live_out k)).
Proof.
  intros [Hol HO]. unfold inst_liveness.
  destruct (exception_targets_ok g) as (ts & -> & Hl & Hts); [apply Hg|]. cbn [res_bind].
  destruct (fold_res_inv
    (λ rows ib, let* (_, rows) := block_rows f W outs ts rows ib in Ok rows)
    (λ pre rows, rows_ok rows ∧ ∀ k b i, (k, b) ∈ pre → in_block b i →
      repr W (row_get rows.1 i) (back f (seq i (range_end b - i)) (live_out k)) ∧
      repr W (row_get rows.2 i) (back f (seq (S i) (range_end b - S i)) (live_out k)))
    (enumerate (blocks g)) (replicate (length (insts f) * W) 0%N, replicate (length (insts f) * W) 0%N))
    as (rows & -> & Hrows & Hall).
  - split; [split; apply length_replicate|]. intros k b i Hin. by apply elem_of_nil in Hin.
  - intros pre [k b] post rows E [Hrows Hpre].
    assert (blocks g !! k = Some b) as Hb by (apply elem_of_enumerate; rewrite E; set_solver).
    apply lookup_lt_Some in Hb as Hk. unfold block_rows. cbn [fst snd].
    destruct (lookup_lt_is_Some_2 outs k) as [live Hlive]; [lia|].
    rewrite (proj2 (vec_get_Ok _ _ _) Hlive). cbn [res_bind].
    destruct (block_scan_ok (block_indices b) live (live_out k) rows)
      as (live' & rows' & -> & Hlive' & Hrows' & Hin & Hout);
      [by eapply block_indices_bound | apply NoDup_seq | by apply HO | done |]. cbn [res_bind].
    destruct (lookup_lt_is_Some_2 ts k) as [exc Hexc]; [lia|].
    rewrite (proj2 (vec_get_Ok _ _ _) Hexc). cbn [res_bind].
    assert (∃ l2, (if exc then bitset_clear live' 0 else Ok live') = Ok l2) as [l2 ->].
    { destruct exc; [|eauto]. destruct (repr_clear _ _ _ 0 Hlive' (zero_fits f)) as (l2 & -> & _). eauto. }
    cbn [res_bind]. exists rows'. split; [done|]. split; [done|].
    intros k' b' i Hkb Hi.
    assert (blocks g !! k' = Some b') as Hb'.
    { apply elem_of_enumerate. rewrite E. set_solver. }
    destruct (decide (in_block b i)) as [Hib|Hib].
    + pose proof (graph_disjoint _ _ Hg _ _ _ _ _ Hb' Hb Hi Hib) as ->.
      rewrite Hb in Hb'. injection Hb' as <-. destruct Hib as [Hi1 Hi2].
      destruct (Hin i (seq (range_start b) (i - range_start b)) (seq (S i) (range_end b - S i))) as [Ha Hbf].
      { unfold block_indices.
        replace (range_end b - range_start b) with ((i - range_start b) + S (range_end b - S i)) by lia.
        rewrite seq_app. by replace (range_start b + (i - range_start b)) with i by lia. }
      split; [|done]. replace (range_end b - i) with (S (range_end b - S i)) by lia. exact Hbf.
    + destruct (Hout i) as [-> ->].
      * pose proof (graph_ranges _ _ Hg _ _ Hb'). destruct Hi. lia.
      * intros Hin'%elem_of_seq. apply Hib. split; lia.
      * apply Hpre; [|done]. apply elem_of_app in Hkb as [?|Hkb]; [done|].
        apply list_elem_of_singleton in Hkb as [= -> ->]. done.
  - exists rows. split_and!; [done|apply Hrows..|]. intros k b i Hb. apply Hall. by apply elem_of_enumerate.
Qed.

(** ** Liveness of single positions *)

(** Register [r] is live before instruction [i]: read there, or not written
    there and live at the next position of the block, or, after its last
    instruction, at the start of a successor block; the entry of a handler
    writes register 0. *)
Inductive live_at : nat → N → Prop :=
  | at_use i inst r :
      insts f !! i = Some inst → r ∈ use_regs inst → live_at i r
  | at_next i inst r k b :
      insts f !! i = Some inst → def_reg inst ≠ Some r →
      blocks g !! k = Some b → in_block b i → in_block b (S i) → live_at (S i) r → live_at i r
  | at_edge i inst r k b t b' :
      insts f !! i = Some inst → def_reg inst ≠ Some r →
      blocks g !! k = Some b → in_block b i → range_end b = S i →
      edge g k t → blocks g !! t = Some b' → range_start b' < range_end b' →
      ¬ (exc_target g t ∧ r = 0%N) → live_at (range_start b') r → live_at i r.

(** The backward scan from a set all of whose members are live at the end. *)
Lemma back_live_at k b m i (S : N → Prop) r :
  blocks g !! k = Some b → i + m = range_end b → in_block b i →
  (∀ inst r, insts f !! (range_end b - 1) = Some inst → def_reg inst ≠ Some r → S r →
     live_at (range_end b - 1) r) →
  back f (seq i m) S r → live_at i r.
Proof.
  intros Hb Hm Hin HS. revert i r Hm Hin. induction m as [|m IH]; intros i r Hm Hin; [destruct Hin; lia|].
  cbn [seq back foldr]. intros (inst & Hi & [Hu|[Hr Hd]]); [by eapply at_use|].
  destruct m as [|m].
  - replace i with (range_end b - 1) in * by (destruct Hin; lia). by eapply HS.
  - assert (in_block b (Datatypes.S i)) by (destruct Hin; split; lia).
    eapply at_next; [done..|]. apply IH; [lia|done|done].
Qed.

(** A register live at the entry of a block is live at its first instruction. *)
Lemma live_in_at t r :
  live_in t r → ∃ b, blocks g !! t = Some b ∧ range_start b < range_end b ∧
    ¬ (exc_target g t ∧ r = 0%N) ∧ live_at (range_start b) r.
Proof.
  unfold live_in. induction 1 as [k r (b & Hb & Hback & Hx)|k t r Hk He _ (b' & Hb' & Hne' & Hx' & IH)].
  - exists b. pose proof (graph_ranges _ _ Hg k b Hb) as Hr. unfold block_indices in Hback.
    assert (range_start b < range_end b) as Hne.
    { destruct (decide (range_start b < range_end b)); [done|].
      by replace (range_end b - range_start b) with 0 in Hback by lia. }
    split_and!; [done..|]. eapply (back_live_at k b); [done| |split; lia| |exact Hback]; [lia|done].
  - pose proof He as (b & kd & Hb & Hin). exists b. pose proof (graph_ranges _ _ Hg k b Hb) as Hr.
    assert (range_start b < range_end b) as Hne.
    { destruct (decide (range_start b < range_end b)); [done|].
      rewrite (graph_empty _ _ Hg k b Hb) in Hin by lia. by apply elem_of_nil in Hin. }
    split_and!; [done|done|intros ?; apply Hk; exists b; tauto|].
    eapply (back_live_at k b (range_end b - range_start b) _ (λ r', r' = r)); [done|lia|split; lia| |].
    + intros inst r' Hi Hd ->. apply (at_edge _ inst r k b t b'); [done..| |lia|done|done|done|done|done]. split; lia.
    + apply back_summary; [by eapply block_indices_bound|]. right. split; [done|].
      intros ?. apply Hk. exists b. auto.
Qed.

(** The sets computed are the registers live at each position. *)
Lemma back_iff_live k b i r :
  blocks g !! k = Some b → in_block b i →
  back f (seq i (range_end b - i)) (live_out k) r ↔ live_at i r.
Proof.
  intros Hb Hin. split.
  - apply (back_live_at k b); [done|destruct Hin; lia|done|].
    intros inst r' Hi Hd (t & He & (b' & Hb' & Hne & Hx & Hl)%live_in_at).
    destruct Hin. apply (at_edge _ inst r' k b t b'); [done..| |lia|done|done|done|done|done]. split; lia.
  - intros Hl. revert k b Hb Hin.
    induction Hl as [i inst r Hi Hu|i inst r k0 b0 Hi Hd Hb0 Hi0 Hs0 _ IH
                    |i inst r k0 b0 t b' Hi Hd Hb0 Hi0 He0 Hedge Hb' Hne Hx _ IH]; intros k b Hb Hin.
    + replace (range_end b - i) with (S (range_end b - S i)) by (destruct Hin; lia).
      cbn [seq back foldr]. exists inst. auto.
    + pose proof (graph_disjoint _ _ Hg _ _ _ _ _ Hb0 Hb Hi0 Hin) as ->.
      rewrite Hb in Hb0. injection Hb0 as <-.
      replace (range_end b - i) with (S (range_end b - S i)) by (destruct Hin; lia).
      cbn [seq back foldr]. exists inst. split; [done|]. right. split; [|done]. by apply (IH k b).
    + pose proof (graph_disjoint _ _ Hg _ _ _ _ _ Hb0 Hb Hi0 Hin) as ->.
      rewrite Hb in Hb0. injection Hb0 as <-.
      replace (range_end b - i) with 1 by (destruct Hin; lia).
      cbn [seq back foldr]. exists inst. split; [done|]. right. split; [|done].
      exists t. split; [done|]. apply (live_in_block t b'); [done|]. split; [|done].
      apply (IH t b'); [done|]. split; lia.
Qed.
End analysis.

(** ** The analysis of a built graph *)

(** Register [r] is live after instruction [i]. *)
Definition live_after (f : IRFunction) (g : Cfg) (i : nat) (r : N) : Prop :=
  ∃ k b, blocks g !! k = Some b ∧ in_block b i ∧
    (in_block b (S i) ∧ live_at f g (S i) r ∨
     range_end b = S i ∧ ∃ t b', edge g k t ∧ blocks g !! t = Some b' ∧
       range_start b' < range_end b' ∧ ¬ (exc_target g t ∧ r = 0%N) ∧ live_at f g (range_start b') r).

Lemma back_iff_live_after f g k b i r :
  graph_ok f g → blocks g !! k = Some b → in_block b i →
  back f (seq (S i) (range_end b - S i)) (live_out f g k) r ↔ live_after f g i r.
Proof.
  intros Hg Hb Hin. destruct (decide (in_block b (S i))) as [Hs|Hs].
  - rewrite (back_iff_live f g Hg k b (S i) r Hb Hs). split.
    + intros H. exists k, b. auto.
    + intros (k' & b' & Hb' & Hin' & H).
      pose proof (graph_disjoint _ _ Hg _ _ _ _ _ Hb' Hb Hin' Hin) as ->.
      rewrite Hb in Hb'. injection Hb' as <-. destruct H as [[_ H]|[E _]]; [done|]. destruct Hs; lia.
  - assert (range_end b = S i) as E.
    { unfold in_block in *. destruct (decide (range_end b = S i)); [done|]. destruct Hs. lia. }
    rewrite E, Nat.sub_diag. cbn [seq back foldr]. split.
    + intros (t & He & (b' & Hb' & Hne & Hx & Hl)%(live_in_at f g Hg)).
      exists k, b. split_and!; [done|apply Hin..|]. right. split; [done|]. by exists t, b'.
    + intros (k' & b0 & Hb0 & Hin0 & H).
      pose proof (graph_disjoint _ _ Hg _ _ _ _ _ Hb0 Hb Hin0 Hin) as ->.
      rewrite Hb in Hb0. injection Hb0 as <-.
      destruct H as [[? _]|(_ & t & b' & He & Hb' & Hne & Hx & Hl)]; [done|].
      exists t. split; [done|]. apply (live_in_block f g Hg t b'); [done|]. split; [|done].
      apply (back_iff_live f g Hg t b' (range_start b')); [done|split; lia|done].
Qed.

Lemma words_for_pos f : 0 < words_for (reg_count f).
Proof.
  unfold words_for. pose proof (N.div_str_pos (reg_count f + 1 + 63) 64). lia.
Qed.

(** The contents of a [LiveInfo]. *)
Record live_info_ok (f : IRFunction) (g : Cfg) (info : LiveInfo) : Prop := {
  info_words : li_words info = words_for (reg_count f);
  info_before : ∀ i r, i < length (insts f) →
    bitset_get (live_row info (inst_live_before info) i) r = true ↔ live_at f g i r;
  info_after : ∀ i r, i < length (insts f) →
    bitset_get (live_row info (inst_live_after info) i) r = true ↔ live_after f g i r;
  info_lengths : length (inst_live_before info) = length (insts f) * li_words info ∧
    length (inst_live_after info) = length (insts f) * li_words info;
  info_wf : ∀ i, i < length (insts f) →
    wf_bits (li_words info) (live_row info (inst_live_before info) i) ∧
    wf_bits (li_words info) (live_row info (inst_live_after info) i);
  info_blocks : length (block_live_in info) = length (blocks g) ∧
    ∀ k s r, block_live_in info !! k = Some s →
      bitset_get s r = true ↔ ∃ b, blocks g !! k = Some b ∧ range_start b < range_end b ∧
        ¬ (exc_target g k ∧ r = 0%N) ∧ live_at f g (range_start b) r;
}.

Lemma position_in_block f g i :
  cfg_ok f g → i < length (insts f) → ∃ k b, blocks g !! k = Some b ∧ in_block b i.
Proof.
  intros Hok Hi. destruct (tiles_cover _ _ (ok_tiles _ _ Hok) i Hi) as (k & b & Hb & Hin).
  exists k, b. split; [|done]. unfold real_blocks in Hb. by apply lookup_take_Some in Hb as [? _].
Qed.

Lemma liveness_spec f g :
  cfg_ok f g → insts f ≠ [] → ∃ info, liveness f g = Ok info ∧ live_info_ok f g info.
Proof.
  intros Hok Hne. pose proof (cfg_graph_ok f g Hok) as Hg. unfold liveness.
  destruct (insts f) as [|i0 is0] eqn:Ei; [done|]. rewrite <- Ei in *. clear Hne Ei i0 is0.
  destruct (block_liveness_ok f g Hg) as (ins & outs & -> & HI & HO). cbn [res_bind].
  destruct (inst_liveness_ok f g Hg outs HO) as ([bf af] & -> & [Hl1 Hl2] & Hrows). cbn [res_bind].
  eexists. split; [done|]. constructor; cbn [li_words inst_live_before inst_live_after block_live_in].
  - done.
  - intros i r Hi. destruct (position_in_block f g i Hok Hi) as (k & b & Hb & Hin).
    destruct (Hrows k b i Hb Hin) as [[_ H] _]. rewrite <- (back_iff_live f g Hg k b i r Hb Hin).
    apply H.
  - intros i r Hi. destruct (position_in_block f g i Hok Hi) as (k & b & Hb & Hin).
    destruct (Hrows k b i Hb Hin) as [_ [_ H]].
    rewrite <- (back_iff_live_after f g k b i r Hg Hb Hin). apply H.
  - done.
  - intros i Hi. destruct (position_in_block f g i Hok Hi) as (k & b & Hb & Hin).
    destruct (Hrows k b i Hb Hin) as [[? _] [? _]]. done.
  - destruct HI as [Hl HI]. split; [done|]. intros k s r Hs. rewrite (proj2 (HI k s Hs)). split.
    + apply live_in_at, Hg.
    + intros (b & Hb & Hlt & Hx & Hlive). apply (live_in_block f g Hg k b r Hb). split; [|done].
      apply (back_iff_live f g Hg k b (range_start b)); [done|split; lia|done].
Qed.

(** ** Soundness for the transfers of single instructions *)

(** Register [r] may be read after reaching [i], before it is written, along
    some sequence of control transfers. *)
Inductive flow_live (f : IRFunction) : nat → N → Prop :=
  | flow_use i inst r : insts f !! i = Some inst → r ∈ use_regs inst → flow_live f i r
  | flow_step i inst j r :
      insts f !! i = Some inst → def_reg inst ≠ Some r → flow f i j → flow_live f j r → flow_live f i r.

(** Code without handlers. *)
Definition no_handlers (f : IRFunction) : Prop :=
  Forall (λ inst, i_op inst ≠ TRY_BEGIN ∧ i_op inst ≠ TRY_FINALLY_BEGIN) (insts f).

#[export] Instance no_handlers_dec f : Decision (no_handlers f).
Proof. unfold no_handlers. apply _. Defined.

Lemma flow_live_lt f i r : flow_live f i r → i < length (insts f).
Proof. destruct 1; by eapply lookup_lt_Some. Qed.

Lemma no_handlers_protected f pb pe l : no_handlers f → ¬ protected f pb pe l.
Proof.
  intros Hn (pre & o & body & c & post & E & _ & _ & [Ho _] & _).
  unfold no_handlers in Hn. rewrite E, Forall_app, Forall_cons in Hn. tauto.
Qed.

Lemma no_handlers_finally f i inst :
  no_handlers f → insts f !! i = Some inst → i_op inst ≠ TRY_FINALLY_BEGIN.
Proof. unfold no_handlers. rewrite Forall_lookup. intros H Hi. by apply (H i inst Hi). Qed.

Lemma no_handlers_exc f g t : cfg_ok f g → no_handlers f → ¬ exc_target g t.
Proof.
  intros Hok Hn (b & [k Hb]%list_elem_of_lookup & Ht).
  destruct (blocks_cases f g k b Hok Hb) as [Hr|(_ & _ & _ & E)]; [|rewrite E in Ht; by apply elem_of_nil in Ht].
  apply (ok_edges _ _ Hok k b t Exception Hr) in Ht as [Ht|Ht]; [inversion Ht|].
  inversion Ht as [pb pe l p t' Hin|i inst p t' Hi Hinst Hop]; subst.
  - apply try_spans_iff in Hin. by eapply no_handlers_protected.
  - by eapply no_handlers_finally.
Qed.

Lemma real_block g k b : real_blocks g !! k = Some b → blocks g !! k = Some b.
Proof. unfold real_blocks. by intros [? _]%lookup_take_Some. Qed.

Lemma live_after_at f g i inst r :
  insts f !! i = Some inst → def_reg inst ≠ Some r → live_after f g i r → live_at f g i r.
Proof.
  intros Hi Hd (k & b & Hb & Hin & [[Hs Hl]|(He & t & b' & Hedge & Hb' & Hne & Hx & Hl)]).
  - by eapply at_next.
  - by eapply (at_edge _ _ i inst r k b t b').
Qed.

(** A transfer carries liveness backwards. *)
Lemma flow_after f g i j inst r :
  cfg_ok f g → no_handlers f → insts f !! i = Some inst → flow f i j → j < length (insts f) →
  live_at f g j r → live_after f g i r.
Proof.
  intros Hok Hn Hi Hf Hj Hl. apply lookup_lt_Some in Hi as Hlt.
  destruct (tiles_cover _ _ (ok_tiles _ _ Hok) i Hlt) as (k & b & Hb & Hin).
  apply real_block in Hb as Hb1. exists k, b. split; [done|]. split; [done|].
  destruct (flow_covered f g Hok i j k b Hf Hj Hb Hin) as [[-> Hs]|(t & kd & b' & Ht & Hb' & <-)].
  - left. split; [|done]. destruct Hin; split; lia.
  - apply real_block in Hb' as Hb2.
    assert (range_start b' < range_end b') as Hne by (by apply (tiles_nonempty _ _ (ok_tiles _ _ Hok) t b')).
    assert (range_end b = S i ∨ in_block b (S i) ∧ range_start b' = S i) as [He|[Hs Es]].
    { destruct Hf as [i inst' Hi' _|i inst' p Hi' Hs _|i pb pe l p Hpr _ _|i inst' p Hi' Hop _].
      - destruct (decide (range_end b = S i)); [by left|]. right. destruct Hin. split; [split; lia|done].
      - left. by eapply jump_ends_block.
      - by destruct (no_handlers_protected f pb pe l Hn).
      - by destruct (no_handlers_finally f i inst' Hn Hi'). }
    + right. split; [done|]. exists t, b'. split_and!; [by exists b, kd|done..| |done].
      intros [Hx _]. by eapply no_handlers_exc.
    + rewrite Es in *. by left.
Qed.

Lemma flow_live_at f g i r :
  cfg_ok f g → no_handlers f → flow_live f i r → live_at f g i r.
Proof.
  intros Hok Hn H. induction H as [i inst r Hi Hu|i inst j r Hi Hd Hf Hl IH]; [by eapply at_use|].
  eapply live_after_at; [done..|]. eapply flow_after; [done..| |done]. by eapply flow_live_lt.
Qed.

(** ** Properties *)

(** C5: On the graph of any function the liveness analysis reaches its fixed
    point within the number of rounds the code asserts, never indexes out of
    range, and its sets before and after each instruction are exactly the
    registers that are live there, reading the graph from the ends of blocks
    and taking the entry of a handler to write register 0. *)
Theorem liveness_exact f g :
  build_cfg f = Ok g → insts f ≠ [] →
  ∃ info, liveness f g = Ok info ∧ live_info_ok f g info.
Proof. intros [?|[_ Hok]]%build_cfg_inv Hne; [done|]. by apply liveness_spec. Qed.

(** C4: In code without exception handlers the analysis is sound for the
    transfers of single instructions: a register that some execution path
    reads before writing is in the set before every instruction from which
    that path starts. *)
Theorem liveness_sound f g info i r :
  build_cfg f = Ok g → liveness f g = Ok info → no_handlers f → flow_live f i r →
  bitset_get (live_row info (inst_live_before info) i) r = true.
Proof.
  intros [E|[_ Hok]]%build_cfg_inv Hinfo Hn Hl; pose proof (flow_live_lt _ _ _ Hl) as Hi.
  { rewrite E in Hi. simpl in Hi. lia. }
  destruct (liveness_spec f g Hok) as (info' & Hinfo' & Hspec); [intros E; rewrite E in Hi; simpl in Hi; lia|].
  rewrite Hinfo in Hinfo'. injection Hinfo' as <-. apply (info_before _ _ _ Hspec i r Hi).
  by apply flow_live_at.
Qed.

(** A variable written before a [try], overwritten in its body after a call,
    and read by the handler. *)
Definition overwritten_in_try : IRFunction :=
  with_code ir_new
    [MkInst.new STORE_VAR (Reg 1) (Reg 2) (Imm 0);
     MkInst.try_begin 0%N;
     MkInst.call (Reg 5) (Reg 6) (Reg 7) 0;
     MkInst.new STORE_VAR (Reg 1) (Reg 3) (Imm 0);
     MkInst.new TRY_END ONone ONone ONone;
     MkInst.jmp 1%N;
     MkInst.ret (Reg 1) 0 0 0;
     MkInst.ret (Reg 3) 0 0 0]
    [Some 6; Some 7].

(** With handlers the analysis is not sound for single instructions: an
    exception edge leaves from the end of a block only.  In the function
    above the handler reads the first value of register 1 when the call
    raises, and the analysis says that register 1 is not live after that
    value is stored. *)
Theorem liveness_misses_handler_read :
  ∃ g info, build_cfg overwritten_in_try = Ok g ∧ liveness overwritten_in_try g = Ok info ∧
    flow_live overwritten_in_try 1 1 ∧
    bitset_get (live_row info (inst_live_after info) 0) 1 = false.
Proof.
  eexists _, _. split; [vm_compute; reflexivity|]. split; [vm_compute; reflexivity|].
  split; [|vm_compute; reflexivity].
  apply (flow_step _ 1 (MkInst.try_begin 0%N) 2); [done|done|by eapply flow_next; eauto|].
  apply (flow_step _ 2 (MkInst.call (Reg 5) (Reg 6) (Reg 7) 0) 6); [done|done| |].
  - apply (flow_catch _ 2 1 4 0%N 6); [|lia|done].
    exists [MkInst.new STORE_VAR (Reg 1) (Reg 2) (Imm 0)], (MkInst.try_begin 0%N),
      [MkInst.call (Reg 5) (Reg 6) (Reg 7) 0; MkInst.new STORE_VAR (Reg 1) (Reg 3) (Imm 0)],
      (MkInst.new TRY_END ONone ONone ONone),
      [MkInst.jmp 1%N; MkInst.ret (Reg 1) 0 0 0; MkInst.ret (Reg 3) 0 0 0].
    split_and!; try reflexivity; [by split|].
    apply balanced_other; [by intros l [] | discriminate |].
    apply balanced_other; [by intros l [] | discriminate | constructor].
  - apply (flow_use _ 6 (MkInst.ret (Reg 1) 0 0 0)); [done|]. vm_compute. by left.
Qed.

Lemma liveness_exact_witness :
  insts sample_try ≠ [] ∧
  ∃ info, liveness sample_try sample_try_cfg = Ok info ∧ live_info_ok sample_try sample_try_cfg info.
Proof.
  split; [discriminate|].
  apply (liveness_exact sample_try sample_try_cfg); [reflexivity | discriminate].
Defined.

(** A diamond: register 2 is read after the branches meet. *)
Definition sample_diamond : IRFunction :=
  with_code ir_new
    [MkInst.load_const (Reg 2) 0;
     MkInst.jmp_if_false 1 0%N;
     MkInst.load_const (Reg 3) 1;
     MkInst.ret (Reg 2) 0 0 0]
    [Some 3].

Definition diamond_cfg : Cfg :=
  match build_cfg sample_diamond with Ok g => g | _ => cfg_new end.
Definition diamond_info : LiveInfo :=
  match liveness sample_diamond diamond_cfg with Ok i => i | _ => live_info_new end.

Lemma liveness_sound_witness :
  bitset_get (live_row diamond_info (inst_live_before diamond_info) 1) 2 = true.
Proof.
  apply (liveness_sound sample_diamond diamond_cfg diamond_info 1 2%N).
  - reflexivity.
  - vm_compute. reflexivity.
  - apply (bool_decide_unpack _). vm_compute. exact I.
  - apply (flow_step sample_diamond 1 (MkInst.jmp_if_false 1 0%N) 3); [reflexivity | discriminate | |].
    + apply (flow_jump sample_diamond 1 (MkInst.jmp_if_false 1 0%N) 3); [reflexivity | reflexivity |].
      exists 0%N. split; reflexivity.
    + apply (flow_use sample_diamond 3 (MkInst.ret (Reg 2) 0 0 0)); [reflexivity|]. left.
Defined.
