(* ===== verification/Dce.v ===== *)
(** * Dead-code elimination (crates/oxide_dce/src)

    Pass A keeps the instructions of reachable blocks, pass B deletes pure
    instructions whose result no kept instruction reads, pass C compacts the
    code and remaps labels; the precise round deletes pure instructions and
    local stores whose result is not live.  The theorems give the exact sets
    that are deleted. *)

From stdpp Require Import base tactics numbers list option sets relations.
From Stdlib Require Import NArith ZArith Lia.
From S2P Require Import Prelude Opcode IR Contract Cfg Liveness.
#[local] Set Warnings "-clear-no-such-hyp".

Open Scope nat_scope.

(** ** Pass A: reachable blocks *)

(** The work list; every block is expanded once, so one more step than there
    are edges is enough. *)
Fixpoint reach_loop (fuel : nat) (g : Cfg) (reachable : list bool) (stack : list nat)
    : res (list bool) :=
  match stack with
  | [] => Ok reachable
  | b :: stack =>
      match fuel with
      | O => Panic
      | S fuel =>
          let* seen := vec_get reachable b in
          if seen : bool then reach_loop fuel g reachable stack
          else
            let* reachable := vec_set reachable b true in
            let* block := vec_get (blocks g) b in
            reach_loop fuel g reachable (rev (succs block).*1 ++ stack)
      end
  end.

Definition edge_total (g : Cfg) : nat := sum_list ((λ b, length (succs b)) <$> blocks g).

(** Mark the instructions of block [b] if it is reachable. *)
Definition keep_block (g : Cfg) (keep : list bool) (br : nat * bool) : res (list bool) :=
  if br.2 then
    let* block := vec_get (blocks g) br.1 in
    fold_res (λ keep i, vec_set keep i true) (block_indices block) keep
  else Ok keep.

Definition pass_a_reachable (f : IRFunction) (g : Cfg) : res (list bool) :=
  let* reachable := reach_loop (S (edge_total g)) g (replicate (length (blocks g)) false) [entry g] in
  fold_res (keep_block g) (enumerate reachable) (replicate (length (insts f)) false).

(** ** Pass B: unused pure instructions *)

(** The kept instructions with their indices. *)
Definition kept (f : IRFunction) (keep : list bool) : res (list (nat * Inst)) :=
  let* l := map_res (λ ik, if ik.2 : bool then let* inst := vec_get (insts f) ik.1 in Ok [(ik.1, inst)]
                           else Ok []) (enumerate keep) in
  Ok (mjoin l).

(** [use_count[u] += 1], and [-= 1], which never starts from [0]
    ([pass_b_exact]), so that both build profiles agree. *)
Definition count_up (uc : list nat) (u : N) : res (list nat) :=
  let* c := vec_get uc (N.to_nat u) in vec_set uc (N.to_nat u) (c + 1).
Definition count_down (uc : list nat) (u : N) : res (list nat) :=
  let* c := vec_get uc (N.to_nat u) in
  if decide (c = 0) then Panic else vec_set uc (N.to_nat u) (c - 1).

Definition add_definer (ds : list (list nat)) (ii : nat * Inst) : res (list (list nat)) :=
  match def_reg ii.2 with
  | Some r => let* l := vec_get ds (N.to_nat r) in vec_set ds (N.to_nat r) (l ++ [ii.1])
  | None => Ok ds
  end.

(** The label targets as a bit map over the instructions; a position past the
    end is ignored. *)
Definition label_bits (f : IRFunction) : list bool :=
  fold_left (λ bits p, <[p:=true]> bits) (omap id (label_pos f)) (replicate (length (insts f)) false).

(** The variable slot an instruction of a nested function refers to. *)
Definition slot_ref (inst : Inst) : option N :=
  let slot := match i_op inst with LOAD_VAR => i_a inst | STORE_VAR => i_rd inst | _ => ONone end in
  match slot with Reg r => Some r | _ => None end.

(** [out[idx] = true], growing the vector. *)
Definition mark_slot (out : list bool) (r : N) : list bool :=
  <[N.to_nat r:=true]> (out ++ replicate (S (N.to_nat r) - length out) false).

Fixpoint collect_function (out : list bool) (sub : IRFunction) : list bool :=
  fold_left collect_function (nested sub) (fold_left mark_slot (omap slot_ref (insts sub)) out).

Definition collect_escaped_slots (ns : list IRFunction) (out : list bool) : list bool :=
  fold_left collect_function ns out.

Definition slot_escapes (escaped : list bool) (inst : Inst) (r : N) : bool :=
  bool_decide (i_op inst = STORE_VAR) && match i_rd inst with Reg _ => true | _ => false end
  && default false (escaped !! N.to_nat r).

(** Enqueue the live, not yet queued instructions of [ds]. *)
Definition enqueue (keep : list bool) (st : list bool * list nat) (d : nat) : res (list bool * list nat) :=
  let '(in_queue, queue) := st in
  let* k := vec_get keep d in
  let* q := vec_get in_queue d in
  if k && negb q then let* in_queue := vec_set in_queue d true in Ok (in_queue, queue ++ [d])
  else Ok (in_queue, queue).

Record sweep_state := mkSweep {
  sw_keep : list bool;
  sw_uses : list nat;
  sw_in_queue : list bool;
  sw_queue : list nat;
}.

(** One read of a deleted instruction: decrement, enqueue the definers of a
    register that reached zero. *)
Definition release_use (definers : list (list nat)) (keep : list bool)
    (st : list nat * (list bool * list nat)) (u : N) : res (list nat * (list bool * list nat)) :=
  let '(uc, q) := st in
  let* uc := count_down uc u in
  let* c := vec_get uc (N.to_nat u) in
  if decide (c = 0) then
    let* ds := vec_get definers (N.to_nat u) in
    let* q := fold_res (enqueue keep) ds q in
    Ok (uc, q)
  else Ok (uc, q).

(** The work queue; an instruction is queued at most once. *)
Fixpoint sweep_loop (fuel : nat) (f : IRFunction) (definers : list (list nat))
    (label_target escaped : list bool) (st : sweep_state) : res (list bool) :=
  match sw_queue st with
  | [] => Ok (sw_keep st)
  | i :: queue =>
      match fuel with
      | O => Panic
      | S fuel =>
          let skip := mkSweep (sw_keep st) (sw_uses st) (sw_in_queue st) queue in
          let* k := vec_get (sw_keep st) i in
          let* t := vec_get label_target i in
          if negb k || t then sweep_loop fuel f definers label_target escaped skip
          else
            let* inst := vec_get (insts f) i in
            match def_reg inst with
            | None => sweep_loop fuel f definers label_target escaped skip
            | Some r =>
                let* c := vec_get (sw_uses st) (N.to_nat r) in
                if bool_decide (c ≠ 0) || slot_escapes escaped inst r || negb (is_pure inst f)
                then sweep_loop fuel f definers label_target escaped skip
                else
                  let* keep := vec_set (sw_keep st) i false in
                  let* (uc, q) := fold_res (release_use definers keep) (use_regs inst)
                                    (sw_uses st, (sw_in_queue st, queue)) in
                  let* ds := vec_get definers (N.to_nat r) in
                  let* (in_queue, queue) := fold_res (enqueue keep) ds q in
                  sweep_loop fuel f definers label_target escaped (mkSweep keep uc in_queue queue)
            end
      end
  end.

(** The candidates for the initial queue. *)
Definition initial_candidate (f : IRFunction) (uc : list nat) (label_target escaped : list bool)
    (ii : nat * Inst) : res bool :=
  let '(i, inst) := ii in
  let* t := vec_get label_target i in
  if t : bool then Ok false
  else match def_reg inst with
  | None => Ok false
  | Some r =>
      let* c := vec_get uc (N.to_nat r) in
      Ok (bool_decide (c = 0) && negb (slot_escapes escaped inst r) && is_pure inst f)
  end.

Definition init_step (f : IRFunction) (uc : list nat) (label_target escaped : list bool)
    (st : list bool * list nat) (ii : nat * Inst) : res (list bool * list nat) :=
  let* c := initial_candidate f uc label_target escaped ii in
  if c : bool then let* in_queue := vec_set st.1 ii.1 true in Ok (in_queue, st.2 ++ [ii.1])
  else Ok st.

Definition pass_b_dead_code (f : IRFunction) (keep : list bool) : res (list bool) :=
  let* ks := kept f keep in
  let max_reg := fold_left max_reg_of ks.*2 0%N in
  let size := N.to_nat max_reg + 1 in
  let* use_count := fold_res count_up (mjoin (use_regs <$> ks.*2)) (replicate size 0) in
  let* definers := fold_res add_definer ks (replicate size []) in
  let label_target := label_bits f in
  let escaped := collect_escaped_slots (nested f) (replicate size false) in
  let* (in_queue, queue) :=
    fold_res (init_step f use_count label_target escaped) ks
      (replicate (length (insts f)) false, []) in
  sweep_loop (length (insts f)) f definers label_target escaped
    (mkSweep keep use_count in_queue queue).

(** ** Pass C: compaction *)

(** New instructions, and the new index of each kept old one. *)
Fixpoint compact (keep : list bool) (is' : list Inst) (next : nat) : res (list Inst * list (option nat)) :=
  match keep with
  | [] => Ok ([], [])
  | k :: keep =>
      match is' with
      | [] => Panic
      | inst :: is' =>
          let* (new, map) := compact keep is' (if k then S next else next) in
          Ok (if k then inst :: new else new, (if k then Some next else None) :: map)
      end
  end.

(** [pass_c_sweep]; the map has one entry per instruction. *)
Definition pass_c_sweep (f : IRFunction) (keep : list bool) : res IRFunction :=
  let* (new_insts, old_to_new) := compact keep (insts f) 0 in
  Ok (with_code f new_insts
        ((λ pos, match pos with Some old => mjoin (old_to_new !! old) | None => None end) <$> label_pos f)).

(** ** The two entry points *)

Definition dead_count (keep : list bool) : nat := length (filter (λ k, k = false) keep).

(** [dce]: the new function, and the graph when nothing was deleted. *)
Definition dce (f : IRFunction) : res (IRFunction * option Cfg) :=
  match insts f with
  | [] => let* g := build_cfg f in Ok (f, Some g)
  | _ =>
      let* g := build_cfg f in
      let* keep := pass_a_reachable f g in
      let* keep := pass_b_dead_code f keep in
      if decide (dead_count keep = 0) then Ok (f, Some g)
      else let* f' := pass_c_sweep f keep in Ok (f', None)
  end.

(** The decision of the precise round for one instruction. *)
Definition precise_keep (f : IRFunction) (info : LiveInfo) (label_target escaped : list bool)
    (ii : nat * Inst) : res bool :=
  let '(i, inst) := ii in
  let* t := vec_get label_target i in
  if t : bool then Ok true
  else
    let not_live_after r := negb (bitset_get (live_row info (inst_live_after info) i) r) in
    let generic := match def_reg inst with
                   | Some r => not_live_after r && is_pure inst f
                   | None => false
                   end in
    if generic : bool then Ok false
    else if decide (i_op inst = STORE_VAR) then
      match i_rd inst with
      | Reg slot =>
          Ok (negb (negb (is_top_level f) && bool_decide (i_b inst = Imm 0)
                    && negb (default false (escaped !! N.to_nat slot)) && not_live_after slot))
      | _ => Ok true
      end
    else Ok true.

Definition pass_dead_with_liveness (f : IRFunction) (info : LiveInfo) : res (list bool) :=
  let label_target := label_bits f in
  let max_reg := fold_left max_reg_of (insts f) 0%N in
  let escaped := collect_escaped_slots (nested f) (replicate (N.to_nat max_reg + 1) false) in
  map_res (precise_keep f info label_target escaped) (enumerate (insts f)).

(** [dce_precise]: the new function and [live_reusable]. *)
Definition dce_precise (f : IRFunction) (info : LiveInfo) : res (IRFunction * bool) :=
  match insts f with
  | [] => Ok (f, true)
  | _ =>
      if decide (length (inst_live_after info) ≠ length (insts f) * li_words info ∨ li_words info = 0)
      then Ok (f, false)
      else
        let* keep := pass_dead_with_liveness f info in
        if decide (dead_count keep = 0) then Ok (f, true)
        else let* f' := pass_c_sweep f keep in Ok (f', false)
  end.

(** ** Pass A keeps exactly the reachable blocks *)

(** Block [k] can be reached from the entry. *)
Definition block_reach (g : Cfg) (k : nat) : Prop := rtc (edge g) (entry g) k.

(** The edges of the blocks not yet marked. *)
Definition pending (bs : list BasicBlock) (reachable : list bool) : nat :=
  sum_list (zip_with (λ b (r : bool), if r then 0 else length (succs b)) bs reachable).

Lemma pending_mark bs reachable k b :
  bs !! k = Some b → reachable !! k = Some false →
  pending bs (<[k:=true]> reachable) + length (succs b) = pending bs reachable.
Proof.
  unfold pending. revert reachable k. induction bs as [|b' bs IH]; intros [|r reachable] [|k] Hb Hr; try done;
    simpl in *; simplify_eq/=; [lia|]. specialize (IH reachable k Hb Hr). lia.
Qed.

Lemma pending_start bs : pending bs (replicate (length bs) false) = sum_list ((λ b, length (succs b)) <$> bs).
Proof. unfold pending. induction bs as [|b bs IH]; [done|]. simpl. by rewrite IH. Qed.

Section reach.
Context (f : IRFunction) (g : Cfg) (Hg : graph_ok f g).

Record reach_inv (reachable : list bool) (stack : list nat) : Prop := {
  reach_length : length reachable = length (blocks g);
  reach_marked : ∀ k, reachable !! k = Some true → block_reach g k;
  reach_stack : ∀ k, k ∈ stack → block_reach g k ∧ k < length (blocks g);
  reach_entry : reachable !! entry g = Some true ∨ entry g ∈ stack;
  reach_closed : ∀ k t, reachable !! k = Some true → edge g k t → reachable !! t = Some true ∨ t ∈ stack;
}.

Lemma reach_inv_skip reachable b stack :
  reach_inv reachable (b :: stack) → reachable !! b = Some true → reach_inv reachable stack.
Proof.
  intros [H1 H2 H3 H4 H5] Hb. constructor; [done|done|..].
  - intros k Hk. apply H3. by right.
  - destruct H4 as [?|[->|?]%elem_of_cons]; auto.
  - intros k t Hk He. destruct (H5 k t Hk He) as [?|[->|?]%elem_of_cons]; auto.
Qed.

Lemma reach_inv_expand reachable b block stack :
  reach_inv reachable (b :: stack) → blocks g !! b = Some block →
  reach_inv (<[b:=true]> reachable) (rev (succs block).*1 ++ stack).
Proof.
  intros [H1 H2 H3 H4 H5] Hb. apply lookup_lt_Some in Hb as Hlt.
  assert (block_reach g b) as Hrb by (apply H3; by left).
  assert (∀ t, t ∈ rev (succs block).*1 ↔ edge g b t) as Hedge.
  { intros t. rewrite list_elem_of_In, <- in_rev, <- list_elem_of_In, list_elem_of_fmap. split.
    - intros ([t' kd] & -> & Hin). by exists block, kd.
    - intros (b' & kd & Hb' & Hin). rewrite Hb in Hb'. injection Hb' as <-. by exists (t, kd). }
  assert (∀ k, <[b:=true]> reachable !! k = Some true ↔ k = b ∨ reachable !! k = Some true) as Hup.
  { intros k. destruct (decide (k = b)) as [->|Hne].
    - rewrite list_lookup_insert_eq by lia. tauto.
    - rewrite list_lookup_insert_ne by done. tauto. }
  constructor.
  - by rewrite length_insert.
  - intros k [->|Hk]%Hup; auto.
  - intros k [Hk%Hedge|Hk]%elem_of_app; [|by apply H3; right]. split.
    + eapply rtc_r; [done|done].
    + destruct Hk as (b' & kd & Hb' & Hin). by eapply (graph_closed _ _ Hg).
  - rewrite Hup, elem_of_app. destruct H4 as [?|[->|?]%elem_of_cons]; auto.
  - intros k t [->|Hk]%Hup He; rewrite Hup, elem_of_app.
    + right. left. by apply Hedge.
    + destruct (H5 k t Hk He) as [?|[->|?]%elem_of_cons]; auto.
Qed.

Lemma reach_loop_ok fuel reachable stack :
  reach_inv reachable stack → length stack + pending (blocks g) reachable <= fuel →
  ∃ reachable', reach_loop fuel g reachable stack = Ok reachable' ∧ reach_inv reachable' [].
Proof.
  revert reachable stack. induction fuel as [|fuel IH]; intros reachable [|b stack] Hinv Hf; simpl in *.
  1, 3: by exists reachable.
  { lia. }
  destruct (reach_stack _ _ Hinv b) as [_ Hb]; [by left|].
  destruct (lookup_lt_is_Some_2 reachable b) as [seen Hs]; [rewrite (reach_length _ _ Hinv); lia|].
  rewrite (proj2 (vec_get_Ok _ _ _) Hs). cbn [res_bind]. destruct seen.
  { apply IH; [by eapply reach_inv_skip|lia]. }
  destruct (lookup_lt_is_Some_2 (blocks g) b Hb) as [block Hblock].
  rewrite vec_set_lt by (by eapply lookup_lt_Some). cbn [res_bind].
  rewrite (proj2 (vec_get_Ok _ _ _) Hblock). cbn [res_bind]. apply IH.
  - by apply reach_inv_expand.
  - pose proof (pending_mark (blocks g) reachable b block Hblock Hs).
    rewrite length_app, length_rev, length_fmap. lia.
Qed.

Lemma reachable_exact :
  ∃ reachable, reach_loop (S (edge_total g)) g (replicate (length (blocks g)) false) [entry g] = Ok reachable ∧
    length reachable = length (blocks g) ∧ ∀ k, reachable !! k = Some true ↔ block_reach g k.
Proof.
  destruct (reach_loop_ok (S (edge_total g)) (replicate (length (blocks g)) false) [entry g])
    as (reachable & -> & Hinv).
  - constructor.
    + apply length_replicate.
    + by intros k [? _]%lookup_replicate.
    + intros k ->%list_elem_of_singleton. split; [apply rtc_refl|apply Hg].
    + right. by left.
    + by intros k t [? _]%lookup_replicate.
  - rewrite pending_start. unfold edge_total. simpl. lia.
  - exists reachable. split_and!; [done|apply Hinv|]. intros k. split; [apply Hinv|].
    unfold block_reach. revert k. apply rtc_ind_r.
    + destruct (reach_entry _ _ Hinv) as [?|?%elem_of_nil]; done.
    + intros k t _ He Hk. destruct (reach_closed _ _ Hinv k t Hk He) as [?|?%elem_of_nil]; done.
Qed.

Lemma keep_set (keep : list bool) i j :
  i < length keep → <[i:=true]> keep !! j = Some true ↔ j = i ∨ keep !! j = Some true.
Proof.
  intros Hi. destruct (decide (j = i)) as [->|Hne].
  - rewrite list_lookup_insert_eq by done. tauto.
  - rewrite list_lookup_insert_ne by done. tauto.
Qed.

Lemma keep_range is' keep :
  Forall (λ i, i < length keep) is' →
  ∃ keep', fold_res (λ keep i, vec_set keep i true) is' keep = Ok keep' ∧ length keep' = length keep ∧
    ∀ j, keep' !! j = Some true ↔ keep !! j = Some true ∨ j ∈ is'.
Proof.
  revert keep. induction is' as [|i is' IH]; intros keep H; cbn [fold_res].
  { exists keep. split_and!; [done..|]. set_solver. }
  apply Forall_cons in H as [Hi H]. rewrite vec_set_lt by done. cbn [res_bind].
  destruct (IH (<[i:=true]> keep)) as (keep' & -> & Hl & Hk).
  { by rewrite length_insert. }
  exists keep'. rewrite length_insert in Hl. split_and!; [done..|]. intros j.
  rewrite Hk, keep_set by done. set_solver.
Qed.

Lemma pass_a_ok :
  ∃ keep, pass_a_reachable f g = Ok keep ∧ length keep = length (insts f) ∧
    ∀ i, keep !! i = Some true ↔ ∃ k b, blocks g !! k = Some b ∧ in_block b i ∧ block_reach g k.
Proof.
  unfold pass_a_reachable. destruct reachable_exact as (reachable & -> & Hl & Hr). cbn [res_bind].
  destruct (fold_res_inv (keep_block g) (λ pre keep, length keep = length (insts f) ∧
    ∀ i, keep !! i = Some true ↔ ∃ k b, (k, true) ∈ pre ∧ blocks g !! k = Some b ∧ in_block b i)
    (enumerate reachable) (replicate (length (insts f)) false)) as (keep & -> & Hlk & Hk).
  - split; [apply length_replicate|]. intros i. split; [by intros [? _]%lookup_replicate|].
    intros (? & ? & ?%elem_of_nil & _). done.
  - intros pre [k r] post keep E [Hlk Hk]. unfold keep_block. cbn [fst snd].
    assert (reachable !! k = Some r) as Hkr by (apply elem_of_enumerate; rewrite E; set_solver).
    destruct r.
    2: { exists keep. split; [done|]. split; [done|]. intros i. rewrite Hk. set_solver. }
    destruct (lookup_lt_is_Some_2 (blocks g) k) as [b Hb]; [apply lookup_lt_Some in Hkr; lia|].
    rewrite (proj2 (vec_get_Ok _ _ _) Hb). cbn [res_bind].
    destruct (keep_range (block_indices b) keep) as (keep' & -> & Hl' & Hk').
    { rewrite Hlk. by eapply block_indices_bound. }
    exists keep'. split; [done|]. split; [congruence|]. intros i. rewrite Hk', Hk.
    assert (i ∈ block_indices b ↔ in_block b i) as Hin.
    { unfold block_indices, in_block. rewrite elem_of_seq. lia. }
    rewrite Hin. split.
    + intros [(k' & b' & ? & ?)|?]; [exists k', b' | exists k, b]; set_solver.
    + intros (k' & b' & [?|[= ->]%list_elem_of_singleton]%elem_of_app & Hb' & ?); [left; eauto|].
      right. congruence.
  - exists keep. split_and!; [done..|]. intros i. rewrite Hk. setoid_rewrite elem_of_enumerate.
    setoid_rewrite Hr. naive_solver.
Qed.
End reach.

(** ** What pass B may delete *)

(** Function [g], or one nested in it, refers to variable slot [r]. *)
Inductive refers (r : N) : IRFunction → Prop :=
  | refers_here g inst : inst ∈ insts g → slot_ref inst = Some r → refers r g
  | refers_below g h : h ∈ nested g → refers r h → refers r g.

(** A store to a variable slot that a nested function refers to. *)
Definition escaping_store (f : IRFunction) (inst : Inst) (r : N) : Prop :=
  i_op inst = STORE_VAR ∧ (∃ s, i_rd inst = Reg s) ∧ ∃ h, h ∈ nested f ∧ refers r h.

(** Instruction [i] may be deleted when its result, register [r], is unused. *)
Definition deletable (f : IRFunction) (i : nat) (r : N) : Prop :=
  ∃ inst, insts f !! i = Some inst ∧ def_reg inst = Some r ∧ is_pure inst f = true ∧
    (Some i ∉ label_pos f) ∧ ¬ escaping_store f inst r.

(** The instructions that become unused by deleting others: all readers of
    the result are themselves dead. *)
Inductive dead (f : IRFunction) (keep : list bool) : nat → Prop :=
  | dead_intro i r :
      keep !! i = Some true → deletable f i r →
      (∀ j inst, keep !! j = Some true → insts f !! j = Some inst → r ∈ use_regs inst → dead f keep j) →
      dead f keep i.

Lemma label_bits_length f : length (label_bits f) = length (insts f).
Proof.
  unfold label_bits. rewrite <- (length_replicate (length (insts f)) false) at 2.
  generalize (replicate (length (insts f)) false).
  induction (omap id (label_pos f)) as [|p ps IH]; intros bits; [done|]. simpl. rewrite IH. apply length_insert.
Qed.

Lemma label_bits_true f i :
  i < length (insts f) → label_bits f !! i = Some true ↔ Some i ∈ label_pos f.
Proof.
  intros Hi. unfold label_bits.
  assert (∀ ps bits, length bits = length (insts f) →
    fold_left (λ bits p, <[p:=true]> bits) ps bits !! i = Some true ↔ bits !! i = Some true ∨ i ∈ ps) as H.
  { induction ps as [|p ps IH]; intros bits Hl; simpl; [set_solver|].
    rewrite IH by (by rewrite length_insert). destruct (decide (i = p)) as [->|Hne].
    - rewrite list_lookup_insert_eq by lia. set_solver.
    - rewrite list_lookup_insert_ne by done. set_solver. }
  rewrite H by apply length_replicate. rewrite lookup_replicate, list_elem_of_omap. split.
  - intros [[? _]|(o & Ho & E)]; [done|]. simpl in E. by subst.
  - intros Ho. right. by exists (Some i).
Qed.

Lemma mark_slot_true out r s :
  default false (mark_slot out r !! N.to_nat s) = true ↔ s = r ∨ default false (out !! N.to_nat s) = true.
Proof.
  unfold mark_slot. destruct (decide (s = r)) as [->|Hne].
  - rewrite list_lookup_insert_eq by (rewrite length_app, length_replicate; lia). simpl. tauto.
  - rewrite list_lookup_insert_ne by lia.
    destruct (decide (N.to_nat s < length out)) as [Hlt|Hge].
    + rewrite lookup_app_l by done. tauto.
    + rewrite lookup_app_r, (lookup_ge_None_2 out) by lia. simpl.
      destruct (replicate _ _ !! _) as [b|] eqn:E; [apply lookup_replicate in E as [-> _]|]; simpl; naive_solver.
Qed.

Lemma mark_slots_true rs out s :
  default false (fold_left mark_slot rs out !! N.to_nat s) = true ↔
  s ∈ rs ∨ default false (out !! N.to_nat s) = true.
Proof.
  revert out. induction rs as [|r rs IH]; intros out; simpl; [set_solver|].
  rewrite IH, mark_slot_true. set_solver.
Qed.

Lemma collect_function_true sub out s :
  default false (collect_function out sub !! N.to_nat s) = true ↔
  refers s sub ∨ default false (out !! N.to_nat s) = true.
Proof.
  revert out. induction sub as [sub IH] using IRFunction_nested_ind. intros out.
  assert (∀ ns out, Forall (λ sub, ∀ out, default false (collect_function out sub !! N.to_nat s) = true ↔
      refers s sub ∨ default false (out !! N.to_nat s) = true) ns →
    default false (fold_left collect_function ns out !! N.to_nat s) = true ↔
      (∃ h, h ∈ ns ∧ refers s h) ∨ default false (out !! N.to_nat s) = true) as Hall.
  { intros ns out' H. revert out'. induction H as [|h ns Hh _ IHn]; intros out'; simpl; [set_solver|].
    rewrite IHn, Hh. set_solver. }
  replace (collect_function out sub)
    with (fold_left collect_function (nested sub) (fold_left mark_slot (omap slot_ref (insts sub)) out))
    by (by destruct sub).
  rewrite (Hall _ _ IH), mark_slots_true, list_elem_of_omap. split.
  - intros [(h & ? & ?)|[(inst & ? & ?)|?]]; [left; by eapply refers_below|left; by eapply refers_here|auto].
  - intros [H|?]; [|auto]. inversion H; subst; [right; left; eauto | left; eauto].
Qed.

Lemma escaped_true ns size s :
  default false (collect_escaped_slots ns (replicate size false) !! N.to_nat s) = true ↔
  ∃ h, h ∈ ns ∧ refers s h.
Proof.
  unfold collect_escaped_slots.
  assert (∀ out, default false (fold_left collect_function ns out !! N.to_nat s) = true ↔
    (∃ h, h ∈ ns ∧ refers s h) ∨ default false (out !! N.to_nat s) = true) as H.
  { induction ns as [|h ns IH]; intros out; simpl; [set_solver|].
    rewrite IH, collect_function_true. set_solver. }
  rewrite H. destruct (replicate size false !! N.to_nat s) as [b|] eqn:E;
    [apply lookup_replicate in E as [-> _]|]; simpl; naive_solver.
Qed.

Lemma slot_escapes_true f size inst r :
  slot_escapes (collect_escaped_slots (nested f) (replicate size false)) inst r = true ↔
  escaping_store f inst r.
Proof.
  unfold slot_escapes, escaping_store. rewrite !andb_true_iff, bool_decide_eq_true, escaped_true.
  assert (match i_rd inst with Reg _ => true | _ => false end = true ↔ ∃ s, i_rd inst = Reg s) as ->.
  { destruct (i_rd inst); naive_solver. }
  tauto.
Qed.

(** ** The kept instructions *)

Fixpoint kept_from (n : nat) (keep : list bool) (is' : list Inst) : list (nat * Inst) :=
  match keep, is' with
  | k :: keep, inst :: is' => (if k then [(n, inst)] else []) ++ kept_from (S n) keep is'
  | _, _ => []
  end.

Lemma kept_eq f keep :
  length keep = length (insts f) → kept f keep = Ok (kept_from 0 keep (insts f)).
Proof.
  intros Hl. unfold kept.
  assert (∀ post pre ks, insts f = pre ++ post → length ks = length post →
    ∃ l, map_res (λ ik : nat * bool, if ik.2 then let* inst := vec_get (insts f) ik.1 in Ok [(ik.1, inst)]
                                     else Ok []) (imap (λ i k, (length pre + i, k)) ks) = Ok l ∧
      mjoin l = kept_from (length pre) ks post) as H.
  { induction post as [|inst post IH]; intros pre [|k ks] E Hk; try done; simpl in *; [by exists []|].
    destruct (IH (pre ++ [inst]) ks) as (l & Hm & Hj); [by rewrite <- app_assoc|lia|].
    rewrite length_app, Nat.add_1_r in Hm, Hj. rewrite Nat.add_0_r.
    assert (vec_get (insts f) (length pre) = Ok inst) as Hg.
    { apply vec_get_Ok. rewrite E. by apply list_lookup_middle. }
    exists ((if k then [(length pre, inst)] else []) :: l).
    replace (imap ((λ i k, (length pre + i, k)) ∘ S) ks) with (imap (λ i k, (S (length pre) + i, k)) ks).
    2: { apply imap_ext. intros i x _. simpl. f_equal. lia. }
    destruct k; rewrite ?Hg; cbn [res_bind]; rewrite Hm; cbn [res_bind]; (split; [done|]); by rewrite mjoin_cons, Hj. }
  destruct (H (insts f) [] keep) as (l & E & Hj); [done|done|]. simpl in E.
  unfold enumerate. replace (imap pair keep) with (imap (λ i k, (i, k)) keep) by done. rewrite E. simpl.
  by rewrite Hj.
Qed.

Lemma kept_from_elem n keep is' i inst :
  (i, inst) ∈ kept_from n keep is' ↔ n <= i ∧ keep !! (i - n) = Some true ∧ is' !! (i - n) = Some inst.
Proof.
  revert n is'. induction keep as [|k keep IH]; intros n [|x is']; simpl.
  1, 2, 3: split; [by intros ?%elem_of_nil | by intros (_ & ? & ?)].
  rewrite elem_of_app, IH. destruct (decide (i = n)) as [->|Hne].
  - rewrite Nat.sub_diag. simpl. destruct k; rewrite ?list_elem_of_singleton, ?elem_of_nil; split.
    + intros [[= ->]|[? _]]; [done|lia].
    + intros (_ & _ & [= ->]). by left.
    + intros [[]|[? _]]; lia.
    + by intros (_ & ? & _).
  - assert ((i, inst) ∉ if k then [(n, x)] else []) as Hno.
    { destruct k; [|by apply not_elem_of_nil]. intros [= ? ?]%list_elem_of_singleton. done. }
    split.
    + intros [?|(H1 & H2 & H3)]; [done|]. replace (i - n) with (S (i - S n)) by lia. split; [lia|done].
    + intros (H1 & H2 & H3). right. replace (i - n) with (S (i - S n)) in * by lia. split; [lia|done].
Qed.

(** ** Use counts *)

Definition occ (r : N) (l : list N) : nat := length (filter (r =.) l).

(** The number of reads of [r] by kept instructions. *)
Definition uses (is' : list Inst) (keep : list bool) (r : N) : nat :=
  sum_list (zip_with (λ (k : bool) inst, if k then occ r (use_regs inst) else 0) keep is').

Lemma occ_app r l1 l2 : occ r (l1 ++ l2) = occ r l1 + occ r l2.
Proof. unfold occ. by rewrite filter_app, length_app. Qed.

Lemma occ_cons r x l : occ r (x :: l) = (if decide (r = x) then 1 else 0) + occ r l.
Proof. unfold occ. rewrite filter_cons. case_decide; done. Qed.

Lemma occ_0 r l : occ r l = 0 ↔ r ∉ l.
Proof.
  induction l as [|x l IH]; [split; [set_solver|done]|]. rewrite occ_cons, not_elem_of_cons, <- IH.
  case_decide; naive_solver lia.
Qed.

Lemma uses_kept n keep is' r : occ r (mjoin (use_regs <$> (kept_from n keep is').*2)) = uses is' keep r.
Proof.
  unfold uses. revert n is'. induction keep as [|k keep IH]; intros n [|x is']; try done. simpl.
  rewrite fmap_app, fmap_app, join_app, occ_app, IH. destruct k; simpl; [|done]. by rewrite app_nil_r.
Qed.

Lemma uses_delete is' keep i inst r :
  is' !! i = Some inst → keep !! i = Some true →
  uses is' (<[i:=false]> keep) r + occ r (use_regs inst) = uses is' keep r.
Proof.
  unfold uses. revert keep i. induction is' as [|x is' IH]; intros [|k keep] [|i] Hi Hk; try done;
    simpl in *; simplify_eq/=; [lia|]. specialize (IH keep i Hi Hk). lia.
Qed.

Lemma uses_0 is' keep r :
  length keep = length is' →
  uses is' keep r = 0 ↔ ∀ j inst, keep !! j = Some true → is' !! j = Some inst → r ∉ use_regs inst.
Proof.
  unfold uses. revert keep. induction is' as [|x is' IH]; intros [|k keep] Hl; try done. simpl in *.
  split.
  - intros Hs [|j] inst Hk Hi; simpl in *; simplify_eq.
    + apply occ_0. lia.
    + apply (proj1 (IH keep ltac:(lia))) with j; [destruct k; lia|done|done].
  - intros H. rewrite (proj2 (IH keep ltac:(lia))).
    + destruct k; [|done]. rewrite Nat.add_0_r. apply occ_0. by apply (H 0 x).
    + intros j inst. apply (H (S j)).
Qed.

(** [uc] holds the count [F r] of each register below [size]. *)
Definition counts (size : nat) (uc : list nat) (F : N → nat) : Prop :=
  length uc = size ∧ ∀ r, N.to_nat r < size → uc !! N.to_nat r = Some (F r).

Lemma counts_ext size uc F F' :
  (∀ r, F r = F' r) → counts size uc F → counts size uc F'.
Proof. intros E [Hl H]. split; [done|]. intros r Hr. by rewrite <- E, H. Qed.

Lemma counts_set size uc F u c :
  counts size uc F → N.to_nat u < size →
  counts size (<[N.to_nat u:=c]> uc) (λ r, if decide (r = u) then c else F r).
Proof.
  intros [Hl H] Hu. split; [by rewrite length_insert|]. intros r Hr. case_decide as E.
  - subst. apply list_lookup_insert_eq. lia.
  - rewrite list_lookup_insert_ne by lia. by apply H.
Qed.

Lemma count_up_at size uc F u :
  counts size uc F → N.to_nat u < size → count_up uc u = Ok (<[N.to_nat u:=F u + 1]> uc).
Proof.
  intros [Hl H] Hu. unfold count_up, vec_get. rewrite (H u Hu). cbn [res_bind]. apply vec_set_lt. lia.
Qed.

Lemma count_down_at size uc F u :
  counts size uc F → N.to_nat u < size → F u ≠ 0 →
  count_down uc u = Ok (<[N.to_nat u:=F u - 1]> uc).
Proof.
  intros [Hl H] Hu Hne. unfold count_down, vec_get. rewrite (H u Hu). cbn [res_bind].
  rewrite decide_False by done. apply vec_set_lt. lia.
Qed.

Lemma count_up_ok size us uc F :
  counts size uc F → Forall (λ u, N.to_nat u < size) us →
  ∃ uc', fold_res count_up us uc = Ok uc' ∧ counts size uc' (λ r, F r + occ r us).
Proof.
  intros H Hu. revert uc F H. induction Hu as [|u us Hu _ IH]; intros uc F H; cbn [fold_res].
  { exists uc. split; [done|]. eapply counts_ext; [|done]. intros r. unfold occ. simpl. lia. }
  rewrite (count_up_at size uc F u H Hu). cbn [res_bind].
  destruct (IH _ _ (counts_set size uc F u (F u + 1) H Hu)) as (uc' & -> & H').
  exists uc'. split; [done|]. eapply counts_ext; [|done]. intros r. simpl. rewrite occ_cons.
  case_decide; subst; lia.
Qed.

(** The definers of each register among [ks]. *)
Definition definers_ok (size : nat) (ks : list (nat * Inst)) (ds : list (list nat)) : Prop :=
  length ds = size ∧ ∀ r l, ds !! N.to_nat r = Some l →
    ∀ i, i ∈ l ↔ ∃ inst, (i, inst) ∈ ks ∧ def_reg inst = Some r.

Lemma definers_build size ks :
  (∀ i inst r, (i, inst) ∈ ks → def_reg inst = Some r → N.to_nat r < size) →
  ∃ ds, fold_res add_definer ks (replicate size []) = Ok ds ∧ definers_ok size ks ds.
Proof.
  intros Hb. destruct (fold_res_inv add_definer (λ pre ds, definers_ok size pre ds) ks (replicate size []))
    as (ds & -> & H); [| |eauto].
  - split; [apply length_replicate|]. intros r l [-> _]%lookup_replicate i. set_solver.
  - intros pre [i inst] post ds E [Hl Hds]. unfold add_definer. cbn [fst snd].
    destruct (def_reg inst) as [r|] eqn:Hr.
    2: { exists ds. split; [done|]. split; [done|]. intros r' l Hl' j. rewrite (Hds r' l Hl' j).
         split; [intros (x & ? & ?); exists x; set_solver|].
         intros (x & [?|[= -> ->]%list_elem_of_singleton]%elem_of_app & ?); [eauto|congruence]. }
    assert (N.to_nat r < size) as Hlt by (apply (Hb i inst); [rewrite E; set_solver|done]).
    destruct (lookup_lt_is_Some_2 ds (N.to_nat r)) as [l Hl']; [lia|].
    rewrite (proj2 (vec_get_Ok _ _ _) Hl'). cbn [res_bind]. rewrite vec_set_lt by lia.
    eexists. split; [done|]. split; [by rewrite length_insert|]. intros r' l' Hr' j.
    destruct (decide (r' = r)) as [->|Hne].
    + rewrite list_lookup_insert_eq in Hr' by lia. injection Hr' as <-.
      rewrite elem_of_app, (Hds r l Hl' j), list_elem_of_singleton. split.
      * intros [(x & ? & ?)| ->]; [exists x|exists inst]; set_solver.
      * intros (x & [?|[= -> ->]%list_elem_of_singleton]%elem_of_app & ?); eauto.
    + rewrite list_lookup_insert_ne in Hr' by lia. rewrite (Hds r' l' Hr' j). split.
      * intros (x & ? & ?); exists x; set_solver.
      * intros (x & [?|[= -> ->]%list_elem_of_singleton]%elem_of_app & ?); [eauto|congruence].
Qed.

(** ** The work queue *)

(** [(inq', q')] is [(inq, q)] with instructions satisfying [P] enqueued. *)
Record grows (P : nat → Prop) (st st' : list bool * list nat) : Prop := {
  grows_length : length st'.1 = length st.1;
  grows_slack : unvisited st'.1 + length st'.2 = unvisited st.1 + length st.2;
  grows_marks : ∀ d, st.1 !! d = Some true → st'.1 !! d = Some true;
  grows_keeps : ∀ d, d ∈ st.2 → d ∈ st'.2;
  grows_new : ∀ d, d ∈ st'.2 → d ∈ st.2 ∨ P d ∧ st'.1 !! d = Some true;
  grows_queued : ∀ d, st'.1 !! d = Some true → st.1 !! d = Some true ∨ d ∈ st'.2;
}.

Lemma grows_refl P st : grows P st st.
Proof. constructor; auto. Qed.

Lemma grows_trans P st1 st2 st3 : grows P st1 st2 → grows P st2 st3 → grows P st1 st3.
Proof.
  intros [A1 A2 A3 A4 A5 A6] [B1 B2 B3 B4 B5 B6]. constructor; [congruence|congruence|auto|auto|..].
  - intros d [Hd|?]%B5; [|auto]. apply A5 in Hd as [?|[? ?]]; auto.
  - intros d [Hd|?]%B6; [|auto]. apply A6 in Hd as [?|?]; auto.
Qed.

Lemma enqueue_ok (P : nat → Prop) keep st d :
  length st.1 = length keep → d < length keep → (keep !! d = Some true → P d) →
  ∃ st', enqueue keep st d = Ok st' ∧ grows P st st' ∧ (keep !! d = Some true → st'.1 !! d = Some true).
Proof.
  destruct st as [inq q]. simpl. intros Hl Hd HP. unfold enqueue.
  destruct (lookup_lt_is_Some_2 keep d Hd) as [k Hk].
  destruct (lookup_lt_is_Some_2 inq d) as [x Hx]; [lia|].
  rewrite (proj2 (vec_get_Ok _ _ _) Hk). cbn [res_bind].
  rewrite (proj2 (vec_get_Ok _ _ _) Hx). cbn [res_bind]. destruct (k && negb x) eqn:Eb.
  - apply andb_true_iff in Eb as [-> ->%negb_true_iff]. rewrite vec_set_lt by lia. cbn [res_bind].
    eexists. split; [done|]. pose proof (unvisited_insert inq d Hx) as Hu. simpl.
    assert (∀ j, <[d:=true]> inq !! j = Some true ↔ j = d ∨ inq !! j = Some true) as Hup.
    { intros j. apply keep_set. lia. }
    split; [|intros _; apply list_lookup_insert_eq; lia]. constructor; simpl.
    + apply length_insert.
    + rewrite length_app. simpl. lia.
    + intros j Hj. apply Hup. auto.
    + set_solver.
    + intros j [?| ->%list_elem_of_singleton]%elem_of_app; [auto|]. right. split; [auto|]. apply Hup. auto.
    + intros j [->|?]%Hup; set_solver.
  - eexists. split; [done|]. split; [apply grows_refl|]. intros Hk'. simpl. destruct k, x; naive_solver.
Qed.

Lemma enqueue_all_ok (P : nat → Prop) keep ds st :
  length st.1 = length keep → Forall (λ d, d < length keep) ds →
  (∀ d, d ∈ ds → keep !! d = Some true → P d) →
  ∃ st', fold_res (enqueue keep) ds st = Ok st' ∧ grows P st st' ∧
    ∀ d, d ∈ ds → keep !! d = Some true → st'.1 !! d = Some true.
Proof.
  intros Hl Hd. revert st Hl. induction Hd as [|d ds Hd _ IH]; intros st Hl HP; cbn [fold_res].
  { exists st. split_and!; [done|apply grows_refl|]. by intros ? ?%elem_of_nil. }
  destruct (enqueue_ok P keep st d Hl Hd) as (st1 & -> & Hg1 & Hm1); [apply HP; by left|]. cbn [res_bind].
  destruct (IH st1) as (st2 & -> & Hg2 & Hm2).
  - rewrite (grows_length _ _ _ Hg1). done.
  - intros d' Hd'. apply HP. by right.
  - exists st2. split_and!; [done|by eapply grows_trans|].
    intros d' [->|Hd']%elem_of_cons Hk; [|by apply Hm2]. apply (grows_marks _ _ _ Hg2). auto.
Qed.

Section sweep.
Context (f : IRFunction) (keep0 : list bool) (size : nat) (definers : list (list nat)).
Context (Hlen : length keep0 = length (insts f)).
Context (Hbound : ∀ i inst r, keep0 !! i = Some true → insts f !! i = Some inst →
           def_reg inst = Some r ∨ r ∈ use_regs inst → N.to_nat r < size).
Context (Hdef : definers_ok size (kept_from 0 keep0 (insts f)) definers).
#[local] Abbreviation labels := (label_bits f).
#[local] Abbreviation escaped := (collect_escaped_slots (nested f) (replicate size false)).

Lemma definers_elem r l i :
  definers !! N.to_nat r = Some l →
  i ∈ l ↔ keep0 !! i = Some true ∧ ∃ inst, insts f !! i = Some inst ∧ def_reg inst = Some r.
Proof.
  intros Hl. rewrite (proj2 Hdef r l Hl i). setoid_rewrite kept_from_elem. rewrite Nat.sub_0_r.
  split; [intros (inst & (_ & ? & ?) & ?); eauto | intros (? & inst & ? & ?); exists inst; split_and!; [lia|done..]].
Qed.

Lemma definers_lt r l : definers !! N.to_nat r = Some l → Forall (λ d, d < length (insts f)) l.
Proof.
  intros Hl. apply Forall_forall. intros d (_ & inst & Hd & _)%(definers_elem r l d Hl).
  by eapply lookup_lt_Some.
Qed.

(** Instruction [d] defines a register that no instruction of [keep] reads. *)
Definition ready (keep : list bool) (d : nat) : Prop :=
  ∃ inst r, keep0 !! d = Some true ∧ insts f !! d = Some inst ∧ def_reg inst = Some r ∧
    uses (insts f) keep r = 0.

(** Releasing one use: the count goes down, and the definers are queued when
    it was the last one. *)
Lemma release_one keep u us uc st :
  length keep = length (insts f) → length st.1 = length (insts f) → N.to_nat u < size →
  counts size uc (λ r, uses (insts f) keep r + occ r (u :: us)) →
  ∃ uc' st', release_use definers keep (uc, st) u = Ok (uc', st') ∧
    counts size uc' (λ r, uses (insts f) keep r + occ r us) ∧ grows (ready keep) st st' ∧
    (uses (insts f) keep u + occ u us = 0 → ∀ d inst, keep0 !! d = Some true → keep !! d = Some true →
      insts f !! d = Some inst → def_reg inst = Some u → st'.1 !! d = Some true).
Proof.
  intros Hl Hlq Hu Hc. unfold release_use. rewrite (count_down_at size uc _ u Hc Hu).
  2: { rewrite occ_cons, decide_True by done. lia. }
  cbn [res_bind]. rewrite occ_cons, decide_True by done.
  replace (uses (insts f) keep u + (1 + occ u us) - 1) with (uses (insts f) keep u + occ u us) by lia.
  unfold vec_get at 1. rewrite list_lookup_insert_eq by (destruct Hc; lia). cbn [res_bind].
  assert (counts size (<[N.to_nat u:=uses (insts f) keep u + occ u us]> uc)
            (λ r, uses (insts f) keep r + occ r us)) as Hc'.
  { eapply counts_ext; [|by apply counts_set]. intros r. simpl. case_decide; [by subst|].
    rewrite occ_cons. rewrite decide_False by done. lia. }
  case_decide as H0; [|do 2 eexists; split; [done|]; split_and!; [done|apply grows_refl|done]].
  destruct (lookup_lt_is_Some_2 definers (N.to_nat u)) as [ds Hds]; [destruct Hdef; lia|].
  rewrite (proj2 (vec_get_Ok _ _ _) Hds). cbn [res_bind].
  destruct (enqueue_all_ok (ready keep) keep ds st) as (st1 & -> & Hg & Hm).
  - congruence.
  - rewrite Hl. by eapply definers_lt.
  - intros d (Hk0 & inst & Hi & Hr)%(definers_elem u ds d Hds) _. exists inst, u. split_and!; [done..|lia].
  - do 2 eexists. split; [done|]. split_and!; [done..|]. intros _ d inst Hk0 Hk Hi Hr. apply Hm; [|done].
    apply (definers_elem u ds d Hds). eauto.
Qed.

Lemma release_ok keep us uc st :
  length keep = length (insts f) → length st.1 = length (insts f) →
  Forall (λ u, N.to_nat u < size) us →
  counts size uc (λ r, uses (insts f) keep r + occ r us) →
  ∃ uc' st', fold_res (release_use definers keep) us (uc, st) = Ok (uc', st') ∧
    counts size uc' (uses (insts f) keep) ∧ grows (ready keep) st st' ∧
    ∀ u d inst, u ∈ us → uses (insts f) keep u = 0 → keep0 !! d = Some true → keep !! d = Some true →
      insts f !! d = Some inst → def_reg inst = Some u → st'.1 !! d = Some true.
Proof.
  intros Hl Hlq Hus. revert uc st Hlq. induction Hus as [|u us Hu _ IH]; intros uc st Hlq Hc; cbn [fold_res].
  { exists uc, st. split_and!; [done| |apply grows_refl|by intros ??? ?%elem_of_nil].
    eapply counts_ext; [|done]. intros r. unfold occ. simpl. lia. }
  destruct (release_one keep u us uc st Hl Hlq Hu Hc) as (uc1 & st1 & -> & Hc1 & Hg1 & Hm1). cbn [res_bind].
  destruct (IH uc1 st1 ltac:(rewrite (grows_length _ _ _ Hg1); done) Hc1) as (uc' & st' & -> & Hc2 & Hg2 & Hm2).
  exists uc', st'. split_and!; [done..|by eapply grows_trans|].
  intros u' d inst [->|Hin]%elem_of_cons H0 Hk0 Hk Hi Hr; [|by eapply Hm2].
  destruct (decide (u ∈ us)) as [Hin|Hni]; [by eapply Hm2|].
  apply (grows_marks _ _ _ Hg2). apply occ_0 in Hni. apply Hm1 with inst; try done. lia.
Qed.

Record sweep_inv (st : sweep_state) : Prop := {
  inv_keep_length : length (sw_keep st) = length (insts f);
  inv_queue_length : length (sw_in_queue st) = length (insts f);
  inv_sub : ∀ i, sw_keep st !! i = Some true → keep0 !! i = Some true;
  inv_dead : ∀ i, keep0 !! i = Some true → sw_keep st !! i = Some false → dead f keep0 i;
  inv_uses : counts size (sw_uses st) (uses (insts f) (sw_keep st));
  inv_queue : ∀ d, d ∈ sw_queue st → ready (sw_keep st) d ∧ sw_in_queue st !! d = Some true;
  inv_marked : ∀ d, sw_in_queue st !! d = Some true →
    d ∈ sw_queue st ∨ sw_keep st !! d = Some false ∨ ∀ r, ¬ deletable f d r;
  inv_ready : ∀ d r, sw_keep st !! d = Some true → deletable f d r →
    uses (insts f) (sw_keep st) r = 0 → sw_in_queue st !! d = Some true;
}.

(** The head of the queue needs no second look when it is not deleted. *)
Lemma sweep_inv_skip keep uc inq i queue :
  sweep_inv (mkSweep keep uc inq (i :: queue)) →
  keep !! i = Some false ∨ (∀ r, ¬ deletable f i r) → sweep_inv (mkSweep keep uc inq queue).
Proof.
  intros [A1 A2 A3 A4 A5 A6 A7 A8] Hi. simpl in *. constructor; simpl; [done..| | |done].
  - intros d Hd. apply A6. by right.
  - intros d Hd. destruct (A7 d Hd) as [[->|?]%elem_of_cons|?]; auto.
Qed.

Lemma uses_mono keep i inst r :
  insts f !! i = Some inst → keep !! i = Some true →
  uses (insts f) keep r = 0 → uses (insts f) (<[i:=false]> keep) r = 0.
Proof. intros Hi Hk H0. pose proof (uses_delete (insts f) keep i inst r Hi Hk). lia. Qed.

Lemma ready_mono keep i inst d :
  insts f !! i = Some inst → keep !! i = Some true → ready keep d → ready (<[i:=false]> keep) d.
Proof.
  intros Hi Hk (x & r & ? & ? & ? & ?). exists x, r. split_and!; [done..|]. by eapply uses_mono.
Qed.

Lemma keep_delete keep i (Hlk : length keep = length (insts f)) (Hi : i < length (insts f)) :
  (∀ j, <[i:=false]> keep !! j = Some true ↔ j ≠ i ∧ keep !! j = Some true) ∧
  (∀ j, <[i:=false]> keep !! j = Some false ↔ j = i ∨ keep !! j = Some false).
Proof.
  split; intros j; (destruct (decide (j = i)) as [->|Hne];
    [rewrite list_lookup_insert_eq by lia|rewrite list_lookup_insert_ne by done]); naive_solver.
Qed.

(** An unread deletable instruction is dead when everything deleted before it
    is. *)
Lemma unread_dead keep i r :
  length keep = length (insts f) → keep0 !! i = Some true → deletable f i r → uses (insts f) keep r = 0 →
  (∀ j, keep0 !! j = Some true → keep !! j = Some false → dead f keep0 j) → dead f keep0 i.
Proof.
  intros Hl Hk0 Hdel H0 Hd. apply (dead_intro f keep0 i r); [done..|]. intros j x Hxk Hx Hu.
  apply Hd; [done|]. destruct (lookup_lt_is_Some_2 keep j) as [[] Hb]; [rewrite Hl; exact (lookup_lt_Some _ _ _ Hx)| |done].
  by destruct (proj1 (uses_0 (insts f) keep r Hl) H0 j x Hb Hx).
Qed.

(** The invariant after the head of the queue is deleted, its uses are released
    and the queue has grown by what became ready. *)
Lemma sweep_inv_delete keep uc inq queue i inst r uc' st1 inq' queue' :
  sweep_inv (mkSweep keep uc inq (i :: queue)) →
  keep !! i = Some true → insts f !! i = Some inst →
  deletable f i r → uses (insts f) keep r = 0 →
  let keep' := <[i:=false]> keep in
  counts size uc' (uses (insts f) keep') →
  grows (ready keep') (inq, queue) (inq', queue') → grows (ready keep') st1 (inq', queue') →
  (∀ u d x, u ∈ use_regs inst → uses (insts f) keep' u = 0 → keep0 !! d = Some true → keep' !! d = Some true →
      insts f !! d = Some x → def_reg x = Some u → st1.1 !! d = Some true) →
  sweep_inv (mkSweep keep' uc' inq' queue').
Proof.
  intros [A1 A2 A3 A4 A5 A6 A7 A8] Hk Hi Hdel H0 keep' Hc Hg Hg2 Hm1. simpl in *.
  destruct (keep_delete keep i A1) as [Hup Hdn]; [by eapply lookup_lt_Some|]. fold keep' in Hup, Hdn.
  constructor; cbn [sw_keep sw_uses sw_in_queue sw_queue].
  - unfold keep'. by rewrite length_insert.
  - exact (eq_trans (grows_length _ _ _ Hg) A2).
  - intros j [_ Hj]%Hup. auto.
  - intros j Hj0 [->|Hj]%Hdn; [by apply (unread_dead keep i r)|auto].
  - done.
  - intros d Hd. destruct (grows_new _ _ _ Hg d Hd) as [Hold|[? ?]]; [|done].
    destruct (A6 d) as [Hrd Hqd]; [by right|]. split; [by eapply ready_mono|].
    by apply (grows_marks _ _ _ Hg).
  - intros d Hd. rewrite Hdn. destruct (grows_queued _ _ _ Hg d Hd) as [Hold|?]; [|auto].
    destruct (A7 d Hold) as [[->|Hq]%elem_of_cons|[?|?]]; [auto| |auto..].
    left. by apply (grows_keeps _ _ _ Hg).
  - intros d s Hd Hdd Hs0. pose proof Hd as [Hne Hdk]%Hup.
    destruct (decide (uses (insts f) keep s = 0)) as [Hold|Hold].
    + apply (grows_marks _ _ _ Hg). simpl. eauto.
    + apply (grows_marks _ _ _ Hg2). destruct Hdd as (x & Hx & Hxr & _).
      apply (Hm1 s d x); [|done|auto|done..].
      pose proof (uses_delete (insts f) keep i inst s Hi Hk) as Hu. fold keep' in Hu.
      destruct (decide (s ∈ use_regs inst)) as [|Hn]; [done|]. apply occ_0 in Hn. lia.
Qed.

(** Deleting the head of the queue. *)
Lemma sweep_delete keep uc inq queue i inst r :
  sweep_inv (mkSweep keep uc inq (i :: queue)) →
  keep !! i = Some true → insts f !! i = Some inst → def_reg inst = Some r →
  deletable f i r → uses (insts f) keep r = 0 →
  ∃ uc' q1 inq' queue',
    fold_res (release_use definers (<[i:=false]> keep)) (use_regs inst) (uc, (inq, queue)) = Ok (uc', q1) ∧
    (let* ds := vec_get definers (N.to_nat r) in fold_res (enqueue (<[i:=false]> keep)) ds q1) =
      Ok (inq', queue') ∧
    sweep_inv (mkSweep (<[i:=false]> keep) uc' inq' queue') ∧
    unvisited inq' + length queue' = unvisited inq + length queue.
Proof.
  intros Hinv Hk Hi Hr Hdel H0. pose proof Hinv as [A1 A2 A3 _ A5 _ _ _]. simpl in *.
  assert (keep0 !! i = Some true) as Hk0 by auto.
  set (keep' := <[i:=false]> keep) in *.
  assert (length keep' = length (insts f)) as Hl' by (unfold keep'; by rewrite length_insert).
  destruct (release_ok keep' (use_regs inst) uc (inq, queue)) as (uc' & q1 & E1 & Hc & Hg1 & Hm1).
  { done. }
  { done. }
  { apply Forall_forall. intros u Hu. apply (Hbound i inst); auto. }
  { eapply counts_ext; [|exact A5]. intros x. symmetry. by apply uses_delete. }
  destruct (lookup_lt_is_Some_2 definers (N.to_nat r)) as [ds Hds].
  { rewrite (proj1 Hdef). apply (Hbound i inst); auto. }
  destruct (enqueue_all_ok (ready keep') keep' ds q1) as ([inq' queue'] & E2 & Hg2 & Hm2).
  { rewrite (grows_length _ _ _ Hg1). simpl. congruence. }
  { rewrite Hl'. by eapply definers_lt. }
  { intros d (Hd0 & x & Hx & Hxr)%(definers_elem r ds d Hds) _. exists x, r. split_and!; [done..|].
    by eapply uses_mono. }
  pose proof (grows_trans _ _ _ _ Hg1 Hg2) as Hg.
  exists uc', q1, inq', queue'. split; [done|]. split; [by rewrite (proj2 (vec_get_Ok _ _ _) Hds)|].
  split; [by eapply (sweep_inv_delete keep uc inq queue i inst r uc' q1)|apply (grows_slack _ _ _ Hg)].
Qed.

(** What holds of the final bit map. *)
Definition swept (keep : list bool) : Prop :=
  length keep = length (insts f) ∧
  (∀ i, keep !! i = Some true → keep0 !! i = Some true) ∧
  (∀ i, keep0 !! i = Some true → keep !! i = Some false → dead f keep0 i) ∧
  (∀ d r, keep !! d = Some true → deletable f d r → uses (insts f) keep r ≠ 0).

Lemma sweep_loop_ok fuel st :
  sweep_inv st → unvisited (sw_in_queue st) + length (sw_queue st) <= fuel →
  ∃ keep, sweep_loop fuel f definers labels escaped st = Ok keep ∧ swept keep.
Proof.
  revert st. induction fuel as [|fuel IH]; intros [keep uc inq [|i queue]] Hinv Hf; cbn [sweep_loop sw_queue];
    simpl in Hf.
  1, 3: exists keep; split; [done|]; unfold swept; split_and!; [apply Hinv..|]; intros d r Hd Hdd H0;
    destruct (inv_marked _ Hinv d (inv_ready _ Hinv d r Hd Hdd H0)) as [?%elem_of_nil|[E|Hn]];
    [done | simpl in E; congruence | by eapply Hn].
  { lia. }
  assert (keep !! i = Some false ∨ (∀ r, ¬ deletable f i r) →
    ∃ keep', sweep_loop fuel f definers labels escaped (mkSweep keep uc inq queue) = Ok keep' ∧
      swept keep') as Hskip.
  { intros Hi. apply IH; [by eapply sweep_inv_skip|simpl; lia]. }
  destruct (inv_queue _ Hinv i) as [(inst & r & Hk0 & Hi & Hr & H0) _]; [by left|]. simpl in H0.
  apply lookup_lt_Some in Hi as Hlt. cbn [sw_keep sw_uses sw_in_queue].
  destruct (lookup_lt_is_Some_2 keep i) as [k Hk]; [pose proof (inv_keep_length _ Hinv) as E; simpl in E; lia|].
  rewrite (proj2 (vec_get_Ok _ _ _) Hk). cbn [res_bind].
  destruct (lookup_lt_is_Some_2 labels i) as [t Ht]; [by rewrite label_bits_length|].
  rewrite (proj2 (vec_get_Ok _ _ _) Ht). cbn [res_bind].
  destruct k; cbn [negb orb]; [|by apply Hskip; auto].
  destruct t.
  { apply Hskip. right. intros s (? & _ & _ & _ & Hl & _). apply Hl. by apply label_bits_true. }
  rewrite (proj2 (vec_get_Ok _ _ _) Hi). cbn [res_bind]. rewrite Hr.
  assert (N.to_nat r < size) as Hrs by (apply (Hbound i inst); auto).
  assert (vec_get uc (N.to_nat r) = Ok 0) as ->.
  { apply vec_get_Ok. rewrite <- H0. apply (inv_uses _ Hinv), Hrs. }
  cbn [res_bind].
  rewrite bool_decide_eq_false_2 by lia. cbn [orb].
  assert (∀ s, deletable f i s → s = r ∧ is_pure inst f = true ∧ ¬ escaping_store f inst r) as Hdet.
  { intros s (x & Hx & Hxr & Hp & _ & He). rewrite Hi in Hx. injection Hx as <-. rewrite Hr in Hxr.
    injection Hxr as <-. done. }
  destruct (slot_escapes escaped inst r) eqn:Hesc; cbn [orb].
  { apply Hskip. right. intros s (_ & _ & Hn)%Hdet. by apply Hn, (slot_escapes_true f size). }
  destruct (is_pure inst f) eqn:Hp; cbn [negb].
  2: { apply Hskip. right. intros s (_ & ? & _)%Hdet. done. }
  assert (deletable f i r) as Hdel.
  { exists inst. split_and!; [done..| |].
    - intros Hl. apply label_bits_true in Hl; [congruence|done].
    - intros He. apply (slot_escapes_true f size) in He. congruence. }
  rewrite vec_set_lt by (by eapply lookup_lt_Some). cbn [res_bind].
  destruct (sweep_delete keep uc inq queue i inst r Hinv Hk Hi Hr Hdel H0)
    as (uc' & q1 & inq' & queue' & -> & E2 & Hinv' & Hslack). cbn [res_bind].
  destruct (vec_get definers (N.to_nat r)) as [ds| |]; simpl in E2; [|done..]. cbn [res_bind].
  rewrite E2. cbn [res_bind]. apply IH; [done|]. simpl. lia.
Qed.
End sweep.

(** ** Pass B as a whole *)

Lemma kept_from_ge n keep is' i : i ∈ (kept_from n keep is').*1 → n <= i.
Proof. intros ([j inst] & -> & [? _]%kept_from_elem)%list_elem_of_fmap. done. Qed.

Lemma kept_from_NoDup n keep is' : NoDup (kept_from n keep is').*1.
Proof.
  revert n is'. induction keep as [|k keep IH]; intros n [|x is']; try constructor. simpl.
  destruct k; [|apply IH]. simpl. constructor; [|apply IH]. intros ?%kept_from_ge. lia.
Qed.

Lemma kept_bound (ks : list (nat * Inst)) i inst r :
  (i, inst) ∈ ks → def_reg inst = Some r ∨ r ∈ use_regs inst →
  N.to_nat r < N.to_nat (fold_left max_reg_of ks.*2 0%N) + 1.
Proof.
  intros Hin%(list_elem_of_fmap_2 snd) Hr.
  pose proof (max_regs_elem ks.*2 0%N inst r Hin Hr). lia.
Qed.

Section initial.
Context (f : IRFunction) (keep0 : list bool) (size : nat) (uc : list nat).
Context (Hlen : length keep0 = length (insts f)).
Context (Huc : counts size uc (uses (insts f) keep0)).
Context (Hbound : ∀ i inst r, keep0 !! i = Some true → insts f !! i = Some inst →
           def_reg inst = Some r ∨ r ∈ use_regs inst → N.to_nat r < size).
#[local] Abbreviation escaped := (collect_escaped_slots (nested f) (replicate size false)).

Lemma initial_candidate_ok i inst :
  keep0 !! i = Some true → insts f !! i = Some inst →
  ∃ c, initial_candidate f uc (label_bits f) escaped (i, inst) = Ok c ∧
    (c = true ↔ ∃ r, deletable f i r ∧ uses (insts f) keep0 r = 0).
Proof.
  intros Hk Hi. unfold initial_candidate. apply lookup_lt_Some in Hi as Hlt.
  destruct (lookup_lt_is_Some_2 (label_bits f) i) as [t Ht]; [by rewrite label_bits_length|].
  rewrite (proj2 (vec_get_Ok _ _ _) Ht). cbn [res_bind].
  assert (∀ r, deletable f i r ↔ def_reg inst = Some r ∧ t = false ∧ is_pure inst f = true ∧
            slot_escapes escaped inst r = false) as Hdel.
  { intros r. rewrite <- not_true_iff_false, <- (not_true_iff_false (slot_escapes _ _ _)).
    rewrite slot_escapes_true.
    assert (t = true ↔ Some i ∈ label_pos f) as ->.
    { rewrite <- label_bits_true by done. rewrite Ht. naive_solver. }
    unfold deletable. split; [|naive_solver].
    intros (x & Hx & ? & ? & ? & ?). rewrite Hi in Hx. by injection Hx as <-. }
  destruct t.
  { exists false. split; [done|]. split; [done|]. by intros (r & (_ & ? & _)%Hdel & _). }
  destruct (def_reg inst) as [r|] eqn:Hr.
  2: { exists false. split; [done|]. split; [done|]. by intros (r & (? & _)%Hdel & _). }
  assert (N.to_nat r < size) as Hrs by (apply (Hbound i inst); auto).
  unfold vec_get. rewrite (proj2 Huc r Hrs). cbn [res_bind]. eexists. split; [done|].
  rewrite !andb_true_iff, bool_decide_eq_true, negb_true_iff. split.
  - intros [[H0 He] Hp]. exists r. rewrite Hdel. done.
  - intros (s & ([= <-] & _ & ? & ?)%Hdel & ?). done.
Qed.

Lemma init_queue_ok ks :
  (∀ i inst, (i, inst) ∈ ks → keep0 !! i = Some true ∧ insts f !! i = Some inst) → NoDup ks.*1 →
  ∃ inq q, fold_res (init_step f uc (label_bits f) escaped) ks
      (replicate (length (insts f)) false, []) = Ok (inq, q) ∧
    length inq = length (insts f) ∧ unvisited inq + length q = length (insts f) ∧
    (∀ d, inq !! d = Some true ↔ d ∈ q) ∧
    (∀ d, d ∈ q ↔ d ∈ ks.*1 ∧ ∃ r, deletable f d r ∧ uses (insts f) keep0 r = 0).
Proof.
  intros Hks Hnd.
  destruct (fold_res_inv (S := list bool * list nat) (init_step f uc (label_bits f) escaped)
    (λ pre st, length st.1 = length (insts f) ∧ unvisited st.1 + length st.2 = length (insts f) ∧
      (∀ d, st.1 !! d = Some true ↔ d ∈ st.2) ∧
      (∀ d, d ∈ st.2 ↔ d ∈ pre.*1 ∧ ∃ r, deletable f d r ∧ uses (insts f) keep0 r = 0))
    ks (replicate (length (insts f)) false, [])) as ([inq q] & -> & H); [| |by exists inq, q].
  - simpl. rewrite length_replicate, unvisited_replicate. split_and!; [done|lia|..].
    + intros d. rewrite lookup_replicate. set_solver.
    + intros d. set_solver.
  - intros pre [i inst] post [inq q] E (Hl & Hs & Hm & Hq). simpl in *. unfold init_step.
    destruct (Hks i inst) as [Hk Hi]; [rewrite E; set_solver|].
    destruct (initial_candidate_ok i inst Hk Hi) as (c & -> & Hc). cbn [res_bind].
    rewrite fmap_app. destruct c; simpl.
    2: { exists (inq, q). split; [done|]. simpl. split_and!; [done..|]. intros d. rewrite Hq, elem_of_app.
         split; [tauto|]. intros [[?| ->%list_elem_of_singleton] Hd]; [auto|].
         apply Hc in Hd. done. }
    assert (i ∉ pre.*1) as Hni.
    { rewrite E, fmap_app in Hnd. apply NoDup_app in Hnd as (_ & Hd & _). intros Hin.
      apply (Hd i Hin). simpl. by left. }
    assert (i < length inq) as Hlt by (rewrite Hl; by eapply lookup_lt_Some).
    assert (inq !! i = Some false) as Hf.
    { destruct (lookup_lt_is_Some_2 inq i Hlt) as [[] Hx]; [|done].
      apply Hm, Hq in Hx as [? _]. done. }
    rewrite vec_set_lt by done. cbn [res_bind]. eexists. split; [done|]. simpl.
    pose proof (unvisited_insert inq i Hf). split_and!.
    + by rewrite length_insert.
    + rewrite length_app. simpl. lia.
    + intros d. rewrite keep_set by done. rewrite Hm, elem_of_app, list_elem_of_singleton. tauto.
    + intros d. rewrite !elem_of_app, Hq, !list_elem_of_singleton. split.
      * intros [[? ?]| ->]; [auto|]. split; [auto|]. by apply Hc.
      * intros [[?| ->] ?]; auto.
Qed.
End initial.

Lemma swept_exact f keep0 keep :
  swept f keep0 keep → length keep0 = length (insts f) →
  ∀ i, keep !! i = Some true ↔ keep0 !! i = Some true ∧ ¬ dead f keep0 i.
Proof.
  intros (Hl & Hsub & Hdead & Hmax) Hl0 i. split.
  - intros Hi. split; [by apply Hsub|]. intros Hd. revert Hi.
    induction Hd as [i r Hk Hdel Hall IH]. intros Hi. apply (Hmax i r Hi Hdel).
    apply uses_0; [done|]. intros j inst Hj Hx Hu. apply (IH j inst); auto.
  - intros [Hk Hn]. destruct (lookup_lt_is_Some_2 keep i) as [[] Hx]; [|done|].
    + rewrite Hl, <- Hl0. by eapply lookup_lt_Some.
    + by destruct Hn; apply Hdead.
Qed.

Lemma pass_b_ok f keep0 :
  length keep0 = length (insts f) →
  ∃ keep, pass_b_dead_code f keep0 = Ok keep ∧ length keep = length (insts f) ∧
    (∀ i, keep !! i = Some true ↔ keep0 !! i = Some true ∧ ¬ dead f keep0 i) ∧
    (∀ i, keep0 !! i = Some true → keep !! i = Some false → dead f keep0 i).
Proof.
  intros Hl. unfold pass_b_dead_code. rewrite kept_eq by done. cbn [res_bind].
  set (ks := kept_from 0 keep0 (insts f)).
  set (size := N.to_nat (fold_left max_reg_of ks.*2 0%N) + 1).
  assert (∀ i inst, (i, inst) ∈ ks ↔ keep0 !! i = Some true ∧ insts f !! i = Some inst) as Hks.
  { intros i inst. unfold ks. rewrite kept_from_elem, Nat.sub_0_r. split; [tauto|]. intros ?. split; [lia|done]. }
  assert (∀ i inst r, keep0 !! i = Some true → insts f !! i = Some inst →
    def_reg inst = Some r ∨ r ∈ use_regs inst → N.to_nat r < size) as Hbound.
  { intros i inst r Hk Hi Hr. apply (kept_bound ks i inst r); [by apply Hks|done]. }
  destruct (count_up_ok size (mjoin (use_regs <$> ks.*2)) (replicate size 0) (λ _, 0)) as (uc & -> & Huc).
  { split; [apply length_replicate|]. intros r Hr. by apply lookup_replicate_2. }
  { apply Forall_forall. intros u (l & Hu & (inst & -> & ([i inst'] & -> & Hin)%list_elem_of_fmap)%list_elem_of_fmap)%list_elem_of_join.
    apply Hks in Hin as [Hk Hi]. apply (Hbound i inst'); auto. }
  cbn [res_bind].
  assert (counts size uc (uses (insts f) keep0)) as Huc'.
  { eapply counts_ext; [|done]. intros r. simpl. apply uses_kept. }
  destruct (definers_build size ks) as (ds & -> & Hds).
  { intros i inst r [Hk Hi]%Hks Hr. apply (Hbound i inst); auto. }
  cbn [res_bind].
  destruct (init_queue_ok f keep0 size uc Hl Huc' Hbound ks) as (inq & q & -> & Hlq & Hslack & Hm & Hq).
  { intros i inst Hin. by apply Hks. }
  { apply kept_from_NoDup. }
  cbn [res_bind].
  destruct (sweep_loop_ok f keep0 size ds Hl Hbound Hds (length (insts f)) (mkSweep keep0 uc inq q))
    as (keep & -> & Hswept); [|simpl; lia|].
  - constructor; cbn [sw_keep sw_uses sw_in_queue sw_queue]; try done.
    + intros i Hi Hi'. congruence.
    + intros d Hd. split; [|by apply Hm]. apply Hq in Hd as [Hd (r & (x & Hx & Hr & _) & H0)].
      apply list_elem_of_fmap in Hd as ([i inst] & -> & [Hk Hi]%Hks). by exists x, r.
    + intros d Hd%Hm. auto.
    + intros d r Hk Hdel H0. apply Hm, Hq. destruct Hdel as (x & Hx & Hrest). split; [|exists r; split; [by exists x|done]].
      apply list_elem_of_fmap. exists (d, x). split; [done|]. by apply Hks.
  - exists keep. split; [done|]. split_and!; [apply Hswept|by apply swept_exact|apply Hswept].
Qed.
