(* ===== verification/Compact.v ===== *)
(** * Deleting instructions preserves behaviour (crates/oxide_dce/src/rebuild.rs)

    The compaction of pass C, and a simulation between a function and its
    compaction, proved against an interface [Machine]: what the passes assume
    of the execution of single instructions. *)

From stdpp Require Import base tactics numbers list option sets relations.
From Stdlib Require Import NArith ZArith Lia.
From S2P Require Import Prelude Opcode IR Contract Cfg Liveness Dce.
#[local] Set Warnings "-clear-no-such-hyp".

Open Scope nat_scope.

(** ** Compaction *)

(** The new index of position [p]: the kept instructions before it. *)
Definition rank (keep : list bool) (p : nat) : nat :=
  length (filter (λ k, k = true) (take p keep)).

Lemma rank_S (keep : list bool) p (k : bool) :
  keep !! p = Some k → rank keep (S p) = rank keep p + (if k then 1 else 0).
Proof.
  intros Hk. unfold rank. rewrite (take_S_r _ _ _ Hk), filter_app, length_app.
  destruct k; done.
Qed.

Lemma rank_cons (k : bool) keep p : rank (k :: keep) (S p) = (if k then 1 else 0) + rank keep p.
Proof. unfold rank. simpl. rewrite filter_cons. by destruct k. Qed.

Lemma rank_mono keep p q : p <= q → rank keep p <= rank keep q.
Proof.
  intros H. unfold rank. rewrite <- (take_drop p (take q keep)), take_take, Nat.min_l by done.
  rewrite filter_app, length_app. lia.
Qed.

Lemma compact_ok keep is' next :
  length keep = length is' →
  ∃ new map, compact keep is' next = Ok (new, map) ∧ length new = rank keep (length keep) ∧
    (∀ p, map !! p = (λ k : bool, if k then Some (next + rank keep p) else None) <$> keep !! p) ∧
    (∀ p, keep !! p = Some true → new !! rank keep p = is' !! p) ∧
    (∀ q i, new !! q = Some i → ∃ p, keep !! p = Some true ∧ rank keep p = q ∧ is' !! p = Some i).
Proof.
  revert is' next. induction keep as [|k keep IH]; intros [|i is'] next Hl; try done; simpl in *.
  { exists [], []. split_and!; done. }
  destruct (IH is' (if k then S next else next) ltac:(lia)) as (new & map & -> & Hn & Hmap & Hnew & Hback).
  cbn [res_bind]. do 2 eexists. split; [done|]. split_and!.
  - rewrite rank_cons. destruct k; simpl; lia.
  - intros [|p]; simpl.
    + unfold rank. simpl. destruct k; [by rewrite Nat.add_0_r|done].
    + rewrite rank_cons, Hmap. destruct (keep !! p) as [b|]; [|done]. simpl. destruct b, k; simpl; do 2 f_equal; lia.
  - intros [|p] Hp; simpl in *.
    + by simplify_eq.
    + rewrite rank_cons. destruct k; simpl; by apply Hnew.
  - intros q x Hq. destruct k.
    + destruct q as [|q]; simpl in Hq.
      * exists 0. by simplify_eq.
      * destruct (Hback q x Hq) as (p & ? & <- & ?). exists (S p). by rewrite rank_cons.
    + destruct (Hback q x Hq) as (p & ? & <- & ?). exists (S p). by rewrite rank_cons.
Qed.

(** [f'] is [f] reduced to the instructions of [keep]. *)
Record compacted (f : IRFunction) (keep : list bool) (f' : IRFunction) : Prop := {
  comp_length : length (insts f') = rank keep (length (insts f));
  comp_insts : ∀ p, keep !! p = Some true → insts f' !! rank keep p = insts f !! p;
  comp_back : ∀ q i, insts f' !! q = Some i →
    ∃ p, keep !! p = Some true ∧ rank keep p = q ∧ insts f !! p = Some i;
  comp_labels : ∀ l q, label_target f' l = Some q ↔
    ∃ p, label_target f l = Some p ∧ keep !! p = Some true ∧ q = rank keep p;
  comp_rest : f' = with_code f (insts f') (label_pos f');
}.

Lemma pass_c_ok f keep :
  length keep = length (insts f) → ∃ f', pass_c_sweep f keep = Ok f' ∧ compacted f keep f'.
Proof.
  intros Hl. unfold pass_c_sweep.
  destruct (compact_ok keep (insts f) 0 Hl) as (new & map & -> & Hn & Hmap & Hnew & Hback).
  cbn [res_bind]. eexists. split; [done|]. constructor.
  - simpl. by rewrite Hn, Hl.
  - done.
  - done.
  - intros l q. unfold label_target. simpl. rewrite list_lookup_fmap.
    destruct (label_pos f !! N.to_nat l) as [[p|]|]; simpl; [|split; [done|naive_solver]..].
    rewrite Hmap. destruct (keep !! p) as [[]|] eqn:Hk; simpl; naive_solver.
  - done.
Qed.

(** ** The interface to execution *)

(** How an instruction ends. *)
Inductive control (V : Type) :=
  | Next
  | Branch
  | Raise (e : V)
  | Stop (v : V).
Arguments Next {V}.
Arguments Branch {V}.
Arguments Raise {V} e.
Arguments Stop {V} v.

(** The execution of single instructions, as the register contract of
    [contract.rs] describes it to the passes.  [exec] gives the value for the
    defined register, the new heap, the new handler stack (labels) and how
    the instruction ends; [derived] and [top_level] say in which kind of
    function it runs.  The laws: an instruction reads the registers of
    [use_regs] only (that it writes [def_reg] only is part of [step]), a pure
    one neither touches the heap nor raises nor jumps, a plain store to a
    local slot likewise, and handlers are pushed by the two [TRY] markers
    only. *)
Class Machine (derived top_level : bool) := {
  value : Type;
  heap : Type;
  exec : Inst → (N → value) → heap → list N → value * heap * list N * control value;
  exec_reads inst regs regs' h hs :
    (∀ r, r ∈ use_regs inst → regs r = regs' r) → exec inst regs h hs = exec inst regs' h hs;
  exec_pure inst g regs h hs :
    is_derived_constructor g = derived → is_pure inst g = true →
    ∃ v, exec inst regs h hs = (v, h, hs, Next);
  exec_local_store inst regs h hs :
    top_level = false → i_op inst = STORE_VAR → i_b inst = Imm 0 →
    ∃ v, exec inst regs h hs = (v, h, hs, Next);
  exec_handlers inst regs h hs v h' hs' c l :
    exec inst regs h hs = (v, h', hs', c) → l ∈ hs' →
    l ∈ hs ∨ (i_op inst = TRY_BEGIN ∨ i_op inst = TRY_FINALLY_BEGIN) ∧ i_b inst = Label l;
}.

Section execution.
Context {derived top_level : bool} `{!Machine derived top_level}.

Record state := mkState {
  s_pc : nat;
  s_regs : N → value;
  s_heap : heap;
  s_handlers : list N;
}.

Definition set_reg (regs : N → value) (d : option N) (v : value) (r : N) : value :=
  if decide (d = Some r) then v else regs r.

(** Jumps need a target inside the code: lowering rejects the others. *)
Inductive step (f : IRFunction) : state → state → Prop :=
  | step_next pc regs h hs inst v h' hs' :
      insts f !! pc = Some inst → exec inst regs h hs = (v, h', hs', Next) →
      is_terminator (i_op inst) = false ∨ cond_jump (i_op inst) = true →
      step f (mkState pc regs h hs) (mkState (S pc) (set_reg regs (def_reg inst) v) h' hs')
  | step_branch pc regs h hs inst v h' hs' p :
      insts f !! pc = Some inst → exec inst regs h hs = (v, h', hs', Branch) →
      splits_block (i_op inst) = true → jump_to f inst p → p < length (insts f) →
      step f (mkState pc regs h hs) (mkState p (set_reg regs (def_reg inst) v) h' hs')
  | step_raise pc regs h hs inst v h' hs' e l p :
      insts f !! pc = Some inst → exec inst regs h hs = (v, h', l :: hs', Raise e) →
      label_target f l = Some p → p < length (insts f) →
      step f (mkState pc regs h hs) (mkState p (set_reg regs (Some 0%N) e) h' hs').

(** The results of a run. *)
Inductive outcome :=
  | Finished (v : value) (h : heap)
  | Uncaught (e : value) (h : heap).

Inductive finishes (f : IRFunction) : state → outcome → Prop :=
  | finishes_stop pc regs h hs inst v h' hs' x :
      insts f !! pc = Some inst → exec inst regs h hs = (x, h', hs', Stop v) →
      finishes f (mkState pc regs h hs) (Finished v h')
  | finishes_raise pc regs h hs inst v h' e :
      insts f !! pc = Some inst → exec inst regs h hs = (v, h', [], Raise e) →
      finishes f (mkState pc regs h hs) (Uncaught e h').

(** [f] run from [s] ends with [o]. *)
Definition runs_to (f : IRFunction) (s : state) (o : outcome) : Prop :=
  ∃ s', rtc (step f) s s' ∧ finishes f s' o.

Lemma step_det f s t t' : step f s t → step f s t' → t = t'.
Proof.
  intros H H'. inversion H; subst; inversion H'; subst; simplify_eq; try done; try congruence.
  match goal with Hj : jump_to _ _ _, Hj' : jump_to _ _ _ |- _ => destruct Hj as (? & ? & ?), Hj' as (? & ? & ?) end.
  congruence.
Qed.

Lemma set_reg_same regs regs' d v r :
  (d ≠ Some r → regs r = regs' r) → set_reg regs d v r = set_reg regs' d v r.
Proof. intros H. unfold set_reg. case_decide; auto. Qed.

(** ** Simulation of a compacted function *)

Section simulation.
Context (f f' : IRFunction) (keep : list bool) (Hlen : length keep = length (insts f)).
Context (Hcomp : compacted f keep f').
(** [good pc hs]: the positions and handler stacks a run can have;
    [needed pc]: the registers on which the two runs must agree. *)
Context (good : nat → list N → Prop) (needed : nat → N → Prop).

(** An instruction that may be skipped: it does nothing but write a
    register that is not needed afterwards. *)
Definition skippable (i : nat) : Prop :=
  ∃ inst, insts f !! i = Some inst ∧ is_terminator (i_op inst) = false ∧
    (∀ regs h hs, ∃ v, exec inst regs h hs = (v, h, hs, Next)) ∧
    ∀ r, needed (S i) r → needed i r ∧ def_reg inst ≠ Some r.

Context (Hgood : ∀ s s', step f s s' → good (s_pc s) (s_handlers s) → good (s_pc s') (s_handlers s')).
Context (Hdel : ∀ i hs, good i hs → keep !! i = Some false → skippable i).
Context (Htarget : ∀ i hs l, good i hs → i < length (insts f) → label_target f l = Some i →
           keep !! i = Some true).
Context (Hread : ∀ i inst r, keep !! i = Some true → insts f !! i = Some inst →
           r ∈ use_regs inst → needed i r).
Context (Hflow : ∀ i inst j r, keep !! i = Some true → insts f !! i = Some inst → flow f i j →
           needed j r → needed i r ∨ def_reg inst = Some r).
Context (Hraise : ∀ i inst regs h hs v h' hs' e l j r, good i hs → insts f !! i = Some inst →
           exec inst regs h hs = (v, h', l :: hs', Raise e) → label_target f l = Some j →
           needed j r → r = 0%N ∨ needed i r).

Record matches (s s' : state) : Prop := {
  match_good : good (s_pc s) (s_handlers s);
  match_pc : s_pc s' = rank keep (s_pc s);
  match_regs : ∀ r, needed (s_pc s) r → s_regs s r = s_regs s' r;
  match_heap : s_heap s' = s_heap s;
  match_handlers : s_handlers s' = s_handlers s;
}.

Lemma deleted_step s1 s2 :
  step f s1 s2 → good (s_pc s1) (s_handlers s1) → keep !! s_pc s1 = Some false →
  s_pc s2 = S (s_pc s1) ∧ s_heap s2 = s_heap s1 ∧ s_handlers s2 = s_handlers s1 ∧
  ∀ r, needed (s_pc s2) r → needed (s_pc s1) r ∧ s_regs s2 r = s_regs s1 r.
Proof.
  intros Hs Hg Hk. destruct (Hdel _ _ Hg Hk) as (inst & Hi & _ & Hex & Hn).
  destruct Hs as [pc regs h hs inst' v h' hs' Hi' He Hft|pc regs h hs inst' v h' hs' p Hi' He _ _ _
                 |pc regs h hs inst' v h' hs' e l p Hi' He _ _];
    simpl in *; rewrite Hi in Hi'; injection Hi' as <-;
    destruct (Hex regs h hs) as [v' Hex']; rewrite Hex' in He; simplify_eq.
  split_and!; [done..|]. intros r Hr. destruct (Hn r Hr) as [? ?]. split; [done|].
  unfold set_reg. by rewrite decide_False.
Qed.

(** A deleted instruction is no step of [f']. *)
Lemma simulate_deleted s1 s2 s' :
  step f s1 s2 → matches s1 s' → keep !! s_pc s1 = Some false → matches s2 s'.
Proof.
  intros Hs [Hg Hpc Hregs Hheap Hhs] Hk.
  destruct (deleted_step s1 s2 Hs Hg Hk) as (E1 & E2 & E3 & E4). constructor.
  - by eapply Hgood.
  - rewrite E1, (rank_S _ _ _ Hk), Hpc. simpl. lia.
  - intros r Hr. destruct (E4 r Hr) as [? ->]. auto.
  - congruence.
  - congruence.
Qed.

(** A kept instruction is one step of [f']. *)
Lemma simulate_kept s1 s2 s1' :
  step f s1 s2 → matches s1 s1' → keep !! s_pc s1 = Some true → ∃ s2', step f' s1' s2' ∧ matches s2 s2'.
Proof.
  intros Hs [Hg Hpc Hregs Hheap Hhs] Hk.
  pose proof (Hgood _ _ Hs Hg) as Hg2. destruct s1' as [pc' regs' h' hs'']. simpl in *. subst.
  destruct Hs as [pc regs h hs inst v h2 hs2 Hi He Hft|pc regs h hs inst v h2 hs2 p Hi He Hsp Hj Hp
                 |pc regs h hs inst v h2 hs2 e l p Hi He Hl Hp]; simpl in *;
    (assert (exec inst regs h hs = exec inst regs' h hs) as Hex
       by (apply exec_reads; intros r Hr; apply Hregs; by eapply Hread));
    rewrite Hex in He;
    (assert (insts f' !! rank keep pc = Some inst) as Hi' by (by rewrite (comp_insts _ _ _ Hcomp) by done)).
  - eexists. split; [by eapply step_next|]. constructor; simpl; [done| |..|done|done].
    + rewrite (rank_S _ _ _ Hk). lia.
    + intros r Hr. apply set_reg_same. intros Hd. apply Hregs.
      destruct (Hflow pc inst (S pc) r Hk Hi) as [?|?]; [by eapply flow_next|done..].
  - pose proof Hj as (l & Hb & Hl).
    assert (keep !! p = Some true) as Hkp by (by eapply Htarget).
    eexists. split.
    { eapply (step_branch f' _ regs' h hs inst v h2 hs2 (rank keep p)); [done..| |].
      - exists l. split; [done|]. apply (comp_labels _ _ _ Hcomp). by exists p.
      - apply lookup_lt_is_Some_1. rewrite (comp_insts _ _ _ Hcomp) by done. by apply lookup_lt_is_Some_2. }
    constructor; simpl; [done|done| |done|done]. intros r Hr. apply set_reg_same. intros Hd. apply Hregs.
    destruct (Hflow pc inst p r Hk Hi) as [?|?]; [by eapply flow_jump|done..].
  - assert (keep !! p = Some true) as Hkp by (by eapply Htarget).
    eexists. split.
    { eapply (step_raise f' _ regs' h hs inst v h2 hs2 e l (rank keep p)); [done..| |].
      - apply (comp_labels _ _ _ Hcomp). by exists p.
      - apply lookup_lt_is_Some_1. rewrite (comp_insts _ _ _ Hcomp) by done. by apply lookup_lt_is_Some_2. }
    constructor; simpl; [done|done| |done|done]. intros r Hr. apply set_reg_same. intros Hd. apply Hregs.
    destruct (Hraise pc inst regs' h hs v h2 hs2 e l p r) as [->|?]; [done..|congruence|done].
Qed.

Lemma simulate_finish s o s' : finishes f s o → matches s s' → finishes f' s' o.
Proof.
  intros Hf [Hg Hpc Hregs Hheap Hhs]. destruct s' as [pc' regs' h' hs'']. simpl in *. subst.
  assert (∀ pc regs h hs inst c x h2 hs2, good pc hs → insts f !! pc = Some inst →
    exec inst regs h hs = (x, h2, hs2, c) → c ≠ Next → keep !! pc = Some true) as Hkept.
  { intros pc regs h hs inst c x h2 hs2 Hgd Hi He Hc.
    destruct (lookup_lt_is_Some_2 keep pc) as [[] Hk]; [rewrite Hlen; by eapply lookup_lt_Some|done|].
    destruct (Hdel _ _ Hgd Hk) as (inst' & Hi' & _ & Hex & _). rewrite Hi in Hi'. injection Hi' as <-.
    destruct (Hex regs h hs) as [v' Hex']. congruence. }
  destruct Hf as [pc regs h hs inst v h2 hs2 x Hi He|pc regs h hs inst v h2 e Hi He]; simpl in *;
    (assert (keep !! pc = Some true) as Hk by (by eapply Hkept));
    (assert (exec inst regs h hs = exec inst regs' h hs) as Hex
       by (apply exec_reads; intros r Hr; apply Hregs; by eapply Hread));
    rewrite Hex in He;
    (assert (insts f' !! rank keep pc = Some inst) as Hi' by (by rewrite (comp_insts _ _ _ Hcomp) by done)).
  - by eapply finishes_stop.
  - by eapply finishes_raise.
Qed.

Lemma simulate_run s o s' : runs_to f s o → matches s s' → runs_to f' s' o.
Proof.
  intros (t & Hrun & Hfin) Hm. revert s' Hm.
  induction Hrun as [s|s1 s2 s3 Hs _ IH]; intros s' Hm.
  - exists s'. split; [apply rtc_refl | by eapply simulate_finish].
  - assert (s_pc s1 < length (insts f)) as Hlt by (destruct Hs; by eapply lookup_lt_Some).
    destruct (lookup_lt_is_Some_2 keep (s_pc s1)) as [[] Hk]; [lia|..].
    2: { apply IH; [done|]. by eapply simulate_deleted. }
    destruct (simulate_kept s1 s2 s' Hs Hm Hk) as (s2' & Hs2 & Hm2).
    destruct (IH Hfin s2' Hm2) as (t' & Hrun' & Hfin'). exists t'. split; [|done].
    by eapply rtc_l.
Qed.

(** *** The converse *)

(** [f] catches up with [f']: it skips deleted instructions, of which there
    are finitely many in a row. *)
Lemma catch_up s s' inst :
  matches s s' → insts f' !! s_pc s' = Some inst →
  ∃ t, rtc (step f) s t ∧ matches t s' ∧ keep !! s_pc t = Some true ∧ insts f !! s_pc t = Some inst.
Proof.
  remember (length (insts f) - s_pc s) as n eqn:Hn. revert s Hn.
  induction n as [n IH] using lt_wf_ind. intros s Hn Hm Hi.
  assert (s_pc s < length (insts f)) as Hlt.
  { apply lookup_lt_Some in Hi. rewrite (match_pc _ _ Hm), (comp_length _ _ _ Hcomp) in Hi.
    destruct (le_lt_dec (length (insts f)) (s_pc s)) as [Hge|?]; [|done].
    pose proof (rank_mono keep _ _ Hge). lia. }
  destruct (lookup_lt_is_Some_2 keep (s_pc s)) as [[] Hk]; [lia|..].
  { exists s. split_and!; [apply rtc_refl|done..|].
    by rewrite <- (comp_insts _ _ _ Hcomp _ Hk), <- (match_pc _ _ Hm). }
  destruct (Hdel _ _ (match_good _ _ Hm) Hk) as (x & Hx & Hterm & Hex & _).
  destruct (Hex (s_regs s) (s_heap s) (s_handlers s)) as [v He].
  assert (step f s (mkState (S (s_pc s)) (set_reg (s_regs s) (def_reg x) v) (s_heap s) (s_handlers s))) as Hs.
  { destruct s. simpl in *. eapply step_next; eauto. }
  pose proof (simulate_deleted _ _ _ Hs Hm Hk) as Hm2.
  edestruct (IH (length (insts f) - S (s_pc s))) as (t & Ht & Hrest); [lia| |exact Hm2|done|]; [done|].
  exists t. split; [by eapply rtc_l|done].
Qed.

Lemma kept_exec t s' inst :
  matches t s' → keep !! s_pc t = Some true → insts f !! s_pc t = Some inst →
  exec inst (s_regs s') (s_heap s') (s_handlers s') = exec inst (s_regs t) (s_heap t) (s_handlers t).
Proof.
  intros [_ _ Hregs -> ->] Hk Hi. apply exec_reads. intros r Hr. symmetry. by eapply Hregs, Hread.
Qed.

Lemma kept_target l q :
  label_target f' l = Some q → ∃ p, label_target f l = Some p ∧ p < length (insts f).
Proof.
  intros (p & Hl & Hk & _)%(comp_labels _ _ _ Hcomp). exists p. split; [done|].
  rewrite <- Hlen. by eapply lookup_lt_Some.
Qed.

(** One step of [f'] is some steps of [f]. *)
Lemma simulate_back s s' t' : step f' s' t' → matches s s' → ∃ t, rtc (step f) s t ∧ matches t t'.
Proof.
  intros Hs Hm. assert (∃ inst, insts f' !! s_pc s' = Some inst) as [inst Hi] by (destruct Hs; eauto).
  destruct (catch_up s s' inst Hm Hi) as (u & Hrun & Hmu & Hk & Hiu).
  assert (∃ t, step f u t) as [t Ht].
  { pose proof (kept_exec u s' inst Hmu Hk Hiu) as He. destruct u as [pc regs h hs].
    destruct Hs as [pc' regs' h' hs' x v h2 hs2 Hx Hex Hft|pc' regs' h' hs' x v h2 hs2 p Hx Hex Hsp (l & Hb & Hl) _
                   |pc' regs' h' hs' x v h2 hs2 e l p Hx Hex Hl _];
      simpl in *; rewrite Hi in Hx; injection Hx as <-; rewrite He in Hex.
    - eexists. by eapply step_next.
    - destruct (kept_target l p Hl) as (q & Hq & Hlt). eexists. eapply step_branch; [done..| |done]. by exists l.
    - destruct (kept_target l p Hl) as (q & Hq & Hlt). eexists. by eapply step_raise. }
  destruct (simulate_kept u t s' Ht Hmu Hk) as (t2 & Ht2 & Hmt). rewrite (step_det f' _ _ _ Hs Ht2).
  exists t. split; [by eapply rtc_r|done].
Qed.

Lemma simulate_back_finish s o s' : finishes f' s' o → matches s s' → runs_to f s o.
Proof.
  intros Hf Hm. assert (∃ inst, insts f' !! s_pc s' = Some inst) as [inst Hi] by (destruct Hf; eauto).
  destruct (catch_up s s' inst Hm Hi) as (u & Hrun & Hmu & Hk & Hiu). exists u. split; [done|].
  pose proof (kept_exec u s' inst Hmu Hk Hiu) as He. destruct u as [pc regs h hs].
  destruct Hf; simpl in *; simplify_eq; rewrite He in *; [by eapply finishes_stop|by eapply finishes_raise].
Qed.

Lemma simulate_back_run s o s' : runs_to f' s' o → matches s s' → runs_to f s o.
Proof.
  intros (t' & Hrun & Hfin) Hm. revert s Hm.
  induction Hrun as [s'|s1 s2 s3 Hs _ IH]; intros s Hm; [by eapply simulate_back_finish|].
  destruct (simulate_back s s1 s2 Hs Hm) as (t & Ht & Hmt).
  destruct (IH Hfin t Hmt) as (u & Hu & ?). exists u. split; [by etrans|done].
Qed.

(** A function and its compaction have the same results. *)
Lemma simulate_iff s o s' : matches s s' → runs_to f s o ↔ runs_to f' s' o.
Proof. intros Hm. split; intros H; [by eapply simulate_run|by eapply simulate_back_run]. Qed.
End simulation.
End execution.

Arguments state {derived top_level _}.
Arguments outcome {derived top_level _}.
