(* ===== verification/DceCorrect.v ===== *)
(** * Correctness of dead-code elimination (crates/oxide_dce/src/lib.rs)

    The two entry points [dce] and [dce_precise]: when they succeed, what they
    delete, and that the function they return runs to the same results, for
    every machine that meets the register contract. *)

From stdpp Require Import base tactics numbers list option sets relations.
From Stdlib Require Import NArith ZArith Lia.
From S2P Require Import Prelude Opcode IR Contract Cfg Liveness Dce Compact.
#[local] Set Warnings "-clear-no-such-hyp".

Open Scope nat_scope.

(** ** Reachable instructions *)

(** The bit map of pass A. *)
Definition reachable_map (g : Cfg) (keep : list bool) : Prop :=
  ∀ i, keep !! i = Some true ↔ ∃ k b, blocks g !! k = Some b ∧ in_block b i ∧ block_reach g k.

Lemma reachable_entry f g keep :
  cfg_ok f g → insts f ≠ [] → reachable_map g keep → keep !! 0 = Some true.
Proof.
  intros Hok Hne Hmap. apply Hmap.
  assert (0 < length (insts f)) as Hlen by (destruct (insts f); [done|simpl; lia]).
  pose proof (tiles_first _ _ (ok_tiles _ _ Hok)) as H0.
  apply starts_lookup_block in H0 as (b & Hb & Hs).
  pose proof (tiles_nonempty _ _ (ok_tiles _ _ Hok) 0 b Hb ltac:(lia)).
  exists 0, b. split_and!; [by apply real_block|split; lia|].
  unfold block_reach. rewrite (ok_entry _ _ Hok). apply rtc_refl.
Qed.

Lemma reachable_flow f g keep i j :
  cfg_ok f g → reachable_map g keep → keep !! i = Some true → flow f i j →
  j < length (insts f) → keep !! j = Some true.
Proof.
  intros Hok Hmap (k & b & Hb & Hin & Hr)%Hmap Hf Hj. apply Hmap.
  assert (real_blocks g !! k = Some b) as Hb'.
  { destruct (blocks_cases f g k b Hok Hb) as [?|(_ & _ & E & _)]; [done|]. destruct Hin; lia. }
  destruct (flow_covered f g Hok i j k b Hf Hj Hb' Hin) as [[-> Hs]|(t & kd & b' & Ht & Hbt & <-)].
  - exists k, b. split_and!; [done| |done]. destruct Hin; split; lia.
  - pose proof (tiles_nonempty _ _ (ok_tiles _ _ Hok) t b' Hbt Hj).
    exists t, b'. split_and!; [by apply real_block|split; lia|]. eapply rtc_r; [done|]. by exists b, kd.
Qed.

(** ** What [dce] does *)

Lemma dead_count_0 keep : dead_count keep = 0 → ∀ i, i < length keep → keep !! i = Some true.
Proof.
  unfold dead_count. induction keep as [|k keep IH]; intros H [|i] Hi; simpl in *; try lia;
    rewrite filter_cons in H; case_decide; simpl in H; try lia.
  - by destruct k.
  - apply IH; [done|lia].
Qed.

(** [dce] on a function with code: the graph, the two bit maps and the result. *)
Inductive dce_trace (f : IRFunction) : IRFunction → option Cfg → Prop :=
  | dce_trace_intro g keep_a keep f' og :
      cfg_ok f g → build_cfg f = Ok g → length keep_a = length (insts f) → reachable_map g keep_a →
      length keep = length (insts f) →
      (∀ i, keep !! i = Some true ↔ keep_a !! i = Some true ∧ ¬ dead f keep_a i) →
      (∀ i, keep_a !! i = Some true → keep !! i = Some false → dead f keep_a i) →
      (f' = f ∧ og = Some g ∧ (∀ i, i < length (insts f) → keep !! i = Some true) ∨
       og = None ∧ compacted f keep f' ∧ dead_count keep ≠ 0) →
      dce_trace f f' og.

Lemma dce_ok f :
  insts f ≠ [] → labels_ok f → ∃ f' og, dce f = Ok (f', og) ∧ dce_trace f f' og.
Proof.
  intros Hne Hl. destruct (build_cfg_spec f Hne Hl) as (g & Hg & Hok). unfold dce.
  destruct (insts f) as [|i0 is0] eqn:Ei; [done|]. rewrite <- Ei in *. clear Ei i0 is0. rewrite Hg. cbn [res_bind].
  destruct (pass_a_ok f g (cfg_graph_ok f g Hok)) as (ka & -> & Hla & Hka). cbn [res_bind].
  destruct (pass_b_ok f ka Hla) as (kb & -> & Hlb & Hkb & Hdk). cbn [res_bind].
  case_decide as Hd.
  - do 2 eexists. split; [done|]. apply (dce_trace_intro f g ka kb); try done. left. split_and!; [done..|].
    intros i Hi. apply dead_count_0; [done|lia].
  - destruct (pass_c_ok f kb Hlb) as (f' & -> & Hc). cbn [res_bind].
    do 2 eexists. split; [done|]. apply (dce_trace_intro f g ka kb); try done. by right.
Qed.

Lemma dce_inv f f' og :
  dce f = Ok (f', og) → insts f = [] ∧ f' = f ∨ insts f ≠ [] ∧ labels_ok f ∧ dce_trace f f' og.
Proof.
  intros H. destruct (decide (insts f = [])) as [E|Hne].
  { left. unfold dce in H. rewrite E in H. destruct (build_cfg f); simplify_eq/=. done. }
  right. destruct (decide (labels_ok f)) as [Hl|Hl].
  - destruct (dce_ok f Hne Hl) as (f2 & og2 & E & Ht). rewrite H in E. by injection E as <- <-.
  - unfold dce in H. assert (build_cfg f = Panic) as Hp.
    { unfold build_cfg. rewrite (partition_panics f Hl). by destruct (insts f). }
    rewrite Hp in H. by destruct (insts f).
Qed.

Lemma pure_not_terminator inst f : is_pure inst f = true → is_terminator (i_op inst) = false.
Proof. unfold is_pure. destruct (i_op inst); vm_compute; done. Qed.

(** Every [TRY_BEGIN] has its [TRY_END]. *)
Definition tries_closed (f : IRFunction) : Prop :=
  ∀ i inst l, insts f !! i = Some inst → opens inst l → ∃ p_end, protected f i p_end l.

Section dce_simulation.
Context {derived top_level : bool} `{!Machine derived top_level}.
Context (f f' : IRFunction) (g : Cfg) (keep_a keep : list bool).
Context (Hok : cfg_ok f g) (Hla : length keep_a = length (insts f)) (Hmap : reachable_map g keep_a).
Context (Hlk : length keep = length (insts f)).
Context (Hkeep : ∀ i, keep !! i = Some true ↔ keep_a !! i = Some true ∧ ¬ dead f keep_a i).
Context (Hdead : ∀ i, keep_a !! i = Some true → keep !! i = Some false → dead f keep_a i).
Context (Hder : is_derived_constructor f = derived) (Htry : tries_closed f).
Context (Hcomp : compacted f keep f').

Definition reached (pc : nat) (hs : list N) : Prop :=
  (pc < length (insts f) → keep_a !! pc = Some true) ∧
  ∀ l q, l ∈ hs → label_target f l = Some q → q < length (insts f) → keep_a !! q = Some true.

Definition read_by_kept (pc : nat) (r : N) : Prop :=
  ∃ i inst, keep !! i = Some true ∧ insts f !! i = Some inst ∧ r ∈ use_regs inst.

Lemma reached_handlers pc inst regs h hs v h' hs' c :
  reached pc hs → insts f !! pc = Some inst → exec inst regs h hs = (v, h', hs', c) →
  ∀ l q, l ∈ hs' → label_target f l = Some q → q < length (insts f) → keep_a !! q = Some true.
Proof.
  intros [Hpc Hhs] Hi He l q Hl Hq Hlt. apply lookup_lt_Some in Hi as Hp.
  destruct (exec_handlers _ _ _ _ _ _ _ _ l He Hl) as [Hin|[[Hop|Hop] Hb]]; [by eapply Hhs|..].
  - destruct (Htry pc inst l Hi) as [pe Hpr]; [done|]. eapply reachable_flow; [done..|auto| |done].
    eapply flow_catch; [done| |done]. pose proof (protected_range f _ _ _ Hpr). lia.
  - eapply reachable_flow; [done..|auto| |done]. eapply flow_finally; [done..|]. by exists l.
Qed.

Lemma reached_step s s' :
  step f s s' → reached (s_pc s) (s_handlers s) → reached (s_pc s') (s_handlers s').
Proof.
  intros Hs Hr.
  destruct Hs as [pc regs h hs inst v h2 hs2 Hi He Hft|pc regs h hs inst v h2 hs2 p Hi He Hsp Hj Hp
                 |pc regs h hs inst v h2 hs2 e l p Hi He Hl Hp]; simpl in *;
    pose proof (reached_handlers pc inst regs h hs _ _ _ _ Hr Hi He) as Hh; apply lookup_lt_Some in Hi as Hlt;
    destruct Hr as [Hpc Hhs].
  - split; [|done]. intros Hj. eapply reachable_flow; [done..|auto| |done]. by eapply flow_next.
  - split; [|done]. intros _. eapply reachable_flow; [done..|auto| |done]. by eapply flow_jump.
  - split; [intros _; by eapply Hh; [left|..]|]. intros l' q Hl'. apply Hh. by right.
Qed.

Lemma deleted_dead i hs : reached i hs → keep !! i = Some false → dead f keep_a i.
Proof.
  intros [Hr _] Hk. apply Hdead; [|done]. apply Hr. rewrite <- Hlk. by eapply lookup_lt_Some.
Qed.

Lemma deleted_skippable i hs : reached i hs → keep !! i = Some false → skippable f read_by_kept i.
Proof.
  intros Hr Hk. pose proof (deleted_dead i hs Hr Hk) as Hd.
  inversion Hd as [i' r Ha (inst & Hi & Hdr & Hp & _) Hall]; subst i'.
  exists inst. split; [done|]. split; [by eapply pure_not_terminator|].
  split; [intros regs h hs'; by apply (exec_pure inst f)|].
  intros r' (j & x & Hj & Hx & Hu). split; [by exists j, x|]. rewrite Hdr. intros [= <-].
  apply Hkeep in Hj as [Hja Hnd]. by apply Hnd, (Hall j x).
Qed.

Lemma target_kept i hs l :
  reached i hs → i < length (insts f) → label_target f l = Some i → keep !! i = Some true.
Proof.
  intros [Hr _] Hi Hl. apply Hkeep. split; [auto|]. intros Hd.
  inversion Hd as [i' r _ (inst & _ & _ & _ & Hn & _)]; subst i'. apply Hn. by eapply label_target_pos.
Qed.

Lemma dce_runs s o :
  reached (s_pc s) (s_handlers s) → s_pc s = 0 → runs_to f s o ↔ runs_to f' s o.
Proof.
  intros Hr H0.
  apply (simulate_iff f f' keep Hlk Hcomp reached read_by_kept reached_step deleted_skippable target_kept);
    [|eauto..|].
  - intros i inst r Hk Hi Hu. by exists i, inst.
  - constructor; [done|by rewrite H0|done..].
Qed.
End dce_simulation.

(** ** What [dce_precise] deletes *)

(** The result of instruction [i] is not live after it, and it is pure or a
    plain store to a local slot that no nested function refers to. *)
Definition precisely_dead (f : IRFunction) (info : LiveInfo) (i : nat) : Prop :=
  ∃ inst r, insts f !! i = Some inst ∧ (Some i ∉ label_pos f) ∧ def_reg inst = Some r ∧
    bitset_get (live_row info (inst_live_after info) i) r = false ∧
    (is_pure inst f = true ∨
     i_op inst = STORE_VAR ∧ i_rd inst = Reg r ∧ i_b inst = Imm 0 ∧ is_top_level f = false ∧
     ¬ ∃ h, h ∈ nested f ∧ refers r h).

Lemma store_var_def inst r : i_op inst = STORE_VAR → i_rd inst = Reg r → def_reg inst = Some r.
Proof. intros Ho Hr. unfold def_reg. rewrite Ho. simpl. by rewrite Hr. Qed.

Lemma precise_keep_ok f info size i inst :
  insts f !! i = Some inst →
  ∃ k, precise_keep f info (label_bits f) (collect_escaped_slots (nested f) (replicate size false)) (i, inst) = Ok k ∧
    (k = false ↔ precisely_dead f info i).
Proof.
  intros Hi. apply lookup_lt_Some in Hi as Hlt. unfold precise_keep.
  destruct (lookup_lt_is_Some_2 (label_bits f) i) as [t Ht]; [by rewrite label_bits_length|].
  rewrite (proj2 (vec_get_Ok _ _ _) Ht). cbn [res_bind].
  destruct t.
  { exists true. split; [done|]. split; [done|].
    intros (? & ? & _ & Hn & _). by rewrite <- label_bits_true in Hn. }
  assert (Some i ∉ label_pos f) as Hnl by (rewrite <- label_bits_true by done; rewrite Ht; done).
  set (row := live_row info (inst_live_after info) i).
  assert (precisely_dead f info i ↔ ∃ r, def_reg inst = Some r ∧ bitset_get row r = false ∧
    (is_pure inst f = true ∨ i_op inst = STORE_VAR ∧ i_rd inst = Reg r ∧ i_b inst = Imm 0 ∧
      is_top_level f = false ∧ ¬ ∃ h, h ∈ nested f ∧ refers r h)) as Hpd.
  { unfold precisely_dead. fold row. split; [|naive_solver].
    intros (x & r & Hx & ?). rewrite Hi in Hx. injection Hx as <-. naive_solver. }
  setoid_rewrite Hpd. clear Hpd.
  set (gen := match def_reg inst with Some r => negb (bitset_get row r) && is_pure inst f | None => false end).
  assert (gen = true ↔ ∃ r, def_reg inst = Some r ∧ bitset_get row r = false ∧ is_pure inst f = true) as Hgen.
  { unfold gen. destruct (def_reg inst) as [r|]; [|naive_solver].
    rewrite andb_true_iff, negb_true_iff. naive_solver. }
  destruct gen.
  { exists false. split; [done|]. split; [|done]. intros _. destruct (proj1 Hgen eq_refl) as (r & ? & ? & ?). eauto. }
  assert (∀ r, def_reg inst = Some r → bitset_get row r = false → is_pure inst f ≠ true) as Hng.
  { intros r ? ? ?. assert (false = true) by (apply Hgen; eauto). done. }
  clear Hgen. case_decide as Ho.
  2: { exists true. split; [done|]. split; [done|]. intros (r & Hr & Hl & [Hp|[? _]]); [by destruct (Hng r)|done]. }
  destruct (i_rd inst) as [slot| | | | | |] eqn:Hrd;
    try (exists true; split; [done|]; split; [done|]; intros (r & Hr & Hl & [Hp|(_ & ? & _)]); [by destruct (Hng r)|done]).
  eexists. split; [done|]. pose proof (store_var_def inst slot Ho Hrd) as Hdef.
  rewrite negb_false_iff, !andb_true_iff, !negb_true_iff, bool_decide_eq_true.
  rewrite <- (not_true_iff_false (default false _)), escaped_true. split.
  - intros (((? & ?) & ?) & ?). exists slot. auto 10.
  - intros (r & Hr & Hl & [Hp|(_ & [= <-] & ? & ? & ?)]); [by destruct (Hng r)|done].
Qed.

Lemma precise_sweep_ok f info :
  ∃ keep, pass_dead_with_liveness f info = Ok keep ∧ length keep = length (insts f) ∧
    ∀ i, keep !! i = Some false ↔ precisely_dead f info i.
Proof.
  unfold pass_dead_with_liveness. set (size := N.to_nat _ + 1).
  destruct (map_res_ok (precise_keep f info (label_bits f) (collect_escaped_slots (nested f) (replicate size false)))
    (λ ii k, k = false ↔ precisely_dead f info ii.1) (enumerate (insts f))) as (keep & -> & Hk).
  { intros [i inst] Hin. apply elem_of_enumerate in Hin. by apply precise_keep_ok. }
  exists keep. split; [done|]. pose proof (Forall2_length _ _ _ Hk) as Hl. rewrite length_enumerate in Hl.
  split; [done|]. intros i. split.
  - intros Hi. destruct (Forall2_lookup_r _ _ _ _ _ Hk Hi) as ([j x] & Hj & Hd).
    apply enumerate_lookup in Hj as [E _]. simpl in E. subst j. by apply Hd.
  - intros Hd. assert (∃ inst, insts f !! i = Some inst) as [inst Hi] by (destruct Hd as (x & ? & ? & _); eauto).
    assert (enumerate (insts f) !! i = Some (i, inst)) as He by (by apply enumerate_lookup).
    destruct (Forall2_lookup_l _ _ _ _ _ Hk He) as (k & Hk1 & Hk2). rewrite Hk1. f_equal. by apply Hk2.
Qed.

Section precise_simulation.
Context {derived top_level : bool} `{!Machine derived top_level}.
Context (f f' : IRFunction) (g : Cfg) (info : LiveInfo) (keep : list bool).
Context (Hok : cfg_ok f g) (Hinfo : live_info_ok f g info) (Hno : no_handlers f).
Context (Hder : is_derived_constructor f = derived) (Htop : is_top_level f = top_level).
Context (Hlk : length keep = length (insts f)).
Context (Hkeep : ∀ i, keep !! i = Some false ↔ precisely_dead f info i).
Context (Hcomp : compacted f keep f').

Definition unhandled (pc : nat) (hs : list N) : Prop := hs = [].

Lemma handlers_empty pc inst regs h v h' hs' c :
  insts f !! pc = Some inst → exec inst regs h [] = (v, h', hs', c) → hs' = [].
Proof.
  intros Hi He. destruct hs' as [|l hs']; [done|].
  unfold no_handlers in Hno. rewrite Forall_lookup in Hno. pose proof (Hno pc inst Hi) as Hn.
  destruct (exec_handlers _ _ _ _ _ _ _ _ l He) as [Hin%elem_of_nil|[Hop _]]; [by left|done|tauto].
Qed.

Lemma unhandled_step s s' :
  step f s s' → unhandled (s_pc s) (s_handlers s) → unhandled (s_pc s') (s_handlers s').
Proof.
  unfold unhandled. intros Hs. destruct Hs as [pc regs h hs inst v h2 hs2 Hi He|pc regs h hs inst v h2 hs2 p Hi He
    |pc regs h hs inst v h2 hs2 e l p Hi He]; simpl; intros ->;
    pose proof (handlers_empty _ _ _ _ _ _ _ _ Hi He) as E; done.
Qed.

Lemma precise_pure i inst :
  insts f !! i = Some inst → precisely_dead f info i →
  (∀ regs h hs, ∃ v, exec inst regs h hs = (v, h, hs, Next)) ∧ is_terminator (i_op inst) = false.
Proof.
  intros Hi (x & r & Hx & _ & _ & _ & H). rewrite Hi in Hx. injection Hx as <-.
  destruct H as [Hp|(Ho & _ & Hb & Ht & _)].
  - split; [|by eapply pure_not_terminator]. intros regs h hs. by apply (exec_pure inst f).
  - split; [|by rewrite Ho]. intros regs h hs. apply exec_local_store; congruence.
Qed.

Lemma precise_skippable i hs : unhandled i hs → keep !! i = Some false → skippable f (flow_live f) i.
Proof.
  intros _ Hk%Hkeep. destruct Hk as (inst & r & Hi & Hrest). pose proof Hi as Hlt%lookup_lt_Some.
  destruct (precise_pure i inst Hi) as [Hex Ht]; [by exists inst, r|].
  exists inst. split_and!; [done..|]. intros r' Hl.
  assert (flow f i (S i)) as Hf by (eapply flow_next; eauto).
  assert (def_reg inst ≠ Some r') as Hne; [|split; [by eapply flow_step|done]].
  destruct Hrest as (_ & -> & Hdead & _). intros [= <-].
  assert (bitset_get (live_row info (inst_live_after info) i) r = true); [|congruence].
  apply (info_after _ _ _ Hinfo i r Hlt). eapply flow_after; [done..| |]; [by eapply flow_live_lt|].
  by apply flow_live_at.
Qed.

Lemma precise_target i hs l :
  unhandled i hs → i < length (insts f) → label_target f l = Some i → keep !! i = Some true.
Proof.
  intros _ Hi Hl. destruct (lookup_lt_is_Some_2 keep i) as [[] Hk]; [lia|done|].
  apply Hkeep in Hk as (? & ? & _ & Hn & _). destruct Hn. by eapply label_target_pos.
Qed.

Lemma precise_runs s o : s_pc s = 0 → s_handlers s = [] → runs_to f s o ↔ runs_to f' s o.
Proof.
  intros H0 Hs.
  apply (simulate_iff f f' keep Hlk Hcomp unhandled (flow_live f) unhandled_step precise_skippable precise_target).
  - intros i inst r _ Hi Hu. by eapply flow_use.
  - intros i inst j r _ Hi Hf Hl. destruct (decide (def_reg inst = Some r)); [auto|]. left. by eapply flow_step.
  - intros i inst regs h hs v h' hs' e l j r -> Hi He. by pose proof (handlers_empty _ _ _ _ _ _ _ _ Hi He).
  - constructor; [done|by rewrite H0|done..].
Qed.
End precise_simulation.

(** ** A machine that meets the contract *)

(** Values are numbers: an instruction computes the sum of what it reads and
    of its constants, calls add to the heap, [THROW] raises, the [TRY]
    markers maintain the handler stack. *)
Definition imm_of (o : Operand) : N := match o with Imm v | Const v => v | _ => 0%N end.

Definition sum_exec (inst : Inst) (regs : N → N) (h : N) (hs : list N) : N * N * list N * control N :=
  let v := (foldr N.add 0 (regs <$> use_regs inst) + imm_of (i_a inst) + imm_of (i_b inst))%N in
  match i_op inst with
  | RETURN | HALT => (v, h, hs, Stop v)
  | JMP | BREAK | CONTINUE => (v, h, hs, Branch)
  | JMP_IF_FALSE => (v, h, hs, if decide (v = 0%N) then Branch else Next)
  | JMP_IF_TRUE => (v, h, hs, if decide (v = 0%N) then Next else Branch)
  | THROW => (v, h, hs, Raise v)
  | TRY_BEGIN | TRY_FINALLY_BEGIN =>
      (v, h, match i_b inst with Label l => l :: hs | _ => hs end, Next)
  | TRY_END => (v, h, tail hs, Next)
  | CALL => (v, (h + v)%N, hs, Next)
  | _ => (v, h, hs, Next)
  end.

#[export] Instance sum_machine derived top_level : Machine derived top_level.
Proof.
  refine {| value := N; heap := N; exec := sum_exec |}.
  - intros inst regs regs' h hs Hr. unfold sum_exec. do 3 f_equal.
    assert (regs <$> use_regs inst = regs' <$> use_regs inst) as ->; [|done].
    apply list_fmap_ext. intros i r Hi. by eapply Hr, list_elem_of_lookup_2.
  - intros inst g regs h hs _ Hp. unfold is_pure in Hp. apply andb_true_iff in Hp as [Hp _].
    unfold sum_exec. destruct (i_op inst); try (by vm_compute in Hp); by eexists.
  - intros inst regs h hs _ Ho _. unfold sum_exec. rewrite Ho. by eexists.
  - intros inst regs h hs v h' hs' c l He Hl. unfold sum_exec in He.
    destruct (i_op inst) eqn:Ho; injection He as <- <- <- <-; auto.
    + destruct (i_b inst) eqn:Hb; auto. apply elem_of_cons in Hl as [->|?]; auto.
    + destruct hs as [|x hs]; [by apply elem_of_nil in Hl|]. left. by right.
    + destruct (i_b inst) eqn:Hb; auto. apply elem_of_cons in Hl as [->|?]; auto.
Defined.

(** ** Shared steps of the properties *)

Lemma rank_lt keep : dead_count keep ≠ 0 → rank keep (length keep) < length keep.
Proof.
  unfold rank, dead_count. rewrite firstn_all.
  induction keep as [|[] keep IH]; rewrite ?filter_cons; simpl; intros H; [done|..].
  - apply IH in H. lia.
  - pose proof (length_filter (λ k, k = true) keep). lia.
Qed.

Lemma dead_count_pos keep : dead_count keep ≠ 0 → ∃ i, keep !! i = Some false.
Proof.
  unfold dead_count. induction keep as [|[] keep IH]; rewrite ?filter_cons; simpl; intros H; [done|..].
  - destruct (IH H) as [i Hi]. by exists (S i).
  - by exists 0.
Qed.

Lemma compacted_labels f keep f' : compacted f keep f' → length keep = length (insts f) → labels_ok f'.
Proof.
  intros Hc Hl q [l Hq]%list_elem_of_lookup.
  assert (label_target f' (N.of_nat l) = Some q) as Ht by (unfold label_target; by rewrite Nat2N.id, Hq).
  apply (comp_labels _ _ _ Hc) in Ht as (p & _ & Hk & ->).
  rewrite (comp_length _ _ _ Hc). apply rank_mono. apply lookup_lt_Some in Hk. lia.
Qed.

Lemma dce_precise_ok f g info :
  live_info_ok f g info → insts f ≠ [] →
  ∃ f' reusable keep, dce_precise f info = Ok (f', reusable) ∧ length keep = length (insts f) ∧
    (∀ i, keep !! i = Some false ↔ precisely_dead f info i) ∧
    (if reusable : bool then f' = f ∧ (∀ i, ¬ precisely_dead f info i)
     else compacted f keep f' ∧ ∃ i, precisely_dead f info i).
Proof.
  intros Hspec Hne. unfold dce_precise. destruct (insts f) as [|i0 is0] eqn:Ei; [done|]. rewrite <- Ei in *. clear Hne Ei i0 is0.
  rewrite decide_False.
  2: { pose proof (words_for_pos f). pose proof (proj2 (info_lengths _ _ _ Hspec)) as E.
       rewrite (info_words _ _ _ Hspec) in *. intros [?|?]; [done|lia]. }
  destruct (precise_sweep_ok f info) as (keep & -> & Hl & Hk). cbn [res_bind].
  case_decide as Hd.
  - exists f, true, keep. split_and!; [done..|]. intros i Hi%Hk.
    pose proof (dead_count_0 keep Hd i ltac:(by eapply lookup_lt_Some)). congruence.
  - destruct (pass_c_ok f keep Hl) as (f' & -> & Hc). cbn [res_bind]. exists f', false, keep. split_and!; [done..|].
    destruct (dead_count_pos keep Hd) as [i Hi]. exists i. by apply Hk.
Qed.

(** ** Properties *)

(** Pass A marks exactly the instructions of the blocks that can be reached
    from the entry block along the edges of the graph; in particular every
    instruction that control can reach from the first one, by falling through,
    jumping or raising, is marked. *)
Theorem pass_a_exact f g :
  build_cfg f = Ok g → insts f ≠ [] →
  ∃ keep, pass_a_reachable f g = Ok keep ∧ length keep = length (insts f) ∧
    (∀ i, keep !! i = Some true ↔ ∃ k b, blocks g !! k = Some b ∧ in_block b i ∧ block_reach g k) ∧
    ∀ i, rtc (λ i j, flow f i j ∧ j < length (insts f)) 0 i → keep !! i = Some true.
Proof.
  intros [?|[_ Hok]]%build_cfg_inv Hne; [done|].
  destruct (pass_a_ok f g (cfg_graph_ok f g Hok)) as (keep & -> & Hl & Hmap).
  exists keep. split_and!; [done..|]. intros i Hi.
  pose proof (reachable_entry f g keep Hok Hne Hmap) as H0.
  induction Hi as [|i j k [Hf Hj] _ IH]; [done|]. apply IH. by eapply reachable_flow.
Qed.

(** C10: The queue of pass B terminates within the number of instructions and
    deletes exactly the marked instructions that are dead: pure, not a label
    target, and read only by instructions that are themselves dead.  The order
    in which the queue is processed does not matter. *)
Theorem pass_b_exact f keep0 :
  length keep0 = length (insts f) →
  ∃ keep, pass_b_dead_code f keep0 = Ok keep ∧ length keep = length (insts f) ∧
    ∀ i, keep !! i = Some true ↔ keep0 !! i = Some true ∧ ¬ dead f keep0 i.
Proof. intros Hl. destruct (pass_b_ok f keep0 Hl) as (keep & ? & ? & ? & _). eauto. Qed.

(** Pass C keeps the marked instructions in order and moves every label
    that points at a kept instruction with it; a label at a deleted
    instruction or at the end of the code becomes unbound. *)
Theorem pass_c_compacts f keep :
  length keep = length (insts f) →
  ∃ f', pass_c_sweep f keep = Ok f' ∧
    (∀ q i, insts f' !! q = Some i ↔
       ∃ p, keep !! p = Some true ∧ rank keep p = q ∧ insts f !! p = Some i) ∧
    (∀ l q, label_target f' l = Some q ↔
       ∃ p, label_target f l = Some p ∧ keep !! p = Some true ∧ q = rank keep p).
Proof.
  intros Hl. destruct (pass_c_ok f keep Hl) as (f' & -> & Hc). exists f'. split; [done|].
  split; [|apply (comp_labels _ _ _ Hc)]. intros q i. split; [apply (comp_back _ _ _ Hc)|].
  intros (p & Hk & <- & Hp). by rewrite (comp_insts _ _ _ Hc).
Qed.

(** [dce] succeeds on every function whose labels are in range and returns
    a function whose labels are in range again, so that the next passes can
    build its graph; the graph it hands on is that of the returned function,
    and without one at least one instruction was deleted. *)
Theorem dce_total f :
  labels_ok f →
  ∃ f' og, dce f = Ok (f', og) ∧ labels_ok f' ∧
    match og with
    | Some g => f' = f ∧ build_cfg f' = Ok g
    | None => length (insts f') < length (insts f)
    end.
Proof.
  intros Hl. destruct (decide (insts f = [])) as [E|Hne].
  { exists f. unfold dce, build_cfg. rewrite E. eexists. split; [done|]. done. }
  destruct (dce_ok f Hne Hl) as (f' & og & Hd & Ht). exists f', og. split; [done|].
  destruct Ht as [g ka kb f' og Hok Hg _ _ Hlb _ _ Hcase].
  destruct Hcase as [(-> & -> & _)|(-> & Hc & Hdel)]; [done|].
  split; [by eapply compacted_labels|]. rewrite (comp_length _ _ _ Hc), <- Hlb. by apply rank_lt.
Qed.

(** C1: A function and the one [dce] returns produce the same results, values
    and uncaught exceptions together with the final heap, for every machine
    that respects the register contract; in particular one ends exactly when
    the other does. *)
Theorem dce_preserves derived top_level (M : Machine derived top_level) f f' og s o :
  dce f = Ok (f', og) → is_derived_constructor f = derived → tries_closed f →
  s_pc s = 0 → s_handlers s = [] → runs_to f s o ↔ runs_to f' s o.
Proof.
  intros [[_ ->]|(Hne & Hl & Ht)]%dce_inv Hder Htry H0 Hs; [done|].
  destruct Ht as [g ka kb f' og Hok Hg Hla Hmap Hlb Hkeep Hdead [(-> & _)|(_ & Hc & _)]]; [done|].
  apply (dce_runs f f' g ka kb); try done. rewrite H0, Hs. split.
  - intros _. by eapply reachable_entry.
  - by intros l q ?%elem_of_nil.
Qed.

(** With the liveness of the function, the precise round deletes exactly
    the instructions whose result is not live after them and that are pure or
    plain stores to a local slot no nested function refers to; it reports the
    liveness as reusable exactly when it deleted nothing. *)
Theorem dce_precise_exact f g info :
  build_cfg f = Ok g → liveness f g = Ok info → insts f ≠ [] →
  ∃ f' reusable keep, dce_precise f info = Ok (f', reusable) ∧ length keep = length (insts f) ∧
    (∀ i, keep !! i = Some false ↔ precisely_dead f info i) ∧
    (if reusable then f' = f ∧ (∀ i, ¬ precisely_dead f info i)
     else compacted f keep f' ∧ ∃ i, precisely_dead f info i).
Proof.
  intros [?|[_ Hok]]%build_cfg_inv Hinfo Hne; [done|].
  destruct (liveness_spec f g Hok Hne) as (info' & E & Hspec). rewrite Hinfo in E. injection E as <-.
  by eapply dce_precise_ok.
Qed.

(** C2: For code without exception handlers the function returned by the
    precise round produces exactly the results of the original one, for every
    machine that respects the register contract, [Machine]: an instruction
    reads and writes the registers the opcode table declares, and one that the
    table marks pure has no other effect and does not raise. *)
Theorem dce_precise_preserves derived top_level (M : Machine derived top_level) f g info f' reusable s o :
  build_cfg f = Ok g → liveness f g = Ok info → dce_precise f info = Ok (f', reusable) →
  is_derived_constructor f = derived → is_top_level f = top_level → no_handlers f →
  s_pc s = 0 → s_handlers s = [] → runs_to f s o ↔ runs_to f' s o.
Proof.
  intros Hg%build_cfg_inv Hinfo Hp Hder Htop Hno H0 Hs.
  destruct (decide (insts f = [])) as [E|Hne].
  { unfold dce_precise in Hp. rewrite E in Hp. by injection Hp as <- <-. }
  destruct Hg as [?|[_ Hok]]; [done|].
  destruct (liveness_spec f g Hok Hne) as (info' & E & Hspec). rewrite Hinfo in E. injection E as <-.
  destruct (dce_precise_ok f g info Hspec Hne) as (f2 & b & keep & E & Hl & Hk & Hcase).
  rewrite Hp in E. injection E as <- <-. destruct reusable; destruct Hcase as [Hcase _]; [by subst|].
  by apply (precise_runs f f' g info keep).
Qed.

(** ** Witnesses *)

(** A [try] whose body throws, with an unused constant and a handler that
    returns the exception; the code after the [THROW] is in its block and stays. *)
Definition sample_dead : IRFunction :=
  with_code ir_new
    [MkInst.try_begin 0%N;
     MkInst.load_const (Reg 5) 1;
     MkInst.load_const (Reg 1) 7;
     MkInst.new THROW (Reg 1) ONone ONone;
     MkInst.new TRY_END ONone ONone ONone;
     MkInst.jmp 1%N;
     MkInst.ret (Reg 0) 0 0 0;
     MkInst.ret (Reg 1) 0 0 0]
    [Some 6; Some 7].

Definition sample_dead_swept : IRFunction :=
  with_code ir_new
    [MkInst.try_begin 0%N;
     MkInst.load_const (Reg 1) 7;
     MkInst.new THROW (Reg 1) ONone ONone;
     MkInst.new TRY_END ONone ONone ONone;
     MkInst.jmp 1%N;
     MkInst.ret (Reg 0) 0 0 0;
     MkInst.ret (Reg 1) 0 0 0]
    [Some 5; Some 6].

Example sample_dead_dce : dce sample_dead = Ok (sample_dead_swept, None).
Proof. vm_compute. reflexivity. Qed.

Definition zero_state (derived top_level : bool) : @state derived top_level _ :=
  mkState (Machine0 := sum_machine derived top_level) 0 (λ _, 0%N) 0%N [].

Lemma sample_dead_runs : runs_to sample_dead (zero_state false false) (Finished 7%N 0%N).
Proof.
  eexists. split.
  - eapply rtc_l; [by eapply step_next; [reflexivity..|by left]|].
    eapply rtc_l; [by eapply step_next; [reflexivity..|by left]|].
    eapply rtc_l; [by eapply step_next; [reflexivity..|by left]|].
    eapply rtc_l; [eapply (step_raise _ _ _ _ _ _ _ _ _ _ 0%N 6); [reflexivity..|]; apply Nat.ltb_lt; reflexivity|].
    apply rtc_refl.
  - eapply (finishes_stop _ _ _ _ _ (MkInst.ret (Reg 0) 0 0 0)); reflexivity.
Qed.

Lemma sample_dead_closed : tries_closed sample_dead.
Proof.
  intros i inst l Hi [Ho Hb]. exists 4.
  assert (i = 0 ∧ l = 0%N) as [-> ->].
  { do 8 (destruct i as [|i]; [injection Hi as <-; first [done | injection Hb as <-; done]|]). done. }
  exists [], (MkInst.try_begin 0%N),
    [MkInst.load_const (Reg 5) 1; MkInst.load_const (Reg 1) 7; MkInst.new THROW (Reg 1) ONone ONone],
    (MkInst.new TRY_END ONone ONone ONone), [MkInst.jmp 1%N; MkInst.ret (Reg 0) 0 0 0; MkInst.ret (Reg 1) 0 0 0].
  split_and!; try reflexivity; [by split|].
  do 3 (apply balanced_other; [by intros ? [] | discriminate |]). constructor.
Qed.

Lemma dce_preserves_witness : runs_to sample_dead_swept (zero_state false false) (Finished 7%N 0%N).
Proof.
  apply (dce_preserves false false (sum_machine false false) sample_dead sample_dead_swept None);
    [vm_compute; reflexivity | reflexivity | exact sample_dead_closed | reflexivity | reflexivity | exact sample_dead_runs].
Defined.

Lemma dce_total_witness :
  labels_ok sample_dead ∧
  ∃ f' og, dce sample_dead = Ok (f', og) ∧ labels_ok f' ∧
    match og with
    | Some g => f' = sample_dead ∧ build_cfg f' = Ok g
    | None => length (insts f') < length (insts sample_dead)
    end.
Proof.
  assert (labels_ok sample_dead) as H by (apply (bool_decide_unpack _); vm_compute; exact I).
  split; [exact H | exact (dce_total sample_dead H)].
Defined.

Definition sample_dead_cfg : Cfg := match build_cfg sample_dead with Ok g => g | _ => cfg_new end.

Lemma pass_a_exact_witness :
  ∃ keep, pass_a_reachable sample_dead sample_dead_cfg = Ok keep ∧ keep !! 1 = Some true.
Proof.
  destruct (pass_a_exact sample_dead sample_dead_cfg) as (keep & H & _ & _ & Hr);
    [vm_compute; reflexivity | discriminate |].
  exists keep. split; [exact H|]. apply Hr.
  eapply rtc_l; [|apply rtc_refl]. split; [|apply Nat.ltb_lt; reflexivity].
  eapply flow_next; [reflexivity | left; reflexivity].
Defined.

Lemma pass_b_exact_witness :
  ∃ keep, pass_b_dead_code sample_dead (replicate 8 true) = Ok keep ∧ length keep = 8.
Proof.
  destruct (pass_b_exact sample_dead (replicate 8 true)) as (keep & H & Hl & _); [reflexivity|].
  exists keep. split; [exact H | exact Hl].
Defined.

Lemma pass_c_compacts_witness :
  ∃ f', pass_c_sweep sample_dead [true; false; true; true; true; true; true; true] = Ok f' ∧
    label_target f' 0 = Some 5.
Proof.
  destruct (pass_c_compacts sample_dead [true; false; true; true; true; true; true; true]) as (f' & H & _ & Hl);
    [reflexivity|].
  exists f'. split; [exact H|]. apply Hl. exists 6. split; [reflexivity|]. split; reflexivity.
Defined.

(** A local store that is overwritten before it is read. *)
Definition sample_store : IRFunction :=
  with_code ir_new
    [MkInst.load_const (Reg 1) 3;
     mkInst STORE_VAR (Reg 2) (Reg 1) (Imm 0) [];
     MkInst.load_const (Reg 1) 4;
     mkInst STORE_VAR (Reg 2) (Reg 1) (Imm 0) [];
     MkInst.ret (Reg 2) 0 0 0] [].

Definition sample_store_cfg : Cfg := match build_cfg sample_store with Ok g => g | _ => cfg_new end.
Definition sample_store_live : LiveInfo :=
  match liveness sample_store sample_store_cfg with Ok i => i | _ => live_info_new end.
Definition sample_store_swept : IRFunction :=
  with_code ir_new
    [MkInst.load_const (Reg 1) 3;
     MkInst.load_const (Reg 1) 4;
     mkInst STORE_VAR (Reg 2) (Reg 1) (Imm 0) [];
     MkInst.ret (Reg 2) 0 0 0] [].

Example sample_store_dce : dce_precise sample_store sample_store_live = Ok (sample_store_swept, false).
Proof. vm_compute. reflexivity. Qed.

(** The missing edges into a [finally] lose stores: in [return_in_finally] the
    handler reads the value stored before the [RETURN], which runs it, but the
    precise round deletes that store. *)
Theorem finally_store_deleted :
  ∃ g info f', build_cfg return_in_finally = Ok g ∧ liveness return_in_finally g = Ok info ∧
    dce_precise return_in_finally info = Ok (f', false) ∧
    insts f' = take 3 (insts return_in_finally) ++ drop 4 (insts return_in_finally).
Proof.
  eexists _, _, _. split; [vm_compute; reflexivity|]. split; [vm_compute; reflexivity|].
  split; [vm_compute; reflexivity|]. vm_compute. reflexivity.
Qed.

Lemma dce_precise_exact_witness :
  ∃ f' reusable keep, dce_precise sample_store sample_store_live = Ok (f', reusable) ∧ length keep = 5 ∧
    ∀ i, keep !! i = Some false ↔ precisely_dead sample_store sample_store_live i.
Proof.
  destruct (dce_precise_exact sample_store sample_store_cfg sample_store_live)
    as (f' & b & keep & H & Hl & Hk & _); [vm_compute; reflexivity | vm_compute; reflexivity | discriminate |].
  exists f', b, keep. split; [exact H|]. split; [exact Hl | exact Hk].
Defined.

Lemma sample_store_runs : runs_to sample_store (zero_state false false) (Finished 4%N 0%N).
Proof.
  eexists. split.
  - do 4 (eapply rtc_l; [by eapply step_next; [reflexivity..|by left]|]). apply rtc_refl.
  - eapply (finishes_stop _ _ _ _ _ (MkInst.ret (Reg 2) 0 0 0)); reflexivity.
Qed.

Lemma dce_precise_preserves_witness : runs_to sample_store_swept (zero_state false false) (Finished 4%N 0%N).
Proof.
  apply (dce_precise_preserves false false (sum_machine false false) sample_store sample_store_cfg
           sample_store_live sample_store_swept false);
    [vm_compute; reflexivity.. | reflexivity | reflexivity | | reflexivity | reflexivity | exact sample_store_runs].
  apply (bool_decide_unpack _). vm_compute. exact I.
Defined.
