(* ===== verification/Interference.v ===== *)
(** * The interference graph (crates/oxide_regalloc/src/graph.rs)

    Nodes are the virtual registers of a function and the single-point
    registers that replace spilled ones; two nodes are adjacent when they are
    live at the same time.  Parameters, slots shared with nested functions and
    builtin slots get fixed colours first; the colours left over are the
    allocatable ones. *)

From stdpp Require Import base tactics numbers list option gmap strings.
From Stdlib Require Import NArith ZArith Lia Sorting.Sorted.
From S2P Require Import Prelude Opcode IR Contract Cfg Liveness Dce.
#[local] Set Warnings "-clear-no-such-hyp".

Open Scope N_scope.

(** ** Allocation decisions (alloc_map.rs) *)

Inductive Alloc :=
  | Phys (c : N)
  | Spill (slot : N).

Inductive FreshKind := FDef | FUse.

#[export] Instance FreshKind_eq_dec : EqDecision FreshKind.
Proof. solve_decision. Defined.

Record FreshVreg := mkFresh {
  fv_id : N;
  fv_at : nat;
  fv_kind : FreshKind;
  fv_owner : N;
}.

Record SpillPlan := mkSpillPlan {
  sp_vreg : N;
  sp_slot : N;
  sp_defs : list (nat * N);
  sp_uses : list (nat * N);
}.

Record AllocMap := mkAllocMap {
  am_map : gmap N Alloc;
  am_spills : list SpillPlan;
  am_phys_peak : N;
  am_arg_window_base : N;
}.

Definition alloc_map_new : AllocMap := mkAllocMap ∅ [] 0 254.

(** ** The graph *)

Record Node := mkNode {
  pre_color : option N;
  adj : list N;
}.

Record InterferenceGraph := mkGraph {
  g_nodes : gmap N Node;
  g_allocatable : list N;
  g_k : nat;
  g_arg_window_base : N;
}.

(** The keys of a [BTreeMap], in its iteration order. *)
Definition keys {A} (m : gmap N A) : list N := sort_by N.leb (map_to_list m).*1.

(** [.sort_unstable(); .dedup()]. *)
Definition sort_dedup (l : list N) : list N := dedup (sort_by N.leb l).

(** ** The virtual registers of a function *)

Definition operand_vregs (o : Operand) : list N := match o with Reg r => [r] | _ => [] end.

(** The first argument register of a call with contiguous arguments. *)
Definition call_first (inst : Inst) : option N :=
  match i_op inst with
  | CALL | CALL_NATIVE | NEW_EXPRESSION => match i_b inst with Reg fr => Some fr | _ => None end
  | SUPER_CALL => match i_a inst with Reg fr => Some fr | _ => None end
  | _ => None
  end.

Definition real_of_inst (inst : Inst) : list N :=
  filter (λ r, r ≠ 0)
    (operand_vregs (i_rd inst) ++ operand_vregs (i_a inst) ++ operand_vregs (i_b inst)
     ++ match call_first inst with Some fr => n_range fr (u32 (fr + ext_first inst)) | None => [] end
     ++ match i_op inst with
        | CALL_SPREAD | NEW_EXPRESSION_SPREAD | SUPER_CALL_SPREAD | CONCAT_N =>
            (λ w, N.land w 0x7FFFFFFF) <$> drop 1 (i_ext inst)
        | DEFINE_ACCESSOR_DYNAMIC | DEFINE_ACCESSOR_ATTRS_DYNAMIC => [N.land (ext_first inst) 0x7FFFFFFF]
        | _ => []
        end).

Definition collect_real_vregs (f : IRFunction) : list N := sort_dedup (insts f ≫= real_of_inst).

(** ** Fixed colours *)

Definition is_window_call (op : OpCode) : bool :=
  match op with CALL | CALL_NATIVE | NEW_EXPRESSION | SUPER_CALL => true | _ => false end.

Definition max_nargs (f : IRFunction) : N :=
  foldr N.max 0 (ext_first <$> filter (λ i, is_window_call (i_op i) = true) (insts f)).

Definition arg_window_base (f : IRFunction) : N := 254 - max_nargs f.

(** [u32::saturating_add]. *)
Definition sat_add (x y : N) : N := N.min (x + y) (2^32 - 1).

(** [pre_colors.values().any(|c| c == color)]. *)
Definition has_color (pre : gmap N N) (c : N) : bool := bool_decide (c ∈ (map_to_list pre).*2).

Definition contains (l : list N) (x : N) : bool := bool_decide (x ∈ l).

Definition push_new (out : list N) (r : N) : list N := if contains out r then out else out ++ [r].

(** The slots of nested functions: [collect_escaped]. *)
Fixpoint collect_escaped_in (out : list N) (sub : IRFunction) : list N :=
  sort_by N.leb (fold_left collect_escaped_in (nested sub)
                   (fold_left push_new (omap slot_ref (insts sub)) out)).

Definition collect_escaped (ns : list IRFunction) (out : list N) : list N :=
  sort_by N.leb (fold_left collect_escaped_in ns out).

(** The slots of the enclosing function that [f] itself refers to. *)
Definition own_escaped_step (base : N) (st : gmap N N * list N) (r : N) : gmap N N * list N :=
  if r <? base then
    (match st.1 !! r with Some _ => st.1 | None => <[r:=r]> st.1 end, push_new st.2 r)
  else st.

Definition collect_own_escaped (f : IRFunction) (pre : gmap N N) (out : list N) : gmap N N * list N :=
  let base := pl_base (param_layout f) in
  if base =? 0 then (pre, out)
  else
    let '(pre, out) := fold_left (own_escaped_step base) (omap slot_ref (insts f)) (pre, out) in
    (pre, sort_by N.leb out).

(** [.find(p).unwrap_or(1)], the release behaviour of the three searches. *)
Definition find_or_1 (p : N → bool) (l : list N) : N := default 1 (List.find p l).

(** The colour of a slot that nested functions refer to. *)
Definition nested_color (f : IRFunction) (real : list N) (win : N) (st : gmap N N * list N) (vreg : N)
    : gmap N N * list N :=
  let '(pre, esc) := st in
  let base := pl_base (param_layout f) in
  let param_end := sat_add base (pl_count (param_layout f)) in
  if negb (contains real vreg) || ((base <=? vreg) && (vreg <? param_end)) then st
  else
    let physical :=
      if (1 <=? vreg) && (vreg <? win) && negb (has_color pre vreg) then vreg
      else find_or_1 (λ c, negb (has_color pre c)) (n_range 1 win) in
    (<[vreg:=physical]> pre, esc ++ [physical]).

(** The first colour of the parameter segment. *)
Definition param_phys_base (f : IRFunction) (win : N) (pre : gmap N N) (esc : list N) : N :=
  let base := pl_base (param_layout f) in
  let count := pl_count (param_layout f) in
  let identity_end := sat_add base count in
  if (1 <=? base) && (identity_end <=? win)
     && forallb (λ c, negb (contains esc c)) (n_range base identity_end) then base
  else
    find_or_1 (λ b, forallb (λ c, negb (has_color pre c) && negb (contains esc c)) (n_range b (b + count)))
      (n_range 1 (win - count + 1)).

Definition param_colors (f : IRFunction) (win : N) (real : list N) (pre : gmap N N) (esc : list N)
    : list N * gmap N N :=
  let base := pl_base (param_layout f) in
  let count := pl_count (param_layout f) in
  if 0 <? count then
    let phys := param_phys_base f win pre esc in
    fold_left (λ '(real, pre) i, (real ++ [u32 (base + i)], <[u32 (base + i) := u32 (phys + i)]> pre))
      (n_range 0 count) (real, pre)
  else (real, pre).

(** Builtin slots, in the order of their names. *)
Definition builtin_entries (f : IRFunction) (real : list N) : list (string * N) :=
  sort_by (λ a b, String.leb a.1 b.1) (filter (λ e, e.2 ∈ real) (builtin_reg_map f)).

Definition builtin_color (win : N) (st : gmap N N * list N * list N) (e : string * N)
    : gmap N N * list N * list N :=
  let '(pre, esc, used) := st in
  let v := e.2 in
  let r := if (v <=? 253) && (v <? win) then v
           else find_or_1 (λ c, negb (has_color pre c) && negb (contains esc c) && negb (contains used c))
                  (n_range 1 win) in
  (<[v:=r]> pre, if contains esc r then esc else esc ++ [r], used ++ [r]).

(** The fixed colours, the reserved colours, and the registers of the graph. *)
Definition precolor (f : IRFunction) : gmap N N * list N * list N :=
  let real := collect_real_vregs f in
  let win := arg_window_base f in
  let '(pre, esc) := collect_own_escaped f ∅ [] in
  let '(pre, esc) := fold_left (nested_color f real win) (collect_escaped (nested f) []) (pre, esc) in
  let esc := sort_dedup esc in
  let '(real, pre) := param_colors f win real pre esc in
  let '(pre, esc, _) := fold_left (builtin_color win) (builtin_entries f real) (pre, esc, []) in
  (pre, esc, real).

Definition allocatable (f : IRFunction) (pre : gmap N N) (esc : list N) : list N :=
  filter (λ c, ¬ (has_color pre c = true ∨ c ∈ esc ∨ arg_window_base f <= c)) (n_range 1 254).

(** ** Nodes and edges *)

Definition build_nodes (pre : gmap N N) (real spill_set : list N) (fresh : list FreshVreg) : gmap N Node :=
  let ns := fold_left (λ ns v, if contains spill_set v then ns else <[v := mkNode (pre !! v) []]> ns) real ∅ in
  fold_left (λ ns fr, match ns !! fv_id fr with
                      | Some _ => ns
                      | None => <[fv_id fr := mkNode None []]> ns
                      end) fresh ns.

(** The bit map of the nodes. *)
Definition node_bits (ns : gmap N Node) : res (list N) :=
  let max_id := default 0 (last (keys ns)) in
  fold_res bitset_set (keys ns) (replicate (N.to_nat (max_id / 64) + 1) 0).

(** The set bits of a word, lowest first: [trailing_zeros], then
    [bits &= bits - 1]; at most 64 rounds. *)
Fixpoint ctz (p : positive) : N := match p with xO p => ctz p + 1 | _ => 0 end.
Definition trailing_zeros (w : N) : N := match w with N0 => 64 | Npos p => ctz p end.

Fixpoint set_bits (fuel : nat) (bits : N) : list N :=
  match fuel with
  | O => []
  | S fuel => if bits =? 0 then [] else trailing_zeros bits :: set_bits fuel (N.land bits (bits - 1))
  end.

(** The registers of a row; their numbers are [u32]s. *)
Definition row_regs (row : list N) : list N :=
  mjoin (imap (λ w word, (λ b, 64 * N.of_nat w + b) <$> set_bits 64 word) row).

Definition fresh_at (fresh : list FreshVreg) (i : nat) : list N :=
  fv_id <$> filter (λ fr, fv_at fr = i) fresh.

(** [&rows[i * words..(i + 1) * words]]. *)
Definition row_slice (live : LiveInfo) (rows : list N) (i : nat) : res (list N) :=
  if decide (S i * li_words live <= length rows)%nat then Ok (live_row live rows i) else Panic.

(** The nodes of a row. *)
Definition row_nodes (is_node row : list N) : list N :=
  filter (λ v, bitset_get is_node v = true) (row_regs row).

Fixpoint pairs (l : list N) : list (N * N) :=
  match l with
  | [] => []
  | x :: l => ((λ y, (x, y)) <$> l) ++ pairs l
  end.

Definition push_adj (m : gmap N (list N)) (x y : N) : gmap N (list N) :=
  <[x := default [] (m !! x) ++ [y]]> m.

Definition add_pair (m : gmap N (list N)) (xy : N * N) : gmap N (list N) :=
  push_adj (push_adj m xy.1 xy.2) xy.2 xy.1.

(** The result of an instruction with the other nodes live after it. *)
Definition def_pairs (live : LiveInfo) (is_node : list N) (i : nat) (inst : Inst) : res (list (N * N)) :=
  match def_reg inst with
  | Some d =>
      if bitset_get is_node d then
        let* after := row_slice live (inst_live_after live) i in
        Ok ((λ v, (d, v)) <$> filter (λ v, v ≠ d) (row_nodes is_node after))
      else Ok []
  | None => Ok []
  end.

(** The pairs of instruction [i]: those live before it, with its fresh
    registers, and those of its result. *)
Definition inst_pairs (f : IRFunction) (live : LiveInfo) (is_node : list N) (fresh : list FreshVreg)
    (i : nat) : res (list (N * N)) :=
  let* before := row_slice live (inst_live_before live) i in
  let* inst := vec_get (insts f) i in
  let* ds := def_pairs live is_node i inst in
  Ok (pairs (row_nodes is_node before ++ fresh_at fresh i) ++ ds).

Definition build_adj (f : IRFunction) (live : LiveInfo) (is_node : list N) (fresh : list FreshVreg)
    (inst_count : nat) (ids : list N) : res (gmap N (list N)) :=
  fold_res (λ m i, let* ps := inst_pairs f live is_node fresh i in Ok (fold_left add_pair ps m))
    (seq 0 inst_count) (fold_left (λ m v, <[v:=[]]> m) ids ∅).

Definition finish_node (adjs : gmap N (list N)) (v : N) (n : Node) : option Node :=
  Some (match adjs !! v with Some l => mkNode (pre_color n) (sort_dedup l) | None => n end).

(** [graph::build]; [len / words] divides by zero on an empty [LiveInfo]. *)
Definition build_graph (f : IRFunction) (live : LiveInfo) (spill_set : list N) (fresh : list FreshVreg)
    : res InterferenceGraph :=
  if decide (li_words live = 0%nat) then Panic
  else
    let inst_count := (length (inst_live_before live) / li_words live)%nat in
    let '(pre, esc, real) := precolor f in
    let allocs := allocatable f pre esc in
    let ns := build_nodes pre real spill_set fresh in
    let* is_node := node_bits ns in
    let* adjs := build_adj f live is_node fresh inst_count (keys ns) in
    Ok (mkGraph (map_imap (finish_node adjs) ns) allocs (length allocs) (arg_window_base f)).

(** ** Set bits *)

Lemma testbit_succ_double_pos p i : N.testbit (N.pos p~1) (N.succ i) = N.testbit (N.pos p) i.
Proof. apply (N.testbit_odd_succ (N.pos p) i). lia. Qed.

Lemma testbit_double_pos p i : N.testbit (N.pos p~0) (N.succ i) = N.testbit (N.pos p) i.
Proof. apply (N.testbit_even_succ (N.pos p) i). lia. Qed.

(** [bits & (bits - 1)] clears the lowest set bit. *)
Lemma clear_lowest p i :
  N.testbit (N.land (N.pos p) (N.pos p - 1)) i = N.testbit (N.pos p) i && negb (i =? ctz p).
Proof.
  rewrite N.land_spec. revert i. induction p as [p IH|p IH|]; intros i.
  - change (N.pos p~1 - 1) with (N.pos p~0). cbn [ctz].
    destruct (N.zero_or_succ i) as [->|[j ->]]; [done|].
    rewrite testbit_succ_double_pos, testbit_double_pos, andb_diag.
    replace (N.succ j =? 0) with false by (symmetry; apply N.eqb_neq; lia). by rewrite andb_true_r.
  - replace (N.pos p~0 - 1) with (2 * (N.pos p - 1) + 1) by lia. cbn [ctz].
    destruct (N.zero_or_succ i) as [->|[j ->]]; [done|].
    rewrite testbit_double_pos, N.testbit_odd_succ by lia. rewrite IH. f_equal. f_equal.
    destruct (j =? ctz p) eqn:E; symmetry; [apply N.eqb_eq|apply N.eqb_neq]; [apply N.eqb_eq in E|apply N.eqb_neq in E]; lia.
  - destruct i as [|i]; done.
Qed.

Lemma testbit_ctz p : N.testbit (N.pos p) (ctz p) = true.
Proof.
  induction p as [p IH|p IH|]; [done| |done]. cbn [ctz]. rewrite N.add_1_r.
  by rewrite testbit_double_pos.
Qed.

Lemma ctz_lowest p i : i < ctz p → N.testbit (N.pos p) i = false.
Proof.
  revert i. induction p as [p IH|p IH|]; intros i; cbn [ctz]; [lia| |lia].
  destruct (N.zero_or_succ i) as [->|[j ->]]; intros H; [done|].
  rewrite testbit_double_pos. apply IH. lia.
Qed.

Lemma elem_of_set_bits fuel p bits b :
  (∀ i, i < p → N.testbit bits i = false) → bits < 2^(p + N.of_nat fuel) →
  b ∈ set_bits fuel bits ↔ N.testbit bits b = true.
Proof.
  revert p bits. induction fuel as [|fuel IH]; intros p bits Hlow Hlt; simpl.
  - split; [by intros ?%elem_of_nil|]. intros Hb. exfalso.
    assert (b < p) as Hbp; [|rewrite Hlow in Hb; done]. replace (p + N.of_nat 0) with p in Hlt by lia.
    destruct (N.lt_ge_cases b p) as [?|Hge]; [done|].
    assert (N.testbit bits b = false); [|congruence].
    destruct (decide (bits = 0)) as [->|Hz]; [apply N.bits_0|]. apply N.bits_above_log2.
    apply N.lt_le_trans with p; [|done]. apply N.log2_lt_pow2; lia.
  - destruct bits as [|q]; simpl.
    { split; [by intros ?%elem_of_nil|]. done. }
    rewrite elem_of_cons. rewrite (IH (ctz q + 1)).
    + change (Pos.testbit q b) with (N.testbit (N.pos q) b).
      rewrite clear_lowest, andb_true_iff, negb_true_iff, N.eqb_neq.
      destruct (decide (b = ctz q)) as [->|Hne]; [rewrite testbit_ctz; split; auto|tauto].
    + intros i Hi. rewrite clear_lowest. destruct (decide (i = ctz q)) as [->|Hne].
      * by rewrite N.eqb_refl, andb_false_r.
      * rewrite ctz_lowest by lia. done.
    + assert (p <= ctz q) as Hp.
      { destruct (N.lt_ge_cases (ctz q) p) as [H|H]; [|done]. pose proof (testbit_ctz q). rewrite Hlow in * by done. done. }
      apply N.le_lt_trans with (N.pos q).
      { apply N.land_le_l. }
      apply N.lt_le_trans with (2^(p + N.of_nat (S fuel))); [done|].
      apply N.pow_le_mono_r; lia.
Qed.

Lemma elem_of_row_regs row r :
  Forall (λ w, w < 2^64) row → r ∈ row_regs row ↔ bitset_get row r = true.
Proof.
  intros Hrow. unfold row_regs. rewrite bitset_get_testbit, list_elem_of_join. split.
  - intros (l & Hr & (w & Hl)%list_elem_of_lookup). rewrite list_lookup_imap in Hl.
    apply fmap_Some in Hl as (word & Hw & ->).
    apply list_elem_of_fmap in Hr as (b & -> & Hb).
    rewrite Forall_lookup in Hrow. pose proof (Hrow w word Hw : word < 2^64) as Hlt.
    apply (elem_of_set_bits 64 0) in Hb; [|lia|done].
    assert (b < 64) as Hb64.
    { destruct (N.lt_ge_cases b 64) as [?|Hge]; [done|]. rewrite N.bits_above_log2 in Hb; [done|].
      apply N.lt_le_trans with 64; [|done]. destruct (decide (word = 0)) as [->|]; [done|]. apply N.log2_lt_pow2; lia. }
    destruct (word_of_reg w b Hb64) as [-> ->]. by rewrite Hw.
  - destruct (row !! word_of r) as [word|] eqn:Hw; [|done]. intros Hb.
    exists ((λ b, 64 * N.of_nat (word_of r) + b) <$> set_bits 64 word). split.
    + apply list_elem_of_fmap. exists (bit_of r). split; [apply reg_split|].
      rewrite Forall_lookup in Hrow. apply (elem_of_set_bits 64 0); [lia|by apply (Hrow _ _ Hw)|done].
    + apply list_elem_of_lookup. exists (word_of r). rewrite list_lookup_imap, Hw. reflexivity.
Qed.

(** ** Keys and node bits *)

Lemma elem_of_keys {A} (m : gmap N A) v : v ∈ keys m ↔ is_Some (m !! v).
Proof.
  unfold keys. rewrite elem_of_sort_by, list_elem_of_fmap. split.
  - intros ([v' x] & -> & Hx%elem_of_map_to_list). by exists x.
  - intros [x Hx]. exists (v, x). split; [done|]. by apply elem_of_map_to_list.
Qed.

Lemma NoDup_keys {A} (m : gmap N A) : NoDup (keys m).
Proof. unfold keys. rewrite sort_by_Permutation. apply NoDup_fst_map_to_list. Qed.

Lemma sorted_insert_by x l :
  Sorted (λ a b, (a <=? b) = true) l → Sorted (λ a b, (a <=? b) = true) (insert_by N.leb x l).
Proof.
  induction 1 as [|y l Hl IH Hhd]; simpl; [by repeat constructor|].
  destruct (x <=? y) eqn:E; [repeat constructor; done|]. constructor; [done|].
  apply N.leb_gt in E. destruct l as [|z l]; simpl; [constructor; apply N.leb_le; lia|].
  inversion Hhd; subst. destruct (x <=? z); constructor; [apply N.leb_le; lia|done].
Qed.

Lemma sort_by_last (l : list N) v : v ∈ l → v <= default 0 (last (sort_by N.leb l)).
Proof.
  assert (Sorted (λ a b, (a <=? b) = true) (sort_by N.leb l)) as Hs.
  { induction l as [|x l IH]; [constructor|]. by apply sorted_insert_by. }
  rewrite <- (elem_of_sort_by N.leb). revert Hs. generalize (sort_by N.leb l). clear l. intros l Hs. apply Sorted_StronglySorted in Hs.
  2: { intros a b c H1%N.leb_le H2%N.leb_le. apply N.leb_le. lia. }
  revert v. induction Hs as [|x l Hl IH Hx]; intros v; [by intros ?%elem_of_nil|].
  rewrite elem_of_cons. destruct l as [|y l]; [intros [->|?%elem_of_nil]; done|].
  change (last (x :: y :: l)) with (last (y :: l)). intros [->|Hv]; [|by apply IH].
  apply N.le_trans with y; [|by apply IH; left]. rewrite Forall_cons in Hx. by apply N.leb_le, Hx.
Qed.

Lemma last_dedup (l : list N) : last (dedup l) = last l.
Proof.
  induction l as [|x [|y l] IH]; [done..|]. change (last (x :: y :: l)) with (last (y :: l)).
  change (dedup (x :: y :: l)) with (if decide (x = y) then dedup (y :: l) else x :: dedup (y :: l)).
  case_decide; [done|]. rewrite <- IH. destruct (dedup (y :: l)) as [|z l'] eqn:E; [|done].
  assert (y ∈ dedup (y :: l)) as Hy by (apply elem_of_dedup; by left). rewrite E in Hy. by apply elem_of_nil in Hy.
Qed.

Lemma keys_last {A} (m : gmap N A) v : v ∈ keys m → v <= default 0 (last (keys m)).
Proof. unfold keys. rewrite elem_of_sort_by. apply sort_by_last. Qed.

Lemma node_bits_ok (ns : gmap N Node) :
  ∃ bits, node_bits ns = Ok bits ∧ ∀ v, bitset_get bits v = true ↔ is_Some (ns !! v).
Proof.
  unfold node_bits. set (max_id := default 0 (last (keys ns))).
  destruct (repr_set_all (N.to_nat (max_id / 64) + 1) (replicate (N.to_nat (max_id / 64) + 1) 0) (λ _, False)
    (keys ns)) as (bits & -> & [_ H]).
  - apply repr_zero.
  - apply Forall_forall. intros v Hv. apply keys_last in Hv. unfold word_of.
    rewrite N.shiftr_div_pow2. change (2^6) with 64. pose proof (N.Div0.div_le_mono v max_id 64 Hv). lia.
  - exists bits. split; [done|]. intros v. rewrite H, elem_of_keys. tauto.
Qed.

(** ** Adjacency *)

Lemma elem_of_pairs l x y :
  x ≠ y → (x, y) ∈ pairs l ∨ (y, x) ∈ pairs l ↔ x ∈ l ∧ y ∈ l.
Proof.
  intros Hne. induction l as [|z l IH]; simpl; [rewrite !elem_of_nil; tauto|].
  rewrite !elem_of_app, !list_elem_of_fmap, !elem_of_cons. split.
  - intros [[(w & [= -> ->] & Hw)|H]|[(w & [= -> ->] & Hw)|H]]; [tauto| |tauto|];
      destruct (proj1 IH); tauto.
  - intros [[->|Hx] [->|Hy]]; [done|left; left; eauto|right; left; eauto|].
    destruct (proj2 IH (conj Hx Hy)); auto.
Qed.

Lemma push_adj_lookup m x y v z :
  z ∈ default [] (push_adj m x y !! v) ↔ z ∈ default [] (m !! v) ∨ v = x ∧ z = y.
Proof.
  unfold push_adj. destruct (decide (v = x)) as [->|Hne].
  - rewrite lookup_insert_eq. simpl. rewrite elem_of_app, list_elem_of_singleton. naive_solver.
  - rewrite lookup_insert_ne by done. naive_solver.
Qed.

Lemma add_pairs_lookup ps m v z :
  z ∈ default [] (fold_left add_pair ps m !! v) ↔
  z ∈ default [] (m !! v) ∨ (v, z) ∈ ps ∨ (z, v) ∈ ps.
Proof.
  revert m. induction ps as [|[x y] ps IH]; intros m; simpl; [rewrite !elem_of_nil; tauto|].
  rewrite IH. unfold add_pair. rewrite !push_adj_lookup, !elem_of_cons. simpl. naive_solver.
Qed.

(** ** The graph as a whole *)

(** A [LiveInfo] of the right shape. *)
Record live_shape (f : IRFunction) (live : LiveInfo) : Prop := {
  shape_words : li_words live ≠ 0%nat;
  shape_before : length (inst_live_before live) = (length (insts f) * li_words live)%nat;
  shape_after : length (inst_live_after live) = (length (insts f) * li_words live)%nat;
  shape_wf : ∀ i, (i < length (insts f))%nat →
    wf_bits (li_words live) (live_row live (inst_live_before live) i) ∧
    wf_bits (li_words live) (live_row live (inst_live_after live) i);
}.

Lemma live_info_shape f g info : live_info_ok f g info → live_shape f info.
Proof.
  intros H. constructor; [|apply (info_lengths _ _ _ H)..|apply (info_wf _ _ _ H)].
  rewrite (info_words _ _ _ H). pose proof (words_for_pos f). lia.
Qed.

Lemma liveness_shape f g info :
  build_cfg f = Ok g → liveness f g = Ok info → insts f ≠ [] → live_shape f info.
Proof.
  intros [?|[_ Hok]]%build_cfg_inv Hl Hne; [done|].
  destruct (liveness_spec f g Hok Hne) as (info' & E & Hspec). rewrite Hl in E. injection E as <-.
  by eapply live_info_shape.
Qed.

Definition live_before_at (live : LiveInfo) (i : nat) (v : N) : Prop :=
  bitset_get (live_row live (inst_live_before live) i) v = true.
Definition live_after_inst (live : LiveInfo) (i : nat) (v : N) : Prop :=
  bitset_get (live_row live (inst_live_after live) i) v = true.

(** Node [v] occupies a register when instruction [i] starts. *)
Definition present (live : LiveInfo) (fresh : list FreshVreg) (i : nat) (v : N) : Prop :=
  live_before_at live i v ∨ v ∈ fresh_at fresh i.

(** Two nodes need different registers because of instruction [i]. *)
Definition interfere_at (f : IRFunction) (live : LiveInfo) (fresh : list FreshVreg) (i : nat) (x y : N) : Prop :=
  present live fresh i x ∧ present live fresh i y ∨
  ∃ inst, insts f !! i = Some inst ∧
    (def_reg inst = Some x ∧ live_after_inst live i y ∨ def_reg inst = Some y ∧ live_after_inst live i x).

Section graph.
Context (f : IRFunction) (live : LiveInfo) (Hshape : live_shape f live).
Context (spill_set : list N) (fresh : list FreshVreg).
Context (ns : gmap N Node) (bits : list N).
Context (Hbits : ∀ v, bitset_get bits v = true ↔ is_Some (ns !! v)).

Lemma elem_of_row_nodes row v :
  Forall (λ w, w < 2^64) row → v ∈ row_nodes bits row ↔ is_Some (ns !! v) ∧ bitset_get row v = true.
Proof. intros Hrow. unfold row_nodes. by rewrite list_elem_of_filter, Hbits, elem_of_row_regs. Qed.

Lemma row_slice_ok rows i :
  (i < length (insts f))%nat → length rows = (length (insts f) * li_words live)%nat →
  row_slice live rows i = Ok (live_row live rows i).
Proof. intros Hi Hl. unfold row_slice. rewrite decide_True; [done|]. rewrite Hl. nia. Qed.

Lemma inst_pairs_ok i :
  (i < length (insts f))%nat →
  ∃ ps, inst_pairs f live bits fresh i = Ok ps ∧
    ∀ x y, x ≠ y → is_Some (ns !! x) → is_Some (ns !! y) →
      (x, y) ∈ ps ∨ (y, x) ∈ ps ↔ interfere_at f live fresh i x y.
Proof.
  intros Hi. unfold inst_pairs. destruct (shape_wf _ _ Hshape i Hi) as [[_ Hw1] [_ Hw2]].
  rewrite row_slice_ok by (done || apply (shape_before _ _ Hshape)). cbn [res_bind].
  destruct (lookup_lt_is_Some_2 (insts f) i Hi) as [inst Hinst].
  rewrite (proj2 (vec_get_Ok _ _ _) Hinst). cbn [res_bind].
  assert (∃ ds, def_pairs live bits i inst = Ok ds ∧ ∀ x y, x ≠ y → is_Some (ns !! x) → is_Some (ns !! y) →
    (x, y) ∈ ds ↔ def_reg inst = Some x ∧ live_after_inst live i y) as (ds & -> & Hds).
  { unfold def_pairs. destruct (def_reg inst) as [d|]; [|exists []; split; [done|]; intros; rewrite elem_of_nil; naive_solver].
    destruct (bitset_get bits d) eqn:Hd.
    - rewrite row_slice_ok by (done || apply (shape_after _ _ Hshape)). cbn [res_bind]. eexists. split; [done|].
      intros x y Hne Hx Hy. rewrite list_elem_of_fmap. split.
      + intros (v & [= -> ->] & [_ [_ ?]%elem_of_row_nodes]%list_elem_of_filter); done.
      + intros [[= ->] Hl]. exists y. split; [done|]. apply list_elem_of_filter. split; [done|]. by apply elem_of_row_nodes.
    - exists []. split; [done|]. intros x y _ Hx _. rewrite elem_of_nil. split; [done|]. intros [[= ->] _].
      apply Hbits in Hx. congruence. }
  cbn [res_bind]. eexists. split; [done|]. intros x y Hne Hx Hy. rewrite !elem_of_app.
  rewrite (Hds x y Hne Hx Hy), (Hds y x (not_eq_sym Hne) Hy Hx).
  assert (∀ v, is_Some (ns !! v) →
    v ∈ row_nodes bits (live_row live (inst_live_before live) i) ++ fresh_at fresh i ↔ present live fresh i v) as Hp.
  { intros v Hv. rewrite elem_of_app, elem_of_row_nodes by done. unfold present, live_before_at. tauto. }
  unfold interfere_at. rewrite <- (Hp x Hx), <- (Hp y Hy), <- elem_of_pairs by done.
  split; [|intros [?|(inst' & E & ?)]; [tauto|]; rewrite Hinst in E; injection E as <-; tauto].
  intros [[?|?]|[?|?]]; [tauto|right; eauto|tauto|right; eauto].
Qed.

Lemma init_adj_lookup (ids : list N) v :
  (fold_left (λ m v, <[v:=[]]> m) ids ∅ : gmap N (list N)) !! v = if decide (v ∈ ids) then Some [] else None.
Proof.
  assert (∀ m : gmap N (list N), fold_left (λ m v, <[v:=[]]> m) ids m !! v =
    if decide (v ∈ ids) then Some [] else m !! v) as H; [|by rewrite H].
  induction ids as [|x ids IH]; intros m; [done|]. simpl. rewrite IH.
  destruct (decide (v ∈ ids)) as [Hv|Hv]; [by rewrite decide_True by (by right)|].
  destruct (decide (v = x)) as [->|Hne].
  - rewrite lookup_insert_eq, decide_True; [done|by left].
  - rewrite lookup_insert_ne, decide_False; [done|set_solver|done].
Qed.

Lemma add_pairs_is_Some ps (m : gmap N (list N)) v : is_Some (m !! v) → is_Some (fold_left add_pair ps m !! v).
Proof.
  revert m. induction ps as [|[x y] ps IH]; intros m H; [done|]. simpl. apply IH.
  unfold add_pair, push_adj. simpl. rewrite !lookup_insert_is_Some'. auto.
Qed.

Lemma build_adj_ok :
  ∃ m, build_adj f live bits fresh (length (insts f)) (keys ns) = Ok m ∧
    (∀ v, is_Some (ns !! v) → is_Some (m !! v)) ∧
    ∀ x y, x ≠ y → is_Some (ns !! x) → is_Some (ns !! y) →
      y ∈ default [] (m !! x) ↔ ∃ i, (i < length (insts f))%nat ∧ interfere_at f live fresh i x y.
Proof.
  unfold build_adj.
  destruct (fold_res_inv (S := gmap N (list N))
    (λ m i, let* ps := inst_pairs f live bits fresh i in Ok (fold_left add_pair ps m))
    (λ pre m, (∀ v, is_Some (ns !! v) → is_Some (m !! v)) ∧
      ∀ x y, x ≠ y → is_Some (ns !! x) → is_Some (ns !! y) →
        y ∈ default [] (m !! x) ↔ ∃ i, i ∈ pre ∧ interfere_at f live fresh i x y)
    (seq 0 (length (insts f))) (fold_left (λ m v, <[v:=[]]> m) (keys ns) ∅)) as (m & -> & Hs & Hm).
  - split.
    + intros v Hv. rewrite init_adj_lookup, decide_True; [done|]. by apply elem_of_keys.
    + intros x y _ _ _. rewrite init_adj_lookup. split; [|by intros (? & ?%elem_of_nil & _)].
      destruct (decide (x ∈ keys ns)); by intros ?%elem_of_nil.
  - intros pre i post m E [Hs Hm].
    assert (i < length (insts f))%nat as Hi.
    { assert (i ∈ seq 0 (length (insts f))) as ?%elem_of_seq; [rewrite E; set_solver|lia]. }
    destruct (inst_pairs_ok i Hi) as (ps & -> & Hps). cbn [res_bind]. eexists. split; [done|]. split.
    + intros v Hv. by apply add_pairs_is_Some, Hs.
    + intros x y Hne Hx Hy. rewrite add_pairs_lookup, (Hm x y Hne Hx Hy), (Hps x y Hne Hx Hy).
      setoid_rewrite elem_of_app. setoid_rewrite list_elem_of_singleton. naive_solver.
  - exists m. split; [done|]. split; [done|]. intros x y Hne Hx Hy. rewrite (Hm x y Hne Hx Hy).
    setoid_rewrite elem_of_seq. split; intros (i & ? & ?); exists i; (split; [lia|done]).
Qed.
End graph.

Definition graph_regs (f : IRFunction) : list N := (precolor f).2.
Definition fixed_colors (f : IRFunction) : gmap N N := (precolor f).1.1.
Definition fresh_ids (fresh : list FreshVreg) : list N := fv_id <$> fresh.

Lemma build_nodes_lookup pre real spill_set fresh v :
  build_nodes pre real spill_set fresh !! v =
  if decide (v ∈ real ∧ v ∉ spill_set) then Some (mkNode (pre !! v) [])
  else if decide (v ∈ fresh_ids fresh) then Some (mkNode None []) else None.
Proof.
  unfold build_nodes.
  set (ns := fold_left _ real ∅).
  assert (ns !! v = if decide (v ∈ real ∧ v ∉ spill_set) then Some (mkNode (pre !! v) []) else None) as Hns.
  { unfold ns. clear ns.
    assert (∀ m : gmap N Node, fold_left (λ ns v, if contains spill_set v then ns else <[v:=mkNode (pre !! v) []]> ns) real m !! v =
      if decide (v ∈ real ∧ v ∉ spill_set) then Some (mkNode (pre !! v) []) else m !! v) as H; [|by rewrite H].
    induction real as [|x real IH]; intros m; cbn [fold_left].
    { rewrite decide_False; [done|]. intros [?%elem_of_nil _]. done. }
    rewrite IH. unfold contains. destruct (decide (v ∈ real ∧ v ∉ spill_set)) as [[? ?]|Hn].
    { rewrite decide_True; [done|]. split; [by right|done]. }
    case_bool_decide as Hx.
    - rewrite decide_False; [done|]. intros [[->|?]%elem_of_cons ?]; tauto.
    - destruct (decide (v = x)) as [->|Hne].
      + rewrite lookup_insert_eq, decide_True; [done|]. split; [by left|done].
      + rewrite lookup_insert_ne, decide_False; [done| |done]. intros [[->|?]%elem_of_cons ?]; tauto. }
  assert (∀ m : gmap N Node, fold_left (λ ns fr, match ns !! fv_id fr with Some _ => ns | None => <[fv_id fr:=mkNode None []]> ns end)
    fresh m !! v = match m !! v with Some n => Some n | None => if decide (v ∈ fresh_ids fresh) then Some (mkNode None []) else None end) as H.
  { unfold fresh_ids. induction fresh as [|fr fresh IH]; intros m; cbn [fold_left].
    { destruct (m !! v); [done|]. rewrite decide_False; [done|]. by intros ?%elem_of_nil. }
    rewrite IH. destruct (decide (v = fv_id fr)) as [->|Hne].
    - destruct (m !! fv_id fr) as [n|] eqn:E; [by rewrite E|]. rewrite lookup_insert_eq, decide_True; [done|by left].
    - assert (v ∈ fv_id fr :: (fv_id <$> fresh) ↔ v ∈ fv_id <$> fresh) as Hiff by (rewrite elem_of_cons; tauto).
      rewrite (decide_ext _ _ _ _ Hiff). destruct (m !! fv_id fr); [done|]. by rewrite lookup_insert_ne. }
  rewrite H, Hns. by destruct (decide (v ∈ real ∧ v ∉ spill_set)).
Qed.

(** What the passes need to know of a graph. *)
Record graph_spec (f : IRFunction) (live : LiveInfo) (spill_set : list N) (fresh : list FreshVreg)
    (g : InterferenceGraph) : Prop := {
  gs_nodes : ∀ v, is_Some (g_nodes g !! v) ↔
    (v ∈ graph_regs f ∧ (v ∉ spill_set)) ∨ v ∈ fresh_ids fresh;
  gs_pre : ∀ v n, g_nodes g !! v = Some n →
    pre_color n = if decide (v ∈ graph_regs f ∧ v ∉ spill_set) then fixed_colors f !! v else None;
  gs_adj : ∀ x y n, g_nodes g !! x = Some n → is_Some (g_nodes g !! y) → x ≠ y →
    y ∈ adj n ↔ ∃ i, (i < length (insts f))%nat ∧ interfere_at f live fresh i x y;
  gs_alloc : g_allocatable g = allocatable f (fixed_colors f) (precolor f).1.2;
  gs_k : g_k g = length (g_allocatable g);
  gs_window : g_arg_window_base g = arg_window_base f;
}.

Lemma build_graph_ok f live spill_set fresh :
  live_shape f live → ∃ g, build_graph f live spill_set fresh = Ok g ∧ graph_spec f live spill_set fresh g.
Proof.
  intros Hshape. unfold build_graph. rewrite decide_False by apply Hshape.
  assert (length (inst_live_before live) / li_words live = length (insts f))%nat as ->.
  { rewrite (shape_before _ _ Hshape). apply Nat.div_mul, Hshape. }
  assert (precolor f = (fixed_colors f, (precolor f).1.2, graph_regs f)) as ->.
  { unfold fixed_colors, graph_regs. by destruct (precolor f) as [[? ?] ?]. }
  set (ns := build_nodes _ _ _ _). pose proof (build_nodes_lookup (fixed_colors f) (graph_regs f) spill_set fresh) as Hns.
  fold ns in Hns.
  destruct (node_bits_ok ns) as (bits & -> & Hbits). cbn [res_bind].
  destruct (build_adj_ok f live Hshape fresh ns bits Hbits) as (m & -> & Hs & Hm). cbn [res_bind].
  assert (∀ v, map_imap (finish_node m) ns !! v =
    (λ n, mkNode (pre_color n) (sort_dedup (default [] (m !! v)))) <$> ns !! v) as Hl.
  { intros v. rewrite map_lookup_imap. destruct (ns !! v) as [n|] eqn:Hv; [|done]. simpl. unfold finish_node.
    destruct (Hs v) as [l ->]; [by eauto|]. done. }
  eexists. split; [done|]. constructor; cbn [g_nodes g_allocatable g_k g_arg_window_base]; [| | |done..].
  - intros v. rewrite Hl, fmap_is_Some, Hns.
    destruct (decide _) as [?|?]; [split; [auto|by eexists]|].
    destruct (decide _) as [?|?]; [split; [auto|by eexists]|]. split; [by intros [? ?]|tauto].
  - intros v n Hn. rewrite Hl, Hns in Hn. destruct (decide (v ∈ graph_regs f ∧ v ∉ spill_set)); [by simplify_eq/=|].
    destruct (decide _); by simplify_eq/=.
  - intros x y n Hn Hy Hne. rewrite Hl in Hn. rewrite Hl, fmap_is_Some in Hy.
    apply fmap_Some in Hn as (n0 & Hx & ->). cbn [adj]. unfold sort_dedup.
    rewrite elem_of_dedup, elem_of_sort_by. apply Hm; [done|by eauto|done].
Qed.

Lemma elem_of_allocatable f pre esc c :
  c ∈ allocatable f pre esc ↔
  1 <= c <= 253 ∧ c < arg_window_base f ∧ (c ∉ esc) ∧ ∀ v, pre !! v ≠ Some c.
Proof.
  unfold allocatable. rewrite list_elem_of_filter, elem_of_n_range. unfold has_color.
  rewrite bool_decide_eq_true, list_elem_of_fmap. split.
  - intros [Hn Hr]. split_and!; [lia|lia| | |]; try lia.
    + intros ?. apply Hn. auto.
    + intros v Hv. apply Hn. left. exists (v, c). split; [done|]. by apply elem_of_map_to_list.
  - intros (? & ? & ? & Hp). split; [|lia]. intros [([v c'] & -> & Hv%elem_of_map_to_list)|[?|?]]; [by destruct (Hp v)|done|lia].
Qed.

Lemma NoDup_allocatable f pre esc : NoDup (allocatable f pre esc).
Proof. apply NoDup_filter, NoDup_n_range. Qed.

(** ** Where the fixed colours lie *)

(** What the layout of a function leaves room for: arguments, parameters and
    the slots of the enclosing function it refers to fit below the argument
    window. *)
Record room (f : IRFunction) : Prop := {
  room_args : max_nargs f <= 252;
  room_params : 1 + pl_count (param_layout f) <= arg_window_base f;
  room_base : 0 < pl_count (param_layout f) →
    1 <= pl_base (param_layout f) ∧ pl_base (param_layout f) + pl_count (param_layout f) < 2^32;
  room_slots : Forall (λ r, r < pl_base (param_layout f) → 1 <= r < arg_window_base f) (omap slot_ref (insts f));
}.

Definition below_window (f : IRFunction) (pre : gmap N N) : Prop :=
  ∀ v c, pre !! v = Some c → 1 <= c < arg_window_base f.

Lemma below_window_insert f pre v c :
  below_window f pre → 1 <= c < arg_window_base f → below_window f (<[v:=c]> pre).
Proof. intros Hp Hc u d [[_ <-]|[_ ?]]%lookup_insert_Some; eauto. Qed.

Lemma find_or_1_range p win : 1 < win → 1 <= find_or_1 p (n_range 1 win) < win.
Proof.
  intros Hw. unfold find_or_1. destruct (List.find p (n_range 1 win)) as [c|] eqn:E; simpl; [|lia].
  apply List.find_some in E as [Hin%list_elem_of_In%elem_of_n_range _]. lia.
Qed.

Section fixed.
Context (f : IRFunction) (Hr : room f).

Lemma window_gt_1 : 1 < arg_window_base f.
Proof. pose proof (room_args f Hr). unfold arg_window_base. lia. Qed.

Lemma own_escaped_below pre out : below_window f pre → below_window f (collect_own_escaped f pre out).1.
Proof.
  intros Hp. unfold collect_own_escaped. destruct (_ =? 0); [done|].
  pose proof (room_slots f Hr) as Hs. revert pre out Hp Hs. induction (omap slot_ref (insts f)) as [|r l IH]; intros pre out Hp Hs; [done|].
  cbn [fold_left]. apply Forall_cons in Hs as [Hr1 Hs]. unfold own_escaped_step at 2. cbn [fst snd].
  destruct (N.ltb_spec r (pl_base (param_layout f))); [|by apply IH]. apply IH; [|done].
  destruct (pre !! r); [done|]. apply below_window_insert; auto.
Qed.

Lemma nested_below real vs st :
  below_window f st.1 → below_window f (fold_left (nested_color f real (arg_window_base f)) vs st).1.
Proof.
  revert st. induction vs as [|v vs IH]; intros [pre esc] Hp; [done|]. cbn [fold_left]. apply IH. unfold nested_color.
  destruct (_ || _); [done|]. cbn [fst]. apply below_window_insert; [done|].
  destruct ((1 <=? v) && (v <? arg_window_base f) && negb (has_color pre v)) eqn:E.
  - apply andb_true_iff in E as [[?%N.leb_le ?%N.ltb_lt]%andb_true_iff _]. lia.
  - apply find_or_1_range, window_gt_1.
Qed.

Lemma param_base_range pre esc :
  0 < pl_count (param_layout f) →
  1 <= param_phys_base f (arg_window_base f) pre esc ∧
  param_phys_base f (arg_window_base f) pre esc + pl_count (param_layout f) <= arg_window_base f.
Proof.
  intros Hc. pose proof (room_params f Hr). unfold param_phys_base. destruct (_ && _ && _) eqn:E.
  - apply andb_true_iff in E as [[H1%N.leb_le H2%N.leb_le]%andb_true_iff _]. destruct (room_base f Hr Hc). unfold sat_add in H2. lia.
  - unfold find_or_1. destruct (List.find _ _) as [b|] eqn:Ef; simpl; [|lia].
    apply List.find_some in Ef as [Hin%list_elem_of_In%elem_of_n_range _]. lia.
Qed.

Lemma param_fold phys l real pre :
  let out := fold_left (λ '(real, pre) i, (real ++ [u32 (pl_base (param_layout f) + i)],
    <[u32 (pl_base (param_layout f) + i) := u32 (phys + i)]> pre)) l (real, pre) in
  out.1 = real ++ ((λ i, u32 (pl_base (param_layout f) + i)) <$> l) ∧
  (below_window f pre → (∀ i, i ∈ l → 1 <= u32 (phys + i) < arg_window_base f) → below_window f out.2).
Proof.
  revert real pre. induction l as [|i l IH]; intros real pre; cbn [fold_left].
  { split; [by rewrite app_nil_r|done]. }
  destruct (IH (real ++ [u32 (pl_base (param_layout f) + i)]) (<[u32 (pl_base (param_layout f) + i) := u32 (phys + i)]> pre)) as [-> H2].
  split; [by rewrite <- app_assoc|]. intros Hp Hi. apply H2; [|intros j Hj; apply Hi; by right].
  apply below_window_insert; [done|]. apply Hi. by left.
Qed.

Lemma params_below real pre esc :
  let out := param_colors f (arg_window_base f) real pre esc in
  out.1 = real ++ ((λ i, u32 (pl_base (param_layout f) + i)) <$> n_range 0 (pl_count (param_layout f))) ∧
  (below_window f pre → below_window f out.2).
Proof.
  unfold param_colors. destruct (N.ltb_spec 0 (pl_count (param_layout f))) as [Hc|Hc].
  - destruct (param_fold (param_phys_base f (arg_window_base f) pre esc) (n_range 0 (pl_count (param_layout f))) real pre) as [H1 H2].
    split; [done|]. intros Hp. apply H2; [done|]. intros i Hi%elem_of_n_range.
    destruct (param_base_range pre esc Hc). assert (arg_window_base f <= 254) by (unfold arg_window_base; lia).
    unfold u32. rewrite N.mod_small by lia. lia.
  - replace (pl_count (param_layout f)) with 0 by lia. split; [by rewrite app_nil_r|done].
Qed.

Lemma builtins_below es st :
  below_window f st.1.1 → (∀ e, e ∈ es → e.2 ≠ 0) → below_window f (fold_left (builtin_color (arg_window_base f)) es st).1.1.
Proof.
  revert st. induction es as [|e es IH]; intros [[pre esc] used] Hp He; [done|]. cbn [fold_left].
  apply IH; [|intros e' Hin; apply He; by right]. unfold builtin_color. cbn [fst]. apply below_window_insert; [done|].
  assert (e.2 ≠ 0) by (apply He; by left). destruct ((e.2 <=? 253) && (e.2 <? arg_window_base f)) eqn:E.
  - apply andb_true_iff in E as [_ ?%N.ltb_lt]. lia.
  - apply find_or_1_range, window_gt_1.
Qed.

(** The registers of the graph: those of the code and the parameters. *)
Lemma graph_regs_eq :
  graph_regs f = collect_real_vregs f ++ ((λ i, u32 (pl_base (param_layout f) + i)) <$> n_range 0 (pl_count (param_layout f))).
Proof.
  unfold graph_regs, precolor. destruct (collect_own_escaped f ∅ []) as [pre esc]. destruct (fold_left (nested_color _ _ _) _ _) as [pre1 esc1].
  destruct (params_below (collect_real_vregs f) pre1 (sort_dedup esc1)) as [H1 _].
  destruct (param_colors _ _ _ _ _) as [real pre2]. simpl in H1. destruct (fold_left (builtin_color _) _ _) as [[? ?] ?]. done.
Qed.

Lemma elem_of_real v : v ∈ collect_real_vregs f ↔ ∃ inst, inst ∈ insts f ∧ v ∈ real_of_inst inst.
Proof. unfold collect_real_vregs, sort_dedup. rewrite elem_of_dedup, elem_of_sort_by, list_elem_of_bind. naive_solver. Qed.

Lemma graph_reg_nonzero v : v ∈ graph_regs f → v ≠ 0.
Proof.
  rewrite graph_regs_eq, elem_of_app, elem_of_real, list_elem_of_fmap. intros [(inst & _ & Hv)|(i & -> & Hi%elem_of_n_range)].
  - unfold real_of_inst in Hv. by apply list_elem_of_filter in Hv as [? _].
  - destruct (room_base f Hr) as [H1 H2]; [lia|]. unfold u32. rewrite N.mod_small by lia. lia.
Qed.

Lemma fixed_below : below_window f (fixed_colors f).
Proof.
  pose proof graph_reg_nonzero as Hnz. unfold graph_regs in Hnz. unfold fixed_colors. unfold precolor in *.
  destruct (collect_own_escaped f ∅ []) as [pre esc] eqn:E0. destruct (fold_left (nested_color _ _ _) _ _) as [pre1 esc1] eqn:E1.
  destruct (params_below (collect_real_vregs f) pre1 (sort_dedup esc1)) as [_ H2].
  destruct (param_colors _ _ _ _ _) as [real pre2]. cbn [snd] in H2.
  pose proof (builtins_below (builtin_entries f real) (pre2, sort_dedup esc1, [])) as H3. cbn [fst] in H3.
  destruct (fold_left (builtin_color _) _ _) as [[pre3 esc3] used3]. cbn [fst snd] in *. apply H3.
  - apply H2. replace pre1 with ((pre1, esc1).1) by done. rewrite <- E1. apply nested_below. cbn [fst].
    replace pre with ((pre, esc).1) by done. rewrite <- E0. apply own_escaped_below. by intros v c ?%lookup_empty_Some.
  - intros e He. apply Hnz. unfold builtin_entries in He. rewrite elem_of_sort_by in He. by apply list_elem_of_filter in He as [? _].
Qed.
End fixed.
