(* ===== verification/Color.v ===== *)
(** * Colouring the interference graph (crates/oxide_regalloc/src/color.rs)

    Nodes of small degree are stacked and coloured greedily, the others are
    spilled: each is replaced by one register per definition and per use, and
    the graph is built again.  The theorems show that the loop ends, that the
    colours are proper and encodable, and what the spill plans contain. *)

From stdpp Require Import base tactics numbers list option gmap strings.
From Stdlib Require Import NArith ZArith Lia.
From S2P Require Import Prelude Opcode IR Contract Cfg Liveness Interference.
#[local] Set Warnings "-clear-no-such-hyp".

Open Scope N_scope.

(** ** Simplification and selection *)

(** The two work sets: [light] holds the nodes of degree below [k] in
    ascending order, [heavy] the others ordered by degree and number. *)
Definition free_nodes (g : InterferenceGraph) : list (N * nat) :=
  omap (λ v, match g_nodes g !! v with
             | Some n => match pre_color n with None => Some (v, length (adj n)) | Some _ => None end
             | None => None
             end) (keys (g_nodes g)).

Definition light (g : InterferenceGraph) : list N :=
  (filter (λ vd, (vd.2 < g_k g)%nat) (free_nodes g)).*1.

Definition heavy_le (a b : N * N) : bool :=
  (a.1 <? b.1) || ((a.1 =? b.1) && (a.2 <=? b.2)).

Definition heavy (g : InterferenceGraph) : list (N * N) :=
  sort_by heavy_le
    ((λ vd, (u32 (N.of_nat vd.2), vd.1)) <$> filter (λ vd, ¬ (vd.2 < g_k g)%nat) (free_nodes g)).

(** The fixed colours, as the selection starts. *)
Definition start_colors (g : InterferenceGraph) : gmap N N := omap pre_color (g_nodes g).

(** One selection: the lowest allocatable colour no coloured neighbour has. *)
Definition select_step (g : InterferenceGraph) (st : gmap N N * list N) (v : N) : res (gmap N N * list N) :=
  let '(colors, failed) := st in
  match g_nodes g !! v with
  | None => Panic
  | Some n =>
      let used := omap (λ u, colors !! u) (adj n) in
      match List.find (λ c, negb (contains used c)) (g_allocatable g) with
      | Some c => Ok (<[v:=c]> colors, failed)
      | None => Ok (colors, failed ++ [v])
      end
  end.

(** [kemp_and_select]: the loop empties [light] onto the stack, then [heavy]
    into the failures; the stack is popped from its top. *)
Definition kemp_and_select (g : InterferenceGraph) : res (gmap N N * list N) :=
  fold_res (select_step g) (rev (light g)) (start_colors g, (heavy g).*2).

(** ** The colouring loop *)

Definition def_points (f : IRFunction) (v : N) : list nat :=
  (filter (λ ii, def_reg ii.2 = Some v) (enumerate (insts f))).*1.

Definition use_points (f : IRFunction) (v : N) : list nat :=
  (filter (λ ii, v ∈ use_regs ii.2) (enumerate (insts f))).*1.

Record color_state := mkColorState {
  cs_next_fresh_id : N;
  cs_next_slot : N;
  cs_spill_set : list N;
  cs_fresh : list FreshVreg;
  cs_slot_for_vreg : gmap N N;
}.

Definition max_real (f : IRFunction) : N :=
  let pl := param_layout f in
  let max_param := if pl_count pl =? 0 then 0 else u32 (pl_base pl + pl_count pl - 1) in
  N.max (default 0 (last (collect_real_vregs f))) max_param.

(** Fresh registers for the points of [v]. *)
Definition push_fresh (kind : FreshKind) (v : N) (st : N * list FreshVreg) (at_ : nat) : N * list FreshVreg :=
  (u32 (st.1 + 1), st.2 ++ [mkFresh st.1 at_ kind v]).

Definition too_many_registers_msg : string :=
  "RangeError: function body uses too many registers (max 253)".

(** One failed node: an error for a fresh register, a spill for a real one. *)
Definition spill_one (f : IRFunction) (st : color_state) (v : N) : res color_state :=
  if decide (v ∈ fresh_ids (cs_fresh st)) then Err too_many_registers_msg
  else
    let p := fold_left (push_fresh FDef v) (def_points f v) (cs_next_fresh_id st, cs_fresh st) in
    let p := fold_left (push_fresh FUse v) (use_points f v) p in
    Ok (mkColorState p.1 (u16 (cs_next_slot st + 1)) (cs_spill_set st ++ [v]) p.2
          (<[v := cs_next_slot st]> (cs_slot_for_vreg st))).

Fixpoint color_loop (fuel : nat) (f : IRFunction) (live : LiveInfo) (st : color_state)
    : res (gmap N N * N * color_state) :=
  match fuel with
  | O => Panic
  | S fuel =>
      let* g := build_graph f live (cs_spill_set st) (cs_fresh st) in
      let* (colors, failed) := kemp_and_select g in
      match failed with
      | [] => Ok (colors, g_arg_window_base g, st)
      | _ => let* st := fold_res (spill_one f) failed st in color_loop fuel f live st
      end
  end.

(** ** The result *)

Definition fresh_points (kind : FreshKind) (v : N) (fresh : list FreshVreg) : list (nat * N) :=
  (λ fr, (fv_at fr, fv_id fr)) <$> filter (λ fr, fv_owner fr = v ∧ fv_kind fr = kind) fresh.

Definition spill_plan (st : color_state) (v : N) : res SpillPlan :=
  match cs_slot_for_vreg st !! v with
  | Some slot => Ok (mkSpillPlan v slot (fresh_points FDef v (cs_fresh st)) (fresh_points FUse v (cs_fresh st)))
  | None => Panic
  end.

Definition assemble (colors : gmap N N) (win : N) (st : color_state) : res AllocMap :=
  let* plans := map_res (spill_plan st) (cs_spill_set st) in
  let peak := N.min 254 (sat_add (foldr N.max 1 (map_to_list colors).*2) 1) in
  Ok (mkAllocMap (Phys <$> colors) (sort_by (λ a b, sp_vreg a <=? sp_vreg b) plans) peak win).

(** [color::run]; every round spills a register of the graph. *)
Definition color_run (f : IRFunction) (live : LiveInfo) : res AllocMap :=
  let* (colors, win, st) :=
    color_loop (S (length (graph_regs f))) f live (mkColorState (u32 (max_real f + 1)) 0 [] [] ∅) in
  assemble colors win st.

Definition color (f : IRFunction) (live : LiveInfo) : res AllocMap :=
  match insts f with [] => Ok alloc_map_new | _ => color_run f live end.

(** ** Selection colours every light node *)

Definition symmetric_graph (g : InterferenceGraph) : Prop :=
  ∀ x y nx ny, g_nodes g !! x = Some nx → g_nodes g !! y = Some ny → x ≠ y → y ∈ adj nx → x ∈ adj ny.

(** [colors] is proper: neighbours have different colours, unless both
    colours are fixed. *)
Definition proper (g : InterferenceGraph) (colors : gmap N N) : Prop :=
  ∀ x y nx ny c, g_nodes g !! x = Some nx → g_nodes g !! y = Some ny → x ≠ y → y ∈ adj nx →
    pre_color nx = None ∨ pre_color ny = None → colors !! x = Some c → colors !! y ≠ Some c.

Lemma elem_of_free_nodes g v d :
  (v, d) ∈ free_nodes g ↔ ∃ n, g_nodes g !! v = Some n ∧ pre_color n = None ∧ d = length (adj n).
Proof.
  unfold free_nodes. rewrite list_elem_of_omap. split.
  - intros (u & _ & H). destruct (g_nodes g !! u) as [n|] eqn:E; [|done].
    destruct (pre_color n) eqn:Hp; simplify_eq. eauto.
  - intros (n & Hn & Hp & ->). exists v. rewrite elem_of_keys, Hn, Hp. by split; [eexists|].
Qed.

Lemma elem_of_light g v :
  v ∈ light g ↔ ∃ n, g_nodes g !! v = Some n ∧ pre_color n = None ∧ (length (adj n) < g_k g)%nat.
Proof.
  unfold light. rewrite list_elem_of_fmap. split.
  - intros ([u d] & -> & [Hd (n & ? & ? & ->)%elem_of_free_nodes]%list_elem_of_filter). by exists n.
  - intros (n & ? & ? & ?). exists (v, length (adj n)). split; [done|]. apply list_elem_of_filter.
    split; [done|]. apply elem_of_free_nodes. eauto.
Qed.

Lemma elem_of_heavy g v :
  v ∈ (heavy g).*2 ↔ ∃ n, g_nodes g !! v = Some n ∧ pre_color n = None ∧ (g_k g <= length (adj n))%nat.
Proof.
  unfold heavy. rewrite list_elem_of_fmap. setoid_rewrite elem_of_sort_by. setoid_rewrite list_elem_of_fmap. split.
  - intros (x & -> & ([u d] & -> & [Hd (n & ? & ? & ->)%elem_of_free_nodes]%list_elem_of_filter)). simpl in *.
    exists n. split_and!; [done..|lia].
  - intros (n & ? & ? & ?). eexists (_, v). split; [done|]. exists (v, length (adj n)). split; [done|].
    apply list_elem_of_filter. simpl. split; [lia|]. apply elem_of_free_nodes. eauto.
Qed.

Lemma free_nodes_NoDup g : NoDup (free_nodes g).*1.
Proof.
  unfold free_nodes. pose proof (NoDup_keys (g_nodes g)) as Hnd. induction Hnd as [|v l Hv Hl IH]; [constructor|].
  cbn [omap list_omap]. destruct (g_nodes g !! v) as [n|]; [|done]. destruct (pre_color n); [done|]. simpl. constructor; [|done].
  intros ([u d] & -> & (u' & Hu & Hx)%list_elem_of_omap)%list_elem_of_fmap. simpl in Hv.
  destruct (g_nodes g !! u') as [n'|]; [|done]. destruct (pre_color n'); [done|]. by injection Hx as <- _.
Qed.

Lemma filter_fst_NoDup {A} (P : N * A → Prop) `{!∀ x, Decision (P x)} (l : list (N * A)) :
  NoDup l.*1 → NoDup (filter P l).*1.
Proof.
  induction l as [|x l IH]; [done|]. simpl. intros [Hx Hl]%NoDup_cons. rewrite filter_cons.
  destruct (decide (P x)); [|by apply IH]. simpl. constructor; [|by apply IH].
  intros (y & E & [_ Hy]%list_elem_of_filter)%list_elem_of_fmap. apply Hx, list_elem_of_fmap. eauto.
Qed.

Lemma light_NoDup g : NoDup (light g).
Proof. apply filter_fst_NoDup, free_nodes_NoDup. Qed.

Lemma heavy_NoDup g : NoDup (heavy g).*2.
Proof.
  unfold heavy. rewrite sort_by_Permutation, <- list_fmap_compose. simpl.
  apply filter_fst_NoDup, free_nodes_NoDup.
Qed.

(** A node of degree below [k] finds a colour. *)
Lemma find_color (allocs used : list N) :
  NoDup allocs → (length used < length allocs)%nat →
  ∃ c, List.find (λ c, negb (contains used c)) allocs = Some c ∧ c ∈ allocs ∧ c ∉ used.
Proof.
  intros Hnd Hlt. destruct (List.find _ allocs) as [c|] eqn:E.
  - apply List.find_some in E as [Hin Hc]. exists c. split; [done|]. split; [by apply list_elem_of_In|].
    apply negb_true_iff in Hc. unfold contains in Hc. by apply bool_decide_eq_false in Hc.
  - exfalso. assert (allocs ⊆ used) as Hsub.
    { intros c Hc%list_elem_of_In. pose proof (List.find_none _ _ E c Hc) as Hn. simpl in Hn.
      apply negb_false_iff in Hn. unfold contains in Hn. by apply bool_decide_eq_true in Hn. }
    pose proof (NoDup_submseteq _ _ Hnd Hsub) as Hs%submseteq_length. lia.
Qed.

Lemma omap_length_le {A B} (h : A → option B) (l : list A) : (length (omap h l) <= length l)%nat.
Proof.
  induction l as [|x l IH]; [done|]. change (omap h (x :: l)) with (match h x with Some y => y :: omap h l | None => omap h l end).
  destruct (h x); simpl; lia.
Qed.

Section selection.
Context (g : InterferenceGraph) (Hsym : symmetric_graph g).
Context (Hk : g_k g = length (g_allocatable g)) (Hnd : NoDup (g_allocatable g)).

Record selected (done_ : list N) (colors : gmap N N) : Prop := {
  sel_dom : ∀ v, is_Some (colors !! v) ↔ is_Some (start_colors g !! v) ∨ v ∈ done_;
  sel_fixed : ∀ v c, start_colors g !! v = Some c → colors !! v = Some c;
  sel_alloc : ∀ v c, colors !! v = Some c → start_colors g !! v = None → c ∈ g_allocatable g;
  sel_proper : proper g colors;
}.

Lemma start_lookup v c : start_colors g !! v = Some c ↔ ∃ n, g_nodes g !! v = Some n ∧ pre_color n = Some c.
Proof.
  unfold start_colors. rewrite lookup_omap. destruct (g_nodes g !! v) as [n|]; simpl; naive_solver.
Qed.

Lemma select_one done_ colors failed v :
  selected done_ colors → v ∈ light g →
  ∃ c, select_step g (colors, failed) v = Ok (<[v:=c]> colors, failed) ∧ selected (done_ ++ [v]) (<[v:=c]> colors).
Proof.
  intros [Hd Hf Ha Hp] (n & Hn & Hpre & Hdeg)%elem_of_light. unfold select_step. rewrite Hn.
  set (used := omap (λ u, colors !! u) (adj n)).
  destruct (find_color (g_allocatable g) used Hnd) as (c & -> & Hc & Hu).
  { rewrite <- Hk. apply Nat.le_lt_trans with (length (adj n)); [|done]. apply omap_length_le. }
  assert (start_colors g !! v = None) as Hnone.
  { destruct (start_colors g !! v) eqn:E; [|done]. apply start_lookup in E as (n' & E1 & E2). congruence. }
  assert (∀ y, y ∈ adj n → y ≠ v → colors !! y ≠ Some c) as Hfree.
  { intros y Hy _ Hyc. apply Hu. unfold used. apply list_elem_of_omap. eauto. }
  exists c. split; [done|]. constructor.
  - intros u. rewrite lookup_insert_is_Some', Hd, elem_of_app, list_elem_of_singleton. naive_solver.
  - intros u c' Hs. rewrite lookup_insert_ne; [auto|congruence].
  - intros u c' Hc' Hs. destruct (decide (u = v)) as [->|Hne].
    + rewrite lookup_insert_eq in Hc'. by simplify_eq.
    + rewrite lookup_insert_ne in Hc' by done. eauto.
  - intros x y nx ny cx Hx Hy Hne Hadj Hfree' Hcx Hcy. destruct (decide (x = v)) as [->|Hxv].
    + rewrite lookup_insert_eq in Hcx. rewrite lookup_insert_ne in Hcy by done. simplify_eq. by apply (Hfree y).
    + rewrite lookup_insert_ne in Hcx by done. destruct (decide (y = v)) as [->|Hyv].
      * rewrite lookup_insert_eq in Hcy. injection Hcy as ->.
        apply (Hfree x); [by eapply (Hsym x v nx)|done|done].
      * rewrite lookup_insert_ne in Hcy by done. exact (Hp x y nx ny cx Hx Hy Hne Hadj Hfree' Hcx Hcy).
Qed.

Lemma kemp_ok :
  ∃ colors, kemp_and_select g = Ok (colors, (heavy g).*2) ∧ selected (rev (light g)) colors.
Proof.
  unfold kemp_and_select.
  destruct (fold_res_inv (S := gmap N N * list N) (select_step g)
    (λ pre st, st.2 = (heavy g).*2 ∧ selected pre st.1)
    (rev (light g)) (start_colors g, (heavy g).*2)) as ([colors failed] & -> & Hf & Hs).
  - split; [done|]. constructor; [intros v; rewrite elem_of_nil; tauto|done|intros v c H1 H2; simpl in H1; congruence|].
    intros x y nx ny c Hx Hy _ _ Hfree (n1 & E1 & F1)%start_lookup (n2 & E2 & F2)%start_lookup.
    destruct Hfree; congruence.
  - intros pre v post [colors failed] E [Hf Hs]. cbn [fst snd] in *.
    destruct (select_one pre colors failed v Hs) as (c & -> & Hs').
    { apply list_elem_of_In, in_rev, list_elem_of_In. rewrite E. set_solver. }
    by eexists.
  - simpl in *. subst. by exists colors.
Qed.
End selection.

(** ** The loop *)

(** Fresh registers are numbered upwards from the registers of the function. *)
Definition fresh_number (f : IRFunction) (k : nat) : N := u32 (max_real f + 1 + N.of_nat k).
Definition numbered (f : IRFunction) (fresh : list FreshVreg) : Prop :=
  fresh_ids fresh = fresh_number f <$> seq 0 (length fresh).

Lemma push_fresh_numbered f kind v pts fresh p :
  fold_left (push_fresh kind v) pts (fresh_number f (length fresh), fresh) = p → numbered f fresh →
  numbered f p.2 ∧ p.1 = fresh_number f (length p.2) ∧ length p.2 = (length fresh + length pts)%nat.
Proof.
  intros <-. revert fresh. induction pts as [|x pts IH]; intros fresh Hn; cbn [fold_left]; [split_and!; [done..|simpl; lia]|].
  set (fresh' := fresh ++ [mkFresh (fresh_number f (length fresh)) x kind v]).
  assert (length fresh' = S (length fresh)) as El by (unfold fresh'; rewrite length_app; simpl; lia).
  assert (push_fresh kind v (fresh_number f (length fresh), fresh) x = (fresh_number f (length fresh'), fresh')) as ->.
  { unfold push_fresh. fold fresh'. cbn [fst snd]. f_equal. rewrite El. unfold fresh_number, u32.
    rewrite N.Div0.add_mod_idemp_l. f_equal. lia. }
  destruct (IH fresh') as (H1 & H2 & H3).
  { unfold numbered in *. rewrite El, seq_S, fmap_app, <- Hn. unfold fresh', fresh_ids. by rewrite fmap_app. }
  split_and!; [done..|]. rewrite H3, El. simpl. lia.
Qed.

Lemma def_points_length f v : (length (def_points f v) <= length (insts f))%nat.
Proof. unfold def_points. rewrite length_fmap. etransitivity; [apply length_filter|]. by rewrite length_enumerate. Qed.

Lemma use_points_length f v : (length (use_points f v) <= length (insts f))%nat.
Proof. unfold use_points. rewrite length_fmap. etransitivity; [apply length_filter|]. by rewrite length_enumerate. Qed.

(** What the state of the loop says about the spilled registers. *)
Record spill_inv (f : IRFunction) (st : color_state) : Prop := {
  si_regs : ∀ v, v ∈ cs_spill_set st → v ∈ graph_regs f ∧ fixed_colors f !! v = None;
  si_nodup : NoDup (cs_spill_set st);
  si_slots : ∀ v, v ∈ cs_spill_set st → is_Some (cs_slot_for_vreg st !! v);
  si_defs : ∀ v, (fresh_points FDef v (cs_fresh st)).*1 = if decide (v ∈ cs_spill_set st) then def_points f v else [];
  si_uses : ∀ v, (fresh_points FUse v (cs_fresh st)).*1 = if decide (v ∈ cs_spill_set st) then use_points f v else [];
  si_ids : numbered f (cs_fresh st) ∧ cs_next_fresh_id st = fresh_number f (length (cs_fresh st));
  si_size : (length (cs_fresh st) <= 2 * length (insts f) * length (cs_spill_set st))%nat;
}.

Lemma fresh_points_app kind v fr1 fr2 :
  fresh_points kind v (fr1 ++ fr2) = fresh_points kind v fr1 ++ fresh_points kind v fr2.
Proof. unfold fresh_points. by rewrite filter_app, fmap_app. Qed.

Lemma push_fresh_ok kind v pts id fresh :
  ∃ id' new, fold_left (push_fresh kind v) pts (id, fresh) = (id', fresh ++ new) ∧
    (fresh_points kind v new).*1 = pts ∧
    (∀ kind' v', kind' ≠ kind ∨ v' ≠ v → fresh_points kind' v' new = []).
Proof.
  revert id fresh. induction pts as [|p pts IH]; intros id fresh; cbn [fold_left].
  { exists id, []. rewrite app_nil_r. done. }
  change (push_fresh kind v (id, fresh) p) with (u32 (id + 1), fresh ++ [mkFresh id p kind v]).
  destruct (IH (u32 (id + 1)) (fresh ++ [mkFresh id p kind v])) as (id' & new & -> & Hp & Ho).
  exists id', (mkFresh id p kind v :: new). rewrite <- app_assoc. split; [done|]. split.
  - unfold fresh_points in *. rewrite filter_cons, decide_True by done. by rewrite !fmap_cons, Hp.
  - intros kind' v' Hne. unfold fresh_points in *. rewrite filter_cons, decide_False; [by apply Ho|]. simpl.
    intros [-> ->]. by destruct Hne.
Qed.

Lemma spill_one_ok f st v :
  spill_inv f st → v ∈ graph_regs f → fixed_colors f !! v = None → v ∉ cs_spill_set st →
  (∃ st', spill_one f st v = Ok st' ∧ spill_inv f st' ∧ cs_spill_set st' = cs_spill_set st ++ [v]) ∨
  spill_one f st v = Err too_many_registers_msg.
Proof.
  intros [H1 H2 H3 H4 H5 [H6 H7] H8] Hreg Hfix Hv. unfold spill_one. case_decide as Hf; [by right|]. left. rewrite H7.
  destruct (push_fresh_ok FDef v (def_points f v) (fresh_number f (length (cs_fresh st))) (cs_fresh st)) as (id1 & n1 & E1 & D1 & O1).
  rewrite E1. destruct (push_fresh_numbered f _ _ _ _ _ E1 H6) as (N1 & I1 & L1). cbn [fst snd] in N1, I1, L1. subst id1.
  destruct (push_fresh_ok FUse v (use_points f v) (fresh_number f (length (cs_fresh st ++ n1))) (cs_fresh st ++ n1)) as (id2 & n2 & E2 & D2 & O2).
  rewrite E2. destruct (push_fresh_numbered f _ _ _ _ _ E2 N1) as (N2 & I2 & L2). cbn [fst snd] in N2, I2, L2.
  eexists. split; [done|]. split; [|done].
  constructor; cbn [cs_spill_set cs_fresh cs_slot_for_vreg].
  - intros u [?| ->%list_elem_of_singleton]%elem_of_app; auto.
  - apply NoDup_app. split_and!; [done| |by apply NoDup_singleton]. intros u Hu ->%list_elem_of_singleton. done.
  - intros u [Hu| ->%list_elem_of_singleton]%elem_of_app; apply lookup_insert_is_Some'; auto.
  - intros u. cbn [snd]. rewrite !fresh_points_app, !fmap_app, H4. destruct (decide (u = v)) as [->|Hne].
    + rewrite decide_False by done. rewrite decide_True by set_solver. rewrite D1, (O2 FDef v) by auto. by rewrite app_nil_r.
    + rewrite (O1 FDef u), (O2 FDef u) by auto. rewrite !app_nil_r. apply decide_ext.
      rewrite elem_of_app, list_elem_of_singleton. naive_solver.
  - intros u. cbn [snd]. rewrite !fresh_points_app, !fmap_app, H5. destruct (decide (u = v)) as [->|Hne].
    + rewrite decide_False by done. rewrite decide_True by set_solver. by rewrite D2, (O1 FUse v) by auto.
    + rewrite (O1 FUse u), (O2 FUse u) by auto. rewrite !app_nil_r. apply decide_ext.
      rewrite elem_of_app, list_elem_of_singleton. naive_solver.
  - done.
  - cbn [snd]. rewrite L2, L1, length_app. simpl. pose proof (def_points_length f v). pose proof (use_points_length f v). lia.
Qed.

Lemma spill_all_ok f st vs :
  spill_inv f st → NoDup vs →
  (∀ v, v ∈ vs → v ∈ fresh_ids (cs_fresh st) ∨ (v ∈ graph_regs f ∧ fixed_colors f !! v = None ∧ v ∉ cs_spill_set st)) →
  (∃ st', fold_res (spill_one f) vs st = Ok st' ∧ spill_inv f st' ∧ cs_spill_set st' = cs_spill_set st ++ vs ∧
     ∀ v, v ∈ vs → v ∈ graph_regs f ∧ v ∉ cs_spill_set st) ∨
  fold_res (spill_one f) vs st = Err too_many_registers_msg.
Proof.
  intros Hinv Hnd. revert st Hinv. induction Hnd as [|v vs Hv Hnd IH]; intros st Hinv Hvs; cbn [fold_res].
  { left. exists st. rewrite app_nil_r. split_and!; [done..|]. by intros ? ?%elem_of_nil. }
  destruct (decide (v ∈ fresh_ids (cs_fresh st))) as [Hf|Hf].
  { right. unfold spill_one. by rewrite decide_True. }
  destruct (Hvs v) as [?|(Hr & Hx & Hs)]; [by left|done|].
  destruct (spill_one_ok f st v Hinv Hr Hx Hs) as [(st1 & E & Hinv1 & E1)| ->]; [|by right].
  rewrite E. cbn [res_bind].
  assert (fresh_ids (cs_fresh st) ⊆ fresh_ids (cs_fresh st1)) as Hmono.
  { unfold spill_one in E. rewrite decide_False in E by done.
    destruct (push_fresh_ok FDef v (def_points f v) (cs_next_fresh_id st) (cs_fresh st)) as (i1 & n1 & E2 & _). rewrite E2 in E.
    destruct (push_fresh_ok FUse v (use_points f v) i1 (cs_fresh st ++ n1)) as (i2 & n2 & E3 & _). rewrite E3 in E.
    injection E as <-. unfold fresh_ids. simpl. rewrite !fmap_app. set_solver. }
  destruct (IH st1 Hinv1) as [(st2 & -> & Hinv2 & E2 & Hall)| ->]; [| |by right].
  { intros u Hu. destruct (Hvs u) as [?|(? & ? & ?)]; [by right|left; by apply Hmono|]. right. split_and!; [done..|].
    rewrite E1. intros [?| ->%list_elem_of_singleton]%elem_of_app; done. }
  left. exists st2. split_and!; [done..| |].
  - by rewrite E2, E1, <- app_assoc.
  - intros u [->|Hu]%elem_of_cons; [done|]. destruct (Hall u Hu) as [? Hn]. split; [done|]. rewrite E1 in Hn. set_solver.
Qed.

(** The graph of the last round, all of whose nodes were coloured. *)
Record final_graph (f : IRFunction) (live : LiveInfo) (st : color_state) (g : InterferenceGraph)
    (colors : gmap N N) : Prop := {
  fg_inv : spill_inv f st;
  fg_spec : graph_spec f live (cs_spill_set st) (cs_fresh st) g;
  fg_sym : symmetric_graph g;
  fg_heavy : (heavy g).*2 = [];
  fg_selected : selected g (rev (light g)) colors;
}.

Lemma graph_spec_symmetric f live ss fresh g : graph_spec f live ss fresh g → symmetric_graph g.
Proof.
  intros Hs x y nx ny Hx Hy Hne Hadj. apply (gs_adj _ _ _ _ _ Hs y x ny); [done|eauto|done|].
  apply (gs_adj _ _ _ _ _ Hs x y nx) in Hadj as (i & Hi & Hint); [|done|eauto|done].
  exists i. split; [done|]. destruct Hint as [[? ?]|(inst & ? & ?)]; [left; done|]. right. exists inst. tauto.
Qed.

Definition unspilled (f : IRFunction) (ss : list N) : nat := length (filter (λ v, v ∉ ss) (graph_regs f)).

Lemma filter_filter_length (l : list N) (P Q : N → Prop) `{!∀ x, Decision (P x)} `{!∀ x, Decision (Q x)} v :
  (∀ x, Q x → P x) → v ∈ l → P v → ¬ Q v → (length (filter Q l) < length (filter P l))%nat.
Proof.
  intros Hsub Hv HP HQ. induction l as [|x l IH]; [by apply elem_of_nil in Hv|].
  assert (length (filter Q l) <= length (filter P l))%nat as Hle.
  { clear -Hsub. induction l as [|y l IH]; [done|]. rewrite !filter_cons. destruct (decide (Q y)), (decide (P y)); simpl; try lia.
    by destruct n; apply Hsub. }
  rewrite !filter_cons. apply elem_of_cons in Hv as [<-|Hv].
  - destruct (decide (Q v)), (decide (P v)); simpl; [done..|lia|done].
  - specialize (IH Hv). destruct (decide (Q x)), (decide (P x)); simpl; try lia. by destruct n; apply Hsub.
Qed.

Lemma color_loop_ok fuel f live st :
  live_shape f live → spill_inv f st → (unspilled f (cs_spill_set st) < fuel)%nat →
  (∃ colors st' g, color_loop fuel f live st = Ok (colors, arg_window_base f, st') ∧ final_graph f live st' g colors) ∨
  color_loop fuel f live st = Err too_many_registers_msg.
Proof.
  intros Hshape. revert st. induction fuel as [|fuel IH]; intros st Hinv Hlt; [lia|]. cbn [color_loop].
  destruct (build_graph_ok f live (cs_spill_set st) (cs_fresh st) Hshape) as (g & -> & Hspec). cbn [res_bind].
  pose proof (graph_spec_symmetric _ _ _ _ _ Hspec) as Hsym.
  destruct (kemp_ok g Hsym) as (colors & -> & Hsel); [apply (gs_k _ _ _ _ _ Hspec)| |].
  { rewrite (gs_alloc _ _ _ _ _ Hspec). apply NoDup_allocatable. }
  cbn [res_bind]. destruct ((heavy g).*2) as [|v vs] eqn:Hh.
  { left. exists colors, st, g. rewrite (gs_window _ _ _ _ _ Hspec). split; [done|]. by constructor. }
  rewrite <- Hh.
  destruct (spill_all_ok f st (heavy g).*2 Hinv (heavy_NoDup g)) as [(st' & -> & Hinv' & E & Hall)| ->]; [| |by right].
  - intros u (n & Hn & Hp & _)%elem_of_heavy. pose proof (gs_pre _ _ _ _ _ Hspec u n Hn) as Hpre. rewrite Hp in Hpre.
    destruct (proj1 (gs_nodes _ _ _ _ _ Hspec u)) as [[? ?]|?]; [by eauto| |by left].
    right. rewrite decide_True in Hpre by done. done.
  - cbn [res_bind]. apply IH; [done|]. apply Nat.lt_le_trans with (unspilled f (cs_spill_set st)); [|lia].
    unfold unspilled. rewrite E. destruct (Hall v) as [Hr Hn]; [rewrite Hh; by left|].
    apply (filter_filter_length _ _ _ v); [set_solver|done|done|]. rewrite Hh. set_solver.
Qed.

Lemma spill_inv_start f : spill_inv f (mkColorState (u32 (max_real f + 1)) 0 [] [] ∅).
Proof.
  constructor; simpl; [by intros ? ?%elem_of_nil|constructor|by intros ? ?%elem_of_nil|done..| |lia].
  unfold numbered, fresh_number. simpl. split; [done|]. by rewrite N.add_0_r.
Qed.

(** ** The result *)

Lemma assemble_ok f st colors win :
  spill_inv f st →
  ∃ plans, map_res (spill_plan st) (cs_spill_set st) = Ok plans ∧
    (∀ p, p ∈ plans ↔ sp_vreg p ∈ cs_spill_set st ∧ cs_slot_for_vreg st !! sp_vreg p = Some (sp_slot p) ∧
      sp_defs p = fresh_points FDef (sp_vreg p) (cs_fresh st) ∧ sp_uses p = fresh_points FUse (sp_vreg p) (cs_fresh st)) ∧
    assemble colors win st =
      Ok (mkAllocMap (Phys <$> colors) (sort_by (λ a b, sp_vreg a <=? sp_vreg b) plans)
            (N.min 254 (sat_add (foldr N.max 1 (map_to_list colors).*2) 1)) win).
Proof.
  intros Hinv.
  destruct (map_res_ok (spill_plan st) (λ v p, spill_plan st v = Ok p) (cs_spill_set st)) as (plans & E & Hp).
  { intros v Hv. destruct (si_slots _ _ Hinv v Hv) as [s Hs]. unfold spill_plan. rewrite Hs. eauto. }
  exists plans. split; [done|]. split; [|unfold assemble; by rewrite E].
  intros p. split.
  - intros [k Hk]%list_elem_of_lookup. destruct (Forall2_lookup_r _ _ _ _ _ Hp Hk) as (v & Hv & Hpl).
    apply list_elem_of_lookup_2 in Hv. unfold spill_plan in Hpl.
    destruct (cs_slot_for_vreg st !! v) eqn:Es; [|done]. injection Hpl as <-. done.
  - intros (Hv & Hs & Hd & Hu). apply list_elem_of_lookup in Hv as [k Hk].
    destruct (Forall2_lookup_l _ _ _ _ _ Hp Hk) as (p' & Hk' & Hpl). apply list_elem_of_lookup. exists k. rewrite Hk'.
    unfold spill_plan in Hpl. rewrite Hs in Hpl. injection Hpl as <-. f_equal. rewrite <- Hd, <- Hu. by destruct p.
Qed.

(** ** Properties *)

(** Node [v] occupies a register when instruction [i] starts: it is live
    there, or it stands for a register spilled or reloaded there. *)
Definition occupies (live : LiveInfo) (m : AllocMap) (i : nat) (v : N) : Prop :=
  live_before_at live i v ∨ ∃ p, p ∈ am_spills m ∧ ((i, v) ∈ sp_defs p ∨ (i, v) ∈ sp_uses p).

(** Instruction [i] needs [x] and [y] in different registers: both occupy one
    when it starts, or one is its result and the other is live after it. *)
Definition conflict (f : IRFunction) (live : LiveInfo) (m : AllocMap) (i : nat) (x y : N) : Prop :=
  occupies live m i x ∧ occupies live m i y ∨
  ∃ inst, insts f !! i = Some inst ∧
    (def_reg inst = Some x ∧ live_after_inst live i y ∨ def_reg inst = Some y ∧ live_after_inst live i x).

(** A successful [color]: the last graph and the result read off it. *)
Record color_result (f : IRFunction) (live : LiveInfo) (m : AllocMap) (st : color_state) (g : InterferenceGraph)
    (colors : gmap N N) : Prop := {
  cr_final : final_graph f live st g colors;
  cr_map : am_map m = Phys <$> colors;
  cr_plans : ∀ p, p ∈ am_spills m ↔ sp_vreg p ∈ cs_spill_set st ∧
    cs_slot_for_vreg st !! sp_vreg p = Some (sp_slot p) ∧
    sp_defs p = fresh_points FDef (sp_vreg p) (cs_fresh st) ∧ sp_uses p = fresh_points FUse (sp_vreg p) (cs_fresh st);
  cr_peak : am_phys_peak m = N.min 254 (sat_add (foldr N.max 1 (map_to_list colors).*2) 1);
  cr_window : am_arg_window_base m = arg_window_base f;
}.

Lemma color_run_cases f live :
  live_shape f live →
  (∃ m st g colors, color_run f live = Ok m ∧ color_result f live m st g colors) ∨
  color_run f live = Err too_many_registers_msg.
Proof.
  intros Hshape. unfold color_run.
  destruct (color_loop_ok (S (length (graph_regs f))) f live (mkColorState (u32 (max_real f + 1)) 0 [] [] ∅) Hshape)
    as [(colors & st & g & -> & Hfin)| ->]; [apply spill_inv_start| | |by right].
  { unfold unspilled. pose proof (length_filter (λ v, v ∉ []) (graph_regs f)). simpl in *. lia. }
  left. cbn [res_bind]. destruct (assemble_ok f st colors (arg_window_base f) (fg_inv _ _ _ _ _ Hfin)) as (plans & _ & Hp & ->).
  eexists _, st, g, colors. split; [done|]. constructor; simpl; [done|done| |done|done].
  intros p. by rewrite elem_of_sort_by, Hp.
Qed.

Lemma color_inv f live m :
  live_shape f live → color f live = Ok m → insts f ≠ [] → ∃ st g colors, color_result f live m st g colors.
Proof.
  intros Hshape Hc Hne. unfold color in Hc. destruct (insts f); [done|].
  destruct (color_run_cases f live Hshape) as [(m' & st & g & colors & E & ?)|E]; [|congruence].
  rewrite Hc in E. injection E as <-. eauto.
Qed.

Lemma elem_of_fresh_points kind v fresh i id :
  (i, id) ∈ fresh_points kind v fresh ↔ ∃ fr, fr ∈ fresh ∧ fv_at fr = i ∧ fv_id fr = id ∧ fv_owner fr = v ∧ fv_kind fr = kind.
Proof.
  unfold fresh_points. rewrite list_elem_of_fmap. setoid_rewrite list_elem_of_filter. naive_solver.
Qed.

Section result.
Context (f : IRFunction) (live : LiveInfo) (m : AllocMap) (st : color_state) (g : InterferenceGraph).
Context (colors : gmap N N) (Hres : color_result f live m st g colors).

Lemma occupies_present i v : occupies live m i v ↔ present live (cs_fresh st) i v.
Proof.
  unfold occupies, present. apply or_iff_compat_l. unfold fresh_at. rewrite list_elem_of_fmap.
  setoid_rewrite list_elem_of_filter. split.
  - intros (p & (Hv & _ & -> & ->)%(cr_plans _ _ _ _ _ _ Hres) & H).
    rewrite !elem_of_fresh_points in H. destruct H as [(fr & ? & ? & <- & _)|(fr & ? & ? & <- & _)]; eauto.
  - intros (fr & -> & Hat & Hfr). pose proof (cr_final _ _ _ _ _ _ Hres) as Hfin. pose proof (fg_inv _ _ _ _ _ Hfin) as Hinv.
    assert (fv_owner fr ∈ cs_spill_set st) as Hown.
    { destruct (decide (fv_owner fr ∈ cs_spill_set st)) as [|Hn]; [done|]. exfalso.
      pose proof (si_defs _ _ Hinv (fv_owner fr)) as Hd. pose proof (si_uses _ _ Hinv (fv_owner fr)) as Hu.
      rewrite decide_False in Hd, Hu by done. apply fmap_nil_inv in Hd, Hu.
      assert ((fv_at fr, fv_id fr) ∈ fresh_points (fv_kind fr) (fv_owner fr) (cs_fresh st)) as Hin
        by (apply elem_of_fresh_points; eauto 10).
      destruct (fv_kind fr); rewrite ?Hd, ?Hu in Hin; by apply elem_of_nil in Hin. }
    destruct (si_slots _ _ Hinv _ Hown) as [s Hs].
    exists (mkSpillPlan (fv_owner fr) s (fresh_points FDef (fv_owner fr) (cs_fresh st)) (fresh_points FUse (fv_owner fr) (cs_fresh st))).
    split; [by apply (cr_plans _ _ _ _ _ _ Hres)|]. simpl. rewrite !elem_of_fresh_points.
    destruct (fv_kind fr) eqn:Hk; [left|right]; eauto 10.
Qed.

Lemma colored_node v c : colors !! v = Some c → is_Some (g_nodes g !! v).
Proof.
  intros Hc. pose proof (fg_selected _ _ _ _ _ (cr_final _ _ _ _ _ _ Hres)) as Hsel.
  destruct (proj1 (sel_dom _ _ _ Hsel v)) as [[c' (n & ? & _)%start_lookup]|Hv]; [by eauto..|].
  apply list_elem_of_In, in_rev, list_elem_of_In, elem_of_light in Hv as (n & ? & _). eauto.
Qed.

Lemma node_colored v : is_Some (g_nodes g !! v) → is_Some (colors !! v).
Proof.
  intros [n Hn]. pose proof (cr_final _ _ _ _ _ _ Hres) as Hfin. apply (sel_dom _ _ _ (fg_selected _ _ _ _ _ Hfin)).
  destruct (pre_color n) as [c|] eqn:Hp; [left; exists c; apply start_lookup; eauto|]. right.
  apply list_elem_of_In, in_rev. rewrite rev_involutive. apply list_elem_of_In, elem_of_light. exists n. split_and!; [done..|].
  destruct (decide (length (adj n) < g_k g)%nat) as [|Hge]; [done|].
  assert (v ∈ (heavy g).*2) as Hh by (apply elem_of_heavy; exists n; split_and!; [done..|lia]).
  rewrite (fg_heavy _ _ _ _ _ Hfin) in Hh. by apply elem_of_nil in Hh.
Qed.

Lemma map_lookup v a : am_map m !! v = Some a ↔ ∃ c, a = Phys c ∧ colors !! v = Some c.
Proof. rewrite (cr_map _ _ _ _ _ _ Hres), lookup_fmap, fmap_Some. naive_solver. Qed.

Lemma free_node v n : g_nodes g !! v = Some n → fixed_colors f !! v = None → pre_color n = None.
Proof.
  intros Hn Hf. pose proof (fg_spec _ _ _ _ _ (cr_final _ _ _ _ _ _ Hres)) as Hs.
  rewrite (gs_pre _ _ _ _ _ Hs v n Hn). by destruct (decide _).
Qed.
End result.

(** The colouring loop ends, within one round per register of the function,
    and never indexes out of range: on liveness of the right shape it returns
    a map, or the error that the function uses too many registers. *)
Theorem color_total f live :
  live_shape f live → is_ok (color f live) ∨ color f live = Err too_many_registers_msg.
Proof.
  intros Hshape. unfold color. destruct (insts f); [left; by eexists|].
  destruct (color_run_cases f live Hshape) as [(m & _ & _ & _ & -> & _)| ->]; [left; by eexists|by right].
Qed.

(** C7: The map is a proper colouring: two registers that some instruction
    needs in different places get different colours, unless both colours were
    fixed before the colouring started. *)
Theorem color_proper f live m i x y cx cy :
  live_shape f live → color f live = Ok m → (i < length (insts f))%nat → conflict f live m i x y → x ≠ y →
  fixed_colors f !! x = None ∨ fixed_colors f !! y = None →
  am_map m !! x = Some (Phys cx) → am_map m !! y = Some (Phys cy) → cx ≠ cy.
Proof.
  intros Hshape Hc Hi Hconf Hne Hfree Hx Hy.
  assert (insts f ≠ []) as Hnil by (intros E; rewrite E in Hi; simpl in Hi; lia).
  destruct (color_inv f live m Hshape Hc Hnil) as (st & g & colors & Hres).
  apply (map_lookup _ _ _ _ _ _ Hres) in Hx as (? & [= <-] & Hx).
  apply (map_lookup _ _ _ _ _ _ Hres) in Hy as (? & [= <-] & Hy). intros ->.
  destruct (colored_node _ _ _ _ _ _ Hres x _ Hx) as [nx Hnx].
  destruct (colored_node _ _ _ _ _ _ Hres y _ Hy) as [ny Hny].
  pose proof (cr_final _ _ _ _ _ _ Hres) as Hfin.
  apply (sel_proper _ _ _ (fg_selected _ _ _ _ _ Hfin) x y nx ny cy Hnx Hny Hne); [| |done|done].
  - apply (gs_adj _ _ _ _ _ (fg_spec _ _ _ _ _ Hfin) x y nx); [done|by eauto|done|]. exists i. split; [done|].
    unfold conflict in Hconf. by rewrite !(occupies_present _ _ _ _ _ _ Hres) in Hconf.
  - destruct Hfree; [left|right]; by eapply (free_node _ _ _ _ _ _ Hres).
Qed.

(** Every register of the function gets a colour, or a spill plan whose
    entries are exactly its definitions and its uses, each with a coloured
    register of its own; the map itself never holds a [Spill] entry. *)
Theorem color_covers f live m v :
  live_shape f live → color f live = Ok m → insts f ≠ [] → v ∈ graph_regs f →
  (∃ c, am_map m !! v = Some (Phys c)) ∨
  ∃ p, p ∈ am_spills m ∧ sp_vreg p = v ∧ (sp_defs p).*1 = def_points f v ∧ (sp_uses p).*1 = use_points f v ∧
    ∀ i id, (i, id) ∈ sp_defs p ++ sp_uses p → ∃ c, am_map m !! id = Some (Phys c).
Proof.
  intros Hshape Hc Hnil Hv. destruct (color_inv f live m Hshape Hc Hnil) as (st & g & colors & Hres).
  pose proof (cr_final _ _ _ _ _ _ Hres) as Hfin. pose proof (fg_inv _ _ _ _ _ Hfin) as Hinv.
  pose proof (fg_spec _ _ _ _ _ Hfin) as Hspec.
  assert (∀ u, is_Some (g_nodes g !! u) → ∃ c, am_map m !! u = Some (Phys c)) as Hcol.
  { intros u Hu. destruct (node_colored _ _ _ _ _ _ Hres u Hu) as [c Hcu]. exists c. apply (map_lookup _ _ _ _ _ _ Hres). eauto. }
  destruct (decide (v ∈ cs_spill_set st)) as [Hs|Hs]; [right|left; apply Hcol, (gs_nodes _ _ _ _ _ Hspec); auto].
  destruct (si_slots _ _ Hinv v Hs) as [slot Hslot].
  exists (mkSpillPlan v slot (fresh_points FDef v (cs_fresh st)) (fresh_points FUse v (cs_fresh st))). simpl.
  split_and!; [by apply (cr_plans _ _ _ _ _ _ Hres)|done| | |].
  - by rewrite (si_defs _ _ Hinv), decide_True.
  - by rewrite (si_uses _ _ Hinv), decide_True.
  - intros i id Hin. apply Hcol, (gs_nodes _ _ _ _ _ Hspec). right.
    rewrite elem_of_app, !elem_of_fresh_points in Hin. unfold fresh_ids. apply list_elem_of_fmap.
    destruct Hin as [(fr & ? & _ & <- & _)|(fr & ? & _ & <- & _)]; eauto.
Qed.

Lemma max_colors_ge (colors : gmap N N) v c : colors !! v = Some c → c <= foldr N.max 1 (map_to_list colors).*2.
Proof.
  intros Hc%elem_of_map_to_list. apply (list_elem_of_fmap_2 snd) in Hc. simpl in Hc.
  induction (map_to_list colors).*2 as [|x l IH]; [by apply elem_of_nil in Hc|].
  apply elem_of_cons in Hc as [->|Hc]; simpl; [lia|]. specialize (IH Hc). lia.
Qed.

(** A colour is the fixed one of its register, or it is encodable in a
    byte ([1..=253]), below the argument window and different from every fixed
    colour; the register count written back is above every encodable colour
    and at most 254. *)
Theorem color_range f live m v a :
  live_shape f live → color f live = Ok m → insts f ≠ [] → am_map m !! v = Some a →
  am_phys_peak m <= 254 ∧
  ∃ c, a = Phys c ∧ (c <= 253 → c < am_phys_peak m) ∧
    (fixed_colors f !! v = Some c ∨ 1 <= c <= 253 ∧ c < arg_window_base f ∧ ∀ u, fixed_colors f !! u ≠ Some c).
Proof.
  intros Hshape Hc Hnil Hv. destruct (color_inv f live m Hshape Hc Hnil) as (st & g & colors & Hres).
  pose proof (cr_final _ _ _ _ _ _ Hres) as Hfin. pose proof (fg_selected _ _ _ _ _ Hfin) as Hsel.
  pose proof (fg_spec _ _ _ _ _ Hfin) as Hspec. rewrite (cr_peak _ _ _ _ _ _ Hres). split; [lia|].
  apply (map_lookup _ _ _ _ _ _ Hres) in Hv as (c & -> & Hcv). exists c. split; [done|]. split.
  - pose proof (max_colors_ge colors v c Hcv). unfold sat_add. lia.
  - destruct (start_colors g !! v) as [c'|] eqn:Hs.
    + pose proof (sel_fixed _ _ _ Hsel v c' Hs) as E. rewrite Hcv in E. injection E as <-. left.
      apply start_lookup in Hs as (n & Hn & Hp). rewrite (gs_pre _ _ _ _ _ Hspec v n Hn) in Hp. by destruct (decide _).
    + right. pose proof (sel_alloc _ _ _ Hsel v c Hcv Hs) as Ha. rewrite (gs_alloc _ _ _ _ _ Hspec) in Ha.
      apply elem_of_allocatable in Ha as (? & ? & _ & ?). done.
Qed.

(** No register of the function is above [max_real]. *)
Lemma graph_reg_le f v : room f → v ∈ graph_regs f → v <= max_real f.
Proof.
  intros Hr. rewrite (graph_regs_eq f Hr), elem_of_app, list_elem_of_fmap. unfold max_real. intros [Hv|(i & -> & Hi%elem_of_n_range)].
  - etransitivity; [|apply N.le_max_l]. unfold collect_real_vregs, sort_dedup in *. rewrite last_dedup.
    rewrite elem_of_dedup, elem_of_sort_by in Hv. by apply sort_by_last.
  - etransitivity; [|apply N.le_max_r]. destruct (room_base f Hr) as [H1 H2]; [lia|].
    destruct (N.eqb_spec (pl_count (param_layout f)) 0); [lia|]. unfold u32. rewrite !N.mod_small by lia. lia.
Qed.

(** ** Fixed colours may collide *)

(** Slot [300] is captured by a nested function and moves to the first free
    colour, [1]; the builtin of slot [1] keeps its number without looking at
    the colours already given away. *)
Definition colliding_builtin : IRFunction :=
  let sub := with_code ir_new [MkInst.new LOAD_VAR (Reg 400) (Reg 300) ONone; MkInst.ret (Reg 400) 0 0 0] [] in
  mkIRFunction
    [MkInst.load_const (Reg 300) 0; MkInst.new ADD (Reg 2) (Reg 1) (Reg 300); MkInst.ret (Reg 2) 0 0 0]
    [] 0 [] (mkParamLayout 0 0) [("Math"%string, 1)] [] 0 [] 0
    false false false false false false false 0 None None 0 false true false [sub].

Definition live_of (f : IRFunction) : LiveInfo :=
  match build_cfg f with
  | Ok g => match liveness f g with Ok info => info | _ => live_info_new end
  | _ => live_info_new
  end.

(** Fixed colours are not always proper: a builtin keeps its slot number as
    colour even when that colour was already given to a slot shared with a
    nested function, and the two registers are live at the same time. *)
Theorem color_fixed_collision :
  ∃ m, color colliding_builtin (live_of colliding_builtin) = Ok m ∧
    live_before_at (live_of colliding_builtin) 1 1 ∧ live_before_at (live_of colliding_builtin) 1 300 ∧
    am_map m !! 1 = Some (Phys 1) ∧ am_map m !! 300 = Some (Phys 1).
Proof.
  eexists. split; [vm_compute; reflexivity|]. split; [vm_compute; reflexivity|].
  split; [vm_compute; reflexivity|]. split; vm_compute; reflexivity.
Qed.

(** ** Witnesses *)

(** Two constants are added and returned; the constants conflict. *)
Definition sample_sum : IRFunction :=
  with_code ir_new
    [MkInst.load_const (Reg 300) 0; MkInst.load_const (Reg 301) 1;
     MkInst.new ADD (Reg 302) (Reg 300) (Reg 301); MkInst.ret (Reg 302) 0 0 0] [].

Definition sample_sum_live : LiveInfo := live_of sample_sum.
Definition sample_sum_map : AllocMap :=
  match color sample_sum sample_sum_live with Ok m => m | _ => alloc_map_new end.

Lemma sample_sum_shape : live_shape sample_sum sample_sum_live.
Proof.
  apply (liveness_shape _ (match build_cfg sample_sum with Ok g => g | _ => cfg_new end));
    [vm_compute; reflexivity..|discriminate].
Qed.

Lemma color_total_witness :
  is_ok (color sample_sum sample_sum_live) ∨ color sample_sum sample_sum_live = Err too_many_registers_msg.
Proof. exact (color_total sample_sum sample_sum_live sample_sum_shape). Defined.

Lemma color_proper_witness :
  am_map sample_sum_map !! 300 = Some (Phys 2) ∧ am_map sample_sum_map !! 301 = Some (Phys 1) ∧ 2 ≠ 1.
Proof.
  split; [vm_compute; reflexivity|]. split; [vm_compute; reflexivity|].
  apply (color_proper sample_sum sample_sum_live sample_sum_map 2 300 301);
    [exact sample_sum_shape | vm_compute; reflexivity | apply Nat.ltb_lt; reflexivity | | discriminate
    | left; vm_compute; reflexivity | vm_compute; reflexivity | vm_compute; reflexivity].
  left. split; left; vm_compute; reflexivity.
Defined.

Lemma color_covers_witness :
  (∃ c, am_map sample_sum_map !! 302 = Some (Phys c)) ∨
  ∃ p, p ∈ am_spills sample_sum_map ∧ sp_vreg p = 302 ∧ (sp_defs p).*1 = def_points sample_sum 302 ∧
    (sp_uses p).*1 = use_points sample_sum 302 ∧
    ∀ i id, (i, id) ∈ sp_defs p ++ sp_uses p → ∃ c, am_map sample_sum_map !! id = Some (Phys c).
Proof.
  apply (color_covers sample_sum sample_sum_live sample_sum_map 302);
    [exact sample_sum_shape | vm_compute; reflexivity | discriminate |].
  apply (bool_decide_unpack _). vm_compute. exact I.
Defined.

Lemma color_range_witness :
  am_phys_peak sample_sum_map <= 254 ∧
  ∃ c, Phys 1 = Phys c ∧ (c <= 253 → c < am_phys_peak sample_sum_map) ∧
    (fixed_colors sample_sum !! 302 = Some c ∨
     1 <= c <= 253 ∧ c < arg_window_base sample_sum ∧ ∀ u, fixed_colors sample_sum !! u ≠ Some c).
Proof.
  apply (color_range sample_sum sample_sum_live sample_sum_map 302 (Phys 1));
    [exact sample_sum_shape | vm_compute; reflexivity | discriminate | vm_compute; reflexivity].
Defined.
