(* ===== verification/Rewrite.v ===== *)
(** * Rewriting code to physical registers (crates/oxide_regalloc/src/rewrite.rs, finish.rs)

    Every instruction becomes a group: reloads of spilled operands, moves that
    make call arguments contiguous, the instruction over physical registers,
    and the store of a spilled result; labels move to the start of the group
    of their instruction. *)

From stdpp Require Import base tactics numbers list option gmap strings.
From Stdlib Require Import NArith ZArith Lia.
From S2P Require Import Prelude Opcode IR Contract Cfg Liveness Dce Interference Color.
#[local] Set Warnings "-clear-no-such-hyp".

Open Scope N_scope.

(** ** One instruction *)

(** The physical register of [r] at an instruction: its reload register
    there, else its colour, else [r] itself. *)
Definition remap_ext_reg (r : N) (slot_color : gmap N N) (m : AllocMap) : N :=
  match slot_color !! r with
  | Some c => c
  | None => match am_map m !! r with Some (Phys p) => p | _ => r end
  end.

Definition rewrite_operand (m : AllocMap) (slot_color : gmap N N) (o : Operand) : Operand :=
  match o with Reg r => Reg (remap_ext_reg r slot_color m) | _ => o end.

(** [windows(2).all(|w| w[1] == w[0] + 1)]. *)
Fixpoint contiguous (l : list N) : bool :=
  match l with
  | x :: ((y :: _) as l') => (y =? u32 (x + 1)) && contiguous l'
  | _ => true
  end.

(** The physical argument registers of a call. *)
Definition args_phys (m : AllocMap) (slot_color : gmap N N) (first nargs : N) : list N :=
  (λ k, remap_ext_reg (u32 (first + k)) slot_color m) <$> n_range 0 nargs.

(** The moves into the argument window, when the arguments are scattered. *)
Definition arg_movs (m : AllocMap) (slot_color : gmap N N) (inst : Inst) : option (list (N * N)) :=
  match call_first inst with
  | Some fr =>
      let args := args_phys m slot_color fr (ext_first inst) in
      if (0 <? ext_first inst) && negb (contiguous args)
      then Some (imap (λ k p, (u32 (am_arg_window_base m + N.of_nat k), p)) args)
      else None
  | None => None
  end.

Definition map_head (h : N → N) (l : list N) : list N :=
  match l with [] => [] | x :: l => h x :: l end.
Definition map_tail (h : N → N) (l : list N) : list N :=
  match l with [] => [] | x :: l => x :: (h <$> l) end.

Definition is_marked (w : N) : bool := N.shiftr w 31 =? 1.

(** The register words of the extension. *)
Definition rewrite_ext (m : AllocMap) (slot_color : gmap N N) (inst : Inst) : list N :=
  let remap r := remap_ext_reg r slot_color m in
  let marked w := N.lor 0x80000000 (remap (N.land w 0x7FFFFFFF)) in
  match i_op inst with
  | TEMPLATE_STR => map_tail (λ w, if is_marked w then marked w else w) (i_ext inst)
  | CALL_SPREAD | NEW_EXPRESSION_SPREAD | SUPER_CALL_SPREAD =>
      map_tail (λ w, if is_marked w then marked w else remap w) (i_ext inst)
  | GET_PRIVATE | SET_PRIVATE | PRIVATE_BRAND_IN => map_head (λ w, if w =? 0 then w else remap w) (i_ext inst)
  | DEFINE_ACCESSOR_DYNAMIC | DEFINE_ACCESSOR_ATTRS_DYNAMIC => map_head marked (i_ext inst)
  | CONCAT_N => map_tail remap (i_ext inst)
  | _ => i_ext inst
  end.

Definition is_b_call (op : OpCode) : bool :=
  match op with CALL | CALL_NATIVE | NEW_EXPRESSION => true | _ => false end.
Definition is_a_call (op : OpCode) : bool :=
  match op with SUPER_CALL => true | _ => false end.

Definition rewrite_inst (inst : Inst) (m : AllocMap) (slot_color : gmap N N) : Inst * list (N * N) :=
  let movs := arg_movs m slot_color inst in
  let bridge (c : bool) (o : Operand) :=
    if c && match movs with Some _ => true | None => false end then Reg (am_arg_window_base m)
    else rewrite_operand m slot_color o in
  (mkInst (i_op inst) (rewrite_operand m slot_color (i_rd inst))
     (bridge (is_a_call (i_op inst)) (i_a inst)) (bridge (is_b_call (i_op inst)) (i_b inst))
     (rewrite_ext m slot_color inst),
   default [] movs).

(** ** Spill tables *)

Record spill_tables := mkTables {
  t_defs_at : gmap (nat * N) N;
  t_spill_slot : gmap N N;
  t_use_pts : list (list (N * N));
}.

Definition add_def_point (m : AllocMap) (v : N) (t : gmap (nat * N) N) (p : nat * N) : gmap (nat * N) N :=
  match am_map m !! p.2 with Some (Phys c) => <[(p.1, v) := c]> t | _ => t end.

Definition add_use_point (m : AllocMap) (v : N) (t : list (list (N * N))) (p : nat * N) : res (list (list (N * N))) :=
  match am_map m !! p.2 with
  | Some (Phys c) => let* l := vec_get t p.1 in vec_set t p.1 (l ++ [(v, c)])
  | _ => Ok t
  end.

Definition add_plan (m : AllocMap) (t : spill_tables) (sp : SpillPlan) : res spill_tables :=
  let* uses := fold_res (add_use_point m (sp_vreg sp)) (sp_uses sp) (t_use_pts t) in
  Ok (mkTables (fold_left (add_def_point m (sp_vreg sp)) (sp_defs sp) (t_defs_at t))
        (<[sp_vreg sp := sp_slot sp]> (t_spill_slot t)) uses).

Definition build_tables (f : IRFunction) (m : AllocMap) : res spill_tables :=
  fold_res (add_plan m) (am_spills m) (mkTables ∅ ∅ (replicate (length (insts f)) [])).

(** [spill_slot[&v]]. *)
Definition slot_of (t : spill_tables) (v : N) : res N :=
  match t_spill_slot t !! v with Some s => Ok s | None => Panic end.

(** ** Groups *)

(** Lexicographic order of pairs. *)
Definition pair_le (a b : N * N) : bool := (a.1 <? b.1) || ((a.1 =? b.1) && (a.2 <=? b.2)).

(** A spilled register the instruction both defines and reads. *)
Definition rmw_vreg (t : spill_tables) (pts : list (N * N)) (inst : Inst) : option N :=
  match def_reg inst with
  | Some d => if bool_decide (is_Some (t_spill_slot t !! d)) && bool_decide (d ∈ pts.*1) then Some d else None
  | None => None
  end.

(** The reload registers of the instruction at [i]. *)
Definition slot_colors (t : spill_tables) (i : nat) (inst : Inst) (rmw : option N) (unspills : list (N * N)) : gmap N N :=
  let sc := match rmw with
            | Some v => match t_defs_at t !! (i, v) with Some c => {[v := c]} | None => ∅ end
            | None => ∅
            end in
  let sc := fold_left (λ sc vc, <[vc.1 := vc.2]> sc) unspills sc in
  match rmw, def_reg inst with
  | None, Some d => match t_defs_at t !! (i, d) with Some c => <[d := c]> sc | None => sc end
  | _, _ => sc
  end.

Definition rewrite_group (m : AllocMap) (t : spill_tables) (i : nat) (inst : Inst) : res (list Inst) :=
  let* pts := vec_get (t_use_pts t) i in
  let rmw := rmw_vreg t pts inst in
  let unspills := sort_by pair_le (filter (λ vc, rmw ≠ Some vc.1) pts) in
  let '(rewritten, movs) := rewrite_inst inst m (slot_colors t i inst rmw unspills) in
  let* loads := map_res (λ vc, let* s := slot_of t vc.1 in Ok (MkInst.inst_unspill (Reg vc.2) s)) unspills in
  let* rmw_load :=
    match rmw with
    | Some v => match t_defs_at t !! (i, v) with
                | Some c => let* s := slot_of t v in Ok [MkInst.inst_unspill (Reg c) s]
                | None => Ok []
                end
    | None => Ok []
    end in
  let stores :=
    match def_reg inst with
    | Some d => match t_spill_slot t !! d, t_defs_at t !! (i, d) with
                | Some s, Some c => if is_terminator (i_op inst) then [] else [MkInst.inst_spill (Reg c) s]
                | _, _ => []
                end
    | None => []
    end in
  Ok (loads ++ rmw_load ++ ((λ ds, MkInst.inst_mov (Reg ds.1) (Reg ds.2)) <$> movs) ++ [rewritten] ++ stores).

(** ** Spilled builtins *)

Fixpoint collect_slots (out : list N) (sub : IRFunction) : list N :=
  fold_left collect_slots (nested sub) (out ++ omap slot_ref (insts sub)).

Definition own_slots (f : IRFunction) : list N :=
  let base := pl_base (param_layout f) in
  if base =? 0 then [] else filter (λ r, r < base) (omap slot_ref (insts f)).

Definition excluded_colors (f : IRFunction) (m : AllocMap) : list N :=
  let pl := param_layout f in
  omap (λ va, match va.2 with Phys c => Some c | Spill _ => None end) (map_to_list (am_map m))
  ++ n_range (pl_base pl) (u32 (pl_base pl + pl_count pl))
  ++ fold_left collect_slots (nested f) []
  ++ own_slots f
  ++ n_range (am_arg_window_base m) 254.

Definition bind_builtin (m : AllocMap) (excluded : list N) (st : list (string * N * N) * list N) (e : string * N)
    : list (string * N * N) * list N :=
  let '(result, used) := st in
  match am_map m !! e.2 with
  | Some (Spill slot) =>
      let r := find_or_1 (λ c, negb (contains excluded c) && negb (contains used c)) (n_range 1 254) in
      (result ++ [(e.1, r, slot)], used ++ [r])
  | _ => st
  end.

Definition is_spilled (m : AllocMap) (v : N) : bool :=
  match am_map m !! v with Some (Spill _) => true | _ => false end.

Definition spilled_builtin_bindings (f : IRFunction) (m : AllocMap) : list (string * N * N) :=
  (fold_left (bind_builtin m (excluded_colors f m))
     (sort_by (λ a b, String.leb a.1 b.1) (filter (λ e, is_spilled m e.2 = true) (builtin_reg_map f))) ([], [])).1.

(** ** The function *)

(** New code and the start of each group, from position [base] on. *)
Fixpoint lay_out (base : nat) (groups : list (list Inst)) : list Inst * list nat :=
  match groups with
  | [] => ([], [])
  | g :: gs => let '(is', starts) := lay_out (base + length g) gs in (g ++ is', base :: starts)
  end.

Definition rewrite_run (f : IRFunction) (m : AllocMap) : res IRFunction :=
  let* t := build_tables f m in
  let entry := (λ e : string * N * N, MkInst.inst_spill (Reg e.1.2) e.2) <$> spilled_builtin_bindings f m in
  let* groups := map_res (λ ii, rewrite_group m t ii.1 ii.2) (enumerate (insts f)) in
  let '(code, starts) := lay_out (length entry) groups in
  Ok (with_code f (entry ++ code) ((λ pos, match pos with Some old => starts !! old | None => None end) <$> label_pos f)).

(** ** The registers of a rewritten instruction *)

(** The registers one entry of the use table contributes. *)
Definition spec_regs (inst : Inst) (s : SlotSpec) : list N := use_spec inst [] s.

Lemma use_spec_app inst us s : use_spec inst us s = us ++ spec_regs inst s.
Proof.
  destruct s as [slot| |slot| | | |]; unfold spec_regs; cbn [use_spec]; try reflexivity.
  - unfold push_operand. destruct (reg_of _); [reflexivity|by rewrite app_nil_r].
  - unfold push_range. destruct (reg_of _); [reflexivity|by rewrite app_nil_r].
  - destruct (ext_first inst =? 0); [by rewrite app_nil_r|reflexivity].
Qed.

Lemma use_regs_specs inst : use_regs inst = sem_uses (semantics (i_op inst)) ≫= spec_regs inst.
Proof.
  unfold use_regs. rewrite <- (app_nil_l (_ ≫= _)). generalize (@nil N).
  induction (sem_uses _) as [|s ss IH]; intros us; cbn [fold_left]; [by rewrite app_nil_r|].
  rewrite IH, use_spec_app, bind_cons. by rewrite app_assoc.
Qed.

(** [use_regs] and [def_reg] give numbers: a virtual register [254] and [this]
    look alike there.  An operand is a virtual register, which allocation
    moves, or one of the fixed registers of the machine. *)
Inductive operand_read := RVreg (r : N) | RFixed (n : N).

Definition operand_item (o : Operand) : option operand_read :=
  match o with
  | Reg r => Some (RVreg r)
  | This => Some (RFixed 254)
  | NewTarget => Some (RFixed 255)
  | ONone => Some (RFixed 0)
  | Const _ | Imm _ | Label _ => None
  end.

Definition item_reg (it : operand_read) : N := match it with RVreg r | RFixed r => r end.
Definition item_shift (it : operand_read) (k : N) : operand_read :=
  match it with RVreg r => RVreg (u32 (r + k)) | RFixed n => RFixed (u32 (n + k)) end.

Definition spec_reads (inst : Inst) (s : SlotSpec) : list operand_read :=
  match s with
  | SSlot slot => option_list (operand_item (slot_operand slot inst))
  | Reg0 => [RFixed 0]
  | SRange slot =>
      match operand_item (slot_operand slot inst) with
      | Some it => item_shift it <$> n_range 0 (ext_first inst)
      | None => []
      end
  | _ => RVreg <$> spec_regs inst s
  end.

(** What an instruction reads, in order, and what it defines. *)
Definition reads (inst : Inst) : list operand_read := sem_uses (semantics (i_op inst)) ≫= spec_reads inst.

Definition def_item (inst : Inst) : option operand_read :=
  match sem_def (semantics (i_op inst)) with
  | Some (SSlot slot) => operand_item (slot_operand slot inst)
  | Some Reg0 => Some (RFixed 0)
  | _ => None
  end.

Lemma item_of_reg o : item_reg <$> operand_item o = reg_of o.
Proof. by destruct o. Qed.

Lemma range_regs first nargs : push_range [] (Some first) nargs = (λ k, u32 (first + k)) <$> n_range 0 nargs.
Proof.
  unfold push_range, n_range. rewrite <- list_fmap_compose, N.sub_0_r. simpl. apply list_fmap_ext. intros i x _.
  unfold compose. by rewrite N.add_0_l.
Qed.

Lemma spec_reads_regs inst s : item_reg <$> spec_reads inst s = spec_regs inst s.
Proof.
  destruct s as [slot| |slot| | | |]; cbn [spec_reads]; try (rewrite <- list_fmap_compose; apply list_fmap_id); unfold spec_regs; cbn [use_spec].
  - unfold push_operand. rewrite <- item_of_reg. by destruct (operand_item _).
  - done.
  - rewrite <- item_of_reg. destruct (operand_item _) as [it|]; [|done]. cbn [fmap option_fmap option_map]. rewrite range_regs, <- list_fmap_compose.
    apply list_fmap_ext. intros k x _. by destruct it.
Qed.

Lemma reads_regs inst : item_reg <$> reads inst = use_regs inst.
Proof.
  rewrite use_regs_specs. unfold reads. induction (sem_uses _) as [|s ss IH]; [done|].
  by rewrite !bind_cons, fmap_app, IH, spec_reads_regs.
Qed.

Lemma def_item_reg inst : item_reg <$> def_item inst = def_reg inst.
Proof.
  unfold def_item, def_reg. destruct (sem_def _) as [[slot| |slot| | | |]|]; try done. apply item_of_reg.
Qed.

Lemma read_used inst r : RVreg r ∈ reads inst → r ∈ use_regs inst.
Proof. intros H. rewrite <- reads_regs. apply list_elem_of_fmap. by exists (RVreg r). Qed.

(** Which entries the use table has for an opcode. *)
Definition spec_allowed (op : OpCode) (s : SlotSpec) : bool :=
  match s with
  | SSlot Slot.Rd | Reg0 => true
  | SSlot Slot.A => negb (is_a_call op)
  | SSlot Slot.B => negb (is_b_call op)
  | SRange Slot.A => is_a_call op
  | SRange Slot.B => is_b_call op
  | SRange Slot.Rd => false
  | SpreadArgs =>
      match op with CALL_SPREAD | NEW_EXPRESSION_SPREAD | SUPER_CALL_SPREAD | CONCAT_N => true | _ => false end
  | TemplateExprs => match op with TEMPLATE_STR => true | _ => false end
  | BrandReg => match op with GET_PRIVATE | SET_PRIVATE => true | _ => false end
  | ExtReg => match op with DEFINE_ACCESSOR_DYNAMIC | DEFINE_ACCESSOR_ATTRS_DYNAMIC => true | _ => false end
  end.

Lemma use_table_allowed op : Forall (λ s, spec_allowed op s = true) (sem_uses (semantics op)).
Proof. destruct op; vm_compute; repeat constructor. Qed.

Lemma def_table_allowed op s :
  sem_def (semantics op) = Some s → s = Reg0 ∨ ∃ slot, s = SSlot slot ∧ spec_allowed op s = true.
Proof. destruct op; vm_compute; intros [= <-]; eauto. Qed.

(** ** Moves *)

Section moves.
Context {V : Type}.

Definition reg_set (regs : N → V) (d : N) (v : V) (r : N) : V := if decide (r = d) then v else regs r.

(** The moves before a call, one after the other. *)
Definition run_movs (movs : list (N * N)) (regs : N → V) : N → V :=
  fold_left (λ regs ds, reg_set regs ds.1 (regs ds.2)) movs regs.

Lemma run_movs_window win args regs :
  win + N.of_nat (length args) < 2^32 → Forall (λ p, p < win ∨ win + N.of_nat (length args) <= p) args →
  (∀ k p, args !! k = Some p →
     run_movs (imap (λ k p, (u32 (win + N.of_nat k), p)) args) regs (win + N.of_nat k) = regs p) ∧
  (∀ r, r < win ∨ win + N.of_nat (length args) <= r →
     run_movs (imap (λ k p, (u32 (win + N.of_nat k), p)) args) regs r = regs r).
Proof.
  intros Hw Hout.
  induction args as [|p args IH] using rev_ind; [done|].
  rewrite length_app in Hw, Hout. simpl in Hw, Hout. rewrite Forall_app, Forall_singleton in Hout. destruct Hout as [Hout Hp].
  destruct IH as [IH1 IH2]; [lia|by eapply Forall_impl; [done|]; simpl; lia|].
  unfold run_movs in *. rewrite imap_app. simpl. rewrite fold_left_app. simpl. rewrite Nat.add_0_r.
  replace (u32 (win + N.of_nat (length args))) with (win + N.of_nat (length args))
    by (unfold u32; rewrite N.mod_small; [done|lia]).
  rewrite length_app. simpl. split.
  - intros k q Hk. unfold reg_set at 1. case_decide as E.
    + assert (k = length args) as -> by lia. rewrite list_lookup_middle in Hk by done. simplify_eq.
      apply IH2. lia.
    + apply IH1. destruct (decide (k < length args)%nat) as [?|Hge]; [by rewrite lookup_app_l in Hk|].
      rewrite lookup_app_r in Hk by lia. apply lookup_lt_Some in Hk. simpl in Hk. lia.
  - intros r Hr. unfold reg_set at 1. rewrite decide_False by lia. apply IH2. lia.
Qed.
End moves.

(** ** Rewriting renames the contract *)

(** Where an operand is after allocation. *)
Definition place (m : AllocMap) (sc : gmap N N) (it : operand_read) : N :=
  match it with RVreg r => remap_ext_reg r sc m | RFixed n => n end.

(** What the emitted form of an instruction is: operands and extension words
    are 32-bit numbers, a call with arguments names its first one, accessors
    have their key word. *)
Record emitted_form (inst : Inst) : Prop := {
  ef_operands : ∀ r, Reg r ∈ [i_rd inst; i_a inst; i_b inst] → r < 2^32;
  ef_words : Forall (λ w, w < if decide (i_op inst = CONCAT_N) then 2^31 else 2^32) (i_ext inst);
  ef_calls : is_window_call (i_op inst) = true →
    ext_first inst = 0 ∨ ∃ fr, call_first inst = Some fr ∧ fr + ext_first inst < 2^32;
  ef_key : ExtReg ∈ sem_uses (semantics (i_op inst)) → i_ext inst ≠ [];
}.

(** What the allocation must satisfy at an instruction: no virtual operand is
    moved into the argument window, nor to register [0]. *)
Record renamable (m : AllocMap) (sc : gmap N N) (inst : Inst) : Prop := {
  rn_form : emitted_form inst;
  rn_window : 1 <= am_arg_window_base m <= 254;
  rn_calls : is_window_call (i_op inst) = true → am_arg_window_base m + ext_first inst <= 254;
  rn_colors : ∀ r, RVreg r ∈ reads inst →
    remap_ext_reg r sc m < am_arg_window_base m ∧ (r ≠ 0 → remap_ext_reg r sc m ≠ 0);
}.

Lemma contiguous_lookup l x k y :
  contiguous l = true → l !! 0%nat = Some x → x < 2^32 → l !! k = Some y → y = u32 (x + N.of_nat k).
Proof.
  revert x k. induction l as [|a [|b l] IH]; intros x k Hc H0 Hx Hk; [done|..].
  - destruct k; [|done]. simplify_eq/=. rewrite N.add_0_r. unfold u32. symmetry. by apply N.mod_small.
  - cbn [contiguous] in Hc. apply andb_true_iff in Hc as [Hb%N.eqb_eq Hc]. simpl in H0. injection H0 as ->.
    destruct k as [|k]; [simplify_eq/=; rewrite N.add_0_r; unfold u32; symmetry; by apply N.mod_small|].
    rewrite (IH b k Hc); [|done| |done].
    + subst b. unfold u32. rewrite N.Div0.add_mod_idemp_l. f_equal. lia.
    + subst b. unfold u32. by apply N.mod_lt.
Qed.

Lemma clear_mark w : w < 2^31 → N.land (N.lor 0x80000000 w) 0x7FFFFFFF = w.
Proof.
  intros H. replace 0x80000000 with (N.shiftl 1 31) by reflexivity.
  rewrite lor_shiftl_add by done. rewrite land_31. rewrite N.add_comm, N.Div0.mod_add. by apply N.mod_small.
Qed.

Lemma unmarked_small w : w < 2^32 → is_marked w = false → N.land w 0x7FFFFFFF = w.
Proof.
  unfold is_marked. rewrite N.eqb_neq, N.shiftr_div_pow2, land_31. intros Hw Hm. apply N.mod_small.
  pow_literals. zify. Z.to_euclidean_division_equations. lia.
Qed.

Lemma mark_marked w : w < 2^31 → is_marked (N.lor 0x80000000 w) = true.
Proof.
  intros H. unfold is_marked. replace 0x80000000 with (N.shiftl 1 31) by reflexivity.
  rewrite lor_shiftl_add, N.shiftr_div_pow2 by done. apply N.eqb_eq.
  rewrite N.div_add_l by done. rewrite N.div_small by done. done.
Qed.

Lemma reg_of_rewrite m sc o : reg_of (rewrite_operand m sc o) = place m sc <$> operand_item o.
Proof. by destruct o. Qed.

Lemma drop_map_tail h l : drop 1 (map_tail h l) = h <$> drop 1 l.
Proof. by destruct l. Qed.

Lemma fmap_bind_ext {A B B' C} (h1 : B → C) (h2 : B' → C) (f1 : A → list B) (f2 : A → list B') (l : list A) :
  (∀ x, x ∈ l → h1 <$> f1 x = h2 <$> f2 x) → h1 <$> (l ≫= f1) = h2 <$> (l ≫= f2).
Proof.
  induction l as [|x l IH]; intros H; [done|]. rewrite !bind_cons, !fmap_app, H by (by left).
  f_equal. apply IH. intros y Hy. apply H. by right.
Qed.

Section contract.
Context (m : AllocMap) (sc : gmap N N) (inst : Inst) (Hrn : renamable m sc inst).
#[local] Abbreviation ρ := (λ r, remap_ext_reg r sc m).
#[local] Abbreviation inst' := (rewrite_inst inst m sc).1.

#[local] Abbreviation π := (place m sc).

Lemma spec_read s it : s ∈ sem_uses (semantics (i_op inst)) → it ∈ spec_reads inst s → it ∈ reads inst.
Proof. intros Hs Hr. apply list_elem_of_bind. eauto. Qed.

Lemma used_small s r : s ∈ sem_uses (semantics (i_op inst)) → RVreg r ∈ spec_reads inst s → ρ r < 2^31.
Proof.
  intros Hs Hr. destruct (rn_window _ _ _ Hrn). destruct (rn_colors _ _ _ Hrn r (spec_read s _ Hs Hr)) as [H' _].
  apply N.lt_le_trans with (am_arg_window_base m); [done|]. by apply N.le_trans with 254.
Qed.

(** The extension words of a call with contiguous arguments are kept. *)
Lemma call_ext : is_window_call (i_op inst) = true → i_ext inst' = i_ext inst.
Proof. simpl. unfold rewrite_ext. by destruct (i_op inst). Qed.

Lemma slot_rewritten slot :
  spec_allowed (i_op inst) (SSlot slot) = true →
  slot_operand slot inst' = rewrite_operand m sc (slot_operand slot inst).
Proof.
  intros H. destruct slot; simpl in *; [done|..]; apply negb_true_iff in H; by rewrite H.
Qed.

Lemma word_bound w : w ∈ i_ext inst → w < 2^32 ∧ (i_op inst = CONCAT_N → w < 2^31).
Proof.
  intros Hw. pose proof (ef_words _ (rn_form _ _ _ Hrn)) as Hf. rewrite Forall_forall in Hf. specialize (Hf w Hw). simpl in Hf.
  destruct (decide (i_op inst = CONCAT_N)); split; intros; try done. by apply N.lt_trans with (2^31).
Qed.

Lemma small_land r : r < 2^31 → N.land r 0x7FFFFFFF = r.
Proof. intros H. rewrite land_31. by apply N.mod_small. Qed.

(** One spread word, marked or not. *)
Lemma spread_word w :
  w < 2^32 → ρ (N.land w 0x7FFFFFFF) < 2^31 →
  N.land (if is_marked w then N.lor 0x80000000 (ρ (N.land w 0x7FFFFFFF)) else ρ w) 0x7FFFFFFF =
  ρ (N.land w 0x7FFFFFFF).
Proof.
  intros Hw Hs. destruct (is_marked w) eqn:E; [by apply clear_mark|].
  pose proof (unmarked_small w Hw E) as Hl. cbv beta in *. rewrite Hl in Hs. rewrite small_land by done. by rewrite Hl.
Qed.

Lemma spread_words :
  SpreadArgs ∈ sem_uses (semantics (i_op inst)) → spec_regs inst' SpreadArgs = π <$> spec_reads inst SpreadArgs.
Proof.
  intros Hs. pose proof (use_table_allowed (i_op inst)) as Ht. rewrite Forall_forall in Ht. specialize (Ht _ Hs).
  assert (∀ w, w ∈ drop 1 (i_ext inst) →
    (w < 2^32 ∧ (i_op inst = CONCAT_N → w < 2^31)) ∧ ρ (N.land w 0x7FFFFFFF) < 2^31) as Hw.
  { intros w Hw. split.
    - apply word_bound. destruct (i_ext inst); [by apply elem_of_nil in Hw|]. by right.
    - apply (used_small SpreadArgs); [done|]. cbn [spec_reads]. apply list_elem_of_fmap. eexists. split; [done|].
      unfold spec_regs. cbn [use_spec app]. apply list_elem_of_fmap. eauto. }
  cbn [spec_reads]. unfold spec_regs. cbn [use_spec app]. simpl i_ext. unfold rewrite_ext.
  destruct (i_op inst); try discriminate Ht; rewrite drop_map_tail, <- !list_fmap_compose; apply list_fmap_ext;
    intros k w Hk; apply list_elem_of_lookup_2 in Hk; destruct (Hw w Hk) as [[H1 H2] H3]; unfold compose; cbn [place];
    try (by apply spread_word).
  specialize (H2 eq_refl). rewrite (small_land w) in * by done. by apply small_land.
Qed.

Lemma template_words :
  TemplateExprs ∈ sem_uses (semantics (i_op inst)) → spec_regs inst' TemplateExprs = π <$> spec_reads inst TemplateExprs.
Proof.
  intros Hs. pose proof (use_table_allowed (i_op inst)) as Ht. rewrite Forall_forall in Ht. specialize (Ht _ Hs).
  assert (∀ w, w ∈ drop 1 (i_ext inst) → is_marked w = true → ρ (N.land w 0x7FFFFFFF) < 2^31) as Hw.
  { intros w Hw Hm. apply (used_small TemplateExprs); [done|]. cbn [spec_reads]. apply list_elem_of_fmap. eexists. split; [done|].
    unfold spec_regs. cbn [use_spec app]. apply list_elem_of_fmap. exists w. split; [done|]. apply list_elem_of_In, List.filter_In. split; [by apply list_elem_of_In|done]. }
  cbn [spec_reads]. unfold spec_regs. cbn [use_spec app]. simpl i_ext. unfold rewrite_ext.
  destruct (i_op inst); try discriminate Ht. rewrite drop_map_tail. clear Hs.
  induction (drop 1 (i_ext inst)) as [|w l IH]; [done|]. rewrite fmap_cons. cbn [List.filter].
  fold (is_marked w). destruct (is_marked w) eqn:E.
  - fold (is_marked (N.lor 0x80000000 (ρ (N.land w 0x7FFFFFFF)))). rewrite mark_marked by (apply Hw; [by left|done]).
    rewrite !fmap_cons, clear_mark by (apply Hw; [by left|done]). f_equal. apply IH. intros u Hu. apply Hw. by right.
  - fold (is_marked w). rewrite E. apply IH. intros u Hu. apply Hw. by right.
Qed.

Lemma brand_word :
  BrandReg ∈ sem_uses (semantics (i_op inst)) →
  spec_regs inst' BrandReg = π <$> spec_reads inst BrandReg.
Proof.
  intros Hs. pose proof (use_table_allowed (i_op inst)) as Ht. rewrite Forall_forall in Ht. specialize (Ht _ Hs).
  assert (ext_first inst' = if ext_first inst =? 0 then 0 else ρ (ext_first inst)) as E.
  { unfold ext_first. simpl i_ext. unfold rewrite_ext.
    destruct (i_op inst); try discriminate Ht; destruct (i_ext inst) as [|w l]; simpl; try done; by destruct (w =? 0) eqn:Ez;
      [apply N.eqb_eq in Ez|]. }
  cbn [spec_reads]. unfold spec_regs. cbn [use_spec app]. rewrite E. destruct (ext_first inst =? 0) eqn:Ez; [done|].
  assert ((ρ (ext_first inst) =? 0) = false) as Hz; [|by rewrite Hz].
  apply N.eqb_neq, (rn_colors _ _ _ Hrn); [|by apply N.eqb_neq].
  apply (spec_read BrandReg); [done|]. cbn [spec_reads]. unfold spec_regs. cbn [use_spec app]. rewrite Ez. by left.
Qed.

Lemma accessor_word :
  ExtReg ∈ sem_uses (semantics (i_op inst)) → spec_regs inst' ExtReg = π <$> spec_reads inst ExtReg.
Proof.
  intros Hs. pose proof (use_table_allowed (i_op inst)) as Ht. rewrite Forall_forall in Ht. specialize (Ht _ Hs).
  assert (ρ (N.land (ext_first inst) 0x7FFFFFFF) < 2^31) as Hr by (apply (used_small ExtReg); [done|by left]).
  pose proof (ef_key _ (rn_form _ _ _ Hrn) Hs) as Hk.
  cbn [spec_reads]. unfold spec_regs. cbn [use_spec app fmap list_fmap place]. f_equal. unfold ext_first in *. simpl i_ext. unfold rewrite_ext.
  destruct (i_op inst); try discriminate Ht; (destruct (i_ext inst) as [|w l]; [done|by apply clear_mark]).
Qed.

(** The operand that holds the first argument of a call. *)
Definition first_slot : Slot.t := if is_a_call (i_op inst) then Slot.A else Slot.B.

Lemma call_first_slot fr : call_first inst = Some fr → slot_operand first_slot inst = Reg fr ∧ is_window_call (i_op inst) = true.
Proof.
  unfold call_first, first_slot. intros H. destruct (i_op inst); try discriminate H;
    match type of H with (match ?o with _ => _ end) = _ => destruct o eqn:E end; try discriminate H; injection H as ->;
    by rewrite <- E.
Qed.

Lemma range_slot slot :
  SRange slot ∈ sem_uses (semantics (i_op inst)) → slot = first_slot ∧ is_window_call (i_op inst) = true.
Proof.
  intros Hs. pose proof (use_table_allowed (i_op inst)) as Ht. rewrite Forall_forall in Ht. specialize (Ht _ Hs).
  unfold first_slot. simpl in Ht. destruct slot; [done|..]; by destruct (i_op inst).
Qed.

Lemma ext_first_call : is_window_call (i_op inst) = true → ext_first inst' = ext_first inst.
Proof. intros H. unfold ext_first. by rewrite call_ext. Qed.

Lemma args_lookup fr j :
  (j < N.to_nat (ext_first inst))%nat →
  args_phys m sc fr (ext_first inst) !! j = Some (ρ (u32 (fr + N.of_nat j))).
Proof.
  intros Hj. unfold args_phys. rewrite list_lookup_fmap. unfold n_range.
  rewrite list_lookup_fmap, lookup_seq_lt by lia. simpl. by rewrite N.add_0_l.
Qed.

Lemma call_first_u32 fr : call_first inst = Some fr → fr < 2^32.
Proof.
  intros Hfr. apply (ef_operands _ (rn_form _ _ _ Hrn)). destruct (call_first_slot fr Hfr) as [<- _]. unfold first_slot.
  destruct (is_a_call _); simpl; [right; left|right; right; left].
Qed.

Lemma range_reads fr :
  call_first inst = Some fr →
  spec_reads inst (SRange first_slot) = (λ k, RVreg (u32 (fr + k))) <$> n_range 0 (ext_first inst).
Proof. intros Hfr. cbn [spec_reads]. by destruct (call_first_slot fr Hfr) as [-> _]. Qed.

Lemma n_range_lookup k x n : n_range 0 n !! k = Some x → x = N.of_nat k ∧ (k < N.to_nat n)%nat.
Proof.
  unfold n_range. rewrite list_lookup_fmap, fmap_Some. intros (j & [-> Hj]%lookup_seq & ->). split; lia.
Qed.

Lemma range_renamed fr :
  SRange first_slot ∈ sem_uses (semantics (i_op inst)) → call_first inst = Some fr → arg_movs m sc inst = None →
  (λ k, u32 (ρ fr + k)) <$> n_range 0 (ext_first inst) = (λ k, ρ (u32 (fr + k))) <$> n_range 0 (ext_first inst).
Proof.
  intros Hs Hfr Hm. unfold arg_movs in Hm. rewrite Hfr in Hm.
  apply list_fmap_ext. intros k x [-> Hlt]%n_range_lookup.
  destruct (0 <? ext_first inst) eqn:E0; [|apply N.ltb_ge in E0; lia]. simpl in Hm.
  destruct (contiguous _) eqn:Hcont; [|done]. symmetry. pose proof (call_first_u32 fr Hfr).
  assert (u32 (fr + N.of_nat 0) = fr) as Hfr0 by (rewrite N.add_0_r; unfold u32; by apply N.mod_small).
  eapply contiguous_lookup; [done| | |by apply args_lookup].
  - rewrite args_lookup by lia. by rewrite Hfr0.
  - apply N.lt_trans with (2^31); [|done]. apply (used_small (SRange first_slot)); [done|]. rewrite (range_reads fr Hfr).
    apply list_elem_of_fmap. exists 0. split; [by rewrite <- Hfr0 at 1|]. apply elem_of_n_range. lia.
Qed.

Lemma slot_spec_renamed s :
  (∃ slot, s = SSlot slot) ∨ s = Reg0 → spec_allowed (i_op inst) s = true → spec_regs inst' s = π <$> spec_reads inst s.
Proof.
  intros [[slot ->]| ->] Ht; [|done]. cbn [spec_reads]. unfold spec_regs; cbn [use_spec]. unfold push_operand.
  rewrite slot_rewritten, reg_of_rewrite by done. by destruct (operand_item _).
Qed.

(** Without moves the entries are renamed one by one. *)
Lemma spec_renamed s :
  arg_movs m sc inst = None → s ∈ sem_uses (semantics (i_op inst)) → spec_regs inst' s = π <$> spec_reads inst s.
Proof.
  intros Hm Hs. pose proof (use_table_allowed (i_op inst)) as Ht. rewrite Forall_forall in Ht. specialize (Ht _ Hs).
  destruct s as [slot| |slot| | | |]; [apply slot_spec_renamed; eauto|done| |by apply spread_words|by apply template_words|by apply brand_word|by apply accessor_word].
  destruct (range_slot slot Hs) as [-> Hc].
  assert (slot_operand first_slot inst' = rewrite_operand m sc (slot_operand first_slot inst)) as E.
  { unfold first_slot. simpl. rewrite Hm, !andb_false_r. by destruct (is_a_call _). }
  unfold spec_regs. cbn [use_spec]. rewrite ext_first_call, E by done.
  destruct (ef_calls _ (rn_form _ _ _ Hrn) Hc) as [H0|(fr & Hfr & _)].
  - cbn [spec_reads]. rewrite H0. rewrite reg_of_rewrite. unfold push_range. by destruct (operand_item _).
  - rewrite (range_reads fr Hfr), <- list_fmap_compose. unfold compose. cbn [place]. rewrite <- range_renamed by done.
    destruct (call_first_slot fr Hfr) as [-> _]. simpl rewrite_operand. simpl reg_of. apply range_regs.
Qed.

Lemma range_in_table : is_window_call (i_op inst) = true → SRange first_slot ∈ sem_uses (semantics (i_op inst)).
Proof.
  unfold first_slot. destruct (i_op inst); try done; intros _; vm_compute; repeat (first [by left | right]).
Qed.

Lemma args_below fr k p :
  call_first inst = Some fr → args_phys m sc fr (ext_first inst) !! k = Some p →
  p < am_arg_window_base m ∨ am_arg_window_base m + ext_first inst <= p.
Proof.
  intros Hfr Hk. destruct (call_first_slot fr Hfr) as [_ Hc]. left.
  assert (k < N.to_nat (ext_first inst))%nat as Hlt.
  { apply lookup_lt_Some in Hk. unfold args_phys, n_range in Hk. rewrite !length_fmap, length_seq in Hk. lia. }
  rewrite args_lookup in Hk by done. injection Hk as <-.
  apply (rn_colors _ _ _ Hrn). apply (spec_read (SRange first_slot)); [by apply range_in_table|]. rewrite (range_reads fr Hfr).
  apply list_elem_of_fmap. exists (N.of_nat k). split; [done|]. apply elem_of_n_range. lia.
Qed.

(** The fixed registers of the slots lie outside the window. *)
Lemma slot_item_outside s it nargs :
  (∃ slot, s = SSlot slot) ∨ s = Reg0 → s ∈ sem_uses (semantics (i_op inst)) → it ∈ spec_reads inst s →
  am_arg_window_base m + nargs <= 254 → π it < am_arg_window_base m ∨ am_arg_window_base m + nargs <= π it.
Proof.
  intros Hslot Hs Hit Hw. destruct (rn_window _ _ _ Hrn). destruct it as [r|n].
  - left. by apply (rn_colors _ _ _ Hrn), (spec_read s).
  - cbn [place]. assert (n = 0 ∨ 254 <= n) as [->|?]; [|lia..].
    destruct Hslot as [[slot ->]| ->]; cbn [spec_reads] in Hit.
    + destruct (slot_operand slot inst); cbn in Hit; try (by apply elem_of_nil in Hit); apply list_elem_of_singleton in Hit; simplify_eq; auto; right; lia.
    + apply list_elem_of_singleton in Hit. simplify_eq. auto.
Qed.

(** With moves the arguments are read from the window. *)
Lemma spec_moved {V} (regs : N → V) movs s :
  arg_movs m sc inst = Some movs → s ∈ sem_uses (semantics (i_op inst)) →
  run_movs movs regs <$> spec_regs inst' s = (λ it, regs (π it)) <$> spec_reads inst s.
Proof.
  intros Hm Hs. pose proof (use_table_allowed (i_op inst)) as Ht. rewrite Forall_forall in Ht. specialize (Ht _ Hs).
  pose proof Hm as Hm'. unfold arg_movs in Hm'. destruct (call_first inst) as [fr|] eqn:Hfr; [|done].
  destruct (call_first_slot fr Hfr) as [Hop Hc]. pose proof (rn_calls _ _ _ Hrn Hc) as Hwin.
  destruct (_ && _) in Hm'; [|done]. injection Hm' as <-. set (args := args_phys m sc fr (ext_first inst)).
  assert (N.of_nat (length args) = ext_first inst) as Hlen.
  { unfold args, args_phys, n_range. rewrite !length_fmap, length_seq. lia. }
  destruct (run_movs_window (am_arg_window_base m) args regs) as [Hin Hkeep].
  { rewrite Hlen. apply N.le_lt_trans with 254; done. }
  { apply Forall_lookup. intros k p Hk. rewrite Hlen. by eapply args_below. }
  assert ((∃ slot, s = SSlot slot) ∨ s = Reg0 ∨ s = SRange first_slot) as Hcase.
  { destruct s as [slot| |slot| | | |]; [eauto|eauto| |by destruct (i_op inst)..].
    destruct (range_slot slot Hs) as [-> _]. auto. }
  assert (((∃ slot, s = SSlot slot) ∨ s = Reg0) ∨ s = SRange first_slot) as [Hslot| ->] by tauto.
  { rewrite slot_spec_renamed, <- list_fmap_compose by auto. apply list_fmap_ext. intros k it Hit%list_elem_of_lookup_2. unfold compose. apply Hkeep.
    rewrite Hlen. by eapply slot_item_outside. }
  rewrite (range_reads fr Hfr).
  assert (spec_regs inst' (SRange first_slot) = (λ k, u32 (am_arg_window_base m + k)) <$> n_range 0 (ext_first inst)) as ->.
  { assert (slot_operand first_slot inst' = Reg (am_arg_window_base m)) as E.
    { unfold first_slot. simpl. rewrite Hm. by destruct (i_op inst). }
    unfold spec_regs. cbn [use_spec]. rewrite ext_first_call, E by done. simpl reg_of. apply range_regs. }
  rewrite <- !list_fmap_compose. apply list_fmap_ext. intros k x [-> Hk]%n_range_lookup. unfold compose.
  replace (u32 (am_arg_window_base m + N.of_nat k)) with (am_arg_window_base m + N.of_nat k)
    by (unfold u32; rewrite N.mod_small; [done|]; apply N.le_lt_trans with 254; [lia|done]).
  by rewrite (Hin k _ (args_lookup fr k Hk)).
Qed.

Lemma def_renamed : def_reg inst' = π <$> def_item inst.
Proof.
  unfold def_reg, def_item. change (i_op inst') with (i_op inst).
  destruct (sem_def (semantics (i_op inst))) as [s|] eqn:E; [|done].
  destruct (def_table_allowed _ _ E) as [->|(slot & -> & Ha)]; [done|]. by rewrite slot_rewritten, reg_of_rewrite.
Qed.

Lemma reads_renamed {V} (regs : N → V) :
  run_movs (rewrite_inst inst m sc).2 regs <$> use_regs inst' = (λ it, regs (π it)) <$> reads inst.
Proof.
  rewrite use_regs_specs. change (i_op inst') with (i_op inst). unfold reads.
  apply fmap_bind_ext. intros s Hs. simpl snd.
  destruct (arg_movs m sc inst) as [movs|] eqn:Hm; [by apply spec_moved|].
  rewrite spec_renamed by done. by rewrite <- list_fmap_compose.
Qed.
End contract.

(** ** Groups and labels *)

(** The reload points lie in the code. *)
Definition plans_fit (f : IRFunction) (m : AllocMap) : Prop :=
  ∀ p, p ∈ am_spills m → Forall (λ q, (q.1 < length (insts f))%nat) (sp_uses p).

Record tables_ok (f : IRFunction) (t : spill_tables) : Prop := {
  tab_length : length (t_use_pts t) = length (insts f);
  tab_slots : ∀ i pts vc, t_use_pts t !! i = Some pts → vc ∈ pts → is_Some (t_spill_slot t !! vc.1);
}.

Lemma add_uses_ok f m v (slots : gmap N N) uses (pts : list (list (N * N))) :
  is_Some (slots !! v) → Forall (λ q, (q.1 < length (insts f))%nat) uses → length pts = length (insts f) →
  (∀ i l vc, pts !! i = Some l → vc ∈ l → is_Some (slots !! vc.1)) →
  ∃ pts', fold_res (add_use_point m v) uses pts = Ok pts' ∧ length pts' = length (insts f) ∧
    (∀ i l vc, pts' !! i = Some l → vc ∈ l → is_Some (slots !! vc.1)).
Proof.
  intros Hv Hu. revert pts. induction Hu as [|[i id] uses Hi _ IH]; intros pts Hl Hp; cbn [fold_res]; [by eauto|].
  unfold add_use_point at 1. cbn [fst snd] in *. destruct (am_map m !! id) as [[c|s]|]; cbn [res_bind]; [|by apply IH..].
  destruct (lookup_lt_is_Some_2 pts i) as [l Hli]; [lia|]. rewrite (proj2 (vec_get_Ok _ _ _) Hli). cbn [res_bind].
  rewrite vec_set_lt by lia. cbn [res_bind]. apply IH; [by rewrite length_insert|].
  intros j l' vc Hj Hin. destruct (decide (j = i)) as [->|Hne].
  - rewrite list_lookup_insert_eq in Hj by lia. injection Hj as <-.
    apply elem_of_app in Hin as [?| ->%list_elem_of_singleton]; [by eapply Hp|done].
  - rewrite list_lookup_insert_ne in Hj by done. by eapply Hp.
Qed.

Lemma build_tables_ok f m : plans_fit f m → ∃ t, build_tables f m = Ok t ∧ tables_ok f t.
Proof.
  intros Hfit. unfold build_tables.
  destruct (fold_res_inv (S := spill_tables) (add_plan m) (λ _ t, tables_ok f t) (am_spills m)
    (mkTables ∅ ∅ (replicate (length (insts f)) []))) as (t & -> & Ht); [| |by exists t].
  - constructor; simpl; [apply length_replicate|]. intros i pts vc [-> _]%lookup_replicate. by intros ?%elem_of_nil.
  - intros pre p post t E [H1 H2]. unfold add_plan.
    destruct (add_uses_ok f m (sp_vreg p) (<[sp_vreg p := sp_slot p]> (t_spill_slot t)) (sp_uses p) (t_use_pts t))
      as (pts' & -> & Hl & Hp); [by rewrite lookup_insert_eq|apply Hfit; rewrite E; set_solver|done| |].
    { intros i l vc Hi Hin. apply lookup_insert_is_Some'. right. by eapply H2. }
    cbn [res_bind]. eexists. split; [done|]. by constructor.
Qed.

(** The group of an instruction: reloads and moves, the rewritten instruction,
    at most a store. *)
Definition group_of (m : AllocMap) (inst : Inst) (g : list Inst) : Prop :=
  ∃ sc loads stores,
    g = loads ++ ((λ ds, MkInst.inst_mov (Reg ds.1) (Reg ds.2)) <$> (rewrite_inst inst m sc).2)
        ++ (rewrite_inst inst m sc).1 :: stores ∧
    Forall (λ x, i_op x = UNSPILL) loads ∧ Forall (λ x, i_op x = SPILL) stores ∧ (length stores <= 1)%nat.

Lemma rewrite_group_ok f m t i inst :
  tables_ok f t → (i < length (insts f))%nat → ∃ g, rewrite_group m t i inst = Ok g ∧ group_of m inst g.
Proof.
  intros Ht Hi. unfold rewrite_group.
  destruct (lookup_lt_is_Some_2 (t_use_pts t) i) as [pts Hpts]; [rewrite (tab_length _ _ Ht); lia|].
  rewrite (proj2 (vec_get_Ok _ _ _) Hpts). cbn [res_bind].
  set (rmw := rmw_vreg t pts inst). set (unspills := sort_by pair_le _). set (sc := slot_colors _ _ _ _ _).
  destruct (rewrite_inst inst m sc) as [inst' movs] eqn:Er.
  destruct (map_res_ok (λ vc : N * N, let* s := slot_of t vc.1 in Ok (MkInst.inst_unspill (Reg vc.2) s))
    (λ _ x, i_op x = UNSPILL) unspills) as (loads & -> & Hloads).
  { intros vc Hvc. unfold unspills in Hvc. rewrite elem_of_sort_by, list_elem_of_filter in Hvc. destruct Hvc as [_ Hvc].
    destruct (tab_slots _ _ Ht i pts vc Hpts Hvc) as [s Hs]. unfold slot_of. rewrite Hs. by eexists. }
  cbn [res_bind]. set (rl := match rmw with Some _ => _ | None => _ end).
  assert (∃ l, rl = Ok l ∧ Forall (λ x, i_op x = UNSPILL) l) as (l & -> & Hl).
  { unfold rl, rmw, rmw_vreg. destruct (def_reg inst) as [d|]; [|by exists []].
    destruct (bool_decide (is_Some (t_spill_slot t !! d))) eqn:Hd; [|by exists []]. apply bool_decide_eq_true in Hd as [s Hs].
    destruct (bool_decide _); simpl; [|by exists []]. destruct (t_defs_at t !! (i, d)); [|by exists []].
    unfold slot_of. rewrite Hs. eexists. split; [done|]. by repeat constructor. }
  cbn [res_bind]. eexists. split; [done|]. eexists sc, (loads ++ l), _. rewrite Er, <- !app_assoc. split; [done|]. split_and!.
  - apply Forall_app. split; [|done]. by eapply Forall2_Forall_r; [done|]; apply Forall_true.
  - destruct (def_reg inst); [|done]. destruct (t_spill_slot t !! _); [|done]. destruct (t_defs_at t !! _); [|done].
    destruct (is_terminator _); by repeat constructor.
  - destruct (def_reg inst); [|simpl; lia]. destruct (t_spill_slot t !! _); [|simpl; lia]. destruct (t_defs_at t !! _); [|simpl; lia].
    destruct (is_terminator _); simpl; lia.
Qed.

Lemma lay_out_ok base groups :
  lay_out base groups = (mjoin groups, imap (λ i _, (base + length (mjoin (take i groups)))%nat) groups).
Proof.
  revert base. induction groups as [|g gs IH]; intros base; [done|]. cbn [lay_out]. rewrite IH. f_equal.
  rewrite imap_cons. f_equal; [simpl; lia|]. apply imap_ext. intros i x _. simpl. rewrite length_app. lia.
Qed.

Lemma no_spilled_builtins f m :
  (∀ v a, am_map m !! v = Some a → ∃ c, a = Phys c) → spilled_builtin_bindings f m = [].
Proof.
  intros Hm. unfold spilled_builtin_bindings. assert (filter (λ e : string * N, is_spilled m e.2 = true) (builtin_reg_map f) = []) as ->; [|done].
  induction (builtin_reg_map f) as [|[n v] l IH]; [done|]. rewrite filter_cons, decide_False; [done|]. unfold is_spilled. simpl.
  destruct (am_map m !! v) as [a|] eqn:E; [|done]. destruct (Hm v a E) as [c ->]. done.
Qed.

Lemma rewrite_run_ok f m :
  plans_fit f m → (∀ v a, am_map m !! v = Some a → ∃ c, a = Phys c) →
  ∃ f' groups, rewrite_run f m = Ok f' ∧ Forall2 (group_of m) (insts f) groups ∧
    f' = with_code f (mjoin groups)
           ((λ pos, match pos with
                    | Some old => if decide (old < length (insts f))%nat then Some (length (mjoin (take old groups))) else None
                    | None => None
                    end) <$> label_pos f).
Proof.
  intros Hfit Hm. unfold rewrite_run. destruct (build_tables_ok f m Hfit) as (t & -> & Ht). cbn [res_bind].
  rewrite (no_spilled_builtins f m Hm). cbn [fmap list_fmap length app].
  destruct (map_res_ok (λ ii : nat * Inst, rewrite_group m t ii.1 ii.2) (λ ii g, group_of m ii.2 g) (enumerate (insts f)))
    as (groups & -> & Hg).
  { intros [i inst] Hin%elem_of_enumerate. simpl. eapply rewrite_group_ok; [done|]. by eapply lookup_lt_Some. }
  cbn [res_bind]. rewrite lay_out_ok. eexists _, groups. split; [done|].
  assert (Forall2 (group_of m) (insts f) groups) as Hg'.
  { apply Forall2_same_length_lookup. pose proof (Forall2_length _ _ _ Hg) as Hl. rewrite length_enumerate in Hl.
    split; [done|]. intros i inst g Hi Hgi. eapply (Forall2_lookup_lr _ _ _ i (i, inst) g Hg); [|done]. by apply enumerate_lookup. }
  split; [done|]. f_equal. apply list_fmap_ext. intros k pos _. destruct pos as [old|]; [|done].
  rewrite list_lookup_imap. apply Forall2_length in Hg'. case_decide as H.
  - destruct (lookup_lt_is_Some_2 groups old) as [g ->]; [lia|]. done.
  - by rewrite lookup_ge_None_2 by lia.
Qed.

Lemma color_plans_fit f live m : live_shape f live → color f live = Ok m → insts f ≠ [] → plans_fit f m.
Proof.
  intros Hshape Hc Hne p Hp. destruct (color_inv f live m Hshape Hc Hne) as (st & g & colors & Hres).
  pose proof (fg_inv _ _ _ _ _ (cr_final _ _ _ _ _ _ Hres)) as Hinv.
  apply (cr_plans _ _ _ _ _ _ Hres) in Hp. destruct Hp as (Hv & _ & _ & Hup). rewrite Hup. apply Forall_forall. intros [i id] Hin. simpl.
  pose proof (si_uses _ _ Hinv (sp_vreg p)) as Hu. rewrite decide_True in Hu by done.
  apply (list_elem_of_fmap_2 fst) in Hin. rewrite Hu in Hin. unfold use_points in Hin.
  apply list_elem_of_fmap in Hin as ([j x] & E & [_ Hx%elem_of_enumerate]%list_elem_of_filter). simpl in E. subst j.
  by eapply lookup_lt_Some.
Qed.

Lemma color_no_spill f live m v a :
  live_shape f live → color f live = Ok m → insts f ≠ [] → am_map m !! v = Some a → ∃ c, a = Phys c.
Proof.
  intros Hshape Hc Hne Hv. destruct (color_inv f live m Hshape Hc Hne) as (st & g & colors & Hres).
  apply (map_lookup _ _ _ _ _ _ Hres) in Hv as (c & -> & _). eauto.
Qed.

(** ** Properties *)

(** A rewritten instruction reads, after the moves in front of it, exactly
    the values of the places of the operands of the original, in the same
    order, and defines the place of the original result: operands, call
    windows, spread and template words, brand and accessor registers alike. *)
Theorem rewrite_inst_reads {V : Type} (regs : N → V) m sc inst :
  renamable m sc inst →
  i_op (rewrite_inst inst m sc).1 = i_op inst ∧
  def_reg (rewrite_inst inst m sc).1 = place m sc <$> def_item inst ∧
  run_movs (rewrite_inst inst m sc).2 regs <$> use_regs (rewrite_inst inst m sc).1 =
    (λ it, regs (place m sc it)) <$> reads inst.
Proof. intros Hrn. split_and!; [done|by apply def_renamed|by apply reads_renamed]. Qed.

(** With a colouring of the function the rewriting succeeds: every
    instruction becomes a group of reloads, moves, the rewritten instruction
    and at most one store, in order, and every label moves to the start of the
    group of its instruction. *)
Theorem rewrite_layout f live m :
  live_shape f live → color f live = Ok m → insts f ≠ [] →
  ∃ f' groups, rewrite_run f m = Ok f' ∧ insts f' = mjoin groups ∧ Forall2 (group_of m) (insts f) groups ∧
    ∀ l q, label_target f' l = Some q ↔
      ∃ p, label_target f l = Some p ∧ (p < length (insts f))%nat ∧ q = length (mjoin (take p groups)).
Proof.
  intros Hshape Hc Hne.
  destruct (rewrite_run_ok f m) as (f' & groups & Hr & Hg & ->); [by eapply color_plans_fit|intros; by eapply color_no_spill|].
  eexists _, groups. split; [done|]. split; [done|]. split; [done|]. intros l q. unfold label_target. simpl.
  rewrite list_lookup_fmap. destruct (label_pos f !! N.to_nat l) as [[p|]|]; simpl; [|naive_solver..].
  case_decide; naive_solver.
Qed.

(** ** Witnesses *)

(** A call whose two arguments got the colours [2] and [1]: they are moved to
    the window at [252]. *)
Definition sample_call : Inst := MkInst.call (Reg 3) ONone (Reg 10) 2.
Definition sample_call_map : AllocMap :=
  mkAllocMap {[3 := Phys 3; 10 := Phys 2; 11 := Phys 1]} [] 4 252.

Example sample_call_rewritten :
  rewrite_inst sample_call sample_call_map ∅ =
  (MkInst.call (Reg 3) ONone (Reg 252) 2, [(252, 2); (253, 1)]).
Proof. vm_compute. reflexivity. Qed.

Lemma rewrite_layout_witness :
  ∃ f' groups, rewrite_run sample_sum sample_sum_map = Ok f' ∧ insts f' = mjoin groups ∧
    Forall2 (group_of sample_sum_map) (insts sample_sum) groups ∧
    ∀ l q, label_target f' l = Some q ↔
      ∃ p, label_target sample_sum l = Some p ∧ (p < length (insts sample_sum))%nat ∧ q = length (mjoin (take p groups)).
Proof.
  apply (rewrite_layout sample_sum sample_sum_live sample_sum_map);
    [exact sample_sum_shape | vm_compute; reflexivity | discriminate].
Defined.
