(* ===== verification/Reload.v ===== *)
(** * What an allocated instruction reads (crates/oxide_regalloc/src/rewrite.rs)

    The colouring gives every register of a function a physical register, or
    a spill slot and fresh registers at its definitions and uses; the
    rewriting turns an instruction into a group that reloads, moves, executes
    and stores.  The theorem of this file joins the two: the group reads the
    values that the places of the original operands hold, whatever was
    spilled, and leaves the result where later groups look for it. *)

From stdpp Require Import base tactics numbers list option gmap strings.
From Stdlib Require Import NArith ZArith Lia.
From S2P Require Import Prelude Opcode IR Contract Cfg Liveness Dce Interference Color Rewrite.
#[local] Set Warnings "-clear-no-such-hyp".

Open Scope N_scope.

(** ** Places and copies *)

(** The spill slot of a register. *)
Definition spill_slot_of (m : AllocMap) (r : N) : option N :=
  sp_slot <$> List.find (λ p, sp_vreg p =? r) (am_spills m).

Section copies.
Context {V : Type}.

(** One instruction in front of the rewritten one: a reload or a move. *)
Definition copy_step (slots regs : N → V) (x : Inst) : N → V :=
  match i_op x, i_rd x, i_a x with
  | UNSPILL, Reg d, _ => reg_set regs d (slots (ext_first x))
  | MOV, Reg d, Reg s => reg_set regs d (regs s)
  | _, _, _ => regs
  end.

Definition run_copies (slots : N → V) (l : list Inst) (regs : N → V) : N → V := fold_left (copy_step slots) l regs.

(** The value of an operand between two groups: in its spill slot, in its
    physical register, or in the fixed register. *)
Definition held (m : AllocMap) (slots regs : N → V) (it : operand_read) : V :=
  match it with
  | RFixed n => regs n
  | RVreg r => match spill_slot_of m r with Some s => slots s | None => regs (remap_ext_reg r ∅ m) end
  end.

(** Reloads as pairs of a register and a slot. *)
Definition run_loads (slots : N → V) (l : list (N * N)) (regs : N → V) : N → V :=
  fold_left (λ regs cs, reg_set regs cs.1 (slots cs.2)) l regs.

Lemma run_loads_other slots l regs r : r ∉ l.*1 → run_loads slots l regs r = regs r.
Proof.
  revert regs. induction l as [|[c s] l IH]; intros regs Hr; [done|]. rewrite fmap_cons, not_elem_of_cons in Hr. destruct Hr as [Hne Hr].
  change (run_loads slots l (reg_set regs c (slots s)) r = regs r). rewrite IH by done. unfold reg_set. by rewrite decide_False.
Qed.

Lemma run_loads_loaded slots l regs c s :
  (c, s) ∈ l → (∀ s', (c, s') ∈ l → s' = s) → run_loads slots l regs c = slots s.
Proof.
  revert regs. induction l as [|[c' s'] l IH]; intros regs Hin Hf; [by apply elem_of_nil in Hin|].
  change (run_loads slots l (reg_set regs c' (slots s')) c = slots s). destruct (decide (c ∈ l.*1)) as [Hl|Hl].
  - apply list_elem_of_fmap in Hl as ([c1 s1] & -> & H1). cbn [fst] in *.
    assert (s1 = s) as -> by (apply Hf; by right). apply IH; [done|]. intros s2 H2. apply Hf. by right.
  - rewrite run_loads_other by done. apply elem_of_cons in Hin as [[= -> ->]|Hin].
    + unfold reg_set. by rewrite decide_True.
    + destruct Hl. apply list_elem_of_fmap. by exists (c, s).
Qed.

Lemma run_copies_loads slots l regs :
  run_copies slots ((λ cs : N * N, MkInst.inst_unspill (Reg cs.1) cs.2) <$> l) regs = run_loads slots l regs.
Proof. revert regs. induction l as [|cs l IH]; intros regs; [done|]. apply IH. Qed.

Lemma run_copies_movs slots l regs :
  run_copies slots ((λ ds : N * N, MkInst.inst_mov (Reg ds.1) (Reg ds.2)) <$> l) regs = run_movs l regs.
Proof. revert regs. induction l as [|ds l IH]; intros regs; [done|]. apply IH. Qed.

Lemma run_copies_app slots l1 l2 regs : run_copies slots (l1 ++ l2) regs = run_copies slots l2 (run_copies slots l1 regs).
Proof. apply fold_left_app. Qed.
End copies.

(** ** The spill tables *)

Section tables.
Context (m : AllocMap).

(** Fresh register [id] of plan [p] stands at [i] in colour [c]. *)
Definition reloads (ps : list SpillPlan) (pts : SpillPlan → list (nat * N)) (i : nat) (v c : N) : Prop :=
  ∃ p id, p ∈ ps ∧ sp_vreg p = v ∧ (i, id) ∈ pts p ∧ am_map m !! id = Some (Phys c).

Lemma reloads_app ps p pts i v c :
  reloads (ps ++ [p]) pts i v c ↔ reloads ps pts i v c ∨ (sp_vreg p = v ∧ ∃ id, (i, id) ∈ pts p ∧ am_map m !! id = Some (Phys c)).
Proof.
  split.
  - intros (q & id & [Hq| ->%list_elem_of_singleton]%elem_of_app & Hv & Hid & Hc); [left; by exists q, id|right; eauto].
  - intros [(q & id & Hq & H)|(Hv & id & Hid & Hc)]; [exists q, id|exists p, id]; (split; [apply elem_of_app|]); [by left|done|right; by left|done].
Qed.

Record tables_hold (ps : list SpillPlan) (t : spill_tables) : Prop := {
  th_uses : ∀ i pts v c, t_use_pts t !! i = Some pts → (v, c) ∈ pts ↔ reloads ps sp_uses i v c;
  th_defs : ∀ i v c, t_defs_at t !! (i, v) = Some c → reloads ps sp_defs i v c;
  th_defined : ∀ i v c, reloads ps sp_defs i v c → is_Some (t_defs_at t !! (i, v));
  th_slots : ∀ v s, t_spill_slot t !! v = Some s → ∃ p, p ∈ ps ∧ sp_vreg p = v ∧ sp_slot p = s;
  th_slotted : ∀ p, p ∈ ps → is_Some (t_spill_slot t !! sp_vreg p);
}.

Lemma add_uses_hold v uses pts pts' :
  fold_res (add_use_point m v) uses pts = Ok pts' →
  ∀ i l', pts' !! i = Some l' → ∃ l, pts !! i = Some l ∧
    ∀ u c, (u, c) ∈ l' ↔ (u, c) ∈ l ∨ (v = u ∧ ∃ id, (i, id) ∈ uses ∧ am_map m !! id = Some (Phys c)).
Proof.
  revert pts. induction uses as [|[j id] uses IH]; intros pts E i l' Hl'; cbn [fold_res] in E.
  { injection E as ->. exists l'. split; [done|]. intros u c. split; [auto|]. intros [?|(_ & ? & ?%elem_of_nil & _)]; done. }
  unfold add_use_point at 1 in E. cbn [fst snd] in E. destruct (am_map m !! id) as [[c0|s]|] eqn:Eid; cbn [res_bind] in E.
  - destruct (pts !! j) as [lj|] eqn:Ej; [|by unfold vec_get in E; rewrite Ej in E].
    rewrite (proj2 (vec_get_Ok _ _ _) Ej) in E. cbn [res_bind] in E.
    rewrite vec_set_lt in E by (by eapply lookup_lt_Some). cbn [res_bind] in E.
    destruct (IH _ E i l' Hl') as (l & Hl & Hiff). destruct (decide (i = j)) as [->|Hne].
    + rewrite list_lookup_insert_eq in Hl by (by eapply lookup_lt_Some). injection Hl as <-. exists lj. split; [done|].
      intros u c. rewrite Hiff, elem_of_app, list_elem_of_singleton. setoid_rewrite elem_of_cons. split.
      * intros [[?|[= -> ->]]|(-> & id' & ? & ?)]; [by left|right; split; [done|]; exists id; auto|right; split; [done|]; exists id'; auto].
      * intros [?|(-> & id' & [[= ->]|?] & Hid)]; [auto| |right; eauto]. rewrite Eid in Hid. injection Hid as <-. auto.
    + rewrite list_lookup_insert_ne in Hl by done. exists l. split; [done|]. intros u c. rewrite Hiff. setoid_rewrite elem_of_cons. naive_solver.
  - destruct (IH _ E i l' Hl') as (l & Hl & Hiff). exists l. split; [done|]. intros u c. rewrite Hiff. setoid_rewrite elem_of_cons. naive_solver.
  - destruct (IH _ E i l' Hl') as (l & Hl & Hiff). exists l. split; [done|]. intros u c. rewrite Hiff. setoid_rewrite elem_of_cons. naive_solver.
Qed.

Lemma add_defs_hold v defs d :
  (∀ i u c, fold_left (add_def_point m v) defs d !! (i, u) = Some c →
    d !! (i, u) = Some c ∨ (v = u ∧ ∃ id, (i, id) ∈ defs ∧ am_map m !! id = Some (Phys c))) ∧
  (∀ i u, is_Some (d !! (i, u)) → is_Some (fold_left (add_def_point m v) defs d !! (i, u))) ∧
  (∀ i id c, (i, id) ∈ defs → am_map m !! id = Some (Phys c) → is_Some (fold_left (add_def_point m v) defs d !! (i, v))).
Proof.
  revert d. induction defs as [|[j id] defs IH]; intros d; cbn [fold_left].
  { split_and!; [auto|done|]. by intros i id c ?%elem_of_nil. }
  destruct (IH (add_def_point m v d (j, id))) as (H1 & H2 & H3).
  assert (∀ i u, is_Some (d !! (i, u)) → is_Some (add_def_point m v d (j, id) !! (i, u))) as Hmono.
  { intros i u Hu. unfold add_def_point. cbn [fst snd]. destruct (am_map m !! id) as [[c0|s]|]; [|done..]. apply lookup_insert_is_Some'. auto. }
  split_and!.
  - intros i u c Hc. destruct (H1 i u c Hc) as [Hd|(-> & id' & ? & ?)]; [|right; split; [done|]; exists id'; split; [by right|done]].
    unfold add_def_point in Hd. cbn [fst snd] in Hd. destruct (am_map m !! id) as [[c0|s]|] eqn:Eid; [|by left..].
    apply lookup_insert_Some in Hd as [[[= -> ->] ->]|[_ ?]]; [|by left]. right. split; [done|]. exists id. split; [by left|done].
  - intros i u Hu. apply H2, Hmono, Hu.
  - intros i id' c [[= -> ->]|Hin]%elem_of_cons Hid; [|by eapply H3]. apply H2. unfold add_def_point. cbn [fst snd]. rewrite Hid.
    apply lookup_insert_is_Some'. auto.
Qed.

Lemma add_plan_hold ps t p t' : add_plan m t p = Ok t' → tables_hold ps t → tables_hold (ps ++ [p]) t'.
Proof.
  intros E [H1 H2 H3 H4 H5]. unfold add_plan in E. destruct (fold_res _ (sp_uses p) (t_use_pts t)) as [uses| |] eqn:Eu; [|done..].
  cbn [res_bind] in E. injection E as <-. destruct (add_defs_hold (sp_vreg p) (sp_defs p) (t_defs_at t)) as (D1 & D2 & D3).
  constructor; cbn [t_use_pts t_defs_at t_spill_slot].
  - intros i pts v c Hpts. destruct (add_uses_hold _ _ _ _ Eu i pts Hpts) as (l & Hl & Hiff). by rewrite Hiff, (H1 i l v c Hl), reloads_app.
  - intros i v c [Hd|Hd]%D1; rewrite reloads_app; auto.
  - intros i v c [Hd|(<- & id & Hid & Hc)]%reloads_app; [apply D2; eauto|by eapply D3].
  - intros v s [[<- <-]|[_ Hs]]%lookup_insert_Some.
    + exists p. split_and!; [|done..]. apply elem_of_app. right. by left.
    + destruct (H4 v s Hs) as (q & Hq & ? & ?). exists q. split_and!; [|done..]. apply elem_of_app. by left.
  - intros q [Hq| ->%list_elem_of_singleton]%elem_of_app; apply lookup_insert_is_Some'; auto.
Qed.

Lemma build_tables_hold f t : build_tables f m = Ok t → tables_hold (am_spills m) t.
Proof.
  unfold build_tables. set (t0 := mkTables _ _ _). assert (tables_hold [] t0) as H0.
  { constructor; cbn [t0 t_use_pts t_defs_at t_spill_slot].
    - intros i pts v c [-> _]%lookup_replicate. split; [by intros ?%elem_of_nil|]. by intros (p & id & ?%elem_of_nil & _).
    - by intros i v c ?%lookup_empty_Some.
    - by intros i v c (p & id & ?%elem_of_nil & _).
    - by intros v s ?%lookup_empty_Some.
    - by intros p ?%elem_of_nil. }
  clearbody t0. rewrite <- (app_nil_l (am_spills m)) at 2. revert t0 H0. generalize (@nil SpillPlan).
  induction (am_spills m) as [|p ps IH]; intros done_ t0 H0 E; cbn [fold_res] in E; [injection E as <-; by rewrite app_nil_r|].
  destruct (add_plan m t0 p) as [t1| |] eqn:E1; [|done..]. cbn [res_bind] in E.
  replace (done_ ++ p :: ps) with ((done_ ++ [p]) ++ ps) by (by rewrite <- app_assoc). eapply IH; [|done]. by eapply add_plan_hold.
Qed.
End tables.

(** ** Fresh registers and their colours *)

(** The numbers of fresh registers do not reach [2^32]. *)
Definition numbers_left (f : IRFunction) : Prop :=
  max_real f + 1 + N.of_nat (2 * length (insts f) * length (graph_regs f)) < 2^32.

Definition pts_of (kind : FreshKind) : SpillPlan → list (nat * N) :=
  match kind with FDef => sp_defs | FUse => sp_uses end.

Lemma NoDup_fst_inj {A B} (l : list (A * B)) a b b' : NoDup l.*1 → (a, b) ∈ l → (a, b') ∈ l → b = b'.
Proof.
  intros Hnd [i Hi]%list_elem_of_lookup [j Hj]%list_elem_of_lookup.
  assert (i = j) as <-; [|congruence]. apply (NoDup_lookup l.*1 i j a); [done|..]; by rewrite list_lookup_fmap, ?Hi, ?Hj.
Qed.

Lemma NoDup_enumerate_filter {A} (l : list A) (P : nat * A → Prop) `{!∀ x, Decision (P x)} :
  NoDup (filter P (enumerate l)).*1.
Proof.
  assert (NoDup (enumerate l).*1) as Hnd.
  { apply NoDup_alt. intros i j x Hi Hj. rewrite list_lookup_fmap in Hi, Hj. apply fmap_Some in Hi as ([a b] & [? _]%enumerate_lookup & ->).
    apply fmap_Some in Hj as ([a' b'] & [? _]%enumerate_lookup & ?). simpl in *. congruence. }
  induction (enumerate l) as [|x xs IH]; [by apply NoDup_nil|]. rewrite fmap_cons, NoDup_cons in Hnd. destruct Hnd as [Hx Hnd].
  rewrite filter_cons. destruct (decide (P x)); [|by apply IH]. rewrite fmap_cons. constructor; [|by apply IH].
  intros (y & E & [_ Hy]%list_elem_of_filter)%list_elem_of_fmap. apply Hx. rewrite E. by apply list_elem_of_fmap_2.
Qed.

Lemma fold_insert_lookup (l : list (N * N)) (sc : gmap N N) v c :
  (∀ u d d', (u, d) ∈ l → (u, d') ∈ l → d = d') →
  fold_left (λ sc vc, <[vc.1 := vc.2]> sc) l sc !! v = Some c ↔ (v, c) ∈ l ∨ (v ∉ l.*1) ∧ sc !! v = Some c.
Proof.
  revert sc. induction l as [|[u d] l IH]; intros sc Hf; cbn [fold_left fst snd].
  { split; [intros; right; split; [by apply not_elem_of_nil|done]|by intros [?%elem_of_nil|[_ ?]]]. }
  rewrite IH by (intros; eapply Hf; right; done). rewrite fmap_cons, not_elem_of_cons, elem_of_cons. cbn [fst]. split.
  - intros [?|[Hn [[-> <-]|[Hne ?]]%lookup_insert_Some]]; auto.
  - intros [[[= -> ->]|?]|[[Hne Hn] ?]]; [|by left|right; by rewrite lookup_insert_ne].
    destruct (decide (u ∈ l.*1)) as [([u' d'] & -> & Hin)%list_elem_of_fmap|Hn].
    + left. cbn [fst] in *. by rewrite (Hf u' d d') by (by left || by right).
    + right. by rewrite lookup_insert_eq.
Qed.

Lemma map_res_fmap {A B} (h : A → res B) (k : A → B) (l : list A) : (∀ x, x ∈ l → h x = Ok (k x)) → map_res h l = Ok (k <$> l).
Proof.
  induction l as [|x l IH]; intros H; [done|]. cbn [map_res]. rewrite H by (by left). cbn [res_bind].
  rewrite IH by (intros; apply H; by right). done.
Qed.

Section allocation.
Context (f : IRFunction) (live : LiveInfo) (m : AllocMap) (st : color_state) (g : InterferenceGraph) (colors : gmap N N).
Context (Hshape : live_shape f live) (Hcolor : color f live = Ok m) (Hne : insts f ≠ []).
Context (Hres : color_result f live m st g colors) (Hroom : room f) (Hids : numbers_left f).
#[local] Abbreviation fin := (cr_final _ _ _ _ _ _ Hres).
#[local] Abbreviation inv := (fg_inv _ _ _ _ _ fin).
#[local] Abbreviation spec := (fg_spec _ _ _ _ _ fin).

Lemma fresh_count : (length (cs_fresh st) <= 2 * length (insts f) * length (graph_regs f))%nat.
Proof.
  pose proof (si_size _ _ inv) as Hsize. assert (length (cs_spill_set st) <= length (graph_regs f))%nat; [|nia].
  apply submseteq_length, NoDup_submseteq; [apply (si_nodup _ _ inv)|]. intros v Hv. by apply (si_regs _ _ inv).
Qed.

Lemma fresh_lookup k fr : cs_fresh st !! k = Some fr → fv_id fr = max_real f + 1 + N.of_nat k.
Proof.
  intros Hk. pose proof fresh_count as Hc. pose proof (lookup_lt_Some _ _ _ Hk) as Hlt. unfold numbers_left in Hids.
  destruct (si_ids _ _ inv) as [Hn _]. unfold numbered, fresh_ids in Hn.
  assert ((fv_id <$> cs_fresh st) !! k = Some (fv_id fr)) as E by (by rewrite list_lookup_fmap, Hk).
  rewrite Hn, list_lookup_fmap, lookup_seq_lt in E by done. injection E as <-. unfold fresh_number, u32. apply N.mod_small. simpl. lia.
Qed.

Lemma fresh_above fr : fr ∈ cs_fresh st → max_real f < fv_id fr.
Proof. intros [k Hk]%list_elem_of_lookup. rewrite (fresh_lookup k fr Hk). lia. Qed.

Lemma fresh_inj fr fr' : fr ∈ cs_fresh st → fr' ∈ cs_fresh st → fv_id fr = fv_id fr' → fr = fr'.
Proof.
  intros [k Hk]%list_elem_of_lookup [k' Hk']%list_elem_of_lookup. rewrite (fresh_lookup _ _ Hk), (fresh_lookup _ _ Hk'). intros E.
  assert (k = k') as <- by lia. congruence.
Qed.

Lemma fresh_not_reg fr : fr ∈ cs_fresh st → fv_id fr ∉ graph_regs f.
Proof. intros Hfr Hin%graph_reg_le; [|done]. pose proof (fresh_above fr Hfr). lia. Qed.

Lemma plan_unique p p' : p ∈ am_spills m → p' ∈ am_spills m → sp_vreg p = sp_vreg p' → p = p'.
Proof.
  intros (H1 & H2 & H3 & H4)%(cr_plans _ _ _ _ _ _ Hres) (H1' & H2' & H3' & H4')%(cr_plans _ _ _ _ _ _ Hres) E.
  destruct p, p'; simpl in *. subst. rewrite H2 in H2'. by injection H2' as ->.
Qed.

Lemma spill_slot_iff v s : spill_slot_of m v = Some s ↔ ∃ p, p ∈ am_spills m ∧ sp_vreg p = v ∧ sp_slot p = s.
Proof.
  unfold spill_slot_of. rewrite fmap_Some. split.
  - intros (p & [Hp%list_elem_of_In <-%N.eqb_eq]%List.find_some & ->). eauto.
  - intros (p & Hp & <- & <-). destruct (List.find _ _) as [q|] eqn:E.
    + apply List.find_some in E as [Hq%list_elem_of_In Eq%N.eqb_eq]. rewrite (plan_unique q p) by done. eauto.
    + eapply List.find_none in E; [|by apply list_elem_of_In]. simpl in E. by rewrite N.eqb_refl in E.
Qed.

Lemma spilled_iff v : is_Some (spill_slot_of m v) ↔ v ∈ cs_spill_set st.
Proof.
  split.
  - intros [s (p & Hp & <- & _)%spill_slot_iff]. by apply (cr_plans _ _ _ _ _ _ Hres).
  - intros Hv. destruct (si_slots _ _ inv v Hv) as [s Hs]. exists s. apply spill_slot_iff.
    exists (mkSpillPlan v s (fresh_points FDef v (cs_fresh st)) (fresh_points FUse v (cs_fresh st))). split; [|done].
    by apply (cr_plans _ _ _ _ _ _ Hres).
Qed.

Lemma mapped_node v c : am_map m !! v = Some (Phys c) → ∃ n, g_nodes g !! v = Some n ∧ colors !! v = Some c.
Proof.
  intros (? & [= <-] & Hc)%(map_lookup _ _ _ _ _ _ Hres). destruct (colored_node _ _ _ _ _ _ Hres v c Hc) as [n Hn]. eauto.
Qed.

Lemma spilled_unmapped v : v ∈ cs_spill_set st → am_map m !! v = None.
Proof.
  intros Hv. destruct (am_map m !! v) as [a|] eqn:E; [|done]. destruct (color_no_spill f live m v a) as [c ->]; [done..|].
  apply mapped_node in E as (n & Hn & _). destruct (proj1 (gs_nodes _ _ _ _ _ spec v)) as [[_ ?]|Hf]; [by eauto|done|].
  apply list_elem_of_fmap in Hf as (fr & -> & Hfr). destruct (fresh_not_reg fr Hfr). by apply (si_regs _ _ inv).
Qed.

Lemma reg_mapped v : v ∈ graph_regs f → v ∉ cs_spill_set st → ∃ c, am_map m !! v = Some (Phys c).
Proof.
  intros Hv Hs. destruct (node_colored _ _ _ _ _ _ Hres v) as [c Hc]; [apply (gs_nodes _ _ _ _ _ spec); auto|].
  exists c. apply (map_lookup _ _ _ _ _ _ Hres). eauto.
Qed.

Lemma zero_unmapped : am_map m !! 0 = None ∧ (0 ∉ cs_spill_set st).
Proof.
  assert (0 ∉ graph_regs f) as Hz by (intros H%graph_reg_nonzero; done). split.
  - destruct (am_map m !! 0) as [a|] eqn:E; [|done]. destruct (color_no_spill f live m 0 a) as [c ->]; [done..|].
    apply mapped_node in E as (n & Hn & _). destruct (proj1 (gs_nodes _ _ _ _ _ spec 0)) as [[? _]|Hf]; [by eauto|done|].
    apply list_elem_of_fmap in Hf as (fr & E & Hfr). pose proof (fresh_above fr Hfr). lia.
  - intros H. apply Hz. by apply (si_regs _ _ inv).
Qed.

Lemma color_below v c : am_map m !! v = Some (Phys c) → 1 <= c < arg_window_base f.
Proof.
  intros Hv. destruct (color_range f live m v (Phys c) Hshape Hcolor Hne Hv) as (_ & c' & [= <-] & _ & [Hf|(? & ? & _)]); [|lia].
  by apply (fixed_below f Hroom v).
Qed.

(** A fresh register differs in colour from everything that is needed where
    it stands. *)
Lemma fresh_apart fr y c :
  fr ∈ cs_fresh st → (fv_at fr < length (insts f))%nat → occupies live m (fv_at fr) y → y ≠ fv_id fr →
  am_map m !! fv_id fr = Some (Phys c) → am_map m !! y ≠ Some (Phys c).
Proof.
  intros Hfr Hlt Hy Hyne (nx & Hnx & Hcx)%mapped_node (ny & Hny & Hcy)%mapped_node.
  apply (sel_proper _ _ _ (fg_selected _ _ _ _ _ fin) (fv_id fr) y nx ny c); try done.
  - apply (gs_adj _ _ _ _ _ spec (fv_id fr) y nx); [done|by eauto|done|]. exists (fv_at fr). split; [done|]. left.
    split; [|by apply (occupies_present _ _ _ _ _ _ Hres)]. right. unfold fresh_at. apply list_elem_of_fmap. exists fr.
    split; [done|]. by apply list_elem_of_filter.
  - left. rewrite (gs_pre _ _ _ _ _ spec _ nx Hnx), decide_False; [done|]. intros [? _]. by eapply fresh_not_reg.
Qed.

Lemma fresh_occupies fr : fr ∈ cs_fresh st → occupies live m (fv_at fr) (fv_id fr).
Proof.
  intros Hfr. apply (occupies_present _ _ _ _ _ _ Hres). right. unfold fresh_at. apply list_elem_of_fmap. exists fr.
  split; [done|]. by apply list_elem_of_filter.
Qed.

(** *** The fresh registers of an instruction *)

(** [fr] reloads or defines the spilled register [v] at [i], in colour [c]. *)
Definition stands (kind : FreshKind) (i : nat) (v c : N) (fr : FreshVreg) : Prop :=
  fr ∈ cs_fresh st ∧ fv_at fr = i ∧ fv_owner fr = v ∧ fv_kind fr = kind ∧ am_map m !! fv_id fr = Some (Phys c).

Lemma reloads_stands kind i v c :
  reloads m (am_spills m) (pts_of kind) i v c ↔ v ∈ cs_spill_set st ∧ ∃ fr, stands kind i v c fr.
Proof.
  assert (∀ p, p ∈ am_spills m → pts_of kind p = fresh_points kind (sp_vreg p) (cs_fresh st)) as Hpts.
  { intros p (_ & _ & Hd & Hu)%(cr_plans _ _ _ _ _ _ Hres). by destruct kind. }
  split.
  - intros (p & id & Hp & <- & Hid & Hc). rewrite (Hpts p Hp), elem_of_fresh_points in Hid. destruct Hid as (fr & Hfr & Ha & <- & Ho & Hk).
    split; [by apply (cr_plans _ _ _ _ _ _ Hres)|]. by exists fr.
  - intros [[s (p & Hp & <- & _)%spill_slot_iff]%spilled_iff (fr & Hfr & Ha & Ho & Hk & Hc)]. exists p, (fv_id fr).
    split_and!; [done..| |done]. rewrite (Hpts p Hp), elem_of_fresh_points. by exists fr.
Qed.

Lemma points_NoDup v kind : NoDup (fresh_points kind v (cs_fresh st)).*1.
Proof.
  destruct kind; [rewrite (si_defs _ _ inv)|rewrite (si_uses _ _ inv)]; (destruct (decide _); [|by apply NoDup_nil]); apply NoDup_enumerate_filter.
Qed.

Lemma stands_unique kind i v c c' fr fr' : stands kind i v c fr → stands kind i v c' fr' → c = c'.
Proof.
  intros (Hfr & <- & <- & <- & Hc) (Hfr' & Ha' & Ho' & Hk' & Hc').
  assert (fv_id fr = fv_id fr') as E; [|rewrite E in Hc; congruence].
  apply (NoDup_fst_inj (fresh_points (fv_kind fr) (fv_owner fr) (cs_fresh st)) (fv_at fr)); [apply points_NoDup|..];
    apply elem_of_fresh_points; eauto 10.
Qed.

Lemma stands_exists kind i inst v :
  v ∈ cs_spill_set st → insts f !! i = Some inst → (match kind with FDef => def_reg inst = Some v | FUse => v ∈ use_regs inst end) →
  ∃ c fr, stands kind i v c fr.
Proof.
  intros Hv Hi Hk. assert (i ∈ (fresh_points kind v (cs_fresh st)).*1) as Hin.
  { destruct kind; [rewrite (si_defs _ _ inv)|rewrite (si_uses _ _ inv)]; rewrite decide_True by done; apply list_elem_of_fmap;
      exists (i, inst); (split; [done|]); apply list_elem_of_filter; (split; [done|]); by apply elem_of_enumerate. }
  apply list_elem_of_fmap in Hin as ([j id] & E & Hin). simpl in E. subst j. apply elem_of_fresh_points in Hin as (fr & Hfr & Ha & <- & Ho & Hkk).
  destruct (node_colored _ _ _ _ _ _ Hres (fv_id fr)) as [c Hc]; [apply (gs_nodes _ _ _ _ _ spec); right; apply list_elem_of_fmap; eauto|].
  exists c, fr. split_and!; [done..|]. apply (map_lookup _ _ _ _ _ _ Hres). eauto.
Qed.

(** Two fresh registers of one colour at one instruction are the same. *)
Lemma stands_color kind kind' i v v' c fr fr' :
  (i < length (insts f))%nat → stands kind i v c fr → stands kind' i v' c fr' → kind = kind' ∧ v = v'.
Proof.
  intros Hlt (Hfr & Ha & Ho & Hk & Hc) (Hfr' & Ha' & Ho' & Hk' & Hc'). destruct (decide (fv_id fr' = fv_id fr)) as [E|E].
  - assert (fr' = fr) as -> by (by apply fresh_inj). split; congruence.
  - exfalso. apply (fresh_apart fr (fv_id fr') c); try done; [by rewrite Ha|]. rewrite Ha, <- Ha'. by apply fresh_occupies.
Qed.

(** *** The group of an instruction *)

Context (Hlive : ∀ i inst r, insts f !! i = Some inst → r ∈ use_regs inst → live_before_at live i r).
Context (t : spill_tables) (Ht : build_tables f m = Ok t).
Context (i : nat) (inst : Inst) (Hi : insts f !! i = Some inst).
Context (pts : list (N * N)) (Hpts : t_use_pts t !! i = Some pts).
#[local] Abbreviation spilled := (λ v, v ∈ cs_spill_set st).
#[local] Abbreviation rmw := (rmw_vreg t pts inst).
#[local] Abbreviation unspills := (sort_by pair_le (filter (λ vc : N * N, rmw ≠ Some vc.1) pts)).
#[local] Abbreviation sc := (slot_colors t i inst rmw unspills).

(** The fresh register that stands for [v] in the rewritten instruction. *)
Definition kind_of (v : N) : FreshKind := if decide (def_reg inst = Some v) then FDef else FUse.

Lemma pts_stands v c : (v, c) ∈ pts ↔ spilled v ∧ ∃ fr, stands FUse i v c fr.
Proof. rewrite (th_uses _ _ _ (build_tables_hold m f t Ht) i pts v c Hpts). apply (reloads_stands FUse). Qed.

Lemma defs_stands v c : t_defs_at t !! (i, v) = Some c ↔ spilled v ∧ ∃ fr, stands FDef i v c fr.
Proof.
  pose proof (build_tables_hold m f t Ht) as Hh. rewrite <- (reloads_stands FDef). split; [apply (th_defs _ _ _ Hh)|].
  intros H. destruct (th_defined _ _ _ Hh _ _ _ H) as [c' Hc']. rewrite Hc'. f_equal.
  apply (th_defs _ _ _ Hh), (reloads_stands FDef) in Hc' as [_ [fr' Hfr']]. apply (reloads_stands FDef) in H as [_ [fr Hfr]].
  by eapply stands_unique.
Qed.

Lemma slot_stands v s : t_spill_slot t !! v = Some s ↔ spill_slot_of m v = Some s.
Proof.
  pose proof (build_tables_hold m f t Ht) as Hh. split.
  - intros (p & ? & ? & ?)%(th_slots _ _ _ Hh). apply spill_slot_iff. eauto.
  - intros (p & Hp & <- & <-)%spill_slot_iff. destruct (th_slotted _ _ _ Hh p Hp) as [s Hs]. rewrite Hs. f_equal.
    apply (th_slots _ _ _ Hh) in Hs as (q & Hq & Ev & <-). by rewrite (plan_unique q p).
Qed.

Lemma stands_point kind v c fr :
  stands kind i v c fr → match kind with FDef => def_reg inst = Some v | FUse => v ∈ use_regs inst end.
Proof.
  intros (Hfr & Ha & Ho & Hk & _).
  assert (i ∈ (fresh_points kind v (cs_fresh st)).*1) as Hin.
  { apply list_elem_of_fmap. exists (i, fv_id fr). split; [done|]. apply elem_of_fresh_points. eauto 10. }
  destruct kind; [rewrite (si_defs _ _ inv) in Hin|rewrite (si_uses _ _ inv) in Hin]; (destruct (decide _) in Hin; [|by apply elem_of_nil in Hin]);
    apply list_elem_of_fmap in Hin as ([j x] & E & [Hx Hj%elem_of_enumerate]%list_elem_of_filter); simpl in *; congruence.
Qed.

Lemma used_in_pts v : v ∈ pts.*1 ↔ spilled v ∧ v ∈ use_regs inst.
Proof.
  rewrite list_elem_of_fmap. split.
  - intros ([u c] & -> & [Hs [fr Hfr]]%pts_stands). split; [done|]. apply (stands_point FUse _ _ _ Hfr).
  - intros [Hs Hu]. destruct (stands_exists FUse i inst v Hs Hi Hu) as (c & fr & Hfr). exists (v, c). split; [done|]. apply pts_stands. eauto.
Qed.

Lemma rmw_spec v : rmw = Some v ↔ def_reg inst = Some v ∧ spilled v ∧ v ∈ use_regs inst.
Proof.
  unfold rmw_vreg. assert (∀ d, bool_decide (is_Some (t_spill_slot t !! d)) && bool_decide (d ∈ pts.*1) = true ↔ spilled d ∧ d ∈ use_regs inst) as Hb.
  { intros d. rewrite andb_true_iff, !bool_decide_eq_true, used_in_pts, <- spilled_iff. split; [tauto|]. intros [[s Hs] Hu]. split_and!; [|by exists s|done].
    exists s. by apply slot_stands. }
  destruct (def_reg inst) as [d|]; [|naive_solver]. destruct (_ && _) eqn:E.
  - apply Hb in E. naive_solver.
  - split; [done|]. intros ([= <-] & H%Hb). congruence.
Qed.

Lemma unspill_spec v c : (v, c) ∈ unspills ↔ spilled v ∧ def_reg inst ≠ Some v ∧ ∃ fr, stands FUse i v c fr.
Proof.
  rewrite elem_of_sort_by, list_elem_of_filter, pts_stands. cbn [fst]. rewrite rmw_spec. split.
  - intros (Hn & Hs & fr & Hfr). split_and!; [done| |by eauto]. intros Hd. apply Hn. split_and!; [done..|]. apply (stands_point FUse _ _ _ Hfr).
  - intros (Hs & Hd & H). split; [naive_solver|done].
Qed.

Lemma sc_spec v c : sc !! v = Some c ↔ spilled v ∧ ∃ fr, stands (kind_of v) i v c fr.
Proof.
  assert (∀ u d d', (u, d) ∈ unspills → (u, d') ∈ unspills → d = d') as Hf.
  { intros u d d' (_ & _ & fr & H)%unspill_spec (_ & _ & fr' & H')%unspill_spec. by eapply stands_unique. }
  assert (∀ c, (v, c) ∈ unspills ↔ def_reg inst ≠ Some v ∧ spilled v ∧ ∃ fr, stands (kind_of v) i v c fr) as Hu.
  { intros c'. rewrite unspill_spec. unfold kind_of. destruct (decide _); naive_solver. }
  assert (def_reg inst = Some v → v ∉ unspills.*1) as Hd.
  { intros Hd ([u c'] & -> & (_ & Hn & _)%unspill_spec)%list_elem_of_fmap. done. }
  assert (∀ c, def_reg inst = Some v → t_defs_at t !! (i, v) = Some c ↔ spilled v ∧ ∃ fr, stands (kind_of v) i v c fr) as Hdef.
  { intros c' E. rewrite defs_stands. unfold kind_of. by rewrite decide_True. }
  revert Hf Hu Hd. generalize unspills. intros U Hf Hu Hd. unfold slot_colors. destruct rmw as [d|] eqn:Er.
  - apply rmw_spec in Er as (Ed & Hs & _). rewrite fold_insert_lookup by done. destruct (decide (d = v)) as [->|Hdv].
    + specialize (Hd Ed). rewrite <- (Hdef c Ed). split.
      * intros [[? _]%Hu|[_ H]]; [done|]. destruct (t_defs_at t !! (i, v)); [by rewrite lookup_singleton_eq in H|done].
      * intros H. right. split; [done|]. rewrite H. by rewrite lookup_singleton_eq.
    + rewrite Hu. split; [intros [(_ & ? & ?)|[_ H]]; [done|]|intros [? ?]; left; split_and!; [congruence|done..]].
      destruct (t_defs_at t !! (i, d)); [by rewrite lookup_singleton_ne in H|done].
  - assert (fold_left (λ (sc0 : gmap N N) vc, <[vc.1:=vc.2]> sc0) U ∅ !! v = Some c ↔ (v, c) ∈ U) as Hfold.
    { rewrite fold_insert_lookup by done. split; [intros [?|[_ ?%lookup_empty_Some]]; done|auto]. }
    destruct (def_reg inst) as [d|] eqn:Ed.
    + destruct (decide (d = v)) as [->|Hdv].
      * rewrite <- (Hdef c eq_refl). destruct (t_defs_at t !! (i, v)) as [c'|] eqn:E; [by rewrite lookup_insert_eq|].
        rewrite Hfold. split; [|done]. intros [? _]%Hu. done.
      * assert (∀ sc', (match t_defs_at t !! (i, d) with Some c => <[d := c]> sc' | None => sc' end) !! v = (sc' : gmap N N) !! v) as ->.
        { intros sc'. destruct (t_defs_at t !! (i, d)); [by rewrite lookup_insert_ne|done]. }
        rewrite Hfold, Hu. split; [tauto|]. intros ?. split_and!; [congruence|tauto..].
    + rewrite Hfold, Hu. split; [tauto|]. intros ?. split_and!; [done|tauto..].
Qed.

Definition slot_num (v : N) : N := default 0 (spill_slot_of m v).

(** The reloads in front of the instruction. *)
Definition load_pairs : list (N * N) :=
  ((λ vc : N * N, (vc.2, slot_num vc.1)) <$> unspills) ++
  match rmw with
  | Some v => match t_defs_at t !! (i, v) with Some c => [(c, slot_num v)] | None => [] end
  | None => []
  end.

(** The store behind it. *)
Definition store_list : list Inst :=
  match def_reg inst with
  | Some d => match t_spill_slot t !! d, t_defs_at t !! (i, d) with
              | Some s, Some c => if is_terminator (i_op inst) then [] else [MkInst.inst_spill (Reg c) s]
              | _, _ => []
              end
  | None => []
  end.

Lemma spilled_slot v : spilled v → t_spill_slot t !! v = Some (slot_num v) ∧ spill_slot_of m v = Some (slot_num v).
Proof. intros [s Hs]%spilled_iff. unfold slot_num. rewrite Hs. split; [by apply slot_stands|done]. Qed.

Lemma load_pair_spec c s :
  (c, s) ∈ load_pairs ↔ ∃ v, spilled v ∧ v ∈ use_regs inst ∧ spill_slot_of m v = Some s ∧ ∃ fr, stands (kind_of v) i v c fr.
Proof.
  unfold load_pairs. rewrite elem_of_app, list_elem_of_fmap. split.
  - intros [([v c'] & [= -> ->] & (Hs & Hd & fr & Hfr)%unspill_spec)|Hr].
    + exists v. destruct (spilled_slot v Hs). split_and!; [done|apply (stands_point FUse _ _ _ Hfr)|done|]. exists fr. unfold kind_of. by rewrite decide_False.
    + destruct rmw as [v|] eqn:Er; [|by apply elem_of_nil in Hr]. apply rmw_spec in Er as (Hd & Hs & Hu).
      destruct (t_defs_at t !! (i, v)) as [c'|] eqn:Ec; [|by apply elem_of_nil in Hr]. apply list_elem_of_singleton in Hr as [= -> ->].
      apply defs_stands in Ec as [_ [fr Hfr]]. exists v. destruct (spilled_slot v Hs). split_and!; [done..|]. exists fr. unfold kind_of. by rewrite decide_True.
  - intros (v & Hs & Hu & Es & fr & Hfr). destruct (spilled_slot v Hs) as [_ Es']. rewrite Es in Es'. injection Es' as ->.
    unfold kind_of in Hfr. destruct (decide (def_reg inst = Some v)) as [Hd|Hd].
    + right. rewrite (proj2 (rmw_spec v)) by done. rewrite (proj2 (defs_stands v c)) by eauto. by left.
    + left. exists (v, c). split; [done|]. apply unspill_spec. eauto.
Qed.

Lemma group_eq :
  rewrite_group m t i inst =
    Ok (((λ cs : N * N, MkInst.inst_unspill (Reg cs.1) cs.2) <$> load_pairs) ++
        ((λ ds : N * N, MkInst.inst_mov (Reg ds.1) (Reg ds.2)) <$> (rewrite_inst inst m sc).2) ++
        (rewrite_inst inst m sc).1 :: store_list).
Proof.
  unfold rewrite_group. rewrite (proj2 (vec_get_Ok _ _ _) Hpts). cbn [res_bind]. destruct (rewrite_inst inst m sc) as [inst' movs].
  rewrite (map_res_fmap _ (λ vc : N * N, MkInst.inst_unspill (Reg vc.2) (slot_num vc.1))).
  2: { intros [v c] (Hs & _)%unspill_spec. cbn [fst snd]. unfold slot_of. by rewrite (proj1 (spilled_slot v Hs)). }
  cbn [res_bind].
  assert ((match rmw with
           | Some v => match t_defs_at t !! (i, v) with
                       | Some c => let* s := slot_of t v in Ok [MkInst.inst_unspill (Reg c) s]
                       | None => Ok []
                       end
           | None => Ok []
           end) = Ok ((λ cs : N * N, MkInst.inst_unspill (Reg cs.1) cs.2) <$>
             match rmw with
             | Some v => match t_defs_at t !! (i, v) with Some c => [(c, slot_num v)] | None => [] end
             | None => []
             end)) as ->.
  { destruct rmw as [v|] eqn:Er; [|done]. apply rmw_spec in Er as (_ & Hs & _). destruct (t_defs_at t !! (i, v)); [|done].
    unfold slot_of. by rewrite (proj1 (spilled_slot v Hs)). }
  cbn [res_bind fst snd]. unfold load_pairs. rewrite fmap_app, <- !app_assoc. do 2 f_equal. by rewrite <- list_fmap_compose.
Qed.

(** *** What the group reads *)

Context (Hform : emitted_form inst) (Hknown : ∀ r, RVreg r ∈ reads inst → r = 0 ∨ r ∈ graph_regs f).

Lemma place_cases r :
  RVreg r ∈ reads inst →
  r = 0 ∧ place m sc (RVreg r) = 0 ∧ spill_slot_of m r = None ∧ remap_ext_reg r ∅ m = 0 ∨
  (∃ c s fr, place m sc (RVreg r) = c ∧ spill_slot_of m r = Some s ∧ (c, s) ∈ load_pairs ∧ stands (kind_of r) i r c fr) ∨
  (∃ c, place m sc (RVreg r) = c ∧ spill_slot_of m r = None ∧ remap_ext_reg r ∅ m = c ∧ am_map m !! r = Some (Phys c) ∧ r ∈ graph_regs f).
Proof.
  intros Hr. pose proof (read_used inst r Hr) as Hu. cbn [place]. unfold remap_ext_reg. rewrite lookup_empty.
  destruct (decide (spilled r)) as [Hs|Hs].
  - right; left. destruct (stands_exists (kind_of r) i inst r Hs Hi) as (c & fr & Hfr).
    { unfold kind_of. by destruct (decide _). }
    exists c, (slot_num r), fr. rewrite (proj2 (sc_spec r c)) by eauto. destruct (spilled_slot r Hs). split_and!; [done..| |done]. apply load_pair_spec. eauto 10.
  - assert (sc !! r = None) as -> by (destruct (sc !! r) eqn:E; [|done]; apply sc_spec in E as [? _]; done).
    assert (spill_slot_of m r = None) as ->.
    { destruct (spill_slot_of m r) eqn:E; [|done]. destruct Hs. apply spilled_iff. by eexists. }
    destruct (Hknown r Hr) as [->|Hg]; [left; by rewrite (proj1 zero_unmapped)|].
    right; right. destruct (reg_mapped r Hg Hs) as [c Hc]. exists c. by rewrite Hc.
Qed.

Lemma stands_below kind v c fr : stands kind i v c fr → 1 <= c < arg_window_base f.
Proof. intros (_ & _ & _ & _ & H). by eapply color_below. Qed.

Lemma group_renamable : renamable m sc inst.
Proof.
  pose proof (room_args f Hroom) as Hargs. constructor; [done| | |]; rewrite ?(cr_window _ _ _ _ _ _ Hres).
  - unfold arg_window_base. lia.
  - intros Hc. assert (ext_first inst <= max_nargs f); [|unfold arg_window_base; lia].
    unfold max_nargs. assert (ext_first inst ∈ (ext_first <$> filter (λ x, is_window_call (i_op x) = true) (insts f))) as Hin.
    { apply list_elem_of_fmap_2, list_elem_of_filter. split; [done|]. by eapply list_elem_of_lookup_2. }
    induction (ext_first <$> _) as [|x l IH]; [by apply elem_of_nil in Hin|]. apply elem_of_cons in Hin as [->|Hin]; simpl; [lia|]. specialize (IH Hin). lia.
  - intros r Hr. change (remap_ext_reg r sc m) with (place m sc (RVreg r)). pose proof (window_gt_1 f Hroom).
    destruct (place_cases r Hr) as [(-> & -> & _)|[(c & s & fr & -> & _ & _ & Hfr)|(c & -> & _ & _ & Hc & _)]]; [lia| |].
    + pose proof (stands_below _ _ _ _ Hfr). lia.
    + pose proof (color_below r c Hc). lia.
Qed.

Lemma not_loaded r : (r = 0 ∨ arg_window_base f <= r) → r ∉ load_pairs.*1.
Proof.
  intros Hr ([c s] & -> & (v & _ & _ & _ & fr & Hfr)%load_pair_spec)%list_elem_of_fmap. pose proof (stands_below _ _ _ _ Hfr). cbn [fst] in *. lia.
Qed.

(** A fixed register that is read is [0], [254] or [255]. *)
Lemma fixed_reads n : RFixed n ∈ reads inst → n = 0 ∨ arg_window_base f <= n.
Proof.
  intros (s & Hit & Hs)%list_elem_of_bind. assert (arg_window_base f <= 254) by (unfold arg_window_base; lia).
  assert (∀ o, RFixed n ∈ option_list (operand_item o) → n = 0 ∨ arg_window_base f <= n) as Ho.
  { intros o Ho. destruct o; cbn in Ho; try (by apply elem_of_nil in Ho); apply list_elem_of_singleton in Ho; simplify_eq; auto; right; lia. }
  destruct s as [slot| |slot| | | |]; cbn [spec_reads] in Hit; try (by apply list_elem_of_fmap in Hit as (? & ? & _)).
  - by eapply Ho.
  - apply list_elem_of_singleton in Hit. simplify_eq. auto.
  - destruct (range_slot inst slot Hs) as [-> Hc]. destruct (ef_calls _ Hform Hc) as [H0|(fr & Hfr & _)].
    + rewrite H0 in Hit. destruct (operand_item _); [apply list_elem_of_fmap in Hit as (? & _ & Hx%elem_of_n_range); lia|by apply elem_of_nil in Hit].
    + destruct (call_first_slot inst fr Hfr) as [E _]. rewrite E in Hit. by apply list_elem_of_fmap in Hit as (? & ? & _).
Qed.

Lemma loaded_values {V} (slots regs : N → V) it :
  it ∈ reads inst → run_loads slots load_pairs regs (place m sc it) = held m slots regs it.
Proof.
  intros Hit. destruct it as [r|n].
  - destruct (place_cases r Hit) as [(-> & -> & Es & E0)|[(c & s & fr & -> & Es & Hin & Hfr)|(c & -> & Es & E & Hc & Hg)]]; cbn [held]; rewrite Es.
    + rewrite E0. apply run_loads_other, not_loaded. by left.
    + apply run_loads_loaded; [done|]. intros s' (v & _ & _ & Es' & fr' & Hfr')%load_pair_spec.
      destruct (stands_color (kind_of v) (kind_of r) i v r c fr' fr) as [_ ->]; [by eapply lookup_lt_Some|done..|]. congruence.
    + rewrite E. apply run_loads_other. intros ([c' s'] & -> & (v & _ & _ & _ & fr & Hfr)%load_pair_spec)%list_elem_of_fmap. cbn [fst] in *.
      destruct Hfr as (Hfr & Ha & _ & _ & Hc'). apply (fresh_apart fr r c'); [done| | | |done|done].
      * rewrite Ha. by eapply lookup_lt_Some.
      * left. rewrite Ha. eapply Hlive; [done|]. by apply read_used.
      * intros ->. by eapply fresh_not_reg.
  - cbn [place held]. by apply run_loads_other, not_loaded, fixed_reads.
Qed.

Lemma group_reads {V} (slots regs : N → V) :
  run_copies slots (((λ cs : N * N, MkInst.inst_unspill (Reg cs.1) cs.2) <$> load_pairs) ++
    ((λ ds : N * N, MkInst.inst_mov (Reg ds.1) (Reg ds.2)) <$> (rewrite_inst inst m sc).2)) regs
    <$> use_regs (rewrite_inst inst m sc).1 = held m slots regs <$> reads inst.
Proof.
  rewrite run_copies_app, run_copies_loads, run_copies_movs, reads_renamed by apply group_renamable.
  apply list_fmap_ext. intros k it Hit%list_elem_of_lookup_2. by apply loaded_values.
Qed.

Lemma group_defines :
  match def_item inst with
  | Some (RVreg d) =>
      match spill_slot_of m d with
      | Some s => ∃ c, def_reg (rewrite_inst inst m sc).1 = Some c ∧
          store_list = if is_terminator (i_op inst) then [] else [MkInst.inst_spill (Reg c) s]
      | None => def_reg (rewrite_inst inst m sc).1 = Some (remap_ext_reg d ∅ m) ∧ store_list = []
      end
  | Some (RFixed n) => def_reg (rewrite_inst inst m sc).1 = Some n
  | None => def_reg (rewrite_inst inst m sc).1 = None ∧ store_list = []
  end.
Proof.
  rewrite def_renamed by apply group_renamable. pose proof (def_item_reg inst) as Hd. unfold store_list.
  destruct (def_item inst) as [[d|n]|]; cbn [fmap option_fmap option_map item_reg place] in *; [|done|by rewrite <- Hd].
  rewrite <- Hd. destruct (spill_slot_of m d) as [s|] eqn:Es.
  - assert (spilled d) as Hs by (apply spilled_iff; by eexists). destruct (stands_exists FDef i inst d Hs Hi) as (c & fr & Hfr); [done|].
    exists c. rewrite (proj2 (slot_stands d s) Es), (proj2 (defs_stands d c)) by eauto. split; [|done]. f_equal. unfold remap_ext_reg.
    rewrite (proj2 (sc_spec d c)); [done|]. split; [done|]. exists fr. unfold kind_of. by rewrite decide_True.
  - assert (¬ spilled d) as Hs by (intros [? ?]%spilled_iff; congruence). unfold remap_ext_reg. rewrite lookup_empty.
    assert (sc !! d = None) as -> by (destruct (sc !! d) eqn:E; [|done]; apply sc_spec in E as [? _]; done). split; [done|].
    destruct (t_spill_slot t !! d) as [s'|] eqn:E; [|done]. apply slot_stands in E. congruence.
Qed.
End allocation.

(** ** Properties *)

(** The registers of template and brand words, which the collection of
    registers does not visit, occur elsewhere in the function. *)
Definition words_known (f : IRFunction) (inst : Inst) : Prop :=
  ∀ s r, s ∈ sem_uses (semantics (i_op inst)) → s = TemplateExprs ∨ s = BrandReg → r ∈ spec_regs inst s →
    r = 0 ∨ r ∈ graph_regs f.

Lemma real_known f inst r : room f → inst ∈ insts f → (r ≠ 0 → r ∈ real_of_inst inst) → r = 0 ∨ r ∈ graph_regs f.
Proof.
  intros Hroom Hin Hr. destruct (decide (r = 0)) as [?|Hz]; [by left|right]. rewrite (graph_regs_eq f Hroom), elem_of_app. left.
  apply elem_of_real. eauto.
Qed.

Lemma reads_known f inst r :
  room f → inst ∈ insts f → emitted_form inst → words_known f inst → RVreg r ∈ reads inst → r = 0 ∨ r ∈ graph_regs f.
Proof.
  intros Hroom Hin Hform Hwords (s & Hit & Hs)%list_elem_of_bind.
  pose proof (use_table_allowed (i_op inst)) as Ht. rewrite Forall_forall in Ht. specialize (Ht _ Hs).
  assert (∀ r', Reg r' ∈ [i_rd inst; i_a inst; i_b inst] → r' = 0 ∨ r' ∈ graph_regs f) as Hop.
  { intros r' Hr'. apply (real_known f inst); [done..|]. intros Hz. unfold real_of_inst. apply list_elem_of_filter. split; [done|].
    rewrite !elem_of_cons in Hr'. destruct Hr' as [<-|[<-|[<-|?%elem_of_nil]]]; [..|done]; cbn [operand_vregs]; set_solver. }
  assert (∀ slot, slot_operand slot inst = Reg r → r = 0 ∨ r ∈ graph_regs f) as Hslot.
  { intros slot E. apply Hop. destruct slot; cbn [slot_operand] in E; rewrite E; set_solver. }
  destruct s as [slot| |slot| | | |]; cbn [spec_reads] in Hit; try (apply list_elem_of_fmap in Hit as (r' & [= <-] & Hr)).
  - destruct (slot_operand slot inst) eqn:E; cbn in Hit; try (by apply elem_of_nil in Hit); apply list_elem_of_singleton in Hit; simplify_eq.
    by eapply Hslot.
  - by apply list_elem_of_singleton in Hit.
  - destruct (range_slot inst slot Hs) as [-> Hc]. destruct (ef_calls _ Hform Hc) as [H0|(fr & Hfr & Hwrap)].
    { rewrite H0 in Hit. destruct (operand_item _); [apply list_elem_of_fmap in Hit as (? & _ & Hx%elem_of_n_range); lia|by apply elem_of_nil in Hit]. }
    destruct (call_first_slot inst fr Hfr) as [E _]. rewrite E in Hit. apply list_elem_of_fmap in Hit as (k & [= ->] & Hk%elem_of_n_range).
    apply (real_known f inst); [done..|]. intros Hz. unfold real_of_inst. apply list_elem_of_filter. split; [done|]. rewrite Hfr.
    assert (u32 (fr + k) ∈ n_range fr (u32 (fr + ext_first inst))) as Hn; [|set_solver].
    apply elem_of_n_range. unfold u32. rewrite !N.mod_small by lia. lia.
  - apply (real_known f inst); [done..|]. intros Hz. unfold real_of_inst. apply list_elem_of_filter. split; [done|].
    unfold spec_regs in Hr. cbn [use_spec app] in Hr. destruct (i_op inst); try discriminate Ht; set_solver.
  - apply (Hwords TemplateExprs); auto.
  - apply (Hwords BrandReg); auto.
  - apply (real_known f inst); [done..|]. intros Hz. unfold real_of_inst. apply list_elem_of_filter. split; [done|].
    unfold spec_regs in Hr. cbn [use_spec app] in Hr. destruct (i_op inst); try discriminate Ht; set_solver.
Qed.

(** C8: With the colouring of a function, the group that an instruction is
    rewritten to reads, after its reloads and moves, exactly the values that
    the places of the original operands hold: the spill slot of a spilled
    register, the physical register of another one, and the fixed registers
    of [this], [new.target] and absent operands, in the same order, for plain
    operands, call windows, spread and template words, brand and accessor
    registers alike.  The result goes to the physical register of the original
    result, or to a fresh one that is stored in its spill slot right after.
    The function leaves room below its argument window ([room]) and its
    register numbers stay below [2^32]. *)
Theorem allocated_reads {V : Type} (slots regs : N → V) f g live m i inst :
  build_cfg f = Ok g → liveness f g = Ok live → color f live = Ok m → insts f !! i = Some inst →
  room f → numbers_left f → emitted_form inst → words_known f inst →
  ∃ t pre inst' post,
    build_tables f m = Ok t ∧ rewrite_group m t i inst = Ok (pre ++ inst' :: post) ∧ i_op inst' = i_op inst ∧
    run_copies slots pre regs <$> use_regs inst' = held m slots regs <$> reads inst ∧
    match def_item inst with
    | Some (RVreg d) =>
        match spill_slot_of m d with
        | Some s => ∃ c, def_reg inst' = Some c ∧ post = if is_terminator (i_op inst) then [] else [MkInst.inst_spill (Reg c) s]
        | None => def_reg inst' = Some (remap_ext_reg d ∅ m) ∧ post = []
        end
    | Some (RFixed n) => def_reg inst' = Some n
    | None => def_reg inst' = None ∧ post = []
    end.
Proof.
  intros Hg Hlv Hc Hi Hroom Hids Hform Hwords. apply lookup_lt_Some in Hi as Hlt.
  assert (insts f ≠ []) as Hne by (intros E; rewrite E in Hlt; simpl in Hlt; lia).
  apply build_cfg_inv in Hg as [?|[_ Hok]]; [done|]. destruct (liveness_spec f g Hok Hne) as (info & E & Hspec). rewrite Hlv in E. injection E as <-.
  pose proof (live_info_shape f g live Hspec) as Hshape. destruct (color_inv f live m Hshape Hc Hne) as (st & gr & colors & Hres).
  assert (∀ i inst r, insts f !! i = Some inst → r ∈ use_regs inst → live_before_at live i r) as Hlive.
  { intros j x r Hj Hr. apply (info_before _ _ _ Hspec); [by eapply lookup_lt_Some|]. by eapply at_use. }
  destruct (build_tables_ok f m (color_plans_fit f live m Hshape Hc Hne)) as (t & Ht & Htok).
  destruct (lookup_lt_is_Some_2 (t_use_pts t) i) as [pts Hpts]; [rewrite (tab_length _ _ Htok); lia|].
  assert (∀ r, RVreg r ∈ reads inst → r = 0 ∨ r ∈ graph_regs f) as Hknown.
  { intros r. apply reads_known; [done| |done..]. by eapply list_elem_of_lookup_2. }
  eexists t, _, _, _. split_and!; [done| | | |].
  - etransitivity; [by eapply group_eq|]. by rewrite app_assoc.
  - done.
  - by eapply group_reads.
  - by eapply group_defines.
Qed.

(** ** Witnesses *)

(** 248 parameters leave five registers: the locals [1] to [6] are spilled, and
    the parameter with the virtual number [254] has the colour [245]. *)
Definition sample_pressure : IRFunction :=
  mkIRFunction
    [MkInst.load_const (Reg 1) 0; MkInst.load_const (Reg 2) 1; MkInst.load_const (Reg 3) 2; MkInst.load_const (Reg 4) 3;
     MkInst.load_const (Reg 5) 4; MkInst.load_const (Reg 6) 5; MkInst.new ADD (Reg 1) (Reg 1) (Reg 6); MkInst.new ADD (Reg 1) (Reg 1) (Reg 2);
     MkInst.new ADD (Reg 1) (Reg 1) (Reg 3); MkInst.new ADD (Reg 1) (Reg 1) (Reg 4); MkInst.new ADD (Reg 1) (Reg 1) (Reg 5);
     MkInst.new ADD (Reg 1) (Reg 1) (Reg 254); MkInst.ret (Reg 1) 0 0 0]
    [] 0 [] (mkParamLayout 10 248) [] [] 0 [] 0
    false false false false false false false 0 None None 0 false true false [].

Definition sample_pressure_cfg : Cfg := match build_cfg sample_pressure with Ok g => g | _ => cfg_new end.
Definition sample_pressure_map : AllocMap :=
  match color sample_pressure (live_of sample_pressure) with Ok m => m | _ => alloc_map_new end.

Lemma sample_pressure_room : room sample_pressure.
Proof.
  constructor.
  - vm_compute. discriminate.
  - vm_compute. discriminate.
  - intros _. split; vm_compute; [discriminate|reflexivity].
  - vm_compute. constructor.
Qed.

(** [r1 + r254] reads the spill slot [0] and the register [245]. *)
Lemma allocated_reads_witness :
  ∃ t pre inst', build_tables sample_pressure sample_pressure_map = Ok t ∧
    rewrite_group sample_pressure_map t 11 (MkInst.new ADD (Reg 1) (Reg 1) (Reg 254)) = Ok (pre ++ [inst'; MkInst.inst_spill (Reg 250) 0]) ∧
    run_copies (λ s, 1000 + s) pre (λ r, r) <$> use_regs inst' = [1000; 245].
Proof.
  destruct (allocated_reads (λ s, 1000 + s) (λ r, r) sample_pressure sample_pressure_cfg (live_of sample_pressure) sample_pressure_map
    11 (MkInst.new ADD (Reg 1) (Reg 1) (Reg 254))) as (t & pre & inst' & post & Ht & Hg & Hop & Hr & Hd).
  - vm_compute. reflexivity.
  - vm_compute. reflexivity.
  - vm_compute. reflexivity.
  - reflexivity.
  - exact sample_pressure_room.
  - vm_compute. reflexivity.
  - constructor.
    + intros r Hr. rewrite !elem_of_cons in Hr. destruct Hr as [Hr|[Hr|[Hr|Hr%elem_of_nil]]]; [..|done]; injection Hr as ->; reflexivity.
    + constructor.
    + discriminate.
    + intros Hs. exfalso. change (ExtReg ∈ [SSlot Slot.A; SSlot Slot.B]) in Hs. rewrite !elem_of_cons in Hs.
      destruct Hs as [Hs|[Hs|Hs%elem_of_nil]]; [discriminate Hs..|done].
  - intros s r Hs Hcase _. exfalso. change (s ∈ [SSlot Slot.A; SSlot Slot.B]) in Hs. rewrite !elem_of_cons in Hs.
    destruct Hs as [->|[->|Hs%elem_of_nil]]; [destruct Hcase as [Hc|Hc]; discriminate Hc..|done].
  - exists t, pre, inst'. split; [exact Ht|]. assert (spill_slot_of sample_pressure_map 1 = Some 0) as Es by (vm_compute; reflexivity).
    change (def_item (MkInst.new ADD (Reg 1) (Reg 1) (Reg 254))) with (Some (RVreg 1)) in Hd. cbv iota in Hd. rewrite Es in Hd. destruct Hd as (c & Hd & Hp).
    assert (c = 250) as ->.
    { vm_compute in Ht. injection Ht as <-. vm_compute in Hg. destruct pre as [|x [|y pre]]; cbn [app] in Hg.
      - injection Hg as <- _. vm_compute in Hop. discriminate Hop.
      - injection Hg as _ <- _. vm_compute in Hd. injection Hd as <-. reflexivity.
      - vm_compute in Hp. subst post. destruct pre as [|z [|w pre]]; discriminate Hg. }
    split; [rewrite Hg, Hp; reflexivity|]. rewrite Hr. vm_compute. reflexivity.
Defined.
