(* ===== verification/RegAlloc.v ===== *)
(** * Register allocation and call windows (crates/oxide_regalloc/src/lib.rs, finish.rs, call_window.rs)

    [alloc] colours and rewrites a function, writes its metadata back, moves
    the references of nested functions to its slots, and allocates the nested
    functions; [encode_call_window] stores at every call how many registers
    are live after it. *)

From stdpp Require Import base tactics numbers list option gmap strings.
From Stdlib Require Import NArith ZArith Lia Sorting.Sorted.
From S2P Require Import Prelude Opcode IR Contract Cfg Liveness Dce Interference Color Rewrite.
#[local] Set Warnings "-clear-no-such-hyp".
#[local] Set Warnings "-register-all".

Open Scope N_scope.

(** ** Metadata *)

(** Replacing the register count, the builtin slots, the parameter segment and
    the name register of a function. *)
Definition with_registers (f : IRFunction) (nregs : N) (builtins : list (string * N)) (pl : ParamLayout)
    (name_reg : option N) : IRFunction :=
  mkIRFunction (insts f) (label_pos f) (label_count f) (constants f) pl builtins
    (upvalue_captures f) (cells_needed f) (cell_names f) nregs (is_arrow f)
    (is_class_constructor f) (is_derived_constructor f) (needs_home_object f)
    (is_generator f) (is_async f) (is_strict f) (captured_this_const_idx f)
    (function_name f) name_reg (function_length f) (has_simple_params f)
    (is_top_level f) (const_overflow f) (nested f).

Definition with_nested (f : IRFunction) (ns : list IRFunction) : IRFunction :=
  mkIRFunction (insts f) (label_pos f) (label_count f) (constants f) (param_layout f) (builtin_reg_map f)
    (upvalue_captures f) (cells_needed f) (cell_names f) (n_registers f) (is_arrow f)
    (is_class_constructor f) (is_derived_constructor f) (needs_home_object f)
    (is_generator f) (is_async f) (is_strict f) (captured_this_const_idx f)
    (function_name f) (function_name_reg f) (function_length f) (has_simple_params f)
    (is_top_level f) (const_overflow f) ns.

(** The new slot of a builtin; one that lost its register is dropped. *)
Definition finish_builtin (m : AllocMap) (spilled : list (string * N * N)) (e : string * N) : option (string * N) :=
  match am_map m !! e.2 with
  | Some (Phys p) => Some (e.1, p)
  | Some (Spill _) => (λ b : string * N * N, (e.1, b.1.2)) <$> List.find (λ b, String.eqb b.1.1 e.1) spilled
  | None => None
  end.

Definition finish_run (f : IRFunction) (m : AllocMap) : IRFunction :=
  let spilled := spilled_builtin_bindings f m in
  let pl := param_layout f in
  let base :=
    if 0 <? pl_count pl then match am_map m !! pl_base pl with Some (Phys b) => b | _ => pl_base pl end else 0 in
  let name_reg :=
    match function_name_reg f with
    | Some v => match am_map m !! v with Some (Phys p) => Some p | _ => None end
    | None => None
    end in
  with_registers f (am_phys_peak m) (omap (finish_builtin m spilled) (builtin_reg_map f))
    (mkParamLayout base (pl_count pl)) name_reg.

(** ** Slots of the enclosing function in nested functions *)

Definition remap_slot (m : AllocMap) (limit r : N) : N :=
  if r <? limit then match am_map m !! r with Some (Phys p) => p | _ => r end else r.

Definition remap_slot_operand (m : AllocMap) (limit : N) (o : Operand) : Operand :=
  match o with Reg r => Reg (remap_slot m limit r) | _ => o end.

Definition remap_slot_inst (m : AllocMap) (limit : N) (inst : Inst) : Inst :=
  match i_op inst with
  | LOAD_VAR => mkInst (i_op inst) (i_rd inst) (remap_slot_operand m limit (i_a inst)) (i_b inst) (i_ext inst)
  | STORE_VAR => mkInst (i_op inst) (remap_slot_operand m limit (i_rd inst)) (i_a inst) (i_b inst) (i_ext inst)
  | _ => inst
  end.

(** One function of [remap_nested_parent_slots_below], and the functions
    nested in it under the lower limit. *)
Fixpoint remap_below (m : AllocMap) (ancestor_limit : N) (child : IRFunction) : IRFunction :=
  let limit := N.min (pl_base (param_layout child)) ancestor_limit in
  let child' := with_code child (remap_slot_inst m limit <$> insts child) (label_pos child) in
  with_nested
    (with_registers child' (n_registers child) ((λ e, (e.1, remap_slot m limit e.2)) <$> builtin_reg_map child)
       (param_layout child) (function_name_reg child))
    (remap_below m limit <$> nested child).

Definition remap_nested_parent_slots (ns : list IRFunction) (m : AllocMap) : list IRFunction :=
  remap_below m (2^32 - 1) <$> ns.

(** ** Allocation *)

(** [f.insts.is_empty() && f.nested.is_empty()]. *)
Definition is_empty (f : IRFunction) : bool :=
  match insts f, nested f with [], [] => true | _, _ => false end.

(** The shape test of [alloc] and [encode_call_window]. *)
Definition live_fits (f : IRFunction) (live : LiveInfo) : bool :=
  bool_decide (length (inst_live_before live) = length (insts f) * li_words live)%nat
  && bool_decide (0 < li_words live)%nat && bool_decide (insts f ≠ []).

Definition refresh_live (f : IRFunction) (live : LiveInfo) : res LiveInfo :=
  if live_fits f live then Ok live else let* g := build_cfg f in liveness f g.

(** [alloc]; the nested functions were rewritten by [remap_nested_parent_slots]
    when they are allocated, so the recursion is on the depth of the tree. *)
Fixpoint alloc (depth : nat) (f : IRFunction) (live : LiveInfo) : res IRFunction :=
  match depth with
  | O => Panic
  | S depth =>
      if is_empty f then Ok f
      else
        let* live := refresh_live f live in
        let* m := color f live in
        let* f := rewrite_run f m in
        let f := finish_run f m in
        let* ns := map_res (λ c, let* g := build_cfg c in let* l := liveness c g in alloc depth c l)
                     (remap_nested_parent_slots (nested f) m) in
        Ok (with_nested f ns)
  end.

Fixpoint tree_depth (f : IRFunction) : nat := S (foldr Nat.max O (tree_depth <$> nested f)).

(** ** Call windows *)

(** One more than the highest register below 254 in a row. *)
Definition window_upper (row : list N) : N :=
  fold_left (λ upper r, if r <? 254 then r + 1 else upper) (row_regs row) 0.

Definition has_try (f : IRFunction) : bool :=
  existsb (λ i, match i_op i with TRY_BEGIN | TRY_FINALLY_BEGIN => true | _ => false end) (insts f).

Definition is_windowed (op : OpCode) : bool :=
  match op with CALL | NEW_EXPRESSION | SUPER_CALL => true | _ => false end.

Definition encode_window_inst (live : LiveInfo) (ii : nat * Inst) : res Inst :=
  let '(i, inst) := ii in
  if is_windowed (i_op inst) then
    let* after := row_slice live (inst_live_after live) i in
    let upper := window_upper after in
    if 0 <? upper then
      match i_ext inst with
      | [] => Panic
      | w :: ws => Ok (mkInst (i_op inst) (i_rd inst) (i_a inst) (i_b inst)
                         (N.lor (N.land w 0xFF) (u32 (N.shiftl upper 8)) :: ws))
      end
    else Ok inst
  else Ok inst.

Fixpoint encode_call_window (f : IRFunction) (live : LiveInfo) : res IRFunction :=
  if is_empty f then Ok f
  else
    let* live := refresh_live f live in
    let* is' :=
      if negb (has_try f) && negb (is_generator f) && negb (is_async f)
      then map_res (encode_window_inst live) (enumerate (insts f)) else Ok (insts f) in
    let* ns := map_res (λ c, let* g := build_cfg c in let* l := liveness c g in encode_call_window c l) (nested f) in
    Ok (with_nested (with_code f is' (label_pos f)) ns).

(** ** The call window is the live range *)

Lemma set_bits_sound fuel bits b : b ∈ set_bits fuel bits → N.testbit bits b = true.
Proof.
  revert bits. induction fuel as [|fuel IH]; intros bits; cbn [set_bits]; [by intros ?%elem_of_nil|].
  destruct bits as [|q]; [by intros ?%elem_of_nil|]. simpl (_ =? _). cbn [trailing_zeros].
  intros [->|Hb]%elem_of_cons; [apply testbit_ctz|]. apply IH in Hb. rewrite clear_lowest in Hb.
  by apply andb_true_iff in Hb as [? _].
Qed.

Lemma set_bits_sorted fuel bits : StronglySorted N.lt (set_bits fuel bits).
Proof.
  revert bits. induction fuel as [|fuel IH]; intros bits; cbn [set_bits]; [constructor|].
  destruct bits as [|q]; [constructor|]. simpl (_ =? _). cbn [trailing_zeros]. constructor; [apply IH|].
  apply Forall_forall. intros b Hb%set_bits_sound. rewrite clear_lowest in Hb. apply andb_true_iff in Hb as [H1 H2].
  apply negb_true_iff, N.eqb_neq in H2. destruct (N.lt_ge_cases b (ctz q)) as [H|H]; [|lia].
  rewrite ctz_lowest in H1 by done. done.
Qed.

Definition row_regs_from (w0 : nat) (row : list N) : list N :=
  mjoin (imap (λ w word, (λ b, 64 * N.of_nat (w0 + w) + b) <$> set_bits 64 word) row).

Lemma sorted_app (l1 l2 : list N) :
  StronglySorted N.lt l1 → StronglySorted N.lt l2 → (∀ x y, x ∈ l1 → y ∈ l2 → x < y) → StronglySorted N.lt (l1 ++ l2).
Proof.
  intros H1 H2 H. induction H1 as [|x l1 Hl IH Hx]; [done|]. simpl. constructor.
  - apply IH. intros a b Ha Hb. apply H; [by right|done].
  - apply Forall_app. split; [done|]. apply Forall_forall. intros y Hy. apply H; [by left|done].
Qed.

Lemma row_regs_sorted w0 row :
  Forall (λ w, w < 2^64) row →
  StronglySorted N.lt (row_regs_from w0 row) ∧ ∀ r, r ∈ row_regs_from w0 row → 64 * N.of_nat w0 <= r.
Proof.
  intros Hrow. revert w0. induction Hrow as [|word row Hw _ IH]; intros w0.
  { split; [constructor|by intros ? ?%elem_of_nil]. }
  assert (row_regs_from w0 (word :: row) =
    ((λ b, 64 * N.of_nat w0 + b) <$> set_bits 64 word) ++ row_regs_from (S w0) row) as ->.
  { unfold row_regs_from. rewrite imap_cons, mjoin_cons. f_equal; [by rewrite Nat.add_0_r|].
    f_equal. apply imap_ext. intros i x _. unfold compose. by rewrite Nat.add_succ_r. }
  destruct (IH (S w0)) as [IH1 IH2]. split.
  - apply sorted_app; [|done|].
    + induction (set_bits_sorted 64 word) as [|b l _ IHl Hb]; [constructor|]. rewrite fmap_cons. constructor; [done|].
      apply Forall_fmap. eapply Forall_impl; [done|]. intros c Hc. unfold compose. lia.
    + intros x y (b & -> & Hb)%list_elem_of_fmap Hy%IH2. apply set_bits_sound in Hb.
      assert (b < 64); [|lia]. destruct (N.lt_ge_cases b 64) as [?|Hge]; [done|]. by rewrite high_bits in Hb.
  - intros r [(b & -> & _)%list_elem_of_fmap|Hr%IH2]%elem_of_app; lia.
Qed.

Lemma window_fold l u :
  StronglySorted N.lt l → u <= 254 → (∀ r, r ∈ l → u <= r) →
  let up := fold_left (λ upper r, if r <? 254 then r + 1 else upper) l u in
  up <= 254 ∧ (∀ r, r ∈ l → r < 254 → r < up) ∧ (up = u ∨ up ≠ 0 ∧ up - 1 ∈ l) ∧ u <= up.
Proof.
  intros Hs. revert u. induction Hs as [|x l Hl IH Hx]; intros u Hu Hlow; simpl.
  { split_and!; [done|by intros ? ?%elem_of_nil|auto|lia]. }
  rewrite Forall_forall in Hx. destruct (x <? 254) eqn:E.
  - apply N.ltb_lt in E. destruct (IH (x + 1)) as (H1 & H2 & H3 & H4); [lia|intros r Hr; specialize (Hx r Hr); lia|].
    split_and!; [done| | |].
    + intros r [->|Hr]%elem_of_cons Hr254; [lia|auto].
    + right. destruct H3 as [->|[? ?]]; [split; [lia|]; replace (x + 1 - 1) with x by lia; by left|split; [done|by right]].
    + specialize (Hlow x ltac:(by left)). lia.
  - apply N.ltb_ge in E. destruct (IH u) as (H1 & H2 & H3 & H4); [done|intros r Hr; apply Hlow; by right|].
    split_and!; [done| | |done].
    + intros r [->|Hr]%elem_of_cons Hr254; [lia|auto].
    + destruct H3 as [?|[? ?]]; [by left|right; split; [done|by right]].
Qed.

Lemma window_upper_ok row :
  Forall (λ w, w < 2^64) row →
  window_upper row <= 254 ∧ (∀ r, bitset_get row r = true → r < 254 → r < window_upper row) ∧
  (window_upper row = 0 ∨ bitset_get row (window_upper row - 1) = true).
Proof.
  intros Hrow. destruct (row_regs_sorted 0 row Hrow) as [Hs _].
  change (row_regs_from 0 row) with (row_regs row) in Hs.
  destruct (window_fold (row_regs row) 0 Hs) as (H1 & H2 & H3 & _); [lia|intros; lia|]. fold (window_upper row) in *.
  split_and!; [done| |].
  - intros r Hr. apply H2. by apply elem_of_row_regs.
  - destruct H3 as [?|[_ ?]]; [by left|right]. by apply elem_of_row_regs.
Qed.

(** The high byte of the argument word. *)
Definition window_of (inst : Inst) : N := N.shiftr (ext_first inst) 8.

Lemma encode_window_inst_ok f live i inst :
  live_shape f live → insts f !! i = Some inst → i_ext inst ≠ [] → ext_first inst < 256 →
  ∃ inst', encode_window_inst live (i, inst) = Ok inst' ∧ i_op inst' = i_op inst ∧
    i_rd inst' = i_rd inst ∧ i_a inst' = i_a inst ∧ i_b inst' = i_b inst ∧ drop 1 (i_ext inst') = drop 1 (i_ext inst) ∧
    N.land (ext_first inst') 0xFF = ext_first inst ∧
    window_of inst' = if is_windowed (i_op inst) then window_upper (live_row live (inst_live_after live) i) else 0.
Proof.
  intros Hshape Hi He Hn. apply lookup_lt_Some in Hi as Hlt. unfold encode_window_inst, window_of, ext_first in *.
  destruct (i_ext inst) as [|w ws] eqn:Ee; [done|]. simpl in Hn.
  assert (N.land w 255 = w) as Hw by (rewrite land_byte; by apply N.mod_small).
  assert (N.shiftr w 8 = 0) as Hw0 by (rewrite N.shiftr_div_pow2; by apply N.div_small).
  destruct (is_windowed (i_op inst)); [|exists inst; rewrite Ee; simpl; done].
  rewrite (row_slice_ok f live) by (done || apply (shape_after _ _ Hshape)). cbn [res_bind].
  destruct (shape_wf _ _ Hshape i Hlt) as [_ [_ Hwf]]. destruct (window_upper_ok _ Hwf) as [Hup _].
  set (up := window_upper _) in *. destruct (0 <? up) eqn:E0.
  2: { exists inst. rewrite Ee. simpl. apply N.ltb_ge in E0. split_and!; try done. rewrite Hw0. lia. }
  eexists. split; [done|]. simpl. split_and!; try done.
  all: assert (u32 (N.shiftl up 8) = N.shiftl up 8) as -> by
    (unfold u32; apply N.mod_small; rewrite N.shiftl_mul_pow2; pow_literals; lia);
    rewrite Hw, N.lor_comm, lor_shiftl_add by done.
  - rewrite land_byte, N.add_comm. change (2^8) with 256. rewrite N.Div0.mod_add. by apply N.mod_small.
  - rewrite N.shiftr_div_pow2, N.div_add_l by done. rewrite N.div_small by done. lia.
Qed.

(** ** Trees of functions *)

(** [P] holds of a function and of all functions nested in it. *)
Inductive tree_all (P : IRFunction → Prop) : IRFunction → Prop :=
  | tree_all_intro f : P f → Forall (tree_all P) (nested f) → tree_all P f.

Lemma tree_all_inv P f : tree_all P f → P f ∧ Forall (tree_all P) (nested f).
Proof. by inversion 1. Qed.

(** Labels in range, and an argument word at every call. *)
Definition calls_have_args (is' : list Inst) : Prop :=
  Forall (λ i, is_windowed (i_op i) = true → i_ext i ≠ []) is'.

Definition well_formed (f : IRFunction) : Prop := labels_ok f ∧ calls_have_args (insts f).

Lemma live_total f :
  labels_ok f → ∃ g info, build_cfg f = Ok g ∧ liveness f g = Ok info ∧ (insts f ≠ [] → live_shape f info).
Proof.
  intros Hl. destruct (decide (insts f = [])) as [E|Hne].
  { eexists _, live_info_new. unfold build_cfg, liveness. rewrite E. split_and!; [done|done|by intros []]. }
  destruct (build_cfg_spec f Hne Hl) as (g & Hg & Hok). destruct (liveness_spec f g Hok Hne) as (info & Hi & Hs).
  exists g, info. split_and!; [done..|]. intros _. by eapply live_info_shape.
Qed.

Lemma live_fits_spec f live :
  live_fits f live = true ↔ length (inst_live_before live) = (length (insts f) * li_words live)%nat ∧
    (0 < li_words live)%nat ∧ insts f ≠ [].
Proof. unfold live_fits. rewrite !andb_true_iff, !bool_decide_eq_true. tauto. Qed.

Lemma refresh_live_ok f live :
  labels_ok f → (live_fits f live = true → live_shape f live) →
  ∃ live', refresh_live f live = Ok live' ∧ (insts f ≠ [] → live_shape f live').
Proof.
  intros Hl Hf. unfold refresh_live. destruct (live_fits f live); [eauto|].
  destruct (live_total f Hl) as (g & info & -> & Hi & Hs). cbn [res_bind]. eauto.
Qed.

(** ** Renaming slots keeps the shape of the tree *)

Lemma remap_below_nested m limit f :
  nested (remap_below m limit f) = remap_below m (N.min (pl_base (param_layout f)) limit) <$> nested f.
Proof. by destruct f. Qed.

Lemma remap_below_insts m limit f :
  insts (remap_below m limit f) = remap_slot_inst m (N.min (pl_base (param_layout f)) limit) <$> insts f ∧
  label_pos (remap_below m limit f) = label_pos f.
Proof. by destruct f. Qed.

Lemma remap_below_depth m limit f : tree_depth (remap_below m limit f) = tree_depth f.
Proof.
  revert limit. induction f as [f IH] using IRFunction_nested_ind. intros limit.
  assert (∀ g, tree_depth g = S (foldr Nat.max O (tree_depth <$> nested g))) as E by (by intros []).
  rewrite (E f), E, remap_below_nested, <- list_fmap_compose. do 2 f_equal.
  generalize (N.min (pl_base (param_layout f)) limit). intros lim.
  induction IH as [|g gs Hg _ IH']; [done|]. rewrite !fmap_cons, IH'. f_equal. apply Hg.
Qed.

Lemma remap_below_wf m limit f : well_formed f → well_formed (remap_below m limit f).
Proof.
  intros [Hl Hc]. destruct (remap_below_insts m limit f) as [Ei El]. split.
  - intros p Hp. rewrite El in Hp. rewrite Ei, length_fmap. by apply Hl.
  - unfold calls_have_args in *. rewrite Ei. apply Forall_fmap. eapply Forall_impl; [done|].
    intros i Hi. unfold compose, remap_slot_inst. destruct (i_op i); done.
Qed.

Lemma remap_below_tree m limit f : tree_all well_formed f → tree_all well_formed (remap_below m limit f).
Proof.
  revert limit. induction f as [f IH] using IRFunction_nested_ind. intros limit [Hw Hn]%tree_all_inv.
  constructor; [by apply remap_below_wf|]. rewrite remap_below_nested. apply Forall_fmap.
  rewrite Forall_forall in *. intros g Hg. apply IH; auto.
Qed.

(** ** Allocation is total *)

Lemma group_calls m inst g :
  group_of m inst g → (is_windowed (i_op inst) = true → i_ext inst ≠ []) → calls_have_args g.
Proof.
  intros (sc & loads & stores & -> & Hl & Hs & _) Hi. unfold calls_have_args.
  rewrite !Forall_app, Forall_cons. split_and!.
  - eapply Forall_impl; [done|]. simpl. by intros x ->.
  - apply Forall_fmap, Forall_true. done.
  - simpl. unfold rewrite_ext. intros Hw. specialize (Hi Hw). by destruct (i_op inst).
  - eapply Forall_impl; [done|]. simpl. by intros x ->.
Qed.

Lemma groups_calls m is' groups :
  Forall2 (group_of m) is' groups → calls_have_args is' → calls_have_args (mjoin groups).
Proof.
  induction 1 as [|i g is' gs Hg _ IH]; [done|]. intros [Hi His]%Forall_cons. rewrite mjoin_cons.
  apply Forall_app. split; [by eapply group_calls|by apply IH].
Qed.

Lemma rewrite_well_formed f m f' groups :
  well_formed f → Forall2 (group_of m) (insts f) groups →
  f' = with_code f (mjoin groups)
         ((λ pos, match pos with
                  | Some old => if decide (old < length (insts f))%nat then Some (length (mjoin (take old groups))) else None
                  | None => None
                  end) <$> label_pos f) →
  well_formed f' ∧ nested f' = nested f.
Proof.
  intros [_ Hc] Hg ->. split; [|done]. split; [|simpl; by eapply groups_calls].
  intros p Hp. simpl in *. apply list_elem_of_fmap in Hp as ([old|] & Hp & _); [|done]. case_decide; [|done]. injection Hp as ->.
  rewrite <- (take_drop old groups) at 2. rewrite join_app, length_app. lia.
Qed.

Lemma rewrite_alloc_ok f live m :
  well_formed f → (insts f ≠ [] → live_shape f live) → color f live = Ok m →
  ∃ f', rewrite_run f m = Ok f' ∧ well_formed f' ∧ nested f' = nested f.
Proof.
  intros Hwf Hs Hc. destruct (rewrite_run_ok f m) as (f' & groups & Hr & Hg & E).
  - destruct (decide (insts f = [])) as [E|Hne]; [|eapply color_plans_fit; [by apply Hs|done..]].
    unfold color in Hc. rewrite E in Hc. injection Hc as <-. by intros p ?%elem_of_nil.
  - destruct (decide (insts f = [])) as [E|Hne]; [|intros; eapply color_no_spill; [by apply Hs|done..]].
    unfold color in Hc. rewrite E in Hc. injection Hc as <-. simpl. intros v a. by rewrite lookup_empty.
  - exists f'. split; [done|]. by eapply rewrite_well_formed.
Qed.

Lemma color_cases f live :
  (insts f ≠ [] → live_shape f live) → (∃ m, color f live = Ok m) ∨ color f live = Err too_many_registers_msg.
Proof.
  intros Hs. unfold color. destruct (insts f) eqn:E; [left; by eexists|].
  destruct (color_run_cases f live) as [(m & _ & _ & _ & -> & _)| ->]; [by apply Hs|left; by eexists|by right].
Qed.

Lemma max_le_elem x l n : (foldr Nat.max O l <= n)%nat → x ∈ l → (x <= n)%nat.
Proof. induction l as [|y l IH]; simpl; [by intros _ ?%elem_of_nil|]. intros H [->|?]%elem_of_cons; [lia|]. apply IH; [lia|done]. Qed.

Lemma tree_depth_eq f : tree_depth f = S (foldr Nat.max O (tree_depth <$> nested f)).
Proof. by destruct f. Qed.

Lemma alloc_ok depth f live :
  (tree_depth f <= depth)%nat → tree_all well_formed f → (live_fits f live = true → live_shape f live) →
  (∃ f', alloc depth f live = Ok f' ∧ tree_all well_formed f') ∨ alloc depth f live = Err too_many_registers_msg.
Proof.
  revert f live. induction depth as [|depth IH]; intros f live Hd Ht Hlive; [rewrite tree_depth_eq in Hd; lia|].
  rewrite tree_depth_eq in Hd. destruct (tree_all_inv _ _ Ht) as [Hwf Hn].
  cbn [alloc]. destruct (is_empty f); [left; by eauto|].
  destruct (refresh_live_ok f live (proj1 Hwf) Hlive) as (live' & -> & Hs). cbn [res_bind].
  destruct (color_cases f live' Hs) as [[m Hm]| ->]; [|by right]. rewrite Hm. cbn [res_bind].
  destruct (rewrite_alloc_ok f live' m Hwf Hs Hm) as (f1 & -> & Hwf1 & En). cbn [res_bind].
  change (nested (finish_run f1 m)) with (nested f1). rewrite En.
  destruct (map_res_or (λ c, let* g := build_cfg c in let* l := liveness c g in alloc depth c l) (tree_all well_formed)
    too_many_registers_msg (remap_nested_parent_slots (nested f) m)) as [(ns & -> & Hns)| ->]; [| |by right].
  - intros c Hc. unfold remap_nested_parent_slots in Hc. apply list_elem_of_fmap in Hc as (c0 & -> & Hc0).
    rewrite Forall_forall in Hn. pose proof (remap_below_tree m (2^32 - 1) c0 (Hn c0 Hc0)) as Htc.
    destruct (live_total (remap_below m (2^32 - 1) c0)) as (g & info & -> & Hi & Hsh); [apply (tree_all_inv _ _ Htc)|].
    cbn [res_bind]. rewrite Hi. cbn [res_bind]. apply IH; [|done|by intros (_ & _ & ?)%live_fits_spec; apply Hsh].
    rewrite remap_below_depth. eapply max_le_elem; [|by apply list_elem_of_fmap_2]. lia.
  - cbn [res_bind]. left. eexists. split; [done|]. by constructor.
Qed.

(** ** The call window of a function *)

Lemma has_try_handlers f : has_try f = false → no_handlers f.
Proof.
  unfold has_try, no_handlers. intros H. apply Forall_forall. intros i Hi%list_elem_of_In.
  assert (¬ existsb (λ i, match i_op i with TRY_BEGIN | TRY_FINALLY_BEGIN => true | _ => false end) (insts f) = true) as Hn
    by congruence.
  rewrite existsb_exists in Hn. split; intros E; apply Hn; exists i; by rewrite E.
Qed.

Definition windows_encoded (f : IRFunction) : bool :=
  negb (has_try f) && negb (is_generator f) && negb (is_async f).

Lemma encode_call_window_eq f live :
  encode_call_window f live =
  if is_empty f then Ok f
  else
    let* live := refresh_live f live in
    let* is' := if windows_encoded f then map_res (encode_window_inst live) (enumerate (insts f)) else Ok (insts f) in
    let* ns := map_res (λ c, let* g := build_cfg c in let* l := liveness c g in encode_call_window c l) (nested f) in
    Ok (with_nested (with_code f is' (label_pos f)) ns).
Proof. by destruct f. Qed.

(** The code [encode_call_window] returns when it succeeds. *)
Lemma encode_call_window_insts f live f' :
  live_fits f live = true → encode_call_window f live = Ok f' →
  if windows_encoded f then Forall2 (λ ii x, encode_window_inst live ii = Ok x) (enumerate (insts f)) (insts f')
  else insts f' = insts f.
Proof.
  intros Hfit He. assert (is_empty f = false) as Hne.
  { apply live_fits_spec in Hfit as (_ & _ & Hne). unfold is_empty. by destruct (insts f). }
  rewrite encode_call_window_eq, Hne in He. unfold refresh_live in He. rewrite Hfit in He. cbn [res_bind] in He.
  destruct (windows_encoded f).
  - destruct (map_res _ (enumerate _)) as [l| |] eqn:E; [|done..]. cbn [res_bind] in He.
    destruct (map_res _ (nested f)); [|done..]. cbn [res_bind] in He. injection He as <-. by apply map_res_Forall2.
  - cbn [res_bind] in He. destruct (map_res _ (nested f)); [|done..]. cbn [res_bind] in He. by injection He as <-.
Qed.

(** ** Encoding call windows is total *)

Lemma encode_inst_total f live i inst :
  live_shape f live → insts f !! i = Some inst → (is_windowed (i_op inst) = true → i_ext inst ≠ []) →
  ∃ x, encode_window_inst live (i, inst) = Ok x ∧ i_op x = i_op inst ∧ (i_ext x = [] → i_ext inst = []).
Proof.
  intros Hs Hi He. apply lookup_lt_Some in Hi as Hlt. unfold encode_window_inst.
  destruct (is_windowed (i_op inst)); [|eauto].
  rewrite (row_slice_ok f live) by (done || apply (shape_after _ _ Hs)). cbn [res_bind].
  destruct (0 <? _); [|eauto]. destruct (i_ext inst) eqn:E; [by destruct He|]. eexists. split; [done|]. done.
Qed.

Lemma encode_call_window_ok f live :
  tree_all well_formed f → (live_fits f live = true → live_shape f live) →
  ∃ f', encode_call_window f live = Ok f' ∧ tree_all well_formed f'.
Proof.
  revert live. induction f as [f IH] using IRFunction_nested_ind. intros live Ht Hlive.
  destruct (tree_all_inv _ _ Ht) as [Hwf Hn]. rewrite encode_call_window_eq.
  destruct (is_empty f); [by eauto|].
  destruct (refresh_live_ok f live (proj1 Hwf) Hlive) as (live' & -> & Hs). cbn [res_bind].
  assert (∃ is', (if windows_encoded f then map_res (encode_window_inst live') (enumerate (insts f)) else Ok (insts f)) = Ok is' ∧
    length is' = length (insts f) ∧ calls_have_args is') as (is' & -> & Hl & Hc).
  { destruct (windows_encoded f); [|exists (insts f); split_and!; [done..|apply Hwf]].
    destruct (map_res_ok (encode_window_inst live') (λ ii x, i_op x = i_op ii.2 ∧ (i_ext x = [] → i_ext ii.2 = [])) (enumerate (insts f)))
      as (is' & -> & Hx).
    { intros [i inst] Hin%elem_of_enumerate. eapply encode_inst_total; [|done|].
      - apply Hs. intros E. by rewrite E in Hin.
      - pose proof (proj2 Hwf) as Hc. unfold calls_have_args in Hc. rewrite Forall_lookup in Hc. by eapply Hc. }
    exists is'. split; [done|]. pose proof (Forall2_length _ _ _ Hx) as Hl. rewrite length_enumerate in Hl. split; [done|].
    apply Forall_lookup. intros i x Hi. destruct (Forall2_lookup_r _ _ _ _ _ Hx Hi) as ([j inst] & Hj & Ho & He).
    apply enumerate_lookup in Hj as [_ Hj]. simpl in *. rewrite Ho. intros Hw E. pose proof (proj2 Hwf) as Hc.
    unfold calls_have_args in Hc. rewrite Forall_lookup in Hc. apply (Hc i inst Hj Hw). auto. }
  cbn [res_bind].
  destruct (map_res_ok (λ c, let* g := build_cfg c in let* l := liveness c g in encode_call_window c l)
    (λ _ c, tree_all well_formed c) (nested f)) as (ns & -> & Hns).
  { intros c Hin. rewrite Forall_forall in Hn, IH. destruct (live_total c) as (g & info & -> & Hi & Hsh); [apply (tree_all_inv _ _ (Hn c Hin))|].
    cbn [res_bind]. rewrite Hi. cbn [res_bind]. apply IH; [done|by apply Hn|]. by intros (_ & _ & ?)%live_fits_spec; apply Hsh. }
  cbn [res_bind]. eexists. split; [done|]. constructor; [|simpl; by eapply Forall2_Forall_r; [done|]; apply Forall_true].
  split; [|done]. intros p Hp. simpl in *. rewrite Hl. by apply Hwf.
Qed.

(** ** Properties *)

(** C24: Register allocation of a whole tree of functions ends and never indexes
    out of range: with labels in range and liveness that fits the function it
    returns a tree whose labels are in range again, or the error that some
    function uses too many registers. *)
Theorem alloc_total f live :
  tree_all well_formed f → (live_fits f live = true → live_shape f live) →
  (∃ f', alloc (tree_depth f) f live = Ok f' ∧ tree_all well_formed f') ∨
  alloc (tree_depth f) f live = Err too_many_registers_msg.
Proof. by apply alloc_ok. Qed.

(** C9: The upper bound written into the second byte of a call's argument word
    covers every register below 254 that may be read after the call along any
    control transfer, is at most 254, and leaves the argument count in the low
    byte. *)
Theorem encode_call_window_covers f g live f' i inst :
  build_cfg f = Ok g → liveness f g = Ok live → encode_call_window f live = Ok f' →
  windows_encoded f = true → insts f !! i = Some inst → is_windowed (i_op inst) = true →
  i_ext inst ≠ [] → ext_first inst < 256 →
  ∃ inst', insts f' !! i = Some inst' ∧ i_op inst' = i_op inst ∧ N.land (ext_first inst') 0xFF = ext_first inst ∧
    window_of inst' <= 254 ∧
    ∀ j r, flow f i j → flow_live f j r → r < 254 → r < window_of inst'.
Proof.
  intros Hg%build_cfg_inv Hl He Hw Hi Hcall Hext Hn.
  assert (insts f ≠ []) as Hne by (intros E; by rewrite E in Hi).
  destruct Hg as [?|[_ Hok]]; [done|]. destruct (liveness_spec f g Hok Hne) as (info & E & Hspec).
  rewrite Hl in E. injection E as <-. pose proof (live_info_shape _ _ _ Hspec) as Hshape.
  assert (live_fits f live = true) as Hfit.
  { apply live_fits_spec. split_and!; [apply Hshape|pose proof (shape_words _ _ Hshape); lia|done]. }
  pose proof (encode_call_window_insts f live f' Hfit He) as Hf. rewrite Hw in Hf.
  assert (enumerate (insts f) !! i = Some (i, inst)) as Hei by (by apply enumerate_lookup).
  destruct (Forall2_lookup_l _ _ _ _ _ Hf Hei) as (x & Hx & Hex).
  destruct (encode_window_inst_ok f live i inst Hshape Hi Hext Hn) as (inst' & E & Ho & _ & _ & _ & _ & Hlow & Hwin).
  rewrite E in Hex. injection Hex as <-. rewrite Hcall in Hwin. apply lookup_lt_Some in Hi as Hlt.
  destruct (shape_wf _ _ Hshape i Hlt) as [_ [_ Hwf]]. destruct (window_upper_ok _ Hwf) as (Hup & Hcov & _).
  exists inst'. rewrite Hwin. split_and!; [done..|]. intros j r Hflow Hlive. apply Hcov.
  assert (no_handlers f) as Hnh.
  { apply has_try_handlers. unfold windows_encoded in Hw. rewrite !andb_true_iff, !negb_true_iff in Hw. tauto. }
  apply (info_after _ _ _ Hspec i r Hlt). eapply flow_after; [done..|by eapply flow_live_lt|]. by apply flow_live_at.
Qed.

(** ** Witnesses *)

Lemma sample_sum_tree : tree_all well_formed sample_sum.
Proof.
  constructor; [|constructor]. split; [by intros p ?%elem_of_nil|]. repeat constructor; done.
Qed.

Lemma alloc_total_witness :
  (∃ f', alloc (tree_depth sample_sum) sample_sum sample_sum_live = Ok f' ∧ tree_all well_formed f') ∨
  alloc (tree_depth sample_sum) sample_sum sample_sum_live = Err too_many_registers_msg.
Proof. exact (alloc_total sample_sum sample_sum_live sample_sum_tree (λ _, sample_sum_shape)). Defined.

Example sample_sum_allocated :
  ∃ f', alloc (tree_depth sample_sum) sample_sum sample_sum_live = Ok f' ∧
    insts f' = [MkInst.load_const (Reg 2) 0; MkInst.load_const (Reg 1) 1;
                MkInst.new ADD (Reg 1) (Reg 2) (Reg 1); MkInst.ret (Reg 1) 0 0 0] ∧ n_registers f' = 3.
Proof. eexists. split; [vm_compute; reflexivity|]. split; vm_compute; reflexivity. Qed.

(** A call that keeps register [7] alive. *)
Definition sample_window : IRFunction :=
  with_code ir_new
    [MkInst.load_const (Reg 7) 0; MkInst.call (Reg 3) ONone (Reg 4) 1; MkInst.ret (Reg 7) 0 0 0] [].

Lemma encode_call_window_covers_witness :
  ∃ inst', insts (match encode_call_window sample_window (live_of sample_window) with Ok f' => f' | _ => ir_new end) !! 1%nat
      = Some inst' ∧
    i_op inst' = CALL ∧ N.land (ext_first inst') 0xFF = 1 ∧ window_of inst' <= 254 ∧
    ∀ j r, flow sample_window 1 j → flow_live sample_window j r → r < 254 → r < window_of inst'.
Proof.
  apply (encode_call_window_covers sample_window (match build_cfg sample_window with Ok g => g | _ => cfg_new end)
    (live_of sample_window) (match encode_call_window sample_window (live_of sample_window) with Ok f' => f' | _ => ir_new end)
    1 (MkInst.call (Reg 3) ONone (Reg 4) 1));
    [vm_compute; reflexivity.. | discriminate | apply N.ltb_lt; reflexivity].
Defined.
