(* ===== verification/Pipeline.v ===== *)
(** * The compiler's back end (crates/oxide_compiler/src/compiler.rs)

    [compile_ir] from the folded IR on: dead-code elimination, liveness, the
    precise round, register allocation, call windows, lowering and flattening,
    with the reuse of analyses between them. *)

From stdpp Require Import base tactics numbers list option gmap strings.
From Stdlib Require Import NArith ZArith Lia.
From S2P Require Import Prelude Opcode IR Contract Lower Flatten Cfg Liveness Dce Compact DceCorrect Interference Color Rewrite RegAlloc.
#[local] Set Warnings "-clear-no-such-hyp".

Open Scope N_scope.

(** ** The compiler's switches *)

Record Compiler := mkCompiler {
  enable_dce : bool;
  enable_regalloc : bool;
  repl_persist : bool;
  is_eval_script : bool;
  is_source_encoded : bool;
}.

Definition compiler_new : Compiler := mkCompiler true true false false false.
Definition with_dce (c : Compiler) (enable : bool) : Compiler :=
  mkCompiler enable (enable_regalloc c) (repl_persist c) (is_eval_script c) (is_source_encoded c).
Definition with_regalloc (c : Compiler) (enable : bool) : Compiler :=
  mkCompiler (enable_dce c) enable (repl_persist c) (is_eval_script c) (is_source_encoded c).

(** ** The passes after folding *)

(** The optimising half: liveness, the precise round, allocation, windows. *)
Definition allocate_ir (ir : IRFunction) (dce_cfg : option Cfg) : res IRFunction :=
  let* cfg := match dce_cfg with Some g => Ok g | None => build_cfg ir end in
  let* live := liveness ir cfg in
  let* (ir, live_reusable) := dce_precise ir live in
  let* live2 := if live_reusable : bool then Ok live else let* cfg2 := build_cfg ir in liveness ir cfg2 in
  let* ir := alloc (tree_depth ir) ir live2 in
  let* cfg3 := build_cfg ir in
  let* live3 := liveness ir cfg3 in
  encode_call_window ir live3.

(** [compile_ir] after [fold]. *)
Definition compile_folded (c : Compiler) (ir : IRFunction) : res CompiledModule :=
  let* (ir, dce_cfg) := if enable_dce c then dce ir else Ok (ir, None) in
  let* ir := if enable_regalloc c && negb (const_overflow ir) then allocate_ir ir dce_cfg else Ok ir in
  let* module := lower_owned ir in
  Ok (flatten_submodules module).

(** ** Every pass keeps functions well formed *)

Lemma compacted_well_formed f keep f' :
  compacted f keep f' → length keep = length (insts f) → well_formed f → well_formed f' ∧ nested f' = nested f.
Proof.
  intros Hc Hl [_ Hcalls]. split; [split; [by eapply compacted_labels|]|by rewrite (comp_rest _ _ _ Hc)].
  apply Forall_lookup. intros q i Hq. destruct (comp_back _ _ _ Hc q i Hq) as (p & _ & _ & Hp).
  unfold calls_have_args in Hcalls. rewrite Forall_lookup in Hcalls. by eapply Hcalls.
Qed.

(** A pass that changed only the code of the root keeps the tree. *)
Lemma tree_all_root f f' :
  tree_all well_formed f → well_formed f' → nested f' = nested f → tree_all well_formed f'.
Proof. intros [_ Hn]%tree_all_inv Hw E. constructor; [done|]. by rewrite E. Qed.

Lemma dce_tree f :
  tree_all well_formed f →
  ∃ f' og, dce f = Ok (f', og) ∧ tree_all well_formed f' ∧ (∀ g, og = Some g → build_cfg f' = Ok g).
Proof.
  intros Ht. destruct (tree_all_inv _ _ Ht) as [Hwf _]. destruct (decide (insts f = [])) as [E|Hne].
  { unfold dce. rewrite E. destruct (build_cfg f) as [g| |] eqn:Eg; [|unfold build_cfg in Eg; rewrite E in Eg; done..].
    eexists _, _. split; [done|]. split; [done|]. by intros ? [= <-]. }
  destruct (dce_ok f Hne (proj1 Hwf)) as (f' & og & Hd & Htr). exists f', og. split; [done|].
  destruct Htr as [g ka kb f' og Hok Hg _ _ Hlb _ _ Hcase]. destruct Hcase as [(-> & -> & _)|(-> & Hc & _)].
  - split; [done|]. by intros ? [= <-].
  - split; [|done]. destruct (compacted_well_formed _ _ _ Hc Hlb Hwf). by eapply tree_all_root.
Qed.

Lemma dce_precise_tree f g live :
  tree_all well_formed f → build_cfg f = Ok g → liveness f g = Ok live →
  ∃ f' reusable, dce_precise f live = Ok (f', reusable) ∧ tree_all well_formed f' ∧ (reusable = true → f' = f).
Proof.
  intros Ht Hg Hl. destruct (tree_all_inv _ _ Ht) as [Hwf _]. destruct (decide (insts f = [])) as [E|Hne].
  { unfold dce_precise. rewrite E. eauto 10. }
  apply build_cfg_inv in Hg as [?|[_ Hok]]; [done|].
  destruct (liveness_spec f g Hok Hne) as (info & E & Hspec). rewrite Hl in E. injection E as <-.
  destruct (dce_precise_ok f g live Hspec Hne) as (f' & b & keep & -> & Hlk & _ & Hcase). exists f', b. split; [done|].
  destruct b; destruct Hcase as [Hc _]; [by subst|]. split; [|done].
  destruct (compacted_well_formed _ _ _ Hc Hlk Hwf). by eapply tree_all_root.
Qed.

Lemma liveness_fits f g live :
  build_cfg f = Ok g → liveness f g = Ok live → live_fits f live = true → live_shape f live.
Proof. intros Hg Hl (_ & _ & Hne)%live_fits_spec. by eapply liveness_shape. Qed.

Lemma allocate_ir_ok ir og :
  tree_all well_formed ir → (∀ g, og = Some g → build_cfg ir = Ok g) →
  (∃ ir', allocate_ir ir og = Ok ir' ∧ tree_all well_formed ir') ∨ allocate_ir ir og = Err too_many_registers_msg.
Proof.
  intros Ht Hog. unfold allocate_ir. destruct (tree_all_inv _ _ Ht) as [[Hl _] _].
  destruct (live_total ir Hl) as (g & live & Hg & Hlive & _).
  assert (match og with Some g => Ok g | None => build_cfg ir end = Ok g) as ->.
  { destruct og as [g'|]; [|done]. by rewrite <- (Hog g' eq_refl). }
  cbn [res_bind]. rewrite Hlive. cbn [res_bind].
  destruct (dce_precise_tree ir g live Ht Hg Hlive) as (ir1 & b & -> & Ht1 & Hb). cbn [res_bind].
  destruct (tree_all_inv _ _ Ht1) as [[Hl1 _] _]. destruct (live_total ir1 Hl1) as (g1 & live1 & Hg1 & Hlive1 & _).
  assert (∃ live2, (if b then Ok live else let* cfg2 := build_cfg ir1 in liveness ir1 cfg2) = Ok live2 ∧
    (live_fits ir1 live2 = true → live_shape ir1 live2)) as (live2 & -> & Hfit).
  { destruct b.
    - rewrite (Hb eq_refl). exists live. split; [done|]. by eapply liveness_fits.
    - rewrite Hg1. cbn [res_bind]. exists live1. split; [done|]. by eapply liveness_fits. }
  cbn [res_bind].
  destruct (alloc_ok (tree_depth ir1) ir1 live2 (le_n _) Ht1 Hfit) as [(ir2 & -> & Ht2)| ->]; [|by right]. cbn [res_bind].
  destruct (tree_all_inv _ _ Ht2) as [[Hl2 _] _]. destruct (live_total ir2 Hl2) as (g3 & live3 & Hg3 & Hlive3 & _).
  rewrite Hg3. cbn [res_bind]. rewrite Hlive3. cbn [res_bind]. left.
  apply encode_call_window_ok; [done|]. by eapply liveness_fits.
Qed.

(** The passes before lowering. *)
Definition optimise_ir (c : Compiler) (ir : IRFunction) : res IRFunction :=
  let* (ir, dce_cfg) := if enable_dce c then dce ir else Ok (ir, None) in
  if enable_regalloc c && negb (const_overflow ir) then allocate_ir ir dce_cfg else Ok ir.

Lemma compile_folded_eq c ir :
  compile_folded c ir = let* ir := optimise_ir c ir in let* module := lower_owned ir in Ok (flatten_submodules module).
Proof.
  unfold compile_folded, optimise_ir. destruct (if enable_dce c then dce ir else Ok (ir, None)) as [[ir1 og]| |]; done.
Qed.

Lemma optimise_ir_ok c ir :
  tree_all well_formed ir →
  (∃ ir', optimise_ir c ir = Ok ir' ∧ tree_all well_formed ir') ∨ optimise_ir c ir = Err too_many_registers_msg.
Proof.
  intros Ht. unfold optimise_ir.
  assert (∃ ir1 og, (if enable_dce c then dce ir else Ok (ir, None)) = Ok (ir1, og) ∧ tree_all well_formed ir1 ∧
    ∀ g, og = Some g → build_cfg ir1 = Ok g) as (ir1 & og & -> & Ht1 & Hog).
  { destruct (enable_dce c); [by apply dce_tree|]. by exists ir, None. }
  cbn [res_bind]. destruct (_ && _); [by apply allocate_ir_ok|left; eauto].
Qed.

Lemma optimise_ir_err c ir e : tree_all well_formed ir → optimise_ir c ir = Err e → enable_regalloc c = true.
Proof.
  intros Ht E. unfold optimise_ir in E.
  assert (∃ r, (if enable_dce c then dce ir else Ok (ir, None)) = Ok r) as [[ir1 og] E1].
  { destruct (enable_dce c); [|by eexists]. destruct (dce_tree ir Ht) as (f' & og & -> & _). by eexists. }
  rewrite E1 in E. cbn [res_bind] in E. by destruct (enable_regalloc c).
Qed.

(** ** Properties *)

(** The back end never panics on well-formed IR: the graph, liveness, dead
    code, colouring, rewriting, window and lowering passes hand each other
    functions whose labels and analyses fit, in every setting of the
    compiler's switches. *)
Theorem compile_never_panics c ir : tree_all well_formed ir → compile_folded c ir ≠ Panic.
Proof.
  intros Ht. rewrite compile_folded_eq. destruct (optimise_ir_ok c ir Ht) as [(ir' & -> & _)| ->]; [|done]. cbn [res_bind].
  destruct (lower_owned ir') as [m|e|] eqn:E; [done..|]. by destruct (proj1 (lower_owned_outcome ir') E).
Qed.

(** C23: Compilation from well-formed folded IR has three outcomes.  The
    optimised tree is lowerable and the result is the flattened module of it;
    or the optimised tree is not lowerable and the error is the message of the
    first limit it exceeds, the register limit of lowering included; or the
    register allocation fails, with the register error, which is then the error
    of the compilation. *)
Theorem compile_outcome c ir :
  tree_all well_formed ir →
  (∃ ir' module, optimise_ir c ir = Ok ir' ∧ lowerable ir' ∧ lower_owned ir' = Ok module ∧
     compile_folded c ir = Ok (flatten_submodules module)) ∨
  (∃ ir' e, optimise_ir c ir = Ok ir' ∧ ¬ lowerable ir' ∧ lower_fault ir' e ∧ compile_folded c ir = Err e) ∨
  (enable_regalloc c = true ∧ optimise_ir c ir = Err too_many_registers_msg ∧
     compile_folded c ir = Err too_many_registers_msg).
Proof.
  intros Ht. rewrite compile_folded_eq. destruct (optimise_ir_ok c ir Ht) as [(ir' & -> & _)|E].
  - cbn [res_bind]. destruct (lower_owned_outcome ir') as [Hp Hiff].
    destruct (lower_owned ir') as [m|e|] eqn:E; cbn [res_bind]; [| |done].
    + left. exists ir', m. split_and!; [done| |done..]. apply Hiff. by eexists.
    + right; left. exists ir', e. split_and!; [done| |by apply lower_owned_fault|done]. intros [m Hm]%Hiff. done.
  - right; right. split_and!; [by eapply optimise_ir_err|done|by rewrite E].
Qed.

(** ** Witnesses *)

Lemma compile_never_panics_witness : compile_folded compiler_new sample_sum ≠ Panic.
Proof. exact (compile_never_panics compiler_new sample_sum sample_sum_tree). Defined.

(** One constant in register [300]: with the allocation it moves to a byte,
    without it lowering refuses the function. *)
Definition sample_high : IRFunction :=
  with_code ir_new [MkInst.load_const (Reg 300) 0; MkInst.ret (Reg 300) 0 0 0] [].

Lemma sample_high_tree : tree_all well_formed sample_high.
Proof. constructor; [|constructor]. split; [by intros p ?%elem_of_nil|]. repeat constructor; done. Qed.

Lemma compile_outcome_witness :
  optimise_ir (with_regalloc compiler_new false) sample_high = Ok sample_high ∧
  lower_fault sample_high too_many_registers ∧
  compile_folded (with_regalloc compiler_new false) sample_high = Err too_many_registers ∧
  is_ok (compile_folded compiler_new sample_high).
Proof.
  assert (optimise_ir (with_regalloc compiler_new false) sample_high = Ok sample_high) as E by (vm_compute; reflexivity).
  assert (compile_folded (with_regalloc compiler_new false) sample_high = Err too_many_registers) as E' by (vm_compute; reflexivity).
  assert (is_ok (compile_folded compiler_new sample_high)) as Hok by (vm_compute; eexists; reflexivity).
  split; [exact E|]. split; [|split; [exact E'|exact Hok]].
  destruct (compile_outcome (with_regalloc compiler_new false) sample_high sample_high_tree)
    as [(ir' & m & _ & _ & _ & H)|[(ir' & e & H1 & _ & H2 & H3)|(H & _)]].
  - rewrite E' in H. discriminate H.
  - rewrite E in H1. injection H1 as <-. rewrite E' in H3. injection H3 as <-. exact H2.
  - discriminate H.
Defined.
