(* ===== verification/CodeCache.v ===== *)
(** * The cache of compiled modules (crates/oxide_code_cache/src/lib.rs)

    [CodeForge] keeps compiled modules under the hash of their source in a
    least-recently-used cache of bounded size, behind a lock.  The cache itself
    is the [lru] package: the class [LruOps] has the operations the code calls
    and [LruLaws] their documented behaviour, in terms of the list of entries
    from the most to the least recently used.  A call of [get_or_insert_with]
    takes the lock twice and compiles in between, so the theorem on it is about
    every interleaving of such calls. *)

From stdpp Require Import base tactics numbers list option relations.
From Stdlib Require Import NArith ZArith Lia.
From S2P Require Import Prelude Opcode IR Contract Lower.
#[local] Set Warnings "-clear-no-such-hyp".

Open Scope nat_scope.

(** ** The interface to the cache package *)

Section entries.
Context {V : Type}.
Implicit Types (l : list (N * V)) (k : N).

Fixpoint assoc k l : option V :=
  match l with
  | [] => None
  | (k', v) :: l => if decide (k = k') then Some v else assoc k l
  end.

Definition delete_key k l : list (N * V) := filter (λ e, e.1 ≠ k) l.

(** Moving an entry to the front. *)
Definition touch k l : list (N * V) :=
  match assoc k l with Some v => (k, v) :: delete_key k l | None => l end.

(** Adding an entry at the front of a list of at most [cap] entries. *)
Definition push_front (cap : nat) k (v : V) l : list (N * V) := take cap ((k, v) :: delete_key k l).
End entries.

Class LruOps (V : Type) := {
  lru : Type;
  lru_new : nat → lru;
  lru_get : N → lru → option V * lru;
  lru_put : N → V → lru → lru;
  lru_contains : N → lru → bool;
  lru_len : lru → nat;
  lru_cap : lru → nat;
  lru_peek_lru : lru → option (N * V);
  lru_clear : lru → lru;
  lru_entries : lru → list (N * V);
}.
Arguments lru V {_}.

Class LruLaws (V : Type) `{!LruOps V} := {
  lru_new_ok n : lru_entries (lru_new n) = [] ∧ lru_cap (lru_new n) = n;
  lru_get_ok k c : (lru_get k c).1 = assoc k (lru_entries c) ∧
    lru_entries (lru_get k c).2 = touch k (lru_entries c) ∧ lru_cap (lru_get k c).2 = lru_cap c;
  lru_put_ok k v c : lru_entries (lru_put k v c) = push_front (lru_cap c) k v (lru_entries c) ∧
    lru_cap (lru_put k v c) = lru_cap c;
  lru_contains_ok k c : lru_contains k c = bool_decide (k ∈ (lru_entries c).*1);
  lru_len_ok c : lru_len c = length (lru_entries c);
  lru_peek_ok c : lru_peek_lru c = last (lru_entries c);
  lru_clear_ok c : lru_entries (lru_clear c) = [] ∧ lru_cap (lru_clear c) = lru_cap c;
}.

(** ** The operations *)

Module CodeForge.
Section operations.
Context `{!LruOps CompiledModule}.

Record t := mkForge { map : lru CompiledModule }.

Definition new (capacity : nat) : t := mkForge (lru_new capacity).

Definition get (fg : t) (hash : N) : option CompiledModule * t :=
  let '(result, cache) := lru_get hash (map fg) in (result, mkForge cache).

(** With the module, the hash that the log reports as evicted. *)
Definition insert (fg : t) (hash : N) (module : CompiledModule) : CompiledModule * option N * t :=
  let cache := map fg in
  let evicted_hash :=
    if bool_decide (lru_len cache = lru_cap cache) && negb (lru_contains hash cache)
    then fst <$> lru_peek_lru cache else None in
  (module, evicted_hash, mkForge (lru_put hash module cache)).

(** The first and the second critical section of [get_or_insert_with]. *)
Definition lookup (fg : t) (hash : N) : option CompiledModule * t := get fg hash.

Definition store (fg : t) (hash : N) (compiled : res CompiledModule) : res CompiledModule * t :=
  match compiled with
  | Ok module => (Ok module, mkForge (lru_put hash module (map fg)))
  | Err e => (Err e, fg)
  | Panic => (Panic, fg)
  end.

Definition get_or_insert_with (fg : t) (hash : N) (compile : res CompiledModule) : res CompiledModule * t :=
  match lookup fg hash with
  | (Some module, fg) => (Ok module, fg)
  | (None, fg) => store fg hash compile
  end.

Definition clear (fg : t) : t := mkForge (lru_clear (map fg)).

Definition len (fg : t) : nat := lru_len (map fg).

Definition is_empty (fg : t) : bool := bool_decide (len fg = 0).
End operations.
End CodeForge.

(** ** Threads that share a cache *)

(** A call of [get_or_insert_with]: not started, past a miss, returned. *)
Inductive phase :=
  | Start (hash : N)
  | Compiling (hash : N)
  | Done (hash : N) (r : res CompiledModule).

Definition phase_hash (p : phase) : N := match p with Start h | Compiling h | Done h _ => h end.
Definition is_done (p : phase) : bool := match p with Done _ _ => true | _ => false end.

(** One critical section of one thread.  [compile h] is what compiling a source
    of hash [h] gives. *)
Inductive cache_step `{!LruOps CompiledModule} (compile : N → res CompiledModule)
    : CodeForge.t * list phase → CodeForge.t * list phase → Prop :=
  | step_hit fg fg' ts i h m :
      ts !! i = Some (Start h) → CodeForge.lookup fg h = (Some m, fg') →
      cache_step compile (fg, ts) (fg', <[i:=Done h (Ok m)]> ts)
  | step_miss fg fg' ts i h :
      ts !! i = Some (Start h) → CodeForge.lookup fg h = (None, fg') →
      cache_step compile (fg, ts) (fg', <[i:=Compiling h]> ts)
  | step_store fg fg' ts i h r :
      ts !! i = Some (Compiling h) → CodeForge.store fg h (compile h) = (r, fg') →
      cache_step compile (fg, ts) (fg', <[i:=Done h r]> ts)
  | step_get fg ts h : cache_step compile (fg, ts) ((CodeForge.get fg h).2, ts)
  | step_insert fg ts h m :
      compile h = Ok m → cache_step compile (fg, ts) ((CodeForge.insert fg h m).2, ts)
  | step_clear fg ts : cache_step compile (fg, ts) (CodeForge.clear fg, ts).

(** ** Entries *)

Section entry_lemmas.
Context {V : Type}.
Implicit Types (l : list (N * V)) (k : N).

Lemma assoc_elem k v l : assoc k l = Some v → (k, v) ∈ l.
Proof.
  induction l as [|[k' v'] l IH]; simpl; [done|]. case_decide; [intros [= ->]; subst; left|right; auto].
Qed.

Lemma assoc_None k l : assoc k l = None ↔ k ∉ l.*1.
Proof.
  induction l as [|[k' v'] l IH]; simpl; [set_solver|]. rewrite not_elem_of_cons.
  case_decide; [naive_solver|]. rewrite IH. tauto.
Qed.

Lemma elem_of_delete_key e k l : e ∈ delete_key k l ↔ e.1 ≠ k ∧ e ∈ l.
Proof. unfold delete_key. by rewrite list_elem_of_filter. Qed.

Lemma delete_key_NoDup k l : NoDup l.*1 → NoDup (delete_key k l).*1 ∧ k ∉ (delete_key k l).*1.
Proof.
  intros Hnd. split.
  - eapply sublist_NoDup; [exact Hnd|]. apply fmap_sublist, sublist_filter.
  - intros ([k' v] & -> & [Hne _]%elem_of_delete_key)%list_elem_of_fmap. done.
Qed.

Lemma assoc_delete_key k k' l : k' ≠ k → assoc k' (delete_key k l) = assoc k' l.
Proof.
  intros Hne. unfold delete_key. induction l as [|[x v] l IH]; [done|]. rewrite filter_cons. simpl.
  case_decide; simpl; [by rewrite IH|]. rewrite IH. rewrite decide_False; [done|]. intros ->. tauto.
Qed.

Lemma length_delete_key k l :
  NoDup l.*1 → length l = length (delete_key k l) + (if decide (k ∈ l.*1) then 1 else 0).
Proof.
  unfold delete_key. induction l as [|[x v] l IH]; [done|]. simpl. intros [Hx Hnd]%NoDup_cons.
  rewrite filter_cons. specialize (IH Hnd). simpl. destruct (decide (x ≠ k)) as [Hne|He]; simpl.
  - assert (k ∈ x :: l.*1 ↔ k ∈ l.*1) as Hiff by (rewrite elem_of_cons; naive_solver).
    rewrite (decide_ext _ _ _ _ Hiff). lia.
  - assert (x = k) as -> by (destruct (decide (x = k)); [done|tauto]).
    rewrite decide_False in IH by done. rewrite decide_True by left. lia.
Qed.

Lemma delete_key_absent k l : k ∉ l.*1 → delete_key k l = l.
Proof.
  unfold delete_key. induction l as [|[x v] l IH]; [done|]. simpl. rewrite not_elem_of_cons. intros [Hx Hl].
  rewrite filter_cons, decide_True by (simpl; congruence). by rewrite IH.
Qed.

Lemma touch_NoDup k l : NoDup l.*1 → NoDup (touch k l).*1.
Proof.
  intros H. unfold touch. destruct (assoc k l); [|done]. destruct (delete_key_NoDup k l H). by constructor.
Qed.

Lemma length_touch k l : NoDup l.*1 → length (touch k l) = length l.
Proof.
  intros H. unfold touch. destruct (assoc k l) as [v|] eqn:E; [|done]. simpl.
  rewrite (length_delete_key k l H), decide_True; [lia|].
  apply assoc_elem in E. apply list_elem_of_fmap. by exists (k, v).
Qed.

Lemma elem_of_touch e k l : e ∈ touch k l → e ∈ l.
Proof.
  unfold touch. destruct (assoc k l) as [v|] eqn:E; [|done].
  intros [->|[_ ?]%elem_of_delete_key]%elem_of_cons; [by apply assoc_elem|done].
Qed.

Lemma push_front_NoDup n k v l : NoDup l.*1 → NoDup (push_front n k v l).*1.
Proof.
  intros H. destruct (delete_key_NoDup k l H). unfold push_front. rewrite fmap_take.
  eapply sublist_NoDup; [|apply sublist_take]. by constructor.
Qed.

Lemma elem_of_push_front e n k v l : e ∈ push_front n k v l → e = (k, v) ∨ e ∈ l.
Proof.
  intros [He|[_ He]%elem_of_delete_key]%(subseteq_take n)%elem_of_cons; auto.
Qed.
End entry_lemmas.

(** ** The invariant *)

Section forge.
Context `{!LruOps CompiledModule, !LruLaws CompiledModule}.
Implicit Types fg : CodeForge.t.

Definition contents fg : list (N * CompiledModule) := lru_entries (CodeForge.map fg).
Definition capacity fg : nat := lru_cap (CodeForge.map fg).

(** No hash has two entries, and there are at most as many as the capacity. *)
Record forge_ok (n : nat) fg : Prop := {
  forge_cap : capacity fg = n;
  forge_pos : 0 < n;
  forge_keys : NoDup (contents fg).*1;
  forge_bound : length (contents fg) <= n;
}.

Lemma new_ok n : 0 < n → forge_ok n (CodeForge.new n).
Proof.
  intros Hn. destruct (lru_new_ok n) as [E1 E2]. constructor; unfold contents, capacity; simpl;
    rewrite ?E1, ?E2; simpl; [done|done|constructor|lia].
Qed.

Lemma get_spec fg h :
  (CodeForge.get fg h).1 = assoc h (contents fg) ∧ contents (CodeForge.get fg h).2 = touch h (contents fg) ∧
  capacity (CodeForge.get fg h).2 = capacity fg.
Proof.
  unfold CodeForge.get, contents, capacity. pose proof (lru_get_ok h (CodeForge.map fg)) as H.
  by destruct (lru_get h (CodeForge.map fg)).
Qed.

Lemma get_ok n fg h : forge_ok n fg → forge_ok n (CodeForge.get fg h).2.
Proof.
  intros [Hc Hp Hk Hb]. destruct (get_spec fg h) as (_ & E1 & E2). constructor; rewrite ?E1, ?E2; try done.
  - by apply touch_NoDup.
  - by rewrite length_touch.
Qed.

Lemma put_ok n fg h m : forge_ok n fg → forge_ok n (CodeForge.mkForge (lru_put h m (CodeForge.map fg))).
Proof.
  intros [Hc Hp Hk Hb]. destruct (lru_put_ok h m (CodeForge.map fg)) as [E1 E2].
  unfold contents, capacity in *. constructor; simpl; unfold contents, capacity; simpl; rewrite ?E1, ?E2; try done.
  - by apply push_front_NoDup.
  - unfold push_front. rewrite length_take. lia.
Qed.

Lemma clear_ok n fg : forge_ok n fg → forge_ok n (CodeForge.clear fg).
Proof.
  intros [Hc Hp Hk Hb]. destruct (lru_clear_ok (CodeForge.map fg)) as [E1 E2].
  unfold contents, capacity in *. constructor; unfold contents, capacity; simpl; rewrite ?E1, ?E2; try done.
  - constructor.
  - simpl. lia.
Qed.

(** ** Insertion *)

Definition cached fg (h : N) : Prop := h ∈ (contents fg).*1.

(** The list after an insertion: nothing is lost below the capacity or when
    the hash was there, else the last entry. *)
Lemma insert_contents n fg h m :
  forge_ok n fg →
  let fg' := (CodeForge.insert fg h m).2 in
  ((CodeForge.insert fg h m).1.2 = None ∧ contents fg' = (h, m) :: delete_key h (contents fg)) ∨
  ∃ l e x, contents fg = l ++ [(e, x)] ∧ e ≠ h ∧ (h ∉ (contents fg).*1) ∧
    (CodeForge.insert fg h m).1.2 = Some e ∧ contents fg' = (h, m) :: l.
Proof.
  intros [Hc Hp Hk Hb] fg'. unfold fg', CodeForge.insert. cbn [fst snd].
  unfold contents, capacity in *. simpl. rewrite lru_len_ok, lru_contains_ok, lru_peek_ok.
  destruct (lru_put_ok h m (CodeForge.map fg)) as [-> _]. rewrite Hc.
  set (es := lru_entries (CodeForge.map fg)) in *. unfold push_front.
  pose proof (length_delete_key h es Hk) as Hl. destruct (decide (h ∈ es.*1)) as [Hin|Hin].
  { left. rewrite (bool_decide_eq_true_2 (h ∈ es.*1)) by done. rewrite andb_false_r. split; [done|].
    apply take_ge. simpl. lia. }
  rewrite (bool_decide_eq_false_2 (h ∈ es.*1)) by done. rewrite andb_true_r. case_bool_decide as Hfull.
  2: { left. split; [done|]. apply take_ge. simpl. lia. }
  right. destruct es as [|[e x] l _] eqn:E using rev_ind; [simpl in Hfull; lia|].
  exists l, e, x. split; [done|]. rewrite fmap_app, not_elem_of_app in Hin. simpl in Hin.
  split; [intros ->; set_solver|]. split; [by rewrite fmap_app, not_elem_of_app|].
  rewrite last_snoc. split; [done|].
  rewrite delete_key_absent by (by rewrite fmap_app, not_elem_of_app).
  rewrite app_comm_cons. apply take_app_length'. rewrite length_app in Hfull. simpl in *. lia.
Qed.

Lemma insert_cached n fg h m :
  forge_ok n fg →
  let fg' := (CodeForge.insert fg h m).2 in
  assoc h (contents fg') = Some m ∧
  (∀ e, (CodeForge.insert fg h m).1.2 = Some e ↔ cached fg e ∧ ¬ cached fg' e) ∧
  (∀ k, k ≠ h → (CodeForge.insert fg h m).1.2 ≠ Some k → assoc k (contents fg') = assoc k (contents fg)).
Proof.
  intros Hok fg'. unfold cached.
  destruct (insert_contents n fg h m Hok) as [[-> E]|(l & e & x & El & Hne & Hh & -> & E)]; fold fg' in E; rewrite E; simpl.
  - rewrite decide_True by done. split; [done|]. split.
    + intros e. split; [done|]. intros [He Hn]. exfalso. apply Hn. destruct (decide (e = h)) as [->|Heh]; [left|right].
      apply list_elem_of_fmap in He as (y & -> & Hy). apply list_elem_of_fmap. exists y. by rewrite elem_of_delete_key.
    + intros k Hk _. rewrite decide_False by done. by apply assoc_delete_key.
  - rewrite decide_True by done. pose proof (forge_keys _ _ Hok) as Hnd. rewrite El in *.
    rewrite fmap_app in *. simpl in *. apply NoDup_app in Hnd as (_ & Hdis & _). split; [done|]. split.
    + intros k. rewrite elem_of_app, not_elem_of_cons, list_elem_of_singleton. split; [intros [= <-]|naive_solver].
      split; [by right|]. split; [done|]. intros Hin. by apply (Hdis e); [|left].
    + intros k Hk Hke. rewrite decide_False by done. clear -Hke.
      induction l as [|[y v] l IH]; simpl; [rewrite decide_False; congruence|]. by rewrite IH.
Qed.

(** ** Every entry is what compiling gives *)

Section threads.
Context (compile : N → res CompiledModule) (n : nat).

Definition coherent fg : Prop := ∀ h m, (h, m) ∈ contents fg → compile h = Ok m.

Definition phase_ok (p : phase) : Prop := match p with Done h r => r = compile h | _ => True end.

Lemma coherent_get fg h : coherent fg → coherent (CodeForge.get fg h).2.
Proof. intros Hc k m. destruct (get_spec fg h) as (_ & -> & _). intros ?%elem_of_touch. auto. Qed.

Lemma coherent_put fg h m :
  coherent fg → compile h = Ok m → coherent (CodeForge.mkForge (lru_put h m (CodeForge.map fg))).
Proof.
  intros Hc Hm k x. unfold contents. simpl. destruct (lru_put_ok h m (CodeForge.map fg)) as [-> _].
  intros [[= -> ->]|?]%elem_of_push_front; auto.
Qed.

Lemma lookup_compiled fg h m fg' :
  coherent fg → CodeForge.lookup fg h = (Some m, fg') → compile h = Ok m.
Proof.
  intros Hc E. destruct (get_spec fg h) as (Hg & _). unfold CodeForge.lookup in E. rewrite E in Hg.
  by apply Hc, assoc_elem.
Qed.

Lemma store_compiled fg h r fg' :
  coherent fg → forge_ok n fg → CodeForge.store fg h (compile h) = (r, fg') →
  r = compile h ∧ coherent fg' ∧ forge_ok n fg'.
Proof.
  unfold CodeForge.store. intros Hc Hok. destruct (compile h) as [m|e|] eqn:E; intros [= <- <-]; [|done..].
  split; [done|]. split; [by apply coherent_put|by apply put_ok].
Qed.

Definition system_ok (hs : list N) (st : CodeForge.t * list phase) : Prop :=
  forge_ok n st.1 ∧ coherent st.1 ∧ phase_hash <$> st.2 = hs ∧ Forall phase_ok st.2.

Lemma advance_ok hs fg fg' ts i p p' :
  system_ok hs (fg, ts) → ts !! i = Some p → forge_ok n fg' → coherent fg' →
  phase_hash p' = phase_hash p → phase_ok p' → system_ok hs (fg', <[i:=p']> ts).
Proof.
  intros (_ & _ & Hh & Hp) Hi Hok Hc Hph Hpp. split_and!; [done..| |by apply Forall_insert]; simpl in *.
  rewrite list_fmap_insert, list_insert_id; [done|]. by rewrite list_lookup_fmap, Hi, Hph.
Qed.

Lemma step_ok hs st st' : cache_step compile st st' → system_ok hs st → system_ok hs st'.
Proof.
  intros Hs Hsys. pose proof Hsys as (Hok & Hc & Hh & Hp).
  destruct Hs as [fg fg' ts i h m Hi E|fg fg' ts i h Hi E|fg fg' ts i h r Hi E|fg ts h|fg ts h m E|fg ts]; simpl in *.
  - pose proof (get_ok n fg h Hok) as Hok'. pose proof (coherent_get fg h Hc) as Hc'.
    pose proof (lookup_compiled fg h m fg' Hc E) as Hm. unfold CodeForge.lookup in E. rewrite E in *.
    by eapply advance_ok.
  - pose proof (get_ok n fg h Hok) as Hok'. pose proof (coherent_get fg h Hc) as Hc'.
    unfold CodeForge.lookup in E. rewrite E in *. by eapply advance_ok.
  - destruct (store_compiled fg h r fg' Hc Hok E) as (-> & Hc' & Hok'). by eapply advance_ok.
  - split_and!; [by apply get_ok|by apply coherent_get|done..].
  - split_and!; [by apply put_ok|by apply coherent_put|done..].
  - split_and!; [by apply clear_ok| |done..]. intros k x. unfold contents. simpl.
    destruct (lru_clear_ok (CodeForge.map fg)) as [-> _]. by intros ?%elem_of_nil.
Qed.

Lemma start_ok hs : 0 < n → system_ok hs (CodeForge.new n, Start <$> hs).
Proof.
  intros Hn. split_and!; simpl.
  - by apply new_ok.
  - intros h m. unfold contents. simpl. destruct (lru_new_ok n) as [-> _]. by intros ?%elem_of_nil.
  - rewrite <- list_fmap_compose. apply list_fmap_id.
  - by apply Forall_fmap, Forall_true.
Qed.

Lemma progress fg ts i p :
  ts !! i = Some p → is_done p = false →
  ∃ fg' p', cache_step compile (fg, ts) (fg', <[i:=p']> ts) ∧ 
    (is_done p' = true ∨ p = Start (phase_hash p) ∧ p' = Compiling (phase_hash p)).
Proof.
  intros Hi Hd. destruct p as [h|h|]; [| |done].
  - destruct (CodeForge.lookup fg h) as [[m|] fg'] eqn:E; do 2 eexists; (split; [by econstructor|auto]).
  - destruct (CodeForge.store fg h (compile h)) as [r fg'] eqn:E. do 2 eexists. split; [by eapply step_store|auto].
Qed.

(** A call alone is the composition of its steps. *)
Lemma get_or_insert_with_steps fg h ts i :
  ts !! i = Some (Start h) →
  rtc (cache_step compile) (fg, ts)
    ((CodeForge.get_or_insert_with fg h (compile h)).2, <[i:=Done h (CodeForge.get_or_insert_with fg h (compile h)).1]> ts).
Proof.
  intros Hi. unfold CodeForge.get_or_insert_with. destruct (CodeForge.lookup fg h) as [[m|] fg'] eqn:E; simpl.
  - apply rtc_once. by eapply step_hit.
  - destruct (CodeForge.store fg' h (compile h)) as [r fg2] eqn:E2. simpl.
    eapply rtc_l; [by eapply step_miss|]. apply rtc_once.
    rewrite <- (list_insert_insert_eq ts i (Done h r) (Compiling h)).
    eapply step_store; [|done]. apply list_lookup_insert_eq. by eapply lookup_lt_Some.
Qed.
End threads.
End forge.

(** ** Properties *)

(** C25: The cache is transparent in every interleaving of calls of
    [get_or_insert_with] with each other and with lookups, insertions and
    clearing by other threads: it never holds more modules than its capacity,
    what it returns for a hash is what compiling a source of that hash gives,
    and a call that has not returned can always go on and returns after at
    most two critical sections.  A call that runs alone is such a sequence of
    steps. *)
Theorem forge_transparent `{!LruOps CompiledModule, !LruLaws CompiledModule}
    (compile : N → res CompiledModule) n hs fg ts :
  0 < n → rtc (cache_step compile) (CodeForge.new n, Start <$> hs) (fg, ts) →
  CodeForge.len fg <= n ∧
  (∀ h m, (CodeForge.get fg h).1 = Some m → compile h = Ok m) ∧
  (∀ i h, ts !! i = Some (Start h) → let '(r, fg') := CodeForge.get_or_insert_with fg h (compile h) in
     r = compile h ∧ rtc (cache_step compile) (fg, ts) (fg', <[i:=Done h r]> ts)) ∧
  ∀ i h, hs !! i = Some h → ∃ p, ts !! i = Some p ∧ phase_hash p = h ∧
    (∀ r, p = Done h r → r = compile h) ∧
    (is_done p = false → ∃ fg' p', cache_step compile (fg, ts) (fg', <[i:=p']> ts) ∧
       (is_done p' = true ∨ p = Start h ∧ p' = Compiling h)).
Proof.
  intros Hn Hrun. assert (system_ok compile n hs (fg, ts)) as Hsys.
  { assert (∀ st st', rtc (cache_step compile) st st' → system_ok compile n hs st → system_ok compile n hs st') as Hrtc.
    { induction 1; [done|]. intros ?. eauto using step_ok. }
    eapply Hrtc; [done|]. by apply start_ok. }
  pose proof Hsys as (Hok & Hc & Hh & Hp). simpl in *. split_and!.
  - unfold CodeForge.len. rewrite lru_len_ok. apply (forge_bound _ _ Hok).
  - intros h m Hg. destruct (get_spec fg h) as (E & _). rewrite Hg in E. by apply Hc, assoc_elem.
  - intros i h Hi. pose proof (get_or_insert_with_steps compile fg h ts i Hi) as Hrun'.
    destruct (CodeForge.get_or_insert_with fg h (compile h)) as [r fg'] eqn:E. simpl in Hrun'. split; [|done].
    unfold CodeForge.get_or_insert_with in E. destruct (CodeForge.lookup fg h) as [[m|] fg2] eqn:E2.
    + injection E as <- <-. symmetry. by eapply lookup_compiled.
    + by destruct (compile h); injection E as <- _.
  - intros i h Hi. rewrite <- Hh, list_lookup_fmap in Hi. destruct (ts !! i) as [p|] eqn:Ei; [|done].
    injection Hi as <-. exists p. split_and!; [done..| |].
    + intros r Er. pose proof (Forall_lookup_1 _ _ _ _ Hp Ei) as H. rewrite Er in H. done.
    + intros Hd. by apply progress.
Qed.

(** Inserting a module makes it the cached one for its hash, keeps the cache
    within its capacity, and reports as evicted exactly the hash that was
    cached before and is not any more; every other hash keeps its module. *)
Theorem insert_evicts `{!LruOps CompiledModule, !LruLaws CompiledModule} n fg h m module ev fg' :
  forge_ok n fg → CodeForge.insert fg h m = (module, ev, fg') →
  module = m ∧ forge_ok n fg' ∧ (CodeForge.get fg' h).1 = Some m ∧
  (∀ e, ev = Some e ↔ cached fg e ∧ ¬ cached fg' e) ∧
  ∀ k, k ≠ h → ev ≠ Some k → (CodeForge.get fg' k).1 = (CodeForge.get fg k).1.
Proof.
  intros Hok E. pose proof (insert_cached n fg h m Hok) as (H1 & H2 & H3). pose proof (put_ok n fg h m Hok) as Hok'.
  assert (module = m) as -> by (by injection E).
  rewrite E in *. simpl in *. injection E as _ <-. rewrite !(proj1 (get_spec _ _)). split_and!; try done.
  intros k Hk Hev. rewrite !(proj1 (get_spec _ _)). auto.
Qed.

(** ** A cache that meets the laws *)

(** The capacity and the entries, most recently used first. *)
#[export] Instance list_lru V : LruOps V := {|
  lru := nat * list (N * V);
  lru_new n := (n, []);
  lru_get k c := (assoc k c.2, (c.1, touch k c.2));
  lru_put k v c := (c.1, push_front c.1 k v c.2);
  lru_contains k c := bool_decide (k ∈ c.2.*1);
  lru_len c := length c.2;
  lru_cap c := c.1;
  lru_peek_lru c := last c.2;
  lru_clear c := (c.1, []);
  lru_entries c := c.2;
|}.

#[export] Instance list_lru_laws V : LruLaws V.
Proof. by constructor. Qed.

(** Two threads compile the same source: both miss, the second overwrites the
    entry of the first with an equal one. *)
Lemma forge_transparent_witness :
  ∃ fg ts, rtc (cache_step (λ _, Ok module_new)) (CodeForge.new 1, Start <$> [7%N; 7%N]) (fg, ts) ∧
    ts = [Done 7%N (Ok module_new); Done 7%N (Ok module_new)] ∧ CodeForge.len fg <= 1.
Proof.
  set (fg := (CodeForge.insert (CodeForge.new 1) 7 module_new).2).
  set (ts := [Done 7%N (Ok module_new); Done 7%N (Ok module_new)]).
  assert (rtc (cache_step (λ _, Ok module_new)) (CodeForge.new 1, Start <$> [7%N; 7%N]) (fg, ts)) as Hrun.
  { eapply rtc_l; [eapply (step_miss _ _ _ _ 0); reflexivity|].
    eapply rtc_l; [eapply (step_miss _ _ _ _ 1); reflexivity|].
    eapply rtc_l; [eapply (step_store _ _ _ _ 0); reflexivity|].
    eapply rtc_l; [eapply (step_store _ _ _ _ 1); reflexivity|]. apply rtc_refl. }
  exists fg, ts. split; [exact Hrun|]. split; [reflexivity|].
  exact (proj1 (forge_transparent (λ _, Ok module_new) 1 [7%N; 7%N] fg ts (le_n 1) Hrun)).
Defined.

Lemma insert_evicts_witness :
  let fg := (CodeForge.insert (CodeForge.new 1) 7 module_new).2 in
  (CodeForge.insert fg 8 module_new).1.2 = Some 7%N ∧ forge_ok 1 (CodeForge.insert fg 8 module_new).2.
Proof.
  intros fg. split; [reflexivity|].
  assert (forge_ok 1 fg) as Hok.
  { constructor; [reflexivity | lia | apply NoDup_singleton | simpl; lia]. }
  exact (proj1 (proj2 (insert_evicts 1 fg 8 module_new _ _ _ Hok eq_refl))).
Defined.
