(* ===== verification/Value.v ===== *)
(** * NaN-boxed values (crates/oxide_types/src/value.rs)

    A JavaScript value is one 64-bit word: a double is its own bit pattern,
    every other kind is a quiet NaN with a 3-bit tag and a payload of up to 48
    bits.  The theorems relate the words to the values they stand for: the
    constructors and the accessors invert each other, the single-step
    classification [js_type] agrees with the chain of [is_*] tests on every
    word, and [==] compares what it documents. *)

From stdpp Require Import base tactics numbers list option.
From Stdlib Require Import NArith ZArith Lia.
From S2P Require Import Prelude.

Open Scope N_scope.

Inductive JsType :=
  | TInt | TDouble | TBool | TNull | TUndefined | TObject | TString | TSymbol | TBigInt.

#[export] Instance JsType_eq_dec : EqDecision JsType.
Proof. solve_decision. Defined.

Definition js_type_is_number (t : JsType) : bool := match t with TInt | TDouble => true | _ => false end.

(** ** Layout *)

Definition QNAN_PREFIX : N := 0xFFF8000000000000.
Definition EXP_MASK : N := 0x7FF0000000000000.
Definition MANTISSA_MASK : N := 0x000FFFFFFFFFFFFF.
Definition TAG_MASK : N := 0x0007000000000000.
Definition TAG_SHIFT : N := 48.
Definition TAG_INT : N := 0.
Definition TAG_BOOL : N := 1.
Definition TAG_NULL : N := 2.
Definition TAG_UNDEFINED : N := 3.
Definition TAG_OBJECT : N := 4.
Definition TAG_STRING : N := 5.
Definition TAG_SYMBOL : N := 6.
Definition TAG_BIGINT : N := 7.
Definition PTR_MASK : N := 0x0000FFFFFFFFFFFF.
Definition INT_MASK : N := 0x00000000FFFFFFFF.

Definition make_tag (tag : N) : N := N.lor QNAN_PREFIX (u64 (N.shiftl tag TAG_SHIFT)).
Definition get_tag (bits : N) : N := N.shiftr (N.land bits TAG_MASK) TAG_SHIFT.
Definition is_nan_bits (bits : N) : bool :=
  (N.land bits EXP_MASK =? EXP_MASK) && negb (N.land bits MANTISSA_MASK =? 0).
Definition is_nan_boxed (bits : N) : bool :=
  let prefix := u16 (N.shiftr bits 48) in (0xFFF8 <=? prefix) && (prefix <=? 0xFFFF).

(** [a == b] of [f64] on bit patterns: NaN differs from everything, and the two
    zeros are equal. *)
Definition f64_is_zero (bits : N) : bool := N.land bits (2^63 - 1) =? 0.
Definition f64_eq (a b : N) : bool :=
  negb (is_nan_bits a) && negb (is_nan_bits b) && ((a =? b) || (f64_is_zero a && f64_is_zero b)).
Definition F64_NAN : N := 0x7FF8000000000000.

(** ** Constructors, tests and accessors

    An [f64] is its bit pattern ([to_bits] and [from_bits]), a pointer its
    address, and the null pointer 0.  The accessors behave as in a release
    build on a word of the wrong kind. *)
Module JsValue.
Definition t := N.

Definition js_type (self : t) : JsType :=
  let prefix := u16 (N.shiftr self TAG_SHIFT) in
  if negb ((0xFFF8 <=? prefix) && (prefix <=? 0xFFFF)) then TDouble
  else match get_tag self with
       | 0 => TInt | 1 => TBool | 2 => TNull | 3 => TUndefined
       | 4 => TObject | 5 => TString | 6 => TSymbol | 7 => TBigInt
       | _ => TDouble
       end.

Definition is_number (self : t) := match js_type self with TInt | TDouble => true | _ => false end.

Definition int (v : Z) : t := N.lor (make_tag TAG_INT) (i32_to_u32 v).
Definition float (bits : N) : t := if is_nan_bits bits then 0x7FF8000000000000 else bits.
Definition null : t := make_tag TAG_NULL.
Definition undefined : t := make_tag TAG_UNDEFINED.
Definition object (addr : N) : t := N.lor (make_tag TAG_OBJECT) addr.
Definition string (addr : N) : t := N.lor (make_tag TAG_STRING) addr.
Definition perm_string (addr : N) : t := string addr.
Definition from_js_object (addr : N) : t := N.lor (make_tag TAG_OBJECT) addr.
Definition symbol (index : N) : t := N.lor (make_tag TAG_SYMBOL) index.
Definition symbol_realm (realm_id local_index : N) : t :=
  N.lor (make_tag TAG_SYMBOL) (N.lor (u32 (N.shiftl realm_id 20)) (N.land local_index 0x000FFFFF)).
Definition bigint (addr : N) : t := N.lor (make_tag TAG_BIGINT) addr.
Definition bool (v : Datatypes.bool) : t := N.lor (make_tag TAG_BOOL) (if v then 1 else 0).

Definition is_double (self : t) := negb (is_nan_boxed self).
Definition is_int (self : t) := is_nan_boxed self && (get_tag self =? TAG_INT).
Definition is_bool (self : t) := is_nan_boxed self && (get_tag self =? TAG_BOOL).
Definition is_null (self : t) := is_nan_boxed self && (get_tag self =? TAG_NULL).
Definition is_undefined (self : t) := is_nan_boxed self && (get_tag self =? TAG_UNDEFINED).
Definition is_nullish (self : t) := is_null self || is_undefined self.
Definition is_object (self : t) := is_nan_boxed self && (get_tag self =? TAG_OBJECT).
Definition is_string (self : t) := is_nan_boxed self && (get_tag self =? TAG_STRING).
Definition is_symbol (self : t) := is_nan_boxed self && (get_tag self =? TAG_SYMBOL).
Definition is_bigint (self : t) := is_nan_boxed self && (get_tag self =? TAG_BIGINT).

Definition as_double (self : t) : N := if negb (is_double self) then F64_NAN else self.
Definition as_int (self : t) : Z := if negb (is_int self) then 0%Z else u32_to_i32 (u32 (N.land self INT_MASK)).
Definition as_bool (self : t) := if negb (is_bool self) then false else negb (N.land self 1 =? 0).
Definition as_ptr (self : t) : N := if negb (is_object self) then 0 else N.land self PTR_MASK.
Definition as_object_ptr (self : t) : N := if negb (is_object self) then 0 else N.land self PTR_MASK.
Definition as_js_object_ptr (self : t) : N := if negb (is_object self) then 0 else N.land self PTR_MASK.
Definition as_string_ptr (self : t) : N := N.land self PTR_MASK.
Definition as_string_ptr_mut (self : t) : N := N.land self PTR_MASK.
Definition as_symbol_index (self : t) : N := u32 (N.land self INT_MASK).
Definition as_symbol_realm_id (self : t) : N := u32 (N.shiftr (N.land self INT_MASK) 20).
Definition as_symbol_local_index (self : t) : N := u32 (N.land (N.land self INT_MASK) 0x000FFFFF).
Definition as_bigint_ptr (self : t) : N := N.land self PTR_MASK.

(** [PartialEq::eq]; [heap] gives the number a BigInt pointer points to. *)
Definition eq (heap : N → Z) (self other : t) : Datatypes.bool :=
  if is_int self && is_int other then (as_int self =? as_int other)%Z
  else if is_double self && is_double other then
    let a := as_double self in
    let b := as_double other in
    if is_nan_bits a || is_nan_bits b then false else f64_eq a b
  else if is_bool self && is_bool other then Bool.eqb (as_bool self) (as_bool other)
  else if is_null self && is_null other then true
  else if is_undefined self && is_undefined other then true
  else if is_object self && is_object other then as_ptr self =? as_ptr other
  else if is_string self && is_string other then as_string_ptr self =? as_string_ptr other
  else if is_symbol self && is_symbol other then as_symbol_index self =? as_symbol_index other
  else if is_bigint self && is_bigint other then
    (heap (as_bigint_ptr self) =? heap (as_bigint_ptr other))%Z
  else false.
End JsValue.

(** ** Boxed words *)

(** Tag and payload of a boxed word. *)
Definition boxed (tag payload : N) : N := (0xFFF8 + tag) * 2^48 + payload.

Ltac tags := unfold TAG_INT, TAG_BOOL, TAG_NULL, TAG_UNDEFINED, TAG_OBJECT, TAG_STRING, TAG_SYMBOL, TAG_BIGINT in *.

Lemma make_tag_boxed tag : tag < 8 → make_tag tag = boxed tag 0.
Proof.
  intros H. assert (tag = 0 ∨ tag = 1 ∨ tag = 2 ∨ tag = 3 ∨ tag = 4 ∨ tag = 5 ∨ tag = 6 ∨ tag = 7) as Ht by lia.
  by destruct_or! Ht; subst.
Qed.

Lemma box_payload tag payload : tag < 8 → payload < 2^48 → N.lor (make_tag tag) payload = boxed tag payload.
Proof.
  intros Ht Hp. rewrite make_tag_boxed by done. unfold boxed. rewrite N.add_0_r, <- (lor_shiftl_add payload) by done.
  by rewrite N.shiftl_mul_pow2.
Qed.

Lemma land_ptr_mask w : N.land w PTR_MASK = w mod 2^48.
Proof. apply (N.land_ones w 48). Qed.

Lemma land_int_mask w : N.land w INT_MASK = w mod 2^32.
Proof. apply (N.land_ones w 32). Qed.

Lemma get_tag_div w : get_tag w = (w / 2^48) mod 8.
Proof.
  unfold get_tag, TAG_SHIFT. rewrite N.shiftr_land. change (N.shiftr TAG_MASK 48) with (N.ones 3).
  by rewrite N.land_ones, N.shiftr_div_pow2.
Qed.

Lemma prefix_div w : w < 2^64 → u16 (N.shiftr w 48) = w / 2^48.
Proof.
  intros H. unfold u16. rewrite N.shiftr_div_pow2. apply N.mod_small. apply N.Div0.div_lt_upper_bound. done.
Qed.

Lemma is_nan_boxed_iff w : w < 2^64 → is_nan_boxed w = true ↔ 0xFFF8 * 2^48 <= w.
Proof.
  intros H. unfold is_nan_boxed. rewrite prefix_div by done.
  rewrite andb_true_iff, !N.leb_le. split.
  - intros [Hlo _]. pose proof (N.Div0.mul_div_le w (2^48)). lia.
  - intros Hw. split; [by apply N.div_le_lower_bound|]. apply N.lt_succ_r.
    apply N.Div0.div_lt_upper_bound. exact H.
Qed.

Lemma boxed_split w : w < 2^64 → is_nan_boxed w = true → w = boxed (get_tag w) (w mod 2^48) ∧ get_tag w < 8.
Proof.
  intros H Hb. apply is_nan_boxed_iff in Hb; [|done]. rewrite get_tag_div. split; [|by apply N.mod_lt].
  unfold boxed. pose proof (N.div_mod w (2^48) ltac:(done)) as E.
  assert (0xFFF8 <= w / 2^48) by (by apply N.div_le_lower_bound).
  assert (w / 2^48 < 0x10000) by (by apply N.Div0.div_lt_upper_bound).
  assert ((w / 2^48) mod 8 = w / 2^48 - 0xFFF8) as ->; [|lia].
  replace (w / 2^48) with (0xFFF8 + (w / 2^48 - 0xFFF8)) at 1 by lia.
  rewrite N.Div0.add_mod. change (0xFFF8 mod 8) with 0. rewrite N.add_0_l, N.Div0.mod_mod.
  apply N.mod_small. lia.
Qed.

Section boxed_word.
Context (tag payload : N) (Ht : tag < 8) (Hp : payload < 2^48).

Lemma boxed_lt : boxed tag payload < 2^64.
Proof. unfold boxed. change (2^64) with (0x10000 * 2^48). lia. Qed.

Lemma boxed_is_boxed : is_nan_boxed (boxed tag payload) = true.
Proof. apply is_nan_boxed_iff; [apply boxed_lt|]. unfold boxed. lia. Qed.

Lemma boxed_div : boxed tag payload / 2^48 = 0xFFF8 + tag.
Proof. unfold boxed. rewrite N.div_add_l by done. rewrite N.div_small by done. lia. Qed.

Lemma boxed_tag : get_tag (boxed tag payload) = tag.
Proof.
  rewrite get_tag_div, boxed_div, N.Div0.add_mod. change (0xFFF8 mod 8) with 0.
  rewrite N.add_0_l, N.Div0.mod_mod. by apply N.mod_small.
Qed.

Lemma boxed_payload : boxed tag payload mod 2^48 = payload.
Proof. unfold boxed. rewrite N.add_comm, N.Div0.mod_add. by apply N.mod_small. Qed.
End boxed_word.

(** ** The values words stand for *)

Inductive js :=
  | VInt (z : Z)
  | VDouble (bits : N)
  | VBool (b : bool)
  | VNull
  | VUndefined
  | VObject (addr : N)
  | VString (addr : N)
  | VSymbol (index : N)
  | VBigInt (addr : N).

(** A double is not a NaN, or it is the canonical one; addresses have 48 bits. *)
Definition js_ok (v : js) : Prop :=
  match v with
  | VInt z => in_i32 z
  | VDouble bits => bits < 2^64 ∧ (is_nan_bits bits = true → bits = F64_NAN)
  | VObject p | VString p | VBigInt p => p < 2^48
  | VSymbol i => i < 2^32
  | _ => True
  end.

Definition js_kind (v : js) : JsType :=
  match v with
  | VInt _ => TInt | VDouble _ => TDouble | VBool _ => TBool | VNull => TNull | VUndefined => TUndefined
  | VObject _ => TObject | VString _ => TString | VSymbol _ => TSymbol | VBigInt _ => TBigInt
  end.

Definition construct (v : js) : JsValue.t :=
  match v with
  | VInt z => JsValue.int z
  | VDouble bits => JsValue.float bits
  | VBool b => JsValue.bool b
  | VNull => JsValue.null
  | VUndefined => JsValue.undefined
  | VObject p => JsValue.object p
  | VString p => JsValue.string p
  | VSymbol i => JsValue.symbol i
  | VBigInt p => JsValue.bigint p
  end.

Definition decode (w : JsValue.t) : js :=
  match JsValue.js_type w with
  | TInt => VInt (JsValue.as_int w)
  | TDouble => VDouble (JsValue.as_double w)
  | TBool => VBool (JsValue.as_bool w)
  | TNull => VNull
  | TUndefined => VUndefined
  | TObject => VObject (JsValue.as_ptr w)
  | TString => VString (JsValue.as_string_ptr w)
  | TSymbol => VSymbol (JsValue.as_symbol_index w)
  | TBigInt => VBigInt (JsValue.as_bigint_ptr w)
  end.

(** Strict equality of values of the same representation. *)
Definition js_eq (heap : N → Z) (v w : js) : Prop :=
  match v, w with
  | VInt a, VInt b => a = b
  | VDouble a, VDouble b => f64_eq a b = true
  | VBool a, VBool b => a = b
  | VNull, VNull | VUndefined, VUndefined => True
  | VObject a, VObject b | VString a, VString b | VSymbol a, VSymbol b => a = b
  | VBigInt a, VBigInt b => heap a = heap b
  | _, _ => False
  end.

(** The predicate of the source for a kind. *)
Definition is_kind (k : JsType) : JsValue.t → bool :=
  match k with
  | TInt => JsValue.is_int | TDouble => JsValue.is_double | TBool => JsValue.is_bool
  | TNull => JsValue.is_null | TUndefined => JsValue.is_undefined | TObject => JsValue.is_object
  | TString => JsValue.is_string | TSymbol => JsValue.is_symbol | TBigInt => JsValue.is_bigint
  end.

(** The tag of a boxed kind. *)
Definition kind_tag (k : JsType) : option N :=
  match k with
  | TInt => Some 0 | TBool => Some 1 | TNull => Some 2 | TUndefined => Some 3
  | TObject => Some 4 | TString => Some 5 | TSymbol => Some 6 | TBigInt => Some 7
  | TDouble => None
  end.

Lemma is_kind_tag k w :
  is_kind k w = match kind_tag k with
                | Some t => is_nan_boxed w && (get_tag w =? t)
                | None => negb (is_nan_boxed w)
                end.
Proof. by destruct k. Qed.

Lemma js_type_kind w k : w < 2^64 → JsValue.js_type w = k ↔ is_kind k w = true.
Proof.
  intros H. rewrite is_kind_tag. unfold JsValue.js_type. fold (is_nan_boxed w).
  change ((0xFFF8 <=? u16 (N.shiftr w TAG_SHIFT)) && (u16 (N.shiftr w TAG_SHIFT) <=? 0xFFFF)) with (is_nan_boxed w).
  destruct (is_nan_boxed w) eqn:Hb; cbn [negb andb]; [|by destruct k].
  destruct (boxed_split w H Hb) as [_ Ht].
  assert (get_tag w = 0 ∨ get_tag w = 1 ∨ get_tag w = 2 ∨ get_tag w = 3 ∨ get_tag w = 4 ∨ get_tag w = 5
    ∨ get_tag w = 6 ∨ get_tag w = 7) as Hc by lia.
  clear Ht. destruct_or! Hc; rewrite Hc; destruct k; cbn; split; (reflexivity || discriminate).
Qed.

Lemma boxed_kind k t payload :
  kind_tag k = Some t → payload < 2^48 → JsValue.js_type (boxed t payload) = k.
Proof.
  intros Hk Hp. assert (t < 8) as Ht by (destruct k; simplify_eq/=; done).
  apply js_type_kind; [by apply boxed_lt|]. rewrite is_kind_tag, Hk, boxed_is_boxed, boxed_tag by done.
  simpl. apply N.eqb_refl.
Qed.

Lemma double_not_boxed bits :
  bits < 2^64 → (is_nan_bits bits = true → bits = F64_NAN) → is_nan_boxed bits = false.
Proof.
  intros H Hn. apply not_true_iff_false. intros Hb. apply is_nan_boxed_iff in Hb; [|done].
  assert (is_nan_bits bits = true) as E; [|apply Hn in E; subst; vm_compute in Hb; by destruct Hb].
  unfold is_nan_bits. assert (bits = N.lor QNAN_PREFIX (bits mod 2^51)) as E.
  { change QNAN_PREFIX with (N.shiftl 0x1FFF 51). rewrite lor_shiftl_add by (by apply N.mod_lt).
    pose proof (N.div_mod bits (2^51) ltac:(done)) as E. rewrite E at 1.
    assert (0x1FFF <= bits / 2^51) by (apply N.div_le_lower_bound; [done|]; etrans; [|exact Hb]; done).
    assert (bits / 2^51 < 0x2000) by (by apply N.Div0.div_lt_upper_bound).
    replace (bits / 2^51) with 0x1FFF by lia. lia. }
  rewrite E, !N.land_lor_distr_l. apply andb_true_iff. split.
  - apply N.eqb_eq. change (N.land QNAN_PREFIX EXP_MASK) with EXP_MASK.
    apply N.bits_inj. intros i. rewrite N.lor_spec, N.land_spec. destruct (N.testbit EXP_MASK i); [done|].
    by rewrite andb_false_r.
  - apply negb_true_iff, N.eqb_neq. intros [E0 _]%N.lor_eq_0_iff. vm_compute in E0. done.
Qed.

Lemma i32_roundtrip z : in_i32 z → i32_to_u32 z < 2^32 ∧ u32_to_i32 (i32_to_u32 z) = z.
Proof.
  unfold in_i32, i32_to_u32, u32_to_i32. intros H.
  change (2^32)%N with 4294967296%N. change (2^32)%Z with 4294967296%Z in *.
  change (2^31)%N with 2147483648%N. change (2^31)%Z with 2147483648%Z in *.
  destruct (N.ltb_spec (Z.to_N (z mod 4294967296)) 2147483648); split; Z.to_euclidean_division_equations; lia.
Qed.

Lemma low_payload w n p : w mod 2^48 = p → n <= 48 → p < 2^n → w mod 2^n = p.
Proof.
  intros <- Hn Hp. rewrite <- (N.mod_small (w mod 2^48) (2^n) Hp).
  replace (2^48) with (2^n * 2^(48 - n)) by (rewrite <- N.pow_add_r; f_equal; lia).
  by rewrite N.Div0.mod_mul_r, N.mul_comm, N.Div0.mod_add, N.Div0.mod_mod.
Qed.

Lemma boxed_low tag p n : tag < 8 → n <= 48 → p < 2^n → boxed tag p mod 2^n = p.
Proof.
  intros Ht Hn Hp. apply low_payload; [|done..]. apply boxed_payload.
  eapply N.lt_le_trans; [done|]. by apply N.pow_le_mono_r.
Qed.

(** The word of a value, as tag and payload. *)
Definition payload_of (v : js) : N :=
  match v with
  | VInt z => i32_to_u32 z
  | VBool b => if b then 1 else 0
  | VObject p | VString p | VSymbol p | VBigInt p => p
  | _ => 0
  end.

Lemma payload_small v : js_ok v → payload_of v < 2^48.
Proof.
  destruct v as [z|bits|b| | |p|p|i|p]; simpl; intros H; try done.
  - eapply N.lt_trans; [by apply i32_roundtrip|done].
  - by destruct b.
  - by eapply N.lt_trans.
Qed.

Lemma construct_boxed v t : js_ok v → kind_tag (js_kind v) = Some t → construct v = boxed t (payload_of v).
Proof.
  intros H Ht. pose proof (payload_small v H) as Hp.
  destruct v as [z|bits|b| | |p|p|i|p]; cbn in Ht; try discriminate Ht; injection Ht as <-;
    try (by apply box_payload); reflexivity.
Qed.

Lemma construct_double bits : js_ok (VDouble bits) → JsValue.float bits = bits.
Proof. intros [_ H]. unfold JsValue.float. destruct (is_nan_bits bits); [by rewrite H|done]. Qed.

Lemma construct_lt v : js_ok v → construct v < 2^64.
Proof.
  intros H. destruct (kind_tag (js_kind v)) as [t|] eqn:E.
  - rewrite (construct_boxed v t H E). apply boxed_lt; [destruct v; simplify_eq/=; done|by apply payload_small].
  - destruct v; try done. simpl. rewrite construct_double by done. apply H.
Qed.

Lemma construct_kind v : js_ok v → JsValue.js_type (construct v) = js_kind v.
Proof.
  intros H. destruct (kind_tag (js_kind v)) as [t|] eqn:E.
  - rewrite (construct_boxed v t H E). apply boxed_kind; [done|by apply payload_small].
  - destruct v; try done. apply js_type_kind; [by apply construct_lt|]. simpl. rewrite construct_double by done.
    unfold JsValue.is_double. destruct H. by rewrite double_not_boxed.
Qed.

Lemma kind_is v : js_ok v → is_kind (js_kind v) (construct v) = true.
Proof. intros H. apply js_type_kind; [by apply construct_lt|by apply construct_kind]. Qed.

Lemma decode_construct v : js_ok v → decode (construct v) = v.
Proof.
  intros H. unfold decode. rewrite construct_kind by done. pose proof (kind_is v H) as Hk.
  destruct v as [z|bits|b| | |p|p|i|p]; cbn [js_kind is_kind] in *; try done; f_equal.
  - unfold JsValue.as_int. rewrite Hk. cbn [negb]. rewrite (construct_boxed _ 0) by done.
    rewrite land_int_mask. unfold u32. rewrite N.Div0.mod_mod.
    rewrite boxed_low by (done || apply i32_roundtrip, H). by apply i32_roundtrip.
  - unfold JsValue.as_double. rewrite Hk. by apply construct_double.
  - by destruct b.
  - unfold JsValue.as_ptr. rewrite Hk. cbn [negb]. rewrite (construct_boxed _ 4) by done.
    rewrite land_ptr_mask. by apply boxed_low.
  - unfold JsValue.as_string_ptr. rewrite (construct_boxed _ 5), land_ptr_mask by done. by apply boxed_low.
  - unfold JsValue.as_symbol_index. rewrite (construct_boxed _ 6), land_int_mask by done.
    unfold u32. rewrite N.Div0.mod_mod. by apply boxed_low.
  - unfold JsValue.as_bigint_ptr. rewrite (construct_boxed _ 7), land_ptr_mask by done. by apply boxed_low.
Qed.

Lemma f64_eq_nan a b : (if is_nan_bits a || is_nan_bits b then false else f64_eq a b) = f64_eq a b.
Proof. unfold f64_eq. by destruct (is_nan_bits a), (is_nan_bits b). Qed.

#[local] Arguments f64_eq : simpl never.

(** [eq] decides through [js_type]. *)
Lemma eq_decode heap v w :
  v < 2^64 → w < 2^64 → JsValue.eq heap v w = true ↔ js_eq heap (decode v) (decode w).
Proof.
  intros Hv Hw.
  pose proof (λ k, js_type_kind v k Hv) as Kv. pose proof (λ k, js_type_kind w k Hw) as Kw.
  unfold JsValue.eq. cbv zeta.
  change JsValue.is_int with (is_kind TInt). change JsValue.is_double with (is_kind TDouble).
  change JsValue.is_bool with (is_kind TBool). change JsValue.is_null with (is_kind TNull).
  change JsValue.is_undefined with (is_kind TUndefined). change JsValue.is_object with (is_kind TObject).
  change JsValue.is_string with (is_kind TString). change JsValue.is_symbol with (is_kind TSymbol).
  change JsValue.is_bigint with (is_kind TBigInt).
  assert (∀ k, is_kind k v = bool_decide (JsValue.js_type v = k)) as Ev.
  { intros k. specialize (Kv k). case_bool_decide; [by apply Kv|]. by apply not_true_iff_false; rewrite <- Kv. }
  assert (∀ k, is_kind k w = bool_decide (JsValue.js_type w = k)) as Ew.
  { intros k. specialize (Kw k). case_bool_decide; [by apply Kw|]. by apply not_true_iff_false; rewrite <- Kw. }
  rewrite !Ev, !Ew, f64_eq_nan. clear Ev Ew Kv Kw Hv Hw. unfold decode.
  generalize (JsValue.as_int v) (JsValue.as_int w) (JsValue.as_double v) (JsValue.as_double w)
    (JsValue.as_bool v) (JsValue.as_bool w) (JsValue.as_ptr v) (JsValue.as_ptr w)
    (JsValue.as_string_ptr v) (JsValue.as_string_ptr w) (JsValue.as_symbol_index v) (JsValue.as_symbol_index w)
    (JsValue.as_bigint_ptr v) (JsValue.as_bigint_ptr w).
  generalize (JsValue.js_type v) (JsValue.js_type w). intros kv kw **. destruct kv, kw; simpl; try done;
    by rewrite ?Z.eqb_eq, ?N.eqb_eq, ?Bool.eqb_true_iff.
Qed.

(** ** Properties *)

(** C27: Every 64-bit word has exactly one kind: [js_type] answers with it in
    one step, and it is the only one of the nine [is_*] tests that holds. *)
Theorem js_type_exact w k :
  w < 2^64 → (JsValue.js_type w = k ↔ is_kind k w = true) ∧
  (JsValue.is_number w = js_type_is_number (JsValue.js_type w)) ∧
  (JsValue.is_nullish w = true ↔ JsValue.js_type w = TNull ∨ JsValue.js_type w = TUndefined).
Proof.
  intros H. split; [by apply js_type_kind|]. split; [done|].
  unfold JsValue.is_nullish. rewrite orb_true_iff, !js_type_kind by done. done.
Qed.

(** C26: Boxing loses nothing: each constructor makes a 64-bit word of its kind
    from which the accessors read back what was boxed, for every [i32], every
    double that is not a NaN and the canonical NaN, every 48-bit address and
    every symbol index; so different values have different words.  A realm
    symbol gives back its realm and local index. *)
Theorem boxing_roundtrip v :
  js_ok v →
  construct v < 2^64 ∧ JsValue.js_type (construct v) = js_kind v ∧ decode (construct v) = v ∧
  (∀ v', js_ok v' → construct v = construct v' → v = v') ∧
  ∀ realm i, realm < 2^12 → i < 2^20 →
    JsValue.is_symbol (JsValue.symbol_realm realm i) = true ∧
    JsValue.as_symbol_realm_id (JsValue.symbol_realm realm i) = realm ∧
    JsValue.as_symbol_local_index (JsValue.symbol_realm realm i) = i.
Proof.
  intros H. split_and!; [by apply construct_lt|by apply construct_kind|by apply decode_construct| |].
  { intros v' H' E. by rewrite <- (decode_construct v H), <- (decode_construct v' H'), E. }
  intros realm i Hr Hi.
  assert (N.lor (u32 (N.shiftl realm 20)) (N.land i 0xFFFFF) = realm * 2^20 + i) as E.
  { change 0xFFFFF with (N.ones 20). rewrite N.land_ones, (N.mod_small i) by done. unfold u32.
    rewrite N.mod_small; [by apply lor_shiftl_add|]. rewrite N.shiftl_mul_pow2.
    change (2^32) with (2^12 * 2^20). lia. }
  assert (realm * 2^20 + i < 2^32) as Hlt by (change (2^32) with (2^12 * 2^20); lia).
  assert (JsValue.symbol_realm realm i = construct (VSymbol (realm * 2^20 + i))) as ->.
  { unfold JsValue.symbol_realm. by rewrite E. }
  assert (js_ok (VSymbol (realm * 2^20 + i))) as Hok by exact Hlt.
  split; [exact (kind_is _ Hok)|].
  unfold JsValue.as_symbol_realm_id, JsValue.as_symbol_local_index.
  rewrite (construct_boxed _ 6), land_int_mask, boxed_low by done. cbn [payload_of]. split.
  - rewrite N.shiftr_div_pow2, N.div_add_l, N.div_small, N.add_0_r by done. unfold u32. apply N.mod_small.
    by eapply N.lt_trans.
  - change 0xFFFFF with (N.ones 20). rewrite N.land_ones, N.add_comm, N.Div0.mod_add, (N.mod_small i) by done.
    unfold u32. apply N.mod_small. by eapply N.lt_trans.
Qed.

(** [==] on words compares the values they stand for: integers, booleans,
    addresses and symbols by identity, doubles by IEEE equality (no NaN equals
    anything, the zeros are equal), BigInts by the numbers they point to, and
    different representations never, an [int] and a [double] included. *)
Theorem eq_exact heap v w :
  v < 2^64 → w < 2^64 → JsValue.eq heap v w = true ↔ js_eq heap (decode v) (decode w).
Proof. apply eq_decode. Qed.

Lemma js_type_exact_witness :
  JsValue.js_type 0xFFFC00000000BEEF = TObject ∧ JsValue.is_object 0xFFFC00000000BEEF = true.
Proof.
  split; [reflexivity|]. apply (proj1 (js_type_exact 0xFFFC00000000BEEF TObject ltac:(reflexivity))). reflexivity.
Defined.

Lemma boxing_roundtrip_witness : decode (construct (VInt (-5))) = VInt (-5).
Proof.
  assert (js_ok (VInt (-5))) as H by (split; [discriminate|reflexivity]).
  exact (proj1 (proj2 (proj2 (boxing_roundtrip (VInt (-5)) H)))).
Defined.

Lemma eq_exact_witness : JsValue.eq (λ _, 0%Z) (JsValue.float 0) (JsValue.float 0x8000000000000000) = true.
Proof. apply (eq_exact (λ _, 0%Z)); reflexivity. Defined.
