(* ===== verification/Shape.v ===== *)
(** * Hidden classes (crates/oxide_types/src/shape.rs, crates/oxide_kernel/src/shape_forge.rs, prop_forge.rs)

    A shape is a node of a tree of property names; the path from the root gives
    the layout of the objects that have the shape.  [ShapeStore] is the plain
    store, [ShapeForge] the shared one: it caches depths and positions and is
    used by several threads at once.  The theorems show that both answer every
    query as the list of names of the shape does, and that shapes are shared
    per parent and name in every interleaving of [make_shape] calls. *)

From stdpp Require Import base tactics numbers list option gmap relations.
From Stdlib Require Import NArith ZArith Lia.
From S2P Require Import Prelude.
#[local] Set Warnings "-clear-no-such-hyp".

Open Scope N_scope.

Definition EMPTY_SHAPE_ID : N := 1.
Definition EMPTY_SENTINEL : N := 2^32 - 1.

(** [(id - 1) as usize] with [u32] wrap-around. *)
Definition shape_index (id : N) : nat := N.to_nat (u32 (id + (2^32 - 1))).

(** ** The plain store *)

Module ShapeStore.
Record Shape := mkShape {
  id : N;
  property_name : N;
  parent : option N;
}.

Record t := mkStore {
  shapes : list (option Shape);
  transitions : gmap (N * N) N;
  next_id : N;
}.

Definition create_empty_shape (st : t) : t :=
  mkStore (shapes st ++ [Some (mkShape EMPTY_SHAPE_ID EMPTY_SENTINEL None)]) (transitions st) 2.

Definition new : t := create_empty_shape (mkStore [] ∅ 1).

Definition get_shape (st : t) (id : N) : option Shape := mjoin (shapes st !! shape_index id).

(** [while len < n { push(None) }], then [v[n - 1] = Some(shape)]. *)
Definition place {A} (shapes : list (option A)) (new_id : N) (shape : A) : res (list (option A)) :=
  vec_set (shapes ++ replicate (N.to_nat new_id - length shapes) None) (shape_index new_id) (Some shape).

Definition make_shape (st : t) (parent_id prop_name : N) : res (N * t) :=
  match transitions st !! (parent_id, prop_name) with
  | Some existing => Ok (existing, st)
  | None =>
      let new_id := next_id st in
      let* shapes := place (shapes st) new_id (mkShape new_id prop_name (Some parent_id)) in
      Ok (new_id, mkStore shapes (<[(parent_id, prop_name) := new_id]> (transitions st)) (u32 (new_id + 1)))
  end.

(** The loops follow parents; [fuel] bounds the length of the path. *)
Fixpoint count_depth (fuel : nat) (st : t) (cursor : option N) (depth : N) : res N :=
  match cursor, fuel with
  | None, _ => Ok depth
  | Some _, O => Panic
  | Some id, S fuel =>
      match get_shape st id with
      | Some s => count_depth fuel st (parent s)
                    (if property_name s =? EMPTY_SENTINEL then depth else u32 (depth + 1))
      | None => Ok depth
      end
  end.

Fixpoint find_position (fuel : nat) (st : t) (cursor : option N) (prop_name total_depth step : N) : res (option N) :=
  match cursor, fuel with
  | None, _ => Ok None
  | Some _, O => Panic
  | Some id, S fuel =>
      match get_shape st id with
      | None => Ok None
      | Some s =>
          if (property_name s =? prop_name) && negb (property_name s =? EMPTY_SENTINEL)
          then Ok (Some (u32 (total_depth + 2 * 2^32 - step - 1)))
          else find_position fuel st (parent s) prop_name total_depth (u32 (step + 1))
      end
  end.

Definition lookup_position (st : t) (shape_id prop_name : N) : res (option N) :=
  let fuel := S (length (shapes st)) in
  let* total_depth := count_depth fuel st (Some shape_id) 0 in
  find_position fuel st (Some shape_id) prop_name total_depth 0.

Fixpoint has_property_loop (fuel : nat) (st : t) (cursor : option N) (prop_name : N) : res bool :=
  match cursor, fuel with
  | None, _ => Ok false
  | Some _, O => Panic
  | Some id, S fuel =>
      match get_shape st id with
      | Some s =>
          if (property_name s =? prop_name) && negb (property_name s =? EMPTY_SENTINEL) then Ok true
          else has_property_loop fuel st (parent s) prop_name
      | None => Ok false
      end
  end.

Definition has_property (st : t) (shape_id prop_name : N) : res bool :=
  has_property_loop (S (length (shapes st))) st (Some shape_id) prop_name.

Definition shape_prop_count (st : t) (shape_id : N) : res N :=
  count_depth (S (length (shapes st))) st (Some shape_id) 0.
End ShapeStore.

(** ** The shared store *)

Module ShapeForge.
Record Shape := mkShape {
  id : N;
  property_name : N;
  parent : option N;
  depth : N;
}.

Record t := mkForge {
  shapes : list (option Shape);
  transitions : gmap N N;
  positions : gmap N N;
  next_id : N;
  overflow_map : gmap N N;
  overflow_active : bool;
}.

Definition new : t :=
  mkForge [Some (mkShape EMPTY_SHAPE_ID EMPTY_SENTINEL None 0)] ∅ ∅ 2 ∅ false.

Definition pack_key (parent_id prop_name : N) : N := N.lor (u64 (N.shiftl parent_id 32)) prop_name.

Definition get_shape (fg : t) (id : N) : option Shape := mjoin (shapes fg !! shape_index id).

(** The atomic sections of [make_shape], each under one lock or one atomic
    operation. *)
Definition read_transition (fg : t) (parent_id prop_name : N) : option N :=
  transitions fg !! pack_key parent_id prop_name.

Definition read_overflow (fg : t) (parent_id prop_name : N) : option N :=
  if overflow_active fg then overflow_map fg !! pack_key parent_id prop_name else None.

Definition fetch_id (fg : t) : N * t :=
  (next_id fg, mkForge (shapes fg) (transitions fg) (positions fg) (u32 (next_id fg + 1)) (overflow_map fg)
                 (overflow_active fg)).

Definition activate_overflow (fg : t) : t :=
  mkForge (shapes fg) (transitions fg) (positions fg) (next_id fg) (overflow_map fg) true.

Definition insert_overflow (fg : t) (parent_id prop_name new_id : N) : N * t :=
  let key := pack_key parent_id prop_name in
  match overflow_map fg !! key with
  | Some id => (id, fg)
  | None => (new_id, mkForge (shapes fg) (transitions fg) (positions fg) (next_id fg)
                       (<[key := new_id]> (overflow_map fg)) (overflow_active fg))
  end.

Definition parent_depth (fg : t) (parent_id : N) : N :=
  match get_shape fg parent_id with Some s => depth s | None => 0 end.

Definition write_shape (fg : t) (parent_id prop_name new_id pdepth : N) : res t :=
  let* shapes := ShapeStore.place (shapes fg) new_id (mkShape new_id prop_name (Some parent_id) (u32 (pdepth + 1))) in
  Ok (mkForge shapes (transitions fg) (positions fg) (next_id fg) (overflow_map fg) (overflow_active fg)).

Definition enter_transition (fg : t) (parent_id prop_name new_id : N) : N * t :=
  let key := pack_key parent_id prop_name in
  match transitions fg !! key with
  | Some id => (id, fg)
  | None => (new_id, mkForge (shapes fg) (<[key := new_id]> (transitions fg)) (positions fg) (next_id fg)
                       (overflow_map fg) (overflow_active fg))
  end.

Definition make_shape (fg : t) (parent_id prop_name : N) : res (N * t) :=
  match read_transition fg parent_id prop_name with
  | Some id => Ok (id, fg)
  | None =>
      match read_overflow fg parent_id prop_name with
      | Some id => Ok (id, fg)
      | None =>
          let '(new_id, fg) := fetch_id fg in
          if 0x00FFFFFF <? new_id then Ok (insert_overflow (activate_overflow fg) parent_id prop_name new_id)
          else
            let* fg := write_shape fg parent_id prop_name new_id (parent_depth fg parent_id) in
            Ok (enter_transition fg parent_id prop_name new_id)
      end
  end.

Definition len (fg : t) : nat := length (shapes fg).

Definition is_empty (fg : t) : bool := bool_decide (len fg = 0%nat).

Definition clear_transient (fg : t) : t := mkForge (take 1 (shapes fg)) ∅ ∅ 2 ∅ false.

(** The walk of [lookup_position] under the read lock. *)
Fixpoint walk_position (fuel : nat) (fg : t) (cursor : option N) (prop_name total_depth prop_steps : N)
    : res (option N) :=
  match cursor, fuel with
  | None, _ => Ok None
  | Some _, O => Panic
  | Some id, S fuel =>
      match get_shape fg id with
      | None => Ok None
      | Some s =>
          if property_name s =? EMPTY_SENTINEL then walk_position fuel fg (parent s) prop_name total_depth prop_steps
          else if property_name s =? prop_name then
            Ok (if u32 (prop_steps + 1) <=? total_depth then Some (total_depth - u32 (prop_steps + 1)) else None)
          else walk_position fuel fg (parent s) prop_name total_depth (u32 (prop_steps + 1))
      end
  end.

Definition find_position (fg : t) (shape_id prop_name : N) : res (option N) :=
  match get_shape fg shape_id with
  | None => Ok None
  | Some root => walk_position (S (length (shapes fg))) fg (Some shape_id) prop_name (depth root) 0
  end.

Definition cache_position (fg : t) (shape_id prop_name pos : N) : t :=
  mkForge (shapes fg) (transitions fg) (<[pack_key shape_id prop_name := pos]> (positions fg)) (next_id fg)
    (overflow_map fg) (overflow_active fg).

Definition lookup_position (fg : t) (shape_id prop_name : N) : res (option N * t) :=
  match positions fg !! pack_key shape_id prop_name with
  | Some pos => Ok (Some pos, fg)
  | None =>
      let* found := find_position fg shape_id prop_name in
      Ok (found, match found with Some pos => cache_position fg shape_id prop_name pos | None => fg end)
  end.

Fixpoint has_property_loop (fuel : nat) (fg : t) (cursor : option N) (prop_name : N) : res bool :=
  match cursor, fuel with
  | None, _ => Ok false
  | Some _, O => Panic
  | Some id, S fuel =>
      match get_shape fg id with
      | Some s =>
          if (property_name s =? prop_name) && negb (property_name s =? EMPTY_SENTINEL) then Ok true
          else has_property_loop fuel fg (parent s) prop_name
      | None => Ok false
      end
  end.

Definition has_property (fg : t) (shape_id prop_name : N) : res bool :=
  has_property_loop (S (length (shapes fg))) fg (Some shape_id) prop_name.

Definition shape_prop_count (fg : t) (shape_id : N) : N :=
  match get_shape fg shape_id with Some s => depth s | None => 0 end.
End ShapeForge.

(** ** Property templates *)

Module PropForge.
Record PropTemplate := mkTemplate {
  shape_id : N;
  prop_name : N;
  position : N;
  generation : N;
}.

Definition get_template (fg : gmap N PropTemplate) (shape_id : N) : option PropTemplate := fg !! shape_id.
Definition upsert (fg : gmap N PropTemplate) (shape_id : N) (template : PropTemplate) : gmap N PropTemplate := <[shape_id := template]> fg.
Definition upsert_if_better (fg : gmap N PropTemplate) (shape_id : N) (template : PropTemplate) : gmap N PropTemplate :=
  match fg !! shape_id with
  | Some e => if generation e <? generation template then <[shape_id := template]> fg else fg
  | None => <[shape_id := template]> fg
  end.
Definition clear (fg : gmap N PropTemplate) : gmap N PropTemplate := ∅.
Definition len (fg : gmap N PropTemplate) : nat := size fg.
Definition is_empty (fg : gmap N PropTemplate) : bool := bool_decide (len fg = 0%nat).
End PropForge.

(** ** Threads that use a store *)

(** A call of [make_shape parent p]: after its start, after each miss, after
    the new identifier is taken, the depth read, the shape written; or done.
    A call of [lookup_position id p]: after its start, after a walk that found
    a position; or done. *)
Inductive shape_phase :=
  | MStart (parent p : N)
  | MMissed (parent p : N)
  | MFresh (parent p : N)
  | MNew (parent p id : N)
  | MOverflow (parent p id : N)
  | MDepth (parent p id d : N)
  | MWritten (parent p id : N)
  | MDone (parent p id : N)
  | LStart (id p : N)
  | LFound (id p pos : N)
  | LDone (id p : N) (r : option N).

(** One section of one thread, as if it were atomic: what a call does between
    taking a guard and dropping it, or one atomic operation.  The guards
    themselves, and the calls that wait for them, are modelled in ShapeLocks.v,
    whose runs refine these.  New calls name shapes of the store. *)
Inductive forge_step : ShapeForge.t * list shape_phase → ShapeForge.t * list shape_phase → Prop :=
  | fs_make fg ts parent p :
      is_Some (ShapeForge.get_shape fg parent) → parent < 2^32 → p < EMPTY_SENTINEL →
      forge_step (fg, ts) (fg, ts ++ [MStart parent p])
  | fs_query fg ts id p :
      is_Some (ShapeForge.get_shape fg id) → id < 2^32 → p < EMPTY_SENTINEL →
      forge_step (fg, ts) (fg, ts ++ [LStart id p])
  | fs_hit fg ts i parent p id :
      ts !! i = Some (MStart parent p) → ShapeForge.read_transition fg parent p = Some id →
      forge_step (fg, ts) (fg, <[i := MDone parent p id]> ts)
  | fs_miss fg ts i parent p :
      ts !! i = Some (MStart parent p) → ShapeForge.read_transition fg parent p = None →
      forge_step (fg, ts) (fg, <[i := MMissed parent p]> ts)
  | fs_overflow_hit fg ts i parent p id :
      ts !! i = Some (MMissed parent p) → ShapeForge.read_overflow fg parent p = Some id →
      forge_step (fg, ts) (fg, <[i := MDone parent p id]> ts)
  | fs_overflow_miss fg ts i parent p :
      ts !! i = Some (MMissed parent p) → ShapeForge.read_overflow fg parent p = None →
      forge_step (fg, ts) (fg, <[i := MFresh parent p]> ts)
  | fs_fetch fg fg' ts i parent p id :
      ts !! i = Some (MFresh parent p) → ShapeForge.fetch_id fg = (id, fg') →
      forge_step (fg, ts) (fg', <[i := MNew parent p id]> ts)
  | fs_activate fg ts i parent p id :
      ts !! i = Some (MNew parent p id) → 0x00FFFFFF < id →
      forge_step (fg, ts) (ShapeForge.activate_overflow fg, <[i := MOverflow parent p id]> ts)
  | fs_overflow fg fg' ts i parent p id id' :
      ts !! i = Some (MOverflow parent p id) → ShapeForge.insert_overflow fg parent p id = (id', fg') →
      forge_step (fg, ts) (fg', <[i := MDone parent p id']> ts)
  | fs_depth fg ts i parent p id :
      ts !! i = Some (MNew parent p id) → id <= 0x00FFFFFF →
      forge_step (fg, ts) (fg, <[i := MDepth parent p id (ShapeForge.parent_depth fg parent)]> ts)
  | fs_write fg fg' ts i parent p id d :
      ts !! i = Some (MDepth parent p id d) → ShapeForge.write_shape fg parent p id d = Ok fg' →
      forge_step (fg, ts) (fg', <[i := MWritten parent p id]> ts)
  | fs_enter fg fg' ts i parent p id id' :
      ts !! i = Some (MWritten parent p id) → ShapeForge.enter_transition fg parent p id = (id', fg') →
      forge_step (fg, ts) (fg', <[i := MDone parent p id']> ts)
  | fs_cached fg ts i id p pos :
      ts !! i = Some (LStart id p) → ShapeForge.positions fg !! ShapeForge.pack_key id p = Some pos →
      forge_step (fg, ts) (fg, <[i := LDone id p (Some pos)]> ts)
  | fs_walk fg ts i id p r :
      ts !! i = Some (LStart id p) → ShapeForge.find_position fg id p = Ok r →
      forge_step (fg, ts) (fg, <[i := match r with Some pos => LFound id p pos | None => LDone id p None end]> ts)
  | fs_cache fg ts i id p pos :
      ts !! i = Some (LFound id p pos) →
      forge_step (fg, ts) (ShapeForge.cache_position fg id p pos, <[i := LDone id p (Some pos)]> ts).

(** ** Paths *)

(** What a store knows of a shape: its name and its parent. *)
Definition view := N → option (N * option N).

(** [chain v id l]: the names on the path from [id] up to the root. *)
Inductive chain (v : view) : N → list N → Prop :=
  | chain_root id : v id = Some (EMPTY_SENTINEL, None) → chain v id []
  | chain_node id p parent l :
      v id = Some (p, Some parent) → p ≠ EMPTY_SENTINEL → chain v parent l → chain v id (p :: l).

Fixpoint first_index (p : N) (l : list N) : option nat :=
  match l with
  | [] => None
  | x :: l => if x =? p then Some 0%nat else S <$> first_index p l
  end.

(** The slot of [p]: its index from the root, the last one if it is there
    more than once. *)
Definition slot_of (p : N) (l : list N) : option N :=
  (λ k, N.of_nat (length l) - N.of_nat k - 1) <$> first_index p l.

Lemma chain_det v id l l' : chain v id l → chain v id l' → l = l'.
Proof.
  intros H. revert l'. induction H as [id E|id p parent l E Hp _ IH]; intros l' H'; destruct H'; try congruence.
  f_equal; [congruence|]. apply IH. congruence.
Qed.

Lemma chain_mono v v' id l : (∀ i x, v i = Some x → v' i = Some x) → chain v id l → chain v' id l.
Proof. intros Hm. induction 1; [apply chain_root; auto|eapply chain_node; eauto]. Qed.

Lemma first_index_lt p l k : first_index p l = Some k → (k < length l)%nat.
Proof.
  revert k. induction l as [|x l IH]; simpl; intros k H; [done|]. destruct (x =? p); [injection H as <-; lia|].
  destruct (first_index p l) as [k'|]; simpl in H; [|done]. injection H as <-. specialize (IH k' eq_refl). lia.
Qed.

Lemma first_index_None p l : first_index p l = None ↔ p ∉ l.
Proof.
  induction l as [|x l IH]; simpl; [set_solver|]. rewrite not_elem_of_cons. destruct (N.eqb_spec x p) as [->|Hne].
  - naive_solver.
  - rewrite <- IH. destruct (first_index p l); simpl; naive_solver.
Qed.

(** A store in which parents come before their children. *)
Record tree_ok (v : view) (n : N) : Prop := {
  tree_root : v EMPTY_SHAPE_ID = Some (EMPTY_SENTINEL, None);
  tree_node id p q : v id = Some (p, q) → EMPTY_SHAPE_ID <= id < n ∧
    (p = EMPTY_SENTINEL ∧ q = None ∨
     ∃ parent, q = Some parent ∧ p < EMPTY_SENTINEL ∧ is_Some (v parent) ∧ parent < id);
}.

Lemma tree_chain v n id : tree_ok v n → is_Some (v id) → ∃ l, chain v id l ∧ N.of_nat (length l) < id.
Proof.
  intros Hok. induction id as [id IH] using (well_founded_induction N.lt_wf_0). intros [[p q] Hv].
  destruct (tree_node _ _ Hok id p q Hv) as [Hr [[-> ->]|(parent & -> & Hp & Hpar & Hlt)]].
  - exists []. split; [by apply chain_root|]. unfold EMPTY_SHAPE_ID in *. simpl. lia.
  - destruct (IH parent Hlt Hpar) as (l & Hl & Hb). exists (p :: l). split; [eapply chain_node; try done; lia|].
    simpl. lia.
Qed.

Lemma shape_index_lt id : 1 <= id → id < 2^32 → shape_index id = (N.to_nat id - 1)%nat.
Proof.
  intros H1 H2. unfold shape_index, u32. replace (id + (2^32 - 1)) with (id - 1 + 1 * 2^32) by lia.
  rewrite N.Div0.mod_add, N.mod_small by lia. lia.
Qed.

Lemma of_shape_index id : N.of_nat (shape_index id) = u32 (id + (2^32 - 1)).
Proof. apply N2Nat.id. Qed.

Lemma shape_index_pos id : N.of_nat (shape_index id) < 2^32 - 1 → id ≠ 0.
Proof.
  rewrite of_shape_index. intros H E. rewrite E in H. assert (u32 (0 + (2^32 - 1)) = 2^32 - 1) as E' by reflexivity.
  rewrite E' in H. exact (N.lt_irrefl _ H).
Qed.

(** ** Placing a shape *)

Lemma place_ok {A} (shapes : list (option A)) id (x : A) :
  1 <= id → id < 2^32 →
  ∃ shapes', ShapeStore.place shapes id x = Ok shapes' ∧
    length shapes' = Nat.max (length shapes) (N.to_nat id) ∧
    ∀ j, mjoin (shapes' !! j) = if decide (j = shape_index id) then Some x else mjoin (shapes !! j).
Proof.
  intros H1 H2. unfold ShapeStore.place. pose proof (shape_index_lt id H1 H2) as Ei.
  rewrite vec_set_lt by (rewrite length_app, length_replicate; lia). eexists. split; [done|].
  split; [rewrite length_insert, length_app, length_replicate; lia|]. intros j. case_decide as Hj.
  - subst j. rewrite list_lookup_insert_eq; [done|]. rewrite length_app, length_replicate. lia.
  - rewrite list_lookup_insert_ne by done. destruct (decide (j < length shapes)%nat) as [Hlt|Hge].
    + by rewrite lookup_app_l.
    + rewrite lookup_app_r, (lookup_ge_None_2 shapes) by lia.
      destruct (decide (j - length shapes < N.to_nat id - length shapes)%nat).
      * by rewrite lookup_replicate_2.
      * by rewrite lookup_ge_None_2 by (rewrite length_replicate; lia).
Qed.

Lemma shape_index_inj i j : i < 2^32 → j < 2^32 → shape_index i = shape_index j → i = j.
Proof.
  intros Hi Hj E. assert (N.of_nat (shape_index i) = N.of_nat (shape_index j)) as E' by (by rewrite E).
  rewrite !of_shape_index in E'. unfold u32 in E'. change (2^32) with 4294967296 in *.
  destruct (decide (i = 0)) as [->|], (decide (j = 0)) as [->|]; [done| | |].
  - replace (j + (4294967296 - 1)) with (j - 1 + 1 * 4294967296) in E' by lia.
    rewrite N.Div0.mod_add in E'. rewrite !N.mod_small in E' by lia. lia.
  - replace (i + (4294967296 - 1)) with (i - 1 + 1 * 4294967296) in E' by lia.
    rewrite N.Div0.mod_add in E'. rewrite !N.mod_small in E' by lia. lia.
  - replace (j + (4294967296 - 1)) with (j - 1 + 1 * 4294967296) in E' by lia.
    replace (i + (4294967296 - 1)) with (i - 1 + 1 * 4294967296) in E' by lia.
    rewrite !N.Div0.mod_add in E'. rewrite !N.mod_small in E' by lia. lia.
Qed.

(** The view of a vector of shapes, for identifiers of 32 bits. *)
Definition view_of {A} (prj : A → N * option N) (shapes : list (option A)) : view :=
  λ id, if decide (id < 2^32) then prj <$> mjoin (shapes !! shape_index id) else None.

Lemma view_place {A} (prj : A → N * option N) (shapes : list (option A)) id (x : A) :
  1 <= id → id < 2^32 →
  ∃ shapes', ShapeStore.place shapes id x = Ok shapes' ∧
    length shapes' = Nat.max (length shapes) (N.to_nat id) ∧
    (∀ j, j < 2^32 → mjoin (shapes' !! shape_index j) = if decide (j = id) then Some x else mjoin (shapes !! shape_index j)) ∧
    ∀ j, view_of prj shapes' j = if decide (j = id) then Some (prj x) else view_of prj shapes j.
Proof.
  intros H1 H2. destruct (place_ok shapes id x H1 H2) as (shapes' & Hp & Hl & Hj). exists shapes'.
  assert (∀ j, j < 2^32 → mjoin (shapes' !! shape_index j) =
    if decide (j = id) then Some x else mjoin (shapes !! shape_index j)) as Hget.
  { intros j Hlt. rewrite Hj. destruct (decide (j = id)) as [->|Hne]; [by rewrite decide_True|].
    rewrite decide_False; [done|]. intros E. by apply Hne, shape_index_inj. }
  split_and!; [done..|]. intros j. unfold view_of. destruct (decide (j < 2^32)) as [Hlt|Hge].
  - rewrite Hget by done. by destruct (decide (j = id)).
  - by rewrite decide_False by lia.
Qed.

Lemma tree_place v n n' id p parent :
  tree_ok v n → v id = None → n <= n' → EMPTY_SHAPE_ID <= id < n' → p < EMPTY_SENTINEL → is_Some (v parent) →
  parent < id → tree_ok (λ j, if decide (j = id) then Some (p, Some parent) else v j) n'.
Proof.
  intros [Hr Hn] Hid Hnn Hb Hp Hpar Hlt. split.
  - rewrite decide_False; [done|]. intros <-. congruence.
  - intros j q o. case_decide as Hj; [subst j|].
    + intros [= <- <-]. split; [done|]. right. exists parent. rewrite decide_False by lia. done.
    + intros Hv. destruct (Hn j q o Hv) as [? [?|(par & -> & ? & ? & ?)]]; (split; [lia|]); [by left|right].
      exists par. split_and!; [done..| |done]. by case_decide.
Qed.

Lemma tree_ext v v' n : (∀ j, v' j = v j) → tree_ok v n → tree_ok v' n.
Proof.
  intros E [Hr Hn]. split; [by rewrite E|]. intros j q o Hj. rewrite E in Hj.
  destruct (Hn j q o Hj) as [? [?|(x & ? & ? & ? & ?)]]; split; try done; [by left|]. right. exists x. by rewrite E.
Qed.

(** What one [make_shape] does: nothing when the transition is known, else it
    takes the next identifier. *)
Definition made (v v' : view) (known : option N) (n n' id par p : N) : Prop :=
  match known with
  | Some k => id = k ∧ n' = n ∧ ∀ j, v' j = v j
  | None => id = n ∧ n' = n + 1 ∧ ∀ j, v' j = if decide (j = n) then Some (p, Some par) else v j
  end.

(** ** Queries of the plain store *)

Module StoreFacts.
Import ShapeStore.

Definition store_view (st : t) : view := view_of (λ s, (property_name s, parent s)) (shapes st).

Record store_ok (st : t) : Prop := {
  so_tree : tree_ok (store_view st) (next_id st);
  so_length : N.of_nat (length (shapes st)) + 1 = next_id st;
  so_bound : next_id st < 2^32;
  so_trans par p id : transitions st !! (par, p) = Some id → store_view st id = Some (p, Some par);
}.

Lemma store_view_get st id x :
  store_view st id = Some x → ∃ s, get_shape st id = Some s ∧ property_name s = x.1 ∧ parent s = x.2.
Proof.
  unfold store_view, view_of, get_shape. case_decide; [|done].
  destruct (mjoin (shapes st !! shape_index id)) as [s|]; [|done]. intros [= <-]. by exists s.
Qed.

Lemma count_depth_ok st id l fuel d :
  chain (store_view st) id l → (length l < fuel)%nat → d + N.of_nat (length l) < 2^32 →
  count_depth fuel st (Some id) d = Ok (d + N.of_nat (length l)).
Proof.
  intros Hc. revert fuel d. induction Hc as [id E|id p par l E Hp _ IH]; intros [|fuel] d Hf Hd; simpl in *; try lia.
  - destruct (store_view_get _ _ _ E) as (s & -> & -> & ->). simpl. destruct fuel; f_equal; lia.
  - destruct (store_view_get _ _ _ E) as (s & -> & -> & ->). cbn [fst snd].
    destruct (N.eqb_spec p EMPTY_SENTINEL); [done|]. unfold u32. rewrite N.mod_small by lia.
    rewrite IH by lia. f_equal. lia.
Qed.

Lemma store_find_ok st id l fuel p total step :
  chain (store_view st) id l → (length l < fuel)%nat → step + N.of_nat (length l) <= total → total < 2^32 →
  find_position fuel st (Some id) p total step =
    Ok ((λ k, total - step - N.of_nat k - 1) <$> first_index p l).
Proof.
  intros Hc. revert fuel step. induction Hc as [id E|id q par l E Hq _ IH]; intros [|fuel] step Hf Hs Ht; simpl in *; try lia.
  - destruct (store_view_get _ _ _ E) as (s & -> & -> & ->). simpl. rewrite andb_false_r. by destruct fuel.
  - destruct (store_view_get _ _ _ E) as (s & -> & -> & ->). cbn [fst snd].
    destruct (N.eqb_spec q EMPTY_SENTINEL); [done|]. rewrite andb_true_r. destruct (N.eqb_spec q p) as [->|Hne].
    + simpl. do 2 f_equal. unfold u32.
      replace (total + 2 * 2^32 - step - 1) with (total - step - 1 + 2 * 2^32) by lia.
      rewrite N.Div0.mod_add, N.mod_small by lia. lia.
    + unfold u32. rewrite N.mod_small by lia. rewrite IH by lia. f_equal.
      destruct (first_index p l) as [k|]; [|done]. simpl. f_equal. lia.
Qed.

Lemma store_has_ok st id l fuel p :
  chain (store_view st) id l → (length l < fuel)%nat →
  has_property_loop fuel st (Some id) p = Ok (bool_decide (p ∈ l)).
Proof.
  intros Hc. revert fuel. induction Hc as [id E|id q par l E Hq _ IH]; intros [|fuel] Hf; simpl in *; try lia.
  - destruct (store_view_get _ _ _ E) as (s & -> & -> & ->). simpl. rewrite andb_false_r. by destruct fuel.
  - destruct (store_view_get _ _ _ E) as (s & -> & -> & ->). cbn [fst snd].
    destruct (N.eqb_spec q EMPTY_SENTINEL); [done|]. rewrite andb_true_r. destruct (N.eqb_spec q p) as [->|Hne].
    + by rewrite bool_decide_eq_true_2 by left.
    + rewrite IH by lia. f_equal. apply bool_decide_ext. rewrite elem_of_cons. naive_solver.
Qed.

Lemma store_new_ok : store_ok new.
Proof.
  split; [split|done|done|by intros ???].
  - reflexivity.
  - intros id p q. unfold store_view, view_of. case_decide as Hlt; [|done].
    destruct (shape_index id) as [|j] eqn:Ej; [|by destruct j]. intros [= <- <-].
    assert (id = 1) as -> by (by apply shape_index_inj). split; [done|by left].
Qed.

Lemma store_make_ok st par p :
  store_ok st → is_Some (store_view st par) → p < EMPTY_SENTINEL → next_id st + 1 < 2^32 →
  ∃ id st', make_shape st par p = Ok (id, st') ∧ store_ok st' ∧ transitions st' = <[(par, p) := id]> (transitions st) ∧
    made (store_view st) (store_view st') (transitions st !! (par, p)) (next_id st) (next_id st') id par p.
Proof.
  intros Hok Hpar Hp Hn. unfold make_shape. destruct (transitions st !! (par, p)) as [id|] eqn:Et.
  { exists id, st. split_and!; try done. by rewrite insert_id. }
  pose proof (so_length _ Hok) as Hl. pose proof (so_tree _ Hok) as Htree.
  assert (1 <= next_id st) as H1 by lia. assert (next_id st < 2^32) as H2 by (apply so_bound; done).
  destruct (view_place (λ s, (property_name s, parent s)) (shapes st) (next_id st) (mkShape (next_id st) p (Some par)) H1 H2)
    as (shapes' & -> & Hl' & _ & Hv). cbn [res_bind]. eexists _, _. split; [done|].
  assert (store_view st (next_id st) = None) as Hfree.
  { destruct (store_view st (next_id st)) as [[q o]|] eqn:E; [|done].
    destruct (tree_node _ _ Htree _ _ _ E) as [? _]. lia. }
  assert (par < next_id st) as Hlt by (destruct Hpar as [[q o] E]; destruct (tree_node _ _ Htree _ _ _ E) as [? _]; lia).
  set (st' := mkStore shapes' _ _).
  assert (∀ j, store_view st' j = if decide (j = next_id st) then Some (p, Some par) else store_view st j) as Hv' by exact Hv.
  assert (next_id st' = next_id st + 1) as En by (simpl; unfold u32; rewrite N.mod_small by done; done).
  split_and!; [|done|by split_and!].
  split.
  - apply (tree_ext (λ j, if decide (j = next_id st) then Some (p, Some par) else store_view st j)); [done|].
    apply (tree_place _ (next_id st)); try done; rewrite ?En; try lia. split; [done|lia].
  - simpl. rewrite Hl'. unfold u32. rewrite N.mod_small by done. lia.
  - rewrite En. lia.
  - intros par' p' id. simpl. destruct (decide ((par, p) = (par', p'))) as [[= <- <-]|Hne].
    + rewrite lookup_insert_eq. intros [= <-]. by rewrite Hv', decide_True.
    + rewrite lookup_insert_ne by done. intros E. rewrite Hv', decide_False; [by apply so_trans|].
      intros ->. apply (so_trans _ Hok) in E. congruence.
Qed.
End StoreFacts.

(** ** The shared store: packing and queries *)

Module ForgeFacts.
Import ShapeForge.

Lemma pack_key_eq a b : a < 2^32 → b < 2^32 → pack_key a b = a * 2^32 + b.
Proof.
  intros Ha Hb. unfold pack_key, u64. rewrite N.mod_small; [by apply lor_shiftl_add|].
  rewrite N.shiftl_mul_pow2. change (2^64) with (2^32 * 2^32). apply N.mul_lt_mono_pos_r; [done|exact Ha].
Qed.

Lemma pack_key_inj a b a' b' :
  a < 2^32 → b < 2^32 → a' < 2^32 → b' < 2^32 → pack_key a b = pack_key a' b' → a = a' ∧ b = b'.
Proof.
  intros Ha Hb Ha' Hb'. rewrite !pack_key_eq by done. change (2^32) with 4294967296 in *. intros E.
  assert (a = a') by lia. lia.
Qed.

Lemma name_lt p : p < EMPTY_SENTINEL → p < 2^32.
Proof. unfold EMPTY_SENTINEL. lia. Qed.

Definition forge_view (fg : t) : view := view_of (λ s, (property_name s, parent s)) (shapes fg).

Lemma forge_view_get fg id x :
  forge_view fg id = Some x →
  id < 2^32 ∧ ∃ s, get_shape fg id = Some s ∧ property_name s = x.1 ∧ parent s = x.2.
Proof.
  unfold forge_view, view_of, get_shape. case_decide; [|done].
  destruct (mjoin (shapes fg !! shape_index id)) as [s|]; [|done]. intros [= <-]. split; [done|]. by exists s.
Qed.

Lemma get_view fg id : id < 2^32 → is_Some (get_shape fg id) → is_Some (forge_view fg id).
Proof.
  unfold forge_view, view_of, get_shape. intros H [s E]. rewrite decide_True by done. rewrite E. by eexists.
Qed.

(** Depths and cached positions are right, transitions lead to the shape
    they name, and there was no overflow. *)
Record forge_ok (fg : t) : Prop := {
  fo_tree : tree_ok (forge_view fg) (next_id fg);
  fo_length : N.of_nat (length (shapes fg)) < next_id fg;
  fo_bound : next_id fg <= 2^24;
  fo_depth id s l : id < 2^32 → get_shape fg id = Some s → chain (forge_view fg) id l → depth s = N.of_nat (length l);
  fo_trans par p id : par < 2^32 → p < 2^32 → transitions fg !! pack_key par p = Some id →
    forge_view fg id = Some (p, Some par);
  fo_pos id p pos : id < 2^32 → p < 2^32 → positions fg !! pack_key id p = Some pos →
    ∃ l, chain (forge_view fg) id l ∧ slot_of p l = Some pos;
  fo_overflow : overflow_active fg = false ∧ overflow_map fg = ∅;
}.

Lemma forge_chain fg id :
  forge_ok fg → is_Some (forge_view fg id) →
  ∃ l s, chain (forge_view fg) id l ∧ get_shape fg id = Some s ∧ depth s = N.of_nat (length l) ∧
    (length l <= length (shapes fg))%nat ∧ N.of_nat (length l) < 2^24.
Proof.
  intros Hok Hid. destruct (tree_chain _ _ _ (fo_tree _ Hok) Hid) as (l & Hl & Hb).
  destruct Hid as [x Hx]. destruct (forge_view_get _ _ _ Hx) as (Hlt & s & Hs & _).
  pose proof (fo_bound _ Hok). pose proof (tree_node _ _ (fo_tree _ Hok) id x.1 x.2) as Hn.
  rewrite <- surjective_pairing in Hn. destruct (Hn Hx) as [Hr _].
  assert (shape_index id < length (shapes fg))%nat as Hi.
  { apply lookup_lt_is_Some_1. unfold get_shape in Hs. destruct (shapes fg !! shape_index id); [by eexists|done]. }
  unfold EMPTY_SHAPE_ID in *. rewrite shape_index_lt in Hi by lia.
  exists l, s. split_and!; try done; [by eapply fo_depth|lia|lia].
Qed.

Lemma walk_position_ok fg id l fuel p total steps :
  chain (forge_view fg) id l → (length l < fuel)%nat → steps + N.of_nat (length l) <= total → total < 2^32 →
  walk_position fuel fg (Some id) p total steps =
    Ok ((λ k, total - steps - N.of_nat k - 1) <$> first_index p l).
Proof.
  intros Hc. revert fuel steps. induction Hc as [id E|id q par l E Hq _ IH]; intros [|fuel] steps Hf Hs Ht; simpl in *; try lia.
  - destruct (forge_view_get _ _ _ E) as (_ & s & -> & -> & ->). simpl. by destruct fuel.
  - destruct (forge_view_get _ _ _ E) as (_ & s & -> & -> & ->). cbn [fst snd].
    destruct (N.eqb_spec q EMPTY_SENTINEL); [done|]. unfold u32. rewrite N.mod_small by lia.
    destruct (N.eqb_spec q p) as [->|Hne].
    + rewrite (proj2 (N.leb_le _ _)) by lia. simpl. do 2 f_equal. lia.
    + rewrite IH by lia. f_equal. destruct (first_index p l) as [k|]; [|done]. simpl. f_equal. lia.
Qed.

Lemma forge_has_ok fg id l fuel p :
  chain (forge_view fg) id l → (length l < fuel)%nat →
  has_property_loop fuel fg (Some id) p = Ok (bool_decide (p ∈ l)).
Proof.
  intros Hc. revert fuel. induction Hc as [id E|id q par l E Hq _ IH]; intros [|fuel] Hf; simpl in *; try lia.
  - destruct (forge_view_get _ _ _ E) as (_ & s & -> & -> & ->). simpl. rewrite andb_false_r. by destruct fuel.
  - destruct (forge_view_get _ _ _ E) as (_ & s & -> & -> & ->). cbn [fst snd].
    destruct (N.eqb_spec q EMPTY_SENTINEL); [done|]. rewrite andb_true_r. destruct (N.eqb_spec q p) as [->|Hne].
    + by rewrite bool_decide_eq_true_2 by left.
    + rewrite IH by lia. f_equal. apply bool_decide_ext. rewrite elem_of_cons. naive_solver.
Qed.

Lemma forge_find_ok fg id l p :
  forge_ok fg → chain (forge_view fg) id l → find_position fg id p = Ok (slot_of p l).
Proof.
  intros Hok Hl. assert (is_Some (forge_view fg id)) as Hid by (destruct Hl; by eexists).
  destruct (forge_chain fg id Hok Hid) as (l' & s & Hl' & Hs & Hd & Hlen & Hb).
  rewrite (chain_det _ _ _ _ Hl' Hl) in *. unfold find_position. rewrite Hs, (walk_position_ok _ _ l) by (done || lia).
  unfold slot_of. rewrite Hd, N.sub_0_r. done.
Qed.

(** [fg'] knows everything [fg] knows. *)
Record grows (fg fg' : t) : Prop := {
  gr_view id x : forge_view fg id = Some x → forge_view fg' id = Some x;
  gr_depth id : is_Some (forge_view fg id) → get_shape fg' id = get_shape fg id;
  gr_trans k id : transitions fg !! k = Some id → transitions fg' !! k = Some id;
  gr_next : next_id fg <= next_id fg';
}.

Lemma forge_grows_refl fg : grows fg fg.
Proof. by split. Qed.

Lemma forge_new_ok : forge_ok new.
Proof.
  split; [split|done|done| | | |done].
  - reflexivity.
  - intros id p q. unfold forge_view, view_of. case_decide as Hlt; [|done].
    destruct (shape_index id) as [|j] eqn:Ej; [|by destruct j]. intros [= <- <-].
    assert (id = 1) as -> by (by apply shape_index_inj). split; [done|by left].
  - intros id s l Hid. unfold get_shape. destruct (shape_index id) as [|j] eqn:Ej; [|by destruct j].
    intros [= <-] Hc. assert (id = 1) as -> by (by apply shape_index_inj).
    by rewrite (chain_det _ _ _ _ Hc (chain_root _ 1 eq_refl)).
  - by intros ???.
  - by intros ???.
Qed.

(** *** Each atomic section keeps the invariant *)

Lemma fetch_ok fg id fg' :
  forge_ok fg → fetch_id fg = (id, fg') → next_id fg' <= 2^24 →
  forge_ok fg' ∧ grows fg fg' ∧ id = next_id fg ∧ next_id fg' = id + 1 ∧ forge_view fg' id = None.
Proof.
  intros [[Hr Hn] Hl Hb Hd Ht Hp Ho] [= <- <-] Hb'.
  assert (u32 (next_id fg + 1) = next_id fg + 1) as E by (unfold u32; apply N.mod_small; lia).
  simpl in Hb'. rewrite E in *. split_and!; try done.
  - split; simpl; try done; try lia. split; [done|]. intros id p q Hv. destruct (Hn id p q Hv). split; [lia|done].
  - split; simpl; try done; try lia.
  - simpl. unfold forge_view. simpl. fold (forge_view fg).
    destruct (forge_view fg (next_id fg)) as [[p q]|] eqn:Ev; [|done]. destruct (Hn _ _ _ Ev). lia.
Qed.

Lemma write_ok fg par p id :
  forge_ok fg → is_Some (forge_view fg par) → p < EMPTY_SENTINEL → par < id → id < next_id fg →
  forge_view fg id = None →
  ∃ fg', write_shape fg par p id (parent_depth fg par) = Ok fg' ∧ forge_ok fg' ∧ grows fg fg' ∧
    (∀ j, forge_view fg' j = if decide (j = id) then Some (p, Some par) else forge_view fg j) ∧
    next_id fg' = next_id fg ∧ transitions fg' = transitions fg ∧ positions fg' = positions fg.
Proof.
  intros Hok Hpar Hp Hlt Hid Hfree. pose proof (fo_bound _ Hok) as Hb24.
  destruct (forge_chain fg par Hok Hpar) as (lp & sp & Hlp & Hsp & Hdp & _ & Hb).
  assert (parent_depth fg par = N.of_nat (length lp)) as Hpd by (unfold parent_depth; by rewrite Hsp).
  unfold write_shape. rewrite Hpd.
  destruct (view_place (λ s, (property_name s, parent s)) (shapes fg) id
    (mkShape id p (Some par) (u32 (N.of_nat (length lp) + 1)))) as (shapes' & -> & Hl' & Hg & Hv); [lia..|].
  cbn [res_bind]. eexists. split; [done|]. set (fg' := mkForge shapes' _ _ _ _ _).
  assert (∀ j, forge_view fg' j = if decide (j = id) then Some (p, Some par) else forge_view fg j) as Hv' by exact Hv.
  assert (∀ j x, forge_view fg j = Some x → forge_view fg' j = Some x) as Hmono.
  { intros j x E. rewrite Hv', decide_False; [done|]. intros ->. congruence. }
  split_and!; try done; [|split; try done; simpl; try lia].
  - destruct Hok as [Htree Hlen Hbd Hd Ht Hpos Ho]. split; try done; simpl in *.
    + apply (tree_ext (λ j, if decide (j = id) then Some (p, Some par) else forge_view fg j)); [done|].
      apply (tree_place _ (next_id fg)); try done. unfold EMPTY_SHAPE_ID. lia.
    + rewrite Hl'. lia.
    + intros j s l Hj Hs Hc. unfold get_shape in Hs. simpl in Hs. rewrite Hg in Hs by done.
      destruct (decide (j = id)) as [->|Hne].
      * injection Hs as <-. simpl. inversion Hc as [? E|? q par' l' E Hq Hc' E1 E2]; subst; rewrite Hv', decide_True in E by done; [done|].
        injection E as <- <-. assert (chain (forge_view fg') par lp) as Hlp' by (by eapply chain_mono).
        rewrite (chain_det _ _ _ _ Hc' Hlp'). simpl. unfold u32. rewrite N.mod_small; lia.
      * assert (is_Some (forge_view fg j)) as Hjv by (apply get_view; [done|by eexists]).
        destruct (tree_chain _ _ _ Htree Hjv) as (l0 & Hl0 & _). assert (chain (forge_view fg') j l0) as Hl0' by (by eapply chain_mono).
        rewrite (chain_det _ _ _ _ Hc Hl0'). by apply (Hd j s).
    + intros par' p' id' ? ? E. by apply Hmono, Ht.
    + intros j q pos ? ? E. destruct (Hpos j q pos) as (l & Hl & ?); [done..|]. exists l. split; [by eapply chain_mono|done].
  - intros j [x Hj]. destruct (forge_view_get _ _ _ Hj) as [Hj32 _]. unfold get_shape. simpl. rewrite Hg by done.
    rewrite decide_False; [done|]. intros ->. congruence.
Qed.

Lemma enter_ok fg par p id id' fg' :
  forge_ok fg → par < 2^32 → p < 2^32 → forge_view fg id = Some (p, Some par) →
  enter_transition fg par p id = (id', fg') →
  forge_ok fg' ∧ grows fg fg' ∧ transitions fg' !! pack_key par p = Some id' ∧ shapes fg' = shapes fg ∧
    next_id fg' = next_id fg.
Proof.
  intros Hok Hpar Hp Hv. unfold enter_transition. destruct (transitions fg !! pack_key par p) as [e|] eqn:E; intros [= <- <-].
  { split_and!; [done|apply forge_grows_refl|done..]. }
  destruct Hok as [Htree Hlen Hbd Hd Ht Hpos Ho]. split_and!; try done.
  - split; try done; simpl. intros par' p' i ? ?. destruct (decide (pack_key par p = pack_key par' p')) as [Ek|Hne].
    + apply pack_key_inj in Ek as [<- <-]; [|done..]. rewrite lookup_insert_eq. by intros [= <-].
    + rewrite lookup_insert_ne by done. by apply Ht.
  - split; try done; simpl. intros k i Hk. rewrite lookup_insert_ne; [done|]. intros <-. congruence.
  - simpl. apply lookup_insert_eq.
Qed.

Lemma cache_ok fg id p pos l :
  forge_ok fg → id < 2^32 → p < 2^32 → chain (forge_view fg) id l → slot_of p l = Some pos →
  forge_ok (cache_position fg id p pos) ∧ grows fg (cache_position fg id p pos).
Proof.
  intros [Htree Hlen Hbd Hd Ht Hpos Ho] Hid Hp Hl Hs. split; [|by split]. split; try done; simpl.
  intros j q x ? ?. destruct (decide (pack_key id p = pack_key j q)) as [Ek|Hne].
  - apply pack_key_inj in Ek as [<- <-]; [|done..]. rewrite lookup_insert_eq. intros [= <-]. by exists l.
  - rewrite lookup_insert_ne by done. by apply Hpos.
Qed.

Lemma forge_make_ok fg par p :
  forge_ok fg → is_Some (forge_view fg par) → p < EMPTY_SENTINEL → next_id fg < 2^24 →
  ∃ id fg', make_shape fg par p = Ok (id, fg') ∧ forge_ok fg' ∧
    transitions fg' = <[pack_key par p := id]> (transitions fg) ∧
    made (forge_view fg) (forge_view fg') (transitions fg !! pack_key par p) (next_id fg) (next_id fg') id par p.
Proof.
  intros Hok Hpar Hp Hn. unfold make_shape, read_transition.
  destruct (transitions fg !! pack_key par p) as [id|] eqn:Et.
  { exists id, fg. split_and!; try done. by rewrite insert_id. }
  unfold read_overflow. rewrite (proj1 (fo_overflow _ Hok)). destruct (fetch_id fg) as [n fg1] eqn:Ef.
  assert (is_Some (forge_view fg1 par) ∧ par < n ∧ next_id fg1 <= 2^24) as (Hpar1 & Hlt & Hb).
  { destruct Hpar as [[q o] Hx]. pose proof (tree_node _ _ (fo_tree _ Hok) _ _ _ Hx) as [? _]. injection Ef as <- <-.
    split_and!; [by eexists|lia|]. cbn [next_id]. unfold u32. rewrite N.mod_small; lia. }
  destruct (fetch_ok fg n fg1 Hok Ef Hb) as (Hok1 & Hg1 & En & En1 & Hfree).
  rewrite (proj2 (N.ltb_ge _ _)) by (change (2^24) with 16777216 in *; lia).
  destruct (write_ok fg1 par p n) as (fg2 & -> & Hok2 & Hg2 & Hv2 & En2 & Et2 & _); try done; [lia|]. cbn [res_bind].
  destruct (enter_transition fg2 par p n) as [id fg3] eqn:Ee.
  destruct (enter_ok fg2 par p n id fg3) as (Hok3 & Hg3 & Ht3 & Es3 & En3); try done.
  { destruct Hpar as [x Hx]. by apply forge_view_get in Hx as [? _]. }
  { by apply name_lt. }
  { by rewrite Hv2, decide_True. }
  assert (transitions fg2 = transitions fg) as Et' by (rewrite Et2; injection Ef as <- <-; done).
  unfold enter_transition in Ee. rewrite Et', Et in Ee. injection Ee as <- <-.
  exists n, (mkForge (shapes fg2) (<[pack_key par p := n]> (transitions fg)) (positions fg2) (next_id fg2) (overflow_map fg2)
    (overflow_active fg2)).
  split_and!; [by rewrite ?Et'|done|done|]. split_and!; [done|simpl; lia|].
  intros j. rewrite <- En. change (forge_view fg2 j = if decide (j = n) then Some (p, Some par) else forge_view fg j).
  rewrite Hv2. case_decide; [done|]. injection Ef as _ <-. done.
Qed.
End ForgeFacts.

(** ** Threads that share a store *)

Module ThreadFacts.
Import ShapeForge ForgeFacts.

(** A call names a shape of the store and a property. *)
Definition named (fg : t) (id p : N) : Prop := is_Some (forge_view fg id) ∧ p < EMPTY_SENTINEL.

(** What holds of a thread in each phase of its call. *)
Definition phase_ok (fg : t) (ph : shape_phase) : Prop :=
  match ph with
  | MStart par p | MMissed par p | MFresh par p => named fg par p
  | MNew par p id => named fg par p ∧ par < id < next_id fg ∧ forge_view fg id = None
  | MOverflow _ _ _ => False
  | MDepth par p id d => named fg par p ∧ par < id < next_id fg ∧ forge_view fg id = None ∧ d = parent_depth fg par
  | MWritten par p id => named fg par p ∧ forge_view fg id = Some (p, Some par)
  | MDone par p id => named fg par p ∧ transitions fg !! pack_key par p = Some id
  | LStart id p => named fg id p
  | LFound id p pos => named fg id p ∧ ∃ l, chain (forge_view fg) id l ∧ slot_of p l = Some pos
  | LDone id p r => named fg id p ∧ ∃ l, chain (forge_view fg) id l ∧ slot_of p l = r
  end.

(** The identifier a thread has taken and not yet filled. *)
Definition owned (ph : shape_phase) : option N :=
  match ph with MNew _ _ id | MDepth _ _ id _ => Some id | _ => None end.

Record system_ok (fg : t) (ts : list shape_phase) : Prop := {
  sys_forge : forge_ok fg;
  sys_phase i ph : ts !! i = Some ph → phase_ok fg ph;
  sys_owned i j ph ph' id : ts !! i = Some ph → ts !! j = Some ph' → owned ph = Some id → owned ph' = Some id → i = j;
}.

Lemma named_32 fg id p : named fg id p → id < 2^32 ∧ p < 2^32.
Proof. intros [[x Hx] Hp]. split; [by apply forge_view_get in Hx as [? _]|by apply name_lt]. Qed.

Lemma named_mono fg fg' id p : grows fg fg' → named fg id p → named fg' id p.
Proof. intros Hg [[x Hx] Hp]. split; [|done]. exists x. by apply (gr_view _ _ Hg). Qed.

Lemma phase_mono fg fg' ph :
  grows fg fg' → (∀ id, owned ph = Some id → forge_view fg' id = None) → phase_ok fg ph → phase_ok fg' ph.
Proof.
  intros Hg Ho. pose proof (gr_next _ _ Hg) as Hn. pose proof (gr_view _ _ Hg) as Hv.
  assert (∀ par, is_Some (forge_view fg par) → parent_depth fg' par = parent_depth fg par) as Hd.
  { intros par Hp. unfold parent_depth. by rewrite (gr_depth _ _ Hg). }
  destruct ph; simpl in *; intros H; try by apply (named_mono fg).
  - destruct H as (? & ? & ?). split_and!; [by eapply named_mono|lia|lia|by apply Ho].
  - done.
  - destruct H as (Hm & ? & ? & ->). split_and!; [by eapply named_mono|lia|lia|by apply Ho|]. symmetry. apply Hd, Hm.
  - destruct H. split; [by eapply named_mono|auto].
  - destruct H. split; [by eapply named_mono|by apply (gr_trans _ _ Hg)].
  - destruct H as (? & l & ? & ?). split; [by eapply named_mono|]. exists l. split; [by eapply chain_mono|done].
  - destruct H as (? & l & ? & ?). split; [by eapply named_mono|]. exists l. split; [by eapply chain_mono|done].
Qed.

Lemma owned_free fg ph id : phase_ok fg ph → owned ph = Some id → forge_view fg id = None ∧ id < next_id fg.
Proof. destruct ph; simpl; intros H [= <-]; naive_solver. Qed.

(** One thread goes on, the others keep what they know. *)
Lemma system_advance fg fg' ts i ph ph' :
  system_ok fg ts → ts !! i = Some ph → forge_ok fg' → grows fg fg' → phase_ok fg' ph' →
  (∀ id, owned ph' = Some id → owned ph = Some id ∨ next_id fg <= id) →
  (∀ j qh id, j ≠ i → ts !! j = Some qh → owned qh = Some id → forge_view fg' id = None) →
  system_ok fg' (<[i := ph']> ts).
Proof.
  intros Hs Hi Hf Hg Hp Ho Hfree. split; [done| |].
  - intros j qh Hj. apply list_lookup_insert_Some in Hj as [(<- & -> & _)|[Hne Hj]]; [done|].
    apply (phase_mono fg); [done| |by eapply sys_phase]. intros id. eapply Hfree; [|done]. by intros ->.
  - assert (∀ j qh id, j ≠ i → ts !! j = Some qh → owned qh = Some id → owned ph' = Some id → False) as Hother.
    { intros j qh id Hne Hj Hq Hq'. destruct (Ho id Hq') as [Hq''|Hge].
      - by apply Hne, (sys_owned _ _ Hs j i qh ph id).
      - destruct (owned_free fg qh id) as [_ ?]; [by eapply sys_phase|done|lia]. }
    intros j k qh rh id Hj Hk Hq Hr.
    apply list_lookup_insert_Some in Hj as [(<- & -> & _)|[Hne Hj]];
      apply list_lookup_insert_Some in Hk as [(<- & -> & _)|[Hne' Hk]]; try done.
    + exfalso. by apply (Hother k rh id).
    + exfalso. by apply (Hother j qh id).
    + by apply (sys_owned _ _ Hs j k qh rh id).
Qed.

Lemma system_local fg ts i ph ph' :
  system_ok fg ts → ts !! i = Some ph → phase_ok fg ph' → (∀ id, owned ph' = Some id → owned ph = Some id) →
  system_ok fg (<[i := ph']> ts).
Proof.
  intros Hs Hi Hp Ho. eapply (system_advance fg fg); [done..|by destruct Hs|apply forge_grows_refl|done|auto|].
  intros j qh id _ Hj Hq. by eapply owned_free, Hq; eapply sys_phase.
Qed.

Lemma system_start fg ts ph :
  system_ok fg ts → phase_ok fg ph → owned ph = None → system_ok fg (ts ++ [ph]).
Proof.
  intros [Hf Hp Ho] Hph Hn. split; [done| |].
  - intros i qh Hi. apply lookup_snoc_Some in Hi as [[_ Hi]|[_ <-]]; [by eapply Hp|done].
  - intros i j qh rh id Hi Hj Hq Hr.
    apply lookup_snoc_Some in Hi as [[_ Hi]|[_ <-]]; apply lookup_snoc_Some in Hj as [[_ Hj]|[_ <-]]; try congruence.
    by eapply Ho.
Qed.

(** A step that leaves identifiers below the limit. *)
Definition bounded_step (st st' : t * list shape_phase) : Prop := forge_step st st' ∧ next_id st'.1 <= 2^24.

Lemma enter_system fg fg' ts i par p id id' :
  system_ok fg ts → ts !! i = Some (MWritten par p id) → enter_transition fg par p id = (id', fg') →
  system_ok fg' (<[i := MDone par p id']> ts).
Proof.
  intros Hs Hi He. destruct (sys_phase _ _ Hs _ _ Hi) as [Hn Hv]. destruct (named_32 _ _ _ Hn).
  destruct (enter_ok fg par p id id' fg') as (Hf & Hg & Ht & Esh & _); [apply Hs|done..|].
  apply (system_advance fg _ _ _ (MWritten par p id)); try done.
  - split; [by eapply named_mono|done].
  - intros j qh jd _ Hj Hq. unfold forge_view. rewrite Esh. by eapply owned_free, Hq; eapply sys_phase.
Qed.

Lemma write_system fg fg' ts i par p id d :
  system_ok fg ts → ts !! i = Some (MDepth par p id d) → write_shape fg par p id d = Ok fg' →
  system_ok fg' (<[i := MWritten par p id]> ts).
Proof.
  intros Hs Hi He. destruct (sys_phase _ _ Hs _ _ Hi) as (Hn & [Hlt Hid] & Hfree & ->).
  destruct (write_ok fg par p id) as (fg'' & E & Hf & Hg & Hv & _); [apply Hs|apply Hn|apply Hn|done..|].
  rewrite E in He. injection He as <-.
  apply (system_advance fg _ _ _ _ _ Hs Hi); try done.
  - split; [by eapply named_mono|]. by rewrite Hv, decide_True.
  - intros j qh jd Hne Hj Hq. rewrite Hv, decide_False; [by eapply owned_free, Hq; eapply sys_phase|].
    intros ->. by apply Hne, (sys_owned _ _ Hs j i qh _ id Hj Hi).
Qed.

Lemma fetch_system fg fg' ts i par p id :
  system_ok fg ts → ts !! i = Some (MFresh par p) → fetch_id fg = (id, fg') → next_id fg' <= 2^24 →
  system_ok fg' (<[i := MNew par p id]> ts).
Proof.
  intros Hs Hi He Hb. pose proof (sys_phase _ _ Hs _ _ Hi) as Hn. simpl in Hn.
  destruct (fetch_ok fg id fg') as (Hf & Hg & -> & En & Hfree); [apply Hs|done..|].
  assert (par < next_id fg) as Hlt.
  { destruct Hn as [[[q o] Hx] _]. apply (tree_node _ _ (fo_tree _ (sys_forge _ _ Hs)) _ _ _ Hx). }
  apply (system_advance fg _ _ _ _ _ Hs Hi); try done.
  - split_and!; [by eapply named_mono|done|rewrite En; lia|done].
  - intros id [= <-]. right. done.
  - intros j qh jd _ Hj Hq. injection He as <-. unfold forge_view. simpl. by eapply owned_free, Hq; eapply sys_phase.
Qed.

Lemma cache_system fg ts i id p pos :
  system_ok fg ts → ts !! i = Some (LFound id p pos) →
  system_ok (cache_position fg id p pos) (<[i := LDone id p (Some pos)]> ts).
Proof.
  intros Hs Hi. destruct (sys_phase _ _ Hs _ _ Hi) as (Hn & l & Hl & Hp). destruct (named_32 _ _ _ Hn).
  destruct (cache_ok fg id p pos l) as [Hf Hg]; [apply Hs|done..|].
  apply (system_advance fg _ _ _ _ _ Hs Hi); try done.
  - split; [by eapply named_mono|]. by exists l.
  - intros j qh jd _ Hj Hq. change (forge_view fg jd = None). by eapply owned_free, Hq; eapply sys_phase.
Qed.

Lemma system_step st st' : bounded_step st st' → system_ok st.1 st.2 → system_ok st'.1 st'.2.
Proof.
  intros [Hstep Hb] Hs. destruct Hstep; simpl in *;
    try (match goal with H : _ !! _ = Some _ |- _ => pose proof (sys_phase _ _ Hs _ _ H) as Hph; simpl in Hph end).
  - apply system_start; try done. split; [by apply get_view|done].
  - apply system_start; try done. split; [by apply get_view|done].
  - by eapply system_local.
  - by eapply system_local.
  - match goal with H : read_overflow _ _ _ = _ |- _ => unfold read_overflow in H; by rewrite (proj1 (fo_overflow _ (sys_forge _ _ Hs))) in H end.
  - by eapply system_local.
  - by eapply fetch_system.
  - exfalso. pose proof (fo_bound _ (sys_forge _ _ Hs)). change (2^24) with 16777216 in *. lia.
  - done.
  - destruct Hph as (? & [? ?] & ?). eapply system_local; [done..|by split_and!|done].
  - by eapply write_system.
  - by eapply enter_system.
  - destruct (named_32 _ _ _ Hph). destruct (fo_pos _ (sys_forge _ _ Hs) id0 p pos) as (l & ? & ?); [done..|].
    eapply system_local; [done..| |done]. split; [done|by exists l].
  - destruct (forge_chain fg id0) as (l & s & Hl & _); [apply Hs|apply Hph|].
    pose proof (forge_find_ok fg id0 l p (sys_forge _ _ Hs) Hl) as E. rewrite E in *.
    match goal with H : Ok _ = Ok r |- _ => injection H as <- end.
    destruct (slot_of p l) as [pos|] eqn:El; (eapply system_local; [done..| |done]); (split; [done|by exists l]).
  - by apply cache_system.
Qed.

Lemma system_reachable fg ts : rtc bounded_step (new, []) (fg, ts) → system_ok fg ts.
Proof.
  intros H. assert (∀ st st', rtc bounded_step st st' → system_ok st.1 st.2 → system_ok st'.1 st'.2) as Hrtc.
  { induction 1; eauto using system_step. }
  apply (Hrtc _ _ H). split; [apply forge_new_ok|by intros ??|by intros ???].
Qed.
End ThreadFacts.

(** ** Slots *)

(** [r] is the place of [p] in a layout: the last one, if the name is there
    more than once. *)
Definition is_slot (names : list N) (p : N) (r : option N) : Prop :=
  match r with
  | Some k => names !! N.to_nat k = Some p ∧ ∀ j, (N.to_nat k < j)%nat → names !! j ≠ Some p
  | None => p ∉ names
  end.

Lemma first_index_lookup p l k :
  first_index p l = Some k → l !! k = Some p ∧ ∀ j, (j < k)%nat → l !! j ≠ Some p.
Proof.
  revert k. induction l as [|x l IH]; simpl; intros k H; [done|]. destruct (N.eqb_spec x p) as [->|Hne].
  - injection H as <-. split; [done|]. intros j. lia.
  - destruct (first_index p l) as [k'|]; simpl in H; [|done]. injection H as <-. destruct (IH k' eq_refl) as [Hk Hlt].
    split; [done|]. intros [|j] Hj; simpl; [congruence|]. apply Hlt. lia.
Qed.

Lemma slot_of_is_slot p l : is_slot (reverse l) p (slot_of p l).
Proof.
  unfold slot_of. destruct (first_index p l) as [k|] eqn:E; simpl.
  - pose proof (first_index_lt _ _ _ E). destruct (first_index_lookup _ _ _ E) as [Hk Hlt].
    replace (N.to_nat (N.of_nat (length l) - N.of_nat k - 1)) with (length l - S k)%nat by lia.
    split; [rewrite reverse_lookup by lia; by replace (length l - S (length l - S k))%nat with k by lia|].
    intros j Hj. destruct (decide (j < length l)%nat); [|by rewrite lookup_ge_None_2 by (rewrite length_reverse; lia)].
    rewrite reverse_lookup by done. apply Hlt. lia.
  - rewrite elem_of_reverse. by apply first_index_None.
Qed.

(** ** The two stores answer alike *)

Inductive shape_op :=
  | OpMake (parent p : N)
  | OpPosition (id p : N)
  | OpHas (id p : N)
  | OpCount (id : N).

Inductive shape_answer := AId (id : N) | APosition (r : option N) | AHas (b : bool) | ACount (n : N).

Definition exec_store (st : ShapeStore.t) (op : shape_op) : res (shape_answer * ShapeStore.t) :=
  match op with
  | OpMake parent p => let* r := ShapeStore.make_shape st parent p in Ok (AId r.1, r.2)
  | OpPosition id p => let* r := ShapeStore.lookup_position st id p in Ok (APosition r, st)
  | OpHas id p => let* b := ShapeStore.has_property st id p in Ok (AHas b, st)
  | OpCount id => let* n := ShapeStore.shape_prop_count st id in Ok (ACount n, st)
  end.

Definition exec_forge (fg : ShapeForge.t) (op : shape_op) : res (shape_answer * ShapeForge.t) :=
  match op with
  | OpMake parent p => let* r := ShapeForge.make_shape fg parent p in Ok (AId r.1, r.2)
  | OpPosition id p => let* r := ShapeForge.lookup_position fg id p in Ok (APosition r.1, r.2)
  | OpHas id p => let* b := ShapeForge.has_property fg id p in Ok (AHas b, fg)
  | OpCount id => Ok (ACount (ShapeForge.shape_prop_count fg id), fg)
  end.

Fixpoint run {T} (exec : T → shape_op → res (shape_answer * T)) (st : T) (ops : list shape_op) : res (list shape_answer) :=
  match ops with
  | [] => Ok []
  | op :: ops => let* r := exec st op in let* l := run exec r.2 ops in Ok (r.1 :: l)
  end.

(** Every operation names a shape that exists by then, and a property. *)
Definition op_valid (st : ShapeStore.t) (op : shape_op) : bool :=
  match op with
  | OpMake id p | OpPosition id p | OpHas id p =>
      bool_decide (is_Some (ShapeStore.get_shape st id)) && (id <? 2^32) && (p <? EMPTY_SENTINEL)
  | OpCount id => bool_decide (is_Some (ShapeStore.get_shape st id)) && (id <? 2^32)
  end.

Fixpoint ops_valid (st : ShapeStore.t) (ops : list shape_op) : bool :=
  match ops with
  | [] => true
  | op :: ops => op_valid st op && match exec_store st op with Ok (_, st) => ops_valid st ops | _ => false end
  end.

Module EquivFacts.
Import StoreFacts ForgeFacts.

Record linked (st : ShapeStore.t) (fg : ShapeForge.t) : Prop := {
  ln_store : store_ok st;
  ln_forge : forge_ok fg;
  ln_next : ShapeForge.next_id fg = ShapeStore.next_id st;
  ln_view id : forge_view fg id = store_view st id;
  ln_trans par p : par < 2^32 → p < 2^32 →
    ShapeForge.transitions fg !! ShapeForge.pack_key par p = ShapeStore.transitions st !! (par, p);
}.

Lemma linked_new : linked ShapeStore.new ShapeForge.new.
Proof.
  split; [apply store_new_ok|apply forge_new_ok|done| |done].
  intros id. unfold forge_view, store_view, view_of. case_decide; [|done]. by destruct (shape_index id) as [|[|j]].
Qed.

Lemma chain_ext v v' id l : (∀ i, v i = v' i) → chain v id l → chain v' id l.
Proof. intros E. apply chain_mono. intros i x. by rewrite E. Qed.

(** The names of a shape, and what bounds their number. *)
Lemma linked_chain st fg id :
  linked st fg → is_Some (store_view st id) →
  ∃ l s, chain (store_view st) id l ∧ chain (forge_view fg) id l ∧ ShapeForge.get_shape fg id = Some s ∧
    ShapeForge.depth s = N.of_nat (length l) ∧ (length l <= length (ShapeStore.shapes st))%nat ∧
    (length l <= length (ShapeForge.shapes fg))%nat ∧ N.of_nat (length l) < 2^24.
Proof.
  intros [Hs Hf Hn Hv Ht] Hid. destruct (forge_chain fg id Hf) as (l & s & Hl & Hg & Hd & Hlen & Hb); [by rewrite Hv|].
  exists l, s. assert (chain (store_view st) id l) as Hl' by (by eapply chain_ext).
  destruct (tree_chain _ _ id (so_tree _ Hs) Hid) as (l' & Hc & Hlt). rewrite (chain_det _ _ _ _ Hc Hl') in *.
  destruct Hid as [[q o] Hx]. destruct (tree_node _ _ (so_tree _ Hs) _ _ _ Hx) as [? _]. pose proof (so_length _ Hs).
  split_and!; try done. lia.
Qed.

Lemma linked_position st fg id p :
  linked st fg → is_Some (store_view st id) → p < 2^32 →
  ∃ l fg', chain (store_view st) id l ∧ ShapeStore.lookup_position st id p = Ok (slot_of p l) ∧
    ShapeForge.lookup_position fg id p = Ok (slot_of p l, fg') ∧ linked st fg'.
Proof.
  intros HL Hid Hp. destruct (linked_chain st fg id HL Hid) as (l & s & Hl & Hl' & Hs & Hd & Hb1 & Hb2 & Hb).
  assert (id < 2^32) as Hid32 by (destruct Hl' as [? E|? ? ? ? E]; by apply forge_view_get in E as [? _]).
  assert (ShapeStore.lookup_position st id p = Ok (slot_of p l)) as Est.
  { unfold ShapeStore.lookup_position. rewrite (count_depth_ok st id l) by (done || lia). cbn [res_bind].
    rewrite (store_find_ok st id l) by (done || lia). unfold slot_of. do 2 f_equal. rewrite N.add_0_l, N.sub_0_r. done. }
  unfold ShapeForge.lookup_position. destruct (ShapeForge.positions fg !! ShapeForge.pack_key id p) as [pos|] eqn:Ep.
  { exists l, fg. destruct (fo_pos _ (ln_forge _ _ HL) id p pos) as (l' & Hc & Es); [done..|].
    rewrite (chain_det _ _ _ _ Hc Hl') in Es. by rewrite <- Es. }
  rewrite (forge_find_ok fg id l p (ln_forge _ _ HL) Hl'). cbn [res_bind]. eexists l, _. split_and!; [done..|].
  destruct (slot_of p l) as [pos|] eqn:Es; [|done]. destruct HL as [H1 H2 H3 H4 H5]. split; try done.
  by apply (cache_ok fg id p pos l).
Qed.

Lemma linked_has st fg id p :
  linked st fg → is_Some (store_view st id) →
  ∃ l, chain (store_view st) id l ∧ ShapeStore.has_property st id p = Ok (bool_decide (p ∈ l)) ∧
    ShapeForge.has_property fg id p = Ok (bool_decide (p ∈ l)).
Proof.
  intros HL Hid. destruct (linked_chain st fg id HL Hid) as (l & s & Hl & Hl' & Hs & Hd & Hb1 & Hb2 & Hb).
  exists l. split_and!; [done|apply store_has_ok; [done|lia]|apply forge_has_ok; [done|lia]].
Qed.

Lemma linked_count st fg id :
  linked st fg → is_Some (store_view st id) →
  ∃ l, chain (store_view st) id l ∧ ShapeStore.shape_prop_count st id = Ok (N.of_nat (length l)) ∧
    ShapeForge.shape_prop_count fg id = N.of_nat (length l).
Proof.
  intros HL Hid. destruct (linked_chain st fg id HL Hid) as (l & s & Hl & Hl' & Hs & Hd & Hb1 & Hb2 & Hb).
  exists l. split_and!; [done| |].
  - unfold ShapeStore.shape_prop_count. rewrite (count_depth_ok st id l) by (done || lia). done.
  - unfold ShapeForge.shape_prop_count. by rewrite Hs.
Qed.

Lemma linked_make st fg par p :
  linked st fg → is_Some (store_view st par) → p < EMPTY_SENTINEL → ShapeStore.next_id st < 2^24 →
  ∃ id st' fg', ShapeStore.make_shape st par p = Ok (id, st') ∧ ShapeForge.make_shape fg par p = Ok (id, fg') ∧
    linked st' fg' ∧ store_view st' id = Some (p, Some par) ∧ ShapeStore.next_id st' <= ShapeStore.next_id st + 1.
Proof.
  intros [Hs Hf Hn Hv Ht] Hpar Hp Hb. assert (is_Some (forge_view fg par)) as Hpar' by (by rewrite Hv).
  assert (par < 2^32) as Hpar32 by (destruct Hpar' as [x Hx]; by apply forge_view_get in Hx as [? _]).
  destruct (store_make_ok st par p) as (id & st' & Est & Hs' & Etr & Hm); [done..|change (2^24) with 16777216 in *; lia|].
  destruct (forge_make_ok fg par p) as (id' & fg' & Efg & Hf' & Etr' & Hm'); [done..|by rewrite Hn|].
  rewrite Ht in Hm' by (done || by apply name_lt).
  assert (id' = id ∧ ShapeForge.next_id fg' = ShapeStore.next_id st' ∧ (∀ j, forge_view fg' j = store_view st' j) ∧
    ShapeStore.next_id st' <= ShapeStore.next_id st + 1) as (-> & Hn' & Hv' & Hle).
  { unfold made in *. destruct (ShapeStore.transitions st !! (par, p)) as [k|].
    - destruct Hm as (-> & -> & Hj), Hm' as (-> & -> & Hj'). split_and!; [done..| |lia]. intros j. by rewrite Hj, Hj', Hv.
    - destruct Hm as (-> & -> & Hj), Hm' as (-> & -> & Hj'). rewrite Hn in *. split_and!; [done..| |lia].
      intros j. rewrite Hj, Hj', Hv. done. }
  exists id, st', fg'. split_and!; try done.
  - split; try done. intros par' p' H1 H2. rewrite Etr, Etr'. destruct (decide ((par, p) = (par', p'))) as [[= <- <-]|Hne].
    + by rewrite !lookup_insert_eq.
    + rewrite !lookup_insert_ne; [by apply Ht|done|]. intros E. apply Hne.
      apply pack_key_inj in E as [-> ->]; [done|done|by apply name_lt|done..].
  - apply (so_trans _ Hs'). by rewrite Etr, lookup_insert_eq.
Qed.
End EquivFacts.

(** ** Properties *)

Lemma op_registered st id : bool_decide (is_Some (ShapeStore.get_shape st id)) && (id <? 2^32) = true →
  is_Some (StoreFacts.store_view st id).
Proof.
  intros [H1%bool_decide_eq_true H2%N.ltb_lt]%andb_true_iff. destruct H1 as [s Hs]. unfold StoreFacts.store_view, view_of.
  rewrite decide_True by done. unfold ShapeStore.get_shape in Hs. rewrite Hs. by eexists.
Qed.

Lemma exec_linked st fg op :
  EquivFacts.linked st fg → op_valid st op = true → ShapeStore.next_id st < 2^24 →
  ∃ a st' fg', exec_store st op = Ok (a, st') ∧ exec_forge fg op = Ok (a, fg') ∧ EquivFacts.linked st' fg' ∧
    ShapeStore.next_id st' <= ShapeStore.next_id st + 1.
Proof.
  intros HL Hv Hn. destruct op as [par p|id p|id p|id]; simpl in Hv.
  1-3: apply andb_true_iff in Hv as [Hid%op_registered Hp%N.ltb_lt].
  - destruct (EquivFacts.linked_make st fg par p) as (id & st' & fg' & E1 & E2 & HL' & _ & Hle); [done..|].
    exists (AId id), st', fg'. unfold exec_store, exec_forge. by rewrite E1, E2.
  - destruct (EquivFacts.linked_position st fg id p) as (l & fg' & _ & E1 & E2 & HL'); [done..|by apply ForgeFacts.name_lt|].
    eexists _, st, fg'. unfold exec_store, exec_forge. rewrite E1, E2. cbn [res_bind]. split_and!; try done. lia.
  - destruct (EquivFacts.linked_has st fg id p) as (l & _ & E1 & E2); [done..|].
    eexists _, st, fg. unfold exec_store, exec_forge. rewrite E1, E2. cbn [res_bind]. split_and!; try done. lia.
  - apply op_registered in Hv. destruct (EquivFacts.linked_count st fg id) as (l & _ & E1 & E2); [done..|].
    eexists _, st, fg. unfold exec_store, exec_forge. rewrite E1, E2. cbn [res_bind]. split_and!; try done. lia.
Qed.

Lemma run_linked ops st fg :
  EquivFacts.linked st fg → ops_valid st ops = true → ShapeStore.next_id st + N.of_nat (length ops) <= 2^24 →
  ∃ l, run exec_store st ops = Ok l ∧ run exec_forge fg ops = Ok l.
Proof.
  revert st fg. induction ops as [|op ops IH]; intros st fg HL Hv Hn; [by exists []|].
  cbn [ops_valid] in Hv. apply andb_true_iff in Hv as [Hop Hv]. cbn [length] in Hn.
  destruct (exec_linked st fg op) as (a & st' & fg' & E1 & E2 & HL' & Hle); [done..|lia|]. rewrite E1 in Hv.
  destruct (IH st' fg') as (l & H1 & H2); [done..|lia|]. exists (a :: l). cbn [run]. rewrite E1, E2.
  cbn [res_bind fst snd]. by rewrite H1, H2.
Qed.

(** C28: The shared store with its caches answers every sequence of
    operations on registered shapes as the plain store: the same identifiers, positions, membership
    and property counts, without a panic, while there are identifiers left. *)
Theorem forge_answers_store ops :
  ops_valid ShapeStore.new ops = true → 2 + N.of_nat (length ops) <= 2^24 →
  ∃ l, run exec_store ShapeStore.new ops = Ok l ∧ run exec_forge ShapeForge.new ops = Ok l.
Proof. intros Hv Hn. by apply run_linked; [apply EquivFacts.linked_new| |]. Qed.

(** C29: In every interleaving of [make_shape] and [lookup_position] calls of
    any number of threads, finished [make_shape] calls return the same
    identifier exactly when they have the same parent and name; that shape
    extends the layout of its parent by the name; and every finished
    [lookup_position] returns the slot the name has in the layout of the
    shape, [None] if it has none. *)
Theorem shapes_shared fg ts :
  rtc ThreadFacts.bounded_step (ShapeForge.new, []) (fg, ts) →
  (∀ i j par p id par' p' id', ts !! i = Some (MDone par p id) → ts !! j = Some (MDone par' p' id') →
    (id = id' ↔ par = par' ∧ p = p')) ∧
  (∀ i par p id, ts !! i = Some (MDone par p id) →
    ∃ l, chain (ForgeFacts.forge_view fg) par l ∧ chain (ForgeFacts.forge_view fg) id (p :: l) ∧
      ShapeForge.shape_prop_count fg id = N.of_nat (length l) + 1) ∧
  (∀ i id p r, ts !! i = Some (LDone id p r) →
    ∃ l, chain (ForgeFacts.forge_view fg) id l ∧ is_slot (reverse l) p r).
Proof.
  intros Hrun%ThreadFacts.system_reachable. pose proof (ThreadFacts.sys_forge _ _ Hrun) as Hf.
  assert (∀ i par p id, ts !! i = Some (MDone par p id) →
    ThreadFacts.named fg par p ∧ ShapeForge.transitions fg !! ShapeForge.pack_key par p = Some id ∧
    ForgeFacts.forge_view fg id = Some (p, Some par)) as Hdone.
  { intros i par p id Hi. destruct (ThreadFacts.sys_phase _ _ Hrun _ _ Hi) as [Hn Ht]. split_and!; [done..|].
    destruct (ThreadFacts.named_32 _ _ _ Hn). by apply (ForgeFacts.fo_trans _ Hf). }
  split_and!.
  - intros i j par p id par' p' id' Hi Hj. destruct (Hdone _ _ _ _ Hi) as (_ & Ht & Hv).
    destruct (Hdone _ _ _ _ Hj) as (_ & Ht' & Hv'). split; [intros <-|intros [<- <-]]; [split; congruence|congruence].
  - intros i par p id Hi. destruct (Hdone _ _ _ _ Hi) as ([Hpar Hp] & Ht & Hv).
    destruct (ForgeFacts.forge_chain fg par Hf Hpar) as (l & s & Hl & _). exists l.
    assert (chain (ForgeFacts.forge_view fg) id (p :: l)) as Hc by (eapply chain_node; [done| |done]; lia).
    split_and!; [done..|]. destruct (ForgeFacts.forge_chain fg id Hf) as (l' & s' & Hl' & Hs' & Hd & _); [by eexists|].
    rewrite (chain_det _ _ _ _ Hl' Hc) in Hd. unfold ShapeForge.shape_prop_count. rewrite Hs', Hd. simpl. lia.
  - intros i id p r Hi. destruct (ThreadFacts.sys_phase _ _ Hrun _ _ Hi) as (_ & l & Hl & <-). exists l.
    split; [done|apply slot_of_is_slot].
Qed.

(** One call of [make_shape] on a shape of the store. *)
Definition make_call (fg fg' : ShapeForge.t) : Prop :=
  ∃ par p id, is_Some (ShapeForge.get_shape fg par) ∧ p < EMPTY_SENTINEL ∧ ShapeForge.make_shape fg par p = Ok (id, fg').

Lemma forge_fills n :
  2 <= n <= 2^24 → ∃ fg, rtc make_call ShapeForge.new fg ∧ ForgeFacts.forge_ok fg ∧ ShapeForge.next_id fg = n ∧
    ∀ p, n <= p < 2^32 → ShapeForge.transitions fg !! ShapeForge.pack_key 1 p = None.
Proof.
  induction n as [|n IH] using N.peano_ind; intros Hn; [lia|]. destruct (N.le_gt_cases 2 n) as [H2|H2].
  - destruct IH as (fg & Hrun & Hok & En & Hfree); [lia|].
    assert (ForgeFacts.forge_view fg 1 = Some (EMPTY_SENTINEL, None)) as Hroot by apply (tree_root _ _ (ForgeFacts.fo_tree _ Hok)).
    assert (n < EMPTY_SENTINEL) as Hns by (unfold EMPTY_SENTINEL; change (2^24) with 16777216 in *; lia).
    destruct (ForgeFacts.forge_make_ok fg 1 n) as (id & fg' & Em & Hok' & Et & Hm); [done|by eexists|done|lia|].
    rewrite Hfree in Hm by (split; [lia|by apply ForgeFacts.name_lt]). destruct Hm as (-> & En' & _).
    exists fg'. split_and!; [|done|lia|].
    + eapply rtc_r; [done|]. exists 1, n, (ShapeForge.next_id fg). split_and!; [|done|done].
      apply ForgeFacts.forge_view_get in Hroot as (_ & s & -> & _). by eexists.
    + intros p [Hp Hp']. rewrite Et, lookup_insert_ne; [apply Hfree; split; [lia|done]|]. intros E.
      apply ForgeFacts.pack_key_inj in E as [_ ->]; try done; [lia|by apply ForgeFacts.name_lt].
  - replace (N.succ n) with 2 by lia. exists ShapeForge.new. split_and!; [done|apply ForgeFacts.forge_new_ok|done|].
    intros p _. apply lookup_empty.
Qed.

(** After [2^24 - 2] shapes a further call returns an identifier under
    which no shape is stored: the name just added is not found in the shape
    returned for it, and that shape has no properties at all. *)
Theorem shape_limit_loses_names :
  ∃ fg p id fg', rtc make_call ShapeForge.new fg ∧ make_call fg fg' ∧
    ShapeForge.make_shape fg EMPTY_SHAPE_ID p = Ok (id, fg') ∧ ShapeForge.get_shape fg' id = None ∧
    ShapeForge.lookup_position fg' id p = Ok (None, fg') ∧ ShapeForge.has_property fg' id p = Ok false ∧
    ShapeForge.shape_prop_count fg' id = 0.
Proof.
  destruct (forge_fills (2^24)) as (fg & Hrun & Hok & En & Hfree); [by vm_compute|].
  assert (ForgeFacts.forge_view fg 1 = Some (EMPTY_SENTINEL, None)) as Hroot by apply (tree_root _ _ (ForgeFacts.fo_tree _ Hok)).
  apply ForgeFacts.forge_view_get in Hroot as (_ & s & Hroot & _).
  assert (ShapeForge.get_shape fg (2^24) = None) as Hnone.
  { destruct (ShapeForge.get_shape fg (2^24)) as [x|] eqn:E; [|done].
    destruct (ForgeFacts.get_view fg (2^24)) as [[q o] Hx]; [done|by eexists|].
    destruct (tree_node _ _ (ForgeFacts.fo_tree _ Hok) _ _ _ Hx) as [[_ Hlt] _]. rewrite En in Hlt. by apply N.lt_irrefl in Hlt. }
  assert (ShapeForge.positions fg !! ShapeForge.pack_key (2^24) (2^24) = None) as Hpos.
  { destruct (ShapeForge.positions fg !! _) as [pos|] eqn:E; [|done].
    apply (ForgeFacts.fo_pos _ Hok) in E as (l & Hl & _); [|done..].
    destruct Hl as [? Hx|? ? ? ? Hx]; apply ForgeFacts.forge_view_get in Hx as (_ & x & Hx & _); congruence. }
  assert (∃ fg', ShapeForge.make_shape fg EMPTY_SHAPE_ID (2^24) = Ok (2^24, fg') ∧
    ShapeForge.shapes fg' = ShapeForge.shapes fg ∧ ShapeForge.positions fg' = ShapeForge.positions fg) as (fg' & Em & Esh & Ep).
  { unfold ShapeForge.make_shape, ShapeForge.read_transition, ShapeForge.read_overflow.
    change EMPTY_SHAPE_ID with 1. rewrite (Hfree (2^24)), (proj1 (ForgeFacts.fo_overflow _ Hok)) by done. unfold ShapeForge.fetch_id. rewrite En.
    replace (0x00FFFFFF <? 2^24) with true by done. unfold ShapeForge.insert_overflow.
    cbn [ShapeForge.overflow_map ShapeForge.activate_overflow]. rewrite (proj2 (ForgeFacts.fo_overflow _ Hok)), lookup_empty.
    by eexists. }
  assert (ShapeForge.get_shape fg' (2^24) = None) as Hnone' by (unfold ShapeForge.get_shape; by rewrite Esh).
  exists fg, (2^24), (2^24), fg'. split_and!; [done| |done|done| | |].
  - exists EMPTY_SHAPE_ID, (2^24), (2^24). split_and!; [by eexists|done|done].
  - unfold ShapeForge.lookup_position. rewrite Ep, Hpos. unfold ShapeForge.find_position. by rewrite Hnone'.
  - unfold ShapeForge.has_property. cbn [ShapeForge.has_property_loop]. by rewrite Hnone'.
  - unfold ShapeForge.shape_prop_count. by rewrite Hnone'.
Qed.

(** Among the templates offered for a shape the first of the best generation
    is kept. *)
Lemma template_best (ts : list PropForge.PropTemplate) (sid : N) :
  match PropForge.get_template (foldl (λ fg t, PropForge.upsert_if_better fg sid t) (∅ : gmap N PropForge.PropTemplate) ts) sid with
  | None => ts = []
  | Some b => ∃ ts1 ts2, ts = ts1 ++ b :: ts2 ∧
      (∀ t, t ∈ ts1 → PropForge.generation t < PropForge.generation b) ∧
      ∀ t, t ∈ ts2 → PropForge.generation t <= PropForge.generation b
  end.
Proof.
  unfold PropForge.get_template. induction ts as [|t ts IH] using rev_ind; [done|].
  rewrite foldl_snoc. set (fg := foldl _ _ ts) in *. unfold PropForge.upsert_if_better.
  destruct (fg !! sid) as [b|] eqn:E.
  - destruct IH as (ts1 & ts2 & -> & H1 & H2). destruct (N.ltb_spec (PropForge.generation b) (PropForge.generation t)) as [Hlt|Hge].
    + rewrite lookup_insert_eq. exists (ts1 ++ b :: ts2), []. split_and!; [done| |set_solver]. intros x.
      rewrite elem_of_app, elem_of_cons. intros [Hx|[->|Hx]]; [specialize (H1 x Hx)| |specialize (H2 x Hx)]; lia.
    + rewrite E. exists ts1, (ts2 ++ [t]). split_and!; [by rewrite <- app_assoc|done|]. intros x.
      rewrite elem_of_app, list_elem_of_singleton. intros [Hx| ->]; [auto|done].
  - rewrite lookup_insert_eq, IH. exists [], []. split_and!; [done|set_solver..].
Qed.

(** ** Witnesses *)

Definition demo_ops : list shape_op :=
  [OpMake 1 7; OpMake 2 9; OpMake 1 7; OpMake 3 7; OpPosition 4 7; OpPosition 4 7; OpPosition 3 5; OpHas 3 9; OpCount 4].

Lemma forge_answers_store_witness :
  run exec_store ShapeStore.new demo_ops = run exec_forge ShapeForge.new demo_ops ∧
  run exec_forge ShapeForge.new demo_ops =
    Ok [AId 2; AId 3; AId 2; AId 4; APosition (Some 2); APosition (Some 2); APosition None; AHas true; ACount 3].
Proof.
  destruct (forge_answers_store demo_ops) as (l & H1 & H2); [by vm_compute|by vm_compute|].
  split; [congruence|]. vm_compute. reflexivity.
Defined.

(** Two threads ask for the same shape; the second takes its identifier
    before the first has entered the transition. *)
Definition demo_run : { st : ShapeForge.t * list shape_phase | rtc ThreadFacts.bounded_step (ShapeForge.new, []) st }.
Proof.
  eexists.
  eapply rtc_l; [split; [eapply (fs_make _ _ 1 7); [by eexists|done|done]|done]|cbn [app]].
  eapply rtc_l; [split; [eapply (fs_make _ _ 1 7); [by eexists|done|done]|done]|cbn [app]].
  eapply rtc_l; [split; [eapply (fs_miss _ _ 0); reflexivity|done]|].
  eapply rtc_l; [split; [eapply (fs_miss _ _ 1); reflexivity|done]|].
  eapply rtc_l; [split; [eapply (fs_overflow_miss _ _ 0); reflexivity|done]|].
  eapply rtc_l; [split; [eapply (fs_overflow_miss _ _ 1); reflexivity|done]|].
  eapply rtc_l; [split; [eapply (fs_fetch _ _ _ 0); reflexivity|done]|].
  eapply rtc_l; [split; [eapply (fs_fetch _ _ _ 1); reflexivity|done]|].
  eapply rtc_l; [split; [eapply (fs_depth _ _ 1); [reflexivity|done]|done]|].
  eapply rtc_l; [split; [eapply (fs_write _ _ _ 1); reflexivity|done]|].
  eapply rtc_l; [split; [eapply (fs_enter _ _ _ 1); reflexivity|done]|].
  eapply rtc_l; [split; [eapply (fs_depth _ _ 0); [reflexivity|done]|done]|].
  eapply rtc_l; [split; [eapply (fs_write _ _ _ 0); reflexivity|done]|].
  eapply rtc_l; [split; [eapply (fs_enter _ _ _ 0); reflexivity|done]|].
  eapply rtc_l; [split; [eapply (fs_query _ _ 3 7); [by eexists|done|done]|done]|cbn [app]].
  eapply rtc_l; [split; [eapply (fs_walk _ _ 2); [reflexivity|vm_compute; reflexivity]|done]|].
  eapply rtc_l; [split; [eapply (fs_cache _ _ 2); reflexivity|done]|].
  apply rtc_refl.
Defined.

Lemma shapes_shared_witness :
  ∃ fg ts, rtc ThreadFacts.bounded_step (ShapeForge.new, []) (fg, ts) ∧
    ts = [MDone 1 7 3; MDone 1 7 3; LDone 3 7 (Some 0)] ∧ (3 = 3 ↔ 1 = 1 ∧ 7 = 7) ∧
    ∃ l, chain (ForgeFacts.forge_view fg) 3 l ∧ is_slot (reverse l) 7 (Some 0).
Proof.
  destruct demo_run as [[fg ts] Hrun] eqn:E. exists fg, ts. destruct (shapes_shared fg ts Hrun) as (H1 & _ & H3).
  assert (ts = [MDone 1 7 3; MDone 1 7 3; LDone 3 7 (Some 0)]) as Hts.
  { change ts with (fg, ts).2. change (fg, ts) with (proj1_sig (exist (λ st, rtc ThreadFacts.bounded_step (ShapeForge.new, []) st) (fg, ts) Hrun)).
    rewrite <- E. reflexivity. }
  split_and!; [done|done| |].
  - apply (H1 0%nat 1%nat); by rewrite Hts.
  - apply (H3 2%nat). by rewrite Hts.
Defined.
