(* ===== verification/ShapeLocks.v ===== *)
(** * The locks of the shape store (crates/oxide_kernel/src/shape_forge.rs)

    [ShapeForge] keeps its vector of shapes and its overflow map behind
    [RwLock]s and its two caches in sharded maps, each shard with a lock of its
    own.  Here every call runs as the source writes it: it asks for a guard,
    works while it holds it and drops it where the scope of the guard ends.  A
    call that asks for a lock waits while another call, or the call itself,
    holds it in a conflicting mode.  ([unwrap] of a guard fails only after a
    holder panicked, which no call does.)  The theorems: calls never block each
    other for good, every run of a set of calls ends with all of them
    returned, and the sections of Shape.v are what the calls do under their
    guards. *)

From stdpp Require Import base tactics numbers list option gmap relations.
From Stdlib Require Import NArith Lia.
From S2P Require Import Prelude Shape.
#[local] Set Warnings "-clear-no-such-hyp".

Open Scope N_scope.

(** ** Guards *)

(** The lock of the vector, of the overflow map, and of the shards. *)
Inductive lock := LShapes | LOverflow | LTransitions (shard : N) | LPositions (shard : N).
Inductive mode := Shared | Exclusive.

#[export] Instance lock_eq_dec : EqDecision lock.
Proof. solve_decision. Defined.
#[export] Instance mode_eq_dec : EqDecision mode.
Proof. solve_decision. Defined.

Definition guard : Type := lock * mode.

(** Dropping one guard. *)
Fixpoint drop_guard (g : guard) (gs : list guard) : list guard :=
  match gs with
  | [] => []
  | h :: gs => if decide (g = h) then gs else h :: drop_guard g gs
  end.

(** ** Calls *)

(** The queries that read the vector once: [has_property], [shape_prop_count],
    [get_shape] and [len]. *)
Inductive query := QHas (id p : N) | QCount (id : N) | QGet (id : N) | QLen.
Inductive answer := IsHas (b : bool) | IsCount (n : N) | IsGet (s : option ShapeForge.Shape) | IsLen (n : nat).

(** Where a call is.  [XAsk] asks for the guard of a section, [XIn] holds it,
    [XOut] has the result of the section and still holds it. *)
Inductive call :=
  | GetAsk (par p : N) | GetIn (par p : N) | GetOut (par p : N) (r : option N)
  | Active (par p : N)
  | OvfAsk (par p : N) | OvfIn (par p : N) | OvfOut (par p : N) (r : option N)
  | Fetch (par p : N) | Fetched (par p id : N)
  | PutAsk (par p id : N) | PutIn (par p id : N) | PutOut (par p id : N)
  | DepthAsk (par p id : N) | DepthIn (par p id : N) | DepthOut (par p id d : N)
  | WriteAsk (par p id d : N) | WriteIn (par p id d : N) | WriteOut (par p id : N)
  | EnterAsk (par p id : N) | EnterIn (par p id : N) | EnterOut (par p id : N)
  | Made (par p id : N)
  | PosAsk (id p : N) | PosIn (id p : N) | PosOut (id p : N) (r : option N)
  | WalkAsk (id p : N) | WalkIn (id p : N) | WalkOut (id p : N) (r : option N)
  | CacheAsk (id p pos : N) | CacheIn (id p pos : N) | CacheOut (id p pos : N)
  | Found (id p : N) (r : option N)
  | QueryAsk (q : query) | QueryIn (q : query) | QueryOut (q : query) (a : answer) | Answered (q : query) (a : answer).

Inductive effect := Acquire (l : lock) (m : mode) | Release (l : lock) (m : mode) | Local.

Section calls.
Import ShapeForge.

(** The shard of a key, chosen by the map. *)
Context (shard : N → N).

Definition ltrans (par p : N) : lock := LTransitions (shard (pack_key par p)).
Definition lpos (id p : N) : lock := LPositions (shard (pack_key id p)).

Definition read_query (fg : t) (q : query) : res answer :=
  match q with
  | QHas id p => let* b := has_property fg id p in Ok (IsHas b)
  | QCount id => Ok (IsCount (shape_prop_count fg id))
  | QGet id => Ok (IsGet (get_shape fg id))
  | QLen => Ok (IsLen (len fg))
  end.

(** The next step of a call: what it does to its guards, to the store, and
    where it goes; [None] when it has returned. *)
Definition act (fg : t) (c : call) : res (option (effect * t * call)) :=
  match c with
  | GetAsk par p => Ok (Some (Acquire (ltrans par p) Shared, fg, GetIn par p))
  | GetIn par p => Ok (Some (Local, fg, GetOut par p (read_transition fg par p)))
  | GetOut par p r =>
      Ok (Some (Release (ltrans par p) Shared, fg, match r with Some id => Made par p id | None => Active par p end))
  | Active par p => Ok (Some (Local, fg, if overflow_active fg then OvfAsk par p else Fetch par p))
  | OvfAsk par p => Ok (Some (Acquire LOverflow Shared, fg, OvfIn par p))
  | OvfIn par p => Ok (Some (Local, fg, OvfOut par p (overflow_map fg !! pack_key par p)))
  | OvfOut par p r =>
      Ok (Some (Release LOverflow Shared, fg, match r with Some id => Made par p id | None => Fetch par p end))
  | Fetch par p => let '(id, fg') := fetch_id fg in Ok (Some (Local, fg', Fetched par p id))
  | Fetched par p id =>
      if 0x00FFFFFF <? id then Ok (Some (Local, activate_overflow fg, PutAsk par p id))
      else Ok (Some (Local, fg, DepthAsk par p id))
  | PutAsk par p id => Ok (Some (Acquire LOverflow Exclusive, fg, PutIn par p id))
  | PutIn par p id => let '(id', fg') := insert_overflow fg par p id in Ok (Some (Local, fg', PutOut par p id'))
  | PutOut par p id => Ok (Some (Release LOverflow Exclusive, fg, Made par p id))
  | DepthAsk par p id => Ok (Some (Acquire LShapes Shared, fg, DepthIn par p id))
  | DepthIn par p id => Ok (Some (Local, fg, DepthOut par p id (parent_depth fg par)))
  | DepthOut par p id d => Ok (Some (Release LShapes Shared, fg, WriteAsk par p id d))
  | WriteAsk par p id d => Ok (Some (Acquire LShapes Exclusive, fg, WriteIn par p id d))
  | WriteIn par p id d => let* fg' := write_shape fg par p id d in Ok (Some (Local, fg', WriteOut par p id))
  | WriteOut par p id => Ok (Some (Release LShapes Exclusive, fg, EnterAsk par p id))
  | EnterAsk par p id => Ok (Some (Acquire (ltrans par p) Exclusive, fg, EnterIn par p id))
  | EnterIn par p id => let '(id', fg') := enter_transition fg par p id in Ok (Some (Local, fg', EnterOut par p id'))
  | EnterOut par p id => Ok (Some (Release (ltrans par p) Exclusive, fg, Made par p id))
  | Made _ _ _ => Ok None
  | PosAsk id p => Ok (Some (Acquire (lpos id p) Shared, fg, PosIn id p))
  | PosIn id p => Ok (Some (Local, fg, PosOut id p (positions fg !! pack_key id p)))
  | PosOut id p r =>
      Ok (Some (Release (lpos id p) Shared, fg, match r with Some pos => Found id p (Some pos) | None => WalkAsk id p end))
  | WalkAsk id p => Ok (Some (Acquire LShapes Shared, fg, WalkIn id p))
  | WalkIn id p => let* r := find_position fg id p in Ok (Some (Local, fg, WalkOut id p r))
  | WalkOut id p r =>
      Ok (Some (Release LShapes Shared, fg, match r with Some pos => CacheAsk id p pos | None => Found id p None end))
  | CacheAsk id p pos => Ok (Some (Acquire (lpos id p) Exclusive, fg, CacheIn id p pos))
  | CacheIn id p pos => Ok (Some (Local, cache_position fg id p pos, CacheOut id p pos))
  | CacheOut id p pos => Ok (Some (Release (lpos id p) Exclusive, fg, Found id p (Some pos)))
  | Found _ _ _ => Ok None
  | QueryAsk q => Ok (Some (Acquire LShapes Shared, fg, QueryIn q))
  | QueryIn q => let* a := read_query fg q in Ok (Some (Local, fg, QueryOut q a))
  | QueryOut q a => Ok (Some (Release LShapes Shared, fg, Answered q a))
  | Answered _ _ => Ok None
  end.

(** ** Threads *)

Record thread := mkThread {
  at_ : call;
  guards : list guard;
}.

Definition after (e : effect) (gs : list guard) : list guard :=
  match e with Acquire l m => (l, m) :: gs | Release l m => drop_guard (l, m) gs | Local => gs end.

(** No guard of the lock is held, by this thread or another. *)
Definition unheld (ts : list thread) (l : lock) : Prop := Forall (λ th, l ∉ (guards th).*1) ts.

(** A guard can be given: readers share a lock, a writer is alone. *)
Definition available (ts : list thread) (l : lock) (m : mode) : Prop :=
  match m with Shared => Forall (λ th, (l, Exclusive) ∉ guards th) ts | Exclusive => unheld ts l end.

Definition permitted (ts : list thread) (e : effect) : Prop :=
  match e with Acquire l m => available ts l m | _ => True end.

(** The step does not wait, whatever policy the lock has for readers: it asks
    for no guard, or for one of a lock nobody holds. *)
Definition unblocked (ts : list thread) (e : effect) : Prop :=
  match e with Acquire l _ => unheld ts l | _ => True end.

Definition state : Type := t * list thread.

Inductive step_with (P : list thread → effect → Prop) : state → state → Prop :=
  | step_call fg ts i th e fg' c' :
      ts !! i = Some th → act fg (at_ th) = Ok (Some (e, fg', c')) → P ts e →
      step_with P (fg, ts) (fg', <[i := mkThread c' (after e (guards th))]> ts).

Definition lock_step : state → state → Prop := step_with permitted.
Definition free_step : state → state → Prop := step_with unblocked.

(** New calls use identifiers that were given out, overflow ones included. *)
Definition startable (fg : t) (c : call) : Prop :=
  match c with
  | GetAsk par p => 1 <= par < next_id fg
  | PosAsk id p => id < 2^32
  | QueryAsk (QHas id _) => id < 2^32
  | QueryAsk _ => True
  | _ => False
  end.

(** Calls that [P] allows start, and calls go on while the counter of
    identifiers does not wrap. *)
Inductive locks_step (P : t → call → Prop) : state → state → Prop :=
  | sys_start fg ts c : P fg c → locks_step P (fg, ts) (fg, ts ++ [mkThread c []])
  | sys_go st st' : lock_step st st' → next_id st'.1 ≠ 0 → locks_step P st st'.

Definition finished (th : thread) : bool :=
  match at_ th with Made _ _ _ | Found _ _ _ | Answered _ _ => true | _ => false end.

(** ** Guards held *)

(** The guard a call holds at each place. *)
Definition held (c : call) : list guard :=
  match c with
  | GetIn par p | GetOut par p _ => [(ltrans par p, Shared)]
  | OvfIn _ _ | OvfOut _ _ _ => [(LOverflow, Shared)]
  | PutIn _ _ _ | PutOut _ _ _ => [(LOverflow, Exclusive)]
  | DepthIn _ _ _ | DepthOut _ _ _ _ | WalkIn _ _ | WalkOut _ _ _ | QueryIn _ | QueryOut _ _ => [(LShapes, Shared)]
  | WriteIn _ _ _ _ | WriteOut _ _ _ => [(LShapes, Exclusive)]
  | EnterIn par p _ | EnterOut par p _ => [(ltrans par p, Exclusive)]
  | PosIn id p | PosOut id p _ => [(lpos id p, Shared)]
  | CacheIn id p _ | CacheOut id p _ => [(lpos id p, Exclusive)]
  | _ => []
  end.

(** Sections and guard operations a call has left. *)
Definition rank (c : call) : nat :=
  match c with
  | GetAsk _ _ => 18 | GetIn _ _ => 17 | GetOut _ _ _ => 16 | Active _ _ => 15
  | OvfAsk _ _ => 14 | OvfIn _ _ => 13 | OvfOut _ _ _ => 12 | Fetch _ _ => 11 | Fetched _ _ _ => 10
  | DepthAsk _ _ _ => 9 | DepthIn _ _ _ => 8 | DepthOut _ _ _ _ => 7
  | WriteAsk _ _ _ _ => 6 | WriteIn _ _ _ _ => 5 | WriteOut _ _ _ => 4
  | EnterAsk _ _ _ | PutAsk _ _ _ => 3 | EnterIn _ _ _ | PutIn _ _ _ => 2 | EnterOut _ _ _ | PutOut _ _ _ => 1
  | PosAsk _ _ => 9 | PosIn _ _ => 8 | PosOut _ _ _ => 7 | WalkAsk _ _ => 6 | WalkIn _ _ => 5 | WalkOut _ _ _ => 4
  | CacheAsk _ _ _ => 3 | CacheIn _ _ _ => 2 | CacheOut _ _ _ => 1
  | QueryAsk _ => 3 | QueryIn _ => 2 | QueryOut _ _ => 1
  | Made _ _ _ | Found _ _ _ | Answered _ _ => 0
  end%nat.

(** Case analysis on what a step does. *)
Ltac act_cases :=
  repeat match goal with
  | H : res_bind _ _ = Ok _ |- _ => res_inv
  | H : context [fetch_id ?fg] |- _ => unfold fetch_id in H
  | H : context [insert_overflow ?fg ?a ?b ?c] |- _ => unfold insert_overflow in H
  | H : context [enter_transition ?fg ?a ?b ?c] |- _ => unfold enter_transition in H
  | H : context [if ?b then _ else _] |- _ => destruct b eqn:?
  | H : context [match ?r with Some _ => _ | None => _ end] |- _ => destruct r eqn:?
  end; simplify_eq.

Lemma act_held fg c e fg' c' : act fg c = Ok (Some (e, fg', c')) → after e (held c) = held c'.
Proof. destruct c; simpl; intros H; act_cases; simpl; try case_decide; done. Qed.

Lemma act_rank fg c e fg' c' : act fg c = Ok (Some (e, fg', c')) → (rank c' < rank c)%nat.
Proof. destruct c; simpl; intros H; act_cases; simpl; lia. Qed.

(** No call asks for a guard while it holds one. *)
Lemma act_one_guard fg c l m fg' c' : act fg c = Ok (Some (Acquire l m, fg', c')) → held c = [].
Proof. destruct c; simpl; intros H; act_cases; done. Qed.

Lemma act_finished fg c gs : act fg c = Ok None ↔ finished (mkThread c gs) = true.
Proof.
  split; [|by destruct c]. destruct c; simpl; intros H; act_cases; done.
Qed.

Lemma rank_bound c : (rank c <= 18)%nat.
Proof. destruct c; simpl; lia. Qed.

(** ** What the calls rely on *)

(** A shape comes after its parent in the vector, and identifiers are 32-bit
    numbers from 2 on. *)
Record sound_forge (fg : t) : Prop := {
  so_parent k s par : shapes fg !! k = Some (Some s) → parent s = Some par → 1 <= par < 2^32 ∧ (N.to_nat par <= k)%nat;
  so_next : 2 <= next_id fg < 2^32;
}.

(** The parent was given out before the new identifier; once the overflow map
    is asked it is in use. *)
Definition call_sound (fg : t) (c : call) : Prop :=
  match c with
  | GetAsk par _ | GetIn par _ | GetOut par _ _ | Active par _ | Fetch par _ => 1 <= par < next_id fg
  | OvfAsk par _ | OvfIn par _ | OvfOut par _ _ => 1 <= par < next_id fg ∧ overflow_active fg = true
  | Fetched par _ id => 1 <= par < id ∧ id < 2^32
  | DepthAsk par _ id | DepthIn par _ id | DepthOut par _ id _ | WriteAsk par _ id _ | WriteIn par _ id _ =>
      1 <= par < id ∧ id <= 0x00FFFFFF
  | _ => True
  end.

(** What a step keeps for the other calls. *)
Definition extends (fg fg' : t) : Prop :=
  next_id fg <= next_id fg' ∧ (overflow_active fg = true → overflow_active fg' = true).

Lemma call_sound_extends fg fg' c : extends fg fg' → call_sound fg c → call_sound fg' c.
Proof. intros [Hn Ho]. destruct c; simpl; try done; try (intros [? ?]; split; [lia|auto]); lia. Qed.

Lemma startable_ok fg c : startable fg c → call_sound fg c ∧ held c = [].
Proof. destruct c; simpl; try done. Qed.

Lemma next_succ fg : next_id fg < 2^32 → u32 (next_id fg + 1) ≠ 0 → u32 (next_id fg + 1) = next_id fg + 1 ∧ next_id fg + 1 < 2^32.
Proof.
  unfold u32. intros H1 H2. destruct (decide (next_id fg + 1 = 2^32)) as [E|Hne].
  - exfalso. apply H2. by rewrite E, N.Div0.mod_same.
  - rewrite N.mod_small by lia. lia.
Qed.

Lemma write_sound fg par p id d :
  sound_forge fg → 1 <= par < id → id <= 0x00FFFFFF →
  ∃ fg', write_shape fg par p id d = Ok fg' ∧ sound_forge fg' ∧ next_id fg' = next_id fg ∧ overflow_active fg' = overflow_active fg.
Proof.
  intros Hs Hp Hid. unfold write_shape.
  destruct (place_ok (shapes fg) id (mkShape id p (Some par) (u32 (d + 1)))) as (sh & -> & _ & Hsh); [lia|lia|].
  simpl. eexists. split; [done|]. split_and!; [|done..]. split; simpl; [|apply Hs].
  intros k s par' Hk Hpar. assert (mjoin (sh !! k) = Some s) as Hk' by (by rewrite Hk). rewrite Hsh in Hk'.
  case_decide as E.
  - simplify_eq. simpl in Hpar. simplify_eq. rewrite (shape_index_lt id) by lia. lia.
  - destruct (shapes fg !! k) as [[s'|]|] eqn:E'; simplify_eq/=. by eapply so_parent.
Qed.

(** The loops that follow parents reach the root: the index falls. *)
Lemma parent_falls fg id s par :
  sound_forge fg → get_shape fg id = Some s → parent s = Some par → (shape_index par < shape_index id)%nat.
Proof.
  unfold get_shape. intros Hs Hg Hp. destruct (shapes fg !! shape_index id) as [[s'|]|] eqn:E; simplify_eq/=.
  destruct (so_parent _ Hs _ _ _ E Hp) as [[? ?] ?]. rewrite (shape_index_lt par) by lia. lia.
Qed.

Lemma walk_total fg p total :
  sound_forge fg → ∀ fuel id steps, (shape_index id < fuel)%nat →
  is_ok (walk_position fuel fg (Some id) p total steps).
Proof.
  intros Hs. induction fuel as [|fuel IH]; simpl; intros id steps Hf; [lia|].
  destruct (get_shape fg id) as [s|] eqn:E; [|by eexists].
  assert (∀ steps, is_ok (walk_position fuel fg (parent s) p total steps)) as Hrec.
  { intros st. destruct (parent s) as [par|] eqn:Ep; [|by destruct fuel; eexists].
    apply IH. pose proof (parent_falls _ _ _ _ Hs E Ep). lia. }
  destruct (property_name s =? EMPTY_SENTINEL); [apply Hrec|].
  destruct (property_name s =? p); [by eexists|apply Hrec].
Qed.

Lemma has_total fg p :
  sound_forge fg → ∀ fuel id, (shape_index id < fuel)%nat → is_ok (has_property_loop fuel fg (Some id) p).
Proof.
  intros Hs. induction fuel as [|fuel IH]; simpl; intros id Hf; [lia|].
  destruct (get_shape fg id) as [s|] eqn:E; [|by eexists]. case_match; [by eexists|].
  destruct (parent s) as [par|] eqn:Ep; [|by destruct fuel; eexists].
  apply IH. pose proof (parent_falls _ _ _ _ Hs E Ep). lia.
Qed.

Lemma get_shape_index fg id s : get_shape fg id = Some s → (shape_index id < S (length (shapes fg)))%nat.
Proof.
  unfold get_shape. intros H. destruct (shapes fg !! shape_index id) eqn:E; [|done]. apply lookup_lt_Some in E. lia.
Qed.

Lemma find_position_total fg id p : sound_forge fg → is_ok (find_position fg id p).
Proof.
  intros Hs. unfold find_position. destruct (get_shape fg id) as [s|] eqn:E; [|by eexists].
  apply walk_total; [done|by eapply get_shape_index].
Qed.

Lemma has_property_total fg id p : sound_forge fg → is_ok (has_property fg id p).
Proof.
  intros Hs. unfold has_property. destruct (get_shape fg id) as [s|] eqn:E.
  - apply has_total; [done|by eapply get_shape_index].
  - cbn [has_property_loop]. rewrite E. by eexists.
Qed.

(** No step panics. *)
Lemma act_total fg c : sound_forge fg → call_sound fg c → is_ok (act fg c).
Proof.
  intros Hs Hc. destruct c; simpl in *; try (by eexists).
  - case_match; by eexists.
  - by destruct (insert_overflow _ _ _ _); eexists.
  - edestruct write_sound as (fg' & E & _); [done|apply Hc|apply Hc|]. rewrite E. by eexists.
  - by destruct (enter_transition _ _ _ _); eexists.
  - edestruct find_position_total as [r E]; [done|]. rewrite E. by eexists.
  - destruct q as [id p|id|id|]; simpl; try (by eexists). destruct (has_property_total fg id p Hs) as [b ->]. by eexists.
Qed.

(** A step that leaves the vector and the counter. *)
Lemma sound_same fg fg' :
  sound_forge fg → shapes fg' = shapes fg → next_id fg' = next_id fg →
  (overflow_active fg = true → overflow_active fg' = true) → sound_forge fg' ∧ extends fg fg'.
Proof.
  intros [Hp Hx] Es En Ho. split; [split; [by rewrite Es|by rewrite En]|]. split; [by rewrite En|done].
Qed.

Lemma act_sound fg c e fg' c' :
  sound_forge fg → call_sound fg c → act fg c = Ok (Some (e, fg', c')) → next_id fg' ≠ 0 →
  sound_forge fg' ∧ extends fg fg' ∧ call_sound fg' c'.
Proof.
  intros Hs Hc H Hn. pose proof (so_next _ Hs) as Hnx. apply (and_assoc (sound_forge fg')).
  destruct c; simpl in H, Hc; act_cases; simpl in Hn |- *;
    try (split; [by apply sound_same|try done; rewrite ?N.ltb_ge in *; simpl in *; tauto]).
  - destruct (next_succ fg) as [E ?]; [lia|done|]. split; [|lia].
    split; [split; [apply Hs|simpl; lia]|]. split; simpl; [lia|done].
  - edestruct write_sound as (fg2 & E2 & Hs2 & Hn2 & Ho2); [done|apply Hc|apply Hc|].
    rewrite E2 in *. simplify_eq. split; [|done]. split; [done|]. split; [lia|congruence].
Qed.

(** ** The system *)

Record locks_ok (st : state) : Prop := {
  sk_forge : sound_forge st.1;
  sk_call : Forall (λ th, call_sound st.1 (at_ th)) st.2;
  sk_held : Forall (λ th, guards th = held (at_ th)) st.2;
  sk_alone i j thi thj l : st.2 !! i = Some thi → st.2 !! j = Some thj → i ≠ j →
    (l, Exclusive) ∈ guards thi → l ∉ (guards thj).*1;
}.

Lemma locks_new : locks_ok (new, []).
Proof.
  split; simpl; [|by constructor..|done]. split; [|simpl; lia]. intros [|k] s par; simpl; [|done].
  intros [= <-]. done.
Qed.

Lemma locks_start P st fg c :
  (∀ fg c, P fg c → startable fg c) → P fg c → locks_ok (fg, st) → locks_ok (fg, st ++ [mkThread c []]).
Proof.
  intros HP Hc%HP%startable_ok Hst. destruct Hc as [Hc Hh]. split; simpl.
  - apply Hst.
  - apply Forall_app. split; [apply Hst|]. by repeat constructor.
  - apply Forall_app. split; [apply Hst|]. by repeat constructor.
  - intros i j thi thj l Hi Hj Hne Hin.
    apply lookup_app_Some in Hi as [Hi|[_ [_ <-]%list_lookup_singleton_Some]]; [|set_solver].
    apply lookup_app_Some in Hj as [Hj|[_ [_ <-]%list_lookup_singleton_Some]]; [|set_solver].
    by apply (sk_alone _ Hst i j thi thj l).
Qed.

Lemma after_elem g e gs : g ∈ after e gs → g ∈ gs ∨ e = Acquire g.1 g.2.
Proof.
  destruct e as [l m|l m|]; simpl; [rewrite elem_of_cons; intros [->|?]; auto| |by left].
  intros H. left. induction gs as [|h gs IH]; simpl in H; [done|]. case_decide; set_solver.
Qed.

Lemma available_no_writer ts l m i th : available ts l m → ts !! i = Some th → (l, Exclusive) ∉ guards th.
Proof.
  intros Ha Hi. destruct m; simpl in Ha; pose proof (Forall_lookup_1 _ _ _ _ Ha Hi) as H; simpl in H; [done|].
  intros Hin. apply H. apply list_elem_of_fmap. by exists (l, Exclusive).
Qed.

(** A guard given respects the guards the other calls hold. *)
Lemma guards_alone ts i th e c' :
  (∀ i j thi thj l, ts !! i = Some thi → ts !! j = Some thj → i ≠ j → (l, Exclusive) ∈ guards thi → l ∉ (guards thj).*1) →
  ts !! i = Some th → permitted ts e →
  ∀ j k thj thk l, <[i := mkThread c' (after e (guards th))]> ts !! j = Some thj →
    <[i := mkThread c' (after e (guards th))]> ts !! k = Some thk → j ≠ k →
    (l, Exclusive) ∈ guards thj → l ∉ (guards thk).*1.
Proof.
  intros Hold Hi Hp j k thj thk l Hj Hk Hne Hin Hl.
  apply list_lookup_insert_Some in Hj as [(<- & <- & _)|[Hij Hj]];
    apply list_lookup_insert_Some in Hk as [(<- & <- & _)|[Hik Hk]]; try done; simpl in *.
  - apply after_elem in Hin as [Hin| ->]; [by apply (Hold i k th thk l)|].
    simpl in Hp. by apply (Forall_lookup_1 _ _ _ _ Hp Hk).
  - apply list_elem_of_fmap in Hl as ([l' m] & -> & Hl). apply after_elem in Hl as [Hl| ->].
    + apply (Hold j i thj th l'); [done..|]. apply list_elem_of_fmap. by exists (l', m).
    + by apply (available_no_writer ts l' m j thj).
  - by apply (Hold j k thj thk l).
Qed.

Lemma locks_go st st' : lock_step st st' → next_id st'.1 ≠ 0 → locks_ok st → locks_ok st'.
Proof.
  intros Hstep Hn Hst. destruct Hstep as [fg ts i th e fg' c' Hi Ha Hp].
  pose proof (Forall_lookup_1 _ _ _ _ (sk_call _ Hst) Hi) as Hc. pose proof (Forall_lookup_1 _ _ _ _ (sk_held _ Hst) Hi) as Hh.
  simpl in *. destruct (act_sound _ _ _ _ _ (sk_forge _ Hst) Hc Ha Hn) as (Hs & Hg & Hc'). split; simpl.
  - done.
  - apply Forall_insert; [|done]. eapply Forall_impl; [apply Hst|]. intros th'. by apply call_sound_extends.
  - apply Forall_insert; [apply Hst|]. simpl. rewrite Hh. by eapply act_held.
  - by apply guards_alone; [apply Hst| |].
Qed.

Lemma locks_reach P st :
  (∀ fg c, P fg c → startable fg c) → rtc (locks_step P) (new, []) st → locks_ok st.
Proof.
  intros HP. revert st. apply rtc_ind_r; [apply locks_new|]. intros st st' _ Hstep IH.
  destruct Hstep as [fg ts c Hc|st st' Hstep Hn]; [by eapply locks_start|by eapply locks_go].
Qed.

(** ** Progress *)

Lemma unblocked_permitted ts e : unblocked ts e → permitted ts e.
Proof.
  destruct e as [l [|]|l m|]; simpl; try done. intros H. eapply Forall_impl; [apply H|]. intros th Hl Hin.
  apply Hl, list_elem_of_fmap. by exists (l, Exclusive).
Qed.

Lemma free_lock st st' : free_step st st' → lock_step st st'.
Proof.
  intros [fg ts i th e fg' c' Hi Ha Hu]. apply (step_call permitted fg ts i th e fg' c' Hi Ha). by apply unblocked_permitted.
Qed.

(** A call that has not returned goes on at once when it holds a guard, or
    when nobody holds one. *)
Lemma call_goes fg ts i th :
  locks_ok (fg, ts) → ts !! i = Some th → finished th = false →
  guards th ≠ [] ∨ Forall (λ th, guards th = []) ts → ∃ st', free_step (fg, ts) st'.
Proof.
  intros Hst Hi Hf Hg. pose proof (Forall_lookup_1 _ _ _ _ (sk_held _ Hst) Hi) as Hh.
  destruct (act_total fg (at_ th)) as [[[[e fg'] c']|] Ha];
    [apply Hst|by apply (Forall_lookup_1 _ _ _ _ (sk_call _ Hst) Hi)| |].
  - eexists. apply (step_call unblocked fg ts i th e fg' c' Hi Ha). destruct e as [l m|l m|]; simpl; [|done..].
    destruct Hg as [Hg|Hg]; [by rewrite Hh, (act_one_guard _ _ _ _ _ _ Ha) in Hg|].
    eapply Forall_impl; [apply Hg|]. intros th' E. simpl. rewrite E. simpl. set_solver.
  - apply (act_finished _ _ (guards th)) in Ha. destruct th. simpl in *. congruence.
Qed.

Lemma finished_held th : finished th = true → held (at_ th) = [].
Proof. unfold finished. by destruct (at_ th). Qed.

Lemma locks_goes fg ts :
  locks_ok (fg, ts) → Exists (λ th, finished th = false) ts → ∃ st', free_step (fg, ts) st'.
Proof.
  intros Hst He. destruct (decide (Forall (λ th, guards th = []) ts)) as [Hall|Hno%not_Forall_Exists]; [| |apply _].
  - apply Exists_exists in He as (th & [i Hi]%list_elem_of_lookup_1 & Hf). by eapply call_goes; eauto.
  - apply Exists_exists in Hno as (th & [i Hi]%list_elem_of_lookup_1 & Hf). eapply call_goes; [done..| |by left].
    destruct (finished th) eqn:E; [|done]. exfalso. apply Hf.
    rewrite (Forall_lookup_1 _ _ _ _ (sk_held _ Hst) Hi). by apply finished_held.
Qed.

(** ** The bound on steps *)

Definition work (ts : list thread) : nat := sum_list_with (λ th, rank (at_ th)) ts.

Lemma work_bound ts : (work ts <= 18 * length ts)%nat.
Proof.
  unfold work. induction ts as [|th ts IH]; simpl; [lia|]. pose proof (rank_bound (at_ th)). lia.
Qed.

Lemma work_insert ts i th th' :
  ts !! i = Some th → (rank (at_ th') < rank (at_ th))%nat → (work (<[i := th']> ts) < work ts)%nat.
Proof.
  unfold work. revert i. induction ts as [|x ts IH]; intros [|i]; simpl; intros Hi Hr; simplify_eq; [lia|].
  specialize (IH i Hi Hr). lia.
Qed.

Lemma lock_steps_bound n st st' : nsteps lock_step n st st' → (n + work st'.2 <= work st.2)%nat.
Proof.
  induction 1 as [st|n st st1 st' Hstep _ IH]; [lia|].
  destruct Hstep as [fg ts i th e fg' c' Hi Ha _]. apply act_rank in Ha.
  pose proof (work_insert ts i th (mkThread c' (after e (guards th))) Hi Ha). simpl in *. lia.
Qed.

(** ** The sections of the calls *)

(** Where a call of [forge_step] is; the queries are not calls there. *)
Definition section_of (c : call) : option shape_phase :=
  match c with
  | GetAsk par p | GetIn par p => Some (MStart par p)
  | GetOut par p (Some id) | OvfOut par p (Some id) => Some (MDone par p id)
  | GetOut par p None | Active par p | OvfAsk par p | OvfIn par p => Some (MMissed par p)
  | OvfOut par p None | Fetch par p => Some (MFresh par p)
  | Fetched par p id | DepthAsk par p id | DepthIn par p id => Some (MNew par p id)
  | PutAsk par p id | PutIn par p id => Some (MOverflow par p id)
  | DepthOut par p id d | WriteAsk par p id d | WriteIn par p id d => Some (MDepth par p id d)
  | WriteOut par p id | EnterAsk par p id | EnterIn par p id => Some (MWritten par p id)
  | PutOut par p id | EnterOut par p id | Made par p id => Some (MDone par p id)
  | PosAsk id p | PosIn id p | PosOut id p None | WalkAsk id p | WalkIn id p => Some (LStart id p)
  | WalkOut id p (Some pos) | CacheAsk id p pos | CacheIn id p pos => Some (LFound id p pos)
  | PosOut id p (Some pos) | CacheOut id p pos => Some (LDone id p (Some pos))
  | WalkOut id p None => Some (LDone id p None)
  | Found id p r => Some (LDone id p r)
  | QueryAsk _ | QueryIn _ | QueryOut _ _ | Answered _ _ => None
  end.

Definition sections_of (ts : list thread) : list shape_phase := omap (λ th, section_of (at_ th)) ts.

(** A step changes nothing of the sections, or is one section. *)
Lemma act_section fg c e fg' c' :
  call_sound fg c → act fg c = Ok (Some (e, fg', c')) →
  (fg' = fg ∧ section_of c' = section_of c) ∨
  ∃ ph ph', section_of c = Some ph ∧ section_of c' = Some ph' ∧
    ∀ ts j, ts !! j = Some ph → forge_step (fg, ts) (fg', <[j := ph']> ts).
Proof.
  intros Hc H. destruct c; simpl in H, Hc; act_cases; try (by left);
    try match goal with |- context [PosOut _ _ ?r] => destruct r eqn:?; [|by left] end; right.
  - destruct (read_transition fg' par p) eqn:E; do 2 eexists; (split_and!; [done..|]); intros ts j Hj;
      [by apply fs_hit|by apply fs_miss].
  - do 2 eexists. split_and!; [done..|]. intros ts j Hj. apply fs_overflow_miss; [done|].
    unfold read_overflow. by replace (overflow_active fg') with false.
  - destruct Hc as [_ Ho]. assert (overflow_map fg' !! pack_key par p = read_overflow fg' par p) as -> by (unfold read_overflow; by rewrite Ho).
    destruct (read_overflow fg' par p) eqn:E; do 2 eexists; (split_and!; [done..|]); intros ts j Hj;
      [by apply fs_overflow_hit|by apply fs_overflow_miss].
  - do 2 eexists. split_and!; [done..|]. intros ts j Hj. by apply fs_fetch.
  - do 2 eexists. split_and!; [done..|]. intros ts j Hj. apply fs_activate; [done|by apply N.ltb_lt].
  - do 2 eexists. split_and!; [done..|]. intros ts j Hj. eapply fs_overflow; [done|].
    unfold insert_overflow. by case_match; simplify_eq.
  - do 2 eexists. split_and!; [done..|]. intros ts j Hj. eapply fs_overflow; [done|].
    unfold insert_overflow. by case_match; simplify_eq.
  - do 2 eexists. split_and!; [done..|]. intros ts j Hj. apply fs_depth; [done|lia].
  - do 2 eexists. split_and!; [done..|]. intros ts j Hj. by eapply fs_write.
  - do 2 eexists. split_and!; [done..|]. intros ts j Hj. eapply fs_enter; [done|].
    unfold enter_transition. by case_match; simplify_eq.
  - do 2 eexists. split_and!; [done..|]. intros ts j Hj. eapply fs_enter; [done|].
    unfold enter_transition. by case_match; simplify_eq.
  - do 2 eexists. split_and!; [done..|]. intros ts j Hj. by apply fs_cached.
  - exists (LStart id0 p), (match a with Some pos => LFound id0 p pos | None => LDone id0 p None end).
    split_and!; [done|by destruct a|]. intros ts j Hj. by apply fs_walk.
  - do 2 eexists. split_and!; [done..|]. intros ts j Hj. by apply fs_cache.
Qed.

Lemma omap_insert_Some {A B} (f : A → option B) (l : list A) i x x' y y' :
  l !! i = Some x → f x = Some y → f x' = Some y' →
  ∃ j, omap f l !! j = Some y ∧ omap f (<[i := x']> l) = <[j := y']> (omap f l).
Proof.
  intros Hl Hx Hx'. revert i Hl. induction l as [|z l IH]; intros [|i] Hl; simplify_eq/=.
  - exists 0%nat. by rewrite Hx, Hx'.
  - destruct (IH i Hl) as (j & Hj & E). rewrite E. destruct (f z); [by exists (S j)|by exists j].
Qed.

Lemma omap_insert_same {A B} (f : A → option B) (l : list A) i x x' :
  l !! i = Some x → f x' = f x → omap f (<[i := x']> l) = omap f l.
Proof.
  intros Hl Hx. revert i Hl. induction l as [|z l IH]; intros [|i] Hl; simplify_eq/=; [by rewrite Hx|].
  by rewrite IH.
Qed.

Lemma lock_step_refines fg ts fg' ts' :
  locks_ok (fg, ts) → lock_step (fg, ts) (fg', ts') → rtc forge_step (fg, sections_of ts) (fg', sections_of ts').
Proof.
  intros Hst Hstep. inversion Hstep as [? ? i th e ? c' Hi Ha _]; subst.
  destruct (act_section _ _ _ _ _ (Forall_lookup_1 _ _ _ _ (sk_call _ Hst) Hi) Ha) as [[-> Hp]|(ph & ph' & Hp & Hp' & Hgo)].
  - unfold sections_of. by rewrite (omap_insert_same _ _ _ _ _ Hi).
  - destruct (omap_insert_Some (λ th, section_of (at_ th)) ts i th (mkThread c' (after e (guards th))) ph ph') as (j & Hj & E); [done..|].
    unfold sections_of. rewrite E. apply rtc_once, Hgo. exact Hj.
Qed.

(** Calls on registered shapes, with names that are not the sentinel. *)
Definition registered (fg : t) (c : call) : Prop :=
  startable fg c ∧
  match c with
  | GetAsk id p | PosAsk id p => is_Some (get_shape fg id) ∧ id < 2^32 ∧ p < EMPTY_SENTINEL
  | _ => True
  end.

(** What the calls do under their guards is what the atomic sections of
    [forge_step] do: every run with locks is one of the sections, the steps
    that take and drop guards and the queries left out.  So what holds in
    every interleaving of the sections holds of the calls with their locks. *)
Theorem locks_refine_sections fg ts :
  rtc (locks_step registered) (new, []) (fg, ts) → rtc forge_step (new, []) (fg, sections_of ts).
Proof.
  intros Hr. change (rtc forge_step (new, []) ((fg, ts).1, sections_of (fg, ts).2)). revert Hr. generalize (fg, ts). clear fg ts.
  assert (∀ fg c, registered fg c → startable fg c) as HP by (by intros ? ? [? _]).
  apply rtc_ind_r; [done|]. intros st st' Hr Hstep IH. pose proof (locks_reach registered st HP Hr) as Hst.
  etrans; [exact IH|]. destruct Hstep as [fg ts c [Hs Hc]|[fg ts] [fg' ts'] Hstep _].
  - unfold sections_of. simpl. rewrite omap_app. destruct c; try done; simpl in *; rewrite ?app_nil_r; try done.
    + apply rtc_once. destruct Hc as (? & ? & ?). by apply fs_make.
    + apply rtc_once. destruct Hc as (? & ? & ?). by apply fs_query.
  - by apply lock_step_refines.
Qed.

(** C30: Calls of the shape store never wait for each other for good.  In
    every state that calls of [make_shape], [lookup_position], [has_property],
    [shape_prop_count], [get_shape] and [len] reach in any order, each asking
    for its guards as the code does, no call panics; a lock held for writing
    is held by no other call; while some call has not returned there is one
    whose next step does not wait, as it asks for no lock or for one nobody
    holds; and at most 18 steps per call are left, so every run ends with all
    calls returned and no guard held.  Calls use identifiers that were given
    out, those past the limit of 24 bits included, and the counter of
    identifiers does not wrap. *)
Theorem shape_calls_finish fg ts :
  rtc (locks_step startable) (new, []) (fg, ts) →
  (∀ i th, ts !! i = Some th → is_ok (act fg (at_ th))) ∧
  (∀ i j thi thj l, ts !! i = Some thi → ts !! j = Some thj → i ≠ j →
    (l, Exclusive) ∈ guards thi → l ∉ (guards thj).*1) ∧
  (Exists (λ th, finished th = false) ts → ∃ st', free_step (fg, ts) st' ∧ lock_step (fg, ts) st') ∧
  (∀ n st', nsteps lock_step n (fg, ts) st' → (n <= 18 * length ts)%nat) ∧
  (∀ i th, ts !! i = Some th → finished th = true → guards th = []).
Proof.
  intros Hst%locks_reach; [|done]. split_and!.
  - intros i th Hi. apply act_total; [apply Hst|by apply (Forall_lookup_1 _ _ _ _ (sk_call _ Hst) Hi)].
  - exact (sk_alone _ Hst).
  - intros He. destruct (locks_goes fg ts Hst He) as [st' Hgo]. exists st'. split; [done|by apply free_lock].
  - intros n st' H%lock_steps_bound. pose proof (work_bound ts). simpl in *. lia.
  - intros i th Hi Hf. rewrite (Forall_lookup_1 _ _ _ _ (sk_held _ Hst) Hi). by apply finished_held.
Qed.

(** ** Schedules *)

#[export] Instance available_dec ts l m : Decision (available ts l m).
Proof. destruct m; unfold available, unheld; apply _. Defined.
#[export] Instance permitted_dec ts e : Decision (permitted ts e).
Proof. destruct e; simpl; apply _. Defined.

(** One step of the call at a place, when it can go on. *)
Definition go (st : state) (i : nat) : option state :=
  th ← st.2 !! i;
  match act st.1 (at_ th) with
  | Ok (Some (e, fg', c')) =>
      if decide (permitted st.2 e ∧ next_id fg' ≠ 0) then Some (fg', <[i := mkThread c' (after e (guards th))]> st.2) else None
  | _ => None
  end.

Lemma go_reaches P st is_ st' : foldl (λ st i, st ≫= (λ st, go st i)) (Some st) is_ = Some st' → rtc (locks_step P) st st'.
Proof.
  revert st'. induction is_ as [|i is_ IH] using rev_ind; intros st' H; [by injection H as <-|].
  rewrite foldl_snoc in H. destruct (foldl _ _ is_) as [st1|]; [|done]. simpl in H. unfold go in H.
  destruct st1 as [fg ts]. simpl in H. destruct (ts !! i) as [th|] eqn:Hi; [|done]. simpl in H.
  destruct (act fg (at_ th)) as [[[[e fg'] c']|]| |] eqn:Ha; try done. case_decide as Hp; [|done]. simplify_eq.
  etrans; [by apply IH|]. apply rtc_once, sys_go; [|apply Hp]. apply (step_call permitted fg ts i th e fg' c' Hi Ha). apply Hp.
Qed.
End calls.

(** Two calls of [make_shape 1 7] miss the transition at the same time; the
    first writes its shape while the second waits for the vector. *)
Lemma shape_calls_finish_witness :
  ∃ fg th1 th2,
    rtc (locks_step (λ k, k mod 16) startable) (ShapeForge.new, []) (fg, [th1; th2]) ∧
    at_ th1 = WriteIn 1 7 2 0 ∧ at_ th2 = DepthAsk 1 7 3 ∧ guards th1 = [(LShapes, Exclusive)] ∧
    ¬ permitted [th1; th2] (Acquire LShapes Shared) ∧ LShapes ∉ (guards th2).*1 ∧
    ∃ st', free_step (λ k, k mod 16) (fg, [th1; th2]) st'.
Proof.
  set (st0 := (ShapeForge.new, [mkThread (GetAsk 1 7) []; mkThread (GetAsk 1 7) []])).
  destruct (foldl (λ st i, st ≫= (λ st, go (λ k, k mod 16) st i)) (Some st0)
    [0; 1; 1; 0; 0; 1; 0; 1; 0; 1; 0; 1; 0; 0; 0; 0]%nat) as [[fg ts]|] eqn:E; [|by vm_compute in E].
  assert (rtc (locks_step (λ k, k mod 16) startable) (ShapeForge.new, []) (fg, ts)) as Hr.
  { eapply rtc_l; [apply (sys_start _ _ _ [] (GetAsk 1 7)); simpl; lia|]. simpl.
    eapply rtc_l; [apply (sys_start _ _ _ [mkThread (GetAsk 1 7) []] (GetAsk 1 7)); simpl; lia|]. simpl.
    by apply (go_reaches _ _ st0 _ _ E). }
  pose proof (shape_calls_finish _ fg ts Hr) as (_ & Halone & Hgo & _). vm_compute in E. injection E as <- <-.
  do 3 eexists. split_and!; [exact Hr|reflexivity|reflexivity|reflexivity| | |].
  - intros H. by apply (bool_decide_pack _) in H.
  - by apply (Halone 0 1 _ _ _ eq_refl eq_refl)%nat; [|set_solver].
  - destruct Hgo as (st' & H & _); [|by exists st']. left. reflexivity.
Defined.
