(* ===== verification/Unicode.v ===== *)
(** * Code units, code points and hexadecimal digits

    What the string code uses of Rust's [char] and of its formatting: UTF-16
    surrogates, [char::from_u32], [char::to_digit], [{:x}] and [{:X}].  Units,
    characters and bytes are numbers. *)

From stdpp Require Import base tactics numbers list option strings.
From Stdlib Require Import NArith ZArith Lia.
From S2P Require Import Prelude.

Open Scope N_scope.

Definition in_range (lo hi n : N) : bool := (lo <=? n) && (n <=? hi).

Definition is_high (u : N) : bool := in_range 0xD800 0xDBFF u.
Definition is_low (u : N) : bool := in_range 0xDC00 0xDFFF u.
Definition is_surrogate (u : N) : bool := in_range 0xD800 0xDFFF u.

(** [char::from_u32]: every scalar value. *)
Definition is_char (c : N) : bool := (c <? 0xD800) || in_range 0xE000 0x10FFFF c.
Definition char_from_u32 (c : N) : option N := if is_char c then Some c else None.

(** [0x10000 + ((hi - 0xD800) << 10) + (lo - 0xDC00)]. *)
Definition pair_value (hi lo : N) : N := 0x10000 + N.shiftl (hi - 0xD800) 10 + (lo - 0xDC00).

(** The two halves of a character above [0xFFFF]. *)
Definition high_half (c : N) : N := 0xD800 + u16 (N.shiftr (c - 0x10000) 10).
Definition low_half (c : N) : N := 0xDC00 + u16 (N.land (c - 0x10000) 0x3FF).

(** Digits of [{:x}] and [{:X}]. *)
Definition hex_lower (d : N) : N := if d <? 10 then 48 + d else 87 + d.
Definition hex_upper (d : N) : N := if d <? 10 then 48 + d else 55 + d.

(** [char::to_digit(16)]. *)
Definition to_digit16 (c : N) : option N :=
  if in_range 48 57 c then Some (c - 48)
  else if in_range 97 102 c then Some (c - 87)
  else if in_range 65 70 c then Some (c - 55)
  else None.

(** [matches!(c, '0'..='9' | 'a'..='f')]. *)
Definition is_lower_hex (c : N) : bool := in_range 48 57 c || in_range 97 102 c.

(** [{:04x}] of a number below [0x10000]. *)
Definition hex4 (n : N) : list N :=
  [hex_lower (n / 4096); hex_lower (n / 256 mod 16); hex_lower (n / 16 mod 16); hex_lower (n mod 16)].

(** Text in UTF-16, as [str::encode_utf16] gives it. *)
Definition utf16 (text : list N) : list N := text ≫= λ c, if 0xFFFF <? c then [high_half c; low_half c] else [c].

(** The bytes of a byte-string literal. *)
Definition bytes_of (s : string) : list N := Ascii.N_of_ascii <$> String.list_ascii_of_string s.

(** ** Lemmas *)

Lemma in_range_true lo hi n : in_range lo hi n = true ↔ lo <= n <= hi.
Proof. unfold in_range. rewrite andb_true_iff, !N.leb_le. done. Qed.

Lemma in_range_false lo hi n : in_range lo hi n = false ↔ n < lo ∨ hi < n.
Proof. unfold in_range. rewrite andb_false_iff, !N.leb_gt. done. Qed.

Lemma is_char_true c : is_char c = true ↔ c < 0xD800 ∨ 0xE000 <= c <= 0x10FFFF.
Proof. unfold is_char. rewrite orb_true_iff, in_range_true, N.ltb_lt. done. Qed.

Lemma is_surrogate_split u : is_surrogate u = is_high u || is_low u.
Proof.
  apply eq_true_iff_eq. unfold is_surrogate, is_high, is_low. rewrite orb_true_iff, !in_range_true. lia.
Qed.

Lemma pair_value_eq hi lo :
  is_high hi = true → is_low lo = true → pair_value hi lo = 0x10000 + (hi - 0xD800) * 1024 + (lo - 0xDC00).
Proof. intros _ _. unfold pair_value. rewrite N.shiftl_mul_pow2. reflexivity. Qed.

Lemma pair_value_char hi lo :
  is_high hi = true → is_low lo = true → 0x10000 <= pair_value hi lo <= 0x10FFFF ∧ is_char (pair_value hi lo) = true.
Proof.
  intros Hh Hl. pose proof (pair_value_eq hi lo Hh Hl) as E. apply in_range_true in Hh, Hl.
  assert (0x10000 <= pair_value hi lo <= 0x10FFFF) by lia. split; [done|]. apply is_char_true. lia.
Qed.

Lemma pair_halves hi lo :
  is_high hi = true → is_low lo = true → high_half (pair_value hi lo) = hi ∧ low_half (pair_value hi lo) = lo.
Proof.
  intros Hh Hl. pose proof (pair_value_eq hi lo Hh Hl) as E. apply in_range_true in Hh, Hl.
  unfold high_half, low_half, u16. rewrite N.shiftr_div_pow2. change 0x3FF with (N.ones 10). rewrite N.land_ones.
  rewrite E. change (2^10) with 1024. change (2^16) with 65536. split; zify; Z.to_euclidean_division_equations; lia.
Qed.

Lemma halves_pair c :
  0x10000 <= c <= 0x10FFFF →
  is_high (high_half c) = true ∧ is_low (low_half c) = true ∧ pair_value (high_half c) (low_half c) = c.
Proof.
  intros Hc. unfold high_half, low_half, u16. rewrite N.shiftr_div_pow2. change 0x3FF with (N.ones 10). rewrite N.land_ones.
  unfold pair_value, is_high, is_low. rewrite N.shiftl_mul_pow2, !in_range_true. change (2^10) with 1024.
  change (2^16) with 65536. split_and!; zify; Z.to_euclidean_division_equations; lia.
Qed.

Lemma to_digit16_lower d : d < 16 → to_digit16 (hex_lower d) = Some d ∧ is_lower_hex (hex_lower d) = true.
Proof.
  intros Hd. unfold hex_lower, to_digit16, is_lower_hex. destruct (N.ltb_spec d 10).
  - replace (in_range 48 57 (48 + d)) with true by (symmetry; apply in_range_true; lia). split; [f_equal; lia|done].
  - replace (in_range 48 57 (87 + d)) with false by (symmetry; apply in_range_false; lia).
    replace (in_range 97 102 (87 + d)) with true by (symmetry; apply in_range_true; lia). split; [f_equal; lia|done].
Qed.

Lemma to_digit16_upper d : d < 16 → to_digit16 (hex_upper d) = Some d.
Proof.
  intros Hd. unfold hex_upper, to_digit16. destruct (N.ltb_spec d 10).
  - replace (in_range 48 57 (48 + d)) with true by (symmetry; apply in_range_true; lia). f_equal; lia.
  - replace (in_range 48 57 (55 + d)) with false by (symmetry; apply in_range_false; lia).
    replace (in_range 97 102 (55 + d)) with false by (symmetry; apply in_range_false; lia).
    replace (in_range 65 70 (55 + d)) with true by (symmetry; apply in_range_true; lia). f_equal; lia.
Qed.

Lemma to_digit16_lt c d : to_digit16 c = Some d → d < 16.
Proof.
  unfold to_digit16. destruct (in_range 48 57 c) eqn:E1; [intros [= <-]; apply in_range_true in E1; lia|].
  destruct (in_range 97 102 c) eqn:E2; [intros [= <-]; apply in_range_true in E2; lia|].
  destruct (in_range 65 70 c) eqn:E3; [intros [= <-]; apply in_range_true in E3; lia|done].
Qed.

(** The digits of [{:04x}] and the value they stand for. *)
Lemma hex4_digits n : n < 2^16 →
  n / 4096 < 16 ∧ n / 256 mod 16 < 16 ∧ n / 16 mod 16 < 16 ∧ n mod 16 < 16 ∧
  ((n / 4096 * 16 + n / 256 mod 16) * 16 + n / 16 mod 16) * 16 + n mod 16 = n.
Proof. change (2^16) with 65536. intros. split_and!; zify; Z.to_euclidean_division_equations; lia. Qed.

(** The rule for loops over UTF-16: one case per pair, one per other unit. *)
Lemma units_ind (P : list N → Prop) :
  P [] → (∀ hi lo rest, is_high hi = true → is_low lo = true → P rest → P (hi :: lo :: rest)) →
  (∀ u rest, (∀ lo rest', rest = lo :: rest' → is_high u && is_low lo = false) → P rest → P (u :: rest)) → ∀ l, P l.
Proof.
  intros H0 Hp Hu l. induction l as [l IH] using (induction_ltof1 _ (@length N)). unfold ltof in IH.
  destruct l as [|u [|lo rest]]; [done|apply Hu; [done|apply IH; simpl; lia]|].
  destruct (is_high u && is_low lo) eqn:E.
  - apply andb_true_iff in E as [? ?]. apply Hp; [done..|apply IH; simpl; lia].
  - apply Hu; [by intros ?? [= <- <-]|apply IH; simpl; lia].
Qed.

(** A fact about all numbers below a bound, by evaluation. *)
Lemma forallb_below (P : N → bool) (n : nat) :
  forallb (λ i, P (N.of_nat i)) (seq 0 n) = true → ∀ v, v < N.of_nat n → P v = true.
Proof.
  intros H v Hv. rewrite forallb_forall in H. specialize (H (N.to_nat v)). rewrite N2Nat.id in H. apply H, in_seq. lia.
Qed.
