(* ===== verification/StringForge.v ===== *)
(** * Keys and the interner (crates/oxide_types/src/string_forge.rs)

    [Keys] models the text form of keys: [encode_key] with its inverse
    [decode_key], and the escapes used for dynamically compiled source.
    [PermInterner] is the table of interned keys shared by all machines, and
    [intern_step] the interleavings of its callers.  The hash function is a
    parameter: nothing rests on it. *)

From stdpp Require Import base tactics numbers list option gmap relations.
From Stdlib Require Import NArith ZArith Lia.
From S2P Require Import Prelude Unicode.
#[local] Set Warnings "-clear-no-such-hyp".

Open Scope N_scope.

(** ** Key text *)

Module Keys.
Definition FFFD : N := 0xFFFD.
Definition backslash : N := 92.
Definition letter_u : N := 117.

Definition expect {A} (o : option A) : res A := match o with Some x => Ok x | None => Panic end.

(** The loop of [encode_key] and of [source_escape]: a pair becomes one
    character, any other unit what [unit] gives. *)
Fixpoint encode_pairs (unit : N → res (list N)) (units : list N) : res (list N) :=
  match units with
  | [] => Ok []
  | u :: rest =>
      match rest with
      | lo :: rest' =>
          if is_high u && is_low lo then
            let* c := expect (char_from_u32 (pair_value u lo)) in
            let* out := encode_pairs unit rest' in Ok (c :: out)
          else let* text := unit u in let* out := encode_pairs unit rest in Ok (text ++ out)
      | [] => let* text := unit u in let* out := encode_pairs unit rest in Ok (text ++ out)
      end
  end.

Definition key_unit (u : N) : res (list N) :=
  if is_surrogate u then Ok (FFFD :: hex4 u)
  else if u =? FFFD then Ok [FFFD; 102; 102; 102; 100]
  else let* c := expect (char_from_u32 u) in Ok [c].

Definition encode_key (units : list N) : res (list N) := encode_pairs key_unit units.

(** One character outside an escape. *)
Definition decode_char (c : N) : list N := if 0xFFFF <? c then [high_half c; low_half c] else [u16 c].

(** The value of four lower-case digits. *)
Definition read_hex4 (tail : list N) : option N :=
  foldl (λ v ch, match v, to_digit16 ch with
                 | Some v, Some d => if is_lower_hex ch then Some (u16 (v * 16 + d)) else None
                 | _, _ => None
                 end) (Some 0) tail.

(** The units of a marker and the four characters after it. *)
Definition decode_escape (tail : list N) : list N :=
  if bool_decide (tail = [102; 102; 102; 100]) then [FFFD]
  else match read_hex4 tail with
       | Some v => if is_surrogate v then [v] else FFFD :: (u16 <$> tail)
       | None => FFFD :: (u16 <$> tail)
       end.

Fixpoint decode_key (text : list N) : list N :=
  match text with
  | [] => []
  | c :: rest =>
      if c =? FFFD then
        match rest with
        | a :: b :: d :: e :: rest' => decode_escape [a; b; d; e] ++ decode_key rest'
        | tail => FFFD :: (u16 <$> tail)
        end
      else decode_char c ++ decode_key rest
  end.

Definition source_unit (u : N) : res (list N) :=
  if is_surrogate u then Ok (backslash :: letter_u :: hex4 u)
  else if u =? FFFD then Ok [backslash; letter_u; 102; 102; 102; 100]
  else let* c := expect (char_from_u32 u) in Ok [c].

Definition source_escape (units : list N) : res (list N) := encode_pairs source_unit units.

(** One round of the loop of [source_escape_to_key] at the first of [chars]:
    the text it appends and the number of characters it reads. *)
Definition escape_step (chars : list N) : list N * nat :=
  match chars with
  | [] => ([], 0%nat)
  | c :: rest =>
      if negb (c =? backslash) then ([c], 1%nat)
      else match rest with
           | [] => ([backslash], 1%nat)
           | n :: rest' =>
               if n =? backslash then
                 let is_marker := bool_decide (7 <= length chars)%nat && bool_decide (rest' !! 0%nat = Some letter_u)
                                    && forallb is_lower_hex (take 4 (drop 1 rest')) in
                 if is_marker then ([backslash], 1%nat) else ([backslash; backslash], 2%nat)
               else if n =? letter_u then
                 let tail := take 4 rest' in
                 let ok := forallb is_lower_hex tail in
                 let v := if ok then foldl (λ v ch, u32 (v * 16 + default 0 (to_digit16 ch))) 0 tail else 0 in
                 (if bool_decide (length tail = 4%nat) && ok && ((v =? FFFD) || is_surrogate v) then FFFD :: tail
                  else backslash :: letter_u :: tail, (2 + length tail)%nat)
               else ([backslash; n], 2%nat)
           end
  end.

Fixpoint escape_loop (fuel : nat) (chars : list N) : res (list N) :=
  match chars, fuel with
  | [], _ => Ok []
  | _, O => Panic
  | _, S fuel =>
      let '(text, n) := escape_step chars in
      let* out := escape_loop fuel (drop n chars) in Ok (text ++ out)
  end.

Definition source_escape_to_key (text : list N) : res (list N) := escape_loop (length text) text.
End Keys.

(** ** The interner *)

Module PermInterner.
Record t := mkInterner {
  hash_map : gmap N (list N);
  entries : list (list N);
  permanent_strings : list (option (list N));
}.

Definition new : t := mkInterner ∅ [] [].

Section interner.
Context (hash64 : list N → N).

(** The first candidate whose entry is [s]; an identifier out of range panics. *)
Fixpoint find_candidate (entries : list (list N)) (s : list N) (candidates : list N) : res (option N) :=
  match candidates with
  | [] => Ok None
  | id :: candidates =>
      let* e := vec_get entries (N.to_nat id) in
      if bool_decide (e = s) then Ok (Some id) else find_candidate entries s candidates
  end.

(** The search both paths of [intern] and [lookup_id] do. *)
Definition find_entry (it : t) (s : list N) : res (option N) :=
  match hash_map it !! hash64 s with
  | Some candidates => find_candidate (entries it) s candidates
  | None => Ok None
  end.

(** Appending under the write lock, and the entry in the table after it. *)
Definition push_entry (it : t) (s : list N) : N * t :=
  (u32 (N.of_nat (length (entries it))), mkInterner (hash_map it) (entries it ++ [s]) (permanent_strings it)).

Definition push_candidate (it : t) (s : list N) (id : N) : t :=
  mkInterner (<[hash64 s := default [] (hash_map it !! hash64 s) ++ [id]]> (hash_map it)) (entries it)
    (permanent_strings it).

Definition intern (it : t) (s : list N) : res (N * N * t) :=
  let* hit := find_entry it s in
  match hit with
  | Some id => Ok (id, hash64 s, it)
  | None =>
      let* hit := find_entry it s in
      match hit with
      | Some id => Ok (id, hash64 s, it)
      | None => let '(id, it) := push_entry it s in Ok (id, hash64 s, push_candidate it s id)
      end
  end.

Definition lookup (it : t) (id : N) : option (list N) := entries it !! N.to_nat id.

Definition lookup_id (it : t) (s : list N) : res (option N) := find_entry it s.

Definition entry_count (it : t) : N := u32 (N.of_nat (length (entries it))).

Definition is_empty (it : t) : bool := entry_count it =? 0.

(** The units of the permanent string of an identifier. *)
Definition string_ptr (it : t) (id : N) : res (list N * t) :=
  match mjoin (permanent_strings it !! N.to_nat id) with
  | Some units => Ok (units, it)
  | None =>
      let text := default [] (lookup it id) in
      let perm := permanent_strings it ++ replicate (N.to_nat id + 1 - length (permanent_strings it)) None in
      let* slot := vec_get perm (N.to_nat id) in
      match slot with
      | Some units => Ok (units, mkInterner (hash_map it) (entries it) perm)
      | None =>
          let units := Keys.decode_key text in
          let* perm := vec_set perm (N.to_nat id) (Some units) in
          Ok (units, mkInterner (hash_map it) (entries it) perm)
      end
  end.
End interner.
End PermInterner.

(** ** Callers of [intern] *)

(** A call before its first search, after it failed, after the entry was
    appended, and done. *)
Inductive intern_phase :=
  | IStart (s : list N)
  | IMissed (s : list N)
  | IPushed (s : list N) (id : N)
  | IDone (s : list N) (id : N).

Inductive intern_step (hash64 : list N → N) : PermInterner.t * list intern_phase → PermInterner.t * list intern_phase → Prop :=
  | is_call it ts s : intern_step hash64 (it, ts) (it, ts ++ [IStart s])
  | is_fast it ts i s r :
      ts !! i = Some (IStart s) → PermInterner.find_entry hash64 it s = Ok r →
      intern_step hash64 (it, ts) (it, <[i := match r with Some id => IDone s id | None => IMissed s end]> ts)
  | is_found it ts i s id :
      ts !! i = Some (IMissed s) → PermInterner.find_entry hash64 it s = Ok (Some id) →
      intern_step hash64 (it, ts) (it, <[i := IDone s id]> ts)
  | is_push it it' ts i s id :
      ts !! i = Some (IMissed s) → PermInterner.find_entry hash64 it s = Ok None →
      PermInterner.push_entry it s = (id, it') →
      intern_step hash64 (it, ts) (it', <[i := IPushed s id]> ts)
  | is_enter it ts i s id :
      ts !! i = Some (IPushed s id) →
      intern_step hash64 (it, ts) (PermInterner.push_candidate hash64 it s id, <[i := IDone s id]> ts).

(** ** Facts about key text *)

Module KeyFacts.
Import Keys.

Lemma char_from_u32_ok c : is_char c = true → expect (char_from_u32 c) = Ok c.
Proof. unfold char_from_u32. by intros ->. Qed.

Lemma read_hex4_ok n : n < 2^16 → read_hex4 (hex4 n) = Some n.
Proof.
  intros Hn. destruct (hex4_digits n Hn) as (H1 & H2 & H3 & H4 & E). unfold read_hex4, hex4. cbn [foldl].
  destruct (to_digit16_lower _ H1) as [-> ->], (to_digit16_lower _ H2) as [-> ->],
    (to_digit16_lower _ H3) as [-> ->], (to_digit16_lower _ H4) as [-> ->].
  revert H1 H2 H3 H4 E. generalize (n / 4096) (n / 256 mod 16) (n / 16 mod 16) (n mod 16). intros a b c d Ha Hb Hc Hd E.
  assert (∀ x, x < 65536 → u16 x = x) as Hm by (intros x Hx; by apply N.mod_small).
  rewrite (Hm (0 * 16 + a)), (Hm (_ + b)), (Hm (_ + c)), (Hm (_ + d)) by lia. f_equal. lia.
Qed.

Lemma hex4_char n : Forall (λ c, is_char c = true ∧ c ≠ FFFD ∧ c ≠ backslash) (hex4 n) ∨ ¬ n < 2^16.
Proof.
  destruct (decide (n < 2^16)) as [Hn|]; [left|by right]. destruct (hex4_digits n Hn) as (H1 & H2 & H3 & H4 & _).
  assert (∀ d, d < 16 → is_char (hex_lower d) = true ∧ hex_lower d ≠ FFFD ∧ hex_lower d ≠ backslash) as Hd.
  { intros d Hd. unfold hex_lower, FFFD, backslash. rewrite is_char_true. destruct (N.ltb_spec d 10); lia. }
  unfold hex4. repeat constructor; apply Hd; done.
Qed.

(** What one unit outside a pair becomes, and that it reads back. *)
Lemma key_unit_ok u : u < 2^16 →
  ∃ text, key_unit u = Ok text ∧ Forall (λ c, is_char c = true) text ∧ ∀ rest, decode_key (text ++ rest) = u :: decode_key rest.
Proof.
  intros Hu. unfold key_unit. destruct (is_surrogate u) eqn:Es.
  { exists (FFFD :: hex4 u). split_and!; [done| |].
    - constructor; [done|]. destruct (hex4_char u) as [H|]; [|done]. eapply Forall_impl; [done|]. naive_solver.
    - intros rest. pose proof (read_hex4_ok u Hu) as Er. unfold hex4 in *. cbn [app decode_key].
      change (FFFD =? FFFD) with true. cbn iota. unfold decode_escape. rewrite bool_decide_eq_false_2, Er, Es; [done|].
      intros E. rewrite E in Er. injection Er as <-. by vm_compute in Es. }
  destruct (N.eqb_spec u FFFD) as [->|Hne].
  { eexists. split_and!; [done|by repeat constructor|done]. }
  apply in_range_false in Es. assert (is_char u = true) as Hc by (apply is_char_true; change (2^16) with 65536 in *; lia).
  rewrite char_from_u32_ok by done. exists [u]. split_and!; [done|by repeat constructor|]. intros rest. cbn [app decode_key].
  destruct (N.eqb_spec u FFFD); [done|]. unfold decode_char. change (2^16) with 65536 in *.
  rewrite (proj2 (N.ltb_ge _ _)) by lia. unfold u16. by rewrite N.mod_small by done.
Qed.

Lemma decode_pair hi lo rest : is_high hi = true → is_low lo = true →
  decode_key (pair_value hi lo :: rest) = hi :: lo :: decode_key rest.
Proof.
  intros Hh Hl. destruct (pair_value_char hi lo Hh Hl) as [Hr _]. destruct (pair_halves hi lo Hh Hl) as [E1 E2].
  cbn [decode_key]. unfold FFFD, decode_char. rewrite (proj2 (N.eqb_neq _ _)), (proj2 (N.ltb_lt _ _)), E1, E2 by lia. done.
Qed.

Lemma encode_pairs_pair unit hi lo rest : is_high hi = true → is_low lo = true →
  encode_pairs unit (hi :: lo :: rest) = res_bind (encode_pairs unit rest) (λ out, Ok (pair_value hi lo :: out)).
Proof.
  intros Hh Hl. destruct (pair_value_char hi lo Hh Hl) as [_ Hc]. cbn [encode_pairs]. rewrite Hh, Hl. cbn [andb].
  by rewrite char_from_u32_ok.
Qed.

Lemma encode_pairs_unit unit u rest : (∀ lo rest', rest = lo :: rest' → is_high u && is_low lo = false) →
  encode_pairs unit (u :: rest) = res_bind (unit u) (λ text, res_bind (encode_pairs unit rest) (λ out, Ok (text ++ out))).
Proof. intros H. destruct rest as [|lo rest]; [done|]. cbn [encode_pairs]. by rewrite (H lo rest). Qed.

Lemma encode_key_ok units : Forall (λ u, u < 2^16) units →
  ∃ text, encode_key units = Ok text ∧ Forall (λ c, is_char c = true) text ∧ decode_key text = units.
Proof.
  unfold encode_key. induction units as [|hi lo rest Hh Hl IH|u rest Hnp IH] using units_ind; intros Hu.
  - by exists [].
  - apply Forall_cons in Hu as [_ Hu]. apply Forall_cons in Hu as [_ Hu]. destruct (IH Hu) as (text & E & Hc & Hd).
    rewrite encode_pairs_pair, E by done. eexists. split_and!; [done| |].
    + constructor; [by apply pair_value_char|done].
    + by rewrite decode_pair, Hd.
  - apply Forall_cons in Hu as [Hu Hrest]. destruct (IH Hrest) as (text & E & Hc & Hd).
    destruct (key_unit_ok u Hu) as (t & Et & Htc & Htd). rewrite encode_pairs_unit, Et, E by done. eexists.
    split_and!; [done|by apply Forall_app|]. by rewrite Htd, Hd.
Qed.

Lemma encode_key_utf16 text : Forall (λ c, is_char c = true ∧ c ≠ FFFD) text → encode_key (utf16 text) = Ok text.
Proof.
  unfold encode_key, utf16. induction 1 as [|c text [Hc Hne] Ht IH]; [done|]. cbn [mbind list_bind].
  apply is_char_true in Hc. destruct (N.ltb_spec 0xFFFF c) as [Hlt|Hle]; cbn [app].
  - destruct (halves_pair c) as (Hh & Hl & E); [lia|]. rewrite encode_pairs_pair, IH, E by done. done.
  - rewrite encode_pairs_unit, IH.
    + unfold key_unit. replace (is_surrogate c) with false by (symmetry; apply in_range_false; lia).
      rewrite (proj2 (N.eqb_neq _ _)) by done. rewrite char_from_u32_ok; [done|]. apply is_char_true. lia.
    + intros lo rest _. replace (is_high c) with false; [done|]. symmetry. apply in_range_false. lia.
Qed.

(** *** Source text back to key text *)

(** Units that are written as a marker. *)
Definition special (u : N) : bool := is_surrogate u || (u =? FFFD).

Lemma special_units u : special u = true → u < 2^16 →
  source_unit u = Ok (backslash :: letter_u :: hex4 u) ∧ key_unit u = Ok (FFFD :: hex4 u).
Proof.
  unfold special, source_unit, key_unit. destruct (is_surrogate u); [done|]. cbn [orb]. intros E _. rewrite E.
  apply N.eqb_eq in E as ->. done.
Qed.

Lemma plain_units u : special u = false → u < 2^16 → source_unit u = Ok [u] ∧ key_unit u = Ok [u].
Proof.
  unfold special, source_unit, key_unit. intros [Es ->]%orb_false_iff Hu. rewrite Es. apply in_range_false in Es.
  rewrite char_from_u32_ok; [done|]. apply is_char_true. change (2^16) with 65536 in *. lia.
Qed.

Lemma hex4_lower n : n < 2^16 → forallb is_lower_hex (hex4 n) = true.
Proof.
  intros Hn. destruct (hex4_digits n Hn) as (H1 & H2 & H3 & H4 & _). unfold hex4. cbn [forallb].
  by destruct (to_digit16_lower _ H1) as [_ ->], (to_digit16_lower _ H2) as [_ ->],
    (to_digit16_lower _ H3) as [_ ->], (to_digit16_lower _ H4) as [_ ->].
Qed.

Lemma hex4_value n : n < 2^16 → foldl (λ v ch, u32 (v * 16 + default 0 (to_digit16 ch))) 0 (hex4 n) = n.
Proof.
  intros Hn. destruct (hex4_digits n Hn) as (H1 & H2 & H3 & H4 & E). unfold hex4. cbn [foldl].
  destruct (to_digit16_lower _ H1) as [-> _], (to_digit16_lower _ H2) as [-> _],
    (to_digit16_lower _ H3) as [-> _], (to_digit16_lower _ H4) as [-> _]. cbn [default from_option id].
  revert H1 H2 H3 H4 E. generalize (n / 4096) (n / 256 mod 16) (n / 16 mod 16) (n mod 16). intros a b c d Ha Hb Hc Hd E.
  assert (∀ x, x < 65536 → u32 x = x) as Hm by (intros x Hx; apply N.mod_small; lia).
  rewrite (Hm (0 * 16 + a)), (Hm (_ + b)), (Hm (_ + c)), (Hm (_ + d)) by lia. done.
Qed.

(** The rounds of the loop at each kind of text. *)
Lemma escape_step_char c rest : c ≠ backslash → escape_step (c :: rest) = ([c], 1%nat).
Proof. intros H. unfold escape_step. by rewrite (proj2 (N.eqb_neq _ _)) by done. Qed.

Lemma escape_step_marker u rest : special u = true → u < 2^16 →
  escape_step (backslash :: letter_u :: hex4 u ++ rest) = (FFFD :: hex4 u, 6%nat).
Proof.
  intros Hs Hu. unfold escape_step. change (backslash =? backslash) with true. change (letter_u =? backslash) with false.
  change (letter_u =? letter_u) with true. cbn [negb].
  assert (take 4 (hex4 u ++ rest) = hex4 u) as -> by done. change (length (hex4 u)) with 4%nat.
  rewrite hex4_lower, hex4_value by done. rewrite bool_decide_eq_true_2 by done. cbn [andb].
  unfold special in Hs. by rewrite orb_comm, Hs.
Qed.

Lemma escape_step_before_marker u rest : u < 2^16 →
  escape_step (backslash :: backslash :: letter_u :: hex4 u ++ rest) = ([backslash], 1%nat).
Proof.
  intros Hu. unfold escape_step. change (backslash =? backslash) with true. cbn [negb].
  change (take 4 (drop 1 (letter_u :: hex4 u ++ rest))) with (hex4 u). rewrite hex4_lower by done.
  rewrite !bool_decide_eq_true_2; [done|done|]. cbn [length]. rewrite length_app. change (length (hex4 u)) with 4%nat. lia.
Qed.

Lemma escape_step_double rest : rest !! 0%nat ≠ Some letter_u →
  escape_step (backslash :: backslash :: rest) = ([backslash; backslash], 2%nat).
Proof.
  intros H. unfold escape_step. change (backslash =? backslash) with true. cbn [negb].
  rewrite (bool_decide_eq_false_2 (rest !! 0%nat = _)) by done. by rewrite andb_false_r.
Qed.

Lemma escape_step_other c rest : c ≠ backslash → c ≠ letter_u →
  escape_step (backslash :: c :: rest) = ([backslash; c], 2%nat).
Proof.
  intros H1 H2. unfold escape_step. change (backslash =? backslash) with true. cbn [negb].
  by rewrite !(proj2 (N.eqb_neq _ _)) by done.
Qed.

Lemma escape_loop_step fuel chars text n out : chars ≠ [] → (0 < fuel)%nat → escape_step chars = (text, n) →
  escape_loop (fuel - 1) (drop n chars) = Ok out → escape_loop fuel chars = Ok (text ++ out).
Proof.
  intros Hne Hf Hs Hl. destruct chars as [|c chars]; [done|]. destruct fuel as [|fuel]; [lia|].
  replace (S fuel - 1)%nat with fuel in Hl by lia. cbn [escape_loop]. rewrite Hs. by rewrite Hl.
Qed.

(** No letter [u] directly after a backslash. *)
Fixpoint no_escaped_u (units : list N) : bool :=
  match units with
  | a :: rest =>
      match rest with
      | b :: _ => negb ((a =? backslash) && (b =? letter_u)) && no_escaped_u rest
      | [] => true
      end
  | [] => true
  end.

Lemma no_escaped_u_tail a l : no_escaped_u (a :: l) = true → no_escaped_u l = true.
Proof. destruct l; [done|]. cbn [no_escaped_u]. by intros [_ ?]%andb_true_iff. Qed.

(** What [encode_pairs] does at the head of its input. *)
Inductive head_case (units : list N) : Prop :=
  | hc_nil : units = [] → head_case units
  | hc_pair hi lo rest : units = hi :: lo :: rest → is_high hi = true → is_low lo = true → head_case units
  | hc_special u rest : units = u :: rest → special u = true →
      (∀ lo rest', rest = lo :: rest' → is_high u && is_low lo = false) → head_case units
  | hc_plain u rest : units = u :: rest → special u = false →
      (∀ lo rest', rest = lo :: rest' → is_high u && is_low lo = false) → head_case units.

Lemma head_cases units : head_case units.
Proof.
  destruct units as [|u rest]; [by apply hc_nil|].
  assert ((∃ lo rest', rest = lo :: rest' ∧ is_high u = true ∧ is_low lo = true) ∨
    (∀ lo rest', rest = lo :: rest' → is_high u && is_low lo = false)) as [(lo & rest' & -> & ? & ?)|H].
  { destruct rest as [|lo rest]; [by right|]. destruct (is_high u && is_low lo) eqn:E; [|right; by intros ?? [= <- <-]].
    apply andb_true_iff in E as [? ?]. left. by exists lo, rest. }
  - by eapply hc_pair.
  - destruct (special u) eqn:Es; [by eapply hc_special|by eapply hc_plain].
Qed.

(** The text and the key of a list of units, and that the loop leads from one
    to the other. *)
Definition restored (units text key : list N) : Prop :=
  source_escape units = Ok text ∧ encode_key units = Ok key ∧
  (text !! 0%nat = Some letter_u → units !! 0%nat = Some letter_u) ∧
  ∀ fuel, (length text <= fuel)%nat → escape_loop fuel text = Ok key.

Lemma restored_nil : restored [] [] [].
Proof. split_and!; try done. by intros [|fuel]. Qed.

Lemma restored_pair hi lo rest text key : is_high hi = true → is_low lo = true →
  restored rest text key → restored (hi :: lo :: rest) (pair_value hi lo :: text) (pair_value hi lo :: key).
Proof.
  intros Hh Hl (E1 & E2 & _ & Hf). destruct (pair_value_char hi lo Hh Hl) as [Hr _].
  unfold restored, source_escape, encode_key in *. rewrite !encode_pairs_pair, E1, E2 by done.
  split_and!; [done..| |].
  - intros [= E]. unfold letter_u in E. lia.
  - intros fuel Hl'. cbn [length] in Hl'. apply (escape_loop_step _ _ [pair_value hi lo] 1); [done|lia| |].
    + apply escape_step_char. unfold backslash. lia.
    + apply Hf. lia.
Qed.

Lemma restored_special u rest text key : special u = true → u < 2^16 →
  (∀ lo rest', rest = lo :: rest' → is_high u && is_low lo = false) →
  restored rest text key →
  restored (u :: rest) (backslash :: letter_u :: hex4 u ++ text) (FFFD :: hex4 u ++ key).
Proof.
  intros Hs Hu Hnp (E1 & E2 & _ & Hf). destruct (special_units u Hs Hu) as [Es Ek].
  unfold restored, source_escape, encode_key in *. rewrite !encode_pairs_unit, E1, E2, Es, Ek by done.
  split_and!; [done..|].
  intros fuel Hl'. cbn [length] in Hl'. rewrite length_app in Hl'.
  apply (escape_loop_step _ _ (FFFD :: hex4 u) 6); [done|lia|by apply escape_step_marker|].
  change (drop 6 (backslash :: letter_u :: hex4 u ++ text)) with text. apply Hf. change (length (hex4 u)) with 4%nat in Hl'. lia.
Qed.

Lemma restored_plain u rest text key : special u = false → u < 2^16 → u ≠ backslash →
  (∀ lo rest', rest = lo :: rest' → is_high u && is_low lo = false) →
  restored rest text key → restored (u :: rest) (u :: text) (u :: key).
Proof.
  intros Hs Hu Hb Hnp (E1 & E2 & _ & Hf). destruct (plain_units u Hs Hu) as [Es Ek].
  unfold restored, source_escape, encode_key in *. rewrite !encode_pairs_unit, E1, E2, Es, Ek by done.
  split_and!; [done..|]. intros fuel Hl'. cbn [length] in Hl'.
  apply (escape_loop_step _ _ [u] 1); [done|lia|by apply escape_step_char|]. apply Hf. lia.
Qed.

(** A backslash before text that starts at [v]: the loop takes it alone when a
    marker follows, else together with the next character. *)
Lemma restored_backslash rest text key : 
  restored rest text key →
  (∀ fuel, (S (length text) <= fuel)%nat → escape_loop fuel (backslash :: text) = Ok (backslash :: key)) →
  restored (backslash :: rest) (backslash :: text) (backslash :: key).
Proof.
  intros (E1 & E2 & _ & _) Hf. assert (special backslash = false) as Hs by done.
  destruct (plain_units backslash Hs) as [Es Ek]; [done|].
  unfold restored, source_escape, encode_key in *. rewrite !encode_pairs_unit, E1, E2, Es, Ek by done.
  split_and!; [done..|exact Hf].
Qed.

Lemma backslash_other c text key : c ≠ backslash → c ≠ letter_u →
  (∀ fuel, (length text <= fuel)%nat → escape_loop fuel text = Ok key) →
  ∀ fuel, (S (length (c :: text)) <= fuel)%nat → escape_loop fuel (backslash :: c :: text) = Ok (backslash :: c :: key).
Proof.
  intros H1 H2 Hf fuel Hl. cbn [length] in Hl.
  apply (escape_loop_step _ _ [backslash; c] 2); [done|lia|by apply escape_step_other|]. apply Hf. lia.
Qed.

(** The next unit after a backslash decides how far the loop reads. *)
Lemma restored_after_backslash rest text key :
  Forall (λ u, u < 2^16) rest → no_escaped_u (backslash :: rest) = true → restored rest text key →
  (∀ rest', (length rest' < length rest)%nat → no_escaped_u rest' = true → Forall (λ u, u < 2^16) rest' →
     ∃ text key, restored rest' text key) →
  restored (backslash :: rest) (backslash :: text) (backslash :: key).
Proof.
  intros Hu Hn Hr IH. apply restored_backslash; [done|].
  assert (∀ r t k, restored r t k → ∀ t' k', restored r t' k' → t' = t ∧ k' = k) as Hdet.
  { intros r t k (H1 & H2 & _) t' k' (H1' & H2' & _). split; congruence. }
  pose proof (no_escaped_u_tail _ _ Hn) as Hn'.
  destruct (head_cases rest) as [->|hi lo rest' -> Hh Hl|u rest' -> Hs Hnp|u rest' -> Hs Hnp].
  - destruct (Hdet _ _ _ restored_nil _ _ Hr) as [-> ->]. intros [|fuel] Hf; [simpl in Hf; lia|]. by destruct fuel.
  - destruct (IH rest') as (t & k & Ht); [simpl; lia|by do 2 apply no_escaped_u_tail in Hn'|
      by do 2 apply Forall_cons in Hu as [_ Hu]|].
    destruct (Hdet _ _ _ (restored_pair hi lo rest' t k Hh Hl Ht) _ _ Hr) as [-> ->].
    destruct (pair_value_char hi lo Hh Hl) as [Hc _].
    apply backslash_other; [unfold backslash; lia|unfold letter_u; lia|apply Ht].
  - apply Forall_cons in Hu as [Hu Hu']. destruct (IH rest') as (t & k & Ht); [simpl; lia|by eapply no_escaped_u_tail|done|].
    destruct (Hdet _ _ _ (restored_special u rest' t k Hs Hu Hnp Ht) _ _ Hr) as [-> ->].
    intros fuel Hf. apply (escape_loop_step _ _ [backslash] 1); [done|lia|by apply escape_step_before_marker|].
    destruct Hr as (_ & _ & _ & Hr). apply Hr. lia.
  - apply Forall_cons in Hu as [Hu Hu']. destruct (IH rest') as (t & k & Ht); [simpl; lia|by eapply no_escaped_u_tail|done|].
    destruct (decide (u = backslash)) as [->|Hb].
    + assert (text = backslash :: t ∧ key = backslash :: k) as [-> ->].
      { destruct Hr as (H1 & H2 & _), Ht as (E1 & E2 & _), (plain_units backslash Hs Hu) as [Es Ek].
        unfold source_escape, encode_key in *. rewrite encode_pairs_unit, E1, Es in H1 by done.
        rewrite encode_pairs_unit, E2, Ek in H2 by done. by injection H1 as <-; injection H2 as <-. }
      intros fuel Hf. cbn [length] in Hf. apply (escape_loop_step _ _ [backslash; backslash] 2); [done|lia| |apply Ht; lia].
      apply escape_step_double. destruct Ht as (_ & _ & Ht & _). intros E. apply Ht in E.
      destruct rest' as [|x rest']; [done|]. injection E as ->. by vm_compute in Hn'.
    + destruct (Hdet _ _ _ (restored_plain u rest' t k Hs Hu Hb Hnp Ht) _ _ Hr) as [-> ->].
      apply backslash_other; [done| |apply Ht]. intros ->. by destruct rest'.
Qed.

Lemma escape_back units : Forall (λ u, u < 2^16) units → no_escaped_u units = true → ∃ text key, restored units text key.
Proof.
  induction units as [units IH] using (induction_ltof1 _ (@length N)). unfold ltof in IH. intros Hu Hn.
  destruct (head_cases units) as [->|hi lo rest -> Hh Hl|u rest -> Hs Hnp|u rest -> Hs Hnp].
  - eexists _, _. apply restored_nil.
  - destruct (IH rest) as (t & k & Ht); [simpl; lia|by do 2 apply Forall_cons in Hu as [_ Hu]|
      by do 2 apply no_escaped_u_tail in Hn|]. eexists _, _. by apply restored_pair.
  - apply Forall_cons in Hu as [Hu Hu']. destruct (IH rest) as (t & k & Ht); [simpl; lia|done|by eapply no_escaped_u_tail|].
    eexists _, _. by apply restored_special.
  - apply Forall_cons in Hu as [Hu Hu']. destruct (IH rest) as (t & k & Ht); [simpl; lia|done|by eapply no_escaped_u_tail|].
    destruct (decide (u = backslash)) as [->|Hb]; [|eexists _, _; by apply restored_plain].
    eexists _, _. apply restored_after_backslash; try done. intros rest' Hlt Hn' Hu''. apply IH; [simpl; lia|done..].
Qed.
End KeyFacts.

(** ** Facts about the interner *)

(** Calls in sequence, as one machine makes them. *)
Fixpoint intern_all (hash64 : list N → N) (it : PermInterner.t) (ss : list (list N)) : res (list N * PermInterner.t) :=
  match ss with
  | [] => Ok ([], it)
  | s :: ss =>
      let* r := PermInterner.intern hash64 it s in
      let* rs := intern_all hash64 r.2 ss in Ok (r.1.1 :: rs.1, rs.2)
  end.

Fixpoint string_all (it : PermInterner.t) (ids : list N) : res (list (list N) * PermInterner.t) :=
  match ids with
  | [] => Ok ([], it)
  | id :: ids =>
      let* r := PermInterner.string_ptr it id in
      let* rs := string_all r.2 ids in Ok (r.1 :: rs.1, rs.2)
  end.

Module InternFacts.
Import PermInterner.

Section facts.
Context (hash64 : list N → N).

(** Candidates name entries of their hash. *)
Definition table_ok (it : t) : Prop :=
  ∀ h c id, hash_map it !! h = Some c → id ∈ c → ∃ s, entries it !! N.to_nat id = Some s ∧ hash64 s = h.

(** No entry twice, and every entry can be found. *)
Record seq_ok (it : t) : Prop := {
  sq_table : table_ok it;
  sq_nodup : NoDup (entries it);
  sq_found i s : entries it !! i = Some s → ∃ c, hash_map it !! hash64 s = Some c ∧ N.of_nat i ∈ c;
  sq_perm i u : permanent_strings it !! i = Some (Some u) → ∃ s, entries it !! i = Some s ∧ u = Keys.decode_key s;
}.

Lemma find_candidate_ok es s c :
  (∀ id, id ∈ c → is_Some (es !! N.to_nat id)) →
  ∃ r, find_candidate es s c = Ok r ∧
    match r with Some id => id ∈ c ∧ es !! N.to_nat id = Some s | None => ∀ id, id ∈ c → es !! N.to_nat id ≠ Some s end.
Proof.
  induction c as [|id c IH]; intros Hc; [exists None; split; [done|set_solver]|]. cbn [find_candidate].
  destruct (Hc id) as [e He]; [by left|]. unfold vec_get. rewrite He. cbn [res_bind]. case_bool_decide as Hes.
  - exists (Some id). subst. split; [done|]. split; [by left|done].
  - destruct IH as (r & -> & Hr); [intros; apply Hc; by right|]. exists r. split; [done|]. destruct r as [id'|].
    + destruct Hr. split; [by right|done].
    + intros i. rewrite elem_of_cons. intros [->|Hi]; [congruence|auto].
Qed.

Lemma find_entry_ok it s :
  table_ok it → ∃ r, find_entry hash64 it s = Ok r ∧
    match r with
    | Some id => entries it !! N.to_nat id = Some s
    | None => ∀ c id, hash_map it !! hash64 s = Some c → id ∈ c → entries it !! N.to_nat id ≠ Some s
    end.
Proof.
  intros Ht. unfold find_entry. destruct (hash_map it !! hash64 s) as [c|] eqn:E; [|by exists None].
  destruct (find_candidate_ok (entries it) s c) as (r & -> & Hr).
  { intros id Hid. destruct (Ht _ _ _ E Hid) as (x & Hx & _). by eexists. }
  exists r. split; [done|]. destruct r as [id|]; [by destruct Hr|]. intros ? id [= <-]. apply Hr.
Qed.

Lemma find_entry_seq it s : seq_ok it →
  ∃ r, find_entry hash64 it s = Ok r ∧ match r with Some id => entries it !! N.to_nat id = Some s | None => s ∉ entries it end.
Proof.
  intros Hok. destruct (find_entry_ok it s (sq_table _ Hok)) as (r & E & Hr). exists r. split; [done|].
  destruct r as [id|]; [done|]. intros [i Hi]%list_elem_of_lookup. destruct (sq_found _ Hok i s Hi) as (c & Hc & Hin).
  apply (Hr c (N.of_nat i) Hc Hin). by rewrite Nat2N.id.
Qed.

Lemma table_grow it it' : entries it `prefix_of` entries it' → hash_map it' = hash_map it → table_ok it → table_ok it'.
Proof.
  intros Hp Eh Ht h c id. rewrite Eh. intros Hc Hid. destruct (Ht h c id Hc Hid) as (s & Hs & Hh). exists s.
  split; [by eapply prefix_lookup_Some|done].
Qed.

Lemma table_push it s id : table_ok it → entries it !! N.to_nat id = Some s → table_ok (push_candidate hash64 it s id).
Proof.
  intros Ht Hs h c j. cbn. destruct (decide (hash64 s = h)) as [<-|Hne].
  - rewrite lookup_insert_eq. intros [= <-]. rewrite elem_of_app, list_elem_of_singleton. intros [Hj| ->]; [|by exists s].
    destruct (hash_map it !! hash64 s) as [c|] eqn:E; [|by apply elem_of_nil in Hj]. by apply (Ht _ c).
  - rewrite lookup_insert_ne by done. apply Ht.
Qed.

Lemma seq_new : seq_ok new.
Proof. split; [by intros h c id Hc|constructor|by intros ??|by intros ??]. Qed.

Lemma intern_ok it s : seq_ok it → N.of_nat (length (entries it)) < 2^32 →
  ∃ id it', intern hash64 it s = Ok (id, hash64 s, it') ∧ seq_ok it' ∧ entries it' !! N.to_nat id = Some s ∧
    entries it `prefix_of` entries it' ∧ (length (entries it') <= S (length (entries it)))%nat ∧
    (∀ x, x ∈ entries it' → x ∈ entries it ∨ x = s) ∧ permanent_strings it' = permanent_strings it ∧
    id < 2^32.
Proof.
  intros Hok Hlen. unfold intern. destruct (find_entry_seq it s Hok) as (r & -> & Hr). cbn [res_bind].
  destruct r as [id|].
  { exists id, it. assert (N.to_nat id < length (entries it))%nat by (by eapply lookup_lt_Some).
    split_and!; try done; [lia|auto|lia]. }
  cbn [res_bind]. cbn [push_entry]. assert (u32 (N.of_nat (length (entries it))) = N.of_nat (length (entries it))) as ->
    by (by apply N.mod_small).
  set (n := N.of_nat (length (entries it))) in *. set (it1 := mkInterner _ (_ ++ [s]) _).
  assert (entries it1 !! N.to_nat n = Some s) as Hn by (unfold n; rewrite Nat2N.id; by apply list_lookup_middle).
  exists n, (push_candidate hash64 it1 s n). split; [done|].
  assert (entries it `prefix_of` entries it1) as Hpre by (by eexists).
  split_and!; [|done|done|simpl; rewrite length_app; simpl; lia| |done|done].
  - destruct Hok as [Ht Hnd Hf Hp]. split.
    + apply table_push; [|done]. by apply (table_grow it).
    + cbn. apply NoDup_app. split_and!; [done|set_solver|apply NoDup_singleton].
    + intros i x. cbn. intros Hi. apply lookup_snoc_Some in Hi as [[Hlt Hi]|[-> <-]].
      * destruct (Hf i x Hi) as (c & Hc & Hin). destruct (decide (hash64 s = hash64 x)) as [E|Hne].
        -- rewrite E, lookup_insert_eq, Hc. eexists. split; [done|]. set_solver.
        -- rewrite lookup_insert_ne by done. by exists c.
      * rewrite lookup_insert_eq. eexists. split; [done|]. set_solver.
    + intros i u Hi. destruct (Hp i u Hi) as (x & Hx & ->). exists x. split; [|done]. by eapply prefix_lookup_Some.
  - intros x. cbn. set_solver.
Qed.

Lemma string_ptr_ok it id s : seq_ok it → entries it !! N.to_nat id = Some s →
  ∃ it', string_ptr it id = Ok (Keys.decode_key s, it') ∧ seq_ok it' ∧ entries it' = entries it.
Proof.
  intros Hok Hs. unfold string_ptr. destruct (mjoin (permanent_strings it !! N.to_nat id)) as [u|] eqn:Eu.
  { exists it. split_and!; [|done|done]. destruct (permanent_strings it !! N.to_nat id) as [o|] eqn:Eo; [|done].
    simpl in Eu. subst o. destruct (sq_perm _ Hok _ _ Eo) as (x & Hx & ->). congruence. }
  set (n := (N.to_nat id + 1 - length (permanent_strings it))%nat). set (perm := permanent_strings it ++ replicate n None).
  assert (perm !! N.to_nat id = Some None) as En.
  { unfold perm. destruct (permanent_strings it !! N.to_nat id) as [o|] eqn:Eo.
    - simpl in Eu. subst o. by apply lookup_app_l_Some.
    - apply lookup_ge_None in Eo. rewrite lookup_app_r by done. apply lookup_replicate_2. unfold n. lia. }
  unfold vec_get. rewrite En. cbn [res_bind]. unfold lookup. rewrite Hs.
  change (default [] (Some s)) with s.
  rewrite vec_set_lt by (by eapply lookup_lt_Some). cbn [res_bind]. eexists. split_and!; [done| |done].
  destruct Hok as [Ht Hnd Hf Hp]. split; try done. cbn. intros i u Hi.
  apply list_lookup_insert_Some in Hi as [(<- & [= <-] & _)|[Hne Hi]]; [by exists s|].
  unfold perm in Hi. apply lookup_app_Some in Hi as [Hi|[_ Hi]]; [by apply Hp|].
  apply lookup_replicate in Hi as [Hi _]. done.
Qed.
End facts.
End InternFacts.

(** *** Sequences of calls *)

Module SeqFacts.
Import PermInterner InternFacts.

Section facts.
Context (hash64 : list N → N).

Lemma intern_all_ok ss it : seq_ok hash64 it → N.of_nat (length (entries it)) + N.of_nat (length ss) <= 2^32 →
  ∃ ids it', intern_all hash64 it ss = Ok (ids, it') ∧ seq_ok hash64 it' ∧ entries it `prefix_of` entries it' ∧
    Forall2 (λ id s, entries it' !! N.to_nat id = Some s ∧ id < 2^32) ids ss ∧
    (∀ x, x ∈ entries it' → x ∈ entries it ∨ x ∈ ss) ∧ N.of_nat (length (entries it')) <= 2^32.
Proof.
  revert it. induction ss as [|s ss IH]; intros it Hok Hl.
  { exists [], it. split_and!; [done..|constructor|auto|]. simpl in Hl. lia. }
  cbn [length] in Hl. destruct (intern_ok hash64 it s) as (id & it1 & E1 & Hok1 & Hs & Hp & Hle & Hin & _ & Hid); [done|lia|].
  destruct (IH it1) as (ids & it2 & E2 & Hok2 & Hp2 & Hall & Hin2 & Hb); [done|lia|]. exists (id :: ids), it2. cbn [intern_all].
  rewrite E1. cbn [res_bind fst snd]. rewrite E2. split_and!; [done|done|by etrans| | |done].
  - constructor; [|done]. split; [by eapply prefix_lookup_Some|done].
  - intros x Hx. destruct (Hin2 x Hx) as [Hx'|Hx']; [|right; by right]. destruct (Hin x Hx') as [| ->]; [by left|right; by left].
Qed.

Lemma string_all_ok ids it ss : seq_ok hash64 it → Forall2 (λ id s, entries it !! N.to_nat id = Some s) ids ss →
  ∃ it', string_all it ids = Ok (Keys.decode_key <$> ss, it') ∧ entries it' = entries it.
Proof.
  intros Hok Hall. revert it Hok Hall. revert ss. induction ids as [|id ids IH]; intros ss it Hok Hall.
  { apply Forall2_nil_inv_l in Hall as ->. by exists it. }
  apply Forall2_cons_inv_l in Hall as (s & ss' & Hs & Hall & ->).
  destruct (string_ptr_ok hash64 it id s Hok Hs) as (it1 & E1 & Hok1 & Ee).
  destruct (IH ss' it1) as (it2 & E2 & Ee2); [done|by rewrite Ee|]. exists it2. cbn [string_all]. rewrite E1. cbn [res_bind fst snd].
  rewrite E2. split; [done|congruence].
Qed.

(** *** Interleaved calls *)

Definition call_ok (it : t) (ph : intern_phase) : Prop :=
  match ph with
  | IPushed s id | IDone s id => entries it !! N.to_nat id = Some s
  | _ => True
  end.

Definition calls_ok (st : t * list intern_phase) : Prop :=
  table_ok hash64 st.1 ∧ ∀ i ph, st.2 !! i = Some ph → call_ok st.1 ph.

Lemma call_mono it it' ph : entries it `prefix_of` entries it' → call_ok it ph → call_ok it' ph.
Proof. intros Hp. destruct ph; cbn; try done; intros H; by eapply prefix_lookup_Some. Qed.

Lemma step_entries st st' : intern_step hash64 st st' → entries st.1 `prefix_of` entries st'.1.
Proof.
  destruct 1 as [| | |it it' ts i s id _ _ [= _ <-]|]; cbn; try done. by eexists.
Qed.

Lemma run_entries st st' : rtc (intern_step hash64) st st' → entries st.1 `prefix_of` entries st'.1.
Proof. induction 1 as [|x y z Hxy _ IH]; [done|]. etrans; [by apply step_entries|done]. Qed.

Lemma calls_advance it it' ts i ph : calls_ok (it, ts) → table_ok hash64 it' → entries it `prefix_of` entries it' →
  call_ok it' ph → calls_ok (it', <[i := ph]> ts).
Proof.
  intros [_ Hc] Ht Hp Hph. split; [done|]. intros j qh Hj. cbn in *.
  apply list_lookup_insert_Some in Hj as [(<- & -> & _)|[_ Hj]]; [done|]. eapply call_mono; [done|by eapply Hc].
Qed.

Lemma calls_step st st' : intern_step hash64 st st' → N.of_nat (length (entries st'.1)) <= 2^32 → calls_ok st → calls_ok st'.
Proof.
  intros Hs Hb Hok. destruct Hs as [it ts s|it ts i s r Hi Hf|it ts i s id Hi Hf|it it' ts i s id Hi Hf Hp|it ts i s id Hi].
  - destruct Hok as [Ht Hc]. split; [done|]. intros j ph Hj. cbn in *. apply lookup_snoc_Some in Hj as [[_ Hj]|[_ <-]]; [by eapply Hc|done].
  - eapply calls_advance; [done|apply Hok|done|]. destruct (find_entry_ok hash64 it s) as (r' & E & Hr); [apply Hok|].
    rewrite E in Hf. injection Hf as <-. by destruct r'.
  - eapply calls_advance; [done|apply Hok|done|]. destruct (find_entry_ok hash64 it s) as (r' & E & Hr); [apply Hok|].
    rewrite E in Hf. injection Hf as ->. done.
  - injection Hp as <- <-. cbn [fst entries] in Hb. rewrite length_app in Hb. cbn [length] in Hb.
    assert (u32 (N.of_nat (length (entries it))) = N.of_nat (length (entries it))) as E by (apply N.mod_small; lia).
    assert (entries it `prefix_of` entries it ++ [s]) as Hpre by (by eexists).
    eapply calls_advance; [done|apply (table_grow hash64 it); [done|done|apply Hok]|done|].
    cbn. rewrite E, Nat2N.id. by apply list_lookup_middle.
  - destruct Hok as [Ht Hc]. pose proof (Hc _ _ Hi) as Hs. eapply calls_advance; [done|by apply table_push|done|done].
Qed.

Lemma calls_run st st' : rtc (intern_step hash64) st st' → N.of_nat (length (entries st'.1)) <= 2^32 → calls_ok st → calls_ok st'.
Proof.
  induction 1 as [|x y z Hxy Hyz IH]; intros Hb Hok; [done|]. apply IH; [done|]. apply (calls_step x y); [done| |done].
  apply run_entries, prefix_length in Hyz. lia.
Qed.
End facts.
End SeqFacts.

(** ** Properties *)

(** C31: [encode_key] succeeds on every string of 16-bit units, gives well-formed
    text, and [decode_key] gives the units back; text without the replacement
    character is its own key. *)
Theorem key_roundtrip units text :
  Forall (λ u, u < 2^16) units → Forall (λ c, is_char c = true ∧ c ≠ Keys.FFFD) text →
  (∃ key, Keys.encode_key units = Ok key ∧ Forall (λ c, is_char c = true) key ∧ Keys.decode_key key = units) ∧
  Keys.encode_key (utf16 text) = Ok text.
Proof. intros Hu Ht. split; [by apply KeyFacts.encode_key_ok|by apply KeyFacts.encode_key_utf16]. Qed.

(** The key read back from escaped source is the key of the original
    units, unless the units themselves have a letter u directly after a
    backslash. *)
Theorem source_escape_restored units :
  Forall (λ u, u < 2^16) units → KeyFacts.no_escaped_u units = true →
  ∃ text key, Keys.source_escape units = Ok text ∧ Keys.source_escape_to_key text = Ok key ∧ Keys.encode_key units = Ok key.
Proof.
  intros Hu Hn. destruct (KeyFacts.escape_back units Hu Hn) as (text & key & Hs & Hk & _ & Hf). exists text, key.
  split_and!; [done|by apply Hf|done].
Qed.

(** Interned one after the other, strings get the same number exactly when
    they are equal; each number leads back to its string, each string to its
    number, and there are exactly as many entries as different strings. *)
Theorem interned_once hash64 ss :
  N.of_nat (length ss) <= 2^32 →
  ∃ ids it, intern_all hash64 PermInterner.new ss = Ok (ids, it) ∧ length ids = length ss ∧
    (∀ i j a b s r, ids !! i = Some a → ids !! j = Some b → ss !! i = Some s → ss !! j = Some r → (a = b ↔ s = r)) ∧
    (∀ i a s, ids !! i = Some a → ss !! i = Some s →
       PermInterner.lookup it a = Some s ∧ PermInterner.lookup_id hash64 it s = Ok (Some a)) ∧
    NoDup (PermInterner.entries it) ∧ ∀ s, s ∈ PermInterner.entries it ↔ s ∈ ss.
Proof.
  intros Hl. destruct (SeqFacts.intern_all_ok hash64 ss PermInterner.new) as (ids & it & E & Hok & _ & Hall & Hin & _);
    [apply InternFacts.seq_new|by simpl|].
  pose proof (InternFacts.sq_nodup _ _ Hok) as Hnd.
  assert (∀ i a s, ids !! i = Some a → ss !! i = Some s → PermInterner.entries it !! N.to_nat a = Some s ∧ a < 2^32) as Hat
    by (intros i a s Ha Hs; exact (Forall2_lookup_lr _ _ _ i a s Hall Ha Hs)).
  exists ids, it. split_and!; [done|by eapply Forall2_length| | |done|].
  - intros i j a b s r Ha Hb Hs Hr. destruct (Hat i a s Ha Hs) as [Ea _], (Hat j b r Hb Hr) as [Eb _].
    split; [intros <-; congruence|intros <-]. apply N2Nat.inj. by eapply NoDup_lookup.
  - intros i a s Ha Hs. destruct (Hat i a s Ha Hs) as [Ea _]. split; [done|].
    destruct (InternFacts.find_entry_seq hash64 it s Hok) as (r & Er & Hr). unfold PermInterner.lookup_id. rewrite Er.
    destruct r as [b|]; [|by apply list_elem_of_lookup_2 in Ea]. do 2 f_equal. apply N2Nat.inj. by eapply NoDup_lookup.
  - intros s. split; [intros Hs; destruct (Hin s Hs) as [H|]; [by apply elem_of_nil in H|done]|].
    intros [i Hi]%list_elem_of_lookup. destruct (Forall2_lookup_r _ _ _ i s Hall Hi) as (a & Ha & Ea & _).
    by eapply list_elem_of_lookup_2.
Qed.

(** The permanent strings of interned keys are the units the keys were
    made from, whatever was interned before, and whether a string is made now
    or was made earlier. *)
Theorem interned_strings hash64 us keys :
  N.of_nat (length us) <= 2^32 → Forall (Forall (λ u, u < 2^16)) us → map_res Keys.encode_key us = Ok keys →
  ∃ ids it it', intern_all hash64 PermInterner.new keys = Ok (ids, it) ∧ string_all it (ids ++ ids) = Ok (us ++ us, it').
Proof.
  intros Hl Hu Hk. apply map_res_Forall2 in Hk. pose proof (Forall2_length _ _ _ Hk) as Hlen.
  assert (Keys.decode_key <$> keys = us) as Hd.
  { clear Hl Hlen. induction Hk as [|u k us keys Huk _ IH]; [done|]. apply Forall_cons in Hu as [Hu Hus].
    cbn. rewrite IH by done. f_equal. destruct (KeyFacts.encode_key_ok u Hu) as (k' & E & _ & Hd). congruence. }
  destruct (SeqFacts.intern_all_ok hash64 keys PermInterner.new) as (ids & it & E & Hok & _ & Hall & _);
    [apply InternFacts.seq_new|simpl; lia|].
  assert (Forall2 (λ id s, PermInterner.entries it !! N.to_nat id = Some s) ids keys) as Hall'
    by (eapply Forall2_impl; [done|naive_solver]).
  destruct (SeqFacts.string_all_ok hash64 (ids ++ ids) it (keys ++ keys)) as (it' & E' & _); [done|by apply Forall2_app|].
  exists ids, it, it'. split; [done|]. by rewrite E', fmap_app, Hd.
Qed.

(** In every interleaving of [intern] calls, the number a call returns
    leads back to its string, now and in every later state; calls for different
    strings never return the same number. *)
Theorem interned_numbers_name hash64 it ts it' ts' :
  rtc (intern_step hash64) (PermInterner.new, []) (it, ts) → rtc (intern_step hash64) (it, ts) (it', ts') →
  N.of_nat (length (PermInterner.entries it)) <= 2^32 →
  (∀ i s id, ts !! i = Some (IDone s id) → PermInterner.lookup it id = Some s ∧ PermInterner.lookup it' id = Some s) ∧
  ∀ i j s r id, ts !! i = Some (IDone s id) → ts !! j = Some (IDone r id) → s = r.
Proof.
  intros Hrun Hlater Hb. destruct (SeqFacts.calls_run hash64 _ _ Hrun Hb) as [_ Hc]; [split; [by intros h c id Hc|by intros ??]|].
  cbn in Hc. split.
  - intros i s id Hi. pose proof (Hc _ _ Hi) as Hs. split; [done|]. apply SeqFacts.run_entries in Hlater.
    by eapply prefix_lookup_Some.
  - intros i j s r id Hi Hj. pose proof (Hc _ _ Hi) as Hs. pose proof (Hc _ _ Hj) as Hr. cbn in Hs, Hr. congruence.
Qed.

(** Two calls that run at the same time can intern one string twice, under
    two different numbers, whatever the string and the hash function: the
    second call searches the table after the first has appended its entry and
    before it has entered the number. *)
Theorem intern_race hash64 s :
  ∃ it, rtc (intern_step hash64) (PermInterner.new, []) (it, [IDone s 0; IDone s 1]) ∧
    PermInterner.lookup it 0 = Some s ∧ PermInterner.lookup it 1 = Some s ∧ PermInterner.entry_count it = 2.
Proof.
  eexists. split.
  - eapply rtc_l; [eapply (is_call _ _ _ s)|cbn [app]]. eapply rtc_l; [eapply (is_call _ _ _ s)|cbn [app]].
    eapply rtc_l; [eapply (is_fast _ _ _ 0); reflexivity|]. eapply rtc_l; [eapply (is_fast _ _ _ 1); reflexivity|].
    eapply rtc_l; [eapply (is_push _ _ _ _ 0); reflexivity|]. eapply rtc_l; [eapply (is_push _ _ _ _ 1); reflexivity|].
    eapply rtc_l; [eapply (is_enter _ _ _ 0); reflexivity|]. eapply rtc_l; [eapply (is_enter _ _ _ 1); reflexivity|].
    apply rtc_refl.
  - done.
Qed.

(** ** Witnesses *)

(** A lone surrogate, a pair and the replacement character. *)
Definition demo_units : list N := [0xD800; 97; 0xD834; 0xDF06; 0xFFFD; 0xDC00].

Lemma key_roundtrip_witness :
  (∃ key, Keys.encode_key demo_units = Ok key ∧ Forall (λ c, is_char c = true) key ∧ Keys.decode_key key = demo_units) ∧
  Keys.encode_key [97; 0xD834; 0xDF06] = Ok [97; 0x1D306].
Proof.
  assert (Forall (λ u, u < 2^16) demo_units) as H1 by (by repeat constructor).
  assert (Forall (λ c, is_char c = true ∧ c ≠ Keys.FFFD) [97; 0x1D306]) as H2 by (by repeat constructor).
  exact (key_roundtrip demo_units [97; 0x1D306] H1 H2).
Defined.

Lemma source_escape_restored_witness :
  ∃ text key, Keys.source_escape (Keys.backslash :: demo_units) = Ok text ∧ Keys.source_escape_to_key text = Ok key ∧
    Keys.encode_key (Keys.backslash :: demo_units) = Ok key.
Proof. apply source_escape_restored; [by repeat constructor|by vm_compute]. Defined.

Lemma interned_once_witness :
  ∃ ids it, intern_all (λ _, 0) PermInterner.new [[97]; [98]; [97]] = Ok (ids, it) ∧ ids = [0; 1; 0] ∧
    PermInterner.lookup it 1 = Some [98].
Proof.
  destruct (interned_once (λ _, 0) [[97]; [98]; [97]]) as (ids & it & E & _ & _ & H & _); [by vm_compute|].
  assert (ids = [0; 1; 0]) as Hids by (vm_compute in E; congruence). exists ids, it. split_and!; [done..|].
  apply (H 1%nat 1 [98]); by rewrite ?Hids.
Defined.

Lemma interned_strings_witness :
  ∃ keys ids it it', map_res Keys.encode_key [demo_units; [97]; demo_units] = Ok keys ∧
    intern_all (λ _, 0) PermInterner.new keys = Ok (ids, it) ∧
    string_all it (ids ++ ids) = Ok ([demo_units; [97]; demo_units] ++ [demo_units; [97]; demo_units], it').
Proof.
  destruct (map_res Keys.encode_key [demo_units; [97]; demo_units]) as [keys| |] eqn:E; [|by vm_compute in E..]. exists keys.
  destruct (interned_strings (λ _, 0) [demo_units; [97]; demo_units] keys) as (ids & it & it' & H1 & H2);
    [by vm_compute|by repeat constructor|done|]. by exists ids, it, it'.
Defined.

Lemma interned_numbers_name_witness :
  ∃ it, rtc (intern_step (λ _, 0)) (PermInterner.new, []) (it, [IMissed [97]]) ∧
    ∀ i s id, [IMissed [97]; IDone [97] 0] !! i = Some (IDone s id) →
      PermInterner.lookup (PermInterner.push_candidate (λ _, 0) (PermInterner.push_entry it [97]).2 [97] 0) id = Some s.
Proof.
  exists PermInterner.new. set (it := PermInterner.push_candidate _ _ _ _).
  assert (rtc (intern_step (λ _, 0)) (PermInterner.new, []) (PermInterner.new, [IMissed [97]])) as H0.
  { eapply rtc_l; [eapply (is_call _ _ _ [97])|]. eapply rtc_l; [eapply (is_fast _ _ _ 0); reflexivity|]. apply rtc_refl. }
  split; [done|].
  assert (rtc (intern_step (λ _, 0)) (PermInterner.new, []) (it, [IMissed [97]; IDone [97] 0])) as H1.
  { etrans; [exact H0|]. eapply rtc_l; [eapply (is_call _ _ _ [97])|]. eapply rtc_l; [eapply (is_fast _ _ _ 1); reflexivity|].
    eapply rtc_l; [eapply (is_push _ _ _ _ 1); reflexivity|]. eapply rtc_l; [eapply (is_enter _ _ _ 1); reflexivity|]. apply rtc_refl. }
  destruct (interned_numbers_name (λ _, 0) it [IMissed [97]; IDone [97] 0] it [IMissed [97]; IDone [97] 0]) as [H _];
    [done|apply rtc_refl|by vm_compute|]. intros i s id Hi. exact (proj1 (H i s id Hi)).
Defined.
