(* ===== verification/Codec.v ===== *)
(** * Base64 and hexadecimal (crates/oxide_builtins/src/ta_codec.rs)

    The decoders behind [Uint8Array.fromBase64] and its relatives: they read
    16-bit units, skip white space, and call a write function for every byte.
    The calls are modelled as the list of their arguments, in order, so the
    bytes written before an error are part of the outcome. *)

From stdpp Require Import base tactics numbers list option strings.
From Stdlib Require Import NArith ZArith Lia.
From S2P Require Import Prelude Unicode.
#[local] Set Warnings "-clear-no-such-hyp".

Open Scope N_scope.

Module Codec.
Inductive Base64Alphabet := Standard | Url.
Inductive LastChunkHandling := Loose | Strict | StopBeforePartial.

#[global] Instance Base64Alphabet_eq_dec : EqDecision Base64Alphabet.
Proof. solve_decision. Defined.
#[global] Instance LastChunkHandling_eq_dec : EqDecision LastChunkHandling.
Proof. solve_decision. Defined.

Record DecodeConfig := mkConfig {
  alphabet : Base64Alphabet;
  handling : LastChunkHandling;
  max_len : option nat;
}.

Definition B64_ALPHABET_STANDARD : list N := bytes_of "ABCDEFGHIJKLMNOPQRSTUVWXYZabcdefghijklmnopqrstuvwxyz0123456789+/".
Definition B64_ALPHABET_URL : list N := bytes_of "ABCDEFGHIJKLMNOPQRSTUVWXYZabcdefghijklmnopqrstuvwxyz0123456789-_".

Definition b64_table (a : Base64Alphabet) : list N :=
  match a with Standard => B64_ALPHABET_STANDARD | Url => B64_ALPHABET_URL end.

Definition is_base64_whitespace (unit : N) : bool :=
  (unit =? 0x09) || (unit =? 0x0A) || (unit =? 0x0C) || (unit =? 0x0D) || (unit =? 0x20).

Definition base64_value (unit : N) (a : Base64Alphabet) : option N :=
  if in_range 0x41 0x5a unit then Some (unit - 0x41)
  else if in_range 0x61 0x7a unit then Some (unit - 0x61 + 26)
  else if in_range 0x30 0x39 unit then Some (unit - 0x30 + 52)
  else if (unit =? 0x2b) && bool_decide (a = Standard) then Some 62
  else if (unit =? 0x2f) && bool_decide (a = Standard) then Some 63
  else if (unit =? 0x2d) && bool_decide (a = Url) then Some 62
  else if (unit =? 0x5f) && bool_decide (a = Url) then Some 63
  else None.

Definition padding : N := 0x3d.

(** The loop over the data characters of a block. *)
Fixpoint data_bits (a : Base64Alphabet) (data : list N) (bits : N) : option N :=
  match data with
  | [] => Some bits
  | c :: data =>
      match base64_value c a with
      | Some v => data_bits a data (N.lor (u32 (N.shiftl bits 6)) v)
      | None => None
      end
  end.

(** [None] is [Err(DecodeError)].  The last data character has a value when the
    loop over the data succeeded, so its [unwrap] never fails. *)
Definition decode_full_chunk (chunk : list N) (config : DecodeConfig) : option (N * nat) :=
  let third := default 0 (chunk !! 2%nat) =? padding in
  let fourth := default 0 (chunk !! 3%nat) =? padding in
  let go (pad : nat) :=
    let data := take (4 - pad) chunk in
    match data_bits (alphabet config) data 0 with
    | None => None
    | Some bits =>
        let bits := u32 (N.shiftl bits (6 * N.of_nat pad)) in
        if bool_decide (handling config = Strict) && bool_decide (0 < pad)%nat then
          let mask := if bool_decide (pad = 1%nat) then 3 else 15 in
          match last data ≫= λ c, base64_value c (alphabet config) with
          | Some v => if N.land v mask =? 0 then Some (bits, (3 - pad)%nat) else None
          | None => None
          end
        else Some (bits, (3 - pad)%nat)
    end in
  match third, fourth with
  | false, false => go 0%nat
  | false, true => go 1%nat
  | true, true => go 2%nat
  | true, false => None
  end.

(** The calls of the write function: index and byte. *)
Definition writes := list (nat * N).

Definition write_chunk_bytes (written : nat) (bits : N) (count : nat) : writes :=
  (λ i, ((written + i)%nat, u8 (N.shiftr bits (16 - 8 * N.of_nat i)))) <$> seq 0 count.

(** Number of trailing padding characters. *)
Fixpoint leading_padding (chunk : list N) : nat :=
  match chunk with
  | c :: chunk => if c =? padding then S (leading_padding chunk) else 0%nat
  | [] => 0%nat
  end.

(** What a decoder wrote, and what it returned: how much it read and wrote, or
    an error. *)
Definition outcome : Type := writes * option (nat * nat).

Definition finish_partial (chunk : list N) (config : DecodeConfig) (written chunk_start read : nat) : outcome :=
  let a := alphabet config in
  let clen := length chunk in
  let valid cs := forallb (λ c, bool_decide (is_Some (base64_value c a))) cs in
  if existsb (λ c, c =? padding) chunk then
    let trailing := leading_padding (reverse chunk) in
    if bool_decide (clen = 3%nat) && bool_decide (trailing = 1%nat) && bool_decide (handling config = StopBeforePartial) then
      if valid (take 2 chunk) then ([], Some (chunk_start, written)) else ([], None)
    else ([], None)
  else if negb (valid chunk) then ([], None)
  else
    match handling config with
    | StopBeforePartial => ([], Some (chunk_start, written))
    | Strict => ([], None)
    | Loose =>
        if bool_decide (clen = 1%nat) then ([], None)
        else
          let full := match max_len config with Some m => bool_decide (m < written + clen - 1)%nat | None => false end in
          if full then ([], Some (chunk_start, written))
          else
            let v i := default 0 (chunk !! i ≫= λ c, base64_value c a) in
            let first := (written, u8 (N.lor (u32 (N.shiftl (v 0%nat) 2)) (N.shiftr (v 1%nat) 4))) in
            if bool_decide (clen = 3%nat) then
              let second := ((written + 1)%nat,
                u8 (N.land (N.lor (u32 (N.shiftl (v 1%nat) 4)) (N.shiftr (v 2%nat) 2)) 0xFF)) in
              ([first; second], Some (read, (written + 2)%nat))
            else ([first], Some (read, (written + 1)%nat))
    end.

(** The inner loop: up to [k] units that are no white space; what it
    collected, how far it read, and what is left. *)
Fixpoint collect (k : nat) (rest : list N) : list N * nat * list N :=
  match k, rest with
  | O, _ => ([], 0%nat, rest)
  | _, [] => ([], 0%nat, [])
  | S k', c :: rest' =>
      if is_base64_whitespace c then
        let '(chunk, n, later) := collect k rest' in (chunk, S n, later)
      else let '(chunk, n, later) := collect k' rest' in (c :: chunk, S n, later)
  end.

(** The outer loop; [rest] are the units from [read] on.  A round that goes on
    reads four units, so [fuel] units are enough. *)
Fixpoint decode_loop (fuel : nat) (config : DecodeConfig) (rest : list N) (read written : nat) : res outcome :=
  match fuel with
  | O => Panic
  | S fuel =>
      let '(chunk, n, later) := collect 4 rest in
      let read' := (read + n)%nat in
      match length chunk with
      | 4%nat =>
          let padded := (default 0 (chunk !! 2%nat) =? padding) || (default 0 (chunk !! 3%nat) =? padding) in
          if padded && existsb (λ c, negb (is_base64_whitespace c)) later then Ok ([], None)
          else
            match decode_full_chunk chunk config with
            | None => Ok ([], None)
            | Some (bits, count) =>
                let full := match max_len config with Some m => bool_decide (m < written + count)%nat | None => false end in
                if full then Ok ([], Some (read, written))
                else
                  let ws := write_chunk_bytes written bits count in
                  let written := (written + count)%nat in
                  let exact := match max_len config with Some m => bool_decide (written = m) | None => false end in
                  if exact then Ok (ws, Some (read', written))
                  else let* out := decode_loop fuel config later read' written in Ok (ws ++ out.1, out.2)
            end
      | 0%nat => Ok ([], Some (read', written))
      | _ => Ok (finish_partial chunk config written read read')
      end
  end.

Definition decode_base64 (units : list N) (config : DecodeConfig) : res outcome :=
  if bool_decide (max_len config = Some 0%nat) then Ok ([], Some (0%nat, 0%nat))
  else decode_loop (S (length units)) config units 0 0.

Definition hex_value (unit : N) : option N :=
  if in_range 0x30 0x39 unit then Some (u8 unit - 0x30)
  else if in_range 0x61 0x66 unit then Some (u8 unit - 0x61 + 10)
  else if in_range 0x41 0x46 unit then Some (u8 unit - 0x41 + 10)
  else None.

(** The loop over [units.chunks_exact(2)], at pair [i]. *)
Fixpoint hex_loop (units : list N) (max_len : option nat) (i written read : nat) : outcome :=
  match units with
  | a :: b :: units =>
      match hex_value a, hex_value b with
      | Some hi, Some lo =>
          let full := match max_len with Some m => bool_decide (m < written + 1)%nat | None => false end in
          if full then ([], Some ((i * 2)%nat, written))
          else
            let out := hex_loop units max_len (S i) (written + 1)%nat (i * 2 + 2)%nat in
            ((written, u8 (hi * 16 + lo)) :: out.1, out.2)
      | _, _ => ([], None)
      end
  | _ => ([], Some (read, written))
  end.

Definition decode_hex (units : list N) (max_len : option nat) : outcome :=
  if bool_decide (Nat.modulo (length units) 2 = 1%nat) then ([], None) else hex_loop units max_len 0 0 0.

(** One group of [bytes.chunks(3)]. *)
Definition encode_chunk (a : Base64Alphabet) (omit_padding : bool) (chunk : list N) : res (list N) :=
  let b i := default 0 (chunk !! i) in
  let bits := N.lor (N.lor (N.shiftl (b 0%nat) 16) (N.shiftl (b 1%nat) 8)) (b 2%nat) in
  let sym n := vec_get (b64_table a) (N.to_nat n) in
  let* c0 := sym (N.shiftr bits 18) in
  let* c1 := sym (N.land (N.shiftr bits 12) 0x3f) in
  let* c2 := if bool_decide (1 < length chunk)%nat then let* c := sym (N.land (N.shiftr bits 6) 0x3f) in Ok [c]
             else Ok (if omit_padding then [] else [padding]) in
  let* c3 := if bool_decide (2 < length chunk)%nat then let* c := sym (N.land bits 0x3f) in Ok [c]
             else Ok (if omit_padding then [] else [padding]) in
  Ok (c0 :: c1 :: c2 ++ c3).

Fixpoint encode_base64 (bytes : list N) (a : Base64Alphabet) (omit_padding : bool) : res (list N) :=
  match bytes with
  | [] => Ok []
  | b0 :: b1 :: b2 :: rest =>
      let* text := encode_chunk a omit_padding [b0; b1; b2] in
      let* out := encode_base64 rest a omit_padding in Ok (text ++ out)
  | chunk => encode_chunk a omit_padding chunk
  end.

Definition HEX : list N := bytes_of "0123456789abcdef".

Fixpoint encode_hex (bytes : list N) : res (list N) :=
  match bytes with
  | [] => Ok []
  | b :: bytes =>
      let* hi := vec_get HEX (N.to_nat (N.shiftr b 4)) in
      let* lo := vec_get HEX (N.to_nat (N.land b 0x0f)) in
      let* out := encode_hex bytes in Ok (hi :: lo :: out)
  end.
End Codec.

(** ** Symbols *)

Module CodecFacts.
Import Codec.

Definition sym (a : Base64Alphabet) (v : N) : N := default 0 (b64_table a !! N.to_nat v).

Lemma sym_get a v : v < 64 → vec_get (b64_table a) (N.to_nat v) = Ok (sym a v).
Proof.
  intros Hv. unfold vec_get, sym. destruct (b64_table a !! N.to_nat v) eqn:E; [done|]. apply lookup_ge_None in E.
  assert (length (b64_table a) = 64%nat) by (by destruct a). lia.
Qed.

Lemma sym_facts a v : v < 64 →
  base64_value (sym a v) a = Some v ∧ sym a v ≠ padding ∧ is_base64_whitespace (sym a v) = false.
Proof.
  intros Hv.
  set (P v := bool_decide (base64_value (sym a v) a = Some v) && negb (sym a v =? padding) &&
    negb (is_base64_whitespace (sym a v))).
  assert (P v = true) as H by (apply (forallb_below P 64); [by destruct a; vm_compute|done]). unfold P in H.
  apply andb_true_iff in H as [[H1%bool_decide_eq_true H2%negb_true_iff%N.eqb_neq]%andb_true_iff H3%negb_true_iff].
  done.
Qed.

Lemma sym_inj a v w : v < 64 → w < 64 → sym a v = sym a w → v = w.
Proof. intros Hv Hw E. destruct (sym_facts a v Hv) as [H _], (sym_facts a w Hw) as [H' _]. rewrite E in H. congruence. Qed.

Lemma value_sym a c v : base64_value c a = Some v → v < 64 ∧ c = sym a v.
Proof.
  destruct (N.lt_ge_cases c 128) as [Hc|Hc].
  - set (P c := match base64_value c a with Some v => (v <? 64) && (c =? sym a v) | None => true end).
    assert (P c = true) as H by (apply (forallb_below P 128); [by destruct a; vm_compute|done]).
    intros E. unfold P in H. rewrite E in H. by apply andb_true_iff in H as [?%N.ltb_lt ?%N.eqb_eq].
  - unfold base64_value. assert (∀ lo hi, hi < 128 → in_range lo hi c = false) as Hr
      by (intros; apply in_range_false; lia).
    rewrite !Hr, !(proj2 (N.eqb_neq _ _)) by lia. done.
Qed.

Lemma padding_value a : base64_value padding a = None ∧ is_base64_whitespace padding = false.
Proof. by destruct a. Qed.

(** ** Bits of a block *)

Definition quad (v0 v1 v2 v3 : N) : N := v0 * 262144 + v1 * 4096 + v2 * 64 + v3.
Definition triple (b0 b1 b2 : N) : N := b0 * 65536 + b1 * 256 + b2.

Lemma push_bits b v : b * 64 < 2^32 → v < 64 → N.lor (u32 (N.shiftl b 6)) v = b * 64 + v.
Proof.
  intros Hb Hv. unfold u32. rewrite N.shiftl_mul_pow2. change (2^6) with 64. rewrite N.mod_small by done.
  change 64 with (2^6) at 1. rewrite <- N.shiftl_mul_pow2. apply lor_shiftl_add. exact Hv.
Qed.

Lemma data_bits_value a cs b r : data_bits a cs b = Some r →
  ∃ vs, Forall (λ v, v < 64) vs ∧ cs = sym a <$> vs ∧ data_bits a (sym a <$> vs) b = Some r.
Proof.
  revert b. induction cs as [|c cs IH]; intros b; cbn [data_bits]; [intros H; by exists []|].
  destruct (base64_value c a) as [v|] eqn:E; [|done]. intros H. destruct (IH _ H) as (vs & Hvs & -> & H').
  destruct (value_sym a c v E) as [Hv ->]. exists (v :: vs). split_and!; [by constructor|done|].
  cbn [fmap list_fmap data_bits]. by rewrite E.
Qed.

Ltac push_all :=
  repeat match goal with
  | |- context [N.lor (u32 (N.shiftl ?b 6)) ?v] =>
      lazymatch b with context [N.lor] => fail | _ => rewrite (push_bits b v) by (change (2^32) with 4294967296; lia) end
  end.

Lemma data_bits_2 a v0 v1 : v0 < 64 → v1 < 64 → data_bits a [sym a v0; sym a v1] 0 = Some (v0 * 64 + v1).
Proof.
  intros H0 H1. cbn [data_bits]. destruct (sym_facts a v0 H0) as [-> _], (sym_facts a v1 H1) as [-> _].
  push_all. done.
Qed.

Lemma data_bits_3 a v0 v1 v2 : v0 < 64 → v1 < 64 → v2 < 64 →
  data_bits a [sym a v0; sym a v1; sym a v2] 0 = Some ((v0 * 64 + v1) * 64 + v2).
Proof.
  intros H0 H1 H2. cbn [data_bits].
  destruct (sym_facts a v0 H0) as [-> _], (sym_facts a v1 H1) as [-> _], (sym_facts a v2 H2) as [-> _].
  push_all. done.
Qed.

Lemma data_bits_4 a v0 v1 v2 v3 : v0 < 64 → v1 < 64 → v2 < 64 → v3 < 64 →
  data_bits a [sym a v0; sym a v1; sym a v2; sym a v3] 0 = Some (quad v0 v1 v2 v3).
Proof.
  intros H0 H1 H2 H3. cbn [data_bits].
  destruct (sym_facts a v0 H0) as [-> _], (sym_facts a v1 H1) as [-> _], (sym_facts a v2 H2) as [-> _], (sym_facts a v3 H3) as [-> _].
  push_all. unfold quad. f_equal. lia.
Qed.

(** The three shapes of a full block that decodes, what it decodes to, and what
    the strict mode asks of its last character. *)
Inductive full_block (config : DecodeConfig) : list N → N → nat → Prop :=
  | fb_3 v0 v1 v2 v3 : v0 < 64 → v1 < 64 → v2 < 64 → v3 < 64 →
      full_block config [sym (alphabet config) v0; sym (alphabet config) v1; sym (alphabet config) v2; sym (alphabet config) v3]
        (quad v0 v1 v2 v3) 3
  | fb_2 v0 v1 v2 : v0 < 64 → v1 < 64 → v2 < 64 → (handling config = Strict → v2 mod 4 = 0) →
      full_block config [sym (alphabet config) v0; sym (alphabet config) v1; sym (alphabet config) v2; padding]
        (quad v0 v1 v2 0) 2
  | fb_1 v0 v1 : v0 < 64 → v1 < 64 → (handling config = Strict → v1 mod 16 = 0) →
      full_block config [sym (alphabet config) v0; sym (alphabet config) v1; padding; padding] (quad v0 v1 0 0) 1.

Lemma shift_bits b k : b * 2^k < 2^32 → u32 (N.shiftl b k) = b * 2^k.
Proof. intros H. rewrite N.shiftl_mul_pow2. by apply N.mod_small. Qed.

Lemma land_mask v k : N.land v (N.ones k) = v mod 2^k.
Proof. apply N.land_ones. Qed.

Lemma sym_not_padding a v : v < 64 → (sym a v =? padding) = false.
Proof. intros Hv. apply N.eqb_neq. by apply sym_facts. Qed.

Lemma decode_full_of_block config chunk bits count :
  full_block config chunk bits count → decode_full_chunk chunk config = Some (bits, count).
Proof.
  destruct 1 as [v0 v1 v2 v3 H0 H1 H2 H3|v0 v1 v2 H0 H1 H2 Hs|v0 v1 H0 H1 Hs]; unfold decode_full_chunk;
    cbn [lookup list_lookup default from_option id]; rewrite ?sym_not_padding, ?N.eqb_refl by done; cbn [take Nat.sub].
  - rewrite data_bits_4 by done. rewrite (bool_decide_eq_false_2 (0 < 0)%nat) by lia. rewrite andb_false_r.
    do 2 f_equal. rewrite shift_bits; [unfold quad; simpl; lia|]. unfold quad. change (2^32) with 4294967296. simpl. lia.
  - rewrite data_bits_3 by done. cbn [last mbind option_bind]. destruct (sym_facts (alphabet config) v2 H2) as [-> _].
    change (N.land v2 (if bool_decide (1 = 1)%nat then 3 else 15)) with (N.land v2 (N.ones 2)). rewrite land_mask. change (2^2) with 4.
    change (6 * N.of_nat 1) with 6. rewrite shift_bits by (change (2^32) with 4294967296; change (2^6) with 64; lia).
    case_bool_decide as Hh; [rewrite (Hs Hh)|]; cbn; repeat f_equal; unfold quad; lia.
  - rewrite data_bits_2 by done. cbn [last mbind option_bind]. destruct (sym_facts (alphabet config) v1 H1) as [-> _].
    change (N.land v1 (if bool_decide (2 = 1)%nat then 3 else 15)) with (N.land v1 (N.ones 4)). rewrite land_mask. change (2^4) with 16.
    change (6 * N.of_nat 2) with 12. rewrite shift_bits by (change (2^32) with 4294967296; change (2^12) with 4096; lia).
    case_bool_decide as Hh; [rewrite (Hs Hh)|]; cbn; repeat f_equal; unfold quad; lia.
Qed.

Lemma data_syms a cs r : data_bits a cs 0 = Some r → ∃ vs, Forall (λ v, v < 64) vs ∧ cs = sym a <$> vs.
Proof. intros H. destruct (data_bits_value a cs 0 r H) as (vs & Hvs & -> & _). by exists vs. Qed.

Lemma block_of_decode_full config c0 c1 c2 c3 bits count :
  decode_full_chunk [c0; c1; c2; c3] config = Some (bits, count) → full_block config [c0; c1; c2; c3] bits count.
Proof.
  intros H. set (a := alphabet config).
  assert (∃ chunk bits' count', full_block config chunk bits' count' ∧ chunk = [c0; c1; c2; c3]) as (chunk & bits' & count' & Hb & Ec).
  { unfold decode_full_chunk in H. cbn [lookup list_lookup default from_option id] in H.
    destruct (N.eqb_spec c2 padding) as [->|H2], (N.eqb_spec c3 padding) as [->|H3]; [| done | |]; cbn [take Nat.sub] in H.
    - destruct (data_bits a [c0; c1] 0) as [b|] eqn:E; fold a in H; rewrite E in H; [|done].
      destruct (data_syms a _ b E) as ([|v0 [|v1 [|]]] & Hvs & [=]). subst. rewrite !Forall_cons in Hvs. destruct Hvs as (H0 & H1 & _).
      eexists _, _, _. split; [|reflexivity]. apply (fb_1 config v0 v1); [done..|]. intros Hs. rewrite Hs in H.
      cbn [last mbind option_bind] in H. destruct (sym_facts a v1 H1) as [E1 _]. rewrite E1 in H.
      change (N.land v1 (if bool_decide (2 = 1)%nat then 3 else 15)) with (N.land v1 (N.ones 4)) in H. rewrite land_mask in H.
      change (2^4) with 16 in H. change (bool_decide (Strict = Strict) && bool_decide (0 < 2)%nat) with true in H. cbn iota in H.
      by destruct (N.eqb_spec (v1 mod 16) 0).
    - destruct (data_bits a [c0; c1; c2] 0) as [b|] eqn:E; fold a in H; rewrite E in H; [|done].
      destruct (data_syms a _ b E) as ([|v0 [|v1 [|v2 [|]]]] & Hvs & [=]). subst. rewrite !Forall_cons in Hvs.
      destruct Hvs as (H0 & H1 & H2' & _). eexists _, _, _. split; [|reflexivity]. apply (fb_2 config v0 v1 v2); [done..|].
      intros Hs. rewrite Hs in H. cbn [last mbind option_bind] in H. destruct (sym_facts a v2 H2') as [E1 _]. rewrite E1 in H.
      change (N.land v2 (if bool_decide (1 = 1)%nat then 3 else 15)) with (N.land v2 (N.ones 2)) in H. rewrite land_mask in H.
      change (2^2) with 4 in H. change (bool_decide (Strict = Strict) && bool_decide (0 < 1)%nat) with true in H. cbn iota in H.
      by destruct (N.eqb_spec (v2 mod 4) 0).
    - destruct (data_bits a [c0; c1; c2; c3] 0) as [b|] eqn:E; fold a in H; rewrite E in H; [|done].
      destruct (data_syms a _ b E) as ([|v0 [|v1 [|v2 [|v3 [|]]]]] & Hvs & [=]). subst. rewrite !Forall_cons in Hvs.
      destruct Hvs as (H0 & H1 & H2' & H3' & _). eexists _, _, _. split; [|reflexivity]. by apply (fb_3 config v0 v1 v2 v3). }
  pose proof (decode_full_of_block config chunk bits' count' Hb) as E. rewrite <- Ec in H |- *. rewrite E in H. by injection H as <- <-.
Qed.

(** ** Bytes of a block *)

(** The calls that write [bs] from index [w] on. *)
Definition numbered (w : nat) (bs : list N) : writes := zip (seq w (length bs)) bs.

Lemma numbered_app w bs bs' : numbered w (bs ++ bs') = numbered w bs ++ numbered (w + length bs) bs'.
Proof. unfold numbered. rewrite length_app, seq_app. apply zip_with_app. by rewrite length_seq. Qed.

Lemma numbered_snd w bs : (numbered w bs).*2 = bs.
Proof. apply snd_zip. by rewrite length_seq. Qed.

Lemma numbered_fst w bs : (numbered w bs).*1 = seq w (length bs).
Proof. apply fst_zip. by rewrite length_seq. Qed.

Lemma numbered_inj w bs bs' : numbered w bs = numbered w bs' → bs = bs'.
Proof. intros E. by rewrite <- (numbered_snd w bs), <- (numbered_snd w bs'), E. Qed.

Definition is_byte (b : N) : Prop := b < 256.

Lemma shiftr_byte t k : u8 (N.shiftr t k) = t / 2^k mod 256.
Proof. unfold u8. by rewrite N.shiftr_div_pow2. Qed.

Lemma write_3 w t : write_chunk_bytes w t 3 = numbered w [t / 65536 mod 256; t / 256 mod 256; t mod 256].
Proof.
  unfold write_chunk_bytes, numbered. cbn [seq fmap list_fmap length zip zip_with]. rewrite !shiftr_byte.
  change (16 - 8 * N.of_nat 0) with 16. change (16 - 8 * N.of_nat 1) with 8. change (16 - 8 * N.of_nat 2) with 0.
  change (2^16) with 65536. change (2^8) with 256. change (2^0) with 1. rewrite N.div_1_r.
  repeat f_equal; lia.
Qed.

Lemma write_2 w t : write_chunk_bytes w t 2 = numbered w [t / 65536 mod 256; t / 256 mod 256].
Proof.
  unfold write_chunk_bytes, numbered. cbn [seq fmap list_fmap length zip zip_with]. rewrite !shiftr_byte. repeat f_equal; lia.
Qed.

Lemma write_1 w t : write_chunk_bytes w t 1 = numbered w [t / 65536 mod 256].
Proof.
  unfold write_chunk_bytes, numbered. cbn [seq fmap list_fmap length zip zip_with]. rewrite !shiftr_byte. repeat f_equal; lia.
Qed.

Lemma join_bytes b0 b1 b2 : is_byte b1 → is_byte b2 →
  N.lor (N.lor (N.shiftl b0 16) (N.shiftl b1 8)) b2 = triple b0 b1 b2.
Proof.
  unfold is_byte. intros H1 H2. rewrite lor_shiftl_add by (rewrite N.shiftl_mul_pow2; change (2^8) with 256; change (2^16) with 65536; lia).
  replace (b0 * 2^16 + N.shiftl b1 8) with (N.shiftl (b0 * 256 + b1) 8)
    by (rewrite !N.shiftl_mul_pow2; change (2^8) with 256; change (2^16) with 65536; lia).
  rewrite lor_shiftl_add by exact H2. unfold triple. change (2^8) with 256. lia.
Qed.

Lemma sextet t k : N.land (N.shiftr t k) 0x3f = t / 2^k mod 64.
Proof. change 0x3f with (N.ones 6). rewrite N.land_ones, N.shiftr_div_pow2. done. Qed.

Lemma sextet_low t : N.land t 0x3f = t mod 64.
Proof. change 0x3f with (N.ones 6). by rewrite N.land_ones. Qed.

(** The sextets of 24 bits. *)
Definition sext (t : N) : N * N * N * N := (t / 262144, t / 4096 mod 64, t / 64 mod 64, t mod 64).

Lemma sext_quad t : t < 16777216 →
  let '(v0, v1, v2, v3) := sext t in v0 < 64 ∧ v1 < 64 ∧ v2 < 64 ∧ v3 < 64 ∧ quad v0 v1 v2 v3 = t.
Proof. intros Ht. unfold sext, quad. split_and!; zify; Z.to_euclidean_division_equations; lia. Qed.

Lemma quad_sext v0 v1 v2 v3 : v0 < 64 → v1 < 64 → v2 < 64 → v3 < 64 →
  quad v0 v1 v2 v3 < 16777216 ∧ sext (quad v0 v1 v2 v3) = (v0, v1, v2, v3).
Proof. intros. unfold sext, quad. split; [lia|]. repeat f_equal; zify; Z.to_euclidean_division_equations; lia. Qed.

Lemma triple_bytes b0 b1 b2 : is_byte b0 → is_byte b1 → is_byte b2 → let t := triple b0 b1 b2 in
  t < 16777216 ∧ t / 65536 mod 256 = b0 ∧ t / 256 mod 256 = b1 ∧ t mod 256 = b2.
Proof. unfold is_byte, triple. intros. split_and!; zify; Z.to_euclidean_division_equations; lia. Qed.

Lemma bytes_triple t : t < 16777216 →
  is_byte (t / 65536 mod 256) ∧ is_byte (t / 256 mod 256) ∧ is_byte (t mod 256) ∧
  triple (t / 65536 mod 256) (t / 256 mod 256) (t mod 256) = t.
Proof. unfold is_byte, triple. intros. split_and!; zify; Z.to_euclidean_division_equations; lia. Qed.

Lemma encode_3 a om b0 b1 b2 : is_byte b0 → is_byte b1 → is_byte b2 →
  let '(v0, v1, v2, v3) := sext (triple b0 b1 b2) in
  encode_chunk a om [b0; b1; b2] = Ok [sym a v0; sym a v1; sym a v2; sym a v3].
Proof.
  intros H0 H1 H2. destruct (triple_bytes b0 b1 b2 H0 H1 H2) as [Ht _]. pose proof (sext_quad _ Ht) as Hq. unfold sext in *.
  destruct Hq as (Hv0 & Hv1 & Hv2 & Hv3 & _). unfold encode_chunk. cbn [lookup list_lookup default from_option id length].
  rewrite join_bytes by done. rewrite !sextet, sextet_low, N.shiftr_div_pow2.
  change (2^18) with 262144. change (2^12) with 4096. change (2^6) with 64. rewrite !sym_get by done. done.
Qed.

Definition pads (om : bool) (n : nat) : list N := if om then [] else replicate n padding.

Lemma encode_2 a om b0 b1 : is_byte b0 → is_byte b1 →
  let '(v0, v1, v2, _) := sext (triple b0 b1 0) in
  encode_chunk a om [b0; b1] = Ok ([sym a v0; sym a v1; sym a v2] ++ pads om 1).
Proof.
  intros H0 H1. destruct (triple_bytes b0 b1 0 H0 H1) as [Ht _]; [done|]. pose proof (sext_quad _ Ht) as Hq. unfold sext in *.
  destruct Hq as (Hv0 & Hv1 & Hv2 & Hv3 & _). unfold encode_chunk. cbn [lookup list_lookup default from_option id length].
  rewrite join_bytes by done. rewrite !sextet, N.shiftr_div_pow2.
  change (2^18) with 262144. change (2^12) with 4096. change (2^6) with 64. rewrite !sym_get by done. by destruct om.
Qed.

Lemma encode_1 a om b0 : is_byte b0 →
  let '(v0, v1, _, _) := sext (triple b0 0 0) in
  encode_chunk a om [b0] = Ok ([sym a v0; sym a v1] ++ pads om 2).
Proof.
  intros H0. destruct (triple_bytes b0 0 0 H0) as [Ht _]; [done..|]. pose proof (sext_quad _ Ht) as Hq. unfold sext in *.
  destruct Hq as (Hv0 & Hv1 & Hv2 & Hv3 & _). unfold encode_chunk. cbn [lookup list_lookup default from_option id length].
  rewrite join_bytes by done. rewrite !sextet, N.shiftr_div_pow2.
  change (2^18) with 262144. change (2^12) with 4096. rewrite !sym_get by done. by destruct om.
Qed.

(** A group of one to three bytes and its padded text: a block that decodes to
    the bytes in every mode. *)
Lemma encoded_block config bs chunk :
  Forall is_byte bs → (1 <= length bs <= 3)%nat → encode_chunk (alphabet config) false bs = Ok chunk →
  ∃ bits, full_block config chunk bits (length bs) ∧ ∀ w, write_chunk_bytes w bits (length bs) = numbered w bs.
Proof.
  intros Hb Hl He. destruct bs as [|b0 [|b1 [|b2 [|]]]]; simpl in Hl; try lia; clear Hl; rewrite ?Forall_cons in Hb.
  - destruct Hb as [H0 _]. pose proof (encode_1 (alphabet config) false b0 H0) as E. destruct (triple_bytes b0 0 0 H0) as (Ht & E0 & _); [done..|].
    pose proof (sext_quad _ Ht) as Hq. unfold sext in *. destruct Hq as (Hv0 & Hv1 & _ & _ & Hq). rewrite E in He. injection He as <-.
    exists (quad (triple b0 0 0 / 262144) (triple b0 0 0 / 4096 mod 64) 0 0). split.
    + apply fb_1; [done..|]. intros _. unfold triple. clear -H0. unfold is_byte in H0. zify. Z.to_euclidean_division_equations. lia.
    + intros w. assert (quad (triple b0 0 0 / 262144) (triple b0 0 0 / 4096 mod 64) 0 0 = triple b0 0 0) as ->.
      { clear -H0. unfold is_byte, quad, triple in *. zify. Z.to_euclidean_division_equations. lia. }
      cbn [length]. by rewrite write_1, E0.
  - destruct Hb as (H0 & H1 & _). pose proof (encode_2 (alphabet config) false b0 b1 H0 H1) as E.
    destruct (triple_bytes b0 b1 0 H0 H1) as (Ht & E0 & E1 & _); [done|].
    pose proof (sext_quad _ Ht) as Hq. unfold sext in *. destruct Hq as (Hv0 & Hv1 & Hv2 & _ & Hq). rewrite E in He. injection He as <-.
    exists (quad (triple b0 b1 0 / 262144) (triple b0 b1 0 / 4096 mod 64) (triple b0 b1 0 / 64 mod 64) 0). split.
    + apply fb_2; [done..|]. intros _. unfold triple. clear -H0 H1. unfold is_byte in *. zify. Z.to_euclidean_division_equations. lia.
    + intros w. assert (quad (triple b0 b1 0 / 262144) (triple b0 b1 0 / 4096 mod 64) (triple b0 b1 0 / 64 mod 64) 0 = triple b0 b1 0) as ->.
      { clear -H0 H1. unfold is_byte, quad, triple in *. zify. Z.to_euclidean_division_equations. lia. }
      cbn [length]. by rewrite write_2, E0, E1.
  - destruct Hb as (H0 & H1 & H2 & _). pose proof (encode_3 (alphabet config) false b0 b1 b2 H0 H1 H2) as E.
    destruct (triple_bytes b0 b1 b2 H0 H1 H2) as (Ht & E0 & E1 & E2).
    pose proof (sext_quad _ Ht) as Hq. unfold sext in *. destruct Hq as (Hv0 & Hv1 & Hv2 & Hv3 & Hq). rewrite E in He. injection He as <-.
    eexists. split; [by apply fb_3|]. intros w. cbn [length]. rewrite Hq. by rewrite write_3, E0, E1, E2.
Qed.

(** A block that decodes is the padded text of its bytes; with padding, in the
    strict mode. *)
Lemma block_encoded config chunk bits count :
  full_block config chunk bits count →
  ∃ bs, Forall is_byte bs ∧ length bs = count ∧ (∀ w, write_chunk_bytes w bits count = numbered w bs) ∧
    (count = 3%nat ∨ handling config = Strict → encode_chunk (alphabet config) false bs = Ok chunk).
Proof.
  destruct 1 as [v0 v1 v2 v3 H0 H1 H2 H3|v0 v1 v2 H0 H1 H2 Hs|v0 v1 H0 H1 Hs].
  - destruct (quad_sext v0 v1 v2 v3) as [Ht Es]; [done..|]. destruct (bytes_triple _ Ht) as (B0 & B1 & B2 & Et).
    set (t := quad v0 v1 v2 v3) in *. exists [t / 65536 mod 256; t / 256 mod 256; t mod 256].
    split_and!; [by rewrite !Forall_cons|done|intros w; apply write_3|]. intros _.
    pose proof (encode_3 (alphabet config) false _ _ _ B0 B1 B2) as E. rewrite Et, Es in E. done.
  - destruct (quad_sext v0 v1 v2 0) as [Ht Es]; [done..|]. destruct (bytes_triple _ Ht) as (B0 & B1 & B2 & Et).
    exists [quad v0 v1 v2 0 / 65536 mod 256; quad v0 v1 v2 0 / 256 mod 256].
    split_and!; [by rewrite !Forall_cons|done|intros w; apply write_2|]. intros [|Hst]; [done|].
    pose proof (encode_2 (alphabet config) false _ _ B0 B1) as E.
    assert (quad v0 v1 v2 0 mod 256 = 0) as E0.
    { specialize (Hs Hst). pose proof (N.div_mod' v2 4) as Ev. replace (quad v0 v1 v2 0) with ((v0 * 1024 + v1 * 16 + v2 / 4) * 256)
        by (unfold quad; lia). apply N.Div0.mod_mul. }
    rewrite E0 in Et. rewrite Et, Es in E. done.
  - destruct (quad_sext v0 v1 0 0) as [Ht Es]; [done..|]. destruct (bytes_triple _ Ht) as (B0 & B1 & B2 & Et).
    exists [quad v0 v1 0 0 / 65536 mod 256]. split_and!; [by rewrite !Forall_cons|done|intros w; apply write_1|]. intros [|Hst]; [done|].
    pose proof (encode_1 (alphabet config) false _ B0) as E.
    assert (quad v0 v1 0 0 mod 256 = 0 ∧ quad v0 v1 0 0 / 256 mod 256 = 0) as [E0 E1].
    { specialize (Hs Hst). pose proof (N.div_mod' v1 16) as Ev. replace (quad v0 v1 0 0) with ((v0 * 4 + v1 / 16) * 256 * 256)
        by (unfold quad; lia). split; [apply N.Div0.mod_mul|]. rewrite N.div_mul by done. apply N.Div0.mod_mul. }
    rewrite E0, E1 in Et. rewrite Et, Es in E. done.
Qed.

(** ** White space *)

Definition strip (units : list N) : list N := filter (λ c, is_base64_whitespace c = false) units.

Lemma collect_spec k rest :
  let '(chunk, n, later) := collect k rest in
  chunk = take k (strip rest) ∧ strip later = drop k (strip rest) ∧ (n + length later)%nat = length rest ∧
  ((length chunk < k)%nat → later = []) ∧ (length chunk <= n)%nat.
Proof.
  revert k. induction rest as [|c rest IH]; intros k; [destruct k; simpl; split_and!; (done || lia)|].
  destruct k as [|k]; [simpl; split_and!; (done || lia)|]. cbn [collect]. unfold strip in *. destruct (is_base64_whitespace c) eqn:Ec.
  - rewrite (filter_cons_False _ c) by congruence. specialize (IH (S k)). destruct (collect (S k) rest) as [[chunk n] later].
    destruct IH as (H1 & H2 & H3 & H4 & H5). split_and!; try done; simpl; lia.
  - rewrite (filter_cons_True _ c) by done. specialize (IH k). destruct (collect k rest) as [[chunk n] later].
    destruct IH as (-> & H2 & H3 & H4 & H5). split_and!; try done; simpl; [lia| |lia]. intros. apply H4. lia.
Qed.

Lemma existsb_strip units : existsb (λ c, negb (is_base64_whitespace c)) units = negb (bool_decide (strip units = [])).
Proof.
  unfold strip. induction units as [|c units IH]; [done|]. cbn [existsb]. destruct (is_base64_whitespace c) eqn:Ec; cbn [negb orb].
  - rewrite IH. rewrite filter_cons_False by congruence. done.
  - rewrite filter_cons_True by done. by rewrite bool_decide_eq_false_2.
Qed.

(** ** The decoder in general *)

(** What any run from [w] written bytes does: it writes bytes at consecutive
    indices, reports what it did, and stays within the limit. *)
Definition sound_outcome (config : DecodeConfig) (w read n : nat) (out : outcome) : Prop :=
  ∃ bs, out.1 = numbered w bs ∧ Forall is_byte bs ∧
    (∀ m, max_len config = Some m → (w <= m → w + length bs <= m)%nat) ∧
    match out.2 with
    | Some (r, k) => k = (w + length bs)%nat ∧ (read <= r <= read + n)%nat
    | None => True
    end.

Lemma sound_none config w read n : sound_outcome config w read n ([], None).
Proof. exists []. split_and!; [done|constructor|intros; simpl; lia|done]. Qed.

Lemma sound_stop config w read n r : (read <= r <= read + n)%nat → sound_outcome config w read n ([], Some (r, w)).
Proof. intros Hr. exists []. simpl. split_and!; [done|constructor|intros; simpl; lia|lia|lia|lia]. Qed.

Lemma finish_sound config chunk w cs read : (cs <= read)%nat → chunk ≠ [] →
  sound_outcome config w cs (read - cs) (finish_partial chunk config w cs read).
Proof.
  intros Hr Hne. unfold finish_partial. destruct (existsb _ chunk).
  { destruct (_ && _ && _); [|apply sound_none]. destruct (forallb _ _); [apply sound_stop; lia|apply sound_none]. }
  destruct (negb _); [apply sound_none|]. destruct (handling config); [|apply sound_none|apply sound_stop; lia].
  case_bool_decide as H1; [apply sound_none|].
  destruct (match max_len config with Some m => _ | None => _ end) eqn:Em; [apply sound_stop; lia|].
  assert (∀ x, is_byte (u8 x)) as Hu by (intros x; unfold is_byte, u8; change (2^8) with 256; by apply N.mod_lt).
  assert (∀ m, max_len config = Some m → (w + length chunk - 1 <= m)%nat) as Hm.
  { intros m E. rewrite E in Em. apply bool_decide_eq_false in Em. lia. }
  case_bool_decide as H3.
  - set (x := u8 (N.lor _ (N.shiftr _ 4))). set (y := u8 (N.land _ _)). exists [x; y]. split_and!.
    + unfold numbered. simpl. by rewrite Nat.add_1_r.
    + rewrite !Forall_cons. split_and!; [apply Hu|apply Hu|constructor].
    + intros m E _. specialize (Hm m E). simpl. lia.
    + simpl. lia.
  - set (x := u8 _). exists [x]. split_and!; [done|constructor; [apply Hu|constructor]| |simpl; lia].
    intros m E Hw. specialize (Hm m E). simpl. destruct chunk as [|? [|? ?]]; simpl in *; (done || lia).
Qed.

Lemma loop_sound config fuel rest read w : (length rest < fuel)%nat →
  (∀ m, max_len config = Some m → (w <= m)%nat) →
  ∃ out, decode_loop fuel config rest read w = Ok out ∧ sound_outcome config w read (length rest) out.
Proof.
  revert rest read w. induction fuel as [|fuel IH]; intros rest read w Hf Hw; [lia|]. cbn [decode_loop].
  pose proof (collect_spec 4 rest) as Hc. destruct (collect 4 rest) as [[chunk n] later]. destruct Hc as (Hchunk & _ & Hn & _ & Hcn).
  destruct chunk as [|c0 [|c1 [|c2 [|c3 [|]]]]]; cbn [length] in *; try (eexists; split; [done|]).
  - apply sound_stop. lia.
  - destruct (finish_sound config [c0] w read (read + n)) as (bs & H1 & H2 & H3 & H4); [lia|done|]. exists bs. split_and!; try done.
    destruct (finish_partial _ _ _ _ _).2 as [[r k]|]; [|done]. lia.
  - destruct (finish_sound config [c0; c1] w read (read + n)) as (bs & H1 & H2 & H3 & H4); [lia|done|]. exists bs. split_and!; try done.
    destruct (finish_partial _ _ _ _ _).2 as [[r k]|]; [|done]. lia.
  - destruct (finish_sound config [c0; c1; c2] w read (read + n)) as (bs & H1 & H2 & H3 & H4); [lia|done|]. exists bs. split_and!; try done.
    destruct (finish_partial _ _ _ _ _).2 as [[r k]|]; [|done]. lia.
  - destruct (_ && existsb _ _); [eexists; split; [done|apply sound_none]|].
    destruct (decode_full_chunk _ _) as [[bits count]|] eqn:E; [|eexists; split; [done|apply sound_none]].
    apply block_of_decode_full, block_encoded in E as (bs & Hbs & Hl & Hwr & _).
    destruct (match max_len config with Some m => bool_decide (m < w + count)%nat | None => false end) eqn:Em.
    { eexists; split; [done|apply sound_stop; lia]. }
    assert (∀ m, max_len config = Some m → (w + count <= m)%nat) as Hm.
    { intros m Ex. rewrite Ex in Em. apply bool_decide_eq_false in Em. lia. }
    destruct (match max_len config with Some m => bool_decide ((w + count)%nat = m) | None => false end).
    { eexists; split; [done|]. exists bs. rewrite Hwr. split_and!; [done..| |simpl; lia]. intros m Ex _. specialize (Hm m Ex). lia. }
    destruct (IH later (read + n)%nat (w + count)%nat) as (out & -> & bs' & E1 & E2 & E3 & E4); [lia|done|]. cbn [res_bind].
    eexists; split; [done|]. exists (bs ++ bs'). cbn [fst snd]. rewrite Hwr, E1, numbered_app, Hl, length_app.
    split_and!; [done|by apply Forall_app| |].
    + intros m Ex _. specialize (E3 m Ex (Hm m Ex)). lia.
    + destruct out.2 as [[r k]|]; [|done]. lia.
  - apply (f_equal length) in Hchunk. cbn [length] in Hchunk. rewrite length_take in Hchunk. lia.
Qed.

(** ** Encoded text *)

Lemma syms_valid a vs : Forall (λ v, v < 64) vs →
  existsb (λ c, c =? padding) (sym a <$> vs) = false ∧
  forallb (λ c, bool_decide (is_Some (base64_value c a))) (sym a <$> vs) = true.
Proof.
  induction 1 as [|v vs Hv _ [IH1 IH2]]; [done|]. cbn [fmap list_fmap existsb forallb]. rewrite sym_not_padding, IH1, IH2 by done.
  destruct (sym_facts a v Hv) as [-> _]. done.
Qed.

Lemma join_bits x y k : x * 2^k < 2^32 → y < 2^k → N.lor (u32 (N.shiftl x k)) y = x * 2^k + y.
Proof. intros Hx Hy. rewrite shift_bits, <- lor_shiftl_add by done. by rewrite N.shiftl_mul_pow2. Qed.

Lemma finish_2 config v0 v1 w cs read : handling config = Loose → max_len config = None → v0 < 64 → v1 < 64 →
  finish_partial [sym (alphabet config) v0; sym (alphabet config) v1] config w cs read =
    (numbered w [(v0 * 4 + v1 / 16) mod 256], Some (read, (w + 1)%nat)).
Proof.
  intros Hh Hm H0 H1. set (a := alphabet config).
  assert (Forall (λ v, v < 64) [v0; v1]) as Hvs by (by repeat constructor). destruct (syms_valid a _ Hvs) as [E1 E2].
  unfold finish_partial. change [sym a v0; sym a v1] with (sym a <$> [v0; v1]). fold a. rewrite E1, E2, Hh, Hm. cbn [negb].
  cbn [fmap list_fmap length lookup list_lookup mbind option_bind].
  destruct (sym_facts a v0 H0) as [-> _], (sym_facts a v1 H1) as [-> _]. cbn [default from_option id].
  rewrite !bool_decide_eq_false_2 by done. rewrite N.shiftr_div_pow2. change (2^4) with 16.
  rewrite join_bits; [done|change (2^32) with 4294967296; change (2^2) with 4; lia|].
  change (2^2) with 4. zify. Z.to_euclidean_division_equations. lia.
Qed.

Lemma finish_3 config v0 v1 v2 w cs read : handling config = Loose → max_len config = None → v0 < 64 → v1 < 64 → v2 < 64 →
  finish_partial [sym (alphabet config) v0; sym (alphabet config) v1; sym (alphabet config) v2] config w cs read =
    (numbered w [(v0 * 4 + v1 / 16) mod 256; (v1 * 16 + v2 / 4) mod 256], Some (read, (w + 2)%nat)).
Proof.
  intros Hh Hm H0 H1 H2. set (a := alphabet config).
  assert (Forall (λ v, v < 64) [v0; v1; v2]) as Hvs by (by repeat constructor). destruct (syms_valid a _ Hvs) as [E1 E2].
  unfold finish_partial. change [sym a v0; sym a v1; sym a v2] with (sym a <$> [v0; v1; v2]). fold a. rewrite E1, E2, Hh, Hm. cbn [negb].
  cbn [fmap list_fmap length lookup list_lookup mbind option_bind].
  destruct (sym_facts a v0 H0) as [-> _], (sym_facts a v1 H1) as [-> _], (sym_facts a v2 H2) as [-> _]. cbn [default from_option id].
  rewrite bool_decide_eq_false_2, bool_decide_eq_true_2 by done. rewrite !N.shiftr_div_pow2. change (2^4) with 16. change (2^2) with 4.
  change 0xFF with (N.ones 8). rewrite N.land_ones. change (2^8) with 256.
  rewrite (join_bits v0 _ 2), (join_bits v1 _ 4);
    [|change (2^32) with 4294967296; change (2^4) with 16; lia|change (2^4) with 16; zify; Z.to_euclidean_division_equations; lia
     |change (2^32) with 4294967296; change (2^2) with 4; lia|change (2^2) with 4; zify; Z.to_euclidean_division_equations; lia].
  unfold numbered, u8. change (2^8) with 256. change (2^4) with 16. change (2^2) with 4. rewrite N.Div0.mod_mod.
  simpl. by rewrite Nat.add_1_r.
Qed.

(** The rule for [bytes.chunks(3)]. *)
Lemma chunks_ind (P : list N → Prop) :
  P [] → (∀ b0, P [b0]) → (∀ b0 b1, P [b0; b1]) → (∀ b0 b1 b2 rest, P rest → P (b0 :: b1 :: b2 :: rest)) → ∀ l, P l.
Proof.
  intros H0 H1 H2 H3 l. induction l as [l IH] using (induction_ltof1 _ (@length N)). unfold ltof in IH.
  destruct l as [|b0 [|b1 [|b2 rest]]]; auto. apply H3, IH. simpl. lia.
Qed.

(** One round on a full block that is not the end. *)
Lemma loop_block config fuel rest read w chunk bits count later n :
  max_len config = None → (length rest < S fuel)%nat → collect 4 rest = (chunk, n, later) →
  full_block config chunk bits count → (count = 3%nat ∨ strip later = []) →
  decode_loop (S fuel) config rest read w =
    res_bind (decode_loop fuel config later (read + n) (w + count)) (λ out, Ok (write_chunk_bytes w bits count ++ out.1, out.2)).
Proof.
  intros Hm Hf Hc Hb Hlast. cbn [decode_loop]. rewrite Hc. pose proof (decode_full_of_block _ _ _ _ Hb) as Ed. rewrite Hm.
  assert (length chunk = 4%nat) as -> by (by destruct Hb).
  assert (((default 0 (chunk !! 2%nat) =? padding) || (default 0 (chunk !! 3%nat) =? padding)) &&
    existsb (λ c, negb (is_base64_whitespace c)) later = false) as ->.
  { rewrite existsb_strip. destruct Hlast as [->| ->]; [|by rewrite bool_decide_eq_true_2, andb_false_r].
    inversion Hb; subst. cbn [lookup list_lookup default from_option id]. by rewrite !sym_not_padding. }
  by rewrite Ed.
Qed.

Lemma loop_nothing config fuel rest read w : strip rest = [] →
  decode_loop (S fuel) config rest read w = Ok ([], Some ((read + length rest)%nat, w)).
Proof.
  intros Hs. cbn [decode_loop]. pose proof (collect_spec 4 rest) as Hc. destruct (collect 4 rest) as [[chunk n] later].
  destruct Hc as (-> & _ & Hn & Hl & _). rewrite Hs in *. cbn [take length] in *. rewrite Hl in Hn by lia. simpl in Hn.
  do 4 f_equal. lia.
Qed.

Lemma collect_full units chunk text : strip units = chunk ++ text → length chunk = 4%nat →
  ∃ n later, collect 4 units = (chunk, n, later) ∧ strip later = text ∧ (n + length later)%nat = length units ∧ (4 <= n)%nat.
Proof.
  intros Hs Hl. pose proof (collect_spec 4 units) as Hc. destruct (collect 4 units) as [[chunk' n] later].
  rewrite Hs, take_app_length', drop_app_length' in Hc by done. destruct Hc as (-> & H2 & H3 & _ & H5). exists n, later.
  split_and!; (done || lia).
Qed.

Lemma collect_rest units : (length (strip units) < 4)%nat → collect 4 units = (strip units, length units, []).
Proof.
  intros Hl. pose proof (collect_spec 4 units) as Hc. destruct (collect 4 units) as [[chunk n] later].
  rewrite take_ge in Hc by lia. destruct Hc as (-> & _ & H3 & H4 & _). rewrite H4 in * by done. simpl in H3. by rewrite <- H3, Nat.add_0_r.
Qed.

(** A last group with padding: one block, then nothing. *)
Lemma loop_last config fuel units read w bs chunk :
  max_len config = None → (length units < S fuel)%nat → Forall is_byte bs → (1 <= length bs <= 3)%nat →
  encode_chunk (alphabet config) false bs = Ok chunk → strip units = chunk →
  decode_loop (S fuel) config units read w = Ok (numbered w bs, Some ((read + length units)%nat, (w + length bs)%nat)).
Proof.
  intros Hm Hf Hb Hl He Hs. destruct (encoded_block config bs chunk Hb Hl He) as (bits & Hfb & Hw).
  destruct (collect_full units chunk []) as (n & later & Hc & Hs' & Hn & H4); [by rewrite app_nil_r|by destruct Hfb|].
  rewrite (loop_block config fuel units read w chunk bits (length bs) later n) by (done || by right).
  destruct fuel as [|fuel]; [lia|]. rewrite loop_nothing by done. cbn [res_bind fst snd]. rewrite Hw, app_nil_r. do 4 f_equal. lia.
Qed.

Lemma loop_encoded config bs om text fuel units read w :
  max_len config = None → (om = false ∨ handling config = Loose) → (length units < fuel)%nat → Forall is_byte bs →
  encode_base64 bs (alphabet config) om = Ok text → strip units = text →
  decode_loop fuel config units read w = Ok (numbered w bs, Some ((read + length units)%nat, (w + length bs)%nat)).
Proof.
  intros Hm Hom. revert text fuel units read w.
  induction bs as [|b0|b0 b1|b0 b1 b2 bs IH] using chunks_ind; intros text fuel units read w Hf Hb He Hs; destruct fuel as [|fuel]; try lia.
  - injection He as <-. rewrite loop_nothing by done. cbn [length]. by rewrite Nat.add_0_r.
  - cbn [encode_base64] in He. destruct om; [|by apply (loop_last config fuel units read w [b0] text); try done; simpl; lia].
    destruct Hom as [|Hh]; [done|]. rewrite Forall_cons in Hb. destruct Hb as [H0 _].
    pose proof (encode_1 (alphabet config) true b0 H0) as E. destruct (triple_bytes b0 0 0 H0) as [Ht _]; [done..|].
    pose proof (sext_quad _ Ht) as Hq. unfold sext in *. destruct Hq as (Hv0 & Hv1 & _). rewrite E in He. injection He as <-.
    cbn [app pads] in Hs. cbn [decode_loop]. rewrite collect_rest, Hs by (rewrite Hs; simpl; lia). cbn [length].
    rewrite finish_2 by done. cbn [length]. repeat f_equal. clear -H0. unfold is_byte, triple in *.
    zify. Z.to_euclidean_division_equations. lia.
  - cbn [encode_base64] in He. destruct om; [|by apply (loop_last config fuel units read w [b0; b1] text); try done; simpl; lia].
    destruct Hom as [|Hh]; [done|]. rewrite !Forall_cons in Hb. destruct Hb as (H0 & H1 & _).
    pose proof (encode_2 (alphabet config) true b0 b1 H0 H1) as E. destruct (triple_bytes b0 b1 0 H0 H1) as [Ht _]; [done|].
    pose proof (sext_quad _ Ht) as Hq. unfold sext in *. destruct Hq as (Hv0 & Hv1 & Hv2 & _). rewrite E in He. injection He as <-.
    cbn [app pads] in Hs. cbn [decode_loop]. rewrite collect_rest, Hs by (rewrite Hs; simpl; lia). cbn [length].
    rewrite finish_3 by done. cbn [length]. repeat f_equal; clear -H0 H1; unfold is_byte, triple in *;
    zify; Z.to_euclidean_division_equations; lia.
  - cbn [encode_base64] in He. apply Forall_cons in Hb as [H0 Hb]. apply Forall_cons in Hb as [H1 Hb]. apply Forall_cons in Hb as [H2 Hb].
    assert (encode_chunk (alphabet config) om [b0; b1; b2] = encode_chunk (alphabet config) false [b0; b1; b2]) as Eom by done.
    rewrite Eom in He. destruct (encode_chunk _ false _) as [chunk| |] eqn:Ec; try done. cbn [res_bind] in He.
    destruct (encode_base64 bs _ om) as [text'| |] eqn:Et; try done. injection He as <-.
    assert (Forall is_byte [b0; b1; b2]) as Hb3 by (by rewrite !Forall_cons).
    destruct (encoded_block config [b0; b1; b2] chunk) as (bits & Hfb & Hw); [done|simpl; lia|done|].
    destruct (collect_full units chunk text') as (n & later & Hc & Hs' & Hn & H4); [done|by destruct Hfb|].
    rewrite (loop_block config fuel units read w chunk bits 3 later n) by (done || by left).
    rewrite (IH text' fuel later (read + n)%nat (w + 3)%nat) by (done || lia). cbn [res_bind fst snd].
    change 3%nat with (length [b0; b1; b2]) at 1. rewrite Hw. do 2 f_equal.
    + change (b0 :: b1 :: b2 :: bs) with ([b0; b1; b2] ++ bs). by rewrite numbered_app.
    + do 2 f_equal; [lia|simpl; lia].
Qed.

Lemma encode_base64_app a bs3 bs chunk text : length bs3 = 3%nat → encode_chunk a false bs3 = Ok chunk →
  encode_base64 bs a false = Ok text → encode_base64 (bs3 ++ bs) a false = Ok (chunk ++ text).
Proof.
  intros Hl Hc Ht. destruct bs3 as [|b0 [|b1 [|b2 [|]]]]; try done. cbn [app encode_base64]. by rewrite Hc, Ht.
Qed.

Lemma encode_base64_small a bs : (1 <= length bs < 3)%nat → encode_base64 bs a false = encode_chunk a false bs.
Proof. intros Hl. destruct bs as [|b0 [|b1 [|b2 ?]]]; simpl in Hl; (done || lia). Qed.

Lemma encode_base64_nil a bs : encode_base64 bs a false = Ok [] → bs = [].
Proof.
  destruct bs as [|b0 [|b1 [|b2 bs]]]; [done|..]; cbn [encode_base64]; intros H; exfalso; unfold encode_chunk in H;
    cbn [length lookup list_lookup default from_option id] in H; res_inv; done.
Qed.

Lemma finish_strict config chunk w cs read : handling config = Strict → (finish_partial chunk config w cs read).2 = None.
Proof.
  intros Hh. unfold finish_partial. rewrite Hh. destruct (existsb _ _); [|by destruct (negb _)].
  rewrite (bool_decide_eq_false_2 (Strict = StopBeforePartial)) by done. by rewrite andb_false_r.
Qed.

Lemma loop_strict config fuel units read w ws r k :
  handling config = Strict → max_len config = None → decode_loop fuel config units read w = Ok (ws, Some (r, k)) →
  ∃ bs, Forall is_byte bs ∧ encode_base64 bs (alphabet config) false = Ok (strip units) ∧ ws = numbered w bs ∧
    r = (read + length units)%nat ∧ k = (w + length bs)%nat.
Proof.
  intros Hh Hm. revert units read w ws r k. induction fuel as [|fuel IH]; intros units read w ws r k; [done|]. cbn [decode_loop].
  pose proof (collect_spec 4 units) as Hc. destruct (collect 4 units) as [[chunk n] later]. destruct Hc as (Hchunk & Hst & Hn & Hlast & _).
  rewrite Hm.
  destruct chunk as [|c0 [|c1 [|c2 [|c3 [|]]]]]; cbn [length] in *.
  - intros [= <- <- <-]. destruct (strip units) as [|? ?] eqn:Es; [|done]. exists []. rewrite Hlast in Hn by lia. simpl in Hn.
    split_and!; [constructor|done|done|lia|simpl; lia].
  - intros H. pose proof (finish_strict config [c0] w read (read + n) Hh) as E. by injection H as H; rewrite H in E.
  - intros H. pose proof (finish_strict config [c0; c1] w read (read + n) Hh) as E. by injection H as H; rewrite H in E.
  - intros H. pose proof (finish_strict config [c0; c1; c2] w read (read + n) Hh) as E. by injection H as H; rewrite H in E.
  - rewrite existsb_strip. destruct (_ && negb _) eqn:Epad; [done|].
    destruct (decode_full_chunk _ _) as [[bits count]|] eqn:E; [|done]. apply block_of_decode_full in E.
    pose proof E as Hfb. apply block_encoded in E as (bs & Hbs & Hl & Hwr & Henc). specialize (Henc (or_intror Hh)).
    destruct (decode_loop fuel config later _ _) as [[ws' o]| |] eqn:El; try done. cbn [res_bind fst snd]. intros [= <- ->].
    destruct (IH _ _ _ _ _ _ El) as (bs' & Hbs' & He' & -> & -> & ->). exists (bs ++ bs').
    assert (strip units = [c0; c1; c2; c3] ++ strip later) as Hs by (by rewrite Hchunk, Hst, take_drop).
    rewrite Hwr, numbered_app, Hl, length_app, Hs. split_and!; [by apply Forall_app| |done|lia|lia].
    destruct (decide (count = 3%nat)) as [Hc3|Hc3]; [by apply encode_base64_app; [lia|..]|].
    assert (strip later = []) as Hnil.
    { apply andb_false_iff in Epad as [Epad|Epad]; [|by apply negb_false_iff, bool_decide_eq_true in Epad].
      exfalso. inversion Hfb; subst; try done; cbn [lookup list_lookup default from_option id] in Epad;
        by rewrite N.eqb_refl, orb_true_r in Epad. }
    rewrite Hnil in *. apply encode_base64_nil in He' as ->. rewrite !app_nil_r, encode_base64_small; [done|].
    inversion Hfb; subst; try done; simpl in *; lia.
  - apply (f_equal length) in Hchunk. cbn [length] in Hchunk. rewrite length_take in Hchunk. lia.
Qed.

Lemma encode_base64_ok a om bs : Forall is_byte bs → ∃ text, encode_base64 bs a om = Ok text.
Proof.
  induction bs as [|b0|b0 b1|b0 b1 b2 bs IH] using chunks_ind; intros Hb; rewrite ?Forall_cons in Hb; cbn [encode_base64].
  - by eexists.
  - pose proof (encode_1 a om b0) as E. unfold sext in E. rewrite E by naive_solver. by eexists.
  - pose proof (encode_2 a om b0 b1) as E. unfold sext in E. rewrite E by naive_solver. by eexists.
  - destruct Hb as (H0 & H1 & H2 & Hb). pose proof (encode_3 a om b0 b1 b2) as E. unfold sext in E. rewrite E by done.
    destruct (IH Hb) as [text ->]. by eexists.
Qed.

(** ** Hexadecimal *)

(** Digits in lower case. *)
Definition fold_case (c : N) : N := if in_range 0x41 0x46 c then c + 32 else c.

Lemma hex_value_lt c d : hex_value c = Some d → d < 16 ∧ fold_case c = hex_lower d.
Proof.
  destruct (N.lt_ge_cases c 128) as [Hc|Hc].
  - set (P c := match hex_value c with Some d => (d <? 16) && (fold_case c =? hex_lower d) | None => true end).
    assert (P c = true) as H by (apply (forallb_below P 128); [by vm_compute|done]).
    intros E. unfold P in H. rewrite E in H. by apply andb_true_iff in H as [?%N.ltb_lt ?%N.eqb_eq].
  - unfold hex_value. assert (∀ lo hi, hi < 128 → in_range lo hi c = false) as Hr by (intros; apply in_range_false; lia).
    by rewrite !Hr by lia.
Qed.

Lemma hex_value_fold c d : d < 16 → fold_case c = hex_lower d → hex_value c = Some d.
Proof.
  intros Hd E. assert (c < 128) as Hc.
  { unfold fold_case, hex_lower in E. destruct (in_range 65 70 c) eqn:Er; [apply in_range_true in Er; lia|].
    destruct (d <? 10); lia. }
  set (P c := forallb (λ i, let d := N.of_nat i in
    negb (fold_case c =? hex_lower d) || bool_decide (hex_value c = Some d)) (seq 0 16)).
  assert (P c = true) as H by (apply (forallb_below P 128); [by vm_compute|done]). unfold P in H.
  pose proof (forallb_below (λ d, negb (fold_case c =? hex_lower d) || bool_decide (hex_value c = Some d)) 16 H d Hd) as H'.
  clear H. rename H' into H. cbn beta in H.
  rewrite E, N.eqb_refl in H. by apply bool_decide_eq_true in H.
Qed.

Lemma hex_get d : d < 16 → vec_get HEX (N.to_nat d) = Ok (hex_lower d).
Proof.
  intros Hd. set (P d := bool_decide (HEX !! N.to_nat d = Some (hex_lower d))).
  assert (P d = true) as H by (apply (forallb_below P 16); [by vm_compute|done]). apply bool_decide_eq_true in H.
  by apply vec_get_Ok.
Qed.

Lemma nibbles b : is_byte b → N.shiftr b 4 < 16 ∧ N.land b 0x0f < 16 ∧ u8 (N.shiftr b 4 * 16 + N.land b 0x0f) = b.
Proof.
  unfold is_byte, u8. intros Hb. change 0x0f with (N.ones 4). rewrite N.land_ones, N.shiftr_div_pow2.
  change (2^4) with 16. change (2^8) with 256. split_and!; zify; Z.to_euclidean_division_equations; lia.
Qed.

Lemma nibbles_join hi lo : hi < 16 → lo < 16 →
  let b := u8 (hi * 16 + lo) in is_byte b ∧ N.shiftr b 4 = hi ∧ N.land b 0x0f = lo.
Proof.
  unfold is_byte, u8. intros Hh Hl. change 0x0f with (N.ones 4). rewrite N.land_ones, N.shiftr_div_pow2.
  change (2^4) with 16. change (2^8) with 256. cbn zeta. split_and!; zify; Z.to_euclidean_division_equations; lia.
Qed.

Lemma encode_hex_cons b bs : is_byte b →
  encode_hex (b :: bs) = res_bind (encode_hex bs) (λ out, Ok (hex_lower (N.shiftr b 4) :: hex_lower (N.land b 0x0f) :: out)).
Proof. intros Hb. destruct (nibbles b Hb) as (H1 & H2 & _). cbn [encode_hex]. by rewrite !hex_get. Qed.

Lemma encode_hex_ok bs : Forall is_byte bs → ∃ text, encode_hex bs = Ok text ∧ fold_case <$> text = text.
Proof.
  induction 1 as [|b bs Hb _ (text & IH & IHf)]; [by exists []|]. rewrite encode_hex_cons, IH by done. eexists. split; [done|].
  destruct (nibbles b Hb) as (H1 & H2 & _). cbn [fmap list_fmap]. rewrite IHf.
  assert (∀ d, d < 16 → fold_case (hex_lower d) = hex_lower d) as Hf.
  { intros d Hd. set (P d := fold_case (hex_lower d) =? hex_lower d).
    apply N.eqb_eq, (forallb_below P 16); [by vm_compute|done]. }
  by rewrite !Hf.
Qed.

Lemma hex_loop_encoded bs units i w : Forall is_byte bs → encode_hex bs = Ok (fold_case <$> units) →
  hex_loop units None i w (i * 2) = (numbered w bs, Some ((i * 2 + length units)%nat, (w + length bs)%nat)).
Proof.
  intros Hb. revert units i w. induction Hb as [|b bs Hb _ IH]; intros units i w He.
  { destruct units; [|done]. cbn [hex_loop length]. by rewrite !Nat.add_0_r. }
  rewrite encode_hex_cons in He by done. destruct (encode_hex bs) as [text| |] eqn:E; try done. cbn [res_bind] in He.
  destruct units as [|c1 [|c2 units]]; try done. cbn [fmap list_fmap] in He. injection He as E1 E2 ->.
  destruct (nibbles b Hb) as (H1 & H2 & H3). cbn [hex_loop].
  rewrite (hex_value_fold c1 (N.shiftr b 4)), (hex_value_fold c2 (N.land b 0x0f)), H3 by done.
  replace (i * 2 + 2)%nat with (S i * 2)%nat by lia. rewrite IH by done. cbn [fst snd length].
  unfold numbered. cbn [length seq zip zip_with]. rewrite Nat.add_1_r. do 3 f_equal; lia.
Qed.

Lemma hex_loop_inv units i w ws r k : Nat.modulo (length units) 2 = 0%nat →
  hex_loop units None i w (i * 2) = (ws, Some (r, k)) →
  ∃ bs, Forall is_byte bs ∧ encode_hex bs = Ok (fold_case <$> units) ∧ ws = numbered w bs ∧
    r = (i * 2 + length units)%nat ∧ k = (w + length bs)%nat.
Proof.
  remember (length units) as n eqn:En. revert units En i w ws. induction n as [n IH] using lt_wf_ind. intros units En i w ws Hev.
  destruct units as [|c1 [|c2 units]]; simpl in En; subst n.
  { intros [= <- <- <-]. exists []. split_and!; [constructor|done|done|lia|simpl; lia]. }
  { done. }
  cbn [hex_loop]. destruct (hex_value c1) as [hi|] eqn:E1, (hex_value c2) as [lo|] eqn:E2; try done.
  replace (i * 2 + 2)%nat with (S i * 2)%nat by lia. destruct (hex_loop units None (S i) (w + 1) (S i * 2)) as [ws' o] eqn:El.
  cbn [fst snd]. intros [= <- ->]. destruct (IH (length units)) with (units := units) (i := S i) (w := (w + 1)%nat) (ws := ws')
    as (bs & Hbs & He & -> & -> & ->); [lia|done| |done|].
  { replace (S (S (length units))) with (length units + 1 * 2)%nat in Hev by lia. by rewrite Nat.Div0.mod_add in Hev. }
  destruct (hex_value_lt c1 hi E1) as [H1 F1], (hex_value_lt c2 lo E2) as [H2 F2].
  destruct (nibbles_join hi lo H1 H2) as (Hb & B1 & B2). exists (u8 (hi * 16 + lo) :: bs).
  split_and!; [by constructor| | |lia|simpl; lia].
  - rewrite encode_hex_cons, He, B1, B2 by done. cbn [fmap list_fmap res_bind]. by rewrite F1, F2.
  - unfold numbered. cbn [length seq zip zip_with]. by rewrite Nat.add_1_r.
Qed.

Lemma encode_hex_length bs text : encode_hex bs = Ok text → length text = (2 * length bs)%nat.
Proof.
  revert text. induction bs as [|b bs IH]; intros text; cbn [encode_hex]; [by intros [= <-]|]. intros H. res_inv.
  cbn [length]. rewrite (IH a1) by done. lia.
Qed.

Lemma hex_loop_sound units max i w a h :
  (∀ m, max = Some m → (w <= m)%nat) →
  sound_outcome (mkConfig a h max) w (i * 2) (length units) (hex_loop units max i w (i * 2)).
Proof.
  remember (length units) as n eqn:En. revert units En i w. induction n as [n IH] using lt_wf_ind. intros units En i w Hw.
  destruct units as [|c1 [|c2 units]]; simpl in En; subst n; cbn [hex_loop]; try (apply sound_stop; lia).
  destruct (hex_value c1) as [hi|], (hex_value c2) as [lo|]; try apply sound_none.
  destruct (match max with Some m => _ | None => _ end) eqn:Em; [apply sound_stop; lia|].
  replace (i * 2 + 2)%nat with (S i * 2)%nat by lia.
  destruct (IH (length units)) with (units := units) (i := S i) (w := (w + 1)%nat) as (bs & E1 & E2 & E3 & E4); [lia|done| |].
  { intros m ->. apply bool_decide_eq_false in Em. lia. }
  exists (u8 (hi * 16 + lo) :: bs). cbn [fst snd]. rewrite E1. split_and!.
  - unfold numbered. cbn [length seq zip zip_with]. by rewrite Nat.add_1_r.
  - constructor; [|done]. unfold is_byte, u8. change (2^8) with 256. by apply N.mod_lt.
  - cbn [max_len] in *. intros m -> _. apply bool_decide_eq_false in Em. specialize (E3 m eq_refl). simpl. lia.
  - destruct (hex_loop _ _ _ _ _).2 as [[r k]|]; [|done]. simpl. lia.
Qed.
End CodecFacts.

(** ** Properties *)

(** Decoding the base64 text of bytes, with white space put anywhere in it,
    gives back the bytes and reads the whole input: padded text in every mode,
    unpadded text in the loose mode, in both alphabets. *)
Theorem base64_roundtrip bs config om units :
  Forall CodecFacts.is_byte bs → Codec.max_len config = None → om = false ∨ Codec.handling config = Codec.Loose →
  Codec.encode_base64 bs (Codec.alphabet config) om = Ok (CodecFacts.strip units) →
  Codec.decode_base64 units config = Ok (CodecFacts.numbered 0 bs, Some (length units, length bs)).
Proof.
  intros Hb Hm Hom He. unfold Codec.decode_base64. rewrite bool_decide_eq_false_2 by congruence.
  by rewrite (CodecFacts.loop_encoded config bs om (CodecFacts.strip units)) by (done || lia).
Qed.

(** C32: The strict decoder accepts exactly the canonical base64 texts: it
    succeeds with some bytes when and only when the input, without its white
    space, is the padded encoding of these bytes. *)
Theorem base64_strict_exact units a ws r k :
  Codec.decode_base64 units (Codec.mkConfig a Codec.Strict None) = Ok (ws, Some (r, k)) ↔
  ∃ bs, Forall CodecFacts.is_byte bs ∧ Codec.encode_base64 bs a false = Ok (CodecFacts.strip units) ∧
    ws = CodecFacts.numbered 0 bs ∧ r = length units ∧ k = length bs.
Proof.
  unfold Codec.decode_base64. rewrite bool_decide_eq_false_2 by done. split.
  - intros H. by destruct (CodecFacts.loop_strict (Codec.mkConfig a Codec.Strict None) _ _ _ _ _ _ _ eq_refl eq_refl H)
      as (bs & ? & ? & ? & ? & ?); exists bs.
  - intros (bs & Hb & He & -> & -> & ->).
    by rewrite (CodecFacts.loop_encoded (Codec.mkConfig a Codec.Strict None) bs false (CodecFacts.strip units)) by (done || lia || by left).
Qed.

(** On every input and setting the decoder ends; it writes bytes at the
    indices 0, 1, 2 and so on, also before an error; it never writes more than
    the limit; and on success it reports exactly what it wrote and a position
    inside the input. *)
Theorem base64_bounds units config :
  ∃ bs o, Codec.decode_base64 units config = Ok (CodecFacts.numbered 0 bs, o) ∧ Forall CodecFacts.is_byte bs ∧
    (∀ m, Codec.max_len config = Some m → (length bs <= m)%nat) ∧
    ∀ r k, o = Some (r, k) → k = length bs ∧ (r <= length units)%nat.
Proof.
  unfold Codec.decode_base64. case_bool_decide as H0.
  { exists [], (Some (0%nat, 0%nat)). split_and!; [done|constructor|intros; simpl; lia|intros r k [= <- <-]; simpl; lia]. }
  destruct (CodecFacts.loop_sound config (S (length units)) units 0 0) as ([ws o] & E & bs & Hw & Hb & Hm & Ho); [lia|lia|].
  simpl in Hw. subst ws. exists bs, o. split_and!; [done|done|intros m Ex; specialize (Hm m Ex); lia|].
  intros r k ->. simpl in Ho. lia.
Qed.

(** The hexadecimal decoder accepts exactly the encodings of bytes, in
    either case of the digits; encoding never fails; and within a limit the
    decoder writes consecutive bytes and never exceeds it. *)
Theorem hex_exact units ws r k max :
  (Codec.decode_hex units None = (ws, Some (r, k)) ↔
   ∃ bs, Forall CodecFacts.is_byte bs ∧ Codec.encode_hex bs = Ok (CodecFacts.fold_case <$> units) ∧
     ws = CodecFacts.numbered 0 bs ∧ r = length units ∧ k = length bs) ∧
  (∀ bs, Forall CodecFacts.is_byte bs → ∃ text, Codec.encode_hex bs = Ok text ∧
     Codec.decode_hex text None = (CodecFacts.numbered 0 bs, Some (length text, length bs))) ∧
  ∃ bs o, Codec.decode_hex units max = (CodecFacts.numbered 0 bs, o) ∧ Forall CodecFacts.is_byte bs ∧
    (∀ m, max = Some m → (length bs <= m)%nat) ∧ ∀ r k, o = Some (r, k) → k = length bs ∧ (r <= length units)%nat.
Proof.
  assert (∀ bs units, Forall CodecFacts.is_byte bs → Codec.encode_hex bs = Ok (CodecFacts.fold_case <$> units) →
    Codec.decode_hex units None = (CodecFacts.numbered 0 bs, Some (length units, length bs))) as Hdec.
  { intros bs us Hb He. unfold Codec.decode_hex. pose proof (CodecFacts.hex_loop_encoded bs us 0 0 Hb He) as E.
    change (0 * 2)%nat with 0%nat in E. rewrite E.
    rewrite bool_decide_eq_false_2; [done|]. pose proof (CodecFacts.encode_hex_length bs _ He) as Hl. rewrite length_fmap in Hl.
    rewrite Hl, Nat.mul_comm, Nat.Div0.mod_mul. done. }
  split_and!.
  - split.
    + unfold Codec.decode_hex. case_bool_decide as Hev; [done|]. intros H.
      apply (CodecFacts.hex_loop_inv units 0 0) in H; [exact H|].
      pose proof (Nat.mod_upper_bound (length units) 2). lia.
    + intros (bs & Hb & He & -> & -> & ->). by apply Hdec.
  - intros bs Hb. destruct (CodecFacts.encode_hex_ok bs Hb) as (text & E & Ef). exists text. split; [done|]. apply Hdec; [done|by rewrite Ef].
  - unfold Codec.decode_hex. case_bool_decide as Hev.
    { exists [], None. split_and!; [done|constructor|intros; simpl; lia|done]. }
    destruct (CodecFacts.hex_loop_sound units max 0 0 Codec.Standard Codec.Loose) as (bs & Hw & Hb & Hm & Ho); [lia|].
    exists bs, (Codec.hex_loop units max 0 0 0).2. split_and!.
    + rewrite <- Hw. by rewrite <- surjective_pairing.
    + done.
    + intros m Ex. specialize (Hm m Ex). lia.
    + intros r' k' Er. change (0 * 2)%nat with 0%nat in Ho. rewrite Er in Ho. simpl in Ho. lia.
Qed.

(** ** Witnesses *)

Lemma base64_roundtrip_witness :
  Codec.decode_base64 (bytes_of " x-_ y_w") (Codec.mkConfig Codec.Url Codec.Loose None) =
    Ok (CodecFacts.numbered 0 [199; 239; 242; 255], Some (8%nat, 4%nat)).
Proof.
  apply (base64_roundtrip [199; 239; 242; 255] (Codec.mkConfig Codec.Url Codec.Loose None) true); [by repeat constructor|done|by right|].
  by vm_compute.
Defined.

Lemma hex_exact_witness :
  ∃ text, Codec.encode_hex [102; 175] = Ok text ∧ text = bytes_of "66af" ∧
    Codec.decode_hex text None = (CodecFacts.numbered 0 [102; 175], Some (4%nat, 2%nat)).
Proof.
  destruct (hex_exact [] [] 0 0 None) as (_ & H & _). destruct (H [102; 175]) as (text & E & Ed); [by repeat constructor|].
  exists text. assert (text = bytes_of "66af") as Et by (vm_compute in E; vm_compute; congruence). split_and!; [done|done|].
  rewrite Ed. by rewrite Et.
Defined.
