(* ===== verification/Uri.v ===== *)
(** * URI and escape functions (crates/oxide_builtins/src/global/uri.rs, annex_b.rs, global.rs)

    [encodeURI] and its relatives on 16-bit units, and the older [escape] and
    [unescape].  [Err URI_ERROR_MESSAGE] is the error the callers turn into a
    [URIError].  What the code uses of Rust's UTF-8 support is written out. *)

From stdpp Require Import base tactics numbers list option strings.
From Stdlib Require Import NArith ZArith Lia.
From S2P Require Import Prelude Unicode.
#[local] Set Warnings "-clear-no-such-hyp".

Open Scope N_scope.

(** ** UTF-8, as [char::encode_utf8] and [str::from_utf8] treat it *)

Definition encode_utf8 (c : N) : list N :=
  if c <? 0x80 then [c]
  else if c <? 0x800 then [0xC0 + c / 64; 0x80 + c mod 64]
  else if c <? 0x10000 then [0xE0 + c / 4096; 0x80 + c / 64 mod 64; 0x80 + c mod 64]
  else [0xF0 + c / 262144; 0x80 + c / 4096 mod 64; 0x80 + c / 64 mod 64; 0x80 + c mod 64].

Definition is_continuation (b : N) : bool := in_range 0x80 0xBF b.

(** The first character of well-formed bytes, and the rest. *)
Definition utf8_next (bytes : list N) : option (N * list N) :=
  match bytes with
  | [] => None
  | b0 :: rest =>
      if b0 <? 0x80 then Some (b0, rest)
      else if in_range 0xC2 0xDF b0 then
        match rest with
        | b1 :: rest => if is_continuation b1 then Some ((b0 - 0xC0) * 64 + (b1 - 0x80), rest) else None
        | _ => None
        end
      else if in_range 0xE0 0xEF b0 then
        match rest with
        | b1 :: b2 :: rest =>
            if in_range (if b0 =? 0xE0 then 0xA0 else 0x80) (if b0 =? 0xED then 0x9F else 0xBF) b1 && is_continuation b2
            then Some ((b0 - 0xE0) * 4096 + (b1 - 0x80) * 64 + (b2 - 0x80), rest) else None
        | _ => None
        end
      else if in_range 0xF0 0xF4 b0 then
        match rest with
        | b1 :: b2 :: b3 :: rest =>
            if in_range (if b0 =? 0xF0 then 0x90 else 0x80) (if b0 =? 0xF4 then 0x8F else 0xBF) b1 && is_continuation b2
               && is_continuation b3
            then Some ((b0 - 0xF0) * 262144 + (b1 - 0x80) * 4096 + (b2 - 0x80) * 64 + (b3 - 0x80), rest) else None
        | _ => None
        end
      else None
  end.

Fixpoint from_utf8_loop (fuel : nat) (bytes : list N) : option (list N) :=
  match bytes, fuel with
  | [], _ => Some []
  | _, O => None
  | _, S fuel =>
      match utf8_next bytes with
      | Some (c, rest) => (λ cs, c :: cs) <$> from_utf8_loop fuel rest
      | None => None
      end
  end.

Definition from_utf8 (bytes : list N) : option (list N) := from_utf8_loop (length bytes) bytes.

(** ** URIs *)

Module Uri.
Definition URI_UNESCAPED : list N := bytes_of "ABCDEFGHIJKLMNOPQRSTUVWXYZabcdefghijklmnopqrstuvwxyz0123456789-_.!~*'()".
Definition URI_RESERVED : list N := bytes_of ";/?:@&=+$,#".
Definition URI_SAFE : list N := bytes_of "ABCDEFGHIJKLMNOPQRSTUVWXYZabcdefghijklmnopqrstuvwxyz0123456789-_.!~*'();/?:@&=+$,#".
Definition URI_ERROR_MESSAGE : string := "malformed URI sequence".

Definition contains (set : list N) (c : N) : bool := bool_decide (c ∈ set).

Definition percent : N := 0x25.

(** [format!("%{byte:02X}")]. *)
Definition percent_byte (b : N) : list N := [percent; hex_upper (b / 16); hex_upper (b mod 16)].

Definition percent_char (c : N) : list N := encode_utf8 c ≫= percent_byte.

Definition error {A} : res A := Err URI_ERROR_MESSAGE.

Definition expect {A} (o : option A) : res A := match o with Some x => Ok x | None => Panic end.

Fixpoint encode_uri_units (input : list N) (safe : list N) : res (list N) :=
  match input with
  | [] => Ok []
  | unit :: rest =>
      if is_high unit then
        match rest with
        | [] => error
        | next :: rest' =>
            if is_low next then
              let* c := expect (char_from_u32 (pair_value unit next)) in
              let* out := encode_uri_units rest' safe in Ok (percent_char c ++ out)
            else error
        end
      else if is_surrogate unit then error
      else if unit <? 0x80 then
        let* out := encode_uri_units rest safe in
        Ok ((if contains safe unit then [unit] else percent_byte unit) ++ out)
      else
        let* c := expect (char_from_u32 unit) in
        let* out := encode_uri_units rest safe in Ok (percent_char c ++ out)
  end.

(** The digit closure of [parse_hex_u8]. *)
Definition hex_digit (c : N) : option N :=
  if in_range 48 57 c then Some (c - 48)
  else if in_range 97 102 c then Some (c - 97 + 10)
  else if in_range 65 70 c then Some (c - 65 + 10)
  else None.

Definition parse_hex_u8 (hi lo : N) : option N :=
  match hex_digit hi, hex_digit lo with
  | Some h, Some l => Some (u8 (h * 16 + l))
  | _, _ => None
  end.

(** Reads at the head of [input] and returns what follows. *)
Definition read_percent_unit (input : list N) : res (N * list N) :=
  match input with
  | c :: hi :: lo :: rest =>
      if negb (c =? percent) then error
      else if (0x7F <? hi) || (0x7F <? lo) then error
      else match parse_hex_u8 hi lo with Some b => Ok (b, rest) | None => error end
  | _ => error
  end.

Definition utf8_sequence_len (first : N) : res nat :=
  if in_range 0x00 0x7F first then Ok 1%nat
  else if in_range 0xC2 0xDF first then Ok 2%nat
  else if in_range 0xE0 0xEF first then Ok 3%nat
  else if in_range 0xF0 0xF4 first then Ok 4%nat
  else error.

(** The loop over the further bytes of a character. *)
Fixpoint read_more (n : nat) (input : list N) : res (list N * list N) :=
  match n with
  | O => Ok ([], input)
  | S n =>
      let* r := read_percent_unit input in
      let '(byte, rest) := r in
      if negb (N.land byte 0xC0 =? 0x80) then error
      else let* more := read_more n rest in Ok (byte :: more.1, more.2)
  end.

Definition char_units (cp : N) : list N := if cp <=? 0xFFFF then [u16 cp] else [high_half cp; low_half cp].

(** Every round reads a unit at least, so [fuel] units are enough. *)
Fixpoint decode_loop (fuel : nat) (input : list N) (preserve_reserved : bool) : res (list N) :=
  match input, fuel with
  | [], _ => Ok []
  | _, O => Panic
  | c :: rest, S fuel =>
      if negb (c =? percent) then let* out := decode_loop fuel rest preserve_reserved in Ok (c :: out)
      else
        let* r := read_percent_unit input in
        let '(first, rest1) := r in
        let* sequence_len := utf8_sequence_len first in
        let* more := read_more (sequence_len - 1) rest1 in
        let '(bytes, rest2) := more in
        match from_utf8 (first :: bytes) with
        | None => error
        | Some chars =>
            match head chars with
            | None => decode_loop fuel rest2 preserve_reserved
            | Some ch =>
                let* out := decode_loop fuel rest2 preserve_reserved in
                if preserve_reserved && (ch <? 0x80) && contains URI_RESERVED ch
                then Ok (take (length input - length rest2) input ++ out)
                else Ok (char_units ch ++ out)
            end
        end
  end.

Definition decode_uri_units (input : list N) (preserve_reserved : bool) : res (list N) :=
  decode_loop (length input) input preserve_reserved.

(** The text operations of the four functions. *)
Definition encode_uri (input : list N) : res (list N) := encode_uri_units input URI_SAFE.
Definition encode_uri_component (input : list N) : res (list N) := encode_uri_units input URI_UNESCAPED.
Definition decode_uri (input : list N) : res (list N) := decode_uri_units input true.
Definition decode_uri_component (input : list N) : res (list N) := decode_uri_units input false.
End Uri.

(** ** Annex B *)

Module AnnexB.
Definition ESCAPE_SAFE : list N := bytes_of "ABCDEFGHIJKLMNOPQRSTUVWXYZabcdefghijklmnopqrstuvwxyz0123456789@*_+-./".

Definition hex_val (c : N) : option N :=
  if in_range 48 57 c then Some (c - 48)
  else if in_range 97 102 c then Some (c - 97 + 10)
  else if in_range 65 70 c then Some (c - 65 + 10)
  else None.

Definition percent : N := 0x25.
Definition letter_u : N := 117.

Definition escape_unit (u : N) : list N :=
  if (u <? 0x80) && bool_decide (u ∈ ESCAPE_SAFE) then [u]
  else if u <=? 0xFF then [percent; hex_upper (u / 16); hex_upper (u mod 16)]
  else [percent; letter_u; hex_upper (u / 4096); hex_upper (u / 256 mod 16); hex_upper (u / 16 mod 16); hex_upper (u mod 16)].

Definition escape_units (input : list N) : list N := input ≫= escape_unit.

(** What one round of [unescape] reads at the head of the input. *)
Definition unescape_long (input : list N) : option (N * list N) :=
  match input with
  | p :: u :: a :: b :: c :: d :: rest =>
      if (p =? percent) && (u =? letter_u) then
        match hex_val a, hex_val b, hex_val c, hex_val d with
        | Some a, Some b, Some c, Some d =>
            Some (u16 (u16 (u16 (u16 (0 * 16 + a) * 16 + b) * 16 + c) * 16 + d), rest)
        | _, _, _, _ => None
        end
      else None
  | _ => None
  end.

Definition unescape_short (input : list N) : option (N * list N) :=
  match input with
  | p :: a :: b :: rest =>
      if p =? percent then
        match hex_val a, hex_val b with
        | Some a, Some b => Some (u16 (a * 16 + b), rest)
        | _, _ => None
        end
      else None
  | _ => None
  end.

Fixpoint unescape_loop (fuel : nat) (input : list N) : res (list N) :=
  match input, fuel with
  | [], _ => Ok []
  | _, O => Panic
  | c :: rest, S fuel =>
      let '(unit, rest) :=
        match unescape_long input with
        | Some r => r
        | None => match unescape_short input with Some r => r | None => (c, rest) end
        end in
      let* out := unescape_loop fuel rest in Ok (unit :: out)
  end.

Definition unescape_units (input : list N) : res (list N) := unescape_loop (length input) input.
End AnnexB.

(** ** Facts about UTF-8 and percent escapes *)

Module UriFacts.
Import Uri.

Lemma in_range_in lo hi n : lo <= n <= hi → in_range lo hi n = true.
Proof. apply in_range_true. Qed.

Lemma in_range_out lo hi n : n < lo ∨ hi < n → in_range lo hi n = false.
Proof. apply in_range_false. Qed.

Ltac div_lia := zify; Z.to_euclidean_division_equations; lia.

(** The bytes of a character: the first tells their number, the others are
    continuation bytes, and they read back. *)
Lemma encode_utf8_ok c : is_char c = true →
  ∃ b0 bs, encode_utf8 c = b0 :: bs ∧ b0 < 256 ∧ utf8_sequence_len b0 = Ok (S (length bs)) ∧
    Forall (λ b, 0x80 <= b <= 0xBF) bs ∧ from_utf8 (b0 :: bs) = Some [c].
Proof.
  intros Hc%is_char_true. unfold encode_utf8.
  destruct (N.ltb_spec c 0x80) as [H1|H1].
  { exists c, []. split_and!; [done|lia| |constructor|].
    - unfold utf8_sequence_len. by rewrite (in_range_in 0 0x7F) by lia.
    - unfold from_utf8. cbn [length from_utf8_loop utf8_next]. rewrite (proj2 (N.ltb_lt _ _)) by done. done. }
  destruct (N.ltb_spec c 0x800) as [H2|H2].
  { exists (0xC0 + c / 64), [0x80 + c mod 64]. assert (0xC2 <= 0xC0 + c / 64 <= 0xDF) as Hb0 by div_lia.
    assert (0x80 <= 0x80 + c mod 64 <= 0xBF) as Hb1 by div_lia. split_and!; [done|lia| |by rewrite !Forall_cons, Forall_nil|].
    - unfold utf8_sequence_len. by rewrite (in_range_out 0 0x7F), (in_range_in 0xC2 0xDF) by lia.
    - unfold from_utf8. cbn [length from_utf8_loop utf8_next]. rewrite (proj2 (N.ltb_ge _ _)), (in_range_in 0xC2 0xDF) by lia.
      unfold is_continuation. rewrite (in_range_in 0x80 0xBF) by done. cbn. do 2 f_equal. div_lia. }
  destruct (N.ltb_spec c 0x10000) as [H3|H3].
  { exists (0xE0 + c / 4096), [0x80 + c / 64 mod 64; 0x80 + c mod 64]. assert (0xE0 <= 0xE0 + c / 4096 <= 0xEF) as Hb0 by div_lia.
    assert (0x80 <= 0x80 + c mod 64 <= 0xBF) as Hb2 by div_lia.
    assert (0x80 <= 0x80 + c / 64 mod 64 <= 0xBF) as Hb1 by div_lia.
    assert (0xE0 + c / 4096 = 0xE0 → 0xA0 <= 0x80 + c / 64 mod 64) as Hlo by (intros; div_lia).
    assert (0xE0 + c / 4096 = 0xED → 0x80 + c / 64 mod 64 <= 0x9F) as Hhi by (intros; div_lia).
    split_and!; [done|lia| |by rewrite !Forall_cons, Forall_nil|].
    - unfold utf8_sequence_len. by rewrite (in_range_out 0 0x7F), (in_range_out 0xC2 0xDF), (in_range_in 0xE0 0xEF) by lia.
    - unfold from_utf8. cbn [length from_utf8_loop utf8_next].
      rewrite (proj2 (N.ltb_ge _ _)), (in_range_out 0xC2 0xDF), (in_range_in 0xE0 0xEF) by lia.
      unfold is_continuation. rewrite (in_range_in 0x80 0xBF (0x80 + c mod 64)) by done. rewrite in_range_in.
      + cbn. do 2 f_equal. div_lia.
      + destruct (N.eqb_spec (0xE0 + c / 4096) 0xE0), (N.eqb_spec (0xE0 + c / 4096) 0xED); lia. }
  exists (0xF0 + c / 262144), [0x80 + c / 4096 mod 64; 0x80 + c / 64 mod 64; 0x80 + c mod 64].
  assert (0xF0 <= 0xF0 + c / 262144 <= 0xF4) as Hb0 by div_lia.
  assert (0x80 <= 0x80 + c mod 64 <= 0xBF) as Hb3 by div_lia.
  assert (0x80 <= 0x80 + c / 64 mod 64 <= 0xBF) as Hb2 by div_lia.
  assert (0x80 <= 0x80 + c / 4096 mod 64 <= 0xBF) as Hb1 by div_lia.
  assert (0xF0 + c / 262144 = 0xF0 → 0x90 <= 0x80 + c / 4096 mod 64) as Hlo by (intros; div_lia).
  assert (0xF0 + c / 262144 = 0xF4 → 0x80 + c / 4096 mod 64 <= 0x8F) as Hhi by (intros; div_lia).
  split_and!; [done|lia| |by rewrite !Forall_cons, Forall_nil|].
  - unfold utf8_sequence_len.
    by rewrite (in_range_out 0 0x7F), (in_range_out 0xC2 0xDF), (in_range_out 0xE0 0xEF), (in_range_in 0xF0 0xF4) by lia.
  - unfold from_utf8. cbn [length from_utf8_loop utf8_next].
    rewrite (proj2 (N.ltb_ge _ _)), (in_range_out 0xC2 0xDF), (in_range_out 0xE0 0xEF), (in_range_in 0xF0 0xF4) by lia.
    unfold is_continuation. rewrite (in_range_in 0x80 0xBF (0x80 + c mod 64)), (in_range_in 0x80 0xBF (0x80 + c / 64 mod 64)) by done.
    rewrite in_range_in.
    + cbn. do 2 f_equal. div_lia.
    + destruct (N.eqb_spec (0xF0 + c / 262144) 0xF0), (N.eqb_spec (0xF0 + c / 262144) 0xF4); lia.
Qed.

Lemma hex_digit_eq c : hex_digit c = to_digit16 c.
Proof.
  unfold hex_digit, to_digit16. destruct (in_range 48 57 c); [done|]. destruct (in_range 97 102 c) eqn:E1.
  { apply in_range_true in E1. f_equal. lia. }
  destruct (in_range 65 70 c) eqn:E2; [|done]. apply in_range_true in E2. f_equal. lia.
Qed.

Lemma hex_upper_ascii d : d < 16 → hex_upper d <= 0x7F.
Proof. intros. unfold hex_upper. destruct (d <? 10); lia. Qed.

Lemma read_percent_ok b rest : b < 256 → read_percent_unit (percent_byte b ++ rest) = Ok (b, rest).
Proof.
  intros Hb. assert (b / 16 < 16 ∧ b mod 16 < 16) as [H1 H2] by (split; div_lia). unfold percent_byte.
  cbn [app read_percent_unit]. rewrite N.eqb_refl. cbn [negb].
  pose proof (hex_upper_ascii _ H1). pose proof (hex_upper_ascii _ H2). rewrite !(proj2 (N.ltb_ge _ _)) by done. cbn [orb].
  unfold parse_hex_u8. rewrite !hex_digit_eq, !to_digit16_upper by done. do 2 f_equal. unfold u8. change (2^8) with 256.
  rewrite N.mod_small; div_lia.
Qed.

Lemma continuation_mask b : 0x80 <= b <= 0xBF → (N.land b 0xC0 =? 0x80) = true.
Proof.
  intros Hb. set (P b := negb (in_range 0x80 0xBF b) || (N.land b 0xC0 =? 0x80)).
  assert (P b = true) as H by (apply (forallb_below P 256); [by vm_compute|lia]). unfold P in H.
  by rewrite in_range_in in H.
Qed.

Lemma read_more_ok bs rest : Forall (λ b, 0x80 <= b <= 0xBF) bs →
  read_more (length bs) ((bs ≫= percent_byte) ++ rest) = Ok (bs, rest).
Proof.
  induction 1 as [|b bs Hb _ IH]; [done|]. cbn [length read_more mbind list_bind]. rewrite <- app_assoc, read_percent_ok by lia.
  cbn [res_bind]. by rewrite continuation_mask, IH.
Qed.

(** Decoding the escape of a character, and copying a unit. *)
Lemma decode_percent_char fuel c rest preserve : is_char c = true →
  preserve && (c <? 0x80) && contains URI_RESERVED c = false →
  decode_loop (S fuel) (percent_char c ++ rest) preserve =
    res_bind (decode_loop fuel rest preserve) (λ out, Ok (char_units c ++ out)).
Proof.
  intros Hc Hp. destruct (encode_utf8_ok c Hc) as (b0 & bs & Eu & Hb0 & Hlen & Hbs & Hf).
  unfold percent_char. rewrite Eu. cbn [mbind list_bind]. rewrite <- app_assoc.
  assert (∃ x y, percent_byte b0 = [percent; x; y]) as (x & y & Eb) by (by eexists _, _).
  pose proof (read_percent_ok b0 ((bs ≫= percent_byte) ++ rest) Hb0) as Er. rewrite Eb in *. cbn [app] in *. cbn [decode_loop].
  rewrite N.eqb_refl. cbn [negb]. rewrite Er. cbn [res_bind]. rewrite Hlen. cbn [res_bind]. rewrite Nat.sub_succ, Nat.sub_0_r.
  rewrite read_more_ok by done. cbn [res_bind]. rewrite Hf. cbn [head]. by rewrite Hp.
Qed.

Lemma decode_plain fuel c rest preserve : c ≠ percent →
  decode_loop (S fuel) (c :: rest) preserve = res_bind (decode_loop fuel rest preserve) (λ out, Ok (c :: out)).
Proof. intros Hc. cbn [decode_loop]. by rewrite (proj2 (N.eqb_neq _ _)). Qed.

Lemma percent_char_length c : is_char c = true → (1 <= length (percent_char c))%nat.
Proof.
  intros Hc. destruct (encode_utf8_ok c Hc) as (b0 & bs & Eu & _). unfold percent_char. rewrite Eu. simpl. lia.
Qed.

Lemma percent_byte_char c : c < 0x80 → percent_byte c = percent_char c.
Proof. intros Hc. unfold percent_char, encode_utf8. rewrite (proj2 (N.ltb_lt _ _)) by done. simpl. done. Qed.

(** *** Encoding *)

(** Text whose units are the input. *)
Definition well_formed (input : list N) : Prop := ∃ text, Forall (λ c, is_char c = true) text ∧ input = utf16 text.

(** What encoding makes of one character. *)
Definition encoded_char (safe : list N) (c : N) : list N :=
  if (c <? 0x80) && contains safe c then [c] else percent_char c.

Lemma encode_utf16 safe text : Forall (λ c, is_char c = true) text →
  encode_uri_units (utf16 text) safe = Ok (text ≫= encoded_char safe).
Proof.
  induction 1 as [|c text Hc _ IH]; [done|]. unfold utf16 in *. cbn [mbind list_bind]. pose proof Hc as Hc'. apply is_char_true in Hc.
  unfold encoded_char at 1. destruct (N.ltb_spec 0xFFFF c) as [Hlt|Hle]; cbn [app encode_uri_units].
  - destruct (halves_pair c) as (-> & -> & ->); [lia|]. unfold char_from_u32. rewrite Hc'. cbn [expect res_bind].
    rewrite IH. cbn [res_bind]. by rewrite (proj2 (N.ltb_ge c 0x80)) by lia.
  - unfold is_high, is_surrogate. rewrite !in_range_out by lia. destruct (N.ltb_spec c 0x80) as [Hs|Hs].
    + rewrite IH. cbn [res_bind andb]. destruct (contains safe c); [done|]. by rewrite percent_byte_char.
    + unfold char_from_u32. rewrite Hc'. cbn [expect res_bind]. rewrite IH. done.
Qed.

Lemma encode_total input safe : Forall (λ u, u < 2^16) input →
  (is_ok (encode_uri_units input safe) ∧ well_formed input) ∨ encode_uri_units input safe = error.
Proof.
  induction input as [|hi lo rest Hh Hl IH|u rest Hnp IH] using units_ind; intros Hu.
  - left. split; [by eexists|]. by exists [].
  - apply Forall_cons in Hu as [_ Hu]. apply Forall_cons in Hu as [_ Hu]. cbn [encode_uri_units]. rewrite Hh, Hl.
    destruct (pair_value_char hi lo Hh Hl) as [Hr Hc]. destruct (pair_halves hi lo Hh Hl) as [E1 E2].
    unfold char_from_u32. rewrite Hc. cbn [expect res_bind].
    destruct (IH Hu) as [[[out ->] (text & Ht & ->)]| ->]; [left|by right]. split; [by eexists|].
    exists (pair_value hi lo :: text). split; [by constructor|]. unfold utf16. cbn [mbind list_bind].
    rewrite (proj2 (N.ltb_lt _ _)), E1, E2 by lia. done.
  - apply Forall_cons in Hu as [Hu Hrest]. cbn [encode_uri_units]. destruct (is_high u) eqn:Eh.
    { right. destruct rest as [|lo rest]; [done|]. specialize (Hnp lo rest eq_refl). cbn [andb] in Hnp. by rewrite Hnp. }
    destruct (is_surrogate u) eqn:Es; [by right|]. apply in_range_false in Es. change (2^16) with 65536 in Hu.
    assert (is_char u = true) as Hc by (apply is_char_true; lia). unfold char_from_u32. rewrite Hc. cbn [expect res_bind].
    assert (∀ text, utf16 (u :: text) = u :: utf16 text) as Hutf
      by (intros text; unfold utf16; cbn [mbind list_bind]; by rewrite (proj2 (N.ltb_ge _ _)) by lia).
    destruct (IH Hrest) as [[[out ->] (text & Ht & ->)]| ->]; [left|right; by destruct (u <? 0x80)]. split.
    + destruct (u <? 0x80); by eexists.
    + exists (u :: text). split; [by constructor|]. by rewrite Hutf.
Qed.

(** *** Round trip *)

Lemma decode_encoded text preserve safe fuel : Forall (λ c, is_char c = true) text →
  percent ∉ safe → (preserve = true → ∀ c, c ∈ URI_RESERVED → c ∈ safe) →
  (length (text ≫= encoded_char safe) <= fuel)%nat →
  decode_loop fuel (text ≫= encoded_char safe) preserve = Ok (utf16 text).
Proof.
  intros Ht Hpc Hres. revert fuel. induction Ht as [|c text Hc _ IH]; intros fuel Hf; [by destruct fuel|].
  unfold utf16 in *. cbn [mbind list_bind] in *. rewrite length_app in Hf. unfold encoded_char at 1. unfold encoded_char at 1 in Hf.
  destruct ((c <? 0x80) && contains safe c) eqn:Es.
  - apply andb_true_iff in Es as [Hlt%N.ltb_lt Hin%bool_decide_eq_true]. cbn [length] in Hf. destruct fuel as [|fuel]; [lia|].
    cbn [app]. rewrite decode_plain by (intros ->; done). rewrite IH by lia. cbn [res_bind].
    by rewrite (proj2 (N.ltb_ge _ _)) by lia.
  - pose proof (percent_char_length c Hc). destruct fuel as [|fuel]; [lia|]. rewrite decode_percent_char, IH; [|lia|done|].
    + cbn [res_bind]. unfold char_units. apply is_char_true in Hc. destruct (N.leb_spec c 0xFFFF).
      * rewrite (proj2 (N.ltb_ge _ _)) by lia. unfold u16. change (2^16) with 65536. by rewrite N.mod_small by lia.
      * by rewrite (proj2 (N.ltb_lt _ _)) by lia.
    + destruct preserve; [|done]. destruct (c <? 0x80); [|done]. cbn [andb] in *. unfold contains in *.
      apply bool_decide_eq_false in Es. apply bool_decide_eq_false. naive_solver.
Qed.

(** *** Errors *)

Lemma read_percent_cases input : (∃ b rest, read_percent_unit input = Ok (b, rest) ∧ (S (length rest) < length input)%nat) ∨
  read_percent_unit input = error.
Proof.
  unfold read_percent_unit. destruct input as [|c [|hi [|lo rest]]]; [by right..|].
  destruct (negb _); [by right|]. destruct (_ || _); [by right|]. destruct (parse_hex_u8 hi lo) as [b|]; [left|by right].
  exists b, rest. simpl. split; [done|lia].
Qed.

Lemma read_more_cases n input : (∃ bs rest, read_more n input = Ok (bs, rest) ∧ (length rest <= length input)%nat) ∨
  read_more n input = error.
Proof.
  revert input. induction n as [|n IH]; intros input; cbn [read_more]; [left; by exists [], input|].
  destruct (read_percent_cases input) as [(b & rest & -> & Hl)| ->]; [|by right]. cbn [res_bind].
  destruct (negb _); [by right|]. destruct (IH rest) as [(bs & rest' & -> & Hl')| ->]; [left|by right].
  exists (b :: bs), rest'. split; [done|lia].
Qed.

Lemma decode_cases fuel input : (length input <= fuel)%nat →
  (is_ok (decode_loop fuel input true) ∧ is_ok (decode_loop fuel input false)) ∨
  (decode_loop fuel input true = error ∧ decode_loop fuel input false = error).
Proof.
  revert input. induction fuel as [|fuel IH]; intros input Hf; (destruct input as [|c rest]; [left; split; by eexists|]);
    cbn [length] in Hf; [lia|]. cbn [decode_loop]. destruct (negb (c =? percent)).
  { destruct (IH rest) as [[[o1 ->] [o2 ->]]|[-> ->]]; [lia|left; split; by eexists|by right]. }
  destruct (read_percent_cases (c :: rest)) as [(b & rest1 & -> & Hl1)| ->]; [|by right]. cbn [res_bind].
  unfold utf8_sequence_len. cbn [length] in Hl1.
  assert (∀ k, let go p := let* more := read_more k rest1 in
      let '(bytes, rest2) := more in
      match from_utf8 (b :: bytes) with
      | None => error
      | Some chars =>
          match head chars with
          | None => decode_loop fuel rest2 p
          | Some ch =>
              let* out := decode_loop fuel rest2 p in
              if p && (ch <? 0x80) && contains URI_RESERVED ch
              then Ok (take (length (c :: rest) - length rest2) (c :: rest) ++ out) else Ok (char_units ch ++ out)
          end
      end in (is_ok (go true) ∧ is_ok (go false)) ∨ (go true = error ∧ go false = error)) as Hgo.
  { intros k. cbn zeta. destruct (read_more_cases k rest1) as [(bs & rest2 & -> & Hl2)| ->]; [|by right]. cbn [res_bind].
    destruct (from_utf8 (b :: bs)) as [chars|]; [|by right]. destruct (IH rest2) as [[[o1 E1] [o2 E2]]|[E1 E2]]; [lia| |];
      rewrite E1, E2; destruct (head chars) as [ch|]; cbn [res_bind]; try by right.
    - left. split; destruct (_ && _ && _); by eexists.
    - left. split; by eexists. }
  destruct (in_range 0 127 b); [apply Hgo|]. destruct (in_range 194 223 b); [apply Hgo|].
  destruct (in_range 224 239 b); [apply Hgo|]. destruct (in_range 240 244 b); [apply Hgo|]. by right.
Qed.
End UriFacts.

Module AnnexFacts.
Import AnnexB.

Lemma hex_val_upper d : d < 16 → hex_val (hex_upper d) = Some d.
Proof. intros Hd. unfold hex_val. change (Uri.hex_digit (hex_upper d) = Some d). by rewrite UriFacts.hex_digit_eq, to_digit16_upper. Qed.

Lemma unescape_unit fuel u rest : u < 2^16 →
  unescape_loop (S fuel) (escape_unit u ++ rest) = res_bind (unescape_loop fuel rest) (λ out, Ok (u :: out)).
Proof.
  intros Hu. unfold escape_unit. destruct ((u <? 0x80) && bool_decide (u ∈ ESCAPE_SAFE)) eqn:Es.
  { apply andb_true_iff in Es as [_ Hin%bool_decide_eq_true]. assert (u ≠ percent) as Hne.
    { intros ->. apply (bool_decide_eq_false_1 (percent ∈ ESCAPE_SAFE)); [by vm_compute|done]. }
   
    cbn [app unescape_loop]. unfold unescape_long, unescape_short. rewrite (proj2 (N.eqb_neq _ _)) by done. cbn [andb].
    by destruct rest as [|? [|? [|? [|? [|? ?]]]]]. }
  destruct (N.leb_spec u 0xFF) as [Hle|Hgt].
  - assert (u / 16 < 16 ∧ u mod 16 < 16) as [H1 H2] by (split; zify; Z.to_euclidean_division_equations; lia).
    assert (u16 (u / 16 * 16 + u mod 16) = u) as Eu.
    { unfold u16. change (2^16) with 65536 in *. rewrite N.mod_small; zify; Z.to_euclidean_division_equations; lia. }
    cbn [app unescape_loop]. assert (unescape_long (percent :: hex_upper (u / 16) :: hex_upper (u mod 16) :: rest) = None) as ->.
    { unfold unescape_long. assert ((hex_upper (u / 16) =? letter_u) = false) as E
        by (apply N.eqb_neq; unfold hex_upper, letter_u; destruct (u / 16 <? 10); lia).
      destruct rest as [|? [|? [|? ?]]]; try done. by rewrite E, andb_false_r. }
    unfold unescape_short. rewrite N.eqb_refl, !hex_val_upper by done. by rewrite Eu.
  - destruct (hex4_digits u Hu) as (H1 & H2 & H3 & H4 & E). cbn [app unescape_loop]. unfold unescape_long.
    rewrite !N.eqb_refl. cbn [andb]. rewrite !hex_val_upper by done.
    revert H1 H2 H3 H4 E. generalize (u / 4096) (u / 256 mod 16) (u / 16 mod 16) (u mod 16). intros a b c d Ha Hb Hc Hd E.
    assert (∀ x, x < 65536 → u16 x = x) as Hm by (intros x Hx; by apply N.mod_small).
    rewrite (Hm (0 * 16 + a)), (Hm (_ + b)), (Hm (_ + c)), (Hm (_ + d)) by lia.
    replace (((0 * 16 + a) * 16 + b) * 16 + c) with ((a * 16 + b) * 16 + c) by lia. by rewrite E.
Qed.

Lemma unescape_escape input fuel : Forall (λ u, u < 2^16) input → (length (escape_units input) <= fuel)%nat →
  unescape_loop fuel (escape_units input) = Ok input.
Proof.
  unfold escape_units. intros Hu. revert fuel. induction Hu as [|u input Hu _ IH]; intros fuel Hf; [by destruct fuel|].
  cbn [mbind list_bind] in *. rewrite length_app in Hf. assert (1 <= length (escape_unit u))%nat.
  { unfold escape_unit. destruct (_ && _); [simpl; lia|]. destruct (_ <=? _); simpl; lia. }
  destruct fuel as [|fuel]; [lia|]. rewrite unescape_unit, IH by (done || lia). done.
Qed.
End AnnexFacts.

(** ** Properties *)

(** [encodeURI] and [encodeURIComponent] fail exactly on strings with a lone
    surrogate, those that are the units of no text, and never panic. *)
Theorem uri_encode_exact input safe :
  Forall (λ u, u < 2^16) input →
  (is_ok (Uri.encode_uri_units input safe) ↔ UriFacts.well_formed input) ∧
  (¬ UriFacts.well_formed input → Uri.encode_uri_units input safe = Err Uri.URI_ERROR_MESSAGE).
Proof.
  intros Hu. destruct (UriFacts.encode_total input safe Hu) as [[Hok Hwf]|E]; [by split|].
  assert (¬ UriFacts.well_formed input) as Hn.
  { intros (text & Ht & ->). rewrite UriFacts.encode_utf16 in E by done. done. }
  split; [|done]. rewrite E. split; [by intros [? [=]]|done].
Qed.

(** What the encoders accept, the decoders give back: [decodeURI] after
    [encodeURI] and [decodeURIComponent] after [encodeURIComponent] are the
    identity. *)
Theorem uri_roundtrip input out :
  Forall (λ u, u < 2^16) input →
  (Uri.encode_uri input = Ok out → Uri.decode_uri out = Ok input) ∧
  (Uri.encode_uri_component input = Ok out → Uri.decode_uri_component out = Ok input).
Proof.
  intros Hu.
  assert (∀ safe preserve, Uri.percent ∉ safe → (preserve = true → ∀ c, c ∈ Uri.URI_RESERVED → c ∈ safe) →
    Uri.encode_uri_units input safe = Ok out → Uri.decode_uri_units out preserve = Ok input) as H.
  { intros safe preserve Hp Hr E. destruct (UriFacts.encode_total input safe Hu) as [[_ (text & Ht & ->)]|E']; [|by rewrite E' in E].
    rewrite UriFacts.encode_utf16 in E by done. injection E as <-. unfold Uri.decode_uri_units. by apply UriFacts.decode_encoded. }
  split; apply H; try done.
  - by apply (bool_decide_eq_false_1 (Uri.percent ∈ Uri.URI_SAFE)); vm_compute.
  - intros _. apply list.Forall_forall, (bool_decide_unpack (Forall (λ c, c ∈ Uri.URI_SAFE) Uri.URI_RESERVED)). by vm_compute.
  - by apply (bool_decide_eq_false_1 (Uri.percent ∈ Uri.URI_UNESCAPED)); vm_compute.
Qed.

(** On every input the two decoders end, and they fail on the same inputs. *)
Theorem uri_decode_errors input :
  (is_ok (Uri.decode_uri input) ∧ is_ok (Uri.decode_uri_component input)) ∨
  (Uri.decode_uri input = Err Uri.URI_ERROR_MESSAGE ∧ Uri.decode_uri_component input = Err Uri.URI_ERROR_MESSAGE).
Proof. by apply UriFacts.decode_cases. Qed.

(** [unescape] after [escape] gives back every string of 16-bit units, lone
    surrogates included. *)
Theorem escape_roundtrip input :
  Forall (λ u, u < 2^16) input → AnnexB.unescape_units (AnnexB.escape_units input) = Ok input.
Proof. intros Hu. by apply AnnexFacts.unescape_escape. Qed.

(** ** Witnesses *)

Lemma uri_encode_exact_witness :
  Uri.encode_uri_units [97; 0xD800] Uri.URI_SAFE = Err Uri.URI_ERROR_MESSAGE ∧ ¬ UriFacts.well_formed [97; 0xD800].
Proof.
  destruct (uri_encode_exact [97; 0xD800] Uri.URI_SAFE) as [[_ H] H']; [by repeat constructor|].
  assert (¬ UriFacts.well_formed [97; 0xD800]) as Hn by (intros Hw; destruct (H Hw) as [out E]; by vm_compute in E).
  split; [by apply H'|done].
Defined.

Lemma uri_roundtrip_witness :
  ∃ out, Uri.encode_uri [47; 0xD83D; 0xDE00; 37; 233] = Ok out ∧ Uri.decode_uri out = Ok [47; 0xD83D; 0xDE00; 37; 233].
Proof.
  destruct (Uri.encode_uri [47; 0xD83D; 0xDE00; 37; 233]) as [out| |] eqn:E; [|by vm_compute in E..]. exists out. split; [done|].
  destruct (uri_roundtrip [47; 0xD83D; 0xDE00; 37; 233] out) as [H _]; [by repeat constructor|]. by apply H.
Defined.

Lemma escape_roundtrip_witness :
  AnnexB.unescape_units (AnnexB.escape_units [0xD834; 37; 97; 200]) = Ok [0xD834; 37; 97; 200].
Proof. apply escape_roundtrip. by repeat constructor. Defined.
