(* ===== verification/Object.v ===== *)
(** * Objects (crates/oxide_types/src/object.rs, object/props.rs, object/prop_meta.rs)

    The header bits of an object, its four lazily allocated stores (array
    elements, their metadata, named properties, their metadata), and the
    operations on them.  A store is [None] while its pointer is null.  The
    theorems relate the stores to one abstract object: two lists of slots, each
    with a value and optional metadata. *)

From stdpp Require Import base tactics numbers list option gmap relations.
From Stdlib Require Import NArith ZArith Lia.
From S2P Require Import Prelude Value.
#[local] Set Warnings "-clear-no-such-hyp".

Open Scope N_scope.

Definition MAX_DENSE_PROPS : N := 1000000.

(** ** Property metadata *)

Module PropAttributes.
Definition WRITABLE : N := 1.
Definition ENUMERABLE : N := 2.
Definition CONFIGURABLE : N := 4.
Definition DEFAULT_DATA : N := N.lor (N.lor WRITABLE ENUMERABLE) CONFIGURABLE.

Definition new (writable enumerable configurable : bool) : N :=
  let bits := 0 in
  let bits := if writable then N.lor bits WRITABLE else bits in
  let bits := if enumerable then N.lor bits ENUMERABLE else bits in
  if configurable then N.lor bits CONFIGURABLE else bits.

Definition writable (self : N) : bool := negb (N.land self WRITABLE =? 0).
Definition enumerable (self : N) : bool := negb (N.land self ENUMERABLE =? 0).
Definition configurable (self : N) : bool := negb (N.land self CONFIGURABLE =? 0).
End PropAttributes.

Module PropMeta.
Record entry := mkEntry {
  attributes : N;
  get : JsValue.t;
  set : JsValue.t;
  is_accessor : bool;
  hole : bool;
}.

Definition data (attributes : N) : entry := mkEntry attributes JsValue.undefined JsValue.undefined false false.
Definition accessor (get set : JsValue.t) (attributes : N) : entry := mkEntry attributes get set true false.
Definition hole_entry : entry := mkEntry PropAttributes.DEFAULT_DATA JsValue.undefined JsValue.undefined false true.
Definition is_hole (e : entry) : bool := hole e.
End PropMeta.

(** ** Objects *)

(** The fields of [JsObject] that no operation of this file reads (the type tag,
    the native function and data pointers, the function fields, the boxed
    primitive, the two RegExp strings and the captured cells) are left out. *)
Module JsObject.
Record t := mkObject {
  header : N;
  pad : N;
  epoch : N;
  deferred_flags : N;
  array_elements : option (list JsValue.t);
  array_elements_meta : option (list (option PropMeta.entry));
  hash_props : option (list JsValue.t);
  prop_meta : option (list (option PropMeta.entry));
  proto : JsValue.t;
  generation : N;
  array_prop_count : N;
  array_len_override : N;
}.

(** One field changed. *)
Definition with_header o h := mkObject h (pad o) (epoch o) (deferred_flags o) (array_elements o) (array_elements_meta o) (hash_props o) (prop_meta o) (proto o) (generation o) (array_prop_count o) (array_len_override o).
Definition with_pad o p := mkObject (header o) p (epoch o) (deferred_flags o) (array_elements o) (array_elements_meta o) (hash_props o) (prop_meta o) (proto o) (generation o) (array_prop_count o) (array_len_override o).
Definition with_epoch o e := mkObject (header o) (pad o) e (deferred_flags o) (array_elements o) (array_elements_meta o) (hash_props o) (prop_meta o) (proto o) (generation o) (array_prop_count o) (array_len_override o).
Definition with_deferred o d := mkObject (header o) (pad o) (epoch o) d (array_elements o) (array_elements_meta o) (hash_props o) (prop_meta o) (proto o) (generation o) (array_prop_count o) (array_len_override o).
Definition with_elements o v := mkObject (header o) (pad o) (epoch o) (deferred_flags o) v (array_elements_meta o) (hash_props o) (prop_meta o) (proto o) (generation o) (array_prop_count o) (array_len_override o).
Definition with_elements_meta o v := mkObject (header o) (pad o) (epoch o) (deferred_flags o) (array_elements o) v (hash_props o) (prop_meta o) (proto o) (generation o) (array_prop_count o) (array_len_override o).
Definition with_props o v := mkObject (header o) (pad o) (epoch o) (deferred_flags o) (array_elements o) (array_elements_meta o) v (prop_meta o) (proto o) (generation o) (array_prop_count o) (array_len_override o).
Definition with_meta o v := mkObject (header o) (pad o) (epoch o) (deferred_flags o) (array_elements o) (array_elements_meta o) (hash_props o) v (proto o) (generation o) (array_prop_count o) (array_len_override o).
Definition with_proto o p := mkObject (header o) (pad o) (epoch o) (deferred_flags o) (array_elements o) (array_elements_meta o) (hash_props o) (prop_meta o) p (generation o) (array_prop_count o) (array_len_override o).
Definition with_generation o g := mkObject (header o) (pad o) (epoch o) (deferred_flags o) (array_elements o) (array_elements_meta o) (hash_props o) (prop_meta o) (proto o) g (array_prop_count o) (array_len_override o).
Definition with_count o n := mkObject (header o) (pad o) (epoch o) (deferred_flags o) (array_elements o) (array_elements_meta o) (hash_props o) (prop_meta o) (proto o) (generation o) n (array_len_override o).
Definition with_override o n := mkObject (header o) (pad o) (epoch o) (deferred_flags o) (array_elements o) (array_elements_meta o) (hash_props o) (prop_meta o) (proto o) (generation o) (array_prop_count o) n.

(** *** Header *)

(** [h |= 1 << k] or [h &= !(1 << k)], and [(h >> k) & 1 != 0]. *)
Definition put_bit (h k : N) (b : bool) : N := if b then N.lor h (N.shiftl 1 k) else N.ldiff h (N.shiftl 1 k).
Definition get_bit (h k : N) : bool := negb (N.land (N.shiftr h k) 1 =? 0).

Definition shape_id (o : t) : N := N.land (header o) 0x00FFFFFF.
Definition set_shape_id (o : t) (id : N) : t :=
  with_header o (N.lor (N.ldiff (header o) 0x00FFFFFF) (N.land id 0x00FFFFFF)).

Definition is_set (o : t) := get_bit (header o) 24.
Definition set_set (o : t) (s : bool) : t := with_header o (put_bit (header o) 24 s).
Definition is_map (o : t) := get_bit (header o) 25.
Definition set_map (o : t) (m : bool) : t := with_header o (put_bit (header o) 25 m).
Definition is_derived_constructor (o : t) := get_bit (header o) 26.
Definition set_derived_constructor (o : t) (v : bool) : t := with_header o (put_bit (header o) 26 v).
Definition is_class_constructor (o : t) := get_bit (header o) 27.
Definition set_class_constructor (o : t) (v : bool) : t := with_header o (put_bit (header o) 27 v).
Definition is_arrow (o : t) := get_bit (header o) 28.
Definition set_arrow (o : t) (v : bool) : t := with_header o (put_bit (header o) 28 v).
Definition is_array (o : t) := get_bit (header o) 29.
Definition is_extensible (o : t) := get_bit (header o) 30.
Definition set_extensible (o : t) (ext : bool) : t := with_header o (put_bit (header o) 30 ext).
Definition is_function (o : t) := get_bit (header o) 31.
Definition set_function (o : t) (f : bool) : t := with_header o (put_bit (header o) 31 f).

Definition is_frozen (o : t) := negb (N.land (pad o) 1 =? 0).
Definition set_frozen (o : t) (frozen : bool) : t := with_pad o (put_bit (pad o) 0 frozen).
Definition is_sealed (o : t) := get_bit (pad o) 1.
Definition set_sealed (o : t) (sealed : bool) : t := with_pad o (put_bit (pad o) 1 sealed).
Definition is_module_namespace (o : t) := get_bit (pad o) 2.
Definition set_module_namespace (o : t) (value : bool) : t := with_pad o (put_bit (pad o) 2 value).
Definition is_length_writable (o : t) := negb (is_frozen o) && (N.land (N.shiftr (pad o) 3) 1 =? 0).
Definition set_length_non_writable (o : t) (non_writable : bool) : t := with_pad o (put_bit (pad o) 3 non_writable).

Definition is_deferred (o : t) := negb (N.land (deferred_flags o) 1 =? 0).
Definition set_deferred (o : t) (value : bool) : t := with_deferred o (if value then N.lor (deferred_flags o) 1 else N.ldiff (deferred_flags o) 1).

Definition SESSION_EPOCH_BIT : N := 0x01.
Definition GC_MARK_BIT : N := 0x02.
Definition HEAP_BIT : N := 0x08.
Definition is_session_epoch (o : t) := negb (N.land (epoch o) SESSION_EPOCH_BIT =? 0).
Definition set_session_epoch (o : t) (value : bool) : t :=
  with_epoch o (if value then N.lor (epoch o) SESSION_EPOCH_BIT else N.ldiff (epoch o) SESSION_EPOCH_BIT).
Definition is_gc_marked (o : t) := negb (N.land (epoch o) GC_MARK_BIT =? 0).
Definition set_gc_mark (o : t) (marked : bool) : t :=
  with_epoch o (if marked then N.lor (epoch o) GC_MARK_BIT else N.ldiff (epoch o) GC_MARK_BIT).
Definition is_heap_alloc (o : t) := negb (N.land (epoch o) HEAP_BIT =? 0).
Definition set_heap_alloc (o : t) (value : bool) : t :=
  with_epoch o (if value then N.lor (epoch o) HEAP_BIT else N.ldiff (epoch o) HEAP_BIT).

Definition bump_generation (o : t) : t := with_generation o (u32 (generation o + 1)).

(** *** Construction *)

Definition new_empty (shape_id : N) (proto : JsValue.t) : t :=
  mkObject (N.lor (N.land shape_id 0x00FFFFFF) (N.shiftl 1 30)) 0 0 0 None None None None proto 1 0 0.

Definition new_array (shape_id : N) (proto : JsValue.t) (n_elements : N) : t :=
  mkObject (N.lor (N.lor (N.land shape_id 0x00FFFFFF) (N.shiftl 1 30)) (N.shiftl 1 29)) 0 0 0
    (Some (replicate (N.to_nat (N.min n_elements MAX_DENSE_PROPS)) JsValue.undefined)) None None None proto 1
    (u32 (N.min n_elements MAX_DENSE_PROPS)) (if MAX_DENSE_PROPS <? n_elements then u32 n_elements else 0).

Definition release_raw_heap (o : t) : t :=
  with_meta (with_props (with_elements_meta (with_elements o None) None) None) None.

(** *** Stores *)

(** [while v.len() < n { v.push(x) }]. *)
Definition grow {A} (l : list A) (n : N) (x : A) : list A := l ++ replicate (N.to_nat n - length l) x.

Definition prop_vec_len (o : t) : N := match hash_props o with Some v => N.of_nat (length v) | None => 0 end.

Definition prop_count (o : t) : N := if is_array o then array_prop_count o else u32 (prop_vec_len o).

Definition logical_len (o : t) : N :=
  if negb (array_len_override o =? 0) then array_len_override o else array_prop_count o.
Definition set_array_len_override (o : t) (len : N) : t := with_override o len.
Definition clear_array_len_override (o : t) : t := with_override o 0.

(** [l as f64], exact for a [u32]. *)
Definition u32_to_f64 (l : N) : N :=
  if l =? 0 then 0 else N.lor (N.shiftl (1023 + N.log2 l) 52) (N.shiftl (l - 2 ^ N.log2 l) (52 - N.log2 l)).
Definition logical_len_value (o : t) : JsValue.t :=
  let l := logical_len o in if l <=? 2^31 - 1 then JsValue.int (Z.of_N l) else JsValue.float (u32_to_f64 l).

Definition ensure_hash_props (o : t) : list JsValue.t * t :=
  let v := default [] (hash_props o) in (v, with_props o (Some v)).

Definition ensure_array_elements (o : t) : list JsValue.t * t :=
  let v := grow (default [] (array_elements o)) (array_prop_count o) JsValue.undefined in (v, with_elements o (Some v)).

Definition ensure_array_elements_meta (o : t) : list (option PropMeta.entry) * t :=
  let m := default (replicate (N.to_nat (array_prop_count o)) None) (array_elements_meta o) in
  let m := grow m (array_prop_count o) None in (m, with_elements_meta o (Some m)).

Definition ensure_prop_meta (o : t) : list (option PropMeta.entry) * t :=
  let m := default (replicate (N.to_nat (prop_vec_len o)) None) (prop_meta o) in (m, with_meta o (Some m)).

Definition has_prop_meta (o : t) : bool := bool_decide (is_Some (prop_meta o)) || bool_decide (is_Some (array_elements_meta o)).

(** [count] is [count.to_u32() as usize]. *)
Definition set_prop_count (o : t) (target : N) : t :=
  if is_array o then
    let old := array_prop_count o in
    let '(vec, o) := ensure_array_elements o in
    let vec := if old <? target then vec ++ replicate (N.to_nat (target - old)) JsValue.undefined
               else if target <? old then take (N.to_nat target) vec else vec in
    let o := with_elements o (Some vec) in
    let meta := (λ meta, if old <? target then meta ++ replicate (N.to_nat (target - old)) None
                         else if target <? old then take (N.to_nat target) meta else meta) <$> array_elements_meta o in
    with_count (with_elements_meta o meta) target
  else
    let '(vec, o) := ensure_hash_props o in
    let vec := if target <? N.of_nat (length vec) then take (N.to_nat target) vec else grow vec target JsValue.undefined in
    let o := with_props o (Some vec) in
    let meta := (λ meta, if target <? N.of_nat (length meta) then take (N.to_nat target) meta else grow meta target None)
                <$> prop_meta o in
    with_meta o meta.

Definition set_prop_count_fast (o : t) (count : N) : t := set_prop_count o count.

Definition prop_meta_at (o : t) (pos : N) : option PropMeta.entry :=
  if is_array o then
    let count := array_prop_count o in
    if pos <? count then mjoin (mjoin ((λ m, m !! N.to_nat pos) <$> array_elements_meta o))
    else mjoin (mjoin ((λ m, m !! N.to_nat (pos - count)) <$> prop_meta o))
  else mjoin (mjoin ((λ m, m !! N.to_nat pos) <$> prop_meta o)).

Definition set_meta_at (o : t) (pos : N) (e : PropMeta.entry) : res t :=
  if is_array o then
    let count := array_prop_count o in
    if pos <? count then
      let '(meta, o) := ensure_array_elements_meta o in
      let* meta := vec_set (grow meta (pos + 1) None) (N.to_nat pos) (Some e) in Ok (with_elements_meta o (Some meta))
    else
      let np := pos - count in
      let '(meta, o) := ensure_prop_meta o in
      let* meta := vec_set (grow meta (np + 1) None) (N.to_nat np) (Some e) in Ok (with_meta o (Some meta))
  else
    let o := if prop_vec_len o <=? pos then set_prop_count o (u32 (pos + 1)) else o in
    let '(meta, o) := ensure_prop_meta o in
    let* meta := vec_set (grow meta (pos + 1) None) (N.to_nat pos) (Some e) in Ok (with_meta o (Some meta)).

Definition set_data_meta (o : t) (pos attributes : N) : res t := set_meta_at o pos (PropMeta.data attributes).
Definition set_accessor_meta (o : t) (pos : N) (get set : JsValue.t) (attributes : N) : res t :=
  set_meta_at o pos (PropMeta.accessor get set attributes).
Definition set_private_method_meta (o : t) (pos : N) : res t := set_meta_at o pos PropMeta.hole_entry.
Definition is_accessor_meta (o : t) (pos : N) : bool :=
  match prop_meta_at o pos with Some e => PropMeta.is_accessor e | None => false end.

(** [if meta.get(i) is a hole { meta[i] = None }]. *)
Definition unmark (meta : list (option PropMeta.entry)) (i : N) : list (option PropMeta.entry) :=
  match mjoin (meta !! N.to_nat i) with
  | Some e => if PropMeta.is_hole e then <[N.to_nat i := None]> meta else meta
  | None => meta
  end.

Definition clear_hole_marker (o : t) (pos : N) : t :=
  if is_array o then
    let count := array_prop_count o in
    if pos <? count then with_elements_meta o ((λ m, unmark m pos) <$> array_elements_meta o)
    else with_meta o ((λ m, unmark m (pos - count)) <$> prop_meta o)
  else with_meta o ((λ m, unmark m pos) <$> prop_meta o).

Definition get_prop_at (o : t) (pos : N) : JsValue.t :=
  if is_array o then
    let count := array_prop_count o in
    if pos <? count then default JsValue.undefined (mjoin ((λ v, v !! N.to_nat pos) <$> array_elements o))
    else default JsValue.undefined (mjoin ((λ v, v !! N.to_nat (pos - count)) <$> hash_props o))
  else default JsValue.undefined (mjoin ((λ v, v !! N.to_nat pos) <$> hash_props o)).

(** The slots from [old] to [pos] of a grown array become holes. *)
Definition mark_gap (meta : list (option PropMeta.entry)) (old pos : N) : list (option PropMeta.entry) :=
  imap (λ i e, if bool_decide (N.to_nat old <= i < N.to_nat pos)%nat then Some PropMeta.hole_entry else e) meta.

Definition set_prop_at (o : t) (pos : N) (val : JsValue.t) : res t :=
  if MAX_DENSE_PROPS <? pos then Ok o
  else if is_array o then
    let o :=
      if array_prop_count o <=? pos then
        let old := array_prop_count o in
        let o := set_prop_count o (u32 (pos + 1)) in
        if old <? pos then
          let '(meta, o) := ensure_array_elements_meta o in with_elements_meta o (Some (mark_gap meta old pos))
        else o
      else o in
    let '(vec, o) := ensure_array_elements o in
    let* vec := vec_set vec (N.to_nat pos) val in
    Ok (bump_generation (clear_hole_marker (with_elements o (Some vec)) pos))
  else
    let '(vec, o) := ensure_hash_props o in
    let vec := if pos <? N.of_nat (length vec) then <[N.to_nat pos := val]> vec
               else grow vec pos JsValue.undefined ++ [val] in
    let o := with_props o (Some vec) in
    Ok (bump_generation (with_meta o ((λ m, grow m (pos + 1) None) <$> prop_meta o))).

Definition mark_hole_at (o : t) (pos : N) : res t :=
  if is_array o then
    if pos <? array_prop_count o then
      let '(vec, o) := ensure_array_elements o in
      let vec := if N.of_nat (length vec) <=? pos then vec ++ [JsValue.undefined] else vec in
      let* vec := vec_set vec (N.to_nat pos) JsValue.undefined in
      let '(meta, o) := ensure_array_elements_meta (with_elements o (Some vec)) in
      let* meta := vec_set (grow meta (pos + 1) None) (N.to_nat pos) (Some PropMeta.hole_entry) in
      Ok (with_elements_meta o (Some meta))
    else Ok o
  else
    let o := if prop_vec_len o <=? pos then set_prop_count o (u32 (pos + 1)) else o in
    let* o := set_prop_at o pos JsValue.undefined in
    let '(meta, o) := ensure_prop_meta o in
    let* meta := vec_set (grow meta (pos + 1) None) (N.to_nat pos) (Some PropMeta.hole_entry) in
    Ok (with_meta o (Some meta)).

Definition set_prop_storage (o : t) (idx : N) (val : JsValue.t) : res t :=
  if is_array o then
    let count := array_prop_count o in
    if idx <? count then
      let '(vec, o) := ensure_array_elements o in
      let vec := if N.of_nat (length vec) <=? idx then vec ++ [JsValue.undefined] else vec in
      let* vec := vec_set vec (N.to_nat idx) val in
      Ok (bump_generation (clear_hole_marker (with_elements o (Some vec)) idx))
    else
      let np := idx - count in
      let '(vec, o) := ensure_hash_props o in
      let* vec := vec_set (grow vec (np + 1) JsValue.undefined) (N.to_nat np) val in
      let o := clear_hole_marker (with_props o (Some vec)) idx in
      Ok (bump_generation (with_meta o ((λ m, grow m (np + 1) None) <$> prop_meta o)))
  else
    let '(vec, o) := ensure_hash_props o in
    let* vec := vec_set (grow vec (idx + 1) JsValue.undefined) (N.to_nat idx) val in
    let o := clear_hole_marker (with_props o (Some vec)) idx in
    Ok (bump_generation (with_meta o ((λ m, grow m (idx + 1) None) <$> prop_meta o))).

(** [shape_pos] counts in the named properties. *)
Definition storage_index (o : t) (shape_pos : N) : N :=
  if is_array o then array_prop_count o + shape_pos else shape_pos.
Definition set_prop_shape (o : t) (shape_pos : N) (val : JsValue.t) : res t := set_prop_storage o (storage_index o shape_pos) val.
Definition get_prop_shape (o : t) (shape_pos : N) : JsValue.t := get_prop_at o (u32 (storage_index o shape_pos)).

Definition push_prop (o : t) (val : JsValue.t) : N * t :=
  let pos := if is_array o then array_prop_count o + prop_vec_len o else prop_vec_len o in
  let '(vec, o) := ensure_hash_props o in
  let o := with_props o (Some (vec ++ [val])) in
  (u32 pos, with_meta o ((λ m, m ++ [None]) <$> prop_meta o)).

Definition clear_props (o : t) : t :=
  let o := with_elements o ((λ _, []) <$> array_elements o) in
  let o := with_elements_meta o ((λ _, []) <$> array_elements_meta o) in
  let o := with_props o ((λ _, []) <$> hash_props o) in
  let o := with_meta o ((λ _, []) <$> prop_meta o) in
  with_count o 0.

Definition clear_named_props (o : t) : t :=
  let o := with_props o ((λ _, []) <$> hash_props o) in
  with_meta o ((λ _, []) <$> prop_meta o).
End JsObject.

(** ** Flags *)

(** The one-bit fields of the header, of the pad byte, of the epoch byte and of
    the deferred byte, with the setter and the reader of each. *)
Inductive flag :=
  | FSet | FMap | FDerived | FClass | FArrow | FExtensible | FFunction
  | FFrozen | FSealed | FNamespace | FLengthReadOnly
  | FSession | FMark | FHeap | FDeferred.

#[export] Instance flag_eq_dec : EqDecision flag.
Proof. solve_decision. Defined.

Definition set_flag (f : flag) : JsObject.t → bool → JsObject.t :=
  match f with
  | FSet => JsObject.set_set | FMap => JsObject.set_map | FDerived => JsObject.set_derived_constructor
  | FClass => JsObject.set_class_constructor | FArrow => JsObject.set_arrow
  | FExtensible => JsObject.set_extensible | FFunction => JsObject.set_function
  | FFrozen => JsObject.set_frozen | FSealed => JsObject.set_sealed | FNamespace => JsObject.set_module_namespace
  | FLengthReadOnly => JsObject.set_length_non_writable
  | FSession => JsObject.set_session_epoch | FMark => JsObject.set_gc_mark | FHeap => JsObject.set_heap_alloc
  | FDeferred => JsObject.set_deferred
  end.

(** A frozen array's length is read-only whatever its own bit says. *)
Definition get_flag (f : flag) (o : JsObject.t) : bool :=
  match f with
  | FSet => JsObject.is_set o | FMap => JsObject.is_map o | FDerived => JsObject.is_derived_constructor o
  | FClass => JsObject.is_class_constructor o | FArrow => JsObject.is_arrow o
  | FExtensible => JsObject.is_extensible o | FFunction => JsObject.is_function o
  | FFrozen => JsObject.is_frozen o | FSealed => JsObject.is_sealed o | FNamespace => JsObject.is_module_namespace o
  | FLengthReadOnly => negb (JsObject.is_length_writable (JsObject.set_frozen o false))
  | FSession => JsObject.is_session_epoch o | FMark => JsObject.is_gc_marked o | FHeap => JsObject.is_heap_alloc o
  | FDeferred => JsObject.is_deferred o
  end.

(** ** The abstract object *)

(** A slot: its value and its metadata, if it has any. *)
Abbreviation slot := (JsValue.t * option PropMeta.entry)%type.
Definition fresh : slot := (JsValue.undefined, None).
Definition gap : slot := (JsValue.undefined, Some PropMeta.hole_entry).

Record absobj := mkAbs { a_array : bool; elems : list slot; named : list slot }.

(** Writing a value removes a hole mark. *)
Definition unhole (m : option PropMeta.entry) : option PropMeta.entry :=
  match m with Some e => if PropMeta.is_hole e then None else m | None => None end.

(** The list with a slot at [i], and that slot changed. *)
Definition put (i : nat) (f : slot → slot) (l : list slot) : list slot :=
  alter f i (l ++ replicate (S i - length l) fresh).

Inductive obj_op :=
  | OCount (n : N)
  | OSetAt (pos : N) (v : JsValue.t)
  | OStorage (idx : N) (v : JsValue.t)
  | OShape (pos : N) (v : JsValue.t)
  | OPush (v : JsValue.t)
  | OHole (pos : N)
  | OMeta (pos : N) (e : PropMeta.entry)
  | OClear
  | OClearNamed
  | ORelease.

Definition exec (o : JsObject.t) (op : obj_op) : res JsObject.t :=
  match op with
  | OCount n => Ok (JsObject.set_prop_count o n)
  | OSetAt pos v => JsObject.set_prop_at o pos v
  | OStorage idx v => JsObject.set_prop_storage o idx v
  | OShape pos v => JsObject.set_prop_shape o pos v
  | OPush v => Ok (JsObject.push_prop o v).2
  | OHole pos => JsObject.mark_hole_at o pos
  | OMeta pos e => JsObject.set_meta_at o pos e
  | OClear => Ok (JsObject.clear_props o)
  | OClearNamed => Ok (JsObject.clear_named_props o)
  | ORelease => Ok (JsObject.release_raw_heap o)
  end.

Definition count (a : absobj) : N := N.of_nat (length (elems a)).
Definition set_elems (a : absobj) (l : list slot) : absobj := mkAbs (a_array a) l (named a).
Definition set_named (a : absobj) (l : list slot) : absobj := mkAbs (a_array a) (elems a) l.

(** Where a storage index leads: the elements come first. *)
Definition at_storage (a : absobj) (idx : N) (f : slot → slot) : absobj :=
  if a_array a && (idx <? count a) then set_elems a (alter f (N.to_nat idx) (elems a))
  else set_named a (put (N.to_nat (if a_array a then idx - count a else idx)) f (named a)).

Definition abs_exec (a : absobj) (op : obj_op) : absobj :=
  match op with
  | OCount n =>
      if a_array a then set_elems a (resize (N.to_nat n) fresh (elems a)) else set_named a (resize (N.to_nat n) fresh (named a))
  | OSetAt pos v =>
      if MAX_DENSE_PROPS <? pos then a
      else if a_array a then
        set_elems a (if pos <? count a then alter (λ s, (v, unhole s.2)) (N.to_nat pos) (elems a)
                     else elems a ++ replicate (N.to_nat pos - length (elems a)) gap ++ [(v, None)])
      else set_named a (put (N.to_nat pos) (λ s, (v, s.2)) (named a))
  | OStorage idx v => at_storage a idx (λ s, (v, unhole s.2))
  | OShape pos v => set_named a (put (N.to_nat pos) (λ s, (v, unhole s.2)) (named a))
  | OPush v => set_named a (named a ++ [(v, None)])
  | OHole pos =>
      if a_array a then set_elems a (alter (λ _, gap) (N.to_nat pos) (elems a))
      else set_named a (put (N.to_nat pos) (λ s, (if MAX_DENSE_PROPS <? pos then s.1 else JsValue.undefined,
                                                  Some PropMeta.hole_entry)) (named a))
  | OMeta pos e => at_storage a pos (λ s, (s.1, Some e))
  | OClear => mkAbs (a_array a) [] []
  | OClearNamed => set_named a []
  | ORelease => mkAbs (a_array a) (replicate (length (elems a)) fresh) []
  end.

(** The two ways an object begins. *)
Inductive origin := Plain | Array (n : N).
Definition created (shape_id : N) (proto : JsValue.t) (k : origin) : JsObject.t :=
  match k with Plain => JsObject.new_empty shape_id proto | Array n => JsObject.new_array shape_id proto n end.
Definition abs_created (k : origin) : absobj :=
  match k with Plain => mkAbs false [] [] | Array n => mkAbs true (replicate (N.to_nat (N.min n MAX_DENSE_PROPS)) fresh) [] end.

(** What the callers of the operations see to. *)
Definition op_ok (a : absobj) (op : obj_op) : bool :=
  match op with
  | OCount n => n <? 2^32
  | OMeta pos _ => if a_array a then pos <? count a + N.of_nat (length (named a)) else pos + 1 <? 2^32
  | OHole pos => a_array a || (pos + 1 <? 2^32)
  | _ => true
  end.

Fixpoint ops_ok (a : absobj) (ops : list obj_op) : bool :=
  match ops with [] => true | op :: ops => op_ok a op && ops_ok (abs_exec a op) ops end.

Definition abs_get (a : absobj) (pos : N) : slot :=
  default fresh (if a_array a && (pos <? count a) then elems a !! N.to_nat pos
                 else named a !! N.to_nat (if a_array a then pos - count a else pos)).

(** ** Stores and slots *)

Module ObjectFacts.
Import JsObject.

(** A store as if it were allocated. *)
Definition full {A} (s : option (list A)) (n : nat) (x : A) : list A := match s with Some l => l | None => replicate n x end.

Definition E (o : t) := full (array_elements o) (N.to_nat (array_prop_count o)) JsValue.undefined.
Definition ME (o : t) := full (array_elements_meta o) (N.to_nat (array_prop_count o)) None.
Definition P (o : t) := default [] (hash_props o).
Definition MP (o : t) := full (prop_meta o) (length (P o)) None.

Definition abs (o : t) : absobj := mkAbs (is_array o) (zip (E o) (ME o)) (zip (P o) (MP o)).

Record obj_ok (o : t) : Prop := {
  ok_E : length (E o) = N.to_nat (array_prop_count o);
  ok_ME : length (ME o) = N.to_nat (array_prop_count o);
  ok_MP : length (MP o) = length (P o);
  ok_plain : is_array o = false → array_prop_count o = 0;
}.

Section lists.
Context {A B : Type}.

Lemma zip_resize n (x : A) (y : B) l k : length l = length k → zip (resize n x l) (resize n y k) = resize n (x, y) (zip l k).
Proof.
  intros Hl. rewrite !resize_spec. rewrite zip_with_app by (rewrite !length_take; lia). rewrite zip_with_take, length_zip_with.
  f_equal. rewrite Hl, Nat.min_id. generalize (n - length k)%nat. induction n0; [done|]. simpl. by f_equal.
Qed.

Lemma zip_insert i (x : A) (y : B) l k : zip (<[i := x]> l) (<[i := y]> k) = <[i := (x, y)]> (zip l k).
Proof.
  revert l k. induction i as [|i IH]; intros [|a l] [|b k]; try done. simpl. f_equal. apply IH.
Qed.

Lemma zip_replicate n (x : A) (y : B) : zip (replicate n x) (replicate n y) = replicate n (x, y).
Proof. induction n as [|n IH]; [done|]. simpl. by f_equal. Qed.

Lemma zip_lookup i (l : list A) (k : list B) x y : l !! i = Some x → k !! i = Some y → zip l k !! i = Some (x, y).
Proof. intros Hx Hy. rewrite lookup_zip_with, Hx. simpl. by rewrite Hy. Qed.

Lemma zip_alter i (f : A * B → A * B) l k x y : l !! i = Some x → k !! i = Some y →
  alter f i (zip l k) = zip (<[i := (f (x, y)).1]> l) (<[i := (f (x, y)).2]> k).
Proof.
  intros Hx Hy. rewrite zip_insert, <- surjective_pairing. pose proof (zip_lookup i l k x y Hx Hy) as Hz.
  apply list_eq. intros j. destruct (decide (j = i)) as [->|Hne].
  - rewrite list_lookup_alter_eq, Hz, list_lookup_insert_eq; [done|]. by eapply lookup_lt_Some.
  - by rewrite list_lookup_alter_ne, list_lookup_insert_ne.
Qed.

Lemma grow_full (l : list A) n x : length l = N.to_nat n → grow l n x = l.
Proof. intros Hl. unfold grow. rewrite Hl, Nat.sub_diag. apply app_nil_r. Qed.

Lemma grow_resize (l : list A) n x : (length l <= N.to_nat n)%nat → grow l n x = resize (N.to_nat n) x l.
Proof. intros Hl. unfold grow. rewrite resize_spec, take_ge by done. done. Qed.
End lists.

(** All the operations read of the stores. *)
Definition cols (o : t) := (is_array o, array_prop_count o, E o, ME o, P o, MP o).

(** The columns after an operation that ends with [o']. *)
Definition cols_are (o' : t) (arr : bool) (n : N) (e : list JsValue.t) (me : list (option PropMeta.entry))
    (p : list JsValue.t) (mp : list (option PropMeta.entry)) : Prop := cols o' = (arr, n, e, me, p, mp).

Lemma cols_ok o' arr n e me p mp :
  cols_are o' arr n e me p mp → length e = N.to_nat n → length me = N.to_nat n → length mp = length p →
  (arr = false → n = 0) → obj_ok o' ∧ abs o' = mkAbs arr (zip e me) (zip p mp).
Proof. unfold cols_are, cols. intros [= <- <- <- <- <- <-] H1 H2 H3 H4. done. Qed.

Lemma cols_intro o' arr n e me p mp :
  is_array o' = arr → array_prop_count o' = n → E o' = e → ME o' = me → P o' = p → MP o' = mp → cols_are o' arr n e me p mp.
Proof. by intros <- <- <- <- <- <-. Qed.

Lemma cols_elim o' arr n e me p mp : cols_are o' arr n e me p mp →
  is_array o' = arr ∧ array_prop_count o' = n ∧ E o' = e ∧ ME o' = me ∧ P o' = p ∧ MP o' = mp.
Proof. unfold cols_are, cols. by intros [= -> -> -> -> -> ->]. Qed.

(** Allocating a store changes nothing. *)
Lemma ensure_elements_ok o : obj_ok o → ensure_array_elements o = (E o, with_elements o (Some (E o))).
Proof.
  intros Hok. unfold ensure_array_elements. assert (grow (default [] (array_elements o)) (array_prop_count o) JsValue.undefined = E o) as ->; [|done].
  pose proof (ok_E _ Hok) as Hl. unfold E in *. destruct (array_elements o) as [l|]; simpl in *; [by apply grow_full|].
  unfold grow. by rewrite Nat.sub_0_r.
Qed.

Lemma ensure_elements_meta_ok o : obj_ok o → ensure_array_elements_meta o = (ME o, with_elements_meta o (Some (ME o))).
Proof.
  intros Hok. unfold ensure_array_elements_meta.
  assert (grow (default (replicate (N.to_nat (array_prop_count o)) None) (array_elements_meta o)) (array_prop_count o) None = ME o) as ->; [|done].
  pose proof (ok_ME _ Hok) as Hl. unfold ME in *. destruct (array_elements_meta o) as [l|]; simpl in *; by apply grow_full.
Qed.

Lemma ensure_meta_ok o : ensure_prop_meta o = (MP o, with_meta o (Some (MP o))).
Proof.
  unfold ensure_prop_meta. assert (default (replicate (N.to_nat (prop_vec_len o)) None) (prop_meta o) = MP o) as ->; [|done].
  unfold MP, P, prop_vec_len. destruct (prop_meta o); [done|]. simpl. destruct (hash_props o); simpl; [by rewrite Nat2N.id|done].
Qed.

Lemma prop_vec_len_eq o : prop_vec_len o = N.of_nat (length (P o)).
Proof. unfold prop_vec_len, P. by destruct (hash_props o). Qed.

Lemma full_map {A} (s : option (list A)) (n n' : nat) (x : A) (f : list A → list A) :
  f (replicate n x) = replicate n' x → full (f <$> s) n' x = f (full s n x).
Proof. intros H. destruct s; [done|]. symmetry. exact H. Qed.

(** Growing or cutting a column. *)
Lemma column_resize {A} (l : list A) old target x : length l = N.to_nat old →
  (if old <? target then l ++ replicate (N.to_nat (target - old)) x else if target <? old then take (N.to_nat target) l else l) =
    resize (N.to_nat target) x l.
Proof.
  intros Hl. rewrite resize_spec. destruct (N.ltb_spec old target); [|destruct (N.ltb_spec target old)].
  - rewrite take_ge by lia. repeat f_equal. lia.
  - replace (N.to_nat target - length l)%nat with 0%nat by lia. by rewrite app_nil_r.
  - rewrite take_ge by lia. replace (N.to_nat target - length l)%nat with 0%nat by lia. by rewrite app_nil_r.
Qed.

Lemma column_resize_named {A} (l : list A) target x :
  (if target <? N.of_nat (length l) then take (N.to_nat target) l else grow l target x) = resize (N.to_nat target) x l.
Proof.
  destruct (N.ltb_spec target (N.of_nat (length l))); [|rewrite grow_resize by lia; done].
  rewrite resize_spec. replace (N.to_nat target - length l)%nat with 0%nat by lia. by rewrite app_nil_r.
Qed.

Lemma set_prop_count_cols o target : obj_ok o →
  if is_array o
  then cols_are (set_prop_count o target) true target (resize (N.to_nat target) JsValue.undefined (E o))
         (resize (N.to_nat target) None (ME o)) (P o) (MP o)
  else cols_are (set_prop_count o target) false (array_prop_count o) (E o) (ME o)
         (resize (N.to_nat target) JsValue.undefined (P o)) (resize (N.to_nat target) None (MP o)).
Proof.
  intros Hok. destruct (is_array o) eqn:Ea; unfold set_prop_count; rewrite Ea.
  - rewrite ensure_elements_ok by done. apply cols_intro; [done|done| | |done|done].
    + unfold E at 1. cbn. by rewrite column_resize by apply ok_E, Hok.
    + unfold ME at 1. cbn. rewrite (full_map _ (N.to_nat (array_prop_count o))).
      * rewrite column_resize; [done|]. by apply ok_ME.
      * rewrite column_resize by apply length_replicate. apply resize_replicate.
  - unfold ensure_hash_props. fold (P o). apply cols_intro; [done|done|done|done| |].
    + unfold P at 1. cbn. apply column_resize_named.
    + unfold MP at 1. cbn. rewrite (full_map _ (length (P o))).
      * apply column_resize_named.
      * unfold P at 3. cbn. rewrite !column_resize_named, resize_replicate, length_resize. done.
Qed.

(** *** Columns of the writes *)

Lemma unmark_lookup m i x : m !! N.to_nat i = Some x → unmark m i = <[N.to_nat i := unhole x]> m.
Proof.
  intros Hx. unfold unmark. rewrite Hx. cbn. destruct x as [e|]; cbn; [|symmetry; by apply list_insert_id].
  destruct (PropMeta.is_hole e) eqn:Eh; [done|]. symmetry. by apply list_insert_id.
Qed.

Lemma unmark_ge m i : (length m <= N.to_nat i)%nat → unmark m i = m.
Proof. intros Hl. unfold unmark. by rewrite lookup_ge_None_2. Qed.

Lemma unmark_replicate n i : unmark (replicate n None) i = replicate n None.
Proof.
  destruct (decide (N.to_nat i < n)%nat) as [Hlt|Hge].
  - rewrite (unmark_lookup _ _ None) by (by apply lookup_replicate_2). apply list_insert_id. by apply lookup_replicate_2.
  - apply unmark_ge. rewrite length_replicate. lia.
Qed.

Lemma length_unmark m i : length (unmark m i) = length m.
Proof. unfold unmark. destruct (mjoin _) as [e|]; [|done]. destruct (PropMeta.is_hole e); [apply length_insert|done]. Qed.

Lemma length_grow {A} (l : list A) n x : length (grow l n x) = Nat.max (length l) (N.to_nat n).
Proof. unfold grow. rewrite length_app, length_replicate. lia. Qed.

Lemma grow_replicate {A} n m (x : A) : (n <= N.to_nat m)%nat → grow (replicate n x) m x = replicate (N.to_nat m) x.
Proof. intros H. unfold grow. rewrite length_replicate, <- replicate_add. f_equal. lia. Qed.

Lemma grow_lookup {A} (l : list A) i x : ∃ y, grow l (i + 1) x !! N.to_nat i = Some y.
Proof. apply lookup_lt_is_Some_2. rewrite length_grow. lia. Qed.

(** Writing at [i] in two columns. *)
Lemma put_zip i f p mp : length mp = length p →
  ∃ x y, grow p (i + 1) JsValue.undefined !! N.to_nat i = Some x ∧ grow mp (i + 1) None !! N.to_nat i = Some y ∧
    put (N.to_nat i) f (zip p mp) =
      zip (<[N.to_nat i := (f (x, y)).1]> (grow p (i + 1) JsValue.undefined)) (<[N.to_nat i := (f (x, y)).2]> (grow mp (i + 1) None)).
Proof.
  intros Hl. destruct (grow_lookup p i JsValue.undefined) as [x Hx]. destruct (grow_lookup mp i None) as [y Hy]. exists x, y.
  split_and!; [done..|]. unfold put.
  assert (length (zip p mp) = length p) as -> by (rewrite length_zip_with; lia).
  assert (zip p mp ++ replicate (S (N.to_nat i) - length p) fresh = zip (grow p (i + 1) JsValue.undefined) (grow mp (i + 1) None)) as ->.
  { unfold grow. rewrite Hl. replace (N.to_nat (i + 1)) with (S (N.to_nat i)) by lia. rewrite zip_with_app by done.
    by rewrite zip_replicate. }
  by apply zip_alter.
Qed.

(** The metadata column of a named write: the mark at [i] goes, and the column
    grows with the values. *)
Lemma named_meta o o' (p' : list JsValue.t) i : obj_ok o → prop_meta o' = (λ m, grow (unmark m i) (i + 1) None) <$> prop_meta o →
  P o' = p' → length p' = length (grow (P o) (i + 1) JsValue.undefined) → MP o' = grow (unmark (MP o) i) (i + 1) None.
Proof.
  intros Hok Em Ep Hl. unfold MP. rewrite Em, Ep. rewrite (full_map _ (length (P o)) _ _ (λ m, grow (unmark m i) (i + 1) None)); [done|].
  rewrite unmark_replicate, Hl, length_grow. unfold grow. rewrite length_replicate, <- replicate_add. f_equal. lia.
Qed.

Lemma unmark_grow m i y : grow m (i + 1) None !! N.to_nat i = Some y →
  grow (unmark m i) (i + 1) None = <[N.to_nat i := unhole y]> (grow m (i + 1) None).
Proof.
  intros Hy. destruct (decide (N.to_nat i < length m)%nat) as [Hlt|Hge].
  - destruct (lookup_lt_is_Some_2 _ _ Hlt) as [x Hx]. unfold grow in *. rewrite (unmark_lookup _ _ x) by done. rewrite length_insert.
    rewrite lookup_app_l in Hy by done. rewrite insert_app_l by done. congruence.
  - rewrite unmark_ge by lia. unfold grow in *. rewrite lookup_app_r in Hy by lia. apply lookup_replicate in Hy as [-> Hy].
    symmetry. apply list_insert_id. rewrite lookup_app_r by lia. by apply lookup_replicate_2.
Qed.

Lemma elem_write o pos v : obj_ok o → is_array o = true → pos < array_prop_count o →
  cols_are (bump_generation (clear_hole_marker (with_elements o (Some (<[N.to_nat pos := v]> (E o)))) pos)) true
    (array_prop_count o) (<[N.to_nat pos := v]> (E o)) (unmark (ME o) pos) (P o) (MP o).
Proof.
  intros Hok Ea Hp. unfold clear_hole_marker. change (is_array (with_elements o _)) with (is_array o). rewrite Ea.
  cbn [array_prop_count with_elements]. rewrite (proj2 (N.ltb_lt _ _)) by done. apply cols_intro; try done.
  unfold ME at 1. cbn. rewrite (full_map _ (N.to_nat (array_prop_count o)) _ _ (λ m, unmark m pos)); [done|]. apply unmark_replicate.
Qed.

Lemma alter_elem o pos v : obj_ok o → pos < array_prop_count o →
  zip (<[N.to_nat pos := v]> (E o)) (unmark (ME o) pos) = alter (λ s, (v, unhole s.2)) (N.to_nat pos) (zip (E o) (ME o)).
Proof.
  intros Hok Hp. destruct (lookup_lt_is_Some_2 (E o) (N.to_nat pos)) as [x Hx]; [rewrite ok_E by done; lia|].
  destruct (lookup_lt_is_Some_2 (ME o) (N.to_nat pos)) as [y Hy]; [rewrite ok_ME by done; lia|].
  by rewrite (zip_alter _ _ _ _ x y), (unmark_lookup _ _ y).
Qed.

Lemma abs_count o : obj_ok o → count (abs o) = array_prop_count o.
Proof. intros Hok. unfold count, abs. cbn. rewrite length_zip_with, ok_E, ok_ME by done. lia. Qed.

(** *** Each operation *)

(** The outcome of an operation: it succeeds, keeps the invariant, and does to
    the abstract object what [a'] says. *)
Definition does (r : res t) (a' : absobj) : Prop := ∃ o', r = Ok o' ∧ obj_ok o' ∧ abs o' = a'.

Lemma does_cols o' arr n e me p mp a' :
  cols_are o' arr n e me p mp → length e = N.to_nat n → length me = N.to_nat n → length mp = length p →
  (arr = false → n = 0) → mkAbs arr (zip e me) (zip p mp) = a' → does (Ok o') a'.
Proof. intros Hc H1 H2 H3 H4 <-. exists o'. split; [done|]. by eapply cols_ok. Qed.

Lemma count_refines o n : obj_ok o → n < 2^32 → does (exec o (OCount n)) (abs_exec (abs o) (OCount n)).
Proof.
  intros Hok Hn. pose proof (set_prop_count_cols o n Hok) as Hc. cbn [exec abs_exec]. change (a_array (abs o)) with (is_array o).
  destruct (is_array o) eqn:Ea; (eapply does_cols; [exact Hc|..]); rewrite ?length_resize; try done; try (by apply Hok);
    try (intros _; by apply ok_plain).
  - unfold set_elems, abs. cbn [a_array elems named]. rewrite Ea. by rewrite zip_resize by (rewrite ok_E, ok_ME by done; done).
  - unfold set_named, abs. cbn [a_array elems named]. rewrite Ea. by rewrite zip_resize by (symmetry; apply ok_MP, Hok).
Qed.

Lemma elem_does o pos v : obj_ok o → is_array o = true → pos < array_prop_count o →
  does (Ok (bump_generation (clear_hole_marker (with_elements o (Some (<[N.to_nat pos := v]> (E o)))) pos)))
    (set_elems (abs o) (alter (λ s, (v, unhole s.2)) (N.to_nat pos) (elems (abs o)))).
Proof.
  intros Hok Ea Hp. eapply does_cols; [by apply elem_write|..]; rewrite ?length_insert, ?length_unmark; try (by apply Hok); [done|].
  unfold set_elems, abs. cbn [a_array elems named]. by rewrite Ea, alter_elem.
Qed.

Lemma storage_elem o idx v : obj_ok o → is_array o = true → idx < array_prop_count o →
  does (set_prop_storage o idx v) (set_elems (abs o) (alter (λ s, (v, unhole s.2)) (N.to_nat idx) (elems (abs o)))).
Proof.
  intros Hok Ea Hi. unfold set_prop_storage. rewrite Ea, (proj2 (N.ltb_lt _ _)) by done. rewrite ensure_elements_ok by done.
  pose proof (ok_E _ Hok). rewrite (proj2 (N.leb_gt _ _)) by lia. rewrite vec_set_lt by lia. cbn [res_bind]. exact (elem_does o idx v Hok Ea Hi).
Qed.

Lemma clear_hole_named o idx : (is_array o = true → array_prop_count o <= idx) →
  clear_hole_marker o idx = with_meta o ((λ m, unmark m (if is_array o then idx - array_prop_count o else idx)) <$> prop_meta o).
Proof.
  intros H. unfold clear_hole_marker. destruct (is_array o); [|done]. by rewrite (proj2 (N.ltb_ge _ _)) by auto.
Qed.

(** The columns of the two branches that write a named slot. *)
Lemma storage_named o idx np v : obj_ok o → np = (if is_array o then idx - array_prop_count o else idx) →
  (is_array o = true → array_prop_count o <= idx) →
  does (set_prop_storage o idx v) (set_named (abs o) (put (N.to_nat np) (λ s, (v, unhole s.2)) (named (abs o)))).
Proof.
  intros Hok Hnp Hge. destruct (put_zip np (λ s, (v, unhole s.2)) (P o) (MP o)) as (x & y & Hx & Hy & Hput); [by apply ok_MP|].
  cbn [fst snd] in Hput. pose proof (length_grow (P o) (np + 1) JsValue.undefined) as Hgl. pose proof (ok_MP _ Hok) as HMP.
  assert (∀ o', is_array o' = is_array o → array_prop_count o' = array_prop_count o → E o' = E o → ME o' = ME o →
    P o' = <[N.to_nat np := v]> (grow (P o) (np + 1) JsValue.undefined) →
    prop_meta o' = (λ m, grow (unmark m np) (np + 1) None) <$> prop_meta o →
    does (Ok o') (set_named (abs o) (put (N.to_nat np) (λ s, (v, unhole s.2)) (named (abs o))))) as Hdo.
  { intros o' E1 E2 E3 E4 E5 E6. pose proof (named_meta o o' _ np Hok E6 E5) as Em. rewrite length_insert in Em. specialize (Em eq_refl).
    eapply does_cols; [by apply cols_intro|..]; try (by apply Hok).
    - rewrite length_insert, !length_grow, length_unmark. lia.
    - unfold set_named, abs. cbn [a_array elems named]. by rewrite Hput, <- (unmark_grow _ _ y). }
  assert (∀ vec, clear_hole_marker (with_props (with_props o (Some (P o))) (Some vec)) idx =
    with_meta (with_props o (Some vec)) ((λ m, unmark m np) <$> prop_meta o)) as Hclear.
  { intros vec. rewrite clear_hole_named by done. rewrite Hnp. done. }
  unfold set_prop_storage, ensure_hash_props. fold (P o). destruct (is_array o) eqn:Ea.
  - rewrite (proj2 (N.ltb_ge _ _)) by auto. rewrite <- Hnp. rewrite vec_set_lt by lia. cbn [res_bind]. rewrite Hclear.
    apply Hdo; try done. cbn. by destruct (prop_meta o).
  - rewrite <- Hnp in *. rewrite vec_set_lt by lia. cbn [res_bind]. rewrite Hclear. apply Hdo; try done. cbn. by destruct (prop_meta o).
Qed.

(** Growing an array past its end leaves holes in between. *)
Lemma grown_values (l : list JsValue.t) old pos v : length l = N.to_nat old → old <= pos →
  <[N.to_nat pos := v]> (resize (N.to_nat (pos + 1)) JsValue.undefined l) = l ++ replicate (N.to_nat pos - N.to_nat old) JsValue.undefined ++ [v].
Proof.
  intros Hl Hp. rewrite resize_spec, take_ge by lia. replace (N.to_nat (pos + 1) - length l)%nat with ((N.to_nat pos - N.to_nat old) + 1)%nat by lia.
  rewrite replicate_add, insert_app_r_alt, insert_app_r_alt by (rewrite ?length_replicate; lia).
  rewrite length_replicate. by replace (N.to_nat pos - length l - (N.to_nat pos - N.to_nat old))%nat with 0%nat by lia.
Qed.

Lemma grown_meta (m : list (option PropMeta.entry)) old pos : length m = N.to_nat old → old <= pos →
  mark_gap (resize (N.to_nat (pos + 1)) None m) old pos =
    m ++ replicate (N.to_nat pos - N.to_nat old) (Some PropMeta.hole_entry) ++ [None].
Proof.
  intros Hl Hp. rewrite resize_spec, take_ge by lia. replace (N.to_nat (pos + 1) - length m)%nat with ((N.to_nat pos - N.to_nat old) + 1)%nat by lia.
  rewrite replicate_add. unfold mark_gap. rewrite !imap_app, length_replicate. f_equal; [|f_equal].
  - apply list_eq. intros i. rewrite list_lookup_imap. destruct (m !! i) as [x|] eqn:Ei; [|done]. simpl.
    apply lookup_lt_Some in Ei. by rewrite bool_decide_eq_false_2 by lia.
  - apply list_eq. intros i. rewrite list_lookup_imap. destruct (decide (i < N.to_nat pos - N.to_nat old)%nat) as [Hi|Hi].
    + rewrite !lookup_replicate_2 by done. simpl. by rewrite bool_decide_eq_true_2 by lia.
    + rewrite !lookup_ge_None_2 by (rewrite length_replicate; lia). done.
  - simpl. by rewrite bool_decide_eq_false_2 by lia.
Qed.

Lemma grown_last {A} (m : list A) old pos x y : length m = N.to_nat old → old <= pos →
  (m ++ replicate (N.to_nat pos - N.to_nat old) x ++ [y]) !! N.to_nat pos = Some y.
Proof. intros Hl Hp. rewrite app_assoc. apply list_lookup_middle. rewrite length_app, length_replicate. lia. Qed.

Lemma mark_gap_none (m : list (option PropMeta.entry)) pos : mark_gap m pos pos = m.
Proof.
  apply list_eq. intros i. unfold mark_gap. rewrite list_lookup_imap. destruct (m !! i); [|done]. simpl.
  by rewrite bool_decide_eq_false_2 by lia.
Qed.

Lemma set_at_grow o pos v : obj_ok o → is_array o = true → array_prop_count o <= pos → pos <= MAX_DENSE_PROPS →
  does (set_prop_at o pos v)
    (set_elems (abs o) (elems (abs o) ++ replicate (N.to_nat pos - length (elems (abs o))) gap ++ [(v, None)])).
Proof.
  intros Hok Ea Hge Hmax. unfold set_prop_at. rewrite (proj2 (N.ltb_ge MAX_DENSE_PROPS pos) Hmax), Ea, (proj2 (N.leb_le (array_prop_count o) pos) Hge).
  assert (u32 (pos + 1) = pos + 1) as -> by (apply N.mod_small; unfold MAX_DENSE_PROPS in *; change (2^32) with 4294967296; lia).
  set (o1 := set_prop_count o (pos + 1)). set (old := array_prop_count o) in *.
  pose proof (set_prop_count_cols o (pos + 1) Hok) as Hc. rewrite Ea in Hc. fold o1 in Hc.
  pose proof (ok_E _ Hok) as HE. pose proof (ok_ME _ Hok) as HME. fold old in HE, HME.
  destruct (cols_ok _ _ _ _ _ _ _ Hc) as [Hok1 _]; [by rewrite length_resize|by rewrite length_resize|by apply Hok|done|].
  apply cols_elim in Hc as (Ea1 & En1 & EE1 & EM1 & EP1 & EMP1).
  set (o2 := if old <? pos then let '(meta, o) := ensure_array_elements_meta o1 in with_elements_meta o (Some (mark_gap meta old pos)) else o1).
  assert (cols_are o2 true (pos + 1) (E o1) (mark_gap (ME o1) old pos) (P o) (MP o)) as Hc2.
  { unfold o2. rewrite ensure_elements_meta_ok by done. destruct (N.ltb_spec old pos) as [Hlt|Hle]; [by apply cols_intro|].
    assert (old = pos) as -> by lia. by apply cols_intro; rewrite ?mark_gap_none. }
  rewrite EE1, EM1, grown_meta in Hc2 by done.
  destruct (cols_ok _ _ _ _ _ _ _ Hc2) as [Hok2 _]; [by rewrite length_resize| |by apply Hok|done|].
  { rewrite !length_app, length_replicate. simpl. lia. }
  apply cols_elim in Hc2 as (Ea2 & En2 & EE2 & EM2 & EP2 & EMP2).
  rewrite ensure_elements_ok by done. rewrite vec_set_lt by (rewrite ok_E, En2 by done; lia). cbn [res_bind].
  pose proof (elem_write o2 pos v Hok2 Ea2) as Hw. rewrite En2 in Hw. specialize (Hw ltac:(lia)).
  eapply does_cols; [exact Hw|..]; rewrite ?length_insert, ?length_unmark; try (by apply Hok2); try done.
  - rewrite (ok_E _ Hok2), En2. done.
  - rewrite (ok_ME _ Hok2), En2. done.
  - rewrite EE2, EM2, EP2, EMP2. rewrite (grown_values _ old) by done.
    rewrite (unmark_lookup _ _ None), list_insert_id by (by apply grown_last).
    unfold set_elems, abs. cbn [a_array elems named]. rewrite Ea.
    assert (length (zip (E o) (ME o)) = N.to_nat old) as -> by (rewrite length_zip_with; lia).
    rewrite zip_with_app by lia. rewrite zip_with_app by (by rewrite !length_replicate). by rewrite zip_replicate.
Qed.

(** A named column written through [o'], whose other columns are those of [o]. *)
Lemma named_does o o' np f x y : obj_ok o → is_array o' = is_array o → array_prop_count o' = array_prop_count o →
  E o' = E o → ME o' = ME o →
  grow (P o) (np + 1) JsValue.undefined !! N.to_nat np = Some x → grow (MP o) (np + 1) None !! N.to_nat np = Some y →
  P o' = <[N.to_nat np := (f (x, y)).1]> (grow (P o) (np + 1) JsValue.undefined) →
  MP o' = <[N.to_nat np := (f (x, y)).2]> (grow (MP o) (np + 1) None) →
  does (Ok o') (set_named (abs o) (put (N.to_nat np) f (named (abs o)))).
Proof.
  intros Hok E1 E2 E3 E4 Hx Hy E5 E6. eapply does_cols; [by apply cols_intro|..]; try (by apply Hok).
  - rewrite !length_insert, !length_grow, (ok_MP _ Hok). done.
  - destruct (put_zip np f (P o) (MP o)) as (x' & y' & Hx' & Hy' & Hput); [by apply ok_MP|].
    rewrite Hx in Hx'. rewrite Hy in Hy'. injection Hx' as <-. injection Hy' as <-. unfold set_named, abs. cbn [a_array elems named].
    by rewrite Hput.
Qed.

Lemma set_at_plain o pos v : obj_ok o → is_array o = false → pos <= MAX_DENSE_PROPS →
  does (set_prop_at o pos v) (set_named (abs o) (put (N.to_nat pos) (λ s, (v, s.2)) (named (abs o)))).
Proof.
  intros Hok Ea Hmax. unfold set_prop_at. rewrite (proj2 (N.ltb_ge MAX_DENSE_PROPS pos) Hmax), Ea. unfold ensure_hash_props. fold (P o).
  destruct (grow_lookup (P o) pos JsValue.undefined) as [x Hx]. destruct (grow_lookup (MP o) pos None) as [y Hy].
  set (vec := if pos <? N.of_nat (length (P o)) then _ else _).
  assert (vec = <[N.to_nat pos := v]> (grow (P o) (pos + 1) JsValue.undefined)) as Hvec.
  { unfold vec. destruct (N.ltb_spec pos (N.of_nat (length (P o)))) as [Hlt|Hge].
    - unfold grow. replace (N.to_nat (pos + 1) - length (P o))%nat with 0%nat by lia. by rewrite app_nil_r.
    - unfold grow. replace (N.to_nat (pos + 1) - length (P o))%nat with ((N.to_nat pos - length (P o)) + 1)%nat by lia.
      rewrite replicate_add, app_assoc, insert_app_r_alt by (rewrite length_app, length_replicate; lia).
      rewrite length_app, length_replicate. by replace (N.to_nat pos - (length (P o) + (N.to_nat pos - length (P o))))%nat with 0%nat by lia. }
  eapply (named_does o _ pos _ x y); try done.
  cbn [snd]. rewrite (list_insert_id _ _ y) by done. unfold MP at 1. cbn [prop_meta with_meta with_props bump_generation with_generation P hash_props].
  rewrite (full_map _ (length (P o)) _ _ (λ m, grow m (pos + 1) None)); [done|].
  change (P (bump_generation _)) with vec. rewrite Hvec, length_insert, length_grow.
  unfold grow. rewrite length_replicate, <- replicate_add. f_equal. lia.
Qed.

Lemma set_at_refines o pos v : obj_ok o → does (exec o (OSetAt pos v)) (abs_exec (abs o) (OSetAt pos v)).
Proof.
  intros Hok. cbn [exec abs_exec]. change (a_array (abs o)) with (is_array o). rewrite abs_count by done.
  destruct (N.ltb_spec MAX_DENSE_PROPS pos) as [Hlt|Hle].
  { exists o. split_and!; [|done|done]. unfold set_prop_at. by rewrite (proj2 (N.ltb_lt _ _) Hlt). }
  destruct (is_array o) eqn:Ea; [|by apply set_at_plain]. destruct (N.ltb_spec pos (array_prop_count o)) as [Hp|Hp]; [|by apply set_at_grow].
  unfold set_prop_at. rewrite (proj2 (N.ltb_ge _ _) Hle), Ea, (proj2 (N.leb_gt _ _) Hp). rewrite ensure_elements_ok by done.
  rewrite vec_set_lt by (rewrite ok_E by done; lia). cbn [res_bind]. exact (elem_does o pos v Hok Ea Hp).
Qed.

Lemma storage_refines o idx v : obj_ok o → does (exec o (OStorage idx v)) (abs_exec (abs o) (OStorage idx v)).
Proof.
  intros Hok. cbn [exec abs_exec]. unfold at_storage. change (a_array (abs o)) with (is_array o). rewrite abs_count by done.
  destruct (is_array o) eqn:Ea; cbn [andb].
  - destruct (N.ltb_spec idx (array_prop_count o)) as [Hp|Hp]; [by apply storage_elem|]. apply storage_named; [done|by rewrite Ea|done].
  - apply storage_named; [done|by rewrite Ea|congruence].
Qed.

Lemma shape_refines o pos v : obj_ok o → does (exec o (OShape pos v)) (abs_exec (abs o) (OShape pos v)).
Proof.
  intros Hok. cbn [exec abs_exec]. unfold set_prop_shape, storage_index. destruct (is_array o) eqn:Ea.
  - apply storage_named; [done|rewrite Ea; lia|intros _; lia].
  - apply storage_named; [done|by rewrite Ea|congruence].
Qed.

Lemma push_refines o v : obj_ok o → does (exec o (OPush v)) (abs_exec (abs o) (OPush v)).
Proof.
  intros Hok. cbn [exec abs_exec]. unfold push_prop, ensure_hash_props. fold (P o). cbn [snd].
  eapply (does_cols _ (is_array o) (array_prop_count o) (E o) (ME o) (P o ++ [v]) (MP o ++ [None])); try (by apply Hok).
  - apply cols_intro; try done. unfold MP at 1. cbn [prop_meta with_meta with_props].
    rewrite (full_map _ (length (P o)) _ _ (λ m, m ++ [None])); [done|]. change (P (with_meta _ _)) with (P o ++ [v]).
    rewrite length_app. by rewrite replicate_add.
  - rewrite !length_app, (ok_MP _ Hok). done.
  - unfold set_named, abs. cbn [a_array elems named]. f_equal. rewrite zip_with_app by (symmetry; by apply ok_MP). done.
Qed.

Lemma extend_plain o pos : obj_ok o → is_array o = false → pos + 1 < 2^32 →
  ∃ o1, o1 = (if prop_vec_len o <=? pos then set_prop_count o (u32 (pos + 1)) else o) ∧ obj_ok o1 ∧ is_array o1 = false ∧
    array_prop_count o1 = array_prop_count o ∧ E o1 = E o ∧ ME o1 = ME o ∧
    P o1 = grow (P o) (pos + 1) JsValue.undefined ∧ MP o1 = grow (MP o) (pos + 1) None.
Proof.
  intros Hok Ea Hp. eexists. split; [reflexivity|]. pose proof (ok_MP _ Hok) as HMP. rewrite prop_vec_len_eq.
  destruct (N.leb_spec (N.of_nat (length (P o))) pos) as [Hle|Hgt].
  - assert (u32 (pos + 1) = pos + 1) as -> by (by apply N.mod_small).
    pose proof (set_prop_count_cols o (pos + 1) Hok) as Hc. rewrite Ea in Hc.
    destruct (cols_ok _ _ _ _ _ _ _ Hc) as [Hok1 _]; [by apply Hok|by apply Hok|by rewrite !length_resize|intros _; by apply ok_plain|].
    apply cols_elim in Hc as (E1 & E2 & E3 & E4 & E5 & E6). rewrite !grow_resize by lia. done.
  - unfold grow. replace (N.to_nat (pos + 1) - length (P o))%nat with 0%nat by lia.
    replace (N.to_nat (pos + 1) - length (MP o))%nat with 0%nat by lia. by rewrite !app_nil_r.
Qed.

Lemma grow_noop {A} (l : list A) n x : (N.to_nat n <= length l)%nat → grow l n x = l.
Proof. intros Hl. unfold grow. replace (N.to_nat n - length l)%nat with 0%nat by lia. apply app_nil_r. Qed.

Lemma meta_refines o pos e : obj_ok o → op_ok (abs o) (OMeta pos e) = true → does (exec o (OMeta pos e)) (abs_exec (abs o) (OMeta pos e)).
Proof.
  intros Hok. cbn [op_ok exec abs_exec]. unfold at_storage, set_meta_at. change (a_array (abs o)) with (is_array o). rewrite abs_count by done.
  assert (length (named (abs o)) = length (P o)) as -> by (unfold abs; cbn [named]; rewrite length_zip_with, (ok_MP _ Hok); lia).
  pose proof (ok_MP _ Hok) as HMP. pose proof (ok_ME _ Hok) as HME.
  destruct (is_array o) eqn:Ea; cbn [andb].
  - intros Hv%N.ltb_lt. destruct (N.ltb_spec pos (array_prop_count o)) as [Hp|Hp].
    + rewrite ensure_elements_meta_ok by done. rewrite grow_noop, vec_set_lt by lia. cbn [res_bind].
      eapply (does_cols _ true (array_prop_count o) (E o) (<[N.to_nat pos := Some e]> (ME o)) (P o) (MP o)); try (by apply Hok); try done.
      * by apply cols_intro.
      * by rewrite length_insert.
      * destruct (lookup_lt_is_Some_2 (E o) (N.to_nat pos)) as [x Hx]; [rewrite ok_E by done; lia|].
        destruct (lookup_lt_is_Some_2 (ME o) (N.to_nat pos)) as [y Hy]; [lia|].
        unfold set_elems, abs. cbn [a_array elems named]. rewrite (zip_alter _ _ _ _ x y) by done. cbn [fst snd].
        by rewrite Ea, (list_insert_id (E o) _ x).
    + rewrite ensure_meta_ok. rewrite vec_set_lt by (rewrite length_grow; lia). cbn [res_bind].
      destruct (grow_lookup (P o) (pos - array_prop_count o) JsValue.undefined) as [x Hx].
      destruct (grow_lookup (MP o) (pos - array_prop_count o) None) as [y Hy].
      eapply (named_does o _ _ _ x y); try done. cbn [fst]. rewrite (list_insert_id _ _ x) by done. by rewrite (grow_noop (P o)) by lia.
  - intros Hv%N.ltb_lt. destruct (extend_plain o pos Hok Ea Hv) as (o1 & <- & Hok1 & E1 & E2 & E3 & E4 & E5 & E6).
    rewrite ensure_meta_ok, E6. rewrite grow_noop by (rewrite length_grow; lia). rewrite vec_set_lt by (rewrite length_grow; lia). cbn [res_bind].
    destruct (grow_lookup (P o) pos JsValue.undefined) as [x Hx]. destruct (grow_lookup (MP o) pos None) as [y Hy].
    eapply (named_does o _ pos _ x y); try done; [by rewrite Ea|]. cbn [fst]. rewrite (list_insert_id _ _ x) by done. exact E5.
Qed.

Lemma alter_beyond {A} (f : A → A) (l : list A) i : (length l <= i)%nat → alter f i l = l.
Proof. revert i. induction l as [|x l IH]; intros [|i] Hi; cbn in *; try done; [lia|]. f_equal. apply IH. lia. Qed.

Lemma hole_refines o pos : obj_ok o → op_ok (abs o) (OHole pos) = true → does (exec o (OHole pos)) (abs_exec (abs o) (OHole pos)).
Proof.
  intros Hok. cbn [op_ok exec abs_exec]. unfold mark_hole_at. change (a_array (abs o)) with (is_array o).
  pose proof (ok_E _ Hok) as HE. pose proof (ok_ME _ Hok) as HME. destruct (is_array o) eqn:Ea; cbn [orb].
  - intros _. destruct (N.ltb_spec pos (array_prop_count o)) as [Hp|Hp].
    + rewrite ensure_elements_ok by done. rewrite (proj2 (N.leb_gt _ _)) by lia. rewrite vec_set_lt by lia. cbn [res_bind].
      set (o1 := with_elements _ _). assert (obj_ok o1) as Hok1.
      { split; [cbn; unfold E; cbn; by rewrite length_insert|by apply Hok|by apply Hok|by apply Hok]. }
      rewrite (ensure_elements_meta_ok o1) by done. change (ME o1) with (ME o).
      rewrite grow_noop, vec_set_lt by lia. cbn [res_bind].
      eapply (does_cols _ true (array_prop_count o) (<[N.to_nat pos := JsValue.undefined]> (E o))
        (<[N.to_nat pos := Some PropMeta.hole_entry]> (ME o)) (P o) (MP o)); try (by apply Hok); try done.
      * by apply cols_intro.
      * by rewrite length_insert.
      * by rewrite length_insert.
      * destruct (lookup_lt_is_Some_2 (E o) (N.to_nat pos)) as [x Hx]; [lia|].
        destruct (lookup_lt_is_Some_2 (ME o) (N.to_nat pos)) as [y Hy]; [lia|].
        unfold set_elems, abs. cbn [a_array elems named]. by rewrite (zip_alter _ _ _ _ x y), Ea.
    + exists o. split_and!; [done..|]. unfold set_elems. rewrite alter_beyond; [by destruct (abs o)|].
      unfold abs. cbn [elems]. rewrite length_zip_with. lia.
  - intros Hv%N.ltb_lt. destruct (extend_plain o pos Hok Ea Hv) as (o1 & <- & Hok1 & E1 & E2 & E3 & E4 & E5 & E6).
    destruct (grow_lookup (P o) pos JsValue.undefined) as [x Hx]. destruct (grow_lookup (MP o) pos None) as [y Hy].
    assert (∃ o2, set_prop_at o1 pos JsValue.undefined = Ok o2 ∧ is_array o2 = false ∧ array_prop_count o2 = array_prop_count o ∧
      E o2 = E o ∧ ME o2 = ME o ∧ MP o2 = MP o1 ∧
      P o2 = <[N.to_nat pos := if MAX_DENSE_PROPS <? pos then x else JsValue.undefined]> (P o1)) as (o2 & -> & F1 & F2 & F3 & F4 & F6 & F5).
    { unfold set_prop_at. destruct (MAX_DENSE_PROPS <? pos).
      - exists o1. split_and!; try done. rewrite E5. symmetry. by apply list_insert_id.
      - rewrite E1. unfold ensure_hash_props. fold (P o1).
        rewrite (proj2 (N.ltb_lt _ _)) by (rewrite E5, length_grow; lia). eexists. split; [done|]. split_and!; try done.
        unfold MP at 1. cbn [prop_meta with_meta with_props bump_generation with_generation].
        rewrite (full_map _ (length (P o1)) _ _ (λ m, grow m (pos + 1) None)).
        + fold (MP o1). apply grow_noop. rewrite E6, length_grow. lia.
        + change (P (bump_generation _)) with (<[N.to_nat pos := JsValue.undefined]> (P o1)). rewrite length_insert.
          apply grow_noop. rewrite length_replicate, E5, length_grow. lia. }
    cbn [res_bind]. rewrite ensure_meta_ok, F6, E6. rewrite grow_noop by (rewrite length_grow; lia).
    rewrite vec_set_lt by (rewrite length_grow; lia). cbn [res_bind].
    eapply (named_does o _ pos _ x y); try done; [by rewrite Ea|]. cbn [fst]. rewrite <- E5. exact F5.
Qed.

Lemma clear_refines o : obj_ok o → does (exec o OClear) (abs_exec (abs o) OClear).
Proof.
  intros Hok. cbn [exec abs_exec]. eapply (does_cols _ (is_array o) 0 [] [] [] []); try done.
  apply cols_intro; try done.
  - unfold E, clear_props. cbn. by destruct (array_elements o).
  - unfold ME, clear_props. cbn. by destruct (array_elements_meta o).
  - unfold P, clear_props. cbn. by destruct (hash_props o).
  - unfold MP, P, clear_props. cbn. by destruct (prop_meta o), (hash_props o).
Qed.

Lemma clear_named_refines o : obj_ok o → does (exec o OClearNamed) (abs_exec (abs o) OClearNamed).
Proof.
  intros Hok. cbn [exec abs_exec]. eapply (does_cols _ (is_array o) (array_prop_count o) (E o) (ME o) [] []); try done; try (by apply Hok).
  apply cols_intro; try done.
  - unfold P, clear_named_props. cbn. by destruct (hash_props o).
  - unfold MP, P, clear_named_props. cbn. by destruct (prop_meta o), (hash_props o).
Qed.

Lemma release_refines o : obj_ok o → does (exec o ORelease) (abs_exec (abs o) ORelease).
Proof.
  intros Hok. cbn [exec abs_exec].
  eapply (does_cols _ (is_array o) (array_prop_count o) (replicate (N.to_nat (array_prop_count o)) JsValue.undefined)
    (replicate (N.to_nat (array_prop_count o)) None) [] []); rewrite ?length_replicate; try done; try (by apply Hok).
  unfold abs. cbn [a_array elems named]. rewrite zip_replicate, length_zip_with, (ok_E _ Hok), (ok_ME _ Hok). by rewrite Nat.min_id.
Qed.

Lemma exec_refines o op : obj_ok o → op_ok (abs o) op = true → does (exec o op) (abs_exec (abs o) op).
Proof.
  intros Hok Hop. destruct op.
  - by apply count_refines; [|apply N.ltb_lt].
  - by apply set_at_refines.
  - by apply storage_refines.
  - by apply shape_refines.
  - by apply push_refines.
  - by apply hole_refines.
  - by apply meta_refines.
  - by apply clear_refines.
  - by apply clear_named_refines.
  - by apply release_refines.
Qed.

Lemma run_refines ops : ∀ o, obj_ok o → ops_ok (abs o) ops = true →
  ∃ o', fold_res exec ops o = Ok o' ∧ obj_ok o' ∧ abs o' = foldl abs_exec (abs o) ops.
Proof.
  induction ops as [|op ops IH]; intros o Hok Hops; [by exists o|]. cbn [ops_ok] in Hops. apply andb_true_iff in Hops as [Hop Hops].
  destruct (exec_refines o op Hok Hop) as (o1 & E1 & Hok1 & Ea1). rewrite <- Ea1 in Hops.
  destruct (IH o1 Hok1 Hops) as (o' & E' & Hok' & Ea'). exists o'. cbn [fold_res foldl]. rewrite E1. cbn [res_bind]. by rewrite <- Ea1.
Qed.

(** *** Creation and reading *)

Lemma get_bit_testbit h k : get_bit h k = N.testbit h k.
Proof.
  unfold get_bit. change 1 with (N.ones 1). rewrite N.land_ones, <- N.bit0_mod, N.shiftr_spec', N.add_0_l.
  by destruct (N.testbit h k).
Qed.

Lemma created_ok shape_id proto k : obj_ok (created shape_id proto k) ∧ abs (created shape_id proto k) = abs_created k.
Proof.
  destruct k as [|n].
  - apply (cols_ok _ false 0 [] [] [] []); try done. apply cols_intro; try done. unfold is_array. rewrite get_bit_testbit.
    cbn [created new_empty header]. rewrite N.lor_spec, N.land_spec. apply orb_false_iff. split; [apply andb_false_r|done].
  - set (m := N.min n MAX_DENSE_PROPS). assert (u32 m = m) as Em by (apply N.mod_small; unfold m, MAX_DENSE_PROPS; lia).
    destruct (cols_ok (created shape_id proto (Array n)) true m (replicate (N.to_nat m) JsValue.undefined) (replicate (N.to_nat m) None) [] [])
      as [H1 H2]; [|by rewrite length_replicate..|done|done|].
    + apply cols_intro; try done; [|unfold ME; cbn [created new_array array_elements_meta array_prop_count]; fold m; by rewrite Em].
      unfold is_array. rewrite get_bit_testbit. cbn [created new_array header]. rewrite N.lor_spec. by apply orb_true_r.
    + split; [done|]. rewrite H2. unfold abs_created. by rewrite zip_replicate.
Qed.

Lemma full_lookup {A} (s : option (list A)) n (x : A) i : default x (mjoin ((λ l, l !! i) <$> s)) = default x (full s n x !! i).
Proof.
  destruct s as [l|]; [done|]. cbn. destruct (decide (i < n)%nat) as [Hlt|Hge].
  - by rewrite lookup_replicate_2.
  - rewrite lookup_ge_None_2; [done|]. rewrite length_replicate. lia.
Qed.

Lemma zip_default {A B} (l : list A) (k : list B) x y i : length l = length k →
  default (x, y) (zip l k !! i) = (default x (l !! i), default y (k !! i)).
Proof.
  intros Hl. rewrite lookup_zip_with. destruct (l !! i) as [a|] eqn:Ea; destruct (k !! i) as [b|] eqn:Eb; try done.
  - apply lookup_lt_Some in Ea. apply lookup_ge_None_1 in Eb. lia.
  - apply lookup_lt_Some in Eb. apply lookup_ge_None_1 in Ea. lia.
Qed.

Lemma full_lookup_meta {A} (s : option (list (option A))) n i :
  mjoin (mjoin ((λ l, l !! i) <$> s)) = default None (full s n None !! i).
Proof. rewrite <- full_lookup. generalize (mjoin ((λ l, l !! i) <$> s)). by intros [[|]|]. Qed.

Lemma abs_get_eq o pos : obj_ok o → abs_get (abs o) pos = (get_prop_at o pos, prop_meta_at o pos).
Proof.
  intros Hok. unfold abs_get, get_prop_at, prop_meta_at. change (a_array (abs o)) with (is_array o). rewrite abs_count by done.
  pose proof (ok_MP _ Hok) as HMP. pose proof (ok_E _ Hok) as HE. pose proof (ok_ME _ Hok) as HME.
  rewrite (full_lookup (array_elements o) (N.to_nat (array_prop_count o))), !(full_lookup (hash_props o) 0).
  rewrite (full_lookup_meta (array_elements_meta o) (N.to_nat (array_prop_count o))), !(full_lookup_meta (prop_meta o) (length (P o))).
  fold (E o) (ME o) (P o) (MP o). unfold fresh. cbn [abs elems named].
  destruct (is_array o); cbn [andb]; [destruct (pos <? array_prop_count o)|]; rewrite zip_default by lia; done.
Qed.

Lemma prop_count_eq o : obj_ok o →
  prop_count o = if a_array (abs o) then count (abs o) else u32 (N.of_nat (length (named (abs o)))).
Proof.
  intros Hok. unfold prop_count. change (a_array (abs o)) with (is_array o). rewrite abs_count, prop_vec_len_eq by done.
  unfold abs. cbn [named]. rewrite length_zip_with, (ok_MP _ Hok). by rewrite Nat.min_id.
Qed.

Lemma get_shape_eq o pos : obj_ok o → count (abs o) + pos < 2^32 → get_prop_shape o pos = (default fresh (named (abs o) !! N.to_nat pos)).1.
Proof.
  intros Hok Hp. unfold get_prop_shape, storage_index. pose proof (ok_plain _ Hok) as Hpl. rewrite abs_count in Hp by done.
  assert (∀ i, i < 2^32 → get_prop_at o (u32 i) = (abs_get (abs o) i).1) as Hget.
  { intros i Hi. unfold u32. rewrite N.mod_small by done. by rewrite abs_get_eq. }
  destruct (is_array o) eqn:Ea.
  - rewrite Hget by done. unfold abs_get. change (a_array (abs o)) with (is_array o). rewrite Ea, abs_count by done.
    rewrite (proj2 (N.ltb_ge _ _)) by lia. cbn [andb]. by replace (array_prop_count o + pos - array_prop_count o) with pos by lia.
  - rewrite Hget by lia. unfold abs_get. change (a_array (abs o)) with (is_array o). by rewrite Ea.
Qed.
End ObjectFacts.

(** ** Theorems *)

Module FlagFacts.
Import JsObject ObjectFacts.

(** The byte or word a flag lives in, and its bit. *)
Definition home (f : flag) : N * N :=
  match f with
  | FSet => (0, 24) | FMap => (0, 25) | FDerived => (0, 26) | FClass => (0, 27) | FArrow => (0, 28)
  | FExtensible => (0, 30) | FFunction => (0, 31)
  | FFrozen => (1, 0) | FSealed => (1, 1) | FNamespace => (1, 2) | FLengthReadOnly => (1, 3)
  | FSession => (2, 0) | FMark => (2, 1) | FHeap => (2, 3) | FDeferred => (3, 0)
  end.
Definition word (o : t) (w : N) : N := if w =? 0 then header o else if w =? 1 then pad o else if w =? 2 then epoch o else deferred_flags o.

Lemma put_bit_spec h k b i : N.testbit (put_bit h k b) i = if i =? k then b else N.testbit h i.
Proof.
  unfold put_bit. rewrite N.shiftl_1_l. destruct b; [rewrite N.lor_spec|rewrite N.ldiff_spec]; rewrite N.pow2_bits_eqb, (N.eqb_sym k i);
    destruct (i =? k); cbn; rewrite ?orb_true_r, ?orb_false_r, ?andb_true_r, ?andb_false_r; done.
Qed.

Lemma mask_testbit w k : negb (N.land w (2 ^ k) =? 0) = N.testbit w k.
Proof.
  destruct (N.testbit w k) eqn:Eb.
  - apply negb_true_iff, N.eqb_neq. intros E0. pose proof (f_equal (λ n, N.testbit n k) E0) as H. cbn beta in H.
    by rewrite N.land_spec, N.pow2_bits_true, Eb, N.bits_0 in H.
  - apply negb_false_iff, N.eqb_eq, N.bits_inj. intros i. rewrite N.land_spec, N.pow2_bits_eqb, N.bits_0.
    destruct (N.eqb_spec k i) as [<-|]; [by rewrite Eb|by rewrite andb_false_r].
Qed.

Lemma get_flag_bit f o : get_flag f o = N.testbit (word o (home f).1) (home f).2.
Proof.
  destruct f; try (exact (get_bit_testbit _ _)); try (exact (mask_testbit _ 0)); try (exact (mask_testbit _ 1)); try (exact (mask_testbit _ 3)).
  cbn [get_flag home word fst snd]. unfold is_length_writable. assert (is_frozen (set_frozen o false) = false) as ->.
  { etransitivity; [exact (mask_testbit _ 0)|]. apply (put_bit_spec _ 0). }
  cbn [negb andb]. etransitivity; [exact (get_bit_testbit (pad (set_frozen o false)) 3)|]. apply put_bit_spec.
Qed.

Lemma set_flag_word f g o b : word (set_flag f o b) (home g).1 =
  if (home g).1 =? (home f).1 then put_bit (word o (home g).1) (home f).2 b else word o (home g).1.
Proof. by destruct f, g. Qed.

Lemma set_flag_header f o b i : i < 24 ∨ i = 29 → N.testbit (header (set_flag f o b)) i = N.testbit (header o) i.
Proof.
  intros Hi. destruct f; try done; cbn [set_flag]; etransitivity; try (exact (put_bit_spec _ _ _ i));
    by rewrite (proj2 (N.eqb_neq _ _)) by lia.
Qed.

Lemma home_inj f g : home f = home g → f = g.
Proof. by destruct f, g. Qed.

Lemma shape_header o id i : N.testbit (header (set_shape_id o id)) i = if i <? 24 then N.testbit id i else N.testbit (header o) i.
Proof.
  cbn [set_shape_id with_header header]. change 0x00FFFFFF with (N.ones 24). rewrite N.lor_spec, N.ldiff_spec, N.land_spec.
  destruct (N.ltb_spec i 24).
  - by rewrite N.ones_spec_low, !andb_false_r, andb_true_r by done.
  - by rewrite N.ones_spec_high, andb_false_r, andb_true_r, orb_false_r by done.
Qed.

Lemma shape_id_mod o : shape_id o = header o mod 2^24.
Proof. unfold shape_id. change 0x00FFFFFF with (N.ones 24). apply N.land_ones. Qed.
End FlagFacts.

(** Header layout.  Setting a flag and reading a flag: the flag set reads back,
    every other flag keeps its value, and the shape id and the array bit do too;
    setting the shape id keeps every flag and reads back its low 24 bits. *)
Theorem flags_independent o f g b id :
  get_flag g (set_flag f o b) = (if decide (g = f) then b else get_flag g o) ∧
  JsObject.shape_id (set_flag f o b) = JsObject.shape_id o ∧
  JsObject.is_array (set_flag f o b) = JsObject.is_array o ∧
  JsObject.shape_id (JsObject.set_shape_id o id) = id mod 2^24 ∧
  get_flag g (JsObject.set_shape_id o id) = get_flag g o ∧
  JsObject.is_array (JsObject.set_shape_id o id) = JsObject.is_array o.
Proof.
  rewrite !FlagFacts.shape_id_mod, !FlagFacts.get_flag_bit, FlagFacts.set_flag_word. unfold JsObject.is_array. rewrite !ObjectFacts.get_bit_testbit.
  rewrite (FlagFacts.set_flag_header _ _ _ 29), (FlagFacts.shape_header _ _ 29) by auto. split_and!; try done.
  - destruct (decide (g = f)) as [->|Hne]; [by rewrite N.eqb_refl, FlagFacts.put_bit_spec, N.eqb_refl|].
    destruct (N.eqb_spec (FlagFacts.home g).1 (FlagFacts.home f).1) as [E1|]; [|done]. rewrite FlagFacts.put_bit_spec.
    destruct (N.eqb_spec (FlagFacts.home g).2 (FlagFacts.home f).2) as [E2|]; [|done].
    exfalso. apply Hne, FlagFacts.home_inj. by apply injective_projections.
  - rewrite <- !N.land_ones. apply N.bits_inj. intros i. rewrite !N.land_spec. destruct (N.ltb_spec i 24).
    + by rewrite FlagFacts.set_flag_header by auto.
    + by rewrite N.ones_spec_high, !andb_false_r by done.
  - rewrite <- !N.land_ones. apply N.bits_inj. intros i. rewrite !N.land_spec, FlagFacts.shape_header. destruct (N.ltb_spec i 24); [done|].
    by rewrite N.ones_spec_high, !andb_false_r by done.
  - destruct g; try done; cbn [FlagFacts.home fst snd]; exact (FlagFacts.shape_header o id _).
Qed.

(** C33: An object is its abstract object.  From a new object or a new array, any
    sequence of writes, pushes, hole marks, metadata updates, count changes,
    clears and releases that the callers may make runs without a panic, keeps
    the four stores aligned, and leaves an object that answers every read,
    every metadata query and its count as the abstract object does after the
    same operations. *)
Theorem object_refines shape_id proto k ops :
  ops_ok (abs_created k) ops = true →
  ∃ o, fold_res exec ops (created shape_id proto k) = Ok o ∧ ObjectFacts.obj_ok o ∧
    let a := foldl abs_exec (abs_created k) ops in
    (∀ pos, JsObject.get_prop_at o pos = (abs_get a pos).1 ∧ JsObject.prop_meta_at o pos = (abs_get a pos).2) ∧
    JsObject.prop_count o = (if a_array a then count a else u32 (N.of_nat (length (named a)))) ∧
    (∀ pos, count a + pos < 2^32 → JsObject.get_prop_shape o pos = (default fresh (named a !! N.to_nat pos)).1).
Proof.
  intros Hops. destruct (ObjectFacts.created_ok shape_id proto k) as [Hok Ea]. rewrite <- Ea in Hops.
  destruct (ObjectFacts.run_refines ops _ Hok Hops) as (o & Er & Hok' & Ea'). rewrite Ea in Ea'. exists o. split_and!; [done..|].
  rewrite <- Ea'. split_and!.
  - intros pos. by rewrite ObjectFacts.abs_get_eq.
  - by apply ObjectFacts.prop_count_eq.
  - intros pos. by apply ObjectFacts.get_shape_eq.
Qed.

Lemma object_refines_witness :
  let ops := [OSetAt 3 7; OPush 9; OHole 0; OMeta 4 (PropMeta.data 1); OCount 2; OShape 1 5] in
  ∃ o, fold_res exec ops (created 1 JsValue.null (Array 1)) = Ok o ∧ JsObject.prop_count o = 2 ∧
    JsObject.get_prop_at o 2 = 9 ∧ JsObject.prop_meta_at o 2 = Some (PropMeta.data 1) ∧
    JsObject.prop_meta_at o 1 = Some PropMeta.hole_entry ∧ JsObject.get_prop_shape o 1 = 5.
Proof.
  intros ops. destruct (object_refines 1 JsValue.null (Array 1) ops) as (o & E & _ & Hget & Hc & Hs); [by vm_compute|].
  exists o. split; [exact E|]. split; [rewrite Hc; by vm_compute|].
  split; [rewrite (proj1 (Hget 2)); by vm_compute|]. split; [rewrite (proj2 (Hget 2)); by vm_compute|].
  split; [rewrite (proj2 (Hget 1)); by vm_compute|]. rewrite (Hs 1) by (vm_compute; reflexivity). by vm_compute.
Defined.
