(* ===== verification/Proto.v ===== *)
(** * Prototype chains (crates/oxide_types/src/object.rs, [set_proto])

    A heap maps addresses to objects.  [set_proto] follows the chain of the new
    prototype and refuses it when the chain comes back to the object itself.
    The loop has no bound of its own: it ends because every chain ends, and it
    keeps every chain finite. *)

From stdpp Require Import base tactics numbers list option gmap strings relations.
From Stdlib Require Import NArith ZArith Lia.
From S2P Require Import Prelude Value Object.

Open Scope N_scope.

Module Proto.
Abbreviation heap := (gmap N JsObject.t).

(** The loop of [set_proto]: [None] while it still runs after [fuel] rounds, a
    panic for a pointer with no object behind it. *)
Fixpoint check_chain (fuel : nat) (h : heap) (self_ptr : N) (cursor : JsValue.t) : option (res unit) :=
  match fuel with
  | O => None
  | S fuel =>
      if JsValue.is_object cursor then
        let cursor_ptr := JsValue.as_js_object_ptr cursor in
        if cursor_ptr =? self_ptr then Some (Err "cyclic __proto__ value")
        else match h !! cursor_ptr with
             | Some obj => check_chain fuel h self_ptr (JsObject.proto obj)
             | None => Some Panic
             end
      else Some (Ok tt)
  end.

(** [self.proto = proto; self.generation = self.generation.wrapping_add(1)]. *)
Definition store_proto (o : JsObject.t) (proto : JsValue.t) : JsObject.t :=
  JsObject.bump_generation (JsObject.with_proto o proto).

Definition set_proto (fuel : nat) (h : heap) (self : N) (o : JsObject.t) (proto : JsValue.t) : option (res heap) :=
  if JsValue.is_null proto then Some (Ok (<[self := store_proto o proto]> h))
  else if negb (JsValue.is_object proto) then Some (Err "__proto__ must be an object or null")
  else match check_chain fuel h self proto with
       | None => None
       | Some r => Some (let* _ := r in Ok (<[self := store_proto o proto]> h))
       end.

(** A value whose object, if it is one, lives in the heap. *)
Definition valid (h : heap) (v : JsValue.t) : bool :=
  negb (JsValue.is_object v) || bool_decide (is_Some (h !! JsValue.as_js_object_ptr v)).

(** What happens to a heap: objects are allocated at free addresses with a
    prototype that is already there, objects are written without touching
    their prototype, and prototypes are set. *)
Inductive heap_step (h : heap) : heap → Prop :=
  | step_alloc a o : h !! a = None → valid h (JsObject.proto o) = true → heap_step h (<[a := o]> h)
  | step_write a o o' : h !! a = Some o → JsObject.proto o' = JsObject.proto o → heap_step h (<[a := o']> h)
  | step_proto fuel a o v h' : h !! a = Some o → valid h v = true → set_proto fuel h a o v = Some (Ok h') → heap_step h h'.

(** The chain from a value ends at a value that is not an object. *)
Inductive chain_ends (h : heap) : JsValue.t → Prop :=
  | chain_stop v : JsValue.is_object v = false → chain_ends h v
  | chain_link v o : JsValue.is_object v = true → h !! JsValue.as_js_object_ptr v = Some o →
      chain_ends h (JsObject.proto o) → chain_ends h v.

(** The address [a] is on the chain from a value. *)
Inductive on_chain (h : heap) (a : N) : JsValue.t → Prop :=
  | on_here v : JsValue.is_object v = true → JsValue.as_js_object_ptr v = a → on_chain h a v
  | on_next v o : JsValue.is_object v = true → h !! JsValue.as_js_object_ptr v = Some o → on_chain h a (JsObject.proto o) → on_chain h a v.

Definition chains_finite (h : heap) : Prop := ∀ a o, h !! a = Some o → chain_ends h (JsObject.proto o).

#[local] Hint Constructors chain_ends on_chain heap_step : core.

Lemma valid_chain h v : chains_finite h → valid h v = true → chain_ends h v.
Proof.
  intros Hf Hv. unfold valid in Hv. destruct (JsValue.is_object v) eqn:Eo; [|by constructor]. cbn [negb orb] in Hv.
  apply bool_decide_eq_true in Hv as [o Ho]. eapply chain_link; [done..|]. by eapply Hf.
Qed.

(** The loop answers: it finds the object on the chain, or the end. *)
Lemma check_chain_answers h a v : chain_ends h v →
  ∃ n, ∀ fuel, (n <= fuel)%nat →
    (on_chain h a v ∧ check_chain fuel h a v = Some (Err "cyclic __proto__ value")) ∨
    (¬ on_chain h a v ∧ check_chain fuel h a v = Some (Ok tt)).
Proof.
  induction 1 as [v Hv|v o Hv Ho _ [n IH]].
  - exists 1%nat. intros [|fuel] Hf; [lia|]. right. cbn [check_chain]. rewrite Hv. split; [|done].
    intros Hon. inversion Hon; congruence.
  - exists (S n). intros [|fuel] Hf; [lia|]. cbn [check_chain]. rewrite Hv, Ho.
    destruct (N.eqb_spec (JsValue.as_js_object_ptr v) a) as [Ha|Ha]; [left; by eauto|].
    destruct (IH fuel) as [[Hon ->]|[Hon ->]]; [lia|left; by eauto|right]. split; [|done].
    intros Hon'. inversion Hon'; simplify_eq; done.
Qed.

(** Writing an object that is not on the chain leaves the chain as it is. *)
Lemma chain_insert_off h a o v : chain_ends h v → ¬ on_chain h a v → chain_ends (<[a := o]> h) v.
Proof.
  induction 1 as [v Hv|v o1 Hv Ho _ IH]; intros Hoff; [by constructor|].
  eapply (chain_link _ _ o1); [done| |apply IH; by eauto].
  rewrite lookup_insert_ne; [done|]. intros ->. by eauto.
Qed.

(** Any chain still ends when the new object's own chain does. *)
Lemma chain_insert h a o v : chain_ends (<[a := o]> h) (JsObject.proto o) → chain_ends h v → chain_ends (<[a := o]> h) v.
Proof.
  intros Ha. induction 1 as [v Hv|v o1 Hv Ho _ IH]; [by constructor|].
  destruct (decide (JsValue.as_js_object_ptr v = a)) as [<-|Hne].
  - eapply chain_link; [done|by rewrite lookup_insert_eq|done].
  - eapply chain_link; [done|by rewrite lookup_insert_ne|done].
Qed.

Lemma finite_insert h a o : chain_ends (<[a := o]> h) (JsObject.proto o) → chains_finite h → chains_finite (<[a := o]> h).
Proof.
  intros Ha Hf b o' Hb. destruct (decide (a = b)) as [<-|Hne].
  - rewrite lookup_insert_eq in Hb. by simplify_eq.
  - rewrite lookup_insert_ne in Hb by done. apply chain_insert; [done|]. by eapply Hf.
Qed.

(** A chain that reaches a free address would have no object there. *)
Lemma chain_off_free h a v : chain_ends h v → h !! a = None → ¬ on_chain h a v.
Proof.
  induction 1 as [v Hv|v o Hv Ho _ IH]; intros Hn Hon; inversion Hon; simplify_eq; try congruence. by apply IH.
Qed.

(** A chain through [a] that ends does not go through [a] again. *)
Lemma chain_off_self h a v : chain_ends h v → ∀ o, h !! a = Some o → on_chain h a v → ¬ on_chain h a (JsObject.proto o).
Proof.
  induction 1 as [v Hv|v o1 Hv Ho Hce IH]; intros o Ha Hon; [inversion Hon; congruence|].
  inversion Hon as [v' _ Ep|v' o2 _ Eo Hnext]; subst.
  - intros Hc. assert (o = o1) as -> by congruence. exact (IH _ Ho Hc Hc).
  - assert (o2 = o1) as -> by congruence. by apply IH.
Qed.

Lemma proto_off_self h a o : chains_finite h → h !! a = Some o → ¬ on_chain h a (JsObject.proto o).
Proof. intros Hf Ha Hon. exact (chain_off_self _ _ _ (Hf _ _ Ha) _ Ha Hon Hon). Qed.

Lemma check_chain_off h a v : chain_ends h v → ∀ fuel, check_chain fuel h a v = Some (Ok tt) → ¬ on_chain h a v.
Proof.
  induction 1 as [v Hv|v o1 Hv Ho _ IH]; intros [|fuel] Ec Hon; cbn [check_chain] in Ec; try done.
  - inversion Hon; congruence.
  - rewrite Hv, Ho in Ec. destruct (N.eqb_spec (JsValue.as_js_object_ptr v) a) as [|Hne]; [done|].
    inversion Hon; simplify_eq. by eapply IH.
Qed.

Lemma set_proto_finite fuel h a o v h' : chains_finite h → valid h v = true → set_proto fuel h a o v = Some (Ok h') → chains_finite h'.
Proof.
  intros Hf Hv. pose proof (valid_chain h v Hf Hv) as Hce. unfold set_proto.
  destruct (JsValue.is_null v) eqn:En.
  { intros [= <-]. apply finite_insert; [|done]. apply chain_stop. cbn. unfold JsValue.is_null in En. unfold JsValue.is_object.
    apply andb_true_iff in En as [-> Ht]. apply N.eqb_eq in Ht. by rewrite Ht. }
  destruct (JsValue.is_object v) eqn:Eo; cbn [negb]; [|done].
  destruct (check_chain fuel h a v) as [r|] eqn:Ec; [|done]. destruct r as [[]|e|]; cbn [res_bind]; try done. intros [= <-].
  apply finite_insert; [|done]. apply chain_insert_off; [done|]. by eapply check_chain_off.
Qed.

Lemma heap_finite h : rtc heap_step ∅ h → chains_finite h.
Proof.
  intros Hr. cut (chains_finite ∅ → chains_finite h); [intros H; apply H; intros a o Ha; by rewrite lookup_empty in Ha|].
  induction Hr as [h|h1 h2 h3 Hs _ IH]; intros Hf; [done|]. apply IH. clear IH. destruct Hs as [a o Ha Hv|a o o' Ha Hp|fuel a o v h' Ha Hv Hset].
  - apply finite_insert; [|done]. pose proof (valid_chain _ _ Hf Hv) as Hce. apply chain_insert_off; [done|]. by eapply chain_off_free.
  - apply finite_insert; [|done]. rewrite Hp. apply chain_insert_off; [by eapply Hf|]. by apply proto_off_self.
  - by eapply set_proto_finite.
Qed.
End Proto.

(** C34: Prototype chains: in every heap that allocations, writes and [set_proto]
    calls build from nothing, each prototype chain ends; and [set_proto] of an
    object in it answers after finitely many rounds: it refuses a value that is
    neither null nor an object, it refuses a prototype whose chain contains the
    object, and it stores any other. *)
Theorem set_proto_answers h a o v :
  rtc Proto.heap_step ∅ h → h !! a = Some o → Proto.valid h v = true →
  Proto.chain_ends h (JsObject.proto o) ∧
  ∃ n, ∀ fuel, (n <= fuel)%nat →
    (JsValue.is_null v = true ∧ Proto.set_proto fuel h a o v = Some (Ok (<[a := Proto.store_proto o v]> h))) ∨
    (JsValue.is_null v = false ∧ JsValue.is_object v = false ∧
       Proto.set_proto fuel h a o v = Some (Err "__proto__ must be an object or null")) ∨
    (JsValue.is_object v = true ∧ Proto.on_chain h a v ∧ Proto.set_proto fuel h a o v = Some (Err "cyclic __proto__ value")) ∨
    (JsValue.is_object v = true ∧ ¬ Proto.on_chain h a v ∧
       Proto.set_proto fuel h a o v = Some (Ok (<[a := Proto.store_proto o v]> h))).
Proof.
  intros Hr Ha Hv. pose proof (Proto.heap_finite h Hr) as Hf. split; [by eapply Hf|].
  destruct (Proto.check_chain_answers h a v (Proto.valid_chain h v Hf Hv)) as [n Hn]. exists n. intros fuel Hle. unfold Proto.set_proto.
  destruct (JsValue.is_null v) eqn:En; [by left|right]. destruct (JsValue.is_object v) eqn:Eo; cbn [negb]; [right|by left].
  destruct (Hn fuel Hle) as [[Hon ->]|[Hon ->]]; [left|right]; done.
Qed.

(** Two objects: the second has the first as its prototype, and the first may not
    have the second as its own. *)
Lemma set_proto_answers_witness :
  let o1 := JsObject.new_empty 0 JsValue.null in
  let o2 := JsObject.new_empty 0 (JsValue.object 8) in
  let h : gmap N JsObject.t := <[16 := o2]> (<[8 := o1]> ∅) in
  ∃ n, ∀ fuel, (n <= fuel)%nat → Proto.set_proto fuel h 8 o1 (JsValue.object 16) = Some (Err "cyclic __proto__ value").
Proof.
  intros o1 o2 h.
  destruct (set_proto_answers h 8 o1 (JsValue.object 16)) as (_ & n & Hn).
  - eapply rtc_l; [apply (Proto.step_alloc _ 8 o1)|eapply rtc_l; [apply (Proto.step_alloc _ 16 o2)|apply rtc_refl]]; by vm_compute.
  - by vm_compute.
  - by vm_compute.
  - exists n. intros fuel Hle. destruct (Hn fuel Hle) as [[E _]|[(_ & E & _)|[(_ & _ & E)|(_ & Hoff & _)]]]; [done|done|exact E|].
    exfalso. apply Hoff. apply (Proto.on_next _ _ _ o2); [done|by vm_compute|]. by apply Proto.on_here.
Defined.
