(* ===== verification/Civil.v ===== *)
(** * ISO dates (crates/oxide_builtins/src/temporal/common.rs, difference.rs, plain_date.rs)

    Days since 1970-01-01 and civil dates, adding months and days, comparing
    dates, and the difference of two dates in years, months, weeks and days.

    [i128] is [Z].  A duration is an array of ten [f64] components of which the
    code here only writes integers: a component is the integer it holds, with
    the rounding of [as f64] written out ([as_f64]) and the saturation of
    [as i128] ([as_i128]). *)

From stdpp Require Import base tactics numbers list option.
From Stdlib Require Import ZArith Lia.
From S2P Require Import Prelude.

Open Scope Z_scope.

(** Linear arithmetic with divisions by constants. *)
Ltac dlia := Z.to_euclidean_division_equations; lia.

Module Civil.
Abbreviation date := (Z * Z * Z)%type.

(** ** Calendar rules (common.rs) *)

Definition is_leap_year (year : Z) : bool :=
  (year mod 4 =? 0) && (negb (year mod 100 =? 0) || (year mod 400 =? 0)).

Definition days_in_month (year month : Z) : option Z :=
  match month with
  | 1 | 3 | 5 | 7 | 8 | 10 | 12 => Some 31
  | 4 | 6 | 9 | 11 => Some 30
  | 2 => Some (if is_leap_year year then 29 else 28)
  | _ => None
  end.

(** [/] on [i128] truncates; [div_euclid] by a positive number is [Z.div]. *)
Definition days_from_civil (year month day : Z) : Z :=
  let year := year - (if month <=? 2 then 1 else 0) in
  let era := year / 400 in
  let year_of_era := year - era * 400 in
  let shifted_month := month + (if 2 <? month then -3 else 9) in
  let day_of_year := Z.quot (153 * shifted_month + 2) 5 + day - 1 in
  let day_of_era := year_of_era * 365 + Z.quot year_of_era 4 - Z.quot year_of_era 100 + day_of_year in
  era * 146097 + day_of_era - 719468.

Definition civil_from_days (days : Z) : date :=
  let shifted := days + 719468 in
  let era := shifted / 146097 in
  let day_of_era := shifted - era * 146097 in
  let year_of_era :=
    Z.quot (day_of_era - Z.quot day_of_era 1460 + Z.quot day_of_era 36524 - Z.quot day_of_era 146096) 365 in
  let year := year_of_era + era * 400 in
  let day_of_year := day_of_era - (365 * year_of_era + Z.quot year_of_era 4 - Z.quot year_of_era 100) in
  let month_prime := Z.quot (5 * day_of_year + 2) 153 in
  let day := day_of_year - Z.quot (153 * month_prime + 2) 5 + 1 in
  let month := month_prime + (if month_prime <? 10 then 3 else -9) in
  let year := year + (if month <=? 2 then 1 else 0) in
  (year, month, day).

Definition iso_year_month_within_limits (year month : Z) : bool :=
  if negb ((-271821 <=? year) && (year <=? 275760)) then false
  else negb (((year =? -271821) && (month <? 4)) || ((year =? 275760) && (9 <? month))).

(** plain_date.rs *)
Definition valid_iso_date (year month day : Z) : bool :=
  match days_in_month year month with
  | Some days => negb (day =? 0) && (day <=? days)
  | None => false
  end.

(** ** Durations *)

(** [z as f64], rounded to 53 bits, ties to even. *)
Definition as_f64 (z : Z) : Z :=
  let k := Z.log2 (Z.abs z) - 52 in
  if k <=? 0 then z
  else
    let q := Z.abs z / 2^k in
    let r := Z.abs z mod 2^k in
    let q := if (2 * r >? 2^k) || ((2 * r =? 2^k) && Z.odd q) then q + 1 else q in
    Z.sgn z * (q * 2^k).

(** [f as i128] saturates. *)
Definition as_i128 (f : Z) : Z := Z.max (- 2^127) (Z.min (2^127 - 1) f).

Definition zero_values : list Z := replicate 10 0.

(** ** Date arithmetic (difference.rs) *)

Definition compare_iso_date (a b : date) : Z :=
  let '(a0, a1, a2) := a in let '(b0, b1, b2) := b in
  if negb (a0 =? b0) then (if a0 <? b0 then -1 else 1)
  else if negb (a1 =? b1) then (if a1 <? b1 then -1 else 1)
  else if negb (a2 =? b2) then (if a2 <? b2 then -1 else 1)
  else 0.

Definition surpasses_with_day (sign : Z) (candidate : date) (day_override : Z) (end_ : date) : bool :=
  let cmp := compare_iso_date (candidate.1.1, candidate.1.2, day_override) end_ in
  if 0 <? sign then 0 <? cmp else cmp <? 0.

Definition days_of (a : date) : Z := days_from_civil a.1.1 a.1.2 a.2.

Definition add_days_iso (a : date) (days : Z) : date := civil_from_days (days_of a + days).

Definition add_months_i128 (year month day months : Z) : date :=
  let total := year * 12 + (month - 1) + months in
  let ny := total / 12 in
  let nm := total mod 12 + 1 in
  let max_day := default 31 (days_in_month ny nm) in
  (ny, nm, Z.min day max_day).

(** The loop of [date_until_iso]: the months and the last date that does not pass
    the end. *)
Fixpoint until_loop (fuel : nat) (sign : Z) (start end_ : date) (years months : Z) (current : date) : res (Z * date) :=
  match fuel with
  | O => Panic
  | S fuel =>
      let months := months + sign in
      let candidate := add_months_i128 start.1.1 start.1.2 start.2 (years * 12 + months) in
      let cmp := (candidate.1.1, candidate.1.2, start.2) in
      if surpasses_with_day sign cmp start.2 end_ then Ok (months - sign, current)
      else until_loop fuel sign start end_ years months candidate
  end.

(** One round per month between the two dates, and the last one. *)
Definition until_fuel (start end_ : date) : nat := Z.to_nat (12 * Z.abs (end_.1.1 - start.1.1) + 48).

Definition date_until_iso (start end_ : date) (largest : nat) : res (list Z) :=
  let values := zero_values in
  if (2 <=? largest)%nat then
    let days := days_of end_ - days_of start in
    if (largest =? 2)%nat then
      Ok (<[3%nat := as_f64 (Z.rem days 7)]> (<[2%nat := as_f64 (Z.quot days 7)]> values))
    else Ok (<[3%nat := as_f64 days]> values)
  else
    let sign := compare_iso_date end_ start in
    if sign =? 0 then Ok values
    else
      let diff_years := end_.1.1 - start.1.1 in
      let diff_days := end_.2 - start.2 in
      let diff_in_year_sign :=
        if start.1.2 <? end_.1.2 then 1 else if end_.1.2 <? start.1.2 then -1
        else if 0 <? diff_days then 1 else if diff_days <? 0 then -1 else 0 in
      let years := if diff_in_year_sign * sign <? 0 then diff_years - sign else diff_years in
      let '(years, months) := if (largest =? 1)%nat then (0, years * 12) else (years, 0) in
      let intermediate := add_months_i128 start.1.1 start.1.2 start.2 (years * 12 + months) in
      let years := if surpasses_with_day sign intermediate start.2 end_ then years - sign else years in
      let current := add_months_i128 start.1.1 start.1.2 start.2 (years * 12 + months) in
      let* found := until_loop (until_fuel start end_) sign start end_ years months current in
      let '(months, current) := found in
      let days := days_of end_ - days_of current in
      Ok (<[3%nat := as_f64 days]> (<[1%nat := as_f64 months]> (<[0%nat := as_f64 years]> values))).

Definition date_duration_sign (values : list Z) : Z :=
  match list_find (λ v, v ≠ 0) (take 4 values) with
  | Some (_, v) => if 0 <? v then 1 else -1
  | None => 0
  end.

Definition add_date_duration (a : date) (values : list Z) : date :=
  let years := as_i128 (values !!! 0%nat) in
  let months := as_i128 (values !!! 1%nat) in
  let weeks := as_i128 (values !!! 2%nat) in
  let days := as_i128 (values !!! 3%nat) in
  let d := add_months_i128 a.1.1 a.1.2 a.2 (years * 12 + months) in
  add_days_iso d (weeks * 7 + days).
End Civil.

(** ** Facts *)

Module CivilFacts.
Import Civil.

Definition valid (a : date) : bool := (0 <? a.2) && valid_iso_date a.1.1 a.1.2 a.2.

(** Days before the year that begins in March. *)
Definition year_start (y : Z) : Z := 365 * y + y / 4 - y / 100 + y / 400.
(** Days before the month counted from March. *)
Definition month_start (mp : Z) : Z := (153 * mp + 2) / 5.

Lemma days_from_civil_eq y m d : 1 <= m <= 12 →
  days_from_civil y m d =
    if m <=? 2 then year_start (y - 1) + month_start (m + 9) + d - 1 - 719468
    else year_start y + month_start (m - 3) + d - 1 - 719468.
Proof.
  intros Hm. unfold days_from_civil, year_start, month_start.
  destruct (Z.leb_spec m 2); destruct (Z.ltb_spec 2 m); try lia; dlia.
Qed.

Lemma year_step y : year_start (y + 1) = year_start y + 365 + (if is_leap_year (y + 1) then 1 else 0).
Proof.
  unfold year_start, is_leap_year. destruct (Z.eqb_spec ((y + 1) mod 4) 0), (Z.eqb_spec ((y + 1) mod 100) 0), (Z.eqb_spec ((y + 1) mod 400) 0);
    cbn [andb orb negb]; dlia.
Qed.

Lemma year_start_mono y z : y <= z → year_start y + 365 * (z - y) <= year_start z.
Proof. intros. unfold year_start. dlia. Qed.

(** *** Months numbered from year 0 *)

Definition index (a : date) : Z := 12 * a.1.1 + a.1.2 - 1.
Definition month_len (t : Z) : Z := default 31 (days_in_month (t / 12) (t mod 12 + 1)).
Definition first_day (t : Z) : Z := days_from_civil (t / 12) (t mod 12 + 1) 1.

Lemma month_cases (P : Z → Prop) m : 1 <= m <= 12 →
  P 1 → P 2 → P 3 → P 4 → P 5 → P 6 → P 7 → P 8 → P 9 → P 10 → P 11 → P 12 → P m.
Proof.
  intros Hm **. assert (m = 1 ∨ m = 2 ∨ m = 3 ∨ m = 4 ∨ m = 5 ∨ m = 6 ∨ m = 7 ∨ m = 8 ∨ m = 9 ∨ m = 10 ∨ m = 11 ∨ m = 12) by lia.
  destruct_or!; by subst.
Qed.

Lemma days_in_month_ok y m n : days_in_month y m = Some n → 1 <= m <= 12 ∧ 28 <= n <= 31.
Proof.
  intros H. assert (1 <= m <= 12) as Hm.
  { destruct (decide (1 <= m <= 12)) as [|Hn]; [done|]. exfalso. revert H. unfold days_in_month.
    destruct m as [|p|p]; try done. destruct p as [[[[]|[]|]|[[]|[]|]|]|[[[]|[]|]|[[]|[]|]|]|]; try done; lia. }
  split; [done|]. revert H. pattern m. apply month_cases; [done|..]; cbn; try (intros [= <-]; lia).
  intros [= <-]. destruct (is_leap_year y); lia.
Qed.

Lemma days_in_month_some y m : 1 <= m <= 12 → ∃ n, days_in_month y m = Some n.
Proof. intros Hm. pattern m. apply month_cases; [done|..]; eexists; reflexivity. Qed.

Lemma month_len_bounds t : 28 <= month_len t <= 31.
Proof.
  unfold month_len. destruct (days_in_month _ _) as [n|] eqn:E; [|cbn; lia]. by apply days_in_month_ok in E as [_ ?].
Qed.

Lemma days_first y m d : 1 <= m <= 12 → days_from_civil y m d = first_day (12 * y + m - 1) + d - 1.
Proof.
  intros Hm. unfold first_day. replace ((12 * y + m - 1) / 12) with y by dlia. replace ((12 * y + m - 1) mod 12 + 1) with m by dlia.
  rewrite !days_from_civil_eq by done. destruct (m <=? 2); lia.
Qed.

Lemma month_step t : first_day (t + 1) = first_day t + month_len t.
Proof.
  assert (∃ y r, t = 12 * y + (r - 1) ∧ 1 <= r <= 12) as (y & r & -> & Hr) by (exists (t / 12), (t mod 12 + 1); dlia).
  unfold first_day, month_len. replace ((12 * y + (r - 1)) / 12) with y by dlia. replace ((12 * y + (r - 1)) mod 12 + 1) with r by dlia.
  replace (12 * y + (r - 1) + 1) with (12 * y + r) by lia.
  destruct (decide (r = 12)) as [->|Hne].
  - replace ((12 * y + 12) / 12) with (y + 1) by dlia. replace ((12 * y + 12) mod 12 + 1) with 1 by dlia.
    rewrite !days_from_civil_eq by lia. replace (y + 1 - 1) with y by lia. cbn. unfold month_start. dlia.
  - replace ((12 * y + r) / 12) with y by dlia. replace ((12 * y + r) mod 12 + 1) with (r + 1) by dlia.
    rewrite !days_from_civil_eq by lia. pose proof (year_step (y - 1)) as Hy. replace (y - 1 + 1) with y in Hy by lia.
    revert Hne. pattern r. apply month_cases; [done|..]; intros Hne; cbn; unfold month_start;
      (case Z.leb_spec; intros Hle; [try lia|try lia]); try dlia; try done.
    rewrite Hy. destruct (is_leap_year y); dlia.
Qed.

Lemma first_day_mono t u : t <= u → first_day t + 28 * (u - t) <= first_day u.
Proof.
  intros H. replace u with (t + Z.of_nat (Z.to_nat (u - t))) by lia. induction (Z.to_nat (u - t)) as [|n IH]; [rewrite Z.add_0_r; lia|].
  replace (t + Z.of_nat (S n)) with (t + Z.of_nat n + 1) by lia. rewrite month_step. pose proof (month_len_bounds (t + Z.of_nat n)). lia.
Qed.

Lemma first_day_next t u : t < u → first_day t + month_len t <= first_day u.
Proof. intros H. rewrite <- month_step. pose proof (first_day_mono (t + 1) u). lia. Qed.

(** *** Valid dates *)

Lemma valid_iff y m d : valid (y, m, d) = true ↔ 1 <= m <= 12 ∧ 1 <= d <= month_len (12 * y + m - 1).
Proof.
  unfold valid, valid_iso_date. cbn [fst snd]. destruct (decide (1 <= m <= 12)) as [Hm|Hm].
  - unfold month_len. replace ((12 * y + m - 1) / 12) with y by dlia. replace ((12 * y + m - 1) mod 12 + 1) with m by dlia.
    destruct (days_in_month_some y m Hm) as [n ->]. change (default 31 (Some n)) with n. rewrite !andb_true_iff, negb_true_iff, Z.ltb_lt, Z.eqb_neq, Z.leb_le. lia.
  - destruct (days_in_month y m) as [n|] eqn:E; [apply days_in_month_ok in E; lia|]. rewrite andb_false_r. split; [done|lia].
Qed.

Lemma valid_days a : valid a = true → days_of a = first_day (index a) + a.2 - 1 ∧ 1 <= a.1.2 <= 12 ∧ 1 <= a.2 <= month_len (index a).
Proof. destruct a as [[y m] d]. intros [Hm Hd]%valid_iff. unfold days_of, index. cbn [fst snd]. by rewrite days_first. Qed.

Lemma days_lt a b : valid a = true → valid b = true → index a < index b ∨ (index a = index b ∧ a.2 < b.2) → days_of a < days_of b.
Proof.
  intros (Ea & _ & Ha)%valid_days (Eb & _ & Hb)%valid_days [Hlt|[He Hd]].
  - pose proof (first_day_next _ _ Hlt). lia.
  - rewrite Ea, Eb, He. lia.
Qed.

Lemma date_eq (a b : date) : 1 <= a.1.2 <= 12 → 1 <= b.1.2 <= 12 → index a = index b → a.2 = b.2 → a = b.
Proof.
  destruct a as [[y m] d], b as [[y' m'] d']. unfold index. cbn [fst snd]. intros Hm Hm' Hi ->. assert (y = y') as -> by lia.
  by assert (m = m') as -> by lia.
Qed.

Lemma days_inj a b : valid a = true → valid b = true → days_of a = days_of b → a = b.
Proof.
  intros Ha Hb Hd. pose proof (valid_days a Ha) as (_ & Hma & _). pose proof (valid_days b Hb) as (_ & Hmb & _).
  pose proof (days_lt a b Ha Hb). pose proof (days_lt b a Hb Ha). apply date_eq; try done; lia.
Qed.

(** The year, counted from March, that contains a day, and the day in it. *)
Lemma era_split s : let era := s / 146097 in let doe := s - era * 146097 in
  let yoe := Z.quot (doe - Z.quot doe 1460 + Z.quot doe 36524 - Z.quot doe 146096) 365 in
  let doy := doe - (365 * yoe + Z.quot yoe 4 - Z.quot yoe 100) in
  s = year_start (yoe + era * 400) + doy ∧ 0 <= doy ∧ doy < 365 + (if is_leap_year (yoe + era * 400 + 1) then 1 else 0).
Proof.
  intros era doe yoe doy. assert (0 <= doe < 146097) as Hdoe by (unfold doe, era; dlia).
  assert (0 <= yoe <= 399 ∧ 0 <= doy <= 365) as [Hyoe Hdoy] by (unfold doy, yoe; dlia).
  assert (s = year_start (yoe + era * 400) + doy) as Hs by (unfold doy, doe, year_start; clearbody yoe era; dlia).
  assert (doe < 365 * (yoe + 1) + (yoe + 1) / 4 - (yoe + 1) / 100 + (yoe + 1) / 400) as Hnext by (unfold yoe; clear -Hdoe; dlia).
  split_and!; [done|lia|]. pose proof (year_step (yoe + era * 400)) as Hst.
  assert (year_start (yoe + era * 400 + 1) = 365 * (yoe + 1) + (yoe + 1) / 4 - (yoe + 1) / 100 + (yoe + 1) / 400 + era * 146097) as He
    by (unfold year_start; clearbody yoe era; dlia).
  assert (s = doe + era * 146097) by (unfold doe; lia). lia.
Qed.

Lemma month_split doy : 0 <= doy <= 365 → let mp := Z.quot (5 * doy + 2) 153 in
  0 <= mp <= 11 ∧ month_start mp <= doy ∧ (mp < 11 → doy < month_start (mp + 1)) ∧ Z.quot (153 * mp + 2) 5 = month_start mp.
Proof. intros H mp. unfold mp, month_start. split_and!; dlia. Qed.

Lemma civil_ok z : valid (civil_from_days z) = true ∧ days_of (civil_from_days z) = z.
Proof.
  unfold civil_from_days. destruct (era_split (z + 719468)) as (Hs & Hd0 & Hd1). revert Hs Hd0 Hd1.
  set (era := _ / 146097). set (doe := z + 719468 - _). set (yoe := Z.quot _ 365). set (doy := doe - _).
  intros Hs Hd0 Hd1. destruct (month_split doy) as (Hmp & Hm0 & Hm1 & Eq); [destruct (is_leap_year _); lia|].
  revert Hmp Hm0 Hm1 Eq. set (mp := Z.quot _ 153). intros Hmp Hm0 Hm1 Eq. rewrite Eq. clearbody mp doy yoe doe era. set (y := yoe + era * 400) in *.
  clearbody y. clear yoe era doe Eq.
  unfold valid, valid_iso_date, days_of. cbn [fst snd]. destruct (Z.ltb_spec mp 10) as [Hlt|Hge].
  - destruct (Z.leb_spec (mp + 3) 2); [lia|]. replace (y + 0) with y by lia. rewrite days_from_civil_eq by lia.
    destruct (Z.leb_spec (mp + 3) 2); [lia|]. replace (mp + 3 - 3) with mp by lia. split; [|lia].
    destruct (days_in_month_some y (mp + 3)) as [n En]; [lia|]. rewrite En.
    assert (doy - month_start mp + 1 <= n); [|rewrite !andb_true_iff, negb_true_iff, Z.ltb_lt, Z.eqb_neq, Z.leb_le; lia].
    specialize (Hm1 ltac:(lia)). clear -Hlt Hmp Hm1 En. revert En Hm1.
    assert (mp = 0 ∨ mp = 1 ∨ mp = 2 ∨ mp = 3 ∨ mp = 4 ∨ mp = 5 ∨ mp = 6 ∨ mp = 7 ∨ mp = 8 ∨ mp = 9) as Hc by lia.
    destruct_or! Hc; subst; intros [= <-]; unfold month_start; dlia.
  - replace (mp + -9) with (mp - 9) by lia. destruct (Z.leb_spec (mp - 9) 2); [|lia]. rewrite days_from_civil_eq by lia.
    destruct (Z.leb_spec (mp - 9) 2); [|lia]. replace (y + 1 - 1) with y by lia. replace (mp - 9 + 9) with mp by lia. split; [|lia].
    assert (mp = 10 ∨ mp = 11) as [->| ->] by lia.
    + specialize (Hm1 ltac:(lia)). change (month_start (10 + 1)) with 337 in Hm1. change (month_start 10) with 306 in *.
      change (days_in_month (y + 1) (10 - 9)) with (Some 31). rewrite !andb_true_iff, negb_true_iff, Z.ltb_lt, Z.eqb_neq, Z.leb_le. lia.
    + change (month_start 11) with 337 in *. change (days_in_month (y + 1) (11 - 9)) with (Some (if is_leap_year (y + 1) then 29 else 28)).
      rewrite !andb_true_iff, negb_true_iff, Z.ltb_lt, Z.eqb_neq, Z.leb_le. destruct (is_leap_year (y + 1)); lia.
Qed.

Lemma civil_back a : valid a = true → civil_from_days (days_of a) = a.
Proof. intros Ha. destruct (civil_ok (days_of a)) as [Hv Hd]. by apply days_inj. Qed.

(** *** Comparison and months *)

Definition before (a b : date) : Prop := index a < index b ∨ (index a = index b ∧ a.2 < b.2).

Lemma compare_cases (a b : date) : 1 <= a.1.2 <= 12 → 1 <= b.1.2 <= 12 →
  (compare_iso_date a b = -1 ∧ before a b) ∨ (compare_iso_date a b = 0 ∧ a = b) ∨ (compare_iso_date a b = 1 ∧ before b a).
Proof.
  destruct a as [[y m] d], b as [[y' m'] d']. unfold compare_iso_date, before, index. cbn [fst snd]. intros Hm Hm'.
  destruct (Z.eqb_spec y y') as [->|]; cbn [negb]; [|destruct (Z.ltb_spec y y'); lia].
  destruct (Z.eqb_spec m m') as [->|]; cbn [negb]; [|destruct (Z.ltb_spec m m'); lia].
  destruct (Z.eqb_spec d d') as [->|]; cbn [negb]; [|destruct (Z.ltb_spec d d'); lia]. auto.
Qed.

Lemma add_months_spec y m d n : let r := add_months_i128 y m d n in
  index r = 12 * y + m - 1 + n ∧ 1 <= r.1.2 <= 12 ∧ r.2 = Z.min d (month_len (index r)).
Proof.
  unfold add_months_i128, index. cbn [fst snd]. split_and!; try dlia. unfold month_len.
  set (t := y * 12 + (m - 1) + n). by replace (12 * (t / 12) + (t mod 12 + 1) - 1) with t by dlia.
Qed.

Lemma add_months_valid y m d n : 1 <= d → valid (add_months_i128 y m d n) = true.
Proof.
  intros Hd. destruct (add_months_spec y m d n) as (_ & Hm & Hday). destruct (add_months_i128 y m d n) as [[y' m'] d'].
  apply valid_iff. unfold index in Hday. cbn [fst snd] in *. pose proof (month_len_bounds (12 * y' + m' - 1)). lia.
Qed.

Lemma add_no_months a : valid a = true → add_months_i128 a.1.1 a.1.2 a.2 0 = a.
Proof.
  intros (_ & Hm & Hd)%valid_days. destruct (add_months_spec a.1.1 a.1.2 a.2 0) as (Hi & Hm' & Hd').
  assert (index (add_months_i128 a.1.1 a.1.2 a.2 0) = index a) as Ei by (rewrite Hi; unfold index; lia).
  apply date_eq; try done. rewrite Hd', Ei. lia.
Qed.

Section until.
Context (start end_ : date) (Hstart : valid start = true) (Hend : valid end_ = true).

(** The number of whole months from [start] towards [end_]. *)
Definition whole_months (sign : Z) : Z :=
  index end_ - index start - (if 0 <? sign then if end_.2 <? start.2 then 1 else 0 else if start.2 <? end_.2 then -1 else 0).

Definition month_after (n : Z) : date := add_months_i128 start.1.1 start.1.2 start.2 n.

Lemma month_after_index n : index (month_after n) = index start + n ∧ 1 <= (month_after n).1.2 <= 12.
Proof. unfold month_after. destruct (add_months_spec start.1.1 start.1.2 start.2 n) as (-> & Hm & _). split; [unfold index; lia|done]. Qed.

Lemma surpasses_iff sign n d : sign = 1 ∨ sign = -1 →
  surpasses_with_day sign ((month_after n).1.1, (month_after n).1.2, d) start.2 end_ = (sign * (whole_months sign - n) <? 0).
Proof.
  intros Hsign. pose proof (valid_days _ Hend) as (_ & Hme & _). destruct (month_after_index n) as [Hi Hm].
  unfold surpasses_with_day. cbn [fst snd]. set (c := ((month_after n).1.1, (month_after n).1.2, start.2)).
  assert (index c = index start + n ∧ c.2 = start.2 ∧ 1 <= c.1.2 <= 12) as (Hc & Hc2 & Hcm) by (split_and!; [rewrite <- Hi; reflexivity|done|apply Hm..]).
  clearbody c. unfold whole_months.
  assert ((compare_iso_date c end_ = -1 ∧ before c end_) ∨ (compare_iso_date c end_ = 0 ∧ index c = index end_ ∧ c.2 = end_.2) ∨
    (compare_iso_date c end_ = 1 ∧ before end_ c)) as Hcmp.
  { destruct (compare_cases c end_ Hcm Hme) as [?|[[? ->]|?]]; auto. }
  unfold before in Hcmp. destruct Hsign as [-> | ->]; cbn [Z.ltb Z.compare]; destruct Hcmp as [[-> Hb]|[[-> He]|[-> Hb]]];
    destruct (Z.ltb_spec end_.2 start.2), (Z.ltb_spec start.2 end_.2);
    (match goal with |- _ = (?x <? 0) => destruct (Z.ltb_spec x 0) end); try reflexivity; exfalso; lia.
Qed.

Lemma until_loop_ok sign years : sign = 1 ∨ sign = -1 → ∀ fuel months,
  0 <= sign * (whole_months sign - (years * 12 + months)) < Z.of_nat fuel →
  until_loop fuel sign start end_ years months (month_after (years * 12 + months)) =
    Ok (whole_months sign - years * 12, month_after (whole_months sign)).
Proof.
  intros Hsign. induction fuel as [|fuel IH]; intros months Hf; [lia|]. cbn [until_loop].
  fold (month_after (years * 12 + (months + sign))). rewrite surpasses_iff by done.
  destruct (Z.ltb_spec (sign * (whole_months sign - (years * 12 + (months + sign)))) 0) as [Hlt|Hge].
  - assert (whole_months sign = years * 12 + months) as -> by (destruct Hsign as [-> | ->]; lia). do 2 f_equal. lia.
  - apply IH. destruct Hsign as [-> | ->]; lia.
Qed.

(** The date on which the whole months end, and what is left to the end. *)
Lemma days_left sign : sign = 1 ∨ sign = -1 →
  0 <= sign * (days_of end_ - days_of (month_after (whole_months sign))) <= 30.
Proof.
  intros Hsign. pose proof (valid_days _ Hend) as (Ee & _ & Hde). pose proof (valid_days _ Hstart) as (_ & _ & Hds).
  destruct (valid_days (month_after (whole_months sign))) as (Ec & _ & _); [apply add_months_valid; lia|].
  destruct (add_months_spec start.1.1 start.1.2 start.2 (whole_months sign)) as (Hi & _ & Hd). fold (month_after (whole_months sign)) in *.
  assert (index (month_after (whole_months sign)) = index start + whole_months sign) as Hi' by apply month_after_index.
  rewrite Ee, Ec, Hd, Hi'. pose proof (month_step (index end_)) as Hs0. pose proof (month_step (index end_ - 1)) as Hs1.
  replace (index end_ - 1 + 1) with (index end_) in Hs1 by lia. pose proof (month_len_bounds (index end_)). pose proof (month_len_bounds (index end_ - 1)).
  pose proof (month_len_bounds (index end_ + 1)). pose proof (month_len_bounds (index start)). unfold whole_months.
  destruct Hsign as [-> | ->]; cbn [Z.ltb Z.compare]; [destruct (Z.ltb_spec end_.2 start.2)|destruct (Z.ltb_spec start.2 end_.2)].
  - replace (index start + (index end_ - index start - 1)) with (index end_ - 1) by lia. lia.
  - replace (index start + (index end_ - index start - 0)) with (index end_) by lia. lia.
  - replace (index start + (index end_ - index start - -1)) with (index end_ + 1) by lia. lia.
  - replace (index start + (index end_ - index start - 0)) with (index end_) by lia. lia.
Qed.

(** The whole years the code starts from leave less than twelve months. *)
Lemma whole_years sign years : sign = compare_iso_date end_ start → sign ≠ 0 →
  years = (if (if start.1.2 <? end_.1.2 then 1 else if end_.1.2 <? start.1.2 then -1
               else if 0 <? end_.2 - start.2 then 1 else if end_.2 - start.2 <? 0 then -1 else 0) * sign <? 0
           then end_.1.1 - start.1.1 - sign else end_.1.1 - start.1.1) →
  (sign = 1 ∨ sign = -1) ∧ 0 <= sign * (whole_months sign - years * 12) <= 11.
Proof.
  intros Es Hne Ey. pose proof (valid_days _ Hend) as (_ & Hme & _). pose proof (valid_days _ Hstart) as (_ & Hms & _).
  assert ((sign = -1 ∧ before end_ start) ∨ (sign = 1 ∧ before start end_)) as Hs.
  { destruct (compare_cases end_ start Hme Hms) as [[E Hb]|[[E _]|[E Hb]]]; rewrite E in Es; [left|by subst|right]; done. }
  split; [destruct Hs as [[? _]|[? _]]; auto|]. unfold whole_months, before, index in *. clear Es Hne. revert Ey.
  destruct Hs as [[-> Hb]|[-> Hb]]; cbn [Z.ltb Z.compare];
    destruct (Z.ltb_spec start.1.2 end_.1.2), (Z.ltb_spec end_.1.2 start.1.2), (Z.ltb_spec 0 (end_.2 - start.2)), (Z.ltb_spec (end_.2 - start.2) 0),
      (Z.ltb_spec start.2 end_.2), (Z.ltb_spec end_.2 start.2); intros ->;
    match goal with |- context [Z.ltb (?a * ?b) 0] => destruct (Z.ltb_spec (a * b) 0) end; lia.
Qed.

Lemma until_months_ok largest (Hl : (largest < 2)%nat) (sign := compare_iso_date end_ start) : sign ≠ 0 →
  ∃ years months, years * 12 + months = whole_months sign ∧ (sign = 1 ∨ sign = -1) ∧
    date_until_iso start end_ largest =
      Ok [as_f64 years; as_f64 months; 0; as_f64 (days_of end_ - days_of (month_after (whole_months sign))); 0; 0; 0; 0; 0; 0] ∧
    (largest = 0%nat → 0 <= sign * months <= 11 ∧ 0 <= sign * years) ∧ (largest = 1%nat → years = 0 ∧ 0 <= sign * months).
Proof.
  intros Hne. unfold date_until_iso. rewrite (proj2 (Nat.leb_gt 2 largest)) by done. fold sign. rewrite (proj2 (Z.eqb_neq sign 0)) by done.
  set (years0 := if _ <? 0 then _ else _). destruct (whole_years sign years0 eq_refl Hne eq_refl) as [Hsign Hy].
  assert (0 <= sign * years0) as Hy0.
  { clear Hy. pose proof (valid_days _ Hend) as (_ & Hme & _). pose proof (valid_days _ Hstart) as (_ & Hms & _). subst years0.
    destruct (compare_cases end_ start Hme Hms) as [[E Hb]|[[E _]|[E Hb]]]; fold sign in E; rewrite E in *; [|done|];
      unfold before, index in Hb;
      destruct (Z.ltb_spec start.1.2 end_.1.2), (Z.ltb_spec end_.1.2 start.1.2), (Z.ltb_spec 0 (end_.2 - start.2)), (Z.ltb_spec (end_.2 - start.2) 0);
      match goal with |- context [Z.ltb (?a * ?b) 0] => destruct (Z.ltb_spec (a * b) 0) end; lia. }
  assert (∀ y m, y * 12 + m = years0 * 12 →
    surpasses_with_day sign (add_months_i128 start.1.1 start.1.2 start.2 (y * 12 + m)) start.2 end_ = false) as Hsur.
  { intros y m ->. change (add_months_i128 _ _ _ _) with (month_after (years0 * 12)). rewrite (surjective_pairing (month_after _)), (surjective_pairing (month_after _).1).
    rewrite surpasses_iff by done. apply Z.ltb_ge. lia. }
  assert (∀ y m, y * 12 + m = years0 * 12 →
    until_loop (until_fuel start end_) sign start end_ y m (add_months_i128 start.1.1 start.1.2 start.2 (y * 12 + m)) =
      Ok (whole_months sign - y * 12, month_after (whole_months sign))) as Hloop.
  { intros y m E. apply until_loop_ok; [done|]. rewrite E. unfold until_fuel. lia. }
  destruct largest as [|[|?]]; [|..|lia]; cbn [Nat.eqb]; rewrite Hsur by lia; rewrite Hloop by lia; cbn [res_bind].
  - exists years0, (whole_months sign - years0 * 12). split_and!; [lia|done|reflexivity|lia|done].
  - exists 0, (whole_months sign). split_and!; [lia|done|by replace (whole_months sign - 0 * 12) with (whole_months sign) by lia|done|]. intros _. split; [done|]. destruct Hsign as [E|E]; rewrite E in *; lia.
Qed.
End until.

Lemma as_f64_small z : Z.abs z < 2^53 → as_f64 z = z.
Proof.
  intros Hz. unfold as_f64. destruct (Z.leb_spec (Z.log2 (Z.abs z) - 52) 0) as [|Hgt]; [done|]. exfalso.
  destruct (decide (z = 0)) as [->|Hne]; [change (Z.log2 (Z.abs 0)) with 0 in Hgt; lia|]. apply Z.log2_lt_pow2 in Hz; lia.
Qed.

Lemma as_i128_small z : Z.abs z < 2^53 → as_i128 z = z.
Proof. intros Hz. unfold as_i128. assert (2^53 < 2^127 - 1) by done. lia. Qed.

Lemma year_bound a : valid a = true → Z.abs (days_of a) <= 200000000 → Z.abs (a.1.1) <= 600000.
Proof.
  intros (_ & Hm & Hd)%valid_days Ha. unfold days_of in Ha. rewrite days_from_civil_eq in Ha by done. pose proof (month_len_bounds (index a)).
  unfold year_start, month_start in Ha. destruct (a.1.2 <=? 2); dlia.
Qed.

Lemma compare_sgn a b : valid a = true → valid b = true → compare_iso_date a b = Z.sgn (days_of a - days_of b).
Proof.
  intros Ha Hb. pose proof (valid_days a Ha) as (_ & Hma & _). pose proof (valid_days b Hb) as (_ & Hmb & _).
  destruct (compare_cases a b Hma Hmb) as [[-> H]|[[-> ->]|[-> H]]].
  - pose proof (days_lt a b Ha Hb H). rewrite Z.sgn_neg; lia.
  - by rewrite Z.sub_diag.
  - pose proof (days_lt b a Hb Ha H). rewrite Z.sgn_pos; lia.
Qed.

(** Adding components that the two conversions leave alone. *)
Lemma add_parts start y m w d : Z.abs y < 2^53 → Z.abs m < 2^53 → Z.abs w < 2^53 → Z.abs d < 2^53 →
  add_date_duration start [y; m; w; d; 0; 0; 0; 0; 0; 0] = add_days_iso (month_after start (y * 12 + m)) (w * 7 + d).
Proof.
  intros. unfold add_date_duration.
  change ([y; m; w; d; 0; 0; 0; 0; 0; 0] !!! 0%nat) with y. change ([y; m; w; d; 0; 0; 0; 0; 0; 0] !!! 1%nat) with m.
  change ([y; m; w; d; 0; 0; 0; 0; 0; 0] !!! 2%nat) with w. change ([y; m; w; d; 0; 0; 0; 0; 0; 0] !!! 3%nat) with d.
  by rewrite !as_i128_small.
Qed.

Lemma add_reaches c end_ n : valid end_ = true → n = days_of end_ - days_of c → add_days_iso c n = end_.
Proof. intros He ->. unfold add_days_iso. replace (days_of c + (days_of end_ - days_of c)) with (days_of end_) by lia. by apply civil_back. Qed.

Section adds.
Context (start end_ : date) (Hstart : valid start = true) (Hend : valid end_ = true).
Context (Hrs : Z.abs (days_of start) <= 100000000) (Hre : Z.abs (days_of end_) <= 100000000).

Lemma until_days_adds : let d := days_of end_ - days_of start in
  date_until_iso start end_ 3 = Ok [0; 0; 0; d; 0; 0; 0; 0; 0; 0] ∧ add_date_duration start [0; 0; 0; d; 0; 0; 0; 0; 0; 0] = end_.
Proof.
  intros d. assert (Z.abs d < 2^53) as Hd by lia. split.
  - unfold date_until_iso. cbn [Nat.leb Nat.eqb]. fold d. by rewrite as_f64_small.
  - rewrite add_parts by (try done; cbn; lia). unfold month_after. change (0 * 12 + 0) with 0. rewrite add_no_months by done. apply add_reaches; [done|lia].
Qed.

Lemma until_weeks_adds : let d := days_of end_ - days_of start in
  let values := [0; 0; Z.quot d 7; Z.rem d 7; 0; 0; 0; 0; 0; 0] in
  date_until_iso start end_ 2 = Ok values ∧ add_date_duration start values = end_.
Proof.
  intros d values. assert (Z.abs d < 2^50) as Hd by lia. assert (Z.abs (Z.quot d 7) < 2^53 ∧ Z.abs (Z.rem d 7) < 2^53) as [Hq Hr] by dlia. split.
  - unfold date_until_iso. cbn [Nat.leb Nat.eqb]. fold d. by rewrite !as_f64_small.
  - unfold values. rewrite add_parts by (try done; cbn; lia). unfold month_after. change (0 * 12 + 0) with 0. rewrite add_no_months by done.
    apply add_reaches; [done|]. fold d. dlia.
Qed.

Lemma until_months_adds largest (sign := compare_iso_date end_ start) : (largest < 2)%nat → sign ≠ 0 →
  ∃ y m d, let values := [y; m; 0; d; 0; 0; 0; 0; 0; 0] in
    date_until_iso start end_ largest = Ok values ∧ add_date_duration start values = end_ ∧ y * 12 + m = whole_months start end_ sign ∧
    (sign = 1 ∨ sign = -1) ∧ 0 <= sign * d <= 30 ∧
    (largest = 0%nat → 0 <= sign * m <= 11 ∧ 0 <= sign * y) ∧ (largest = 1%nat → y = 0 ∧ 0 <= sign * m).
Proof.
  intros Hl Hne. destruct (until_months_ok start end_ Hstart Hend largest Hl Hne) as (y & m & Ew & Hsign & Eu & H0 & H1). fold sign in Ew, Hsign, Eu, H0, H1.
  set (d := days_of end_ - _) in Eu. pose proof (days_left start end_ Hstart Hend sign Hsign) as Hd. fold d in Hd.
  pose proof (year_bound _ Hstart ltac:(lia)). pose proof (year_bound _ Hend ltac:(lia)).
  pose proof (valid_days _ Hstart) as (_ & Hms & _). pose proof (valid_days _ Hend) as (_ & Hme & _).
  assert (Z.abs (whole_months start end_ sign) < 2^50) as Hw.
  { unfold whole_months, index. destruct (0 <? sign), (end_.2 <? start.2), (start.2 <? end_.2); lia. }
  assert (Z.abs y < 2^53 ∧ Z.abs m < 2^53 ∧ Z.abs d < 2^53) as (Hy & Hm & Hdd).
  { destruct largest as [|[|?]]; [specialize (H0 eq_refl)|specialize (H1 eq_refl)|lia]; destruct Hsign as [E|E]; rewrite E in *; lia. }
  rewrite !as_f64_small in Eu by done. exists y, m, d. split_and!; try done; try lia.
  rewrite add_parts by done. rewrite Ew. apply add_reaches; [done|]. unfold d. lia.
Qed.

Lemma until_same largest (sign := compare_iso_date end_ start) : (largest < 2)%nat → sign = 0 →
  date_until_iso start end_ largest = Ok [0; 0; 0; 0; 0; 0; 0; 0; 0; 0] ∧ add_date_duration start [0; 0; 0; 0; 0; 0; 0; 0; 0; 0] = end_.
Proof.
  intros Hl E0. assert (days_of end_ - days_of start = 0) as Hd.
  { apply Z.sgn_null_iff. by rewrite <- compare_sgn. }
  split.
  - unfold date_until_iso. rewrite (proj2 (Nat.leb_gt 2 largest)) by done. fold sign. by rewrite E0.
  - pose proof (proj2 until_days_adds) as H. by rewrite Hd in H.
Qed.

(** One month more than the whole months passes the end. *)
Lemma month_more n sign : sign = 1 ∨ sign = -1 → n = whole_months start end_ sign →
  surpasses_with_day sign (add_months_i128 start.1.1 start.1.2 start.2 (n + sign)) start.2 end_ = true.
Proof.
  intros Hsign ->. change (add_months_i128 _ _ _ _) with (month_after start (whole_months start end_ sign + sign)).
  rewrite (surjective_pairing (month_after _ _)), (surjective_pairing (month_after _ _).1). rewrite surpasses_iff by done.
  apply Z.ltb_lt. destruct Hsign as [-> | ->]; lia.
Qed.
End adds.
Lemma until_adds start end_ largest (sign := compare_iso_date end_ start) :
  valid start = true → valid end_ = true → (largest <= 3)%nat →
  Z.abs (days_of start) <= 100000000 → Z.abs (days_of end_) <= 100000000 →
  ∃ y m w d, let values := [y; m; w; d; 0; 0; 0; 0; 0; 0] in
    date_until_iso start end_ largest = Ok values ∧ add_date_duration start values = end_ ∧
    (0 <= sign * y ∧ 0 <= sign * m ∧ 0 <= sign * w ∧ 0 <= sign * d) ∧
    match largest with
    | 0%nat => Z.abs m <= 11 ∧ w = 0 ∧ Z.abs d <= 30
    | 1%nat => y = 0 ∧ w = 0 ∧ Z.abs d <= 30
    | 2%nat => y = 0 ∧ m = 0 ∧ Z.abs d <= 6
    | _ => y = 0 ∧ m = 0 ∧ w = 0 ∧ d = days_of end_ - days_of start
    end ∧
    ((largest < 2)%nat → sign ≠ 0 → y * 12 + m = whole_months start end_ sign) ∧
    (sign = 0 → y = 0 ∧ m = 0 ∧ w = 0 ∧ d = 0).
Proof.
  intros Hs He Hl Hrs Hre. pose proof (compare_sgn _ _ He Hs) as Esign. fold sign in Esign.
  assert (largest < 2 ∨ largest = 2 ∨ largest = 3)%nat as [Hlt|[-> | ->]] by lia.
  - destruct (decide (sign = 0)) as [E0|Hne].
    + destruct (until_same start end_ Hs He Hrs Hre largest Hlt E0) as [Hu Ha]. exists 0, 0, 0, 0.
      split_and!; [done..|lia|lia|lia|lia|destruct largest as [|[|?]]; [lia..|lia]|done|done].
    + destruct (until_months_adds start end_ Hs He Hrs Hre largest Hlt Hne) as (y & m & d & Hu & Ha & Hw & Hsign & Hd & H0 & H1).
      fold sign in Hw, Hsign, Hd, H0, H1. exists y, m, 0, d. split; [done|]. split; [done|].
      destruct largest as [|[|?]]; [specialize (H0 eq_refl)|specialize (H1 eq_refl)|lia];
        (split; [|split; [|done]]); clear Hw; destruct Hsign as [E|E]; rewrite E in *; lia.
  - destruct (until_weeks_adds start end_ Hs He Hrs Hre) as [Hu Ha]. set (n := days_of end_ - days_of start) in *.
    exists 0, 0, (Z.quot n 7), (Z.rem n 7). split; [exact Hu|]. split; [exact Ha|]. split_and!; try lia; clear -Esign; dlia.
  - destruct (until_days_adds start end_ Hs He Hrs Hre) as [Hu Ha]. set (n := days_of end_ - days_of start) in *.
    exists 0, 0, 0, n. split; [exact Hu|]. split; [exact Ha|]. split_and!; try lia.
Qed.
End CivilFacts.

(** ** Theorems *)

(** Days and civil dates.  Every day number names a valid date that gives the
    number back, every valid date is the one its day number names, and the
    order of dates is the order of their numbers. *)
Theorem civil_days_bijection z a b :
  CivilFacts.valid a = true → CivilFacts.valid b = true →
  CivilFacts.valid (Civil.civil_from_days z) = true ∧ Civil.days_of (Civil.civil_from_days z) = z ∧
  Civil.civil_from_days (Civil.days_of a) = a ∧
  Civil.compare_iso_date a b = Z.sgn (Civil.days_of a - Civil.days_of b).
Proof.
  intros Ha Hb. destruct (CivilFacts.civil_ok z) as [Hv Hz]. split_and!; [done|done|by apply CivilFacts.civil_back|].
  by apply CivilFacts.compare_sgn.
Qed.

Lemma civil_days_bijection_witness :
  Civil.civil_from_days 19782 = (2024, 2, 29) ∧ Civil.civil_from_days (Civil.days_of (2024, 2, 29)) = (2024, 2, 29) ∧
  Civil.compare_iso_date (2024, 2, 29) (2023, 12, 31) = 1.
Proof.
  split; [by vm_compute|]. destruct (civil_days_bijection 0 (2024, 2, 29) (2023, 12, 31)) as (_ & _ & E1 & E2); [by vm_compute..|].
  split; [exact E1|]. rewrite E2. by vm_compute.
Defined.

(** The difference of two dates.  For any two valid dates in range and any
    largest unit the loop of the difference ends; adding the difference to the
    first date gives the second; its components have one sign, that of the
    comparison; months, weeks and days below the largest unit are within their
    bounds; and with years or months as the largest unit one month more would
    pass the second date. *)
Theorem date_until_adds start end_ largest (sign := Civil.compare_iso_date end_ start) :
  CivilFacts.valid start = true → CivilFacts.valid end_ = true → (largest <= 3)%nat →
  Z.abs (Civil.days_of start) <= 100000000 → Z.abs (Civil.days_of end_) <= 100000000 →
  ∃ y m w d, let values := [y; m; w; d; 0; 0; 0; 0; 0; 0] in
    Civil.date_until_iso start end_ largest = Ok values ∧ Civil.add_date_duration start values = end_ ∧
    (0 <= sign * y ∧ 0 <= sign * m ∧ 0 <= sign * w ∧ 0 <= sign * d) ∧
    match largest with
    | 0%nat => Z.abs m <= 11 ∧ w = 0 ∧ Z.abs d <= 30
    | 1%nat => y = 0 ∧ w = 0 ∧ Z.abs d <= 30
    | 2%nat => y = 0 ∧ m = 0 ∧ Z.abs d <= 6
    | _ => y = 0 ∧ m = 0 ∧ w = 0
    end ∧
    ((largest < 2)%nat → sign ≠ 0 →
       let next := Civil.add_months_i128 start.1.1 start.1.2 start.2 (y * 12 + m + sign) in
       Civil.surpasses_with_day sign next start.2 end_ = true).
Proof.
  intros Hs He Hl Hrs Hre. destruct (CivilFacts.until_adds start end_ largest Hs He Hl Hrs Hre) as (y & m & w & d & Hu & Ha & Hsg & Hb & Hw & _).
  fold sign in Hsg, Hw. exists y, m, w, d. split; [done|]. split; [done|]. split; [done|].
  split; [destruct largest as [|[|[|[|?]]]]; [lia..|]; tauto|]. intros Hlt Hne next. apply CivilFacts.month_more; [done| |by apply Hw].
  pose proof (CivilFacts.compare_sgn _ _ He Hs) as Esign. fold sign in Esign. lia.
Qed.

(** From 29 February 2024 to 1 March 2027, and back. *)
Lemma date_until_adds_witness :
  Civil.date_until_iso (2024, 2, 29) (2027, 3, 1) 0 = Ok [3; 0; 0; 1; 0; 0; 0; 0; 0; 0] ∧
  (∃ y m w d, Civil.date_until_iso (2027, 3, 1) (2024, 2, 29) 1 = Ok [y; m; w; d; 0; 0; 0; 0; 0; 0] ∧
     Civil.add_date_duration (2027, 3, 1) [y; m; w; d; 0; 0; 0; 0; 0; 0] = (2024, 2, 29)).
Proof.
  split; [by vm_compute|].
  destruct (date_until_adds (2027, 3, 1) (2024, 2, 29) 1) as (y & m & w & d & Hu & Ha & _); [by vm_compute|by vm_compute|lia|vm_compute; discriminate|vm_compute; discriminate|].
  by exists y, m, w, d.
Defined.
