(* ===== verification/Hebrew.v ===== *)
(** * The Hebrew calendar (crates/oxide_builtins/src/temporal/calendar.rs)

    The kind of a year (its keviyah) from the new moon of its first month and
    the table of the four gates, the first day of a year, the year that
    contains a day, months within a year, and the month codes.  The theorems
    show that the years abut, so that Hebrew dates and days correspond one to
    one. *)

From stdpp Require Import base tactics numbers list option strings pretty.
From Stdlib Require Import ZArith Lia Ascii String.
From S2P Require Import Prelude Civil.

Open Scope Z_scope.

Module Hebrew.
Definition HEBREW_EPOCH_DAYS : Z := -2092590.
Definition MOLAD_BEHERAD_OFFSET : Z := 31524.
Definition HEBREW_LUNATION_TIME : Z := 765433.
Definition HALAKIM_IN_WEEK : Z := 181440.

Definition hal (d h p : Z) : Z := ((d - 1) * 24 + h) * 1080 + p.

Definition FOUR_GATES_LMINUSONE : list Z :=
  [hal 7 18 0; hal 1 9 204; hal 2 18 0; hal 3 9 204; hal 5 9 204; hal 5 18 0; hal 6 9 204].
Definition FOUR_GATES_LPLUSONE : list Z :=
  [hal 7 18 0; hal 1 9 204; hal 2 15 589; hal 3 9 204; hal 5 9 204; hal 5 18 0; hal 6 0 408].
Definition FOUR_GATES_LPLUSMINUSONE : list Z :=
  [hal 7 18 0; hal 1 9 204; hal 2 15 589; hal 3 9 204; hal 5 9 204; hal 5 18 0; hal 6 9 204].
Definition FOUR_GATES_LEAP : list Z :=
  [hal 7 18 0; hal 1 20 491; hal 2 18 0; hal 3 18 0; hal 4 11 695; hal 5 18 0; hal 6 20 491].

Inductive YearType := Deficient | Regular | Complete.
Definition year_type_value (t : YearType) : Z := match t with Deficient => -1 | Regular => 0 | Complete => 1 end.

Inductive StartOfYear := Monday | Tuesday | Thursday | Saturday.
Definition start_value (s : StartOfYear) : Z := match s with Monday => 2 | Tuesday => 3 | Thursday => 5 | Saturday => 7 end.

Inductive Keviyah :=
  | BetHetGimel | BetShinHe | GimelKafHe | HeKafZayin | HeShinAlef | ZayinHetAlef | ZayinShinGimel
  | BetHetHe | BetShinZayin | GimelKafZayin | HeHetAlef | HeShinGimel | ZayinHetGimel | ZayinShinHe.

Definition keviyah_value (k : Keviyah) : Z :=
  match k with
  | BetHetGimel => 0 | BetShinHe => 1 | GimelKafHe => 2 | HeKafZayin => 3 | HeShinAlef => 4 | ZayinHetAlef => 5
  | ZayinShinGimel => 6 | BetHetHe => 7 | BetShinZayin => 8 | GimelKafZayin => 9 | HeHetAlef => 10
  | HeShinGimel => 11 | ZayinHetGimel => 12 | ZayinShinHe => 13
  end.

Definition year_type (k : Keviyah) : YearType :=
  match k with
  | BetHetGimel => Deficient | BetShinHe => Complete | GimelKafHe => Regular | HeKafZayin => Regular
  | HeShinAlef => Complete | ZayinHetAlef => Deficient | ZayinShinGimel => Complete | BetHetHe => Deficient
  | BetShinZayin => Complete | GimelKafZayin => Regular | HeHetAlef => Deficient | HeShinGimel => Complete
  | ZayinHetGimel => Deficient | ZayinShinHe => Complete
  end.

Definition start_of_year (k : Keviyah) : StartOfYear :=
  match k with
  | BetHetGimel => Monday | BetShinHe => Monday | GimelKafHe => Tuesday | HeKafZayin => Thursday
  | HeShinAlef => Thursday | ZayinHetAlef => Saturday | ZayinShinGimel => Saturday | BetHetHe => Monday
  | BetShinZayin => Monday | GimelKafZayin => Tuesday | HeHetAlef => Thursday | HeShinGimel => Thursday
  | ZayinHetGimel => Saturday | ZayinShinHe => Saturday
  end.

Definition is_leap (k : Keviyah) : bool := keviyah_value BetHetHe <=? keviyah_value k.

(** Arithmetic of [u8], [u16] and [u32]. *)
Definition w8 (z : Z) : Z := z mod 2^8.
Definition w16 (z : Z) : Z := z mod 2^16.
Definition w32 (z : Z) : Z := z mod 2^32.
Definition b2z (b : bool) : Z := if b then 1 else 0.

Definition is_complete (k : Keviyah) : bool := match year_type k with Complete => true | _ => false end.
Definition is_deficient (k : Keviyah) : bool := match year_type k with Deficient => true | _ => false end.

Definition month_len (k : Keviyah) (ordinal_month : Z) : Z :=
  let month_number := w8 (ordinal_month - b2z (is_leap k && (6 <=? ordinal_month))) in
  w8 (29 + w8 (month_number mod 2 + b2z ((ordinal_month =? 2) && is_complete k) - b2z ((ordinal_month =? 3) && is_deficient k))).

Definition days_preceding (k : Keviyah) (ordinal_month : Z) : Z :=
  let month_number := w8 (ordinal_month - b2z (is_leap k && (6 <? ordinal_month))) in
  w16 (29 * w16 (ordinal_month - 1)
       + w8 (month_number / 2 + b2z (is_leap k && (6 <? ordinal_month)) + b2z ((2 <? ordinal_month) && is_complete k)
             - b2z ((3 <? ordinal_month) && is_deficient k))).

(** The loop of [month_day_for]. *)
Fixpoint month_loop (fuel : nat) (k : Keviyah) (day_of_year month days_before_month last_day_of_month : Z) : res (Z * Z) :=
  match fuel with
  | O => Panic
  | S fuel =>
      if last_day_of_month <? day_of_year then
        let month := w8 (month + 1) in
        month_loop fuel k day_of_year month last_day_of_month (days_preceding k (w8 (month + 1)))
      else Ok (month, w8 (w16 (day_of_year - days_before_month)))
  end.

(** A year has at most thirteen months. *)
Definition month_day_for (k : Keviyah) (day_of_year : Z) : res (Z * Z) :=
  let month := w8 (w8 (w16 (day_of_year - 1) / 30) + 1) in
  month_loop 14 k day_of_year month (days_preceding k month) (days_preceding k (w8 (month + 1))).

Definition year_length (k : Keviyah) : Z := w16 ((if is_leap k then 384 else 354) + year_type_value (year_type k)).

Inductive MetonicCycleType := LMinusOne | LPlusOne | LPlusMinusOne | Leap.

Definition for_h_year (h_year : Z) : MetonicCycleType :=
  match h_year mod 19 with
  | 2 | 5 | 10 | 13 | 16 => LMinusOne
  | 1 | 4 | 9 | 12 | 15 => LPlusOne
  | 7 | 18 => LPlusMinusOne
  | _ => Leap
  end.

Definition months_preceding_molad (h_year : Z) : Z := (235 * (h_year - 1) + 1) / 19.

Definition molad_details (h_year : Z) : Z * Z :=
  let months_preceding := months_preceding_molad h_year in
  let molad := MOLAD_BEHERAD_OFFSET + months_preceding * HEBREW_LUNATION_TIME in
  (molad / HALAKIM_IN_WEEK, molad mod HALAKIM_IN_WEEK).

Definition gates_of (cycle_type : MetonicCycleType) : list Z :=
  match cycle_type with
  | LMinusOne => FOUR_GATES_LMINUSONE | LPlusOne => FOUR_GATES_LPLUSONE
  | LPlusMinusOne => FOUR_GATES_LPLUSMINUSONE | Leap => FOUR_GATES_LEAP
  end.

Definition keviyah_for (cycle_type : MetonicCycleType) (in_week : Z) : Keviyah :=
  let gate := gates_of cycle_type in
  let keviyot :=
    if (gate !!! 0%nat <=? in_week) || (in_week <? gate !!! 1%nat) then (BetHetGimel, BetHetHe)
    else if in_week <? gate !!! 2%nat then (BetShinHe, BetShinZayin)
    else if in_week <? gate !!! 3%nat then (GimelKafHe, GimelKafZayin)
    else if in_week <? gate !!! 4%nat then (HeKafZayin, HeHetAlef)
    else if in_week <? gate !!! 5%nat then (HeShinAlef, HeShinGimel)
    else if in_week <? gate !!! 6%nat then (ZayinHetAlef, ZayinHetGimel)
    else (ZayinShinGimel, ZayinShinHe) in
  match cycle_type with Leap => keviyot.2 | _ => keviyot.1 end.

Record YearInfo := mkYear { keviyah : Keviyah; weeks_since_beharad : Z }.

Definition compute_for (h_year : Z) : YearInfo :=
  let '(weeks_since_beharad, in_week) := molad_details h_year in
  let keviyah := keviyah_for (for_h_year h_year) in_week in
  mkYear keviyah (if hal 7 18 0 <=? in_week then weeks_since_beharad + 1 else weeks_since_beharad).

Definition new_year (y : YearInfo) : Z :=
  let days_since_beharad := weeks_since_beharad y * 7 + start_value (start_of_year (keviyah y)) - start_value Monday in
  HEBREW_EPOCH_DAYS + days_since_beharad.

Definition year_containing_rd (rd : Z) : YearInfo * Z :=
  let h_year := Z.quot ((rd - HEBREW_EPOCH_DAYS) * 98496) 35975351 + b2z (HEBREW_EPOCH_DAYS <=? rd) in
  let year := compute_for h_year in
  if rd <? new_year year then (compute_for (h_year - 1), h_year - 1)
  else if new_year year + year_length (keviyah year) <=? rd then (compute_for (h_year + 1), h_year + 1)
  else (year, h_year).

(** ** The interface *)

Definition hebrew_is_leap (h_year : Z) : bool := is_leap (keviyah (compute_for h_year)).
Definition hebrew_year_length (h_year : Z) : Z := year_length (keviyah (compute_for h_year)).
Definition hebrew_days_in_month (h_year ordinal_month : Z) : Z := month_len (keviyah (compute_for h_year)) (w8 ordinal_month).
Definition hebrew_months_in_year (h_year : Z) : Z := 12 + b2z (is_leap (keviyah (compute_for h_year))).

Definition hebrew_absolute_month (h_year ordinal_month : Z) : Z :=
  let total := foldl (λ total y, total + hebrew_months_in_year y) 0 (seqZ 1 (h_year - 1)) in
  total + ordinal_month - 1.

Definition hebrew_to_iso_days (h_year ordinal_month day : Z) : Z :=
  let year_info := compute_for h_year in
  new_year year_info + days_preceding (keviyah year_info) (w8 ordinal_month) + w32 (day - 1).

Definition iso_days_to_hebrew (iso_days : Z) : res (Z * Z * Z) :=
  let '(year_info, h_year) := year_containing_rd iso_days in
  let day_of_year := w16 (w16 (iso_days - new_year year_info) + 1) in
  let* found := month_day_for (keviyah year_info) day_of_year in
  let '(month, day) := found in
  Ok (h_year, month, day).

(** [as i32]. *)
Definition as_i32 (z : Z) : Z := (z + 2^31) mod 2^32 - 2^31.

Definition hebrew_to_iso (h_year ordinal_month day : Z) : Z * Z * Z :=
  let '(y, m, d) := Civil.civil_from_days (hebrew_to_iso_days h_year ordinal_month day) in
  (as_i32 y, w32 m, w32 d).

Definition iso_to_hebrew (iso_year iso_month iso_day : Z) : res (Z * Z * Z) :=
  iso_days_to_hebrew (Civil.days_from_civil iso_year iso_month iso_day).

Definition hebrew_ordinal_from_number (h_year number : Z) : option Z :=
  let max := if hebrew_is_leap h_year then 13 else 12 in
  if (1 <=? number) && (number <=? max) then Some number else None.

Definition hebrew_number_from_ordinal (ordinal_month : Z) : option Z :=
  if (1 <=? ordinal_month) && (ordinal_month <=? 13) then Some ordinal_month else None.

(** Month codes are strings of ASCII characters.  [code[1..3].parse::<u32>()]: two
    digits, or a plus sign and one digit; a shorter code is a panic. *)
Definition digit (c : Ascii.ascii) : option Z :=
  let n := Z.of_nat (Ascii.nat_of_ascii c) in if (48 <=? n) && (n <=? 57) then Some (n - 48) else None.

Definition parse_two (a b : Ascii.ascii) : option Z :=
  match digit b with
  | None => None
  | Some y =>
      match digit a with
      | Some x => Some (x * 10 + y)
      | None => if Ascii.eqb a "+"%char then Some y else None
      end
  end.

Definition code_number (code : string) : res (option Z) :=
  match code with
  | String _ (String a (String b _)) => Ok (parse_two a b)
  | _ => Panic
  end.

Fixpoint ends_with (c : Ascii.ascii) (s : string) : bool :=
  match s with
  | EmptyString => false
  | String a EmptyString => Ascii.eqb a c
  | String _ s => ends_with c s
  end.

Definition hebrew_ordinal_from_month_code (h_year : Z) (code : string) : res (option Z) :=
  let is_leap := hebrew_is_leap h_year in
  if ends_with "L"%char code then Ok (if String.eqb code "M05L" && is_leap then Some 6 else None)
  else
    let* parsed := code_number code in
    match parsed with
    | None => Ok None
    | Some number =>
        if negb ((1 <=? number) && (number <=? 12)) then Ok None
        else Ok (Some (number + b2z (is_leap && (6 <=? number))))
    end.

(** [format!("M{number:02}")]. *)
Definition format_code (number : Z) : string :=
  "M" +:+ (if number <? 10 then "0" else "") +:+ pretty number.

Definition hebrew_month_code (h_year ordinal_month : Z) : string :=
  let is_leap := hebrew_is_leap h_year in
  if is_leap && (ordinal_month =? 6) then "M05L"
  else format_code (w32 (ordinal_month - b2z (is_leap && (6 <=? ordinal_month)))).
End Hebrew.

(** ** Facts *)

Module HebrewFacts.
Import Hebrew.

(** A month of the year and a day of the month. *)
Definition valid_hebrew (h m d : Z) : bool :=
  (1 <=? m) && (m <=? hebrew_months_in_year h) && (1 <=? d) && (d <=? hebrew_days_in_month h m).

(** *** Months of a year, by computation over the fourteen kinds of year *)

Definition months_in (k : Keviyah) : Z := 12 + b2z (is_leap k).

Definition all_keviyot : list Keviyah :=
  [BetHetGimel; BetShinHe; GimelKafHe; HeKafZayin; HeShinAlef; ZayinHetAlef; ZayinShinGimel;
   BetHetHe; BetShinZayin; GimelKafZayin; HeHetAlef; HeShinGimel; ZayinHetGimel; ZayinShinHe].

Lemma all_keviyot_elem k : k ∈ all_keviyot.
Proof. apply list_elem_of_In. destruct k; cbn; tauto. Qed.

(** Where [month_day_for] puts a day of the year. *)
Definition day_check (k : Keviyah) (doy : Z) : bool :=
  match month_day_for k doy with
  | Ok (m, d) => (1 <=? m) && (m <=? months_in k) && (1 <=? d) && (d <=? month_len k m) && (days_preceding k m + d =? doy)
  | _ => false
  end.
Definition days_check (k : Keviyah) : bool := forallb (day_check k) (seqZ 1 (year_length k)).

Definition month_check (k : Keviyah) (m : Z) : bool :=
  (days_preceding k (m + 1) =? days_preceding k m + month_len k m) && (29 <=? month_len k m) && (month_len k m <=? 30).
Definition months_check (k : Keviyah) : bool :=
  forallb (month_check k) (seqZ 1 (months_in k)) && (days_preceding k 1 =? 0)
    && (days_preceding k (months_in k + 1) =? year_length k).

Lemma days_check_ok : forallb days_check all_keviyot = true.
Proof. vm_compute. reflexivity. Qed.

Lemma months_check_ok : forallb months_check all_keviyot = true.
Proof. vm_compute. reflexivity. Qed.

Lemma for_keviyah (P : Keviyah → bool) k : forallb P all_keviyot = true → P k = true.
Proof. intros H. rewrite forallb_forall in H. apply H. apply list_elem_of_In, all_keviyot_elem. Qed.

Lemma for_seqZ (P : Z → bool) n i : forallb P (seqZ 1 n) = true → 1 <= i <= n → P i = true.
Proof. intros H Hi. rewrite forallb_forall in H. apply H. apply list_elem_of_In, elem_of_seqZ. lia. Qed.

Lemma month_day_ok k doy : 1 <= doy <= year_length k → ∃ m d, month_day_for k doy = Ok (m, d) ∧
  1 <= m <= months_in k ∧ 1 <= d <= month_len k m ∧ days_preceding k m + d = doy.
Proof.
  intros Hd. pose proof (for_keviyah days_check k days_check_ok) as Hk. unfold days_check in Hk.
  pose proof (for_seqZ (day_check k) _ _ Hk Hd) as H. unfold day_check in H.
  destruct (month_day_for k doy) as [[m d]|e|]; try done. exists m, d. split; [done|].
  rewrite !andb_true_iff, !Z.leb_le, Z.eqb_eq in H. lia.
Qed.

Lemma hebrew_month_step k m : 1 <= m <= months_in k →
  days_preceding k (m + 1) = days_preceding k m + month_len k m ∧ 29 <= month_len k m <= 30.
Proof.
  intros Hm. pose proof (for_keviyah months_check k months_check_ok) as H. unfold months_check in H. rewrite !andb_true_iff in H. destruct H as [[H _] _].
  pose proof (for_seqZ (month_check k) _ _ H Hm) as Hc. unfold month_check in Hc. rewrite !andb_true_iff, !Z.leb_le, Z.eqb_eq in Hc. lia.
Qed.

Lemma year_months k : days_preceding k 1 = 0 ∧ days_preceding k (months_in k + 1) = year_length k.
Proof.
  pose proof (for_keviyah months_check k months_check_ok) as H. unfold months_check in H. rewrite !andb_true_iff, !Z.eqb_eq in H. tauto.
Qed.

Lemma months_mono k m n : 1 <= m <= n → n <= months_in k + 1 → days_preceding k m + 29 * (n - m) <= days_preceding k n.
Proof.
  intros H Hn. assert (∀ i : nat, m + Z.of_nat i <= months_in k + 1 → days_preceding k m + 29 * Z.of_nat i <= days_preceding k (m + Z.of_nat i)) as Hi.
  { induction i as [|i IH]; [rewrite Z.add_0_r; lia|]. intros Hle. specialize (IH ltac:(lia)).
    destruct (hebrew_month_step k (m + Z.of_nat i)) as [Hs Hb]; [lia|]. replace (m + Z.of_nat (S i)) with (m + Z.of_nat i + 1) by lia. lia. }
  specialize (Hi (Z.to_nat (n - m))). rewrite Z2Nat.id in Hi by lia. replace (m + (n - m)) with n in Hi by lia. lia.
Qed.

(** Two dates of one year with the same day number are the same. *)
Lemma month_day_unique k m d m' d' : 1 <= m <= months_in k → 1 <= m' <= months_in k → 1 <= d <= month_len k m → 1 <= d' <= month_len k m' →
  days_preceding k m + d = days_preceding k m' + d' → m = m' ∧ d = d'.
Proof.
  intros Hm Hm' Hd Hd' E. destruct (hebrew_month_step k m Hm) as [Hs _]. destruct (hebrew_month_step k m' Hm') as [Hs' _].
  assert (m = m') as ->; [|lia]. destruct (Z.lt_trichotomy m m') as [Hlt|[He|Hgt]]; [|done|].
  - pose proof (months_mono k (m + 1) m'). lia.
  - pose proof (months_mono k (m' + 1) m). lia.
Qed.

Lemma year_length_bounds k : 353 <= year_length k <= 385.
Proof. destruct k; vm_compute; split; discriminate. Qed.

Lemma months_w8 k m : 1 <= m <= months_in k + 1 → w8 m = m.
Proof. intros H. apply Z.mod_small. unfold months_in in H. destruct (is_leap k); cbn in H; lia. Qed.

(** *** Consecutive years *)

Definition lunations (t : MetonicCycleType) : Z := match t with Leap => 13 | _ => 12 end.

(** The kinds of year that follow each other in the cycle of nineteen. *)
Definition follows (t t' : MetonicCycleType) : bool :=
  match t, t' with
  | Leap, LPlusOne | Leap, LPlusMinusOne | LPlusOne, LMinusOne | LMinusOne, Leap | LPlusMinusOne, Leap => true
  | _, _ => false
  end.

Lemma mod_19 h : ∃ k r, h = 19 * k + r ∧ h mod 19 = r ∧ In r [0; 1; 2; 3; 4; 5; 6; 7; 8; 9; 10; 11; 12; 13; 14; 15; 16; 17; 18].
Proof. exists (h / 19), (h mod 19). split; [dlia|]. split; [done|]. pose proof (Z.mod_pos_bound h 19). cbn. lia. Qed.

Lemma cycle_step h : follows (for_h_year h) (for_h_year (h + 1)) = true ∧
  months_preceding_molad (h + 1) = months_preceding_molad h + lunations (for_h_year h).
Proof.
  destruct (mod_19 h) as (k & r & Eh & Er & Hr). unfold months_preceding_molad, for_h_year.
  assert ((h + 1) mod 19 = if r =? 18 then 0 else r + 1) as -> by (destruct (Z.eqb_spec r 18); dlia). rewrite Er. clear Er.
  cbn [In] in Hr. repeat destruct Hr as [<-|Hr]; try done; (split; [reflexivity|]); cbn [lunations]; dlia.
Qed.

(** The day, counted in weeks from the first, on which the year of a molad begins. *)
Definition year_day (t : MetonicCycleType) (w i : Z) : Z :=
  (if hal 7 18 0 <=? i then w + 1 else w) * 7 + start_value (start_of_year (keviyah_for t i)).

(** The gates as numbers, and the intervals between them as cases. *)
Ltac gates :=
  unfold year_day, keviyah_for;
  repeat match goal with
  | |- context [gates_of ?t !!! ?n] => let v := eval vm_compute in (gates_of t !!! n) in change (gates_of t !!! n) with v
  end;
  change (hal 7 18 0) with 174960.
Ltac gate_cases :=
  repeat match goal with
  | |- context [?a <=? ?b] => destruct (Z.leb_spec a b); cbn [orb]; try lia
  | |- context [?a <? ?b] => destruct (Z.ltb_spec a b); cbn [orb]; try lia
  end.

Ltac year_lengths :=
  repeat match goal with
  | |- context [year_length ?k] => let v := eval vm_compute in (year_length k) in change (year_length k) with v
  end.

Lemma gates_abut t t' w i w' i' : follows t t' = true → 0 <= i < HALAKIM_IN_WEEK → 0 <= i' < HALAKIM_IN_WEEK →
  HALAKIM_IN_WEEK * w' + i' = HALAKIM_IN_WEEK * w + i + lunations t * HEBREW_LUNATION_TIME →
  year_day t' w' i' = year_day t w i + year_length (keviyah_for t i).
Proof.
  unfold HALAKIM_IN_WEEK, HEBREW_LUNATION_TIME. intros Hf Hi Hi' E.
  destruct t, t'; try done; cbn [lunations] in E; gates; gate_cases.
  all: cbn [fst snd start_of_year start_value]; year_lengths; lia.
Qed.

(** A year begins within two days of its molad. *)
Lemma year_day_near t w i : 0 <= i < HALAKIM_IN_WEEK →
  -19440 <= (year_day t w i - 1) * 25920 - (HALAKIM_IN_WEEK * w + i) <= 41916.
Proof.
  unfold HALAKIM_IN_WEEK. intros Hi. destruct t; gates; gate_cases.
  all: cbn [fst snd start_of_year start_value]; lia.
Qed.

Definition molad (h : Z) : Z := MOLAD_BEHERAD_OFFSET + months_preceding_molad h * HEBREW_LUNATION_TIME.

Lemma new_year_eq h : ∃ w i, 0 <= i < HALAKIM_IN_WEEK ∧ HALAKIM_IN_WEEK * w + i = molad h ∧
  keviyah (compute_for h) = keviyah_for (for_h_year h) i ∧ new_year (compute_for h) = HEBREW_EPOCH_DAYS + year_day (for_h_year h) w i - 2.
Proof.
  exists (molad h / HALAKIM_IN_WEEK), (molad h mod HALAKIM_IN_WEEK). split; [apply Z.mod_pos_bound; reflexivity|].
  split; [symmetry; apply Z.div_mod; discriminate|]. split; [done|]. unfold new_year, year_day, compute_for, molad_details. fold (molad h).
  cbn [keviyah weeks_since_beharad]. change (start_value Monday) with 2. lia.
Qed.

Lemma years_abut h : new_year (compute_for (h + 1)) = new_year (compute_for h) + hebrew_year_length h.
Proof.
  destruct (new_year_eq h) as (w & i & Hi & Em & Ek & En). destruct (new_year_eq (h + 1)) as (w' & i' & Hi' & Em' & _ & En').
  destruct (cycle_step h) as [Hf Hm]. unfold hebrew_year_length. rewrite Ek, En, En'.
  rewrite (gates_abut (for_h_year h) (for_h_year (h + 1)) w i w' i'); [lia|done|done|done|]. rewrite Em', Em. unfold molad. rewrite Hm. lia.
Qed.

(** A year begins near its share of the mean year of 35975351/98496 days. *)
Lemma new_year_near h :
  179876755 * (h - 1) - 13275245 <= 492480 * (new_year (compute_for h) - HEBREW_EPOCH_DAYS) <= 179876755 * (h - 1) + 1668313.
Proof.
  destruct (new_year_eq h) as (w & i & Hi & Em & _ & En). pose proof (year_day_near (for_h_year h) w i Hi) as Hn. rewrite Em in Hn. rewrite En.
  unfold molad, MOLAD_BEHERAD_OFFSET, HEBREW_LUNATION_TIME in Hn.
  assert (19 * months_preceding_molad h <= 235 * (h - 1) + 1 <= 19 * months_preceding_molad h + 18) as Hm by (unfold months_preceding_molad; dlia). lia.
Qed.

Lemma year_containing_ok rd : ∃ h, year_containing_rd rd = (compute_for h, h) ∧
  new_year (compute_for h) <= rd < new_year (compute_for h) + hebrew_year_length h.
Proof.
  unfold year_containing_rd. set (e := Z.quot _ _ + _). set (x := rd - HEBREW_EPOCH_DAYS).
  assert (179876755 * (e - 1) <= 492480 * x <= 179876755 * e) as He.
  { subst e. fold x. destruct (Z.leb_spec HEBREW_EPOCH_DAYS rd); cbn [b2z]; subst x; dlia. }
  pose proof (new_year_near e). pose proof (new_year_near (e - 1)) as Hp. pose proof (new_year_near (e + 1)). pose proof (new_year_near (e + 2)).
  pose proof (years_abut (e - 1)) as Ha. replace (e - 1 + 1) with e in Ha by lia. pose proof (years_abut e) as Hb. pose proof (years_abut (e + 1)) as Hc.
  replace (e + 1 + 1) with (e + 2) in Hc by lia. fold (hebrew_year_length e).
  destruct (Z.ltb_spec rd (new_year (compute_for e))); [|destruct (Z.leb_spec (new_year (compute_for e) + hebrew_year_length e) rd)].
  - exists (e - 1). split; [done|]. lia.
  - exists (e + 1). split; [done|]. lia.
  - exists e. split; [done|]. lia.
Qed.

Lemma year_unique h h' z : new_year (compute_for h) <= z < new_year (compute_for h) + hebrew_year_length h →
  new_year (compute_for h') <= z < new_year (compute_for h') + hebrew_year_length h' → h = h'.
Proof.
  assert (∀ g (n : nat), new_year (compute_for g) + hebrew_year_length g <= new_year (compute_for (g + 1 + Z.of_nat n))) as Hup.
  { intros g. induction n as [|n IH]; [rewrite Z.add_0_r, years_abut; lia|].
    replace (g + 1 + Z.of_nat (S n)) with (g + 1 + Z.of_nat n + 1) by lia. rewrite years_abut.
    pose proof (year_length_bounds (keviyah (compute_for (g + 1 + Z.of_nat n)))). unfold hebrew_year_length in *. lia. }
  intros H H'. destruct (Z.lt_trichotomy h h') as [Hlt|[He|Hgt]]; [|done|].
  - specialize (Hup h (Z.to_nat (h' - h - 1))). rewrite Z2Nat.id in Hup by lia. replace (h + 1 + (h' - h - 1)) with h' in Hup by lia. lia.
  - specialize (Hup h' (Z.to_nat (h - h' - 1))). rewrite Z2Nat.id in Hup by lia. replace (h' + 1 + (h - h' - 1)) with h in Hup by lia. lia.
Qed.

(** A day of a year, as its place in the year. *)
Lemma days_to_year h m d : valid_hebrew h m d = true →
  let k := keviyah (compute_for h) in 1 <= m <= months_in k ∧ 1 <= d <= month_len k m ∧
  hebrew_to_iso_days h m d = new_year (compute_for h) + (days_preceding k m + d) - 1 ∧ 1 <= days_preceding k m + d <= hebrew_year_length h.
Proof.
  intros Hv k. unfold valid_hebrew, hebrew_months_in_year, hebrew_days_in_month in Hv. rewrite !andb_true_iff, !Z.leb_le in Hv.
  destruct Hv as [[[Hm1 Hm2] Hd1] Hd2].
  fold k in Hd2, Hm2. fold (months_in k) in Hm2. rewrite (months_w8 k) in Hd2 by lia. destruct (hebrew_month_step k m) as [Hs Hb]; [lia|].
  destruct (year_months k) as [Hy1 Hy2]. pose proof (months_mono k 1 m). pose proof (months_mono k (m + 1) (months_in k + 1)).
  split_and!; try lia.
  - unfold hebrew_to_iso_days. fold k. rewrite (months_w8 k) by lia. unfold w32. rewrite Z.mod_small by lia. lia.
  - unfold hebrew_year_length. fold k. lia.
Qed.

Lemma hebrew_of_day z h doy : z = new_year (compute_for h) + doy - 1 → 1 <= doy <= hebrew_year_length h →
  ∃ m d, iso_days_to_hebrew z = Ok (h, m, d) ∧ valid_hebrew h m d = true ∧ days_preceding (keviyah (compute_for h)) m + d = doy.
Proof.
  intros Ez Hd. destruct (year_containing_ok z) as (h' & Ey & Hz). assert (h' = h) as -> by (apply (year_unique _ _ z); [done|lia]).
  unfold iso_days_to_hebrew. rewrite Ey. pose proof (year_length_bounds (keviyah (compute_for h))) as Hb. fold (hebrew_year_length h) in Hb.
  assert (w16 (w16 (z - new_year (compute_for h)) + 1) = doy) as -> by (unfold w16; rewrite (Z.mod_small (z - _)), Z.mod_small by lia; lia).
  destruct (month_day_ok (keviyah (compute_for h)) doy Hd) as (m & d & Emd & Hm & Hday & Esum). rewrite Emd. cbn [res_bind].
  exists m, d. split_and!; [done| |done]. unfold valid_hebrew, hebrew_months_in_year, hebrew_days_in_month.
  fold (months_in (keviyah (compute_for h))). rewrite (months_w8 (keviyah (compute_for h))) by lia. rewrite !andb_true_iff, !Z.leb_le. lia.
Qed.

Lemma hebrew_round z : ∃ h m d, iso_days_to_hebrew z = Ok (h, m, d) ∧ valid_hebrew h m d = true ∧ hebrew_to_iso_days h m d = z.
Proof.
  destruct (year_containing_ok z) as (h & _ & Hz).
  destruct (hebrew_of_day z h (z - new_year (compute_for h) + 1)) as (m & d & E & Hv & Es); [lia|lia|].
  exists h, m, d. split_and!; [done..|]. destruct (days_to_year h m d Hv) as (_ & _ & -> & _). lia.
Qed.

Lemma hebrew_back h m d : valid_hebrew h m d = true → iso_days_to_hebrew (hebrew_to_iso_days h m d) = Ok (h, m, d).
Proof.
  intros Hv. destruct (days_to_year h m d Hv) as (Hm & Hd & Ez & Hr).
  destruct (hebrew_of_day _ h _ Ez Hr) as (m' & d' & E & Hv' & Es). destruct (days_to_year h m' d' Hv') as (Hm' & Hd' & _).
  destruct (month_day_unique _ _ _ _ _ Hm' Hm Hd' Hd Es) as [-> ->]. done.
Qed.

Lemma months_of_cycle h : hebrew_months_in_year h = lunations (for_h_year h).
Proof.
  unfold hebrew_months_in_year. destruct (new_year_eq h) as (w & i & _ & _ & -> & _). unfold keviyah_for.
  destruct (for_h_year h); cbn [lunations]; repeat (match goal with |- context [if ?b then _ else _] => destruct b end); reflexivity.
Qed.

Lemma absolute_sum (n : nat) : foldl (λ total y, total + hebrew_months_in_year y) 0 (seqZ 1 (Z.of_nat n)) = months_preceding_molad (Z.of_nat n + 1).
Proof.
  induction n as [|n IH]; [reflexivity|]. rewrite seqZ_S, foldl_app, IH. cbn [foldl].
  rewrite months_of_cycle. replace (1 + Z.of_nat n) with (Z.of_nat n + 1) by lia. rewrite <- (proj2 (cycle_step _)). f_equal. lia.
Qed.
End HebrewFacts.

(** ** Theorems *)

(** C36: Hebrew dates and days correspond.  Each day is the date of exactly one year,
    month and day: the conversion of a day ends with a date within the months
    of its year and the days of its month, which converts back to the day; a
    valid date is the one its day converts to; and a year begins where the
    year before it ends. *)
Theorem hebrew_dates_exact z h m d :
  (∃ h' m' d', Hebrew.iso_days_to_hebrew z = Ok (h', m', d') ∧ HebrewFacts.valid_hebrew h' m' d' = true ∧
     Hebrew.hebrew_to_iso_days h' m' d' = z) ∧
  (HebrewFacts.valid_hebrew h m d = true → Hebrew.iso_days_to_hebrew (Hebrew.hebrew_to_iso_days h m d) = Ok (h, m, d)) ∧
  Hebrew.hebrew_to_iso_days (h + 1) 1 1 = Hebrew.hebrew_to_iso_days h 1 1 + Hebrew.hebrew_year_length h.
Proof.
  split_and!; [apply HebrewFacts.hebrew_round|apply HebrewFacts.hebrew_back|]. unfold Hebrew.hebrew_to_iso_days.
  change (Hebrew.w8 1) with 1. rewrite !(proj1 (HebrewFacts.year_months _)), HebrewFacts.years_abut. lia.
Qed.

(** The months of the years from 1 on are numbered without a gap: the loop adds up
    the months before the molad of the year.  Up to year 1 the loop adds
    nothing, so that every year before it numbers its months like year 1. *)
Theorem hebrew_absolute_month_exact h m :
  (1 <= h → Hebrew.hebrew_absolute_month h m = Hebrew.months_preceding_molad h + m - 1) ∧
  (h <= 1 → Hebrew.hebrew_absolute_month h m = m - 1).
Proof.
  unfold Hebrew.hebrew_absolute_month. split; intros Hh.
  - pose proof (HebrewFacts.absolute_sum (Z.to_nat (h - 1))) as E. rewrite Z2Nat.id in E by lia. rewrite E.
    replace (h - 1 + 1) with h by lia. lia.
  - rewrite seqZ_nil by lia. cbn [foldl]. lia.
Qed.

(** Month codes name the months of a year: the code of each month of a year is read
    back as that month. *)
Theorem hebrew_month_code_roundtrip h m : 1 <= m <= Hebrew.hebrew_months_in_year h →
  Hebrew.hebrew_ordinal_from_month_code h (Hebrew.hebrew_month_code h m) = Ok (Some m).
Proof.
  unfold Hebrew.hebrew_months_in_year, Hebrew.hebrew_ordinal_from_month_code, Hebrew.hebrew_month_code. fold (Hebrew.hebrew_is_leap h).
  intros Hm. assert (In m [1; 2; 3; 4; 5; 6; 7; 8; 9; 10; 11; 12; 13]) as Hi by (destruct (Hebrew.hebrew_is_leap h); cbn in *; lia).
  destruct (Hebrew.hebrew_is_leap h); cbn [In] in Hi; repeat destruct Hi as [<-|Hi]; try reflexivity; try done. cbn in Hm. lia.
Qed.

Lemma hebrew_month_code_roundtrip_witness :
  Hebrew.hebrew_month_code 5784 6 = "M05L"%string ∧ Hebrew.hebrew_ordinal_from_month_code 5784 (Hebrew.hebrew_month_code 5784 13) = Ok (Some 13).
Proof. split; [by vm_compute|]. apply hebrew_month_code_roundtrip. by vm_compute. Defined.
