(* ===== verification/Rounding.v ===== *)
(** * Rounding and time durations (crates/oxide_builtins/src/temporal: instant.rs, difference.rs, duration.rs, plain_time.rs)

    Rounding of nanoseconds to an increment in nine modes, splitting
    nanoseconds into hours to nanoseconds, and adding the parts up again.
    [i128] is [Z], with its bounds where the code checks them. *)

From stdpp Require Import base tactics numbers list option strings.
From Stdlib Require Import ZArith Lia.
From S2P Require Import Prelude Civil.

Open Scope Z_scope.

Module Rounding.
Inductive InstantRoundingMode := Ceil | Expand | Floor | HalfCeil | HalfEven | HalfExpand | HalfFloor | HalfTrunc | Trunc.

Definition instant_rounding_mode (value : string) : option InstantRoundingMode :=
  if String.eqb value "ceil" then Some Ceil
  else if String.eqb value "expand" then Some Expand
  else if String.eqb value "floor" then Some Floor
  else if String.eqb value "halfCeil" then Some HalfCeil
  else if String.eqb value "halfEven" then Some HalfEven
  else if String.eqb value "halfExpand" then Some HalfExpand
  else if String.eqb value "halfFloor" then Some HalfFloor
  else if String.eqb value "halfTrunc" then Some HalfTrunc
  else if String.eqb value "trunc" then Some Trunc
  else None.

(** The checked operations of [i128], and its wrapping multiplication. *)
Definition checked (z : Z) : option Z := if (- 2^127 <=? z) && (z <=? 2^127 - 1) then Some z else None.
Definition wrap_i128 (z : Z) : Z := (z + 2^127) mod 2^128 - 2^127.
Definition b2z (b : bool) : Z := if b then 1 else 0.

Definition round_instant_difference (value increment : Z) (mode : InstantRoundingMode) : option Z :=
  let negative := value <? 0 in
  match checked (Z.abs value) with
  | None => None
  | Some magnitude =>
      let quotient := Z.quot magnitude increment in
      let remainder := Z.rem magnitude increment in
      if remainder =? 0 then Some value
      else
        let half (tie : bool) :=
          match Z.compare (wrap_i128 (remainder * 2)) increment with Lt => false | Gt => true | Eq => tie end in
        let use_upper :=
          match mode with
          | Ceil => negb negative
          | Expand => true
          | Floor => negative
          | Trunc => false
          | HalfCeil => half (negb negative)
          | HalfEven => half (negb (quotient mod 2 =? 0))
          | HalfExpand => half true
          | HalfFloor => half negative
          | HalfTrunc => half false
          end in
        match checked (quotient + b2z use_upper) with
        | None => None
        | Some q =>
            match checked (q * increment) with
            | None => None
            | Some rounded => Some (if negative then - rounded else rounded)
            end
        end
  end.

(** [div_euclid] and [rem_euclid] by a positive increment. *)
Definition round_instant_ns (value increment : Z) (mode : InstantRoundingMode) : option Z :=
  let quotient := value / increment in
  let remainder := value mod increment in
  if remainder =? 0 then Some value
  else
    let half (tie : bool) :=
      match Z.compare (wrap_i128 (remainder * 2)) increment with Lt => false | Gt => true | Eq => tie end in
    let use_upper :=
      match mode with
      | Ceil | Expand => true
      | Floor | Trunc => false
      | HalfCeil | HalfExpand => half true
      | HalfFloor | HalfTrunc => half false
      | HalfEven => half (negb (quotient mod 2 =? 0))
      end in
    match checked (quotient + b2z use_upper) with
    | None => None
    | Some q => checked (q * increment)
    end.

(** ** Modes without a sign (difference.rs) *)

Inductive UnsignedMode := UZero | UInfinity | UHalfEven | UHalfInfinity | UHalfZero.

Definition unsigned_mode (mode : InstantRoundingMode) (negative : bool) : UnsignedMode :=
  match mode with
  | Ceil => if negative then UZero else UInfinity
  | Floor => if negative then UInfinity else UZero
  | Expand => UInfinity
  | Trunc => UZero
  | HalfCeil => if negative then UHalfZero else UHalfInfinity
  | HalfFloor => if negative then UHalfInfinity else UHalfZero
  | HalfEven => UHalfEven
  | HalfExpand => UHalfInfinity
  | HalfTrunc => UHalfZero
  end.

Definition apply_unsigned_rounding (r1 r2 : Z) (cmp : comparison) (even : bool) (mode : InstantRoundingMode) (negative : bool) : Z :=
  match unsigned_mode mode negative with
  | UZero => r1
  | UInfinity => r2
  | UHalfEven => match cmp with Lt => r1 | Eq => if even then r1 else r2 | Gt => r2 end
  | UHalfInfinity => match cmp with Lt => r1 | _ => r2 end
  | UHalfZero => match cmp with Gt => r2 | _ => r1 end
  end.

Definition round_to_increment_trunc (value increment : Z) : Z := Z.quot value increment * increment.

(** ** Time parts *)

Definition TIME_UNIT_NS : list Z := [3600000000000; 60000000000; 1000000000; 1000000; 1000; 1].

(** The loop over the scales from the largest unit on: the parts, the last one
    first in [values]. *)
Fixpoint balance_loop (negative : bool) (scales : list (nat * Z)) (remainder : Z) (values : list Z) : list Z :=
  match scales with
  | [] => values
  | (index, scale) :: scales =>
      let component := Z.quot remainder scale in
      let remainder := Z.rem remainder scale in
      let values :=
        if negb (component =? 0)
        then <[(index + 4)%nat := if negative then - Civil.as_f64 component else Civil.as_f64 component]> values
        else values in
      balance_loop negative scales remainder values
  end.

Definition balance_instant_difference (value : Z) (largest_unit : nat) : option (list Z) :=
  let negative := value <? 0 in
  match checked (Z.abs value) with
  | None => None
  | Some remainder =>
      Some (balance_loop negative (drop largest_unit (zip (seq 0 6) TIME_UNIT_NS)) remainder Civil.zero_values)
  end.

(** [value.is_finite() && value.fract() == 0.0] holds of every integer. *)
Definition duration_component_integer (value : Z) : option Z :=
  if 2^127 <=? Z.abs value then None else Some (Civil.as_i128 value).

Definition sum_parts (values scales : list Z) : option Z :=
  foldl (λ total p,
    match total with
    | None => None
    | Some total =>
        match duration_component_integer p.1 with
        | None => None
        | Some c => match checked (c * p.2) with None => None | Some t => checked (total + t) end
        end
    end) (Some 0) (zip values scales).

Definition duration_time_nanoseconds (values : list Z) : option Z := sum_parts (drop 3 values) (86400000000000 :: TIME_UNIT_NS).
Definition duration_time_only_nanoseconds (values : list Z) : option Z := sum_parts (drop 4 values) TIME_UNIT_NS.

(** plain_time.rs *)
Fixpoint components_loop (scales : list Z) (remainder : Z) : list Z :=
  match scales with
  | [] => [remainder]
  | scale :: scales => Z.quot remainder scale :: components_loop scales (Z.rem remainder scale)
  end.
Definition plain_time_components_signed (total_ns : Z) : list Z :=
  components_loop [3600000000000; 60000000000; 1000000000; 1000000; 1000] total_ns.

Definition valid_plain_time (hour minute second ms us ns : Z) : bool :=
  (hour <=? 23) && (minute <=? 59) && (second <=? 59) && (ms <=? 999) && (us <=? 999) && (ns <=? 999).
End Rounding.

(** ** What the modes mean *)

(** The multiple of the increment below a value and the one above it, the same two
    when the value is a multiple. *)
Definition below (v inc : Z) : Z := inc * (v / inc).
Definition above (v inc : Z) : Z := - (inc * (- v / inc)).

(** The multiple each mode chooses. *)
Definition rounds_to (mode : Rounding.InstantRoundingMode) (v inc : Z) : Z :=
  let lo := below v inc in let hi := above v inc in
  let nearest tie := match Z.compare (v - lo) (hi - v) with Lt => lo | Gt => hi | Eq => tie end in
  match mode with
  | Rounding.Ceil => hi
  | Rounding.Floor => lo
  | Rounding.Expand => if v <? 0 then lo else hi
  | Rounding.Trunc => if v <? 0 then hi else lo
  | Rounding.HalfCeil => nearest hi
  | Rounding.HalfFloor => nearest lo
  | Rounding.HalfExpand => nearest (if v <? 0 then lo else hi)
  | Rounding.HalfTrunc => nearest (if v <? 0 then hi else lo)
  | Rounding.HalfEven => nearest (if Z.even (v / inc) then lo else hi)
  end.

(** Away from zero is up, and towards it down, for the rounding of instants. *)
Definition as_if_positive (mode : Rounding.InstantRoundingMode) : Rounding.InstantRoundingMode :=
  match mode with
  | Rounding.Expand => Rounding.Ceil | Rounding.Trunc => Rounding.Floor
  | Rounding.HalfExpand => Rounding.HalfCeil | Rounding.HalfTrunc => Rounding.HalfFloor
  | mode => mode
  end.

(** ** Facts *)

Module RoundingFacts.
Import Rounding.

Lemma checked_ok z : Z.abs z < 2^127 → checked z = Some z.
Proof.
  intros Hz. unfold checked. assert ((- 2^127 <=? z) && (z <=? 2^127 - 1) = true) as ->; [|done].
  apply andb_true_iff. rewrite !Z.leb_le. lia.
Qed.

Lemma wrap_ok z : 0 <= z < 2^127 → wrap_i128 z = z.
Proof. intros Hz. unfold wrap_i128. rewrite Z.mod_small; lia. Qed.

Section increment.
Context (inc : Z) (Hinc : 0 < inc < 2^126).

(** A value that is not a multiple lies strictly between two of them. *)
Lemma above_below v : v mod inc ≠ 0 → below v inc = inc * (v / inc) ∧ above v inc = inc * (v / inc) + inc ∧
  v = inc * (v / inc) + v mod inc ∧ 0 < v mod inc < inc.
Proof.
  intros Hr. pose proof (Z.div_mod v inc). pose proof (Z.mod_pos_bound v inc). unfold below, above. split_and!; try lia.
  assert (- v / inc = - (v / inc) - 1) as ->; [|lia]. symmetry. apply (Z.div_unique _ _ _ (inc - v mod inc)); lia.
Qed.

Lemma multiple_rounds mode v : v mod inc = 0 → rounds_to mode v inc = v.
Proof.
  intros Hr. pose proof (Z.div_mod v inc). assert (below v inc = v) as E1 by (unfold below; lia).
  assert (above v inc = v) as E2.
  { unfold above. assert (- v / inc = - (v / inc)) as ->; [|lia]. symmetry. apply (Z.div_unique _ _ _ 0); lia. }
  unfold rounds_to. rewrite E1, E2, !Z.sub_diag. cbn [Z.compare]. destruct mode; by repeat case_match.
Qed.

Lemma compare_half r : 0 < r < inc → Z.compare (wrap_i128 (r * 2)) inc = Z.compare r (inc - r).
Proof.
  intros Hr. rewrite wrap_ok by lia. destruct (Z.compare_spec r (inc - r)) as [E|E|E].
  - apply Z.compare_eq_iff. lia.
  - apply Z.compare_lt_iff. lia.
  - apply Z.compare_gt_iff. lia.
Qed.

Lemma quotient_small v : Z.abs (v / inc) <= Z.abs v.
Proof. pose proof (Z.div_mod v inc). pose proof (Z.mod_pos_bound v inc). nia. Qed.

(** The multiple the code computes from a quotient. *)
Lemma upper_ok v (u : bool) : Z.abs v < 2^126 → v mod inc ≠ 0 →
  match checked (v / inc + b2z u) with None => None | Some q => checked (q * inc) end = Some (if u then above v inc else below v inc).
Proof.
  intros Hv Hr. destruct (above_below v Hr) as (El & Eh & Ev & Hb). pose proof (quotient_small v).
  rewrite checked_ok by (destruct u; cbn [b2z]; lia). rewrite checked_ok by (destruct u; cbn [b2z]; lia).
  destruct u; cbn [b2z]; f_equal; lia.
Qed.

Lemma instant_rounds v mode : Z.abs v < 2^126 → round_instant_ns v inc mode = Some (rounds_to (as_if_positive mode) v inc).
Proof.
  intros Hv. unfold round_instant_ns. destruct (Z.eqb_spec (v mod inc) 0) as [E|Hr]; [by rewrite multiple_rounds|].
  rewrite upper_ok by done. f_equal. destruct (above_below v Hr) as (El & Eh & Ev & Hb). rewrite compare_half by done.
  unfold rounds_to. rewrite El, Eh. replace (v - inc * (v / inc)) with (v mod inc) by lia.
  replace (inc * (v / inc) + inc - v) with (inc - v mod inc) by lia.
  destruct mode; cbn [as_if_positive]; try done; destruct (Z.compare _ _); try done.
  rewrite Zeven_mod. by destruct ((v / inc) mod 2 =? 0).
Qed.

(** The code rounds the magnitude and puts the sign back. *)
Lemma negative_sides v : v mod inc ≠ 0 → - v mod inc = inc - v mod inc ∧ - v / inc = - (v / inc) - 1 ∧
  below (- v) inc = - above v inc ∧ above (- v) inc = - below v inc.
Proof.
  intros Hr. destruct (above_below v Hr) as (El & Eh & Ev & Hb).
  assert (- v / inc = - (v / inc) - 1 ∧ - v mod inc = inc - v mod inc) as [Eq Em].
  { split; [symmetry; apply (Z.div_unique _ _ _ (inc - v mod inc)); lia|symmetry; apply (Z.mod_unique _ _ (- (v / inc) - 1)); lia]. }
  split_and!; [done|done|unfold below; rewrite Eq, Eh; lia|]. unfold above. rewrite Z.opp_involutive. by rewrite <- El.
Qed.

Lemma difference_rounds v mode : Z.abs v < 2^126 → round_instant_difference v inc mode = Some (rounds_to mode v inc).
Proof.
  intros Hv. unfold round_instant_difference. rewrite checked_ok by lia.
  rewrite (Z.quot_div_nonneg (Z.abs v)) by lia. rewrite (Z.rem_mod_nonneg (Z.abs v)) by lia.
  destruct (Z.ltb_spec v 0) as [Hn|Hp].
  - assert (∃ m, v = - m ∧ 0 < m) as (m & -> & Hm0) by (exists (- v); lia). replace (Z.abs (- m)) with m in * by lia. destruct (Z.eqb_spec (m mod inc) 0) as [E|Hr].
    { rewrite multiple_rounds; [done|]. by apply Z.mod_opp_l_z; [lia|]. }
    destruct (negative_sides m Hr) as (Em & Eq & El & Eh).
    set (u := match mode with Ceil => _ | _ => _ end). assert (Z.abs m < 2^126) as Hm by lia. pose proof (upper_ok m u Hm Hr) as Hup.
    destruct (checked (m / inc + b2z u)) as [q|]; [|done]. rewrite Hup. f_equal.
    destruct (above_below m Hr) as (Elm & Ehm & Evm & Hb). unfold rounds_to. rewrite El, Eh, (proj2 (Z.ltb_lt (- m) 0)) by lia. subst u.
    rewrite compare_half by done. replace (- m - - above m inc) with (inc - m mod inc) by lia. replace (- below m inc - - m) with (m mod inc) by lia.
    rewrite (Z.compare_antisym (m mod inc) (inc - m mod inc)). rewrite Eq.
    replace (Z.even (- (m / inc) - 1)) with (negb (Z.even (m / inc))) by
      (replace (- (m / inc) - 1) with (- (Z.succ (m / inc))) by lia; rewrite Z.even_opp, Z.even_succ; apply Z.negb_even).
    rewrite Zeven_mod. clear Hup. destruct mode; cbn [negb]; try done; destruct (Z.compare (m mod inc) (inc - m mod inc)); cbn [CompOpp]; try done.
    by destruct ((m / inc) mod 2 =? 0).
  - replace (Z.abs v) with v by lia. destruct (Z.eqb_spec (v mod inc) 0) as [E|Hr]; [by rewrite multiple_rounds|].
    set (u := match mode with Ceil => _ | _ => _ end). pose proof (upper_ok v u Hv Hr) as Hup.
    destruct (checked (v / inc + b2z u)) as [q|]; [|done]. rewrite Hup. f_equal.
    destruct (above_below v Hr) as (El & Eh & Ev & Hb). unfold rounds_to. rewrite (proj2 (Z.ltb_ge v 0)) by lia. subst u.
    rewrite compare_half by done. rewrite El, Eh. replace (v - inc * (v / inc)) with (v mod inc) by lia.
    replace (inc * (v / inc) + inc - v) with (inc - v mod inc) by lia.
    rewrite Zeven_mod. clear Hup. destruct mode; cbn [negb]; try done; destruct (Z.compare (v mod inc) (inc - v mod inc)); try done. by destruct ((v / inc) mod 2 =? 0).
Qed.

(** What a mode chooses is a multiple less than an increment away. *)
Lemma rounds_near mode v : (inc | rounds_to mode v inc) ∧ Z.abs (rounds_to mode v inc - v) < inc.
Proof.
  destruct (decide (v mod inc = 0)) as [E|Hr].
  { rewrite multiple_rounds by done. split; [by apply Z.mod_divide; [lia|]|lia]. }
  destruct (above_below v Hr) as (El & Eh & Ev & Hb).
  assert (rounds_to mode v inc = below v inc ∨ rounds_to mode v inc = above v inc) as Hor.
  { unfold rounds_to. destruct mode; repeat case_match; auto. }
  destruct Hor as [-> | ->]; (split; [|lia]); rewrite ?El, ?Eh.
  - by apply Z.divide_factor_l.
  - replace (inc * (v / inc) + inc) with (inc * (v / inc + 1)) by lia. by apply Z.divide_factor_l.
Qed.

(** The half modes choose the nearer multiple. *)
Lemma rounds_nearest mode v : In mode [HalfCeil; HalfEven; HalfExpand; HalfFloor; HalfTrunc] → 2 * Z.abs (rounds_to mode v inc - v) <= inc.
Proof.
  intros Hm. destruct (decide (v mod inc = 0)) as [E|Hr]; [rewrite multiple_rounds by done; lia|].
  destruct (above_below v Hr) as (El & Eh & Ev & Hb). unfold rounds_to. rewrite El, Eh.
  destruct (Z.compare_spec (v - inc * (v / inc)) (inc * (v / inc) + inc - v)); destruct mode; cbn in Hm;
    try (exfalso; intuition congruence); repeat case_match; lia.
Qed.
End increment.

(** *** Parts *)

Fixpoint weighed (values scales : list Z) : Z :=
  match values, scales with v :: values, s :: scales => v * s + weighed values scales | _, _ => 0 end.
Fixpoint weighed_abs (values scales : list Z) : Z :=
  match values, scales with v :: values, s :: scales => Z.abs (v * s) + weighed_abs values scales | _, _ => 0 end.

Lemma weighed_abs_pos values : ∀ scales, 0 <= weighed_abs values scales.
Proof. induction values as [|v values IH]; intros [|s scales]; cbn [weighed_abs]; try lia. specialize (IH scales). lia. Qed.

Lemma sum_loop values : ∀ scales total, Forall (λ s, 1 <= s) scales → Z.abs total + weighed_abs values scales < 2^127 →
  foldl (λ total p,
    match total with
    | None => None
    | Some total =>
        match duration_component_integer p.1 with
        | None => None
        | Some c => match checked (c * p.2) with None => None | Some t => checked (total + t) end
        end
    end) (Some total) (zip values scales) = Some (total + weighed values scales).
Proof.
  induction values as [|v values IH]; intros [|s scales] total Hs Ht; cbn [zip zip_with foldl weighed]; rewrite ?Z.add_0_r; try done.
  apply Forall_cons in Hs as [Hs1 Hs]. cbn [weighed_abs] in Ht. pose proof (weighed_abs_pos values scales). assert (Z.abs v <= Z.abs (v * s)) by nia.
  unfold duration_component_integer. cbn [fst snd]. rewrite (proj2 (Z.leb_gt _ _)) by lia.
  assert (Civil.as_i128 v = v) as -> by (unfold Civil.as_i128; lia). rewrite !checked_ok by lia. rewrite IH by (done || lia). f_equal. lia.
Qed.

Lemma sum_parts_ok values scales : Forall (λ s, 1 <= s) scales → weighed_abs values scales < 2^127 → sum_parts values scales = Some (weighed values scales).
Proof. intros Hs Hw. unfold sum_parts. by rewrite sum_loop by (done || lia). Qed.

(** Writing a part of zero or leaving the zero that is there. *)
Lemma part_insert (neg : bool) c i (values : list Z) : 0 <= c < 2^53 → values !! i = Some 0 →
  (if negb (c =? 0) then <[i := if neg then - Civil.as_f64 c else Civil.as_f64 c]> values else values) =
    <[i := if neg then - c else c]> values.
Proof.
  intros Hc Hi. rewrite CivilFacts.as_f64_small by lia. destruct (Z.eqb_spec c 0) as [->|]; [|done]. cbn [negb].
  symmetry. apply list_insert_id. rewrite Hi. by destruct neg.
Qed.

(** Splitting a magnitude from the unit [lu] on: the parts, and what they add up to. *)
Fixpoint split_parts (scales : list Z) (r : Z) : list Z :=
  match scales with [] => [] | s :: scales => Z.quot r s :: split_parts scales (Z.rem r s) end.

Lemma split_weighed scales : ∀ r, 0 <= r → Forall (λ s, 1 <= s) scales → last scales = Some 1 →
  weighed (split_parts scales r) scales = r ∧ weighed_abs (split_parts scales r) scales = r ∧ Forall (λ c, 0 <= c) (split_parts scales r).
Proof.
  induction scales as [|s scales IH]; intros r Hr Hs Hl; [done|]. apply Forall_cons in Hs as [Hs1 Hs].
  assert (0 <= Z.quot r s ∧ r = s * Z.quot r s + Z.rem r s ∧ 0 <= Z.rem r s < s) as (Hq & Er & Hm).
  { pose proof (Z.quot_rem r s). pose proof (Z.rem_bound_pos r s). pose proof (Z.quot_pos r s). lia. }
  cbn [split_parts weighed weighed_abs]. destruct scales as [|s2 scales].
  - injection Hl as ->. cbn [split_parts weighed weighed_abs]. rewrite Z.rem_1_r in *. split_and!; [nia|nia|by repeat constructor].
  - destruct (IH (Z.rem r s)) as (E1 & E2 & E3); [lia|done|done|]. rewrite E1, E2. split_and!; [lia|nia|by constructor].
Qed.

Lemma balance_loop_ok (neg : bool) scales : ∀ i r pre, length pre = (i + 4)%nat → Forall (λ s, 1 <= s < 2^53) scales → 0 <= r →
  (∀ s, head scales = Some s → Z.quot r s < 2^53) →
  balance_loop neg (zip (seq i (length scales)) scales) r (pre ++ replicate (length scales) 0) =
    pre ++ map (λ c, if neg then - c else c) (split_parts scales r).
Proof.
  induction scales as [|s scales IH]; intros i r pre Hpre Hs Hr Hq; [done|]. apply Forall_cons in Hs as [Hs1 Hs].
  pose proof (Z.quot_pos r s). pose proof (Z.rem_bound_pos r s). specialize (Hq s eq_refl).
  cbn [length seq zip zip_with balance_loop split_parts map replicate].
  rewrite part_insert; [|lia|rewrite lookup_app_r by lia; by rewrite Hpre, Nat.sub_diag].
  rewrite insert_app_r_alt by lia. rewrite Hpre, Nat.sub_diag. cbn [insert list_insert].
  rewrite cons_middle, app_assoc. rewrite IH; [by rewrite <- app_assoc|rewrite length_app; cbn [length]; lia|done|lia|].
  intros s2 Es2. destruct scales as [|s2' scales]; [done|]. injection Es2 as ->. apply Forall_cons in Hs as [Hs2 _].
  assert (Z.quot (Z.rem r s) s2 <= Z.rem r s); [|lia]. apply Z.quot_le_upper_bound; nia.
Qed.

Definition unit_scale (lu : nat) : Z := TIME_UNIT_NS !!! lu.

Lemma weighed_opp values : ∀ scales, weighed (map Z.opp values) scales = - weighed values scales ∧
  weighed_abs (map Z.opp values) scales = weighed_abs values scales.
Proof.
  induction values as [|v values IH]; intros [|s scales]; cbn [map weighed weighed_abs]; try done.
  destruct (IH scales) as [-> ->]. lia.
Qed.

Lemma weighed_zeros pre : ∀ values scales, weighed (replicate (length pre) 0 ++ values) (pre ++ scales) = weighed values scales ∧
  weighed_abs (replicate (length pre) 0 ++ values) (pre ++ scales) = weighed_abs values scales.
Proof. induction pre as [|m pre IH]; intros values scales; [done|]. cbn [length replicate app weighed weighed_abs]. destruct (IH values scales) as [-> ->]. lia. Qed.

Lemma scales_ok : Forall (λ s, 1 <= s < 2^53) TIME_UNIT_NS.
Proof. repeat constructor; lia. Qed.

(** What [balance_instant_difference] returns. *)
Lemma balance_eq v lu : (lu < 6)%nat → Z.abs v < 2^53 * unit_scale lu → Z.abs v < 2^127 →
  balance_instant_difference v lu =
    Some (replicate (4 + lu) 0 ++ map (λ c, if v <? 0 then - c else c) (split_parts (drop lu TIME_UNIT_NS) (Z.abs v))).
Proof.
  intros Hlu Hv Hv'. unfold balance_instant_difference. rewrite checked_ok by lia. f_equal.
  assert (drop lu (zip (seq 0 6) TIME_UNIT_NS) = zip (seq lu (length (drop lu TIME_UNIT_NS))) (drop lu TIME_UNIT_NS)) as ->.
  { do 6 (destruct lu as [|lu]; [reflexivity|]). lia. }
  assert (Civil.zero_values = replicate (4 + lu) 0 ++ replicate (length (drop lu TIME_UNIT_NS)) 0) as ->.
  { do 6 (destruct lu as [|lu]; [reflexivity|]). lia. }
  apply balance_loop_ok; [rewrite length_replicate; lia|apply Forall_drop, scales_ok|lia|].
  intros s Hs. assert (s = unit_scale lu) as ->.
  { clear Hv. revert Hs. do 6 (destruct lu as [|lu]; [by intros [= <-]|]). lia. }
  assert (1 <= unit_scale lu) by (do 6 (destruct lu as [|lu]; [done|]); lia). apply Z.quot_lt_upper_bound; lia.
Qed.

Lemma balance_parts v lu : (lu < 6)%nat → Z.abs v < 2^53 * unit_scale lu → Z.abs v < 2^127 →
  ∃ parts, balance_instant_difference v lu = Some (0 :: 0 :: 0 :: 0 :: parts) ∧ length parts = 6%nat ∧ weighed parts TIME_UNIT_NS = v ∧
    weighed_abs parts TIME_UNIT_NS = Z.abs v ∧ Forall (λ c, 0 <= Z.sgn v * c) parts.
Proof.
  intros Hlu Hv Hv'. exists (replicate lu 0 ++ map (λ c, if v <? 0 then - c else c) (split_parts (drop lu TIME_UNIT_NS) (Z.abs v))).
  split; [by apply balance_eq|].
  destruct (split_weighed (drop lu TIME_UNIT_NS) (Z.abs v)) as (E1 & E2 & E3);
    [lia|apply Forall_drop; eapply Forall_impl; [exact scales_ok|cbn; lia]|by do 6 (destruct lu as [|lu]; [reflexivity|]); lia|].
  set (parts := split_parts _ _) in *. assert (length parts = (6 - lu)%nat) as Hlen by (unfold parts; do 6 (destruct lu as [|lu]; [reflexivity|]); lia).
  set (f := λ c, if v <? 0 then - c else c). assert (weighed (map f parts) (drop lu TIME_UNIT_NS) = v ∧ weighed_abs (map f parts) (drop lu TIME_UNIT_NS) = Z.abs v) as [F1 F2].
  { unfold f. destruct (Z.ltb_spec v 0).
    - change (λ c, - c) with Z.opp. destruct (weighed_opp parts (drop lu TIME_UNIT_NS)) as [-> ->]. lia.
    - rewrite map_id. lia. }
  assert (TIME_UNIT_NS = take lu TIME_UNIT_NS ++ drop lu TIME_UNIT_NS) as Et by (symmetry; apply take_drop).
  assert (length (take lu TIME_UNIT_NS) = lu) as El by (rewrite length_take; cbn; lia).
  destruct (weighed_zeros (take lu TIME_UNIT_NS) (map f parts) (drop lu TIME_UNIT_NS)) as [W1 W2]. rewrite El, <- Et in W1, W2.
  split_and!; [rewrite length_app, length_replicate, length_map; lia|by rewrite W1|by rewrite W2|].
  apply Forall_app. split; [apply Forall_replicate; lia|]. apply Forall_map. eapply Forall_impl; [exact E3|]. intros c Hc. unfold f. cbn beta in *.
  destruct (Z.ltb_spec v 0); [rewrite Z.sgn_neg by lia; lia|]. nia.
Qed.

Lemma balance_sums v lu : (lu < 6)%nat → Z.abs v < 2^53 * unit_scale lu → Z.abs v < 2^127 →
  ∃ values, balance_instant_difference v lu = Some values ∧ length values = 10%nat ∧ duration_time_only_nanoseconds values = Some v ∧
    Forall (λ c, 0 <= Z.sgn v * c) values.
Proof.
  intros Hlu Hv Hv'. destruct (balance_parts v lu Hlu Hv Hv') as (parts & E & Hlen & Hw & Ha & Hf). eexists. split; [exact E|].
  split; [cbn; by rewrite Hlen|]. split; [|repeat (constructor; [lia|]); done]. unfold duration_time_only_nanoseconds. change (drop 4 _) with parts.
  rewrite sum_parts_ok; [by rewrite Hw|eapply Forall_impl; [exact scales_ok|cbn; lia]|lia].
Qed.
End RoundingFacts.

(** ** Theorems *)

(** Rounding.  On values and increments below [2^126], the rounding of
    differences chooses exactly the multiple of the increment that its mode
    names, and the rounding of instants does so with the modes read as for
    positive numbers; the result is a multiple less than one increment away,
    and at most half an increment for the half modes. *)
Theorem rounding_exact value increment mode :
  0 < increment < 2^126 → Z.abs value < 2^126 →
  Rounding.round_instant_difference value increment mode = Some (rounds_to mode value increment) ∧
  Rounding.round_instant_ns value increment mode = Some (rounds_to (as_if_positive mode) value increment) ∧
  (increment | rounds_to mode value increment) ∧ Z.abs (rounds_to mode value increment - value) < increment ∧
  (In mode [Rounding.HalfCeil; Rounding.HalfEven; Rounding.HalfExpand; Rounding.HalfFloor; Rounding.HalfTrunc] →
     2 * Z.abs (rounds_to mode value increment - value) <= increment).
Proof.
  intros Hi Hv. split_and!; [by apply RoundingFacts.difference_rounds|by apply RoundingFacts.instant_rounds|..].
  - by apply RoundingFacts.rounds_near.
  - by apply RoundingFacts.rounds_near.
  - by apply RoundingFacts.rounds_nearest.
Qed.

Lemma rounding_exact_witness :
  Rounding.round_instant_difference (-25) 10 Rounding.HalfEven = Some (-20) ∧
  Rounding.round_instant_ns (-25) 10 Rounding.HalfTrunc = Some (-30).
Proof.
  destruct (rounding_exact (-25) 10 Rounding.HalfEven) as (E1 & _); [lia|lia|].
  destruct (rounding_exact (-25) 10 Rounding.HalfTrunc) as (_ & E2 & _); [lia|lia|].
  split; [rewrite E1|rewrite E2]; by vm_compute.
Defined.

(** Balancing time.  Splitting nanoseconds from any unit on gives ten components
    of one sign whose time parts add up to the nanoseconds again, as long as
    the first part fits the 53 bits of a float. *)
Theorem balance_roundtrip value largest_unit :
  (largest_unit < 6)%nat → Z.abs value < 2^53 * RoundingFacts.unit_scale largest_unit → Z.abs value < 2^127 →
  ∃ values, Rounding.balance_instant_difference value largest_unit = Some values ∧ length values = 10%nat ∧
    Rounding.duration_time_only_nanoseconds values = Some value ∧ Forall (λ c, 0 <= Z.sgn value * c) values.
Proof. apply RoundingFacts.balance_sums. Qed.

Lemma balance_roundtrip_witness :
  Rounding.balance_instant_difference (-3661000000001) 0 = Some [0; 0; 0; 0; -1; -1; -1; 0; 0; -1] ∧
  ∃ values, Rounding.balance_instant_difference (-3661000000001) 0 = Some values ∧
    Rounding.duration_time_only_nanoseconds values = Some (-3661000000001).
Proof.
  split; [by vm_compute|]. destruct (balance_roundtrip (-3661000000001) 0) as (values & E & _ & Es & _); [lia|by vm_compute|by vm_compute|].
  by exists values.
Defined.
