(* ===== verification/Offset.v ===== *)
(** * Time-zone offsets as text (crates/oxide_builtins/src/temporal/common.rs, zoned_date_time.rs)

    The readers and the writer of numeric offsets.  Text is a list of bytes;
    [i64] is [Z]: an offset has at most 86399 seconds. *)

From stdpp Require Import base tactics numbers list option strings pretty.
From Stdlib Require Import NArith ZArith Lia.
From S2P Require Import Prelude Unicode Civil.

Open Scope N_scope.

Module Offset.
Definition is_ascii_digit (b : N) : bool := in_range 48 57 b.
Definition digit_value (b : N) : Z := Z.of_N (b - 48).

(** [acc * 10 + d] over digits. *)
Definition fold_digits (l : list N) : Z := foldl (λ acc b, (acc * 10 + digit_value b)%Z) 0%Z l.

(** The digits and the cursor after them.  [checked_mul] and [checked_add] cannot
    fail for the counts in use. *)
Definition parse_digits (bytes : list N) (cursor count : nat) : option (Z * nat) :=
  let e := (cursor + count)%nat in
  if (length bytes <? e)%nat then None
  else
    let digits := take count (drop cursor bytes) in
    if forallb is_ascii_digit digits then Some (fold_digits digits, e) else None.

Definition is_sign (b : N) : bool := (b =? 43) || (b =? 45).
Definition slice (bytes : list N) (i j : nat) : list N := take (j - i) (drop i bytes).

Definition parse_offset_seconds (bytes : list N) : option Z :=
  if negb (length bytes =? 6)%nat || negb (is_sign (bytes !!! 0%nat)) || negb (bytes !!! 3%nat =? 58) then None
  else if negb (forallb is_ascii_digit (slice bytes 1 3)) || negb (forallb is_ascii_digit (slice bytes 4 6)) then None
  else
    let hours := (digit_value (bytes !!! 1%nat) * 10 + digit_value (bytes !!! 2%nat))%Z in
    let minutes := (digit_value (bytes !!! 4%nat) * 10 + digit_value (bytes !!! 5%nat))%Z in
    if ((23 <? hours) || (59 <? minutes))%Z then None
    else
      let magnitude := (hours * 3600 + minutes * 60)%Z in
      Some (if bytes !!! 0%nat =? 45 then (- magnitude)%Z else magnitude).

Definition sign_of (bytes : list N) : option Z :=
  match bytes with
  | 43 :: _ => Some 1%Z
  | 45 :: _ => Some (-1)%Z
  | _ => None
  end.

Definition digits (bytes : list N) (i j : nat) : option Z :=
  if forallb is_ascii_digit (slice bytes i j) then Some (fold_digits (slice bytes i j)) else None.

Definition fixed_offset_seconds (bytes : list N) : option Z :=
  match sign_of bytes with
  | None => None
  | Some sign =>
      if (length bytes =? 6)%nat && (bytes !!! 3%nat =? 58) then
        match digits bytes 1 3 with
        | None => None
        | Some hour =>
            match digits bytes 4 6 with
            | None => None
            | Some minute => if ((hour <=? 23) && (minute <=? 59))%Z then Some (sign * (hour * 3600 + minute * 60))%Z else None
            end
        end
      else if (length bytes =? 3)%nat then
        match digits bytes 1 3 with
        | None => None
        | Some hour => if (hour <=? 23)%Z then Some (sign * hour * 3600)%Z else None
        end
      else if (length bytes =? 5)%nat then
        match digits bytes 1 3 with
        | None => None
        | Some hour =>
            match digits bytes 3 5 with
            | None => None
            | Some minute => if ((hour <=? 23) && (minute <=? 59))%Z then Some (sign * (hour * 3600 + minute * 60))%Z else None
            end
        end
      else if (length bytes =? 9)%nat && (bytes !!! 3%nat =? 58) && (bytes !!! 6%nat =? 58) then
        match digits bytes 1 3 with
        | None => None
        | Some hour =>
            match digits bytes 4 6 with
            | None => None
            | Some minute =>
                match digits bytes 7 9 with
                | None => None
                | Some second =>
                    if ((hour <=? 23) && (minute <=? 59) && (second <=? 59))%Z
                    then Some (sign * (hour * 3600 + minute * 60 + second))%Z else None
                end
            end
        end
      else None
  end.

Definition whole_minute_offset (bytes : list N) : option Z :=
  if (length bytes =? 9)%nat then None else fixed_offset_seconds bytes.

(** [bytes.get(cursor)] is a digit, a colon. *)
Definition digit_at (bytes : list N) (cursor : nat) : bool := match bytes !! cursor with Some b => is_ascii_digit b | None => false end.
Definition byte_at (bytes : list N) (cursor : nat) (b : N) : bool := match bytes !! cursor with Some c => c =? b | None => false end.

(** The loop that steps over the digits of a fraction. *)
Fixpoint skip_digits (fuel : nat) (bytes : list N) (cursor : nat) : nat :=
  match fuel with
  | O => cursor
  | S fuel => if digit_at bytes cursor then skip_digits fuel bytes (S cursor) else cursor
  end.

Definition parse_any_offset_seconds (bytes : list N) : option (Z * bool) :=
  match sign_of bytes with
  | None => None
  | Some sign =>
      match parse_digits bytes 1 2 with
      | None => None
      | Some (hour, cursor) =>
          let colon_format := byte_at bytes cursor 58 in
          match (if colon_format then parse_digits bytes (cursor + 1) 2
                 else if digit_at bytes cursor then parse_digits bytes cursor 2 else Some (0%Z, cursor)) with
          | None => None
          | Some (minute, cursor) =>
              match (if colon_format && byte_at bytes cursor 58 then
                       match parse_digits bytes (cursor + 1) 2 with Some (second, cursor) => Some (second, cursor, true) | None => None end
                     else if negb colon_format && digit_at bytes cursor then
                       match parse_digits bytes cursor 2 with Some (second, cursor) => Some (second, cursor, true) | None => None end
                     else Some (0%Z, cursor, false)) with
              | None => None
              | Some (second, cursor, has_seconds) =>
                  let cursor :=
                    if byte_at bytes cursor 46 || byte_at bytes cursor 44
                    then skip_digits (length bytes) bytes (S cursor) else cursor in
                  if negb (cursor =? length bytes)%nat || ((23 <? hour) || (59 <? minute) || (59 <? second))%Z then None
                  else Some (((hour * 3600 + minute * 60 + second) * sign)%Z, has_seconds)
              end
          end
      end
  end.

(** [{:02}] of a number that is not negative. *)
Definition pad2 (n : Z) : list N := (if (n <? 10)%Z then [48] else []) ++ bytes_of (pretty (Z.to_N n)).

Definition format_offset_seconds_text (offset_seconds : Z) : list N :=
  let sign := if (offset_seconds <? 0)%Z then 45 else 43 in
  let magnitude := Z.abs offset_seconds in
  if negb (Z.rem magnitude 60 =? 0)%Z
  then [sign] ++ pad2 (Z.quot magnitude 3600) ++ [58] ++ pad2 (Z.quot (Z.rem magnitude 3600) 60) ++ [58] ++ pad2 (Z.rem magnitude 60)
  else [sign] ++ pad2 (Z.quot magnitude 3600) ++ [58] ++ pad2 (Z.quot (Z.rem magnitude 3600) 60).

Definition round_offset_to_minutes (seconds : Z) : Z :=
  let sign := Z.sgn seconds in
  let magnitude := (Z.abs seconds + 30)%Z in
  (Z.quot magnitude 60 * 60 * sign)%Z.

Definition offset_matches (zone_offset_seconds input_offset_seconds : Z) (match_exactly : bool) : bool :=
  if match_exactly then (zone_offset_seconds =? input_offset_seconds)%Z
  else (round_offset_to_minutes zone_offset_seconds =? input_offset_seconds)%Z.
End Offset.

(** ** Facts *)

Module OffsetFacts.
Import Offset.

(** A number below one hundred as two digits. *)
Definition two (n : Z) : list N := [48 + Z.to_N (n / 10); 48 + Z.to_N (n mod 10)].

Lemma pad2_check : forallb (λ n, bool_decide (pad2 n = two n)) (seqZ 0 100) = true.
Proof. vm_compute. reflexivity. Qed.

Lemma pad2_two n : (0 <= n < 100)%Z → pad2 n = two n.
Proof.
  intros Hn. pose proof pad2_check as H. rewrite forallb_forall in H. specialize (H n). apply bool_decide_eq_true in H; [done|].
  apply list_elem_of_In, elem_of_seqZ. lia.
Qed.

Lemma two_digits n : (0 <= n < 100)%Z → forallb is_ascii_digit (two n) = true ∧ fold_digits (two n) = n.
Proof.
  intros Hn. assert (0 <= n / 10 <= 9 ∧ 0 <= n mod 10 <= 9)%Z as [H1 H2] by dlia. split.
  - unfold two. cbn [forallb]. unfold is_ascii_digit. rewrite !(proj2 (in_range_true 48 57 _)); [done|lia|lia].
  - unfold fold_digits, two, digit_value. cbn [foldl]. dlia.
Qed.

(** The two texts of an offset. *)
Definition minutes_text (sign : N) (h m : Z) : list N := sign :: two h ++ 58 :: two m.
Definition seconds_text (sign : N) (h m s : Z) : list N := sign :: two h ++ 58 :: two m ++ 58 :: two s.

Section text.
Context (sign : N) (sg : Z) (Hsign : sign_of [sign] = Some sg).
Context (h m s : Z) (Hh : (0 <= h < 24)%Z) (Hm : (0 <= m < 60)%Z) (Hs : (0 <= s < 60)%Z).

Lemma sign_any l : sign_of (sign :: l) = Some sg.
Proof. rewrite <- Hsign. reflexivity. Qed.

Lemma sign_not_colon : sign ≠ 58.
Proof. intros ->. discriminate. Qed.

Lemma fixed_minutes : fixed_offset_seconds (minutes_text sign h m) = Some (sg * (h * 3600 + m * 60))%Z.
Proof.
  unfold fixed_offset_seconds. unfold minutes_text at 1. rewrite sign_any.
  change ((length (minutes_text sign h m) =? 6)%nat && (minutes_text sign h m !!! 3%nat =? 58)) with true. cbn iota.
  unfold digits. change (slice (minutes_text sign h m) 1 3) with (two h). change (slice (minutes_text sign h m) 4 6) with (two m).
  destruct (two_digits h) as [-> ->]; [lia|]. destruct (two_digits m) as [-> ->]; [lia|].
  by rewrite (proj2 (Z.leb_le h 23)), (proj2 (Z.leb_le m 59)) by lia.
Qed.

Lemma fixed_seconds : fixed_offset_seconds (seconds_text sign h m s) = Some (sg * (h * 3600 + m * 60 + s))%Z.
Proof.
  unfold fixed_offset_seconds. unfold seconds_text at 1. rewrite sign_any.
  change ((length (seconds_text sign h m s) =? 6)%nat && (seconds_text sign h m s !!! 3%nat =? 58)) with false.
  change (length (seconds_text sign h m s) =? 3)%nat with false. change (length (seconds_text sign h m s) =? 5)%nat with false.
  change ((length (seconds_text sign h m s) =? 9)%nat && (seconds_text sign h m s !!! 3%nat =? 58) && (seconds_text sign h m s !!! 6%nat =? 58)) with true.
  cbn iota. unfold digits. change (slice (seconds_text sign h m s) 1 3) with (two h). change (slice (seconds_text sign h m s) 4 6) with (two m).
  change (slice (seconds_text sign h m s) 7 9) with (two s).
  destruct (two_digits h) as [-> ->]; [lia|]. destruct (two_digits m) as [-> ->]; [lia|]. destruct (two_digits s) as [-> ->]; [lia|].
  by rewrite (proj2 (Z.leb_le h 23)), (proj2 (Z.leb_le m 59)), (proj2 (Z.leb_le s 59)) by lia.
Qed.

Lemma parse_two bytes i n : (0 <= n < 100)%Z → take 2 (drop i bytes) = two n → (i + 2 <= length bytes)%nat → parse_digits bytes i 2 = Some (n, (i + 2)%nat).
Proof.
  intros Hn E Hl. unfold parse_digits. rewrite (proj2 (Nat.ltb_ge _ _)) by done. rewrite E. by destruct (two_digits n Hn) as [-> ->].
Qed.

Lemma any_minutes : parse_any_offset_seconds (minutes_text sign h m) = Some (((h * 3600 + m * 60 + 0) * sg)%Z, false).
Proof.
  unfold parse_any_offset_seconds. unfold minutes_text at 1. rewrite sign_any.
  rewrite (parse_two (minutes_text sign h m) 1 h) by (done || lia || (cbn; lia)). cbn [Nat.add].
  change (byte_at (minutes_text sign h m) 3 58) with true. cbn iota.
  rewrite (parse_two (minutes_text sign h m) 4 m) by (done || lia || (cbn; lia)). cbn [Nat.add].
  change (byte_at (minutes_text sign h m) 6 58) with false. cbn [andb negb].
  change (byte_at (minutes_text sign h m) 6 46 || byte_at (minutes_text sign h m) 6 44) with false. cbn iota.
  change (negb (6 =? length (minutes_text sign h m))%nat) with false. cbn [orb].
  rewrite (proj2 (Z.ltb_ge 23 h)), (proj2 (Z.ltb_ge 59 m)) by lia. done.
Qed.

Lemma any_seconds : parse_any_offset_seconds (seconds_text sign h m s) = Some (((h * 3600 + m * 60 + s) * sg)%Z, true).
Proof.
  unfold parse_any_offset_seconds. unfold seconds_text at 1. rewrite sign_any. set (t := seconds_text sign h m s).
  rewrite (parse_two t 1 h) by (done || lia || (cbn; lia)). cbn [Nat.add]. change (byte_at t 3 58) with true. cbn iota.
  rewrite (parse_two t 4 m) by (done || lia || (cbn; lia)). cbn [Nat.add]. change (byte_at t 6 58) with true. cbn [andb].
  rewrite (parse_two t 7 s) by (done || lia || (cbn; lia)). cbn [Nat.add].
  change (byte_at t 9 46 || byte_at t 9 44) with false. cbn iota. change (negb (9 =? length t)%nat) with false. cbn [orb].
  rewrite (proj2 (Z.ltb_ge 23 h)), (proj2 (Z.ltb_ge 59 m)), (proj2 (Z.ltb_ge 59 s)) by lia. done.
Qed.
End text.

(** An offset as its sign, hours, minutes and seconds. *)
Lemma offset_parts o : (Z.abs o < 86400)%Z → ∃ sign sg h m s, sign_of [sign] = Some sg ∧ (0 <= h < 24)%Z ∧ (0 <= m < 60)%Z ∧ (0 <= s < 60)%Z ∧
  o = (sg * (h * 3600 + m * 60 + s))%Z ∧ (s = 0 ↔ Z.rem o 60 = 0)%Z ∧
  format_offset_seconds_text o = if (s =? 0)%Z then minutes_text sign h m else seconds_text sign h m s.
Proof.
  intros Ho. set (a := Z.abs o).
  exists (if (o <? 0)%Z then 45 else 43), (if (o <? 0)%Z then -1 else 1)%Z, (Z.quot a 3600), (Z.quot (Z.rem a 3600) 60), (Z.rem a 60).
  assert (0 <= Z.quot a 3600 < 24 ∧ 0 <= Z.quot (Z.rem a 3600) 60 < 60 ∧ 0 <= Z.rem a 60 < 60)%Z as (Hh & Hm & Hs) by (unfold a; dlia).
  split_and!; try lia; [by destruct (o <? 0)%Z|..].
  { assert (a = Z.quot a 3600 * 3600 + Z.quot (Z.rem a 3600) 60 * 60 + Z.rem a 60)%Z as <- by (clear; clearbody a; dlia).
    unfold a. destruct (Z.ltb_spec o 0); lia. }
  { unfold a. rewrite Z.rem_abs_l by lia. split; lia. }
  unfold format_offset_seconds_text. fold a. rewrite !pad2_two by lia. by destruct (Z.rem a 60 =? 0)%Z.
Qed.
End OffsetFacts.

(** ** Theorems *)

(** Offsets as text.  The text written for an offset of less than a day is read
    back as the same offset by both readers; the general reader says that it
    has seconds exactly when it is not a whole number of minutes, and the
    reader for whole minutes accepts it exactly when it is. *)
Theorem offset_roundtrip o : (Z.abs o < 86400)%Z →
  let text := Offset.format_offset_seconds_text o in
  Offset.fixed_offset_seconds text = Some o ∧
  Offset.parse_any_offset_seconds text = Some (o, negb (Z.rem o 60 =? 0)%Z) ∧
  Offset.whole_minute_offset text = if (Z.rem o 60 =? 0)%Z then Some o else None.
Proof.
  intros Ho text. destruct (OffsetFacts.offset_parts o Ho) as (sign & sg & h & m & s & Hsg & Hh & Hm & Hs & Eo & Hz & Et).
  unfold text. rewrite Et. unfold Offset.whole_minute_offset. destruct (Z.eqb_spec s 0) as [E|Hne].
  - rewrite (OffsetFacts.fixed_minutes sign sg Hsg h m Hh Hm), (OffsetFacts.any_minutes sign sg Hsg h m Hh Hm).
    rewrite (proj2 (Z.eqb_eq _ _) (proj1 Hz E)). change (length (OffsetFacts.minutes_text sign h m) =? 9)%nat with false. cbn [negb].
    rewrite Eo, E. split_and!; [f_equal; lia|do 2 f_equal; lia|f_equal; lia].
  - rewrite (OffsetFacts.fixed_seconds sign sg Hsg h m s Hh Hm Hs), (OffsetFacts.any_seconds sign sg Hsg h m s Hh Hm Hs).
    rewrite (proj2 (Z.eqb_neq (Z.rem o 60) 0)) by (intros E; by apply Hne, Hz).
    change (length (OffsetFacts.seconds_text sign h m s) =? 9)%nat with true. cbn [negb]. rewrite Eo. split_and!; [done|do 2 f_equal; lia|done].
Qed.

Lemma offset_roundtrip_witness :
  Offset.format_offset_seconds_text (-5_400) = bytes_of "-01:30" ∧ Offset.fixed_offset_seconds (Offset.format_offset_seconds_text (-2_670)) = Some (-2_670)%Z.
Proof. split; [by vm_compute|]. apply (offset_roundtrip (-2_670)). by vm_compute. Defined.
