(* ===== verification/TimeZone.v ===== *)
(** * Time zones (crates/oxide_builtins/src/temporal/time_zone.rs, zoned_date_time.rs)

    The transitions of a zone, the offset in force at an instant, the instants
    of a wall-clock time, gaps, and the choice between the instants.  Zone data
    comes from a third-party database: the table that names zones is a
    parameter ([tz_zone_data]), and [zone_ok] states what its zones satisfy. *)

From stdpp Require Import base tactics numbers list option strings sets.
From Stdlib Require Import ZArith Lia Sorting.
From S2P Require Import Prelude Unicode Civil Rounding Offset.

#[local] Set Warnings "-clear-no-such-hyp".

Open Scope Z_scope.

Module TimeZone.
Record TzifZone := mkZone { lmt_offset : Z; transitions : list (Z * Z); last_offset : Z }.

(** [slice::partition_point] on a slice that the predicate partitions. *)
Fixpoint partition_point {A} (p : A → bool) (l : list A) : nat :=
  match l with [] => 0%nat | x :: l => if p x then S (partition_point p l) else 0%nat end.

Definition position (z : TzifZone) (s : Z) : nat := partition_point (λ t, t.1 <=? s) (transitions z).

(** [as i64]. *)
Definition as_i64 (z : Z) : Z := (z + 2^63) mod 2^64 - 2^63.

(** The offset of the transition before the one numbered [idx]. *)
Definition offset_before (z : TzifZone) (idx : nat) : Z :=
  match idx with O => lmt_offset z | S k => (transitions z !!! k).2 end.

Definition tz_offset_seconds_of (z : TzifZone) (epoch_s : Z) : Z :=
  match transitions z with
  | [] => last_offset z
  | _ =>
      let idx := position z epoch_s in
      if (idx =? 0)%nat then lmt_offset z
      else if (idx =? length (transitions z))%nat then last_offset z
      else (transitions z !!! (idx - 1)%nat).2
  end.

Definition NS : Z := 1000000000.
Definition DAY_NS : Z := 86400000000000.
Definition MAX_ISO_DAY : Z := 100000000.
Definition MAX_INSTANT_NS : Z := 8640000000000000000000.

Definition consider (z : TzifZone) (wall_ns wall_s offset : Z) : list Z :=
  if tz_offset_seconds_of z (wall_s - offset) =? offset then [wall_ns - offset * NS] else [].

Definition named_zone_possible_epoch_ns (z : TzifZone) (wall_ns : Z) : list Z :=
  let wall_s := as_i64 (wall_ns / NS) in
  let idx := position z wall_s in
  let candidates :=
    consider z wall_ns wall_s (offset_before z idx)
    ++ (if (idx <? length (transitions z))%nat then consider z wall_ns wall_s (offset_before z (S idx)) else [])
    ++ (if (0 <? idx)%nat then consider z wall_ns wall_s (offset_before z (idx - 1)) else []) in
  dedup (sort_by Z.leb candidates).

(** The gap that the transition [k] opens, if the wall clock is in it. *)
Definition gap_at (z : TzifZone) (wall_ns : Z) (k : nat) : option (Z * Z * Z) :=
  let '(t, offset_after) := transitions z !!! k in
  let offset_before := offset_before z k in
  if (offset_before <? offset_after) && (t * NS + offset_before * NS <=? wall_ns) && (wall_ns <? t * NS + offset_after * NS)
  then Some (t, offset_before, offset_after) else None.

Definition tz_gap_transition (z : TzifZone) (wall_ns : Z) : option (Z * Z * Z) :=
  let wall_s := as_i64 (wall_ns / NS) in
  let idx := position z wall_s in
  match (if (idx <? length (transitions z))%nat then gap_at z wall_ns idx else None) with
  | Some g => Some g
  | None => if (0 <? idx)%nat then gap_at z wall_ns (idx - 1) else None
  end.

(** *** Zoned dates (zoned_date_time.rs) *)

Inductive AddZonedError := InvalidTimeZone | OutOfDateTimeRange | OutOfInstantRange | DayOutOfRange | InvalidDate | OutOfTimeRange.

Abbreviation outcome A := (sum A AddZonedError).
Definition bind {A B} (o : outcome A) (k : A → outcome B) : outcome B := match o with inl a => k a | inr e => inr e end.

(** [as i32] and [as u32]. *)
Definition as_i32 (z : Z) : Z := (z + 2^31) mod 2^32 - 2^31.
Definition as_u32 (z : Z) : Z := z mod 2^32.

(** The strings ["earlier"], ["later"], ["reject"]; any other is compatible. *)
Inductive disambiguation := Compatible | Earlier | Later | Reject.

Section zoned.
Context (tz_zone_data : list N → option TzifZone).

Definition tz_offset_seconds (zone : list N) (epoch_s : Z) : option Z :=
  (λ z, tz_offset_seconds_of z epoch_s) <$> tz_zone_data zone.

Definition zone_offset_seconds (zone : list N) (epoch_s : Z) : option Z :=
  match Offset.fixed_offset_seconds zone with
  | Some offset => Some offset
  | None => tz_offset_seconds zone epoch_s
  end.

Definition tz_gap_offsets (zone : list N) (wall_ns : Z) : option (Z * Z) :=
  match tz_zone_data zone with
  | None => None
  | Some z => match tz_gap_transition z wall_ns with Some (_, before, after) => Some (before, after) | None => None end
  end.

Definition tz_gap_transition_epoch (zone : list N) (wall_ns : Z) : option Z :=
  match tz_zone_data zone with
  | None => None
  | Some z => match tz_gap_transition z wall_ns with Some (t, _, _) => Some t | None => None end
  end.

Definition get_possible_epoch_nanoseconds (zone : list N) (year month day time_ns : Z) : outcome (list Z) :=
  match match Rounding.checked (Civil.days_from_civil year month day * DAY_NS) with Some v => Rounding.checked (v + time_ns) | None => None end with
  | None => inr OutOfDateTimeRange
  | Some wall_ns =>
      match Offset.fixed_offset_seconds zone with
      | Some offset =>
          match Rounding.checked (wall_ns - offset * NS) with
          | None => inr OutOfDateTimeRange
          | Some epoch =>
              if MAX_ISO_DAY <? Z.abs (wall_ns / DAY_NS) then inr OutOfDateTimeRange
              else if MAX_INSTANT_NS <? Z.abs epoch then inr OutOfInstantRange
              else inl [epoch]
          end
      | None =>
          match tz_zone_data zone with
          | None => inr InvalidTimeZone
          | Some z =>
              let candidates := named_zone_possible_epoch_ns z wall_ns in
              if existsb (λ e, MAX_INSTANT_NS <? Z.abs e) candidates then inr OutOfInstantRange else inl candidates
          end
      end
  end.

Definition disambiguate_possible_epoch_nanoseconds (zone : list N) (iso_date : Civil.date) (time_ns : Z) (mode : disambiguation)
    (candidates : list Z) : outcome Z :=
  match candidates with
  | [c] => inl c
  | c :: _ =>
      match mode with
      | Reject => inr OutOfDateTimeRange
      | Later => inl (default c (last candidates))
      | _ => inl c
      end
  | [] =>
      match mode with
      | Reject => inr OutOfDateTimeRange
      | _ =>
          let wall_ns := Civil.days_of iso_date * DAY_NS + time_ns in
          match tz_gap_offsets zone wall_ns with
          | None => inr OutOfDateTimeRange
          | Some (offset_before, offset_after) =>
              let shift := (offset_after - offset_before) * NS in
              let shifted := wall_ns + match mode with Earlier => - shift | _ => shift end in
              let '(year, month, day) := Civil.civil_from_days (shifted / DAY_NS) in
              bind (get_possible_epoch_nanoseconds zone (as_i32 year) (as_u32 month) (as_u32 day) (shifted mod DAY_NS))
                (λ shifted_candidates,
                   match shifted_candidates with
                   | [] => inr OutOfDateTimeRange
                   | c :: _ => inl match mode with Earlier => c | _ => default c (last shifted_candidates) end
                   end)
          end
      end
  end.

Definition get_iso_date_time_for (zone : list N) (epoch_ns : Z) : outcome (Civil.date * Z) :=
  match zone_offset_seconds zone (as_i64 (epoch_ns / NS)) with
  | None => inr InvalidTimeZone
  | Some offset_seconds =>
      let local_ns := epoch_ns + offset_seconds * NS in
      inl (Civil.civil_from_days (local_ns / DAY_NS), local_ns mod DAY_NS)
  end.

Definition get_epoch_nanos_for (zone : list N) (a : Civil.date) (time_ns : Z) : outcome Z :=
  if (a.1.1 <? - 2^31) || (2^31 - 1 <? a.1.1) then inr OutOfDateTimeRange
  else bind (get_possible_epoch_nanoseconds zone (as_i32 a.1.1) (as_u32 a.1.2) (as_u32 a.2) time_ns)
         (disambiguate_possible_epoch_nanoseconds zone a time_ns Compatible).

Definition add_instant (epoch_ns time_ns : Z) : outcome Z :=
  match Rounding.checked (epoch_ns + time_ns) with
  | None => inr OutOfInstantRange
  | Some result => if MAX_INSTANT_NS <? Z.abs result then inr OutOfInstantRange else inl result
  end.

Definition calendar_date_add_iso (a : Civil.date) (years months weeks days : Z) (constrain : bool) : outcome Civil.date :=
  let total := a.1.1 * 12 + (a.1.2 - 1) + years * 12 + months in
  let ny := total / 12 in
  let nm := total mod 12 + 1 in
  match Civil.days_in_month ny nm with
  | None => inr InvalidDate
  | Some max_day =>
      if max_day <? a.2
      then if constrain then inl (Civil.add_days_iso (ny, nm, max_day) (weeks * 7 + days)) else inr DayOutOfRange
      else inl (Civil.add_days_iso (ny, nm, a.2) (weeks * 7 + days))
  end.

(** plain_date.rs; [time_ns as i128] of a time that is an integer. *)
Definition valid_plain_date_time_range (year month day time_ns : Z) : bool :=
  let limit := (MAX_ISO_DAY + 1) * 86400000000000 in
  match Rounding.checked (Civil.days_from_civil year month day * 86400000000000) with
  | None => false
  | Some v => match Rounding.checked (v + time_ns) with None => false | Some epoch_ns => (- limit <? epoch_ns) && (epoch_ns <? limit) end
  end.

Definition add_zoned_datetime_pure (epoch_ns : Z) (zone : list N) (values : list Z) (constrain : bool) : outcome Z :=
  if Civil.date_duration_sign values =? 0 then
    match Rounding.duration_time_only_nanoseconds values with None => inr OutOfTimeRange | Some time_ns => add_instant epoch_ns time_ns end
  else
    bind (get_iso_date_time_for zone epoch_ns) (λ iso,
      let '((year, month, day), time_ns) := iso in
      if negb (valid_plain_date_time_range (as_i32 year) (as_u32 month) (as_u32 day) time_ns) then inr OutOfDateTimeRange
      else bind (calendar_date_add_iso (year, month, day) (Civil.as_i128 (values !!! 0%nat)) (Civil.as_i128 (values !!! 1%nat))
                   (Civil.as_i128 (values !!! 2%nat)) (Civil.as_i128 (values !!! 3%nat)) constrain) (λ added,
        if negb (valid_plain_date_time_range (as_i32 added.1.1) (as_u32 added.1.2) (as_u32 added.2) time_ns) then inr OutOfDateTimeRange
        else bind (get_possible_epoch_nanoseconds zone (as_i32 added.1.1) (as_u32 added.1.2) (as_u32 added.2) time_ns) (λ candidates,
          bind (disambiguate_possible_epoch_nanoseconds zone added time_ns Compatible candidates) (λ intermediate_ns,
            match Rounding.duration_time_only_nanoseconds values with
            | None => inr OutOfTimeRange
            | Some time_ns => add_instant intermediate_ns time_ns
            end)))).
End zoned.
End TimeZone.

(** ** Zones *)

Import TimeZone.

(** At least two days between transitions. *)
Fixpoint spaced (l : list (Z * Z)) : bool :=
  match l with
  | t :: ((u :: _) as l') => (t.1 + 172800 <=? u.1) && spaced l'
  | _ => true
  end.

(** Offsets of less than a day, and as the last offset that of the last transition. *)
Definition zone_ok (z : TzifZone) : bool :=
  spaced (transitions z) && (Z.abs (lmt_offset z) <? 86400) && forallb (λ t, Z.abs t.2 <? 86400) (transitions z)
  && (last_offset z =? offset_before z (length (transitions z))).

(** The offset in force at an instant, and the wall clock there. *)
Definition offset_at (z : TzifZone) (e : Z) : Z := tz_offset_seconds_of z (e / NS).
Definition wall_at (z : TzifZone) (e : Z) : Z := e + offset_at z e * NS.

Module ZoneFacts.

Section zone.
Context (z : TzifZone) (Hz : zone_ok z = true).
Abbreviation ts := (transitions z).

Lemma zone_parts : spaced ts = true ∧ Z.abs (lmt_offset z) < 86400 ∧ (∀ k t, ts !! k = Some t → Z.abs t.2 < 86400) ∧
  last_offset z = offset_before z (length ts).
Proof.
  unfold zone_ok in Hz. rewrite !andb_true_iff, Z.ltb_lt, Z.eqb_eq, forallb_forall in Hz. destruct Hz as [[[H1 H2] H3] H4].
  split_and!; try done. intros k t Hk. apply Z.ltb_lt, H3, list_elem_of_In. by eapply list_elem_of_lookup_2.
Qed.

Lemma time_step (l : list (Z * Z)) k t u : spaced l = true → l !! k = Some t → l !! S k = Some u → t.1 + 172800 <= u.1.
Proof.
  revert k. induction l as [|a [|b l] IH]; intros k Hs Ht Hu; [done|by destruct k|]. cbn [spaced] in Hs. apply andb_true_iff in Hs as [Hab Hs].
  destruct k as [|k].
  - cbn in Ht, Hu. simplify_eq. by apply Z.leb_le.
  - by apply (IH k).
Qed.

Lemma time_far i k t u : (i < k)%nat → ts !! i = Some t → ts !! k = Some u → t.1 + 172800 <= u.1.
Proof.
  intros Hik Ht. revert u. induction k as [|k IH]; [lia|]. intros u Hu. destruct zone_parts as (Hs & _).
  destruct (decide (i = k)) as [->|Hne]; [by eapply time_step|].
  destruct (lookup_lt_is_Some_2 ts k) as [v Hv]; [apply lookup_lt_Some in Hu; lia|].
  pose proof (IH ltac:(lia) v Hv). pose proof (time_step _ _ _ _ Hs Hv Hu). lia.
Qed.

(** The position of a second among the transitions. *)
Lemma position_spec s : (position z s <= length ts)%nat ∧ (∀ k t, ts !! k = Some t → (k < position z s)%nat ↔ t.1 <= s).
Proof.
  destruct zone_parts as (Hs & _). unfold position. revert Hs. generalize ts. induction l as [|a l IH]; intros Hs; [split; [done|by intros]|].
  assert (spaced l = true) as Hs' by (destruct l; [done|]; cbn [spaced] in Hs; by apply andb_true_iff in Hs as [_ ?]).
  destruct (IH Hs') as [IH1 IH2]. cbn [partition_point length]. destruct (Z.leb_spec a.1 s) as [Hle|Hgt].
  - split; [lia|]. intros [|k] t Ht; cbn in Ht; [simplify_eq; lia|]. rewrite <- (IH2 k t Ht). lia.
  - split; [lia|]. intros k t Ht. split; [lia|]. intros Hts. exfalso.
    assert (∀ k t, (a :: l) !! k = Some t → a.1 <= t.1) as Hall.
    { clear -Hs. induction k as [|k IHk]; intros t Ht; [cbn in Ht; by simplify_eq|].
      destruct (lookup_lt_is_Some_2 (a :: l) k) as [v Hv]; [apply lookup_lt_Some in Ht; lia|].
      pose proof (IHk v Hv). pose proof (time_step _ _ _ _ Hs Hv Ht). lia. }
    pose proof (Hall k t Ht). lia.
Qed.

Lemma position_unique s i : (i <= length ts)%nat → (∀ t, ts !! i = Some t → s < t.1) → (∀ k t, i = S k → ts !! k = Some t → t.1 <= s) → position z s = i.
Proof.
  intros Hi Hlt Hle. destruct (position_spec s) as [Hp Hs]. destruct (Nat.lt_trichotomy (position z s) i) as [H|[H|H]]; [|done|].
  - destruct i as [|k]; [lia|]. destruct (lookup_lt_is_Some_2 ts k) as [t Ht]; [lia|]. specialize (Hle k t eq_refl Ht). apply (Hs k t Ht) in Hle. lia.
  - destruct (lookup_lt_is_Some_2 ts i) as [t Ht]; [lia|]. specialize (Hlt t Ht). apply (Hs i t Ht) in H. lia.
Qed.

Lemma offset_position s : tz_offset_seconds_of z s = offset_before z (position z s).
Proof.
  destruct zone_parts as (_ & _ & _ & Hl). destruct (position_spec s) as [Hp _]. unfold tz_offset_seconds_of.
  destruct ts as [|a l] eqn:E; [rewrite Hl; cbn [length] in *; by replace (position z s) with 0%nat by lia|].
  rewrite <- E in *. destruct (Nat.eqb_spec (position z s) 0) as [->|Hne]; [done|].
  destruct (Nat.eqb_spec (position z s) (length ts)) as [->|_]; [done|].
  destruct (position z s) as [|k]; [done|]. cbn [offset_before]. by rewrite Nat.sub_succ, Nat.sub_0_r.
Qed.

Lemma offset_small i : (i <= length ts)%nat → Z.abs (offset_before z i) < 86400.
Proof.
  intros Hi. destruct zone_parts as (_ & Hl & Ho & _). destruct i as [|k]; [done|]. cbn [offset_before].
  destruct (lookup_lt_is_Some_2 ts k) as [t Ht]; [lia|]. rewrite (list_lookup_total_correct _ _ _ Ht). by eapply Ho.
Qed.

(** Seconds less than a day apart are at neighbouring positions. *)
Lemma position_near s s' : Z.abs (s - s') < 86400 → (position z s <= S (position z s'))%nat.
Proof.
  intros Hs. destruct (position_spec s) as [Hp Hk]. destruct (position_spec s') as [Hp' Hk'].
  destruct (decide (position z s <= S (position z s'))%nat) as [|Hn]; [done|]. exfalso.
  set (i := position z s') in *. destruct (lookup_lt_is_Some_2 ts i) as [t Ht]; [lia|].
  destruct (lookup_lt_is_Some_2 ts (S i)) as [u Hu]; [lia|]. pose proof (time_far i (S i) t u ltac:(lia) Ht Hu).
  pose proof (proj1 (Hk (S i) u Hu) ltac:(lia)). assert (¬ t.1 <= s') by (intros ?%(Hk' i t Ht); lia). lia.
Qed.

(** *** The instants of a wall-clock time *)

Context (wall : Z) (Hwall : Z.abs wall <= 10000000000000000000000).

Lemma wall_second : as_i64 (wall / NS) = wall / NS.
Proof.
  unfold as_i64, NS in *. assert (Z.abs (wall / 1000000000) <= 10000000000001) by dlia. rewrite Z.mod_small; lia.
Qed.

Lemma second_of o : (wall - o * NS) / NS = wall / NS - o.
Proof. unfold NS. dlia. Qed.

Lemma elem_consider o e : e ∈ consider z wall (wall / NS) o ↔ e = wall - o * NS ∧ tz_offset_seconds_of z (wall / NS - o) = o.
Proof.
  unfold consider. destruct (Z.eqb_spec (tz_offset_seconds_of z (wall / NS - o)) o) as [E|Hne].
  - rewrite list_elem_of_singleton. naive_solver.
  - split; [intros H; by apply elem_of_nil in H|naive_solver].
Qed.

Lemma possible_iff e : e ∈ named_zone_possible_epoch_ns z wall ↔ wall_at z e = wall.
Proof.
  unfold named_zone_possible_epoch_ns. rewrite wall_second. set (s := wall / NS). set (idx := position z s).
  destruct (position_spec s) as [Hidx _]. fold idx in Hidx.
  rewrite elem_of_dedup, elem_of_sort_by, !elem_of_app. unfold s. rewrite elem_consider. fold s. split.
  - assert (∀ o, e = wall - o * NS → tz_offset_seconds_of z (s - o) = o → wall_at z e = wall) as Hok.
    { intros o -> Ho. unfold wall_at, offset_at. rewrite second_of. fold s. rewrite Ho. lia. }
    intros [[E1 E2]|[H|H]]; [by eapply Hok|..]; case_match; try (by apply elem_of_nil in H);
      apply elem_consider in H as [E1 E2]; by eapply Hok.
  - intros He. unfold wall_at in He. set (o := offset_at z e) in He. assert (e = wall - o * NS) as Ee by lia.
    assert (e / NS = s - o) as Es by (rewrite Ee; apply second_of).
    assert (tz_offset_seconds_of z (s - o) = o) as Ho by (rewrite <- Es; done).
    set (j := position z (s - o)). assert (offset_before z j = o) as Ej by (unfold j; rewrite <- offset_position; done).
    destruct (position_spec (s - o)) as [Hj _]. fold j in Hj. pose proof (offset_small j Hj) as Hos. rewrite Ej in Hos.
    assert (j <= S idx ∧ idx <= S j)%nat as [H1 H2] by (split; apply position_near; lia).
    assert (j = idx ∨ j = S idx ∨ S j = idx) as [->|[->| Hp]] by lia.
    + left. by rewrite Ej.
    + right; left. rewrite (proj2 (Nat.ltb_lt idx (length ts))) by lia. rewrite Ej. by apply elem_consider.
    + right; right. rewrite (proj2 (Nat.ltb_lt 0 idx)) by lia. replace (idx - 1)%nat with j by lia. rewrite Ej. by apply elem_consider.
Qed.

Lemma sort_sorted l : Sorted Z.le (sort_by Z.leb l).
Proof.
  induction l as [|x l IH]; [constructor|]. unfold sort_by in *. cbn [foldr]. induction IH as [|y l' Hs IH Hy]; cbn [insert_by]; [by repeat constructor|].
  destruct (Z.leb_spec x y); [repeat constructor; done|]. constructor; [done|]. destruct l' as [|w l']; cbn [insert_by] in *; [constructor; lia|].
  destruct (Z.leb_spec x w); constructor; [lia|]. by inversion Hy.
Qed.

Lemma dedup_sorted l : Sorted Z.le l → StronglySorted Z.lt (dedup l).
Proof.
  intros Hs%Sorted_StronglySorted; [|intros ???; lia]. induction Hs as [|x l Hs IH Hx]; [constructor|]. destruct l as [|y l]; [by repeat constructor|].
  change (dedup (x :: y :: l)) with (if decide (x = y) then dedup (y :: l) else x :: dedup (y :: l)).
  case_decide as E; [done|]. constructor; [done|]. apply Forall_forall. intros w Hw. rewrite elem_of_dedup in Hw.
  apply Forall_cons in Hx as [Hxy Hx]. apply StronglySorted_inv in Hs as [_ Hys]. apply elem_of_cons in Hw as [->|Hw]; [lia|].
  rewrite Forall_forall in Hys. specialize (Hys w Hw). lia.
Qed.

Lemma possible_sorted : StronglySorted Z.lt (named_zone_possible_epoch_ns z wall).
Proof. apply dedup_sorted, sort_sorted. Qed.

(** *** Gaps *)

(** The wall-clock second at which interval [i] ends. *)
Definition interval_ends (i : nat) : Prop := ∀ t, ts !! i = Some t → wall < (t.1 + offset_before z i) * NS.

(** An instant in the interval [i] whose wall clock is [wall]. *)
Lemma interval_hit i : (i <= length ts)%nat → interval_ends i → (∀ k t, i = S k → ts !! k = Some t → (t.1 + offset_before z i) * NS <= wall) →
  wall_at z (wall - offset_before z i * NS) = wall.
Proof.
  intros Hi He Hb. unfold wall_at, offset_at. rewrite second_of, offset_position. rewrite (position_unique _ i); [lia|done|..].
  - intros t Ht. specialize (He t Ht). unfold NS in *. dlia.
  - intros k t -> Ht. specialize (Hb k t eq_refl Ht). unfold NS in *. dlia.
Qed.

Lemma first_end : ∃ i, (i <= length ts)%nat ∧ interval_ends i ∧ ∀ j, (j < i)%nat → ¬ interval_ends j.
Proof.
  assert (∀ n i, (i + n = length ts)%nat → (∀ j, (j < i)%nat → ¬ interval_ends j) →
    ∃ i, (i <= length ts)%nat ∧ interval_ends i ∧ ∀ j, (j < i)%nat → ¬ interval_ends j) as H.
  { induction n as [|n IH]; intros i Hin Hj.
    - exists i. split_and!; [lia| |done]. intros t Ht. apply lookup_lt_Some in Ht. lia.
    - destruct (lookup_lt_is_Some_2 ts i) as [t Ht]; [lia|]. destruct (decide (wall < (t.1 + offset_before z i) * NS)) as [Hlt|Hge].
      + exists i. split_and!; [lia| |done]. intros t' Ht'. by simplify_eq.
      + apply (IH (S i)); [lia|]. intros j Hj'. destruct (decide (j = i)) as [->|]; [|apply Hj; lia]. intros He. by apply Hge, He. }
  apply (H (length ts) 0%nat); [lia|]. intros j Hj'. lia.
Qed.

(** A wall clock with no instant lies in the gap of some transition. *)
Lemma gap_exists : named_zone_possible_epoch_ns z wall = [] → ∃ k t, ts !! k = Some t ∧
  (t.1 + offset_before z k) * NS <= wall < (t.1 + t.2) * NS.
Proof.
  intros Hnone. assert (∀ e, wall_at z e ≠ wall) as Hno.
  { intros e He%possible_iff. rewrite Hnone in He. by apply elem_of_nil in He. }
  destruct first_end as (i & Hi & He & Hj). destruct i as [|k].
  - exfalso. apply (Hno (wall - offset_before z 0 * NS)). by apply interval_hit.
  - destruct (lookup_lt_is_Some_2 ts k) as [t Ht]; [lia|]. exists k, t. split; [done|]. split.
    + assert (¬ interval_ends k) as Hk by (apply Hj; lia). destruct (decide (wall < (t.1 + offset_before z k) * NS)) as [Hlt|]; [|lia].
      exfalso. apply Hk. intros t' Ht'. by simplify_eq.
    + assert (offset_before z (S k) = t.2) as Eo by (cbn [offset_before]; by rewrite (list_lookup_total_correct _ _ _ Ht)).
      destruct (decide (wall < (t.1 + t.2) * NS)) as [|Hge]; [done|]. exfalso. apply (Hno (wall - offset_before z (S k) * NS)).
      apply interval_hit; [done|done|]. intros k' t' [= <-] Ht'. simplify_eq. rewrite Eo. lia.
Qed.

(** What a gap is. *)
Definition in_gap (k : nat) (t b a : Z) : Prop := ts !! k = Some (t, a) ∧ b = offset_before z k ∧ b < a ∧ (t + b) * NS <= wall < (t + a) * NS.

Lemma gap_at_iff k t b a : (k < length ts)%nat → gap_at z wall k = Some (t, b, a) ↔ in_gap k t b a.
Proof.
  intros Hk. destruct (lookup_lt_is_Some_2 ts k Hk) as [[t' a'] Ht]. unfold gap_at, in_gap. rewrite (list_lookup_total_correct _ _ _ Ht), Ht.
  destruct ((offset_before z k <? a') && (t' * NS + offset_before z k * NS <=? wall) && (wall <? t' * NS + a' * NS)) eqn:E.
  - rewrite !andb_true_iff, !Z.ltb_lt, Z.leb_le in E. split; [intros [= <- <- <-]; split_and!; try done; lia|intros (E1 & -> & _); by simplify_eq].
  - split; [done|]. intros (E1 & -> & Hlt & Hb). simplify_eq. exfalso. apply not_true_iff_false in E. apply E.
    rewrite !andb_true_iff, !Z.ltb_lt, Z.leb_le. lia.
Qed.

Lemma gap_found : named_zone_possible_epoch_ns z wall = [] → ∃ k t b a, tz_gap_transition z wall = Some (t, b, a) ∧ in_gap k t b a.
Proof.
  intros Hnone. destruct (gap_exists Hnone) as (k & [t a] & Ht & Hg). cbn [fst snd] in Hg. set (b := offset_before z k) in Hg.
  assert (k < length ts)%nat as Hk by (by eapply lookup_lt_Some). pose proof (offset_small k ltac:(lia)) as Hb. fold b in Hb.
  assert (offset_before z (S k) = a) as Ea by (cbn [offset_before]; by rewrite (list_lookup_total_correct _ _ _ Ht)).
  pose proof (offset_small (S k) ltac:(lia)) as Ha. rewrite Ea in Ha.
  assert (in_gap k t b a) as Hin by (split_and!; try done; unfold NS in *; lia). apply (gap_at_iff k t b a Hk) in Hin as Egap.
  unfold tz_gap_transition. rewrite wall_second. set (s := wall / NS). assert (t + b <= s < t + a) as Hs by (unfold s, NS in *; dlia).
  set (idx := position z s). destruct (position_spec s) as [Hidx Hpos]. fold idx in Hidx, Hpos.
  assert (k = idx ∨ (S k = idx)) as Hcase.
  { destruct (decide (k < idx)%nat) as [Hlt|Hge]; [right|left].
    - destruct (decide (S k = idx)) as [|Hne]; [done|]. exfalso. destruct (lookup_lt_is_Some_2 ts (S k)) as [u Hu]; [lia|].
      pose proof (time_far k (S k) _ _ ltac:(lia) Ht Hu) as Hf. cbn [fst] in Hf. pose proof (proj1 (Hpos (S k) u Hu) ltac:(lia)). lia.
    - destruct (decide (k = idx)) as [|Hne]; [done|]. exfalso. destruct (lookup_lt_is_Some_2 ts idx) as [u Hu]; [lia|].
      pose proof (time_far idx k _ _ ltac:(lia) Hu Ht) as Hf. cbn [fst] in Hf. assert (¬ u.1 <= s) by (intros ?%(Hpos idx u Hu); lia). lia. }
  destruct (if (idx <? length ts)%nat then gap_at z wall idx else None) as [[[t' b'] a']|] eqn:E1.
  - destruct (Nat.ltb_spec idx (length ts)); [|done]. exists idx, t', b', a'. split; [done|]. by apply gap_at_iff.
  - destruct Hcase as [->|Hcase].
    + rewrite (proj2 (Nat.ltb_lt _ _)) in E1 by done. congruence.
    + exists k, t, b, a. rewrite (proj2 (Nat.ltb_lt 0 idx)) by lia. replace (idx - 1)%nat with k by lia. done.
Qed.

(** The instants of the wall clock moved over the gap, either way. *)
Lemma gap_shifts k t b a : in_gap k t b a →
  wall_at z (wall - b * NS) = wall + (a - b) * NS ∧ wall_at z (wall - a * NS) = wall - (a - b) * NS ∧ a - b < 172800.
Proof.
  intros (Ht & Eb & Hlt & Hg). assert (k < length ts)%nat as Hk by (by eapply lookup_lt_Some).
  assert (offset_before z (S k) = a) as Ea by (cbn [offset_before]; by rewrite (list_lookup_total_correct _ _ _ Ht)).
  pose proof (offset_small k ltac:(lia)) as Hb. rewrite <- Eb in Hb. pose proof (offset_small (S k) ltac:(lia)) as Ha. rewrite Ea in Ha.
  assert (t + b <= wall / NS < t + a) as Hs by (unfold NS in *; dlia). unfold wall_at, offset_at. rewrite !second_of, !offset_position.
  split_and!; [..|lia].
  - rewrite (position_unique _ (S k)); [rewrite Ea; lia|lia|..].
    + intros u Hu. pose proof (time_far k (S k) _ _ ltac:(lia) Ht Hu) as Hf. cbn [fst] in Hf. lia.
    + intros k' u [= <-] Hu. simplify_eq. cbn [fst]. lia.
  - rewrite (position_unique _ k); [rewrite <- Eb; lia|lia|..].
    + intros u Hu. simplify_eq. cbn [fst]. lia.
    + intros k' u -> Hu. pose proof (time_far k' (S k') _ _ ltac:(lia) Hu Ht) as Hf. cbn [fst] in Hf. lia.
Qed.

Lemma instant_near e : wall_at z e = wall → Z.abs (e - wall) < 86400 * NS.
Proof.
  intros He. unfold wall_at, offset_at in He. rewrite offset_position in He. pose proof (offset_small _ (proj1 (position_spec (e / NS)))). unfold NS in *. lia.
Qed.
End zone.
End ZoneFacts.

Module ZonedFacts.
Import ZoneFacts.

(** Wall clocks at least three days inside the range of instants. *)
Definition inside (wall : Z) : Prop := Z.abs wall <= MAX_INSTANT_NS - 3 * DAY_NS.

Lemma split_day w : w / DAY_NS * DAY_NS + w mod DAY_NS = w ∧ 0 <= w mod DAY_NS < DAY_NS.
Proof. pose proof (Z.div_mod w DAY_NS). pose proof (Z.mod_pos_bound w DAY_NS). unfold DAY_NS in *. lia. Qed.

(** The date of a wall clock survives the casts. *)
Lemma date_casts w a : Z.abs w <= 10000000000000000000000 → Civil.civil_from_days (w / DAY_NS) = a →
  as_i32 a.1.1 = a.1.1 ∧ as_u32 a.1.2 = a.1.2 ∧ as_u32 a.2 = a.2 ∧ Civil.days_of a = w / DAY_NS ∧ Z.abs a.1.1 <= 600000.
Proof.
  intros Hw Ea. destruct (CivilFacts.civil_ok (w / DAY_NS)) as [Hv Hd]. rewrite Ea in Hv, Hd.
  assert (Z.abs (Civil.days_of a) <= 200000000) as Hb by (rewrite Hd; unfold DAY_NS; dlia). pose proof (CivilFacts.year_bound a Hv Hb).
  destruct (CivilFacts.valid_days a Hv) as (_ & Hm & Hday). pose proof (CivilFacts.month_len_bounds (CivilFacts.index a)).
  unfold as_i32, as_u32. rewrite !Z.mod_small by lia. split_and!; try done; lia.
Qed.

Section zoned.
Context (tz_zone_data : list N → option TzifZone) (zone : list N) (z : TzifZone).
Context (Hz : zone_ok z = true) (Hdata : tz_zone_data zone = Some z) (Hnamed : Offset.fixed_offset_seconds zone = None).

Lemma possible_wall w a : Z.abs w <= MAX_INSTANT_NS - DAY_NS → Civil.civil_from_days (w / DAY_NS) = a →
  get_possible_epoch_nanoseconds tz_zone_data zone (as_i32 a.1.1) (as_u32 a.1.2) (as_u32 a.2) (w mod DAY_NS) = inl (named_zone_possible_epoch_ns z w).
Proof.
  intros Hw Ea. unfold MAX_INSTANT_NS in Hw. assert (Z.abs w <= 10000000000000000000000) as Hw' by (unfold DAY_NS in Hw; lia).
  destruct (date_casts w a Hw' Ea) as (E1 & E2 & E3 & Ed & _). rewrite E1, E2, E3.
  unfold get_possible_epoch_nanoseconds. fold (Civil.days_of a). rewrite Ed.
  destruct (split_day w) as [Es Hm]. rewrite (RoundingFacts.checked_ok (w / DAY_NS * DAY_NS)) by (unfold DAY_NS in *; lia).
  rewrite Es, (RoundingFacts.checked_ok w) by lia. rewrite Hnamed, Hdata.
  assert (existsb (λ e, MAX_INSTANT_NS <? Z.abs e) (named_zone_possible_epoch_ns z w) = false) as ->; [|done].
  apply not_true_iff_false. intros (e & He & Hgt)%existsb_exists. apply list_elem_of_In in He. apply possible_iff in He; [|done..].
  pose proof (instant_near z Hz w e He). apply Z.ltb_lt in Hgt. unfold MAX_INSTANT_NS, DAY_NS, NS in *. lia.
Qed.

Lemma head_last {A} (c : A) l : ∃ x, default c (last (c :: l)) = x ∧ x ∈ c :: l.
Proof.
  eexists. split; [reflexivity|]. destruct (last (c :: l)) as [x|] eqn:E; [|by apply last_None in E].
  cbn. apply last_Some in E as [l' ->]. set_solver.
Qed.

(** Every wall clock inside the range has an instant: the earliest one, or across a
    gap one of the wall clock moved forward over it. *)
Lemma epoch_of_wall w a : inside w → Civil.civil_from_days (w / DAY_NS) = a →
  ∃ e, get_epoch_nanos_for tz_zone_data zone a (w mod DAY_NS) = inl e ∧
    ((wall_at z e = w ∧ ∀ e', wall_at z e' = w → e <= e') ∨
     ((∀ e', wall_at z e' ≠ w) ∧ ∃ b a, b < a ∧ wall_at z e = w + (a - b) * NS ∧ tz_gap_offsets tz_zone_data zone w = Some (b, a))).
Proof.
  intros Hw Ea. unfold inside in Hw. assert (Z.abs w <= 10000000000000000000000) as Hw' by (unfold MAX_INSTANT_NS, DAY_NS in Hw; lia).
  destruct (date_casts w a Hw' Ea) as (_ & _ & _ & Ed & Hy). unfold get_epoch_nanos_for.
  pose proof (possible_wall w a ltac:(unfold DAY_NS in *; lia) Ea) as Epw.
  assert ((a.1.1 <? - 2^31) || (2^31 - 1 <? a.1.1) = false) as -> by (apply orb_false_iff; rewrite !Z.ltb_ge; lia).
  rewrite Epw. cbn [bind]. pose proof (possible_sorted z w) as Hsort.
  assert (∀ e, e ∈ named_zone_possible_epoch_ns z w ↔ wall_at z e = w) as Hiff by (intros e; by apply possible_iff).
  destruct (named_zone_possible_epoch_ns z w) as [|c l] eqn:El.
  - destruct (gap_found z Hz w Hw' El) as (k & t & b & g & Eg & Hin). destruct (gap_shifts z Hz w k t b g Hin) as (Hs & _ & Hlen).
    unfold disambiguate_possible_epoch_nanoseconds. rewrite Ed, (proj1 (split_day w)).
    assert (tz_gap_offsets tz_zone_data zone w = Some (b, g)) as Eo by (unfold tz_gap_offsets; by rewrite Hdata, Eg). rewrite Eo.
    set (w2 := w + (g - b) * NS) in *. assert (b < g) as Hbg by apply Hin.
    destruct (Civil.civil_from_days (w2 / DAY_NS)) as [[y m] d] eqn:Ec.
    pose proof (possible_wall w2 _ ltac:(unfold w2, DAY_NS, NS, MAX_INSTANT_NS in *; lia) Ec) as Ep. cbn [fst snd] in Ep. rewrite Ep. cbn [bind].
    assert (Z.abs w2 <= 10000000000000000000000) as Hw2 by (unfold w2, DAY_NS, NS, MAX_INSTANT_NS in *; lia).
    assert (w - b * NS ∈ named_zone_possible_epoch_ns z w2) as Hel by (by apply possible_iff).
    destruct (named_zone_possible_epoch_ns z w2) as [|c l] eqn:El2; [by apply elem_of_nil in Hel|].
    destruct (head_last c l) as (x & -> & Hx). exists x. split; [done|]. right. split.
    { intros e' He'%Hiff. by apply elem_of_nil in He'. }
    exists b, g. split_and!; [done| |done]. rewrite <- El2 in Hx. by apply possible_iff in Hx.
  - exists c. split; [by destruct l|]. left. split; [apply Hiff, list_elem_of_here|]. intros e' He'%Hiff.
    apply StronglySorted_inv in Hsort as [_ Hc]. apply elem_of_cons in He' as [->|He']; [done|]. rewrite Forall_forall in Hc. specialize (Hc e' He'). lia.
Qed.
End zoned.
End ZonedFacts.

(** ** Theorems *)

(** C38: The instants of a wall-clock time.  In a zone with offsets of less than a day
    and at least two days between transitions, the candidates are exactly the
    instants at which the clock shows the time, each once and in order; when
    there is none, the search for the gap finds one that contains the time,
    and moving the time over the gap in either direction gives a time that the
    clock does show. *)
Theorem zone_instants_exact z wall : zone_ok z = true → Z.abs wall <= 10000000000000000000000 →
  (∀ e, e ∈ named_zone_possible_epoch_ns z wall ↔ wall_at z e = wall) ∧
  StronglySorted Z.lt (named_zone_possible_epoch_ns z wall) ∧
  (named_zone_possible_epoch_ns z wall = [] → ∃ t before after, tz_gap_transition z wall = Some (t, before, after) ∧
     before < after ∧ (t + before) * NS <= wall < (t + after) * NS ∧
     wall_at z (wall - before * NS) = wall + (after - before) * NS ∧
     wall_at z (wall - after * NS) = wall - (after - before) * NS).
Proof.
  intros Hz Hw. split_and!; [intros e; by apply ZoneFacts.possible_iff|apply ZoneFacts.possible_sorted|]. intros Hnone.
  destruct (ZoneFacts.gap_found z Hz wall Hw Hnone) as (k & t & b & a & Eg & Hin).
  destruct (ZoneFacts.gap_shifts z Hz wall k t b a Hin) as (Hf & Hb & _). destruct Hin as (_ & _ & Hlt & Hg). by exists t, b, a.
Qed.

(** A zone with a clock put forward by an hour and back again. *)
Lemma zone_instants_exact_witness :
  let z := mkZone (-18000) [(1000000, -14400); (20000000, -18000)] (-18000) in
  named_zone_possible_epoch_ns z (983000 * NS) = [] ∧
  (∃ t before after, tz_gap_transition z (983000 * NS) = Some (t, before, after) ∧ before < after) ∧
  named_zone_possible_epoch_ns z (19983000 * NS) = [19997400 * NS; 20001000 * NS].
Proof.
  intros z. assert (named_zone_possible_epoch_ns z (983000 * NS) = []) as E by (by vm_compute).
  destruct (zone_instants_exact z (983000 * NS)) as (_ & _ & Hgap); [by vm_compute|vm_compute; discriminate|].
  destruct (Hgap E) as (t & b & a & Eg & Hlt & _). split; [exact E|]. split; [exists t, b, a; split; [exact Eg|exact Hlt]|]. by vm_compute.
Defined.

(** C39: Zoned dates.  For a named zone, every wall-clock time inside the range is given
    an instant: the earliest one at which the clock shows it, or, when a gap
    skips it, one at which the clock shows the time moved forward over the gap.
    The date and time of an instant inside the range are given back the
    earliest instant with that date and time. *)
Theorem zoned_date_roundtrip tz_zone_data zone z w e :
  zone_ok z = true → tz_zone_data zone = Some z → Offset.fixed_offset_seconds zone = None →
  Z.abs w <= MAX_INSTANT_NS - 3 * DAY_NS → Z.abs e <= MAX_INSTANT_NS - 4 * DAY_NS →
  (∃ e', get_epoch_nanos_for tz_zone_data zone (Civil.civil_from_days (w / DAY_NS)) (w mod DAY_NS) = inl e' ∧
    ((wall_at z e' = w ∧ ∀ e'', wall_at z e'' = w → e' <= e'') ∨
     ((∀ e'', wall_at z e'' ≠ w) ∧ ∃ before after, before < after ∧ wall_at z e' = w + (after - before) * NS ∧
        tz_gap_offsets tz_zone_data zone w = Some (before, after)))) ∧
  (∃ a t e', get_iso_date_time_for tz_zone_data zone e = inl (a, t) ∧ CivilFacts.valid a = true ∧
     Civil.days_of a * DAY_NS + t = wall_at z e ∧ get_epoch_nanos_for tz_zone_data zone a t = inl e' ∧
     wall_at z e' = wall_at z e ∧ ∀ e'', wall_at z e'' = wall_at z e → e' <= e'').
Proof.
  intros Hz Hd Hn Hw He. split; [by eapply ZonedFacts.epoch_of_wall|].
  pose proof (ZoneFacts.instant_near z Hz (wall_at z e) e eq_refl) as Hnear.
  assert (as_i64 (e / NS) = e / NS) as Es by (apply ZoneFacts.wall_second; unfold MAX_INSTANT_NS, DAY_NS in He; lia).
  destruct (ZonedFacts.epoch_of_wall tz_zone_data zone z Hz Hd Hn (wall_at z e) _
    ltac:(unfold ZonedFacts.inside, MAX_INSTANT_NS, DAY_NS, NS in *; lia) eq_refl) as (e' & Ee & Hcase).
  destruct (CivilFacts.civil_ok (wall_at z e / DAY_NS)) as [Hv Hdays]. destruct (ZonedFacts.split_day (wall_at z e)) as [Hsplit _].
  eexists _, _, e'. split_and!; [|exact Hv|by rewrite Hdays|exact Ee|..].
  - unfold get_iso_date_time_for, zone_offset_seconds, tz_offset_seconds. rewrite Hn, Hd, Es. reflexivity.
  - destruct Hcase as [[H _]|[H _]]; [done|]. by destruct (H e).
  - destruct Hcase as [[_ H]|[H _]]; [done|]. by destruct (H e).
Qed.

Lemma zoned_date_roundtrip_witness :
  let z := mkZone (-18000) [(1000000, -14400); (20000000, -18000)] (-18000) in
  let name := bytes_of "America/New_York" in
  ∃ a t e', get_iso_date_time_for (λ _, Some z) name (20001000 * NS) = inl (a, t) ∧
    get_epoch_nanos_for (λ _, Some z) name a t = inl e' ∧ e' <= 19997400 * NS.
Proof.
  intros z name. destruct (zoned_date_roundtrip (λ _, Some z) name z 0 (20001000 * NS)) as [_ (a & t & e' & E1 & _ & _ & E2 & _ & H)];
    [by vm_compute|reflexivity|by vm_compute|vm_compute; discriminate|vm_compute; discriminate|].
  exists a, t, e'. split; [exact E1|]. split; [exact E2|]. apply H. by vm_compute.
Defined.
