(* ===== verification/Tzif.v ===== *)
(** * Zone files (crates/oxide_builtins/src/temporal/time_zone.rs, [parse_tzif])

    The reader of compiled time-zone files: the header with its six counts, the
    data block, and the table of transitions it gives.  A file is a list of
    bytes; a slice or an index out of range is a panic. *)

From stdpp Require Import base tactics numbers list option strings.
From Stdlib Require Import NArith ZArith Lia.
From S2P Require Import Prelude Unicode TimeZone.

Open Scope N_scope.

Module Tzif.
Record Counts := mkCounts { isutcnt : N; isstdcnt : N; leapcnt : N; timecnt : N; typecnt : N; charcnt : N }.
Record ParsedBlock := mkBlock { trans : list Z; ttypes : list N; types : list Z }.

Definition size (bytes : list N) : N := N.of_nat (length bytes).

(** [bytes[i..j]]. *)
Definition slice (bytes : list N) (i j : N) : res (list N) :=
  if (i <=? j) && (j <=? size bytes) then Ok (take (N.to_nat (j - i)) (drop (N.to_nat i) bytes)) else Panic.

(** [u32::from_be_bytes], [i32::from_be_bytes] and [i64::from_be_bytes]. *)
Definition from_be (l : list N) : N := foldl (λ acc b, acc * 256 + b) 0 l.
Definition signed (bits : N) (n : N) : Z := if n <? 2^(bits - 1) then Z.of_N n else (Z.of_N n - 2 ^ Z.of_N bits)%Z.

Definition count_at (bytes : list N) (off i : N) : res N :=
  let* l := slice bytes (off + 20 + i * 4) (off + 24 + i * 4) in Ok (from_be l).

Definition read_counts (bytes : list N) (off : N) : res Counts :=
  if size bytes <? off + 44 then Err "Truncated"
  else
    let* d0 := count_at bytes off 0 in
    let* d1 := count_at bytes off 1 in
    let* d2 := count_at bytes off 2 in
    let* d3 := count_at bytes off 3 in
    let* d4 := count_at bytes off 4 in
    let* d5 := count_at bytes off 5 in
    Ok (mkCounts d0 d1 d2 d3 d4 d5).

Definition block_size (c : Counts) (time_size : N) : N :=
  timecnt c * time_size + timecnt c + typecnt c * 6 + charcnt c + leapcnt c * (time_size + 4) + isstdcnt c + isutcnt c.

(** [for _ in 0..n], reading a record at [p] and stepping by [step]. *)
Fixpoint read_records {A} (read : N → res A) (n : nat) (p step : N) : res (list A) :=
  match n with
  | O => Ok []
  | S n => let* v := read p in let* rest := read_records read n (p + step) step in Ok (v :: rest)
  end.

Definition read_time (bytes : list N) (time_size p : N) : res Z :=
  if time_size =? 8 then let* l := slice bytes p (p + 8) in Ok (signed 64 (from_be l))
  else let* l := slice bytes p (p + 4) in Ok (signed 32 (from_be l)).

Definition read_type (bytes : list N) (p : N) : res Z :=
  let* l := slice bytes p (p + 4) in Ok (signed 32 (from_be l)).

Definition read_block (bytes : list N) (off : N) (c : Counts) (time_size : N) : res ParsedBlock :=
  let need := off + block_size c time_size in
  if size bytes <? need then Err "Truncated"
  else
    let p := off in
    let* trans := read_records (read_time bytes time_size) (N.to_nat (timecnt c)) p time_size in
    let p := p + timecnt c * time_size in
    let* ttypes := slice bytes p (p + timecnt c) in
    let p := p + timecnt c in
    let* types := read_records (read_type bytes) (N.to_nat (typecnt c)) p 6 in
    if existsb (λ idx, u8 (typecnt c) <=? idx) ttypes then Err "Truncated"
    else Ok (mkBlock trans ttypes types).

Definition MAGIC : list N := bytes_of "TZif".

Definition parse_tzif (bytes : list N) : res TimeZone.TzifZone :=
  if size bytes <? 44 then Err "Truncated"
  else
    let* magic := slice bytes 0 4 in
    if negb (bool_decide (magic = MAGIC)) then Err "BadMagic"
    else
      let* version := vec_get bytes 4 in
      if negb ((version =? 0) || (version =? 50) || (version =? 51) || (version =? 52)) then Err "BadVersion"
      else
        let* c1 := read_counts bytes 0 in
        let* block :=
          if 50 <=? version then
            let v1_size := block_size c1 4 in
            let off := 44 + v1_size in
            if size bytes <? off + 44 then Err "Truncated"
            else
              let* magic := slice bytes off (off + 4) in
              if negb (bool_decide (magic = MAGIC)) then Err "BadMagic"
              else let* c2 := read_counts bytes off in read_block bytes (off + 44) c2 8
          else read_block bytes 44 c1 4 in
        let lmt_offset := default 0%Z (head (types block)) in
        let* transitions := map_res (λ p, let* i := vec_get (ttypes block) p.1 in let* o := vec_get (types block) (N.to_nat i) in Ok (p.2, o))
                              (imap pair (trans block)) in
        let last_offset := default lmt_offset (snd <$> last transitions) in
        Ok (TimeZone.mkZone lmt_offset transitions last_offset).
End Tzif.

(** ** Facts *)

Module TzifFacts.
Import Tzif.

Lemma slice_ok bytes i j : i <= j → j <= size bytes → ∃ l, slice bytes i j = Ok l ∧ length l = N.to_nat (j - i).
Proof.
  intros Hij Hj. unfold slice. rewrite (proj2 (N.leb_le i j)), (proj2 (N.leb_le j (size bytes))) by done. cbn [andb]. eexists. split; [done|].
  unfold size in Hj. rewrite length_take, length_drop. lia.
Qed.

Lemma counts_ok bytes off : off + 44 <= size bytes → ∃ c, read_counts bytes off = Ok c.
Proof.
  intros Ho. unfold read_counts. rewrite (proj2 (N.ltb_ge _ _)) by done.
  assert (∀ i, i <= 5 → ∃ d, count_at bytes off i = Ok d) as Hd.
  { intros i Hi. unfold count_at. destruct (slice_ok bytes (off + 20 + i * 4) (off + 24 + i * 4)) as (l & -> & _); [lia|lia|]. by eexists. }
  destruct (Hd 0 ltac:(lia)) as [? ->], (Hd 1 ltac:(lia)) as [? ->], (Hd 2 ltac:(lia)) as [? ->], (Hd 3 ltac:(lia)) as [? ->],
    (Hd 4 ltac:(lia)) as [? ->], (Hd 5 ltac:(lia)) as [? ->]. by eexists.
Qed.

Lemma records_ok {A} (read : N → res A) n : ∀ p step hi, (∀ q, q + step <= hi → ∃ v, read q = Ok v) → p + N.of_nat n * step <= hi →
  ∃ l, read_records read n p step = Ok l ∧ length l = n.
Proof.
  induction n as [|n IH]; intros p step hi Hr Hp; [by exists []|]. cbn [read_records]. destruct (Hr p) as [v ->]; [lia|]. cbn [res_bind].
  destruct (IH (p + step) step hi Hr) as (l & -> & Hl); [lia|]. exists (v :: l). split; [done|]. cbn. by rewrite Hl.
Qed.

Lemma time_ok bytes ts q : (ts = 4 ∨ ts = 8) → q + ts <= size bytes → ∃ v, read_time bytes ts q = Ok v.
Proof.
  intros [-> | ->] Hq; unfold read_time; cbn [N.eqb Pos.eqb].
  - destruct (slice_ok bytes q (q + 4)) as (l & -> & _); [lia|lia|]. by eexists.
  - destruct (slice_ok bytes q (q + 8)) as (l & -> & _); [lia|lia|]. by eexists.
Qed.

(** What a block contains when it is read. *)
Definition block_ok (b : ParsedBlock) : Prop :=
  length (trans b) = length (ttypes b) ∧ ∀ k i, ttypes b !! k = Some i → (N.to_nat i < length (types b))%nat.

Lemma block_read bytes off c ts : ts = 4 ∨ ts = 8 →
  read_block bytes off c ts = Err "Truncated" ∨ ∃ b, read_block bytes off c ts = Ok b ∧ block_ok b.
Proof.
  intros Hts. unfold read_block, block_size. destruct (N.ltb_spec (size bytes)
    (off + (timecnt c * ts + timecnt c + typecnt c * 6 + charcnt c + leapcnt c * (ts + 4) + isstdcnt c + isutcnt c))) as [|Hge]; [by left|].
  destruct (records_ok (read_time bytes ts) (N.to_nat (timecnt c)) off ts (size bytes)) as (tr & -> & Htr);
    [intros q Hq; by apply time_ok|rewrite N2Nat.id; nia|]. cbn [res_bind].
  destruct (slice_ok bytes (off + timecnt c * ts) (off + timecnt c * ts + timecnt c)) as (tt & -> & Htt); [lia|nia|]. cbn [res_bind].
  destruct (records_ok (read_type bytes) (N.to_nat (typecnt c)) (off + timecnt c * ts + timecnt c) 6 (size bytes)) as (ty & -> & Hty);
    [|rewrite N2Nat.id; nia|].
  { intros q Hq. unfold read_type. destruct (slice_ok bytes q (q + 4)) as (l & -> & _); [lia|lia|]. by eexists. }
  cbn [res_bind]. destruct (existsb _ tt) eqn:Ee; [by left|]. right. eexists. split; [done|]. unfold block_ok. cbn [trans ttypes types]. split; [lia|].
  intros k i Hk. destruct (decide (u8 (typecnt c) <= i)) as [Hle|Hgt].
  - exfalso. apply not_true_iff_false in Ee. apply Ee, existsb_exists. exists i. split; [apply list_elem_of_In; by eapply list_elem_of_lookup_2|by apply N.leb_le].
  - pose proof (N.Div0.mod_le (typecnt c) (2^8)). fold (u8 (typecnt c)) in *. lia.
Qed.

Lemma transitions_ok b : block_ok b → ∃ l, map_res (λ p, let* i := vec_get (ttypes b) p.1 in let* o := vec_get (types b) (N.to_nat i) in Ok (p.2, o))
    (imap pair (trans b)) = Ok l ∧ length l = length (trans b) ∧ Forall (λ t, t.2 ∈ types b) l.
Proof.
  intros [Hlen Hidx].
  destruct (map_res_ok (λ p : nat * Z, let* i := vec_get (ttypes b) p.1 in let* o := vec_get (types b) (N.to_nat i) in Ok (p.2, o))
    (λ _ t, t.2 ∈ types b) (imap pair (trans b))) as (l & El & HF).
  - intros [k t] Hk. apply elem_of_lookup_imap in Hk as (k' & t' & [= <- <-] & Hk). cbn [fst snd].
    destruct (lookup_lt_is_Some_2 (ttypes b) k) as [i Hi]; [rewrite <- Hlen; by eapply lookup_lt_Some|].
    rewrite (proj2 (vec_get_Ok _ _ _) Hi). cbn [res_bind]. destruct (lookup_lt_is_Some_2 (types b) (N.to_nat i)) as [o Ho]; [by eapply Hidx|].
    rewrite (proj2 (vec_get_Ok _ _ _) Ho). cbn [res_bind]. eexists. split; [done|]. cbn. by eapply list_elem_of_lookup_2.
  - exists l. split; [done|]. apply Forall2_length in HF as Hl. rewrite length_imap in Hl. split; [done|].
    clear El Hl. induction HF; constructor; done.
Qed.

Lemma last_transition l o z : z = TimeZone.mkZone o l (default o (snd <$> last l)) →
  TimeZone.last_offset z = TimeZone.offset_before z (length (TimeZone.transitions z)).
Proof.
  intros ->. cbn [TimeZone.last_offset TimeZone.transitions]. destruct l as [|t l] using rev_ind; [done|].
  rewrite last_snoc, length_app, Nat.add_comm. cbn. by rewrite list_lookup_total_middle.
Qed.

(** The errors of the reader. *)
Definition refused (r : res TimeZone.TzifZone) : Prop := r = Err "Truncated" ∨ r = Err "BadMagic" ∨ r = Err "BadVersion".

Lemma block_zone (r : res ParsedBlock) : r = Err "Truncated" ∨ r = Err "BadMagic" ∨ (∃ b, r = Ok b ∧ block_ok b) →
  let r' := let* block := r in
    let lmt_offset := default 0%Z (head (types block)) in
    let* transitions := map_res (λ p, let* i := vec_get (ttypes block) p.1 in let* o := vec_get (types block) (N.to_nat i) in Ok (p.2, o))
                          (imap pair (trans block)) in
    let last_offset := default lmt_offset (snd <$> last transitions) in
    Ok (TimeZone.mkZone lmt_offset transitions last_offset) in
  refused r' ∨ ∃ z, r' = Ok z ∧ TimeZone.last_offset z = TimeZone.offset_before z (length (TimeZone.transitions z)).
Proof.
  intros [-> | [-> | (b & -> & Hb)]]; cbn [res_bind]; [by do 2 left|left; right; by left|right].
  destruct (transitions_ok b Hb) as (l & -> & _). cbn [res_bind]. eexists. split; [done|]. by eapply last_transition.
Qed.
End TzifFacts.

(** ** Theorems *)

(** Reading a zone file never goes out of range: every list of bytes is read as a
    zone or refused with one of the three errors, and in a zone the offset
    after the last transition is that of the last transition, or the local
    mean time where there is none. *)
Theorem parse_tzif_safe bytes :
  Tzif.parse_tzif bytes = Err "Truncated" ∨ Tzif.parse_tzif bytes = Err "BadMagic" ∨ Tzif.parse_tzif bytes = Err "BadVersion" ∨
  ∃ z, Tzif.parse_tzif bytes = Ok z ∧ TimeZone.last_offset z = TimeZone.offset_before z (length (TimeZone.transitions z)).
Proof.
  enough (TzifFacts.refused (Tzif.parse_tzif bytes) ∨ ∃ z, Tzif.parse_tzif bytes = Ok z ∧
    TimeZone.last_offset z = TimeZone.offset_before z (length (TimeZone.transitions z))) by (unfold TzifFacts.refused in *; tauto).
  unfold Tzif.parse_tzif. destruct (N.ltb_spec (Tzif.size bytes) 44); [by do 2 left|].
  destruct (TzifFacts.slice_ok bytes 0 4) as (m & -> & _); [lia|lia|]. cbn [res_bind].
  destruct (bool_decide_reflect (m = Tzif.MAGIC)) as [->|]; cbn [negb]; [|left; right; by left].
  destruct (vec_get_is_ok bytes 4) as [v ->]; [unfold Tzif.size in *; lia|]. cbn [res_bind]. destruct (negb _); [left; by do 2 right|].
  destruct (TzifFacts.counts_ok bytes 0) as [c1 ->]; [lia|]. cbn [res_bind]. apply TzifFacts.block_zone.
  destruct (50 <=? v); [|destruct (TzifFacts.block_read bytes 44 c1 4) as [|]; eauto].
  destruct (N.ltb_spec (Tzif.size bytes) (44 + Tzif.block_size c1 4 + 44)); [by left|].
  destruct (TzifFacts.slice_ok bytes (44 + Tzif.block_size c1 4) (44 + Tzif.block_size c1 4 + 4)) as (m & -> & _); [lia|lia|]. cbn [res_bind].
  destruct (negb _); [right; by left|]. destruct (TzifFacts.counts_ok bytes (44 + Tzif.block_size c1 4)) as [c2 ->]; [lia|]. cbn [res_bind].
  destruct (TzifFacts.block_read bytes (44 + Tzif.block_size c1 4 + 44) c2 8) as [|]; eauto.
Qed.
