(* ===== verification/Difference.v ===== *)
(** * Differences of dates and times (crates/oxide_builtins/src/temporal/difference.rs)

    [until] and [since] of plain dates and times: the units and the other
    settings, the difference split into its parts, rounding of days and time,
    rounding of calendar units between the ends of a window, and the carry into
    larger units.

    [Result<_, ()>] is [res] with an empty message.  The fractional total of a
    rounded calendar unit, which only [Duration.total] reads, is left out. *)

From stdpp Require Import base tactics numbers list option strings.
From Stdlib Require Import ZArith Lia.
From S2P Require Import Prelude Civil Rounding TimeZone.

Open Scope Z_scope.

Module Difference.
Import Civil Rounding.

(** ** Settings *)

Definition plain_date_time_unit_index (value : string) : option nat :=
  if bool_decide (value ∈ ["year"; "years"]) then Some 0%nat
  else if bool_decide (value ∈ ["month"; "months"]) then Some 1%nat
  else if bool_decide (value ∈ ["week"; "weeks"]) then Some 2%nat
  else if bool_decide (value ∈ ["day"; "days"]) then Some 3%nat
  else if bool_decide (value ∈ ["hour"; "hours"]) then Some 4%nat
  else if bool_decide (value ∈ ["minute"; "minutes"]) then Some 5%nat
  else if bool_decide (value ∈ ["second"; "seconds"]) then Some 6%nat
  else if bool_decide (value ∈ ["millisecond"; "milliseconds"]) then Some 7%nat
  else if bool_decide (value ∈ ["microsecond"; "microseconds"]) then Some 8%nat
  else if bool_decide (value ∈ ["nanosecond"; "nanoseconds"]) then Some 9%nat
  else None.

Definition plain_date_unit_index (value : string) : option nat :=
  if bool_decide (value ∈ ["year"; "years"]) then Some 0%nat
  else if bool_decide (value ∈ ["month"; "months"]) then Some 1%nat
  else if bool_decide (value ∈ ["week"; "weeks"]) then Some 2%nat
  else if bool_decide (value ∈ ["day"; "days"]) then Some 3%nat
  else None.

Definition plain_year_month_unit_index (value : string) : option nat :=
  if bool_decide (value ∈ ["year"; "years"]) then Some 0%nat
  else if bool_decide (value ∈ ["month"; "months"]) then Some 1%nat
  else None.

Record DifferenceSettings := mkSettings { largest_index : nat; smallest_index : nat; increment : Z; mode : InstantRoundingMode }.

(** The four options as they are read from the object, [None] where the value is
    undefined.  A number is its integer part, which is all the code uses of a
    finite one; infinities and NaN are [None]. *)
Record Options := mkOptions { largest_raw : option string; increment_raw : option (option Z); mode_raw : option string; smallest_raw : option string }.

(** The checks both readers of settings make on the options. *)
Definition check_settings (unit_index : string → option nat) (default_smallest : string) (default_largest : nat) (o : Options)
    : res DifferenceSettings :=
  match unit_index (default default_smallest (smallest_raw o)) with
  | None => Err "invalid smallestUnit"
  | Some smallest_index =>
      let* largest_index :=
        match largest_raw o with
        | Some value =>
            if bool_decide (value = "auto"%string) then Ok (Nat.min smallest_index default_largest)
            else match unit_index value with Some index => Ok index | None => Err "invalid largestUnit" end
        | None => Ok (Nat.min smallest_index default_largest)
        end in
      if (smallest_index <? largest_index)%nat then Err "smallestUnit exceeds largestUnit"
      else
        match instant_rounding_mode (default "trunc"%string (mode_raw o)) with
        | None => Err "invalid roundingMode"
        | Some mode =>
            match default (Some 1) (increment_raw o) with
            | None => Err "invalid roundingIncrement"
            | Some increment =>
                if negb ((1 <=? increment) && (increment <=? 1000000000)) then Err "invalid roundingIncrement"
                else Ok (mkSettings largest_index smallest_index increment mode)
            end
        end
  end.

Definition UNIT_LIMITS : list Z := [24; 60; 60; 1000; 1000; 1000].

Definition parse_difference_settings (date_only : bool) (default_largest : nat) (o : Options) : res DifferenceSettings :=
  let unit_index := if date_only then plain_date_unit_index else plain_date_time_unit_index in
  let default_smallest := if date_only then "day"%string else "nanosecond"%string in
  let* s := check_settings unit_index default_smallest default_largest o in
  if (4 <=? smallest_index s)%nat then
    let* limit := vec_get UNIT_LIMITS (smallest_index s - 4) in
    if (limit <=? increment s) || negb (Z.rem limit (increment s) =? 0) then Err "invalid roundingIncrement" else Ok s
  else Ok s.

Definition parse_year_month_difference_settings (o : Options) : res DifferenceSettings :=
  check_settings plain_year_month_unit_index "month" 0 o.

(** ** Windows of calendar units *)

Record IsoDateTime := mkDateTime { on_date : date; time_ns : Z }.
Record RoundingSpec := mkSpec { spec_increment : Z; spec_unit : nat; spec_mode : InstantRoundingMode }.

(** The first end of the window around [v]. *)
Definition window_first (v increment sign : Z) (shift : bool) : Z :=
  let r1 := round_to_increment_trunc v increment in
  if negb shift then r1 else r1 + increment * sign.

(** The duration with [r] of the unit, and the larger units of the difference. *)
Definition window_duration (unit : nat) (years months weeks r : Z) : list Z :=
  match unit with
  | 0%nat => <[0%nat := as_f64 r]> zero_values
  | 1%nat => <[1%nat := as_f64 r]> (<[0%nat := as_f64 years]> zero_values)
  | 2%nat => <[2%nat := as_f64 r]> (<[1%nat := as_f64 months]> (<[0%nat := as_f64 years]> zero_values))
  | _ => <[3%nat := as_f64 r]> (<[2%nat := as_f64 weeks]> (<[1%nat := as_f64 months]> (<[0%nat := as_f64 years]> zero_values)))
  end.

Definition nudge_window (sign : Z) (values : list Z) (date1 : date) (increment : Z) (unit : nat) (shift : bool)
    : res (Z * Z * list Z * list Z) :=
  let years := as_i128 (values !!! 0%nat) in
  let months := as_i128 (values !!! 1%nat) in
  let weeks := as_i128 (values !!! 2%nat) in
  let days := as_i128 (values !!! 3%nat) in
  let* r1 :=
    match unit with
    | 0%nat => Ok (window_first years increment sign shift)
    | 1%nat => Ok (window_first months increment sign shift)
    | 2%nat =>
        let weeks_start := add_months_i128 date1.1.1 date1.1.2 date1.2 (years * 12 + months) in
        let weeks_end := add_days_iso weeks_start days in
        let* w := date_until_iso weeks_start weeks_end 2 in
        Ok (window_first (weeks + as_i128 (w !!! 2%nat)) increment sign shift)
    | _ => Ok (window_first days increment sign shift)
    end in
  let r2 := r1 + increment * sign in
  Ok (r1, r2, window_duration unit years months weeks r1, window_duration unit years months weeks r2).

Record NudgeCalendarResult := mkNudge { duration : list Z; nudged_epoch : Z; did_expand : bool }.

Definition in_window (sign start_epoch end_epoch dest_epoch : Z) : bool :=
  if 0 <? sign then (start_epoch <=? dest_epoch) && (dest_epoch <=? end_epoch)
  else (dest_epoch <=? start_epoch) && (end_epoch <=? dest_epoch).

(** [epoch_of], the instant at which a duration from the first date ends. *)
Definition epoch_of (origin_epoch : Z) (date1 : date) (epoch_of_date : date → res Z) (dur : list Z) : res Z :=
  if date_duration_sign dur =? 0 then Ok origin_epoch
  else
    let a := add_date_duration date1 dur in
    if TimeZone.MAX_ISO_DAY <? Z.abs (days_of a) then Err "" else epoch_of_date a.

Definition nudge_to_calendar_unit (sign : Z) (values : list Z) (origin_epoch dest_epoch : Z) (date1 : date) (spec : RoundingSpec)
    (epoch_of_date : date → res Z) : res NudgeCalendarResult :=
  let increment := spec_increment spec in
  let unit := spec_unit spec in
  let* first := nudge_window sign values date1 increment unit false in
  let '(r1, r2, start_dur, end_dur) := first in
  let* start_epoch := epoch_of origin_epoch date1 epoch_of_date start_dur in
  let* end_epoch := epoch_of origin_epoch date1 epoch_of_date end_dur in
  let* window :=
    if negb (in_window sign start_epoch end_epoch dest_epoch) then
      let* second := nudge_window sign values date1 increment unit true in
      let '(r1, r2, start_dur, end_dur) := second in
      let* start_epoch := epoch_of origin_epoch date1 epoch_of_date start_dur in
      let* end_epoch := epoch_of origin_epoch date1 epoch_of_date end_dur in
      if negb (in_window sign start_epoch end_epoch dest_epoch) then Err ""
      else Ok (r1, r2, start_dur, end_dur, start_epoch, end_epoch, true)
    else Ok (r1, r2, start_dur, end_dur, start_epoch, end_epoch, false) in
  let '(r1, r2, start_dur, end_dur, start_epoch, end_epoch, did_expand) := window in
  let numerator := dest_epoch - start_epoch in
  let denominator := end_epoch - start_epoch in
  let even := Z.rem (Z.quot (Z.abs r1) increment) 2 =? 0 in
  let rounded_unit :=
    if numerator =? 0 then Z.abs r1
    else if numerator =? denominator then Z.abs r2
    else
      let cmp := Z.compare (Z.abs (numerator * 2)) (Z.abs denominator) in
      apply_unsigned_rounding (Z.abs r1) (Z.abs r2) cmp even (spec_mode spec) (sign <? 0) in
  let did_expand := did_expand || (rounded_unit =? Z.abs r2) in
  let duration := if rounded_unit =? Z.abs r2 then end_dur else start_dur in
  let nudged := if did_expand then end_epoch else start_epoch in
  Ok (mkNudge duration nudged did_expand).

(** ** Carrying into larger units *)

Definition bubble_end (sign : Z) (values : list Z) (unit : nat) : list Z :=
  take unit values ++ as_f64 (as_i128 (values !!! unit) + sign) :: replicate (9 - unit) 0.

Fixpoint bubble_loop (sign nudged_epoch : Z) (date1 : date) (largest : nat) (epoch_of_date : date → res Z) (unit : nat) (values : list Z)
    : res (list Z) :=
  if (largest <=? unit)%nat then
    if (unit =? 2)%nat && negb (largest =? 2)%nat then
      match unit with
      | O => Ok values
      | S unit => bubble_loop sign nudged_epoch date1 largest epoch_of_date unit values
      end
    else if (3 <=? unit)%nat then Panic
    else
      let end_dur := bubble_end sign values unit in
      let end_date := add_date_duration date1 end_dur in
      let* end_epoch := epoch_of_date end_date in
      let reached_end := if 0 <? sign then end_epoch <=? nudged_epoch else nudged_epoch <=? end_epoch in
      if reached_end then
        match unit with
        | O => Ok end_dur
        | S unit => bubble_loop sign nudged_epoch date1 largest epoch_of_date unit end_dur
        end
      else Ok values
  else Ok values.

Definition bubble_relative_duration (sign : Z) (values : list Z) (nudged_epoch : Z) (date1 : date) (largest start_unit : nat)
    (epoch_of_date : date → res Z) : res (list Z) :=
  match start_unit with
  | O => Ok values
  | S unit => bubble_loop sign nudged_epoch date1 largest epoch_of_date unit values
  end.

(** ** The difference *)

Definition negate_mode (mode : InstantRoundingMode) : InstantRoundingMode :=
  match mode with Ceil => Floor | Floor => Ceil | HalfCeil => HalfFloor | HalfFloor => HalfCeil | other => other end.

Definition sign_of (z : Z) : Z := if 0 <? z then 1 else if z <? 0 then -1 else 0.

(** A match on a [Result] that replaces the error. *)
Definition or_range_error {A} (r : res A) : res A :=
  match r with Err _ => Err "difference is out of range" | r => r end.
Definition or_out_of_range {A} (o : option A) : res A :=
  match o with Some a => Ok a | None => Err "difference is out of range" end.

(** The time parts of an array of values. *)
Definition with_time (values time_values : list Z) : list Z := take 4 values ++ time_values.

Definition wall_epoch (time1_ns : Z) (a : date) : res Z := Ok (days_of a * TimeZone.DAY_NS + time1_ns).

(** No rounding: the time is split from the largest unit on. *)
Definition unrounded (date_values : list Z) (time_ns : Z) (largest_index : nat) : res (list Z) :=
  if (4 <=? largest_index)%nat then
    let* time_values := or_out_of_range (balance_instant_difference time_ns (largest_index - 4)) in
    Ok (with_time date_values (drop 4 time_values))
  else
    let day_part := Z.quot time_ns TimeZone.DAY_NS in
    let rem := Z.rem time_ns TimeZone.DAY_NS in
    let values := <[3%nat := as_f64 (date_values !!! 3%nat + as_f64 day_part)]> date_values in
    Ok (with_time values (map as_f64 (plain_time_components_signed rem))).

(** Days and time, rounded as nanoseconds. *)
Definition round_day_or_time (sign : Z) (date_values : list Z) (date_days time_ns dest_epoch : Z) (date1 : date) (s : DifferenceSettings)
    (mode : InstantRoundingMode) (epoch_of_date : date → res Z) : res (list Z) :=
  let total_ns := time_ns + date_days * TimeZone.DAY_NS in
  let* quantum :=
    if (smallest_index s =? 3)%nat then Ok (TimeZone.DAY_NS * increment s)
    else let* u := vec_get TIME_UNIT_NS (smallest_index s - 4) in Ok (u * increment s) in
  let* rounded_ns := or_out_of_range (round_instant_difference total_ns quantum mode) in
  let whole_days := Z.quot rounded_ns TimeZone.DAY_NS in
  let rem := Z.rem rounded_ns TimeZone.DAY_NS in
  let old_whole := Z.quot total_ns TimeZone.DAY_NS in
  let did_expand_days := Z.sgn (whole_days - old_whole) =? Z.sgn total_ns in
  let* values :=
    if (4 <=? largest_index s)%nat then
      let* time_values := or_out_of_range (balance_instant_difference rounded_ns (largest_index s - 4)) in
      Ok (with_time date_values (drop 4 time_values))
    else
      Ok (with_time (<[3%nat := as_f64 whole_days]> date_values) (map as_f64 (plain_time_components_signed rem))) in
  if did_expand_days then
    let nudged := dest_epoch + (rounded_ns - total_ns) in
    or_range_error (bubble_relative_duration sign values nudged date1 (largest_index s) 3 epoch_of_date)
  else Ok values.

(** Years, months and weeks, rounded between the ends of a window. *)
Definition round_calendar (sign : Z) (date_values : list Z) (origin_epoch dest_epoch : Z) (date1 : date) (s : DifferenceSettings)
    (mode : InstantRoundingMode) (epoch_of_date : date → res Z) : res (list Z) :=
  let* outcome := or_range_error (nudge_to_calendar_unit sign date_values origin_epoch dest_epoch date1
                    (mkSpec (increment s) (smallest_index s) mode) epoch_of_date) in
  if did_expand outcome && negb (smallest_index s =? 2)%nat then
    or_range_error (bubble_relative_duration sign (duration outcome) (nudged_epoch outcome) date1 (largest_index s) (smallest_index s) epoch_of_date)
  else Ok (duration outcome).

(** The date and the time of the difference; a day of the dates is lent to the time
    when the two have different signs. *)
Definition borrow_day (start end_ : IsoDateTime) : date * Z :=
  let date1 := on_date start in
  let date2 := on_date end_ in
  let time_ns := time_ns end_ - time_ns start in
  let time_sign := sign_of time_ns in
  let date_sign := compare_iso_date date1 date2 in
  if negb (date_sign =? 0) && (date_sign =? time_sign)
  then (add_days_iso date2 time_sign, time_ns - time_sign * TimeZone.DAY_NS) else (date2, time_ns).

Definition nudge_iso_difference (start end_ : IsoDateTime) (s : DifferenceSettings) (since : bool) (no_rounding : nat) : res (list Z) :=
  let mode := if since then negate_mode (mode s) else mode s in
  let origin_epoch := days_of (on_date start) * TimeZone.DAY_NS + time_ns start in
  let dest_epoch := days_of (on_date end_) * TimeZone.DAY_NS + time_ns end_ in
  let date1 := on_date start in
  let time1_ns := time_ns start in
  let epoch_of_date := wall_epoch time1_ns in
  let '(date2, time_ns) := borrow_day start end_ in
  let* date_values := date_until_iso date1 date2 (Nat.min (largest_index s) 3) in
  let date_days := as_i128 (date_values !!! 3%nat) in
  let '(time_ns, date_values, date_days) :=
    if (4 <=? largest_index s)%nat then (time_ns + date_days * TimeZone.DAY_NS, <[3%nat := 0]> date_values, 0)
    else (time_ns, date_values, date_days) in
  let sign :=
    let date_sign := date_duration_sign date_values in
    if negb (date_sign =? 0) then date_sign else if 0 <? time_ns then 1 else if time_ns <? 0 then -1 else 1 in
  let* values :=
    if (smallest_index s =? no_rounding)%nat && (increment s =? 1) then unrounded date_values time_ns (largest_index s)
    else if (3 <=? smallest_index s)%nat then round_day_or_time sign date_values date_days time_ns dest_epoch date1 s mode epoch_of_date
    else round_calendar sign date_values origin_epoch dest_epoch date1 s mode epoch_of_date in
  Ok (if since then map (λ value, if negb (value =? 0) then - value else value) values else values).
End Difference.

(** ** Facts *)

Module DifferenceFacts.
Import Civil Rounding CivilFacts RoundingFacts Difference.

(** *** Time parts of both signs *)

Lemma split_opp scales : ∀ r, Forall (λ s, 1 <= s) scales → split_parts scales (- r) = map Z.opp (split_parts scales r).
Proof.
  induction scales as [|s scales IH]; intros r Hs; [done|]. apply Forall_cons in Hs as [Hs1 Hs]. cbn [split_parts map].
  rewrite Z.quot_opp_l, Z.rem_opp_l by lia. by rewrite IH.
Qed.

Lemma split_small scales : ∀ r, Forall (λ s, 1 <= s) scales → Forall (λ c, Z.abs c <= Z.abs r) (split_parts scales r).
Proof.
  induction scales as [|s scales IH]; intros r Hs; [done|]. apply Forall_cons in Hs as [Hs1 Hs].
  assert (Z.abs (Z.quot r s) <= Z.abs r ∧ Z.abs (Z.rem r s) <= Z.abs r) as [Hq Hr].
  { rewrite <- Z.quot_abs, <- Z.rem_abs by lia. rewrite (Z.abs_eq s) by lia. rewrite Z.quot_div_nonneg, Z.rem_mod_nonneg by lia.
    split; [apply Z.div_le_upper_bound; nia|apply Z.mod_le; lia]. }
  constructor; [done|]. eapply Forall_impl; [by apply IH|]. cbn. lia.
Qed.

Lemma components_split t : plain_time_components_signed t = split_parts TIME_UNIT_NS t.
Proof.
  unfold plain_time_components_signed, TIME_UNIT_NS. cbn [components_loop split_parts]. by rewrite Z.quot_1_r.
Qed.

Lemma time_parts t : Z.abs t < 2^53 → let parts := map as_f64 (plain_time_components_signed t) in
  length parts = 6%nat ∧ weighed parts TIME_UNIT_NS = t ∧ weighed_abs parts TIME_UNIT_NS = Z.abs t ∧ Forall (λ c, 0 <= Z.sgn t * c) parts.
Proof.
  intros Ht parts. assert (Forall (λ s, 1 <= s) TIME_UNIT_NS) as Hs by (repeat constructor; lia).
  assert (parts = split_parts TIME_UNIT_NS t) as ->.
  { unfold parts. rewrite components_split. etrans; [|apply map_id]. apply map_ext_Forall.
    eapply Forall_impl; [by apply split_small|]. cbn. intros c Hc. apply as_f64_small. lia. }
  split; [reflexivity|]. destruct (Z.le_ge_cases 0 t) as [Hp|Hn].
  - destruct (split_weighed TIME_UNIT_NS t Hp Hs eq_refl) as (E & Ea & Hf). split_and!; [done|lia|].
    eapply Forall_impl; [exact Hf|]. cbn. intros. nia.
  - replace (split_parts TIME_UNIT_NS t) with (map Z.opp (split_parts TIME_UNIT_NS (- t))) by (rewrite <- split_opp by done; f_equal; lia).
    destruct (weighed_opp (split_parts TIME_UNIT_NS (- t)) TIME_UNIT_NS) as [-> ->].
    destruct (split_weighed TIME_UNIT_NS (- t) ltac:(lia) Hs eq_refl) as (E & Ea & Hf). split_and!; [lia|lia|].
    apply Forall_map. eapply Forall_impl; [exact Hf|]. cbn. intros. nia.
Qed.

Lemma weighed_bound values : ∀ scales, length values = length scales → Forall (λ s, 1 <= s) scales →
  Forall (λ c, Z.abs c <= weighed_abs values scales) values.
Proof.
  induction values as [|v values IH]; intros [|s scales] Hl Hs; try done. apply Forall_cons in Hs as [Hs1 Hs]. injection Hl as Hl. cbn [weighed_abs].
  pose proof (weighed_abs_pos values scales). constructor; [nia|]. eapply Forall_impl; [by apply (IH scales)|]. cbn. lia.
Qed.

(** Parts with the sign of their sum have every sign the sum has. *)
Lemma parts_sign σ t parts : 0 <= σ * t → length parts = 6%nat → weighed_abs parts TIME_UNIT_NS = Z.abs t → Forall (λ c, 0 <= Z.sgn t * c) parts →
  Forall (λ c, 0 <= σ * c) parts.
Proof.
  intros Hσ Hl Ha Hf. pose proof (weighed_bound parts TIME_UNIT_NS Hl ltac:(repeat constructor; lia)) as Hb. rewrite Ha in Hb.
  pose proof (proj2 (Forall_and _ _) (conj Hf Hb)) as H. eapply Forall_impl; [exact H|]. intros c [Hc1 Hc2]. cbn in *.
  destruct (Z.sgn_spec t) as [[Ht E]|[[Ht E]|[Ht E]]]; rewrite E in Hc1.
  - assert (0 <= σ) by nia. nia.
  - assert (c = 0) as -> by lia. lia.
  - assert (σ <= 0) by nia. nia.
Qed.

Lemma time_sum a b c d parts : weighed_abs parts TIME_UNIT_NS < 2^127 →
  duration_time_only_nanoseconds (a :: b :: c :: d :: parts) = Some (weighed parts TIME_UNIT_NS).
Proof. intros Hw. unfold duration_time_only_nanoseconds. cbn [drop]. apply sum_parts_ok; [repeat constructor; lia|done]. Qed.

Lemma day_time_sum a b c d parts : Z.abs (d * TimeZone.DAY_NS) + weighed_abs parts TIME_UNIT_NS < 2^127 →
  duration_time_nanoseconds (a :: b :: c :: d :: parts) = Some (d * TimeZone.DAY_NS + weighed parts TIME_UNIT_NS).
Proof. intros Hw. unfold duration_time_nanoseconds. cbn [drop]. apply sum_parts_ok; [repeat constructor; lia|exact Hw]. Qed.

(** *** Dates and times *)

Lemma sgn_agree a b : (0 < a → 0 <= b) → (a < 0 → b <= 0) → 0 <= Z.sgn a * b.
Proof. intros Hp Hn. destruct (Z.sgn_spec a) as [[? ->]|[[? ->]|[? ->]]]; lia. Qed.

Definition epoch (a : IsoDateTime) : Z := days_of (on_date a) * TimeZone.DAY_NS + time_ns a.

(** A valid date within the limits of dates and times, with a time of day. *)
Definition ok (a : IsoDateTime) : bool :=
  valid (on_date a) && (Z.abs (days_of (on_date a)) <=? TimeZone.MAX_ISO_DAY) && (0 <=? time_ns a) && (time_ns a <? TimeZone.DAY_NS).

Lemma ok_parts a : ok a = true → valid (on_date a) = true ∧ Z.abs (days_of (on_date a)) <= TimeZone.MAX_ISO_DAY ∧
  0 <= time_ns a < TimeZone.DAY_NS.
Proof. unfold ok. rewrite !andb_true_iff, !Z.leb_le, Z.ltb_lt. tauto. Qed.

Section difference.
Context (start end_ : IsoDateTime) (Hstart : ok start = true) (Hend : ok end_ = true).
Definition diff : Z := epoch end_ - epoch start.

Lemma borrow_ok : let date2 := (borrow_day start end_).1 in let t := (borrow_day start end_).2 in let days := days_of date2 - days_of (on_date start) in
  valid date2 = true ∧ Z.abs (days_of date2) <= TimeZone.MAX_ISO_DAY ∧ days * TimeZone.DAY_NS + t = diff ∧ Z.abs t < TimeZone.DAY_NS ∧
  0 <= Z.sgn diff * days ∧ 0 <= Z.sgn diff * t.
Proof.
  destruct (ok_parts start Hstart) as (Hv1 & Hr1 & Ht1), (ok_parts end_ Hend) as (Hv2 & Hr2 & Ht2).
  unfold borrow_day, diff, epoch. rewrite compare_sgn by done. set (d1 := days_of (on_date start)) in *. set (d2 := days_of (on_date end_)) in *.
  unfold TimeZone.MAX_ISO_DAY, TimeZone.DAY_NS, sign_of in *.
  destruct (Z.ltb_spec 0 (time_ns end_ - time_ns start)), (Z.ltb_spec (time_ns end_ - time_ns start) 0), (Z.sgn_spec (d1 - d2)) as [[? ->]|[[? ->]|[? ->]]];
    try lia; try change (- (1)) with (-1); cbn [negb Z.eqb andb fst snd Pos.eqb];
    try (unfold add_days_iso; destruct (civil_ok (days_of (on_date end_) + 1)) as [Hv Hd]; destruct (civil_ok (days_of (on_date end_) + -1)) as [Hv' Hd'];
         fold d2 in Hd, Hd', Hv, Hv' |- *; rewrite ?Hd, ?Hd');
    fold d2; split_and!; try apply sgn_agree; try done; lia.
Qed.

(** What years and months say of the date they lead to. *)
Definition whole (L : nat) (y m w : Z) (date2 : date) : Prop :=
  let σ := if diff <? 0 then -1 else 1 in
  w = 0 ∧ (L = 0%nat → Z.abs m <= 11) ∧ (L = 1%nat → y = 0) ∧
  0 <= σ * (days_of date2 - days_of (month_after (on_date start) (y * 12 + m))) ∧
  0 <= σ * (index date2 - index (on_date start) - (y * 12 + m)) <= 1.

(** The parts of the difference before rounding. *)
Lemma date_parts L : (L <= 3)%nat → let date2 := (borrow_day start end_).1 in let t := (borrow_day start end_).2 in
  ∃ y m w d, let values := [y; m; w; d; 0; 0; 0; 0; 0; 0] in
    date_until_iso (on_date start) date2 L = Ok values ∧ add_date_duration (on_date start) values = date2 ∧
    Forall (λ v, 0 <= Z.sgn diff * v) values ∧ Z.abs d <= 200000000 ∧ (L = 3%nat → y = 0 ∧ m = 0 ∧ w = 0 ∧ d * TimeZone.DAY_NS + t = diff) ∧
    (diff = 0 → y = 0 ∧ m = 0 ∧ w = 0 ∧ d = 0) ∧ ((L < 2)%nat → whole L y m w date2).
Proof.
  intros HL date2 t. destruct borrow_ok as (Hv & Hr & Ed & Ht & Hs1 & Hs2). fold date2 t in Hv, Hr, Ed, Ht, Hs1, Hs2.
  destruct (ok_parts start Hstart) as (Hv1 & Hr1 & _). unfold TimeZone.MAX_ISO_DAY in *.
  destruct (until_adds (on_date start) date2 L Hv1 Hv HL Hr1 Hr) as (y & m & w & d & Hu & Ha & Hsg & Hb & Hwm & H0).
  rewrite compare_sgn in Hsg, H0, Hwm by done. set (n := days_of date2 - days_of (on_date start)) in *. exists y, m, w, d. split; [done|]. split; [done|].
  assert (n ≠ 0 → Z.sgn diff = Z.sgn n) as Hsn.
  { intros Hn. clear -Hn Ed Ht Hs1. unfold TimeZone.DAY_NS in *. destruct (Z.sgn_spec diff) as [[? ->]|[[? ->]|[? ->]]]; lia. }
  split_and!; [|destruct L as [|[|[|?]]]; lia|intros ->; split_and!; try lia; by replace d with n by lia
    |intros E0; apply H0; replace n with 0; [done|]; clear -Ed Ht E0; unfold TimeZone.DAY_NS in *; lia|]; destruct (decide (n = 0)) as [E|Hn].
  - destruct H0 as (-> & -> & -> & ->); [by rewrite E|]. repeat constructor; lia.
  - rewrite (Hsn Hn). repeat constructor; lia.
  - intros HL2. destruct H0 as (-> & -> & -> & ->); [by rewrite E|]. assert (date2 = on_date start) as -> by (apply days_inj; [done|done|lia]).
    unfold whole, month_after. rewrite add_no_months by done. split_and!; try lia; destruct (_ <? _); lia.
  - intros HL2. specialize (Hwm HL2 ltac:(lia)). unfold whole. replace (if diff <? 0 then -1 else 1) with (Z.sgn n).
    2:{ rewrite <- (Hsn Hn). specialize (Hsn Hn). clear -Hsn Hn. destruct (Z.ltb_spec diff 0); lia. }
    rewrite Hwm. assert (Z.sgn n = 1 ∨ Z.sgn n = -1) as Hpm by lia. destruct (days_left (on_date start) date2 Hv1 Hv (Z.sgn n) Hpm) as [Hl _].
    split_and!; [destruct L as [|[|?]]; lia|intros ->; lia|intros ->; lia|exact Hl|..]; unfold whole_months; destruct Hpm as [-> | ->];
      cbn [Z.ltb Z.compare]; destruct (_ <? _); lia.
Qed.

Lemma duration_sign_cases σ y m w d rest : Forall (λ v, 0 <= σ * v) [y; m; w; d] → Z.abs σ <= 1 →
  (date_duration_sign (y :: m :: w :: d :: rest) = 0 ∧ y = 0 ∧ m = 0 ∧ w = 0 ∧ d = 0) ∨
  (date_duration_sign (y :: m :: w :: d :: rest) = σ ∧ (σ = 1 ∨ σ = -1)) ∨ σ = 0.
Proof.
  rewrite !Forall_cons. intros (Hy & Hm & Hw & Hd & _) Hσ. destruct (decide (σ = 0)) as [|Hne]; [by right; right|].
  unfold date_duration_sign. cbn [take list_find].
  repeat (case_decide; [right; left; cbn -[Z.mul Z.ltb]; match goal with |- context [0 <? ?v] => destruct (Z.ltb_spec 0 v) end; nia|]).
  left. split; [reflexivity|]. lia.
Qed.

(** What is left of a call after the difference is split. *)
Lemma nudge_reduce s nr (L := largest_index s) (sign := if diff <? 0 then -1 else 1) : ∃ y m w d t, let values := [y; m; w; d; 0; 0; 0; 0; 0; 0] in
  (∀ since, nudge_iso_difference start end_ s since nr =
    (let* values :=
       if (smallest_index s =? nr)%nat && (increment s =? 1) then unrounded values t L
       else if (3 <=? smallest_index s)%nat then
         round_day_or_time sign values d t (epoch end_) (on_date start) s (if since then negate_mode (mode s) else mode s) (wall_epoch (time_ns start))
       else round_calendar sign values (epoch start) (epoch end_) (on_date start) s (if since then negate_mode (mode s) else mode s) (wall_epoch (time_ns start)) in
     Ok (if since then map (λ value, if negb (value =? 0) then - value else value) values else values))) ∧
  Forall (λ v, 0 <= Z.sgn diff * v) values ∧ 0 <= Z.sgn diff * t ∧ Z.abs d <= 200000000 ∧
  days_of (add_date_duration (on_date start) values) * TimeZone.DAY_NS + time_ns start + t = epoch end_ ∧
  ((L <= 3)%nat → Z.abs t < TimeZone.DAY_NS ∧ (L = 3%nat → d * TimeZone.DAY_NS + t = diff)) ∧ ((3 <= L)%nat → y = 0 ∧ m = 0 ∧ w = 0) ∧
  ((4 <= L)%nat → d = 0 ∧ t = diff) ∧ ((L < 2)%nat → whole L y m w (add_date_duration (on_date start) values)).
Proof.
  destruct (date_parts (Nat.min L 3)) as (y & m & w & d & Hu & Ha & Hf & Hd & H3 & H0 & Hwh); [lia|]. destruct borrow_ok as (Hv & Hr & Ed & Ht & _ & Hst).
  destruct (borrow_day start end_) as [date2 t] eqn:Eb. cbn [fst snd] in *. destruct (ok_parts start Hstart) as (Hv1 & _).
  assert (Z.abs d < 2^53) as Hd53 by lia.
  assert (add_date_duration (on_date start) [0; 0; 0; 0; 0; 0; 0; 0; 0; 0] = on_date start) as Hzero.
  { rewrite add_parts by lia. unfold month_after. rewrite add_no_months by done. unfold add_days_iso. rewrite Z.add_0_r. by apply civil_back. }
  unfold nudge_iso_difference. rewrite Eb. fold L. rewrite Hu. cbn [res_bind]. replace ([y; m; w; d; 0; 0; 0; 0; 0; 0] !!! 3%nat) with d by done.
  rewrite as_i128_small by done. unfold epoch in *. destruct (Nat.leb_spec 4 L) as [H4|H4].
  - rewrite Nat.min_r in H3 by lia. destruct (H3 eq_refl) as (-> & -> & -> & E). exists 0, 0, 0, 0, diff. replace (t + d * TimeZone.DAY_NS) with diff by lia.
    split_and!; try done; try lia; [|repeat constructor; lia|rewrite Hzero; unfold diff, epoch; lia].
    intros since. change (date_duration_sign _) with 0. cbn [negb Z.eqb]. unfold sign, L. by destruct (Z.ltb_spec 0 diff), (Z.ltb_spec diff 0); try lia.
  - exists y, m, w, d, t. rewrite Nat.min_l in H3 by lia.
    assert (days_of (add_date_duration (on_date start) [y; m; w; d; 0; 0; 0; 0; 0; 0]) * TimeZone.DAY_NS + time_ns start + t
      = days_of (on_date end_) * TimeZone.DAY_NS + time_ns end_) as Eend by (rewrite Ha; unfold diff, epoch in Ed; lia).
    split_and!; try done; try lia; try (intros HL; assert (L = 3%nat) as E3 by lia; naive_solver);
      [|rewrite Nat.min_l in Hwh by lia; intros HL; rewrite Ha; by apply Hwh].
    assert ((if negb (date_duration_sign [y; m; w; d; 0; 0; 0; 0; 0; 0] =? 0) then date_duration_sign [y; m; w; d; 0; 0; 0; 0; 0; 0]
      else if 0 <? t then 1 else if t <? 0 then -1 else 1) = sign) as ->; [|by intros since].
    unfold sign. destruct (duration_sign_cases (Z.sgn diff) y m w d [0; 0; 0; 0; 0; 0]) as [(-> & -> & -> & -> & ->)|[[-> Hσ]|Hσ]].
    + rewrite !Forall_cons in Hf. destruct Hf as (? & ? & ? & ? & _). by repeat constructor.
    + lia.
    + assert (t = diff) as -> by (rewrite Hzero in Ha; subst date2; lia). cbn [negb Z.eqb].
      by destruct (Z.ltb_spec 0 diff), (Z.ltb_spec diff 0); try lia.
    + destruct (Z.eqb_spec (Z.sgn diff) 0); cbn [negb]; [lia|]. destruct (Z.ltb_spec diff 0); lia.
    + assert (diff = 0) as E0 by lia. destruct (H0 E0) as (-> & -> & -> & ->). assert (t = diff) as -> by (rewrite Hzero in Ha; subst date2; lia).
      rewrite E0. reflexivity.
Qed.

Lemma negate_values values : map (λ value, if negb (value =? 0) then - value else value) values = map Z.opp values.
Proof. apply map_ext. intros v. destruct (Z.eqb_spec v 0) as [->|]; done. Qed.

Lemma diff_bound : Z.abs diff <= 20000000000000000000000.
Proof.
  destruct (ok_parts start Hstart) as (_ & Hr1 & Ht1), (ok_parts end_ Hend) as (_ & Hr2 & Ht2). unfold diff, epoch, TimeZone.DAY_NS, TimeZone.MAX_ISO_DAY in *. lia.
Qed.

(** The values of [unrounded], and what they add up to. *)
Lemma unrounded_ok y m w d t L : Z.abs d <= 200000000 → ((L <= 3)%nat → Z.abs t < TimeZone.DAY_NS) → ((4 <= L)%nat → d = 0) →
  (L <= 9)%nat → ((4 <= L)%nat → Z.abs t < 2^53 * unit_scale (L - 4)) → Z.abs t < 2^127 →
  ∃ parts, unrounded [y; m; w; d; 0; 0; 0; 0; 0; 0] t L = Ok (y :: m :: w :: d :: parts) ∧ length parts = 6%nat ∧
    weighed parts TIME_UNIT_NS = t ∧ weighed_abs parts TIME_UNIT_NS = Z.abs t ∧ Forall (λ c, 0 <= Z.sgn t * c) parts.
Proof.
  intros Hd H3 H4 HL Hfit Ht. unfold unrounded. destruct (Nat.leb_spec 4 L) as [HL4|HL4].
  - destruct (balance_parts t (L - 4)) as (parts & -> & Hparts); [lia|by apply Hfit|done|]. by exists parts.
  - assert (Z.quot t TimeZone.DAY_NS = 0 ∧ Z.rem t TimeZone.DAY_NS = t) as [-> ->].
    { specialize (H3 ltac:(lia)). unfold TimeZone.DAY_NS in *. clear -H3. dlia. }
    destruct (time_parts t) as (Hlen & Hsum & Habs & Hf); [unfold TimeZone.DAY_NS in H3; lia|]. eexists. split.
    + change (as_f64 0) with 0. rewrite Z.add_0_r. replace ([y; m; w; d; 0; 0; 0; 0; 0; 0] !!! 3%nat) with d by done.
      rewrite as_f64_small by lia. reflexivity.
    + done.
Qed.

(** *** Rounding of days and time *)

Lemma rounds_opp inc mode v : 0 < inc < 2^126 → rounds_to (negate_mode mode) v inc = - rounds_to mode (- v) inc.
Proof.
  intros Hi. destruct (decide (v mod inc = 0)) as [E|Hr].
  { rewrite !multiple_rounds; try done; [lia|]. rewrite Z.mod_opp_l_z; lia. }
  destruct (negative_sides inc Hi v Hr) as (Em & Eq & El & Eh). destruct (above_below inc Hi v Hr) as (Elo & Ehi & Ev & Hb).
  assert (v ≠ 0) as Hne by (intros ->; by rewrite Z.mod_0_l in Hr by lia).
  unfold rounds_to. rewrite El, Eh, Eq. replace (- v - - above v inc) with (above v inc - v) by lia.
  replace (- below v inc - - v) with (v - below v inc) by lia. rewrite (Z.compare_antisym (above v inc - v) (v - below v inc)).
  rewrite Z.sub_1_r, Z.even_pred, <- Z.negb_even, Z.even_opp.
  destruct mode; cbn [negate_mode]; destruct (Z.ltb_spec v 0), (Z.ltb_spec (- v) 0); try lia;
    destruct (Z.compare (above v inc - v) (v - below v inc)); cbn [CompOpp]; try lia; destruct (Z.even (v / inc)); cbn [negb]; lia.
Qed.

(** The unit that is rounded to, in nanoseconds. *)
Definition quantum (s : DifferenceSettings) : Z := (TimeZone.DAY_NS :: TIME_UNIT_NS) !!! (smallest_index s - 3)%nat * increment s.

Lemma with_days y m w d d' parts : with_time (<[3%nat := d']> [y; m; w; d; 0; 0; 0; 0; 0; 0]) parts = y :: m :: w :: d' :: parts.
Proof. reflexivity. Qed.

Lemma quantum_eq s : (3 <= smallest_index s <= 9)%nat → 1 <= increment s <= 1000000000 →
  (if (smallest_index s =? 3)%nat then Ok (TimeZone.DAY_NS * increment s)
   else let* u := vec_get TIME_UNIT_NS (smallest_index s - 4) in Ok (u * increment s)) = Ok (quantum s) ∧
  0 < quantum s <= 86400000000000000000000.
Proof.
  unfold quantum. intros [Hs1 Hs2] Hi. generalize dependent (smallest_index s). intros u Hu1 Hu2.
  do 10 (destruct u as [|u]; [first [lia | split; [reflexivity|cbn; unfold TimeZone.DAY_NS; lia]]|]). lia.
Qed.

Lemma rounded_ok s mode sign d t dest date1 e : (3 <= largest_index s <= smallest_index s)%nat → (smallest_index s <= 9)%nat →
  1 <= increment s <= 1000000000 → d * TimeZone.DAY_NS + t = diff → ((4 <= largest_index s)%nat → d = 0) →
  ((4 <= largest_index s)%nat → Z.abs diff + quantum s < 2^53 * unit_scale (largest_index s - 4)) →
  ∃ d' parts, round_day_or_time sign [0; 0; 0; d; 0; 0; 0; 0; 0; 0] d t dest date1 s mode e = Ok (0 :: 0 :: 0 :: d' :: parts) ∧
    d' * TimeZone.DAY_NS + weighed parts TIME_UNIT_NS = rounds_to mode diff (quantum s) ∧
    Z.abs (d' * TimeZone.DAY_NS) + weighed_abs parts TIME_UNIT_NS < 2^127.
Proof.
  intros HL Hs Hi Ed Hd0 Hfit. pose proof diff_bound as Hdb. destruct (quantum_eq s ltac:(lia) Hi) as [Eq Hq].
  unfold round_day_or_time. rewrite Eq. cbn [res_bind]. replace (t + d * TimeZone.DAY_NS) with diff by lia.
  rewrite difference_rounds by lia. cbn [or_out_of_range res_bind]. set (r := rounds_to mode diff (quantum s)).
  assert (Z.abs r <= Z.abs diff + quantum s) as Hr by (pose proof (rounds_near (quantum s) ltac:(lia) mode diff) as [_ Hn]; fold r in Hn; lia).
  assert (∀ values nudged, (if Z.sgn (Z.quot r TimeZone.DAY_NS - Z.quot diff TimeZone.DAY_NS) =? Z.sgn diff
    then or_range_error (bubble_relative_duration sign values nudged date1 (largest_index s) 3 e) else Ok values) = Ok values) as Hb.
  { intros values nudged. destruct (_ =? _); [|done]. unfold bubble_relative_duration. cbn [bubble_loop].
    rewrite (proj2 (Nat.leb_gt _ _)) by lia. done. }
  destruct (Nat.leb_spec 4 (largest_index s)) as [H4|H4].
  - destruct (balance_parts r (largest_index s - 4)) as (parts & -> & _ & Hw & Ha & _); [lia|specialize (Hfit H4); lia|lia|].
    cbn [or_out_of_range res_bind]. rewrite Hb. rewrite (Hd0 H4). exists 0, parts. split; [done|]. lia.
  - assert (Z.abs (Z.rem r TimeZone.DAY_NS) < 2^53 ∧ Z.abs (Z.quot r TimeZone.DAY_NS) < 2^53 ∧
      Z.quot r TimeZone.DAY_NS * TimeZone.DAY_NS + Z.rem r TimeZone.DAY_NS = r) as (Hrem & Hquot & Er).
    { clearbody r. clear -Hr Hq Hdb. unfold TimeZone.DAY_NS in *. dlia. }
    cbn [res_bind]. rewrite Hb. destruct (time_parts (Z.rem r TimeZone.DAY_NS) Hrem) as (_ & Hw & Ha & _).
    rewrite with_days, as_f64_small by done. eexists _, _. split; [done|]. rewrite Hw, Ha. clear -Hrem Hquot Er. unfold TimeZone.DAY_NS in *. lia.
Qed.

(** Both directions of a difference that needs no rounding. *)
Lemma exact_ok s (L := largest_index s) : (L <= 9)%nat → increment s = 1 → ((4 <= L)%nat → Z.abs diff < 2^53 * unit_scale (L - 4)) →
  ∃ y m w d t parts (values := y :: m :: w :: d :: parts),
    nudge_iso_difference start end_ s false (smallest_index s) = Ok values ∧
    nudge_iso_difference start end_ s true (smallest_index s) = Ok (map Z.opp values) ∧
    length values = 10%nat ∧ weighed parts TIME_UNIT_NS = t ∧ weighed_abs parts TIME_UNIT_NS = Z.abs t ∧ Z.abs t < 2^127 ∧
    days_of (add_date_duration (on_date start) values) * TimeZone.DAY_NS + time_ns start + t = epoch end_ ∧
    Forall (λ v, 0 <= Z.sgn diff * v) values ∧ ((L <= 3)%nat → Z.abs t < TimeZone.DAY_NS) ∧
    ((3 <= L)%nat → y = 0 ∧ m = 0 ∧ w = 0 ∧ d * TimeZone.DAY_NS + t = diff ∧ Z.abs d <= 200000000).
Proof.
  intros HL Hi Hfit. pose proof diff_bound as Hdb. destruct (nudge_reduce s (smallest_index s)) as (y & m & w & d & t & Hn & Hf & Ht & Hd & Ee & H3 & H3' & H4 & _).
  fold L in Hn, H3, H3', H4. assert (Z.abs t < 2^127) as Ht127.
  { destruct (Nat.le_gt_cases 4 L) as [H|H]; [destruct (H4 H); lia|]. specialize (H3 ltac:(lia)). unfold TimeZone.DAY_NS in H3. lia. }
  destruct (unrounded_ok y m w d t L Hd) as (parts & Eu & Hlen & Hw & Ha & Hp);
    [intros H; by apply H3|intros H; by apply H4|done|intros H; destruct (H4 H) as [_ ->]; by apply Hfit|done|].
  assert (∀ since, nudge_iso_difference start end_ s since (smallest_index s) =
    Ok (if since then map Z.opp (y :: m :: w :: d :: parts) else y :: m :: w :: d :: parts)) as Hall.
  { intros since. rewrite Hn, Nat.eqb_refl, (proj2 (Z.eqb_eq _ _) Hi). cbn [andb]. rewrite Eu. cbn [res_bind]. destruct since; [by rewrite negate_values|done]. }
  exists y, m, w, d, t, parts. split_and!; try done; try (apply (Hall false)); try (apply (Hall true)); try (cbn; by rewrite Hlen).
  - rewrite !Forall_cons in Hf |- *. destruct Hf as (? & ? & ? & ? & _). split_and!; try done. by apply (parts_sign _ t).
  - intros H. by apply H3.
  - intros H. destruct (H3' H) as (-> & -> & ->). split_and!; try done. destruct (Nat.le_gt_cases 4 L) as [H'|H']; [destruct (H4 H'); lia|].
    apply (H3 ltac:(lia)). lia.
Qed.
End difference.

(** *** Rounding of years and months *)

(** The multiple that a mode chooses for a moment between the ends [lo] and [hi] of
    the window from [r] to [r + σ * inc]. *)
Definition choose (mode : InstantRoundingMode) (σ r inc lo hi dest : Z) : Z :=
  let last := r + σ * inc in
  let nearest tie := match Z.compare (Z.abs (dest - lo)) (Z.abs (hi - dest)) with Lt => r | Gt => last | Eq => tie end in
  if dest =? lo then r
  else
    match mode with
    | Trunc => r | Expand => last
    | Floor => if σ <? 0 then last else r
    | Ceil => if σ <? 0 then r else last
    | HalfTrunc => nearest r | HalfExpand => nearest last
    | HalfFloor => nearest (if σ <? 0 then last else r)
    | HalfCeil => nearest (if σ <? 0 then r else last)
    | HalfEven => nearest (if Z.even (r / inc) then r else last)
    end.

(** Every month number that is used stays within the range of dates. *)
Lemma first_days : first_day 2400000 <= 90000000 ∧ -90000000 <= first_day (-2400000) ∧ 50000001 < first_day 1680000 ∧ first_day (-1679999) < -50000001.
Proof. by vm_compute. Qed.

Lemma days_of_index a : valid a = true → Z.abs (index a) <= 2400000 → Z.abs (days_of a) <= TimeZone.MAX_ISO_DAY.
Proof.
  intros (E & _ & Hd)%valid_days Hi. pose proof (month_len_bounds (index a)). pose proof (first_day_mono (index a) 2400000 ltac:(lia)) as H1.
  pose proof (first_day_mono (-2400000) (index a) ltac:(lia)) as H2. destruct first_days as (? & ? & _). unfold TimeZone.MAX_ISO_DAY. lia.
Qed.

Lemma index_of_days a : valid a = true → Z.abs (days_of a) <= 50000001 → Z.abs (index a) <= 1680000.
Proof.
  intros (E & _ & Hd)%valid_days Hi. destruct first_days as (_ & _ & H1 & H2).
  destruct (Z.le_gt_cases (index a) 1680000); [destruct (Z.le_gt_cases (-1680000) (index a)); [lia|]|].
  - pose proof (first_day_next (index a) (-1679999) ltac:(lia)). lia.
  - pose proof (first_day_mono 1680000 (index a) ltac:(lia)). lia.
Qed.

(** What the code picks between two ends, and what [choose] does. *)
Lemma pick_ok {A} (wd : Z → A) mode σ r inc lo hi dest (r2 := r + inc * σ) : σ = 1 ∨ σ = -1 → 1 <= inc → (inc | r) → 0 <= σ * r →
  0 <= σ * (dest - lo) → 0 < σ * (hi - dest) →
  let rounded := if dest - lo =? 0 then Z.abs r else if dest - lo =? hi - lo then Z.abs r2
    else apply_unsigned_rounding (Z.abs r) (Z.abs r2) (Z.compare (Z.abs ((dest - lo) * 2)) (Z.abs (hi - lo)))
           (Z.rem (Z.quot (Z.abs r) inc) 2 =? 0) mode (σ <? 0) in
  (if rounded =? Z.abs r2 then wd r2 else wd r) = wd (choose mode σ r inc lo hi dest).
Proof.
  intros Hσ Hi Hr Hpos Hlo Hhi rounded. assert (Z.abs r2 = Z.abs r + inc) as E2 by (unfold r2; destruct Hσ as [-> | ->]; lia).
  assert (r + σ * inc = r2) as El by (unfold r2; lia). unfold choose. rewrite El. unfold rounded.
  destruct (Z.eqb_spec (dest - lo) 0) as [E0|N0].
  { rewrite (proj2 (Z.eqb_eq dest lo)) by lia. by rewrite (proj2 (Z.eqb_neq _ _)) by lia. }
  rewrite (proj2 (Z.eqb_neq dest lo)) by lia. rewrite (proj2 (Z.eqb_neq (dest - lo) (hi - lo))) by lia.
  assert (Z.compare (Z.abs ((dest - lo) * 2)) (Z.abs (hi - lo)) = Z.compare (Z.abs (dest - lo)) (Z.abs (hi - dest))) as ->.
  { destruct (Z.compare_spec (Z.abs (dest - lo)) (Z.abs (hi - dest))) as [H|H|H];
      [apply Z.compare_eq_iff|apply Z.compare_lt_iff|apply Z.compare_gt_iff]; destruct Hσ as [-> | ->]; lia. }
  assert ((Z.rem (Z.quot (Z.abs r) inc) 2 =? 0) = Z.even (r / inc)) as ->.
  { destruct Hr as [q ->]. rewrite Z.div_mul, Z.abs_mul, (Z.abs_eq inc), Z.quot_mul by lia. rewrite Z.rem_mod_nonneg by lia.
    rewrite <- Zeven_mod. destruct (Z.abs_spec q) as [[_ ->]|[_ ->]]; by rewrite ?Z.even_opp. }
  unfold apply_unsigned_rounding, unsigned_mode.
  destruct mode; destruct Hσ as [-> | ->]; cbn [Z.ltb Z.compare]; try (destruct (Z.compare (Z.abs (dest - lo)) (Z.abs (hi - dest))));
    try (destruct (Z.even (r / inc))); rewrite ?Z.eqb_refl; try done; by rewrite (proj2 (Z.eqb_neq _ _)) by lia.
Qed.

Section calendar.
Context (start end_ : IsoDateTime) (Hstart : ok start = true) (Hend : ok end_ = true).
Context (Hs : Z.abs (days_of (on_date start)) <= 50000000) (He : Z.abs (days_of (on_date end_)) <= 50000000).
Context (u : nat) (Hu : (u < 2)%nat).

Definition unit_months : Z := match u with O => 12 | _ => 1 end.
(** The moment [n] units after the start. *)
Definition moment (n : Z) : Z := days_of (month_after (on_date start) (unit_months * n)) * TimeZone.DAY_NS + time_ns start.

Lemma unit_months_ok : unit_months = 12 ∨ unit_months = 1.
Proof. unfold unit_months. destruct u; auto. Qed.

Lemma month_after_valid n : valid (month_after (on_date start) n) = true.
Proof. destruct (ok_parts start Hstart) as (Hv & _). apply add_months_valid. apply valid_days in Hv. lia. Qed.

Lemma moment_lt a b : a < b → moment a < moment b.
Proof.
  intros Hab. unfold moment. enough (days_of (month_after (on_date start) (unit_months * a)) < days_of (month_after (on_date start) (unit_months * b))) by (unfold TimeZone.DAY_NS; lia).
  apply days_lt; [apply month_after_valid..|]. left. rewrite !(proj1 (month_after_index _ _)). destruct unit_months_ok as [-> | ->]; lia.
Qed.

Lemma moment_0 : moment 0 = epoch start.
Proof.
  unfold moment, epoch, month_after. rewrite Z.mul_0_r, add_no_months; [done|]. by apply ok_parts.
Qed.

(** The instant of a window end. *)
Lemma epoch_of_end years r : (u = 1%nat → years = 0) → Z.abs (index (on_date start) + unit_months * r) <= 2400000 → Z.abs r < 2^53 →
  epoch_of (epoch start) (on_date start) (wall_epoch (time_ns start)) (window_duration u years 0 0 r) = Ok (moment r).
Proof.
  intros Hy Hidx Hr. assert (window_duration u years 0 0 r = match u with O => [r; 0; 0; 0; 0; 0; 0; 0; 0; 0] | _ => [0; r; 0; 0; 0; 0; 0; 0; 0; 0] end) as ->.
  { unfold window_duration. rewrite as_f64_small by done. destruct u as [|[|?]]; [done|by rewrite (Hy eq_refl)|lia]. }
  set (dur := match u with O => _ | _ => _ end).
  assert (add_date_duration (on_date start) dur = month_after (on_date start) (unit_months * r)) as Ea.
  { unfold dur, unit_months. pose proof (month_after_valid (match u with O => 12 | _ => 1 end * r)) as Hv.
    destruct u as [|[|?]]; [..|lia]; rewrite add_parts by (done || lia); unfold add_days_iso; rewrite Z.add_0_r;
      [replace (r * 12 + 0) with (12 * r) by lia|replace (0 * 12 + r) with (1 * r) by lia]; by apply civil_back. }
  unfold epoch_of. destruct (Z.eqb_spec (date_duration_sign dur) 0) as [E|N].
  - assert (r = 0) as ->; [|by rewrite moment_0]. revert E. unfold dur, date_duration_sign. clear. destruct (decide (r = 0)); [done|].
    destruct u; cbn -[Z.ltb]; repeat (case_decide; cbn -[Z.ltb]; try done); by destruct (0 <? r).
  - rewrite Ea. rewrite (proj2 (Z.ltb_ge _ _)); [done|]. apply days_of_index; [apply month_after_valid|]. by rewrite (proj1 (month_after_index _ _)).
Qed.

(** The whole units before the end: the end lies between their moment and the moment
    two units later. *)
Lemma bracket y m w d t (values := [y; m; w; d; 0; 0; 0; 0; 0; 0]) (σ := if diff start end_ <? 0 then -1 else 1) (v := if (u =? 0)%nat then y else m) :
  whole start end_ u y m w (add_date_duration (on_date start) values) →
  0 <= σ * y → 0 <= σ * m → 0 <= σ * t → Z.abs t < TimeZone.DAY_NS →
  days_of (add_date_duration (on_date start) values) * TimeZone.DAY_NS + time_ns start + t = epoch end_ →
  0 <= σ * (epoch end_ - moment v) ∧ 0 < σ * (moment (v + 2 * σ) - epoch end_) ∧ Z.abs (index (on_date start) + unit_months * v) <= 1680012 ∧
  0 <= σ * v ∧ Z.abs v < 10000000.
Proof.
  set (date2 := add_date_duration _ _). intros (Hw & Hm11 & Hy0 & Hleft & Hidx) Hy Hm Ht Htd Ee. fold σ in Hleft, Hidx.
  assert (σ = 1 ∨ σ = -1) as Hσ by (unfold σ; destruct (_ <? _); auto).
  assert (valid date2 = true) as Hv2 by apply civil_ok. destruct (ok_parts start Hstart) as (Hv1 & _ & Ht1), (ok_parts end_ Hend) as (_ & _ & Ht2).
  pose proof (index_of_days (on_date start) Hv1 ltac:(lia)) as Hi1.
  assert (Z.abs (days_of date2) <= 50000001) as Hd2 by (unfold epoch, TimeZone.DAY_NS in *; lia).
  pose proof (index_of_days date2 Hv2 Hd2) as Hi2.
  assert (0 <= σ * (y * 12 + m - unit_months * v) < unit_months ∧ 0 <= σ * v) as [Hk Hv].
  { unfold v, unit_months. destruct u as [|[|?]]; cbn [Nat.eqb]; [specialize (Hm11 eq_refl)|rewrite (Hy0 eq_refl)|lia]; destruct Hσ as [E|E]; rewrite E in *; lia. }
  pose proof (month_after_valid (unit_months * v)) as Hva. pose proof (month_after_valid (unit_months * (v + 2 * σ))) as Hvb. pose proof (month_after_valid (y * 12 + m)) as Hvw.
  pose proof (proj1 (month_after_index (on_date start) (unit_months * v))) as Eia. pose proof (proj1 (month_after_index (on_date start) (unit_months * (v + 2 * σ)))) as Eib.
  pose proof (proj1 (month_after_index (on_date start) (y * 12 + m))) as Eiw.
  assert (0 <= σ * (days_of (month_after (on_date start) (y * 12 + m)) - days_of (month_after (on_date start) (unit_months * v)))) as Hmono.
  { pose proof (days_lt _ _ Hva Hvw) as L1. pose proof (days_lt _ _ Hvw Hva) as L2. destruct (decide (unit_months * v = y * 12 + m)) as [E|Hne]; [rewrite E; lia|].
    destruct Hσ as [E|E]; rewrite E in *; lia. }
  assert (0 < σ * (days_of (month_after (on_date start) (unit_months * (v + 2 * σ))) - days_of date2)) as Hbeyond.
  { pose proof (days_lt _ _ Hv2 Hvb) as L1. pose proof (days_lt _ _ Hvb Hv2) as L2. destruct unit_months_ok as [Eu|Eu]; rewrite Eu in *; destruct Hσ as [E|E]; rewrite E in *; lia. }
  unfold moment. rewrite <- Ee. clear Ee. split_and!; [| | | done |]; clear -Hσ Hleft Hidx Hk Hv Hi1 Hi2 Hmono Hbeyond Ht Htd Hu.
  - unfold TimeZone.DAY_NS in *. destruct Hσ as [E|E]; rewrite E in *; lia.
  - unfold TimeZone.DAY_NS in *. destruct Hσ as [E|E]; rewrite E in *; lia.
  - destruct Hσ as [E|E]; rewrite E in *; destruct (unit_months_ok) as [Eu|Eu]; rewrite Eu in *; lia.
  - destruct Hσ as [E|E]; rewrite E in *; destruct (unit_months_ok) as [Eu|Eu]; rewrite Eu in *; lia.
Qed.

(** The window around the whole units. *)
Lemma window_eq σ inc shift y m w d : Z.abs y < 2^53 → Z.abs m < 2^53 → w = 0 → (u = 1%nat → y = 0) → 
  let r1 := window_first (if (u =? 0)%nat then y else m) inc σ shift in
  nudge_window σ [y; m; w; d; 0; 0; 0; 0; 0; 0] (on_date start) inc u shift =
    Ok (r1, r1 + inc * σ, window_duration u y 0 0 r1, window_duration u y 0 0 (r1 + inc * σ)).
Proof.
  intros Hy Hm -> Hy0 r1. unfold nudge_window. cbn [lookup_total list_lookup_total]. rewrite !as_i128_small by (done || lia).
  destruct u as [|[|?]]; [done| |lia]. rewrite (Hy0 eq_refl). done.
Qed.

Lemma trunc_ok σ v inc : σ = 1 ∨ σ = -1 → 1 <= inc → 0 <= σ * v → let r := round_to_increment_trunc v inc in
  (inc | r) ∧ 0 <= σ * r ∧ 0 <= σ * (v - r) < inc.
Proof.
  intros Hσ Hi Hv r. split; [by exists (Z.quot v inc)|]. unfold r, round_to_increment_trunc.
  pose proof (Z.quot_rem' v inc) as E. destruct Hσ as [-> | ->].
  - pose proof (Z.rem_bound_pos v inc). pose proof (Z.quot_pos v inc). nia.
  - pose proof (Z.rem_bound_pos (- v) inc). pose proof (Z.quot_pos (- v) inc). rewrite Z.rem_opp_l in * by lia. rewrite Z.quot_opp_l in * by lia. nia.
Qed.

Lemma nudge_ok y m w d t mode inc (values := [y; m; w; d; 0; 0; 0; 0; 0; 0]) (σ := if diff start end_ <? 0 then -1 else 1) :
  1 <= inc → unit_months * inc <= 120000 → whole start end_ u y m w (add_date_duration (on_date start) values) →
  0 <= σ * y → 0 <= σ * m → 0 <= σ * t → Z.abs t < TimeZone.DAY_NS → Z.abs y < 2^53 → Z.abs m < 2^53 →
  days_of (add_date_duration (on_date start) values) * TimeZone.DAY_NS + time_ns start + t = epoch end_ →
  ∃ r nudged expand, Z.abs r < 20000000 ∧ (inc | r) ∧ 0 <= σ * r ∧ 0 <= σ * (epoch end_ - moment r) ∧ 0 < σ * (moment (r + σ * inc) - epoch end_) ∧
    nudge_to_calendar_unit σ values (epoch start) (epoch end_) (on_date start) (mkSpec inc u mode) (wall_epoch (time_ns start)) =
      Ok (mkNudge (window_duration u y 0 0 (choose mode σ r inc (moment r) (moment (r + σ * inc)) (epoch end_))) nudged expand).
Proof.
  intros Hi Hmax Hw Hy Hm Ht Htd Hy53 Hm53 Ee. assert (σ = 1 ∨ σ = -1) as Hσ by (unfold σ; destruct (_ <? _); auto).
  destruct (bracket y m w d t Hw Hy Hm Ht Htd Ee) as (Hlo & Hhi & Hidx & Hvσ & Hv). fold σ in Hlo, Hhi, Hvσ. clear Ee.
  destruct Hw as (Hw0 & _ & Hy0 & _). set (v := if (u =? 0)%nat then y else m) in *.
  destruct (trunc_ok σ v inc Hσ Hi Hvσ) as (Hdiv & Hrσ & Hrv). set (r1 := round_to_increment_trunc v inc) in *.
  assert (Z.abs r1 < 20000000 ∧ Z.abs (r1 + inc * σ) < 20000000) as [Hr1b Hr2b].
  { clear -Hσ Hv Hrσ Hrv Hmax Hi Hu. destruct unit_months_ok as [Eu|Eu]; rewrite Eu in *; destruct Hσ as [E|E]; rewrite E in *; lia. }
  assert (∀ j, 0 <= j <= 3 → epoch_of (epoch start) (on_date start) (wall_epoch (time_ns start)) (window_duration u y 0 0 (r1 + j * (inc * σ)))
    = Ok (moment (r1 + j * (inc * σ)))) as Hepoch.
  { intros j Hj. apply epoch_of_end; [done|..]; clear -Hσ Hidx Hrv Hmax Hv Hj Hi Hu Hrσ; destruct unit_months_ok as [Eu|Eu]; rewrite Eu in *;
      destruct Hσ as [E|E]; rewrite E in *; nia. }
  pose proof (Hepoch 0 ltac:(lia)) as E0. pose proof (Hepoch 1 ltac:(lia)) as E1. pose proof (Hepoch 2 ltac:(lia)) as E2. clear Hepoch.
  replace (r1 + 0 * (inc * σ)) with r1 in E0 by lia. replace (r1 + 1 * (inc * σ)) with (r1 + inc * σ) in E1 by lia.
  replace (r1 + 2 * (inc * σ)) with (r1 + inc * σ + inc * σ) in E2 by lia.
  assert (0 <= σ * (epoch end_ - moment r1) ∧ 0 < σ * (moment (r1 + inc * σ) - moment r1) ∧ 0 < σ * (moment (r1 + inc * σ + inc * σ) - epoch end_)) as (Hm0 & Hm1 & Hm2).
  { pose proof (moment_lt r1 v). pose proof (moment_lt v r1). pose proof (moment_lt r1 (r1 + inc * σ)). pose proof (moment_lt (r1 + inc * σ) r1).
    pose proof (moment_lt (v + 2 * σ) (r1 + inc * σ + inc * σ)). pose proof (moment_lt (r1 + inc * σ + inc * σ) (v + 2 * σ)).
    pose proof (f_equal moment (x := r1) (y := v)). pose proof (f_equal moment (x := v + 2 * σ) (y := r1 + inc * σ + inc * σ)).
    clear E0 E1 E2 Hidx Hv Hmax Hy Hm Ht. clearbody σ v r1. destruct Hσ as [-> | ->]; lia. }
  unfold nudge_to_calendar_unit. cbn [spec_increment spec_unit spec_mode]. unfold values.
  rewrite !(window_eq σ inc false y m w d Hy53 Hm53 Hw0 Hy0), !(window_eq σ inc true y m w d Hy53 Hm53 Hw0 Hy0). fold v.
  change (window_first v inc σ false) with r1. change (window_first v inc σ true) with (r1 + inc * σ). cbn [res_bind]. rewrite E0, E1. cbn [res_bind].
  assert (in_window σ (moment r1) (moment (r1 + inc * σ)) (epoch end_) = (0 <=? σ * (moment (r1 + inc * σ) - epoch end_))) as ->.
  { unfold in_window. clear -Hσ Hm0. destruct Hσ as [E|E]; rewrite E in *; cbn [Z.ltb Z.compare].
    - rewrite (proj2 (Z.leb_le (moment r1) (epoch end_))) by lia. cbn [andb]. apply eq_true_iff_eq. rewrite !Z.leb_le. lia.
    - rewrite (proj2 (Z.leb_le (epoch end_) (moment r1))) by lia. cbn [andb]. apply eq_true_iff_eq. rewrite !Z.leb_le. lia. }
  destruct (Z.leb_spec 0 (σ * (moment (r1 + inc * σ) - epoch end_))) as [Hin|Hout]; cbn [negb res_bind].
  - destruct (decide (epoch end_ = moment (r1 + inc * σ))) as [Ed|Hne].
    + exists (r1 + σ * inc). eexists _, _. replace (r1 + σ * inc) with (r1 + inc * σ) by lia. replace (r1 + inc * σ + σ * inc) with (r1 + inc * σ + inc * σ) by lia.
      split_and!; [done|apply Z.divide_add_r; [done|by exists σ; lia]|destruct Hσ as [E|E]; rewrite E in *; lia|rewrite Ed; lia|done|].
      unfold choose. rewrite (proj2 (Z.eqb_eq _ _) Ed). rewrite (proj2 (Z.eqb_neq (epoch end_ - moment r1) 0)) by (rewrite Ed; destruct Hσ as [E|E]; rewrite E in *; lia).
      rewrite Ed, !Z.eqb_refl. reflexivity.
    + exists r1. eexists _, _. replace (r1 + σ * inc) with (r1 + inc * σ) by lia.
      assert (0 < σ * (moment (r1 + inc * σ) - epoch end_)) as Hin' by (destruct Hσ as [E|E]; rewrite E in *; lia).
      split_and!; [done..|]. rewrite <- (pick_ok (window_duration u y 0 0) mode σ r1 inc (moment r1) (moment (r1 + inc * σ)) (epoch end_)) by done. reflexivity.
  - rewrite ?E1, E2. cbn [res_bind].
    assert (in_window σ (moment (r1 + inc * σ)) (moment (r1 + inc * σ + inc * σ)) (epoch end_) = true) as ->.
    { unfold in_window. destruct Hσ as [E|E]; rewrite E in *; cbn [Z.ltb Z.compare]; apply andb_true_iff; rewrite !Z.leb_le; lia. }
    cbn [negb res_bind]. exists (r1 + inc * σ). eexists _, _. replace (r1 + inc * σ + σ * inc) with (r1 + inc * σ + inc * σ) by lia.
    assert (0 <= σ * (r1 + inc * σ) ∧ 0 <= σ * (epoch end_ - moment (r1 + inc * σ))) as [Hr2 Hd2] by (destruct Hσ as [E|E]; rewrite E in *; lia).
    assert ((inc | r1 + inc * σ)) as Hdiv2 by (apply Z.divide_add_r; [done|by exists σ; lia]).
    split_and!; [done..|]. rewrite <- (pick_ok (window_duration u y 0 0) mode σ (r1 + inc * σ) inc (moment (r1 + inc * σ)) (moment (r1 + inc * σ + inc * σ)) (epoch end_)) by done.
    reflexivity.
Qed.

(** The parts of a difference in one calendar unit. *)
Definition unit_values (n : Z) : list Z := match u with O => [n; 0; 0; 0; 0; 0; 0; 0; 0; 0] | _ => [0; n; 0; 0; 0; 0; 0; 0; 0; 0] end.

Lemma window_unit_values y n : (u = 1%nat → y = 0) → Z.abs n < 2^53 → window_duration u y 0 0 n = unit_values n.
Proof. intros Hy Hn. unfold window_duration, unit_values. rewrite as_f64_small by done. destruct u as [|[|?]]; [done|by rewrite (Hy eq_refl)|lia]. Qed.

Lemma choose_range mode σ r inc lo hi dest : σ = 1 ∨ σ = -1 → choose mode σ r inc lo hi dest = r ∨ choose mode σ r inc lo hi dest = r + σ * inc.
Proof. intros Hσ. unfold choose. destruct (dest =? lo), mode; auto; repeat case_match; auto. Qed.

(** Rounding to the largest unit itself carries nothing. *)
Lemma round_calendar_ok y m w d t mode0 mode inc (values := [y; m; w; d; 0; 0; 0; 0; 0; 0]) (σ := if diff start end_ <? 0 then -1 else 1) :
  1 <= inc → unit_months * inc <= 120000 → whole start end_ u y m w (add_date_duration (on_date start) values) →
  0 <= σ * y → 0 <= σ * m → 0 <= σ * t → Z.abs t < TimeZone.DAY_NS →
  days_of (add_date_duration (on_date start) values) * TimeZone.DAY_NS + time_ns start + t = epoch end_ →
  ∃ r, (inc | r) ∧ 0 <= σ * r ∧ 0 <= σ * (epoch end_ - moment r) ∧ 0 < σ * (moment (r + σ * inc) - epoch end_) ∧
    round_calendar σ values (epoch start) (epoch end_) (on_date start) (mkSettings u u inc mode0) mode (wall_epoch (time_ns start)) =
      Ok (unit_values (choose mode σ r inc (moment r) (moment (r + σ * inc)) (epoch end_))).
Proof.
  intros Hi Hmax Hw Hy Hm Ht Htd Ee. assert (σ = 1 ∨ σ = -1) as Hσ by (unfold σ; destruct (_ <? _); auto).
  destruct (bracket y m w d t Hw Hy Hm Ht Htd Ee) as (_ & _ & _ & _ & Hv). pose proof Hw as (_ & Hm11 & Hy0 & _).
  assert (Z.abs y < 2^53 ∧ Z.abs m < 2^53) as [Hy53 Hm53] by (clear -Hv Hm11 Hy0 Hu; destruct u as [|[|?]]; cbn [Nat.eqb] in Hv; [specialize (Hm11 eq_refl)|specialize (Hy0 eq_refl)|]; lia).
  destruct (nudge_ok y m w d t mode inc Hi Hmax Hw Hy Hm Ht Htd Hy53 Hm53 Ee) as (r & nudged & expand & Hrb & Hdiv & Hr & Hlo & Hhi & En).
  exists r. split_and!; [done..|]. unfold round_calendar. cbn [increment smallest_index largest_index]. fold σ values in En. rewrite En.
  cbn [or_range_error res_bind did_expand duration nudged_epoch]. rewrite window_unit_values; [|done|].
  - destruct (expand && _); [|done]. unfold bubble_relative_duration. destruct u as [|[|?]]; [done| |lia]. done.
  - destruct (choose_range mode σ r inc (moment r) (moment (r + σ * inc)) (epoch end_) Hσ) as [-> | ->];
      clear -Hrb Hσ Hmax Hi Hu; destruct unit_months_ok as [Eu|Eu]; rewrite Eu in *; destruct Hσ as [-> | ->]; lia.
Qed.
End calendar.
End DifferenceFacts.

(** ** Theorems *)

Import Difference.

(** Exact differences.  Without rounding, and while the largest unit of time
    fits the 53 bits of a float, [until] gives ten parts of one sign, the sign
    of the difference, such that the end is reached from the start by adding
    the date parts and then the time, which is less than a day when the largest
    unit is a calendar unit; [since] gives the negated parts. *)
Theorem difference_exact start end_ s (L := largest_index s) (d := DifferenceFacts.diff start end_) :
  DifferenceFacts.ok start = true → DifferenceFacts.ok end_ = true → (L <= 9)%nat → increment s = 1 →
  ((4 <= L)%nat → Z.abs d < 2^53 * RoundingFacts.unit_scale (L - 4)) →
  ∃ values t, nudge_iso_difference start end_ s false (smallest_index s) = Ok values ∧
    nudge_iso_difference start end_ s true (smallest_index s) = Ok (map Z.opp values) ∧ length values = 10%nat ∧
    Rounding.duration_time_only_nanoseconds values = Some t ∧
    Civil.days_of (Civil.add_date_duration (on_date start) values) * TimeZone.DAY_NS + time_ns start + t = DifferenceFacts.epoch end_ ∧
    Forall (λ v, 0 <= Z.sgn d * v) values ∧ ((L <= 3)%nat → Z.abs t < TimeZone.DAY_NS).
Proof.
  intros Hs He HL Hi Hfit. destruct (DifferenceFacts.exact_ok start end_ Hs He s HL Hi Hfit) as (y & m & w & k & t & parts & H).
  destruct H as (Hu & Hsince & Hlen & Hw & Ha & Ht & Hend & Hf & H3 & _). eexists _, t. split; [exact Hu|]. split; [exact Hsince|]. split; [exact Hlen|].
  split; [rewrite DifferenceFacts.time_sum by lia; by rewrite Hw|]. done.
Qed.

Lemma difference_exact_witness :
  let s := mkSettings 0 9 1 Rounding.Trunc in
  let start := mkDateTime (2024, 1, 31) 43200000000000 in let end_ := mkDateTime (2025, 3, 1) 1 in
  nudge_iso_difference start end_ s false 9 = Ok [1; 0; 0; 28; 12; 0; 0; 0; 0; 1] ∧
  ∃ values, nudge_iso_difference start end_ s true 9 = Ok (map Z.opp values) ∧ Forall (λ v, 0 <= v) values.
Proof.
  intros s start end_. split; [by vm_compute|].
  destruct (difference_exact start end_ s) as (values & t & _ & E & _ & _ & _ & Hf & _); [by vm_compute|by vm_compute|cbn; lia|done|cbn; lia|].
  exists values. split; [exact E|]. eapply Forall_impl; [exact Hf|]. intros v. change (Z.sgn _) with 1. cbn beta. lia.
Defined.

(** Rounded differences of days and time.  When the largest unit is the day or
    a unit of time, and the parts fit a float, [until] gives days and time that
    add up to the difference rounded to the increment of the smallest unit in
    the mode asked for, and [since] to the opposite difference rounded in the
    same mode. *)
Theorem difference_rounded start end_ s since (L := largest_index s) (d := DifferenceFacts.diff start end_) :
  DifferenceFacts.ok start = true → DifferenceFacts.ok end_ = true → (3 <= L <= smallest_index s)%nat → (smallest_index s <= 9)%nat →
  1 <= increment s <= 1000000000 → ((4 <= L)%nat → Z.abs d + DifferenceFacts.quantum s < 2^53 * RoundingFacts.unit_scale (L - 4)) →
  ∃ values, nudge_iso_difference start end_ s since 9 = Ok values ∧ take 3 values = [0; 0; 0] ∧
    Rounding.duration_time_nanoseconds values = Some (rounds_to (mode s) (if since then - d else d) (DifferenceFacts.quantum s)).
Proof.
  intros Hs He HL H9 Hi Hfit.
  enough (∃ k parts, nudge_iso_difference start end_ s since 9 = Ok (if since then map Z.opp (0 :: 0 :: 0 :: k :: parts) else 0 :: 0 :: 0 :: k :: parts) ∧
    k * TimeZone.DAY_NS + RoundingFacts.weighed parts Rounding.TIME_UNIT_NS
      = rounds_to (if since then negate_mode (mode s) else mode s) d (DifferenceFacts.quantum s) ∧
    Z.abs (k * TimeZone.DAY_NS) + RoundingFacts.weighed_abs parts Rounding.TIME_UNIT_NS < 2^127) as (k & parts & E & Ew & Hb).
  - eexists. split; [exact E|]. split; [by destruct since|]. destruct (DifferenceFacts.quantum_eq s ltac:(lia) Hi) as [_ Hq].
    destruct since; [|by rewrite DifferenceFacts.day_time_sum, Ew]. cbn [map]. destruct (RoundingFacts.weighed_opp parts Rounding.TIME_UNIT_NS) as [W1 W2].
    rewrite DifferenceFacts.day_time_sum by (rewrite Z.mul_opp_l, Z.abs_opp, W2; done). rewrite W1. rewrite DifferenceFacts.rounds_opp in Ew by lia. f_equal. lia.
  - destruct ((smallest_index s =? 9)%nat && (increment s =? 1)) eqn:Eb.
    + apply andb_true_iff in Eb as [E9%Nat.eqb_eq E1%Z.eqb_eq].
      destruct (DifferenceFacts.exact_ok start end_ Hs He s ltac:(lia) E1) as (y & m & w & k & t & parts & Hu & Hsince & _ & Hw & Ha & Ht & _ & _ & _ & H3).
      { intros H4. specialize (Hfit H4). destruct (DifferenceFacts.quantum_eq s ltac:(lia) Hi). fold d L. lia. }
      destruct (H3 ltac:(lia)) as (-> & -> & -> & Ed & Hk). rewrite E9 in Hu, Hsince. exists k, parts. split; [destruct since; [exact Hsince|exact Hu]|].
      assert (DifferenceFacts.quantum s = 1) as -> by (unfold DifferenceFacts.quantum; by rewrite E9, E1). rewrite Hw, Ha.
      split; [|pose proof (DifferenceFacts.diff_bound start end_ Hs He); unfold TimeZone.DAY_NS in *; lia]. rewrite Ed. symmetry. apply RoundingFacts.multiple_rounds; [lia|apply Z.mod_1_r].
    + destruct (DifferenceFacts.nudge_reduce start end_ Hs He s 9) as (y & m & w & k & t & Hn & _ & _ & _ & _ & H3 & H3' & H4 & _). rewrite Eb in Hn.
      rewrite (proj2 (Nat.leb_le 3 (smallest_index s))) in Hn by lia. destruct (H3' ltac:(lia)) as (-> & -> & ->).
      assert (k * TimeZone.DAY_NS + t = d) as Ed by (destruct (Nat.le_gt_cases 4 L) as [H|H]; [destruct (H4 H) as [-> ->]; lia|apply (H3 ltac:(lia)); lia]).
      edestruct (DifferenceFacts.rounded_ok start end_ Hs He s (if since then negate_mode (mode s) else mode s)) as (k' & parts & E & Ew & Hb);
        [done|done|done|exact Ed|intros H; apply (H4 H)|exact Hfit|].
      exists k', parts. rewrite Hn, E. cbn [res_bind]. split; [destruct since; [by rewrite DifferenceFacts.negate_values|done]|]. done.
Qed.

Lemma difference_rounded_witness :
  let s := mkSettings 3 5 15 Rounding.HalfExpand in
  let start := mkDateTime (2024, 2, 28) 0 in let end_ := mkDateTime (2024, 3, 1) 1350000000000 in
  nudge_iso_difference start end_ s true 9 = Ok [0; 0; 0; -2; 0; -30; 0; 0; 0; 0] ∧
  ∃ values, nudge_iso_difference start end_ s true 9 = Ok values ∧ Rounding.duration_time_nanoseconds values = Some (-174600000000000).
Proof.
  intros s start end_. split; [by vm_compute|].
  destruct (difference_rounded start end_ s true) as (values & E & _ & Es); [by vm_compute|by vm_compute|cbn; lia|cbn; lia|cbn; lia|cbn; lia|].
  exists values. split; [exact E|]. rewrite Es. by vm_compute.
Defined.

(** C40: Rounded differences of years or months, the largest unit being the
    smallest one.  For two different moments whose dates lie within 5*10^7 days
    of the epoch, an increment of at most 120000 months and settings that ask
    for rounding, the difference in years (or in months) rounded to a multiple
    of the increment is found: it is the multiple that the
    mode chooses between the two successive multiples whose moments, counted
    from the start with the day clamped to the month, enclose the end; [since]
    rounds the opposite difference. *)
Theorem difference_calendar start end_ u inc md since no_rounding (σ := if DifferenceFacts.diff start end_ <? 0 then -1 else 1)
    (at_ := DifferenceFacts.moment start u) (dest := DifferenceFacts.epoch end_) :
  DifferenceFacts.ok start = true → DifferenceFacts.ok end_ = true → DifferenceFacts.diff start end_ ≠ 0 →
  Z.abs (Civil.days_of (on_date start)) <= 50000000 → Z.abs (Civil.days_of (on_date end_)) <= 50000000 →
  (u < 2)%nat → 1 <= inc → DifferenceFacts.unit_months u * inc <= 120000 → u ≠ no_rounding ∨ inc ≠ 1 →
  ∃ r, (inc | r) ∧ 0 <= σ * r ∧ 0 <= σ * (dest - at_ r) ∧ 0 < σ * (at_ (r + σ * inc) - dest) ∧
    nudge_iso_difference start end_ (mkSettings u u inc md) since no_rounding =
      Ok (map (if since then Z.opp else id) (DifferenceFacts.unit_values u
        (DifferenceFacts.choose (if since then negate_mode md else md) σ r inc (at_ r) (at_ (r + σ * inc)) dest))).
Proof.
  intros Hs He Hne Hds Hde Hu Hi Hmax Hround.
  destruct (DifferenceFacts.nudge_reduce start end_ Hs He (mkSettings u u inc md) no_rounding) as (y & m & w & d & t & Hn & Hf & Ht & _ & Ee & H3 & _ & _ & Hw).
  cbn [largest_index smallest_index increment mode] in *. destruct (H3 ltac:(lia)) as [Htd _]. specialize (Hw Hu).
  assert (Z.sgn (DifferenceFacts.diff start end_) = σ) as Eσ by (unfold σ; destruct (Z.ltb_spec (DifferenceFacts.diff start end_) 0); lia). rewrite Eσ in *.
  rewrite !Forall_cons in Hf. destruct Hf as (Hy & Hm & _).
  destruct (DifferenceFacts.round_calendar_ok start end_ Hs He Hds Hde u Hu y m w d t md (if since then negate_mode md else md) inc Hi Hmax Hw Hy Hm Ht Htd Ee)
    as (r & Hdiv & Hr & Hlo & Hhi & E).
  exists r. split_and!; [done..|]. rewrite Hn. replace ((u =? no_rounding)%nat && (inc =? 1)) with false.
  - rewrite (proj2 (Nat.leb_gt 3 u)) by lia. rewrite E. cbn [res_bind]. destruct since; [by rewrite DifferenceFacts.negate_values|by rewrite map_id].
  - symmetry. apply andb_false_iff. rewrite Nat.eqb_neq, Z.eqb_neq. done.
Qed.

Lemma difference_calendar_witness :
  let start := mkDateTime (2023, 8, 31) 0 in let end_ := mkDateTime (2024, 3, 15) 43200000000000 in
  nudge_iso_difference start end_ (mkSettings 1 1 3 Rounding.HalfExpand) true 9 = Ok [0; -6; 0; 0; 0; 0; 0; 0; 0; 0] ∧
  ∃ r, (3 | r) ∧ DifferenceFacts.moment start 1 r <= DifferenceFacts.epoch end_ < DifferenceFacts.moment start 1 (r + 3).
Proof.
  intros start end_. split; [by vm_compute|].
  destruct (difference_calendar start end_ 1 3 Rounding.HalfExpand true 9) as (r & Hd & _ & Hlo & Hhi & _);
    [by vm_compute|by vm_compute|by vm_compute|by vm_compute|by vm_compute|lia|lia|by vm_compute|by left|].
  exists r. split; [done|]. change (if _ <? 0 then -1 else 1) with 1 in *. rewrite !Z.mul_1_l in *. lia.
Defined.

(** Truncated months can overshoot.  From 2021-03-31T00:00 to 2022-02-28T12:00
    there are ten months and some days; truncated to months with years as the
    largest unit the result is one year, beyond the end: the window of months
    was moved once, which counts as an expansion, so that its far end is carried
    into the year although its near end was chosen. *)
Theorem truncation_overshoots (start := mkDateTime (2021, 3, 31) 0) (end_ := mkDateTime (2022, 2, 28) 43200000000000) :
  nudge_iso_difference start end_ (mkSettings 0 9 1 Rounding.Trunc) false 9 = Ok [0; 10; 0; 28; 12; 0; 0; 0; 0; 0] ∧
  nudge_iso_difference start end_ (mkSettings 0 1 1 Rounding.Trunc) false 9 = Ok [1; 0; 0; 0; 0; 0; 0; 0; 0; 0] ∧
  DifferenceFacts.epoch end_ < DifferenceFacts.moment start 0 1.
Proof. by vm_compute. Qed.
