(* ===== verification/Float.v ===== *)
(** * Binary64 numbers

    The [f64] of the language the engine is written in, as the coercions and the
    arithmetic of the virtual machine use it: a number is its 64-bit pattern, and
    the operations decode it to the specification of floating point of the
    Standard Library, compute there, and encode the result.

    A NaN that an operation produces has the pattern of [f64::NAN]; negation
    flips the sign bit of whatever it is given. *)

From stdpp Require Import base tactics numbers list option.
From Stdlib Require Import ZArith Lia SpecFloat.
From S2P Require Import Prelude.

Open Scope Z_scope.

Module F64.

(** ** Bit patterns *)

Definition prec : Z := 53.
Definition emax : Z := 1024.
Definition NAN : N := 0x7FF8000000000000.

Definition decode (bits : N) : spec_float :=
  let s := N.testbit bits 63 in
  let e := Z.of_N (N.land (N.shiftr bits 52) 0x7FF) in
  let m := Z.of_N (N.land bits 0xFFFFFFFFFFFFF) in
  if e =? 0 then match m with Zpos p => S754_finite s p (-1074) | _ => S754_zero s end
  else if e =? 2047 then if m =? 0 then S754_infinity s else S754_nan
  else match m + 2^52 with Zpos p => S754_finite s p (e - 1075) | _ => S754_nan end.

Definition sign_bit (s : bool) : Z := if s then 2^63 else 0.

Definition encode (f : spec_float) : N :=
  match f with
  | S754_zero s => Z.to_N (sign_bit s)
  | S754_infinity s => Z.to_N (sign_bit s + 2047 * 2^52)
  | S754_nan => NAN
  | S754_finite s m e =>
      Z.to_N (sign_bit s + (if Zpos m <? 2^52 then Zpos m else (e + 1075) * 2^52 + (Zpos m - 2^52)))
  end.

(** ** Tests and comparisons *)

Definition is_nan (a : N) : bool := match decode a with S754_nan => true | _ => false end.
Definition is_infinite (a : N) : bool := match decode a with S754_infinity _ => true | _ => false end.
Definition is_finite (a : N) : bool := match decode a with S754_zero _ | S754_finite _ _ _ => true | _ => false end.
Definition is_sign_negative (a : N) : bool := N.testbit a 63.
Definition partial_cmp (a b : N) : option comparison := SFcompare (decode a) (decode b).
Definition eqb (a b : N) : bool := SFeqb (decode a) (decode b).
Definition ltb (a b : N) : bool := SFltb (decode a) (decode b).
Definition leb (a b : N) : bool := SFleb (decode a) (decode b).

(** ** Arithmetic *)

Definition neg (a : N) : N := N.lxor a (2^63).
Definition abs (a : N) : N := N.land a (2^63 - 1).
Definition add (a b : N) : N := encode (SFadd prec emax (decode a) (decode b)).
Definition sub (a b : N) : N := encode (SFsub prec emax (decode a) (decode b)).
Definition mul (a b : N) : N := encode (SFmul prec emax (decode a) (decode b)).
Definition div (a b : N) : N := encode (SFdiv prec emax (decode a) (decode b)).

(** The remainder, with the sign of the dividend; it is always exact. *)
Definition rem_sf (x y : spec_float) : spec_float :=
  match x, y with
  | S754_nan, _ | _, S754_nan | S754_infinity _, _ | _, S754_zero _ => S754_nan
  | S754_zero s, _ => S754_zero s
  | S754_finite _ _ _, S754_infinity _ => x
  | S754_finite sx mx ex, S754_finite _ my ey =>
      let ez := Z.min ex ey in
      match (Zpos mx * 2^(ex - ez)) mod (Zpos my * 2^(ey - ez)) with
      | Zpos r => binary_round prec emax sx r ez
      | _ => S754_zero sx
      end
  end.
Definition rem (a b : N) : N := encode (rem_sf (decode a) (decode b)).

Definition trunc_sf (x : spec_float) : spec_float :=
  match x with
  | S754_finite s m e =>
      if 0 <=? e then x
      else match Zpos m / 2^(- e) with Zpos q => binary_round prec emax s q 0 | _ => S754_zero s end
  | _ => x
  end.
Definition trunc (a : N) : N := encode (trunc_sf (decode a)).

Definition rem_euclid (a b : N) : N :=
  let r := rem a b in
  if ltb r 0%N then add r (abs b) else r.

(** ** Conversions *)

(** [as f64] of an integer. *)
Definition of_Z (z : Z) : N := encode (binary_normalize prec emax z 0 false).

(** The integer part of a finite number. *)
Definition int_part (x : spec_float) : option Z :=
  match x with
  | S754_zero _ => Some 0
  | S754_finite s m e => Some (cond_Zopp s (if 0 <=? e then Zpos m * 2^e else Zpos m / 2^(- e)))
  | _ => None
  end.

(** [as] to an integer type from [lo] to [hi]. *)
Definition saturate (lo hi : Z) (a : N) : Z :=
  match decode a with
  | S754_nan => 0
  | S754_infinity s => if s then lo else hi
  | x => match int_part x with Some z => Z.max lo (Z.min hi z) | None => 0 end
  end.
Definition as_u32 : N → Z := saturate 0 (2^32 - 1).
Definition as_u64 : N → Z := saturate 0 (2^64 - 1).
Definition as_i128 : N → Z := saturate (- 2^127) (2^127 - 1).

End F64.

(** ** Facts *)

Module F64Facts.
Import F64.

Lemma digits_bounds p : 2 ^ (Zpos (digits2_pos p) - 1) <= Zpos p < 2 ^ Zpos (digits2_pos p).
Proof.
  induction p as [p IH|p IH|]; cbn [digits2_pos]; [..|by vm_compute];
    rewrite Pos2Z.inj_succ; replace (Z.succ (Z.pos (digits2_pos p)) - 1) with (Z.succ (Z.pos (digits2_pos p) - 1)) by lia;
    rewrite !Z.pow_succ_r by lia; lia.
Qed.

Lemma digits_unique p d : 0 < d → 2 ^ (d - 1) <= Zpos p < 2 ^ d → Zpos (digits2_pos p) = d.
Proof.
  intros Hd Hp. pose proof (digits_bounds p) as H. destruct (Z.lt_trichotomy (Zpos (digits2_pos p)) d) as [Hl|[E|Hl]]; [|done|].
  - pose proof (Z.pow_le_mono_r 2 (Zpos (digits2_pos p)) (d - 1) ltac:(lia) ltac:(lia)). lia.
  - pose proof (Z.pow_le_mono_r 2 d (Zpos (digits2_pos p) - 1) ltac:(lia) ltac:(lia)). lia.
Qed.

Lemma digits_shift p q k : 0 <= k → Zpos q = Zpos p * 2 ^ k → Zpos (digits2_pos q) = Zpos (digits2_pos p) + k.
Proof.
  intros Hk E. pose proof (digits_bounds p) as H. apply digits_unique; [lia|]. rewrite E.
  replace (Zpos (digits2_pos p) + k - 1) with (Zpos (digits2_pos p) - 1 + k) by lia. rewrite !Z.pow_add_r by lia.
  pose proof (Z.pow_pos_nonneg 2 k ltac:(lia) Hk). nia.
Qed.

(** Shifting left. *)
Lemma iter_xO m d : Zpos (Pos.iter xO m d) = Zpos m * 2 ^ Zpos d.
Proof.
  induction d as [|d IH] using Pos.peano_ind; [cbn; lia|]. rewrite Pos.iter_succ, Pos2Z.inj_succ, Z.pow_succ_r by lia. lia.
Qed.

Lemma shl_align_ok m e e' : let '(m', e'') := shl_align m e e' in e'' = Z.min e e' ∧ Zpos m' = Zpos m * 2 ^ (e - e'').
Proof.
  unfold shl_align. destruct (e' - e) as [|d|d] eqn:E.
  - split; [lia|]. replace (e - e) with 0 by lia. lia.
  - split; [lia|]. replace (e - e) with 0 by lia. lia.
  - split; [lia|]. rewrite iter_xO. replace (e - e') with (Zpos d) by lia. done.
Qed.

(** Shifting right by zeros. *)
Lemma iter_pos_nat {A} (f : A → A) p x : iter_pos f p x = Nat.iter (Pos.to_nat p) f x.
Proof.
  revert x. induction p as [p IH|p IH|]; intros x; cbn [iter_pos]; [..|done]; rewrite !IH, <- Nat.iter_add.
  - rewrite <- Nat.iter_succ_r. f_equal. lia.
  - f_equal. lia.
Qed.

Lemma shr_exact n : ∀ q, 0 <= q → Nat.iter n shr_1 (Build_shr_record (q * 2 ^ Z.of_nat n) false false) = Build_shr_record q false false.
Proof.
  induction n as [|n IH]; intros q Hq; [f_equal; by rewrite Z.mul_1_r|].
  rewrite Nat.iter_succ_r. replace (q * 2 ^ Z.of_nat (S n)) with (2 * (q * 2 ^ Z.of_nat n)) by (rewrite Nat2Z.inj_succ, Z.pow_succ_r by lia; lia).
  replace (shr_1 _) with (Build_shr_record (q * 2 ^ Z.of_nat n) false false); [by apply IH|].
  assert (0 <= q * 2 ^ Z.of_nat n) as Hp by (apply Z.mul_nonneg_nonneg; [done|apply Z.pow_nonneg; lia]).
  destruct (q * 2 ^ Z.of_nat n); [done|done|lia].
Qed.

(** The value of a number in units of 2^-1074, of which every finite one is a
    multiple. *)
Definition scaled (m : positive) (e : Z) : Z := Zpos m * 2 ^ (e + 1074).

(** Rounding leaves alone what 53 bits can hold. *)
Lemma round_aux_exact s m e c q : c = fexp prec emax (Zpos (digits2_pos m) + e) → e <= c → c <= 971 → Zpos m = Zpos q * 2 ^ (c - e) →
  binary_round_aux prec emax s (Zpos m) e loc_Exact = S754_finite s q c.
Proof.
  intros Hc He Hmax Em. unfold binary_round_aux.
  assert (∀ m' e' q', c = fexp prec emax (Zpos (digits2_pos m') + e') → e' <= c → Zpos m' = Zpos q' * 2 ^ (c - e') →
    shr_fexp prec emax (Zpos m') e' loc_Exact = (Build_shr_record (Zpos q') false false, c)) as Hshr.
  { intros m' e' q' Hc' He' Em'. unfold shr_fexp. cbn [shr_record_of_loc Zdigits2]. rewrite <- Hc'. unfold shr.
    destruct (c - e') as [|n|n] eqn:En; [|rewrite iter_pos_nat|lia].
    - replace c with e' by lia. do 2 f_equal. lia.
    - rewrite Em'. replace (Zpos n) with (Z.of_nat (Pos.to_nat n)) by lia. rewrite shr_exact by lia. f_equal. lia. }
  rewrite (Hshr m e q) by done. cbn [shr_m loc_of_shr_record round_nearest_even].
  pose proof (digits_shift q m (c - e) ltac:(lia) Em) as Ed.
  rewrite (Hshr q c q); [|rewrite Hc at 1; f_equal; lia|lia|rewrite Z.sub_diag; lia].
  cbn [shr_m]. unfold emax, prec. by rewrite (proj2 (Z.leb_le c _)) by lia.
Qed.

Lemma fexp_eq d : fexp prec emax d = Z.max (d - 53) (-1074).
Proof. done. Qed.

(** A number that 53 bits hold. *)
Definition fits (x : Z) : Prop := ∃ q k, 0 < q < 2^53 ∧ 0 <= k <= 2045 ∧ x = q * 2 ^ k.

Lemma fits_digits m e : -1074 <= e → fits (scaled m e) →
  let c := fexp prec emax (Zpos (digits2_pos m) + e) in -1074 <= c <= 971 ∧ (e <= c → ∃ q, Zpos m = Zpos q * 2 ^ (c - e)).
Proof.
  intros He (q & k & Hq & Hk & E) c. unfold scaled in E. destruct q as [|q|q]; [lia| |lia].
  pose proof (digits_bounds q) as Hdq. assert (Zpos (digits2_pos q) <= 53) as H53.
  { destruct (Z.le_gt_cases (Zpos (digits2_pos q)) 53) as [|H]; [done|]. pose proof (Z.pow_le_mono_r 2 53 (Zpos (digits2_pos q) - 1) ltac:(lia) ltac:(lia)). lia. }
  assert (Zpos (digits2_pos m) + (e + 1074) = Zpos (digits2_pos q) + k) as Ed.
  { destruct (Zpos m * 2 ^ (e + 1074)) as [|x|x] eqn:Ex; [pose proof (Z.pow_pos_nonneg 2 (e + 1074)); nia| |pose proof (Z.pow_pos_nonneg 2 (e + 1074)); nia].
    rewrite <- (digits_shift m x (e + 1074)) by lia. by rewrite <- (digits_shift q x k) by lia. }
  unfold c. rewrite fexp_eq. split; [lia|]. intros Hec.
  set (n := Z.max _ _ - e) in *. assert (0 <= n ∧ n <= Z.max (k - (e + 1074)) 0) as [Hn Hnk] by (unfold n; lia).
  destruct (Z.eq_dec n 0) as [E0|N0]; [exists m; rewrite E0; lia|].
  assert (Zpos m = Zpos q * 2 ^ (k - (e + 1074) - n) * 2 ^ n) as Em.
  { apply (Z.mul_cancel_r _ _ (2 ^ (e + 1074))); [apply Z.pow_nonzero; lia|]. rewrite E, <- !Z.mul_assoc, <- !Z.pow_add_r by lia. do 2 f_equal. lia. }
  exists (q * Z.to_pos (2 ^ (k - (e + 1074) - n)))%positive. rewrite Pos2Z.inj_mul, Z2Pos.id; [done|apply Z.pow_pos_nonneg; lia].
Qed.

(** Two mantissas with the same value. *)
Lemma scaled_eq m e m' e' : -1074 <= e' <= e → Zpos m' = Zpos m * 2 ^ (e - e') → scaled m' e' = scaled m e.
Proof. intros He E. unfold scaled. rewrite E, <- Z.mul_assoc, <- Z.pow_add_r by lia. do 2 f_equal. lia. Qed.

Lemma round_aux_fits s m e : -1074 <= e → fits (scaled m e) → e <= fexp prec emax (Zpos (digits2_pos m) + e) →
  ∃ m' e', binary_round_aux prec emax s (Zpos m) e loc_Exact = S754_finite s m' e' ∧ bounded prec emax m' e' = true ∧ -1074 <= e' ∧ scaled m' e' = scaled m e.
Proof.
  intros He Hf Hc. destruct (fits_digits m e He Hf) as [[Hlo Hhi] Hq]. destruct (Hq Hc) as [q Em].
  set (c := fexp prec emax (Zpos (digits2_pos m) + e)) in *. exists q, c. pose proof (digits_shift q m (c - e) ltac:(lia) Em) as Ed. split_and!.
  - by apply round_aux_exact.
  - unfold bounded, canonical_mantissa. apply andb_true_iff. split; [apply Z.eqb_eq; unfold c; f_equal; fold c; lia|apply Z.leb_le; unfold emax, prec; lia].
  - done.
  - symmetry. apply scaled_eq; [lia|done].
Qed.

Lemma round_fits s m e : -1074 <= e → fits (scaled m e) →
  ∃ m' e', binary_round prec emax s m e = S754_finite s m' e' ∧ bounded prec emax m' e' = true ∧ -1074 <= e' ∧ scaled m' e' = scaled m e.
Proof.
  intros He Hf. unfold binary_round. pose proof (fits_digits m e He Hf) as [[Hlo Hhi] _]. set (c := fexp prec emax _) in *.
  pose proof (shl_align_ok m e c) as Ha. destruct (shl_align m e c) as [mz ez]. destruct Ha as [Hez Em].
  assert (scaled mz ez = scaled m e) as Es by (apply scaled_eq; [lia|done]). rewrite <- Es in Hf |- *.
  apply round_aux_fits; [lia|done|]. pose proof (digits_shift m mz (e - ez) ltac:(lia) Em) as Ed. rewrite Ed.
  replace (_ + (e - ez) + ez) with (Zpos (digits2_pos m) + e) by lia. fold c. lia.
Qed.

(** *** Encoding and decoding *)

Lemma fields s e m (b := Z.to_N (sign_bit s + e * 2^52 + m)) : 0 <= e < 2048 → 0 <= m < 2^52 →
  N.testbit b 63 = s ∧ Z.of_N (N.land (N.shiftr b 52) 0x7FF) = e ∧ Z.of_N (N.land b 0xFFFFFFFFFFFFF) = m.
Proof.
  intros He Hm. set (z := sign_bit s + e * 2^52 + m). assert (0 <= z ∧ z = (if s then 1 else 0) * 2^63 + (e * 2^52 + m)) as [Hz Ez] by (unfold z, sign_bit; destruct s; lia).
  assert (Z.of_N b = z) as Eb by (unfold b; rewrite Z2N.id by lia; done). split_and!.
  - rewrite N.testbit_eqb. apply Bool.eq_true_iff_eq. rewrite N.eqb_eq, <- N2Z.inj_iff, N2Z.inj_mod, N2Z.inj_div, N2Z.inj_pow, Eb. change (Z.of_N 2 ^ Z.of_N 63) with (2^63). change (Z.of_N 2) with 2.
    rewrite <- (Z.div_unique_pos z (2^63) (if s then 1 else 0) (e * 2^52 + m)) by lia. by destruct s.
  - change 0x7FF%N with (N.ones 11). rewrite N.land_ones, N.shiftr_div_pow2, N2Z.inj_mod, N2Z.inj_div, !N2Z.inj_pow, Eb. change (Z.of_N 2 ^ Z.of_N 52) with (2^52). change (Z.of_N 2 ^ Z.of_N 11) with 2048.
    rewrite <- (Z.div_unique_pos z (2^52) ((if s then 1 else 0) * 2048 + e) m) by lia. symmetry. apply (Z.mod_unique_pos _ _ (if s then 1 else 0)); lia.
  - change 0xFFFFFFFFFFFFF%N with (N.ones 52). rewrite N.land_ones, N2Z.inj_mod, N2Z.inj_pow, Eb. change (Z.of_N 2 ^ Z.of_N 52) with (2^52).
    symmetry. apply (Z.mod_unique_pos _ _ ((if s then 1 else 0) * 2048 + e)); lia.
Qed.

Lemma low_bits b n : 0 <= Z.of_N (b `mod` 2 ^ n)%N < 2 ^ Z.of_N n.
Proof. rewrite N2Z.inj_mod, N2Z.inj_pow. apply Z.mod_pos_bound. apply Z.pow_pos_nonneg; lia. Qed.

Lemma bounded_cases m e : bounded prec emax m e = true →
  (Zpos m < 2^52 ∧ e = -1074) ∨ (2^52 <= Zpos m < 2^53 ∧ -1074 <= e <= 971).
Proof.
  unfold bounded, canonical_mantissa. rewrite andb_true_iff, Z.eqb_eq, Z.leb_le, fexp_eq. unfold emax, prec. intros [Hc He].
  pose proof (digits_bounds m) as Hd. destruct (Z.le_gt_cases (Zpos (digits2_pos m)) 52) as [Hl|Hl].
  - left. pose proof (Z.pow_le_mono_r 2 (Zpos (digits2_pos m)) 52 ltac:(lia) Hl). lia.
  - right. assert (Zpos (digits2_pos m) = 53) as E by lia. rewrite E in Hd. change (53 - 1) with 52 in Hd. lia.
Qed.

Lemma decode_encode f : valid_binary prec emax f = true → decode (encode f) = f.
Proof.
  destruct f as [s|s| |s m e]; cbn [valid_binary]; [by destruct s|by destruct s|done|]. intros Hb. unfold encode.
  destruct (bounded_cases m e Hb) as [[Hm ->]|[Hm He]]; unfold decode.
  - rewrite (proj2 (Z.ltb_lt _ _)) by lia. replace (sign_bit s + Zpos m) with (sign_bit s + 0 * 2^52 + Zpos m) by lia. destruct (fields s 0 (Zpos m)) as (-> & -> & ->); [lia|lia|]. done.
  - rewrite (proj2 (Z.ltb_ge _ _)), Z.add_assoc by lia. destruct (fields s (e + 1075) (Zpos m - 2^52)) as (-> & -> & ->); [lia|lia|].
    rewrite (proj2 (Z.eqb_neq _ 0)), (proj2 (Z.eqb_neq _ 2047)) by lia. replace (Zpos m - 2^52 + 2^52) with (Zpos m) by lia. f_equal. lia.
Qed.

Lemma decode_valid b : valid_binary prec emax (decode b) = true.
Proof.
  unfold decode. set (s := N.testbit b 63). change 0x7FF%N with (N.ones 11). change 0xFFFFFFFFFFFFF%N with (N.ones 52). rewrite !N.land_ones.
  set (e := Z.of_N _). set (m := Z.of_N _). assert (0 <= m < 2^52) as Hm by (apply (low_bits b 52)).
  assert (0 <= e < 2048) as He by (apply (low_bits (N.shiftr b 52) 11)).
  assert (∀ p d, 0 < d <= 53 → 2 ^ (d - 1) <= Zpos p < 2 ^ d → ∀ e', -1074 <= e' <= 971 → e' = Z.max (d + e' - 53) (-1074) → bounded prec emax p e' = true) as Hbd.
  { intros p d Hd Hp e' He' Ee. unfold bounded, canonical_mantissa. rewrite (digits_unique p d), fexp_eq by lia. apply andb_true_iff. rewrite Z.eqb_eq, Z.leb_le. unfold emax, prec. lia. }
  destruct (Z.eqb_spec e 0) as [E0|N0].
  - destruct m as [|p|p] eqn:Em; [done| |lia]. cbn [valid_binary]. pose proof (digits_bounds p). apply (Hbd p (Zpos (digits2_pos p))); [|done|lia|].
    + split; [lia|]. destruct (Z.le_gt_cases (Zpos (digits2_pos p)) 52) as [|Hl]; [lia|]. pose proof (Z.pow_le_mono_r 2 52 (Zpos (digits2_pos p) - 1) ltac:(lia) ltac:(lia)). lia.
    + destruct (Z.le_gt_cases (Zpos (digits2_pos p)) 52) as [|Hl]; [lia|]. pose proof (Z.pow_le_mono_r 2 52 (Zpos (digits2_pos p) - 1) ltac:(lia) ltac:(lia)). lia.
  - destruct (Z.eqb_spec e 2047) as [E1|N1]; [by destruct (m =? 0)|]. destruct (m + 2^52) as [|p|p] eqn:Ep; [lia| |lia]. cbn [valid_binary].
    apply (Hbd p 53); [lia|change (53 - 1) with 52; lia|lia|lia].
Qed.

(** The pattern of a number that is not a NaN is the one its value encodes to. *)
Lemma encode_decode b : (b < 2^64)%N → is_nan b = false → encode (decode b) = b.
Proof.
  intros Hb. unfold is_nan, decode. set (s := N.testbit b 63). change 0x7FF%N with (N.ones 11). change 0xFFFFFFFFFFFFF%N with (N.ones 52). rewrite !N.land_ones.
  set (e := Z.of_N _). set (m := Z.of_N _). assert (0 <= m < 2^52) as Hm by (apply (low_bits b 52)).
  assert (Z.of_N b = sign_bit s + e * 2^52 + m ∧ 0 <= e < 2048) as [Eb He].
  { assert (Z.of_N b = 2^52 * (Z.of_N b / 2^52) + m) as H1 by (unfold m; rewrite N2Z.inj_mod, N2Z.inj_pow; apply Z.div_mod; done).
    assert (Z.of_N b / 2^52 = 2048 * (Z.of_N b / 2^63) + e) as H2.
    { unfold e. rewrite N.shiftr_div_pow2, N2Z.inj_mod, N2Z.inj_div, !N2Z.inj_pow. change (Z.of_N 2 ^ Z.of_N 52) with (2^52). change (Z.of_N 2 ^ Z.of_N 11) with 2048.
      change (2^63) with (2^52 * 2048). rewrite <- Z.div_div by lia. apply Z.div_mod. lia. }
    assert (sign_bit s = 2^63 * (Z.of_N b / 2^63)) as H3.
    { unfold sign_bit, s. rewrite N.testbit_eqb. assert (0 <= Z.of_N b / 2^63 < 2) by (split; [apply Z.div_pos; lia|apply Z.div_lt_upper_bound; lia]).
      destruct (N.eqb_spec ((b / 2^63) `mod` 2) 1) as [E|E]; rewrite <- N2Z.inj_iff, N2Z.inj_mod, N2Z.inj_div, N2Z.inj_pow in E; change (Z.of_N 2 ^ Z.of_N 63) with (2^63) in E; change (Z.of_N 2) with 2 in E; rewrite Z.mod_small in E by lia; lia. }
    split; [lia|]. apply (low_bits (N.shiftr b 52) 11). }
  assert (∀ z, z = Z.of_N b → Z.to_N z = b) as Hz by (intros z ->; apply N2Z.id).
  destruct (Z.eqb_spec e 0) as [E0|N0].
  - intros _. destruct m as [|p|p] eqn:Em; [apply Hz; lia| |lia]. cbn [encode]. rewrite (proj2 (Z.ltb_lt _ _)) by lia. apply Hz. lia.
  - destruct (Z.eqb_spec e 2047) as [E1|N1]; [destruct (Z.eqb_spec m 0); [|done]; intros _; apply Hz; lia|].
    intros _. destruct (m + 2^52) as [|p|p] eqn:Ep; [lia| |lia]. cbn [encode]. rewrite (proj2 (Z.ltb_ge _ _)) by lia. apply Hz. lia.
Qed.

(** *** Comparison *)

Lemma scaled_pos m e : -1074 <= e → 0 < scaled m e.
Proof. intros He. unfold scaled. apply Z.mul_pos_pos; [lia|]. apply Z.pow_pos_nonneg; lia. Qed.

Lemma scaled_lt m e m' e' : bounded prec emax m e = true → bounded prec emax m' e' = true → e < e' → scaled m e < scaled m' e'.
Proof.
  intros Hb Hb' He. unfold scaled. destruct (bounded_cases m' e' Hb') as [[_ ->]|[Hm' He']]; [destruct (bounded_cases m e Hb); lia|].
  assert (Zpos m < 2^53 ∧ -1074 <= e) as [Hm Hlo] by (destruct (bounded_cases m e Hb); lia).
  pose proof (Z.pow_le_mono_r 2 (e + 1074 + 1) (e' + 1074) ltac:(lia) ltac:(lia)) as Hp. rewrite Z.pow_add_r in Hp by lia.
  pose proof (Z.pow_pos_nonneg 2 (e + 1074) ltac:(lia) ltac:(lia)). nia.
Qed.

Lemma scaled_compare m e m' e' : bounded prec emax m e = true → bounded prec emax m' e' = true →
  match Z.compare e e' with Lt => Lt | Gt => Gt | Eq => Pos.compare_cont Eq m m' end = Z.compare (scaled m e) (scaled m' e').
Proof.
  intros Hb Hb'. symmetry. destruct (Z.compare_spec e e') as [<-|Hl|Hl].
  - unfold scaled. assert (0 < 2 ^ (e + 1074)) by (apply Z.pow_pos_nonneg; destruct (bounded_cases m e Hb); lia).
    rewrite <- Zmult_compare_compat_r by lia. done.
  - apply Z.compare_lt_iff. by apply scaled_lt.
  - apply Z.compare_gt_iff. by apply scaled_lt.
Qed.

(** The value of a finite number in units of 2^-1074. *)
Definition units (x : spec_float) : option Z :=
  match x with S754_zero _ => Some 0 | S754_finite s m e => Some (cond_Zopp s (scaled m e)) | _ => None end.

Lemma compare_units x y a b : valid_binary prec emax x = true → valid_binary prec emax y = true → units x = Some a → units y = Some b →
  SFcompare x y = Some (Z.compare a b).
Proof.
  assert (∀ (s : bool) m e, bounded prec emax m e = true → 0 < scaled m e) as Hpos by (intros s m e Hb; apply scaled_pos; destruct (bounded_cases m e Hb); lia).
  destruct x as [s|s| |s m e], y as [s'|s'| |s' m' e']; cbn [units valid_binary SFcompare]; intros Hx Hy [= <-] [= <-]; try done; f_equal; symmetry.
  - pose proof (Hpos s' m' e' Hy). destruct s'; cbn [cond_Zopp]; [apply Z.compare_gt_iff|apply Z.compare_lt_iff]; lia.
  - pose proof (Hpos s m e Hx). destruct s; cbn [cond_Zopp]; [apply Z.compare_lt_iff|apply Z.compare_gt_iff]; lia.
  - pose proof (Hpos s m e Hx). pose proof (Hpos s' m' e' Hy). pose proof (scaled_compare m e m' e' Hx Hy) as Hc.
    destruct s, s'; cbn [cond_Zopp]; [|apply Z.compare_lt_iff; lia|apply Z.compare_gt_iff; lia|by rewrite Hc].
    rewrite Z.compare_opp, Z.compare_antisym, <- Hc. by destruct (e ?= e').
Qed.

(** *** Integers *)

Definition UNIT : Z := 2 ^ 1074.

(** [x] is the integer [z]. *)
Definition is_int (x : spec_float) (z : Z) : Prop := valid_binary prec emax x = true ∧ units x = Some (z * UNIT).

Lemma unit_pos : 0 < UNIT.
Proof. by apply Z.pow_pos_nonneg. Qed.

Lemma int_zero z : 0 = z * UNIT → z = 0.
Proof. pose proof unit_pos as Hu. intros [H|H]%eq_sym%Z.mul_eq_0; lia. Qed.

Lemma fits_int z : 0 < z < 2^53 → fits (z * UNIT).
Proof. intros Hz. exists z, 1074. split_and!; (lia || done). Qed.

(** Rounding a sum or difference that is a small integer. *)
Lemma normalize_int n e b z : -1074 <= e → n * 2 ^ (e + 1074) = z * UNIT → Z.abs z < 2^53 → is_int (binary_normalize prec emax n e b) z.
Proof.
  intros He E Hz. pose proof unit_pos as Hu. pose proof (Z.pow_pos_nonneg 2 (e + 1074) ltac:(lia) ltac:(lia)) as Hp. destruct n as [|p|p]; cbn [binary_normalize].
  - split; [done|]. cbn. f_equal. lia.
  - destruct (round_fits false p e He) as (m' & e' & -> & Hb & He' & Es); [unfold scaled; rewrite E; apply fits_int; nia|]. split; [done|]. cbn [units cond_Zopp]. by rewrite Es, <- E.
  - destruct (round_fits true p e He) as (m' & e' & -> & Hb & He' & Es); [unfold scaled; replace (Zpos p * 2 ^ (e + 1074)) with (- z * UNIT) by lia; apply fits_int; nia|].
    split; [done|]. cbn [units cond_Zopp]. rewrite Es. unfold scaled. f_equal. lia.
Qed.

Lemma of_Z_int z : Z.abs z < 2^53 → is_int (decode (of_Z z)) z.
Proof.
  intros Hz. assert (is_int (binary_normalize prec emax z 0 false) z) as H by (apply normalize_int; [lia|done|done]).
  unfold of_Z. by rewrite decode_encode by apply H.
Qed.

Lemma bounded_low m e : bounded prec emax m e = true → -1074 <= e.
Proof. intros Hb. destruct (bounded_cases m e Hb); lia. Qed.

Lemma align_units (s : bool) m e ez : -1074 <= ez <= e →
  cond_Zopp s (Zpos (fst (shl_align m e ez))) * 2 ^ (ez + 1074) = cond_Zopp s (scaled m e).
Proof.
  intros He. pose proof (shl_align_ok m e ez) as Ha. destruct (shl_align m e ez) as [m' e']. destruct Ha as [-> Em]. rewrite Z.min_r in Em by lia. cbn [fst].
  pose proof (scaled_eq m e m' ez ltac:(lia) Em) as Es. unfold scaled in Es at 1. destruct s; cbn [cond_Zopp]; lia.
Qed.

Lemma add_int x y a b : is_int x a → is_int y b → Z.abs (a + b) < 2^53 → is_int (SFadd prec emax x y) (a + b).
Proof.
  intros [Hx Ux] [Hy Uy] Hab. destruct x as [s|s| |s m e], y as [s'|s'| |s' m' e']; try done; cbn [units] in Ux, Uy.
  - injection Ux as Ux. injection Uy as Uy. pose proof unit_pos. split; [by destruct s, s'|]. replace ((a + b) * UNIT) with 0 by nia. by destruct s, s'.
  - injection Ux as Ux. pose proof unit_pos. replace (a + b) with b by nia. by split.
  - injection Uy as Uy. pose proof unit_pos. replace (a + b) with a by nia. by split.
  - injection Ux as Ux. injection Uy as Uy. cbn [SFadd]. apply bounded_low in Hx as Hex. apply bounded_low in Hy as Hey.
    apply normalize_int; [lia| |done]. rewrite Z.mul_add_distr_r, !align_units by lia. lia.
Qed.

Lemma sub_int x y a b : is_int x a → is_int y b → Z.abs (a - b) < 2^53 → is_int (SFsub prec emax x y) (a - b).
Proof.
  intros [Hx Ux] [Hy Uy] Hab. destruct x as [s|s| |s m e], y as [s'|s'| |s' m' e']; try done; cbn [units] in Ux, Uy.
  - injection Ux as Ux. injection Uy as Uy. pose proof unit_pos. split; [by destruct s, s'|]. replace ((a - b) * UNIT) with 0 by nia. by destruct s, s'.
  - injection Ux as Ux. injection Uy as Uy. pose proof unit_pos. split; [done|]. cbn [SFsub units]. f_equal. destruct s'; cbn [negb cond_Zopp] in *; nia.
  - injection Uy as Uy. pose proof unit_pos. replace (a - b) with a by nia. by split.
  - injection Ux as Ux. injection Uy as Uy. cbn [SFsub]. apply bounded_low in Hx as Hex. apply bounded_low in Hy as Hey.
    apply normalize_int; [lia| |done]. rewrite Z.mul_sub_distr_r, !align_units by lia. lia.
Qed.

(** The remainder of integers. *)
Lemma rem_int x y a b : is_int x a → is_int y b → b ≠ 0 → Z.abs b <= 2^53 → is_int (rem_sf x y) (Z.rem a b).
Proof.
  intros [Hx Ux] [Hy Uy] Hb Hbm. pose proof unit_pos as Hu. destruct x as [s|s| |s m e], y as [s'|s'| |s' m' e']; try done; cbn [units] in Ux, Uy.
  - injection Uy as Uy. nia.
  - injection Ux as Ux. assert (a = 0) as -> by nia. by split.
  - injection Uy as Uy. nia.
  - injection Ux as Ux. injection Uy as Uy. cbn [rem_sf]. apply bounded_low in Hx as Hex. apply bounded_low in Hy as Hey.
    set (ez := Z.min e e'). set (X := Zpos m * 2 ^ (e - ez)). set (Y := Zpos m' * 2 ^ (e' - ez)).
    assert (0 < 2 ^ (ez + 1074)) as Hp by (apply Z.pow_pos_nonneg; lia).
    assert (X * 2 ^ (ez + 1074) = Z.abs a * UNIT) as EX.
    { unfold X. rewrite <- Z.mul_assoc, <- Z.pow_add_r by lia. replace (e - ez + (ez + 1074)) with (e + 1074) by lia. pose proof (scaled_pos m e Hex). unfold scaled in *. destruct s; cbn [cond_Zopp] in Ux; nia. }
    assert (Y * 2 ^ (ez + 1074) = Z.abs b * UNIT) as EY.
    { unfold Y. rewrite <- Z.mul_assoc, <- Z.pow_add_r by lia. replace (e' - ez + (ez + 1074)) with (e' + 1074) by lia. pose proof (scaled_pos m' e' Hey). unfold scaled in *. destruct s'; cbn [cond_Zopp] in Uy; nia. }
    assert (0 < Y) as HY by nia. assert (0 <= X) as HX by nia.
    assert ((X mod Y) * 2 ^ (ez + 1074) = Z.abs a mod Z.abs b * UNIT) as Er.
    { rewrite <- !Z.mul_mod_distr_r, EX, EY by lia. done. }
    pose proof (Z.mod_pos_bound (Z.abs a) (Z.abs b) ltac:(lia)) as Hm.
    assert (Z.rem a b = cond_Zopp s (Z.abs a mod Z.abs b)) as ->.
    { pose proof (scaled_pos m e Hex). rewrite <- (Z.rem_mod_nonneg (Z.abs a) (Z.abs b)) by lia. rewrite Z.rem_abs_r by lia.
      destruct s; cbn [cond_Zopp] in *; [rewrite (Z.abs_neq a), Z.rem_opp_l by nia; lia|by rewrite (Z.abs_eq a) by nia]. }
    destruct (X mod Y) as [|r|r] eqn:Ex; [| |pose proof (Z.mod_pos_bound X Y HY); lia].
    + split; [done|]. cbn [units]. f_equal. destruct s; cbn [cond_Zopp]; nia.
    + destruct (round_fits s r ez) as (m2 & e2 & -> & Hb2 & He2 & Es); [lia|unfold scaled; rewrite Er; apply fits_int; nia|]. split; [done|]. cbn [units]. rewrite Es. unfold scaled.
      destruct s; cbn [cond_Zopp]; f_equal; lia.
Qed.

(** Truncation gives the integer part. *)
Lemma trunc_int x z : valid_binary prec emax x = true → int_part x = Some z → is_int (trunc_sf x) z.
Proof.
  destruct x as [s|s| |s m e]; cbn [int_part trunc_sf]; intros Hv [= <-]; [done|]. apply bounded_low in Hv as He. destruct (Z.leb_spec 0 e) as [H0|H0].
  - split; [done|]. cbn [units]. f_equal. unfold scaled, UNIT. rewrite Z.pow_add_r by lia. destruct s; cbn [cond_Zopp]; lia.
  - pose proof (Z.pow_pos_nonneg 2 (- e) ltac:(lia) ltac:(lia)) as Hp. pose proof (Z.div_pos (Zpos m) (2 ^ (- e)) ltac:(lia) Hp) as Hq.
    destruct (Zpos m / 2 ^ (- e)) as [|q|q] eqn:Eq; [by destruct s| |lia].
    assert (Zpos q < 2^53) as Hq53. { pose proof (Z.div_le_upper_bound (Zpos m) (2 ^ (- e)) (Zpos m) Hp ltac:(nia)). destruct (bounded_cases m e Hv); lia. }
    destruct (round_fits s q 0) as (m2 & e2 & -> & Hb2 & He2 & Es); [lia|apply fits_int; lia|]. split; [done|]. cbn [units]. rewrite Es. unfold scaled, UNIT. destruct s; cbn [cond_Zopp]; f_equal; lia.
Qed.

Lemma int_int_part x z : is_int x z → int_part x = Some z.
Proof.
  intros [Hv Hu]. pose proof unit_pos as Hp. destruct x as [s|s| |s m e]; try done; cbn [units int_part] in *; injection Hu as Hu; f_equal; [nia|].
  apply bounded_low in Hv as He. unfold scaled in Hu. destruct (Z.leb_spec 0 e) as [H0|H0].
  - rewrite Z.pow_add_r in Hu by lia. fold UNIT in Hu. destruct s; cbn [cond_Zopp] in *; nia.
  - assert (UNIT = 2 ^ (e + 1074) * 2 ^ (- e)) as EU by (rewrite <- Z.pow_add_r by lia; unfold UNIT; f_equal; lia). rewrite EU in Hu.
    pose proof (Z.pow_pos_nonneg 2 (e + 1074) ltac:(lia) ltac:(lia)). pose proof (Z.pow_pos_nonneg 2 (- e) ltac:(lia) ltac:(lia)).
    assert (Zpos m = cond_Zopp s z * 2 ^ (- e)) as -> by (destruct s; cbn [cond_Zopp] in *; nia). rewrite Z.div_mul by lia. destruct s; cbn [cond_Zopp]; lia.
Qed.

(** An integer has a whole mantissa. *)
Lemma int_mantissa s m e z : is_int (S754_finite s m e) z → 2^52 <= Zpos m < 2^53 ∧ -53 < e ∧ z ≠ 0.
Proof.
  intros [Hv Hu]. cbn [units] in Hu. injection Hu as Hu. apply bounded_low in Hv as He. pose proof (scaled_pos m e He) as Hs. pose proof unit_pos as Hp.
  assert (scaled m e = cond_Zopp s z * UNIT) as E by (destruct s; cbn [cond_Zopp] in *; lia).
  assert (0 < cond_Zopp s z) as Hz by (apply (Z.mul_pos_cancel_r _ UNIT); lia). assert (UNIT <= scaled m e) as Hle by (rewrite E; nia).
  split; [|split; [|destruct s; cbn [cond_Zopp] in Hz; lia]].
  - destruct (bounded_cases m e Hv) as [[Hm ->]|[Hm _]]; [|done]. exfalso. unfold scaled in Hle. change (2 ^ (-1074 + 1074)) with 1 in Hle.
    pose proof (Z.pow_lt_mono_r 2 52 1074 ltac:(lia) ltac:(lia) ltac:(lia)) as H52. fold UNIT in H52. lia.
  - destruct (Z.le_gt_cases e (-53)) as [Hl|]; [|done]. exfalso. assert (Zpos m < 2^53) as Hm by (destruct (bounded_cases m e Hv); lia).
    assert (2^53 * 2 ^ (e + 1074) <= UNIT) as Hb by (unfold UNIT; rewrite <- Z.pow_add_r by lia; apply Z.pow_le_mono_r; lia).
    pose proof (Z.pow_pos_nonneg 2 (e + 1074) ltac:(lia) ltac:(lia)). unfold scaled in Hle. nia.
Qed.

Lemma mul_int x y a b : is_int x a → is_int y b → Z.abs (a * b) < 2^53 → is_int (SFmul prec emax x y) (a * b).
Proof.
  intros Hx Hy Hab. pose proof unit_pos as Hp. destruct x as [s|s| |s m e], y as [s'|s'| |s' m' e']; try (by destruct Hx); try (by destruct Hy).
  1-3: assert (a * b = 0) as -> by (destruct Hx as [_ Ux], Hy as [_ Uy]; cbn [units] in Ux, Uy;
    first [injection Ux as Ux; rewrite (int_zero a Ux); lia|injection Uy as Uy; rewrite (int_zero b Uy); lia]); by split.
  destruct (int_mantissa s m e a Hx) as (Hm & He & Ha), (int_mantissa s' m' e' b Hy) as (Hm' & He' & Hb). destruct Hx as [Hvx Ux], Hy as [Hvy Uy].
  cbn [units SFmul] in *. injection Ux as Ux. injection Uy as Uy.
  assert (scaled (m * m') (e + e') = Z.abs (a * b) * UNIT) as Es.
  { apply (Z.mul_cancel_r _ _ UNIT); [lia|]. assert (scaled (m * m') (e + e') * UNIT = scaled m e * scaled m' e') as ->.
    { unfold scaled. rewrite Pos2Z.inj_mul. assert (2 ^ (e + e' + 1074) * UNIT = 2 ^ (e + 1074) * 2 ^ (e' + 1074)) as E.
      { unfold UNIT. rewrite <- !Z.pow_add_r by lia. f_equal. lia. }
      rewrite <- Z.mul_assoc, E. ring. }
    pose proof (scaled_pos m e ltac:(lia)). pose proof (scaled_pos m' e' ltac:(lia)).
    assert (scaled m e = Z.abs a * UNIT) as -> by (destruct s; cbn [cond_Zopp] in Ux; nia). assert (scaled m' e' = Z.abs b * UNIT) as -> by (destruct s'; cbn [cond_Zopp] in Uy; nia).
    rewrite Z.abs_mul. ring. }
  destruct (round_aux_fits (xorb s s') (m * m') (e + e')) as (m2 & e2 & -> & Hb2 & He2 & Es2); [lia|rewrite Es; apply fits_int; nia| |].
  - rewrite fexp_eq. enough (53 <= Zpos (digits2_pos (m * m'))) by lia. pose proof (digits_bounds (m * m')) as Hd.
    destruct (Z.le_gt_cases 53 (Zpos (digits2_pos (m * m')))) as [|Hl]; [done|]. pose proof (Z.pow_le_mono_r 2 (Zpos (digits2_pos (m * m'))) 52 ltac:(lia) ltac:(lia)). nia.
  - split; [done|]. cbn [units]. rewrite Es2, Es. f_equal. pose proof (scaled_pos m e ltac:(lia)). pose proof (scaled_pos m' e' ltac:(lia)).
    assert (0 < cond_Zopp s a) by (destruct s; cbn [cond_Zopp] in *; nia). assert (0 < cond_Zopp s' b) by (destruct s'; cbn [cond_Zopp] in *; nia).
    clear -H1 H2 Hp. destruct s, s'; cbn [cond_Zopp xorb] in *; nia.
Qed.

(** *** Reduction to 32 bits *)

Definition TWO32 : N := of_Z 4294967296.

Lemma rem_euclid_int a z : is_int (decode a) z → is_int (decode (rem_euclid a TWO32)) (z mod 2^32).
Proof.
  intros Ha. pose proof (of_Z_int 4294967296 ltac:(lia)) as Hb. unfold rem_euclid.
  pose proof (rem_int _ _ _ _ Ha Hb ltac:(lia) ltac:(lia)) as Hr. set (r := rem a TWO32). assert (is_int (decode r) (Z.rem z 4294967296)) as Hr'.
  { unfold r, rem. by rewrite decode_encode by apply Hr. }
  assert (ltb r 0%N = (Z.rem z 4294967296 <? 0)) as ->.
  { unfold ltb, SFltb. rewrite (compare_units _ (decode 0%N) _ 0 (proj1 Hr') eq_refl (proj2 Hr') eq_refl).
    pose proof unit_pos. unfold Z.ltb. replace (Z.rem z 4294967296 * UNIT ?= 0) with (Z.rem z 4294967296 ?= 0); [by destruct (_ ?= _)|].
    destruct (Z.compare_spec (Z.rem z 4294967296) 0); symmetry; [apply Z.compare_eq_iff|apply Z.compare_lt_iff|apply Z.compare_gt_iff]; nia. }
  change (2^32) with 4294967296. pose proof (Z.quot_rem' z 4294967296) as Eq. pose proof (Z.rem_bound_abs z 4294967296 ltac:(lia)) as Hrb.
  destruct (Z.ltb_spec (Z.rem z 4294967296) 0) as [Hn|Hn].
  - rewrite <- (Z.mod_unique_pos z 4294967296 (Z.quot z 4294967296 - 1) (Z.rem z 4294967296 + 4294967296)) by lia.
    assert (is_int (SFadd prec emax (decode r) (decode (abs TWO32))) (Z.rem z 4294967296 + 4294967296)) as H by (apply add_int; [done|done|lia]).
    unfold add. by rewrite decode_encode by apply H.
  - by rewrite <- (Z.mod_unique_pos z 4294967296 (Z.quot z 4294967296) (Z.rem z 4294967296)) by lia.
Qed.

Lemma saturate_int lo hi a z : is_int (decode a) z → lo <= z <= hi → saturate lo hi a = z.
Proof.
  intros Ha Hz. pose proof (int_int_part _ _ Ha) as Hp. unfold saturate. destruct (decode a) as [s|s| |s m e]; try (by destruct Ha); rewrite Hp; lia.
Qed.
End F64Facts.
