(* ===== verification/Coercion.v ===== *)
(** * Coercions of primitive values (crates/oxide_runtime_api/src/coercion.rs)

    Conversion of primitive values to numbers, integers, booleans and text, and
    the comparisons of the language on them.  A value here is a primitive one:
    the arms for objects, which call user code, are not modelled.  A string is
    the list of its 16-bit units (how it is stored, flat or as a rope, does not
    show in any of these functions), a BigInt its integer, a double its bits.

    The shortest digits of a double come from the third-party package [ryu];
    its formatter is the parameter [ryu] of the functions that print. *)

From stdpp Require Import base tactics numbers list option strings.
From Stdlib Require Import ZArith Lia SpecFloat.
From S2P Require Import Prelude Value Unicode Float.

Open Scope Z_scope.

Inductive Prim :=
  | PInt (i : Z)
  | PDouble (bits : N)
  | PBool (b : bool)
  | PNull
  | PUndefined
  | PString (units : list N)
  | PBigInt (z : Z)
  | PSymbol (index : N).

#[export] Instance Prim_eq_dec : EqDecision Prim.
Proof. solve_decision. Defined.

Module Coercion.
Import F64.

Definition js_type (v : Prim) : JsType :=
  match v with
  | PInt _ => TInt | PDouble _ => TDouble | PBool _ => TBool | PNull => TNull
  | PUndefined => TUndefined | PString _ => TString | PBigInt _ => TBigInt | PSymbol _ => TSymbol
  end.

(** [JsValue::float]: every NaN becomes the canonical one. *)
Definition float (bits : N) : Prim := PDouble (if is_nan bits then NAN else bits).

Definition is_int (v : Prim) : bool := match v with PInt _ => true | _ => false end.
Definition is_double (v : Prim) : bool := match v with PDouble _ => true | _ => false end.
Definition is_string (v : Prim) : bool := match v with PString _ => true | _ => false end.
Definition is_bigint (v : Prim) : bool := match v with PBigInt _ => true | _ => false end.
Definition is_symbol (v : Prim) : bool := match v with PSymbol _ => true | _ => false end.
Definition is_nullish (v : Prim) : bool := match v with PNull | PUndefined => true | _ => false end.

(** ** Text of numbers *)

Definition ZERO : N := 0.
Definition INFINITY : N := 0x7FF0000000000000.
Definition NEG_INFINITY : N := 0xFFF0000000000000.

(** Characters of a string whose lone surrogates are replaced. *)
Fixpoint lossy (units : list N) : list N :=
  match units with
  | u :: ((v :: units') as rest) =>
      if is_high u && is_low v then pair_value u v :: lossy units'
      else (if is_surrogate u then 0xFFFD%N else u) :: lossy rest
  | [u] => [if is_surrogate u then 0xFFFD%N else u]
  | [] => []
  end.

(** [char::is_whitespace] or the byte-order mark. *)
Definition is_space (c : N) : bool :=
  in_range 9 13 c || bool_decide (c ∈ [0x20; 0x85; 0xA0; 0x1680; 0x2028; 0x2029; 0x202F; 0x205F; 0x3000; 0xFEFF]%N) || in_range 0x2000 0x200A c.

Fixpoint drop_spaces (text : list N) : list N :=
  match text with c :: rest => if is_space c then drop_spaces rest else text | [] => [] end.
Definition trim (text : list N) : list N := reverse (drop_spaces (reverse (drop_spaces text))).

(** [char::to_digit]. *)
Definition to_digit (radix c : N) : option N :=
  match to_digit16 c with Some d => if (d <? radix)%N then Some d else None | None => None end.

Fixpoint radix_loop (radix : N) (text : list N) (v : N) : N :=
  match text with
  | [] => v
  | c :: rest =>
      match to_digit radix c with
      | Some d => radix_loop radix rest (add (mul v (of_Z (Z.of_N radix))) (of_Z (Z.of_N d)))
      | None => NAN
      end
  end.
Definition parse_radix_int (text : list N) (radix : N) : N :=
  match text with [] => NAN | _ => radix_loop radix text ZERO end.

(** [str::parse::<f64>] on digits, signs, points and exponents: the number nearest
    to the decimal, ties to even. *)
Definition is_digit (c : N) : bool := in_range 48 57 c.

Fixpoint take_digits (text : list N) : list N * list N :=
  match text with
  | c :: rest => if is_digit c then let '(ds, rest') := take_digits rest in (c :: ds, rest') else ([], text)
  | [] => ([], [])
  end.

Definition digits_value (ds : list N) : Z := fold_left (λ acc c, acc * 10 + (Z.of_N c - 48)) ds 0.

Definition take_sign (text : list N) : bool * list N :=
  match text with
  | c :: rest => if (c =? 45)%N then (true, rest) else if (c =? 43)%N then (false, rest) else (false, text)
  | [] => (false, [])
  end.

Definition nearest (s : bool) (m e10 : Z) : spec_float :=
  match m with
  | Zpos p =>
      if 0 <=? e10 then binary_normalize prec emax (cond_Zopp s (m * 10 ^ e10)) 0 false
      else match 10 ^ (- e10) with
           | Zpos q => SFdiv prec emax (S754_finite s p 0) (S754_finite false q 0)
           | _ => S754_nan
           end
  | _ => S754_zero s
  end.

Definition parse_exponent (text : list N) : option Z :=
  match text with
  | [] => Some 0
  | c :: rest =>
      if (c =? 101)%N || (c =? 69)%N then
        let '(s, rest) := take_sign rest in
        let '(ds, rest) := take_digits rest in
        match ds, rest with [], _ => None | _, _ :: _ => None | _, [] => Some (cond_Zopp s (digits_value ds)) end
      else None
  end.

Definition parse_f64 (text : list N) : option N :=
  let '(s, rest) := take_sign text in
  let '(whole, rest) := take_digits rest in
  let '(frac, rest) := match rest with c :: r => if (c =? 46)%N then take_digits r else ([], rest) | [] => ([], []) end in
  match whole ++ frac with
  | [] => None
  | ds =>
      match parse_exponent rest with
      | Some e => Some (encode (nearest s (digits_value ds) (e - Z.of_nat (length frac))))
      | None => None
      end
  end.

Definition decimal_char (c : N) : bool :=
  is_digit c || (c =? 43)%N || (c =? 45)%N || (c =? 46)%N || (c =? 101)%N || (c =? 69)%N.

(** [0x], [0o] and [0b]. *)
Definition radix_prefix (text : list N) : option (N * list N) :=
  match text with
  | z :: x :: rest =>
      if (z =? 48)%N then
        if (x =? 120)%N || (x =? 88)%N then Some (16%N, rest)
        else if (x =? 111)%N || (x =? 79)%N then Some (8%N, rest)
        else if (x =? 98)%N || (x =? 66)%N then Some (2%N, rest)
        else None
      else None
  | _ => None
  end.

Definition parse_js_number (text : list N) : N :=
  let t := trim text in
  match t with
  | [] => ZERO
  | _ =>
      match radix_prefix t with
      | Some (radix, rest) => parse_radix_int rest radix
      | None =>
          if bool_decide (t = bytes_of "Infinity") || bool_decide (t = bytes_of "+Infinity") then INFINITY
          else if bool_decide (t = bytes_of "-Infinity") then NEG_INFINITY
          else if negb (forallb decimal_char t) then NAN
          else default NAN (parse_f64 t)
      end
  end.

(** Both ways of the code, the cast and the decimal text, round to nearest. *)
Definition bigint_to_f64 (z : Z) : N := of_Z z.

(** ** Numbers, integers and booleans *)

Definition to_number (v : Prim) : N :=
  match v with
  | PInt i => of_Z i
  | PDouble d => d
  | PBool b => if b then of_Z 1 else ZERO
  | PNull => ZERO
  | PUndefined => NAN
  | PString units => parse_js_number (lossy units)
  | PBigInt z => bigint_to_f64 z
  | PSymbol _ => NAN
  end.

(** The reduction of a number modulo 2^32. *)
Definition number_to_uint32 (n : N) : Z :=
  if eqb n ZERO || negb (is_finite n) then 0
  else as_u32 (rem_euclid (trunc n) (of_Z 4294967296)).

Definition to_uint32 (v : Prim) : Z := number_to_uint32 (to_number v).

(** A [u32] read as an [i32]. *)
Definition sign32 (u : Z) : Z := if 2^31 - 1 <? u then u - 2^32 else u.
Definition to_int32 (v : Prim) : Z := sign32 (to_uint32 v).

Definition to_boolean (v : Prim) : bool :=
  match v with
  | PUndefined | PNull => false
  | PBool b => b
  | PInt i => negb (i =? 0)
  | PDouble d => negb (eqb d ZERO || is_nan d)
  | PString units => match units with [] => false | _ => true end
  | PBigInt z => negb (z =? 0)
  | PSymbol _ => true
  end.

Definition to_integer_or_infinity (v : Prim) : N :=
  let n := to_number v in
  if is_nan n || eqb n ZERO then ZERO else if is_infinite n then n else trunc n.

Definition MAX_SAFE : N := of_Z 9007199254740991.
Definition to_length (v : Prim) : Z :=
  let n := to_number v in
  let len := if is_nan n || leb n ZERO then ZERO else if ltb n MAX_SAFE then n else MAX_SAFE in
  as_u64 (trunc len).

(** ** Comparisons *)

Definition strict_double_eq (a b : N) : bool := if is_nan a || is_nan b then false else eqb a b.

Definition to_f64 (v : Prim) : N := match v with PInt i => of_Z i | PDouble d => d | _ => NAN end.

Definition strict_equality (l r : Prim) : bool :=
  match l, r with
  | PInt a, PInt b => a =? b
  | PDouble a, PDouble b => strict_double_eq a b
  | PInt _, PDouble _ | PDouble _, PInt _ => strict_double_eq (to_f64 l) (to_f64 r)
  | PBool a, PBool b => Bool.eqb a b
  | PNull, PNull | PUndefined, PUndefined => true
  | PString a, PString b => bool_decide (a = b)
  | PSymbol a, PSymbol b => (a =? b)%N
  | PBigInt a, PBigInt b => a =? b
  | _, _ => false
  end.

(** [SameValue] of two doubles. *)
Definition same_double (a b : N) : bool :=
  if is_nan a && is_nan b then true
  else if eqb a ZERO && eqb b ZERO then Bool.eqb (is_sign_negative a) (is_sign_negative b)
  else eqb a b.

Definition same_value (l r : Prim) : bool :=
  match l, r with
  | PDouble a, PDouble b => same_double a b
  | PInt a, PInt b => a =? b
  | PInt _, PDouble _ | PDouble _, PInt _ => same_double (to_f64 l) (to_f64 r)
  | PBool a, PBool b => Bool.eqb a b
  | PNull, PNull | PUndefined, PUndefined => true
  | PString a, PString b => bool_decide (a = b)
  | PSymbol a, PSymbol b => (a =? b)%N
  | PBigInt a, PBigInt b => a =? b
  | _, _ => false
  end.

Definition same_value_zero (l r : Prim) : bool :=
  match l, r with
  | PInt a, PInt b => a =? b
  | PDouble a, PDouble b => if is_nan a && is_nan b then true else eqb a b
  | PInt _, PDouble _ | PDouble _, PInt _ =>
      let a := to_f64 l in let b := to_f64 r in if is_nan a && is_nan b then true else eqb a b
  | _, _ => same_value l r
  end.

Definition number_or_string (v : Prim) : bool := match v with PInt _ | PDouble _ | PString _ => true | _ => false end.

(** One level of [==]: [again] is the call on an operand that was a Boolean. *)
Definition eq_step (again : Prim → Prim → bool) (l r : Prim) : bool :=
  if bool_decide (js_type l = js_type r) then strict_equality l r
  else
    match l, r with
    | PNull, PUndefined | PUndefined, PNull => true
    | PInt _, PDouble _ | PDouble _, PInt _ => strict_equality l r
    | PBigInt z, (PInt _ | PDouble _) => eqb (bigint_to_f64 z) (to_number r)
    | (PInt _ | PDouble _), PBigInt z => eqb (to_number l) (bigint_to_f64 z)
    | PBigInt z, PString units => eqb (bigint_to_f64 z) (parse_js_number (lossy units))
    | PString units, PBigInt z => eqb (parse_js_number (lossy units)) (bigint_to_f64 z)
    | (PInt _ | PDouble _), PString _ | PString _, (PInt _ | PDouble _) => strict_double_eq (to_number l) (to_number r)
    | PBool b, _ => again (PInt (Z.b2z b)) r
    | _, PBool b => again l (PInt (Z.b2z b))
    | _, _ => false
    end.

(** Each call turns one Boolean into an integer, so two calls from within are the
    most there can be. *)
Definition abstract_eq_primitives : Prim → Prim → bool := eq_step (eq_step (eq_step (λ _ _, false))).

(** [a < b] of slices. *)
Fixpoint units_lt (a b : list N) : bool :=
  match a, b with
  | _, [] => false
  | [], _ :: _ => true
  | x :: a, y :: b => if (x <? y)%N then true else if (y <? x)%N then false else units_lt a b
  end.

(** [to_i128], clamped. *)
Definition clamp_i128 (z : Z) : Z := if (- 2^127 <=? z) && (z <=? 2^127 - 1) then z else if z <? 0 then - 2^127 else 2^127 - 1.
Definition I128_MAX_F64 : N := of_Z (2^127 - 1).

Definition number_cmp_bigint (num : Prim) (big : Z) : comparison :=
  match num with
  | PInt i => Z.compare i (clamp_i128 big)
  | _ =>
      let d := to_f64 num in
      if is_nan d then Gt
      else if is_infinite d then if is_sign_negative d then Lt else Gt
      else
        let truncated := trunc d in
        if negb (eqb truncated d) || ltb I128_MAX_F64 (abs truncated) then default Eq (partial_cmp d (bigint_to_f64 big))
        else Z.compare (as_i128 truncated) (clamp_i128 big)
  end.
Definition bigint_cmp_number (big : Z) (num : Prim) : comparison := CompOpp (number_cmp_bigint num big).

Definition is_less (c : comparison) : bool := match c with Lt => true | _ => false end.

Definition numbers_less (l r : N) : option bool := if is_nan l || is_nan r then None else option_map is_less (partial_cmp l r).

Definition relational_compare (l r : Prim) : option bool :=
  match l, r with
  | PString a, PString b => Some (units_lt a b)
  | PBigInt a, PBigInt b => Some (a <? b)
  | PBigInt a, PDouble d => if is_nan d then None else Some (is_less (bigint_cmp_number a r))
  | PBigInt a, PInt _ => Some (is_less (bigint_cmp_number a r))
  | PDouble d, PBigInt b => if is_nan d then None else Some (is_less (number_cmp_bigint l b))
  | PInt _, PBigInt b => Some (is_less (number_cmp_bigint l b))
  | _, _ => numbers_less (to_number l) (to_number r)
  end.

(** ** Text *)

(** The decimal digits of a natural number. *)
Fixpoint digits_loop (fuel : nat) (n : N) (acc : list N) : list N :=
  match fuel with
  | O => acc
  | S fuel =>
      let acc := (48 + n mod 10)%N :: acc in
      if (n <? 10)%N then acc else digits_loop fuel (n / 10)%N acc
  end.
Definition decimal (n : N) : list N := digits_loop (S (N.to_nat (N.log2 n))) n [].
Definition decimal_Z (z : Z) : list N := if z <? 0 then 45%N :: decimal (Z.to_N (- z)) else decimal (Z.to_N z).

Definition position (c : N) (text : list N) : option nat := fst <$> list_find (λ x, x = c) text.

(** The digits and the exponent of a number in scientific form, laid out as the
    language wants them. *)
Definition layout (digits : list N) (n : Z) : list N :=
  let k := Z.of_nat (length digits) in
  if (-6 <? n) && (n <=? 21) then
    if n <=? 0 then bytes_of "0." ++ replicate (Z.to_nat (- n)) 48%N ++ digits
    else if k <=? n then digits ++ replicate (Z.to_nat (n - k)) 48%N
    else take (Z.to_nat n) digits ++ 46%N :: drop (Z.to_nat n) digits
  else
    take 1 digits ++ (if 1 <? k then 46%N :: drop 1 digits else []) ++ 101%N ::
      (if 1 <? n then [43%N] else []) ++ decimal_Z (n - 1).

Section text.
Context (ryu : N → list N).

Definition write_number_into (d : N) : list N :=
  if is_nan d then bytes_of "NaN"
  else if is_infinite d then if is_sign_negative d then bytes_of "-Infinity" else bytes_of "Infinity"
  else if eqb d ZERO then [48%N]
  else
    let a := abs d in
    (if is_sign_negative d then [45%N] else []) ++
    if eqb (sub a (trunc a)) ZERO && ltb a (of_Z 9007199254740992) then decimal_Z (saturate (- 2^63) (2^63 - 1) a)
    else
      let s := ryu a in
      match position 101 s with
      | Some e_pos =>
          let digits := filter (λ b, b ≠ 46%N) (take e_pos s) in
          let '(neg, ds) := take_sign (drop (S e_pos) s) in
          layout digits (cond_Zopp neg (digits_value ds) + 1)
      | None => if bool_decide (drop (length s - 2) s = bytes_of ".0") && bool_decide (2 <= length s)%nat then take (length s - 2) s else s
      end.

Definition js_number_to_string (d : N) : list N := write_number_into d.

Definition to_string (v : Prim) : list N :=
  match v with
  | PInt i => decimal_Z i
  | PDouble d => js_number_to_string d
  | PBool b => if b then bytes_of "true" else bytes_of "false"
  | PNull => bytes_of "null"
  | PUndefined => bytes_of "undefined"
  | PString units => lossy units
  | PBigInt z => decimal_Z z
  | PSymbol _ => []
  end.

Definition push_units_to (v : Prim) (buf : list N) : list N :=
  match v with PString units => buf ++ units | _ => buf ++ utf16 (to_string v) end.
End text.
End Coercion.

(** ** Facts *)

Module CoercionFacts.
Import F64 F64Facts Coercion.

(** *** Reduction to 32 bits *)

Lemma uint32_exact n : number_to_uint32 n = match int_part (decode n) with Some z => z mod 2^32 | None => 0 end.
Proof.
  unfold number_to_uint32, eqb, is_finite, ZERO. change (decode 0) with (S754_zero false).
  pose proof (decode_valid n) as Hv. destruct (int_part (decode n)) as [z|] eqn:Ep.
  - pose proof (trunc_int _ z Hv Ep) as Ht. assert (F64Facts.is_int (decode (trunc n)) z) as Ht' by (unfold trunc; by rewrite decode_encode by apply Ht).
    pose proof (rem_euclid_int _ z Ht') as Hr. fold TWO32. pose proof (Z.mod_pos_bound z (2^32) ltac:(lia)).
    assert (as_u32 (rem_euclid (trunc n) TWO32) = z mod 2^32) as E by (apply saturate_int; [done|lia]). rewrite E.
    destruct (decode n) as [s|s| |s m e]; try done; cbn [int_part] in Ep.
    + injection Ep as <-. rewrite Z.mod_0_l by lia. by destruct (_ || _).
    + by destruct s.
  - destruct (decode n) as [s|s| |s m e]; [done|by destruct s|done|done].
Qed.

Lemma sign32_range u : 0 <= u < 2^32 → - 2^31 <= sign32 u < 2^31 ∧ sign32 u mod 2^32 = u.
Proof.
  intros Hu. unfold sign32. destruct (Z.ltb_spec (2^31 - 1) u) as [H|H]; split; try lia.
  - symmetry. apply (Z.mod_unique_pos _ _ (-1)); lia.
  - apply Z.mod_small. lia.
Qed.

Lemma uint32_range v : 0 <= to_uint32 v < 2^32.
Proof. unfold to_uint32. rewrite uint32_exact. destruct (int_part _) as [z|]; [apply Z.mod_pos_bound|]; lia. Qed.

Lemma int_uint32 i : Z.abs i < 2^53 → to_uint32 (PInt i) = i mod 2^32.
Proof. intros Hi. unfold to_uint32. rewrite uint32_exact. cbn [to_number]. by rewrite (int_int_part _ i (of_Z_int i Hi)). Qed.

Lemma int_int32 i : - 2^31 <= i < 2^31 → to_int32 (PInt i) = i.
Proof.
  intros Hi. unfold to_int32. rewrite int_uint32 by lia. unfold sign32. destruct (Z.ltb_spec (2^31 - 1) (i mod 2^32)) as [H|H].
  - destruct (Z.le_gt_cases 0 i); [rewrite Z.mod_small in * by lia; lia|]. rewrite <- (Z.mod_unique_pos i (2^32) (-1) (i + 2^32)) in * by lia. lia.
  - destruct (Z.le_gt_cases 0 i); [by rewrite Z.mod_small in * by lia|]. rewrite <- (Z.mod_unique_pos i (2^32) (-1) (i + 2^32)) in * by lia. lia.
Qed.

(** *** Comparison of numbers *)

(** The exact value of a number, in units of 2^-1074. *)
Definition value (v : Prim) : option Z :=
  match v with PInt i => Some (i * UNIT) | PDouble d => units (decode d) | _ => None end.

(** A value as the machine holds it. *)
Definition wf (v : Prim) : Prop :=
  match v with PInt i => - 2^31 <= i < 2^31 | PDouble d => (d < 2^64)%N ∧ (is_nan d = true → d = NAN) | _ => True end.

Lemma number_value v x : wf v → value v = Some x → units (decode (to_f64 v)) = Some x ∧ to_number v = to_f64 v ∧ is_nan (to_f64 v) = false.
Proof.
  destruct v as [i|d| | | | | |]; cbn [value wf to_f64 to_number]; intros Hw Hx; try discriminate Hx.
  - destruct (of_Z_int i ltac:(lia)) as [_ Hu]. rewrite Hu. split_and!; [done|done|]. unfold is_nan. destruct (decode (of_Z i)); (done || discriminate Hu).
  - unfold is_nan. destruct (decode d); (done || discriminate Hx).
Qed.

Lemma units_eqb a b x y : units (decode a) = Some x → units (decode b) = Some y → eqb a b = (x =? y).
Proof.
  intros Ha Hb. unfold eqb, SFeqb. rewrite (compare_units _ _ x y (decode_valid a) (decode_valid b) Ha Hb).
  destruct (Z.compare_spec x y), (Z.eqb_spec x y); (done || lia).
Qed.

Lemma units_less a b x y : units (decode a) = Some x → units (decode b) = Some y → is_nan a = false → is_nan b = false →
  numbers_less a b = Some (x <? y).
Proof.
  intros Ha Hb Na Nb. unfold numbers_less, partial_cmp. rewrite Na, Nb. cbn [orb]. rewrite (compare_units _ _ x y (decode_valid a) (decode_valid b) Ha Hb).
  cbn [option_map]. f_equal.
Qed.

Lemma is_number v x : value v = Some x → (∃ i, v = PInt i) ∨ ∃ d, v = PDouble d.
Proof. destruct v; intros Hx; try discriminate Hx; eauto. Qed.

Lemma numbers_exact l r x y : wf l → wf r → value l = Some x → value r = Some y →
  strict_equality l r = (x =? y) ∧ abstract_eq_primitives l r = (x =? y) ∧ relational_compare l r = Some (x <? y).
Proof.
  intros Hl Hr Hx Hy. destruct (number_value l x Hl Hx) as (Ul & El & Nl), (number_value r y Hr Hy) as (Ur & Er & Nr).
  assert (strict_equality l r = (x =? y)) as Hs.
  { pose proof (units_eqb _ _ x y Ul Ur) as He. destruct (is_number l x Hx) as [[i ->]|[d ->]], (is_number r y Hy) as [[j ->]|[d' ->]]; cbn [strict_equality to_f64] in *;
      unfold strict_double_eq; rewrite ?Nl, ?Nr; try done. cbn [value] in Hx, Hy. apply (inj Some) in Hx as <-. apply (inj Some) in Hy as <-. pose proof unit_pos.
    destruct (Z.eqb_spec i j) as [->|Hij]; [by rewrite Z.eqb_refl|]. symmetry. apply Z.eqb_neq. intros E%Z.mul_cancel_r; lia. }
  split; [done|]. split.
  - rewrite <- Hs. unfold abstract_eq_primitives, eq_step at 1. destruct (is_number l x Hx) as [[i ->]|[d ->]], (is_number r y Hy) as [[j ->]|[d' ->]]; done.
  - rewrite <- (units_less _ _ x y Ul Ur Nl Nr), <- El, <- Er. destruct (is_number l x Hx) as [[i ->]|[d ->]], (is_number r y Hy) as [[j ->]|[d' ->]]; done.
Qed.

Lemma nan_incomparable d v : is_nan d = true → (∃ x, value v = Some x) ∨ v = PDouble d →
  strict_equality (PDouble d) v = false ∧ abstract_eq_primitives (PDouble d) v = false ∧ relational_compare (PDouble d) v = None ∧ relational_compare v (PDouble d) = None.
Proof.
  intros Hd Hv. assert ((∃ i, v = PInt i) ∨ ∃ d', v = PDouble d') as [[i ->]|[d' ->]].
  { destruct Hv as [[x Hx]| ->]; [by apply (is_number v x)|eauto]. }
  all: match goal with |- _ ∧ abstract_eq_primitives ?a ?b = _ ∧ _ => change (abstract_eq_primitives a b) with (strict_equality a b) end;
    cbn [strict_equality relational_compare to_f64 to_number]; unfold strict_double_eq, numbers_less; rewrite Hd, ?orb_true_r; done.
Qed.

(** [==] is defined by its own recursion. *)
Lemma abstract_eq_unfold l r : abstract_eq_primitives l r = eq_step abstract_eq_primitives l r.
Proof. destruct l, r; done. Qed.

(** *** Decimal text *)

Lemma digits_value_app ds c : digits_value (ds ++ [c]) = digits_value ds * 10 + (Z.of_N c - 48).
Proof. unfold digits_value. by rewrite fold_left_app. Qed.

Lemma fold_digits ds : ∀ acc, fold_left (λ acc c, acc * 10 + (Z.of_N c - 48)) ds acc = acc * 10 ^ Z.of_nat (length ds) + digits_value ds.
Proof.
  unfold digits_value. induction ds as [|c ds IH]; intros acc; cbn [fold_left length]; [change (10 ^ Z.of_nat 0) with 1; lia|].
  rewrite IH, (IH (0 * 10 + _)), Nat2Z.inj_succ, Z.pow_succ_r by lia. ring.
Qed.

Lemma digits_loop_ok fuel : ∀ n acc, (N.to_nat (N.log2 n) < fuel)%nat →
  ∃ ds, digits_loop fuel n acc = ds ++ acc ∧ digits_value ds = Z.of_N n ∧ Forall (λ c, is_digit c = true) ds ∧ ds ≠ [] ∧
    (∀ ds', ds = 48%N :: ds' → n = 0%N ∧ ds' = []).
Proof.
  induction fuel as [|fuel IH]; intros n acc Hf; [lia|]. cbn [digits_loop].
  assert (n mod 10 < 10)%N as Hm by (apply N.mod_lt; done).
  assert (is_digit (48 + n mod 10) = true) as Hd by (apply in_range_true; clear -Hm; generalize dependent (n mod 10)%N; lia).
  destruct (N.ltb_spec n 10) as [Hn|Hn].
  - exists [(48 + n mod 10)%N]. rewrite N.mod_small in * by done. split_and!; [done|unfold digits_value; cbn [fold_left]; lia|by constructor|done|]. intros ds' [= E <-]. split; [lia|done].
  - destruct (IH (n / 10)%N ((48 + n mod 10)%N :: acc)) as (ds & -> & Ev & Hds & Hne & Hz).
    { enough (N.log2 (n / 10) < N.log2 n)%N by lia. apply N.log2_lt_pow2; [apply N.div_str_pos; lia|]. pose proof (N.log2_spec n ltac:(lia)) as [_ Hl].
      rewrite N.pow_succ_r' in Hl. apply N.Div0.div_lt_upper_bound. lia. }
    exists (ds ++ [(48 + n mod 10)%N]). split_and!; [by rewrite <- app_assoc| |by apply Forall_app_2; [|constructor]|by destruct ds|].
    + rewrite digits_value_app, Ev, N2Z.inj_div, N2Z.inj_add, N2Z.inj_mod. pose proof (Z.div_mod (Z.of_N n) 10). lia.
    + destruct ds as [|c ds]; [done|]. intros ds' [= -> <-]. destruct (Hz ds eq_refl) as [E _]. exfalso. apply N.div_small_iff in E; lia.
Qed.

Lemma decimal_ok n : digits_value (decimal n) = Z.of_N n ∧ Forall (λ c, is_digit c = true) (decimal n) ∧ decimal n ≠ [] ∧
  (∀ ds', decimal n = 48%N :: ds' → n = 0%N ∧ ds' = []).
Proof. unfold decimal. destruct (digits_loop_ok (S (N.to_nat (N.log2 n))) n [] ltac:(lia)) as (ds & -> & H). by rewrite app_nil_r. Qed.

Lemma digit_not c x : is_digit c = true → (x < 48 ∨ 57 < x)%N → c ≠ x.
Proof. intros H%in_range_true Hx ->. lia. Qed.

Lemma digit_not_space c : is_digit c = true → is_space c = false.
Proof.
  intros H%in_range_true. unfold is_space. rewrite !orb_false_iff, !in_range_false, bool_decide_eq_false, !not_elem_of_cons. split_and!; try lia. by apply not_elem_of_nil.
Qed.

Lemma trim_id text : Forall (λ c, is_space c = false) text → trim text = text.
Proof.
  assert (∀ t, Forall (λ c, is_space c = false) t → drop_spaces t = t) as H by (intros [|c t]; [done|]; intros [Hc _]%Forall_cons; cbn; by rewrite Hc).
  intros Ht. unfold trim. rewrite (H text Ht), (H (reverse text)), reverse_involutive; [done|]. by apply Forall_reverse.
Qed.

Lemma take_digits_app ds rest : Forall (λ c, is_digit c = true) ds → (∀ c t, rest = c :: t → is_digit c = false) → take_digits (ds ++ rest) = (ds, rest).
Proof.
  intros Hds Hr. induction Hds as [|c ds Hc _ IH]; cbn [app take_digits]; [|by rewrite Hc, IH]. destruct rest as [|c t]; [done|]. cbn. by rewrite (Hr c t eq_refl).
Qed.

Lemma take_digits_all ds : Forall (λ c, is_digit c = true) ds → take_digits ds = (ds, []).
Proof. intros H. by rewrite <- (app_nil_r ds) at 1; apply take_digits_app. Qed.

(** Digits, with a minus sign or not, are the number they spell. *)
Lemma parse_digits (s : bool) ds : Forall (λ c, is_digit c = true) ds → ds ≠ [] →
  parse_f64 ((if s then [45%N] else []) ++ ds) = Some (encode (nearest s (digits_value ds) 0)).
Proof.
  intros Hds Hne. unfold parse_f64. assert (take_sign ((if s then [45%N] else []) ++ ds) = (s, ds)) as ->.
  { destruct s; [done|]. destruct ds as [|c ds]; [done|]. apply Forall_cons in Hds as [Hc _]. cbn.
    rewrite (proj2 (N.eqb_neq c 45)), (proj2 (N.eqb_neq c 43)) by (apply digit_not; [done|lia]). done. }
  rewrite (take_digits_all ds Hds), app_nil_r. destruct ds as [|c ds]; [done|]. done.
Qed.

Lemma nearest_int (s : bool) m : 0 <= m → (s = true → 0 < m) → encode (nearest s m 0) = of_Z (cond_Zopp s m).
Proof.
  intros Hm Hs. unfold of_Z, nearest. destruct m as [|p|p]; [destruct s; [specialize (Hs eq_refl); lia|done]| |lia]. change (10 ^ 0) with 1. by rewrite Z.mul_1_r.
Qed.

Lemma decimal_char_digit c : is_digit c = true → decimal_char c = true.
Proof. intros H. unfold decimal_char. by rewrite H. Qed.

Lemma parse_decimal_Z z : parse_js_number (decimal_Z z) = of_Z z.
Proof.
  set (s := z <? 0). set (n := Z.to_N (Z.abs z)). destruct (decimal_ok n) as (Ev & Hd & Hne & Hz).
  assert (decimal_Z z = (if s then [45%N] else []) ++ decimal n) as ->.
  { unfold decimal_Z, s, n. destruct (Z.ltb_spec z 0); [rewrite Z.abs_neq by lia|rewrite Z.abs_eq by lia]; done. }
  set (t := (if s then [45%N] else []) ++ decimal n).
  assert (Forall (λ c, is_space c = false) t) as Hsp.
  { unfold t. apply Forall_app_2; [destruct s; by repeat constructor|]. eapply Forall_impl; [exact Hd|]. apply digit_not_space. }
  unfold parse_js_number. rewrite (trim_id t Hsp). destruct (decimal n) as [|c ds] eqn:Ed; [done|]. apply Forall_cons in Hd as Hcd. destruct Hcd as [Hc Hds].
  assert (radix_prefix t = None) as ->.
  { unfold t. destruct s; [done|]. cbn [app radix_prefix]. destruct ds as [|x ds]; [done|]. destruct (N.eqb_spec c 48) as [->|]; [|done]. by destruct (Hz _ eq_refl). }
  assert (bool_decide (t = bytes_of "Infinity") || bool_decide (t = bytes_of "+Infinity") = false ∧ bool_decide (t = bytes_of "-Infinity") = false) as [-> ->].
  { rewrite orb_false_iff, !bool_decide_eq_false. unfold t. destruct s; split_and!; intros E; try discriminate E; injection E as -> _; done. }
  assert (forallb decimal_char t = true) as ->.
  { apply forallb_forall. intros x Hx%list_elem_of_In. unfold t in Hx. apply elem_of_app in Hx as [Hx|Hx]; [destruct s; [|by apply not_elem_of_nil in Hx]; by apply list_elem_of_singleton in Hx as ->|].
    apply decimal_char_digit. rewrite Forall_forall in Hd. by apply Hd. }
  cbn [negb]. assert (t ≠ []) as Ht by (unfold t; by destruct s). assert (parse_f64 t = _) as -> by (by apply parse_digits).
  cbn [default]. destruct t as [|c0 t0]; [done|]. rewrite Ev. unfold n. rewrite Z2N.id by lia.
  rewrite nearest_int; [unfold id; f_equal; unfold s; destruct (Z.ltb_spec z 0); cbn [cond_Zopp]; lia|lia|]. unfold s. destruct (Z.ltb_spec z 0); [lia|done].
Qed.

(** *** Numbers with the same value *)

Lemma same_units x y u : valid_binary prec emax x = true → valid_binary prec emax y = true → units x = Some u → units y = Some u → u ≠ 0 → x = y.
Proof.
  intros Hx Hy Ux Uy Hu. pose proof (compare_units x y u u Hx Hy Ux Uy) as Hc. rewrite Z.compare_refl in Hc.
  destruct x as [s|s| |s m e], y as [s'|s'| |s' m' e']; cbn [units SFcompare valid_binary] in *; try discriminate; simplify_eq.
  destruct s, s'; try discriminate Hc; destruct (Z.compare_spec e e') as [->| |]; try discriminate Hc; f_equal.
  - change (CompOpp (Pos.compare m m') = Eq) in Hc. destruct (Pos.compare_spec m m'); (done || discriminate Hc).
  - by apply Pos.compare_eq in Hc.
Qed.

Lemma of_Z_unique d z : (d < 2^64)%N → F64Facts.is_int (decode d) z → z ≠ 0 → Z.abs z < 2^53 → of_Z z = d.
Proof.
  intros Hd [Hv Hu] Hz Hb. destruct (of_Z_int z Hb) as [Hv' Hu']. pose proof unit_pos.
  assert (binary_normalize prec emax z 0 false = decode d) as E.
  { destruct (normalize_int z 0 false z) as [Hv2 Hu2]; [lia|done|done|]. apply (same_units _ _ (z * UNIT)); [done..|]. by apply Z.neq_mul_0; lia. }
  unfold of_Z. rewrite E. apply encode_decode; [done|]. unfold is_nan. destruct (decode d); (done || discriminate Hu).
Qed.

Lemma decode_abs d : decode (abs d) = SFabs (decode d).
Proof.
  unfold decode, abs. rewrite N.land_spec. assert (N.testbit (2^63 - 1) 63 = false) as -> by (by vm_compute). rewrite andb_false_r.
  rewrite N.shiftr_land, <- !N.land_assoc. assert (N.land (N.shiftr (2^63 - 1) 52) 0x7FF = 0x7FF ∧ N.land (2^63 - 1) 0xFFFFFFFFFFFFF = 0xFFFFFFFFFFFFF)%N as [-> ->] by (by vm_compute).
  set (e := Z.of_N (N.land (N.shiftr d 52) 0x7FF)). set (m := Z.of_N (N.land d 0xFFFFFFFFFFFFF)).
  destruct (e =? 0); [by destruct m|]. destruct (e =? 2047); [by destruct (m =? 0)|]. by destruct (m + 2^52).
Qed.

Lemma sign_of_int d z : F64Facts.is_int (decode d) z → z ≠ 0 → is_sign_negative d = (z <? 0).
Proof.
  intros Hi Hz. unfold is_sign_negative. destruct (decode d) as [s|s| |s m e] eqn:Ed; try (by destruct Hi).
  - destruct Hi as [_ Hu]. cbn [units] in Hu. apply (inj Some), int_zero in Hu. done.
  - assert (N.testbit d 63 = s) as ->.
    { revert Ed. clear. unfold decode. generalize (Z.of_N (N.land (N.shiftr d 52) 0x7FF)) as x, (Z.of_N (N.land d 0xFFFFFFFFFFFFF)) as y, (N.testbit d 63) as b. intros x y b.
      destruct (x =? 0); [by destruct y; intros [= -> _ _]|]. destruct (x =? 2047); [by destruct (y =? 0)|]. by destruct (y + 2^52); intros [= -> _ _]. }
    destruct Hi as [Hv Hu]. cbn [units] in Hu. apply (inj Some) in Hu. apply bounded_low in Hv. pose proof (scaled_pos m e Hv). pose proof unit_pos.
    symmetry. destruct s; cbn [cond_Zopp] in Hu; [apply Z.ltb_lt|apply Z.ltb_ge]; nia.
Qed.

Lemma abs_int d z : F64Facts.is_int (decode d) z → F64Facts.is_int (decode (abs d)) (Z.abs z).
Proof.
  intros [Hv Hu]. rewrite decode_abs. destruct (decode d) as [s|s| |s m e]; try discriminate Hu; cbn [SFabs units] in *; apply (inj Some) in Hu.
  - apply int_zero in Hu as ->. by split.
  - split; [done|]. cbn [units cond_Zopp]. f_equal. apply bounded_low in Hv. pose proof (scaled_pos m e Hv). pose proof unit_pos. destruct s; cbn [cond_Zopp] in Hu; nia.
Qed.

(** An integer double is printed as its integer. *)
Lemma print_int ryu d z : F64Facts.is_int (decode d) z → z ≠ 0 → Z.abs z < 2^53 → write_number_into ryu d = decimal_Z z.
Proof.
  intros Hi Hz Hb. pose proof (abs_int d z Hi) as Ha. pose proof unit_pos as Hp. unfold write_number_into.
  assert (is_nan d = false ∧ is_infinite d = false ∧ eqb d ZERO = false) as (-> & -> & ->).
  { unfold is_nan, is_infinite. pose proof Hi as [_ Hu]. rewrite (units_eqb d ZERO (z * UNIT) 0 Hu eq_refl). rewrite (proj2 (Z.eqb_neq _ 0)) by (apply Z.neq_mul_0; lia).
    destruct (decode d); (done || discriminate Hu). }
  rewrite (sign_of_int d z Hi Hz).
  assert (eqb (sub (abs d) (trunc (abs d))) ZERO = true) as ->.
  { pose proof (trunc_int _ (Z.abs z) (proj1 Ha) (int_int_part _ _ Ha)) as Ht. assert (F64Facts.is_int (SFsub prec emax (decode (abs d)) (decode (trunc (abs d)))) (Z.abs z - Z.abs z)) as Hs.
    { apply sub_int; [done| |lia]. unfold trunc. by rewrite decode_encode by apply Ht. }
    rewrite Z.sub_diag in Hs. rewrite (units_eqb _ ZERO 0 0); [done| |done]. unfold sub. rewrite decode_encode by apply Hs. apply Hs. }
  assert (ltb (abs d) (of_Z 9007199254740992) = true) as ->.
  { unfold ltb, SFltb. rewrite (compare_units _ (decode (of_Z 9007199254740992)) (Z.abs z * UNIT) (2^53 * UNIT) (proj1 Ha) eq_refl (proj2 Ha) eq_refl).
    rewrite (proj2 (Z.compare_lt_iff _ _)); [done|]. by apply Z.mul_lt_mono_pos_r. }
  cbn [andb]. rewrite (saturate_int _ _ _ (Z.abs z)) by (done || lia). unfold decimal_Z. rewrite (proj2 (Z.ltb_ge (Z.abs z) 0)) by lia.
  destruct (Z.ltb_spec z 0); [rewrite Z.abs_neq by lia|rewrite Z.abs_eq by lia]; done.
Qed.

Lemma lossy_ascii t : Forall (λ c, (c < 128)%N) t → lossy t = t.
Proof.
  induction t as [|c t IH]; [done|]. intros [Hc Ht]%Forall_cons. assert (is_surrogate c = false ∧ is_high c = false) as [Hs Hh] by (unfold is_surrogate, is_high; rewrite !in_range_false; lia).
  cbn [lossy]. destruct t as [|x t]; rewrite ?Hh, Hs; [done|]. cbn [andb]. f_equal. by apply IH.
Qed.

Lemma decimal_ascii z : Forall (λ c, (c < 128)%N) (decimal_Z z).
Proof.
  assert (∀ n, Forall (λ c, (c < 128)%N) (decimal n)) as H by (intros n; destruct (decimal_ok n) as (_ & Hd & _); eapply Forall_impl; [exact Hd|]; intros c Hc%in_range_true; lia).
  unfold decimal_Z. destruct (z <? 0); [constructor; [lia|]|]; apply H.
Qed.

Lemma utf16_ascii t : Forall (λ c, (c < 128)%N) t → utf16 t = t.
Proof.
  induction t as [|c t IH]; [done|]. intros [Hc Ht]%Forall_cons. unfold utf16 in *. cbn [mbind list_bind]. rewrite (proj2 (N.ltb_ge 0xFFFF c)) by lia. cbn [app]. by rewrite (IH Ht).
Qed.
End CoercionFacts.

(** ** Theorems *)

Import Coercion.

(** C21: [ToUint32] and [ToInt32].  For every primitive value, the two reductions
    made with floating point are the exact ones: the integer part of the number
    modulo 2^32, 0 for NaN and the infinities, read as unsigned or as signed; an
    integer of the machine is its own signed reduction. *)
Theorem to_int32_exact v :
  to_uint32 v = match F64.int_part (F64.decode (to_number v)) with Some z => z mod 2^32 | None => 0 end ∧
  0 <= to_uint32 v < 2^32 ∧ - 2^31 <= to_int32 v < 2^31 ∧ to_int32 v mod 2^32 = to_uint32 v ∧
  (∀ i, - 2^31 <= i < 2^31 → to_int32 (PInt i) = i).
Proof.
  pose proof (CoercionFacts.uint32_range v) as Hu. destruct (CoercionFacts.sign32_range _ Hu) as [Hr Hm].
  split; [apply CoercionFacts.uint32_exact|]. split; [exact Hu|]. split; [exact Hr|]. split; [exact Hm|]. apply CoercionFacts.int_int32.
Qed.

Lemma to_int32_exact_witness : to_int32 (PInt (-5)) = -5 ∧ to_uint32 (PString (bytes_of " -1e10 ")) = 2884901888.
Proof.
  destruct (to_int32_exact PNull) as (_ & _ & _ & _ & H). destruct (to_int32_exact (PString (bytes_of " -1e10 "))) as (E & _).
  split; [apply H; lia|]. rewrite E. by vm_compute.
Defined.

(** Comparison of numbers.  On numbers, held as integers or as doubles in any
    mix, [===], [==] and [<] compare the exact values, so that [42] and [42.0],
    or the two zeros, are equal. *)
Theorem comparisons_exact l r x y : CoercionFacts.wf l → CoercionFacts.wf r → CoercionFacts.value l = Some x → CoercionFacts.value r = Some y →
  strict_equality l r = (x =? y) ∧ abstract_eq_primitives l r = (x =? y) ∧ relational_compare l r = Some (x <? y).
Proof. apply CoercionFacts.numbers_exact. Qed.

Lemma comparisons_exact_witness :
  strict_equality (PInt 42) (PDouble 0x4045000000000000) = true ∧ relational_compare (PInt 0) (PDouble 0x8000000000000000) = Some false.
Proof.
  destruct (comparisons_exact (PInt 42) (PDouble 0x4045000000000000) (42 * F64Facts.UNIT) (42 * F64Facts.UNIT)) as (-> & _ & _);
    [by vm_compute|by vm_compute|done|by vm_compute|].
  destruct (comparisons_exact (PInt 0) (PDouble 0x8000000000000000) 0 0) as (_ & _ & ->); [by vm_compute|by vm_compute|done|done|].
  split; [apply Z.eqb_refl|done].
Defined.

(** Numbers through text.  The text of an integer, of a BigInt and of a double
    that is an integer below 2^53 is its decimal digits, and converting the text
    back gives the number again (the nearest double for a BigInt), whatever
    formatter prints the other doubles. *)
Theorem number_text_roundtrip ryu :
  (∀ z, to_number (PString (utf16 (to_string ryu (PInt z)))) = F64.of_Z z ∧ to_number (PString (utf16 (to_string ryu (PBigInt z)))) = bigint_to_f64 z) ∧
  ∀ d z, (d < 2^64)%N ∧ F64Facts.is_int (F64.decode d) z ∧ z ≠ 0 ∧ Z.abs z < 2^53 ∨ d = F64.of_Z 0 ∧ z = 0 →
    to_string ryu (PDouble d) = decimal_Z z ∧ to_number (PString (utf16 (to_string ryu (PDouble d)))) = d.
Proof.
  assert (∀ z, to_number (PString (utf16 (decimal_Z z))) = F64.of_Z z) as H.
  { intros z. pose proof (CoercionFacts.decimal_ascii z) as Ha. cbn [to_number]. by rewrite CoercionFacts.utf16_ascii, CoercionFacts.lossy_ascii, CoercionFacts.parse_decimal_Z by done. }
  split; [intros z; split; apply H|]. intros d z [(Hd & Hi & Hz & Hb)|[-> ->]]; [|split; [by vm_compute|apply (H 0)]].
  cbn [to_string]. unfold js_number_to_string. rewrite (CoercionFacts.print_int ryu d z Hi Hz Hb). split; [done|]. rewrite H. by apply CoercionFacts.of_Z_unique.
Qed.

Lemma number_text_roundtrip_witness (ryu := λ _ : N, @nil N) :
  to_string ryu (PDouble (F64.of_Z (-1234567890123))) = decimal_Z (-1234567890123) ∧
  to_number (PString (utf16 (to_string ryu (PBigInt (2^70 + 1))))) = F64.of_Z (2^70).
Proof.
  destruct (number_text_roundtrip ryu) as [H1 H2]. split.
  - apply H2. left. split_and!; [by vm_compute|apply F64Facts.of_Z_int; lia|lia|lia].
  - rewrite (proj2 (H1 _)). by vm_compute.
Defined.
