(* ===== verification/Arith.v ===== *)
(** * Operator instructions on primitive operands
    (crates/oxide_vm/src/dispatch/{arithmetic,bitwise,comparison,control_flow,misc}.rs,
    vm/dispatch_loop.rs, vm/error.rs)

    The handlers of the arithmetic, bitwise, relational and logical instructions
    of the virtual machine, for operands that are not objects ([ToPrimitive]
    returns those unchanged; on an object it calls user code).

    A handler leaves an [outcome]: the exceptions it raises, in order, and the
    value it writes to its result register.  Raising unwinds at once to the
    innermost handler of the program; when there is one, the code goes on after
    the call that raised, so an outcome can hold both an exception and a write,
    or two exceptions.

    [f64::powf] of the platform and the formatter of doubles are parameters. *)

From stdpp Require Import base tactics numbers list option strings.
From Stdlib Require Import ZArith Lia SpecFloat.
From S2P Require Import Prelude Value Unicode Float Coercion.

Open Scope Z_scope.

Module Arith.
Import Coercion.

Inductive error := TypeError (msg : string) | RangeError (msg : string).

#[export] Instance error_eq_dec : EqDecision error.
Proof. solve_decision. Defined.

Definition outcome : Type := list error * option Prim.

Definition writes (v : Prim) : outcome := ([], Some v).
(** [return self.raise_..(..)] *)
Definition raises (e : error) : outcome := ([e], None).
(** [self.raise_..(..)?; self.regs[rd] = v] *)
Definition raises_then (e : error) (v : Prim) : outcome := ([e], Some v).

(** A coercion that may have raised on the way, and the code after it. *)
Definition coerced (A : Type) : Type := list error * A.
Definition and_then {A} (c : coerced A) (k : A → outcome) : outcome := let '(es, w) := k (snd c) in (fst c ++ es, w).

Definition MIX : error := TypeError "Cannot mix BigInt and other types, use explicit conversions".
Definition SYMBOL_NUMBER : error := TypeError "Cannot convert a Symbol value to a number".
Definition SYMBOL_STRING : error := TypeError "Cannot convert a Symbol value to a string".
Definition BIGINT_NUMBER : error := TypeError "Cannot convert a BigInt value to a number".
Definition ZERO_DIVISION : error := RangeError "Division by zero".

(** ** Coercions of operands *)

Definition coerce_number_bounded (v : Prim) : coerced N :=
  if is_symbol v then ([SYMBOL_NUMBER], F64.NAN)
  else if is_bigint v then ([BIGINT_NUMBER], F64.NAN)
  else ([], to_number v).

Definition coerce_int32_bounded (v : Prim) : coerced Z :=
  match v with
  | PInt i => ([], i)
  | _ => let '(es, n) := coerce_number_bounded v in (es, sign32 (number_to_uint32 n))
  end.

Definition coerce_uint32_bounded (v : Prim) : coerced Z :=
  match v with
  | PInt i => ([], i mod 2^32)
  | _ => let '(es, n) := coerce_number_bounded v in (es, number_to_uint32 n)
  end.

(** ** 32-bit integers *)

Definition checked_i32 (z : Z) : option Z := if (- 2^31 <=? z) && (z <=? 2^31 - 1) then Some z else None.

Definition int_add (a b : Z) : Prim :=
  match checked_i32 (a + b) with Some v => PInt v | None => float (F64.add (F64.of_Z a) (F64.of_Z b)) end.
Definition int_sub (a b : Z) : Prim :=
  match checked_i32 (a - b) with Some v => PInt v | None => float (F64.sub (F64.of_Z a) (F64.of_Z b)) end.
Definition int_inc (a : Z) : Prim :=
  match checked_i32 (a + 1) with Some v => PInt v | None => float (F64.add (F64.of_Z a) (F64.of_Z 1)) end.
Definition int_dec (a : Z) : Prim :=
  match checked_i32 (a - 1) with Some v => PInt v | None => float (F64.sub (F64.of_Z a) (F64.of_Z 1)) end.
Definition int_mul (a b : Z) : Prim :=
  match checked_i32 (a * b) with Some v => PInt v | None => float (F64.mul (F64.of_Z a) (F64.of_Z b)) end.

(** ** Subtraction, multiplication, division and remainder *)

(** What the macro is applied to: the operator on doubles, on BigInts, and whether
    a zero BigInt on the right is an error. *)
Record BinaryOp := mkBinary { on_f64 : N → N → N; on_bigint : Z → Z → Z; check_zero : bool }.

Definition SUB_OP : BinaryOp := mkBinary F64.sub Z.sub false.
Definition MUL_OP : BinaryOp := mkBinary F64.mul Z.mul false.
Definition DIV_OP : BinaryOp := mkBinary F64.div Z.quot true.
Definition MOD_OP : BinaryOp := mkBinary F64.rem Z.rem true.

Definition binary_arith (op : BinaryOp) (l r : Prim) : outcome :=
  match l, r with
  | PInt a, PInt b => writes (float (on_f64 op (F64.of_Z a) (F64.of_Z b)))
  | PBigInt a, PBigInt b =>
      if (b =? 0) && check_zero op then raises_then ZERO_DIVISION PUndefined else writes (PBigInt (on_bigint op a b))
  | _, _ =>
      if is_symbol l || is_symbol r then raises_then SYMBOL_NUMBER PUndefined
      else if xorb (is_bigint l) (is_bigint r) then raises_then MIX PUndefined
      else writes (float (on_f64 op (to_number l) (to_number r)))
  end.

(** The compound forms, which return where they raise and keep 32-bit results of
    32-bit operands. *)
Definition compound_arith (op : BinaryOp) (on_int : Z → Z → Prim) (l r : Prim) : outcome :=
  match l, r with
  | PInt a, PInt b => writes (on_int a b)
  | PDouble a, PDouble b => writes (float (on_f64 op a b))
  | PBigInt a, PBigInt b =>
      if (b =? 0) && check_zero op then raises ZERO_DIVISION else writes (PBigInt (on_bigint op a b))
  | _, _ =>
      if is_symbol l || is_symbol r then raises SYMBOL_NUMBER
      else if xorb (is_bigint l) (is_bigint r) then raises MIX
      else writes (float (on_f64 op (to_number l) (to_number r)))
  end.

Definition int_div (a b : Z) : Prim := float (F64.div (F64.of_Z a) (F64.of_Z b)).

(** [checked_rem]: none for a zero divisor, nor for the one quotient out of range. *)
Definition checked_rem (a b : Z) : option Z := if (b =? 0) || ((a =? - 2^31) && (b =? -1)) then None else Some (Z.rem a b).
Definition int_mod (a b : Z) : Prim :=
  match checked_rem a b with Some v => PInt v | None => float (F64.rem (F64.of_Z a) (F64.of_Z b)) end.

Definition dispatch_compound_sub : Prim → Prim → outcome := compound_arith SUB_OP int_sub.
Definition dispatch_compound_mul : Prim → Prim → outcome := compound_arith MUL_OP int_mul.
Definition dispatch_compound_div : Prim → Prim → outcome := compound_arith DIV_OP int_div.
Definition dispatch_compound_mod : Prim → Prim → outcome := compound_arith MOD_OP int_mod.

(** ** Powers *)

Section powers.
Context (powf : N → N → N).

Definition bigint_exp (base exp : Z) : outcome :=
  if (0 <=? exp) && (exp <? 2^32) then writes (PBigInt (base ^ exp)) else raises_then (RangeError "Exponent must be positive") PUndefined.

Definition exp_result (l r : Prim) : outcome :=
  match l, r with
  | PInt a, PInt b => writes (float (powf (F64.of_Z a) (F64.of_Z b)))
  | PDouble a, PDouble b => writes (float (powf a b))
  | PBigInt a, PBigInt b => bigint_exp a b
  | _, _ =>
      if is_symbol l || is_symbol r then raises_then SYMBOL_NUMBER PUndefined
      else if xorb (is_bigint l) (is_bigint r) then raises_then MIX PUndefined
      else writes (float (powf (to_number l) (to_number r)))
  end.
Definition dispatch_exp : Prim → Prim → outcome := exp_result.
Definition dispatch_compound_exp : Prim → Prim → outcome := exp_result.
End powers.

(** ** Addition and concatenation *)

Section addition.
Context (ryu : N → list N).

(** The units of the two operands, one after the other (short results are built
    at once, long ones as a rope over the same units). *)
Definition concat_strings (l r : Prim) : Prim := PString (push_units_to ryu r (push_units_to ryu l [])).

Definition symbol_add_error (l r : Prim) : error := if is_string l || is_string r then SYMBOL_STRING else SYMBOL_NUMBER.

Definition dispatch_add (l r : Prim) : outcome :=
  match l, r with
  | PInt a, PInt b => writes (int_add a b)
  | PDouble a, PDouble b => writes (float (F64.add a b))
  | PBigInt a, PBigInt b => writes (PBigInt (a + b))
  | _, _ =>
      if is_symbol l || is_symbol r then raises (symbol_add_error l r)
      else if is_string l || is_string r then writes (concat_strings l r)
      else if xorb (is_bigint l) (is_bigint r) then raises MIX
      else writes (float (F64.add (to_number l) (to_number r)))
  end.
Definition dispatch_compound_add : Prim → Prim → outcome := dispatch_add.

(** The rest of a concatenation once an operand is a string. *)
Definition concat_n_strings (l r : Prim) (rest : list Prim) : outcome :=
  if existsb is_symbol rest then raises_then SYMBOL_STRING PUndefined
  else writes (PString (fold_left (λ buf p, push_units_to ryu p buf) (l :: r :: rest) [])).

Fixpoint concat_loop (acc : Prim) (rest : list Prim) : outcome :=
  match rest with
  | [] => writes acc
  | next :: rest =>
      match acc, next with
      | PInt a, PInt b => concat_loop (int_add a b) rest
      | PDouble a, PDouble b => concat_loop (float (F64.add a b)) rest
      | PBigInt a, PBigInt b => concat_loop (PBigInt (a + b)) rest
      | _, _ =>
          if is_symbol acc || is_symbol next then raises (symbol_add_error acc next)
          else if is_string acc || is_string next then concat_n_strings acc next rest
          else if xorb (is_bigint acc) (is_bigint next) then raises MIX
          else concat_loop (float (F64.add (to_number acc) (to_number next))) rest
      end
  end.

(** The operands are the values of the registers the extension words name. *)
Definition dispatch_concat_n (first : Prim) (rest : list Prim) : outcome := concat_loop first rest.
End addition.

(** ** Unary operators *)

Definition dispatch_neg (v : Prim) : outcome :=
  match v with
  | PBigInt z => writes (PBigInt (- z))
  | _ => and_then (coerce_number_bounded v) (λ n, writes (float (F64.neg n)))
  end.

Definition dispatch_unary_plus (v : Prim) : outcome :=
  if is_bigint v then raises BIGINT_NUMBER
  else if is_symbol v then raises SYMBOL_NUMBER
  else writes (float (to_number v)).

Definition dispatch_bit_not (v : Prim) : outcome :=
  match v with
  | PBigInt z => writes (PBigInt (Z.lnot z))
  | _ => and_then (coerce_int32_bounded v) (λ i, writes (PInt (Z.lnot i)))
  end.

Definition dispatch_not (v : Prim) : outcome := writes (PBool (negb (to_boolean v))).
Definition dispatch_void : outcome := writes PUndefined.

Definition TYPEOF_TEXTS : list string := ["undefined"; "object"; "boolean"; "number"; "string"; "symbol"; "bigint"; "function"].
Definition typeof_kind (v : Prim) : nat :=
  match js_type v with
  | TUndefined => 0 | TNull => 1 | TBool => 2 | TInt | TDouble => 3 | TString => 4 | TSymbol => 5 | TBigInt => 6 | TObject => 1
  end%nat.
Definition dispatch_typeof (v : Prim) : outcome := writes (PString (bytes_of (TYPEOF_TEXTS !!! typeof_kind v))).

(** Increment and decrement: the new value of the variable and the value of the
    expression, with the exceptions. *)
Definition update (big : Z → Z) (int : Z → Prim) (num : N → N) (prefix : bool) (v : Prim) : list error * (Prim * Prim) :=
  match v with
  | PBigInt z => ([], (PBigInt (big z), if prefix then PBigInt (big z) else v))
  | PInt i => ([], (int i, if prefix then int i else v))
  | _ => let '(es, n) := coerce_number_bounded v in
         (es, (float (num n), if prefix then float (num n) else float n))
  end.
Definition inc_num (n : N) : N := F64.add n (F64.of_Z 1).
Definition dec_num (n : N) : N := F64.sub n (F64.of_Z 1).
Definition dispatch_inc_pre := update (λ z, z + 1) int_inc inc_num true.
Definition dispatch_inc_post := update (λ z, z + 1) int_inc inc_num false.
Definition dispatch_dec_pre := update (λ z, z - 1) int_dec dec_num true.
Definition dispatch_dec_post := update (λ z, z - 1) int_dec dec_num false.

(** ** Bitwise operators *)

Definition bitwise (on : Z → Z → Z) (l r : Prim) : outcome :=
  match l, r with
  | PBigInt a, PBigInt b => writes (PBigInt (on a b))
  | _, _ =>
      if xorb (is_bigint l) (is_bigint r) then raises MIX
      else and_then (coerce_int32_bounded l) (λ a, and_then (coerce_int32_bounded r) (λ b, writes (PInt (on a b))))
  end.
Definition dispatch_bit_and : Prim → Prim → outcome := bitwise Z.land.
Definition dispatch_bit_or : Prim → Prim → outcome := bitwise Z.lor.
Definition dispatch_bit_xor : Prim → Prim → outcome := bitwise Z.lxor.

Definition bigint_shift_amount (r : Z) : Z := Z.max (- 2^24) (Z.min (2^24) (clamp_i128 r)).
Definition bigint_left_shift (l amount : Z) : Z := if 0 <=? amount then Z.shiftl l amount else Z.shiftr l (- amount).
Definition bigint_right_shift (l amount : Z) : Z := if 0 <=? amount then Z.shiftr l amount else Z.shiftl l (- amount).

(** [i32::wrapping_shl]. *)
Definition wrapping_shl (a shift : Z) : Z := sign32 ((a * 2 ^ shift) mod 2^32).

Definition shift (big : Z → Z → Z) (int : Z → Z → Z) (l r : Prim) : outcome :=
  match l, r with
  | PBigInt a, PBigInt b => writes (PBigInt (big a (bigint_shift_amount b)))
  | _, _ =>
      if xorb (is_bigint l) (is_bigint r) then raises MIX
      else and_then (coerce_int32_bounded l) (λ a, and_then (coerce_uint32_bounded r) (λ b, writes (PInt (int a (Z.land b 31)))))
  end.
Definition dispatch_shl : Prim → Prim → outcome := shift bigint_left_shift wrapping_shl.
Definition dispatch_shr : Prim → Prim → outcome := shift bigint_right_shift Z.shiftr.

Definition write_ushr_result (result : Z) : Prim := if result <=? 2^31 - 1 then PInt result else float (F64.of_Z result).
Definition dispatch_ushr (l r : Prim) : outcome :=
  if is_bigint l || is_bigint r then raises (TypeError "BigInts have no unsigned right shift, use >> instead")
  else and_then (coerce_uint32_bounded l) (λ a, and_then (coerce_uint32_bounded r) (λ b, writes (write_ushr_result (Z.shiftr a (Z.land b 31))))).

(** The compound forms have the same bodies. *)
Definition dispatch_compound_bit_and := dispatch_bit_and.
Definition dispatch_compound_bit_or := dispatch_bit_or.
Definition dispatch_compound_bit_xor := dispatch_bit_xor.
Definition dispatch_compound_shl := dispatch_shl.
Definition dispatch_compound_shr := dispatch_shr.
Definition dispatch_compound_ushr := dispatch_ushr.

(** ** Comparisons and logical operators *)

Definition relation (swap negate : bool) (l r : Prim) : outcome :=
  if is_symbol l || is_symbol r then raises SYMBOL_NUMBER
  else match (if swap then relational_compare r l else relational_compare l r) with
       | Some b => writes (PBool (if negate then negb b else b))
       | None => writes (PBool false)
       end.
Definition dispatch_lt : Prim → Prim → outcome := relation false false.
Definition dispatch_gt : Prim → Prim → outcome := relation true false.
Definition dispatch_lte : Prim → Prim → outcome := relation true true.
Definition dispatch_gte : Prim → Prim → outcome := relation false true.

Definition abstract_eq (l r : Prim) : bool := if bool_decide (js_type l = js_type r) then strict_equality l r else abstract_eq_primitives l r.
Definition dispatch_eq (l r : Prim) : outcome := writes (PBool (abstract_eq l r)).
Definition dispatch_neq (l r : Prim) : outcome := writes (PBool (negb (abstract_eq l r))).
Definition dispatch_strict_eq (l r : Prim) : outcome := writes (PBool (strict_equality l r)).
Definition dispatch_strict_neq (l r : Prim) : outcome := writes (PBool (negb (strict_equality l r))).

Definition dispatch_and (l r : Prim) : outcome := writes (if to_boolean l then r else l).
Definition dispatch_or (l r : Prim) : outcome := writes (if to_boolean l then l else r).
Definition dispatch_nullish (l r : Prim) : outcome := writes (if is_nullish l then r else l).

(** Whether the conditional jumps are taken. *)
Definition dispatch_jmp_if_false (v : Prim) : bool := negb (to_boolean v).
Definition dispatch_jmp_if_true (v : Prim) : bool := to_boolean v.
Definition dispatch_jmp_if_nullish (v : Prim) : bool := is_nullish v.
End Arith.

(** ** Facts *)

Module ArithFacts.
Import F64Facts Coercion CoercionFacts Arith.

(** *** Equal numbers *)

Lemma eqb_refl d : F64.is_nan d = false → F64.eqb d d = true.
Proof.
  unfold F64.is_nan, F64.eqb, SFeqb. destruct (F64.decode d) as [s|s| |s m e]; try done; cbn [SFcompare]; [by destruct s|]. intros _.
  rewrite Z.compare_refl. change (Pos.compare_cont Eq m m) with (Pos.compare m m). rewrite Pos.compare_refl. by destruct s.
Qed.

Lemma zero_refl v : same_value_zero v v = true.
Proof.
  destruct v as [i|d|b| | |u|z|n]; cbn [same_value_zero same_value].
  - apply Z.eqb_refl.
  - destruct (F64.is_nan d) eqn:E; [done|]. cbn [andb]. by apply eqb_refl.
  - by destruct b.
  - done.
  - done.
  - by apply bool_decide_eq_true.
  - apply Z.eqb_refl.
  - apply N.eqb_refl.
Qed.

(** An integer and the double with its value. *)
Lemma int_same_float i d : Z.abs i < 2^53 → F64Facts.is_int (F64.decode d) i → same_value_zero (PInt i) (float d) = true.
Proof.
  intros Hi Hd. assert (F64.is_nan d = false) as Nd by (destruct Hd as [_ Hu]; unfold F64.is_nan; destruct (F64.decode d); (done || discriminate Hu)).
  unfold float. rewrite Nd. cbn [same_value_zero to_f64]. rewrite Nd, andb_false_r. pose proof (of_Z_int i Hi) as Ho.
  rewrite (units_eqb _ _ (i * UNIT) (i * UNIT)) by (apply Ho || apply Hd). apply Z.eqb_refl.
Qed.

(** *** Compound operators *)

Definition agree (o o' : outcome) : Prop :=
  o.1 = o'.1 ∧ (o.1 = [] → ∃ v w, o.2 = Some v ∧ o'.2 = Some w ∧ same_value_zero v w = true).

Lemma agree_refl v : agree (writes v) (writes v).
Proof. split; [done|]. intros _. exists v, v. split_and!; [done..|apply zero_refl]. Qed.

Lemma compound_ok op on_int l r :
  (∀ a b, l = PInt a → r = PInt b → same_value_zero (on_int a b) (float (on_f64 op (F64.of_Z a) (F64.of_Z b))) = true) →
  agree (compound_arith op on_int l r) (binary_arith op l r).
Proof.
  intros H. destruct l, r; cbn [compound_arith binary_arith is_symbol is_bigint orb xorb];
    try apply agree_refl; try (by split; [done|]); try (destruct (_ && _); [by split|apply agree_refl]).
  split; [done|]. intros _. eexists _, _. split_and!; [done|done|]. by apply H.
Qed.

Definition i32 (i : Z) : Prop := - 2^31 <= i < 2^31.

Lemma checked_cases z : (checked_i32 z = Some z ∧ i32 z) ∨ checked_i32 z = None.
Proof. unfold checked_i32, i32. destruct (Z.leb_spec (- 2^31) z), (Z.leb_spec z (2^31 - 1)); cbn; auto. left. split; [done|lia]. Qed.

Lemma checked_same z f : (i32 z → F64Facts.is_int (F64.decode f) z) → same_value_zero (match checked_i32 z with Some v => PInt v | None => float f end) (float f) = true.
Proof. intros H. destruct (checked_cases z) as [[-> Hz]| ->]; [|apply zero_refl]. apply int_same_float; [unfold i32 in Hz; lia|by apply H]. Qed.

Lemma encoded_int f z : F64Facts.is_int f z → F64Facts.is_int (F64.decode (F64.encode f)) z.
Proof. intros H. by rewrite decode_encode by apply H. Qed.

Lemma i32_float i : i32 i → F64Facts.is_int (F64.decode (F64.of_Z i)) i.
Proof. unfold i32. intros Hi. apply of_Z_int. lia. Qed.

Section int_ops.
Context (a b : Z) (Ha : i32 a) (Hb : i32 b).

Lemma int_sub_same : same_value_zero (int_sub a b) (float (F64.sub (F64.of_Z a) (F64.of_Z b))) = true.
Proof. apply checked_same. unfold i32. intros Hz. apply encoded_int, sub_int; [by apply i32_float|by apply i32_float|lia]. Qed.

Lemma int_mul_same : same_value_zero (int_mul a b) (float (F64.mul (F64.of_Z a) (F64.of_Z b))) = true.
Proof. apply checked_same. unfold i32. intros Hz. apply encoded_int, mul_int; [by apply i32_float|by apply i32_float|lia]. Qed.

Lemma int_mod_same : same_value_zero (int_mod a b) (float (F64.rem (F64.of_Z a) (F64.of_Z b))) = true.
Proof.
  unfold int_mod, checked_rem. destruct (Z.eqb_spec b 0) as [->|Hb0]; [apply zero_refl|]. destruct (_ && _); [apply zero_refl|]. cbn [orb].
  pose proof (Z.rem_bound_abs a b Hb0). unfold i32 in *. apply int_same_float; [lia|]. apply encoded_int, rem_int; [by apply i32_float|by apply i32_float|done|lia].
Qed.
End int_ops.

(** *** Concatenation *)

Fixpoint add_left ryu (acc : Prim) (rest : list Prim) : outcome :=
  match rest with
  | [] => writes acc
  | next :: rest => match dispatch_add ryu acc next with ([], Some v) => add_left ryu v rest | o => o end
  end.

Lemma add_left_string ryu rest : ∀ units, add_left ryu (PString units) rest =
  if existsb is_symbol rest then raises SYMBOL_STRING else writes (PString (fold_left (λ buf p, push_units_to ryu p buf) rest units)).
Proof.
  induction rest as [|p rest IH]; intros units; [done|]. destruct p; cbn [add_left dispatch_add is_symbol is_string orb existsb]; try done; unfold concat_strings; cbn [writes]; rewrite IH; done.
Qed.

Lemma concat_ok ryu rest : ∀ acc, (concat_loop ryu acc rest).1 = (add_left ryu acc rest).1 ∧
  ((concat_loop ryu acc rest).1 = [] → concat_loop ryu acc rest = add_left ryu acc rest).
Proof.
  induction rest as [|p rest IH]; intros acc; [done|]. cbn [concat_loop add_left].
  assert (∀ l r, is_string l || is_string r = true → is_symbol l || is_symbol r = false →
    (concat_n_strings ryu l r rest).1 = (add_left ryu (concat_strings ryu l r) rest).1 ∧
    ((concat_n_strings ryu l r rest).1 = [] → concat_n_strings ryu l r rest = add_left ryu (concat_strings ryu l r) rest)) as Hs.
  { intros l r _ _. unfold concat_strings. rewrite add_left_string. unfold concat_n_strings. destruct (existsb is_symbol rest); done. }
  destruct acc, p; cbn [dispatch_add is_symbol is_string is_bigint orb xorb]; cbn [writes raises]; try apply IH; try done; by apply Hs.
Qed.
End ArithFacts.

(** ** Theorems *)

Import Coercion Arith.

(** Compound operators.  On every pair of primitive values the compound forms
    of [-], [*], [/] and [%], which keep 32-bit integers, raise the exceptions the
    plain forms raise and otherwise write the same number, up to the sign of
    zero; the compound forms of [+] and [**] are the plain ones. *)
Theorem compound_agrees powf ryu l r : CoercionFacts.wf l → CoercionFacts.wf r →
  ArithFacts.agree (dispatch_compound_sub l r) (binary_arith SUB_OP l r) ∧
  ArithFacts.agree (dispatch_compound_mul l r) (binary_arith MUL_OP l r) ∧
  ArithFacts.agree (dispatch_compound_div l r) (binary_arith DIV_OP l r) ∧
  ArithFacts.agree (dispatch_compound_mod l r) (binary_arith MOD_OP l r) ∧
  dispatch_compound_add ryu l r = dispatch_add ryu l r ∧ dispatch_compound_exp powf l r = dispatch_exp powf l r.
Proof.
  intros Hl Hr. split_and!; try done; apply ArithFacts.compound_ok; intros a b -> ->;
    [by apply ArithFacts.int_sub_same|by apply ArithFacts.int_mul_same|apply ArithFacts.zero_refl|by apply ArithFacts.int_mod_same].
Qed.

Lemma compound_agrees_witness :
  dispatch_compound_mod (PInt (-7)) (PInt 3) = writes (PInt (-1)) ∧ binary_arith MOD_OP (PInt (-7)) (PInt 3) = writes (PDouble 0xBFF0000000000000) ∧
  same_value_zero (PInt (-1)) (PDouble 0xBFF0000000000000) = true.
Proof.
  destruct (compound_agrees (λ a _, a) (λ _, []) (PInt (-7)) (PInt 3)) as (_ & _ & _ & [_ H] & _); [cbn; lia|cbn; lia|].
  split; [by vm_compute|]. split; [by vm_compute|]. destruct (H eq_refl) as (v & w & E & E' & Hs).
  assert (v = PInt (-1)) as <- by (vm_compute in E; congruence). assert (w = PDouble 0xBFF0000000000000) as <- by (vm_compute in E'; congruence). exact Hs.
Defined.

(** The compound forms of [*] and [%] lose the sign of zero: [x *= -5] on 0 and
    [x %= 2] on -4 leave the integer 0 where the plain operators give -0. *)
Theorem compound_loses_negative_zero :
  dispatch_compound_mul (PInt 0) (PInt (-5)) = writes (PInt 0) ∧ binary_arith MUL_OP (PInt 0) (PInt (-5)) = writes (PDouble 0x8000000000000000) ∧
  dispatch_compound_mod (PInt (-4)) (PInt 2) = writes (PInt 0) ∧ binary_arith MOD_OP (PInt (-4)) (PInt 2) = writes (PDouble 0x8000000000000000) ∧
  same_value (PInt 0) (PDouble 0x8000000000000000) = false.
Proof. by vm_compute. Qed.

(** Flattened concatenation.  The instruction that concatenates many operands
    at once raises the exceptions of adding them from the left, pair by pair, and
    otherwise gives the same result: numbers are added up to the first string,
    the texts of the rest are appended. *)
Theorem concat_left ryu first rest (o := dispatch_concat_n ryu first rest) :
  o.1 = (ArithFacts.add_left ryu first rest).1 ∧ (o.1 = [] → o = ArithFacts.add_left ryu first rest).
Proof. apply ArithFacts.concat_ok. Qed.

Lemma concat_left_witness (ryu := λ _ : N, @nil N) :
  dispatch_concat_n ryu (PInt 1) [PInt 2; PString [97%N]; PInt 3; PNull] = writes (PString (51%N :: 97%N :: 51%N :: bytes_of "null")).
Proof.
  destruct (concat_left ryu (PInt 1) [PInt 2; PString [97%N]; PInt 3; PNull]) as [E H]. rewrite H; [by vm_compute|]. rewrite E. by vm_compute.
Defined.

(** Handlers that go on after raising.  A mixed subtraction writes [undefined] to
    its register, and a bitwise operator on two symbols raises twice and then
    writes 0; addition raises once and writes nothing. *)
Theorem raising_goes_on ryu :
  binary_arith SUB_OP (PBigInt 1) (PInt 1) = ([MIX], Some PUndefined) ∧
  dispatch_bit_and (PSymbol 1) (PSymbol 2) = ([SYMBOL_NUMBER; SYMBOL_NUMBER], Some (PInt 0)) ∧
  dispatch_add ryu (PBigInt 1) (PInt 1) = ([MIX], None).
Proof. by vm_compute. Qed.
