(* ===== verification/Fold.v ===== *)
(** * Constant folding (crates/oxide_fold/src/{lib,fold_table,propagate}.rs)

    The folding tables on constants, the forward scan that propagates known
    constants through registers and rewrites instructions in place, and the
    recursion over nested functions.

    The tables are proved to mirror the operator instructions of the virtual
    machine.  The scan is written over the table it uses for bitwise and
    relational operators; [fold_function] is the scan with the table of the
    code.  [powf] is the power function of the platform. *)

From stdpp Require Import base tactics numbers list option strings relations.
From Stdlib Require Import ZArith Lia SpecFloat.
From S2P Require Import Prelude Opcode IR Contract Cfg Liveness Dce Compact Value Unicode StringForge Float Coercion Arith.
#[local] Set Warnings "-clear-no-such-hyp".

Open Scope Z_scope.

#[export] Instance Constant_eq_dec : EqDecision Constant.
Proof. solve_decision. Defined.

(** The constants known of registers. *)
Abbreviation table := (list (option Constant)).

Module Fold.
Import Coercion Arith.

(** ** Tables (fold_table.rs) *)

Definition const_to_jsvalue (c : Constant) : option Prim :=
  match c with
  | CInt i => Some (PInt i)
  | CNumber d => Some (float d)
  | CBoolean b => Some (PBool b)
  | CNull => Some PNull
  | CUndefined => Some PUndefined
  | CBigInt _ | CString _ => None
  end.

Definition const_to_number (c : Constant) : res N := let* v := Keys.expect (const_to_jsvalue c) in Ok (to_number v).

Definition is_numeric (c : Constant) : bool := match c with CInt _ | CNumber _ | CBigInt _ => true | _ => false end.
Definition is_bigint (c : Constant) : bool := match c with CBigInt _ => true | _ => false end.

Definition is_truthy (c : Constant) : res bool :=
  match c with
  | CBigInt b => Ok (negb (b =? 0))
  | CString s => Ok (negb (bool_decide (s = EmptyString)))
  | _ => let* v := Keys.expect (const_to_jsvalue c) in Ok (to_boolean v)
  end.

Definition is_nullish (c : Constant) : bool := match c with CNull | CUndefined => true | _ => false end.

(** The text of [typeof]; its key is the text itself. *)
Definition typeof_text (c : Constant) : string :=
  match c with
  | CInt _ | CNumber _ => "number"
  | CBigInt _ => "bigint"
  | CBoolean _ => "boolean"
  | CNull => "object"
  | CString _ => "string"
  | CUndefined => "undefined"
  end.

Definition fold_unary (op : OpCode) (c : Constant) : res (option Constant) :=
  match op with
  | VOID => Ok (Some CUndefined)
  | NOT => let* t := is_truthy c in Ok (Some (CBoolean (negb t)))
  | TYPEOF => Ok (Some (CString (typeof_text c)))
  | NEG =>
      match c with
      | CBigInt b => Ok (Some (CBigInt (- b)))
      | CInt i => Ok (Some (CNumber (F64.neg (F64.of_Z i))))
      | CNumber d => Ok (Some (CNumber (F64.neg d)))
      | _ => Ok None
      end
  | UNARY_PLUS =>
      match c with
      | CInt i => Ok (Some (CNumber (F64.of_Z i)))
      | CNumber d => Ok (Some (CNumber d))
      | _ => Ok None
      end
  | BIT_NOT =>
      match c with
      | CBigInt b => Ok (Some (CBigInt (Z.lnot b)))
      | CInt _ | CNumber _ => let* v := Keys.expect (const_to_jsvalue c) in Ok (Some (CInt (Z.lnot (to_int32 v))))
      | _ => Ok None
      end
  | _ => Ok None
  end.

Section table.
Context (powf : N → N → N).

Definition fold_add (l r : Constant) : res (option Constant) :=
  if is_bigint l then match l, r with CBigInt a, CBigInt b => Ok (Some (CBigInt (a + b))) | _, _ => Ok None end
  else
    match l, r with
    | CInt a, CInt b =>
        match checked_i32 (a + b) with
        | Some v => Ok (Some (CInt v))
        | None => Ok (Some (CNumber (F64.add (F64.of_Z a) (F64.of_Z b))))
        end
    | _, _ => let* ln := const_to_number l in let* rn := const_to_number r in Ok (Some (CNumber (F64.add ln rn)))
    end.

Definition fold_arith (op : OpCode) (l r : Constant) : res (option Constant) :=
  if is_bigint l then Ok None
  else
    let* divisor := const_to_number r in
    if (bool_decide (op = DIV ∨ op = MOD) && F64.eqb divisor ZERO) || (bool_decide (op = EXP) && F64.ltb divisor ZERO) then Ok None
    else
      let* ln := const_to_number l in
      let* rn := const_to_number r in
      match op with
      | SUB => Ok (Some (CNumber (F64.sub ln rn)))
      | MUL => Ok (Some (CNumber (F64.mul ln rn)))
      | DIV => Ok (Some (CNumber (F64.div ln rn)))
      | MOD => Ok (Some (CNumber (F64.rem ln rn)))
      | EXP => Ok (Some (CNumber (powf ln rn)))
      | _ => Panic
      end.

Definition fold_binary (op : OpCode) (l r : Constant) : res (option Constant) :=
  if negb (is_numeric l) || negb (is_numeric r) then Ok None
  else if xorb (is_bigint l) (is_bigint r) then Ok None
  else
    match op with
    | ADD => fold_add l r
    | SUB | MUL | DIV | MOD | EXP => fold_arith op l r
    | _ => Ok None
    end.

(** Which operand a logical operator selects: true for the left one. *)
Definition short_circuit (op : OpCode) (l : Constant) : res (option bool) :=
  match op with
  | AND => let* t := is_truthy l in Ok (Some (negb t))
  | OR => let* t := is_truthy l in Ok (Some t)
  | NULLISH => Ok (Some (negb (is_nullish l)))
  | _ => Ok None
  end.

Definition is_foldable_c_operand (c : Constant) : bool := match c with CInt _ | CNumber _ | CBoolean _ | CNull => true | _ => false end.

Definition fold_bits (op : OpCode) (l r : Prim) : option Constant :=
  let a := to_int32 l in
  match op with
  | BIT_AND => Some (CInt (Z.land a (to_int32 r)))
  | BIT_OR => Some (CInt (Z.lor a (to_int32 r)))
  | BIT_XOR => Some (CInt (Z.lxor a (to_int32 r)))
  | SHL => Some (CInt (wrapping_shl a (Z.land (to_uint32 r) 31)))
  | SHR => Some (CInt (Z.shiftr a (Z.land (to_uint32 r) 31)))
  | USHR =>
      let result := Z.shiftr (a mod 2^32) (Z.land (to_uint32 r) 31) in
      Some (if result <=? 2^31 - 1 then CInt result else CNumber (F64.of_Z result))
  | _ => None
  end.

Definition fold_relation (op : OpCode) (l r : Prim) : option Constant :=
  let '(a, b) := match op with GT | LTE => (r, l) | _ => (l, r) end in
  let cmp := default false (relational_compare a b) in
  Some (CBoolean (match op with LTE | GTE => negb cmp | _ => cmp end)).

Definition fold_c_group (op : OpCode) (l r : Constant) : res (option Constant) :=
  if negb (is_foldable_c_operand l) || negb (is_foldable_c_operand r) then Ok None
  else
    match const_to_jsvalue l, const_to_jsvalue r with
    | Some lv, Some rv =>
        Ok (match op with
            | BIT_AND | BIT_OR | BIT_XOR | SHL | SHR | USHR => fold_bits op lv rv
            | LT | GT | LTE | GTE => fold_relation op lv rv
            | EQ => Some (CBoolean (abstract_eq_primitives lv rv))
            | NEQ => Some (CBoolean (negb (abstract_eq_primitives lv rv)))
            | STRICT_EQ => Some (CBoolean (strict_equality lv rv))
            | STRICT_NEQ => Some (CBoolean (negb (strict_equality lv rv)))
            | _ => None
            end)
    | _, _ => Ok None
    end.

(** ** Propagation (propagate.rs) *)

Definition const_eq (a b : Constant) : bool :=
  match a, b with CNumber x, CNumber y => (x =? y)%N | _, _ => bool_decide (a = b) end.

(** The index of the constant in the pool, which grows when the constant is new. *)
Definition intern (pool : list Constant) (c : Constant) : option N * list Constant :=
  match list_find (λ x, const_eq x c = true) pool with
  | Some (idx, _) => (Some (u16 (N.of_nat idx)), pool)
  | None => if (65535 <=? N.of_nat (length pool))%N then (None, pool) else (Some (u16 (N.of_nat (length pool))), pool ++ [c])
  end.

(** [known.get(r).and_then(..)]. *)
Definition known_reg (known : table) (r : N) : option Constant := mjoin (known !! N.to_nat r).

(** [known[rd] = v] for the defined register. *)
Definition set_known (known : table) (d : option N) (v : option Constant) : res table :=
  match d with Some rd => vec_set known (N.to_nat rd) v | None => Ok known end.

Definition table_for (groups : OpCode → Constant → Constant → res (option Constant)) (op : OpCode) : option (Constant → Constant → res (option Constant)) :=
  match op with
  | ADD | SUB | MUL | DIV | MOD | EXP => Some (fold_binary op)
  | BIT_AND | BIT_OR | BIT_XOR | SHL | SHR | USHR | LT | GT | LTE | GTE | EQ | NEQ | STRICT_EQ | STRICT_NEQ => Some (groups op)
  | _ => None
  end.

Section scan.
Context (c_group : OpCode → Constant → Constant → res (option Constant)).

(** The constant an instruction computes from known operands. *)
Definition folded (known : table) (inst : Inst) : res (option Constant) :=
  match i_op inst with
  | VOID => Ok (Some CUndefined)
  | NOT | TYPEOF | NEG | UNARY_PLUS | BIT_NOT =>
      match i_a inst with
      | Reg x => match known_reg known x with Some c => fold_unary (i_op inst) c | None => Ok None end
      | _ => Ok None
      end
  | op =>
      match table_for c_group op with
      | Some t =>
          match i_a inst, i_b inst with
          | Reg x, Reg y => match known_reg known x, known_reg known y with Some l, Some r => t l r | _, _ => Ok None end
          | _, _ => Ok None
          end
      | None => Ok None
      end
  end.

Definition selected (known : table) (inst : Inst) : res (option bool) :=
  match i_op inst, i_a inst with
  | AND, Reg x | OR, Reg x | NULLISH, Reg x =>
      match known_reg known x with Some c => short_circuit (i_op inst) c | None => Ok None end
  | _, _ => Ok None
  end.

Record scan_state := mkScan { sc_known : table; sc_pool : list Constant; sc_changed : bool; sc_done : list Inst }.

Definition emit (st : scan_state) (known : table) (pool : list Constant) (changed : bool) (inst : Inst) : scan_state :=
  mkScan known pool (sc_changed st || changed) (sc_done st ++ [inst]).

(** The body of the loop, with the table already cleared at a label target. *)
Definition fold_inst (st : scan_state) (known : table) (inst : Inst) : res scan_state :=
  let pool := sc_pool st in
  match i_op inst with
  | LOAD_CONST =>
      let* known := set_known known (def_reg inst) (match i_a inst with Const idx => pool !! N.to_nat idx | _ => None end) in
      Ok (emit st known pool false inst)
  | MOV =>
      let* known := set_known known (def_reg inst) (match i_a inst with Reg src => known_reg known src | _ => None end) in
      Ok (emit st known pool false inst)
  | _ =>
      let* value := folded known inst in
      match value with
      | Some value =>
          match intern pool value with
          | (Some idx, pool) =>
              let inst := MkInst.load_const (i_rd inst) idx in
              let* known := set_known known (def_reg inst) (Some value) in
              Ok (emit st known pool true inst)
          | (None, pool) =>
              let* known := set_known known (def_reg inst) None in
              Ok (emit st known pool false inst)
          end
      | None =>
          let* select_left := selected known inst in
          match select_left with
          | Some select_left =>
              let src := if (select_left : bool) then i_a inst else i_b inst in
              let inst := MkInst.inst_mov (i_rd inst) src in
              let* known := match src with Reg s => set_known known (def_reg inst) (known_reg known s) | _ => Ok known end in
              Ok (emit st known pool true inst)
          | None =>
              let* known := set_known known (def_reg inst) None in
              Ok (emit st known pool false inst)
          end
      end
  end.

Definition scan_step (targets : list bool) (st : scan_state) (ix : nat * Inst) : res scan_state :=
  let* at_label := vec_get targets ix.1 in
  fold_inst st (if (at_label : bool) then replicate (length (sc_known st)) None else sc_known st) ix.2.

Definition table_size (f : IRFunction) : N := u32 (fold_left max_reg_of (insts f) 0%N + 1).

(** [insts] and [constants] of a function replaced. *)
Definition with_folded (f : IRFunction) (is' : list Inst) (pool : list Constant) (subs : list IRFunction) : IRFunction :=
  mkIRFunction is' (label_pos f) (label_count f) pool (param_layout f) (builtin_reg_map f)
    (upvalue_captures f) (cells_needed f) (cell_names f) (n_registers f) (is_arrow f)
    (is_class_constructor f) (is_derived_constructor f) (needs_home_object f)
    (is_generator f) (is_async f) (is_strict f) (captured_this_const_idx f)
    (function_name f) (function_name_reg f) (function_length f) (has_simple_params f)
    (is_top_level f) (const_overflow f) subs.

Definition fold_function_with (f : IRFunction) : res (bool * IRFunction) :=
  if const_overflow f then Ok (false, f)
  else
    let* st := fold_res (scan_step (label_bits f)) (enumerate (insts f))
                 (mkScan (replicate (N.to_nat (table_size f)) None) (constants f) false []) in
    Ok (sc_changed st, with_folded f (sc_done st) (sc_pool st) (nested f)).
End scan.

Definition fold_function : IRFunction → res (bool * IRFunction) := fold_function_with fold_c_group.

(** ** The pass (lib.rs) *)

Definition with_nested (f : IRFunction) (subs : list IRFunction) : IRFunction := with_folded f (insts f) (constants f) subs.

Fixpoint fold (f : IRFunction) : res (bool * IRFunction) :=
  let* r := fold_function f in
  let '(changed, g) := r in
  let* subs := map_res fold (nested f) in
  Ok (changed || existsb fst subs, with_nested g (snd <$> subs)).
End table.
End Fold.

(** ** Facts *)

Module FoldFacts.
Import F64Facts Coercion CoercionFacts Arith ArithFacts Fold.

(** *** Ranges *)

Lemma i32_shift z : i32 z ↔ Z.shiftr z 31 = 0 ∨ Z.shiftr z 31 = -1.
Proof.
  unfold i32. rewrite Z.shiftr_div_pow2 by lia. split.
  - intros Hz. destruct (Z.le_gt_cases 0 z); [left; apply Z.div_small; lia|right; symmetry; apply (Z.div_unique_pos _ _ _ (z + 2^31)); lia].
  - intros H. pose proof (Z.div_mod z (2^31)). pose proof (Z.mod_pos_bound z (2^31)). lia.
Qed.

Lemma i32_bitwise (on : Z → Z → Z) : (∀ a b, Z.shiftr (on a b) 31 = on (Z.shiftr a 31) (Z.shiftr b 31)) →
  (on 0 0 = 0 ∨ on 0 0 = -1) → (on 0 (-1) = 0 ∨ on 0 (-1) = -1) → (on (-1) 0 = 0 ∨ on (-1) 0 = -1) → (on (-1) (-1) = 0 ∨ on (-1) (-1) = -1) →
  ∀ a b, i32 a → i32 b → i32 (on a b).
Proof. intros Hs H1 H2 H3 H4 a b [Ea|Ea]%i32_shift [Eb|Eb]%i32_shift; apply i32_shift; rewrite Hs, Ea, Eb; done. Qed.

Lemma i32_land a b : i32 a → i32 b → i32 (Z.land a b).
Proof. apply (i32_bitwise Z.land); [intros; apply Z.shiftr_land|..]; cbn; auto. Qed.
Lemma i32_lor a b : i32 a → i32 b → i32 (Z.lor a b).
Proof. apply (i32_bitwise Z.lor); [intros; apply Z.shiftr_lor|..]; cbn; auto. Qed.
Lemma i32_lxor a b : i32 a → i32 b → i32 (Z.lxor a b).
Proof. apply (i32_bitwise Z.lxor); [intros; apply Z.shiftr_lxor|..]; cbn; auto. Qed.

Lemma i32_to_int32 v : i32 (to_int32 v).
Proof. unfold i32, to_int32. apply sign32_range, uint32_range. Qed.

Lemma i32_lnot z : i32 z → i32 (Z.lnot z).
Proof. unfold i32, Z.lnot. lia. Qed.

Lemma i32_shl a b : i32 (wrapping_shl a b).
Proof. unfold i32, wrapping_shl. apply sign32_range, Z.mod_pos_bound. lia. Qed.

Lemma shift_bounds b : 0 <= Z.land b 31 < 32.
Proof. change 31 with (Z.ones 5). rewrite Z.land_ones by lia. apply Z.mod_pos_bound. lia. Qed.

Lemma i32_shr a n : i32 a → 0 <= n → i32 (Z.shiftr a n).
Proof.
  unfold i32. intros Ha Hn. rewrite Z.shiftr_div_pow2 by lia. pose proof (Z.pow_pos_nonneg 2 n ltac:(lia) Hn).
  split; [apply Z.div_le_lower_bound; nia|apply Z.div_lt_upper_bound; nia].
Qed.

(** A constant as the emitter and the tables make it. *)
Definition wf_const (c : Constant) : Prop := match c with CInt i => i32 i | _ => True end.

(** *** NaN *)

Lemma land_lxor a b c : N.land (N.lxor a b) c = N.lxor (N.land a c) (N.land b c).
Proof. apply N.bits_inj. intros n. rewrite N.land_spec, !N.lxor_spec, !N.land_spec. by destruct (N.testbit a n), (N.testbit b n), (N.testbit c n). Qed.

Lemma nan_neg d : F64.is_nan (F64.neg d) = F64.is_nan d.
Proof.
  unfold F64.is_nan, F64.decode, F64.neg. rewrite N.shiftr_lxor, !land_lxor.
  assert (N.land (N.shiftr (2^63) 52) 0x7FF = 0 ∧ N.land (2^63) 0xFFFFFFFFFFFFF = 0)%N as [-> ->] by (by vm_compute). rewrite !N.lxor_0_r.
  generalize (Z.of_N (N.land (N.shiftr d 52) 0x7FF)) as x, (Z.of_N (N.land d 0xFFFFFFFFFFFFF)) as y, (N.testbit d 63) as b, (N.testbit (N.lxor d (2^63)) 63) as b'.
  intros x y b b'. destruct (x =? 0); [by destruct y|]. destruct (x =? 2047); [by destruct (y =? 0)|]. by destruct (y + 2^52).
Qed.

(** The number a double value holds. *)
Definition canon (d : N) : N := if F64.is_nan d then F64.NAN else d.

Lemma float_canon d : float d = PDouble (canon d).
Proof. done. Qed.

Lemma canon_canon d : canon (canon d) = canon d.
Proof. unfold canon. destruct (F64.is_nan d) eqn:E; [done|by rewrite E]. Qed.

Lemma neg_canon d : float (F64.neg (canon d)) = float (F64.neg d).
Proof. rewrite !float_canon. unfold canon. destruct (F64.is_nan d) eqn:E; [rewrite !nan_neg, E; done|done]. Qed.

(** *** The tables mirror the handlers *)

(** The handlers of the operators that are folded. *)
Definition run_unary (op : OpCode) (v : Prim) : option outcome :=
  match op with
  | NOT => Some (dispatch_not v) | TYPEOF => Some (dispatch_typeof v) | NEG => Some (dispatch_neg v)
  | UNARY_PLUS => Some (dispatch_unary_plus v) | BIT_NOT => Some (dispatch_bit_not v)
  | _ => None
  end.

Definition run_binary (powf : N → N → N) (ryu : N → list N) (op : OpCode) (l r : Prim) : option outcome :=
  match op with
  | ADD => Some (dispatch_add ryu l r) | SUB => Some (binary_arith SUB_OP l r) | MUL => Some (binary_arith MUL_OP l r)
  | DIV => Some (binary_arith DIV_OP l r) | MOD => Some (binary_arith MOD_OP l r) | EXP => Some (dispatch_exp powf l r)
  | BIT_AND => Some (dispatch_bit_and l r) | BIT_OR => Some (dispatch_bit_or l r) | BIT_XOR => Some (dispatch_bit_xor l r)
  | SHL => Some (dispatch_shl l r) | SHR => Some (dispatch_shr l r) | USHR => Some (dispatch_ushr l r)
  | LT => Some (dispatch_lt l r) | GT => Some (dispatch_gt l r) | LTE => Some (dispatch_lte l r) | GTE => Some (dispatch_gte l r)
  | EQ => Some (dispatch_eq l r) | NEQ => Some (dispatch_neq l r)
  | STRICT_EQ => Some (dispatch_strict_eq l r) | STRICT_NEQ => Some (dispatch_strict_neq l r)
  | _ => None
  end.

(** [text] gives the units of a pooled string. *)
Section mirror.
Context (text : string → list N) (Hempty : ∀ s, text s = [] ↔ s = EmptyString) (Htypeof : ∀ t, t ∈ TYPEOF_TEXTS → text t = bytes_of t).

Definition const_value (c : Constant) : Prim :=
  match c with
  | CInt i => PInt i | CNumber d => float d | CBigInt z => PBigInt z | CString s => PString (text s)
  | CBoolean b => PBool b | CNull => PNull | CUndefined => PUndefined
  end.

Lemma jsvalue_const c v : const_to_jsvalue c = Some v → const_value c = v.
Proof. destruct c; cbn; congruence. Qed.

Lemma truthy_ok c : is_truthy c = Ok (to_boolean (const_value c)).
Proof.
  destruct c as [d|i|z|t|b| |]; try done. cbn [is_truthy const_value to_boolean]. f_equal. destruct (Hempty t) as [H1 H2].
  destruct (bool_decide_reflect (t = EmptyString)) as [E|E]; [by rewrite (H2 E)|]. destruct (text t); [by destruct (E (H1 eq_refl))|done].
Qed.

Lemma nullish_ok c : Fold.is_nullish c = Coercion.is_nullish (const_value c).
Proof. by destruct c. Qed.

Lemma coerce_int32_ok v : (∀ i, v = PInt i → i32 i) → is_symbol v = false → Coercion.is_bigint v = false → coerce_int32_bounded v = ([], to_int32 v).
Proof.
  intros Hw Hs Hb. unfold coerce_int32_bounded, coerce_number_bounded. destruct v as [i|d| | | | | |]; try discriminate; rewrite ?Hs, ?Hb; try done. by rewrite int_int32 by (apply Hw; done).
Qed.

Lemma coerce_uint32_ok v : (∀ i, v = PInt i → i32 i) → is_symbol v = false → Coercion.is_bigint v = false → coerce_uint32_bounded v = ([], to_uint32 v).
Proof.
  intros Hw Hs Hb. unfold coerce_uint32_bounded, coerce_number_bounded. destruct v as [i|d| | | | | |]; try discriminate; rewrite ?Hs, ?Hb; try done. by rewrite int_uint32 by (specialize (Hw i eq_refl); unfold i32 in Hw; lia).
Qed.

Lemma int32_uint32 v : to_int32 v mod 2^32 = to_uint32 v.
Proof. apply sign32_range, uint32_range. Qed.

(** The result of a table: no panic, and a constant with the value the handler writes. *)
Definition mirrors (r : res (option Constant)) (o : option outcome) : Prop :=
  ∃ c, r = Ok c ∧ ∀ c', c = Some c' → o = Some (writes (const_value c')) ∧ wf_const c'.

Lemma mirrors_none o : mirrors (Ok None) o.
Proof. by exists None. Qed.
Lemma mirrors_some c o : o = Some (writes (const_value c)) → wf_const c → mirrors (Ok (Some c)) o.
Proof. intros Ho Hw. exists (Some c). split; [done|]. by intros c' [= <-]. Qed.

Lemma unary_mirrors op c : wf_const c → run_unary op (const_value c) ≠ None → mirrors (fold_unary op c) (run_unary op (const_value c)).
Proof.
  intros Hw Hop. destruct op; try done; cbn [fold_unary run_unary].
  - destruct c as [d|i|z|t|b| |]; try apply mirrors_none; apply mirrors_some; try done. cbn [const_value].
    change (dispatch_neg (float d)) with (writes (float (F64.neg (canon d)))). by rewrite neg_canon.
  - rewrite truthy_ok. cbn [res_bind]. by apply mirrors_some.
  - destruct c as [d|i|z|t|b| |]; try apply mirrors_none; apply mirrors_some; try done. cbn [const_value].
    change (dispatch_unary_plus (float d)) with (writes (float (canon d))). rewrite !float_canon. by rewrite canon_canon.
  - destruct c as [d|i|z|t|b| |]; try apply mirrors_none; try (by apply mirrors_some); cbn [const_to_jsvalue Keys.expect res_bind]; (apply mirrors_some; [|cbn; apply i32_lnot, i32_to_int32]).
    + unfold dispatch_bit_not. cbn [const_value]. rewrite float_canon. by rewrite coerce_int32_ok.
    + unfold dispatch_bit_not. cbn [const_value]. by rewrite coerce_int32_ok; [|intros ? [= <-]|..].
  - apply mirrors_some; [|done]. unfold dispatch_typeof. cbn [const_value]. rewrite Htypeof; [by destruct c|]. unfold TYPEOF_TEXTS. rewrite !elem_of_cons. destruct c; cbn [typeof_text]; auto 10.
Qed.

Lemma binary_mirrors powf ryu op l r : wf_const l → wf_const r → op ∈ [ADD; SUB; MUL; DIV; MOD; EXP] →
  mirrors (fold_binary powf op l r) (run_binary powf ryu op (const_value l) (const_value r)).
Proof.
  intros Hl Hr Hop. unfold fold_binary. destruct (is_numeric l) eqn:Nl; [|apply mirrors_none]. destruct (is_numeric r) eqn:Nr; [|apply mirrors_none]. cbn [negb orb].
  destruct (xorb (is_bigint l) (is_bigint r)) eqn:Eb; [apply mirrors_none|].
  rewrite !elem_of_cons in Hop. destruct Hop as [->|Hop].
  { unfold fold_add. destruct l as [d|i|z| | | |], r as [d'|j|z'| | | |]; try discriminate; cbn [is_bigint const_to_number const_to_jsvalue Keys.expect res_bind];
      try (by apply mirrors_some). cbn [run_binary const_value dispatch_add]. unfold int_add. destruct (checked_cases (i + j)) as [[-> Hz]| ->]; by apply mirrors_some. }
  destruct Hop as [->|[->|[->|[->|[->|Hop]]]]]; [..|by apply elem_of_nil in Hop]; unfold fold_arith;
    destruct l as [d|i|z| | | |], r as [d'|j|z'| | | |]; try discriminate; cbn [is_bigint const_to_number const_to_jsvalue Keys.expect res_bind];
    try apply mirrors_none; (destruct (_ || _); [apply mirrors_none|by apply mirrors_some]).
Qed.

(** The operands of the other table. *)
Lemma group_operand c v : is_foldable_c_operand c = true → wf_const c → const_to_jsvalue c = Some v →
  const_value c = v ∧ coerce_int32_bounded v = ([], to_int32 v) ∧ coerce_uint32_bounded v = ([], to_uint32 v) ∧ is_symbol v = false ∧ Coercion.is_bigint v = false.
Proof.
  intros Hf Hw Hv. split; [by apply jsvalue_const|]. assert (is_symbol v = false ∧ Coercion.is_bigint v = false) as [Hs Hb] by (destruct c; try discriminate Hv; injection Hv as <-; done).
  assert (∀ i, v = PInt i → i32 i) as Hi by (intros i ->; destruct c; try discriminate Hv; by injection Hv as <-). split_and!; [by apply coerce_int32_ok|by apply coerce_uint32_ok|done|done].
Qed.

Lemma abstract_eq_ok l r : abstract_eq l r = abstract_eq_primitives l r.
Proof. unfold abstract_eq. destruct (bool_decide _) eqn:E; [|done]. rewrite abstract_eq_unfold. unfold eq_step. by rewrite E. Qed.

Lemma bits_mirror powf ryu op l r c : coerce_int32_bounded l = ([], to_int32 l) → coerce_uint32_bounded l = ([], to_uint32 l) →
  coerce_int32_bounded r = ([], to_int32 r) → coerce_uint32_bounded r = ([], to_uint32 r) → Coercion.is_bigint l = false → Coercion.is_bigint r = false →
  fold_bits op l r = Some c → run_binary powf ryu op l r = Some (writes (const_value c)) ∧ wf_const c.
Proof.
  intros Il Ul Ir Ur Bl Br Hf.
  assert (∀ on, bitwise on l r = writes (PInt (on (to_int32 l) (to_int32 r)))) as Hbit.
  { intros on. unfold bitwise. destruct l, r; try discriminate; rewrite ?Il, ?Ir; done. }
  assert (∀ big int, shift big int l r = writes (PInt (int (to_int32 l) (Z.land (to_uint32 r) 31)))) as Hshift.
  { intros big int. unfold shift. destruct l, r; try discriminate; rewrite ?Il, ?Ur; done. }
  pose proof (i32_to_int32 l). pose proof (i32_to_int32 r). pose proof (shift_bounds (to_uint32 r)) as Hsb.
  destruct op; cbn [fold_bits] in Hf; match type of Hf with None = _ => discriminate Hf | _ => apply (inj Some) in Hf as <- end;
    cbn [run_binary const_value wf_const].
  - unfold dispatch_bit_and. rewrite Hbit. split; [done|by apply i32_land].
  - unfold dispatch_bit_or. rewrite Hbit. split; [done|by apply i32_lor].
  - unfold dispatch_bit_xor. rewrite Hbit. split; [done|by apply i32_lxor].
  - unfold dispatch_shl. rewrite Hshift. split; [done|apply i32_shl].
  - unfold dispatch_shr. rewrite Hshift. split; [done|apply i32_shr; [done|lia]].
  - unfold dispatch_ushr. rewrite Bl, Br. cbn [orb]. rewrite Ul, Ur. rewrite int32_uint32. unfold and_then, write_ushr_result. cbn [fst snd app].
    pose proof (uint32_range l) as Hu. set (s := Z.shiftr _ _). assert (0 <= s) as Hs by (apply Z.shiftr_nonneg; lia).
    destruct (Z.leb_spec s (2^31 - 1)); (split; [done|]); [cbn; unfold i32; lia|done].
Qed.

(** The relational operators agree when the operands are comparable, and the
    strict ones in any case. *)
Lemma group_mirrors powf ryu op l r : wf_const l → wf_const r →
  op ∈ [BIT_AND; BIT_OR; BIT_XOR; SHL; SHR; USHR; LT; GT; LTE; GTE; EQ; NEQ; STRICT_EQ; STRICT_NEQ] →
  (op = LTE → relational_compare (const_value r) (const_value l) ≠ None) → (op = GTE → relational_compare (const_value l) (const_value r) ≠ None) →
  mirrors (fold_c_group op l r) (run_binary powf ryu op (const_value l) (const_value r)).
Proof.
  intros Wl Wr Hop Hlte Hgte. unfold fold_c_group. destruct (is_foldable_c_operand l) eqn:Fl; [|apply mirrors_none]. destruct (is_foldable_c_operand r) eqn:Fr; [|apply mirrors_none].
  cbn [negb orb]. destruct (const_to_jsvalue l) as [lv|] eqn:El; [|apply mirrors_none]. destruct (const_to_jsvalue r) as [rv|] eqn:Er; [|apply mirrors_none].
  destruct (group_operand l lv Fl Wl El) as (Vl & Il & Ul & Sl & Bl), (group_operand r rv Fr Wr Er) as (Vr & Ir & Ur & Sr & Br). rewrite Vl, Vr in *.
  pose proof (λ c, bits_mirror powf ryu op lv rv c Il Ul Ir Ur Bl Br) as Hbits.
  rewrite !elem_of_cons in Hop. repeat (destruct Hop as [->|Hop]; [try (eexists; split; [done|]; by apply Hbits)|]); [..|by apply elem_of_nil in Hop];
    apply mirrors_some; try done; cbn [run_binary const_value].
  - unfold dispatch_lt, relation. rewrite Sl, Sr. cbn [orb]. by destruct (relational_compare lv rv).
  - unfold dispatch_gt, relation. rewrite Sl, Sr. cbn [orb]. by destruct (relational_compare rv lv).
  - unfold dispatch_lte, relation. rewrite Sl, Sr. cbn [orb]. specialize (Hlte eq_refl). by destruct (relational_compare rv lv).
  - unfold dispatch_gte, relation. rewrite Sl, Sr. cbn [orb]. specialize (Hgte eq_refl). by destruct (relational_compare lv rv).
  - unfold dispatch_eq. by rewrite abstract_eq_ok.
  - unfold dispatch_neq. by rewrite abstract_eq_ok.
Qed.
End mirror.

(** *** Folded instructions *)

Definition unary_ops : list OpCode := [NOT; TYPEOF; NEG; UNARY_PLUS; BIT_NOT].
Definition arith_ops : list OpCode := [ADD; SUB; MUL; DIV; MOD; EXP].
Definition group_ops : list OpCode := [BIT_AND; BIT_OR; BIT_XOR; SHL; SHR; USHR; LT; GT; LTE; GTE; EQ; NEQ; STRICT_EQ; STRICT_NEQ].
Definition logic_ops : list OpCode := [AND; OR; NULLISH].

Definition plain_op (op : OpCode) : bool :=
  match sem_def (semantics op) with Some (SSlot Slot.Rd) => negb (is_terminator op) | _ => false end.

Lemma folded_plain : forallb plain_op (LOAD_CONST :: MOV :: VOID :: unary_ops ++ arith_ops ++ group_ops ++ logic_ops) = true.
Proof. by vm_compute. Qed.

Lemma plain_ok op : op ∈ LOAD_CONST :: MOV :: VOID :: unary_ops ++ arith_ops ++ group_ops ++ logic_ops → is_terminator op = false ∧ ∀ inst, i_op inst = op → def_reg inst = reg_of (i_rd inst).
Proof.
  intros Hop. pose proof folded_plain as H. rewrite forallb_forall in H. specialize (H op (proj1 (list_elem_of_In _ _) Hop)). unfold plain_op in H.
  destruct (sem_def (semantics op)) as [[[]| | | | | | ]|] eqn:Ed; try done. split; [by apply negb_true_iff|]. intros inst Hi. unfold def_reg. by rewrite Hi, Ed.
Qed.

(** Which operand a logical operator gives, from the left value. *)
Definition takes_left (op : OpCode) (v : Prim) : bool :=
  match op with AND => negb (to_boolean v) | OR => to_boolean v | _ => negb (Coercion.is_nullish v) end.

Lemma short_circuit_ok text op c : (∀ s, text s = [] ↔ s = EmptyString) → op ∈ logic_ops → short_circuit op c = Ok (Some (takes_left op (const_value text c))).
Proof.
  intros Ht Hop. unfold logic_ops in Hop. rewrite !elem_of_cons in Hop. destruct Hop as [->|[->|[->|Hop]]]; [..|by apply elem_of_nil in Hop]; cbn [short_circuit takes_left];
    rewrite ?(truthy_ok text Ht), ?(nullish_ok text); done.
Qed.

(** Logical operators work on registers. *)
Definition logic_ok (inst : Inst) : Prop := i_op inst ∈ logic_ops → ∃ x y, i_a inst = Reg x ∧ i_b inst = Reg y.
End FoldFacts.

(** ** Properties *)

Import Coercion CoercionFacts Arith ArithFacts Fold FoldFacts.

(** C12: on operands the emitter can produce, no table panics, and a constant it
    gives is the value the handler of the operator writes at run time, without an
    exception; the logical operators select the operand the handler selects.  For
    [<=] and [>=] this is so when the operands compare, that is when neither is
    NaN or becomes NaN as a number. *)
Theorem fold_mirrors (text : string → list N) (powf : N → N → N) (ryu : N → list N) (l r : Constant) :
  (∀ s, text s = [] ↔ s = EmptyString) → (∀ t, t ∈ TYPEOF_TEXTS → text t = bytes_of t) → wf_const l → wf_const r →
  let lv := const_value text l in
  let rv := const_value text r in
  (∀ op, op ∈ unary_ops → mirrors text (fold_unary op l) (run_unary op lv)) ∧
  (∀ op, op ∈ arith_ops → mirrors text (fold_binary powf op l r) (run_binary powf ryu op lv rv)) ∧
  (∀ op, op ∈ group_ops → (op = LTE → relational_compare rv lv ≠ None) → (op = GTE → relational_compare lv rv ≠ None) →
     mirrors text (fold_c_group op l r) (run_binary powf ryu op lv rv)) ∧
  ∀ op, op ∈ logic_ops → short_circuit op l = Ok (Some (takes_left op lv)).
Proof.
  intros Ht Htt Hl Hr lv rv. split_and!; intros op Hop.
  - apply unary_mirrors; [done..|]. unfold unary_ops in Hop. rewrite !elem_of_cons in Hop. destruct Hop as [->|[->|[->|[->|[->|Hop]]]]]; try done. by apply elem_of_nil in Hop.
  - by apply binary_mirrors.
  - by apply group_mirrors.
  - by apply short_circuit_ok.
Qed.

Lemma fold_mirrors_witness : fold_c_group LT (CInt 1) (CNumber (F64.of_Z 2)) = Ok (Some (CBoolean true)) ∧ dispatch_lt (PInt 1) (float (F64.of_Z 2)) = writes (PBool true).
Proof.
  split; [reflexivity|]. destruct (fold_mirrors bytes_of (λ x _, x) (λ _, []) (CInt 1) (CNumber (F64.of_Z 2))) as (_ & _ & H & _); [intros [|? ?]; done|done|cbn; unfold i32; lia|done|].
  destruct (H LT) as (c & E & Hc); [apply (bool_decide_unpack _); by vm_compute|done|done|]. destruct (Hc (CBoolean true)) as [H1 _]; [|exact (inj Some _ _ H1)].
  vm_compute in E. congruence.
Defined.

(** Folding changes a program that compares NaN: [NaN <= 1] is folded to
    [true], while the instruction gives [false]. *)
Theorem fold_lte_nan : fold_c_group LTE (CNumber F64.NAN) (CInt 1) = Ok (Some (CBoolean true)) ∧ dispatch_lte (float F64.NAN) (PInt 1) = writes (PBool false).
Proof. split; by vm_compute. Qed.
