(* ===== verification/FoldCorrect.v ===== *)
(** * Correctness of constant folding (crates/oxide_fold/src/{lib,propagate}.rs)

    The interface to execution that folding relies on, the effect of a turn of
    the scan, the simulation of a function by the function the scan gives, and
    the pass over a tree of functions; a machine on primitive values meets the
    interface. *)

From stdpp Require Import base tactics numbers list option strings relations.
From Stdlib Require Import ZArith Lia SpecFloat.
From S2P Require Import Prelude Opcode IR Contract Cfg Liveness Dce Compact Value Unicode StringForge Float Coercion Arith Fold.
#[local] Set Warnings "-clear-no-such-hyp".

Open Scope Z_scope.

(** ** The interface to execution *)

(** The execution of single instructions, with the constant pool of the function,
    as folding relies on it: beside the laws of [Machine], a load gives the value
    of its constant, a move copies, and an operator on primitive operands writes
    what its handler writes.  [fm_text] gives the units of a pooled string, and
    [fm_valid pool inst] that the constants an instruction names are in the pool;
    such an instruction does not see a longer pool. *)
Class FoldMachine (powf : N → N → N) (ryu : N → list N) (derived top_level : bool) := {
  fm_value : Type;
  fm_heap : Type;
  fm_prim : Prim → fm_value;
  fm_text : string → list N;
  fm_exec : list Constant → Inst → (N → fm_value) → fm_heap → list N → fm_value * fm_heap * list N * control fm_value;
  fm_valid : list Constant → Inst → Prop;
  fm_reads pool inst regs regs' h hs :
    (∀ r, r ∈ use_regs inst → regs r = regs' r) → fm_exec pool inst regs h hs = fm_exec pool inst regs' h hs;
  fm_pure pool inst g regs h hs :
    is_derived_constructor g = derived → is_pure inst g = true → ∃ v, fm_exec pool inst regs h hs = (v, h, hs, Next);
  fm_local_store pool inst regs h hs :
    top_level = false → i_op inst = STORE_VAR → i_b inst = Imm 0 → ∃ v, fm_exec pool inst regs h hs = (v, h, hs, Next);
  fm_handlers pool inst regs h hs v h' hs' c l :
    fm_exec pool inst regs h hs = (v, h', hs', c) → l ∈ hs' →
    l ∈ hs ∨ (i_op inst = TRY_BEGIN ∨ i_op inst = TRY_FINALLY_BEGIN) ∧ i_b inst = Label l;
  fm_text_empty s : fm_text s = [] ↔ s = EmptyString;
  fm_text_typeof t : t ∈ Arith.TYPEOF_TEXTS → fm_text t = bytes_of t;
  fm_valid_load pool inst idx : fm_valid pool inst → i_op inst = LOAD_CONST → i_a inst = Const idx → (N.to_nat idx < length pool)%nat;
  fm_pool pool pool' inst regs h hs :
    fm_valid pool inst → pool `prefix_of` pool' → fm_exec pool' inst regs h hs = fm_exec pool inst regs h hs;
  fm_load pool inst idx c regs h hs :
    i_op inst = LOAD_CONST → i_a inst = Const idx → pool !! N.to_nat idx = Some c →
    fm_exec pool inst regs h hs = (fm_prim (FoldFacts.const_value fm_text c), h, hs, Next);
  fm_mov pool inst src regs h hs : i_op inst = MOV → i_a inst = Reg src → fm_exec pool inst regs h hs = (regs src, h, hs, Next);
  fm_void pool inst regs h hs : i_op inst = VOID → fm_exec pool inst regs h hs = (fm_prim PUndefined, h, hs, Next);
  fm_unary pool inst x v w regs h hs :
    i_a inst = Reg x → regs x = fm_prim v → FoldFacts.run_unary (i_op inst) v = Some (Arith.writes w) →
    fm_exec pool inst regs h hs = (fm_prim w, h, hs, Next);
  fm_binary pool inst x y v v' w regs h hs :
    i_a inst = Reg x → i_b inst = Reg y → regs x = fm_prim v → regs y = fm_prim v' →
    FoldFacts.run_binary powf ryu (i_op inst) v v' = Some (Arith.writes w) →
    fm_exec pool inst regs h hs = (fm_prim w, h, hs, Next);
  fm_logic pool inst x y v regs h hs :
    i_op inst ∈ FoldFacts.logic_ops → i_a inst = Reg x → i_b inst = Reg y → regs x = fm_prim v →
    fm_exec pool inst regs h hs = (if FoldFacts.takes_left (i_op inst) v then regs x else regs y, h, hs, Next);
}.

(** The machine of a function with a given pool. *)
Definition pool_machine {powf ryu derived top_level} (M : FoldMachine powf ryu derived top_level) (pool : list Constant) : Machine derived top_level :=
  {| value := fm_value; heap := fm_heap; exec := fm_exec pool; exec_reads := fm_reads pool; exec_pure := fm_pure pool;
     exec_local_store := fm_local_store pool; exec_handlers := fm_handlers pool |}.

(** ** Simulation *)

Module FoldCorrect.
Import F64Facts Coercion CoercionFacts Arith ArithFacts Fold FoldFacts.

Lemma set_known_ok known d v : (∀ r, d = Some r → (N.to_nat r < length known)%nat) →
  ∃ known', set_known known d v = Ok known' ∧ length known' = length known ∧ ∀ r, known_reg known' r = if decide (d = Some r) then v else known_reg known r.
Proof.
  intros Hd. destruct d as [r0|]; cbn [set_known]; [|exists known; split_and!; [done..|]; intros r; by rewrite decide_False].
  specialize (Hd r0 eq_refl). rewrite vec_set_lt by done. eexists. split; [done|]. split; [apply length_insert|]. intros r. unfold known_reg. case_decide as E.
  - injection E as ->. by rewrite list_lookup_insert_eq by done.
  - rewrite list_lookup_insert_ne; [done|]. intros E'. apply E. f_equal. lia.
Qed.

Lemma pool_intern_ok pool c : (N.of_nat (length pool) <= 65535)%N → let '(idx, pool') := intern pool c in
  pool `prefix_of` pool' ∧ (N.of_nat (length pool') <= 65535)%N ∧ (Forall wf_const pool → wf_const c → Forall wf_const pool') ∧ ∀ i, idx = Some i → pool' !! N.to_nat i = Some c.
Proof.
  intros Hl. unfold intern. destruct (list_find _ pool) as [[k x]|] eqn:Ef.
  - apply list_find_Some in Ef as (Hk & Hx & _). split_and!; [done|done|done|]. intros i [= <-]. pose proof (lookup_lt_Some _ _ _ Hk).
    unfold u16. rewrite N.mod_small by lia. rewrite Nat2N.id, Hk. f_equal.
    destruct x, c; cbn [const_eq] in Hx; try (by apply bool_decide_eq_true in Hx); by apply N.eqb_eq in Hx as ->.
  - destruct (N.leb_spec 65535 (N.of_nat (length pool))) as [H|H]; [split_and!; done|]. split_and!.
    + by exists [c].
    + rewrite length_app. cbn [length]. lia.
    + intros Hp Hc. apply Forall_app_2; [done|by constructor].
    + intros i [= <-]. unfold u16. rewrite N.mod_small, Nat2N.id by lia. by rewrite list_lookup_middle.
Qed.

Section correct.
Context {powf ryu derived top_level} (M : FoldMachine powf ryu derived top_level).
Abbreviation cv := (const_value fm_text).
Context (cg : OpCode → Constant → Constant → res (option Constant)).
Context (Hcg : ∀ op l r, wf_const l → wf_const r → op ∈ group_ops → mirrors fm_text (cg op l r) (run_binary powf ryu op (cv l) (cv r))).

Definition known_wf (known : table) : Prop := ∀ r c, known_reg known r = Some c → wf_const c.
Definition known_true (known : table) (regs : N → fm_value) : Prop := ∀ r c, known_reg known r = Some c → regs r = fm_prim (cv c).

(** What a folded instruction does. *)
Definition computes (known : table) (inst : Inst) (c : Constant) : Prop :=
  ∀ pool regs h hs, known_true known regs → fm_exec pool inst regs h hs = (fm_prim (cv c), h, hs, Next).

Lemma unary_computes known inst : known_wf known → i_op inst ∈ unary_ops →
  ∃ v, (match i_a inst with Reg x => match known_reg known x with Some c => fold_unary (i_op inst) c | None => Ok None end | _ => Ok None end) = Ok v ∧
    ∀ c, v = Some c → wf_const c ∧ computes known inst c.
Proof.
  intros Hw Hop. destruct (i_a inst) as [x| | | | | |] eqn:Ea; try (by exists None). destruct (known_reg known x) as [c|] eqn:Ec; [|by exists None].
  destruct (unary_mirrors fm_text fm_text_empty fm_text_typeof (i_op inst) c (Hw x c Ec)) as (v & -> & Hv).
  { unfold unary_ops in Hop. rewrite !elem_of_cons in Hop. destruct Hop as [->|[->|[->|[->|[->|Hop]]]]]; try done. by apply elem_of_nil in Hop. }
  exists v. split; [done|]. intros c' ->. destruct (Hv c' eq_refl) as [Hr Hw']. split; [done|]. intros pool regs h hs Hk. by apply (fm_unary pool inst x (cv c)); [|apply Hk|].
Qed.

Lemma binary_computes known inst t : known_wf known → (∀ l r, wf_const l → wf_const r → mirrors fm_text (t l r) (run_binary powf ryu (i_op inst) (cv l) (cv r))) →
  ∃ v, (match i_a inst, i_b inst with
        | Reg x, Reg y => match known_reg known x, known_reg known y with Some l, Some r => t l r | _, _ => Ok None end
        | _, _ => Ok None
        end) = Ok v ∧ ∀ c, v = Some c → wf_const c ∧ computes known inst c.
Proof.
  intros Hw Ht. destruct (i_a inst) as [x| | | | | |] eqn:Ea; try (by exists None). destruct (i_b inst) as [y| | | | | |] eqn:Eb; try (by exists None).
  destruct (known_reg known x) as [l|] eqn:El; [|by exists None]. destruct (known_reg known y) as [r|] eqn:Er; [|by exists None].
  destruct (Ht l r (Hw x l El) (Hw y r Er)) as (v & -> & Hv). exists v. split; [done|]. intros c ->. destruct (Hv c eq_refl) as [Hr Hw']. split; [done|].
  intros pool regs h hs Hk. by apply (fm_binary pool inst x y (cv l) (cv r)); [..|apply Hk|apply Hk|].
Qed.

Lemma folded_ok known inst : known_wf known →
  ∃ v, folded powf cg known inst = Ok v ∧ ∀ c, v = Some c → wf_const c ∧ i_op inst ∈ VOID :: unary_ops ++ arith_ops ++ group_ops ∧ computes known inst c.
Proof.
  intros Hw. destruct (decide (i_op inst ∈ VOID :: unary_ops ++ arith_ops ++ group_ops)) as [Hop|Hop].
  - assert (∃ v, folded powf cg known inst = Ok v ∧ ∀ c, v = Some c → wf_const c ∧ computes known inst c) as (v & E & H); [|exists v; naive_solver].
    apply elem_of_cons in Hop as [Hop|Hop].
    { exists (Some CUndefined). unfold folded. rewrite Hop. split; [done|]. intros c [= <-]. split; [done|]. intros pool regs h hs _. by apply fm_void. }
    rewrite !elem_of_app in Hop. destruct Hop as [Hop|Hop].
    + destruct (unary_computes known inst Hw Hop) as (v & E & H). exists v. split; [|done]. rewrite <- E. unfold folded.
      unfold unary_ops in Hop. rewrite !elem_of_cons in Hop. destruct Hop as [->|[->|[->|[->|[->|Hop]]]]]; try done. by apply elem_of_nil in Hop.
    + assert (∃ t, table_for powf cg (i_op inst) = Some t ∧ (∀ l r, wf_const l → wf_const r → mirrors fm_text (t l r) (run_binary powf ryu (i_op inst) (cv l) (cv r))) ∧
        folded powf cg known inst = match i_a inst, i_b inst with
          | Reg x, Reg y => match known_reg known x, known_reg known y with Some l, Some r => t l r | _, _ => Ok None end | _, _ => Ok None end) as (t & _ & Ht & ->);
        [|by apply binary_computes].
      destruct Hop as [Hop|Hop].
      * exists (fold_binary powf (i_op inst)). assert (table_for powf cg (i_op inst) = Some (fold_binary powf (i_op inst))) as Et.
        { unfold arith_ops in Hop. rewrite !elem_of_cons in Hop. destruct Hop as [->|[->|[->|[->|[->|[->|Hop]]]]]]; try done. by apply elem_of_nil in Hop. }
        split_and!; [done|intros l r Hl Hr; by apply binary_mirrors|]. unfold folded.
        unfold arith_ops in Hop. rewrite !elem_of_cons in Hop. destruct Hop as [->|[->|[->|[->|[->|[->|Hop]]]]]]; try done. by apply elem_of_nil in Hop.
      * exists (cg (i_op inst)). assert (table_for powf cg (i_op inst) = Some (cg (i_op inst))) as Et.
        { unfold group_ops in Hop. rewrite !elem_of_cons in Hop. repeat (destruct Hop as [->|Hop]; [done|]). by apply elem_of_nil in Hop. }
        split_and!; [done|intros l r Hl Hr; by apply Hcg|]. unfold folded.
        unfold group_ops in Hop. rewrite !elem_of_cons in Hop. repeat (destruct Hop as [->|Hop]; [done|]). by apply elem_of_nil in Hop.
  - exists None. split; [|done]. unfold folded. destruct (i_op inst); try done; exfalso; apply Hop; unfold unary_ops, arith_ops, group_ops; set_solver.
Qed.
Lemma selected_ok known inst : logic_ok inst →
  ∃ v, selected known inst = Ok v ∧ ∀ b, v = Some b → i_op inst ∈ logic_ops ∧ ∃ x y, i_a inst = Reg x ∧ i_b inst = Reg y ∧
    ∀ pool regs h hs, known_true known regs → fm_exec pool inst regs h hs = (regs (if (b : bool) then x else y), h, hs, Next).
Proof.
  intros Hlog. destruct (decide (i_op inst ∈ logic_ops)) as [Hop|Hop].
  2: { exists None. split; [|done]. unfold selected. destruct (i_op inst); try done; exfalso; apply Hop; unfold logic_ops; set_solver. }
  destruct (Hlog Hop) as (x & y & Ea & Eb). assert (selected known inst = match known_reg known x with Some c => short_circuit (i_op inst) c | None => Ok None end) as ->.
  { unfold selected. rewrite Ea. unfold logic_ops in Hop. rewrite !elem_of_cons in Hop. destruct Hop as [->|[->|[->|Hop]]]; try done. by apply elem_of_nil in Hop. }
  destruct (known_reg known x) as [c|] eqn:Ec; [|by exists None].
  rewrite (short_circuit_ok fm_text _ _ fm_text_empty) by done.
  eexists. split; [done|]. intros b Hb. apply (inj Some) in Hb as <-. split; [done|]. exists x, y. split_and!; [done..|]. intros pool regs h hs Hk.
  rewrite (fm_logic pool inst x y (cv c) regs h hs Hop Ea Eb (Hk x c Ec)). by destruct (takes_left _ _).
Qed.

(** ** One instruction *)

Context (pool0 : list Constant).

(** What the rewriting of an instruction keeps. *)
Record rewritten (known known' : table) (pool' : list Constant) (inst inst' : Inst) : Prop := {
  rw_def : def_reg inst' = def_reg inst;
  rw_same : inst' = inst ∨
    is_terminator (i_op inst) = false ∧ is_terminator (i_op inst') = false ∧
    ∀ pool regs h hs, known_true known regs → ∃ v, fm_exec pool inst regs h hs = (v, h, hs, Next);
  rw_exec regs h hs : known_true known regs → fm_exec pool' inst' regs h hs = fm_exec pool0 inst regs h hs;
  rw_known regs h hs v h' hs' : known_true known regs → fm_exec pool0 inst regs h hs = (v, h', hs', Next) →
    known_true known' (set_reg (Machine0 := pool_machine M pool0) regs (def_reg inst) v);
}.
Lemma known_set known known' d v regs w :
  (∀ r, known_reg known' r = if decide (d = Some r) then v else known_reg known r) → known_true known regs →
  (∀ c, v = Some c → w = fm_prim (cv c)) → known_true known' (set_reg (Machine0 := pool_machine M pool0) regs d w).
Proof. intros Hk Ht Hv r c Hc. rewrite Hk in Hc. unfold set_reg. case_decide; [by apply Hv|by apply Ht]. Qed.

Lemma known_set_wf known known' d v : (∀ r, known_reg known' r = if decide (d = Some r) then v else known_reg known r) →
  known_wf known → (∀ c, v = Some c → wf_const c) → known_wf known'.
Proof. intros Hk Hw Hv r c Hc. rewrite Hk in Hc. case_decide; [by apply Hv|by eapply Hw]. Qed.

(** An instruction left as it is. *)
Lemma kept known known' v pool' inst : fm_valid pool0 inst → pool0 `prefix_of` pool' →
  (∀ r, known_reg known' r = if decide (def_reg inst = Some r) then v else known_reg known r) →
  (∀ c regs h hs w h' hs', v = Some c → known_true known regs → fm_exec pool0 inst regs h hs = (w, h', hs', Next) → w = fm_prim (cv c)) →
  rewritten known known' pool' inst inst.
Proof.
  intros Hval Hpre Hk Hv. constructor; [done|by left|intros; by apply fm_pool|]. intros regs h hs w h' hs' Ht He. eapply known_set; [done..|]. intros c Hc. by eapply Hv.
Qed.

Lemma plain_moves op ops : op ∈ [LOAD_CONST; MOV] → op ∈ LOAD_CONST :: MOV :: ops.
Proof. intros H. change (op ∈ [LOAD_CONST; MOV] ++ ops). rewrite elem_of_app. by left. Qed.

(** An instruction replaced by another that computes the same value. *)
Lemma replaced known known' v pool' inst inst' : i_rd inst' = i_rd inst → i_op inst ∈ VOID :: unary_ops ++ arith_ops ++ group_ops ++ logic_ops → i_op inst' ∈ [LOAD_CONST; MOV] →
  (∀ r, known_reg known' r = if decide (def_reg inst' = Some r) then v else known_reg known r) →
  (∀ regs h hs, known_true known regs → ∃ w, (∀ pool, fm_exec pool inst regs h hs = (w, h, hs, Next)) ∧ fm_exec pool' inst' regs h hs = (w, h, hs, Next) ∧ ∀ c, v = Some c → w = fm_prim (cv c)) →
  rewritten known known' pool' inst inst'.
Proof.
  intros Hrd Hop Hop' Hk Hx. destruct (plain_ok (i_op inst)) as [Ht Hd]; [rewrite !elem_of_cons in *; tauto|]. destruct (plain_ok (i_op inst')) as [Ht' Hd']; [by apply plain_moves|].
  assert (def_reg inst' = def_reg inst) as Hdef by (by rewrite (Hd inst eq_refl), (Hd' inst' eq_refl), Hrd). constructor; [done|right|..].
  - split_and!; [done..|]. intros pool regs h hs H. destruct (Hx regs h hs H) as (w & E & _). eauto.
  - intros regs h hs H. destruct (Hx regs h hs H) as (w & E & E' & _). by rewrite E, E'.
  - intros regs h hs w' h' hs' H He. destruct (Hx regs h hs H) as (w & E & _ & Hv). rewrite E in He. simplify_eq. eapply known_set; [|done..]. by rewrite <- Hdef.
Qed.

Definition pool_ok (pool : list Constant) : Prop := pool0 `prefix_of` pool ∧ Forall wf_const pool ∧ (N.of_nat (length pool) <= 65535)%N.

(** What the scan needs of an instruction. *)
Definition inst_ok (size : nat) (inst : Inst) : Prop := fm_valid pool0 inst ∧ logic_ok inst ∧ ∀ r, def_reg inst = Some r → (N.to_nat r < size)%nat.

(** The result of a turn of the scan. *)
Definition turn (known : table) (pool : list Constant) (inst : Inst) (known' : table) (pool' : list Constant) (inst' : Inst) : Prop :=
  length known' = length known ∧ known_wf known' ∧ pool_ok pool' ∧ pool `prefix_of` pool' ∧
  ∀ poolF, pool' `prefix_of` poolF → rewritten known known' poolF inst inst'.

Lemma keep_ok known pool inst v : known_wf known → pool_ok pool → inst_ok (length known) inst → (∀ c, v = Some c → wf_const c) →
  (∀ c regs h hs w h' hs', v = Some c → known_true known regs → fm_exec pool0 inst regs h hs = (w, h', hs', Next) → w = fm_prim (cv c)) →
  ∃ known', set_known known (def_reg inst) v = Ok known' ∧ turn known pool inst known' pool inst.
Proof.
  intros Hw Hpo (Hval & _ & Hdef) Hv Hx. destruct (set_known_ok known (def_reg inst) v Hdef) as (known' & E & Hl & Hk). exists known'. split; [done|]. split_and!; try done.
  - by eapply known_set_wf.
  - intros poolF Hp. eapply kept; [done| |done..]. etrans; [apply Hpo|done].
Qed.

Lemma replace_ok known pool inst inst' pool' v : known_wf known → inst_ok (length known) inst →
  i_rd inst' = i_rd inst → i_op inst ∈ VOID :: unary_ops ++ arith_ops ++ group_ops ++ logic_ops → i_op inst' ∈ [LOAD_CONST; MOV] →
  (∀ c, v = Some c → wf_const c) → pool_ok pool' → pool `prefix_of` pool' →
  (∀ poolF regs h hs, pool' `prefix_of` poolF → known_true known regs →
    ∃ w, (∀ pool, fm_exec pool inst regs h hs = (w, h, hs, Next)) ∧ fm_exec poolF inst' regs h hs = (w, h, hs, Next) ∧ ∀ c, v = Some c → w = fm_prim (cv c)) →
  ∃ known', set_known known (def_reg inst') v = Ok known' ∧ turn known pool inst known' pool' inst'.
Proof.
  intros Hw (_ & _ & Hdef) Hrd Hop Hop' Hv Hpo Hp Hx. destruct (plain_ok (i_op inst)) as [_ Hd]; [rewrite !elem_of_cons in *; tauto|].
  destruct (plain_ok (i_op inst')) as [_ Hd']; [by apply plain_moves|].
  destruct (set_known_ok known (def_reg inst') v) as (known' & E & Hl & Hk); [intros r; rewrite (Hd' inst' eq_refl), Hrd, <- (Hd inst eq_refl); apply Hdef|].
  exists known'. split; [done|]. split_and!; try done; [by eapply known_set_wf|]. intros poolF HpF. eapply replaced; [done..|]. intros. by apply Hx.
Qed.

(** A load or a move. *)
Lemma load_turn known pool inst : known_wf known → pool_ok pool → inst_ok (length known) inst → i_op inst = LOAD_CONST →
  ∃ known', set_known known (def_reg inst) (match i_a inst with Const idx => pool !! N.to_nat idx | _ => None end) = Ok known' ∧ turn known pool inst known' pool inst.
Proof.
  intros Hw Hpo Hin Hop. pose proof Hpo as (Hpre & Hpw & _). apply keep_ok; [done..| |].
  - intros c Hc. destruct (i_a inst) as [| |idx| | | |]; try discriminate Hc. by eapply Forall_lookup_1.
  - intros c regs h hs w h' hs' Hc _ He. destruct (i_a inst) as [| |idx| | | |] eqn:Ea; try discriminate Hc. destruct Hin as (Hval & _).
    pose proof (fm_valid_load pool0 inst idx Hval Hop Ea) as Hlt. destruct (lookup_lt_is_Some_2 _ _ Hlt) as [c' Hc'].
    pose proof (prefix_lookup_Some _ _ _ _ Hc' Hpre) as E. rewrite Hc in E. apply (inj Some) in E as <-. rewrite (fm_load pool0 inst idx c regs h hs Hop Ea Hc') in He. by simplify_eq.
Qed.

Lemma mov_turn known pool inst : known_wf known → pool_ok pool → inst_ok (length known) inst → i_op inst = MOV →
  ∃ known', set_known known (def_reg inst) (match i_a inst with Reg src => known_reg known src | _ => None end) = Ok known' ∧ turn known pool inst known' pool inst.
Proof.
  intros Hw Hpo Hin Hop. apply keep_ok; [done..| |].
  - intros c Hc. destruct (i_a inst) as [src| | | | | |]; try discriminate Hc. by eapply Hw.
  - intros c regs h hs w h' hs' Hc Hk He. destruct (i_a inst) as [src| | | | | |] eqn:Ea; try discriminate Hc.
    rewrite (fm_mov pool0 inst src regs h hs Hop Ea) in He. simplify_eq. by apply Hk.
Qed.

Lemma unknown_turn known pool inst : known_wf known → pool_ok pool → inst_ok (length known) inst →
  ∃ known', set_known known (def_reg inst) None = Ok known' ∧ turn known pool inst known' pool inst.
Proof. intros. by apply keep_ok. Qed.

(** A folded instruction: replaced when the pool has room for its constant. *)
Lemma folded_turn known pool inst c : known_wf known → pool_ok pool → inst_ok (length known) inst →
  wf_const c → i_op inst ∈ VOID :: unary_ops ++ arith_ops ++ group_ops → computes known inst c →
  match intern pool c with
  | (Some idx, pool') => ∃ known', set_known known (def_reg (MkInst.load_const (i_rd inst) idx)) (Some c) = Ok known' ∧ turn known pool inst known' pool' (MkInst.load_const (i_rd inst) idx)
  | (None, pool') => pool' = pool
  end.
Proof.
  intros Hw (Hpre & Hpw & Hpl) Hin Hc Hop Hcomp. pose proof (pool_intern_ok pool c Hpl) as H.
  destruct (intern pool c) as [[idx|] pool'] eqn:Ei; [|unfold intern in Ei; destruct (list_find _ _) as [[]|]; [done|]; case_match; by simplify_eq].
  destruct H as (Hp & Hl & Hwf & Hidx). apply replace_ok; try done.
  - rewrite !elem_of_cons, !elem_of_app in *. tauto.
  - apply list_elem_of_here.
  - by intros c' [= <-].
  - split_and!; [by etrans|by apply Hwf|done].
  - intros poolF regs h hs HpF Hk. exists (fm_prim (cv c)). split_and!; [intros; by apply Hcomp| |by intros c' [= <-]].
    apply (fm_load poolF _ idx); [done..|]. eapply prefix_lookup_Some; [by apply Hidx|done].
Qed.

(** A logical operator with a known left operand. *)
Lemma selected_turn known pool inst (b : bool) x y : known_wf known → pool_ok pool → inst_ok (length known) inst →
  i_op inst ∈ logic_ops → i_a inst = Reg x → i_b inst = Reg y →
  (∀ pool regs h hs, known_true known regs → fm_exec pool inst regs h hs = (regs (if b then x else y), h, hs, Next)) →
  let mov := MkInst.inst_mov (i_rd inst) (if b then i_a inst else i_b inst) in
  ∃ known', set_known known (def_reg mov) (known_reg known (if b then x else y)) = Ok known' ∧ turn known pool inst known' pool mov.
Proof.
  intros Hw Hpo Hin Hop Ea Eb Hx mov. apply replace_ok; try done.
  - rewrite !elem_of_cons, !elem_of_app. auto 10.
  - apply list_elem_of_further, list_elem_of_here.
  - intros c. apply Hw.
  - intros poolF regs h hs _ Hk. eexists. split_and!; [intros; by apply Hx| |intros c; apply Hk].
    apply fm_mov; [done|]. cbn [mov MkInst.inst_mov MkInst.with_ext i_a]. by destruct b.
Qed.

Lemma not_moves {A} op (a b c : A) : op ≠ LOAD_CONST → op ≠ MOV → match op with LOAD_CONST => a | MOV => b | _ => c end = c.
Proof. by destruct op. Qed.

Lemma fold_inst_ok st known inst : known_wf known → pool_ok (sc_pool st) → inst_ok (length known) inst →
  ∃ known' pool' ch inst', fold_inst powf cg st known inst = Ok (emit st known' pool' ch inst') ∧ turn known (sc_pool st) inst known' pool' inst'.
Proof.
  intros Hw Hpo Hin. unfold fold_inst. destruct (decide (i_op inst = LOAD_CONST)) as [E|Hl].
  { rewrite E. destruct (load_turn known (sc_pool st) inst Hw Hpo Hin E) as (known' & -> & H). by exists known', (sc_pool st), false, inst. }
  destruct (decide (i_op inst = MOV)) as [E|Hm].
  { rewrite E. destruct (mov_turn known (sc_pool st) inst Hw Hpo Hin E) as (known' & -> & H). by exists known', (sc_pool st), false, inst. }
  rewrite not_moves by done.
  destruct (unknown_turn known (sc_pool st) inst Hw Hpo Hin) as (known0 & E0 & H0).
  destruct (folded_ok known inst Hw) as ([c|] & -> & Hf); cbn [res_bind].
  - destruct (Hf c eq_refl) as (Hc & Hop & Hcomp). pose proof (folded_turn known (sc_pool st) inst c Hw Hpo Hin Hc Hop Hcomp) as H. destruct (intern (sc_pool st) c) as [[idx|] pool'].
    + destruct H as (known' & -> & H). by eexists known', pool', true, _.
    + subst pool'. rewrite E0. by exists known0, (sc_pool st), false, inst.
  - destruct (selected_ok known inst) as ([b|] & -> & Hs); [apply Hin| |]; cbn [res_bind].
    + destruct (Hs b eq_refl) as (Hop & x & y & Ea & Eb & Hx). destruct (selected_turn known (sc_pool st) inst b x y Hw Hpo Hin Hop Ea Eb Hx) as (known' & E & H).
      assert (∀ d, match (if b then i_a inst else i_b inst) with Reg s => set_known known d (known_reg known s) | _ => Ok known end = set_known known d (known_reg known (if b then x else y))) as -> by (intros d; destruct b; by rewrite ?Ea, ?Eb).
      rewrite E. by eexists known', (sc_pool st), true, _.
    + rewrite E0. by exists known0, (sc_pool st), false, inst.
Qed.
(** ** The scan *)

Definition cleared (t : bool) (known : table) : table := if t then replicate (length known) None else known.

Lemma known_reg_none n r : known_reg (replicate n None) r = None.
Proof. unfold known_reg. destruct (replicate n None !! N.to_nat r) as [o|] eqn:E; [|done]. by apply lookup_replicate in E as [-> _]. Qed.

Lemma cleared_length t known : length (cleared t known) = length known.
Proof. destruct t; [apply length_replicate|done]. Qed.

Lemma cleared_wf t known : known_wf known → known_wf (cleared t known).
Proof. intros Hw. destruct t; [|done]. intros r c. unfold cleared. by rewrite known_reg_none. Qed.

Context (targets : list bool).

(** The tables of the scan, with the instructions it gives, position by position. *)
Fixpoint traced (pool : list Constant) (known : table) (ks : list (nat * Inst)) (tr : list (table * Inst)) : Prop :=
  match ks, tr with
  | [], [] => True
  | (i, inst) :: ks, (k, inst') :: tr =>
      ∃ t known', targets !! i = Some t ∧ k = cleared t known ∧ rewritten k known' pool inst inst' ∧ traced pool known' ks tr
  | _, _ => False
  end.

Lemma scan_ok ks st : known_wf (sc_known st) → pool_ok (sc_pool st) →
  (∀ i inst, (i, inst) ∈ ks → (i < length targets)%nat ∧ inst_ok (length (sc_known st)) inst) →
  ∃ st' tr, fold_res (scan_step powf cg targets) ks st = Ok st' ∧ pool_ok (sc_pool st') ∧ sc_pool st `prefix_of` sc_pool st' ∧
    sc_done st' = sc_done st ++ tr.*2 ∧ ∀ poolF, sc_pool st' `prefix_of` poolF → traced poolF (sc_known st) ks tr.
Proof.
  revert st. induction ks as [|[i inst] ks IH]; intros st Hw Hpo Hks.
  { exists st, []. rewrite app_nil_r. done. }
  destruct (Hks i inst) as [Hi Hin]; [apply list_elem_of_here|]. destruct (lookup_lt_is_Some_2 _ _ Hi) as [t Ht].
  destruct (fold_inst_ok st (cleared t (sc_known st)) inst) as (known' & pool' & ch & inst' & E & Hl & Hw' & Hpo' & Hp & Hrw); [by apply cleared_wf|done|by rewrite cleared_length|].
  assert (scan_step powf cg targets st (i, inst) = Ok (emit st known' pool' ch inst')) as E'.
  { unfold scan_step, vec_get. cbn [fst snd]. rewrite Ht. exact E. }
  destruct (IH (emit st known' pool' ch inst')) as (st' & tr & Ef & Hpo2 & Hp2 & Hd & Htr); [done..| |].
  { intros j inst2 Hj. destruct (Hks j inst2) as [? ?]; [by apply list_elem_of_further|]. cbn [emit sc_known]. by rewrite Hl, cleared_length. }
  exists st', ((cleared t (sc_known st), inst') :: tr). cbn [fold_res]. rewrite E'. cbn [res_bind]. split_and!; [done|done|by etrans| |].
  - rewrite Hd. cbn [emit sc_done]. by rewrite <- app_assoc.
  - intros poolF HF. cbn [traced]. exists t, known'. split_and!; [done|done|apply Hrw; by etrans|by apply Htr].
Qed.

Lemma traced_length pool known ks tr : traced pool known ks tr → length tr = length ks.
Proof. revert known tr. induction ks as [|[i inst] ks IH]; intros known [|[k inst'] tr]; try done. cbn. intros (? & ? & _ & _ & _ & H). f_equal. by eapply IH. Qed.

(** What the trace says at a position and at the next one. *)
Lemma traced_at pool known ks tr j i inst : traced pool known ks tr → ks !! j = Some (i, inst) →
  ∃ k known' inst', tr !! j = Some (k, inst') ∧ rewritten k known' pool inst inst' ∧ (targets !! i = Some true → ∀ r, known_reg k r = None) ∧
    ∀ k2 inst2 i2 inst2', tr !! S j = Some (k2, inst2') → ks !! S j = Some (i2, inst2) → ∃ t, k2 = cleared t known'.
Proof.
  revert known ks tr. induction j as [|j IH]; intros known [|[i0 inst0] ks] [|[k inst'] tr]; try done; cbn [traced]; intros (t & known' & Ht & -> & Hrw & Htr) Hj.
  - cbn in Hj. simplify_eq. eexists _, known', inst'. split_and!; [done|done| |].
    + intros E r. rewrite Ht in E. simplify_eq. apply known_reg_none.
    + intros k2 inst2 i2 inst2' H1 H2. cbn in H1, H2. destruct ks as [|[] ks], tr as [|[] tr]; try done. cbn in H1, H2. simplify_eq. destruct Htr as (t2 & ? & _ & -> & _). eauto.
  - by apply (IH known' ks tr).
Qed.
End correct.
(** ** Runs *)

Section simulation.
Context {powf ryu derived top_level} (M : FoldMachine powf ryu derived top_level).

(** States and results with the pool replaced. *)
Definition moved {p p'} (s : state (Machine0 := pool_machine M p)) : state (Machine0 := pool_machine M p') :=
  mkState (Machine0 := pool_machine M p') (s_pc s) (s_regs s) (s_heap s) (s_handlers s).

Definition moved_outcome {p p'} (o : Compact.outcome (Machine0 := pool_machine M p)) : Compact.outcome (Machine0 := pool_machine M p') :=
  match o with Finished v h => Finished (Machine0 := pool_machine M p') v h | Uncaught e h => Uncaught (Machine0 := pool_machine M p') e h end.

Context (f f' : IRFunction) (known0 : table) (tr : list (table * Inst)).
Context (Hinsts : insts f' = tr.*2) (Hlabels : label_pos f' = label_pos f).
Context (Htr : traced M (constants f) (label_bits f) (constants f') known0 (enumerate (insts f)) tr).
Abbreviation pm := (pool_machine M (constants f)).
Abbreviation pm' := (pool_machine M (constants f')).

(** The registers hold what the table at the position says. *)
Definition at_ok (pc : nat) (regs : N → fm_value) : Prop := ∀ k inst', tr !! pc = Some (k, inst') → known_true M k regs.

Lemma tr_length : length tr = length (insts f).
Proof. rewrite (traced_length _ _ _ _ _ _ _ Htr). unfold enumerate. apply length_imap. Qed.

Lemma at_inst pc inst regs h hs : insts f !! pc = Some inst → at_ok pc regs →
  ∃ inst', insts f' !! pc = Some inst' ∧ fm_exec (constants f') inst' regs h hs = fm_exec (constants f) inst regs h hs ∧ def_reg inst' = def_reg inst ∧
    (inst' = inst ∨ is_terminator (i_op inst) = false ∧ is_terminator (i_op inst') = false ∧ ∃ v, fm_exec (constants f) inst regs h hs = (v, h, hs, Next)) ∧
    ∀ v h' hs', fm_exec (constants f) inst regs h hs = (v, h', hs', Next) → at_ok (S pc) (set_reg (Machine0 := pm) regs (def_reg inst) v).
Proof.
  intros Hi Hat. destruct (traced_at M (constants f) (label_bits f) (constants f') known0 (enumerate (insts f)) tr pc pc inst Htr) as (k & known' & inst' & Ej & Hrw & _ & Hnext).
  { unfold enumerate. by rewrite list_lookup_imap, Hi. }
  specialize (Hat k inst' Ej). exists inst'. split_and!; [by rewrite Hinsts, list_lookup_fmap, Ej|by apply Hrw|apply Hrw| |].
  - destruct (rw_same _ _ _ _ _ _ _ Hrw) as [?|(? & ? & Hx)]; [by left|right; split_and!; [done..|by apply Hx]].
  - intros v h' hs' He k2 inst2' E2. pose proof (lookup_lt_Some _ _ _ E2) as Hlt. rewrite tr_length in Hlt. destruct (lookup_lt_is_Some_2 _ _ Hlt) as [inst2 Hi2].
    destruct (Hnext k2 inst2 (S pc) inst2') as [t ->]; [done|unfold enumerate; by rewrite list_lookup_imap, Hi2|].
    pose proof (rw_known _ _ _ _ _ _ _ Hrw regs h hs v h' hs' Hat He) as Hk. destruct t; [|done]. intros r c. unfold cleared. by rewrite known_reg_none.
Qed.

(** At a label nothing is known. *)
Lemma at_target p l regs : label_target f l = Some p → (p < length (insts f))%nat → at_ok p regs.
Proof.
  intros Hl Hp k inst' Ej r c Hr. destruct (lookup_lt_is_Some_2 _ _ Hp) as [inst Hi].
  destruct (traced_at M (constants f) (label_bits f) (constants f') known0 (enumerate (insts f)) tr p p inst Htr) as (k' & known' & inst2 & Ej' & _ & Ht & _).
  { unfold enumerate. by rewrite list_lookup_imap, Hi. }
  rewrite Ej in Ej'. simplify_eq. rewrite Ht in Hr; [done|]. apply label_bits_true; [done|]. unfold label_target in Hl.
  destruct (label_pos f !! N.to_nat l) as [o|] eqn:Eo; [|done]. cbn in Hl. subst o. by eapply list_elem_of_lookup_2.
Qed.

Lemma labels_same l : label_target f' l = label_target f l.
Proof. unfold label_target. by rewrite Hlabels. Qed.

Lemma step_folded (s t : state (Machine0 := pm)) : at_ok (s_pc s) (s_regs s) → step f s t → step (Machine0 := pm') f' (moved s) (moved t) ∧ at_ok (s_pc t) (s_regs t).
Proof.
  intros Hat Hs. pose proof tr_length as Hlen. assert (length (insts f') = length (insts f)) as Hlen' by (by rewrite Hinsts, length_fmap).
  destruct Hs as [pc regs h hs inst v h' hs' Hi He Ht|pc regs h hs inst v h' hs' p Hi He Hb (l & Hl & Hp) Hlt|pc regs h hs inst v h' hs' e l p Hi He Hp Hlt];
    destruct (at_inst pc inst regs h hs Hi Hat) as (inst' & Hi' & Ex & Hd & Hsame & Hn); change (exec inst regs h hs) with (fm_exec (constants f) inst regs h hs) in He; rewrite He in Ex.
  - split; [|by eapply Hn]. unfold moved. cbn [s_pc s_regs s_heap s_handlers]. rewrite <- Hd. apply (step_next (Machine0 := pm') f' pc regs h hs inst' v h' hs'); [done..|].
    destruct Hsame as [->|(_ & ? & _)]; [done|by left].
  - split; [|by eapply at_target]. destruct Hsame as [->|(_ & _ & v0 & E0)]; [|rewrite He in E0; by simplify_eq]. unfold moved. cbn [s_pc s_regs s_heap s_handlers].
    apply (step_branch (Machine0 := pm') f' pc regs h hs inst v h' hs'); [done..|exists l; by rewrite labels_same|by rewrite Hlen'].
  - split; [|by eapply at_target]. unfold moved. cbn [s_pc s_regs s_heap s_handlers].
    eapply (step_raise (Machine0 := pm') f' pc regs h hs inst' v h' hs' e l); [done..|by rewrite labels_same|by rewrite Hlen'].
Qed.

Lemma at_inst' pc inst' regs h hs : insts f' !! pc = Some inst' → at_ok pc regs →
  ∃ inst, insts f !! pc = Some inst ∧ fm_exec (constants f') inst' regs h hs = fm_exec (constants f) inst regs h hs ∧ def_reg inst' = def_reg inst ∧
    (inst' = inst ∨ is_terminator (i_op inst) = false ∧ ∃ v, fm_exec (constants f) inst regs h hs = (v, h, hs, Next)).
Proof.
  intros Hi' Hat. pose proof (lookup_lt_Some _ _ _ Hi') as Hlt. rewrite Hinsts, length_fmap, tr_length in Hlt. destruct (lookup_lt_is_Some_2 _ _ Hlt) as [inst Hi].
  destruct (at_inst pc inst regs h hs Hi Hat) as (inst2 & Hi2 & Ex & Hd & Hsame & _). rewrite Hi' in Hi2. simplify_eq. exists inst. split_and!; [done..|]. destruct Hsame as [?|(? & _ & ?)]; auto.
Qed.

Lemma step_unfolded (s : state (Machine0 := pm)) u : at_ok (s_pc s) (s_regs s) → step (Machine0 := pm') f' (moved s) u → ∃ t, u = moved t ∧ step f s t.
Proof.
  intros Hat Hs. assert (length (insts f') = length (insts f)) as Hlen' by (rewrite Hinsts, length_fmap; apply tr_length). destruct s as [pc regs h hs]. cbn [s_pc s_regs] in Hat. unfold moved in Hs. cbn [s_pc s_regs s_heap s_handlers] in Hs.
  inversion Hs as [? ? ? ? inst' v h' hs' Hi' He Ht|? ? ? ? inst' v h' hs' p Hi' He Hb (l & Hl & Hp) Hlt|? ? ? ? inst' v h' hs' e l p Hi' He Hp Hlt]; subst;
    destruct (at_inst' pc inst' regs h hs Hi' Hat) as (inst & Hi & Ex & Hd & Hsame);
    change (exec (Machine := pm') inst' regs h hs) with (fm_exec (constants f') inst' regs h hs) in He; rewrite Ex in He.
  - exists (mkState (Machine0 := pm) (S pc) (set_reg (Machine0 := pm) regs (def_reg inst) v) h' hs'). split; [by rewrite Hd|]. apply step_next; [done..|]. destruct Hsame as [->|(? & _)]; [done|by left].
  - exists (mkState (Machine0 := pm) p (set_reg (Machine0 := pm) regs (def_reg inst) v) h' hs'). split; [by rewrite Hd|].
    destruct Hsame as [->|(_ & v0 & E0)]; [|rewrite He in E0; by simplify_eq]. rewrite labels_same in Hp. rewrite Hlen' in Hlt. eapply step_branch; [done..| |done]. by exists l.
  - exists (mkState (Machine0 := pm) p (set_reg (Machine0 := pm) regs (Some 0%N) e) h' hs'). split; [done|]. rewrite labels_same in Hp. rewrite Hlen' in Hlt. by eapply step_raise.
Qed.

Lemma finishes_folded (s : state (Machine0 := pm)) o : at_ok (s_pc s) (s_regs s) → finishes f s o → finishes (Machine0 := pm') f' (moved s) (moved_outcome o).
Proof.
  intros Hat Hf. destruct Hf as [pc regs h hs inst v h' hs' x Hi He|pc regs h hs inst v h' e Hi He]; destruct (at_inst pc inst regs h hs Hi Hat) as (inst' & Hi' & Ex & _);
    change (exec inst regs h hs) with (fm_exec (constants f) inst regs h hs) in He; rewrite He in Ex; [by eapply (finishes_stop (Machine0 := pm'))|by eapply (finishes_raise (Machine0 := pm'))].
Qed.

Lemma finishes_unfolded (s : state (Machine0 := pm)) o : at_ok (s_pc s) (s_regs s) → finishes (Machine0 := pm') f' (moved s) (moved_outcome o) → finishes f s o.
Proof.
  intros Hat Hf. destruct s as [pc regs h hs]. unfold moved in Hf. cbn [s_pc s_regs s_heap s_handlers] in *.
  destruct o; cbn [moved_outcome] in Hf; inversion Hf as [? ? ? ? i ? ? ? ? Hi He|? ? ? ? i ? ? ? Hi He]; subst; destruct (at_inst' pc i regs h hs Hi Hat) as (inst & Hi' & Ex & _);
    change (exec (Machine := pm') i regs h hs) with (fm_exec (constants f') i regs h hs) in He; rewrite Ex in He; [by eapply finishes_stop|by eapply finishes_raise].
Qed.

Lemma runs_folded (s : state (Machine0 := pm)) o : at_ok (s_pc s) (s_regs s) → runs_to f s o ↔ runs_to (Machine0 := pm') f' (moved s) (moved_outcome o).
Proof.
  intros Hat. split.
  - intros (s' & Hs & Hf). assert (rtc (step (Machine0 := pm') f') (moved s) (moved s') ∧ at_ok (s_pc s') (s_regs s')) as [Hr Hat'].
    { clear Hf. induction Hs as [s|s t s' Hst _ IH]; [done|]. destruct (step_folded s t Hat Hst) as [H1 H2]. destruct (IH H2) as [H3 H4]. split; [by eapply rtc_l|done]. }
    exists (moved s'). split; [done|by apply finishes_folded].
  - intros (u & Hs & Hf). assert (∃ s', u = moved s' ∧ rtc (step f) s s' ∧ at_ok (s_pc s') (s_regs s')) as (s' & -> & Hr & Hat').
    { clear Hf. remember (moved s) as s0 eqn:E0. revert s Hat E0. induction Hs as [u0|u0 t u Hst _ IH]; intros s Hat ->; [by exists s|].
      destruct (step_unfolded s t Hat Hst) as (t' & -> & Hst'). destruct (step_folded s t' Hat Hst') as [_ Hat']. destruct (IH t' Hat' eq_refl) as (s' & -> & Hr & H). exists s'. split_and!; [done|by eapply rtc_l|done]. }
    exists s'. split; [done|by apply finishes_unfolded].
Qed.
End simulation.
(** ** Functions *)

(** The table for the bitwise and relational operators that leaves [<=] and [>=]
    on incomparable numbers alone. *)
Definition fold_c_safe (op : OpCode) (l r : Constant) : res (option Constant) :=
  match op, const_to_jsvalue l, const_to_jsvalue r with
  | LTE, Some a, Some b => if relational_compare b a is None then Ok None else fold_c_group op l r
  | GTE, Some a, Some b => if relational_compare a b is None then Ok None else fold_c_group op l r
  | _, _, _ => fold_c_group op l r
  end.

Lemma safe_mirrors text powf ryu op l r : wf_const l → wf_const r → op ∈ group_ops →
  mirrors text (fold_c_safe op l r) (run_binary powf ryu op (const_value text l) (const_value text r)).
Proof.
  intros Hl Hr Hop. destruct (decide (op = LTE)) as [->|H1]; [|destruct (decide (op = GTE)) as [->|H2]].
  1-2: cbn [fold_c_safe]; destruct (const_to_jsvalue l) as [a|] eqn:El; [|unfold fold_c_group; rewrite El; destruct (_ || _); apply mirrors_none];
    destruct (const_to_jsvalue r) as [b|] eqn:Er; [|unfold fold_c_group; rewrite El, Er; destruct (_ || _); apply mirrors_none];
    case_match eqn:Ec; [|apply mirrors_none]; apply group_mirrors; try done; intros _; by rewrite (jsvalue_const text l a El), (jsvalue_const text r b Er), Ec.
  replace (fold_c_safe op l r) with (fold_c_group op l r) by (by destruct op). by apply group_mirrors.
Qed.

(** What the emitter gives: constants in range, register numbers below the
    largest word, constants in the pool and logical operators on registers. *)
Record foldable {powf ryu derived top_level} (M : FoldMachine powf ryu derived top_level) (f : IRFunction) : Prop := {
  fo_consts : Forall wf_const (constants f);
  fo_pool : (N.of_nat (length (constants f)) <= 65535)%N;
  fo_regs : (fold_left max_reg_of (insts f) 0 < 2^32 - 1)%N;
  fo_insts inst : inst ∈ insts f → fm_valid (constants f) inst ∧ logic_ok inst;
}.

(** The runs of [f] and of [g], each with its own pool, give the same results. *)
Definition same_runs {powf ryu derived top_level} (M : FoldMachine powf ryu derived top_level) (f g : IRFunction) : Prop :=
  ∀ (s : state (Machine0 := pool_machine M (constants f))) o, s_pc s = 0%nat → runs_to f s o ↔ runs_to (Machine0 := pool_machine M (constants g)) g (moved M s) (moved_outcome M o).

Lemma same_runs_refl {powf ryu derived top_level} (M : FoldMachine powf ryu derived top_level) f : same_runs M f f.
Proof. intros s o _. replace (moved M s) with s by (by destruct s). by replace (moved_outcome M o) with o by (by destruct o). Qed.

Lemma function_ok {powf ryu derived top_level} (M : FoldMachine powf ryu derived top_level) f : foldable M f →
  ∃ ch g, fold_function_with powf fold_c_safe f = Ok (ch, g) ∧ same_runs M f g ∧ constants f `prefix_of` constants g ∧ length (insts g) = length (insts f) ∧ g = with_folded f (insts g) (constants g) (nested f).
Proof.
  intros [Hc Hp Hr Hi]. unfold fold_function_with. destruct (const_overflow f) eqn:Eo.
  { exists false, f. split_and!; [done|apply same_runs_refl|done..|by destruct f]. }
  set (size := N.to_nat (table_size f)). assert (∀ inst r, inst ∈ insts f → def_reg inst = Some r → (N.to_nat r < size)%nat) as Hsize.
  { intros inst r Hin Hd. pose proof (max_regs_elem (insts f) 0%N inst r Hin (or_introl Hd)). unfold size, table_size, u32. rewrite N.mod_small by lia. lia. }
  destruct (scan_ok M fold_c_safe (safe_mirrors fm_text powf ryu) (constants f) (label_bits f) (enumerate (insts f)) (mkScan (replicate size None) (constants f) false [])) as (st & tr & E & Hpo & Hpre & Hd & Htr).
  - intros r c. cbn [sc_known]. by rewrite known_reg_none.
  - done.
  - intros i inst [k [E Hk]%enumerate_lookup]%list_elem_of_lookup. cbn [sc_known fst snd] in *. subst i. rewrite label_bits_length, length_replicate.
    split; [by eapply lookup_lt_Some|]. apply list_elem_of_lookup_2 in Hk. destruct (Hi inst Hk). split_and!; [done..|]. intros r. by apply Hsize.
  - rewrite E. cbn [res_bind]. eexists _, _. split; [done|]. specialize (Htr (sc_pool st) ltac:(done)). cbn [sc_known sc_done app] in *.
    pose proof (traced_length _ _ _ _ _ _ _ Htr) as Hl. unfold enumerate in Hl. rewrite length_imap in Hl. split_and!; [|done|by cbn; rewrite Hd, length_fmap|done].
    intros s o H0. eapply (runs_folded M f _ (replicate size None) tr); [done|done|exact Htr|]. rewrite H0. intros k inst' Hk r c Hrc. destruct tr as [|[k0 i0] tr]; [done|]. cbn in Hk. simplify_eq.
    destruct (insts f) as [|inst is']; [done|]. destruct Htr as (t & known' & _ & -> & _). exfalso. destruct t; unfold cleared in Hrc; by rewrite known_reg_none in Hrc.
Qed.
(** ** Trees of functions *)

Fixpoint all_functions (P : IRFunction → Prop) (f : IRFunction) : Prop := P f ∧ foldr (λ g Q, all_functions P g ∧ Q) True (nested f).

(** [g] is [f] with every function replaced by one with the same runs. *)
Inductive same_tree {powf ryu} (M : ∀ derived top_level, FoldMachine powf ryu derived top_level) : IRFunction → IRFunction → Prop :=
  | same_tree_intro f g : same_runs (M (is_derived_constructor f) (is_top_level f)) f g → Forall2 (same_tree M) (nested f) (nested g) →
      g = with_folded f (insts g) (constants g) (nested g) → same_tree M f g.

(** The function is foldable, and folding it meets no [<=] or [>=] on incomparable numbers. *)
Definition fold_input {powf ryu} (M : ∀ derived top_level, FoldMachine powf ryu derived top_level) (f : IRFunction) : Prop :=
  foldable (M (is_derived_constructor f) (is_top_level f)) f ∧ fold_function powf f = fold_function_with powf fold_c_safe f.

(** A run sees the instructions and the labels of the function only. *)
Lemma runs_code {derived top_level} (M : Machine derived top_level) f g s o : insts f = insts g → label_pos f = label_pos g → runs_to f s o → runs_to g s o.
Proof.
  intros Ei El (s' & Hs & Hf). assert (∀ l, label_target f l = label_target g l) as Hl by (intros; unfold label_target; by rewrite El). exists s'. split.
  - eapply rtc_subrel; [|done]. intros a b [pc regs h hs inst v h' hs' Hi|pc regs h hs inst v h' hs' p Hi He Hb (l & Hl1 & Hl2) Hlt|pc regs h hs inst v h' hs' e l p Hi He Hp Hlt]; rewrite ?Ei, ?Hl in *.
    + by apply step_next.
    + eapply step_branch; [done..| |done]. by exists l.
    + by eapply step_raise.
  - destruct Hf; rewrite Ei in *; [by eapply finishes_stop|by eapply finishes_raise].
Qed.

Lemma fold_unfold powf f : Fold.fold powf f =
  (let* r := fold_function powf f in let '(changed, g) := r in let* subs := map_res (Fold.fold powf) (nested f) in Ok (changed || existsb fst subs, with_nested g (snd <$> subs))).
Proof. by destruct f. Qed.

Lemma fold_ok {powf ryu} (M : ∀ derived top_level, FoldMachine powf ryu derived top_level) :
  ∀ f, all_functions (fold_input M) f → ∃ ch g, Fold.fold powf f = Ok (ch, g) ∧ same_tree M f g.
Proof.
  fix IH 1. intros f Hf. assert (∃ subs, map_res (Fold.fold powf) (nested f) = Ok subs ∧ Forall2 (same_tree M) (nested f) (snd <$> subs)) as (subs & Es & Hsubs).
  { destruct f. cbn in Hf |- *. destruct Hf as [_ Hn]. revert Hn. match goal with |- foldr _ _ ?l → _ => induction l as [|g gs IHg] end; intros Hn; [by exists []|].
    destruct Hn as [Hg Hgs]. destruct (IH g Hg) as (ch & g' & E & Ht). destruct (IHg Hgs) as (subs & Es & Hs). exists ((ch, g') :: subs). cbn [map_res]. rewrite E. cbn [res_bind]. rewrite Es. split; [done|by constructor]. }
  assert (fold_input M f) as [Hfo Heq] by (destruct f; apply Hf). destruct (function_ok _ f Hfo) as (ch & g & E & Hr & _ & _ & Hg). rewrite <- Heq in E.
  exists (ch || existsb fst subs), (with_nested g (snd <$> subs)). split.
  { rewrite fold_unfold, E. cbn [res_bind]. rewrite Es. done. }
  constructor; [|done|by rewrite Hg]. intros s o H0. rewrite (Hr s o H0). split; by apply runs_code.
Qed.
(** ** A machine on primitive values *)

Section prim.
Context (powf : N → N → N) (ryu : N → list N).

Definition prim_result (o : option outcome) : Prim := match o with Some ([], Some w) => w | _ => PUndefined end.

Definition prim_operate (op : OpCode) (ins : list Prim) : Prim :=
  match ins with
  | [x] => prim_result (run_unary op x)
  | [x; y] => if bool_decide (op ∈ logic_ops) then (if takes_left op x then x else y) else prim_result (run_binary powf ryu op x y)
  | _ => PUndefined
  end.

Definition prim_constant (pool : list Constant) (o : Operand) : Prim :=
  match o with Const idx => default PUndefined (const_value bytes_of <$> pool !! N.to_nat idx) | _ => PUndefined end.

(** Returns and conditional jumps act on the first register they read. *)
Definition prim_exec (pool : list Constant) (inst : Inst) (regs : N → Prim) (h : unit) (hs : list N) : Prim * unit * list N * control Prim :=
  let ins := regs <$> use_regs inst in
  let first := default PUndefined (head ins) in
  match i_op inst with
  | RETURN => (PUndefined, h, hs, Stop first)
  | JMP => (PUndefined, h, hs, Branch)
  | JMP_IF_FALSE => (PUndefined, h, hs, if to_boolean first then Next else Branch)
  | JMP_IF_TRUE => (PUndefined, h, hs, if to_boolean first then Branch else Next)
  | LOAD_CONST => (prim_constant pool (i_a inst), h, hs, Next)
  | MOV => (first, h, hs, Next)
  | op => (prim_operate op ins, h, hs, Next)
  end.

Definition prim_valid (pool : list Constant) (inst : Inst) : Prop :=
  match i_op inst, i_a inst with LOAD_CONST, Const idx => (N.to_nat idx < length pool)%nat | _, _ => True end.

Lemma uses_unary inst x : i_op inst ∈ MOV :: unary_ops → i_a inst = Reg x → use_regs inst = [x].
Proof. intros Hop Ha. unfold unary_ops in Hop. rewrite !elem_of_cons in Hop. unfold use_regs. repeat (destruct Hop as [->|Hop]; [cbn; by rewrite Ha|]). by apply elem_of_nil in Hop. Qed.

Lemma uses_binary inst x y : i_op inst ∈ arith_ops ++ group_ops ++ logic_ops → i_a inst = Reg x → i_b inst = Reg y → use_regs inst = [x; y].
Proof. intros Hop Ha Hb. unfold arith_ops, group_ops, logic_ops in Hop. cbn [app] in Hop. rewrite !elem_of_cons in Hop. unfold use_regs. repeat (destruct Hop as [->|Hop]; [cbn; by rewrite Ha, Hb|]). by apply elem_of_nil in Hop. Qed.

Lemma run_unary_ops op v o : run_unary op v = Some o → op ∈ unary_ops.
Proof. unfold unary_ops. destruct op; try discriminate; intros _; rewrite !elem_of_cons; auto 10. Qed.

Lemma run_binary_ops op v w o : run_binary powf ryu op v w = Some o → op ∈ arith_ops ++ group_ops.
Proof. intros H. apply (bool_decide_unpack _). destruct op; first [discriminate H|by vm_compute]. Qed.

Lemma prim_plain pool inst regs h hs : i_op inst ∈ unary_ops ++ arith_ops ++ group_ops ++ logic_ops →
  prim_exec pool inst regs h hs = (prim_operate (i_op inst) (regs <$> use_regs inst), h, hs, Next).
Proof.
  intros Hop. unfold prim_exec. generalize (regs <$> use_regs inst). intros ins. unfold unary_ops, arith_ops, group_ops, logic_ops in Hop. cbn [app] in Hop. rewrite !elem_of_cons in Hop.
  repeat (destruct Hop as [->|Hop]; [reflexivity|]). by apply elem_of_nil in Hop.
Qed.

Lemma prim_reads pool inst regs regs' h hs : (∀ r, r ∈ use_regs inst → regs r = regs' r) → prim_exec pool inst regs h hs = prim_exec pool inst regs' h hs.
Proof.
  intros Hr. unfold prim_exec. assert (regs <$> use_regs inst = regs' <$> use_regs inst) as ->; [|done]. apply list_fmap_ext. intros i r Hi. by eapply Hr, list_elem_of_lookup_2.
Qed.

Lemma prim_pure derived pool inst g regs h hs : is_derived_constructor g = derived → is_pure inst g = true → ∃ v, prim_exec pool inst regs h hs = (v, h, hs, Next).
Proof. intros _ Hp. unfold is_pure in Hp. apply andb_true_iff in Hp as [Hp _]. unfold prim_exec. destruct (i_op inst); try (by vm_compute in Hp); by eexists. Qed.

Lemma prim_local_store (top_level : bool) pool inst regs h hs : top_level = false → i_op inst = STORE_VAR → i_b inst = Imm 0 → ∃ v, prim_exec pool inst regs h hs = (v, h, hs, Next).
Proof. intros _ Ho _. unfold prim_exec. rewrite Ho. by eexists. Qed.

Lemma prim_handlers pool inst regs h hs v h' hs' c l : prim_exec pool inst regs h hs = (v, h', hs', c) → l ∈ hs' →
  l ∈ hs ∨ (i_op inst = TRY_BEGIN ∨ i_op inst = TRY_FINALLY_BEGIN) ∧ i_b inst = Label l.
Proof. intros He Hl. unfold prim_exec in He. destruct (i_op inst); injection He as <- <- <- <-; auto. Qed.

Lemma prim_text_empty s : bytes_of s = [] ↔ s = EmptyString.
Proof. unfold bytes_of. destruct s; [done|]. split; done. Qed.

Lemma prim_valid_load pool inst idx : prim_valid pool inst → i_op inst = LOAD_CONST → i_a inst = Const idx → (N.to_nat idx < length pool)%nat.
Proof. intros Hv Ho Ha. unfold prim_valid in Hv. by rewrite Ho, Ha in Hv. Qed.

Lemma prim_load pool inst idx c regs h hs : i_op inst = LOAD_CONST → i_a inst = Const idx → pool !! N.to_nat idx = Some c →
  prim_exec pool inst regs h hs = (const_value bytes_of c, h, hs, Next).
Proof. intros Ho Ha Hc. unfold prim_exec. rewrite Ho, Ha. cbn [prim_constant]. by rewrite Hc. Qed.

Lemma prim_pool pool pool' inst regs h hs : prim_valid pool inst → pool `prefix_of` pool' → prim_exec pool' inst regs h hs = prim_exec pool inst regs h hs.
Proof.
  intros Hv Hp. unfold prim_exec. assert (i_op inst = LOAD_CONST → prim_constant pool' (i_a inst) = prim_constant pool (i_a inst)) as H.
  { intros E. unfold prim_valid in Hv. rewrite E in Hv. destruct (i_a inst) as [| |idx| | | |]; try done. cbn [prim_constant].
    destruct (lookup_lt_is_Some_2 _ _ Hv) as [c Hc]. by rewrite Hc, (prefix_lookup_Some _ _ _ _ Hc Hp). }
  destruct (i_op inst); try reflexivity. by rewrite H.
Qed.

Lemma prim_mov pool inst src regs h hs : i_op inst = MOV → i_a inst = Reg src → prim_exec pool inst regs h hs = (regs src, h, hs, Next).
Proof. intros Ho Ha. unfold prim_exec. rewrite (uses_unary inst src); [by rewrite Ho|rewrite Ho; apply list_elem_of_here|done]. Qed.

Lemma prim_void pool inst regs h hs : i_op inst = VOID → prim_exec pool inst regs h hs = (PUndefined, h, hs, Next).
Proof. intros Ho. unfold prim_exec, use_regs. rewrite Ho. by cbn. Qed.

Lemma prim_unary pool inst x v w regs h hs : i_a inst = Reg x → regs x = v → run_unary (i_op inst) v = Some (writes w) → prim_exec pool inst regs h hs = (w, h, hs, Next).
Proof.
  intros Ha Hx Hr. pose proof (run_unary_ops _ _ _ Hr) as Hop. rewrite prim_plain by (apply elem_of_app; by left). rewrite (uses_unary inst x); [|by apply list_elem_of_further|done].
  cbn [fmap list_fmap prim_operate]. by rewrite Hx, Hr.
Qed.

Lemma prim_binary pool inst x y v v' w regs h hs : i_a inst = Reg x → i_b inst = Reg y → regs x = v → regs y = v' →
  run_binary powf ryu (i_op inst) v v' = Some (writes w) → prim_exec pool inst regs h hs = (w, h, hs, Next).
Proof.
  intros Ha Hb Hx Hy Hr. pose proof (run_binary_ops _ _ _ _ Hr) as Hop. assert (i_op inst ∉ logic_ops) as Hl.
  { clear -Hop. intros Hl. unfold logic_ops in Hl. rewrite !elem_of_cons in Hl. apply (bool_decide_pack _) in Hop. destruct Hl as [E|[E|[E|Hl]]]; [..|by apply elem_of_nil in Hl]; by rewrite E in Hop. }
  rewrite elem_of_app in Hop. rewrite prim_plain by (rewrite !elem_of_app; tauto). rewrite (uses_binary inst x y); [|rewrite !elem_of_app; tauto|done..].
  cbn [fmap list_fmap prim_operate]. rewrite bool_decide_false by done. by rewrite Hx, Hy, Hr.
Qed.

Lemma prim_logic pool inst x y v regs h hs : i_op inst ∈ logic_ops → i_a inst = Reg x → i_b inst = Reg y → regs x = v →
  prim_exec pool inst regs h hs = (if takes_left (i_op inst) v then regs x else regs y, h, hs, Next).
Proof.
  intros Hop Ha Hb Hx. rewrite prim_plain by (rewrite !elem_of_app; auto). rewrite (uses_binary inst x y); [|rewrite !elem_of_app; auto|done..].
  cbn [fmap list_fmap prim_operate]. by rewrite bool_decide_true, Hx by done.
Qed.

#[export] Instance prim_machine derived top_level : FoldMachine powf ryu derived top_level :=
  {| fm_value := Prim; fm_heap := unit; fm_prim := λ v, v; fm_text := bytes_of; fm_exec := prim_exec; fm_valid := prim_valid;
     fm_reads := prim_reads; fm_pure := prim_pure derived; fm_local_store := prim_local_store top_level; fm_handlers := prim_handlers;
     fm_text_empty := prim_text_empty; fm_text_typeof t _ := eq_refl; fm_valid_load := prim_valid_load; fm_pool := prim_pool; fm_load := prim_load;
     fm_mov := prim_mov; fm_void := prim_void; fm_unary := prim_unary; fm_binary := prim_binary; fm_logic := prim_logic |}.
End prim.
End FoldCorrect.

(** ** Properties *)

Import Coercion CoercionFacts Arith ArithFacts Fold FoldFacts FoldCorrect.

(** C11: constant folding is total on a tree of functions as the emitter gives it,
    and every function of the result, run with its own constant pool from its
    first instruction, finishes with exactly the results of the function it
    replaces, on every machine that executes loads, moves and the folded
    operators as their handlers do; jumps, handlers and loops included.  The
    hypothesis excludes functions in which [<=] or [>=] is folded on NaN. *)
Theorem fold_preserves (powf : N → N → N) (ryu : N → list N) (M : ∀ derived top_level, FoldMachine powf ryu derived top_level) (f : IRFunction) :
  all_functions (fold_input M) f → ∃ changed g, Fold.fold powf f = Ok (changed, g) ∧ same_tree M f g.
Proof. apply fold_ok. Qed.

(** [2 * 3 + 1] and a choice, with a loop target before the second half. *)
Definition sample_fold : IRFunction :=
  with_folded (with_code ir_new [] [Some 4%nat])
    [MkInst.load_const (Reg 1) 0; MkInst.load_const (Reg 2) 1;
     MkInst.new MUL (Reg 3) (Reg 1) (Reg 2); MkInst.new OR (Reg 4) (Reg 3) (Reg 5);
     MkInst.new ADD (Reg 6) (Reg 4) (Reg 1); MkInst.ret (Reg 6) 0 0 0]
    [CInt 2; CInt 3] [].

Definition sample_nested : IRFunction := with_nested sample_fold [sample_fold].

Lemma sample_fold_input subs : fold_input (prim_machine (λ x _, x) (λ _, [])) (with_nested sample_fold subs).
Proof.
  split; [|by vm_compute]. constructor.
  - repeat constructor; cbn; unfold i32; lia.
  - by vm_compute.
  - by vm_compute.
  - intros inst Hi. cbn in Hi. rewrite !elem_of_cons in Hi.
    repeat (destruct Hi as [->|Hi]; [split; [cbn; try lia; done|intros H; first [by eexists _, _|apply (bool_decide_pack _) in H; by vm_compute in H]]|]). by apply elem_of_nil in Hi.
Qed.

Lemma fold_preserves_witness : ∃ g, Fold.fold (λ x _, x) sample_nested = Ok (true, g) ∧
  insts g !! 2%nat = Some (MkInst.load_const (Reg 3) 2) ∧ insts g !! 3%nat = Some (MkInst.inst_mov (Reg 4) (Reg 3)) ∧ same_tree (prim_machine (λ x _, x) (λ _, [])) sample_nested g.
Proof.
  destruct (fold_preserves (λ x _, x) (λ _, []) (prim_machine (λ x _, x) (λ _, [])) sample_nested) as (ch & g & E & H).
  { split; [apply sample_fold_input|]. split; [|done]. split; [apply (sample_fold_input [])|done]. }
  exists g. assert (Fold.fold (λ x _, x) sample_nested = Ok (true, g)) as E1. { rewrite E. f_equal. f_equal. vm_compute in E. congruence. }
  split_and!; [done|..|done]; vm_compute in E; injection E as <- <-; by vm_compute.
Defined.

