(* ===== verification/Gc.v ===== *)
(** * The garbage collector (crates/oxide_vm/src: session_gc.rs, vm/gc_hooks.rs,
      native_box_dispatch.rs)

    Marking from the roots of the virtual machine, sweeping of objects, strings,
    BigInts and closure cells, the weak tables and registries, and the three
    kinds of collection with their triggers.  A pointer is an address, 0 being
    null; the memory maps addresses to what is allocated there, and following a
    pointer to nothing is a panic.  The sizes of types and the capacity of a new
    hash table are parameters. *)

From stdpp Require Import base tactics numbers list option gmap sets strings.
From Stdlib Require Import NArith ZArith Lia.
From S2P Require Import Prelude Value Object.

Open Scope N_scope.

(** ** Memory *)

(** A string: flat, or the concatenation of two strings with a cached flat form. *)
Record GcString := mkString { s_cons : bool; s_left : N; s_right : N; s_flat : N; s_payload : N }.

Record UpvalueCell := mkCell { c_value : JsValue.t; c_initialized : bool }.

Inductive WeakKey := WeakObj (ptr : N) | WeakSymbol (si : N).
#[export] Instance WeakKey_eq_dec : EqDecision WeakKey.
Proof. solve_decision. Defined.

(** The payload of a native object: the values, strings and cells it holds, the
    entries of a weak table, and its size. *)
Record NativeBox := mkNative {
  n_values : list JsValue.t;
  n_strings : list N;
  n_cells : list N;
  n_entries : list (WeakKey * JsValue.t);
  n_size : N;
}.

Record Capacities := mkCaps { cap_elements : N; cap_elements_meta : N; cap_props : N; cap_meta : N; cap_upvalues : N }.

Record GcObject := mkGcObject {
  g_base : JsObject.t;
  type_tag : N;
  captured_this : JsValue.t;
  home_object : JsValue.t;
  boxed_value : JsValue.t;
  native : NativeBox;
  upvalues : option (list N);
  caps : Capacities;
}.

Definition with_base (g : GcObject) (o : JsObject.t) : GcObject :=
  mkGcObject o (type_tag g) (captured_this g) (home_object g) (boxed_value g) (native g) (upvalues g) (caps g).
Definition with_native (g : GcObject) (n : NativeBox) : GcObject :=
  mkGcObject (g_base g) (type_tag g) (captured_this g) (home_object g) (boxed_value g) n (upvalues g) (caps g).
Definition without_upvalues (g : GcObject) : GcObject :=
  mkGcObject (g_base g) (type_tag g) (captured_this g) (home_object g) (boxed_value g) (native g) None (caps g).

Definition is_session (g : GcObject) : bool := JsObject.is_session_epoch (g_base g).
Definition is_marked (g : GcObject) : bool := JsObject.is_gc_marked (g_base g).
Definition set_mark (g : GcObject) (b : bool) : GcObject := with_base g (JsObject.set_gc_mark (g_base g) b).

Record Memory := mkMemory {
  m_objects : gmap N GcObject;
  m_strings : gmap N GcString;
  m_cells : gmap N UpvalueCell;
  m_bigints : gset N;
}.

Definition with_objects (m : Memory) (os : gmap N GcObject) : Memory := mkMemory os (m_strings m) (m_cells m) (m_bigints m).
Definition with_strings (m : Memory) (ss : gmap N GcString) : Memory := mkMemory (m_objects m) ss (m_cells m) (m_bigints m).
Definition with_cells (m : Memory) (cs : gmap N UpvalueCell) : Memory := mkMemory (m_objects m) (m_strings m) cs (m_bigints m).
Definition with_bigints (m : Memory) (bs : gset N) : Memory := mkMemory (m_objects m) (m_strings m) (m_cells m) bs.

(** Following a pointer. *)
Definition deref {A} (h : gmap N A) (ptr : N) : res A := match h !! ptr with Some x => Ok x | None => Panic end.

Module NativeBoxDispatch.
Inductive NativeBoxFamily :=
  | None_ | Map | Set_ | ModuleNamespace | WeakMap | DisposableStack | TypedArray | DataView | ArrayBuffer
  | SharedArrayBuffer | Generator | Promise | Async | AsyncGenerator | RegExp | MessagePort | BroadcastChannel
  | Event | MessageEvent | ErrorEvent | CustomEvent | Arguments | Proxy | ProxyRevoker.

(** Which of the three edge functions a family has. *)
Record NativeBoxOps := mkOps { object_edges : bool; string_edges : bool; cell_edges : bool }.

Definition classify_by_tag (tag : N) : res NativeBoxFamily :=
  match tag with
  | 6 => Ok ArrayBuffer | 7 => Ok DataView | 8 => Ok TypedArray
  | 10 => Ok Generator | 11 => Ok Promise | 12 => Ok Async | 13 => Ok AsyncGenerator
  | 24 | 25 => Ok DisposableStack
  | 31 => Ok WeakMap
  | 30 => Ok SharedArrayBuffer
  | 2 | 28 => Ok RegExp
  | 0 | 1 | 3 | 4 | 5 | 9 | 14 | 15 | 16 | 17 | 18 | 19 => Ok None_
  | 20 => Ok Arguments
  | 21 | 22 | 23 | 26 | 27 | 29 | 32 => Ok None_
  | 33 => Ok MessagePort | 34 => Ok BroadcastChannel
  | 35 => Ok Event | 36 => Ok MessageEvent | 37 => Ok ErrorEvent | 38 => Ok CustomEvent
  | 39 => Ok Proxy | 40 => Ok ProxyRevoker
  | _ => Panic
  end.

Definition classify (g : GcObject) : res NativeBoxFamily :=
  if JsObject.is_map (g_base g) then Ok Map
  else if JsObject.is_set (g_base g) then Ok Set_
  else if JsObject.is_module_namespace (g_base g) then Ok ModuleNamespace
  else classify_by_tag (type_tag g).

Definition ops_for (family : NativeBoxFamily) : NativeBoxOps :=
  match family with
  | None_ | ArrayBuffer | SharedArrayBuffer | BroadcastChannel | Arguments => mkOps false false false
  | Map | Set_ | WeakMap | DisposableStack | TypedArray | DataView | Promise | RegExp | MessagePort
  | Event | MessageEvent | ErrorEvent | CustomEvent | Proxy | ProxyRevoker => mkOps true false false
  | ModuleNamespace => mkOps true false true
  | Generator | Async | AsyncGenerator => mkOps true true true
  end.
End NativeBoxDispatch.

(** ** The virtual machine as the collector sees it *)

Inductive Completion := Break_ | Continue_ | Return_ (value : JsValue.t).
Inductive DisposeResumeKind := ResumePop | ResumeUnwind | ResumeEscape (c : Completion).

Record Frame := mkFrame {
  saved_this : JsValue.t;
  saved_new_target : JsValue.t;
  callee : JsValue.t;
  arguments_obj : JsValue.t;
  has_constructed_this : bool;
  constructed_this : JsValue.t;
}.

Record PendingAsyncEscape := mkEscape { close_promise : JsValue.t; escape_completion : Completion; remaining : list JsValue.t }.
Record PendingAsyncDispose := mkDispose { dispose_promise : JsValue.t; dispose_completion : option JsValue.t; dispose_kind : DisposeResumeKind }.
Record ForOfEntry := mkForOf { iterator : JsValue.t; last_result : JsValue.t; fast_value : JsValue.t; fast_inner : JsValue.t }.

Inductive Microtask :=
  | Reaction (handler argument resolve reject : JsValue.t)
  | Thenable (thenable then_ resolve reject : JsValue.t).

Record Listener := mkListener { l_type : N; l_callback : JsValue.t; l_capture : bool; l_once : bool; l_attribute : bool }.

(** The statistics of the collector, without those on time. *)
Record GcStats := mkStats {
  total_collections : N;
  total_bytes_freed : N;
  total_objects_scanned : N;
  total_objects_live : N;
  total_objects_dead : N;
  last_scanned : N;
  last_live : N;
  last_dead : N;
  last_bytes_freed : N;
}.

Record GcState := mkGc {
  session_object_ptrs : list N;
  session_string_ptrs : list N;
  session_bigint_ptrs : list N;
  session_cell_ptrs : list N;
  session_bytes_allocated : N;
  string_gc_watermark : N;
  gc_watermark : N;
  gc_threshold : N;
  broadcast_channels : gmap string (list N);
  event_targets : gmap N (list Listener);
  stats : GcStats;
}.

Record Vm := mkVm {
  regs : list JsValue.t;
  module_cache : list (list JsValue.t);
  frames : list Frame;
  save_stack : list JsValue.t;
  spill_stack : list JsValue.t;
  dispose_stack : list (JsValue.t * N);
  cell_stack : list (list N);
  exception_value : option JsValue.t;
  pending_exception : option JsValue.t;
  last_uncaught_value : option JsValue.t;
  pending_length_exception : option JsValue.t;
  pending_completion : option Completion;
  generator_suspended : option JsValue.t;
  delegated_iterator : option JsValue.t;
  async_context : option JsValue.t;
  async_gen_context : option JsValue.t;
  pending_async_escape : option PendingAsyncEscape;
  pending_async_dispose : option PendingAsyncDispose;
  inline_callee : option JsValue.t;
  template_objects : list JsValue.t;
  number_to_string_cache_vals : list JsValue.t;
  for_of_iters : list ForOfEntry;
  job_queue : list Microtask;
  atomics_waiters : list (list JsValue.t);
  for_in_iters : list (option (list JsValue.t));
  global_object : N;
  worker_objects : list JsValue.t;
  shadow_realm_objects : list JsValue.t;
  module_eval_states : list JsValue.t;
  shadow_keepalive : list JsValue.t;
  wrapped_function_state : list N;
  gc : GcState;
  mem : Memory;
}.

Definition with_gc (vm : Vm) (g : GcState) (m : Memory) : Vm :=
  mkVm (regs vm) (module_cache vm) (frames vm) (save_stack vm) (spill_stack vm) (dispose_stack vm) (cell_stack vm)
    (exception_value vm) (pending_exception vm) (last_uncaught_value vm) (pending_length_exception vm) (pending_completion vm)
    (generator_suspended vm) (delegated_iterator vm) (async_context vm) (async_gen_context vm) (pending_async_escape vm)
    (pending_async_dispose vm) (inline_callee vm) (template_objects vm) (number_to_string_cache_vals vm) (for_of_iters vm)
    (job_queue vm) (atomics_waiters vm) (for_in_iters vm) (global_object vm) (worker_objects vm) (shadow_realm_objects vm)
    (module_eval_states vm) (shadow_keepalive vm) (wrapped_function_state vm) g m.

Definition with_tables (g : GcState) (os ss bs cs : list N) (bytes : N) (st : GcStats) : GcState :=
  mkGc os ss bs cs bytes (string_gc_watermark g) (gc_watermark g) (gc_threshold g) (broadcast_channels g) (event_targets g) st.
Definition with_registries (g : GcState) (bc : gmap string (list N)) (et : gmap N (list Listener)) : GcState :=
  mkGc (session_object_ptrs g) (session_string_ptrs g) (session_bigint_ptrs g) (session_cell_ptrs g) (session_bytes_allocated g)
    (string_gc_watermark g) (gc_watermark g) (gc_threshold g) bc et (stats g).
Definition with_watermarks (g : GcState) (sw gw : N) : GcState :=
  mkGc (session_object_ptrs g) (session_string_ptrs g) (session_bigint_ptrs g) (session_cell_ptrs g) (session_bytes_allocated g)
    sw gw (gc_threshold g) (broadcast_channels g) (event_targets g) (stats g).

Module Gc.
Import NativeBoxDispatch.

(** ** Roots (vm/gc_hooks.rs) *)

Inductive RootGroup :=
  | Regs | Immutables | Frames | SaveStack | SpillStack | CellStack | ExceptionValue | PendingException | LastUncaught
  | PendingLengthException | PendingCompletion | GeneratorSuspended | DelegatedIterator | AsyncContext | AsyncGenContext
  | PendingAsyncEscape_ | PendingAsyncDispose_ | InlineCallee | TemplateObjects | NumberToStringCache | ForOfIters | JobQueue
  | AtomicsWaiters | ForInIters | Global | WorkerObjects | ShadowRealmObjects | DisposeStack | EventTargets | ModuleEvalStates
  | ShadowKeepalive | WrappedFunctionState.

Definition for_each_job_value (job : Microtask) : list JsValue.t :=
  match job with
  | Reaction handler argument resolve reject => [handler; argument; resolve; reject]
  | Thenable thenable then_ resolve reject => [thenable; then_; resolve; reject]
  end.

Definition frame_values (f : Frame) : list JsValue.t :=
  [saved_this f; saved_new_target f; callee f; arguments_obj f; if has_constructed_this f then constructed_this f else JsValue.undefined].

Definition or_undefined (v : option JsValue.t) : list JsValue.t := [default JsValue.undefined v].
Definition returned (c : Completion) : list JsValue.t := match c with Return_ v => [v] | _ => [] end.

(** The values of the cells of the active frames. *)
Definition cell_stack_values (vm : Vm) : res (list JsValue.t) :=
  map_res (λ p, let* c := deref (m_cells (mem vm)) p in Ok (c_value c)) (filter (λ p, p ≠ 0) (concat (cell_stack vm))).

Definition for_each_value (vm : Vm) : res (list (RootGroup * JsValue.t)) :=
  let* cells := cell_stack_values vm in
  Ok ((pair Regs <$> regs vm) ++
    (pair Immutables <$> concat (module_cache vm)) ++
    (pair Frames <$> (frames vm ≫= frame_values)) ++
    (pair SaveStack <$> save_stack vm) ++
    (pair SpillStack <$> spill_stack vm) ++
    (pair DisposeStack <$> (dispose_stack vm).*1) ++
    (pair CellStack <$> cells) ++
    (pair ExceptionValue <$> or_undefined (exception_value vm)) ++
    (pair PendingException <$> or_undefined (pending_exception vm)) ++
    (pair LastUncaught <$> or_undefined (last_uncaught_value vm)) ++
    (pair PendingLengthException <$> or_undefined (pending_length_exception vm)) ++
    (pair PendingCompletion <$> from_option returned [] (pending_completion vm)) ++
    (pair GeneratorSuspended <$> or_undefined (generator_suspended vm)) ++
    (pair DelegatedIterator <$> or_undefined (delegated_iterator vm)) ++
    (pair AsyncContext <$> or_undefined (async_context vm)) ++
    (pair AsyncGenContext <$> or_undefined (async_gen_context vm)) ++
    (pair PendingAsyncEscape_ <$> from_option (λ p, close_promise p :: returned (escape_completion p) ++ remaining p) [] (pending_async_escape vm)) ++
    (pair PendingAsyncDispose_ <$> from_option (λ p, dispose_promise p :: option_list (dispose_completion p) ++
       match dispose_kind p with ResumeEscape c => returned c | _ => [] end) [] (pending_async_dispose vm)) ++
    (pair InlineCallee <$> or_undefined (inline_callee vm)) ++
    (pair TemplateObjects <$> template_objects vm) ++
    (pair NumberToStringCache <$> filter (λ v, JsValue.is_string v = true) (number_to_string_cache_vals vm)) ++
    (pair ForOfIters <$> (for_of_iters vm ≫= λ e, [iterator e; last_result e; fast_value e; fast_inner e])) ++
    (pair JobQueue <$> (job_queue vm ≫= for_each_job_value)) ++
    (pair AtomicsWaiters <$> concat (atomics_waiters vm)) ++
    (pair ForInIters <$> concat (omap id (for_in_iters vm))) ++
    [(Global, JsValue.from_js_object (global_object vm))] ++
    (pair WorkerObjects <$> worker_objects vm) ++
    (pair ShadowRealmObjects <$> shadow_realm_objects vm) ++
    (pair EventTargets <$> (map_to_list (event_targets (gc vm)) ≫= λ e, l_callback <$> e.2)) ++
    (pair ModuleEvalStates <$> module_eval_states vm) ++
    (pair ShadowKeepalive <$> shadow_keepalive vm) ++
    (pair WrappedFunctionState <$> (JsValue.from_js_object <$> filter (λ p, p ≠ 0) (wrapped_function_state vm)))).

Definition for_each_root (vm : Vm) : res (list (RootGroup * JsValue.t)) := for_each_value vm.

(** ** Marking (session_gc.rs) *)

Record MarkState := mkMark { mk_stack : list N; live_strings : gset N; live_bigints : gset N; live_cells : gset N }.

Definition cons_children (s : GcString) : list N := if s_cons s then [s_left s; s_right s] else [0; 0].
Definition flat_cache_ptr (s : GcString) : N := if s_cons s then s_flat s else 0.

(** Pushed left, right, then the flat form; the top is popped first. *)
Definition string_pushes (s : GcString) : list N :=
  if s_cons s then (if flat_cache_ptr s =? 0 then [] else [flat_cache_ptr s]) ++ reverse (cons_children s) else [].

Fixpoint string_loop (fuel : nat) (m : Memory) (live : gset N) (stack : list N) : res (gset N) :=
  match fuel with
  | O => Panic
  | S fuel =>
      match stack with
      | [] => Ok live
      | ptr :: stack =>
          if (ptr =? 0) || bool_decide (ptr ∈ live) then string_loop fuel m live stack
          else
            let* node := deref (m_strings m) ptr in
            string_loop fuel m ({[ptr]} ∪ live) (string_pushes node ++ stack)
      end
  end.

Definition mark_string_live (m : Memory) (live : gset N) (root : N) : res (gset N) :=
  if root =? 0 then Ok live else string_loop (3 * size (m_strings m) + 2) m live [root].

Definition process_edge (m : Memory) (st : MarkState) (value : JsValue.t) : res MarkState :=
  if JsValue.is_object value then
    let ptr := JsValue.as_js_object_ptr value in
    Ok (if ptr =? 0 then st else mkMark (ptr :: mk_stack st) (live_strings st) (live_bigints st) (live_cells st))
  else if JsValue.is_string value then
    let* live := mark_string_live m (live_strings st) (JsValue.as_string_ptr_mut value) in
    Ok (mkMark (mk_stack st) live (live_bigints st) (live_cells st))
  else if JsValue.is_bigint value then
    Ok (mkMark (mk_stack st) (live_strings st) ({[JsValue.as_bigint_ptr value]} ∪ live_bigints st) (live_cells st))
  else Ok st.

Definition meta_values (meta : option (list (option PropMeta.entry))) : list JsValue.t :=
  omap id (default [] meta) ≫= λ e, [PropMeta.get e; PropMeta.set e].

(** The values an object holds, in the order they are scanned. *)
Definition own_values (g : GcObject) : list JsValue.t :=
  let o := g_base g in
  default [] (JsObject.array_elements o) ++ meta_values (JsObject.array_elements_meta o) ++
  default [] (JsObject.hash_props o) ++ meta_values (JsObject.prop_meta o) ++
  [JsObject.proto o; captured_this g; home_object g; boxed_value g].

Definition is_weak_map_obj (g : GcObject) : bool := type_tag g =? 31.

(** What the object-edge function of the family returns. *)
Definition native_edges (g : GcObject) : list JsValue.t :=
  if is_weak_map_obj g then (n_entries (native g)).*2 else n_values (native g).

Definition upvalues_slice (g : GcObject) : list N := default [] (upvalues g).

Definition mark_string_edge (m : Memory) (st : MarkState) (ptr : N) : res MarkState :=
  let* live := mark_string_live m (live_strings st) ptr in
  Ok (mkMark (mk_stack st) live (live_bigints st) (live_cells st)).

Definition add_cell (st : MarkState) (ptr : N) : MarkState :=
  mkMark (mk_stack st) (live_strings st) (live_bigints st) ({[ptr]} ∪ live_cells st).

Definition scan_upvalue (m : Memory) (st : MarkState) (ptr : N) : res MarkState :=
  if ptr =? 0 then Ok st
  else let* cell := deref (m_cells m) ptr in process_edge m (add_cell st ptr) (c_value cell).

Definition scan_edges_for_mark (m : Memory) (g : GcObject) (st : MarkState) : res MarkState :=
  let* st := fold_res (process_edge m) (own_values g) st in
  let* family := classify g in
  let ops := ops_for family in
  let* st := if object_edges ops then fold_res (process_edge m) (native_edges g) st else Ok st in
  let* st := if string_edges ops then fold_res (mark_string_edge m) (n_strings (native g)) st else Ok st in
  let st := if cell_edges ops then fold_left add_cell (n_cells (native g)) st else st in
  fold_res (scan_upvalue m) (upvalues_slice g) st.

(** The objects, with the permanent ones already seen. *)
Fixpoint mark_loop (fuel : nat) (m : Memory) (visited : gset N) (st : MarkState) : res (Memory * MarkState) :=
  match fuel with
  | O => Panic
  | S fuel =>
      match mk_stack st with
      | [] => Ok (m, st)
      | ptr :: stack =>
          let st := mkMark stack (live_strings st) (live_bigints st) (live_cells st) in
          if ptr =? 0 then mark_loop fuel m visited st
          else
            let* g := deref (m_objects m) ptr in
            if negb (is_session g) then
              if bool_decide (ptr ∈ visited) then mark_loop fuel m visited st
              else let* st := scan_edges_for_mark m g st in mark_loop fuel m ({[ptr]} ∪ visited) st
            else if is_marked g then mark_loop fuel m visited st
            else
              let m := with_objects m (<[ptr := set_mark g true]> (m_objects m)) in
              let* st := scan_edges_for_mark m (set_mark g true) st in
              mark_loop fuel m visited st
      end
  end.

(** Session roots go on the stack, permanent ones are scanned at once. *)
Definition seed_object (m : Memory) (s : gset N * MarkState) (ptr : N) : res (gset N * MarkState) :=
  let '(visited, st) := s in
  if ptr =? 0 then Ok s
  else
    let* g := deref (m_objects m) ptr in
    if is_session g then Ok (visited, mkMark (ptr :: mk_stack st) (live_strings st) (live_bigints st) (live_cells st))
    else if bool_decide (ptr ∈ visited) then Ok s
    else let* st := scan_edges_for_mark m g st in Ok ({[ptr]} ∪ visited, st).

(** Every edge is pushed once at most. *)
Definition edge_bound (g : GcObject) : nat :=
  length (own_values g) + length (native_edges g) + length (upvalues_slice g).
Definition mark_fuel (m : Memory) (st : MarkState) : nat :=
  S (length (mk_stack st) + list_sum (edge_bound <$> (map_to_list (m_objects m)).*2)).

Definition object_seeds (roots : list JsValue.t) : list N := JsValue.as_js_object_ptr <$> filter (λ v, JsValue.is_object v = true) roots.
Definition string_seeds (roots : list JsValue.t) : list N :=
  JsValue.as_string_ptr_mut <$> filter (λ v, JsValue.is_object v = false ∧ JsValue.is_string v = true) roots.
Definition bigint_seeds (roots : list JsValue.t) : list N :=
  JsValue.as_bigint_ptr <$> filter (λ v, JsValue.is_object v = false ∧ JsValue.is_string v = false ∧ JsValue.is_bigint v = true) roots.

Definition mark (vm : Vm) : res (Memory * MarkState) :=
  let* groups := for_each_root vm in
  let roots := groups.*2 in
  let m := mem vm in
  let cells := list_to_set (filter (λ p, p ≠ 0) (concat (cell_stack vm))) in
  let* live := fold_res (mark_string_live m) (string_seeds roots) ∅ in
  let st := mkMark [] live (list_to_set (bigint_seeds roots)) cells in
  let* s := fold_res (seed_object m) (object_seeds roots) (∅, st) in
  mark_loop (mark_fuel m (snd s)) m (fst s) (snd s).

(** ** Sweeping *)

(** Whether the object at a pointer carries its mark. *)
Definition marked_at (m : Memory) (ptr : N) : res bool := let* g := deref (m_objects m) ptr in Ok (is_marked g).

Definition clear_mark (m : Memory) (ptr : N) : res Memory :=
  if ptr =? 0 then Ok m
  else let* g := deref (m_objects m) ptr in Ok (with_objects m (<[ptr := set_mark g false]> (m_objects m))).

Definition clear_session_marks (m : Memory) (ptrs : list N) : res Memory := fold_res clear_mark ptrs m.
Definition clear_all_marks (vm : Vm) : res Vm :=
  let* m := clear_session_marks (mem vm) (session_object_ptrs (gc vm)) in Ok (with_gc vm (gc vm) m).

Definition resolve_weak_key_sweep (m : Memory) (key : WeakKey) : res (option WeakKey) :=
  match key with
  | WeakSymbol _ => Ok (Some key)
  | WeakObj ptr => let* old := deref (m_objects m) ptr in Ok (if is_session old && negb (is_marked old) then None else Some key)
  end.

Definition saturating_add (a b : N) : N := N.min (a + b) (2^64 - 1).

(** The pointers of a list that are not null and whose object is marked. *)
Fixpoint retain_marked (m : Memory) (ptrs : list N) : res (list N) :=
  match ptrs with
  | [] => Ok []
  | p :: ptrs =>
      let* keep := if p =? 0 then Ok false else marked_at m p in
      let* rest := retain_marked m ptrs in
      Ok (if (keep : bool) then p :: rest else rest)
  end.

Definition prune_channel (m : Memory) (e : string * list N) : res (string * list N) :=
  let* ps := retain_marked m (snd e) in Ok (fst e, ps).

Definition prune_channels (m : Memory) (bc : gmap string (list N)) : res (gmap string (list N)) :=
  let* kept := map_res (prune_channel m) (map_to_list bc) in
  Ok (list_to_map (filter (λ e, e.2 ≠ []) kept)).

Definition prune_targets (m : Memory) (et : gmap N (list Listener)) : res (gmap N (list Listener)) :=
  let* kept := retain_marked m (map_to_list et).*1 in
  Ok (filter (λ e, e.1 ∈ kept) et).

Section sizes.
Context (SZ_OBJECT SZ_STRING SZ_BIGINT SZ_CELL SZ_VALUE SZ_META SZ_PTR SZ_VEC : N) (weak_size : nat → N).

Definition vec_bytes {A} (v : option A) (cap elem : N) : N := match v with Some _ => SZ_VEC + cap * elem | None => 0 end.

(** The vectors of an object, without the list of cells. *)
Definition vectors_bytes (g : GcObject) : N :=
  let o := g_base g in
  vec_bytes (JsObject.array_elements o) (cap_elements (caps g)) SZ_VALUE +
  vec_bytes (JsObject.array_elements_meta o) (cap_elements_meta (caps g)) SZ_META +
  vec_bytes (JsObject.hash_props o) (cap_props (caps g)) SZ_VALUE +
  vec_bytes (JsObject.prop_meta o) (cap_meta (caps g)) SZ_META.
Definition upvalues_bytes (g : GcObject) : N := vec_bytes (upvalues g) (cap_upvalues (caps g)) SZ_PTR.

Definition object_heap_data_bytes (g : GcObject) : N := u64 (vectors_bytes g + upvalues_bytes g + n_size (native g)).
Definition drop_object_heap_data (g : GcObject) : N := u64 (vectors_bytes g + n_size (native g)).

Definition drop_dead_session_object (m : Memory) (ptr : N) : res (Memory * N) :=
  let* g := deref (m_objects m) ptr in
  let freed := u64 (u64 (drop_object_heap_data g + SZ_OBJECT) + upvalues_bytes g) in
  let os := if JsObject.is_heap_alloc (g_base g) then delete ptr (m_objects m) else <[ptr := without_upvalues g]> (m_objects m) in
  Ok (with_objects m os, freed).

Fixpoint rewrite_entries (m : Memory) (entries : list (WeakKey * JsValue.t)) : res (list (WeakKey * JsValue.t)) :=
  match entries with
  | [] => Ok []
  | (key, value) :: entries =>
      let* new_key := resolve_weak_key_sweep m key in
      let* rest := rewrite_entries m entries in
      Ok (match new_key with Some key => (key, value) :: rest | None => rest end)
  end.

Definition rewrite_weak_map_native (m : Memory) (g : GcObject) : res GcObject :=
  if is_weak_map_obj g then
    let n := native g in
    let* entries := rewrite_entries m (n_entries n) in
    Ok (with_native g (mkNative (n_values n) (n_strings n) (n_cells n) entries (weak_size (length (n_entries n)))))
  else Ok g.

Definition settle_weak_keys (m : Memory) (ptr : N) : res Memory :=
  if ptr =? 0 then Ok m
  else
    let* g := deref (m_objects m) ptr in
    if is_marked g && is_weak_map_obj g then
      let* g := rewrite_weak_map_native m g in Ok (with_objects m (<[ptr := g]> (m_objects m)))
    else Ok m.

(** The sorting of one object: memory, survivors, number of dead, bytes freed. *)
Definition sweep_one (s : Memory * list N * N * N) (ptr : N) : res (Memory * list N * N * N) :=
  let '(m, survivors, dead, freed) := s in
  if ptr =? 0 then Ok s
  else
    let* alive := marked_at m ptr in
    if (alive : bool) then let* m := clear_mark m ptr in Ok (m, survivors ++ [ptr], dead, freed)
    else let* r := drop_dead_session_object m ptr in Ok (fst r, survivors, u64 (dead + 1), u64 (freed + snd r)).

Definition object_bytes (m : Memory) (acc : N) (ptr : N) : res N :=
  if ptr =? 0 then Ok acc else let* g := deref (m_objects m) ptr in Ok (u64 (acc + u64 (SZ_OBJECT + object_heap_data_bytes g))).
Definition objects_bytes (m : Memory) (ptrs : list N) : res N := fold_res (object_bytes m) ptrs 0.

Definition swept_stats (st : GcStats) (live dead freed : N) : GcStats :=
  mkStats (total_collections st) (saturating_add (total_bytes_freed st) freed)
    (u64 (total_objects_scanned st + (live + dead))) (u64 (total_objects_live st + live)) (u64 (total_objects_dead st + dead))
    (u64 (live + dead)) live dead freed.
Definition freed_stats (st : GcStats) (freed : N) : GcStats :=
  mkStats (total_collections st) (saturating_add (total_bytes_freed st) freed)
    (total_objects_scanned st) (total_objects_live st) (total_objects_dead st)
    (last_scanned st) (last_live st) (last_dead st) (saturating_add (last_bytes_freed st) freed).
Definition counted (st : GcStats) : GcStats :=
  mkStats (u64 (total_collections st + 1)) (total_bytes_freed st) (total_objects_scanned st) (total_objects_live st) (total_objects_dead st)
    (last_scanned st) (last_live st) (last_dead st) (last_bytes_freed st).

Definition sweep_in_place (vm : Vm) : res Vm :=
  let g := gc vm in
  let old := session_object_ptrs g in
  let* m := fold_res settle_weak_keys old (mem vm) in
  let* bc := prune_channels m (broadcast_channels g) in
  let* et := prune_targets m (event_targets g) in
  let* r := fold_res sweep_one old (m, [], 0, 0) in
  let '(m, survivors, dead, freed) := r in
  let* bytes := objects_bytes m survivors in
  let g := with_registries g bc et in
  Ok (with_gc vm (with_tables g survivors (session_string_ptrs g) (session_bigint_ptrs g) (session_cell_ptrs g) bytes
        (swept_stats (stats g) (N.of_nat (length survivors)) dead freed)) m).
Definition sweep (vm : Vm) : res Vm := sweep_in_place vm.

(** Strings: memory, survivors, bytes freed, bytes alive.  Freeing what is not
    allocated is a panic, as following it would be. *)
Definition free_string (m : Memory) (ptr : N) : res Memory :=
  let* _ := deref (m_strings m) ptr in Ok (with_strings m (delete ptr (m_strings m))).
Definition drop_session_string_box (m : Memory) (ptr : N) (s : GcString) : res Memory :=
  let* m := if flat_cache_ptr s =? 0 then Ok m else free_string m (flat_cache_ptr s) in free_string m ptr.

Definition sweep_string (live : gset N) (s : Memory * list N * N * N) (ptr : N) : res (Memory * list N * N * N) :=
  let '(m, kept, freed, live_bytes) := s in
  if ptr =? 0 then Ok s
  else
    let* str := deref (m_strings m) ptr in
    if bool_decide (ptr ∈ live) then Ok (m, kept ++ [ptr], freed, u64 (live_bytes + (SZ_STRING + s_payload str)))
    else let* m := drop_session_string_box m ptr str in Ok (m, kept, u64 (freed + u64 (SZ_STRING + s_payload str)), live_bytes).

Definition sweep_session_strings (live : gset N) (vm : Vm) : res Vm :=
  let g := gc vm in
  let* r := fold_res (sweep_string live) (session_string_ptrs g) (mem vm, [], 0, 0) in
  let '(m, kept, freed, live_bytes) := r in
  Ok (with_gc vm (with_tables g (session_object_ptrs g) kept (session_bigint_ptrs g) (session_cell_ptrs g)
        (saturating_add (session_bytes_allocated g) live_bytes) (freed_stats (stats g) freed)) m).

(** BigInts and cells: the survivors, and the bytes freed. *)
Definition dead_ptrs (live : gset N) (ptrs : list N) : list N := filter (λ p, p ≠ 0 ∧ p ∉ live) ptrs.
Definition kept_ptrs (live : gset N) (ptrs : list N) : list N := filter (λ p, p ≠ 0 ∧ p ∈ live) ptrs.

Definition free_bigint (m : Memory) (p : N) : res Memory :=
  if bool_decide (p ∈ m_bigints m) then Ok (with_bigints m (m_bigints m ∖ {[p]})) else Panic.
Definition free_cell (m : Memory) (p : N) : res Memory :=
  let* _ := deref (m_cells m) p in Ok (with_cells m (delete p (m_cells m))).

Definition sweep_session_bigints (live : gset N) (vm : Vm) : res Vm :=
  let g := gc vm in
  let* m := fold_res free_bigint (dead_ptrs live (session_bigint_ptrs g)) (mem vm) in
  let freed := u64 (SZ_BIGINT * N.of_nat (length (dead_ptrs live (session_bigint_ptrs g)))) in
  Ok (with_gc vm (with_tables g (session_object_ptrs g) (session_string_ptrs g) (kept_ptrs live (session_bigint_ptrs g)) (session_cell_ptrs g)
        (session_bytes_allocated g) (freed_stats (stats g) freed)) m).

Definition sweep_session_cells (live : gset N) (vm : Vm) : res Vm :=
  let g := gc vm in
  let* m := fold_res free_cell (dead_ptrs live (session_cell_ptrs g)) (mem vm) in
  let freed := u64 (SZ_CELL * N.of_nat (length (dead_ptrs live (session_cell_ptrs g)))) in
  Ok (with_gc vm (with_tables g (session_object_ptrs g) (session_string_ptrs g) (session_bigint_ptrs g) (kept_ptrs live (session_cell_ptrs g))
        (session_bytes_allocated g) (freed_stats (stats g) freed)) m).

Definition count_collection (vm : Vm) : Vm :=
  let g := gc vm in
  with_gc vm (with_tables g (session_object_ptrs g) (session_string_ptrs g) (session_bigint_ptrs g) (session_cell_ptrs g)
    (session_bytes_allocated g) (counted (stats g))) (mem vm).

(** ** Collections *)

Definition collect (vm : Vm) : res Vm :=
  let* r := mark vm in
  let '(m, st) := r in
  let* vm := sweep (with_gc vm (gc vm) m) in
  let* vm := sweep_session_strings (live_strings st) vm in
  let* vm := sweep_session_bigints (live_bigints st) vm in
  let* vm := sweep_session_cells (live_cells st) vm in
  Ok (count_collection vm).

Definition set_bytes (vm : Vm) (bytes : N) : Vm :=
  let g := gc vm in
  with_gc vm (with_tables g (session_object_ptrs g) (session_string_ptrs g) (session_bigint_ptrs g) (session_cell_ptrs g) bytes (stats g)) (mem vm).

Definition collect_strings_only (config_threshold : N) (vm : Vm) : res Vm :=
  let* vm := clear_all_marks vm in
  let* r := mark vm in
  let '(m, st) := r in
  let vm := with_gc vm (gc vm) m in
  let* bytes := objects_bytes m (session_object_ptrs (gc vm)) in
  let* vm := sweep_session_strings (live_strings st) (set_bytes vm bytes) in
  let* vm := sweep_session_bigints (live_bigints st) vm in
  let* vm := sweep_session_cells (live_cells st) vm in
  let* vm := clear_all_marks vm in
  let watermark := saturating_add (session_bytes_allocated (gc vm)) config_threshold in
  Ok (count_collection (with_gc vm (with_watermarks (gc vm) watermark (gc_watermark (gc vm))) (mem vm))).

Definition run_alloc_bytes (vm : Vm) : N :=
  let g := gc vm in
  u64 (session_bytes_allocated g + N.of_nat (length (session_bigint_ptrs g)) * SZ_BIGINT + N.of_nat (length (session_cell_ptrs g)) * SZ_CELL).

Definition string_bytes (m : Memory) (acc : N) (ptr : N) : res N :=
  if ptr =? 0 then Ok acc else let* s := deref (m_strings m) ptr in Ok (u64 (acc + (SZ_STRING + s_payload s))).

Definition collect_in_run (vm : Vm) : res Vm :=
  let* vm := clear_all_marks vm in
  let* r := mark vm in
  let '(m, st) := r in
  let* vm := sweep_in_place (with_gc vm (gc vm) m) in
  let* vm := sweep_session_cells (live_cells st) vm in
  let* strings := fold_res (string_bytes (mem vm)) (session_string_ptrs (gc vm)) 0 in
  let vm := set_bytes vm (saturating_add (session_bytes_allocated (gc vm)) strings) in
  let watermark := saturating_add (run_alloc_bytes vm) (gc_threshold (gc vm)) in
  Ok (count_collection (with_gc vm (with_watermarks (gc vm) (string_gc_watermark (gc vm)) watermark) (mem vm))).

Definition tables_used (vm : Vm) : bool :=
  negb (bool_decide (session_object_ptrs (gc vm) = [])) || negb (bool_decide (session_string_ptrs (gc vm) = [])) ||
  negb (bool_decide (session_bigint_ptrs (gc vm) = [])).
Definition should_collect (config_threshold : N) (vm : Vm) : bool := tables_used vm && (config_threshold <=? session_bytes_allocated (gc vm)).
Definition should_collect_strings (vm : Vm) : bool := tables_used vm && (string_gc_watermark (gc vm) <=? session_bytes_allocated (gc vm)).

Definition maybe_collect (config_threshold : N) (vm : Vm) : res Vm := if should_collect config_threshold vm then collect vm else Ok vm.
Definition maybe_collect_strings_only (config_threshold : N) (vm : Vm) : res Vm :=
  if should_collect_strings vm then collect_strings_only config_threshold vm else Ok vm.

(** The safe point between two instructions of the outermost dispatch loop;
    [forced] is a pending request, [pressure] the pressure mode. *)
Definition safe_point (config_threshold : N) (forced pressure : bool) (vm : Vm) : res Vm :=
  let* vm := if forced || pressure then collect vm else Ok vm in
  let bytes := session_bytes_allocated (gc vm) in
  let alloc := run_alloc_bytes vm in
  let* vm := if (string_gc_watermark (gc vm) <=? bytes) && negb pressure then maybe_collect_strings_only config_threshold vm else Ok vm in
  if (gc_watermark (gc vm) <=? alloc) && negb pressure then collect_in_run vm else Ok vm.

(** ** Allocation *)

Definition alloc_object (vm : Vm) (ptr : N) (g : GcObject) : Vm :=
  let g := with_base g (JsObject.set_heap_alloc (JsObject.set_session_epoch (g_base g) true) true) in
  let s := gc vm in
  with_gc vm (with_tables s (session_object_ptrs s ++ [ptr]) (session_string_ptrs s) (session_bigint_ptrs s) (session_cell_ptrs s)
      (u64 (session_bytes_allocated s + (SZ_OBJECT + object_heap_data_bytes g))) (stats s))
    (with_objects (mem vm) (<[ptr := g]> (m_objects (mem vm)))).
End sizes.

(** ** The registries (vm/vmhost.rs) *)

Definition bc_register (vm : Vm) (name : string) (port : N) : Vm :=
  let g := gc vm in
  with_gc vm (with_registries g (<[name := default [] (broadcast_channels g !! name) ++ [port]]> (broadcast_channels g)) (event_targets g)) (mem vm).
Definition bc_unregister (vm : Vm) (name : string) (port : N) : Vm :=
  let g := gc vm in
  match broadcast_channels g !! name with
  | Some v => with_gc vm (with_registries g (<[name := filter (λ p, p ≠ port) v]> (broadcast_channels g)) (event_targets g)) (mem vm)
  | None => vm
  end.
Definition bc_lookup (vm : Vm) (name : string) : list N := default [] (broadcast_channels (gc vm) !! name).

Definition et_register (vm : Vm) (target : N) (entry : Listener) : Vm :=
  let g := gc vm in
  with_gc vm (with_registries g (broadcast_channels g) (<[target := default [] (event_targets g !! target) ++ [entry]]> (event_targets g))) (mem vm).

(** [heap] gives the number a BigInt pointer points to. *)
Definition et_unregister (heap : N → Z) (vm : Vm) (target type_si : N) (callback : JsValue.t) (capture : bool) : Vm :=
  let g := gc vm in
  match event_targets g !! target with
  | Some listeners =>
      let kept := List.filter (λ e, negb ((l_type e =? type_si) && Bool.eqb (l_capture e) capture && JsValue.eq heap (l_callback e) callback)) listeners in
      let targets := <[target := kept]> (event_targets g) in
      with_gc vm (with_registries g (broadcast_channels g) (if bool_decide (length kept = 0%nat) then delete target targets else targets)) (mem vm)
  | None => vm
  end.
Definition et_lookup (vm : Vm) (target : N) : list Listener := default [] (event_targets (gc vm) !! target).
End Gc.
