(* ===== verification/GcCorrect.v ===== *)
(** * Correctness of the garbage collector (crates/oxide_vm/src/session_gc.rs)

    What is reachable, that marking finds exactly that, and that the three kinds
    of collection free what is not reachable and leave nothing reachable
    dangling. *)

From stdpp Require Import base tactics numbers list option gmap sets strings.
From Stdlib Require Import NArith ZArith Lia.
From S2P Require Import Prelude Value Object Gc.
#[local] Set Warnings "-clear-no-such-hyp".

Open Scope N_scope.
Import NativeBoxDispatch Gc.

Module GcFacts.

(** ** What is reachable *)

(** The edge a value is. *)
Inductive edge := EObject (p : N) | EString (p : N) | EBigint (p : N) | ENone.
#[export] Instance edge_eq_dec : EqDecision edge.
Proof. solve_decision. Defined.
Definition edge_of (v : JsValue.t) : edge :=
  if JsValue.is_object v then EObject (JsValue.as_js_object_ptr v)
  else if JsValue.is_string v then EString (JsValue.as_string_ptr_mut v)
  else if JsValue.is_bigint v then EBigint (JsValue.as_bigint_ptr v)
  else ENone.

(** What the native payload of an object holds, by the functions of its family. *)
Definition native_part {A} (sel : NativeBoxOps → bool) (l : list A) (g : GcObject) : list A :=
  match classify g with Ok f => if sel (ops_for f) then l else [] | _ => [] end.
Definition native_values (g : GcObject) : list JsValue.t := native_part object_edges (native_edges g) g.
Definition native_strings (g : GcObject) : list N := native_part string_edges (n_strings (native g)) g.
Definition native_cells (g : GcObject) : list N := native_part cell_edges (n_cells (native g)) g.

Definition upvalue_values (m : Memory) (g : GcObject) : list JsValue.t :=
  omap (λ p, c_value <$> m_cells m !! p) (filter (λ p, p ≠ 0) (upvalues_slice g)).

(** All values an object holds strongly. *)
Definition held_values (m : Memory) (g : GcObject) : list JsValue.t := own_values g ++ native_values g ++ upvalue_values m g.

Definition holds_object (m : Memory) (g : GcObject) (p : N) : Prop := p ≠ 0 ∧ ∃ v, v ∈ held_values m g ∧ edge_of v = EObject p.
Definition holds_string (m : Memory) (g : GcObject) (p : N) : Prop := (∃ v, v ∈ held_values m g ∧ edge_of v = EString p) ∨ p ∈ native_strings g.
Definition holds_bigint (m : Memory) (g : GcObject) (p : N) : Prop := ∃ v, v ∈ held_values m g ∧ edge_of v = EBigint p.
Definition holds_cell (g : GcObject) (p : N) : Prop := p ∈ native_cells g ∨ (p ≠ 0 ∧ p ∈ upvalues_slice g).

(** Strings reached through ropes. *)
Inductive string_reach (m : Memory) (R : N → Prop) : N → Prop :=
  | string_root s : R s → s ≠ 0 → string_reach m R s
  | string_child s t node : string_reach m R s → m_strings m !! s = Some node → t ∈ string_pushes node → t ≠ 0 → string_reach m R t.

(** Objects reached from values. *)
Inductive reach (m : Memory) (rs : list JsValue.t) : N → Prop :=
  | reach_root v p : v ∈ rs → edge_of v = EObject p → p ≠ 0 → reach m rs p
  | reach_held a g p : reach m rs a → m_objects m !! a = Some g → holds_object m g p → reach m rs p.

Definition reach_holds (m : Memory) (rs : list JsValue.t) (P : GcObject → N → Prop) (p : N) : Prop :=
  ∃ a g, reach m rs a ∧ m_objects m !! a = Some g ∧ P g p.

Definition live_string (m : Memory) (rs : list JsValue.t) : N → Prop :=
  string_reach m (λ s, (∃ v, v ∈ rs ∧ edge_of v = EString s) ∨ reach_holds m rs (holds_string m) s).
Definition live_bigint (m : Memory) (rs : list JsValue.t) (p : N) : Prop :=
  (∃ v, v ∈ rs ∧ edge_of v = EBigint p) ∨ reach_holds m rs (holds_bigint m) p.
Definition live_cell (vm : Vm) (rs : list JsValue.t) (p : N) : Prop :=
  (p ≠ 0 ∧ p ∈ concat (cell_stack vm)) ∨ reach_holds (mem vm) rs holds_cell p.

Lemma string_reach_mono m (R R' : N → Prop) s : (∀ t, R t → R' t) → string_reach m R s → string_reach m R' s.
Proof. intros HR. induction 1; [apply string_root; auto|by eapply string_child]. Qed.

Lemma string_reach_or m (R R' : N → Prop) s : string_reach m (λ t, R t ∨ R' t) s ↔ string_reach m R s ∨ string_reach m R' s.
Proof.
  split; [|intros [H|H]; (eapply string_reach_mono; [|exact H]); auto].
  induction 1 as [s [H|H] H0|s t node _ [IH|IH] Hs Ht H0]; [left; by apply string_root|right; by apply string_root|left; by eapply string_child|right; by eapply string_child].
Qed.

Lemma string_reach_false m s : ¬ string_reach m (λ _, False) s.
Proof. by induction 1. Qed.

(** ** Strings *)

(** Everything a live string leads to is live, and allocated. *)
Definition closed_strings (m : Memory) (L : gset N) : Prop :=
  ∀ s, s ∈ L → ∃ node, m_strings m !! s = Some node ∧ ∀ t, t ∈ string_pushes node → t ≠ 0 → t ∈ L.

Lemma pushes_length node : (length (string_pushes node) <= 3)%nat.
Proof. unfold string_pushes, cons_children. destruct (s_cons node); [|cbn; lia]. rewrite length_app, length_reverse. destruct (flat_cache_ptr node =? 0); cbn; lia. Qed.

(** The strings not live yet. *)
Definition fresh_count (m : Memory) (L : gset N) : nat := size (dom (m_strings m) ∖ L).

Lemma fresh_insert m L p node : m_strings m !! p = Some node → p ∉ L → fresh_count m L = S (fresh_count m ({[p]} ∪ L)).
Proof.
  intros Hp Hn. unfold fresh_count. assert (dom (m_strings m) ∖ L = {[p]} ∪ (dom (m_strings m) ∖ ({[p]} ∪ L))) as ->.
  { apply set_eq. intros x. rewrite elem_of_union, !elem_of_difference, elem_of_union, elem_of_singleton. split.
    - intros [H1 H2]. destruct (decide (x = p)); [by left|right]. naive_solver.
    - intros [->|[H1 H2]]; [|naive_solver]. split; [by eapply elem_of_dom_2|done]. }
  rewrite size_union by set_solver. rewrite size_singleton. lia.
Qed.

Lemma string_loop_ok m fuel : ∀ L stack, (length stack + 3 * fresh_count m L < fuel)%nat →
  (∀ s, string_reach m (λ t, t ∈ stack) s → s ∉ L → is_Some (m_strings m !! s)) →
  (∀ s, s ∈ L → ∃ node, m_strings m !! s = Some node ∧ ∀ t, t ∈ string_pushes node → t ≠ 0 → t ∈ L ∨ t ∈ stack) →
  ∃ L', string_loop fuel m L stack = Ok L' ∧ closed_strings m L' ∧ L ⊆ L' ∧ (∀ t, t ∈ stack → t ≠ 0 → t ∈ L') ∧
    ∀ t, t ∈ L' → t ∈ L ∨ string_reach m (λ s, s ∈ stack) t.
Proof.
  induction fuel as [|fuel IH]; intros L stack Hf Hval Hcl; [lia|]. cbn [string_loop]. destruct stack as [|p stack].
  { exists L. split_and!; [done| |done|by intros t ?%elem_of_nil|auto]. intros s Hs. destruct (Hcl s Hs) as (node & Hn & H). exists node. split; [done|].
    intros t Ht H0. destruct (H t Ht H0) as [?|?%elem_of_nil]; done. }
  cbn [length] in Hf. destruct ((p =? 0) || bool_decide (p ∈ L)) eqn:Ep.
  - destruct (IH L stack) as (L' & E & H1 & H2 & H3 & H4); [lia| | |].
    { intros s Hs Hn. apply Hval; [|done]. eapply string_reach_mono; [|done]. intros t Ht. by right. }
    { intros s Hs. destruct (Hcl s Hs) as (node & Hn & H). exists node. split; [done|]. intros t Ht H0. destruct (H t Ht H0) as [?|[->|?]%elem_of_cons]; [auto| |auto].
      left. apply orb_true_iff in Ep as [?%N.eqb_eq|?%bool_decide_eq_true]; done. }
    exists L'. split_and!; [done|done|done| |].
    + intros t [->|Ht]%elem_of_cons H0; [|by apply H3]. apply orb_true_iff in Ep as [?%N.eqb_eq|Hp%bool_decide_eq_true]; [done|by apply H2].
    + intros t Ht. destruct (H4 t Ht) as [?|Hr]; [auto|right]. eapply string_reach_mono; [|done]. intros s Hs. by right.
  - apply orb_false_iff in Ep as [Hp0%N.eqb_neq Hp%bool_decide_eq_false].
    destruct (Hval p) as [node Hn]; [apply string_root; [by left|done]|done|]. unfold deref. rewrite Hn. cbn [res_bind].
    pose proof (fresh_insert m L p node Hn Hp) as Hfr. pose proof (pushes_length node) as Hpl.
    assert (∀ s, string_reach m (λ t, t ∈ string_pushes node ++ stack) s → string_reach m (λ t, t ∈ p :: stack) s) as Hsub.
    { intros s. induction 1 as [s [Hs|Hs]%elem_of_app H0|s t node' _ IHs Hs Ht H0]; [|apply string_root; [by right|done]|by eapply string_child].
      eapply string_child; [apply string_root; [by left|done]|done..]. }
    destruct (IH ({[p]} ∪ L) (string_pushes node ++ stack)) as (L' & E & H1 & H2 & H3 & H4).
    { rewrite length_app. lia. }
    { intros s Hs Hns. apply Hval; [by apply Hsub|set_solver]. }
    { intros s [->%elem_of_singleton|Hs]%elem_of_union.
      - exists node. split; [done|]. intros t Ht H0. right. apply elem_of_app. by left.
      - destruct (Hcl s Hs) as (node' & Hn' & H). exists node'. split; [done|]. intros t Ht H0. destruct (H t Ht H0) as [?|[->|?]%elem_of_cons]; [left|left|right]; [set_solver..|].
        apply elem_of_app. by right. }
    exists L'. split_and!; [done|done|set_solver| |].
    + intros t [->|Ht]%elem_of_cons H0; [set_solver|]. apply H3; [|done]. apply elem_of_app. by right.
    + intros t Ht. destruct (H4 t Ht) as [[->%elem_of_singleton|?]%elem_of_union|Hr]; [right; apply string_root; [by left|done]|auto|right; by apply Hsub].
Qed.

(** Every string a set of strings leads to is allocated. *)
Definition strings_ok (m : Memory) (R : N → Prop) : Prop := ∀ s, string_reach m R s → is_Some (m_strings m !! s).

Lemma closed_reach m L s : closed_strings m L → ∀ R : N → Prop, (∀ t, R t → t ≠ 0 → t ∈ L) → string_reach m R s → s ∈ L.
Proof.
  intros Hc R HR. induction 1 as [s Hs H0|s t node _ IH Hn Ht H0]; [auto|]. destruct (Hc s IH) as (node' & Hn' & H). rewrite Hn in Hn'. simplify_eq. auto.
Qed.

Lemma mark_string_live_ok m L root : closed_strings m L → strings_ok m (λ s, s = root) →
  ∃ L', mark_string_live m L root = Ok L' ∧ closed_strings m L' ∧ ∀ t, t ∈ L' ↔ t ∈ L ∨ string_reach m (λ s, s = root) t.
Proof.
  intros Hc Hok. unfold mark_string_live. destruct (N.eqb_spec root 0) as [->|H0].
  { exists L. split_and!; [done..|]. intros t. split; [auto|]. intros [?|Hr]; [done|]. exfalso. clear -Hr. induction Hr; [by subst|done]. }
  assert (∀ t, string_reach m (λ s, s ∈ [root]) t ↔ string_reach m (λ s, s = root) t) as Heq.
  { intros t. split; apply string_reach_mono; intros s; rewrite list_elem_of_singleton; done. }
  destruct (string_loop_ok m (3 * size (m_strings m) + 2) L [root]) as (L' & E & H1 & H2 & H3 & H4).
  - cbn [length]. assert (fresh_count m L ≤ size (m_strings m))%nat; [|lia]. unfold fresh_count. rewrite <- size_dom. apply subseteq_size. set_solver.
  - intros s Hs _. apply Hok. by apply Heq.
  - intros s Hs. destruct (Hc s Hs) as (node & Hn & H). exists node. split; [done|]. auto.
  - exists L'. split_and!; [done|done|]. intros t. split.
    + intros Ht. destruct (H4 t Ht) as [?|Hr]; [auto|right]. by apply Heq.
    + intros [?|Hr]; [by apply H2|]. eapply (closed_reach m L'); [done| |done]. intros s -> _. apply H3; [apply list_elem_of_here|done].
Qed.

(** ** The effect of scanning *)

(** [st'] is [st] with the objects [O] on the stack, the strings [S] leads to, the
    BigInts [B] and the cells [C] live. *)
Record added (m : Memory) (st st' : MarkState) (O S B C : N → Prop) (n : nat) : Prop := {
  ad_stack p : p ∈ mk_stack st' ↔ p ∈ mk_stack st ∨ O p;
  ad_strings p : p ∈ live_strings st' ↔ p ∈ live_strings st ∨ string_reach m S p;
  ad_bigints p : p ∈ live_bigints st' ↔ p ∈ live_bigints st ∨ B p;
  ad_cells p : p ∈ live_cells st' ↔ p ∈ live_cells st ∨ C p;
  ad_length : (length (mk_stack st') <= length (mk_stack st) + n)%nat;
  ad_closed : closed_strings m (live_strings st');
}.

Definition nothing (p : N) : Prop := False.

Lemma added_trans m st1 st2 st3 O S B C n O' S' B' C' n' : added m st1 st2 O S B C n → added m st2 st3 O' S' B' C' n' →
  added m st1 st3 (λ p, O p ∨ O' p) (λ p, S p ∨ S' p) (λ p, B p ∨ B' p) (λ p, C p ∨ C' p) (n + n').
Proof.
  intros [H1 H2 H3 H4 H5 H6] [H1' H2' H3' H4' H5' H6']. constructor; [..|lia|done]; intros p.
  - rewrite H1', H1. tauto.
  - rewrite H2', H2, string_reach_or. tauto.
  - rewrite H3', H3. tauto.
  - rewrite H4', H4. tauto.
Qed.

Lemma added_iff m st st' O S B C n (O' S' B' C' : N → Prop) n' :
  (∀ p, O p ↔ O' p) → (∀ p, S p ↔ S' p) → (∀ p, B p ↔ B' p) → (∀ p, C p ↔ C' p) → (n <= n')%nat →
  added m st st' O S B C n → added m st st' O' S' B' C' n'.
Proof.
  intros HO HS HB HC Hn [H1 H2 H3 H4 H5 H6]. constructor; [..|lia|done]; intros p.
  - by rewrite H1, HO.
  - rewrite H2. split; (intros [?|Hr]; [auto|right]); (eapply string_reach_mono; [|done]); intros t; apply HS.
  - by rewrite H3, HB.
  - by rewrite H4, HC.
Qed.

Lemma added_refl m st : closed_strings m (live_strings st) → added m st st nothing nothing nothing nothing 0.
Proof.
  intros Hc. constructor; [..|lia|done]; intros p; unfold nothing; [tauto| |tauto..]. split; [auto|]. intros [?|Hr]; [done|]. by apply string_reach_false in Hr.
Qed.

(** Scanning a list adds what its elements add. *)
Lemma added_fold {A} m k (f : MarkState → A → res MarkState) (O S B C : A → N → Prop) l :
  (∀ st x, x ∈ l → closed_strings m (live_strings st) → ∃ st', f st x = Ok st' ∧ added m st st' (O x) (S x) (B x) (C x) k) →
  ∀ st, closed_strings m (live_strings st) → ∃ st', fold_res f l st = Ok st' ∧
    added m st st' (λ p, ∃ x, x ∈ l ∧ O x p) (λ p, ∃ x, x ∈ l ∧ S x p) (λ p, ∃ x, x ∈ l ∧ B x p) (λ p, ∃ x, x ∈ l ∧ C x p) (length l * k).
Proof.
  intros Hf. induction l as [|x l IH]; intros st Hc; cbn [fold_res length].
  { exists st. split; [done|]. eapply added_iff; [..|by apply added_refl]; [..|done]; intros p; unfold nothing; (split; [done|]); intros (? & ?%elem_of_nil & _); done. }
  destruct (Hf st x) as (st1 & -> & H1); [apply list_elem_of_here|done|]. cbn [res_bind].
  destruct (IH (λ st y Hy, Hf st y ltac:(by right)) st1 (ad_closed _ _ _ _ _ _ _ _ H1)) as (st2 & E & H2). exists st2. split; [done|].
  eapply added_iff; [..|exact (added_trans _ _ _ _ _ _ _ _ _ _ _ _ _ _ H1 H2)]; [..|lia]; intros p;
    (split; [intros [H|(y & Hy & H)]; [exists x|exists y]; rewrite elem_of_cons; auto|intros (y & [->|Hy]%elem_of_cons & H); eauto]).
Qed.

(** What a value adds. *)
Definition edge_object (v : JsValue.t) (p : N) : Prop := edge_of v = EObject p ∧ p ≠ 0.
Definition edge_string (v : JsValue.t) (p : N) : Prop := edge_of v = EString p.
Definition edge_bigint (v : JsValue.t) (p : N) : Prop := edge_of v = EBigint p.

Lemma process_edge_ok m st v : closed_strings m (live_strings st) → strings_ok m (edge_string v) →
  ∃ st', process_edge m st v = Ok st' ∧ added m st st' (edge_object v) (edge_string v) (edge_bigint v) nothing 1.
Proof.
  intros Hc Hok. unfold process_edge, edge_object, edge_string, edge_bigint, edge_of in *. destruct (JsValue.is_object v).
  { eexists. split; [done|]. destruct (N.eqb_spec (JsValue.as_js_object_ptr v) 0) as [E|E].
    - eapply added_iff; [..|by apply added_refl]; [..|lia]; intros p; unfold nothing; naive_solver.
    - constructor; cbn [mk_stack live_strings live_bigints live_cells length]; [..|lia|done]; intros p; unfold nothing; [rewrite elem_of_cons; naive_solver| |naive_solver..].
      split; [auto|]. intros [?|Hr]; [done|]. exfalso. eapply string_reach_false, string_reach_mono; [|done]. naive_solver. }
  destruct (JsValue.is_string v).
  { destruct (mark_string_live_ok m (live_strings st) (JsValue.as_string_ptr_mut v)) as (L & -> & HL & H); [done| |].
    { intros s Hs. apply Hok. eapply string_reach_mono; [|done]. naive_solver. }
    cbn [res_bind]. eexists. split; [done|]. constructor; cbn [mk_stack live_strings live_bigints live_cells]; [..|lia|done]; intros p; unfold nothing; [naive_solver| |naive_solver..].
    rewrite H. split; (intros [?|Hr]; [auto|right]); (eapply string_reach_mono; [|done]); naive_solver. }
  assert (∀ p, ¬ string_reach m (λ p, (if JsValue.is_bigint v then EBigint (JsValue.as_bigint_ptr v) else ENone) = EString p) p) as Hns.
  { intros p Hr. eapply string_reach_false, string_reach_mono; [|done]. intros t. by destruct (JsValue.is_bigint v). }
  destruct (JsValue.is_bigint v); (eexists; split; [done|]); constructor; cbn [mk_stack live_strings live_bigints live_cells]; try lia; try done; intros p; unfold nothing;
    rewrite ?elem_of_union, ?elem_of_singleton; specialize (Hns p); naive_solver.
Qed.

(** An object whose pointers to strings and cells can be followed. *)
Record object_ok (m : Memory) (g : GcObject) : Prop := {
  ok_family : ∃ f, classify g = Ok f;
  ok_strings : strings_ok m (holds_string m g);
  ok_upvalues p : p ∈ upvalues_slice g → p ≠ 0 → is_Some (m_cells m !! p);
}.

Lemma upvalue_value m g p c : p ∈ upvalues_slice g → p ≠ 0 → m_cells m !! p = Some c → c_value c ∈ upvalue_values m g.
Proof. intros Hp H0 Hc. unfold upvalue_values. apply list_elem_of_omap. exists p. rewrite Hc. split; [|done]. by apply list_elem_of_filter. Qed.

Lemma upvalue_inv m g v : v ∈ upvalue_values m g → ∃ p c, p ∈ upvalues_slice g ∧ p ≠ 0 ∧ m_cells m !! p = Some c ∧ v = c_value c.
Proof.
  unfold upvalue_values. intros (p & [H0 Hp]%list_elem_of_filter & E)%list_elem_of_omap. destruct (m_cells m !! p) as [c|] eqn:Ec; [|done]. cbn in E. simplify_eq. by exists p, c.
Qed.

Lemma scan_upvalue_ok m g st p : object_ok m g → p ∈ upvalues_slice g → closed_strings m (live_strings st) →
  ∃ st', scan_upvalue m st p = Ok st' ∧
    added m st st' (λ q, p ≠ 0 ∧ ∃ c, m_cells m !! p = Some c ∧ edge_object (c_value c) q) (λ q, p ≠ 0 ∧ ∃ c, m_cells m !! p = Some c ∧ edge_string (c_value c) q)
      (λ q, p ≠ 0 ∧ ∃ c, m_cells m !! p = Some c ∧ edge_bigint (c_value c) q) (λ q, p ≠ 0 ∧ q = p) 1.
Proof.
  intros Hg Hp Hc. unfold scan_upvalue. destruct (N.eqb_spec p 0) as [->|H0].
  { exists st. split; [done|]. eapply added_iff; [..|by apply added_refl]; [..|lia]; intros q; unfold nothing; naive_solver. }
  destruct (ok_upvalues m g Hg p Hp H0) as [c Ec]. unfold deref. rewrite Ec. cbn [res_bind].
  destruct (process_edge_ok m (add_cell st p) (c_value c)) as (st' & -> & H); [done| |].
  { intros s Hs. apply (ok_strings m g Hg). eapply string_reach_mono; [|done]. intros t Ht. left. exists (c_value c). split; [|done].
    unfold held_values. rewrite !elem_of_app. right. right. by eapply upvalue_value. }
  exists st'. split; [done|]. destruct H as [H1 H2 H3 H4 H5 H6]. cbn [add_cell mk_stack live_strings live_bigints live_cells] in *.
  constructor; [..|lia|done]; intros q; rewrite ?H1, ?H2, ?H3, ?H4; unfold nothing; rewrite ?elem_of_union, ?elem_of_singleton; [naive_solver| |naive_solver..].
  split; (intros [?|Hr]; [auto|right]); (eapply string_reach_mono; [|done]); naive_solver.
Qed.

Lemma add_cells_added m st l : closed_strings m (live_strings st) → added m st (fold_left add_cell l st) nothing nothing nothing (λ p, p ∈ l) 0.
Proof.
  intros Hc. assert (∀ st, live_strings (fold_left add_cell l st) = live_strings st ∧ mk_stack (fold_left add_cell l st) = mk_stack st ∧ live_bigints (fold_left add_cell l st) = live_bigints st ∧
    ∀ p, p ∈ live_cells (fold_left add_cell l st) ↔ p ∈ live_cells st ∨ p ∈ l) as H.
  { clear. induction l as [|x l IH]; intros st; cbn [fold_left]; [split_and!; try done; intros p; rewrite elem_of_nil; tauto|]. destruct (IH (add_cell st x)) as (-> & -> & -> & H). split_and!; try done.
    intros p. rewrite H. cbn [add_cell live_cells]. rewrite elem_of_union, elem_of_singleton, elem_of_cons. tauto. }
  destruct (H st) as (H1 & H2 & H3 & H4). constructor; rewrite ?H1, ?H2, ?H3; [..|lia|done]; intros p; unfold nothing; rewrite ?H4; try tauto.
  split; [auto|]. intros [?|Hr]; [done|]. by apply string_reach_false in Hr.
Qed.
Lemma scan_values_ok m g l st : object_ok m g → (∀ v, v ∈ l → v ∈ held_values m g) → closed_strings m (live_strings st) →
  ∃ st', fold_res (process_edge m) l st = Ok st' ∧
    added m st st' (λ p, ∃ v, v ∈ l ∧ edge_object v p) (λ p, ∃ v, v ∈ l ∧ edge_string v p) (λ p, ∃ v, v ∈ l ∧ edge_bigint v p) nothing (length l).
Proof.
  intros Hg Hl Hc. destruct (added_fold m 1 (process_edge m) edge_object edge_string edge_bigint (λ _, nothing) l) with (st := st) as (st' & E & H); [|done|].
  - intros st1 v Hv Hc1. apply process_edge_ok; [done|]. intros s Hs. apply (ok_strings m g Hg). eapply string_reach_mono; [|done].
    intros t Ht. left. exists v. split; [by apply Hl|done].
  - exists st'. split; [done|]. eapply added_iff; [..|exact H]; [done|done|done| |lia]. intros p. unfold nothing. naive_solver.
Qed.

Lemma mark_string_edge_ok m st p : closed_strings m (live_strings st) → strings_ok m (λ s, s = p) →
  ∃ st', mark_string_edge m st p = Ok st' ∧ added m st st' nothing (λ s, s = p) nothing nothing 0.
Proof.
  intros Hc Hok. destruct (mark_string_live_ok m (live_strings st) p Hc Hok) as (L & E & HL & H). unfold mark_string_edge. rewrite E. cbn [res_bind].
  eexists. split; [done|]. constructor; cbn [mk_stack live_strings live_bigints live_cells]; [..|lia|done]; intros q; unfold nothing; rewrite ?H; tauto.
Qed.

Lemma scan_strings_ok m g l st : object_ok m g → (∀ s, s ∈ l → s ∈ native_strings g) → closed_strings m (live_strings st) →
  ∃ st', fold_res (mark_string_edge m) l st = Ok st' ∧ added m st st' nothing (λ p, p ∈ l) nothing nothing 0.
Proof.
  intros Hg Hl Hc. destruct (added_fold m 0 (mark_string_edge m) (λ _, nothing) (λ x s, s = x) (λ _, nothing) (λ _, nothing) l) with (st := st) as (st' & E & H); [|done|].
  - intros st1 s Hs Hc1. apply mark_string_edge_ok; [done|]. intros t Ht. apply (ok_strings m g Hg). eapply string_reach_mono; [|done]. intros ? ->. right. by apply Hl.
  - exists st'. split; [done|]. eapply added_iff; [..|exact H]; [| | | |lia]; intros p; unfold nothing; naive_solver.
Qed.

Lemma native_part_eq {A} sel (l : list A) g f : classify g = Ok f → native_part sel l g = if sel (ops_for f) then l else [].
Proof. unfold native_part. by intros ->. Qed.

(** Scanning an object adds what it holds. *)
Lemma scan_edges_ok m g st : object_ok m g → closed_strings m (live_strings st) →
  ∃ st', scan_edges_for_mark m g st = Ok st' ∧
    added m st st' (holds_object m g) (holds_string m g) (holds_bigint m g) (holds_cell g) (edge_bound g).
Proof.
  intros Hg Hc. unfold scan_edges_for_mark. destruct (ok_family m g Hg) as [f Ef].
  destruct (scan_values_ok m g (own_values g) st) as (st1 & -> & H1); [done| |done|]; [intros v Hv; apply elem_of_app; by left|]. cbn [res_bind]. rewrite Ef. cbn [res_bind].
  assert (∃ st2, (if object_edges (ops_for f) then fold_res (process_edge m) (native_edges g) st1 else Ok st1) = Ok st2 ∧
    added m st1 st2 (λ p, ∃ v, v ∈ native_values g ∧ edge_object v p) (λ p, ∃ v, v ∈ native_values g ∧ edge_string v p)
      (λ p, ∃ v, v ∈ native_values g ∧ edge_bigint v p) nothing (length (native_edges g))) as (st2 & -> & H2).
  { assert (∀ v, v ∈ native_values g → v ∈ held_values m g) as Hin by (intros v Hv; unfold held_values; rewrite !elem_of_app; auto).
    unfold native_values in *. rewrite (native_part_eq _ _ _ _ Ef) in *. destruct (object_edges (ops_for f)); [apply (scan_values_ok m g); [done|done|exact (ad_closed _ _ _ _ _ _ _ _ H1)]|].
    eexists. split; [done|]. eapply added_iff; [..|apply added_refl, (ad_closed _ _ _ _ _ _ _ _ H1)]; [| | |done|lia]; intros p; unfold nothing; set_solver. }
  cbn [res_bind].
  assert (∃ st3, (if string_edges (ops_for f) then fold_res (mark_string_edge m) (n_strings (native g)) st2 else Ok st2) = Ok st3 ∧
    added m st2 st3 nothing (λ p, p ∈ native_strings g) nothing nothing 0) as (st3 & -> & H3).
  { assert (∀ v, v ∈ native_strings g → v ∈ native_strings g) as Hin by done. unfold native_strings in Hin at 1. unfold native_strings at 1.
    rewrite (native_part_eq _ _ _ _ Ef) in *. destruct (string_edges (ops_for f)); [apply (scan_strings_ok m g); [done|done|exact (ad_closed _ _ _ _ _ _ _ _ H2)]|].
    eexists. split; [done|]. eapply added_iff; [..|apply added_refl, (ad_closed _ _ _ _ _ _ _ _ H2)]; [done| |done|done|lia]; intros p; unfold nothing; set_solver. }
  cbn [res_bind].
  assert (added m st3 (if cell_edges (ops_for f) then fold_left add_cell (n_cells (native g)) st3 else st3) nothing nothing nothing (λ p, p ∈ native_cells g) 0) as H4.
  { unfold native_cells. rewrite (native_part_eq _ _ _ _ Ef). destruct (cell_edges (ops_for f)); [apply add_cells_added, (ad_closed _ _ _ _ _ _ _ _ H3)|].
    eapply added_iff; [..|apply added_refl, (ad_closed _ _ _ _ _ _ _ _ H3)]; [done|done|done| |lia]; intros p; unfold nothing; set_solver. }
  set (st4 := if cell_edges (ops_for f) then _ else _) in *.
  destruct (added_fold m 1 (scan_upvalue m) _ _ _ _ (upvalues_slice g) (λ st p Hp Hc, scan_upvalue_ok m g st p Hg Hp Hc) st4 (ad_closed _ _ _ _ _ _ _ _ H4)) as (st5 & -> & H5).
  exists st5. split; [done|]. pose proof (added_trans _ _ _ _ _ _ _ _ _ _ _ _ _ _ H1 (added_trans _ _ _ _ _ _ _ _ _ _ _ _ _ _ H2 (added_trans _ _ _ _ _ _ _ _ _ _ _ _ _ _ H3 (added_trans _ _ _ _ _ _ _ _ _ _ _ _ _ _ H4 H5)))) as H.
  clear H1 H2 H3 H4 H5.
  assert (∀ P : JsValue.t → Prop, (∃ v, v ∈ held_values m g ∧ P v) ↔ (∃ v, v ∈ own_values g ∧ P v) ∨ (∃ v, v ∈ native_values g ∧ P v) ∨ (∃ p, p ∈ upvalues_slice g ∧ p ≠ 0 ∧ ∃ c, m_cells m !! p = Some c ∧ P (c_value c))) as Hheld.
  { intros P. unfold held_values. split.
    - intros (v & Hv & HP). rewrite !elem_of_app in Hv. destruct Hv as [Hv|[Hv|(p & c & Hp & H0 & Ec & ->)%upvalue_inv]]; [by left; exists v|by right; left; exists v|right; right; eauto 10].
    - intros [(v & Hv & HP)|[(v & Hv & HP)|(p & Hp & H0 & c & Ec & HP)]]; [exists v|exists v|exists (c_value c)]; (split; [rewrite !elem_of_app|done]); [auto..|].
      right. right. by eapply upvalue_value. }
  eapply added_iff; [..|exact H]; [..|unfold edge_bound; lia]; intros p; unfold nothing, holds_object, holds_string, holds_bigint, holds_cell, edge_object, edge_string, edge_bigint in *; rewrite ?Hheld; naive_solver.
Qed.
(** ** Marks *)

Lemma is_marked_set g b : is_marked (set_mark g b) = b.
Proof.
  unfold is_marked, set_mark. cbn [with_base g_base]. etransitivity; [exact (FlagFacts.mask_testbit _ 1)|].
  etransitivity; [|exact (FlagFacts.put_bit_spec (JsObject.epoch (g_base g)) 1 b 1)]. by destruct b.
Qed.

Lemma is_session_set g b : is_session (set_mark g b) = is_session g.
Proof.
  unfold is_session, set_mark. cbn [with_base g_base]. etransitivity; [exact (FlagFacts.mask_testbit _ 0)|]. etransitivity; [|symmetry; exact (FlagFacts.mask_testbit _ 0)].
  etransitivity; [|exact (FlagFacts.put_bit_spec (JsObject.epoch (g_base g)) 1 b 0)]. by destruct b.
Qed.

(** The memory in which the objects of a set carry the mark. *)
Definition mark_all (M : gset N) (os : gmap N GcObject) : gmap N GcObject :=
  map_imap (λ p g, Some (if decide (p ∈ M) then set_mark g true else g)) os.
Definition marked (m : Memory) (M : gset N) : Memory := with_objects m (mark_all M (m_objects m)).

Lemma marked_lookup m M p : m_objects (marked m M) !! p = (λ g, if decide (p ∈ M) then set_mark g true else g) <$> m_objects m !! p.
Proof. cbn [marked with_objects m_objects]. unfold mark_all. rewrite map_lookup_imap. by destruct (m_objects m !! p). Qed.

Lemma marked_insert m M p g : m_objects m !! p = Some g →
  with_objects (marked m M) (<[p := set_mark g true]> (m_objects (marked m M))) = marked m ({[p]} ∪ M).
Proof.
  intros Hp. unfold marked at 1 3. unfold with_objects. cbn [m_strings m_cells m_bigints]. f_equal. apply map_eq. intros q.
  change (mark_all ({[p]} ∪ M) (m_objects m) !! q) with (m_objects (marked m ({[p]} ∪ M)) !! q). rewrite marked_lookup.
  destruct (decide (p = q)) as [<-|Hne]; [rewrite lookup_insert_eq, Hp; cbn; by rewrite decide_True by set_solver|].
  rewrite lookup_insert_ne, marked_lookup by done. destruct (m_objects m !! q); [|done]. cbn. destruct (decide (q ∈ M)) as [Hq|Hq]; [by rewrite decide_True by set_solver|by rewrite decide_False by set_solver].
Qed.

Lemma marked_empty m : marked m ∅ = m.
Proof.
  destruct m as [os ss cs bs]. unfold marked, with_objects. cbn. f_equal. unfold mark_all. apply map_eq. intros q. rewrite map_lookup_imap. destruct (os !! q); [|done]. cbn.
  by rewrite decide_False by set_solver.
Qed.

(** Scanning does not look at the objects. *)
Lemma fold_res_ext {S A} (f f' : S → A → res S) l : (∀ s x, f s x = f' s x) → ∀ s, fold_res f l s = fold_res f' l s.
Proof. intros H. induction l as [|x l IH]; intros s; cbn; [done|]. rewrite H. destruct (f' s x); cbn; auto. Qed.

Lemma mark_string_objects m os live root : mark_string_live (with_objects m os) live root = mark_string_live m live root.
Proof.
  unfold mark_string_live. cbn [with_objects m_strings]. destruct (root =? 0); [done|]. generalize (3 * size (m_strings m) + 2)%nat as fuel. generalize [root] as stack. intros stack fuel.
  revert live stack. induction fuel as [|fuel IH]; intros live stack; cbn; [done|]. destruct stack as [|p stack]; [done|]. destruct ((p =? 0) || bool_decide (p ∈ live)); [done|].
  destruct (deref (m_strings m) p); cbn; auto.
Qed.

Lemma process_edge_objects m os st v : process_edge (with_objects m os) st v = process_edge m st v.
Proof. unfold process_edge. by rewrite mark_string_objects. Qed.

Lemma scan_edges_objects m os g st : scan_edges_for_mark (with_objects m os) g st = scan_edges_for_mark m g st.
Proof.
  unfold scan_edges_for_mark. rewrite (fold_res_ext _ _ _ (process_edge_objects m os)). destruct (fold_res _ (own_values g) st) as [st1| |]; cbn; [|done..].
  destruct (classify g) as [f| |]; cbn; [|done..]. rewrite (fold_res_ext _ _ (native_edges g) (process_edge_objects m os)).
  destruct (if object_edges (ops_for f) then _ else _) as [st2| |]; cbn; [|done..].
  rewrite (fold_res_ext (mark_string_edge (with_objects m os)) (mark_string_edge m)) by (intros; unfold mark_string_edge; by rewrite mark_string_objects).
  destruct (if string_edges (ops_for f) then _ else _) as [st3| |]; cbn; [|done..]. apply fold_res_ext. intros st' p. unfold scan_upvalue. cbn [with_objects m_cells].
  destruct (p =? 0); [done|]. destruct (deref (m_cells m) p); cbn; [|done..]. apply process_edge_objects.
Qed.

(** Edges not scanned yet. *)
Definition unscanned (m : Memory) (seen : gset N) : nat :=
  list_sum (edge_bound <$> (map_to_list (filter (λ e, e.1 ∉ seen) (m_objects m))).*2).

Lemma unscanned_scan m seen p g : m_objects m !! p = Some g → p ∉ seen → unscanned m seen = (edge_bound g + unscanned m ({[p]} ∪ seen))%nat.
Proof.
  intros Hp Hn. unfold unscanned. assert (filter (λ e, e.1 ∉ seen) (m_objects m) = <[p := g]> (filter (λ e, e.1 ∉ {[p]} ∪ seen) (m_objects m))) as ->.
  { apply map_eq. intros q. destruct (decide (p = q)) as [<-|Hne].
    - rewrite lookup_insert_eq. by apply map_lookup_filter_Some_2.
    - rewrite lookup_insert_ne by done. apply option_eq. intros x. rewrite !map_lookup_filter_Some. cbn. set_solver. }
  rewrite map_to_list_insert by (apply map_lookup_filter_None_2; right; cbn; set_solver). by cbn.
Qed.
(** ** The marking loop *)

Section marking.
Context (m : Memory) (rs : list JsValue.t) (RS RB RC : N → Prop).
Hypothesis reach_ok : ∀ p, reach m rs p → ∃ g, m_objects m !! p = Some g ∧ object_ok m g.
Hypothesis unmarked : ∀ p g, reach m rs p → m_objects m !! p = Some g → is_session g = true → is_marked g = false.

Definition held_by (seen : gset N) (P : GcObject → N → Prop) (p : N) : Prop := ∃ a g, a ∈ seen ∧ m_objects m !! a = Some g ∧ P g p.

(** The objects [seen] are scanned, those of [D] are seen or on the stack. *)
Record marking (D : N → Prop) (seen : gset N) (st : MarkState) : Prop := {
  mk_reach p : p ∈ seen ∨ p ∈ mk_stack st → reach m rs p;
  mk_edges a g p : a ∈ seen → m_objects m !! a = Some g → holds_object m g p → p ∈ seen ∨ p ∈ mk_stack st;
  mk_roots p : D p → p ∈ seen ∨ p ∈ mk_stack st;
  mk_strings p : p ∈ live_strings st ↔ string_reach m (λ s, RS s ∨ held_by seen (holds_string m) s) p;
  mk_bigints p : p ∈ live_bigints st ↔ RB p ∨ held_by seen (holds_bigint m) p;
  mk_cells p : p ∈ live_cells st ↔ RC p ∨ held_by seen holds_cell p;
  mk_closed : closed_strings m (live_strings st);
}.

Lemma held_by_insert seen p g P q : m_objects m !! p = Some g → held_by ({[p]} ∪ seen) P q ↔ held_by seen P q ∨ P g q.
Proof.
  intros Hp. split.
  - intros (a & g' & [->%elem_of_singleton|Ha]%elem_of_union & Hg & H); [rewrite Hp in Hg; simplify_eq; by right|left; by exists a, g'].
  - intros [(a & g' & Ha & Hg & H)|H]; [exists a, g'; set_solver|exists p, g; set_solver].
Qed.

Definition popped (stack : list N) (st : MarkState) : MarkState := mkMark stack (live_strings st) (live_bigints st) (live_cells st).

Lemma marking_scan D seen st stack p g : marking D seen st → mk_stack st = p :: stack → m_objects m !! p = Some g → object_ok m g →
  ∃ st', scan_edges_for_mark m g (popped stack st) = Ok st' ∧ marking D ({[p]} ∪ seen) st' ∧ (length (mk_stack st') <= length stack + edge_bound g)%nat.
Proof.
  intros [H1 H2 H3 H4 H5 H6 H7] Est Hp Hg. rewrite Est in *. destruct (scan_edges_ok m g (popped stack st) Hg H7) as (st' & E & [A1 A2 A3 A4 A5 A6]).
  cbn [popped mk_stack live_strings live_bigints live_cells] in *. exists st'. split_and!; [done| |done].
  assert (reach m rs p) as Hr by (apply H1; right; apply list_elem_of_here).
  assert (∀ q, q ∈ seen ∨ q ∈ p :: stack → q ∈ {[p]} ∪ seen ∨ q ∈ mk_stack st') as Hkeep by (intros q; rewrite A1, elem_of_cons; set_solver).
  constructor; [| | | | | |done].
  - intros q. rewrite A1. intros [[->%elem_of_singleton|Hq]%elem_of_union|[Hq|Hq]]; [done|auto|apply H1; right; by right|by eapply reach_held].
  - intros a g' q [->%elem_of_singleton|Ha]%elem_of_union Hg' Hq; [|apply Hkeep; by eapply H2]. rewrite Hp in Hg'. simplify_eq. right. apply A1. by right.
  - intros q Hq. by apply Hkeep, H3.
  - intros q. rewrite A2, H4, <- string_reach_or. split; apply string_reach_mono; intros t; rewrite (held_by_insert seen p g) by done; tauto.
  - intros q. rewrite A3, H5, (held_by_insert seen p g) by done. tauto.
  - intros q. rewrite A4, H6, (held_by_insert seen p g) by done. tauto.
Qed.

Lemma marking_skip D seen st stack p : marking D seen st → mk_stack st = p :: stack → p ∈ seen → marking D seen (popped stack st).
Proof.
  intros [H1 H2 H3 H4 H5 H6 H7] Est Hp. rewrite Est in *. constructor; cbn [popped mk_stack live_strings live_bigints live_cells]; [| | |done..].
  - intros q [Hq|Hq]; apply H1; [auto|right; by right].
  - intros a g q Ha Hg Hq. destruct (H2 a g q Ha Hg Hq) as [?|[->|?]%elem_of_cons]; auto.
  - intros q Hq. destruct (H3 q Hq) as [?|[->|?]%elem_of_cons]; auto.
Qed.

Lemma marking_push D seen st p : marking D seen st → reach m rs p → marking (λ q, D q ∨ q = p) seen (popped (p :: mk_stack st) st).
Proof.
  intros [H1 H2 H3 H4 H5 H6 H7] Hr. constructor; cbn [popped mk_stack live_strings live_bigints live_cells]; [| | |done..].
  - intros q [Hq|[->|Hq]%elem_of_cons]; auto.
  - intros a g q Ha Hg Hq. rewrite elem_of_cons. destruct (H2 a g q Ha Hg Hq); auto.
  - intros q. rewrite elem_of_cons. intros [Hq| ->]; [|auto]. destruct (H3 q Hq); auto.
Qed.

Lemma marking_iff (D D' : N → Prop) seen st : (∀ p, D' p → D p ∨ p ∈ seen) → marking D seen st → marking D' seen st.
Proof. intros HD [H1 H2 H3 H4 H5 H6 H7]. constructor; [done|done| |done..]. intros p Hp. destruct (HD p Hp); auto. Qed.

(** The marked objects are session objects, the visited ones are not. *)
Definition split_ok (M visited : gset N) : Prop :=
  (∀ p g, p ∈ M → m_objects m !! p = Some g → is_session g = true) ∧ (∀ p g, p ∈ visited → m_objects m !! p = Some g → is_session g = false).

Lemma mark_loop_ok D fuel : ∀ M visited st, marking D (M ∪ visited) st → split_ok M visited →
  (length (mk_stack st) + unscanned m (M ∪ visited) < fuel)%nat →
  ∃ M' visited' st', mark_loop fuel (marked m M) visited st = Ok (marked m M', st') ∧ marking D (M' ∪ visited') st' ∧ split_ok M' visited' ∧ mk_stack st' = [].
Proof.
  induction fuel as [|fuel IH]; intros M visited st Hst Hsp Hf; [lia|]. cbn [mark_loop]. destruct (mk_stack st) as [|p stack] eqn:Est; [by exists M, visited, st|].
  cbn [length] in Hf. assert (reach m rs p) as Hr by (apply (mk_reach _ _ _ Hst); right; rewrite Est; apply list_elem_of_here).
  assert (p ≠ 0) as H0 by (by destruct Hr as [|? ? ? ? ? []]). destruct (reach_ok p Hr) as (g & Hp & Hg). rewrite (proj2 (N.eqb_neq p 0) H0).
  change (mkMark stack _ _ _) with (popped stack st). unfold deref. rewrite marked_lookup, Hp. cbn [fmap option_fmap option_map res_bind]. set (g' := if decide (p ∈ M) then _ else _).
  assert (is_session g' = is_session g) as -> by (unfold g'; destruct (decide (p ∈ M)); [apply is_session_set|done]).
  assert (p ∈ M ∪ visited → ∃ M' visited' st', mark_loop fuel (marked m M) visited (popped stack st) = Ok (marked m M', st') ∧ marking D (M' ∪ visited') st' ∧ split_ok M' visited' ∧ mk_stack st' = []) as Hskip.
  { intros Hin. apply IH; [by eapply marking_skip|done|cbn [popped mk_stack]; lia]. }
  assert (p ∉ M ∪ visited → ∃ st', scan_edges_for_mark m g (popped stack st) = Ok st' ∧ marking D ({[p]} ∪ (M ∪ visited)) st' ∧ (length (mk_stack st') + unscanned m ({[p]} ∪ (M ∪ visited)) < fuel)%nat) as Hscan.
  { intros Hin. destruct (marking_scan D (M ∪ visited) st stack p g Hst Est Hp Hg) as (st' & E & H & Hl). exists st'. split_and!; [done|done|]. rewrite (unscanned_scan m _ p g Hp Hin) in Hf. lia. }
  destruct Hsp as [HM HV]. destruct (is_session g) eqn:Es; cbn [negb].
  - assert (p ∉ visited) as Hv by (intros Hv; specialize (HV p g Hv Hp); congruence). unfold g'. destruct (decide (p ∈ M)) as [Hin|Hin].
    { rewrite is_marked_set. apply Hskip. set_solver. }
    rewrite (unmarked p g Hr Hp Es), (marked_insert m M p g Hp). change (scan_edges_for_mark _ (set_mark g true) ?x) with (scan_edges_for_mark (marked m ({[p]} ∪ M)) g x).
    unfold marked at 1. rewrite scan_edges_objects. destruct Hscan as (st' & -> & Hm & Hl); [set_solver|]. cbn [res_bind]. rewrite (assoc_L (∪)) in Hm, Hl. apply IH; [done| |done].
    split; [|done]. intros q gq [->%elem_of_singleton|Hq]%elem_of_union Hgq; [by simplify_eq|by eapply HM].
  - assert (p ∉ M) as Hv by (intros Hv; specialize (HM p g Hv Hp); congruence). unfold g'. rewrite decide_False by done. case_bool_decide as Hin; [apply Hskip; set_solver|].
    unfold marked at 1. rewrite scan_edges_objects. destruct Hscan as (st' & -> & Hm & Hl); [set_solver|]. cbn [res_bind]. rewrite (assoc_L (∪)), (comm_L (∪) {[p]} M), <- (assoc_L (∪)) in Hm, Hl. apply IH; [done| |done].
    split; [done|]. intros q gq [->%elem_of_singleton|Hq]%elem_of_union Hgq; [by simplify_eq|by eapply HV].
Qed.

(** The seeds. *)
Lemma seed_object_ok D visited st p : marking D visited st → split_ok ∅ visited → (p ≠ 0 → reach m rs p) →
  ∃ visited' st', seed_object m (visited, st) p = Ok (visited', st') ∧ marking (λ q, D q ∨ (q = p ∧ q ≠ 0)) visited' st' ∧ split_ok ∅ visited'.
Proof.
  intros Hst [HM HV] Hr. cbn [seed_object]. destruct (N.eqb_spec p 0) as [->|H0].
  { exists visited, st. split_and!; [done| |done]. eapply marking_iff; [|done]. naive_solver. }
  specialize (Hr H0). destruct (reach_ok p Hr) as (g & Hp & Hg). unfold deref. rewrite Hp. cbn [res_bind].
  pose proof (marking_push D visited st p Hst Hr) as Hpush. destruct (is_session g) eqn:Es.
  { eexists visited, _. split_and!; [done| |done]. eapply marking_iff; [|exact Hpush]. naive_solver. }
  case_bool_decide as Hin. { exists visited, st. split_and!; [done| |done]. eapply marking_iff; [|done]. naive_solver. }
  destruct (marking_scan _ visited _ (mk_stack st) p g Hpush) as (st' & E & Hm & _); [done..|]. change (popped (mk_stack st) (popped _ st)) with (popped (mk_stack st) st) in E.
  assert (popped (mk_stack st) st = st) as Hpop by (by destruct st). rewrite Hpop in E. rewrite E. cbn [res_bind]. eexists _, st'. split_and!; [done| |].
  - eapply marking_iff; [|exact Hm]. naive_solver.
  - split; [done|]. intros q gq [->%elem_of_singleton|Hq]%elem_of_union Hgq; [by simplify_eq|by eapply HV].
Qed.

Lemma seeds_ok st seeds : marking (λ _, False) ∅ st → (∀ p, p ∈ seeds → p ≠ 0 → reach m rs p) →
  ∃ visited' st', fold_res (seed_object m) seeds (∅, st) = Ok (visited', st') ∧ marking (λ p, p ∈ seeds ∧ p ≠ 0) visited' st' ∧ split_ok ∅ visited'.
Proof.
  intros Hst Hs. destruct (fold_res_inv (seed_object m) (λ done s, marking (λ p, p ∈ done ∧ p ≠ 0) (fst s) (snd s) ∧ split_ok ∅ (fst s)) seeds (∅, st)) as ([v s] & E & H1 & H2); [| |by exists v, s].
  - split; [eapply marking_iff; [|done]; set_solver|split; set_solver].
  - intros pre x post [v s] -> [Hm Hsp]. destruct (seed_object_ok _ v s x Hm Hsp) as (v' & s' & E & Hm' & Hsp'); [intros H0; apply Hs; [set_solver|done]|]. exists (v', s'). split_and!; [done| |done].
    eapply marking_iff; [|exact Hm']. cbn. intros p. rewrite elem_of_app, list_elem_of_singleton. naive_solver.
Qed.

(** When the stack is empty the scanned objects are the reachable ones. *)
Lemma marking_done D seen st : (∀ v p, v ∈ rs → edge_of v = EObject p → p ≠ 0 → D p) → marking D seen st → mk_stack st = [] → ∀ p, p ∈ seen ↔ reach m rs p.
Proof.
  intros HD [H1 H2 H3 _ _ _ _] Hst p. rewrite Hst in *. split; [auto|]. induction 1 as [v p Hv He H0|a g p _ IH Ha Hp].
  - destruct (H3 p (HD v p Hv He H0)) as [?|?%elem_of_nil]; done.
  - destruct (H2 a g p IH Ha Hp) as [?|?%elem_of_nil]; done.
Qed.
End marking.

Lemma unscanned_total m seen : (unscanned m seen <= list_sum (edge_bound <$> (map_to_list (m_objects m)).*2))%nat.
Proof.
  unfold unscanned. assert (map_to_list (filter (λ e, e.1 ∉ seen) (m_objects m)) ⊆+ map_to_list (m_objects m)) as Hs by (apply map_to_list_submseteq, map_filter_subseteq).
  apply submseteq_Permutation in Hs as [k ->]. rewrite !fmap_app, list_sum_app. lia.
Qed.

Lemma object_seeds_spec rs p : p ∈ object_seeds rs ↔ ∃ v, v ∈ rs ∧ edge_of v = EObject p.
Proof.
  unfold object_seeds. rewrite list_elem_of_fmap. setoid_rewrite list_elem_of_filter. unfold edge_of. split.
  - intros (v & -> & Ho & Hv). exists v. by rewrite Ho.
  - intros (v & Hv & E). exists v. destruct (JsValue.is_object v); [by simplify_eq|]. by destruct (JsValue.is_string v), (JsValue.is_bigint v).
Qed.
Lemma string_seeds_spec rs p : p ∈ string_seeds rs ↔ ∃ v, v ∈ rs ∧ edge_of v = EString p.
Proof.
  unfold string_seeds. rewrite list_elem_of_fmap. setoid_rewrite list_elem_of_filter. unfold edge_of. split.
  - intros (v & -> & [Ho Hs] & Hv). exists v. by rewrite Ho, Hs.
  - intros (v & Hv & E). exists v. destruct (JsValue.is_object v); [done|]. destruct (JsValue.is_string v); [by simplify_eq|]. by destruct (JsValue.is_bigint v).
Qed.
Lemma bigint_seeds_spec rs p : p ∈ bigint_seeds rs ↔ ∃ v, v ∈ rs ∧ edge_of v = EBigint p.
Proof.
  unfold bigint_seeds. rewrite list_elem_of_fmap. setoid_rewrite list_elem_of_filter. unfold edge_of. split.
  - intros (v & -> & (Ho & Hs & Hb) & Hv). exists v. by rewrite Ho, Hs, Hb.
  - intros (v & Hv & E). exists v. destruct (JsValue.is_object v); [done|]. destruct (JsValue.is_string v); [done|]. destruct (JsValue.is_bigint v); [by simplify_eq|done].
Qed.

Lemma mark_strings_ok m seeds : strings_ok m (λ s, s ∈ seeds) →
  ∃ L, fold_res (mark_string_live m) seeds ∅ = Ok L ∧ closed_strings m L ∧ ∀ t, t ∈ L ↔ string_reach m (λ s, s ∈ seeds) t.
Proof.
  intros Hok. apply (fold_res_inv (mark_string_live m) (λ done L, closed_strings m L ∧ ∀ t, t ∈ L ↔ string_reach m (λ s, s ∈ done) t)).
  - split; [by intros s ?%elem_of_empty|]. intros t. split; [by intros ?%elem_of_empty|]. intros Hr. exfalso. eapply string_reach_false, string_reach_mono; [|done]. intros s. cbn. by rewrite elem_of_nil.
  - intros pre x post L -> [Hc HL]. destruct (mark_string_live_ok m L x Hc) as (L' & E & Hc' & HL').
    { intros s Hs. apply Hok. eapply string_reach_mono; [|done]. intros ? ->. set_solver. }
    exists L'. split_and!; [done|done|]. intros t. rewrite HL', HL, <- string_reach_or. split; apply string_reach_mono; intros s; rewrite elem_of_app, list_elem_of_singleton; tauto.
Qed.

(** A machine whose pointers can be followed: [rs] are the values of its roots. *)
Record traceable (vm : Vm) (rs : list JsValue.t) : Prop := {
  tr_roots : ∃ groups, for_each_root vm = Ok groups ∧ rs = groups.*2;
  tr_objects p : reach (mem vm) rs p → ∃ g, m_objects (mem vm) !! p = Some g ∧ object_ok (mem vm) g;
  tr_strings : strings_ok (mem vm) (λ s, ∃ v, v ∈ rs ∧ edge_of v = EString s);
}.

Definition unmarked_reach (vm : Vm) (rs : list JsValue.t) : Prop :=
  ∀ p g, reach (mem vm) rs p → m_objects (mem vm) !! p = Some g → is_session g = true → is_marked g = false.

(** What marking leaves. *)
Record mark_result (vm : Vm) (rs : list JsValue.t) (M : gset N) (st : MarkState) : Prop := {
  mr_objects p : p ∈ M ↔ reach (mem vm) rs p ∧ ∃ g, m_objects (mem vm) !! p = Some g ∧ is_session g = true;
  mr_strings p : p ∈ live_strings st ↔ live_string (mem vm) rs p;
  mr_bigints p : p ∈ live_bigints st ↔ live_bigint (mem vm) rs p;
  mr_cells p : p ∈ live_cells st ↔ live_cell vm rs p;
}.

Lemma mark_ok vm rs : traceable vm rs → unmarked_reach vm rs → ∃ M st, mark vm = Ok (marked (mem vm) M, st) ∧ mark_result vm rs M st.
Proof.
  intros [(groups & Eg & Ers) Hobj Hstr] Hunm. unfold mark. rewrite Eg. cbn [res_bind]. rewrite <- Ers. set (m := mem vm) in *.
  destruct (mark_strings_ok m (string_seeds rs)) as (L & -> & HcL & HL). { intros s Hs. apply Hstr. eapply string_reach_mono; [|done]. intros t. apply string_seeds_spec. }
  cbn [res_bind]. set (st0 := mkMark _ _ _ _). set (RS := λ s, ∃ v, v ∈ rs ∧ edge_of v = EString s). set (RB := λ s, ∃ v, v ∈ rs ∧ edge_of v = EBigint s). set (RC := λ p, p ≠ 0 ∧ p ∈ concat (cell_stack vm)).
  destruct (seeds_ok m rs RS RB RC Hobj Hunm st0 (object_seeds rs)) as (V & st1 & -> & Hst1 & Hsp).
  { constructor; cbn [st0 mk_stack live_strings live_bigints live_cells]; [set_solver..| | | |done].
    - intros p. rewrite HL. split; apply string_reach_mono; intros s; rewrite string_seeds_spec; [by left|]. intros [?|(a & g & ?%elem_of_empty & _)]; done.
    - intros p. rewrite elem_of_list_to_set, bigint_seeds_spec. split; [by left|]. intros [?|(a & g & ?%elem_of_empty & _)]; done.
    - intros p. rewrite elem_of_list_to_set, list_elem_of_filter. split; [by left|]. intros [?|(a & g & ?%elem_of_empty & _)]; done. }
  { intros p (v & Hv & E)%object_seeds_spec H0. by eapply reach_root. }
  cbn [res_bind fst snd]. replace (mark_loop (mark_fuel m st1) m V st1) with (mark_loop (mark_fuel m st1) (marked m ∅) V st1) by (by rewrite marked_empty).
  destruct (mark_loop_ok m rs RS RB RC Hobj Hunm (λ p, p ∈ object_seeds rs ∧ p ≠ 0) (mark_fuel m st1) ∅ V st1) as (M & V' & st2 & E & Hst2 & [HM HV] & Hnil); [by rewrite (left_id_L ∅ (∪))|done| |].
  { unfold mark_fuel. pose proof (unscanned_total m (∅ ∪ V)). lia. }
  rewrite E. exists M, st2. split; [done|].
  assert (∀ p, p ∈ M ∪ V' ↔ reach m rs p) as Hall. { eapply marking_done; [|exact Hst2|done]. intros v p Hv Ev H0. split; [|done]. apply object_seeds_spec. by exists v. }
  assert (∀ P p, held_by m (M ∪ V') P p ↔ reach_holds m rs P p) as Hheld by (intros P p; unfold held_by, reach_holds; by setoid_rewrite Hall).
  constructor; intros p; fold m.
  - split.
    + intros Hp. assert (reach m rs p) as Hr by (apply Hall; set_solver). split; [done|]. destruct (Hobj p Hr) as (g & Hg & _). exists g. split; [done|]. by eapply HM.
    + intros [Hr (g & Hg & Hs)]. apply Hall in Hr as [?|Hv]%elem_of_union; [done|]. specialize (HV p g Hv Hg). congruence.
  - rewrite (mk_strings _ _ _ _ _ _ _ _ Hst2). unfold live_string. split; apply string_reach_mono; intros s; rewrite Hheld; done.
  - rewrite (mk_bigints _ _ _ _ _ _ _ _ Hst2), Hheld. done.
  - rewrite (mk_cells _ _ _ _ _ _ _ _ Hst2), Hheld. done.
Qed.
End GcFacts.
