(* ===== verification/GcCollect.v ===== *)
(** * Correctness of the collections (crates/oxide_vm/src/session_gc.rs)

    Sweeping of what marking left, and what the three kinds of collection do to
    the heap: they free what is not reachable, keep what is, and leave a heap in
    which every pointer that can be followed leads to something. *)

From stdpp Require Import base tactics numbers list option gmap sets strings.
From Stdlib Require Import NArith ZArith Lia.
From S2P Require Import Prelude Value Object Gc GcCorrect.
#[local] Set Warnings "-clear-no-such-hyp".

Open Scope N_scope.
Import NativeBoxDispatch Gc GcFacts.

Module GcHeap.

(** ** A sound heap *)

(** Everything that can be reached is allocated. *)
Record sound (vm : Vm) (rs : list JsValue.t) : Prop := {
  so_traceable : traceable vm rs;
  so_bigints p : live_bigint (mem vm) rs p → p ∈ m_bigints (mem vm);
  so_cells p : live_cell vm rs p → is_Some (m_cells (mem vm) !! p);
  so_weak p g k v : reach (mem vm) rs p → m_objects (mem vm) !! p = Some g → is_session g = true → is_weak_map_obj g = true →
    (WeakObj k, v) ∈ n_entries (native g) → is_Some (m_objects (mem vm) !! k);
}.

(** [f] is reached through the string [s] only. *)
Definition owned_flat (vm : Vm) (rs : list JsValue.t) (s f : N) : Prop :=
  (∀ v, v ∈ rs → edge_of v ≠ EString f) ∧
  (∀ a g, reach (mem vm) rs a → m_objects (mem vm) !! a = Some g → ¬ holds_string (mem vm) g f) ∧
  (∀ t node, m_strings (mem vm) !! t = Some node → f ∈ string_pushes node → t = s).

(** The tables of the session describe the memory. *)
Record tables_ok (vm : Vm) (rs : list JsValue.t) : Prop := {
  tb_objects_nodup : NoDup (session_object_ptrs (gc vm));
  tb_objects p : p ∈ session_object_ptrs (gc vm) → p ≠ 0 ∧ ∃ g, m_objects (mem vm) !! p = Some g ∧ is_session g = true;
  tb_session p g : reach (mem vm) rs p → m_objects (mem vm) !! p = Some g → is_session g = true → p ∈ session_object_ptrs (gc vm);
  tb_unmarked p g : m_objects (mem vm) !! p = Some g → is_marked g = false;
  tb_strings_nodup : NoDup (session_string_ptrs (gc vm));
  tb_strings s : s ∈ session_string_ptrs (gc vm) → s ≠ 0 ∧ ∃ node, m_strings (mem vm) !! s = Some node ∧
    (flat_cache_ptr node ≠ 0 → (flat_cache_ptr node ∉ session_string_ptrs (gc vm)) ∧ is_Some (m_strings (mem vm) !! flat_cache_ptr node) ∧ owned_flat vm rs s (flat_cache_ptr node));
  tb_bigints_nodup : NoDup (session_bigint_ptrs (gc vm));
  tb_bigints p : p ∈ session_bigint_ptrs (gc vm) → p ≠ 0 → p ∈ m_bigints (mem vm);
  tb_cells_nodup : NoDup (session_cell_ptrs (gc vm));
  tb_cells p : p ∈ session_cell_ptrs (gc vm) → p ≠ 0 → is_Some (m_cells (mem vm) !! p);
  tb_channels name ps p : broadcast_channels (gc vm) !! name = Some ps → p ∈ ps → p ≠ 0 → is_Some (m_objects (mem vm) !! p);
  tb_targets p ls : event_targets (gc vm) !! p = Some ls → p ≠ 0 → is_Some (m_objects (mem vm) !! p);
}.

(** An object that may have lost entries of its weak table. *)
Record shrunk (g' g : GcObject) : Prop := {
  sk_own : own_values g' = own_values g;
  sk_family : classify g' = classify g;
  sk_session : is_session g' = is_session g;
  sk_native v : v ∈ native_edges g' → v ∈ native_edges g;
  sk_strings : n_strings (native g') = n_strings (native g);
  sk_cells : n_cells (native g') = n_cells (native g);
  sk_upvalues : upvalues_slice g' = upvalues_slice g;
}.

(** The memory [m'] has nothing that [m] has not, and all of it that can be reached. *)
Record restricts (m m' : Memory) (rs : list JsValue.t) : Prop := {
  re_objects p g : reach m rs p → m_objects m !! p = Some g → ∃ g', m_objects m' !! p = Some g' ∧ shrunk g' g;
  re_strings s : live_string m rs s → m_strings m' !! s = m_strings m !! s;
  re_strings_sub s node : m_strings m' !! s = Some node → m_strings m !! s = Some node;
  re_cells p : reach_holds m rs holds_cell p → m_cells m' !! p = m_cells m !! p;
  re_cells_sub p c : m_cells m' !! p = Some c → m_cells m !! p = Some c;
}.

Section restricts.
Context (m m' : Memory) (rs rs' : list JsValue.t).
Hypothesis Hobj : ∀ p, reach m rs p → ∃ g, m_objects m !! p = Some g ∧ object_ok m g.
Hypothesis Hre : restricts m m' rs.
Hypothesis Hrs : rs' ⊆ rs.

Lemma shrunk_held g' g v : shrunk g' g → v ∈ held_values m' g' → v ∈ held_values m g.
Proof.
  intros [H1 H2 H3 H4 H5 H6 H7]. unfold held_values, native_values, native_part. rewrite H1, H2, !elem_of_app. intros [Hv|[Hv|Hv]]; [auto| |].
  - right. left. destruct (classify g) as [f| |]; [|done..]. destruct (object_edges (ops_for f)); [auto|done].
  - right. right. apply upvalue_inv in Hv as (p & c & Hp & H0 & Hc & ->). rewrite H7 in Hp. by eapply upvalue_value, re_cells_sub.
Qed.

Lemma shrunk_holds_string g' g s : shrunk g' g → holds_string m' g' s → holds_string m g s.
Proof.
  intros Hs [(v & Hv & E)|Hn]; [left; exists v; split; [by eapply shrunk_held|done]|right]. unfold native_strings, native_part in *. by rewrite <- (sk_family _ _ Hs), <- (sk_strings _ _ Hs).
Qed.

Lemma shrunk_holds_cell g' g s : shrunk g' g → holds_cell g' s → holds_cell g s.
Proof.
  intros Hs [Hn|Hn]; [left|right; by rewrite <- (sk_upvalues _ _ Hs)]. unfold native_cells, native_part in *. by rewrite <- (sk_family _ _ Hs), <- (sk_cells _ _ Hs).
Qed.

(** What is reachable afterwards was reachable, and is what it was. *)
Lemma reach_object p g' : reach m rs p → m_objects m' !! p = Some g' → ∃ g, m_objects m !! p = Some g ∧ shrunk g' g.
Proof.
  intros Hr Hg'. destruct (Hobj p Hr) as (g & Hg & _). exists g. split; [done|]. destruct (re_objects _ _ _ Hre p g Hr Hg) as (g'' & E & H). by rewrite Hg' in E; simplify_eq.
Qed.

Lemma reach_shrink p : reach m' rs' p → reach m rs p.
Proof.
  induction 1 as [v p Hv E H0|a g' p _ IH Ha [H0 (v & Hv & E)]]; [eapply reach_root; [by apply Hrs|done..]|].
  destruct (reach_object a g' IH Ha) as (g & Hg & Hs). eapply reach_held; [done|done|]. split; [done|]. exists v. split; [by eapply shrunk_held|done].
Qed.

Lemma reach_holds_shrink (P P' : GcObject → N → Prop) p : (∀ g' g, shrunk g' g → P' g' p → P g p) → reach_holds m' rs' P' p → reach_holds m rs P p.
Proof.
  intros HP (a & g' & Ha & Hg' & H). apply reach_shrink in Ha. destruct (reach_object a g' Ha Hg') as (g & Hg & Hs). exists a, g. split_and!; [done|done|by eapply HP].
Qed.

Lemma string_reach_shrink (R R' : N → Prop) s : (∀ t, R' t → R t) → string_reach m' R' s → string_reach m R s.
Proof. intros HR. induction 1 as [s Hs H0|s t node _ IH Hn Ht H0]; [apply string_root; auto|]. eapply string_child; [done|by eapply re_strings_sub|done..]. Qed.

Lemma live_string_shrink s : live_string m' rs' s → live_string m rs s.
Proof.
  apply string_reach_shrink. intros t [(v & Hv & E)|H]; [left; exists v; split; [by apply Hrs|done]|right]. revert H. apply reach_holds_shrink. intros g' g. apply shrunk_holds_string.
Qed.

Lemma live_bigint_shrink p : live_bigint m' rs' p → live_bigint m rs p.
Proof.
  intros [(v & Hv & E)|H]; [left; exists v; split; [by apply Hrs|done]|right]. revert H. apply reach_holds_shrink. intros g' g Hs (v & Hv & E). exists v. split; [by eapply shrunk_held|done].
Qed.

Hypothesis Hstr : ∀ s, live_string m rs s → is_Some (m_strings m !! s).

Lemma object_ok_shrink p g' g : reach m rs p → m_objects m !! p = Some g → shrunk g' g → object_ok m g → object_ok m' g'.
Proof.
  intros Hr Hg Hs [[f H1] H2 H3]. constructor.
  - exists f. by rewrite (sk_family _ _ Hs).
  - intros s Hrs'. assert (live_string m rs s) as Hl.
    { eapply string_reach_shrink; [|exact Hrs']. intros t Ht. right. exists p, g. split_and!; [done|done|by eapply shrunk_holds_string]. }
    rewrite (re_strings _ _ _ Hre s Hl). by apply Hstr.
  - intros q Hq H0. rewrite (sk_upvalues _ _ Hs) in Hq. rewrite (re_cells _ _ _ Hre q); [by apply H3|]. exists p, g. split_and!; [done|done|right; auto].
Qed.
End restricts.

(** ** Roots after a collection *)

Lemma app_mono {A} (l1 l2 k1 k2 : list A) : l1 ⊆ k1 → l2 ⊆ k2 → l1 ++ l2 ⊆ k1 ++ k2.
Proof. set_solver. Qed.
Lemma fmap_mono {A B} (f : A → B) (l k : list A) : l ⊆ k → f <$> l ⊆ f <$> k.
Proof. intros H y (x & -> & Hx)%list_elem_of_fmap. apply list_elem_of_fmap. exists x. auto. Qed.

Lemma cell_values_same vm vm' : cell_stack vm' = cell_stack vm → (∀ p, p ≠ 0 → p ∈ concat (cell_stack vm) → m_cells (mem vm') !! p = m_cells (mem vm) !! p) →
  cell_stack_values vm' = cell_stack_values vm.
Proof.
  intros E H. unfold cell_stack_values. rewrite E. assert (∀ l, (∀ p, p ∈ l → p ≠ 0 ∧ p ∈ concat (cell_stack vm)) → map_res (λ p, let* c := deref (m_cells (mem vm')) p in Ok (c_value c)) l = map_res (λ p, let* c := deref (m_cells (mem vm)) p in Ok (c_value c)) l) as Hl.
  { induction l as [|x l IH]; intros Hin; [done|]. cbn [map_res]. destruct (Hin x) as [H0 Hx]; [apply list_elem_of_here|]. unfold deref at 1 3. rewrite H by done. rewrite IH; [done|]. intros p Hp. apply Hin. by right. }
  apply Hl. intros p [H0 Hp]%list_elem_of_filter. done.
Qed.

Lemma roots_same vm g' m' groups : (∀ p, p ≠ 0 → p ∈ concat (cell_stack vm) → m_cells m' !! p = m_cells (mem vm) !! p) →
  event_targets g' ⊆ event_targets (gc vm) → for_each_root vm = Ok groups →
  ∃ groups', for_each_root (with_gc vm g' m') = Ok groups' ∧ groups'.*2 ⊆ groups.*2.
Proof.
  intros Hc Het. unfold for_each_root, for_each_value. rewrite (cell_values_same vm (with_gc vm g' m')) by done.
  destruct (cell_stack_values vm) as [cells| |]; cbn [res_bind]; [|done..]. intros Eg. apply (f_equal (λ r, match r with Ok x => x | _ => groups end)) in Eg. cbv beta iota in Eg. rewrite <- Eg.
  eexists. split; [done|]. apply fmap_mono.
  cbn [with_gc regs module_cache frames save_stack spill_stack dispose_stack cell_stack exception_value pending_exception last_uncaught_value pending_length_exception pending_completion
    generator_suspended delegated_iterator async_context async_gen_context pending_async_escape pending_async_dispose inline_callee template_objects number_to_string_cache_vals for_of_iters
    job_queue atomics_waiters for_in_iters global_object worker_objects shadow_realm_objects module_eval_states shadow_keepalive wrapped_function_state gc mem].
  repeat match goal with |- ?a ++ ?b ⊆ ?c ++ ?d => apply (app_mono a b c d); [try reflexivity|] end; [|reflexivity]. apply fmap_mono. intros v (e & Hv & He)%list_elem_of_bind. apply list_elem_of_bind. exists e. split; [done|].
  destruct e as [p ls]. apply elem_of_map_to_list in He. apply elem_of_map_to_list. by eapply lookup_weaken.
Qed.

(** ** A collection keeps the heap sound *)

Record heap_ok (vm : Vm) (rs : list JsValue.t) : Prop := { ho_sound : sound vm rs; ho_tables : tables_ok vm rs }.

(** What a collection has to leave. *)
Record kept (vm : Vm) (rs : list JsValue.t) (g' : GcState) (m' : Memory) : Prop := {
  ke_restricts : restricts (mem vm) m' rs;
  ke_cells p : p ≠ 0 → p ∈ concat (cell_stack vm) → m_cells m' !! p = m_cells (mem vm) !! p;
  ke_bigints p : live_bigint (mem vm) rs p → p ∈ m_bigints (mem vm) → p ∈ m_bigints m';
  ke_weak p g k v : reach (mem vm) rs p → m_objects m' !! p = Some g → is_session g = true → is_weak_map_obj g = true →
    (WeakObj k, v) ∈ n_entries (native g) → is_Some (m_objects m' !! k);
  ke_unmarked p g : m_objects m' !! p = Some g → is_marked g = false;
  ke_objects : session_object_ptrs g' `sublist_of` session_object_ptrs (gc vm);
  ke_objects_in p : p ∈ session_object_ptrs g' → ∃ g, m_objects m' !! p = Some g ∧ is_session g = true;
  ke_objects_live p : p ∈ session_object_ptrs (gc vm) → reach (mem vm) rs p → p ∈ session_object_ptrs g';
  ke_strings : session_string_ptrs g' `sublist_of` session_string_ptrs (gc vm);
  ke_strings_in s node : s ∈ session_string_ptrs g' → m_strings (mem vm) !! s = Some node →
    m_strings m' !! s = Some node ∧ (flat_cache_ptr node ≠ 0 → m_strings m' !! flat_cache_ptr node = m_strings (mem vm) !! flat_cache_ptr node);
  ke_bigint_table : session_bigint_ptrs g' `sublist_of` session_bigint_ptrs (gc vm);
  ke_bigints_in p : p ∈ session_bigint_ptrs g' → p ≠ 0 → p ∈ m_bigints (mem vm) → p ∈ m_bigints m';
  ke_cell_table : session_cell_ptrs g' `sublist_of` session_cell_ptrs (gc vm);
  ke_cells_in p : p ∈ session_cell_ptrs g' → p ≠ 0 → m_cells m' !! p = m_cells (mem vm) !! p;
  ke_channels name ps p : broadcast_channels g' !! name = Some ps → p ∈ ps → p ≠ 0 → is_Some (m_objects m' !! p);
  ke_targets : event_targets g' ⊆ event_targets (gc vm);
  ke_targets_in p ls : event_targets g' !! p = Some ls → p ≠ 0 → is_Some (m_objects m' !! p);
}.

Section kept.
Context (vm : Vm) (rs rs' : list JsValue.t) (g' : GcState) (m' : Memory).
Hypothesis Hok : heap_ok vm rs.
Hypothesis Hke : kept vm rs g' m'.
Hypothesis Hrs : rs' ⊆ rs.
Let Hobj := tr_objects _ _ (so_traceable _ _ (ho_sound _ _ Hok)).
Let Hre := ke_restricts _ _ _ _ Hke.

Lemma live_string_alloc s : live_string (mem vm) rs s → is_Some (m_strings (mem vm) !! s).
Proof.
  intros Hs. unfold live_string in Hs. apply string_reach_or in Hs as [Hs|Hs]; [by apply (tr_strings _ _ (so_traceable _ _ (ho_sound _ _ Hok)))|].
  assert (∃ a g, reach (mem vm) rs a ∧ m_objects (mem vm) !! a = Some g ∧ string_reach (mem vm) (holds_string (mem vm) g) s) as (a & g & Ha & Hg & H).
  { induction Hs as [s (a & g & Ha & Hg & H) H0|s t node _ (a & g & Ha & Hg & H) Hn Ht H0]; exists a, g; split_and!; [done|done|by apply string_root|done|done|by eapply string_child]. }
  destruct (Hobj a Ha) as (g2 & Hg2 & Hok2). rewrite Hg in Hg2. simplify_eq. by apply (ok_strings _ _ Hok2).
Qed.

Lemma kept_sound groups : for_each_root (with_gc vm g' m') = Ok groups → rs' = groups.*2 → sound (with_gc vm g' m') rs'.
Proof.
  intros Er Ers. constructor; cbn [with_gc mem].
  - constructor; cbn [with_gc mem]; [by exists groups| |].
    + intros p Hp. eapply reach_shrink in Hp; [|done..]. destruct (Hobj p Hp) as (g & Hg & Ho). destruct (re_objects _ _ _ Hre p g Hp Hg) as (g2 & Hg2 & Hs).
      exists g2. split; [done|]. eapply object_ok_shrink; [done..| |done|done|done|done]. apply live_string_alloc.
    + intros s Hs. assert (live_string (mem vm) rs s) as Hl.
      { eapply string_reach_shrink; [done..| |exact Hs]. intros t (v & Hv & E). left. exists v. split; [by apply Hrs|done]. }
      rewrite (re_strings _ _ _ Hre s Hl). by apply live_string_alloc.
  - intros p Hp. eapply live_bigint_shrink in Hp; [|done..]. apply (ke_bigints _ _ _ _ Hke); [done|by apply (so_bigints _ _ (ho_sound _ _ Hok))].
  - intros p [[H0 Hp]|Hp].
    + rewrite (ke_cells _ _ _ _ Hke p H0 Hp). apply (so_cells _ _ (ho_sound _ _ Hok)). left. auto.
    + cbn [with_gc mem] in Hp. assert (reach_holds (mem vm) rs holds_cell p) as Hl by (revert Hp; eapply reach_holds_shrink; [done..|]; intros; by eapply shrunk_holds_cell).
      rewrite (re_cells _ _ _ Hre p Hl). apply (so_cells _ _ (ho_sound _ _ Hok)). by right.
  - intros p g k v Hp Hg Hs Hw Hk. eapply reach_shrink in Hp; [|done..]. by eapply (ke_weak _ _ _ _ Hke).
Qed.

Lemma kept_tables : tables_ok (with_gc vm g' m') rs'.
Proof.
  destruct (ho_tables _ _ Hok) as [T1 T2 T3 T4 T5 T6 T7 T8 T9 T10 T11 T12]. pose proof Hke as [_ K2 K3 K4 K5 K6 K7 K8 K9 K10 K11 K12 K13 K14 K15 K16 K17].
  constructor; cbn [with_gc mem gc]; [exact (sublist_NoDup _ _ T1 K6)| | |done|exact (sublist_NoDup _ _ T5 K9)| |exact (sublist_NoDup _ _ T7 K11)| |exact (sublist_NoDup _ _ T9 K13)| |done|done].
  - intros p Hp. split; [|by apply K7]. apply T2. by eapply elem_of_sublist.
  - intros p g Hp Hg Hs. eapply reach_shrink in Hp; [|done..]. destruct (reach_object _ _ _ Hobj Hre p g Hp Hg) as (g0 & Hg0 & Hsk). apply K8; [|done].
    eapply T3; [done|done|]. by rewrite <- (sk_session _ _ Hsk).
  - intros s Hs. destruct (T6 s) as (H0 & node & Hn & Hf); [by eapply elem_of_sublist|]. split; [done|]. exists node. destruct (K10 s node Hs Hn) as [Hn' Hfl]. split; [done|].
    intros Hfc. destruct (Hf Hfc) as (F1 & F2 & F3 & F4 & F5). split_and!; [|by rewrite Hfl|].
    + intros Hin. apply F1. by eapply elem_of_sublist.
    + split_and!; cbn [with_gc mem].
      * intros v Hv. by apply F3, Hrs.
      * intros a g Ha Hg Hh. eapply reach_shrink in Ha; [|done..]. destruct (reach_object _ _ _ Hobj Hre a g Ha Hg) as (g0 & Hg0 & Hsk). eapply F4; [done|done|]. by eapply shrunk_holds_string.
      * intros t node' Ht. eapply F5, (re_strings_sub _ _ _ Hre). done.
  - intros p Hp H0. apply K12; [done|done|]. apply T8; [by eapply elem_of_sublist|done].
  - intros p Hp H0. rewrite K14 by done. apply T10; [by eapply elem_of_sublist|done].
Qed.
End kept.

(** Nothing becomes reachable. *)
Definition shrinks (vm : Vm) (rs : list JsValue.t) (vm' : Vm) (rs' : list JsValue.t) : Prop :=
  rs' ⊆ rs ∧ ∀ p, reach (mem vm') rs' p → reach (mem vm) rs p.
Lemma shrinks_refl vm rs : shrinks vm rs vm rs.
Proof. by split. Qed.
Lemma shrinks_trans vm1 rs1 vm2 rs2 vm3 rs3 : shrinks vm1 rs1 vm2 rs2 → shrinks vm2 rs2 vm3 rs3 → shrinks vm1 rs1 vm3 rs3.
Proof. intros [H1 H2] [H3 H4]. split; [by etransitivity|auto]. Qed.

Lemma kept_heap vm rs g' m' : heap_ok vm rs → kept vm rs g' m' → ∃ rs', shrinks vm rs (with_gc vm g' m') rs' ∧ heap_ok (with_gc vm g' m') rs'.
Proof.
  intros Hok Hke. destruct (tr_roots _ _ (so_traceable _ _ (ho_sound _ _ Hok))) as (groups & E & ->).
  destruct (roots_same vm g' m' groups) as (groups' & E' & Hsub); [apply (ke_cells _ _ _ _ Hke)|apply (ke_targets _ _ _ _ Hke)|done|].
  exists (groups'.*2). split; [split; [done|]|constructor; [by eapply kept_sound|by eapply kept_tables]].
  intros p. apply reach_shrink; [apply (tr_objects _ _ (so_traceable _ _ (ho_sound _ _ Hok)))|apply (ke_restricts _ _ _ _ Hke)|done].
Qed.

(** ** Sweeping strings, BigInts and cells *)

(** What freeing a string frees. *)
Definition string_boxes (m : Memory) (s : N) : list N :=
  s :: match m_strings m !! s with Some node => if flat_cache_ptr node =? 0 then [] else [flat_cache_ptr node] | None => [] end.
Definition doomed (m : Memory) (L : gset N) (l : list N) : list N := filter (λ s, s ∉ L) l ≫= string_boxes m.

Definition swept_strings (m : Memory) (L : gset N) (l : list N) : gmap N GcString := filter (λ e, e.1 ∉ doomed m L l) (m_strings m).

Lemma swept_strings_lookup m L l q : swept_strings m L l !! q = if decide (q ∈ doomed m L l) then None else m_strings m !! q.
Proof.
  unfold swept_strings. apply option_eq. intros x. rewrite map_lookup_filter_Some. cbn. destruct (decide (q ∈ doomed m L l)); naive_solver.
Qed.

(** A table of strings whose flat forms belong to one string each. *)
Definition string_table (m : Memory) (l : list N) : Prop :=
  NoDup l ∧ ∀ s, s ∈ l → s ≠ 0 ∧ ∃ node, m_strings m !! s = Some node ∧ (flat_cache_ptr node ≠ 0 →
    (flat_cache_ptr node ∉ l) ∧ is_Some (m_strings m !! flat_cache_ptr node) ∧
    ∀ t node', t ∈ l → m_strings m !! t = Some node' → flat_cache_ptr node' = flat_cache_ptr node → t = s).

Lemma doomed_app m L l k : doomed m L (l ++ k) = doomed m L l ++ doomed m L k.
Proof. unfold doomed. by rewrite filter_app, bind_app. Qed.

Lemma doomed_dead m L x node : x ∉ L → m_strings m !! x = Some node → doomed m L [x] = x :: if flat_cache_ptr node =? 0 then [] else [flat_cache_ptr node].
Proof. intros HL Hn. unfold doomed, string_boxes. rewrite filter_cons_True by done. cbn. rewrite Hn. by rewrite app_nil_r. Qed.
Lemma doomed_live m L x : x ∈ L → doomed m L [x] = [].
Proof. intros HL. unfold doomed. by rewrite filter_cons_False by auto. Qed.

Lemma doomed_inv m L l q : q ∈ doomed m L l → ∃ s, s ∈ l ∧ (s ∉ L) ∧ (q = s ∨ ∃ node, m_strings m !! s = Some node ∧ q = flat_cache_ptr node ∧ q ≠ 0).
Proof.
  intros (s & Hq & [HL Hs]%list_elem_of_filter)%list_elem_of_bind. exists s. split_and!; [done|done|]. unfold string_boxes in Hq. apply elem_of_cons in Hq as [->|Hq]; [by left|right].
  destruct (m_strings m !! s) as [node|]; [|by apply elem_of_nil in Hq]. destruct (N.eqb_spec (flat_cache_ptr node) 0); [by apply elem_of_nil in Hq|].
  apply list_elem_of_singleton in Hq as ->. by exists node.
Qed.

(** A string of the table is doomed as itself only, and its flat form with it. *)
Lemma doomed_table m L l pre x : string_table m l → pre ⊆ l → x ∈ l → x ∈ doomed m L pre → x ∈ pre.
Proof.
  intros [_ Hl] Hpre Hx (s & Hs & HL & [->|(node & Hn & -> & H0)])%doomed_inv; [done|]. destruct (Hl s) as (_ & node' & Hn' & Hf); [by apply Hpre|]. assert (node' = node) as -> by congruence. by destruct (Hf H0) as [? _].
Qed.
Lemma doomed_flat m L l pre x node : string_table m l → pre ⊆ l → x ∈ l → m_strings m !! x = Some node → flat_cache_ptr node ≠ 0 → flat_cache_ptr node ∈ doomed m L pre → x ∈ pre.
Proof.
  intros [_ Hl] Hpre Hx Hn H0 (s & Hs & HL & Hq)%doomed_inv. destruct (Hl x Hx) as (_ & node' & Hn' & Hf). assert (node' = node) as -> by congruence. destruct (Hf H0) as (F1 & _ & F3).
  destruct Hq as [E|(nd & Hnd & E & _)]; [exfalso; apply F1; rewrite E; by apply Hpre|]. rewrite <- (F3 s nd) by auto. done.
Qed.

Lemma free_string_ok m s : is_Some (m_strings m !! s) → free_string m s = Ok (with_strings m (delete s (m_strings m))).
Proof. intros [x Hx]. unfold free_string, deref. by rewrite Hx. Qed.

Lemma drop_string_ok m0 m L l pre x node : string_table m0 l → pre ⊆ l → x ∈ l → x ∉ pre → x ∉ L → m_strings m0 !! x = Some node →
  m = with_strings m (swept_strings m0 L pre) → drop_session_string_box m x node = Ok (with_strings m (swept_strings m0 L (pre ++ [x]))).
Proof.
  intros Ht Hpre Hx Hnx HL Hn Hm. destruct (proj2 Ht x Hx) as (H0 & node' & Hn' & Hf). assert (node' = node) as -> by congruence.
  assert (m_strings m !! x = Some node) as Hmx. { rewrite Hm. cbn [with_strings m_strings]. rewrite swept_strings_lookup, decide_False; [done|]. intros Hd. apply Hnx. by eapply doomed_table. }
  assert (swept_strings m0 L (pre ++ [x]) = delete x (if flat_cache_ptr node =? 0 then m_strings m else delete (flat_cache_ptr node) (m_strings m))) as ->.
  { apply map_eq. intros q. rewrite swept_strings_lookup, doomed_app, (doomed_dead m0 L x node HL Hn).
    assert (m_strings m !! q = if decide (q ∈ doomed m0 L pre) then None else m_strings m0 !! q) as Hq by (rewrite Hm; apply swept_strings_lookup).
    destruct (N.eqb_spec (flat_cache_ptr node) 0); rewrite !lookup_delete, Hq; repeat case_decide; try done; exfalso; set_solver. }
  unfold drop_session_string_box. destruct (N.eqb_spec (flat_cache_ptr node) 0) as [Ef|Ef]; cbn [res_bind]; [by rewrite free_string_ok by done|].
  destruct (Hf Ef) as (F1 & F2 & F3). rewrite free_string_ok.
  2:{ rewrite Hm. cbn [with_strings m_strings]. rewrite swept_strings_lookup, decide_False; [done|]. intros Hd. apply Hnx. by eapply doomed_flat. }
  cbn [res_bind]. rewrite free_string_ok; [done|]. cbn [with_strings m_strings]. rewrite lookup_delete_ne, Hmx; [done|]. intros E. apply F1. by rewrite E.
Qed.

Lemma sweep_strings_ok SZ L l m : string_table m l →
  ∃ freed bytes, fold_res (sweep_string SZ L) l (m, [], 0, 0) = Ok (with_strings m (swept_strings m L l), filter (λ s, s ∈ L) l, freed, bytes).
Proof.
  intros Ht. destruct (fold_res_inv (sweep_string SZ L) (λ pre s, s.1.1.1 = with_strings m (swept_strings m L pre) ∧ s.1.1.2 = filter (λ s, s ∈ L) pre) l (m, [], 0, 0)) as ([[[m' kept] freed] bytes] & E & [H1 H2]).
  - cbn. split; [|done]. unfold swept_strings, doomed. cbn. destruct m as [os ss cs bs]. unfold with_strings. cbn. f_equal. symmetry. apply map_filter_id. intros. cbn. set_solver.
  - intros pre x post [[[m' kept] freed] bytes] -> [H1 H2]. cbn [fst snd] in *. destruct (proj2 Ht x) as (H0 & node & Hn & Hf); [set_solver|].
    assert (x ∉ pre) as Hnx. { destruct Ht as [Hnd _]. apply NoDup_app in Hnd as (_ & Hd & _). intros Hin. by apply (Hd x Hin), list_elem_of_here. }
    unfold sweep_string. rewrite (proj2 (N.eqb_neq x 0) H0). unfold deref. subst m'. cbn [with_strings m_strings]. rewrite swept_strings_lookup, decide_False, Hn by (intros Hd; apply Hnx; eapply doomed_table; [done|set_solver..]).
    cbn [res_bind]. case_bool_decide as HL.
    + eexists. split; [done|]. cbn [fst snd]. rewrite filter_app, filter_cons_True by done. rewrite H2. split; [|done]. unfold swept_strings. by rewrite doomed_app, doomed_live, app_nil_r by done.
    + rewrite (drop_string_ok m _ L (pre ++ x :: post) pre x node); [|done|set_solver|set_solver|done|done|done|done]. cbn [res_bind]. eexists. split; [done|]. cbn [fst snd].
      rewrite filter_app, filter_cons_False by done. rewrite H2. split; [done|]. cbn. by rewrite app_nil_r.
  - cbn [fst snd] in *. subst. eauto.
Qed.

Lemma free_bigints_ok l m : NoDup l → (∀ p, p ∈ l → p ∈ m_bigints m) → fold_res free_bigint l m = Ok (with_bigints m (m_bigints m ∖ list_to_set l)).
Proof.
  revert m. induction l as [|x l IH]; intros m Hnd Hin; cbn [fold_res list_to_set foldr].
  { destruct m. unfold with_bigints. cbn. do 2 f_equal. set_solver. }
  apply NoDup_cons in Hnd as [Hx Hnd]. unfold free_bigint at 1. rewrite bool_decide_eq_true_2 by (apply Hin; by left). cbn [res_bind]. rewrite IH; [|done|].
  - unfold with_bigints. cbn. do 2 f_equal. set_solver.
  - intros p Hp. cbn [with_bigints m_bigints]. assert (p ≠ x) by (by intros ->). set_solver.
Qed.

Definition swept_cells (m : Memory) (l : list N) : gmap N UpvalueCell := filter (λ e, e.1 ∉ l) (m_cells m).
Lemma swept_cells_lookup m l q : swept_cells m l !! q = if decide (q ∈ l) then None else m_cells m !! q.
Proof. unfold swept_cells. apply option_eq. intros x. rewrite map_lookup_filter_Some. cbn. destruct (decide (q ∈ l)); naive_solver. Qed.

Lemma free_cells_ok l m : NoDup l → (∀ p, p ∈ l → is_Some (m_cells m !! p)) → fold_res free_cell l m = Ok (with_cells m (swept_cells m l)).
Proof.
  revert m. induction l as [|x l IH]; intros m Hnd Hin; cbn [fold_res].
  { destruct m. unfold with_cells, swept_cells. cbn. do 2 f_equal. symmetry. apply map_filter_id. intros. cbn. set_solver. }
  apply NoDup_cons in Hnd as [Hx Hnd]. destruct (Hin x) as [c Hc]; [by left|]. unfold free_cell at 1, deref. rewrite Hc. cbn [res_bind]. rewrite IH; [|done|].
  - unfold with_cells. cbn. do 2 f_equal. apply map_eq. intros q. rewrite !swept_cells_lookup. cbn [m_cells]. rewrite lookup_delete. repeat case_decide; set_solver.
  - intros p Hp. cbn [with_cells m_cells]. rewrite lookup_delete_ne by (by intros <-). apply Hin. by right.
Qed.

(** ** Sweeping objects *)

Lemma if_snoc_ne {A} (pre : list N) x q (a b : A) : q ≠ x → (if decide (q ∈ pre ++ [x]) then a else b) = if decide (q ∈ pre) then a else b.
Proof. intros H. repeat case_decide; set_solver. Qed.
Lemma if_snoc_eq {A} (pre : list N) x (a b : A) : (if decide (x ∈ pre ++ [x]) then a else b) = a.
Proof. by rewrite decide_True by set_solver. Qed.
Lemma NoDup_mid {A} (pre post : list A) x : NoDup (pre ++ x :: post) → x ∉ pre.
Proof. intros (_ & Hd & _)%NoDup_app Hin. by apply (Hd x Hin), list_elem_of_here. Qed.


(** Every object changed or freed by a function of its address. *)
Definition remap (f : N → GcObject → option GcObject) (m : Memory) : Memory := with_objects m (map_imap f (m_objects m)).

Lemma remap_lookup f m p : m_objects (remap f m) !! p = m_objects m !! p ≫= f p.
Proof. apply map_lookup_imap. Qed.

Lemma remap_ext f f' m : (∀ p g, m_objects m !! p = Some g → f p g = f' p g) → remap f m = remap f' m.
Proof. intros H. unfold remap. f_equal. apply map_eq. intros p. rewrite !map_lookup_imap. destruct (m_objects m !! p) eqn:E; cbn; auto. Qed.

Lemma remap_set f m p g g' : m_objects m !! p = Some g → with_objects (remap f m) (<[p := g']> (m_objects (remap f m))) = remap (λ q h, if decide (q = p) then Some g' else f q h) m.
Proof.
  intros Hp. unfold remap at 1 3. unfold with_objects. cbn [m_strings m_cells m_bigints m_objects]. f_equal. apply map_eq. intros q. rewrite map_lookup_imap.
  destruct (decide (q = p)) as [->|Hne]; [by rewrite lookup_insert_eq, Hp|]. rewrite lookup_insert_ne, remap_lookup by done. done.
Qed.
Lemma remap_free f m p : with_objects (remap f m) (delete p (m_objects (remap f m))) = remap (λ q h, if decide (q = p) then None else f q h) m.
Proof.
  unfold remap at 1 3. unfold with_objects. cbn [m_strings m_cells m_bigints m_objects]. f_equal. apply map_eq. intros q. rewrite map_lookup_imap.
  destruct (decide (q = p)) as [->|Hne]; [rewrite lookup_delete_eq; by destruct (m_objects m !! p)|]. rewrite lookup_delete_ne, remap_lookup by done. done.
Qed.

Lemma epoch_mark g e : JsObject.epoch (g_base g) = e → with_base g (JsObject.with_epoch (g_base g) e) = g.
Proof. intros <-. destruct g as [o tag ct ho bv n u c]. by destruct o. Qed.
Lemma mark_bit g : is_marked g = N.testbit (JsObject.epoch (g_base g)) 1.
Proof. exact (FlagFacts.mask_testbit _ 1). Qed.

Lemma set_mark_undo g : is_marked g = false → set_mark (set_mark g true) false = g.
Proof.
  rewrite mark_bit. intros H. etransitivity; [|apply (epoch_mark g _ eq_refl)]. unfold set_mark, with_base. cbn. f_equal. unfold JsObject.set_gc_mark, JsObject.with_epoch. cbn. f_equal.
  apply N.bits_inj. intros i. unfold JsObject.GC_MARK_BIT. change 2 with (2^1). rewrite N.ldiff_spec, N.lor_spec, N.pow2_bits_eqb. destruct (N.eqb_spec 1 i) as [<-|]; [by rewrite H|]. by rewrite orb_false_r, andb_true_r.
Qed.
Lemma set_mark_idem g : is_marked g = false → set_mark g false = g.
Proof.
  rewrite mark_bit. intros H. apply epoch_mark. apply N.bits_inj. intros i. unfold JsObject.GC_MARK_BIT. change 2 with (2^1). rewrite N.ldiff_spec, N.pow2_bits_eqb.
  destruct (N.eqb_spec 1 i) as [<-|]; [by rewrite H|]. by rewrite andb_true_r.
Qed.

Lemma objects_bytes_ok SZ_OBJECT SZ_VALUE SZ_META SZ_PTR SZ_VEC m' ps : (∀ p, p ∈ ps → p ≠ 0 → is_Some (m_objects m' !! p)) → ∃ n, objects_bytes SZ_OBJECT SZ_VALUE SZ_META SZ_PTR SZ_VEC m' ps = Ok n.
Proof.
  intros H. unfold objects_bytes. destruct (fold_res_inv (object_bytes SZ_OBJECT SZ_VALUE SZ_META SZ_PTR SZ_VEC m') (λ _ _, True) ps 0) as (n & E & _); [done| |by exists n].
  intros pre x post acc -> _. unfold object_bytes. destruct (N.eqb_spec x 0) as [->|H0]; [eauto|]. destruct (H x) as [g Hg]; [set_solver|done|]. unfold deref. rewrite Hg. cbn [res_bind]. eauto.
Qed.

Section sweep.
Context (SZ_OBJECT SZ_VALUE SZ_META SZ_PTR SZ_VEC : N) (weak_size : nat → N) (m : Memory) (M : gset N).

Definition keep_key (k : WeakKey) : bool :=
  match k with
  | WeakSymbol _ => true
  | WeakObj p => match m_objects m !! p with Some g => negb (is_session g) || bool_decide (p ∈ M) | None => false end
  end.

(** A weak table without the entries whose key is dead. *)
Definition pruned (g : GcObject) : GcObject :=
  if is_weak_map_obj g then
    with_native g (mkNative (n_values (native g)) (n_strings (native g)) (n_cells (native g))
      (filter (λ e, keep_key e.1 = true) (n_entries (native g))) (weak_size (length (n_entries (native g)))))
  else g.

Lemma pruned_session g : is_session (pruned g) = is_session g.
Proof. unfold pruned. by destruct (is_weak_map_obj g). Qed.
Lemma pruned_marked g : is_marked (pruned g) = is_marked g.
Proof. unfold pruned. by destruct (is_weak_map_obj g). Qed.
Lemma pruned_weak g : is_weak_map_obj (pruned g) = is_weak_map_obj g.
Proof. unfold pruned. by destruct (is_weak_map_obj g) eqn:E. Qed.

Lemma pruned_shrunk g : shrunk (pruned g) g.
Proof.
  unfold pruned. destruct (is_weak_map_obj g) eqn:E; constructor; try done. intros v. unfold native_edges. change (is_weak_map_obj (with_native g _)) with (is_weak_map_obj g). rewrite E.
  cbn [with_native native n_entries]. intros (e & -> & [_ He]%list_elem_of_filter)%list_elem_of_fmap. by apply list_elem_of_fmap_2.
Qed.

Lemma pruned_entry g k v : is_weak_map_obj g = true → (k, v) ∈ n_entries (native (pruned g)) → keep_key k = true ∧ (k, v) ∈ n_entries (native g).
Proof. unfold pruned. intros ->. cbn [with_native native n_entries]. by intros [H1 H2]%list_elem_of_filter. Qed.

(** The table, and what its objects need. *)
Context (l : list N).
Hypothesis l_nodup : NoDup l.
Hypothesis l_objects : ∀ p, p ∈ l → p ≠ 0 ∧ is_Some (m_objects m !! p).
Hypothesis all_unmarked : ∀ p g, m_objects m !! p = Some g → is_marked g = false.
Hypothesis l_marked : ∀ p, p ∈ M → p ∈ l.
Hypothesis l_weak : ∀ p g k v, p ∈ M → m_objects m !! p = Some g → is_weak_map_obj g = true → (WeakObj k, v) ∈ n_entries (native g) → is_Some (m_objects m !! k).

Definition settled (pre : list N) (p : N) (g : GcObject) : option GcObject :=
  Some (if decide (p ∈ M) then set_mark (if decide (p ∈ pre) then pruned g else g) true else g).

Lemma settled_flags pre p g g' : m_objects m !! p = Some g → settled pre p g = Some g' → is_session g' = is_session g ∧ is_marked g' = bool_decide (p ∈ M).
Proof.
  intros Hg [= <-]. destruct (decide (p ∈ M)) as [Hin|Hin].
  - rewrite is_session_set, is_marked_set, bool_decide_eq_true_2 by done. split; [|done]. destruct (decide (p ∈ pre)); [apply pruned_session|done].
  - rewrite bool_decide_eq_false_2 by done. split; [done|by eapply all_unmarked].
Qed.

Lemma rewrite_entries_ok pre es : (∀ k v, (WeakObj k, v) ∈ es → is_Some (m_objects m !! k)) →
  rewrite_entries (remap (settled pre) m) es = Ok (filter (λ e, keep_key e.1 = true) es).
Proof.
  induction es as [|[k v] es IH]; intros H; [done|]. cbn [rewrite_entries]. assert (resolve_weak_key_sweep (remap (settled pre) m) k = Ok (if keep_key k then Some k else None)) as ->.
  { destruct k as [p|s]; [|done]. cbn [resolve_weak_key_sweep keep_key]. destruct (H p v) as [g Hg]; [by left|]. unfold deref. rewrite remap_lookup, Hg. cbn [mbind option_bind].
    destruct (settled pre p g) as [g'|] eqn:Es; [|done]. destruct (settled_flags pre p g g' Hg Es) as [H1 H2]. cbn [res_bind]. rewrite H1, H2. by destruct (is_session g), (bool_decide (p ∈ M)). }
  cbn [res_bind]. rewrite IH by (intros k' v' Hk; apply (H k' v'); by right). cbn [res_bind]. destruct (keep_key k) eqn:Ek; [by rewrite filter_cons_True|by rewrite filter_cons_False by (cbn; congruence)].
Qed.

Lemma settle_ok : fold_res (settle_weak_keys weak_size) l (marked m M) = Ok (remap (settled l) m).
Proof.
  destruct (fold_res_inv (settle_weak_keys weak_size) (λ pre s, s = remap (settled pre) m) l (marked m M)) as (s & E & ->); [| |done].
  - apply remap_ext. intros p g Hg. unfold settled. by rewrite (decide_False (P := p ∈ [])) by set_solver.
  - intros pre x post s El ->. destruct (l_objects x) as (H0 & g & Hg); [set_solver|]. assert (x ∉ pre) as Hx by (rewrite El in l_nodup; by eapply NoDup_mid).
    unfold settle_weak_keys. rewrite (proj2 (N.eqb_neq x 0) H0). unfold deref. rewrite remap_lookup, Hg. cbn [mbind option_bind]. destruct (settled pre x g) as [g'|] eqn:Es; [|done].
    cbn [res_bind]. destruct (settled_flags pre x g g' Hg Es) as [_ ->]. unfold settled in Es. rewrite (decide_False (P := x ∈ pre)) in Es by done. simplify_eq.
    case_bool_decide as HM; cbn [andb].
    + rewrite decide_True by done. change (is_weak_map_obj (set_mark g true)) with (is_weak_map_obj g). destruct (is_weak_map_obj g) eqn:Ew.
      * unfold rewrite_weak_map_native. change (is_weak_map_obj (set_mark g true)) with (is_weak_map_obj g). rewrite Ew. change (native (set_mark g true)) with (native g). rewrite rewrite_entries_ok by (intros k v Hk; by eapply l_weak).
        cbn [res_bind]. eexists. split; [done|]. rewrite (remap_set _ _ x g) by done. apply remap_ext. intros q h Hq. unfold settled. destruct (decide (q = x)) as [->|Hne].
        { rewrite !decide_True by set_solver. rewrite Hg in Hq. simplify_eq. unfold pruned. by rewrite Ew. }
        by rewrite (if_snoc_ne pre x q) by done.
      * eexists. split; [done|]. apply remap_ext. intros q h Hq. unfold settled. destruct (decide (q = x)) as [->|Hne].
        { rewrite (decide_False (P := x ∈ pre)), (decide_True (P := x ∈ pre ++ [x])) by set_solver. rewrite Hg in Hq. simplify_eq. unfold pruned. by rewrite Ew. }
        by rewrite (if_snoc_ne pre x q) by done.
    + eexists. split; [done|]. apply remap_ext. intros q h Hq. unfold settled. destruct (decide (q ∈ M)); [|done]. assert (q ≠ x) by (by intros ->).
      by rewrite (if_snoc_ne pre x q) by done.
Qed.

(** Reading marks after settling. *)
Lemma marked_at_ok p : is_Some (m_objects m !! p) → marked_at (remap (settled l) m) p = Ok (bool_decide (p ∈ M)).
Proof.
  intros [g Hg]. unfold marked_at, deref. rewrite remap_lookup, Hg. cbn [mbind option_bind]. destruct (settled l p g) as [g'|] eqn:Es; [|done].
  destruct (settled_flags l p g g' Hg Es) as [_ H]. cbn [res_bind]. by rewrite H.
Qed.

Lemma retain_ok ps : (∀ p, p ∈ ps → p ≠ 0 → is_Some (m_objects m !! p)) → retain_marked (remap (settled l) m) ps = Ok (filter (λ p, p ≠ 0 ∧ p ∈ M) ps).
Proof.
  induction ps as [|p ps IH]; intros H; [done|]. cbn [retain_marked]. assert ((if p =? 0 then Ok false else marked_at (remap (settled l) m) p) = Ok (bool_decide (p ≠ 0 ∧ p ∈ M))) as ->.
  { destruct (N.eqb_spec p 0) as [->|H0]; [by rewrite bool_decide_eq_false_2 by tauto|]. rewrite marked_at_ok by (apply H; [by left|done]). f_equal. apply bool_decide_ext. tauto. }
  cbn [res_bind]. rewrite IH by (intros q Hq; apply H; by right). cbn [res_bind]. case_bool_decide; [by rewrite filter_cons_True|by rewrite filter_cons_False].
Qed.

(** The registries keep the marked objects. *)
Definition kept_channels (bc : gmap string (list N)) : gmap string (list N) := filter (λ e, e.2 ≠ []) (filter (λ p, p ≠ 0 ∧ p ∈ M) <$> bc).
Definition kept_targets (et : gmap N (list Listener)) : gmap N (list Listener) := filter (λ e, e.1 ≠ 0 ∧ e.1 ∈ M) et.

Lemma prune_channels_ok bc : (∀ name ps p, bc !! name = Some ps → p ∈ ps → p ≠ 0 → is_Some (m_objects m !! p)) → prune_channels (remap (settled l) m) bc = Ok (kept_channels bc).
Proof.
  intros H. unfold prune_channels. assert (map_res (prune_channel (remap (settled l) m)) (map_to_list bc) = Ok (prod_map id (filter (λ p, p ≠ 0 ∧ p ∈ M)) <$> map_to_list bc)) as ->.
  { apply map_res_Forall2, Forall2_fmap_r, Forall_Forall2_diag, Forall_forall. intros [name ps] Hin%elem_of_map_to_list. unfold prune_channel. cbn [fst snd]. rewrite retain_ok by (intros p Hp; by eapply H). done. }
  cbn [res_bind]. f_equal. unfold kept_channels. rewrite <- map_to_list_fmap. apply map_eq. intros name. apply option_eq. intros ps.
  rewrite <- elem_of_list_to_map, list_elem_of_filter, elem_of_map_to_list, map_lookup_filter_Some; [tauto|]. eapply sublist_NoDup; [|apply (fmap_sublist fst), sublist_filter]. apply NoDup_fst_map_to_list.
Qed.

Lemma prune_targets_ok et : (∀ p ls, et !! p = Some ls → p ≠ 0 → is_Some (m_objects m !! p)) → prune_targets (remap (settled l) m) et = Ok (kept_targets et).
Proof.
  intros H. unfold prune_targets. rewrite retain_ok.
  2:{ intros p ([q ls] & -> & Hin%elem_of_map_to_list)%list_elem_of_fmap H0. by eapply H. }
  cbn [res_bind]. f_equal. apply map_filter_ext. intros p ls Hp. cbn. rewrite list_elem_of_filter. split; [tauto|]. intros Hk. split; [done|]. apply list_elem_of_fmap. exists (p, ls). split; [done|]. by apply elem_of_map_to_list.
Qed.

(** The objects after the sorting of [pre]. *)
Definition swept (pre : list N) (p : N) (g : GcObject) : option GcObject :=
  if decide (p ∈ M) then Some (if decide (p ∈ pre) then pruned g else set_mark (pruned g) true)
  else if decide (p ∈ pre) then (if JsObject.is_heap_alloc (g_base g) then None else Some (without_upvalues g))
  else Some g.

Lemma swept_start : remap (settled l) m = remap (swept []) m.
Proof.
  apply remap_ext. intros p g Hg. unfold settled, swept. rewrite !(decide_False (P := p ∈ [])) by set_solver. case_decide as HM; [|done]. by rewrite decide_True by auto.
Qed.

Lemma sweep_one_ok pre x post survivors dead freed : l = pre ++ x :: post →
  ∃ dead' freed', sweep_one SZ_OBJECT SZ_VALUE SZ_META SZ_PTR SZ_VEC (remap (swept pre) m, survivors, dead, freed) x =
    Ok (remap (swept (pre ++ [x])) m, survivors ++ filter (λ p, p ∈ M) [x], dead', freed').
Proof.
  intros El. destruct (l_objects x) as (H0 & g & Hg); [set_solver|]. assert (x ∉ pre) as Hx by (rewrite El in l_nodup; by eapply NoDup_mid).
  cbn [sweep_one]. rewrite (proj2 (N.eqb_neq x 0) H0). unfold marked_at, clear_mark, drop_dead_session_object, deref. rewrite !remap_lookup, Hg. cbn [mbind option_bind].
  assert (swept pre x g = Some (if decide (x ∈ M) then set_mark (pruned g) true else g)) as -> by (unfold swept; rewrite !(decide_False (P := x ∈ pre)) by done; by destruct (decide (x ∈ M))).
  cbn [res_bind]. destruct (decide (x ∈ M)) as [HM|HM].
  - rewrite is_marked_set, (proj2 (N.eqb_neq x 0) H0), set_mark_undo by (rewrite pruned_marked; by eapply all_unmarked). cbn [res_bind]. rewrite (remap_set _ _ x g) by done.
    exists dead, freed. rewrite filter_cons_True by done. cbn [filter list_filter]. do 4 f_equal. apply remap_ext. intros q h Hq. destruct (decide (q = x)) as [->|Hne].
    + rewrite Hg in Hq. simplify_eq. unfold swept. by rewrite decide_True, if_snoc_eq by done.
    + unfold swept. by rewrite !(if_snoc_ne pre x q) by done.
  - rewrite (all_unmarked x g Hg). eexists _, _. rewrite filter_cons_False by done. cbn [filter list_filter fst snd]. rewrite app_nil_r. do 4 f_equal.
    destruct (JsObject.is_heap_alloc (g_base g)) eqn:Eh; [rewrite remap_free|rewrite (remap_set _ _ x g) by done]; apply remap_ext; intros q h Hq; (destruct (decide (q = x)) as [->|Hne]; [|unfold swept; by rewrite !(if_snoc_ne pre x q) by done]);
      rewrite Hg in Hq; simplify_eq; unfold swept; rewrite (decide_False (P := x ∈ M)), if_snoc_eq, Eh by done; done.
Qed.

Lemma sweep_fold_ok : ∃ dead freed, fold_res (sweep_one SZ_OBJECT SZ_VALUE SZ_META SZ_PTR SZ_VEC) l (remap (settled l) m, [], 0, 0) = Ok (remap (swept l) m, filter (λ p, p ∈ M) l, dead, freed).
Proof.
  destruct (fold_res_inv (sweep_one SZ_OBJECT SZ_VALUE SZ_META SZ_PTR SZ_VEC) (λ pre s, s.1.1.1 = remap (swept pre) m ∧ s.1.1.2 = filter (λ p, p ∈ M) pre) l (remap (settled l) m, [], 0, 0)) as ([[[m' sv] dead] freed] & E & [H1 H2]).
  - split; [apply swept_start|done].
  - intros pre x post [[[m' sv] dead] freed] El [H1 H2]. cbn [fst snd] in *. subst m' sv. destruct (sweep_one_ok pre x post (filter (λ p, p ∈ M) pre) dead freed El) as (d & f & ->). eexists. split; [done|]. cbn [fst snd]. by rewrite filter_app.
  - cbn [fst snd] in *. subst. eauto.
Qed.
End sweep.

(** ** The parts of a collection *)

Section collections.
Context (SZ_OBJECT SZ_STRING SZ_BIGINT SZ_CELL SZ_VALUE SZ_META SZ_PTR SZ_VEC : N) (weak_size : nat → N).

Lemma sweep_session_strings_ok L vm : string_table (mem vm) (session_string_ptrs (gc vm)) →
  ∃ bytes st, sweep_session_strings SZ_STRING L vm = Ok (with_gc vm
    (with_tables (gc vm) (session_object_ptrs (gc vm)) (filter (λ s, s ∈ L) (session_string_ptrs (gc vm))) (session_bigint_ptrs (gc vm)) (session_cell_ptrs (gc vm)) bytes st)
    (with_strings (mem vm) (swept_strings (mem vm) L (session_string_ptrs (gc vm))))).
Proof. intros H. unfold sweep_session_strings. destruct (sweep_strings_ok SZ_STRING L _ _ H) as (freed & bytes & ->). cbn [res_bind]. eauto. Qed.

Lemma dead_ptrs_spec L l p : p ∈ dead_ptrs L l ↔ p ∈ l ∧ p ≠ 0 ∧ p ∉ L.
Proof. unfold dead_ptrs. rewrite list_elem_of_filter. tauto. Qed.

Lemma sweep_session_bigints_ok L vm : NoDup (session_bigint_ptrs (gc vm)) → (∀ p, p ∈ session_bigint_ptrs (gc vm) → p ≠ 0 → p ∈ m_bigints (mem vm)) →
  ∃ st, sweep_session_bigints SZ_BIGINT L vm = Ok (with_gc vm
    (with_tables (gc vm) (session_object_ptrs (gc vm)) (session_string_ptrs (gc vm)) (kept_ptrs L (session_bigint_ptrs (gc vm))) (session_cell_ptrs (gc vm)) (session_bytes_allocated (gc vm)) st)
    (with_bigints (mem vm) (m_bigints (mem vm) ∖ list_to_set (dead_ptrs L (session_bigint_ptrs (gc vm)))))).
Proof.
  intros Hnd Hin. unfold sweep_session_bigints. rewrite free_bigints_ok; [cbn [res_bind]; eauto|by apply NoDup_filter|]. intros p (Hp & H0 & _)%dead_ptrs_spec. auto.
Qed.

Lemma sweep_session_cells_ok L vm : NoDup (session_cell_ptrs (gc vm)) → (∀ p, p ∈ session_cell_ptrs (gc vm) → p ≠ 0 → is_Some (m_cells (mem vm) !! p)) →
  ∃ st, sweep_session_cells SZ_CELL L vm = Ok (with_gc vm
    (with_tables (gc vm) (session_object_ptrs (gc vm)) (session_string_ptrs (gc vm)) (session_bigint_ptrs (gc vm)) (kept_ptrs L (session_cell_ptrs (gc vm))) (session_bytes_allocated (gc vm)) st)
    (with_cells (mem vm) (swept_cells (mem vm) (dead_ptrs L (session_cell_ptrs (gc vm)))))).
Proof.
  intros Hnd Hin. unfold sweep_session_cells. rewrite free_cells_ok; [cbn [res_bind]; eauto|by apply NoDup_filter|]. intros p (Hp & H0 & _)%dead_ptrs_spec. auto.
Qed.

Lemma clear_marks_ok m os M l : (∀ p, p ∈ l → is_Some (os !! p)) → (∀ p g, os !! p = Some g → is_marked g = false) → (∀ p, p ∈ M → p ∈ l ∧ p ≠ 0) →
  clear_session_marks (with_objects m (mark_all M os)) l = Ok (with_objects m os).
Proof.
  intros Hl Hu HM. unfold clear_session_marks.
  destruct (fold_res_inv clear_mark (λ pre s, s = marked (with_objects m os) (M ∖ list_to_set pre)) l (with_objects m (mark_all M os))) as (s & E & ->).
  - unfold marked. cbn [with_objects m_objects]. unfold with_objects. cbn. f_equal. f_equal. set_solver.
  - intros pre x post s -> ->. unfold clear_mark. destruct (N.eqb_spec x 0) as [->|H0].
    { eexists. split; [done|]. f_equal. assert (0 ∉ M) by (intros H; by destruct (HM 0 H)). apply set_eq. intros q. rewrite !elem_of_difference, !elem_of_list_to_set, elem_of_app, list_elem_of_singleton. naive_solver. }
    destruct (Hl x) as [g Hg]; [set_solver|]. unfold deref. rewrite marked_lookup. cbn [with_objects m_objects]. rewrite Hg. cbn [fmap option_fmap option_map res_bind]. eexists. split; [done|].
    assert (set_mark (if decide (x ∈ M ∖ list_to_set pre) then set_mark g true else g) false = g) as -> by (case_decide; [exact (set_mark_undo g (Hu x g Hg))|exact (set_mark_idem g (Hu x g Hg))]).
    unfold marked. cbn [with_objects m_objects]. unfold with_objects. cbn. f_equal. apply map_eq. intros q. unfold mark_all. rewrite map_lookup_imap. destruct (decide (q = x)) as [->|Hne].
    + rewrite lookup_insert_eq, Hg. cbn. by rewrite decide_False by set_solver.
    + rewrite lookup_insert_ne, map_lookup_imap by done. destruct (os !! q); [|done]. cbn. repeat case_decide; try done; exfalso; set_solver.
  - rewrite E. f_equal. unfold marked. assert (M ∖ list_to_set l = ∅) as -> by (apply set_eq; intros q; rewrite elem_of_difference, elem_of_list_to_set; set_solver). apply (marked_empty (with_objects m os)).
Qed.

Lemma with_gc_self vm : with_gc vm (gc vm) (mem vm) = vm.
Proof. by destruct vm. Qed.

Lemma clear_all_idle vm rs : heap_ok vm rs → clear_all_marks vm = Ok vm.
Proof.
  intros [_ Ht]. unfold clear_all_marks. assert (clear_session_marks (mem vm) (session_object_ptrs (gc vm)) = Ok (mem vm)) as ->; [|cbn [res_bind]; by rewrite with_gc_self].
  pose proof (marked_empty (mem vm)) as E. unfold marked in E. rewrite <- E at 1. rewrite clear_marks_ok; [by destruct (mem vm)| |exact (tb_unmarked _ _ Ht)|set_solver].
  intros p Hp. destruct (tb_objects _ _ Ht p Hp) as (_ & g & Hg & _). eauto.
Qed.

(** What a collection leaves: [objs] when it sweeps objects, [strs] when it sweeps
    strings and BigInts. *)
Record collected (vm : Vm) (M : gset N) (st : MarkState) (objs strs : bool) (g' : GcState) (m' : Memory) : Prop := {
  co_objects : m_objects m' = if objs then m_objects (remap (swept weak_size (mem vm) M (session_object_ptrs (gc vm))) (mem vm)) else m_objects (mem vm);
  co_strings : m_strings m' = if strs then swept_strings (mem vm) (live_strings st) (session_string_ptrs (gc vm)) else m_strings (mem vm);
  co_bigints : m_bigints m' = if strs then m_bigints (mem vm) ∖ list_to_set (dead_ptrs (live_bigints st) (session_bigint_ptrs (gc vm))) else m_bigints (mem vm);
  co_cells : m_cells m' = swept_cells (mem vm) (dead_ptrs (live_cells st) (session_cell_ptrs (gc vm)));
  co_object_table : session_object_ptrs g' = if objs then filter (λ p, p ∈ M) (session_object_ptrs (gc vm)) else session_object_ptrs (gc vm);
  co_string_table : session_string_ptrs g' = if strs then filter (λ s, s ∈ live_strings st) (session_string_ptrs (gc vm)) else session_string_ptrs (gc vm);
  co_bigint_table : session_bigint_ptrs g' = if strs then kept_ptrs (live_bigints st) (session_bigint_ptrs (gc vm)) else session_bigint_ptrs (gc vm);
  co_cell_table : session_cell_ptrs g' = kept_ptrs (live_cells st) (session_cell_ptrs (gc vm));
  co_channels : broadcast_channels g' = if objs then kept_channels M (broadcast_channels (gc vm)) else broadcast_channels (gc vm);
  co_targets : event_targets g' = if objs then kept_targets M (event_targets (gc vm)) else event_targets (gc vm);
}.

Section run.
Context (vm : Vm) (rs : list JsValue.t).
Hypothesis Hok : heap_ok vm rs.

Lemma heap_unmarked : unmarked_reach vm rs.
Proof. intros p g _ Hg _. by eapply (tb_unmarked _ _ (ho_tables _ _ Hok)). Qed.

Lemma heap_string_table : string_table (mem vm) (session_string_ptrs (gc vm)).
Proof.
  destruct (ho_tables _ _ Hok) as [_ _ _ _ T5 T6 _ _ _ _ _ _]. split; [done|]. intros s Hs. destruct (T6 s Hs) as (H0 & node & Hn & Hf). split; [done|]. exists node. split; [done|].
  intros Hfc. destruct (Hf Hfc) as (F1 & F2 & _ & _ & F3). split_and!; [done|done|]. intros t node' _ Hn' E. eapply F3; [done|]. rewrite <- E. unfold string_pushes. unfold flat_cache_ptr in *.
  destruct (s_cons node'); [|congruence]. rewrite (proj2 (N.eqb_neq _ 0)) by congruence. set_solver.
Qed.

Lemma mark_heap : ∃ M st, mark vm = Ok (marked (mem vm) M, st) ∧ mark_result vm rs M st.
Proof. apply mark_ok; [apply (so_traceable _ _ (ho_sound _ _ Hok))|apply heap_unmarked]. Qed.

Context (M : gset N) (st : MarkState).
Hypothesis Hmr : mark_result vm rs M st.

Lemma marked_table p : p ∈ M → p ∈ session_object_ptrs (gc vm) ∧ p ≠ 0.
Proof.
  intros (Hr & g & Hg & Hs)%(mr_objects _ _ _ _ Hmr). assert (p ∈ session_object_ptrs (gc vm)) as Hp by (by eapply (tb_session _ _ (ho_tables _ _ Hok))). split; [done|]. by apply (tb_objects _ _ (ho_tables _ _ Hok)).
Qed.

Lemma table_alloc p : p ∈ session_object_ptrs (gc vm) → p ≠ 0 ∧ is_Some (m_objects (mem vm) !! p).
Proof. intros Hp. destruct (tb_objects _ _ (ho_tables _ _ Hok) p Hp) as (H0 & g & Hg & _). eauto. Qed.

Lemma weak_alloc p g k v : p ∈ M → m_objects (mem vm) !! p = Some g → is_weak_map_obj g = true → (WeakObj k, v) ∈ n_entries (native g) → is_Some (m_objects (mem vm) !! k).
Proof. intros (Hr & g' & Hg' & Hs)%(mr_objects _ _ _ _ Hmr) Hg. rewrite Hg in Hg'. simplify_eq. by eapply (so_weak _ _ (ho_sound _ _ Hok)). Qed.

Lemma sweep_in_place_ok : ∃ bytes stats, sweep_in_place SZ_OBJECT SZ_VALUE SZ_META SZ_PTR SZ_VEC weak_size (with_gc vm (gc vm) (marked (mem vm) M)) =
  Ok (with_gc vm (with_tables (with_registries (gc vm) (kept_channels M (broadcast_channels (gc vm))) (kept_targets M (event_targets (gc vm))))
      (filter (λ p, p ∈ M) (session_object_ptrs (gc vm))) (session_string_ptrs (gc vm)) (session_bigint_ptrs (gc vm)) (session_cell_ptrs (gc vm)) bytes stats)
    (remap (swept weak_size (mem vm) M (session_object_ptrs (gc vm))) (mem vm))).
Proof.
  destruct (ho_tables _ _ Hok) as [T1 _ _ T4 _ _ _ _ _ _ T11 T12]. unfold sweep_in_place. cbn [with_gc gc mem].
  rewrite (settle_ok weak_size (mem vm) M (session_object_ptrs (gc vm)) T1 table_alloc T4 (λ p Hp, proj1 (marked_table p Hp)) weak_alloc). cbn [res_bind].
  rewrite (prune_channels_ok weak_size (mem vm) M (session_object_ptrs (gc vm)) T4 _ T11). cbn [res_bind].
  rewrite (prune_targets_ok weak_size (mem vm) M (session_object_ptrs (gc vm)) T4 _ T12). cbn [res_bind].
  destruct (sweep_fold_ok SZ_OBJECT SZ_VALUE SZ_META SZ_PTR SZ_VEC weak_size (mem vm) M (session_object_ptrs (gc vm)) T1 table_alloc T4 (λ p Hp, proj1 (marked_table p Hp)) weak_alloc) as (dead & freed & ->). cbn [res_bind].
  destruct (objects_bytes_ok SZ_OBJECT SZ_VALUE SZ_META SZ_PTR SZ_VEC (remap (swept weak_size (mem vm) M (session_object_ptrs (gc vm))) (mem vm)) (filter (λ p, p ∈ M) (session_object_ptrs (gc vm)))) as [n ->].
  - intros p [HM Hp]%list_elem_of_filter _. destruct (table_alloc p Hp) as (_ & g & Hg). rewrite remap_lookup, Hg. cbn. unfold swept. rewrite decide_True by done. eauto.
  - cbn [res_bind]. eauto.
Qed.

(** What becomes of an object. *)
Lemma swept_permanent l p g : m_objects (mem vm) !! p = Some g → is_session g = false → (p ∉ session_object_ptrs (gc vm)) ∧ (p ∉ M) ∧ (l = session_object_ptrs (gc vm) → swept weak_size (mem vm) M l p g = Some g).
Proof.
  intros Hg Hs. assert (p ∉ session_object_ptrs (gc vm)) as Hp. { intros Hp. destruct (tb_objects _ _ (ho_tables _ _ Hok) p Hp) as (_ & g' & Hg' & Hs'). congruence. }
  assert (p ∉ M) as HM by (intros HM; by destruct (marked_table p HM)). split_and!; [done|done|]. intros ->. unfold swept. by rewrite !decide_False.
Qed.

Lemma shrunk_refl g : shrunk g g.
Proof. by constructor. Qed.

Lemma swept_reach p g : reach (mem vm) rs p → m_objects (mem vm) !! p = Some g →
  swept weak_size (mem vm) M (session_object_ptrs (gc vm)) p g = Some (if is_session g then pruned weak_size (mem vm) M g else g).
Proof.
  intros Hr Hg. destruct (is_session g) eqn:Es; [|by apply swept_permanent]. assert (p ∈ M) as HM by (apply (mr_objects _ _ _ _ Hmr); eauto). unfold swept. rewrite !decide_True; [done| |done]. by apply marked_table.
Qed.

Lemma swept_unmarked p g g' : m_objects (mem vm) !! p = Some g → swept weak_size (mem vm) M (session_object_ptrs (gc vm)) p g = Some g' → is_marked g' = false.
Proof.
  intros Hg. pose proof (tb_unmarked _ _ (ho_tables _ _ Hok) p g Hg) as Hu. unfold swept. destruct (decide (p ∈ M)) as [HM|HM].
  - rewrite decide_True by (by apply marked_table). intros [= <-]. by rewrite pruned_marked.
  - destruct (decide (p ∈ session_object_ptrs (gc vm))); [|by intros [= <-]]. destruct (JsObject.is_heap_alloc (g_base g)); [done|]. by intros [= <-].
Qed.

Lemma owned_live s f : owned_flat vm rs s f → live_string (mem vm) rs f → live_string (mem vm) rs s.
Proof.
  intros (F1 & F2 & F3) Hl. inversion Hl as [? [(v & Hv & E)|(a & g & Ha & Hg & Hh)] H0|t ? node Ht Hn Hp H0]; subst; [by destruct (F1 v)|by destruct (F2 a g)|]. by rewrite <- (F3 t node).
Qed.

Lemma live_not_doomed s : live_string (mem vm) rs s → s ∉ doomed (mem vm) (live_strings st) (session_string_ptrs (gc vm)).
Proof.
  intros Hl (t & Ht & HL & Hq)%doomed_inv. apply HL, (mr_strings _ _ _ _ Hmr). destruct Hq as [->|(node & Hn & -> & H0)]; [done|].
  destruct (tb_strings _ _ (ho_tables _ _ Hok) t Ht) as (_ & node' & Hn' & Hf). assert (node' = node) as -> by congruence. eapply owned_live; [|exact Hl]. by apply Hf.
Qed.

Lemma live_cell_kept p : live_cell vm rs p → p ∉ dead_ptrs (live_cells st) (session_cell_ptrs (gc vm)).
Proof. rewrite dead_ptrs_spec, <- (mr_cells _ _ _ _ Hmr). tauto. Qed.

Context (objs strs : bool) (g' : GcState) (m' : Memory).
Hypothesis Hco : collected vm M st objs strs g' m'.

Lemma collected_restricts : restricts (mem vm) m' rs.
Proof.
  destruct Hco as [C1 C2 _ C4 _ _ _ _ _ _]. constructor.
  - intros p g Hr Hg. rewrite C1. destruct objs; [|exists g; split; [done|apply shrunk_refl]]. rewrite remap_lookup, Hg. cbn. rewrite (swept_reach p g Hr Hg). eexists. split; [done|].
    destruct (is_session g); [apply pruned_shrunk|apply shrunk_refl].
  - intros s Hs. rewrite C2. destruct strs; [|done]. rewrite swept_strings_lookup, decide_False; [done|]. by apply live_not_doomed.
  - intros s node. rewrite C2. destruct strs; [|done]. rewrite swept_strings_lookup. by case_decide.
  - intros p Hp. rewrite C4, swept_cells_lookup, decide_False; [done|]. apply live_cell_kept. by right.
  - intros p c. rewrite C4, swept_cells_lookup. by case_decide.
Qed.

Lemma sublist_if (b : bool) (P : N → Prop) `{!∀ x, Decision (P x)} (l : list N) : (if b then filter P l else l) `sublist_of` l.
Proof. destruct b; [apply sublist_filter|done]. Qed.

Lemma collected_kept : kept vm rs g' m'.
Proof.
  pose proof Hco as [C1 C2 C3 C4 C5 C6 C7 C8 C9 C10]. pose proof (ho_tables _ _ Hok) as [T1 T2 T3 T4 T5 T6 T7 T8 T9 T10 T11 T12].
  assert (∀ p, p ≠ 0 ∧ p ∈ M → objs = true → is_Some (m_objects m' !! p)) as HMM.
  { intros p [H0 (Hr & g & Hg & Hs)%(mr_objects _ _ _ _ Hmr)] E. rewrite C1, E, remap_lookup, Hg. cbn. rewrite (swept_reach p g Hr Hg). eauto. }
  constructor.
  - apply collected_restricts.
  - intros p H0 Hp. rewrite C4, swept_cells_lookup, decide_False; [done|]. apply live_cell_kept. by left.
  - intros p Hl Hp. rewrite C3. destruct strs; [|done]. rewrite elem_of_difference, elem_of_list_to_set, dead_ptrs_spec, (mr_bigints _ _ _ _ Hmr). tauto.
  - intros p g k v Hr. rewrite C1. destruct objs eqn:Eo; [|by eapply (so_weak _ _ (ho_sound _ _ Hok))]. rewrite remap_lookup. destruct (m_objects (mem vm) !! p) as [g0|] eqn:Hg0; [|done]. cbn [mbind option_bind]. rewrite (swept_reach p g0 Hr Hg0).
    intros [= <-]. destruct (is_session g0) eqn:Es; [|congruence]. rewrite pruned_weak. intros _ Hw [Hk _]%pruned_entry; [|done]. cbn [keep_key] in Hk. rewrite remap_lookup. destruct (m_objects (mem vm) !! k) as [gk|] eqn:Hgk; [|done]. cbn.
    apply orb_true_iff in Hk as [Hk%negb_true_iff|Hk%bool_decide_eq_true].
    + destruct (swept_permanent (session_object_ptrs (gc vm)) k gk Hgk Hk) as (_ & _ & ->); eauto.
    + unfold swept. rewrite decide_True by done. eauto.
  - intros p g. rewrite C1. destruct objs; [|apply T4]. rewrite remap_lookup. destruct (m_objects (mem vm) !! p) as [g0|] eqn:Hg0; [|done]. cbn. by apply swept_unmarked.
  - rewrite C5. apply sublist_if.
  - intros p. rewrite C5, C1. destruct objs; [|intros Hp; by apply T2]. intros [HM Hp]%list_elem_of_filter. destruct (T2 p Hp) as (_ & g & Hg & Hs). rewrite remap_lookup, Hg. cbn.
    rewrite (swept_reach p g) by (try done; by apply (mr_objects _ _ _ _ Hmr)). rewrite Hs. eexists. split; [done|]. by rewrite pruned_session.
  - intros p Hp Hr. rewrite C5. destruct objs; [|done]. apply list_elem_of_filter. split; [|done]. apply (mr_objects _ _ _ _ Hmr). destruct (T2 p Hp) as (_ & g & Hg & Hs). eauto.
  - rewrite C6. apply sublist_if.
  - intros s node. rewrite C6, C2. destruct strs; [|done]. intros [HL Hs]%list_elem_of_filter Hn. apply (mr_strings _ _ _ _ Hmr) in HL. rewrite !swept_strings_lookup, decide_False by (by apply live_not_doomed).
    split; [done|]. intros H0. rewrite decide_False; [done|]. apply live_not_doomed. eapply string_child; [exact HL|done| |done]. unfold string_pushes, flat_cache_ptr in *. destruct (s_cons node); [|done].
    rewrite (proj2 (N.eqb_neq _ 0) H0). set_solver.
  - rewrite C7. apply sublist_if.
  - intros p. rewrite C7, C3. destruct strs; [|done]. intros [[H0 HL] Hp]%list_elem_of_filter _ Hb. rewrite elem_of_difference, elem_of_list_to_set, dead_ptrs_spec. tauto.
  - rewrite C8. apply sublist_filter.
  - intros p. rewrite C8, C4. intros [[H0 HL] Hp]%list_elem_of_filter _. rewrite swept_cells_lookup, decide_False; [done|]. rewrite dead_ptrs_spec. tauto.
  - intros name ps p. rewrite C9. destruct objs eqn:Eo; [|rewrite C1; by apply T11]. unfold kept_channels. rewrite map_lookup_filter_Some, lookup_fmap. intros [(qs & Hq & ->)%fmap_Some _] [HM _]%list_elem_of_filter _.
    by apply HMM.
  - rewrite C10. destruct objs; [apply map_filter_subseteq|done].
  - intros p ls. rewrite C10. destruct objs eqn:Eo; [|rewrite C1; apply T12]. unfold kept_targets. rewrite map_lookup_filter_Some. intros [_ HM] _. by apply HMM.
Qed.
End run.

(** ** The three kinds *)

Lemma collect_ok vm rs : heap_ok vm rs → ∃ M st g' m',
  collect SZ_OBJECT SZ_STRING SZ_BIGINT SZ_CELL SZ_VALUE SZ_META SZ_PTR SZ_VEC weak_size vm = Ok (with_gc vm g' m') ∧
  mark_result vm rs M st ∧ collected vm M st true true g' m'.
Proof.
  intros Hok. destruct (mark_heap vm rs Hok) as (M & st & Em & Hmr). exists M, st. unfold collect, sweep. rewrite Em. cbn [res_bind].
  destruct (sweep_in_place_ok vm rs Hok M st Hmr) as (b1 & s1 & ->). cbn [res_bind]. set (m1 := remap _ _). set (g1 := with_tables _ _ _ _ _ _ _).
  destruct (sweep_session_strings_ok (live_strings st) (with_gc vm g1 m1)) as (b2 & s2 & ->); [exact (heap_string_table vm rs Hok)|]. cbn [res_bind].
  match goal with |- context [sweep_session_bigints _ _ ?v] => destruct (sweep_session_bigints_ok (live_bigints st) v) as (s3 & ->); [exact (tb_bigints_nodup _ _ (ho_tables _ _ Hok))|exact (tb_bigints _ _ (ho_tables _ _ Hok))|] end. cbn [res_bind].
  match goal with |- context [sweep_session_cells _ _ ?v] => destruct (sweep_session_cells_ok (live_cells st) v) as (s4 & ->); [exact (tb_cells_nodup _ _ (ho_tables _ _ Hok))|exact (tb_cells _ _ (ho_tables _ _ Hok))|] end. cbn [res_bind].
  eexists _, _. split; [reflexivity|]. split; [done|]. by constructor.
Qed.

Lemma string_bytes_ok m l : (∀ s, s ∈ l → is_Some (m_strings m !! s)) → ∃ n, fold_res (string_bytes SZ_STRING m) l 0 = Ok n.
Proof.
  intros H. destruct (fold_res_inv (string_bytes SZ_STRING m) (λ _ _, True) l 0) as (n & E & _); [done| |by exists n].
  intros pre x post acc -> _. unfold string_bytes. destruct (N.eqb_spec x 0) as [->|H0]; [eauto|]. destruct (H x) as [g Hg]; [set_solver|]. unfold deref. rewrite Hg. cbn [res_bind]. eauto.
Qed.

Lemma collect_in_run_ok vm rs : heap_ok vm rs → ∃ M st g' m',
  collect_in_run SZ_OBJECT SZ_STRING SZ_BIGINT SZ_CELL SZ_VALUE SZ_META SZ_PTR SZ_VEC weak_size vm = Ok (with_gc vm g' m') ∧
  mark_result vm rs M st ∧ collected vm M st true false g' m'.
Proof.
  intros Hok. destruct (mark_heap vm rs Hok) as (M & st & Em & Hmr). exists M, st. unfold collect_in_run. rewrite (clear_all_idle vm rs Hok). cbn [res_bind]. rewrite Em. cbn [res_bind].
  destruct (sweep_in_place_ok vm rs Hok M st Hmr) as (b1 & s1 & ->). cbn [res_bind]. set (m1 := remap _ _). set (g1 := with_tables _ _ _ _ _ _ _).
  match goal with |- context [sweep_session_cells _ _ ?v] => destruct (sweep_session_cells_ok (live_cells st) v) as (s4 & ->); [exact (tb_cells_nodup _ _ (ho_tables _ _ Hok))|exact (tb_cells _ _ (ho_tables _ _ Hok))|] end. cbn [res_bind].
  match goal with |- context [fold_res (string_bytes _ ?m) ?l 0] => destruct (string_bytes_ok m l) as (n & ->) end.
  { intros s Hs. destruct (tb_strings _ _ (ho_tables _ _ Hok) s Hs) as (_ & node & Hn & _). exact (mk_is_Some _ _ Hn). }
  cbn [res_bind]. eexists _, _. split; [reflexivity|]. split; [done|]. by constructor.
Qed.

Lemma collect_strings_only_ok threshold vm rs : heap_ok vm rs → ∃ M st g' m',
  collect_strings_only SZ_OBJECT SZ_STRING SZ_BIGINT SZ_CELL SZ_VALUE SZ_META SZ_PTR SZ_VEC threshold vm = Ok (with_gc vm g' m') ∧
  mark_result vm rs M st ∧ collected vm M st false true g' m'.
Proof.
  intros Hok. destruct (mark_heap vm rs Hok) as (M & st & Em & Hmr). exists M, st. unfold collect_strings_only. rewrite (clear_all_idle vm rs Hok). cbn [res_bind]. rewrite Em. cbn [res_bind]. cbn [with_gc gc].
  destruct (objects_bytes_ok SZ_OBJECT SZ_VALUE SZ_META SZ_PTR SZ_VEC (marked (mem vm) M) (session_object_ptrs (gc vm))) as [n ->].
  { intros p Hp _. destruct (table_alloc vm rs Hok p Hp) as (_ & g & Hg). rewrite marked_lookup, Hg. eauto. }
  cbn [res_bind]. unfold set_bytes. set (m1 := marked _ _). set (g1 := with_tables _ _ _ _ _ _ _).
  match goal with |- context [sweep_session_strings _ _ ?v] => destruct (sweep_session_strings_ok (live_strings st) v) as (b2 & s2 & ->); [exact (heap_string_table vm rs Hok)|] end. cbn [res_bind].
  match goal with |- context [sweep_session_bigints _ _ ?v] => destruct (sweep_session_bigints_ok (live_bigints st) v) as (s3 & ->); [exact (tb_bigints_nodup _ _ (ho_tables _ _ Hok))|exact (tb_bigints _ _ (ho_tables _ _ Hok))|] end. cbn [res_bind].
  match goal with |- context [sweep_session_cells _ _ ?v] => destruct (sweep_session_cells_ok (live_cells st) v) as (s4 & ->); [exact (tb_cells_nodup _ _ (ho_tables _ _ Hok))|exact (tb_cells _ _ (ho_tables _ _ Hok))|] end. cbn [res_bind].
  match goal with |- context [clear_all_marks (with_gc _ ?g ?m)] => set (g4 := g); set (m4 := m) end.
  unfold clear_all_marks. cbn [with_gc gc mem]. assert (clear_session_marks m4 (session_object_ptrs g4) = Ok (with_objects m4 (m_objects (mem vm)))) as ->.
  { apply (clear_marks_ok m4 (m_objects (mem vm)) M (session_object_ptrs (gc vm))).
    - intros p Hp. by destruct (table_alloc vm rs Hok p Hp).
    - exact (tb_unmarked _ _ (ho_tables _ _ Hok)).
    - exact (marked_table vm rs Hok M st Hmr). }
  cbn [res_bind]. eexists _, _. split; [reflexivity|]. split; [done|]. by constructor.
Qed.

(** A collection, then another. *)
Definition keeps_heap (f : Vm → res Vm) : Prop := ∀ vm rs, heap_ok vm rs → ∃ vm' rs', f vm = Ok vm' ∧ shrinks vm rs vm' rs' ∧ heap_ok vm' rs'.

Lemma keeps_collected f objs strs : (∀ vm rs, heap_ok vm rs → ∃ M st g' m', f vm = Ok (with_gc vm g' m') ∧ mark_result vm rs M st ∧ collected vm M st objs strs g' m') → keeps_heap f.
Proof.
  intros Hf vm rs Hok. destruct (Hf vm rs Hok) as (M & st & g' & m' & -> & Hmr & Hco). destruct (kept_heap vm rs g' m' Hok) as (rs' & H1 & H2); [by eapply collected_kept|]. eauto 10.
Qed.
Lemma keeps_if (b : Vm → bool) f : keeps_heap f → keeps_heap (λ vm, if b vm then f vm else Ok vm).
Proof. intros Hf vm rs Hok. destruct (b vm); [by apply Hf|]. exists vm, rs. split_and!; [done|apply shrinks_refl|done]. Qed.
Lemma keeps_bind f g : keeps_heap f → keeps_heap g → keeps_heap (λ vm, let* vm := f vm in g vm).
Proof.
  intros Hf Hg vm rs Hok. destruct (Hf vm rs Hok) as (vm1 & rs1 & -> & H1 & Hok1). destruct (Hg vm1 rs1 Hok1) as (vm2 & rs2 & E & H2 & Hok2). exists vm2, rs2. split_and!; [done|by eapply shrinks_trans|done].
Qed.

Lemma collect_keeps : keeps_heap (collect SZ_OBJECT SZ_STRING SZ_BIGINT SZ_CELL SZ_VALUE SZ_META SZ_PTR SZ_VEC weak_size).
Proof. apply (keeps_collected _ true true), collect_ok. Qed.
Lemma collect_in_run_keeps : keeps_heap (collect_in_run SZ_OBJECT SZ_STRING SZ_BIGINT SZ_CELL SZ_VALUE SZ_META SZ_PTR SZ_VEC weak_size).
Proof. apply (keeps_collected _ true false), collect_in_run_ok. Qed.
Lemma collect_strings_only_keeps threshold : keeps_heap (collect_strings_only SZ_OBJECT SZ_STRING SZ_BIGINT SZ_CELL SZ_VALUE SZ_META SZ_PTR SZ_VEC threshold).
Proof. apply (keeps_collected _ false true), collect_strings_only_ok. Qed.

Lemma safe_point_keeps threshold forced pressure :
  keeps_heap (safe_point SZ_OBJECT SZ_STRING SZ_BIGINT SZ_CELL SZ_VALUE SZ_META SZ_PTR SZ_VEC weak_size threshold forced pressure).
Proof.
  unfold safe_point. apply (keeps_bind (λ vm, if forced || pressure then _ else _)).
  { apply (keeps_if (λ _, forced || pressure)), collect_keeps. }
  intros vm rs Hok. destruct (keeps_if (λ vm, (string_gc_watermark (gc vm) <=? session_bytes_allocated (gc vm)) && negb pressure) _ (keeps_if should_collect_strings _ (collect_strings_only_keeps threshold)) vm rs Hok) as (vm1 & rs1 & E & H1 & Hok1).
  unfold maybe_collect_strings_only. rewrite E. cbn [res_bind]. destruct (keeps_if (λ vm', (gc_watermark (gc vm1) <=? run_alloc_bytes SZ_BIGINT SZ_CELL vm) && negb pressure) _ collect_in_run_keeps vm1 rs1 Hok1) as (vm2 & rs2 & E2 & H2 & Hok2).
  exists vm2, rs2. split_and!; [done|by eapply shrinks_trans|done].
Qed.

(** Any sequence of collections. *)
Inductive gc_op := OpCollect | OpInRun | OpStrings | OpMaybe | OpSafePoint (forced pressure : bool).
Definition run_op (threshold : N) (vm : Vm) (op : gc_op) : res Vm :=
  match op with
  | OpCollect => collect SZ_OBJECT SZ_STRING SZ_BIGINT SZ_CELL SZ_VALUE SZ_META SZ_PTR SZ_VEC weak_size vm
  | OpInRun => collect_in_run SZ_OBJECT SZ_STRING SZ_BIGINT SZ_CELL SZ_VALUE SZ_META SZ_PTR SZ_VEC weak_size vm
  | OpStrings => collect_strings_only SZ_OBJECT SZ_STRING SZ_BIGINT SZ_CELL SZ_VALUE SZ_META SZ_PTR SZ_VEC threshold vm
  | OpMaybe => maybe_collect SZ_OBJECT SZ_STRING SZ_BIGINT SZ_CELL SZ_VALUE SZ_META SZ_PTR SZ_VEC weak_size threshold vm
  | OpSafePoint forced pressure => safe_point SZ_OBJECT SZ_STRING SZ_BIGINT SZ_CELL SZ_VALUE SZ_META SZ_PTR SZ_VEC weak_size threshold forced pressure vm
  end.

Lemma run_ops_keep threshold ops : keeps_heap (fold_res (run_op threshold) ops).
Proof.
  induction ops as [|op ops IH]; [intros vm rs Hok; exists vm, rs; split_and!; [done|apply shrinks_refl|done]|].
  apply (keeps_bind (λ vm, run_op threshold vm op)); [|done]. destruct op; [apply collect_keeps|apply collect_in_run_keeps|apply collect_strings_only_keeps|apply (keeps_if (should_collect threshold)), collect_keeps|apply safe_point_keeps].
Qed.
End collections.

End GcHeap.
