(* ===== verification/GcExact.v ===== *)
(** * What a collection does (crates/oxide_vm/src/session_gc.rs)

    Theorems: marking finds exactly what is reachable, a collection frees exactly
    the rest, any sequence of collections keeps the heap sound, and two losses
    the registries of a worker suffer.  A check that a concrete machine has a
    sound heap gives the witnesses. *)

From stdpp Require Import base tactics numbers list option gmap sets strings.
From Stdlib Require Import NArith ZArith Lia.
From S2P Require Import Prelude Value Object Gc GcCorrect GcCollect.
#[local] Set Warnings "-clear-no-such-hyp".

Open Scope N_scope.
Import NativeBoxDispatch Gc GcFacts GcHeap.

Module GcCheck.

(** ** A check for concrete machines

    [S] and [T] hold what can be reached of objects and strings. *)
Section check.
Context (vm : Vm) (rs : list JsValue.t) (S T : list N).
Let m := mem vm.
Let g := gc vm.

Definition reached_values : list JsValue.t := rs ++ (S ≫= λ p, from_option (held_values m) [] (m_objects m !! p)).
Definition check_edge (v : JsValue.t) : bool :=
  match edge_of v with
  | EObject p => (p =? 0) || bool_decide (p ∈ S)
  | EString s => (s =? 0) || bool_decide (s ∈ T)
  | EBigint p => bool_decide (p ∈ m_bigints m)
  | ENone => true
  end.
Definition has_object (p : N) : bool := bool_decide (is_Some (m_objects m !! p)).
Definition has_cell (p : N) : bool := bool_decide (is_Some (m_cells m !! p)).
Definition check_key (e : WeakKey * JsValue.t) : bool := match e.1 with WeakObj k => has_object k | WeakSymbol _ => true end.
Definition check_object (p : N) : bool :=
  match m_objects m !! p with
  | Some o =>
      match classify o with Ok _ => true | _ => false end &&
      (negb (is_session o) || bool_decide (p ∈ session_object_ptrs g)) &&
      forallb (λ s, (s =? 0) || bool_decide (s ∈ T)) (native_strings o) &&
      forallb has_cell (native_cells o) &&
      forallb (λ q, (q =? 0) || has_cell q) (upvalues_slice o) &&
      (negb (is_session o && is_weak_map_obj o) || forallb check_key (n_entries (native o)))
  | None => false
  end.
Definition check_string (s : N) : bool :=
  match m_strings m !! s with Some node => forallb (λ t, (t =? 0) || bool_decide (t ∈ T)) (string_pushes node) | None => false end.
Definition check_flat (s : N) : bool :=
  match m_strings m !! s with
  | Some node =>
      let f := flat_cache_ptr node in
      (f =? 0) ||
      (negb (bool_decide (f ∈ session_string_ptrs g)) && bool_decide (is_Some (m_strings m !! f)) &&
       forallb (λ v, negb (bool_decide (edge_of v = EString f))) reached_values &&
       forallb (λ p, match m_objects m !! p with Some o => negb (bool_decide (f ∈ native_strings o)) | None => true end) S &&
       forallb (λ e, negb (bool_decide (f ∈ string_pushes e.2)) || (e.1 =? s)) (map_to_list (m_strings m)))
  | None => false
  end.
Definition check_table (p : N) : bool := match m_objects m !! p with Some o => negb (p =? 0) && is_session o | None => false end.

Definition heap_check : bool :=
  forallb check_edge reached_values && forallb check_object S && forallb check_string T &&
  forallb (λ p, (p =? 0) || has_cell p) (concat (cell_stack vm)) &&
  bool_decide (NoDup (session_object_ptrs g)) && forallb check_table (session_object_ptrs g) &&
  forallb (λ e, negb (is_marked e.2)) (map_to_list (m_objects m)) &&
  bool_decide (NoDup (session_string_ptrs g)) && forallb (λ s, negb (s =? 0) && check_flat s) (session_string_ptrs g) &&
  bool_decide (NoDup (session_bigint_ptrs g)) && forallb (λ p, (p =? 0) || bool_decide (p ∈ m_bigints m)) (session_bigint_ptrs g) &&
  bool_decide (NoDup (session_cell_ptrs g)) && forallb (λ p, (p =? 0) || has_cell p) (session_cell_ptrs g) &&
  forallb (λ e, forallb (λ p, (p =? 0) || has_object p) e.2) (map_to_list (broadcast_channels g)) &&
  forallb (λ e, (e.1 =? 0) || has_object e.1) (map_to_list (event_targets g)).

Lemma forallb_in {A} (f : A → bool) l x : forallb f l = true → x ∈ l → f x = true.
Proof. rewrite forallb_forall. intros H Hx. by apply H, list_elem_of_In. Qed.
Lemma zero_or b p : (p =? 0) || b = true → p ≠ 0 → b = true.
Proof. destruct (N.eqb_spec p 0); done. Qed.

Hypothesis Hedge : forallb check_edge reached_values = true.
Hypothesis Hobj : forallb check_object S = true.
Hypothesis Hstr : forallb check_string T = true.

Lemma reached_held p o v : p ∈ S → m_objects m !! p = Some o → v ∈ held_values m o → v ∈ reached_values.
Proof. intros Hp Ho Hv. apply elem_of_app. right. apply list_elem_of_bind. exists p. by rewrite Ho. Qed.

Lemma check_reach p : reach m rs p → p ∈ S.
Proof.
  induction 1 as [v p Hv E H0|a o p _ IH Ho [H0 (v & Hv & E)]].
  - assert (check_edge v = true) as H by (eapply forallb_in; [done|]; apply elem_of_app; by left). unfold check_edge in H. rewrite E in H. by apply zero_or, bool_decide_eq_true in H.
  - assert (check_edge v = true) as H by (eapply forallb_in; [done|]; by eapply reached_held). unfold check_edge in H. rewrite E in H. by apply zero_or, bool_decide_eq_true in H.
Qed.

Lemma check_holds_string p o s : p ∈ S → m_objects m !! p = Some o → holds_string m o s → s ≠ 0 → s ∈ T.
Proof.
  intros Hp Ho [(v & Hv & E)|Hs] H0.
  - assert (check_edge v = true) as H by (eapply forallb_in; [done|]; by eapply reached_held). unfold check_edge in H. rewrite E in H. by apply zero_or, bool_decide_eq_true in H.
  - pose proof (forallb_in _ _ _ Hobj Hp) as H. unfold check_object in H. rewrite Ho in H. rewrite !andb_true_iff in H. destruct H as [[[[[_ _] H] _] _] _].
    pose proof (forallb_in _ _ _ H Hs) as Hz. cbn in Hz. by apply zero_or, bool_decide_eq_true in Hz.
Qed.

Lemma check_string_reach (R : N → Prop) s : (∀ t, R t → t ≠ 0 → t ∈ T) → string_reach m R s → s ∈ T ∧ is_Some (m_strings m !! s).
Proof.
  intros HR Hs. assert (s ∈ T) as HT.
  { induction Hs as [s Hs H0|s t node _ IH Hn Ht H0]; [auto|]. pose proof (forallb_in _ _ _ Hstr IH) as H. unfold check_string in H. rewrite Hn in H. pose proof (forallb_in _ _ _ H Ht) as Hz. cbn in Hz. by apply zero_or, bool_decide_eq_true in Hz. }
  split; [done|]. pose proof (forallb_in _ _ _ Hstr HT) as H. unfold check_string in H. destruct (m_strings m !! s); [eauto|done].
Qed.

Lemma check_root_string v s : v ∈ rs → edge_of v = EString s → s ≠ 0 → s ∈ T.
Proof.
  intros Hv E H0. assert (check_edge v = true) as H by (eapply forallb_in; [done|]; apply elem_of_app; by left). unfold check_edge in H. rewrite E in H. by apply zero_or, bool_decide_eq_true in H.
Qed.
End check.

Lemma heap_check_sound vm rs S T : (∃ groups, for_each_root vm = Ok groups ∧ rs = groups.*2) → heap_check vm rs S T = true → sound vm rs.
Proof.
  intros Hroots H. unfold heap_check in H. rewrite !andb_true_iff in H. destruct H as [[[[[[[[[[[[[[He Ho] Hs] Hc] _] _] _] _] _] _] _] _] _] _] _].
  assert (∀ p o, reach (mem vm) rs p → m_objects (mem vm) !! p = Some o → p ∈ S ∧ match classify o with Ok _ => true | _ => false end = true ∧
    forallb (has_cell vm) (native_cells o) = true ∧ forallb (λ q, (q =? 0) || has_cell vm q) (upvalues_slice o) = true ∧
    (negb (is_session o && is_weak_map_obj o) || forallb (check_key vm) (n_entries (native o))) = true) as Hall.
  { intros p o Hr Hg. pose proof (check_reach vm rs S T He p Hr) as Hp. pose proof (forallb_in _ _ _ Ho Hp) as H. unfold check_object in H. rewrite Hg, !andb_true_iff in H. tauto. }
  assert (∀ v, v ∈ reached_values vm rs S → ∀ p, edge_of v = EBigint p → p ∈ m_bigints (mem vm)) as Hb.
  { intros v Hv p E. pose proof (forallb_in _ _ _ He Hv) as H. unfold check_edge in H. rewrite E in H. by apply bool_decide_eq_true in H. }
  constructor; [constructor; [done| |]| | |].
  - intros p Hr. pose proof (check_reach vm rs S T He p Hr) as Hp. pose proof (forallb_in _ _ _ Ho Hp) as H. unfold check_object in H. destruct (m_objects (mem vm) !! p) as [o|] eqn:Hg; [|done]. exists o. split; [done|].
    destruct (Hall p o Hr Hg) as (_ & H1 & _ & H2 & _). constructor.
    + destruct (classify o); [eauto|done..].
    + intros s Hsr. eapply check_string_reach; [exact Hs| |exact Hsr]. intros t Ht H0. by eapply check_holds_string.
    + intros q Hq H0. pose proof (forallb_in _ _ _ H2 Hq) as Hz. cbn in Hz. by apply zero_or, bool_decide_eq_true in Hz.
  - intros s Hsr. eapply check_string_reach; [exact Hs| |exact Hsr]. intros t (v & Hv & E) H0. by eapply check_root_string.
  - intros p [(v & Hv & E)|(a & o & Ha & Hg & (v & Hv & E))]; (eapply Hb; [|exact E]); [apply elem_of_app; by left|]. eapply reached_held; [by apply (Hall a o Ha Hg)|done..].
  - intros p [[H0 Hp]|(a & o & Ha & Hg & Hh)].
    + pose proof (forallb_in _ _ _ Hc Hp) as Hz. cbn in Hz. by apply zero_or, bool_decide_eq_true in Hz.
    + destruct (Hall a o Ha Hg) as (_ & _ & H1 & H2 & _). destruct Hh as [Hn|[H0 Hq]]; [pose proof (forallb_in _ _ _ H1 Hn) as Hz; by apply bool_decide_eq_true in Hz|].
      pose proof (forallb_in _ _ _ H2 Hq) as Hz. cbn in Hz. by apply zero_or, bool_decide_eq_true in Hz.
  - intros p o k v Hr Hg Hses Hw Hk. destruct (Hall p o Hr Hg) as (_ & _ & _ & _ & H). rewrite Hses, Hw in H. cbn [negb andb orb] in H. pose proof (forallb_in _ _ _ H Hk) as Hz. by apply bool_decide_eq_true in Hz.
Qed.

Lemma heap_check_ok vm rs S T : (∃ groups, for_each_root vm = Ok groups ∧ rs = groups.*2) → heap_check vm rs S T = true → heap_ok vm rs.
Proof.
  intros Hroots Hch. split; [by eapply heap_check_sound|]. unfold heap_check in Hch. rewrite !andb_true_iff in Hch. destruct Hch as [[[[[[[[[[[[[[He Ho] Hs] _] H1] H2] H3] H4] H5] H6] H7] H8] H9] H10] H11].
  constructor; [by apply bool_decide_eq_true in H1| | | |by apply bool_decide_eq_true in H4| |by apply bool_decide_eq_true in H6| |by apply bool_decide_eq_true in H8| | |].
  - intros p Hp. pose proof (forallb_in _ _ _ H2 Hp) as H. unfold check_table in H. destruct (m_objects (mem vm) !! p) as [o|]; [|done]. apply andb_true_iff in H as [H%negb_true_iff%N.eqb_neq ?]. eauto.
  - intros p o Hr Hg Hses. pose proof (forallb_in _ _ _ Ho (check_reach vm rs S T He p Hr)) as H. unfold check_object in H. rewrite Hg, !andb_true_iff in H. destruct H as [[[[[_ H] _] _] _] _]. rewrite Hses in H. by apply bool_decide_eq_true in H.
  - intros p o Hg. pose proof (forallb_in _ _ (p, o) H3) as H. cbn in H. apply negb_true_iff, H. by apply elem_of_map_to_list.
  - intros s Hin. pose proof (forallb_in _ _ _ H5 Hin) as H. cbn in H. apply andb_true_iff in H as [H0%negb_true_iff%N.eqb_neq H]. split; [done|]. unfold check_flat in H. destruct (m_strings (mem vm) !! s) as [node|]; [|done].
    exists node. split; [done|]. intros Hf. apply zero_or in H; [|done]. rewrite !andb_true_iff in H. destruct H as [[[[F1 F2] F3] F4] F5]. apply negb_true_iff, bool_decide_eq_false in F1. apply bool_decide_eq_true in F2. split_and!; [done|done|].
    assert (∀ v, v ∈ reached_values vm rs S → edge_of v ≠ EString (flat_cache_ptr node)) as Hne by (intros v Hv; pose proof (forallb_in _ _ _ F3 Hv) as H; by apply negb_true_iff, bool_decide_eq_false in H).
    split_and!.
    + intros v Hv. apply Hne, elem_of_app. by left.
    + intros a o Ha Hg [(v & Hv & E)|Hn]; pose proof (check_reach vm rs S T He a Ha) as HS; [by eapply Hne; [eapply reached_held|]|]. pose proof (forallb_in _ _ _ F4 HS) as H. cbn in H. rewrite Hg in H. by apply negb_true_iff, bool_decide_eq_false in H.
    + intros t nd Ht Hp. pose proof (forallb_in _ _ (t, nd) F5) as H. cbn in H. apply elem_of_map_to_list in Ht. specialize (H Ht). rewrite bool_decide_eq_true_2 in H by done. by apply N.eqb_eq in H.
  - intros p Hp H0. pose proof (forallb_in _ _ _ H7 Hp) as H. cbn in H. by apply zero_or, bool_decide_eq_true in H.
  - intros p Hp H0. pose proof (forallb_in _ _ _ H9 Hp) as H. cbn in H. by apply zero_or, bool_decide_eq_true in H.
  - intros name ps p Hps Hp H0. apply elem_of_map_to_list in Hps. pose proof (forallb_in _ _ _ H10 Hps) as H. cbn in H. pose proof (forallb_in _ _ _ H Hp) as Hz. cbn in Hz. by apply zero_or, bool_decide_eq_true in Hz.
  - intros p ls Hp H0. apply elem_of_map_to_list in Hp. pose proof (forallb_in _ _ _ H11 Hp) as H. cbn in H. by apply zero_or, bool_decide_eq_true in H.
Qed.

(** ** A machine

    The permanent object 16 holds the weak map 32, whose entry for the dead
    object 48 has the value 64; the rope 208 with its flat form 216 is dead. *)
Definition no_values : NativeBox := mkNative [] [] [] [] 0.
Definition plain (o : JsObject.t) (tag : N) (n : NativeBox) (ups : option (list N)) : GcObject :=
  mkGcObject o tag JsValue.undefined JsValue.undefined JsValue.undefined n ups (mkCaps 0 0 0 0 0).
Definition with_slots (l : list JsValue.t) : JsObject.t := JsObject.with_props (JsObject.new_empty 1 JsValue.null) (Some l).
Definition on_heap (o : JsObject.t) : JsObject.t := JsObject.set_heap_alloc (JsObject.set_session_epoch o true) true.

Definition demo_mem : Memory := mkMemory
  (list_to_map [
    (16, plain (with_slots [JsValue.from_js_object 32; JsValue.string 200]) 0 no_values None);
    (32, plain (on_heap (with_slots [])) 31 (mkNative [] [] [] [(WeakObj 48, JsValue.from_js_object 64); (WeakObj 32, JsValue.int 7)] 0) None);
    (48, plain (on_heap (with_slots [JsValue.string 208])) 0 no_values (Some [300]));
    (64, plain (on_heap (with_slots [JsValue.from_js_object 16])) 0 no_values (Some [304]))])
  (list_to_map [(200, mkString false 0 0 0 5); (208, mkString true 200 200 216 10); (216, mkString false 0 0 0 20)])
  (list_to_map [(300, mkCell JsValue.undefined true); (304, mkCell (JsValue.bigint 400) true)])
  {[400; 408]}.

Definition no_stats : GcStats := mkStats 0 0 0 0 0 0 0 0 0.
Definition demo_gc : GcState := mkGc [32; 48; 64] [200; 208] [400; 408] [300; 304] 0 0 0 0
  (list_to_map [("jobs"%string, [48; 32])]) (list_to_map [(48, [mkListener 1 (JsValue.from_js_object 64) false false false])]) no_stats.

(** A machine with registers and a global object, all else empty. *)
Definition vm_of (rs : list JsValue.t) (glob : N) (g : GcState) (m : Memory) : Vm :=
  mkVm rs [] [] [] [] [] [[0]] None None None None None None None None None None None None [] [] [] [] [] [] glob [] [] [] [] [] g m.
Definition demo : Vm := vm_of [JsValue.int 1; JsValue.bigint 400] 16 demo_gc demo_mem.
Definition demo_roots : list JsValue.t := match for_each_root demo with Ok gs => gs.*2 | _ => [] end.

Lemma demo_ok : heap_ok demo demo_roots.
Proof.
  eapply (heap_check_ok demo demo_roots [16; 32; 64] [200]); [|vm_compute; reflexivity]. exists (match for_each_root demo with Ok gs => gs | _ => [] end). split; [|reflexivity]. by vm_compute.
Qed.
End GcCheck.
Import GcCheck.

(** [l'] is [l] without the elements that are not [P], in the same order. *)
Definition selects (P : N → Prop) (l l' : list N) : Prop := l' `sublist_of` l ∧ ∀ p, p ∈ l' ↔ p ∈ l ∧ P p.

Lemma selects_filter (P Q : N → Prop) `{!∀ x, Decision (Q x)} l : (∀ p, p ∈ l → Q p ↔ P p) → selects P l (filter Q l).
Proof. intros Hpq. split; [apply sublist_filter|]. intros p. rewrite list_elem_of_filter. split; [intros [HQ Hp]|intros [Hp HP]]; split; try done; by apply Hpq. Qed.

(** C15: Marking is exact.  From a machine whose reachable pointers can be followed
    and whose reachable session objects carry no mark, marking ends; the objects
    it marks are the reachable session objects, nothing else of the memory
    changes, and the strings, BigInts and cells it records are those that the
    roots and the reachable objects lead to, through ropes and their flat forms. *)
Theorem mark_exact vm rs : traceable vm rs → unmarked_reach vm rs →
  ∃ M st, mark vm = Ok (with_objects (mem vm) (mark_all M (m_objects (mem vm))), st) ∧
    (∀ p, p ∈ M ↔ reach (mem vm) rs p ∧ ∃ g, m_objects (mem vm) !! p = Some g ∧ is_session g = true) ∧
    (∀ p g, m_objects (mem vm) !! p = Some g → mark_all M (m_objects (mem vm)) !! p = Some (if decide (p ∈ M) then set_mark g true else g)) ∧
    (∀ s, s ∈ live_strings st ↔ live_string (mem vm) rs s) ∧
    (∀ p, p ∈ live_bigints st ↔ live_bigint (mem vm) rs p) ∧
    (∀ p, p ∈ live_cells st ↔ live_cell vm rs p).
Proof.
  intros Htr Hun. destruct (mark_ok vm rs Htr Hun) as (M & st & E & [H1 H2 H3 H4]). exists M, st. split_and!; [done|done| |done..].
  intros p g Hg. pose proof (marked_lookup (mem vm) M p) as H. by rewrite Hg in H.
Qed.

Lemma mark_exact_witness : ∃ M st, mark demo = Ok (with_objects (mem demo) (mark_all M (m_objects (mem demo))), st) ∧ (∀ p, p ∈ M ↔ reach (mem demo) demo_roots p ∧ ∃ g, m_objects (mem demo) !! p = Some g ∧ is_session g = true).
Proof.
  destruct (mark_exact demo demo_roots) as (M & st & E & H & _).
  - exact (so_traceable _ _ (ho_sound _ _ demo_ok)).
  - exact (heap_unmarked demo demo_roots demo_ok).
  - exists M, st. split; [exact E|exact H].
Defined.

Section exact.
Context (SZ_OBJECT SZ_STRING SZ_BIGINT SZ_CELL SZ_VALUE SZ_META SZ_PTR SZ_VEC : N) (weak_size : nat → N).

(** A weak key survives when its object is permanent or reachable. *)
Definition key_survives (m : Memory) (rs : list JsValue.t) (k : WeakKey) : Prop :=
  match k with WeakSymbol _ => True | WeakObj p => ∃ g, m_objects m !! p = Some g ∧ (is_session g = false ∨ reach m rs p) end.

(** What is left of a reachable object. *)
Definition survives_as (m : Memory) (rs : list JsValue.t) (g g' : GcObject) : Prop :=
  if is_session g && is_weak_map_obj g then
    with_native g' (native g) = g ∧ n_values (native g') = n_values (native g) ∧ n_entries (native g') `sublist_of` n_entries (native g) ∧
    ∀ k v, (k, v) ∈ n_entries (native g') ↔ (k, v) ∈ n_entries (native g) ∧ key_survives m rs k
  else g' = g.

Lemma keep_key_survives vm rs M st k : mark_result vm rs M st → keep_key (mem vm) M k = true ↔ key_survives (mem vm) rs k.
Proof.
  intros Hmr. destruct k as [p|]; [|done]. cbn [keep_key key_survives]. destruct (m_objects (mem vm) !! p) as [g|] eqn:Hg; [|naive_solver].
  rewrite orb_true_iff, negb_true_iff, bool_decide_eq_true, (mr_objects _ _ _ _ Hmr). destruct (is_session g) eqn:Es; naive_solver.
Qed.

Lemma swept_survives vm rs M st p g : heap_ok vm rs → mark_result vm rs M st → reach (mem vm) rs p → m_objects (mem vm) !! p = Some g →
  ∃ g', swept weak_size (mem vm) M (session_object_ptrs (gc vm)) p g = Some g' ∧ survives_as (mem vm) rs g g'.
Proof.
  intros Hok Hmr Hr Hg. rewrite (swept_reach weak_size vm rs Hok M st Hmr p g Hr Hg). eexists. split; [done|]. unfold survives_as. destruct (is_session g) eqn:Es; [|done]. cbn [andb].
  unfold pruned. destruct (is_weak_map_obj g) eqn:Ew; [|done]. cbn [with_native native n_values n_entries]. split_and!; [by destruct g|done|apply sublist_filter|].
  intros k v. rewrite list_elem_of_filter. cbn [fst]. rewrite (keep_key_survives vm rs M st k Hmr). tauto.
Qed.

(** C13: A collection frees exactly what cannot be reached.  On a sound heap it runs
    without following a dangling pointer; the four tables of the session keep, in
    order, the reachable objects, strings, BigInts and cells; the others are
    freed, a rope with its flat form; every reachable object is what it was, but
    that a weak map of the session loses the entries whose key is a dead session
    object; and the heap is sound again, with no object marked and no new root. *)
Theorem collect_exact vm rs : heap_ok vm rs → ∃ vm' rs', collect SZ_OBJECT SZ_STRING SZ_BIGINT SZ_CELL SZ_VALUE SZ_META SZ_PTR SZ_VEC weak_size vm = Ok vm' ∧
  selects (reach (mem vm) rs) (session_object_ptrs (gc vm)) (session_object_ptrs (gc vm')) ∧
  selects (live_string (mem vm) rs) (session_string_ptrs (gc vm)) (session_string_ptrs (gc vm')) ∧
  selects (λ p, p ≠ 0 ∧ live_bigint (mem vm) rs p) (session_bigint_ptrs (gc vm)) (session_bigint_ptrs (gc vm')) ∧
  selects (λ p, p ≠ 0 ∧ live_cell vm rs p) (session_cell_ptrs (gc vm)) (session_cell_ptrs (gc vm')) ∧
  (∀ p g, m_objects (mem vm) !! p = Some g → reach (mem vm) rs p → ∃ g', m_objects (mem vm') !! p = Some g' ∧ survives_as (mem vm) rs g g') ∧
  (∀ p g, m_objects (mem vm) !! p = Some g → p ∈ session_object_ptrs (gc vm) → ¬ reach (mem vm) rs p → JsObject.is_heap_alloc (g_base g) = true → m_objects (mem vm') !! p = None) ∧
  (∀ s, live_string (mem vm) rs s → m_strings (mem vm') !! s = m_strings (mem vm) !! s) ∧
  (∀ s node, s ∈ session_string_ptrs (gc vm) → ¬ live_string (mem vm) rs s → m_strings (mem vm) !! s = Some node →
     m_strings (mem vm') !! s = None ∧ (flat_cache_ptr node ≠ 0 → m_strings (mem vm') !! flat_cache_ptr node = None)) ∧
  (∀ p, p ∈ session_bigint_ptrs (gc vm) → p ≠ 0 → p ∈ m_bigints (mem vm') ↔ live_bigint (mem vm) rs p) ∧
  (∀ p, p ∈ session_cell_ptrs (gc vm) → p ≠ 0 → is_Some (m_cells (mem vm') !! p) ↔ live_cell vm rs p) ∧
  shrinks vm rs vm' rs' ∧ heap_ok vm' rs'.
Proof.
  intros Hok. destruct (collect_ok SZ_OBJECT SZ_STRING SZ_BIGINT SZ_CELL SZ_VALUE SZ_META SZ_PTR SZ_VEC weak_size vm rs Hok) as (M & st & g' & m' & E & Hmr & Hco).
  pose proof (collected_kept weak_size vm rs Hok M st Hmr true true g' m' Hco) as Hke. destruct (kept_heap vm rs g' m' Hok Hke) as (rs' & Hsh & Hok').
  destruct Hco as [C1 C2 C3 C4 C5 C6 C7 C8 _ _]. pose proof (ho_tables _ _ Hok) as Ht. exists (with_gc vm g' m'), rs'. cbn [with_gc gc mem]. rewrite C1, C2, C3, C4, C5, C6, C7, C8. split_and!; [exact E|..|exact Hsh|exact Hok'].
  - apply selects_filter. intros p Hp. destruct (tb_objects _ _ Ht p Hp) as (_ & g & Hg & Hs). rewrite (mr_objects _ _ _ _ Hmr). naive_solver.
  - apply selects_filter. intros s _. apply (mr_strings _ _ _ _ Hmr).
  - apply selects_filter. intros p _. by rewrite (mr_bigints _ _ _ _ Hmr).
  - apply selects_filter. intros p _. by rewrite (mr_cells _ _ _ _ Hmr).
  - intros p g Hg Hr. rewrite remap_lookup, Hg. by eapply swept_survives.
  - intros p g Hg Hp Hn Hh. rewrite remap_lookup, Hg. cbn [mbind option_bind]. unfold swept. rewrite decide_False by (rewrite (mr_objects _ _ _ _ Hmr); tauto). by rewrite decide_True, Hh.
  - intros s Hs. rewrite swept_strings_lookup, decide_False; [done|]. by eapply live_not_doomed.
  - intros s node Hs Hn Hnode. rewrite <- (mr_strings _ _ _ _ Hmr) in Hn. assert (∀ q, q ∈ string_boxes (mem vm) s → q ∈ doomed (mem vm) (live_strings st) (session_string_ptrs (gc vm))) as Hd.
    { intros q Hq. apply list_elem_of_bind. exists s. split; [done|]. by apply list_elem_of_filter. }
    unfold string_boxes in Hd. rewrite Hnode in Hd. rewrite !swept_strings_lookup, decide_True by (apply Hd; by left). split; [done|]. intros H0. rewrite decide_True; [done|]. apply Hd. rewrite (proj2 (N.eqb_neq _ 0) H0). right. by left.
  - intros p Hp H0. rewrite elem_of_difference, elem_of_list_to_set, dead_ptrs_spec, (mr_bigints _ _ _ _ Hmr). split; [|intros Hl; split; [by apply (tb_bigints _ _ Ht)|tauto]]. intros [_ H].
    destruct (decide (p ∈ live_bigints st)) as [Hl|Hl]; rewrite (mr_bigints _ _ _ _ Hmr) in Hl; tauto.
  - intros p Hp H0. rewrite swept_cells_lookup. case_decide as Hd; rewrite dead_ptrs_spec, (mr_cells _ _ _ _ Hmr) in Hd.
    + split; [by intros []|tauto].
    + split; [|intros _; by apply (tb_cells _ _ Ht)]. intros _. destruct (decide (p ∈ live_cells st)) as [Hl|Hl]; rewrite (mr_cells _ _ _ _ Hmr) in Hl; tauto.
Qed.

(** C14: Collections keep the heap sound.  Starting from a sound heap, any sequence of
    full collections, collections in a run, string collections, threshold-driven
    collections and safe points runs without following or freeing a dangling
    pointer and ends in a sound heap: everything reachable is allocated, the
    tables hold every reachable session object, no mark is left, and nothing
    became reachable that was not. *)
Theorem collections_sound threshold ops vm rs : heap_ok vm rs →
  ∃ vm' rs', fold_res (run_op SZ_OBJECT SZ_STRING SZ_BIGINT SZ_CELL SZ_VALUE SZ_META SZ_PTR SZ_VEC weak_size threshold) ops vm = Ok vm' ∧ shrinks vm rs vm' rs' ∧ heap_ok vm' rs'.
Proof. apply run_ops_keep. Qed.
End exact.

Lemma collect_exact_witness : ∃ vm' rs', collect 64 40 24 16 8 24 8 24 N.of_nat demo = Ok vm' ∧
  selects (reach (mem demo) demo_roots) [32; 48; 64] (session_object_ptrs (gc vm')) ∧ heap_ok vm' rs'.
Proof.
  destruct (collect_exact 64 40 24 16 8 24 8 24 N.of_nat demo demo_roots demo_ok) as (vm' & rs' & E & H1 & _ & _ & _ & _ & _ & _ & _ & _ & _ & _ & H2).
  exists vm', rs'. split; [exact E|split; [exact H1|exact H2]].
Defined.

Lemma collections_sound_witness : ∃ vm' rs',
  fold_res (run_op 64 40 24 16 8 24 8 24 N.of_nat 1000) [OpStrings; OpSafePoint true false; OpInRun; OpCollect] demo = Ok vm' ∧ shrinks demo demo_roots vm' rs' ∧ heap_ok vm' rs'.
Proof. exact (collections_sound 64 40 24 16 8 24 8 24 N.of_nat 1000 [OpStrings; OpSafePoint true false; OpInRun; OpCollect] demo demo_roots demo_ok). Defined.

(** On the machine above: the dead object, rope, cell and BigInt go, with the weak
    entry, the listener and the channel of the dead object. *)
Example collect_demo : match collect 64 40 24 16 8 24 8 24 N.of_nat demo with
  | Ok vm' => (session_object_ptrs (gc vm'), session_string_ptrs (gc vm'), session_bigint_ptrs (gc vm'), session_cell_ptrs (gc vm'),
      map_to_list (broadcast_channels (gc vm')), map_to_list (event_targets (gc vm'))) = ([32; 64], [200], [400], [304], [("jobs"%string, [32])], []) ∧
      n_entries (native (default (plain (with_slots []) 0 no_values None) (m_objects (mem vm') !! 32))) = [(WeakObj 32, JsValue.int 7)]
  | _ => False
  end.
Proof. by vm_compute. Qed.

(** ** What the registries lose *)

(** A machine whose global object 16 is permanent and has the listener 32. *)
Definition page : Vm := et_register (vm_of [] 16
  (mkGc [32] [] [] [] 0 0 0 0 ∅ ∅ no_stats)
  (mkMemory (list_to_map [(16, plain (with_slots []) 0 no_values None); (32, plain (on_heap (with_slots [])) 0 no_values None)]) ∅ ∅ ∅))
  16 (mkListener 1 (JsValue.from_js_object 32) false false false).

(** A listener on a permanent target is lost.  The collector keeps the listeners
    of marked targets, and a permanent object such as the global object is
    reachable but never marked: after a collection the listener that was
    registered on it is gone, and its callback with it at the next one. *)
Theorem listener_on_global_lost :
  length (et_lookup page 16) = 1%nat ∧ (∃ rs, heap_ok page rs) ∧
  match collect 64 40 24 16 8 24 8 24 N.of_nat page with
  | Ok vm1 => et_lookup vm1 16 = [] ∧ session_object_ptrs (gc vm1) = [32] ∧
      match collect 64 40 24 16 8 24 8 24 N.of_nat vm1 with Ok vm2 => m_objects (mem vm2) !! 32 = None | _ => False end
  | _ => False
  end.
Proof.
  split_and!; [done| |by vm_compute]. exists (match for_each_root page with Ok gs => gs.*2 | _ => [] end). eapply (heap_check_ok page _ [16; 32] []); [|by vm_compute]. exists (match for_each_root page with Ok gs => gs | _ => [] end). by vm_compute.
Qed.

(** A machine with a channel object 32 that is registered and not reachable. *)
Definition channel : Vm := bc_register (vm_of [] 16
  (mkGc [32] [200] [] [] 0 0 0 0 ∅ ∅ no_stats)
  (mkMemory (list_to_map [(16, plain (with_slots []) 0 no_values None); (32, plain (on_heap (with_slots [JsValue.string 200])) 34 no_values None)])
     (list_to_map [(200, mkString false 0 0 0 5)]) ∅ ∅))
  "jobs"%string 32.

(** A string collection leaves a channel with a freed string.  It frees the
    strings of objects that are not reachable but keeps the objects, and a
    broadcast channel that is not reachable stays in the registry, from where a
    message brings it back: the property it holds then points to a freed string. *)
Theorem channel_string_freed :
  match collect_strings_only 64 40 24 16 8 24 8 24 1000 channel with
  | Ok vm' => bc_lookup vm' "jobs"%string = [32] ∧ (∃ g, m_objects (mem vm') !! 32 = Some g ∧ holds_string (mem vm') g 200) ∧ m_strings (mem vm') !! 200 = None
  | _ => False
  end.
Proof.
  destruct (collect_strings_only 64 40 24 16 8 24 8 24 1000 channel) as [vm'| |] eqn:E; vm_compute in E; [|done..]. injection E as <-. split_and!; [by vm_compute| |by vm_compute].
  eexists. split; [by vm_compute|]. left. exists (JsValue.string 200). split; [|by vm_compute]. apply (bool_decide_unpack _). by vm_compute.
Qed.
