(* ===== verification/SetKey.v ===== *)
(** * Keys of Map and Set (crates/oxide_builtins/src/set.rs)

    [SetKey] wraps a value and gives it the equality and the hash that the
    tables of Map and Set use.  A value is a primitive one or a pointer to an
    object.  A hasher receives a sequence of writes; [hash] is that sequence,
    one [Feed] per call of the hasher, so two keys whose sequences are equal
    have the same hash with every hasher.

    The bytes of a BigInt come from the third-party crate [num_bigint]
    ([to_bytes_le]): the section variable of that name, which is required to
    tell different integers apart only where the converse is proved.

    [JsKeys] is what the collections rely on of their keys. *)

From stdpp Require Import base tactics numbers list option strings.
From Stdlib Require Import ZArith Lia SpecFloat.
From S2P Require Import Prelude Value Float Coercion.

Open Scope Z_scope.

Inductive Val := VPrim (p : Prim) | VObj (ptr : N).

#[export] Instance Val_eq_dec : EqDecision Val.
Proof. solve_decision. Defined.

Inductive Feed :=
  | FU8 (n : N)
  | FU32 (n : N)
  | FU64 (n : N)
  | FBool (b : bool)
  | FUnits (units : list N)
  | FBytes (bytes : list N).

Module SetKey.
Import F64.

(** [SetKey::eq]: SameValueZero, objects by pointer. *)
Definition eq (a b : Val) : bool :=
  match a, b with
  | VPrim p, VPrim q => Coercion.same_value_zero p q
  | VObj p, VObj q => (p =? q)%N
  | _, _ => false
  end.

(** The bits hashed for a number. *)
Definition number_bits (v : Prim) : N :=
  let d := Coercion.to_f64 v in if eqb d Coercion.ZERO then Coercion.ZERO else if is_nan d then NAN else d.

Section hash.
Variable to_bytes_le : Z → list N.

(** [SetKey::hash]. *)
Definition hash (v : Val) : list Feed :=
  match v with
  | VPrim p =>
      match p with
      | PInt _ | PDouble _ => [FU8 0; FU64 (number_bits p)]
      | PString units => [FU8 1; FUnits units]
      | PBigInt z => [FU8 2; FBool (z <? 0); FBytes (to_bytes_le z)]
      | PSymbol index => [FU8 4; FU32 index]
      | PBool b => [FU8 5; FBool b]
      | PNull => [FU8 6]
      | PUndefined => [FU8 7]
      end
  | VObj ptr => [FU8 3; FU64 (JsValue.from_js_object ptr)]
  end.
End hash.

(** [normalize_neg_zero]: the double -0 becomes +0. *)
Definition normalize_neg_zero (v : Val) : Val :=
  match v with
  | VPrim (PDouble d) => if eqb d Coercion.ZERO && is_sign_negative d then VPrim (Coercion.float Coercion.ZERO) else v
  | _ => v
  end.

(** The key that [getOrInsertComputed] works with. *)
Definition plus_zero (v : Val) : Val :=
  match v with
  | VPrim (PDouble d) => if eqb d Coercion.ZERO then VPrim (Coercion.float Coercion.ZERO) else v
  | _ => v
  end.

(** A value as the machine holds it. *)
Definition wf (v : Val) : Prop :=
  match v with VPrim p => CoercionFacts.wf p | VObj ptr => (ptr < 2^48)%N end.

#[export] Instance wf_dec v : Decision (wf v).
Proof. destruct v as [[]|]; cbn [wf CoercionFacts.wf]; apply _. Defined.
End SetKey.

Module SetKeyFacts.
Import F64 F64Facts SetKey.

(** A float up to the sign of zero. *)
Definition unsigned (x : spec_float) : spec_float := match x with S754_zero _ => S754_zero false | _ => x end.

Lemma unsigned_valid x : valid_binary prec emax x = true → valid_binary prec emax (unsigned x) = true.
Proof. by destruct x. Qed.

Lemma encode_inj x y : valid_binary prec emax x = true → valid_binary prec emax y = true → encode x = encode y → x = y.
Proof. intros Hx Hy E. by rewrite <- (decode_encode x Hx), E, (decode_encode y Hy). Qed.

(** SameValueZero of two doubles, by their values. *)
Definition zero_same (x y : spec_float) : bool :=
  match x, y with S754_nan, S754_nan => true | _, _ => SFeqb x y end.

Lemma zero_same_iff x y : valid_binary prec emax x = true → valid_binary prec emax y = true →
  zero_same x y = true ↔ unsigned x = unsigned y.
Proof.
  intros Hx Hy. split.
  - destruct (units x) as [a|] eqn:Ux, (units y) as [b|] eqn:Uy.
    + intros E. assert (SFeqb x y = true) as E' by (destruct x, y; done). unfold SFeqb in E'. rewrite (compare_units x y a b Hx Hy Ux Uy) in E'.
      destruct (Z.compare_spec a b) as [->| |]; try discriminate E'. destruct (decide (b = 0)) as [->|Hb].
      * assert (∀ z, valid_binary prec emax z = true → units z = Some 0 → unsigned z = S754_zero false) as Hz.
        { intros [s|s| |s m e] Hv Hu; [done|discriminate Hu..|]. injection Hu as Hu. pose proof (scaled_pos m e (bounded_low m e Hv)). destruct s; cbn [cond_Zopp] in Hu; lia. }
        by rewrite (Hz x Hx Ux), (Hz y Hy Uy).
      * by rewrite (CoercionFacts.same_units x y b).
    + destruct x as [[]|[]| |[] ? ?], y as [[]|[]| |[] ? ?]; done.
    + destruct x as [[]|[]| |[] ? ?], y as [[]|[]| |[] ? ?]; done.
    + destruct x as [[]|[]| |[] ? ?], y as [[]|[]| |[] ? ?]; done.
  - intros E. destruct (units x) as [a|] eqn:Ux.
    + assert (units y = Some a) as Uy by (destruct x, y; simplify_eq/=; done).
      assert (SFeqb x y = true) as E' by (unfold SFeqb; rewrite (compare_units x y a a Hx Hy Ux Uy), Z.compare_refl; done). destruct x, y; done.
    + destruct x as [[]|[]| |[] ? ?], y as [[]|[]| |[] ? ?]; (done || discriminate E).
Qed.

Definition is_number (p : Prim) : bool := match p with PInt _ | PDouble _ => true | _ => false end.

Lemma int_valid i : - 2^31 <= i < 2^31 → valid_binary prec emax (binary_normalize prec emax i 0 false) = true.
Proof. intros Hi. destruct (normalize_int i 0 false i) as [Hv _]; (done || lia). Qed.

Lemma int_encode i : - 2^31 <= i < 2^31 → encode (decode (of_Z i)) = of_Z i.
Proof. intros Hi. unfold of_Z. by rewrite decode_encode by by apply int_valid. Qed.

Lemma number_bits_eq p : CoercionFacts.wf p → is_number p = true → number_bits p = encode (unsigned (decode (Coercion.to_f64 p))).
Proof.
  intros Hw Hn. unfold number_bits. set (d := Coercion.to_f64 p). assert (decode Coercion.ZERO = S754_zero false) as Hz by done.
  assert (is_nan d = false → encode (decode d) = d) as He.
  { destruct p as [i|b| | | | | |]; try discriminate Hn; intros Hd; [by apply int_encode|by apply encode_decode; [apply Hw|]]. }
  assert (eqb d Coercion.ZERO = match decode d with S754_zero _ => true | _ => false end) as ->.
  { unfold eqb. rewrite Hz. destruct (decode d) as [[]|[]| |[] ? ?]; done. }
  destruct (decode d) as [s|s| |s m e] eqn:Ed; [done| | |]; unfold is_nan; rewrite Ed; cbn [unsigned]; [|done|];
    symmetry; apply He; unfold is_nan; by rewrite Ed.
Qed.

Lemma same_number p q : CoercionFacts.wf p → CoercionFacts.wf q → is_number p = true → is_number q = true →
  Coercion.same_value_zero p q = zero_same (decode (Coercion.to_f64 p)) (decode (Coercion.to_f64 q)).
Proof.
  assert (∀ a b, (if is_nan a && is_nan b then true else eqb a b) = zero_same (decode a) (decode b)) as Hd.
  { intros a b. unfold is_nan, eqb. destruct (decode a), (decode b); done. }
  intros Hp Hq Np Nq. destruct p as [i|x| | | | | |], q as [j|y| | | | | |]; try discriminate; cbn [Coercion.same_value_zero]; try apply Hd.
  cbn [Coercion.to_f64]. rewrite <- Hd. cbn [CoercionFacts.wf] in *. pose proof unit_pos as Hu.
  destruct (of_Z_int i ltac:(lia)) as [_ Hi], (of_Z_int j ltac:(lia)) as [_ Hj].
  replace (is_nan (of_Z i)) with false by (unfold is_nan; destruct (decode (of_Z i)); (done || discriminate Hi)). cbn [andb].
  rewrite (CoercionFacts.units_eqb _ _ _ _ Hi Hj). destruct (Z.eqb_spec i j) as [->|Hn]; [by rewrite Z.eqb_refl|]. symmetry. apply Z.eqb_neq. nia.
Qed.

(** Numbers have equal keys when they hash the same bits. *)
Lemma number_eq_iff p q : CoercionFacts.wf p → CoercionFacts.wf q → is_number p = true → is_number q = true →
  Coercion.same_value_zero p q = true ↔ number_bits p = number_bits q.
Proof.
  intros Hp Hq Np Nq. rewrite same_number, zero_same_iff, !number_bits_eq by (done || apply decode_valid). split; [by intros ->|].
  apply encode_inj; apply unsigned_valid, decode_valid.
Qed.

Lemma pointer_inj p q : (p < 2^48)%N → (q < 2^48)%N → JsValue.from_js_object p = JsValue.from_js_object q → p = q.
Proof.
  intros Hp Hq. unfold JsValue.from_js_object. rewrite !box_payload by (done || lia). unfold boxed. lia.
Qed.

Definition hash_inj (to_bytes_le : Z → list N) : Prop := ∀ a b, (a <? 0) = (b <? 0) → to_bytes_le a = to_bytes_le b → a = b.

Lemma eq_hash to_bytes_le a b : wf a → wf b → eq a b = true → hash to_bytes_le a = hash to_bytes_le b.
Proof.
  intros Ha Hb. destruct a as [p|p], b as [q|q]; cbn [eq]; try discriminate; [|intros ->%N.eqb_eq; done].
  destruct (is_number p) eqn:Np, (is_number q) eqn:Nq.
  - intros E%number_eq_iff; [|done..]. destruct p, q; try discriminate; cbn [hash]; by rewrite E.
  - destruct p, q; try discriminate.
  - destruct p, q; try discriminate.
  - destruct p as [| |[]| | | | |], q as [| |[]| | | | |]; try discriminate; cbn; intros E; try done.
    + apply bool_decide_eq_true in E. by subst.
    + apply Z.eqb_eq in E. by subst.
    + apply N.eqb_eq in E. by subst.
Qed.

Lemma hash_eq to_bytes_le a b : hash_inj to_bytes_le → wf a → wf b → hash to_bytes_le a = hash to_bytes_le b → eq a b = true.
Proof.
  intros Hi Ha Hb. destruct a as [p|p], b as [q|q].
  - destruct (is_number p) eqn:Np, (is_number q) eqn:Nq.
    + intros E. apply number_eq_iff; [done..|]. destruct p, q; try discriminate; by injection E.
    + destruct p, q; (discriminate || (cbn; discriminate)).
    + destruct p, q; (discriminate || (cbn; discriminate)).
    + destruct p as [| |x| | |x|x|x], q as [| |y| | |y|y|y]; try discriminate; cbn; intros E; try discriminate E; try done.
      * injection E as ->. by destruct y.
      * injection E as ->. by apply bool_decide_eq_true.
      * injection E as Es Eb. apply Z.eqb_eq. by apply Hi.
      * injection E as ->. apply N.eqb_refl.
  - destruct p; discriminate.
  - destruct q; discriminate.
  - cbn. intros E. injection E as E. apply N.eqb_eq. by apply pointer_inj.
Qed.

(** A hash that tells integers apart, to compare keys by their hashes. *)
Definition plain_bytes (z : Z) : list N := [Z.to_N (Z.abs z)].
Lemma plain_inj : hash_inj plain_bytes.
Proof. intros a b Hs [= E]. destruct (Z.ltb_spec a 0), (Z.ltb_spec b 0); (done || lia). Qed.

Lemma eq_iff a b : wf a → wf b → eq a b = true ↔ hash plain_bytes a = hash plain_bytes b.
Proof. intros Ha Hb. split; [by apply eq_hash|by apply hash_eq; [apply plain_inj|..]]. Qed.

Lemma zero_wf : wf (VPrim (Coercion.float Coercion.ZERO)).
Proof. split; done. Qed.

Lemma eq_refl_wf v : wf v → eq v v = true.
Proof. intros Hv. by apply eq_iff. Qed.

Lemma zero_eq d : eqb d Coercion.ZERO = true → eq (VPrim (Coercion.float Coercion.ZERO)) (VPrim (PDouble d)) = true.
Proof.
  unfold eq, Coercion.float, Coercion.same_value_zero, is_nan, eqb. change (decode Coercion.ZERO) with (S754_zero false).
  destruct (decode d) as [|[]| |[] ? ?]; done.
Qed.

Lemma plus_zero_ok v : wf v → wf (plus_zero v) ∧ eq (plus_zero v) v = true.
Proof.
  intros Hv. assert (wf v ∧ eq v v = true) as H by (split; [done|by apply eq_refl_wf]). destruct v as [[|d| | | | | |]|]; try exact H.
  cbn [plus_zero]. destruct (eqb d Coercion.ZERO) eqn:E; [|exact H]. split; [apply zero_wf|by apply zero_eq].
Qed.

Lemma neg_zero_ok v : wf v → wf (normalize_neg_zero v) ∧ eq (normalize_neg_zero v) v = true.
Proof.
  intros Hv. assert (wf v ∧ eq v v = true) as H by (split; [done|by apply eq_refl_wf]). destruct v as [[|d| | | | | |]|]; try exact H.
  cbn [normalize_neg_zero]. destruct (eqb d Coercion.ZERO) eqn:E; cbn [andb]; [|exact H].
  destruct (is_sign_negative d); [|exact H]. split; [apply zero_wf|by apply zero_eq].
Qed.
End SetKeyFacts.

Import SetKey.

(** Two keys are equal exactly when they send the same writes to the hasher:
    integers and doubles of one value, +0 and -0, two NaNs, equal strings and
    BigInts and the same object hash alike, and no two different keys do.  In
    particular the equality of keys is an equivalence, which together with the
    hash is what the hash tables ask of their keys. *)
Theorem setkey_hash_exact (to_bytes_le : Z → list N) a b c : SetKeyFacts.hash_inj to_bytes_le → wf a → wf b → wf c →
  (eq a b = true ↔ hash to_bytes_le a = hash to_bytes_le b) ∧
  eq a a = true ∧ eq a b = eq b a ∧ (eq a b = true → eq b c = eq a c).
Proof.
  intros Hi Ha Hb Hc. split_and!.
  - split; [by apply SetKeyFacts.eq_hash|by apply SetKeyFacts.hash_eq].
  - by apply SetKeyFacts.eq_iff.
  - apply Bool.eq_true_iff_eq. rewrite !SetKeyFacts.eq_iff by done. done.
  - intros E%SetKeyFacts.eq_iff; [|done..]. apply Bool.eq_true_iff_eq. by rewrite !SetKeyFacts.eq_iff, E by done.
Qed.

Lemma setkey_hash_exact_witness :
  eq (VPrim (PInt 0)) (VPrim (PDouble (2^63))) = true ∧
  hash SetKeyFacts.plain_bytes (VPrim (PInt 0)) = hash SetKeyFacts.plain_bytes (VPrim (PDouble (2^63))).
Proof.
  assert (wf (VPrim (PInt 0))) as H1 by (split; lia).
  assert (wf (VPrim (PDouble (2^63)))) as H2 by (split; [done|intros H; vm_compute in H; discriminate H]).
  destruct (setkey_hash_exact SetKeyFacts.plain_bytes (VPrim (PInt 0)) (VPrim (PDouble (2^63))) (VPrim (PInt 0)) SetKeyFacts.plain_inj H1 H2 H1) as ([H _] & _).
  split; [vm_compute; reflexivity|]. apply H. vm_compute. reflexivity.
Defined.
