(* ===== verification/Collections.v ===== *)
(** * Map and Set (crates/oxide_builtins/src/map.rs, set.rs, iterator.rs)

    A Map keeps a table of slots in insertion order, with holes, and an index
    from keys to slots; a Set keeps a third-party [indexmap::IndexSet].  User
    code may call any method of a collection from the callback of [forEach] or
    of [getOrInsertComputed], and between two steps of an iterator.

    [Prog] is the type of such user code for one collection: a tree of calls
    whose continuations receive the answers.  [Machine] is what a collection
    offers to it (the interface); [run] executes a program on any machine.  The
    code's machines are [map_machine] and [set_machine]; those of the
    specification, [map_data] and [set_data], hold an ordered list of entries
    as the standard does, in which a deleted entry leaves an empty place and a
    clear empties every place.  Keys are compared by SameValueZero and kept as
    given: where ECMA-262 turns the key -0 of a Map into +0, [map_data] keeps
    -0, as the code does.  [fuel] bounds the rounds of each [forEach] loop; [run] gives [None]
    when it runs out, when the code panics, or, on a specification, when a
    call is not [calm].

    The keys and values are those of an instance of [JsKeys].  The methods are
    modelled for one receiver that is the collection itself and for receivers
    of every wrong sort. *)

From stdpp Require Import base tactics numbers list option strings.
From Stdlib Require Import ZArith Lia.
From S2P Require Import Prelude Value Float Coercion SetKey.

Open Scope nat_scope.

(** What the collections use of a value. *)
Class JsKeys (J : Type) := {
  key_eq : J → J → bool;
  undefined : J;
  of_bool : bool → J;
  of_f64 : N → J;
  plus_zero : J → J;
  normalize_neg_zero : J → J;
  truthy : J → bool;
}.

Class JsKeysLaws (J : Type) `{JsKeys J} := {
  key_refl a : key_eq a a = true;
  key_sym a b : key_eq a b = key_eq b a;
  key_trans a b c : key_eq a b = true → key_eq a c = key_eq b c;
  key_plus_zero a : key_eq (plus_zero a) a = true;
  key_neg_zero a : key_eq (normalize_neg_zero a) a = true;
  truthy_bool b : truthy (of_bool b) = b;
}.

(** Native results: a value, or an exception that the caller may catch.  [NMiss]
    is the answer of the first lookup of [getOrInsertComputed] when it finds
    nothing. *)
Inductive Exn (J : Type) := Thrown (v : J) | TypeError (msg : string).
Arguments Thrown {J} v.
Arguments TypeError {J} msg.

Inductive NativeResult (J : Type) := NOk (v : J) | NErr (e : Exn J) | NMiss.
Arguments NOk {J} v.
Arguments NErr {J} e.
Arguments NMiss {J}.

(** The receiver of a method call. *)
Inductive Receiver := RThis | RNotObject | RNullPtr | ROther | RNullData.

(** One round of a [forEach] loop finds the end, a hole, or an entry. *)
Inductive Peek (J : Type) := Stop | Hole | Live (k v : J).
Arguments Stop {J}.
Arguments Hole {J}.
Arguments Live {J} k v.

Inductive MapSetMode := MapEntries | MapValues | MapKeys | SetValues | SetEntries.

(** What an iterator step gives: a fresh pair, or a value. *)
Inductive Product (J : Type) := Pair (a b : J) | One (a : J).
Arguments Pair {J} a b.
Arguments One {J} a.

Definition produce {J} (mode : MapSetMode) (e : J * J) : Product J :=
  match mode with
  | MapEntries | SetEntries => Pair e.1 e.2
  | MapValues => One e.2
  | MapKeys | SetValues => One e.1
  end.

(** ** Programs and machines *)

Inductive Prog (J Op : Type) :=
  | Return (r : NativeResult J)
  | Call (r : Receiver) (o : Op) (k : NativeResult J → Prog J Op)
  | ForEach (r : Receiver) (callable : bool) (callback : J → J → Prog J Op) (k : NativeResult J → Prog J Op)
  | Iterate (r : Receiver) (mode : MapSetMode) (k : NativeResult J + nat → Prog J Op)
  | Next (it : nat) (k : option (Product J) → Prog J Op).
Arguments Return {J Op} r.
Arguments Call {J Op} r o k.
Arguments ForEach {J Op} r callable callback k.
Arguments Iterate {J Op} r mode k.
Arguments Next {J Op} it k.

Fixpoint bind {J Op} (p : Prog J Op) (g : NativeResult J → Prog J Op) : Prog J Op :=
  match p with
  | Return r => g r
  | Call r o k => Call r o (λ a, bind (k a) g)
  | ForEach r callable cb k => ForEach r callable cb (λ a, bind (k a) g)
  | Iterate r mode k => Iterate r mode (λ a, bind (k a) g)
  | Next it k => Next it (λ a, bind (k a) g)
  end.

Class Machine (J Op T Cur : Type) := {
  check : Receiver → option (Exn J);
  perform : Op → T → res (NativeResult J * T);
  round : nat → T → Peek J;
  start : Cur;
  advance : Cur → T → option (J * J) * Cur;
  calm : Op → T → list nat → list Cur → bool;
}.

Record World (T Cur : Type) := mk_world { coll : T; iters : list (MapSetMode * Cur) }.
Arguments mk_world {T Cur} _ _.
Arguments coll {T Cur} _.
Arguments iters {T Cur} _.

Definition not_callable {J} : NativeResult J := NErr (TypeError "callback is not a function").

Section run.
Context {J Op T Cur : Type} `{JsKeys J} `{M : Machine J Op T Cur}.
Notation world := (World T Cur).

(** The loop of [forEach]: the table is read again in every round, [index] is the
    next place to look at. *)
Fixpoint for_each (call : nat → J → J → world → option (NativeResult J * world)) (fuel : nat) (index : nat) (w : world) :
    option (NativeResult J * world) :=
  match fuel with
  | O => None
  | S fuel =>
      match round index (coll w) with
      | Stop => Some (NOk undefined, w)
      | Hole => for_each call fuel (S index) w
      | Live k v =>
          match call (S index) k v w with
          | Some (NErr e, w') => Some (NErr e, w')
          | Some (_, w') => for_each call fuel (S index) w'
          | None => None
          end
      end
  end.

(** [frames] holds the places the enclosing loops of [forEach] have reached. *)
Fixpoint run (fuel : nat) (p : Prog J Op) (frames : list nat) (w : world) : option (NativeResult J * world) :=
  match p with
  | Return r => Some (r, w)
  | Call r o k =>
      match check r with
      | Some e => run fuel (k (NErr e)) frames w
      | None =>
          if calm o (coll w) frames (snd <$> iters w) then
            match perform o (coll w) with
            | Ok (a, t) => run fuel (k a) frames (mk_world t (iters w))
            | _ => None
            end
          else None
      end
  | ForEach r callable callback k =>
      match check r with
      | Some e => run fuel (k (NErr e)) frames w
      | None =>
          if callable then
            match for_each (λ i key v w, run fuel (callback v key) (i :: frames) w) fuel 0 w with
            | Some (a, w') => run fuel (k a) frames w'
            | None => None
            end
          else run fuel (k not_callable) frames w
      end
  | Iterate r mode k =>
      match check r with
      | Some e => run fuel (k (inl (NErr e))) frames w
      | None => run fuel (k (inr (length (iters w)))) frames (mk_world (coll w) (iters w ++ [(mode, start)]))
      end
  | Next it k =>
      match iters w !! it with
      | None => run fuel (k None) frames w
      | Some (mode, c) =>
          let '(e, c') := advance c (coll w) in
          run fuel (k (produce mode <$> e)) frames (mk_world (coll w) (<[it := (mode, c')]> (iters w)))
      end
  end.
End run.

(** ** Hash tables: [std::collections::HashMap] as a list of entries *)

Section hash_map.
Context {J A : Type} `{JsKeys J}.

Fixpoint hm_get (k : J) (l : list (J * A)) : option A :=
  match l with
  | [] => None
  | (k', a) :: l => if key_eq k k' then Some a else hm_get k l
  end.

(** An insertion keeps the key that is there. *)
Fixpoint hm_insert (k : J) (a : A) (l : list (J * A)) : list (J * A) :=
  match l with
  | [] => [(k, a)]
  | (k', a') :: l => if key_eq k k' then (k', a) :: l else (k', a') :: hm_insert k a l
  end.

Fixpoint hm_remove (k : J) (l : list (J * A)) : option A * list (J * A) :=
  match l with
  | [] => (None, [])
  | (k', a) :: l => if key_eq k k' then (Some a, l) else let '(r, l') := hm_remove k l in (r, (k', a) :: l')
  end.
End hash_map.

(** ** [MapInner] *)

Record MapInner (J : Type) := mk_map { slots : list (option (J * J)); index : list (J * nat) }.
Arguments mk_map {J} _ _.
Arguments slots {J} _.
Arguments index {J} _.

Inductive MapOp (J : Type) :=
  | MSet (k v : J) | MGet (k : J) | MGetOrInsert (k v : J) | MProbe (k : J) | MStore (k v : J)
  | MHas (k : J) | MDelete (k : J) | MClear | MSize.
Arguments MSet {J} k v.
Arguments MGet {J} k.
Arguments MGetOrInsert {J} k v.
Arguments MProbe {J} k.
Arguments MStore {J} k v.
Arguments MHas {J} k.
Arguments MDelete {J} k.
Arguments MClear {J}.
Arguments MSize {J}.

(** [x as i32] of a count, and the sentinel of a finished iterator. *)
Definition as_i32 (n : nat) : Z := u32_to_i32 (u32 (N.of_nat n)).
Definition FINISHED : Z := (2^31 - 1)%Z.
Definition cursor_index (c : Z) : nat := Z.to_nat (Z.max c 0).

Module MapInner.
Section ops.
Context {J : Type} `{JsKeys J}.
Notation map := (MapInner J).

Definition new : map := mk_map [] [].
Definition len (m : map) : nat := length (index m).
Definition slot_count (m : map) : nat := length (slots m).
Definition slot (m : map) (i : nat) : option (J * J) := mjoin (slots m !! i).
Definition iter (m : map) : list (J * J) := omap id (slots m).

Definition get (m : map) (k : J) : res (option J) :=
  match hm_get k (index m) with
  | None => Ok None
  | Some i => let* s := vec_get (slots m) i in match s with Some e => Ok (Some e.2) | None => Panic end
  end.

(** [get_mut] and the write through the reference it gives. *)
Definition get_mut (m : map) (k v : J) : res (option map) :=
  match hm_get k (index m) with
  | None => Ok None
  | Some i =>
      let* s := vec_get (slots m) i in
      Ok (match s with Some e => Some (mk_map (<[i := Some (e.1, v)]> (slots m)) (index m)) | None => None end)
  end.

Definition insert (m : map) (k v : J) : res map :=
  match hm_get k (index m) with
  | Some i =>
      let* s := vec_get (slots m) i in
      match s with Some e => Ok (mk_map (<[i := Some (e.1, v)]> (slots m)) (index m)) | None => Panic end
  | None => Ok (mk_map (slots m ++ [Some (k, v)]) (hm_insert k (length (slots m)) (index m)))
  end.

Definition remove (m : map) (k : J) : res (bool * map) :=
  match hm_remove k (index m) with
  | (None, _) => Ok (false, m)
  | (Some i, index') => let* s := vec_set (slots m) i None in Ok (true, mk_map s index')
  end.

Definition contains (m : map) (k : J) : bool := match hm_get k (index m) with Some _ => true | None => false end.
Definition clear (m : map) : map := mk_map [] [].

(** *** The methods *)

Variable this : J.
Notation outcome := (res (NativeResult J * map)).

Definition get_map_inner (r : Receiver) : option (Exn J) :=
  match r with
  | RThis => None
  | RNotObject => Some (TypeError "called on non-Map object")
  | RNullPtr | RNullData => Some (TypeError "Map internal state invalid")
  | ROther => Some (TypeError "Map.prototype method called on incompatible receiver")
  end.

Definition map_set (k v : J) (m : map) : outcome := let* m' := insert m k v in Ok (NOk this, m').

Definition map_get (k : J) (m : map) : outcome :=
  let* found := get m k in Ok (NOk (default undefined found), m).

Definition map_get_or_insert (k v : J) (m : map) : outcome :=
  let* found := get m k in
  match found with
  | Some existing => Ok (NOk existing, m)
  | None => let* m' := insert m k v in Ok (NOk v, m')
  end.

(** The two halves of [getOrInsertComputed] around the callback. *)
Definition probe (k : J) (m : map) : outcome :=
  let* found := get m k in Ok (match found with Some existing => NOk existing | None => NMiss end, m).

Definition store (k v : J) (m : map) : outcome :=
  let* written := get_mut m k v in
  match written with
  | Some m' => Ok (NOk v, m')
  | None => let* m' := insert m k v in Ok (NOk v, m')
  end.

Definition map_has (k : J) (m : map) : outcome := Ok (NOk (of_bool (contains m k)), m).
Definition map_delete (k : J) (m : map) : outcome := let* r := remove m k in Ok (NOk (of_bool r.1), r.2).
Definition map_clear (m : map) : outcome := Ok (NOk undefined, clear m).
Definition map_size (m : map) : outcome := Ok (NOk (of_f64 (F64.of_Z (Z.of_nat (len m)))), m).

Definition map_op (o : MapOp J) : map → outcome :=
  match o with
  | MSet k v => map_set k v
  | MGet k => map_get k
  | MGetOrInsert k v => map_get_or_insert k v
  | MProbe k => probe k
  | MStore k v => store k v
  | MHas k => map_has k
  | MDelete k => map_delete k
  | MClear => map_clear
  | MSize => map_size
  end.

(** One round of [map_for_each]. *)
Definition map_round (i : nat) (m : map) : Peek J :=
  if decide (slot_count m ≤ i) then Stop else match slot m i with Some e => Live e.1 e.2 | None => Hole end.

(** The inner loop of [map_set_step_core]: the first live slot at or after [i]. *)
Fixpoint scan_slots (l : list (option (J * J))) (i : nat) : option (nat * (J * J)) :=
  match l with
  | [] => None
  | Some e :: _ => Some (i, e)
  | None :: l => scan_slots l (S i)
  end.

Definition map_step_core (cursor : Z) (m : map) : option (J * J) * Z :=
  let i := cursor_index cursor in
  match scan_slots (drop i (slots m)) i with
  | Some (j, e) => (Some e, as_i32 (S j))
  | None => (None, FINISHED)
  end.
End ops.
End MapInner.

#[export] Instance map_machine {J} `{JsKeys J} (this : J) : Machine J (MapOp J) (MapInner J) Z := {|
  check := MapInner.get_map_inner;
  perform := MapInner.map_op this;
  round := MapInner.map_round;
  start := 0%Z;
  advance := MapInner.map_step_core;
  calm := λ _ _ _ _, true;
|}.

(** [map_get_or_insert_computed]: the callback runs between the two halves. *)
Definition map_get_or_insert_computed {J} `{JsKeys J} (r : Receiver) (key : J) (callable : bool) (callback : J → Prog J (MapOp J))
    (k : NativeResult J → Prog J (MapOp J)) : Prog J (MapOp J) :=
  match MapInner.get_map_inner r with
  | Some e => k (NErr e)
  | None =>
      if callable then
        let key := plus_zero key in
        Call r (MProbe key) (λ found,
          match found with
          | NMiss => bind (callback key) (λ a, match a with NOk v => Call r (MStore key v) k | _ => k a end)
          | _ => k found
          end)
      else k not_callable
  end.

(** ** Set *)

(** The third-party [indexmap::IndexSet]. *)
Class IndexSet (J S : Type) := {
  is_new : S;
  is_insert : J → S → S;
  is_contains : J → S → bool;
  is_shift_remove : J → S → bool * S;
  is_clear : S → S;
  is_len : S → nat;
  is_get_index : nat → S → option J;
  is_iter : S → list J;
}.

(** Its documented behaviour, by the elements in order of insertion. *)
Class IndexSetLaws (J S : Type) `{JsKeys J} `{IndexSet J S} := {
  iter_new : is_iter is_new = @nil J;
  iter_insert v s : is_iter (is_insert v s) = if existsb (key_eq v) (is_iter s) then is_iter s else is_iter s ++ [v];
  contains_iter v s : is_contains v s = existsb (key_eq v) (is_iter s);
  shift_remove_found v s : (is_shift_remove v s).1 = existsb (key_eq v) (is_iter s);
  shift_remove_iter v s : is_iter (is_shift_remove v s).2 = filter (λ x, key_eq v x = false) (is_iter s);
  iter_clear s : is_iter (is_clear s) = [];
  len_iter s : is_len s = length (is_iter s);
  get_index_iter i s : is_get_index i s = is_iter s !! i;
}.

Inductive SetOp (J : Type) := SAdd (v : J) | SHas (v : J) | SDelete (v : J) | SClear | SSize.
Arguments SAdd {J} v.
Arguments SHas {J} v.
Arguments SDelete {J} v.
Arguments SClear {J}.
Arguments SSize {J}.

Module SetInner.
Section ops.
Context {J S : Type} `{JsKeys J} `{IndexSet J S}.
Variable this : J.
Notation outcome := (res (NativeResult J * S)).

Definition get_set_inner (r : Receiver) : option (Exn J) :=
  match r with
  | RThis => None
  | RNotObject => Some (TypeError "called on non-Set object")
  | RNullPtr | RNullData => Some (TypeError "Set internal state invalid")
  | ROther => Some (TypeError "Set.prototype.add called on incompatible receiver")
  end.

Definition set_add (v : J) (s : S) : outcome := Ok (NOk this, is_insert v s).
Definition set_has (v : J) (s : S) : outcome := Ok (NOk (of_bool (is_contains v s)), s).
Definition set_delete (v : J) (s : S) : outcome := let r := is_shift_remove v s in Ok (NOk (of_bool r.1), r.2).
Definition set_clear (s : S) : outcome := Ok (NOk undefined, is_clear s).
Definition set_size (s : S) : outcome := Ok (NOk (of_f64 (F64.of_Z (Z.of_nat (is_len s)))), s).

Definition set_op (o : SetOp J) : S → outcome :=
  match o with
  | SAdd v => set_add v
  | SHas v => set_has v
  | SDelete v => set_delete v
  | SClear => set_clear
  | SSize => set_size
  end.

(** One round of [set_for_each]. *)
Definition set_round (i : nat) (s : S) : Peek J :=
  match is_get_index i s with Some v => Live v v | None => Stop end.

Definition set_step_core (cursor : Z) (s : S) : option (J * J) * Z :=
  let i := cursor_index cursor in
  match is_get_index i s with
  | Some v => (Some (v, v), as_i32 (i + 1))
  | None => (None, FINISHED)
  end.
End ops.
End SetInner.

#[export] Instance set_machine {J S} `{JsKeys J} `{IndexSet J S} (this : J) : Machine J (SetOp J) S Z := {|
  check := SetInner.get_set_inner;
  perform := SetInner.set_op this;
  round := SetInner.set_round;
  start := 0%Z;
  advance := SetInner.set_step_core;
  calm := λ _ _ _ _, true;
|}.

(** ** The collections as ordered lists *)

Section data.
Context {J E : Type} `{JsKeys J}.
Variable key_of : E → J.

(** The place of the entry with key [k]. *)
Fixpoint data_find (k : J) (d : list (option E)) : option (nat * E) :=
  match d with
  | [] => None
  | Some e :: d =>
      if key_eq k (key_of e) then Some (0, e)
      else match data_find k d with Some (i, e') => Some (S i, e') | None => None end
  | None :: d => match data_find k d with Some (i, e') => Some (S i, e') | None => None end
  end.

Definition data_round (entry : E → J * J) (i : nat) (d : list (option E)) : Peek J :=
  match d !! i with
  | None => Stop
  | Some None => Hole
  | Some (Some e) => Live (entry e).1 (entry e).2
  end.

Fixpoint next_live (d : list (option E)) (i : nat) : option (nat * E) :=
  match d with
  | [] => None
  | Some e :: _ => Some (i, e)
  | None :: d => next_live d (S i)
  end.

(** An iterator that has finished stays so. *)
Definition data_advance (entry : E → J * J) (c : option nat) (d : list (option E)) : option (J * J) * option nat :=
  match c with
  | None => (None, None)
  | Some i => match next_live (drop i d) i with Some (j, e) => (Some (entry e), Some (S j)) | None => (None, None) end
  end.

(** A call is calm when the table holds fewer than 2^31 - 1 places and it takes
    nothing away from behind a scan that is under way. *)
Definition roomy (d : list (option E)) : bool := (Z.of_nat (length d) <? FINISHED)%Z.
Definition places (frames : list nat) (curs : list (option nat)) : list nat := frames ++ omap id curs.
End data.

Section map_data.
Context {J : Type} `{JsKeys J}.
Variable this : J.
Notation data := (list (option (J * J))).
Notation outcome := (res (NativeResult J * data)).

Definition data_set (k v : J) (d : data) : data :=
  match data_find fst k d with Some (i, e) => <[i := Some (e.1, v)]> d | None => d ++ [Some (k, v)] end.

Definition data_get (k : J) (d : data) : option J := match data_find fst k d with Some (_, e) => Some e.2 | None => None end.

Definition data_op (o : MapOp J) (d : data) : outcome :=
  match o with
  | MSet k v => Ok (NOk this, data_set k v d)
  | MGet k => Ok (NOk (default undefined (data_get k d)), d)
  | MGetOrInsert k v => match data_get k d with Some x => Ok (NOk x, d) | None => Ok (NOk v, data_set k v d) end
  | MProbe k => match data_get k d with Some x => Ok (NOk x, d) | None => Ok (NMiss, d) end
  | MStore k v => Ok (NOk v, data_set k v d)
  | MHas k => Ok (NOk (of_bool (match data_get k d with Some _ => true | None => false end)), d)
  | MDelete k =>
      match data_find fst k d with Some (i, _) => Ok (NOk (of_bool true), <[i := None]> d) | None => Ok (NOk (of_bool false), d) end
  | MClear => Ok (NOk undefined, (λ _, None) <$> d)
  | MSize => Ok (NOk (of_f64 (F64.of_Z (Z.of_nat (length (omap id d))))), d)
  end.

(** A Map may be cleared while no scan has begun. *)
Definition map_calm (o : MapOp J) (d : data) (frames : list nat) (curs : list (option nat)) : bool :=
  roomy d && match o with MClear => forallb (λ j, bool_decide (j = 0)) (places frames curs) | _ => true end.
End map_data.

(** The Map as an ordered list of entries; keys are kept as given, -0 included. *)
Definition map_data {J} `{JsKeys J} (this : J) : Machine J (MapOp J) (list (option (J * J))) (option nat) := {|
  check := MapInner.get_map_inner;
  perform := data_op this;
  round := data_round id;
  start := Some 0;
  advance := data_advance id;
  calm := map_calm;
|}.

Section set_data.
Context {J : Type} `{JsKeys J}.
Variable this : J.
Notation data := (list (option J)).

Definition set_data_op (o : SetOp J) (d : data) : res (NativeResult J * data) :=
  match o with
  | SAdd v => Ok (NOk this, match data_find id v d with Some _ => d | None => d ++ [Some v] end)
  | SHas v => Ok (NOk (of_bool (match data_find id v d with Some _ => true | None => false end)), d)
  | SDelete v =>
      match data_find id v d with Some (i, _) => Ok (NOk (of_bool true), <[i := None]> d) | None => Ok (NOk (of_bool false), d) end
  | SClear => Ok (NOk undefined, (λ _, None) <$> d)
  | SSize => Ok (NOk (of_f64 (F64.of_Z (Z.of_nat (length (omap id d))))), d)
  end.

(** Nothing that a scan has passed may be deleted while the scan is under way. *)
Definition set_calm (o : SetOp J) (d : data) (frames : list nat) (curs : list (option nat)) : bool :=
  roomy d &&
  match o with
  | SDelete v =>
      match data_find id v d with Some (i, _) => forallb (λ j, bool_decide (j ≤ i)) (places frames curs) | None => true end
  | SClear => forallb (λ j, bool_decide (omap id (take j d) = [])) (places frames curs)
  | _ => true
  end.
End set_data.

Definition set_data {J} `{JsKeys J} (this : J) : Machine J (SetOp J) (list (option J)) (option nat) := {|
  check := SetInner.get_set_inner;
  perform := set_data_op this;
  round := data_round (λ v, (v, v));
  start := Some 0;
  advance := data_advance (λ v, (v, v));
  calm := set_calm;
|}.

(** A specification without its gate. *)
Definition ungated {J Op T Cur} (A : Machine J Op T Cur) : Machine J Op T Cur := {|
  check := check;
  perform := perform;
  round := round;
  start := start;
  advance := advance;
  calm := λ _ _ _ _, true;
|}.

(** ** The operations of two sets *)

(** What a method finds on its argument: the answers of the gets and
    conversions in the order in which they are made. *)
Record Other (J : Type) := mk_other {
  other_is_object : bool;
  other_size : Exn J + N;
  other_has : Exn J + option (J → Exn J + J);
  other_keys : Exn J + option (list (Exn J + J));
}.
Arguments mk_other {J} _ _ _ _.
Arguments other_is_object {J} _.
Arguments other_size {J} _.
Arguments other_has {J} _.
Arguments other_keys {J} _.

(** A record: its [has], and what the successive [next] calls of its [keys]
    iterator give (a value or an exception; then it is done). *)
Record SetRecord (J : Type) := mk_record { rec_size : N; rec_has : J → Exn J + J; rec_keys : list (Exn J + J) }.
Arguments mk_record {J} _ _ _.
Arguments rec_size {J} _.
Arguments rec_has {J} _.
Arguments rec_keys {J} _.

Inductive KeysFlow := Continue | Stopped.

Module SetOps.
Section set_ops.
Context {J S : Type} `{JsKeys J} `{IndexSet J S}.
Notation "'try' x ':=' c 'in' k" := (match c with inl e => inl e | inr x => k end) (at level 10, x pattern, c at level 100, k at level 200).

Definition get_set_record (o : Other J) : Exn J + SetRecord J :=
  if negb (other_is_object o) then inl (TypeError "argument is not an object")
  else
    try size := other_size o in
    if F64.is_nan size then inl (TypeError "size must be a number")
    else
      try has := other_has o in
      match has with
      | None => inl (TypeError "has must be callable")
      | Some has =>
          try keys := other_keys o in
          match keys with
          | None => inl (TypeError "keys must be callable")
          | Some keys => inr (mk_record size has keys)
          end
      end.

(** The second component tells whether the iterator is closed. *)
Fixpoint iterate_record_keys {A} (f : A → J → A * KeysFlow) (keys : list (Exn J + J)) (acc : A) : (Exn J + A * KeysFlow) * bool :=
  match keys with
  | [] => (inr (acc, Continue), false)
  | inl e :: _ => (inl e, true)
  | inr v :: keys => match f acc v with (acc', Continue) => iterate_record_keys f keys acc' | (acc', Stopped) => (inr (acc', Stopped), true) end
  end.

(** A loop over the entries that calls [has] on each, until it decides. *)
Fixpoint ask {A} (has : J → Exn J + J) (f : A → J → bool → A * KeysFlow) (entries : list J) (acc : A) : Exn J + A :=
  match entries with
  | [] => inr acc
  | e :: entries =>
      try in_other := has e in
      match f acc e (truthy in_other) with (acc', Continue) => ask has f entries acc' | (acc', Stopped) => inr acc' end
  end.

Definition this_size (s : S) : N := F64.of_Z (Z.of_nat (is_len s)).

Definition set_union (s : S) (o : Other J) : Exn J + S :=
  try r := get_set_record o in
  try flow := (iterate_record_keys (λ result v, (is_insert (normalize_neg_zero v) result, Continue)) (rec_keys r) s).1 in
  inr flow.1.

Definition set_intersection (s : S) (o : Other J) : Exn J + S :=
  try r := get_set_record o in
  if F64.leb (this_size s) (rec_size r) then
    ask (rec_has r) (λ result e b, (if b then is_insert e result else result, Continue)) (is_iter s) is_new
  else
    try flow := (iterate_record_keys (λ result v, let v := normalize_neg_zero v in
      (if is_contains v s then is_insert v result else result, Continue)) (rec_keys r) is_new).1 in
    inr flow.1.

Definition set_difference (s : S) (o : Other J) : Exn J + S :=
  try r := get_set_record o in
  if F64.leb (this_size s) (rec_size r) then
    ask (rec_has r) (λ result e b, (if b then result else is_insert e result, Continue)) (is_iter s) is_new
  else
    let result := fold_left (λ result k, is_insert k result) (is_iter s) is_new in
    try flow := (iterate_record_keys (λ result v, ((is_shift_remove (normalize_neg_zero v) result).2, Continue)) (rec_keys r) result).1 in
    inr flow.1.

Definition set_symmetric_difference (s : S) (o : Other J) : Exn J + S :=
  try r := get_set_record o in
  try flow := (iterate_record_keys (λ result v, let key := normalize_neg_zero v in
    let removed := is_shift_remove key result in (if removed.1 then removed.2 else is_insert key removed.2, Continue)) (rec_keys r) s).1 in
  inr flow.1.

Definition set_is_subset_of (s : S) (o : Other J) : Exn J + bool :=
  try r := get_set_record o in
  if F64.ltb (rec_size r) (this_size s) then inr false
  else ask (rec_has r) (λ _ _ b, if b then (true, Continue) else (false, Stopped)) (is_iter s) true.

Definition set_is_superset_of (s : S) (o : Other J) : Exn J + bool :=
  try r := get_set_record o in
  if F64.ltb (this_size s) (rec_size r) then inr false
  else
    try flow := (iterate_record_keys (λ u v, (u, if is_contains (normalize_neg_zero v) s then Continue else Stopped)) (rec_keys r) tt).1 in
    inr (match flow.2 with Continue => true | Stopped => false end).

Definition set_is_disjoint_from (s : S) (o : Other J) : Exn J + bool :=
  try r := get_set_record o in
  if F64.leb (this_size s) (rec_size r) then
    ask (rec_has r) (λ _ _ b, if b then (false, Stopped) else (true, Continue)) (is_iter s) true
  else
    try flow := (iterate_record_keys (λ u v, (u, if is_contains (normalize_neg_zero v) s then Stopped else Continue)) (rec_keys r) tt).1 in
    inr (match flow.2 with Continue => true | Stopped => false end).
End set_ops.
End SetOps.

(** ** The values of the machine as keys *)

#[export] Existing Instance SetKey.wf_dec.

Definition Key : Type := dsig SetKey.wf.

Definition undefined_key : Key := dexist (VPrim PUndefined) I.

(** Every value the methods make is one the machine holds. *)
Definition key (v : Val) : Key := match decide (SetKey.wf v) with left Hv => dexist v Hv | right _ => undefined_key end.

#[export] Instance Key_keys : JsKeys Key := {|
  key_eq a b := SetKey.eq (proj1_sig a) (proj1_sig b);
  undefined := undefined_key;
  of_bool b := dexist (VPrim (PBool b)) I;
  of_f64 bits := key (VPrim (Coercion.float bits));
  plus_zero a := key (SetKey.plus_zero (proj1_sig a));
  normalize_neg_zero a := key (SetKey.normalize_neg_zero (proj1_sig a));
  truthy a := match proj1_sig a with VPrim p => Coercion.to_boolean p | VObj _ => true end;
|}.

(** A list as an [IndexSet]. *)
#[export] Instance list_index_set {J} `{JsKeys J} : IndexSet J (list J) := {|
  is_new := [];
  is_insert v l := if existsb (key_eq v) l then l else l ++ [v];
  is_contains v l := existsb (key_eq v) l;
  is_shift_remove v l := (existsb (key_eq v) l, filter (λ x, key_eq v x = false) l);
  is_clear _ := [];
  is_len := length;
  is_get_index i l := l !! i;
  is_iter l := l;
|}.
