(* ===== verification/CollectionsCorrect.v ===== *)
(** * Correctness of Map and Set

    A simulation between two machines carries over to all programs
    ([run_simulates]); [map_simulates] and [set_simulates] are the simulations
    between the code's tables and the ordered lists of entries.  The last part
    holds the programs on which a clear or a deletion behind a scan makes the
    two differ. *)

From stdpp Require Import base tactics numbers list option strings.
From Stdlib Require Import ZArith Lia.
From S2P Require Import Prelude Value Float Coercion SetKey Collections.

Open Scope nat_scope.

(** ** Simulation of machines *)

Section simulation.
Context {J Op T S C D : Type} `{JsKeys J} (I : Machine J Op T C) (A : Machine J Op S D).

(** [F] relates the places of [forEach] loops, [G] the cursors of iterators. *)
Class Simulates (R : T → S → Prop) (F : T → S → nat → nat → Prop) (G : T → S → C → D → Prop) : Prop := {
  sim_check r : check (Machine := I) r = check (Machine := A) r;
  sim_start t s : R t s → F t s 0 0 ∧ G t s start start;
  sim_perform o t s fs fs' gs gs' : R t s → Forall2 (F t s) fs fs' → Forall2 (G t s) gs gs' → calm (Machine := A) o s fs' gs' = true →
    calm (Machine := I) o t fs gs = true ∧
    ∃ a t' s', perform (Machine := I) o t = Ok (a, t') ∧ perform (Machine := A) o s = Ok (a, s') ∧
      R t' s' ∧ Forall2 (F t' s') fs fs' ∧ Forall2 (G t' s') gs gs';
  sim_round t s i j : R t s → F t s i j →
    match round (Machine := A) j s with
    | Stop => round (Machine := I) i t = Stop
    | Hole => F t s i (Datatypes.S j) ∨ (round (Machine := I) i t = Hole ∧ F t s (Datatypes.S i) (Datatypes.S j))
    | Live k v => round (Machine := I) i t = Live k v ∧ F t s (Datatypes.S i) (Datatypes.S j)
    end;
  sim_advance t s c d : R t s → G t s c d →
    (advance (Machine := I) c t).1 = (advance (Machine := A) d s).1 ∧
    G t s (advance (Machine := I) c t).2 (advance (Machine := A) d s).2;
}.

Context R F G `{Sim : !Simulates R F G}.

Definition same_iters (t : T) (s : S) : list (MapSetMode * C) → list (MapSetMode * D) → Prop :=
  Forall2 (λ x y, x.1 = y.1 ∧ G t s x.2 y.2).

(** Worlds and the loops around them. *)
Definition related (fs fs' : list nat) (w : World T C) (w' : World S D) : Prop :=
  R (coll w) (coll w') ∧ same_iters (coll w) (coll w') (iters w) (iters w') ∧ Forall2 (F (coll w) (coll w')) fs fs'.

Lemma same_iters_cursors t s l l' : same_iters t s l l' → Forall2 (G t s) (snd <$> l) (snd <$> l').
Proof. intros Hl. apply Forall2_fmap. eapply Forall2_impl; [exact Hl|]. by intros x y [_ ?]. Qed.

Lemma same_iters_move t s t' s' l l' : same_iters t s l l' → Forall2 (G t' s') (snd <$> l) (snd <$> l') → same_iters t' s' l l'.
Proof.
  intros Hl. induction Hl as [|x y l l' [Hm _] Hl IH]; cbn; intros Hc; [constructor|]. inversion Hc; subst. constructor; [done|by apply IH].
Qed.

Lemma related_cons i j fs fs' w w' : related (i :: fs) (j :: fs') w w' ↔ F (coll w) (coll w') i j ∧ related fs fs' w w'.
Proof. unfold related. rewrite Forall2_cons. naive_solver. Qed.

(** More rounds do not change the result of a loop that ends. *)
Lemma for_each_more {T' C'} (M : Machine J Op T' C') call n : ∀ i (w : World T' C') x,
  for_each call n i w = Some x → for_each call (Datatypes.S n) i w = Some x.
Proof.
  induction n as [|n IH]; intros i w x; [done|]. cbn [for_each]. destruct (round i (coll w)) as [| |k v]; [done|apply IH|].
  destruct (call (Datatypes.S i) k v w) as [[[v'|e|] w1]|]; (done || apply IH).
Qed.

Lemma for_each_simulates call call' fs fs' n :
  (∀ i j k v w w' a w1', related (i :: fs) (j :: fs') w w' → call' j k v w' = Some (a, w1') →
     ∃ w1, call i k v w = Some (a, w1) ∧ related (i :: fs) (j :: fs') w1 w1') →
  ∀ i j w w' a w1', related (i :: fs) (j :: fs') w w' → for_each (M := A) call' n j w' = Some (a, w1') →
  ∃ w1, for_each (M := I) call n i w = Some (a, w1) ∧ related fs fs' w1 w1'.
Proof.
  intros Hcall. induction n as [|n IH]; intros i j w w' a w1' [Hij Hrel]%related_cons; [done|]. pose proof Hrel as [HR _].
  pose proof (sim_round _ _ i j HR Hij) as Hr. cbn [for_each]. destruct (round j (coll w')) as [| |k v] eqn:Ej.
  - intros [= <- <-]. rewrite Hr. by exists w.
  - intros E. destruct Hr as [Hs|[-> Hs]].
    + destruct (IH i (Datatypes.S j) w w' a w1') as (w1 & E1 & Hrel1); [by apply related_cons|done|].
      exists w1. split; [|done]. by apply for_each_more in E1.
    + apply (IH (Datatypes.S i) (Datatypes.S j) w w'); [by apply related_cons|done].
  - destruct Hr as [-> Hs]. destruct (call' (Datatypes.S j) k v w') as [[b w2']|] eqn:Ec; [|done].
    destruct (Hcall (Datatypes.S i) (Datatypes.S j) k v w w' b w2') as (w2 & -> & Hrel2); [by apply related_cons|done|].
    destruct b as [x|e|]; intros E; [by apply (IH _ _ w2 w2' a w1' Hrel2)| |by apply (IH _ _ w2 w2' a w1' Hrel2)].
    injection E as <- <-. exists w2. split; [done|]. by apply related_cons in Hrel2 as [_ ?].
Qed.

(** What a program does on the specification it does on the code. *)
Lemma run_simulates n p : ∀ fs fs' w w' a w1', related fs fs' w w' → run (M := A) n p fs' w' = Some (a, w1') →
  ∃ w1, run (M := I) n p fs w = Some (a, w1) ∧ related fs fs' w1 w1'.
Proof.
  induction p as [r|r o k IH|r callable cb IHcb k IH|r mode k IH|it k IH]; intros fs fs' w w' a w1' Hrel; cbn [run].
  - intros [= <- <-]. by exists w.
  - rewrite (sim_check r). destruct (check r) as [e|]; [by apply IH|]. destruct Hrel as (HR & Hi & Hf).
    destruct (calm o (coll w') fs' _) eqn:Ec; [|done].
    destruct (sim_perform o _ _ fs fs' _ _ HR Hf (same_iters_cursors _ _ _ _ Hi) Ec) as (-> & b & t' & s' & -> & -> & HR' & Hf' & Hg').
    apply IH. split_and!; [done| |done]. by eapply same_iters_move.
  - rewrite (sim_check r). destruct (check r) as [e|]; [by apply IH|]. destruct callable; [|by apply IH].
    destruct (for_each _ n 0 w') as [[b w2']|] eqn:El; [|done].
    destruct (for_each_simulates (λ i key v w, run n (cb v key) (i :: fs) w) (λ j key v w, run n (cb v key) (j :: fs') w) fs fs' n) with (3 := El) (i := 0) (w := w) as (w2 & -> & Hrel2).
    + intros i j key v w0 w0' b0 w1 Hrel0. by apply IHcb.
    + apply related_cons. split; [|done]. by destruct (sim_start _ _ (proj1 Hrel)).
    + by apply IH.
  - rewrite (sim_check r). destruct (check r) as [e|]; [by apply IH|]. destruct Hrel as (HR & Hi & Hf).
    rewrite (Forall2_length _ _ _ Hi). apply IH. split_and!; [done| |done]. cbn. apply Forall2_app; [done|].
    constructor; [|constructor]. split; [done|]. by destruct (sim_start _ _ HR).
  - destruct Hrel as (HR & Hi & Hf). destruct (iters w' !! it) as [[mode d]|] eqn:El.
    + destruct (Forall2_lookup_r _ _ _ _ _ Hi El) as ([mode' c] & -> & [Em Hc]). cbn in Em, Hc. subst mode'.
      destruct (sim_advance _ _ c d HR Hc) as [E1 E2]. destruct (advance c (coll w)) as [e c'], (advance d (coll w')) as [e' d']. cbn in E1, E2. subst e'.
      apply IH. split_and!; [done| |done]. by apply Forall2_insert.
    + assert (iters w !! it = None) as -> by (apply lookup_ge_None; rewrite (Forall2_length _ _ _ Hi); by apply lookup_ge_None).
      by apply IH.
Qed.
End simulation.

(** ** Lists of places *)

Section places.
Context {J E : Type} `{JsKeys J} (key_of : E → J).
Implicit Types d : list (option E).

Lemma data_find_lookup k d : ∀ i e, data_find key_of k d = Some (i, e) → d !! i = Some (Some e) ∧ key_eq k (key_of e) = true.
Proof.
  induction d as [|[x|] d IH]; intros i e; cbn [data_find]; [done| |].
  - destruct (key_eq k (key_of x)) eqn:Ek; [by intros [= <- <-]|]. destruct (data_find key_of k d) as [[i' e']|] eqn:Ed; [|done].
    intros [= <- <-]. by apply IH.
  - destruct (data_find key_of k d) as [[i' e']|] eqn:Ed; [|done]. intros [= <- <-]. by apply IH.
Qed.

Lemma data_find_empty k c d : data_find key_of k (replicate c None ++ d) = (λ x, (c + x.1, x.2)) <$> data_find key_of k d.
Proof.
  induction c as [|c IH]; cbn [replicate app data_find]; [by destruct (data_find key_of k d) as [[]|]|].
  rewrite IH. by destruct (data_find key_of k d) as [[]|].
Qed.

Lemma next_live_shift d : ∀ i c, next_live d (c + i) = (λ x, (c + x.1, x.2)) <$> next_live d i.
Proof.
  induction d as [|[e|] d IH]; intros i c; cbn [next_live]; [done..|]. by rewrite <- IH, Nat.add_succ_r.
Qed.

Lemma next_live_empty c d : ∀ i, next_live (replicate c None ++ d) i = next_live d (c + i).
Proof. induction c as [|c IH]; intros i; cbn [replicate app next_live]; [done|]. by rewrite IH, Nat.add_succ_r. Qed.

Lemma next_live_lookup d : ∀ i j e, next_live d i = Some (j, e) → i ≤ j ∧ d !! (j - i) = Some (Some e) ∧ omap id (take (j - i) d) = [].
Proof.
  induction d as [|[x|] d IH]; intros i j e; cbn [next_live]; [done| |].
  - intros [= <- <-]. by rewrite Nat.sub_diag.
  - intros (Hj & Hl & Ht)%IH. split; [lia|]. replace (j - i) with (S (j - S i)) by lia. done.
Qed.

Lemma next_live_none d : ∀ i, next_live d i = None → omap id d = [].
Proof. induction d as [|[x|] d IH]; intros i; cbn [next_live]; [done|done|apply IH]. Qed.

Lemma cleared_places d : (λ _, None) <$> d = replicate (length d) (@None E).
Proof. induction d as [|x d IH]; cbn; [done|]. by rewrite IH. Qed.
End places.

Lemma scan_slots_live {J} (l : list (option (J * J))) i : MapInner.scan_slots l i = next_live l i.
Proof. revert i. induction l as [|[e|] l IH]; intros i; cbn; [done..|apply IH]. Qed.

Lemma as_i32_small n : (Z.of_nat n ≤ FINISHED)%Z → as_i32 n = Z.of_nat n.
Proof.
  unfold as_i32, u32_to_i32, u32, FINISHED. intros Hn. rewrite N.mod_small by lia.
  destruct (_ <? _)%N eqn:E; [lia|]. apply N.ltb_ge in E. lia.
Qed.

Lemma cursor_of_nat n : (Z.of_nat n ≤ FINISHED)%Z → cursor_index (as_i32 n) = n.
Proof. intros Hn. rewrite as_i32_small by done. unfold cursor_index. lia. Qed.

(** ** Map *)

Section map.
Context {J : Type} `{JsKeys J} (this : J).
Notation map := (MapInner J).
Notation data := (list (option (J * J))).

(** The index lists the live slots in order. *)
Fixpoint live_index (n : nat) (l : data) : list (J * nat) :=
  match l with
  | [] => []
  | Some e :: l => (e.1, n) :: live_index (S n) l
  | None :: l => live_index (S n) l
  end.

Definition map_ok (m : map) : Prop := index m = live_index 0 (slots m).

Lemma get_live k l : ∀ n, hm_get k (live_index n l) = (λ x, n + x.1) <$> data_find fst k l.
Proof.
  induction l as [|[e|] l IH]; intros n; cbn [live_index hm_get data_find]; [done| |].
  - destruct (key_eq k e.1); cbn; [by rewrite Nat.add_0_r|]. rewrite IH. destruct (data_find fst k l) as [[]|]; cbn; [|done]. f_equal. lia.
  - rewrite IH. destruct (data_find fst k l) as [[]|]; cbn; [|done]. f_equal. lia.
Qed.

Lemma live_overwrite l : ∀ n i e v, l !! i = Some (Some e) → live_index n (<[i := Some (e.1, v)]> l) = live_index n l.
Proof.
  induction l as [|x l IH]; intros n [|i] e v; cbn; [done..| |].
  - by intros [= ->].
  - intros Hi. destruct x; cbn [live_index]; by erewrite IH.
Qed.

Lemma live_app l l' : ∀ n, live_index n (l ++ l') = live_index n l ++ live_index (n + length l) l'.
Proof.
  induction l as [|[e|] l IH]; intros n; cbn [live_index app length]; [by rewrite Nat.add_0_r| |]; by rewrite IH, Nat.add_succ_r.
Qed.

Lemma insert_new {A} k (a : A) l : hm_get k l = None → hm_insert k a l = l ++ [(k, a)].
Proof.
  induction l as [|[k' a'] l IH]; cbn; [done|]. destruct (key_eq k k'); [done|]. intros E. by rewrite IH.
Qed.

Lemma remove_live k l : ∀ n, hm_remove k (live_index n l) =
  match data_find fst k l with Some (i, _) => (Some (n + i), live_index n (<[i := None]> l)) | None => (None, live_index n l) end.
Proof.
  induction l as [|[e|] l IH]; intros n; cbn [live_index hm_remove data_find]; [done| |].
  - destruct (key_eq k e.1); cbn; [by rewrite Nat.add_0_r|]. rewrite IH. destruct (data_find fst k l) as [[]|]; cbn; [|done]. by rewrite Nat.add_succ_r.
  - rewrite IH. destruct (data_find fst k l) as [[]|]; cbn; [|done]. by rewrite Nat.add_succ_r.
Qed.

Lemma live_length l : ∀ n, length (live_index n l) = length (omap id l).
Proof. induction l as [|[e|] l IH]; intros n; cbn; [done| |]; by rewrite IH. Qed.

(** *** The operations of [MapInner] on a sound table *)

Lemma map_get_ok m k : map_ok m → MapInner.get m k = Ok (data_get k (slots m)).
Proof.
  intros Hm. unfold MapInner.get, data_get. rewrite Hm, get_live. destruct (data_find fst k (slots m)) as [[i e]|] eqn:Ed; cbn; [|done].
  apply data_find_lookup in Ed as [Hl _]. apply vec_get_Ok in Hl. by rewrite Hl.
Qed.

Lemma insert_ok m k v : map_ok m → ∃ m', MapInner.insert m k v = Ok m' ∧ map_ok m' ∧ slots m' = data_set k v (slots m).
Proof.
  intros Hm. unfold MapInner.insert, data_set. rewrite Hm, get_live. destruct (data_find fst k (slots m)) as [[i e]|] eqn:Ed; cbn.
  - apply data_find_lookup in Ed as [Hl _]. pose proof Hl as Hv. apply vec_get_Ok in Hv. rewrite Hv. cbn.
    eexists. split_and!; [done| |done]. unfold map_ok. cbn. by rewrite (live_overwrite _ _ _ e).
  - eexists. split_and!; [done| |done]. unfold map_ok. cbn. rewrite live_app, insert_new; [done|]. by rewrite get_live, Ed.
Qed.

Lemma store_ok m k v : map_ok m → ∃ m', MapInner.store k v m = Ok (NOk v, m') ∧ map_ok m' ∧ slots m' = data_set k v (slots m).
Proof.
  intros Hm. destruct (insert_ok m k v Hm) as (m' & Ei & Hm' & Es). unfold MapInner.store, MapInner.get_mut. rewrite Hm, get_live.
  unfold data_set in *. destruct (data_find fst k (slots m)) as [[i e]|] eqn:Ed; cbn.
  - apply data_find_lookup in Ed as [Hl _]. pose proof Hl as Hv. apply vec_get_Ok in Hv. rewrite Hv. cbn.
    eexists. split_and!; [done| |done]. unfold map_ok. cbn. by rewrite (live_overwrite _ _ _ e).
  - rewrite Ei. by exists m'.
Qed.

Lemma remove_ok m k : map_ok m → ∃ b m', MapInner.remove m k = Ok (b, m') ∧ map_ok m' ∧
  match data_find fst k (slots m) with Some (i, _) => b = true ∧ slots m' = <[i := None]> (slots m) | None => b = false ∧ m' = m end.
Proof.
  intros Hm. unfold MapInner.remove. rewrite Hm, remove_live. destruct (data_find fst k (slots m)) as [[i e]|] eqn:Ed; cbn.
  - apply data_find_lookup in Ed as [Hl%lookup_lt_Some _]. rewrite vec_set_lt by done. cbn. by eexists _, _.
  - by eexists _, m.
Qed.

Lemma contains_ok m k : map_ok m → MapInner.contains m k = match data_get k (slots m) with Some _ => true | None => false end.
Proof.
  intros Hm. unfold MapInner.contains, data_get. rewrite Hm, get_live. by destruct (data_find fst k (slots m)) as [[]|].
Qed.
(** *** The simulation *)

(** The list of the specification keeps the places that a clear has emptied. *)
Definition pad (c : nat) (l : data) : data := replicate c None ++ l.

Definition map_rel (m : map) (d : data) : Prop :=
  map_ok m ∧ (∃ c, d = pad c (slots m)) ∧ (Z.of_nat (length d) ≤ FINISHED)%Z.

Definition map_at (m : map) (d : data) (i j : nat) : Prop :=
  let c := length d - length (slots m) in j = c + i ∨ (i = 0 ∧ j ≤ c).

Definition map_cursor (m : map) (d : data) (z : Z) (o : option nat) : Prop :=
  match o with None => z = FINISHED | Some j => map_at m d (cursor_index z) j end.

Lemma pad_length c l : length (pad c l) = c + length l.
Proof. unfold pad. by rewrite length_app, length_replicate. Qed.

Lemma pad_get c l k : data_get k (pad c l) = data_get k l.
Proof. unfold data_get, pad. rewrite data_find_empty. by destruct (data_find fst k l) as [[]|]. Qed.

Lemma pad_insert c l i x : <[c + i := x]> (pad c l) = pad c (<[i := x]> l).
Proof. unfold pad. rewrite insert_app_r_alt by (rewrite length_replicate; lia). rewrite length_replicate. do 2 f_equal. lia. Qed.

Lemma pad_set c l k v : data_set k v (pad c l) = pad c (data_set k v l).
Proof.
  unfold data_set. unfold pad at 1. rewrite data_find_empty. destruct (data_find fst k l) as [[i e]|]; cbn; [apply pad_insert|].
  unfold pad. by rewrite app_assoc.
Qed.

Lemma set_length k v (l : data) : length (data_set k v l) ≤ S (length l).
Proof. unfold data_set. destruct (data_find fst k l) as [[]|]; rewrite ?length_insert, ?length_app; cbn; lia. Qed.

Lemma pad_live c l : omap id (pad c l) = omap id l.
Proof. unfold pad. induction c as [|c IH]; [done|]. cbn. apply IH. Qed.

(** Every call but [clear] changes the slots and the list in the same way. *)
Lemma map_op_data o m c : map_ok m → o ≠ MClear →
  ∃ a m', MapInner.map_op this o m = Ok (a, m') ∧ data_op this o (pad c (slots m)) = Ok (a, pad c (slots m')) ∧ map_ok m' ∧ length (slots m') ≤ S (length (slots m)).
Proof.
  intros Hm Ho. pose proof (set_length) as Hlen.
  assert (∀ k v, ∃ m', MapInner.insert m k v = Ok m' ∧ map_ok m' ∧ data_set k v (pad c (slots m)) = pad c (slots m') ∧ length (slots m') ≤ S (length (slots m))) as Hset.
  { intros k v. destruct (insert_ok m k v Hm) as (m' & Ei & Hm' & Es). exists m'. rewrite pad_set, Es. eauto. }
  destruct o as [k v|k|k v|k|k v|k|k| |]; cbn [MapInner.map_op data_op]; rewrite ?pad_get; try done.
  - destruct (Hset k v) as (m' & Ei & Hm' & Es & Hl). unfold MapInner.map_set. rewrite Ei, Es. by exists (NOk this), m'.
  - unfold MapInner.map_get. rewrite map_get_ok by done. exists (NOk (default undefined (data_get k (slots m)))), m. split_and!; (done || lia).
  - unfold MapInner.map_get_or_insert. rewrite map_get_ok by done. destruct (data_get k (slots m)) as [x|]; cbn.
    + exists (NOk x), m. split_and!; (done || lia).
    + destruct (Hset k v) as (m' & Ei & Hm' & Es & Hl). rewrite Ei, Es. by exists (NOk v), m'.
  - unfold MapInner.probe. rewrite map_get_ok by done. destruct (data_get k (slots m)) as [x|]; cbn; eexists _, m; split_and!; (done || lia).
  - destruct (store_ok m k v Hm) as (m' & Ei & Hm' & Es). exists (NOk v), m'. rewrite pad_set, Es. split_and!; [done|done|done|apply Hlen].
  - unfold MapInner.map_has. rewrite contains_ok by done. eexists _, m. split_and!; (done || lia).
  - unfold MapInner.map_delete. destruct (remove_ok m k Hm) as (b & m' & Er & Hm' & Hd). rewrite Er. unfold pad at 1. rewrite data_find_empty.
    destruct (data_find fst k (slots m)) as [[i e]|]; cbn; destruct Hd as [-> Hs].
    + eexists _, m'. rewrite pad_insert, Hs, length_insert. split_and!; (done || lia).
    + subst m'. eexists _, m. split_and!; (done || lia).
  - unfold MapInner.map_size, MapInner.len. rewrite Hm, live_length, pad_live. eexists _, m. split_and!; (done || lia).
Qed.

Lemma map_at_zero m d j : map_at m d 0 j → j ≤ length d - length (slots m).
Proof. unfold map_at. lia. Qed.

Lemma map_perform o m d fs fs' gs gs' : map_rel m d → Forall2 (map_at m d) fs fs' → Forall2 (map_cursor m d) gs gs' → map_calm o d fs' gs' = true →
  ∃ a m' d', MapInner.map_op this o m = Ok (a, m') ∧ data_op this o d = Ok (a, d') ∧ map_rel m' d' ∧ Forall2 (map_at m' d') fs fs' ∧ Forall2 (map_cursor m' d') gs gs'.
Proof.
  intros (Hm & [c ->] & Hlen) Hf Hg [Hroom Hc]%andb_true_iff. unfold roomy in Hroom. apply Z.ltb_lt in Hroom.
  assert (o = MClear ∨ o ≠ MClear) as [->|Ho] by (destruct o; auto; right; discriminate).
  - exists (NOk undefined), (MapInner.clear m), (pad (c + length (slots m)) []). split_and!; [done| | | |].
    + cbn [data_op]. rewrite cleared_places, pad_length. unfold pad. by rewrite app_nil_r.
    + split_and!; [done|by eexists|]. rewrite pad_length in *. cbn [length]. lia.
    + unfold places in Hc. rewrite forallb_app in Hc. apply andb_true_iff in Hc as [Hc _]. induction Hf as [|i j fs fs' Hij Hf IH]; [constructor|].
      cbn in Hc. apply andb_true_iff in Hc as [->%bool_decide_eq_true Hc]. constructor; [|by apply IH]. unfold map_at in *. rewrite !pad_length in *. cbn in *. lia.
    + unfold places in Hc. rewrite forallb_app in Hc. apply andb_true_iff in Hc as [_ Hc]. clear Hf. induction Hg as [|z [j|] gs gs' Hz Hg IH]; [constructor| |].
      * cbn in Hc. apply andb_true_iff in Hc as [->%bool_decide_eq_true Hc]. constructor; [|by apply IH]. unfold map_cursor, map_at in *. rewrite !pad_length in *. cbn in *. lia.
      * cbn in Hc. constructor; [done|by apply IH].
  - destruct (map_op_data o m c Hm Ho) as (a & m' & E1 & E2 & Hm' & Hl). exists a, m', (pad c (slots m')).
    assert (∀ i j, map_at m (pad c (slots m)) i j → map_at m' (pad c (slots m')) i j) as Hat by (intros i j; unfold map_at; rewrite !pad_length; lia).
    split_and!; [done..| | |].
    + split_and!; [done|by exists c|]. rewrite pad_length in *. lia.
    + eapply Forall2_impl; [exact Hf|]. apply Hat.
    + eapply Forall2_impl; [exact Hg|]. intros z [j|]; cbn; [apply Hat|done].
Qed.

Lemma map_round_at m d i j : map_rel m d → map_at m d i j →
  match data_round id j d with
  | Stop => MapInner.map_round i m = Stop
  | Hole => map_at m d i (S j) ∨ (MapInner.map_round i m = Hole ∧ map_at m d (S i) (S j))
  | Live k v => MapInner.map_round i m = Live k v ∧ map_at m d (S i) (S j)
  end.
Proof.
  intros (_ & [c ->] & _) Hat. unfold data_round, MapInner.map_round, MapInner.slot, MapInner.slot_count, map_at in *. rewrite pad_length in *. unfold pad.
  destruct (decide (j < c)) as [Hj|Hj].
  - rewrite lookup_app_l, lookup_replicate_2 by (rewrite ?length_replicate; done). left. lia.
  - rewrite lookup_app_r, length_replicate by (rewrite length_replicate; lia). replace (j - c) with i by lia.
    destruct (slots m !! i) as [[e|]|] eqn:El; cbn.
    + pose proof (lookup_lt_Some _ _ _ El). rewrite decide_False by lia. split; [done|lia].
    + pose proof (lookup_lt_Some _ _ _ El). rewrite decide_False by lia. right. split; [done|lia].
    + apply lookup_ge_None in El. by rewrite decide_True by lia.
Qed.

Lemma map_advance m d z o : map_rel m d → map_cursor m d z o →
  (MapInner.map_step_core z m).1 = (data_advance id o d).1 ∧ map_cursor m d (MapInner.map_step_core z m).2 (data_advance id o d).2.
Proof.
  intros (_ & [c ->] & Hlen) Hz. unfold MapInner.map_step_core. rewrite scan_slots_live, pad_length in *. destruct o as [j|]; cbn [data_advance map_cursor] in *.
  - assert (next_live (drop j (pad c (slots m))) j = (λ x, (c + x.1, x.2)) <$> next_live (drop (cursor_index z) (slots m)) (cursor_index z)) as ->.
    { unfold map_at in Hz. rewrite pad_length in Hz. rewrite <- next_live_shift. unfold pad. destruct (decide (j ≤ c)) as [Hj|Hj].
      - rewrite drop_app_le, drop_replicate, next_live_empty by (rewrite length_replicate; lia). replace (cursor_index z) with 0 by lia. rewrite drop_0. f_equal. lia.
      - rewrite drop_app_ge, length_replicate by (rewrite length_replicate; lia). replace (j - c) with (cursor_index z) by lia. f_equal. lia. }
    destruct (next_live (drop (cursor_index z) (slots m)) (cursor_index z)) as [[i e]|] eqn:En; cbn; [|done]. split; [done|].
    apply next_live_lookup in En as (Hi & Hl & _). rewrite lookup_drop in Hl. apply lookup_lt_Some in Hl.
    rewrite cursor_of_nat by lia. unfold map_at. rewrite pad_length. lia.
  - subst z. rewrite drop_ge; [done|]. unfold cursor_index, FINISHED in *. lia.
Qed.

Lemma map_simulates : Simulates (map_machine this) (map_data this) map_rel map_at map_cursor.
Proof.
  split; cbn.
  - done.
  - intros m d Hrel. split; right; (split; [done|apply Nat.le_0_l]).
  - intros o m d fs fs' gs gs' HR Hf Hg Hc. split; [done|]. by apply map_perform.
  - intros. by apply map_round_at.
  - intros. by apply map_advance.
Qed.
End map.

(** ** Set *)

Section set.
Context {J S : Type} `{HK : JsKeys J, HL : !JsKeysLaws J} `{IS : IndexSet J S, JSL : !IndexSetLaws J S} (this : J).
Notation data := (list (option J)).
Implicit Types d : data.

(** No two elements have the same key. *)
Fixpoint distinct (l : list J) : Prop :=
  match l with [] => True | k :: l => Forall (λ k', key_eq k k' = false) l ∧ distinct l end.

Lemma found_live v d : existsb (key_eq v) (omap id d) = match data_find id v d with Some _ => true | None => false end.
Proof.
  induction d as [|[x|] d IH]; cbn; [done| |].
  - destruct (key_eq v x); cbn; [done|]. rewrite IH. by destruct (data_find id v d) as [[]|].
  - rewrite IH. by destruct (data_find id v d) as [[]|].
Qed.

Lemma filter_absent v l : Forall (λ x, key_eq v x = false) l → filter (λ x, key_eq v x = false) l = l.
Proof. induction 1 as [|x l Hx Hl IH]; [done|]. by rewrite filter_cons_True, IH. Qed.

Lemma absent_live v d : data_find id v d = None → Forall (λ x, key_eq v x = false) (omap id d).
Proof.
  induction d as [|[x|] d IH]; cbn; [by constructor| |].
  - destruct (key_eq v x) eqn:Ek; [done|]. destruct (data_find id v d) as [[]|]; [done|]. intros _. constructor; [done|by apply IH].
  - destruct (data_find id v d) as [[]|]; [done|]. intros _. by apply IH.
Qed.

Lemma delete_live v d : ∀ i e, data_find id v d = Some (i, e) → distinct (omap id d) →
  omap id (<[i := None]> d) = filter (λ x, key_eq v x = false) (omap id d).
Proof.
  induction d as [|[x|] d IH]; intros i e; cbn; [done| |].
  - destruct (key_eq v x) eqn:Ek.
    + intros [= <- <-] [Hx _]. cbn. rewrite decide_False by done. symmetry. apply filter_absent.
      eapply Forall_impl; [exact Hx|]. cbn. intros y. by rewrite (key_trans v x y Ek).
    + destruct (data_find id v d) as [[i' e']|]; [|done]. intros [= <- <-] [_ Hd]. cbn. rewrite decide_True by done. f_equal. by apply (IH i' e').
  - destruct (data_find id v d) as [[i' e']|]; [|done]. intros [= <- <-] Hd. cbn. by apply (IH i' e').
Qed.

Lemma distinct_filter (P : J → Prop) `{!∀ x, Decision (P x)} l : distinct l → distinct (filter P l).
Proof.
  induction l as [|x l IH]; cbn [distinct]; [done|]. intros [Hx Hl]. destruct (decide (P x)).
  - rewrite filter_cons_True by done. split; [|by apply IH]. rewrite Forall_forall in *. intros y [_ Hy]%list_elem_of_filter. by apply Hx.
  - rewrite filter_cons_False by done. by apply IH.
Qed.

Lemma distinct_add v l : existsb (key_eq v) l = false → distinct l → distinct (l ++ [v]).
Proof.
  induction l as [|x l IH]; cbn; [by split|]. intros [Ex Hv]%orb_false_iff [Hx Hl]. split; [|by apply IH].
  apply Forall_app. split; [done|]. constructor; [|constructor]. by rewrite key_sym.
Qed.

Definition set_rel (s : S) (d : data) : Prop :=
  is_iter s = omap id d ∧ distinct (omap id d) ∧ (Z.of_nat (length d) ≤ FINISHED)%Z.

(** A place of the list is the number of live elements before it. *)
Definition set_at (s : S) (d : data) (i j : nat) : Prop := i = length (omap id (take j d)) ∧ j ≤ length d.

Definition set_cursor (s : S) (d : data) (z : Z) (o : option nat) : Prop :=
  match o with None => z = FINISHED | Some j => set_at s d (cursor_index z) j end.

Lemma live_le d : length (omap id d) ≤ length d.
Proof. induction d as [|[x|] d IH]; cbn; lia. Qed.

Lemma live_add d x : omap id (d ++ [Some x]) = omap id d ++ [x].
Proof. by rewrite omap_app. Qed.

Lemma live_cleared n : omap id (replicate n (@None J)) = [].
Proof. induction n as [|n IH]; [done|]. exact IH. Qed.

(** The places of the scans survive a call that takes nothing away behind them. *)
Lemma places_kept s d s' d' fs fs' gs gs' (P : nat → Prop) :
  (∀ i j, P j → set_at s d i j → set_at s' d' i j) → (∀ j, j ∈ places fs' gs' → P j) →
  Forall2 (set_at s d) fs fs' → Forall2 (set_cursor s d) gs gs' →
  Forall2 (set_at s' d') fs fs' ∧ Forall2 (set_cursor s' d') gs gs'.
Proof.
  unfold places. intros Hat HP Hf Hg. split.
  - assert (∀ j, j ∈ fs' → P j) as HP' by (intros j Hj; apply HP, elem_of_app; by left). clear HP. induction Hf as [|i j fs fs' Hij Hf IH]; [constructor|].
    constructor; [apply Hat; [apply HP'; left|done]|]. apply IH. intros j' Hj'. apply HP'. by right.
  - assert (∀ j, j ∈ omap id gs' → P j) as HP' by (intros j Hj; apply HP, elem_of_app; by right). clear HP. induction Hg as [|z [j|] gs gs' Hz Hg IH]; [constructor| |].
    + constructor; [apply Hat; [apply HP'; left|done]|]. apply IH. intros j' Hj'. apply HP'. cbn. by right.
    + constructor; [done|]. by apply IH.
Qed.

Lemma forallb_places (f : nat → bool) l : forallb f l = true → ∀ j, j ∈ l → f j = true.
Proof. intros Hf j Hj. rewrite forallb_forall in Hf. apply Hf. by apply list_elem_of_In. Qed.

Lemma set_add_rel v s d : set_rel s d → (Z.of_nat (length d) < FINISHED)%Z →
  let d' := match data_find id v d with Some _ => d | None => d ++ [Some v] end in
  set_rel (is_insert v s) d' ∧ ∀ i j, set_at s d i j → set_at (is_insert v s) d' i j.
Proof.
  intros (Hs & Hd & Hl) Hroom. cbn. pose proof (found_live v d) as Hf. unfold set_rel. rewrite iter_insert, Hs, Hf. destruct (data_find id v d) as [[]|]; [done|]. split.
  - rewrite live_add, length_app. split_and!; [done|by apply distinct_add|cbn [length]; lia].
  - unfold set_at. intros i j [-> Hj]. rewrite length_app, take_app_le by done. cbn [length]. split; [done|lia].
Qed.

Lemma set_delete_rel v s d : set_rel s d →
  let d' := match data_find id v d with Some (i, _) => <[i := None]> d | None => d end in
  set_rel (is_shift_remove v s).2 d' ∧
  ∀ i j, match data_find id v d with Some (p, _) => j ≤ p | None => True end → set_at s d i j → set_at (is_shift_remove v s).2 d' i j.
Proof.
  intros (Hs & Hd & Hl). cbn. unfold set_rel. rewrite shift_remove_iter, Hs. destruct (data_find id v d) as [[p e]|] eqn:Ed; split.
  - rewrite (delete_live v d p e Ed Hd), length_insert. split_and!; [done|by apply distinct_filter|done].
  - unfold set_at. intros i j Hp [-> Hj]. by rewrite length_insert, take_insert_ge by done.
  - by rewrite filter_absent by by apply absent_live.
  - by intros i j _ ?.
Qed.

Lemma set_clear_rel s d : set_rel s d →
  set_rel (is_clear s) ((λ _, None) <$> d) ∧ ∀ i j, omap id (take j d) = [] → set_at s d i j → set_at (is_clear s) ((λ _, None) <$> d) i j.
Proof.
  intros (Hs & Hd & Hl). unfold set_rel, set_at. rewrite iter_clear, length_fmap. split.
  - rewrite cleared_places, live_cleared. done.
  - intros i j Hj [-> Hle]. by rewrite Hj, cleared_places, take_replicate, live_cleared.
Qed.
Lemma set_perform o s d fs fs' gs gs' : set_rel s d → Forall2 (set_at s d) fs fs' → Forall2 (set_cursor s d) gs gs' → set_calm o d fs' gs' = true →
  ∃ a s' d', SetInner.set_op this o s = Ok (a, s') ∧ set_data_op this o d = Ok (a, d') ∧ set_rel s' d' ∧ Forall2 (set_at s' d') fs fs' ∧ Forall2 (set_cursor s' d') gs gs'.
Proof.
  intros Hrel Hf Hg [Hroom Hc]%andb_true_iff. unfold roomy in Hroom. apply Z.ltb_lt in Hroom. pose proof Hrel as (Hs & Hd & Hl).
  destruct o as [v|v|v| |]; cbn [SetInner.set_op set_data_op].
  - destruct (set_add_rel v s d Hrel Hroom) as [Hr Hat]. do 3 eexists. do 3 (split; [done || exact Hr|]).
    apply (places_kept s d) with (P := λ _, True) (3 := Hf) (4 := Hg); auto.
  - unfold SetInner.set_has. rewrite contains_iter, Hs, found_live. by eexists _, s, d.
  - destruct (set_delete_rel v s d Hrel) as [Hr Hat]. unfold SetInner.set_delete. rewrite shift_remove_found, Hs, found_live.
    destruct (data_find id v d) as [[p e]|] eqn:Ed; do 3 eexists; (do 3 (split; [done || exact Hr|])).
    + apply (places_kept s d) with (P := λ j, j ≤ p) (3 := Hf) (4 := Hg); [done|]. intros j Hj. by apply (forallb_places _ _ Hc), bool_decide_eq_true in Hj.
    + apply (places_kept s d) with (P := λ _, True) (3 := Hf) (4 := Hg); auto.
  - destruct (set_clear_rel s d Hrel) as [Hr Hat]. do 3 eexists. do 3 (split; [done || exact Hr|]).
    apply (places_kept s d) with (P := λ j, omap id (take j d) = []) (3 := Hf) (4 := Hg); [done|]. intros j Hj. by apply (forallb_places _ _ Hc), bool_decide_eq_true in Hj.
  - unfold SetInner.set_size. rewrite len_iter, Hs. by eexists _, s, d.
Qed.

Lemma live_at d j x : d !! j = Some (Some x) → omap id d !! length (omap id (take j d)) = Some x.
Proof.
  intros Hj. pose proof (f_equal (omap id) (take_drop_middle d j (Some x) Hj)) as E. rewrite omap_app in E. rewrite <- E. by apply list_lookup_middle.
Qed.

Lemma live_step d j x : d !! j = Some x → length (omap id (take (Datatypes.S j) d)) = length (omap id (take j d)) + length (omap id [x]).
Proof. intros Hj. by rewrite (take_S_r d j x Hj), omap_app, length_app. Qed.

Lemma set_round_at s d i j : set_rel s d → set_at s d i j →
  match data_round (λ v, (v, v)) j d with
  | Stop => SetInner.set_round i s = Stop
  | Hole => set_at s d i (Datatypes.S j) ∨ (SetInner.set_round i s = Hole ∧ set_at s d (Datatypes.S i) (Datatypes.S j))
  | Live k v => SetInner.set_round i s = Live k v ∧ set_at s d (Datatypes.S i) (Datatypes.S j)
  end.
Proof.
  intros (Hs & _ & _) [-> Hj]. unfold data_round, SetInner.set_round, set_at. rewrite get_index_iter, Hs. destruct (d !! j) as [[x|]|] eqn:Ex.
  - rewrite (live_at d j x Ex), (live_step d j _ Ex). cbn. apply lookup_lt_Some in Ex. split_and!; (done || lia).
  - left. rewrite (live_step d j _ Ex). cbn. apply lookup_lt_Some in Ex. lia.
  - apply lookup_ge_None in Ex. rewrite take_ge by done. by rewrite lookup_ge_None_2 by done.
Qed.

Lemma set_advance s d z o : set_rel s d → set_cursor s d z o →
  (SetInner.set_step_core z s).1 = (data_advance (λ v, (v, v)) o d).1 ∧ set_cursor s d (SetInner.set_step_core z s).2 (data_advance (λ v, (v, v)) o d).2.
Proof.
  intros (Hs & _ & Hl) Hz. unfold SetInner.set_step_core. cbv zeta. rewrite get_index_iter, Hs. pose proof (live_le d) as Hle. destruct o as [j|]; cbn [data_advance set_cursor] in *.
  - destruct Hz as [Hz Hj]. destruct (next_live (drop j d) j) as [[p e]|] eqn:En.
    + apply next_live_lookup in En as (Hp & Hp1 & Hp2). rewrite lookup_drop in Hp1. replace (j + (p - j)) with p in Hp1 by lia.
      assert (omap id (take p d) = omap id (take j d)) as Et.
      { replace p with (j + (p - j)) by lia. rewrite <- take_take_drop, omap_app, Hp2. apply app_nil_r. }
      rewrite Hz, <- Et, (live_at d p e Hp1). cbn. split; [done|]. pose proof (lookup_lt_Some _ _ _ Hp1). pose proof (live_le (take p d)) as Hlp. rewrite length_take in Hlp.
      rewrite cursor_of_nat by lia. unfold set_at. rewrite (live_step d p _ Hp1). cbn. lia.
    + apply next_live_none in En. rewrite Hz. rewrite lookup_ge_None_2; [done|].
      pose proof (f_equal (omap id) (take_drop j d)) as E. rewrite omap_app, En, app_nil_r in E. by rewrite E.
  - subst z. rewrite lookup_ge_None_2; [done|]. unfold cursor_index, FINISHED in *. lia.
Qed.

Lemma set_simulates : Simulates (set_machine this) (set_data this) set_rel set_at set_cursor.
Proof.
  split; cbn.
  - done.
  - intros s d Hrel. split; (split; [by rewrite take_0|apply Nat.le_0_l]).
  - intros o s d fs fs' gs gs' HR Hf Hg Hc. split; [done|]. by apply set_perform.
  - intros. by apply set_round_at.
  - intros. by apply set_advance.
Qed.
End set.

(** ** The operations of two sets *)

Section set_operations.
Context {J S : Type} `{HK : JsKeys J, HL : !JsKeysLaws J} `{IS : IndexSet J S, JSL : !IndexSetLaws J S}.
Implicit Types (s : S) (ks : list J).

Definition mem (x : J) (l : list J) : bool := existsb (key_eq x) l.

Lemma mem_iff x l : mem x l = true ↔ ∃ y, y ∈ l ∧ key_eq x y = true.
Proof. unfold mem. rewrite existsb_exists. setoid_rewrite list_elem_of_In. done. Qed.

Lemma mem_same x y l : key_eq x y = true → mem x l = mem y l.
Proof. intros E. induction l as [|z l IH]; [done|]. cbn. f_equal; [by apply key_trans|apply IH]. Qed.

Lemma contains_mem v s : is_contains v s = mem v (is_iter s).
Proof. apply contains_iter. Qed.

Lemma mem_cons x y l : mem x (y :: l) = key_eq x y || mem x l.
Proof. done. Qed.

Lemma mem_app x l l' : mem x (l ++ l') = mem x l || mem x l'.
Proof. apply existsb_app. Qed.

Lemma mem_insert x v s : mem x (is_iter (is_insert v s)) = key_eq x v || mem x (is_iter s).
Proof.
  rewrite iter_insert. fold (mem v (is_iter s)). destruct (mem v (is_iter s)) eqn:Ev.
  - destruct (key_eq x v) eqn:Ex; [|done]. by rewrite (mem_same x v _ Ex), Ev.
  - rewrite mem_app. cbn. by rewrite orb_false_r, orb_comm.
Qed.

Lemma mem_filter x v l : mem x (filter (λ y, key_eq v y = false) l) = negb (key_eq v x) && mem x l.
Proof.
  induction l as [|y l IH]; [by rewrite andb_false_r|]. destruct (decide (key_eq v y = false)) as [Ey|Ey].
  - rewrite filter_cons_True by done. cbn. rewrite (IH : existsb _ _ = _). destruct (key_eq x y) eqn:Ex; [|done].
    rewrite key_sym in Ex. rewrite (key_sym v x), <- (key_trans y x v Ex), key_sym, Ey. done.
  - rewrite filter_cons_False by done. rewrite IH. apply not_false_is_true in Ey. cbn. destruct (key_eq x y) eqn:Ex; [|done].
    rewrite (key_trans v y x Ey), (key_sym y x), Ex. done.
Qed.

Lemma mem_remove x v s : mem x (is_iter (is_shift_remove v s).2) = negb (key_eq v x) && mem x (is_iter s).
Proof. by rewrite shift_remove_iter, mem_filter. Qed.

Lemma mem_neg_zero v l : mem (normalize_neg_zero v) l = mem v l.
Proof. apply mem_same, key_neg_zero. Qed.

Lemma eq_neg_zero x v : key_eq x (normalize_neg_zero v) = key_eq x v.
Proof. rewrite !(key_sym x). apply key_trans, key_neg_zero. Qed.

Lemma insert_distinct v s : distinct (is_iter s) → distinct (is_iter (is_insert v s)).
Proof. rewrite iter_insert. intros Hs. destruct (existsb (key_eq v) (is_iter s)) eqn:Ev; [done|]. by apply distinct_add. Qed.

Lemma remove_distinct v s : distinct (is_iter s) → distinct (is_iter (is_shift_remove v s).2).
Proof. rewrite shift_remove_iter. apply distinct_filter. Qed.

(** A list whose elements differ and are all found in another is not longer. *)
Lemma mem_length l : ∀ l', distinct l → (∀ x, x ∈ l → mem x l' = true) → length l ≤ length l'.
Proof.
  induction l as [|x l IH]; intros l' Hd Hl; [apply Nat.le_0_l|]. destruct Hd as [Hx Hd].
  assert (length (filter (λ y, key_eq x y = false) l') < length l') as Hlt.
  { assert (mem x l' = true) as (y & Hy & Exy)%mem_iff by (apply Hl; left). apply length_filter_lt with (x := y); [done|]. by rewrite Exy. }
  assert (length l ≤ length (filter (λ y, key_eq x y = false) l')); [|cbn; lia]. apply IH; [done|].
  intros y Hy. rewrite mem_filter, (Hl y) by by right. rewrite Forall_forall in Hx. by rewrite Hx.
Qed.

(** An argument that is itself a set of the keys [ks] behaves so. *)
Record set_like (o : Other J) (ks : list J) : Prop := {
  like_object : other_is_object o = true;
  like_size : ∃ size, other_size o = inr size ∧ F64.is_nan size = false;
  like_has : ∃ has, other_has o = inr (Some has) ∧ ∀ e, ∃ b, has e = inr b ∧ truthy b = mem e ks;
  like_keys : other_keys o = inr (Some (inr <$> ks));
}.

Lemma set_like_record o ks : set_like o ks → ∃ size has, SetOps.get_set_record o = inr (mk_record size has (inr <$> ks)) ∧
  other_size o = inr size ∧ ∀ e, ∃ b, has e = inr b ∧ truthy b = mem e ks.
Proof.
  intros [Ho (size & Es & Hn) (has & Eh & Hh) Ek]. exists size, has. unfold SetOps.get_set_record. rewrite Ho, Es. cbn. by rewrite Hn, Eh, Ek.
Qed.

(** Loops that never stop are folds. *)
Lemma iterate_all {A} (f : A → J → A * KeysFlow) (g : A → J → A) ks : (∀ a v, f a v = (g a v, Continue)) → ∀ acc,
  SetOps.iterate_record_keys f (inr <$> ks) acc = (inr (fold_left g ks acc, Continue), false).
Proof. intros Hf. induction ks as [|k ks IH]; intros acc; [done|]. cbn. rewrite Hf. apply IH. Qed.

Lemma ask_all {A} has ks (f : A → J → bool → A * KeysFlow) (g : A → J → A) l : (∀ e, ∃ b, has e = inr b ∧ truthy b = mem e ks) →
  (∀ a e, f a e (mem e ks) = (g a e, Continue)) → ∀ acc, SetOps.ask has f l acc = inr (fold_left g l acc).
Proof. intros Hh Hf. induction l as [|e l IH]; intros acc; [done|]. cbn. destruct (Hh e) as (b & -> & ->). rewrite Hf. apply IH. Qed.

(** Loops that stop at the first key that decides. *)
Lemma iterate_until f (test : J → bool) ks : (∀ u v, f u v = (u, if test v then Continue else Stopped)) →
  (SetOps.iterate_record_keys f (inr <$> ks) tt).1 = inr (tt, if forallb test ks then Continue else Stopped).
Proof. intros Hf. induction ks as [|k ks IH]; [done|]. cbn. rewrite Hf. destruct (test k); [apply IH|done]. Qed.

Lemma ask_until has f ks (test : J → bool) l : (∀ e, ∃ b, has e = inr b ∧ truthy b = mem e ks) →
  (∀ a e, f a e (mem e ks) = if test e then (true, Continue) else (false, Stopped)) → SetOps.ask has f l true = inr (forallb test l).
Proof. intros Hh Hf. induction l as [|e l IH]; [done|]. cbn. destruct (Hh e) as (b & -> & ->). rewrite Hf. destruct (test e); [apply IH|done]. Qed.

(** A property of the set that every step keeps holds of the result. *)
Lemma fold_keeps {A B} (P : A → Prop) (g : A → B → A) l : (∀ a b, P a → P (g a b)) → ∀ a, P a → P (fold_left g l a).
Proof. intros Hg. induction l as [|b l IH]; intros a Ha; [done|]. cbn. by apply IH, Hg. Qed.

Lemma fold_insert x (f : J → bool) (c : J → J) l : (∀ v, key_eq x (c v) = key_eq x v) → ∀ s,
  (∀ v, key_eq x v = true → f v = f x) →
  mem x (is_iter (fold_left (λ r v, if f v then is_insert (c v) r else r) l s)) = mem x (is_iter s) || (f x && mem x l).
Proof.
  intros Hc s Hf. revert s. induction l as [|v l IH]; intros s; cbn [fold_left]; [by rewrite andb_false_r, orb_false_r|].
  rewrite IH, mem_cons. destruct (key_eq x v) eqn:Ev.
  - rewrite (Hf v Ev). destruct (f x); cbn; [|done]. rewrite mem_insert, Hc, Ev. by rewrite orb_true_r.
  - destruct (f v); [|done]. rewrite mem_insert, Hc, Ev. done.
Qed.

Lemma fold_remove x ks : ∀ s, mem x (is_iter (fold_left (λ r v, (is_shift_remove (normalize_neg_zero v) r).2) ks s)) = mem x (is_iter s) && negb (mem x ks).
Proof.
  induction ks as [|v ks IH]; intros s; cbn [fold_left]; [by rewrite andb_true_r|]. rewrite IH, mem_remove, mem_cons.
  rewrite (key_sym _ x), eq_neg_zero. by destruct (key_eq x v), (mem x (is_iter s)), (mem x ks).
Qed.

Lemma toggle_mem x v s : let r := is_shift_remove (normalize_neg_zero v) s in
  mem x (is_iter (if r.1 then r.2 else is_insert (normalize_neg_zero v) r.2)) = xorb (mem x (is_iter s)) (key_eq x v).
Proof.
  cbn. rewrite shift_remove_found. fold (mem (normalize_neg_zero v) (is_iter s)). rewrite mem_neg_zero. destruct (mem v (is_iter s)) eqn:Em.
  - rewrite mem_remove, (key_sym _ x), eq_neg_zero. destruct (key_eq x v) eqn:Ex; cbn; [|by rewrite xorb_false_r].
    by rewrite (mem_same x v _ Ex), Em.
  - rewrite mem_insert, eq_neg_zero, mem_remove, (key_sym _ x), eq_neg_zero. destruct (key_eq x v) eqn:Ex; cbn; [|by rewrite xorb_false_r].
    by rewrite (mem_same x v _ Ex), Em.
Qed.

Lemma fold_toggle x ks : distinct ks → ∀ s,
  mem x (is_iter (fold_left (λ r v, let key := normalize_neg_zero v in let removed := is_shift_remove key r in if removed.1 then removed.2 else is_insert key removed.2) ks s))
  = xorb (mem x (is_iter s)) (mem x ks).
Proof.
  induction ks as [|v ks IH]; intros Hd s; cbn [fold_left]; [by rewrite xorb_false_r|]. destruct Hd as [Hv Hd].
  rewrite IH, toggle_mem, mem_cons by done. destruct (key_eq x v) eqn:Ex; [|by rewrite xorb_false_r].
  replace (mem x ks) with false; [by rewrite xorb_false_r|]. symmetry. rewrite (mem_same x v ks Ex). apply not_true_is_false.
  intros (y & Hy & E)%mem_iff. rewrite Forall_forall in Hv. by rewrite (Hv y Hy) in E.
Qed.

Lemma leb_sizes a b : (Z.of_nat a < 2^53)%Z → (Z.of_nat b < 2^53)%Z → F64.ltb (F64.of_Z (Z.of_nat a)) (F64.of_Z (Z.of_nat b)) = bool_decide (a < b).
Proof.
  intros Ha Hb. destruct (F64Facts.of_Z_int (Z.of_nat a)) as [Va Ua]; [lia|]. destruct (F64Facts.of_Z_int (Z.of_nat b)) as [Vb Ub]; [lia|].
  unfold F64.ltb, SpecFloat.SFltb. rewrite (F64Facts.compare_units _ _ _ _ Va Vb Ua Ub). pose proof F64Facts.unit_pos.
  destruct (Z.compare_spec (Z.of_nat a * F64Facts.UNIT) (Z.of_nat b * F64Facts.UNIT)); symmetry; rewrite ?bool_decide_eq_true, ?bool_decide_eq_false; nia.
Qed.

(** A test that does not tell equal keys apart holds of a list exactly when it
    holds of all its members. *)
Lemma forall_members (test : J → bool) l : (∀ x y, key_eq x y = true → test x = test y) →
  forallb test l = true ↔ ∀ x, mem x l = true → test x = true.
Proof.
  intros Ht. rewrite forallb_forall. split.
  - intros Hl x (y & Hy & E)%mem_iff. rewrite (Ht x y E). by apply Hl, list_elem_of_In.
  - intros Hl x Hx%list_elem_of_In. apply Hl, mem_iff. exists x. split; [done|apply key_refl].
Qed.

Lemma apart_iff l l' : (∀ x, mem x l = true → negb (mem x l') = true) ↔ ∀ x, mem x l && mem x l' = false.
Proof.
  split; intros Hx x.
  - destruct (mem x l) eqn:E; [|done]. by apply negb_true_iff, Hx.
  - intros E. specialize (Hx x). rewrite E in Hx. by apply negb_true_iff.
Qed.

Lemma mem_new x : mem x (is_iter (is_new (S := S))) = false.
Proof. by rewrite iter_new. Qed.

Lemma new_distinct : distinct (is_iter (is_new (S := S))).
Proof. by rewrite iter_new. Qed.

Section operations.
Variables (s : S) (o : Other J) (ks : list J).
Hypothesis Hs : distinct (is_iter s).
Hypothesis Ho : set_like o ks.

Lemma union_exact : ∃ u, SetOps.set_union s o = inr u ∧ distinct (is_iter u) ∧ ∀ x, mem x (is_iter u) = mem x (is_iter s) || mem x ks.
Proof.
  destruct (set_like_record o ks Ho) as (size & has & E & _ & Hh). unfold SetOps.set_union. rewrite E. cbn [rec_keys].
  rewrite (iterate_all _ (λ r v, if true then is_insert (normalize_neg_zero v) r else r)) by done. eexists. split; [done|]. split.
  - apply fold_keeps; [|done]. intros. by apply insert_distinct.
  - intros x. cbn [fst]. rewrite (fold_insert x (λ _, true)); [done|intros; apply eq_neg_zero|done].
Qed.

Lemma intersection_exact : ∃ i, SetOps.set_intersection s o = inr i ∧ distinct (is_iter i) ∧ ∀ x, mem x (is_iter i) = mem x (is_iter s) && mem x ks.
Proof.
  destruct (set_like_record o ks Ho) as (size & has & E & _ & Hh). unfold SetOps.set_intersection. rewrite E. cbn [rec_keys rec_size rec_has].
  destruct (F64.leb _ _).
  - rewrite (ask_all has ks _ (λ r e, if mem e ks then is_insert e r else r) _ Hh) by done. eexists. split; [done|]. split.
    + apply fold_keeps; [|apply new_distinct]. intros r e Hr. destruct (mem e ks); [by apply insert_distinct|done].
    + intros x. rewrite (fold_insert x (λ e, mem e ks) id), mem_new, andb_comm; [done|done|]. intros v Ev. symmetry. by apply mem_same.
  - rewrite (iterate_all _ (λ r v, if mem v (is_iter s) then is_insert (normalize_neg_zero v) r else r)) by (intros r v; cbn; by rewrite contains_mem, (mem_neg_zero v)).
    eexists. split; [done|]. split.
    + apply fold_keeps; [|apply new_distinct]. intros r v Hr. destruct (mem v (is_iter s)); [by apply insert_distinct|done].
    + intros x. cbn [fst]. rewrite (fold_insert x (λ e, mem e (is_iter s))), mem_new; [done|intros; apply eq_neg_zero|]. intros v Ev. symmetry. by apply mem_same.
Qed.

Lemma minus_exact : ∃ d, SetOps.set_difference s o = inr d ∧ distinct (is_iter d) ∧ ∀ x, mem x (is_iter d) = mem x (is_iter s) && negb (mem x ks).
Proof.
  destruct (set_like_record o ks Ho) as (size & has & E & _ & Hh). unfold SetOps.set_difference. rewrite E. cbn [rec_keys rec_size rec_has].
  destruct (F64.leb _ _).
  - rewrite (ask_all has ks _ (λ r e, if negb (mem e ks) then is_insert e r else r) _ Hh) by (intros r e; by destruct (mem e ks)). eexists. split; [done|]. split.
    + apply fold_keeps; [|apply new_distinct]. intros r e Hr. destruct (mem e ks); [done|by apply insert_distinct].
    + intros x. rewrite (fold_insert x (λ e, negb (mem e ks)) id), mem_new, andb_comm; [done|done|]. intros v Ev. f_equal. symmetry. by apply mem_same.
  - cbv zeta. rewrite (iterate_all _ (λ r v, (is_shift_remove (normalize_neg_zero v) r).2)) by done. eexists. split; [done|]. split.
    + apply fold_keeps; [intros; by apply remove_distinct|]. apply fold_keeps; [intros; by apply insert_distinct|apply new_distinct].
    + intros x. cbn [fst]. rewrite fold_remove. f_equal. pose proof (fold_insert x (λ _, true) id (is_iter s)) as Hf. cbn in Hf. unfold id in Hf. by rewrite Hf, mem_new.
Qed.

Lemma disjoint_exact : ∃ b, SetOps.set_is_disjoint_from s o = inr b ∧ (b = true ↔ ∀ x, mem x (is_iter s) && mem x ks = false).
Proof.
  destruct (set_like_record o ks Ho) as (size & has & E & _ & Hh). unfold SetOps.set_is_disjoint_from. rewrite E. cbn [rec_keys rec_size rec_has].
  assert (∀ l x y, key_eq x y = true → negb (mem x l) = negb (mem y l)) as Hn by (intros l x y Exy; f_equal; by apply mem_same).
  destruct (F64.leb _ _).
  - rewrite (ask_until has _ ks (λ e, negb (mem e ks)) _ Hh) by (intros a e; by destruct (mem e ks)). eexists. split; [done|].
    rewrite forall_members by apply Hn. apply apart_iff.
  - rewrite (iterate_until _ (λ v, negb (mem v (is_iter s)))) by (intros u v; rewrite contains_mem, (mem_neg_zero v); by destruct (mem v (is_iter s))).
    exists (forallb (λ v, negb (mem v (is_iter s))) ks). split; [cbn; by destruct (forallb _ ks)|].
    rewrite forall_members, apart_iff by apply Hn. by setoid_rewrite andb_comm at 1.
Qed.

Lemma symmetric_exact : distinct ks → ∃ y, SetOps.set_symmetric_difference s o = inr y ∧ distinct (is_iter y) ∧ ∀ x, mem x (is_iter y) = xorb (mem x (is_iter s)) (mem x ks).
Proof.
  intros Hd. destruct (set_like_record o ks Ho) as (size & has & E & _ & Hh). unfold SetOps.set_symmetric_difference. rewrite E. cbn [rec_keys].
  rewrite (iterate_all _ (λ r v, let key := normalize_neg_zero v in let removed := is_shift_remove key r in if removed.1 then removed.2 else is_insert key removed.2)) by done.
  eexists. split; [done|]. split; [|intros x; by apply fold_toggle].
  apply fold_keeps; [|done]. intros r v Hr. cbv zeta. destruct (is_shift_remove _ r).1; [|apply insert_distinct]; by apply remove_distinct.
Qed.

Lemma inclusion_exact : distinct ks → (Z.of_nat (length (is_iter s)) < 2^53)%Z → (Z.of_nat (length ks) < 2^53)%Z → other_size o = inr (F64.of_Z (Z.of_nat (length ks))) →
  ∃ b c, SetOps.set_is_subset_of s o = inr b ∧ SetOps.set_is_superset_of s o = inr c ∧
    (b = true ↔ ∀ x, mem x (is_iter s) = true → mem x ks = true) ∧ (c = true ↔ ∀ x, mem x ks = true → mem x (is_iter s) = true).
Proof.
  intros Hd Hls Hlk Hsize. destruct (set_like_record o ks Ho) as (size & has & E & E' & Hh). rewrite Hsize in E'. injection E' as <-.
  assert (∀ l x y, key_eq x y = true → mem x l = mem y l) as Hm by (intros; by apply mem_same).
  assert (∀ l x, x ∈ l → mem x l = true) as Hin by (intros l x Hx; apply mem_iff; exists x; split; [done|apply key_refl]).
  unfold SetOps.set_is_subset_of, SetOps.set_is_superset_of. rewrite E. cbn [rec_keys rec_size rec_has]. unfold SetOps.this_size. rewrite len_iter, !leb_sizes by done.
  set (B := if bool_decide (length ks < _) then _ else _). set (C := if bool_decide (_ < length ks) then _ else _).
  assert (∃ b, B = inr b ∧ (b = true ↔ ∀ x, mem x (is_iter s) = true → mem x ks = true)) as (b & Eb & Hb).
  { unfold B. case_bool_decide as Hlt; eexists; (split; [try done|]).
    - split; [done|]. intros Hx. exfalso. pose proof (mem_length (is_iter s) ks Hs (λ x Hi, Hx x (Hin _ x Hi))). lia.
    - apply (ask_until has _ ks (λ e, mem e ks) _ Hh). intros a e. by destruct (mem e ks).
    - apply forall_members. intros. by apply Hm. }
  assert (∃ c, C = inr c ∧ (c = true ↔ ∀ x, mem x ks = true → mem x (is_iter s) = true)) as (c & Ec & Hc).
  { unfold C. case_bool_decide as Hlt; [exists false|exists (forallb (λ v, mem v (is_iter s)) ks)]; split.
    - done.
    - split; [done|]. intros Hx. exfalso. pose proof (mem_length ks (is_iter s) Hd (λ x Hi, Hx x (Hin _ x Hi))). lia.
    - rewrite (iterate_until _ (λ v, mem v (is_iter s))) by (intros u v; by rewrite contains_mem, (mem_neg_zero v)). cbn. by destruct (forallb _ ks).
    - apply forall_members. intros. by apply Hm. }
  exists b, c. done.
Qed.
End operations.
End set_operations.

(** ** The instances *)

#[export] Instance Key_laws : JsKeysLaws Key.
Proof.
  assert (∀ a : Key, SetKey.wf (proj1_sig a)) as Hw by (intros a; apply (proj2_dsig a)).
  assert (∀ a b : Key, key_eq a b = true ↔ SetKey.hash SetKeyFacts.plain_bytes (proj1_sig a) = SetKey.hash SetKeyFacts.plain_bytes (proj1_sig b)) as Hk.
  { intros a b. apply SetKeyFacts.eq_iff; apply Hw. }
  assert (∀ v, SetKey.wf v → proj1_sig (key v) = v) as Hkey by (intros v Hv; unfold key; destruct (decide (SetKey.wf v)); done).
  split.
  - intros a. by apply Hk.
  - intros a b. apply Bool.eq_true_iff_eq. by rewrite !Hk.
  - intros a b c E%Hk. apply Bool.eq_true_iff_eq. by rewrite !Hk, E.
  - intros a. destruct (SetKeyFacts.plus_zero_ok _ (Hw a)) as [H1 H2]. cbn [key_eq plus_zero Key_keys]. by rewrite Hkey.
  - intros a. destruct (SetKeyFacts.neg_zero_ok _ (Hw a)) as [H1 H2]. cbn [key_eq normalize_neg_zero Key_keys]. by rewrite Hkey.
  - by intros [].
Qed.

#[export] Instance list_index_set_laws {J} `{JsKeys J} : IndexSetLaws J (list J).
Proof. split; done. Qed.

(** ** Programs on a Map and on a Set *)

Section self.
Context {J : Type} `{JsKeys J} (this : J).

Lemma map_op_total o m : map_ok m → ∃ a m', MapInner.map_op this o m = Ok (a, m') ∧ map_ok m'.
Proof.
  intros Hm. assert (o = MClear ∨ o ≠ MClear) as [->|Ho] by (destruct o; auto; right; discriminate).
  - by exists (NOk undefined), (MapInner.clear m).
  - destruct (map_op_data this o m 0 Hm Ho) as (a & m' & E & _ & Hm' & _). by exists a, m'.
Qed.

(** The code's machine simulates itself on sound tables. *)
Lemma map_self : Simulates (map_machine this) (map_machine this) (λ m m', m = m' ∧ map_ok m) (λ _ _, eq) (λ _ _, eq).
Proof.
  split; cbn.
  - done.
  - done.
  - intros o m ? fs fs' gs gs' [<- Hm] Hf Hg _. split; [done|].
    destruct (map_op_total o m Hm) as (a & m' & E & Hm'). by exists a, m', m'.
  - intros m ? i ? [<- Hm] <-. destruct (MapInner.map_round i m); auto.
  - by intros m ? z ? [<- Hm] <-.
Qed.
End self.

(** C16: A Map behaves as an ordered list of entries whose keys are compared by
    SameValueZero and kept as given (ECMA-262 would turn -0 into +0, see
    [negative_zero_kept]): a program of any
    number of calls, iterators and nested [forEach] loops whose callbacks call
    the Map again, which ends on the list, ends on the slot table with the same
    answers in every position and the same live entries in order; the map is
    cleared only while no scan is under way and holds fewer than 2^31 - 1
    places. *)
Theorem map_refines {J} `{JsKeys J} (this : J) fuel (p : Prog J (MapOp J)) a w' :
  run (M := map_data this) fuel p [] (mk_world [] []) = Some (a, w') →
  ∃ w, run (M := map_machine this) fuel p [] (mk_world MapInner.new []) = Some (a, w) ∧
    MapInner.iter (coll w) = omap id (coll w') ∧ MapInner.len (coll w) = length (omap id (coll w')).
Proof.
  intros E. destruct (run_simulates _ _ _ _ _ (Sim := map_simulates this) fuel p [] [] (mk_world MapInner.new []) (mk_world [] []) a w') with (2 := E) as (w & Er & Hrel).
  - split_and!; [|constructor|constructor]. split_and!; [done|by exists 0|done].
  - exists w. split; [done|]. destruct Hrel as ((Hm & [c ->] & _) & _). rewrite pad_live. split; [done|].
    unfold MapInner.len. by rewrite Hm, live_length.
Qed.

(** In every program on a Map, clears inside loops included, the index always
    lists exactly the live slots in order, and no call panics. *)
Theorem map_index_sound {J} `{JsKeys J} (this : J) fuel (p : Prog J (MapOp J)) a w :
  run (M := map_machine this) fuel p [] (mk_world MapInner.new []) = Some (a, w) →
  index (coll w) = live_index 0 (slots (coll w)) ∧ ∀ o, ∃ r m', MapInner.map_op this o (coll w) = Ok (r, m').
Proof.
  intros E. destruct (run_simulates _ _ _ _ _ (Sim := map_self this) fuel p [] [] (mk_world MapInner.new []) (mk_world MapInner.new []) a w) with (2 := E) as (w1 & Er & [[<- Hm] _]).
  - split_and!; [done|done|constructor|constructor].
  - split; [done|]. intros o. destruct (map_op_total this o _ Hm) as (r & m' & Eo & _). by exists r, m'.
Qed.

(** A Set behaves as an ordered list of elements in programs that take away nothing a running scan has passed. *)
Theorem set_refines {J S} `{HK : JsKeys J, !JsKeysLaws J} `{!IndexSet J S, !IndexSetLaws J S} (this : J) fuel (p : Prog J (SetOp J)) a w' :
  run (M := set_data this) fuel p [] (mk_world [] []) = Some (a, w') →
  ∃ w, run (M := set_machine this) fuel p [] (mk_world (is_new (S := S)) []) = Some (a, w) ∧ is_iter (coll w) = omap id (coll w').
Proof.
  intros E. destruct (run_simulates _ _ _ _ _ (Sim := set_simulates (S := S) this) fuel p [] [] (mk_world is_new []) (mk_world [] []) a w') with (2 := E) as (w & Er & Hrel).
  - split_and!; [|constructor|constructor]. cbn. unfold set_rel. by rewrite iter_new.
  - exists w. split; [done|]. apply Hrel.
Qed.

(** C17: The seven operations of two sets, with an argument that behaves as the
    set of the keys [ks], do not fail and give sets without double elements
    whose elements are those of the mathematical operation, and decide
    inclusion and disjointness.  For the symmetric difference the argument
    gives no key twice ([double_key_lost]); for inclusion moreover its size is
    the number of its keys and both sizes are below 2^53. *)
Theorem set_operations_exact {J S} `{HK : JsKeys J, !JsKeysLaws J} `{!IndexSet J S, !IndexSetLaws J S} (s : S) (o : Other J) (ks : list J) :
  distinct (is_iter s) → set_like o ks →
  (∃ u i d, SetOps.set_union s o = inr u ∧ SetOps.set_intersection s o = inr i ∧ SetOps.set_difference s o = inr d ∧
    distinct (is_iter u) ∧ distinct (is_iter i) ∧ distinct (is_iter d) ∧
    ∀ x, mem x (is_iter u) = mem x (is_iter s) || mem x ks ∧ mem x (is_iter i) = mem x (is_iter s) && mem x ks ∧
      mem x (is_iter d) = mem x (is_iter s) && negb (mem x ks)) ∧
  (∃ b, SetOps.set_is_disjoint_from s o = inr b ∧ (b = true ↔ ∀ x, mem x (is_iter s) && mem x ks = false)) ∧
  (distinct ks → ∃ y, SetOps.set_symmetric_difference s o = inr y ∧ distinct (is_iter y) ∧ ∀ x, mem x (is_iter y) = xorb (mem x (is_iter s)) (mem x ks)) ∧
  (distinct ks → (Z.of_nat (length (is_iter s)) < 2^53)%Z → (Z.of_nat (length ks) < 2^53)%Z → other_size o = inr (F64.of_Z (Z.of_nat (length ks))) →
    ∃ b c, SetOps.set_is_subset_of s o = inr b ∧ SetOps.set_is_superset_of s o = inr c ∧
      (b = true ↔ ∀ x, mem x (is_iter s) = true → mem x ks = true) ∧ (c = true ↔ ∀ x, mem x ks = true → mem x (is_iter s) = true)).
Proof.
  intros Hs Ho. split_and!; [|by apply disjoint_exact|by apply symmetric_exact|by apply inclusion_exact].
  destruct (union_exact s o ks Hs Ho) as (u & Eu & Du & Mu), (intersection_exact s o ks Ho) as (i & Ei & Di & Mi), (minus_exact s o ks Ho) as (d & Ed & Dd & Md).
  by exists u, i, d.
Qed.

(** *** Programs *)

Section programs.
Definition num (i : Z) : Key := key (VPrim (PInt i)).
Definition neg_zero : Key := key (VPrim (PDouble (2^63))).

Fixpoint calls {Op} (l : list Op) (p : Prog Key Op) : Prog Key Op :=
  match l with [] => p | o :: l => Call RThis o (λ _, calls l p) end.

Definition is_num (i : Z) (k : Key) : bool := key_eq k (num i).

(** A loop that deletes the current key and adds it again once, then reads an
    iterator. *)
Definition readd : Prog Key (MapOp Key) :=
  calls [MSet (num 1) (num 10); MSet (num 2) (num 20)]
    (ForEach RThis true (λ v k, if is_num 10 v then calls [MDelete k; MSet k (num 11)] (Return (NOk v)) else Return (NOk v))
      (λ _, Iterate RThis MapKeys (λ it, match it with
        | inr i => Next i (λ e, match e with Some (One k) => Return (NOk k) | _ => Return NMiss end)
        | inl a => Return a
        end))).

(** A loop whose callback clears the map at key 1, adds 3, and records the visit
    of 3 by the key 4. *)
Definition clear_inside : Prog Key (MapOp Key) :=
  calls [MSet (num 1) (num 1); MSet (num 2) (num 2)]
    (ForEach RThis true (λ v k, if is_num 1 k then calls [MClear; MSet (num 3) (num 3)] (Return (NOk v)) else calls [MSet (num 4) k] (Return (NOk v)))
      (λ _, Call RThis (MHas (num 4)) Return)).

(** A loop that deletes each element it visits. *)
Definition delete_visited : Prog Key (SetOp Key) :=
  calls [SAdd (num 1); SAdd (num 2)] (ForEach RThis true (λ v _, calls [SDelete v] (Return (NOk v))) (λ _, Call RThis SSize Return)).

Definition first_key : Prog Key (MapOp Key) :=
  calls [MSet neg_zero (num 1)] (Iterate RThis MapKeys (λ it, match it with
    | inr i => Next i (λ e, match e with Some (One k) => Return (NOk k) | _ => Return NMiss end)
    | inl a => Return a
    end)).

(** The answer of a program, as a plain value. *)
Definition answer {T Cur} (r : option (NativeResult Key * World T Cur)) : option Val :=
  match r with Some (NOk v, _) => Some (proj1_sig v) | _ => None end.
End programs.

Lemma answered {T Cur} (r : option (NativeResult Key * World T Cur)) v : answer r = Some v → ∃ x w, r = Some (NOk x, w) ∧ proj1_sig x = v.
Proof. destruct r as [[[x|e|] w]|]; cbn; try discriminate. intros [= <-]. by exists x, w. Qed.

Lemma map_refines_witness : answer (run (M := map_machine (num 0)) 10 readd [] (mk_world MapInner.new [])) = Some (VPrim (PInt 2)).
Proof.
  destruct (answered (run (M := map_data (num 0)) 10 readd [] (mk_world [] [])) (VPrim (PInt 2))) as (x & w' & E & Hx); [vm_compute; reflexivity|].
  destruct (map_refines (num 0) 10 readd _ w' E) as (w & Er & _). exact (eq_trans (f_equal answer Er) (f_equal Some Hx)).
Defined.

Lemma map_index_sound_witness : ∃ a w, run (M := map_machine (num 0)) 10 clear_inside [] (mk_world MapInner.new []) = Some (a, w) ∧
  index (coll w) = live_index 0 (slots (coll w)).
Proof.
  destruct (answered (run (M := map_machine (num 0)) 10 clear_inside [] (mk_world MapInner.new [])) (VPrim (PBool false))) as (x & w & E & Hx); [vm_compute; reflexivity|].
  exists (NOk x), w. split; [exact E|]. apply (map_index_sound (num 0) 10 clear_inside _ w E).
Defined.

Definition adds_and_deletes : Prog Key (SetOp Key) :=
  calls [SAdd (num 1); SAdd neg_zero; SAdd (num 0); SDelete (num 1)] (Call RThis SSize Return).

Lemma set_refines_witness : answer (run (M := set_machine (S := list Key) (num 0)) 10 adds_and_deletes [] (mk_world [] [])) = Some (VPrim (PDouble (F64.of_Z 1))).
Proof.
  destruct (answered (run (M := set_data (num 0)) 10 adds_and_deletes [] (mk_world [] [])) (VPrim (PDouble (F64.of_Z 1)))) as (x & w' & E & Hx); [vm_compute; reflexivity|].
  destruct (set_refines (S := list Key) (num 0) 10 adds_and_deletes _ w' E) as (w & Er & _). exact (eq_trans (f_equal answer Er) (f_equal Some Hx)).
Defined.

(** The set of the keys 2 and 3 as an argument. *)
Definition two_three : Other Key := mk_other true (inr (F64.of_Z 2)) (inr (Some (λ e, inr (of_bool (mem e [num 2; num 3]))))) (inr (Some [inr (num 2); inr (num 3)])).

Lemma set_operations_exact_witness : ∃ y, SetOps.set_symmetric_difference [num 1; num 2] two_three = inr y ∧
  mem (num 3) y = xorb (mem (num 3) [num 1; num 2]) (mem (num 3) [num 2; num 3]).
Proof.
  assert (key_eq (num 1) (num 2) = false) as E1 by (vm_compute; reflexivity).
  assert (key_eq (num 2) (num 3) = false) as E2 by (vm_compute; reflexivity).
  assert (∀ a b : Key, key_eq a b = false → distinct [a; b]) as Hd by (intros a b E; split; [constructor; [exact E|constructor]|split; [constructor|exact I]]).
  destruct (set_operations_exact (S := list Key) [num 1; num 2] two_three [num 2; num 3]) as (_ & _ & Hy & _).
  - exact (Hd _ _ E1).
  - split; [reflexivity| | |reflexivity].
    + exists (F64.of_Z 2). split; [reflexivity|vm_compute; reflexivity].
    + exists (λ e, inr (of_bool (mem e [num 2; num 3]))). split; [reflexivity|]. intros e. eexists. split; [reflexivity|apply truthy_bool].
  - destruct (Hy (Hd _ _ E2)) as (y & E & _ & Hm). exists y. split; [exact E|]. exact (Hm (num 3)).
Defined.

(** *** Where the code and the lists or the standard part *)

(** After a clear inside [forEach] the list visits the entries added next;
    the code, whose slots start again at 0, does not reach them. *)
Lemma clear_in_loop_skips :
  answer (run (M := map_machine (num 0)) 10 clear_inside [] (mk_world MapInner.new [])) = Some (VPrim (PBool false)) ∧
  answer (run (M := ungated (map_data (num 0))) 10 clear_inside [] (mk_world [] [])) = Some (VPrim (PBool true)).
Proof. split; vm_compute; reflexivity. Qed.

(** A Set whose loop deletes the element it visits keeps every other one. *)
Lemma delete_in_loop_skips :
  answer (run (M := set_machine (S := list Key) (num 0)) 10 delete_visited [] (mk_world [] [])) = Some (VPrim (PDouble (F64.of_Z 1))) ∧
  answer (run (M := ungated (set_data (num 0))) 10 delete_visited [] (mk_world [] [])) = Some (VPrim (PDouble (F64.of_Z 0))).
Proof. split; vm_compute; reflexivity. Qed.

(** [Map.set] keeps the key -0, which the standard turns into +0. *)
Lemma negative_zero_kept : answer (run (M := map_machine (num 0)) 10 first_key [] (mk_world MapInner.new [])) = Some (VPrim (PDouble (2^63))).
Proof. vm_compute. reflexivity. Qed.

(** A set-like argument that gives one key twice takes it out again. *)
Lemma double_key_lost :
  match SetOps.set_symmetric_difference (S := list Key) [] (mk_other true (inr (F64.of_Z 1)) (inr (Some inr)) (inr (Some [inr (num 2); inr (num 2)]))) with
  | inr y => length y
  | inl _ => 1
  end = 0.
Proof. vm_compute. reflexivity. Qed.
