(* ===== verification/Digits.v ===== *)
(** * Exact digits of numbers (crates/oxide_builtins/src/number.rs)

    [toFixed], [toExponential] and [toPrecision] print the decimal expansion of a
    double, which is finite, rounded half up.  The code works on a small big
    number of 32-bit limbs ([Dec], least significant first), takes the digits
    from it and rounds the list of digits.  A limb, a digit and a mantissa are
    [Z] here, with the truncation to 32 bits written out; a double is its bits.

    The digits of a number are compared with [expand k], the integer part of
    the number times a power of ten. *)

From stdpp Require Import base tactics numbers list option strings.
From Stdlib Require Import ZArith Lia SpecFloat.
From S2P Require Import Prelude Unicode Float Coercion.

Open Scope Z_scope.

Module Dec.

Definition LIMB : Z := 2^32.

Definition from_u64 (v : Z) : list Z := [v mod LIMB; (v / LIMB) mod LIMB].

(** Leading zero limbs go, the lowest limb stays. *)
Fixpoint strip (limbs : list Z) : list Z :=
  match limbs with
  | [] => []
  | x :: rest => match strip rest with [] => if x =? 0 then [] else [x] | rest' => x :: rest' end
  end.
Definition trim (limbs : list Z) : list Z := match limbs with [] => [] | x :: rest => x :: strip rest end.

Definition is_zero (limbs : list Z) : bool := forallb (Z.eqb 0) limbs.

(** Left shift by [k] bits: each limb takes its low part from itself and the
    rest from the limb below. *)
Definition low (bs v : Z) : Z := if bs =? 0 then v else Z.shiftl v bs mod LIMB.
Definition carry (bs v : Z) : Z := if bs =? 0 then 0 else Z.shiftr v (32 - bs).

Fixpoint shl_limbs (bs below : Z) (limbs : list Z) : list Z :=
  match limbs with
  | [] => [carry bs below]
  | v :: rest => Z.lor (low bs v) (carry bs below) :: shl_limbs bs v rest
  end.

Definition shl (k : Z) (limbs : list Z) : list Z :=
  trim (replicate (Z.to_nat (k / 32)) 0 ++ shl_limbs (k mod 32) 0 limbs).

(** Right shift: the loop goes from the lowest limb upwards. *)
Fixpoint shr_limbs (bs borrow : Z) (limbs : list Z) : list Z :=
  match limbs with
  | [] => []
  | cur :: rest => Z.lor (Z.shiftr cur bs) borrow :: shr_limbs bs (Z.shiftl cur (32 - bs) mod LIMB) rest
  end.

Definition shr (q : Z) (limbs : list Z) : list Z :=
  let ws := Z.to_nat (q / 32) in
  if decide (length limbs <= ws)%nat then [0]
  else
    let limbs := drop ws limbs in
    let bs := q mod 32 in
    trim (if bs =? 0 then limbs else shr_limbs bs 0 limbs).

(** The low [q] bits. *)
Definition rem_pow2 (q : Z) (limbs : list Z) : list Z :=
  if Z.of_nat (length limbs) * 32 <=? q then limbs
  else
    let wm := Z.to_nat (q / 32) in
    let bm := q mod 32 in
    trim (take wm limbs ++ [if bm =? 0 then 0 else Z.land (nth wm limbs 0) (2^bm - 1)]).

Fixpoint mul_limbs (k carry : Z) (limbs : list Z) : list Z :=
  match limbs with
  | [] => if carry =? 0 then [] else [carry]
  | limb :: rest => let acc := limb * k + carry in acc mod LIMB :: mul_limbs k (acc / LIMB) rest
  end.
Definition mul_small (k : Z) (limbs : list Z) : list Z := mul_limbs k 0 limbs.

(** Division by 10, from the highest limb downwards; the remainder is a digit. *)
Fixpoint div_limbs (limbs : list Z) : list Z * Z :=
  match limbs with
  | [] => ([], 0)
  | x :: rest => let '(rest', rem) := div_limbs rest in let cur := rem * LIMB + x in ((cur / 10) mod LIMB :: rest', cur mod 10)
  end.
Definition divmod10 (limbs : list Z) : list Z * Z := let '(limbs', rem) := div_limbs limbs in (trim limbs', rem).

End Dec.

Module Digits.
Import F64 Dec.

(** ** Taking digits *)

Fixpoint count_digits (fuel : nat) (tmp : list Z) (d : nat) : res nat :=
  if is_zero tmp then Ok d
  else match fuel with O => Panic | S fuel => count_digits fuel (divmod10 tmp).1 (S d) end.

Fixpoint drop_digits (n : nat) (v : list Z) : list Z := match n with O => v | S n => drop_digits n (divmod10 v).1 end.

Fixpoint pop_digits (n : nat) (v : list Z) : list Z :=
  match n with O => [] | S n => let '(v', digit) := divmod10 v in digit :: pop_digits n v' end.

Fixpoint word_digits (fuel : nat) (ip : Z) : res (list Z) :=
  if 0 <? ip then
    match fuel with
    | O => Panic
    | S fuel => let* rest := word_digits fuel (ip / 10) in Ok (ip mod 10 :: rest)
    end
  else Ok [].

Fixpoint fraction_digits (fuel : nat) (q : Z) (count : nat) (r : list Z) (digits : list Z) (e : option Z) (pos : Z) : res (list Z * option Z) :=
  if bool_decide (length digits < count)%nat && negb (is_zero r) then
    match fuel with
    | O => Panic
    | S fuel =>
        let r := mul_small 10 r in
        let d := nth 0 (shr q r) 0 mod 256 in
        let r := rem_pow2 q r in
        let pos := pos + 1 in
        match e with
        | None => if d =? 0 then fraction_digits fuel q count r digits None pos else fraction_digits fuel q count r (digits ++ [d]) (Some (- pos)) pos
        | Some _ => fraction_digits fuel q count r (digits ++ [d]) e pos
        end
    end
  else Ok (digits, e).

(** Mantissa and exponent of a positive double. *)
Definition parts (x : N) : Z * Z :=
  let b := Z.of_N x in
  if b / 2^52 =? 0 then (b, -1074) else (b mod 2^52 + 2^52, b / 2^52 - 1075).

Definition significant_digits (x : N) (count : nat) : res (list Z * Z) :=
  let '(m, p) := parts x in
  if 0 <=? p then
    let v := shl p (from_u64 m) in
    let* d := count_digits (32 * length v) v 0 in
    let taken := Nat.min count d in
    Ok (reverse (pop_digits taken (drop_digits (d - taken) v)), Z.of_nat d - 1)
  else
    let q := - p in
    let '(int_part, r) := if q <? 64 then (m / 2^q, from_u64 (m mod 2^q)) else (0, from_u64 m) in
    let* id := word_digits 64 int_part in
    let '(digits, e) := if int_part =? 0 then ([], None) else (reverse id, Some (Z.of_nat (length id) - 1)) in
    let* out := fraction_digits (Z.to_nat q) q count r digits e 0 in
    Ok (out.1, default 0 out.2).

(** ** Rounding *)

(** The carry goes from place [k - 1] to the front. *)
Fixpoint carry_digits (k : nat) (out : list Z) (e : Z) : res (list Z * Z) :=
  match k with
  | O => Ok ([1], e + 1)
  | S i =>
      let* x := vec_get out i in
      if x + 1 <? 10 then Ok (<[i := x + 1]> out, e) else carry_digits i (<[i := 0]> out) e
  end.

(** Digit [i] of a list; 0 outside. *)
Definition dig (d : list Z) (i : Z) : Z := if 0 <=? i then nth (Z.to_nat i) d 0 else 0.

Definition round_digits (d : list Z) (e rd : Z) : res (list Z * Z) :=
  if dig d rd <? 5 then Ok (if rd <? 0 then [] else d, e) else carry_digits (Z.to_nat rd) d e.

(** ** Text *)

Definition digit_char (d : Z) : N := Z.to_N (48 + d).

(** The digits [from], [from + 1], ... *)
Fixpoint digit_chars (d : list Z) (from : Z) (n : nat) : list N :=
  match n with O => [] | S n => digit_char (dig d from) :: digit_chars d (from + 1) n end.

Definition sign_text (neg : bool) : list N := if neg then [45%N] else [].

Definition fixed_string (d : list Z) (e : Z) (f : nat) (neg : bool) : list N :=
  sign_text neg ++ (if e <? 0 then [48%N] else digit_chars d 0 (Z.to_nat (e + 1))) ++
  (if bool_decide (f = O) then [] else 46%N :: digit_chars d (e + 1) f).

Definition exp_string (d : list Z) (e : Z) (f : nat) (neg : bool) : list N :=
  sign_text neg ++ digit_char (dig d 0) :: (if bool_decide (f = O) then [] else 46%N :: digit_chars d 1 f) ++
  101%N :: (if e <? 0 then 45%N else 43%N) :: Coercion.decimal (Z.to_N (Z.abs e)).

(** ** The methods, after the conversion of the receiver and the argument *)

Inductive NumText := Text (t : list N) | RangeError.

Definition to_integer_or_infinity (n : N) : N :=
  if is_nan n || eqb n Coercion.ZERO then Coercion.ZERO else if is_infinite n then n else trunc n.

Definition within (lo hi : Z) (raw : N) : bool := leb (of_Z lo) raw && leb raw (of_Z hi).
Definition as_usize (raw : N) : nat := Z.to_nat (as_u64 raw).

Definition infinity_text (n : N) : list N := if is_sign_negative n then bytes_of "-Infinity" else bytes_of "Infinity".

Section methods.
Variable ryu : N → list N.
Variable lower_exp : N → list N.

Definition number_to_fixed (n raw : N) : res NumText :=
  if negb (within 0 100 raw) then Ok RangeError
  else if is_nan n then Ok (Text (bytes_of "NaN"))
  else if leb (of_Z (10^21)) (abs n) then
    Ok (Text (if ltb n Coercion.ZERO then 45%N :: Coercion.js_number_to_string ryu (neg n) else Coercion.js_number_to_string ryu n))
  else
    let f := as_usize raw in
    if eqb n Coercion.ZERO then Ok (Text (fixed_string [] 0 f false))
    else
      let* first := significant_digits (abs n) 1 in
      let e0 := first.2 in
      let* de := significant_digits (abs n) (Z.to_nat (Z.max (e0 + Z.of_nat f + 2) 1)) in
      let* de := round_digits de.1 de.2 (e0 + Z.of_nat f + 1) in
      Ok (Text (fixed_string de.1 de.2 f (ltb n Coercion.ZERO))).

Definition number_to_precision (n : N) (raw : option N) : res NumText :=
  match raw with
  | None => Ok (Text (Coercion.js_number_to_string ryu n))
  | Some raw =>
      if is_nan n then Ok (Text (bytes_of "NaN"))
      else if is_infinite n then Ok (Text (infinity_text n))
      else if negb (within 1 100 raw) then Ok RangeError
      else
        let precision := as_usize raw in
        if eqb n Coercion.ZERO then Ok (Text (48%N :: if bool_decide (1 < precision)%nat then 46%N :: replicate (precision - 1) 48%N else []))
        else
          let* de := significant_digits (abs n) (precision + 1) in
          let* de := round_digits de.1 de.2 (Z.of_nat precision) in
          let '(d, e) := de in
          let neg := ltb n Coercion.ZERO in
          Ok (Text (if (-6 <=? e) && (e <? Z.of_nat precision) then fixed_string d e (Z.to_nat (Z.of_nat precision - e - 1)) neg
                    else exp_string d e (precision - 1) neg))
  end.

(** [lower_exp] is the formatting of a double with [{:e}]. *)
Definition number_to_exponential (n : N) (raw : option N) : res NumText :=
  if is_nan n then Ok (Text (bytes_of "NaN"))
  else if is_infinite n then Ok (Text (infinity_text n))
  else
    let has_digits := match raw with Some raw => negb (is_nan raw) | None => false end in
    let digits := default NAN raw in
    if has_digits && negb (within 0 100 digits) then Ok RangeError
    else
      let neg := ltb n Coercion.ZERO in
      if eqb n Coercion.ZERO then Ok (Text (exp_string [] 0 (if has_digits then as_usize digits else 0) false))
      else if has_digits then
        let f := as_usize digits in
        let* de := significant_digits (abs n) (f + 2) in
        let* de := round_digits de.1 de.2 (Z.of_nat f + 1) in
        Ok (Text (exp_string de.1 de.2 f neg))
      else
        let s := lower_exp (abs n) in
        let s := match Coercion.position 101 s with
                 | Some e_pos => if bool_decide (nth (S e_pos) s 0%N = 45%N) then s else take (S e_pos) s ++ 43%N :: drop (S e_pos) s
                 | None => s
                 end in
        Ok (Text (sign_text neg ++ s)).
End methods.
End Digits.

(** ** Big numbers *)

Module DecFacts.
Import Dec.

Fixpoint value (limbs : list Z) : Z := match limbs with [] => 0 | x :: rest => x + LIMB * value rest end.

Definition wf (limbs : list Z) : Prop := Forall (λ x, 0 <= x < LIMB) limbs.

Lemma wf_nil : wf [].
Proof. constructor. Qed.

Lemma wf_one x : 0 <= x < LIMB → wf [x].
Proof. intros Hx. constructor; [exact Hx|constructor]. Qed.

Lemma limb_pos : 0 < LIMB.
Proof. done. Qed.

Lemma value_nonneg l : wf l → 0 <= value l.
Proof. pose proof limb_pos. induction 1 as [|x l Hx Hl IH]; cbn [value]; nia. Qed.

Lemma value_app l l' : value (l ++ l') = value l + LIMB ^ Z.of_nat (length l) * value l'.
Proof.
  induction l as [|x l IH]; cbn [app value length]; [rewrite Z.pow_0_r; lia|]. rewrite IH, Nat2Z.inj_succ, Z.pow_succ_r by lia. ring.
Qed.

Lemma value_lt l : wf l → value l < LIMB ^ Z.of_nat (length l).
Proof.
  pose proof limb_pos. induction 1 as [|x l Hx Hl IH]; cbn [value length]; [done|]. rewrite Nat2Z.inj_succ, Z.pow_succ_r by lia. nia.
Qed.

Lemma strip_ok l : wf l → wf (strip l) ∧ value (strip l) = value l.
Proof.
  induction 1 as [|x l Hx Hl [IHw IHv]]; cbn [strip]; [by split; [constructor|]|]. destruct (strip l) as [|y r] eqn:E; cbn [value].
  - cbn in IHv. destruct (Z.eqb_spec x 0) as [->|]; (split; [auto using wf_nil, wf_one|cbn [value]; lia]).
  - split; [by constructor|]. cbn [value] in *. lia.
Qed.

Lemma trim_ok l : wf l → wf (trim l) ∧ value (trim l) = value l.
Proof.
  intros Hl. destruct Hl as [|x l Hx Hl]; [by split; [constructor|]|]. destruct (strip_ok l Hl) as [Hw Hv]. cbn [trim value]. split; [by constructor|by rewrite Hv].
Qed.

Lemma is_zero_iff l : wf l → is_zero l = true ↔ value l = 0.
Proof.
  pose proof limb_pos. unfold is_zero. induction 1 as [|x l Hx Hl IH]; cbn [forallb value]; [done|]. rewrite andb_true_iff, Z.eqb_eq. pose proof (value_nonneg l Hl).
  rewrite IH. split; [intros [<- ->]; lia|]. intros E. assert (value l = 0) by nia. nia.
Qed.

Lemma from_u64_ok v : 0 <= v < 2^64 → wf (from_u64 v) ∧ value (from_u64 v) = v.
Proof.
  intros Hv. unfold from_u64. split; [constructor; [by apply Z.mod_pos_bound|apply wf_one; by apply Z.mod_pos_bound]|]. cbn [value].
  rewrite (Z.mod_small (v / LIMB)); [pose proof (Z.div_mod v LIMB); unfold LIMB in *; lia|].
  split; [apply Z.div_pos; unfold LIMB; lia|apply Z.div_lt_upper_bound; unfold LIMB; lia].
Qed.

Lemma mul_limbs_ok k : 0 <= k < LIMB → ∀ l c, wf l → 0 <= c < LIMB → wf (mul_limbs k c l) ∧ value (mul_limbs k c l) = value l * k + c.
Proof.
  intros Hk. induction l as [|x l IH]; intros c Hl Hc; cbn [mul_limbs].
  - destruct (Z.eqb_spec c 0) as [->|]; (split; [auto using wf_nil, wf_one|cbn [value]; lia]).
  - apply Forall_cons in Hl as [Hx Hl]. assert (0 <= (x * k + c) / LIMB < LIMB) as Hc'.
    { split; [apply Z.div_pos; [nia|done]|apply Z.div_lt_upper_bound; [done|nia]]. }
    destruct (IH _ Hl Hc') as [Hw Hv]. split; [constructor; [by apply Z.mod_pos_bound|done]|]. cbn [value]. rewrite Hv.
    pose proof (Z.div_mod (x * k + c) LIMB). lia.
Qed.

Lemma mul_small_ok l : wf l → wf (mul_small 10 l) ∧ value (mul_small 10 l) = value l * 10.
Proof. intros Hl. destruct (mul_limbs_ok 10 ltac:(unfold LIMB; lia) l 0 Hl ltac:(unfold LIMB; lia)) as [Hw Hv]. split; [done|]. unfold mul_small. lia. Qed.

Lemma div_limbs_ok l : wf l → wf (div_limbs l).1 ∧ value (div_limbs l).1 = value l / 10 ∧ (div_limbs l).2 = value l mod 10 ∧ length (div_limbs l).1 = length l.
Proof.
  induction 1 as [|x l Hx Hl IH]; cbn [div_limbs]; [by split_and!; [constructor|..]|].
  destruct (div_limbs l) as [l' r]. cbn [fst snd] in *. destruct IH as (Hw & Hv & Hr & Hlen). pose proof (Z.mod_pos_bound (value l) 10 ltac:(lia)) as Hm. pose proof (Z.div_mod (value l) 10 ltac:(lia)) as Hd.
  rewrite <- Hr in *. rewrite <- Hv in Hd. assert ((r * LIMB + x) / 10 < LIMB) as Hlt by (apply Z.div_lt_upper_bound; unfold LIMB in *; lia).
  assert (0 <= (r * LIMB + x) / 10) by (apply Z.div_pos; unfold LIMB in *; lia). rewrite (Z.mod_small ((r * LIMB + x) / 10)) by done.
  assert (x + LIMB * value l = (value l' * LIMB) * 10 + (r * LIMB + x)) as E by (rewrite Hd; ring).
  split_and!; [by constructor| | |cbn; by rewrite Hlen]; cbn [value]; rewrite E.
  - rewrite Z.div_add_l by lia. lia.
  - by rewrite (Z.add_comm (value l' * LIMB * 10)), Z.mod_add by lia.
Qed.

Lemma divmod10_ok l : wf l → wf (divmod10 l).1 ∧ value (divmod10 l).1 = value l / 10 ∧ (divmod10 l).2 = value l mod 10.
Proof.
  intros Hl. unfold divmod10. destruct (div_limbs_ok l Hl) as (Hw & Hv & Hr & _). destruct (div_limbs l) as [l' r]. cbn [fst snd] in *.
  destruct (trim_ok l' Hw) as [Hw' Hv']. split_and!; [done|by rewrite Hv'|done].
Qed.

(** *** Shifts *)

Lemma carry_ok bs v : 0 <= bs < 32 → 0 <= v < LIMB → carry bs v = v * 2^bs / LIMB ∧ 0 <= carry bs v < 2^bs.
Proof.
  intros Hb Hv. unfold carry. destruct (Z.eqb_spec bs 0) as [->|Hn].
  - rewrite Z.mul_1_r, Z.div_small by done. done.
  - rewrite Z.shiftr_div_pow2 by lia. assert (LIMB = 2^(32 - bs) * 2^bs) as E by (unfold LIMB; rewrite <- Z.pow_add_r by lia; f_equal; lia).
    pose proof (Z.pow_pos_nonneg 2 bs ltac:(lia) ltac:(lia)). pose proof (Z.pow_pos_nonneg 2 (32 - bs) ltac:(lia) ltac:(lia)).
    rewrite E, Z.div_mul_cancel_r by lia. split; [done|]. split; [apply Z.div_pos; lia|apply Z.div_lt_upper_bound; lia].
Qed.

Lemma low_ok bs v : 0 <= bs < 32 → 0 <= v < LIMB → low bs v = (v * 2^bs) mod LIMB.
Proof.
  intros Hb Hv. unfold low. destruct (Z.eqb_spec bs 0) as [->|Hn]; [by rewrite Z.mul_1_r, Z.mod_small|]. by rewrite Z.shiftl_mul_pow2 by lia.
Qed.

(** A number below [2^n] fills the low bits of a multiple of [2^n]. *)
Lemma lor_add a c n : 0 <= n → 0 <= c < 2^n → Z.lor (a * 2^n) c = a * 2^n + c.
Proof.
  intros Hn Hc. assert (Z.land (a * 2^n) c = 0) as H0.
  { apply Z.bits_inj'. intros i Hi. rewrite Z.land_spec, Z.bits_0. destruct (Z.lt_ge_cases i n); [by rewrite Z.mul_pow2_bits_low|].
    rewrite <- (Z.mod_small c (2^n)), Z.mod_pow2_bits_high by lia. apply andb_false_r. }
  by rewrite <- Z.lxor_lor, <- Z.add_nocarry_lxor.
Qed.

Lemma limb_split bs : 0 <= bs < 32 → LIMB = 2^(32 - bs) * 2^bs ∧ 0 < 2^bs ∧ 0 < 2^(32 - bs).
Proof. intros Hb. unfold LIMB. rewrite <- Z.pow_add_r by lia. split_and!; [f_equal; lia|apply Z.pow_pos_nonneg; lia..]. Qed.

(** The low part and the carry of the limb below do not overlap. *)
Lemma low_carry bs v c : 0 <= bs < 32 → 0 <= v < LIMB → 0 <= c < 2^bs → Z.lor (low bs v) c = (v * 2^bs) mod LIMB + c ∧ 0 <= (v * 2^bs) mod LIMB + c < LIMB.
Proof.
  intros Hb Hv Hc. rewrite low_ok by done. destruct (limb_split bs Hb) as (E & H1 & H2). rewrite E, Z.mul_mod_distr_r by lia.
  pose proof (Z.mod_pos_bound v (2^(32 - bs)) H2). split; [apply lor_add; lia|nia].
Qed.

Lemma shl_limbs_ok bs : 0 <= bs < 32 → ∀ l below, wf l → 0 <= below < LIMB →
  wf (shl_limbs bs below l) ∧ value (shl_limbs bs below l) = value l * 2^bs + carry bs below.
Proof.
  intros Hb. destruct (limb_split bs Hb) as (E & H1 & H2). induction l as [|v l IH]; intros below Hl Hbelow; cbn [shl_limbs value]; destruct (carry_ok bs below Hb Hbelow) as [_ Hc].
  - split; [apply wf_one; nia|lia].
  - apply Forall_cons in Hl as [Hv Hl]. destruct (IH v Hl Hv) as [Hw He]. destruct (low_carry bs v (carry bs below) Hb Hv Hc) as [-> Hlt].
    split; [by constructor|]. rewrite He. destruct (carry_ok bs v Hb Hv) as [-> _]. pose proof (Z.div_mod (v * 2^bs) LIMB ltac:(done)). lia.
Qed.

Lemma limb_pow k : 0 <= k → LIMB ^ k = 2 ^ (32 * k).
Proof. intros Hk. unfold LIMB. by rewrite <- Z.pow_mul_r by lia. Qed.

Lemma value_zeros n : wf (replicate n 0) ∧ value (replicate n 0) = 0.
Proof. induction n as [|n [IHw IHv]]; cbn [replicate value]; [by split; [constructor|]|]. split; [by constructor|lia]. Qed.

Lemma shl_ok k l : 0 <= k → wf l → wf (shl k l) ∧ value (shl k l) = value l * 2^k.
Proof.
  intros Hk Hl. unfold shl. pose proof (Z.mod_pos_bound k 32 ltac:(lia)) as Hb. destruct (shl_limbs_ok (k mod 32) Hb l 0 Hl ltac:(done)) as [Hw Hv].
  destruct (value_zeros (Z.to_nat (k / 32))) as [Hz1 Hz2]. pose proof (Z.div_pos k 32 Hk ltac:(lia)).
  destruct (trim_ok (replicate (Z.to_nat (k / 32)) 0 ++ shl_limbs (k mod 32) 0 l)) as [H1 H2]; [by apply Forall_app|]. split; [done|].
  rewrite H2, value_app, Hz2, Hv, length_replicate, Z2Nat.id, limb_pow by done. destruct (carry_ok (k mod 32) 0 Hb) as [-> _]; [done|]. rewrite Z.mul_0_l, Z.div_0_l by done.
  replace k with (32 * (k / 32) + k mod 32) at 3 by (symmetry; apply Z.div_mod; lia). rewrite Z.pow_add_r by lia. ring.
Qed.

Lemma value_drop n l : wf l → value (drop n l) = value l / LIMB ^ Z.of_nat n ∧ value (take n l) = value l mod LIMB ^ Z.of_nat n.
Proof.
  intros Hl. destruct (Nat.le_gt_cases (length l) n) as [Hn|Hn].
  - rewrite drop_ge, take_ge by done. pose proof (value_nonneg l Hl). pose proof (value_lt l Hl). pose proof (Z.pow_le_mono_r LIMB (Z.of_nat (length l)) (Z.of_nat n) ltac:(done) ltac:(lia)).
    rewrite Z.div_small, Z.mod_small by lia. done.
  - assert (wf (take n l) ∧ wf (drop n l)) as [H1 H2] by (split; [by apply Forall_take|by apply Forall_drop]).
    pose proof (value_nonneg _ H1). pose proof (value_lt _ H1) as Hlt. rewrite length_take_le in Hlt by lia.
    assert (value l = LIMB ^ Z.of_nat n * value (drop n l) + value (take n l)) as E.
    { rewrite <- (take_drop n l) at 1. rewrite value_app, length_take_le by lia. lia. }
    split; [apply (Z.div_unique_pos _ _ _ (value (take n l))); [lia|done]|apply (Z.mod_unique_pos _ _ (value (drop n l))); [lia|done]].
Qed.

Lemma nth_drop n l : nth n l 0 = nth 0 (drop n l) 0.
Proof. revert n. induction l as [|x l IH]; intros [|n]; cbn; [done..|apply IH]. Qed.

(** Where the shift is right: when the quotient fits the lowest limb left. *)
Lemma shr_first q l : 0 <= q → wf l → value l < LIMB ^ (q / 32 + 1) → nth 0 (shr q l) 0 = value l / 2^q.
Proof.
  intros Hq Hl Hv. unfold shr. pose proof (Z.div_pos q 32 Hq ltac:(lia)) as Hws. pose proof (Z.mod_pos_bound q 32 ltac:(lia)) as Hb. pose proof (value_nonneg l Hl) as H0.
  assert (2^q = LIMB ^ (q / 32) * 2^(q mod 32)) as Eq.
  { rewrite limb_pow by done. rewrite <- Z.pow_add_r by lia. f_equal. apply Z.div_mod. lia. }
  destruct (decide _) as [Hlen|Hlen].
  - pose proof (value_lt l Hl). pose proof (Z.pow_le_mono_r LIMB (Z.of_nat (length l)) (q / 32) ltac:(done) ltac:(lia)). pose proof (Z.pow_pos_nonneg 2 (q mod 32) ltac:(lia) ltac:(lia)).
    rewrite Z.div_small; [done|]. rewrite Eq. nia.
  - destruct (value_drop (Z.to_nat (q / 32)) l Hl) as [Ed _]. rewrite Z2Nat.id in Ed by done. assert (wf (drop (Z.to_nat (q / 32)) l)) as Hwd by by apply Forall_drop.
    assert (value (drop (Z.to_nat (q / 32)) l) < LIMB) as Hlt by (rewrite Ed; apply Z.div_lt_upper_bound; [apply Z.pow_pos_nonneg; done|rewrite Z.pow_add_r in Hv by lia; lia]).
    destruct (drop (Z.to_nat (q / 32)) l) as [|x r] eqn:El; [apply (f_equal length) in El; rewrite length_drop in El; cbn in El; lia|].
    apply Forall_cons in Hwd as [Hx Hr]. pose proof (value_nonneg r Hr). cbn [value] in Ed, Hlt. assert (value r = 0) as Er by nia. rewrite Er in Ed.
    rewrite Eq, <- Z.div_div, <- Ed by (apply Z.pow_nonzero || apply Z.pow_pos_nonneg; lia). rewrite Z.mul_0_r, Z.add_0_r.
    destruct (Z.eqb_spec (q mod 32) 0) as [->|]; cbn [trim nth shr_limbs]; [by rewrite Z.div_1_r|]. rewrite Z.lor_0_r, Z.shiftr_div_pow2 by lia. done.
Qed.

Lemma rem_pow2_ok q l : 0 <= q → wf l → wf (rem_pow2 q l) ∧ value (rem_pow2 q l) = value l mod 2^q.
Proof.
  intros Hq Hl. unfold rem_pow2. pose proof (Z.div_pos q 32 Hq ltac:(lia)) as Hws. pose proof (Z.mod_pos_bound q 32 ltac:(lia)) as Hb. pose proof (value_nonneg l Hl) as H0.
  pose proof (Z.div_mod q 32 ltac:(lia)) as Edm. destruct (Z.leb_spec (Z.of_nat (length l) * 32) q) as [Hlen|Hlen].
  - split; [done|]. pose proof (value_lt l Hl) as Hlt. rewrite limb_pow in Hlt by lia. rewrite Z.mod_small; [done|]. split; [done|].
    eapply Z.lt_le_trans; [exact Hlt|]. apply Z.pow_le_mono_r; lia.
  - set (n := Z.to_nat (q / 32)). assert (n < length l)%nat as Hn by lia. destruct (value_drop n l Hl) as [Ed Et]. assert (Z.of_nat n = q / 32) as En by (unfold n; lia). rewrite En in Ed, Et.
    assert (2^q = LIMB ^ (q / 32) * 2^(q mod 32)) as Eq by (rewrite limb_pow, <- Z.pow_add_r by lia; f_equal; lia).
    set (b := if q mod 32 =? 0 then 0 else _). assert (0 <= nth n l 0 < LIMB) as Hnth.
    { rewrite nth_lookup. destruct (lookup_lt_is_Some_2 l n Hn) as [x Ex]. rewrite Ex. exact (Forall_lookup_1 _ _ _ _ Hl Ex). }
    assert (b = nth n l 0 mod 2^(q mod 32) ∧ 0 <= b < LIMB) as [Eb Hbb].
    { unfold b. destruct (limb_split (q mod 32) Hb) as (E & H1 & H2). destruct (Z.eqb_spec (q mod 32) 0) as [->|]; [by rewrite Z.mod_1_r|].
      replace (2^(q mod 32) - 1) with (Z.ones (q mod 32)) by (rewrite Z.ones_equiv; lia). rewrite Z.land_ones by lia. pose proof (Z.mod_pos_bound (nth n l 0) (2^(q mod 32)) H1). split; [done|nia]. }
    destruct (trim_ok (take n l ++ [b])) as [H1 H2]; [apply Forall_app; split; [by apply Forall_take|by apply wf_one]|]. split; [done|].
    rewrite H2, value_app, length_take_le by lia. cbn [value]. rewrite En, Et, Eq, Z.rem_mul_r, <- Ed by (apply Z.pow_nonzero || apply Z.pow_pos_nonneg; lia).
    assert (nth n l 0 mod 2^(q mod 32) = value (drop n l) mod 2^(q mod 32)) as <-; [|rewrite Eb; ring].
    rewrite nth_drop. destruct (drop n l) as [|x r]; [done|]. cbn [nth value]. destruct (limb_split (q mod 32) Hb) as (E & H3 & H4).
    rewrite E, (Z.mul_comm (2^(32 - q mod 32))), <- Z.mul_assoc, (Z.mul_comm (2^(q mod 32))), Z_mod_plus_full. done.
Qed.
End DecFacts.

(** ** Decimal expansions *)

Module DigitsFacts.
Import Dec DecFacts Digits.

Section expansion.
Variables X Q : Z.
Hypothesis HX : 0 <= X.
Hypothesis HQ : 0 < Q.

Definition num (k : Z) : Z := X * 10 ^ Z.max k 0.
Definition den (k : Z) : Z := Q * 10 ^ Z.max (- k) 0.

(** The integer part of [X / Q * 10^k], and that number rounded half up. *)
Definition expand (k : Z) : Z := num k / den k.
Definition half_up (k : Z) : Z := (2 * num k + den k) / (2 * den k).

Lemma num_den_pos k : 0 <= num k ∧ 0 < den k.
Proof. unfold num, den. pose proof (Z.pow_pos_nonneg 10 (Z.max k 0)). pose proof (Z.pow_pos_nonneg 10 (Z.max (- k) 0)). nia. Qed.

Lemma expand_nonneg k : 0 <= expand k.
Proof. destruct (num_den_pos k). apply Z.div_pos; lia. Qed.

Lemma expand_succ k : expand (k + 1) = 10 * num k / den k.
Proof.
  unfold expand, num, den. destruct (Z.le_gt_cases 0 k) as [Hk|Hk].
  - replace (Z.max (k + 1) 0) with (Z.max k 0 + 1) by lia. replace (Z.max (- (k + 1)) 0) with (Z.max (- k) 0) by lia.
    rewrite Z.pow_add_r by lia. f_equal. lia.
  - replace (Z.max (k + 1) 0) with 0 by lia. replace (Z.max k 0) with 0 by lia. replace (Z.max (- k) 0) with (Z.max (- (k + 1)) 0 + 1) by lia.
    rewrite Z.pow_add_r by lia. pose proof (Z.pow_pos_nonneg 10 (Z.max (- (k + 1)) 0)).
    replace (Q * (10 ^ Z.max (- (k + 1)) 0 * 10 ^ 1)) with (10 * (Q * 10 ^ Z.max (- (k + 1)) 0)) by lia. rewrite Z.div_mul_cancel_l by lia. done.
Qed.

Lemma expand_pred k : expand k = expand (k + 1) / 10.
Proof.
  rewrite expand_succ. destruct (num_den_pos k). rewrite Z.div_div by lia. unfold expand.
  rewrite (Z.mul_comm (den k)), Z.div_mul_cancel_l by lia. done.
Qed.

Lemma expand_down k j : expand (k - Z.of_nat j) = expand k / 10 ^ Z.of_nat j.
Proof.
  induction j as [|j IH]; [by rewrite Z.sub_0_r, Z.div_1_r|]. rewrite expand_pred. replace (k - Z.of_nat (S j) + 1) with (k - Z.of_nat j) by lia.
  rewrite IH, Z.div_div by (try apply Z.pow_nonzero; lia). f_equal. rewrite Nat2Z.inj_succ, Z.pow_succ_r by lia. ring.
Qed.

Lemma half_up_digit k : half_up k = expand k + (if 5 <=? expand (k + 1) mod 10 then 1 else 0).
Proof.
  rewrite expand_succ. unfold half_up, expand. destruct (num_den_pos k) as [Hn Hd]. generalize dependent (den k). generalize dependent (num k). intros n Hn d Hd.
  pose proof (Z.div_mod n d ltac:(lia)) as E. pose proof (Z.mod_pos_bound n d Hd) as Hr. set (a := n / d) in *. set (r := n mod d) in *.
  assert (10 * n / d = a * 10 + 10 * r / d) as -> by (rewrite <- Z.div_add_l by lia; f_equal; lia).
  assert (0 <= 10 * r / d < 10) as Hlt by (split; [apply Z.div_pos; lia|apply Z.div_lt_upper_bound; lia]).
  rewrite (Z.add_comm (a * 10)), Z.mod_add, Z.mod_small by lia. destruct (Z.leb_spec 5 (10 * r / d)) as [H5|H5].
  - symmetry. apply (Z.div_unique_pos _ _ _ (2 * r - d)); [|lia]. pose proof (Z.mul_div_le (10 * r) d Hd). nia.
  - symmetry. apply (Z.div_unique_pos _ _ _ (2 * r + d)); [|lia]. pose proof (Z.mul_succ_div_gt (10 * r) d Hd). nia.
Qed.
End expansion.

(** *** Lists of digits *)

Definition digits_ok (d : list Z) : Prop := Forall (λ x, 0 <= x < 10) d.

Definition val (d : list Z) : Z := fold_left (λ acc x, acc * 10 + x) d 0.

Notation pow10 n := (10 ^ Z.of_nat n).

Lemma pow10_pos n : 0 < pow10 n.
Proof. apply Z.pow_pos_nonneg; lia. Qed.

Lemma val_cons x d : val (x :: d) = x * pow10 (length d) + val d.
Proof.
  assert (∀ d acc, fold_left (λ acc x, acc * 10 + x) d acc = acc * pow10 (length d) + val d) as H.
  { clear. unfold val. induction d as [|x d IH]; intros acc; cbn [fold_left length]; [rewrite Z.pow_0_r; lia|].
    rewrite IH, (IH (0 * 10 + x)), Nat2Z.inj_succ, Z.pow_succ_r by lia. ring. }
  unfold val at 1. cbn [fold_left]. by rewrite H.
Qed.

Lemma val_app d d' : val (d ++ d') = val d * pow10 (length d') + val d'.
Proof.
  induction d as [|x d IH]; [done|]. cbn [app]. rewrite !val_cons, IH, length_app, Nat2Z.inj_add, Z.pow_add_r by lia. ring.
Qed.

Lemma val_bound d : digits_ok d → 0 <= val d < pow10 (length d).
Proof.
  induction 1 as [|x d Hx Hd IH]; [done|]. rewrite val_cons. cbn [length]. rewrite Nat2Z.inj_succ, Z.pow_succ_r by lia. nia.
Qed.

Lemma val_take n d : digits_ok d → (n <= length d)%nat → val (take n d) = val d / pow10 (length d - n).
Proof.
  intros Hd Hn. rewrite <- (take_drop n d) at 2. rewrite val_app, length_drop. pose proof (pow10_pos (length d - n)).
  rewrite Z.div_add_l, Z.div_small, Z.add_0_r by (lia || (rewrite <- length_drop; apply val_bound; by apply Forall_drop)). done.
Qed.

Lemma val_nth d i : digits_ok d → (i < length d)%nat → nth i d 0 = val d / pow10 (length d - S i) mod 10.
Proof.
  intros Hd Hi. rewrite <- val_take by (done || lia). destruct (lookup_lt_is_Some_2 d i Hi) as [x Hx].
  rewrite (take_S_r d i x Hx), val_app, nth_lookup, Hx. cbn [length]. change (pow10 1) with 10. cbn [default val fold_left]. rewrite Z.add_comm, Z.mod_add by lia.
  rewrite Z.mul_0_l, Z.add_0_l. symmetry. apply Z.mod_small. exact (Forall_lookup_1 _ _ _ _ Hd Hx).
Qed.

Lemma val_zeros n : digits_ok (replicate n 0) ∧ val (replicate n 0) = 0.
Proof.
  induction n as [|n [IHd IHv]]; cbn [replicate]; [by split; [constructor|]|]. rewrite val_cons, IHv. split; [by constructor|lia].
Qed.

(** *** What it means to be the first digits of [X / Q] *)

Record digits_of (X Q : Z) (count : nat) (d : list Z) (e : Z) : Prop := {
  of_digits : digits_ok d;
  of_val : val d = expand X Q (Z.of_nat (length d) - 1 - e);
  of_count : (count <= length d)%nat ∨
    ∀ j, expand X Q (Z.of_nat (length d) - 1 - e + Z.of_nat j) = expand X Q (Z.of_nat (length d) - 1 - e) * pow10 j;
  of_first : expand X Q (- e - 1) = 0 ∧ 0 < expand X Q (- e);
}.

(** The first [n] digits, filled up with zeros. *)
Definition padded (n : nat) (d : list Z) : list Z := take n (d ++ replicate n 0).

Lemma padded_length n d : length (padded n d) = n.
Proof. unfold padded. rewrite length_take, length_app, length_replicate. lia. Qed.

Lemma padded_ok n d : digits_ok d → digits_ok (padded n d).
Proof. intros Hd. apply Forall_take, Forall_app. split; [done|apply val_zeros]. Qed.

Lemma padded_nth n d i : (i < n)%nat → nth i (padded n d) 0 = nth i d 0.
Proof.
  intros Hi. unfold padded. rewrite !nth_lookup, lookup_take_lt by done. destruct (Nat.lt_ge_cases i (length d)) as [H|H]; [by rewrite lookup_app_l|].
  rewrite lookup_app_r, lookup_replicate_2 by lia. by rewrite (lookup_ge_None_2 d) by done.
Qed.

Lemma padded_val X Q count d e n : 0 <= X → 0 < Q → digits_of X Q count d e → (n <= count)%nat → val (padded n d) = expand X Q (Z.of_nat n - 1 - e).
Proof.
  intros HX HQ [Hd Hv Hc _] Hn. destruct (Nat.le_gt_cases n (length d)) as [Hl|Hl].
  - unfold padded. rewrite take_app_le by done. rewrite val_take, Hv by done. rewrite <- expand_down by done. f_equal. lia.
  - unfold padded. rewrite take_app_ge, take_replicate by lia. destruct (val_zeros ((n - length d) `min` n)) as [_ Hz].
    rewrite val_app, Hz, length_replicate, Hv, Z.add_0_r. destruct Hc as [Hc|Hc]; [lia|]. rewrite <- Hc. f_equal. lia.
Qed.

(** *** Integers *)

Lemma count_digits_ok fuel : ∀ l d0, wf l → value l < 2 ^ Z.of_nat fuel →
  ∃ n, count_digits fuel l d0 = Ok (d0 + n)%nat ∧ value l < pow10 n ∧ (value l ≠ 0 → (0 < n)%nat ∧ pow10 (n - 1) <= value l).
Proof.
  induction fuel as [|fuel IH]; intros l d0 Hl Hv; cbn [count_digits]; pose proof (value_nonneg l Hl) as H0; destruct (is_zero l) eqn:Ez.
  - apply is_zero_iff in Ez; [|done]. exists 0%nat. rewrite Nat.add_0_r, Ez. done.
  - exfalso. assert (value l = 0) as E by (cbn in Hv; lia). apply is_zero_iff in E; [|done]. by rewrite E in Ez.
  - apply is_zero_iff in Ez; [|done]. exists 0%nat. rewrite Nat.add_0_r, Ez. done.
  - destruct (divmod10_ok l Hl) as (Hw & Ev & _). destruct (IH (divmod10 l).1 (S d0) Hw) as (n & En & Hn & Hn').
    { rewrite Ev. apply Z.div_lt_upper_bound; [lia|]. rewrite Nat2Z.inj_succ, Z.pow_succ_r in Hv by lia. lia. }
    exists (S n). rewrite En, Ev in *. pose proof (Z.div_mod (value l) 10 ltac:(lia)). pose proof (Z.mod_pos_bound (value l) 10 ltac:(lia)).
    split_and!; [f_equal; lia|rewrite Nat2Z.inj_succ, Z.pow_succ_r by lia; lia|]. intros Hne. split; [lia|]. replace (S n - 1)%nat with n by lia.
    destruct n as [|n]; [cbn; lia|]. destruct (Z.eq_dec (value l / 10) 0) as [E|E]; [|destruct (Hn' E) as [_ H']; replace (S n - 1)%nat with n in H' by lia; rewrite Nat2Z.inj_succ, Z.pow_succ_r by lia; lia].
    exfalso. assert (is_zero (divmod10 l).1 = true) as Ez' by (apply is_zero_iff; [done|by rewrite Ev]). destruct fuel; cbn [count_digits] in En; rewrite Ez' in En; injection En; lia.
Qed.

Lemma drop_digits_ok n : ∀ l, wf l → wf (drop_digits n l) ∧ value (drop_digits n l) = value l / pow10 n.
Proof.
  induction n as [|n IH]; intros l Hl; cbn [drop_digits]; [by rewrite Z.div_1_r|]. destruct (divmod10_ok l Hl) as (Hw & Ev & _).
  destruct (IH _ Hw) as [Hw' ->]. split; [done|]. rewrite Ev, Z.div_div, Nat2Z.inj_succ, Z.pow_succ_r by (pose proof (pow10_pos n); lia). done.
Qed.

Lemma pop_digits_ok n : ∀ l, wf l → digits_ok (pop_digits n l) ∧ length (pop_digits n l) = n ∧ val (reverse (pop_digits n l)) = value l mod pow10 n.
Proof.
  induction n as [|n IH]; intros l Hl; cbn [pop_digits]; [by rewrite Z.mod_1_r; split_and!; [constructor|..]|].
  destruct (divmod10_ok l Hl) as (Hw & Ev & Er). destruct (divmod10 l) as [l' r]. cbn [fst snd] in *. destruct (IH l' Hw) as (Hd & Hlen & Hv).
  pose proof (Z.mod_pos_bound (value l) 10 ltac:(lia)). split_and!; [constructor; [lia|done]|cbn; by rewrite Hlen|].
  rewrite reverse_cons, val_app, Hv, Ev, Er. cbn [length]. rewrite (Nat2Z.inj_succ n), Z.pow_succ_r, Z.rem_mul_r by (pose proof (pow10_pos n); lia).
  change (val [value l mod 10]) with (0 * 10 + value l mod 10). change (pow10 1) with 10. lia.
Qed.

Lemma expand_int V k : 0 <= V → expand V 1 (Z.of_nat k) = V * pow10 k ∧ expand V 1 (- Z.of_nat k) = V / pow10 k.
Proof.
  intros HV. unfold expand, num, den. split.
  - rewrite Z.max_l, Z.max_r by lia. rewrite Z.mul_1_l, Z.div_1_r. done.
  - rewrite Z.max_r, Z.max_l by lia. rewrite Z.opp_involutive, Z.mul_1_l, Z.mul_1_r. done.
Qed.

Lemma integer_digits v count d : wf v → 0 < value v → (0 < count)%nat → value v < pow10 d → (0 < d)%nat → pow10 (d - 1) <= value v →
  digits_of (value v) 1 count (reverse (pop_digits (Nat.min count d) (drop_digits (d - Nat.min count d) v))) (Z.of_nat d - 1).
Proof.
  intros Hv H0 Hc Hlt Hd Hge. set (t := Nat.min count d). destruct (drop_digits_ok (d - t) v Hv) as [Hw Ev]. destruct (pop_digits_ok t _ Hw) as (Hdg & Hlen & Hval).
  set (ds := reverse _) in *. assert (length ds = t) as Elen by (unfold ds; by rewrite length_reverse). assert (val ds = value v / pow10 (d - t)) as Eval.
  { rewrite Hval, Ev. apply Z.mod_small. pose proof (pow10_pos (d - t)). split; [apply Z.div_pos; lia|]. apply Z.div_lt_upper_bound; [done|].
    rewrite <- Z.pow_add_r by lia. replace (Z.of_nat (d - t) + Z.of_nat t) with (Z.of_nat d) by lia. done. }
  assert (expand (value v) 1 (Z.of_nat t - 1 - (Z.of_nat d - 1)) = value v / pow10 (d - t)) as Eexp.
  { replace (Z.of_nat t - 1 - (Z.of_nat d - 1)) with (- Z.of_nat (d - t)) by lia. by apply expand_int; lia. }
  split; rewrite ?Elen.
  - by apply Forall_reverse.
  - by rewrite Eexp.
  - destruct (Nat.le_gt_cases count d) as [Hcd|Hcd]; [left; lia|]. right. intros j. replace (Z.of_nat t - 1 - (Z.of_nat d - 1) + Z.of_nat j) with (Z.of_nat j) by lia.
    rewrite (proj1 (expand_int (value v) j ltac:(lia))), Eexp. replace (d - t)%nat with 0%nat by lia. by rewrite Z.div_1_r.
  - split.
    + replace (- (Z.of_nat d - 1) - 1) with (- Z.of_nat d) by lia. rewrite (proj2 (expand_int (value v) d ltac:(lia))). apply Z.div_small. lia.
    + replace (- (Z.of_nat d - 1)) with (- Z.of_nat (d - 1)) by lia. rewrite (proj2 (expand_int (value v) (d - 1) ltac:(lia))). apply Z.div_str_pos. pose proof (pow10_pos (d - 1)). lia.
Qed.

(** *** Fractions *)

Lemma word_digits_ok fuel : ∀ ip, 0 <= ip < 2 ^ Z.of_nat fuel → ∃ id, word_digits fuel ip = Ok id ∧ digits_ok id ∧ val (reverse id) = ip ∧
  (ip = 0 → id = []) ∧ (0 < ip → (0 < length id)%nat ∧ pow10 (length id - 1) <= ip).
Proof.
  induction fuel as [|fuel IH]; intros ip Hip; cbn [word_digits]; destruct (Z.ltb_spec 0 ip) as [H0|H0].
  - cbn in Hip. lia.
  - exists []. assert (ip = 0) as -> by lia. split_and!; [done|constructor|done|done|lia].
  - rewrite Nat2Z.inj_succ, Z.pow_succ_r in Hip by lia. pose proof (Z.div_mod ip 10 ltac:(lia)) as Ed. pose proof (Z.mod_pos_bound ip 10 ltac:(lia)) as Hm.
    destruct (IH (ip / 10)) as (id & -> & Hd & Hv & Hz & Hl); [split; [apply Z.div_pos; lia|apply Z.div_lt_upper_bound; lia]|].
    exists (ip mod 10 :: id). cbn [res_bind]. split_and!; [done|by constructor| |lia|].
    + rewrite reverse_cons, val_app, Hv. change (val [ip mod 10]) with (0 * 10 + ip mod 10). cbn [length]. change (pow10 1) with 10. lia.
    + intros _. split; [cbn; lia|]. cbn [length]. replace (S (length id) - 1)%nat with (length id) by lia.
      destruct (Z.eq_dec (ip / 10) 0) as [E|E]; [rewrite (Hz E); cbn; lia|]. destruct Hl as [Hl Hl']; [pose proof (Z.div_pos ip 10); lia|].
      replace (length id) with (S (length id - 1)) by lia. rewrite Nat2Z.inj_succ, Z.pow_succ_r by lia. lia.
  - exists []. assert (ip = 0) as -> by lia. split_and!; [done|constructor|done|done|lia].
Qed.

Section fraction.
Variables m q : Z.
Hypothesis Hm : 0 < m.
Hypothesis Hq : 0 < q.
Notation ex := (expand m (2 ^ q)).

Lemma Q_pos : 0 < 2 ^ q.
Proof. apply Z.pow_pos_nonneg; lia. Qed.

Lemma expand_frac k : 0 <= k → ex k = m * 10 ^ k / 2 ^ q.
Proof. intros Hk. unfold expand, num, den. rewrite Z.max_l, Z.max_r by lia. by rewrite Z.mul_1_r. Qed.

(** What is left after [pos] digits of the fraction. *)
Definition left_over (pos : Z) : Z := m * 10 ^ pos mod 2 ^ q.

Lemma left_over_step pos : 0 <= pos → 10 * left_over pos mod 2 ^ q = left_over (pos + 1) ∧ ex (pos + 1) = 10 * ex pos + 10 * left_over pos / 2 ^ q ∧
  0 <= 10 * left_over pos / 2 ^ q < 10.
Proof.
  intros Hp. pose proof Q_pos as HQ. unfold left_over. pose proof (Z.mod_pos_bound (m * 10 ^ pos) (2 ^ q) HQ) as Hr. split_and!.
  - rewrite Z.mul_mod_idemp_r, Z.pow_add_r by lia. f_equal. lia.
  - rewrite expand_succ by lia. unfold expand, num, den. rewrite Z.max_l, Z.max_r by lia. rewrite Z.mul_1_r.
    pose proof (Z.div_mod (m * 10 ^ pos) (2 ^ q) ltac:(lia)) as E. rewrite E at 1.
    replace (10 * (2 ^ q * (m * 10 ^ pos / 2 ^ q) + m * 10 ^ pos mod 2 ^ q)) with ((10 * (m * 10 ^ pos / 2 ^ q)) * 2 ^ q + 10 * (m * 10 ^ pos mod 2 ^ q)) by ring.
    by rewrite Z.div_add_l by lia.
  - apply Z.div_pos; lia.
  - apply Z.div_lt_upper_bound; lia.
Qed.

Lemma left_over_end pos : q <= pos → left_over pos = 0.
Proof.
  intros Hp. unfold left_over. replace (m * 10 ^ pos) with ((m * 5 ^ pos * 2 ^ (pos - q)) * 2 ^ q); [apply Z.mod_mul; pose proof Q_pos; lia|].
  change 10 with (5 * 2). rewrite Z.pow_mul_l. replace pos with ((pos - q) + q) at 4 by lia. rewrite (Z.pow_add_r 2) by lia. ring.
Qed.

Lemma left_over_exact pos j : 0 <= pos → left_over pos = 0 → ex (pos + Z.of_nat j) = ex pos * pow10 j.
Proof.
  intros Hp H0. pose proof Q_pos as HQ. rewrite !expand_frac by lia. unfold left_over in H0.
  pose proof (Z.div_mod (m * 10 ^ pos) (2 ^ q) ltac:(lia)) as E. rewrite H0, Z.add_0_r in E. set (a := m * 10 ^ pos / 2 ^ q) in *.
  replace (m * 10 ^ (pos + Z.of_nat j)) with (a * pow10 j * 2 ^ q) by (rewrite Z.pow_add_r, Z.mul_assoc, E by lia; ring). by rewrite Z.div_mul by lia.
Qed.

(** The digits found so far. *)
Definition so_far (digits : list Z) (e : option Z) (pos : Z) : Prop :=
  digits_ok digits ∧
  match e with
  | None => digits = [] ∧ ex pos = 0
  | Some e => val digits = ex pos ∧ Z.of_nat (length digits) = e + 1 + pos ∧ ex (- e - 1) = 0 ∧ 0 < ex (- e)
  end.

(** The shift by [q] bits is right because a digit needs four bits. *)
Hypothesis Hshift : q mod 32 <= 28.

Lemma next_digit r pos : 0 <= pos → wf r → value r = left_over pos →
  nth 0 (shr q (mul_small 10 r)) 0 mod 256 = 10 * left_over pos / 2 ^ q ∧ wf (rem_pow2 q (mul_small 10 r)) ∧ value (rem_pow2 q (mul_small 10 r)) = left_over (pos + 1).
Proof.
  intros Hp Hr Ev. destruct (mul_small_ok r Hr) as [Hw Hv]. destruct (left_over_step pos Hp) as (E1 & _ & E3). pose proof Q_pos as HQ.
  destruct (rem_pow2_ok q (mul_small 10 r) ltac:(lia) Hw) as [Hw' Hv']. split_and!; [|done|].
  - rewrite shr_first; [| lia|done|].
    + rewrite Hv, Ev, Z.mul_comm. apply Z.mod_small. lia.
    + rewrite Hv, Ev. pose proof (Z.div_mod q 32 ltac:(lia)). assert (left_over pos < 2 ^ q) by (apply Z.mod_pos_bound; lia).
      rewrite limb_pow by (pose proof (Z.div_pos q 32); lia). apply Z.lt_le_trans with (2 ^ (q + 4)); [rewrite Z.pow_add_r by lia; lia|]. apply Z.pow_le_mono_r; lia.
  - rewrite Hv', Hv, Ev, Z.mul_comm. exact E1.
Qed.

Lemma so_far_step digits e pos d : 0 <= pos → so_far digits e pos → d = 10 * left_over pos / 2 ^ q →
  match e with
  | None => if d =? 0 then so_far [] None (pos + 1) else so_far (digits ++ [d]) (Some (- (pos + 1))) (pos + 1)
  | Some e => so_far (digits ++ [d]) (Some e) (pos + 1)
  end.
Proof.
  intros Hp [Hd He] Ed. destruct (left_over_step pos Hp) as (_ & E2 & E3). rewrite <- Ed in E2, E3.
  assert (digits_ok (digits ++ [d])) as Hd' by (apply Forall_app; split; [done|constructor; [done|constructor]]).
  assert (val digits = ex pos → val (digits ++ [d]) = ex (pos + 1)) as Hval.
  { intros E. rewrite val_app, E, E2. cbn [length]. change (pow10 1) with 10. change (val [d]) with (0 * 10 + d). lia. }
  destruct e as [e|].
  - destruct He as (Hv & Hl & Hf). split; [done|]. split; [by apply Hval|]. rewrite length_app. cbn [length]. split; [lia|done].
  - destruct He as [-> H0]. destruct (Z.eqb_spec d 0) as [->|Hn]; [split; [constructor|split; [done|lia]]|].
    split; [done|]. split; [apply Hval; by rewrite H0|]. cbn [length app]. split; [lia|]. replace (- - (pos + 1) - 1) with pos by lia. rewrite Z.opp_involutive. lia.
Qed.

Lemma so_far_end digits e pos count : 0 <= pos → (0 < count)%nat → so_far digits e pos → (count <= length digits)%nat ∨ left_over pos = 0 → digits_of m (2 ^ q) count digits (default 0 e).
Proof.
  intros Hp Hc [Hd He] Hend. pose proof Q_pos as HQ. destruct e as [e|]; cbn.
  - destruct He as (Hv & Hl & Hf). assert (Z.of_nat (length digits) - 1 - e = pos) as El by lia. split; rewrite ?El; [done|done| |done].
    destruct Hend as [|H0]; [by left|right]. intros j. by apply left_over_exact.
  - destruct He as [-> H0]. destruct Hend as [Hend|Hend]; [cbn in Hend; lia|]. exfalso.
    unfold left_over in Hend. rewrite expand_frac in H0 by lia.
    pose proof (Z.div_mod (m * 10 ^ pos) (2 ^ q) ltac:(lia)) as E. rewrite H0, Hend in E. pose proof (Z.pow_pos_nonneg 10 pos). nia.
Qed.

Lemma fraction_digits_ok fuel count : (0 < count)%nat → ∀ r digits e pos, 0 <= pos → q <= Z.of_nat fuel + pos → wf r → value r = left_over pos → so_far digits e pos →
  ∃ out e', fraction_digits fuel q count r digits e pos = Ok (out, e') ∧ digits_of m (2 ^ q) count out (default 0 e').
Proof.
  intros Hc. induction fuel as [|fuel IH]; intros r digits e pos Hp Hf Hr Ev Hs; cbn [fraction_digits];
    destruct (bool_decide (length digits < count)%nat && negb (is_zero r)) eqn:Eb.
  - exfalso. apply andb_true_iff in Eb as [_ Ez%negb_true_iff]. rewrite left_over_end in Ev by lia. apply is_zero_iff in Ev; [|done]. by rewrite Ev in Ez.
  - exists digits, e. split; [done|]. apply (so_far_end digits e pos); [done..|]. apply andb_false_iff in Eb as [Eb%bool_decide_eq_false|Ez%negb_false_iff]; [left; lia|right].
    rewrite <- Ev. by apply is_zero_iff.
  - destruct (next_digit r pos Hp Hr Ev) as (Ed & Hw & Hv). pose proof (so_far_step digits e pos _ Hp Hs Ed) as Hstep. cbv zeta. set (d := nth 0 _ 0 mod 256) in *.
    destruct e as [e|]; [|destruct (d =? 0) eqn:E0]; apply IH; (done || lia || idtac). by destruct Hs as [_ [-> _]].
  - exists digits, e. split; [done|]. apply (so_far_end digits e pos); [done..|]. apply andb_false_iff in Eb as [Eb%bool_decide_eq_false|Ez%negb_false_iff]; [left; lia|right].
    rewrite <- Ev. by apply is_zero_iff.
Qed.
End fraction.

(** *** Rounding *)

Lemma first_unique X Q e e' : 0 <= X → 0 < Q → expand X Q (- e - 1) = 0 → 0 < expand X Q (- e) → expand X Q (- e' - 1) = 0 → 0 < expand X Q (- e') → e = e'.
Proof.
  intros HX HQ. assert (∀ a b, expand X Q (- a - 1) = 0 → 0 < expand X Q (- b) → b <= a) as H; [|intros; apply Z.le_antisymm; eauto].
  intros a b Ha Hb. destruct (Z.le_gt_cases b a) as [|Hlt]; [done|]. exfalso.
  replace (- b) with (- a - 1 - Z.of_nat (Z.to_nat (b - a - 1))) in Hb by lia. rewrite expand_down, Ha, Z.div_0_l in Hb by (pose proof (pow10_pos (Z.to_nat (b - a - 1))); lia). lia.
Qed.

Lemma carry_digits_ok k : ∀ out e, digits_ok out → (k <= length out)%nat → ∃ out' e', carry_digits k out e = Ok (out', e') ∧
  ((val (take k out) + 1 < pow10 k ∧ e' = e ∧ digits_ok out' ∧ length out' = length out ∧ val (take k out') = val (take k out) + 1 ∧ drop k out' = drop k out) ∨
   (val (take k out) + 1 = pow10 k ∧ e' = e + 1 ∧ out' = [1])).
Proof.
  induction k as [|i IH]; intros out e Hd Hk; cbn [carry_digits]; [exists [1], (e + 1); split; [done|by right]|].
  destruct (lookup_lt_is_Some_2 out i ltac:(lia)) as [x Hx]. pose proof (Forall_lookup_1 _ _ _ _ Hd Hx) as Hxb. cbn beta in Hxb.
  assert (vec_get out i = Ok x) as -> by by apply vec_get_Ok. cbn [res_bind]. rewrite (take_S_r out i x Hx), val_app. cbn [length]. change (pow10 1) with 10. change (val [x]) with (0 * 10 + x).
  assert (0 <= val (take i out) < pow10 i) as Hb by (pose proof (val_bound (take i out) (Forall_take _ _ _ Hd)) as H; rewrite length_take_le in H by lia; done).
  rewrite Nat2Z.inj_succ, Z.pow_succ_r by lia. assert (∀ y, <[i:=y]> out !! i = Some y) as Hy by (intros y; apply list_lookup_insert_eq; lia).
  assert (∀ y, take i (<[i:=y]> out) = take i out) as Ht by (intros y; by apply take_insert_ge).
  destruct (Z.ltb_spec (x + 1) 10) as [Hlt|Hge].
  - exists (<[i := x + 1]> out), e. split; [done|]. left. split_and!; [lia|done|apply Forall_insert; [done|lia]|apply length_insert| |apply drop_insert_lt; lia].
    rewrite (take_S_r _ i (x + 1)), val_app, Ht by apply Hy. cbn [length]. change (pow10 1) with 10. change (val [x + 1]) with (0 * 10 + (x + 1)). lia.
  - destruct (IH (<[i := 0]> out) e) as (out' & e' & E & Hc); [apply Forall_insert; [done|lia]|rewrite length_insert; lia|]. rewrite Ht in Hc. exists out', e'. split; [done|].
    destruct Hc as [(H1 & -> & H3 & H4 & H5 & H6)|(H1 & -> & ->)]; [left|right; split_and!; [lia|done..]]. rewrite length_insert in H4.
    assert (out' !! i = Some 0) as Ho by (rewrite <- (Nat.add_0_r i), <- lookup_drop, H6, lookup_drop, Nat.add_0_r; apply Hy).
    split_and!; [lia|done|done|done| |].
    + rewrite (take_S_r out' i 0 Ho), val_app. cbn [length]. change (pow10 1) with 10. change (val [0]) with 0. lia.
    + replace (S i) with (i + 1)%nat by lia. rewrite <- !drop_drop, H6, !drop_drop. apply drop_insert_lt. lia.
Qed.

(** Digit [i] of the list with the value [V] of its first [n] digits. *)
Lemma dig_val d n V t : digits_ok d → val (padded n d) = V → 0 <= t → dig d (Z.of_nat n - 1 - t) = V / 10 ^ t mod 10.
Proof.
  intros Hd EV Ht. pose proof (padded_ok n d Hd) as Hp. pose proof (val_bound _ Hp) as Hb. rewrite padded_length, EV in Hb. unfold dig.
  destruct (Z.leb_spec 0 (Z.of_nat n - 1 - t)) as [Hi|Hi].
  - rewrite <- (padded_nth n) by lia. rewrite val_nth, padded_length, EV by (done || rewrite padded_length; lia). do 3 f_equal. lia.
  - rewrite Z.div_small; [done|]. split; [lia|]. eapply Z.lt_le_trans; [apply Hb|]. apply Z.pow_le_mono_r; lia.
Qed.

Lemma padded_take n d : (n <= length d)%nat → padded n d = take n d.
Proof. intros Hn. unfold padded. by rewrite take_app_le. Qed.

(** The digits before place [rd], rounded half up. *)
Definition rounded (d' : list Z) (e e' rd R : Z) : Prop :=
  (∀ t, 0 <= t → dig d' (e' - e + rd - 1 - t) = R / 10 ^ t mod 10) ∧
  ((e' = e ∧ 0 <= R < 10 ^ Z.max rd 0 ∧ (0 < rd → 10 ^ (rd - 1) <= R)) ∨ (e' = e + 1 ∧ 0 <= rd ∧ R = 10 ^ rd)).

Lemma rounded_one e rd : 0 <= rd → rounded [1] e (e + 1) rd (10 ^ rd).
Proof.
  intros Hrd. split; [|by right]. intros t Ht. replace (e + 1 - e + rd - 1 - t) with (rd - t) by lia. unfold dig. destruct (Z.leb_spec 0 (rd - t)) as [Hi|Hi].
  - rewrite <- Z.pow_sub_r by lia. destruct (Z.to_nat (rd - t)) as [|i] eqn:Ei; [by replace (rd - t) with 0 by lia|].
    replace (rd - t) with (Z.succ (Z.of_nat i)) by lia. rewrite Z.pow_succ_r, Z.mul_comm, Z.mod_mul by lia. by destruct i.
  - rewrite Z.div_small; [done|]. split; [apply Z.pow_nonneg; lia|apply Z.pow_lt_mono_r; lia].
Qed.

Lemma round_digits_ok X Q count d e rd : 0 <= X → 0 < Q → digits_of X Q count d e → rd < Z.of_nat count →
  ∃ d' e', round_digits d e rd = Ok (d', e') ∧ rounded d' e e' rd (half_up X Q (rd - 1 - e)).
Proof.
  intros HX HQ Ho Hrd. pose proof Ho as [Hd _ _ [Hf1 Hf2]]. rewrite half_up_digit by done. unfold round_digits. replace (rd - 1 - e + 1) with (rd - e) by lia.
  destruct (Z.le_gt_cases 0 rd) as [H0|H0].
  - set (n := Z.to_nat rd). assert (rd = Z.of_nat n) as Er by lia. rewrite Er in *. clearbody n. clear Er.
    pose proof (padded_val X Q count d e n HX HQ Ho ltac:(lia)) as Ev. pose proof (padded_val X Q count d e (S n) HX HQ Ho ltac:(lia)) as Ev'.
    pose proof (dig_val d (S n) _ 0 Hd Ev' ltac:(lia)) as Edig. rewrite Z.div_1_r in Edig. replace (Z.of_nat (S n) - 1 - 0) with (Z.of_nat n) in Edig by lia. replace (Z.of_nat (S n) - 1 - e) with (Z.of_nat n - e) in Edig by lia.
    rewrite <- Edig. set (P := expand X Q (Z.of_nat n - 1 - e)) in *. pose proof (val_bound _ (padded_ok n d Hd)) as Hb. rewrite padded_length, Ev in Hb.
    assert (∀ R, P <= R → 0 < Z.of_nat n → 10 ^ (Z.of_nat n - 1) <= R) as Hlow.
    { intros R HR Hn. assert (0 < P / pow10 (n - 1)) as Hpos by (unfold P; rewrite <- expand_down by done; by replace (Z.of_nat n - 1 - e - Z.of_nat (n - 1)) with (- e) by lia).
      replace (Z.of_nat n - 1) with (Z.of_nat (n - 1)) by lia. pose proof (pow10_pos (n - 1)). pose proof (Z.mul_div_le P (pow10 (n - 1))). nia. }
    destruct (Z.ltb_spec (dig d (Z.of_nat n)) 5) as [H5|H5]; [|destruct (Z.leb_spec 5 (dig d (Z.of_nat n))); [|lia]].
    + rewrite (proj2 (Z.leb_gt _ _)), Z.add_0_r, (proj2 (Z.ltb_ge _ 0)) by lia. exists d, e. split; [done|]. split.
      * intros t Ht. rewrite Z.sub_diag, Z.add_0_l. by apply dig_val.
      * left. rewrite Z.max_l by lia. split; [done|]. split; [done|]. apply Hlow. lia.
    + assert (n < length d)%nat as Hl. { destruct (Nat.lt_ge_cases n (length d)); [done|]. unfold dig in H5. rewrite (proj2 (Z.leb_le _ _)), Nat2Z.id, nth_overflow in H5 by lia. lia. }
      rewrite padded_take in Ev by lia. destruct (carry_digits_ok n d e Hd ltac:(lia)) as (d' & e' & E & Hc). rewrite E. rewrite Ev in Hc. exists d', e'. split; [done|].
      destruct Hc as [(H1 & -> & H3 & H4 & H5' & _)|(H1 & -> & ->)]; [|rewrite H1; apply rounded_one; lia]. split.
      * intros t Ht. rewrite Z.sub_diag, Z.add_0_l. apply dig_val; [done| |done]. rewrite padded_take by lia. done.
      * left. rewrite Z.max_l by lia. split; [done|]. split; [lia|]. apply Hlow. lia.
  - assert (∀ j, expand X Q (- e - 1 - Z.of_nat j) = 0) as Hz by (intros j; rewrite expand_down, Hf1, Z.div_0_l by (pose proof (pow10_pos j); lia || done); done).
    replace (rd - e) with (- e - 1 - Z.of_nat (Z.to_nat (- rd - 1))) by lia. replace (rd - 1 - e) with (- e - 1 - Z.of_nat (Z.to_nat (- rd))) by lia. rewrite !Hz. cbn.
    assert (dig d rd = 0) as -> by (unfold dig; by rewrite (proj2 (Z.leb_gt _ _))). cbn. rewrite (proj2 (Z.ltb_lt _ _)) by lia. exists [], e. split; [done|]. split.
    + intros t Ht. rewrite Z.div_0_l by (apply Z.pow_nonzero; lia). unfold dig. destruct (0 <=? _); [by destruct (Z.to_nat _)|done].
    + left. split; [done|]. rewrite Z.max_r by lia. split; [done|lia].
Qed.

(** *** Text *)

(** The last [n] digits of a number. *)
Fixpoint fill (n : nat) (v : Z) : list N := match n with O => [] | S n => fill n (v / 10) ++ [digit_char (v mod 10)] end.

(** A number of [f] decimals, given as an integer number of units [10^-f]. *)
Definition fixed_text (f : nat) (v : Z) : list N :=
  Coercion.decimal (Z.to_N (v / pow10 f)) ++ (if bool_decide (f = O) then [] else 46%N :: fill f v).

(** A number of [f + 1] digits and an exponent. *)
Definition exp_text (f : nat) (v e : Z) : list N :=
  digit_char (v / pow10 f) :: (if bool_decide (f = O) then [] else 46%N :: fill f v) ++
  101%N :: (if e <? 0 then 45%N else 43%N) :: Coercion.decimal (Z.to_N (Z.abs e)).

Lemma digit_chars_snoc d n : ∀ from, digit_chars d from (S n) = digit_chars d from n ++ [digit_char (dig d (from + Z.of_nat n))].
Proof.
  induction n as [|n IH]; intros from; [cbn; by rewrite Z.add_0_r|].
  change (digit_chars d from (S (S n))) with (digit_char (dig d from) :: digit_chars d (from + 1) (S n)). rewrite IH. cbn [digit_chars app].
  by replace (from + 1 + Z.of_nat n) with (from + Z.of_nat (S n)) by lia.
Qed.

Lemma digit_chars_fill d n : ∀ from v, (∀ t, 0 <= t → dig d (from + Z.of_nat n - 1 - t) = v / 10 ^ t mod 10) → digit_chars d from n = fill n v.
Proof.
  induction n as [|n IH]; intros from v Hd; [done|]. rewrite digit_chars_snoc. cbn [fill]. f_equal; [apply IH|f_equal; f_equal].
  - intros t Ht. rewrite Z.div_div by (try apply Z.pow_pos_nonneg; lia). replace (10 * 10 ^ t) with (10 ^ (t + 1)) by (rewrite Z.pow_add_r by lia; lia).
    rewrite <- Hd by lia. f_equal. lia.
  - specialize (Hd 0 ltac:(lia)). rewrite Z.div_1_r in Hd. rewrite <- Hd. f_equal. lia.
Qed.

Lemma digits_loop_fill fuel : ∀ n v acc, (0 < n)%nat → 10 ^ (Z.of_nat n - 1) <= v < pow10 n → Z.log2 v < Z.of_nat fuel →
  Coercion.digits_loop fuel (Z.to_N v) acc = fill n v ++ acc.
Proof.
  induction fuel as [|fuel IH]; intros n v acc Hn Hv Hf; [pose proof (Z.log2_nonneg v); lia|]. destruct n as [|n]; [lia|].
  assert (0 < v) as Hpos by (pose proof (Z.pow_pos_nonneg 10 (Z.of_nat (S n) - 1)); lia).
  cbn [Coercion.digits_loop]. assert (48 + Z.to_N v mod 10 = digit_char (v mod 10))%N as ->.
  { unfold digit_char. pose proof (Z.mod_pos_bound v 10 ltac:(lia)). rewrite Z2N.inj_add by lia. f_equal. by rewrite Z2N.inj_mod by lia. }
  replace (Z.of_nat (S n) - 1) with (Z.of_nat n) in Hv by lia. destruct n as [|n].
  - cbn in Hv. rewrite (proj2 (N.ltb_lt _ _)) by lia. done.
  - assert (10 <= v) as H10 by (rewrite Nat2Z.inj_succ, Z.pow_succ_r in Hv by lia; pose proof (pow10_pos n); lia).
    rewrite (proj2 (N.ltb_ge _ _)) by lia. change 10%N with (Z.to_N 10). rewrite <- Z2N.inj_div by lia. rewrite (IH (S n)); [|lia| |].
    + cbn [fill]. by rewrite <- !app_assoc.
    + replace (Z.of_nat (S n) - 1) with (Z.of_nat n) by lia. rewrite !Nat2Z.inj_succ, !Z.pow_succ_r in Hv by lia. rewrite Nat2Z.inj_succ, Z.pow_succ_r by lia.
      split; [apply Z.div_le_lower_bound; lia|apply Z.div_lt_upper_bound; lia].
    + enough (Z.log2 (v / 10) < Z.log2 v) by lia. pose proof (Z.log2_spec v Hpos) as [_ Hl]. rewrite Z.pow_succ_r in Hl by apply Z.log2_nonneg.
      apply Z.log2_lt_pow2; [apply Z.div_str_pos; lia|]. apply Z.div_lt_upper_bound; [lia|]. pose proof (Z.pow_nonneg 2 (Z.log2 v)). lia.
Qed.

Lemma decimal_fill n v : (0 < n)%nat → 10 ^ (Z.of_nat n - 1) <= v < pow10 n → Coercion.decimal (Z.to_N v) = fill n v.
Proof.
  intros Hn Hv. unfold Coercion.decimal. assert (0 < v) as Hpos by (pose proof (Z.pow_pos_nonneg 10 (Z.of_nat n - 1)); lia).
  assert (Z.of_N (N.log2 (Z.to_N v)) = Z.log2 v) as El by (destruct v as [|[b|b|]|]; (done || lia)).
  rewrite (digits_loop_fill _ n) by (done || lia). apply app_nil_r.
Qed.

(** The layout of a rounded number. *)
Lemma fixed_string_ok d e f v (neg : bool) : 0 <= v → (∀ t, 0 <= t → dig d (e + Z.of_nat f - t) = v / 10 ^ t mod 10) →
  (e < 0 → v < pow10 f) → (0 <= e → 10 ^ (e + Z.of_nat f) <= v < 10 ^ (e + Z.of_nat f + 1)) →
  fixed_string d e f neg = sign_text neg ++ fixed_text f v.
Proof.
  intros H0 Hd Hs Hl. unfold fixed_string, fixed_text. pose proof (pow10_pos f) as Hp. f_equal. f_equal.
  - destruct (Z.ltb_spec e 0) as [He|He]; [by rewrite Z.div_small by auto|]. destruct (Hl He) as [Hl1 Hl2].
    rewrite (decimal_fill (Z.to_nat (e + 1))); [|lia|].
    + apply digit_chars_fill. intros t Ht. rewrite Z.div_div by (try apply Z.pow_pos_nonneg; lia). rewrite <- Z.pow_add_r by lia. rewrite <- Hd by lia. f_equal. lia.
    + rewrite Z2Nat.id by lia. rewrite Z.pow_add_r in Hl1 by lia. replace (e + Z.of_nat f + 1) with (e + 1 + Z.of_nat f) in Hl2 by lia. rewrite Z.pow_add_r in Hl2 by lia.
      replace (e + 1 - 1) with e by lia. split; [apply Z.div_le_lower_bound; lia|apply Z.div_lt_upper_bound; lia].
  - destruct (bool_decide (f = O)); [done|]. f_equal. apply digit_chars_fill. intros t Ht. rewrite <- Hd by done. f_equal. lia.
Qed.

Lemma exp_string_ok d e f v (neg : bool) : (∀ t, 0 <= t → dig d (Z.of_nat f - t) = v / 10 ^ t mod 10) → 0 <= v < 10 ^ (Z.of_nat f + 1) →
  exp_string d e f neg = sign_text neg ++ exp_text f v e.
Proof.
  intros Hd Hv. unfold exp_string, exp_text. f_equal. rewrite Z.pow_add_r in Hv by lia. f_equal.
  - f_equal. specialize (Hd (Z.of_nat f) ltac:(lia)). rewrite Z.sub_diag in Hd. rewrite Hd. apply Z.mod_small. pose proof (pow10_pos f).
    split; [apply Z.div_pos; lia|apply Z.div_lt_upper_bound; lia].
  - f_equal. destruct (bool_decide (f = O)); [done|]. f_equal. apply digit_chars_fill. intros t Ht. rewrite <- Hd by done. f_equal. lia.
Qed.

(** *** The digits of a double *)

Lemma parts_decode x m p : (x < 2^63)%N → F64.decode x = S754_finite false m p → parts x = (Zpos m, p) ∧ -1074 <= p.
Proof.
  intros Hx. unfold F64.decode, parts. change 0x7FF%N with (N.ones 11). change 0xFFFFFFFFFFFFF%N with (N.ones 52). rewrite !N.land_ones, N.shiftr_div_pow2.
  assert (x / 2^52 < 2^11)%N as Hd by (apply N.Div0.div_lt_upper_bound; change (2^52 * 2^11)%N with (2^63)%N; done).
  rewrite (N.mod_small (x / 2^52)) by done. rewrite !N2Z.inj_mod, N2Z.inj_div, !N2Z.inj_pow. change (Z.of_N 2 ^ Z.of_N 52) with (2^52).
  pose proof (Z.mod_pos_bound (Z.of_N x) (2^52) ltac:(lia)) as Hm. assert (0 <= Z.of_N x / 2^52) as Hq by (apply Z.div_pos; lia).
  destruct (Z.eqb_spec (Z.of_N x / 2^52) 0) as [E|E].
  - assert (Z.of_N x mod 2^52 = Z.of_N x) as -> by (pose proof (Z.div_mod (Z.of_N x) (2^52) ltac:(lia)) as Ed; rewrite E in Ed; lia).
    destruct x as [|b]; cbn [Z.of_N]; [discriminate|]. intros [= _ <- <-]. done.
  - destruct (Z.eqb_spec (Z.of_N x / 2^52) 2047); [by destruct (_ =? 0)|]. destruct (Z.of_N x mod 2^52 + 2^52) as [|b|b] eqn:Eb; [lia| |lia].
    assert (1 <= Z.of_N x / 2^52) as Hge by lia. clear -Hge. generalize dependent (Z.of_N x / 2^52). intros y Hy [= _ <- <-]. split; [done|]. lia.
Qed.

(** Where the right shift of the code is right. *)
Definition shift_fits (p : Z) : Prop := 0 <= p ∨ (- p) mod 32 <= 28.

Notation numer m p := (Zpos m * 2 ^ Z.max p 0).
Notation denom p := (2 ^ Z.max (- p) 0).

Lemma significant_digits_ok x m p count : (x < 2^63)%N → F64.decode x = S754_finite false m p → (0 < count)%nat → shift_fits p →
  ∃ d e, significant_digits x count = Ok (d, e) ∧ digits_of (numer m p) (denom p) count d e.
Proof.
  intros Hx Ed Hc Hs. destruct (parts_decode x m p Hx Ed) as [Ep Hp]. unfold significant_digits. rewrite Ep.
  assert (Zpos m < 2^53) as Hm. { pose proof (F64Facts.decode_valid x) as Hv. rewrite Ed in Hv. cbn [valid_binary] in Hv. destruct (F64Facts.bounded_cases m p Hv); lia. }
  destruct (from_u64_ok (Zpos m) ltac:(lia)) as [Hw Hv]. destruct (Z.leb_spec 0 p) as [H0|H0].
  - rewrite Z.max_l, Z.max_r, Z.pow_0_r by lia. destruct (shl_ok p _ H0 Hw) as [Hw' Hv']. rewrite Hv in Hv'. set (v := shl p (from_u64 (Zpos m))) in *.
    pose proof (Z.pow_pos_nonneg 2 p ltac:(lia) H0). destruct (count_digits_ok (32 * length v) v 0 Hw') as (n & -> & Hn & Hn').
    { pose proof (value_lt v Hw') as Hlt. rewrite limb_pow in Hlt by lia. by replace (Z.of_nat (32 * length v)) with (32 * Z.of_nat (length v)) by lia. }
    cbn [res_bind]. rewrite Nat.add_0_l. do 2 eexists. split; [done|]. rewrite <- Hv'. destruct Hn' as [Hn1 Hn2]; [lia|]. apply integer_digits; (done || lia).
  - rewrite Z.max_r, Z.max_l, Z.mul_1_r by lia. set (q := - p). destruct Hs as [Hs|Hs]; [lia|]. fold q in Hs.
    assert (0 < q) as Hq by lia. pose proof (Q_pos q Hq) as HQ.
    assert (∃ ip r, (if q <? 64 then (Zpos m / 2 ^ q, from_u64 (Zpos m mod 2 ^ q)) else (0, from_u64 (Zpos m))) = (ip, r) ∧ ip = expand (Zpos m) (2 ^ q) 0 ∧ ip < 2 ^ 64 ∧ wf r ∧ value r = left_over (Zpos m) q 0) as (ip & r & -> & Eip & Hip & Hwr & Hvr).
    { unfold left_over. rewrite expand_frac by lia. rewrite Z.mul_1_r. destruct (Z.ltb_spec q 64) as [H64|H64].
      - destruct (from_u64_ok (Zpos m mod 2 ^ q)) as [H1 H2]; [pose proof (Z.mod_pos_bound (Zpos m) (2 ^ q) HQ); pose proof (Z.mod_le (Zpos m) (2 ^ q)); lia|].
        do 2 eexists. split_and!; [done|done| |done|done]. apply Z.div_lt_upper_bound; [done|]. nia.
      - assert (Zpos m < 2 ^ q) by (eapply Z.lt_le_trans; [exact Hm|]; apply Z.pow_le_mono_r; lia). do 2 eexists. rewrite Z.div_small, Z.mod_small by lia. split_and!; done. }
    assert (0 <= ip) as Hip0 by (rewrite Eip; apply expand_nonneg; lia).
    destruct (word_digits_ok 64 ip) as (id & -> & Hid & Hval & _ & Hlen); [done|]. cbn [res_bind].
    set (start := if ip =? 0 then _ else _). assert (so_far (Zpos m) q start.1 start.2 0) as Hstart.
    { unfold start. destruct (Z.eqb_spec ip 0) as [E|E]; cbn [fst snd]; [split; [constructor|split; [done|by rewrite <- Eip]]|].
      destruct Hlen as [Hl1 Hl2]; [lia|]. split; [by apply Forall_reverse|]. rewrite length_reverse, Hval. split; [done|]. split; [lia|].
      pose proof (val_bound (reverse id) (proj2 (Forall_reverse _ _) Hid)) as Hb. rewrite length_reverse, Hval in Hb.
      replace (- (Z.of_nat (length id) - 1) - 1) with (0 - Z.of_nat (length id)) by lia. replace (- (Z.of_nat (length id) - 1)) with (0 - Z.of_nat (length id - 1)) by lia.
      rewrite !expand_down, <- Eip by lia. split; [by apply Z.div_small|]. apply Z.div_str_pos. pose proof (pow10_pos (length id - 1)). lia. }
    destruct start as [digits e]. cbn [fst snd] in Hstart.
    destruct (fraction_digits_ok (Zpos m) q ltac:(lia) Hq Hs (Z.to_nat q) count Hc r digits e 0 ltac:(lia) ltac:(lia) Hwr Hvr Hstart) as (out & e' & -> & Ho).
    cbn [res_bind fst snd]. by exists out, (default 0 e').
Qed.

(** *** The methods *)

Lemma finite_tests n s m p : F64.decode n = S754_finite s m p → F64.is_nan n = false ∧ F64.is_infinite n = false ∧ F64.eqb n Coercion.ZERO = false ∧
  F64.ltb n Coercion.ZERO = s ∧ (F64.abs n < 2^63)%N ∧ F64.decode (F64.abs n) = S754_finite false m p.
Proof.
  intros E. unfold F64.is_nan, F64.is_infinite, F64.eqb, F64.ltb. rewrite CoercionFacts.decode_abs, E. change (F64.decode Coercion.ZERO) with (S754_zero false).
  split_and!; [done|done|by destruct s|by destruct s| |done]. unfold F64.abs. change (2^63 - 1)%N with (N.ones 63). rewrite N.land_ones. by apply N.mod_lt.
Qed.

Definition argument_ok (f : nat) : bool :=
  let raw := F64.of_Z (Z.of_nat f) in
  within 0 100 raw && bool_decide (as_usize raw = f) && negb (F64.is_nan raw) && (bool_decide (f = O) || within 1 100 raw).

Lemma argument_range f : (f <= 100)%nat → argument_ok f = true.
Proof.
  intros Hf. assert (forallb argument_ok (seq 0 101) = true) as H by (vm_compute; reflexivity). rewrite forallb_forall in H. apply H, in_seq. lia.
Qed.

Lemma numer_denom m p : 0 <= numer m p ∧ 0 < denom p.
Proof. pose proof (Z.pow_pos_nonneg 2 (Z.max p 0)). pose proof (Z.pow_pos_nonneg 2 (Z.max (- p) 0)). lia. Qed.

(** [e] is the exponent of the first digit of [X / Q]. *)
Definition leading (X Q e : Z) : Prop := expand X Q (- e - 1) = 0 ∧ 0 < expand X Q (- e).

(** A carry through all digits gives a one more to the left. *)
Definition carried (p : nat) (R e : Z) : Z * Z := if R <? pow10 p then (R, e) else (pow10 (p - 1), e + 1).

(** The first [p] digits, rounded. *)
Lemma rounded_carried d' e e' p R : (0 < p)%nat → rounded d' e e' (Z.of_nat p) R →
  e' = (carried p R e).2 ∧ (∀ t, 0 <= t → dig d' (Z.of_nat p - 1 - t) = (carried p R e).1 / 10 ^ t mod 10) ∧ 10 ^ (Z.of_nat p - 1) <= (carried p R e).1 < pow10 p.
Proof.
  intros Hp [Hd Hr]. unfold carried. destruct Hr as [(-> & [Hr1 Hr2] & Hr3)|(-> & _ & ->)].
  - rewrite Z.max_l in Hr2 by lia. rewrite (proj2 (Z.ltb_lt _ _)) by done. cbn [fst snd]. split; [done|]. split; [|split; [apply Hr3; lia|done]].
    intros t Ht. rewrite <- Hd by done. f_equal. lia.
  - rewrite (proj2 (Z.ltb_ge _ _)) by lia. cbn [fst snd]. split; [done|]. replace (Z.of_nat (p - 1)) with (Z.of_nat p - 1) by lia. split; [|split; [lia|apply Z.pow_lt_mono_r; lia]].
    intros t Ht. replace (Z.of_nat p - 1 - t) with (e + 1 - e + Z.of_nat p - 1 - (t + 1)) by lia. rewrite Hd by lia. f_equal.
    replace (Z.of_nat p) with (Z.of_nat p - 1 + 1) at 1 by lia. rewrite !Z.pow_add_r by lia. rewrite Z.div_mul_cancel_r; [done|apply Z.pow_nonzero; lia|done].
Qed.

(** Digits and rounding together. *)
Lemma rounded_digits n s m p k : F64.decode n = S754_finite s m p → shift_fits p → (0 < k)%nat →
  ∃ d e d' e', significant_digits (F64.abs n) (k + 1) = Ok (d, e) ∧ leading (numer m p) (denom p) e ∧ round_digits d e (Z.of_nat k) = Ok (d', e') ∧
    let c := carried k (half_up (numer m p) (denom p) (Z.of_nat k - 1 - e)) e in
    e' = c.2 ∧ (∀ t, 0 <= t → dig d' (Z.of_nat k - 1 - t) = c.1 / 10 ^ t mod 10) ∧ 10 ^ (Z.of_nat k - 1) <= c.1 < pow10 k.
Proof.
  intros E Hs Hk. destruct (finite_tests n s m p E) as (_ & _ & _ & _ & Ha & Ed). destruct (numer_denom m p) as [HX HQ].
  destruct (significant_digits_ok _ m p (k + 1) Ha Ed ltac:(lia) Hs) as (d & e & Es & Ho).
  destruct (round_digits_ok _ _ (k + 1) d e (Z.of_nat k) HX HQ Ho ltac:(lia)) as (d' & e' & Er & Hr).
  exists d, e, d', e'. split; [done|]. split; [apply Ho|]. split; [done|]. by apply rounded_carried.
Qed.
End DigitsFacts.

Import Digits DigitsFacts.

(** C35: [toFixed] prints the number rounded half up to the decimals asked for, with
    the exact digits: for every finite number below 10^21 and up to 100
    decimals, the text is the sign, the integer part and the decimals of the
    integer nearest to the number times 10^f (the larger of two), whatever the
    number of digits; the exponents on which the right shift of [Dec] loses
    bits apart. *)
Theorem to_fixed_exact ryu n s m p f : F64.decode n = S754_finite s m p → shift_fits p → (f <= 100)%nat → F64.leb (F64.of_Z (10^21)) (F64.abs n) = false →
  number_to_fixed ryu n (F64.of_Z (Z.of_nat f)) =
  Ok (Text (sign_text s ++ fixed_text f (half_up (Zpos m * 2 ^ Z.max p 0) (2 ^ Z.max (- p) 0) (Z.of_nat f)))).
Proof.
  intros E Hs Hf Hb. destruct (finite_tests n s m p E) as (En & _ & Ez & El & Ha & Ed). destruct (numer_denom m p) as [HX HQ].
  pose proof (argument_range f Hf) as Harg. unfold argument_ok in Harg. rewrite !andb_true_iff in Harg. destruct Harg as [[[Hw Hu] _] _]. apply bool_decide_eq_true in Hu.
  unfold number_to_fixed. rewrite Hw, En, Hb, Ez, Hu, El. cbn [negb].
  destruct (significant_digits_ok _ m p 1 Ha Ed ltac:(lia) Hs) as (d0 & e0 & -> & Ho0). cbn [res_bind snd].
  destruct (significant_digits_ok _ m p (Z.to_nat (Z.max (e0 + Z.of_nat f + 2) 1)) Ha Ed ltac:(lia) Hs) as (d & e & -> & Ho). cbn [res_bind fst snd].
  assert (e0 = e) as -> by (destruct (of_first _ _ _ _ _ Ho0), (of_first _ _ _ _ _ Ho); by apply (first_unique (Zpos m * 2 ^ Z.max p 0) (2 ^ Z.max (- p) 0))).
  destruct (round_digits_ok _ _ _ d e (e + Z.of_nat f + 1) HX HQ Ho ltac:(lia)) as (d' & e' & -> & Hd & Hr). cbn [res_bind fst snd].
  replace (e + Z.of_nat f + 1 - 1 - e) with (Z.of_nat f) in * by lia. do 2 f_equal. set (R := half_up _ _ _) in *.
  assert (∀ a b, 0 <= a <= b → 10 ^ a <= 10 ^ b) as Hle by (intros; apply Z.pow_le_mono_r; lia). apply fixed_string_ok.
  - destruct Hr as [(_ & Hr & _)|(_ & H0 & ->)]; [lia|apply Z.pow_nonneg; lia].
  - intros t Ht. rewrite <- Hd by done. f_equal. lia.
  - intros He. destruct Hr as [(-> & Hr & _)|(-> & H0 & ->)]; [|apply Z.pow_lt_mono_r; lia]. specialize (Hle (Z.max (e + Z.of_nat f + 1) 0) (Z.of_nat f) ltac:(lia)). lia.
  - intros He. destruct Hr as [(-> & Hr & Hr')|(-> & H0 & ->)]; [|split; [apply Hle|apply Z.pow_lt_mono_r]; lia].
    rewrite Z.max_l in Hr by lia. split; [|lia]. etransitivity; [|apply Hr'; lia]. apply Hle. lia.
Qed.

(** C37: For finite numbers whose exponent lets [Dec.shr] keep the bits of a
    digit ([shift_fits]; the others are in [digits_lose_bits]) and up to 100
    significant digits, [toExponential] and [toPrecision] print the first digits
    of the number rounded half up, a carry through all of them included, with the exponent
    of the rounded number; [toPrecision] uses the fixed form when that
    exponent is at least -6 and below the precision. *)
Theorem to_exponential_precision_exact ryu lower_exp n s m p f (X := Zpos m * 2 ^ Z.max p 0) (Q := 2 ^ Z.max (- p) 0) :
  F64.decode n = S754_finite s m p → shift_fits p → (f <= 99)%nat →
  ∃ e, leading X Q e ∧
    let '(v, e') := carried (f + 1) (half_up X Q (Z.of_nat f - e)) e in
    10 ^ Z.of_nat f <= v < 10 ^ Z.of_nat (f + 1) ∧
    number_to_exponential lower_exp n (Some (F64.of_Z (Z.of_nat f))) = Ok (Text (sign_text s ++ exp_text f v e')) ∧
    number_to_precision ryu n (Some (F64.of_Z (Z.of_nat (f + 1)))) =
      Ok (Text (sign_text s ++ if (-6 <=? e') && (e' <=? Z.of_nat f) then fixed_text (Z.to_nat (Z.of_nat f - e')) v else exp_text f v e')).
Proof.
  intros E Hs Hf. destruct (finite_tests n s m p E) as (En & Ei & Ez & El & Ha & Ed).
  pose proof (argument_range f ltac:(lia)) as Harg. unfold argument_ok in Harg. rewrite !andb_true_iff, negb_true_iff in Harg. destruct Harg as [[[Hw Hu] Hna] _]. apply bool_decide_eq_true in Hu.
  pose proof (argument_range (f + 1) ltac:(lia)) as Harg'. unfold argument_ok in Harg'. rewrite !andb_true_iff, orb_true_iff in Harg'. destruct Harg' as [[[_ Hu'] _] [Hz|Hw']]; [apply bool_decide_eq_true in Hz; lia|]. apply bool_decide_eq_true in Hu'.
  destruct (rounded_digits n s m p (f + 1) E Hs ltac:(lia)) as (d & e & d' & e' & Es & Hlead & Er & Hc). exists e. split; [done|]. fold X Q in Hc.
  replace (Z.of_nat (f + 1) - 1 - e) with (Z.of_nat f - e) in Hc by lia. destruct (carried _ _ e) as [v e'']. cbn [fst snd] in Hc. destruct Hc as (-> & Hd & Hv).
  replace (Z.of_nat (f + 1) - 1) with (Z.of_nat f) in Hv by lia. split; [done|].
  assert (∀ t, 0 <= t → dig d' (Z.of_nat f - t) = v / 10 ^ t mod 10) as Hd' by (intros t Ht; rewrite <- Hd by done; f_equal; lia).
  assert (0 < 10 ^ Z.of_nat f) as Hpos by (apply Z.pow_pos_nonneg; lia).
  assert (exp_string d' e'' f s = sign_text s ++ exp_text f v e'') as Eexp by (apply exp_string_ok; [done|]; replace (Z.of_nat f + 1) with (Z.of_nat (f + 1)) by lia; lia).
  unfold number_to_exponential, number_to_precision. cbn [from_option id]. rewrite En, Ei, Ez, El, Hw, Hw', Hu, Hu', Hna. cbn [negb andb].
  replace (f + 2)%nat with (f + 1 + 1)%nat by lia. replace (Z.of_nat f + 1) with (Z.of_nat (f + 1)) by lia. rewrite Es. cbn [res_bind fst snd]. rewrite Er. cbn [res_bind fst snd].
  split; [by rewrite Eexp|]. replace (f + 1 - 1)%nat with f by lia. rewrite Eexp.
  replace (e'' <? Z.of_nat (f + 1)) with (e'' <=? Z.of_nat f) by (destruct (Z.leb_spec e'' (Z.of_nat f)), (Z.ltb_spec e'' (Z.of_nat (f + 1))); (done || lia)).
  destruct ((-6 <=? e'') && (e'' <=? Z.of_nat f)) eqn:Eb; [|done]. apply andb_true_iff in Eb as [_ Eb%Z.leb_le]. do 2 f_equal.
  replace (Z.of_nat (f + 1) - e'' - 1) with (Z.of_nat f - e'') by lia. apply fixed_string_ok.
  - lia.
  - intros t Ht. rewrite <- Hd' by done. f_equal. lia.
  - intros He. eapply Z.lt_le_trans; [apply Hv|]. apply Z.pow_le_mono_r; lia.
  - intros He. rewrite Z2Nat.id by lia. replace (e'' + (Z.of_nat f - e'')) with (Z.of_nat f) by lia. replace (Z.of_nat f + 1) with (Z.of_nat (f + 1)) by lia. done.
Qed.

Lemma to_fixed_exact_witness : number_to_fixed (λ _, []) (F64.encode (Coercion.nearest true 2675 (-3))) (F64.of_Z 2) = Ok (Text (bytes_of "-2.67")).
Proof.
  rewrite (to_fixed_exact (λ _, []) _ true 6023564501608038 (-51) 2); [vm_compute; reflexivity|vm_compute; reflexivity|right; vm_compute; discriminate|lia|vm_compute; reflexivity].
Defined.

Lemma to_exponential_precision_exact_witness : ∃ t, number_to_precision (λ _, []) (F64.encode (Coercion.nearest false 9996 (-1))) (Some (F64.of_Z 3)) = Ok (Text t) ∧ t = bytes_of "1.00e+3".
Proof.
  destruct (to_exponential_precision_exact (λ _, []) (λ _, []) (F64.encode (Coercion.nearest false 9996 (-1))) false 8792574584999117 (-43) 2) as (e & He & H);
    [vm_compute; reflexivity|right; vm_compute; discriminate|lia|].
  destruct (carried _ _ e) as [v e'] eqn:Ec. destruct H as (_ & _ & H). eexists. split; [exact H|].
  assert (e = 2) as -> by (destruct He as [H1 H2]; apply (first_unique (Zpos 8792574584999117 * 2 ^ Z.max (-43) 0) (2 ^ Z.max (- (-43)) 0)); (done || (vm_compute; reflexivity) || (vm_compute; discriminate))).
  vm_compute in Ec. injection Ec as <- <-. vm_compute. reflexivity.
Defined.

(** *** Where the digits are wrong *)

(** With an exponent that leaves less than four bits in the lowest limb, the
    shift drops the top of the digit: 2097152.5 and 0.0015 print as 2097152.1
    and 0.0011. *)
Lemma digits_lose_bits :
  number_to_fixed (λ _, []) (F64.encode (Coercion.nearest false 20971525 (-1))) (F64.of_Z 1) = Ok (Text (bytes_of "2097152.1")) ∧
  number_to_precision (λ _, []) (F64.encode (Coercion.nearest false 15 (-4))) (Some (F64.of_Z 2)) = Ok (Text (bytes_of "0.0011")).
Proof. split; vm_compute; reflexivity. Qed.
