(* ===== verification/Radix.v ===== *)
(** * Numbers in other bases (crates/oxide_builtins/src/number.rs)

    [Number.prototype.toString] with a radix and [parseInt].  A text is the list
    of its characters; the argument of [parseInt] is the text after the
    conversion to a string, its radix the double after the conversion to a
    number. *)

From stdpp Require Import base tactics numbers list option strings.
From Stdlib Require Import ZArith Lia SpecFloat.
From S2P Require Import Prelude Unicode Float Coercion Digits.

Open Scope Z_scope.

Module Radix.
Import F64.

Definition is_js_ws (c : N) : bool :=
  bool_decide (c ∈ [0x09; 0x0B; 0x0C; 0x20; 0xA0; 0x1680; 0x202F; 0x205F; 0x3000; 0xFEFF; 0x0A; 0x0D; 0x2028; 0x2029]%N) || in_range 0x2000 0x200A c.

Fixpoint skip_ws (text : list N) : list N :=
  match text with c :: rest => if is_js_ws c then skip_ws rest else text | [] => [] end.
Definition trim_ws (text : list N) : list N := reverse (skip_ws (reverse (skip_ws text))).

Definition to_int32 (n : N) : Z :=
  if is_nan n || is_infinite n || eqb n Coercion.ZERO then 0
  else u32_to_i32 (Z.to_N (as_u32 (rem_euclid (trunc n) F64Facts.TWO32))).

(** [char::to_digit]. *)
Definition to_digit36 (radix : Z) (c : N) : option Z :=
  let d := if in_range 48 57 c then Some (Z.of_N c - 48)
           else if in_range 97 122 c then Some (Z.of_N c - 87)
           else if in_range 65 90 c then Some (Z.of_N c - 55) else None in
  match d with Some d => if d <? radix then Some d else None | None => None end.

(** The longest prefix of digits. *)
Fixpoint digit_prefix (radix : Z) (text : list N) : list N :=
  match text with c :: rest => match to_digit36 radix c with Some _ => c :: digit_prefix radix rest | None => [] end | [] => [] end.

Fixpoint accumulate (radix : Z) (prefix : list N) (acc : N) : N :=
  match prefix with
  | [] => acc
  | c :: rest => accumulate radix rest (add (mul acc (of_Z radix)) (of_Z (default 0 (to_digit36 radix c))))
  end.

Definition read_sign (text : list N) : bool * list N :=
  match text with c :: rest => if (c =? 45)%N then (true, rest) else if (c =? 43)%N then (false, rest) else (false, text) | [] => (false, []) end.

(** [0x] goes when the radix is 0 or 16. *)
Definition hex_prefix (r : Z) (rest : list N) : option (list N) :=
  match rest with
  | a :: b :: more => if ((r =? 0) || (r =? 16)) && (a =? 48)%N && ((b =? 120)%N || (b =? 88)%N) then Some more else None
  | _ => None
  end.

(** The int form where it fits. *)
Definition int_form (neg : bool) (acc : N) : Prim :=
  if eqb acc Coercion.ZERO then Coercion.float (if neg then F64.neg Coercion.ZERO else Coercion.ZERO)
  else if eqb (sub acc (trunc acc)) Coercion.ZERO && leb (of_Z (- 2^31)) acc && leb acc (of_Z (2^31 - 1)) then PInt (saturate (- 2^31) (2^31 - 1) acc)
  else Coercion.float acc.

Definition number_parse_int (text : list N) (raw : N) : Prim :=
  let s := trim_ws text in
  let r := to_int32 raw in
  let '(neg, rest) := read_sign s in
  if negb ((r =? 0) || ((2 <=? r) && (r <=? 36))) then Coercion.float NAN
  else
    let radix_default := if r =? 0 then 10 else r in
    let '(digits, radix) := match hex_prefix r rest with Some more => (more, 16) | None => (rest, radix_default) end in
    match digit_prefix radix digits with
    | [] => Coercion.float NAN
    | prefix =>
        match (if radix =? 10 then Coercion.parse_f64 prefix else Some (accumulate radix prefix Coercion.ZERO)) with
        | None => Coercion.float NAN
        | Some acc => int_form neg (if neg then F64.neg acc else acc)
        end
    end.

(** The digits of [value], last one first. *)
Definition digit36 (d : Z) : N := Z.to_N (if d <? 10 then 48 + d else 87 + d).
Fixpoint radix_digits (fuel : nat) (radix value : Z) : list N :=
  match fuel with
  | O => []
  | S fuel => if 0 <? value then digit36 (value mod radix) :: radix_digits fuel radix (value / radix) else []
  end.

Definition as_u128 : N → Z := saturate 0 (2^128 - 1).

Definition number_to_string (ryu : N → list N) (n : N) (radix_arg : option N) : Digits.NumText :=
  let radix := match radix_arg with
               | None => Some 10
               | Some raw => let r := Digits.to_integer_or_infinity raw in if Digits.within 2 36 r then Some (as_u32 r) else None
               end in
  match radix with
  | None => Digits.RangeError
  | Some radix =>
      Digits.Text (
        if radix =? 10 then Coercion.js_number_to_string ryu n
        else if is_nan n then bytes_of "NaN"
        else if is_infinite n then Digits.infinity_text n
        else if leb (of_Z (2^128 - 1)) (abs n) then Coercion.js_number_to_string ryu n
        else
          let value := as_u128 (trunc (abs n)) in
          let result := if value =? 0 then [48%N] else reverse (radix_digits 128 radix value) in
          if is_sign_negative n then 45%N :: result else result)
  end.
End Radix.

Module RadixFacts.
Import F64 F64Facts Radix.

(** ** Doubles that are integers *)

Lemma decode_neg d : decode (neg d) = SFopp (decode d).
Proof.
  unfold decode, neg. rewrite N.lxor_spec. assert (N.testbit (2^63) 63 = true) as -> by (by vm_compute). rewrite xorb_true_r, N.shiftr_lxor.
  assert (N.land (N.lxor (N.shiftr d 52) (N.shiftr (2^63) 52)) 0x7FF = N.land (N.shiftr d 52) 0x7FF ∧ N.land (N.lxor d (2^63)) 0xFFFFFFFFFFFFF = N.land d 0xFFFFFFFFFFFFF)%N as [-> ->].
  { split; apply N.bits_inj; intros i; rewrite !N.land_spec, N.lxor_spec.
    - change (N.shiftr (2^63) 52) with (2^11)%N. change 0x7FF%N with (N.ones 11). rewrite N.pow2_bits_eqb. destruct (N.eqb_spec 11 i) as [<-|]; [by rewrite N.ones_spec_high, !andb_false_r by lia|by rewrite xorb_false_r].
    - change 0xFFFFFFFFFFFFF%N with (N.ones 52). rewrite N.pow2_bits_eqb. destruct (N.eqb_spec 63 i) as [<-|]; [by rewrite N.ones_spec_high, !andb_false_r by lia|by rewrite xorb_false_r]. }
  set (e := Z.of_N _). set (m := Z.of_N _). destruct (e =? 0); [by destruct m|]. destruct (e =? 2047); [by destruct (m =? 0)|]. by destruct (m + 2^52).
Qed.

Lemma neg_int d z : is_int (decode d) z → is_int (decode (neg d)) (- z).
Proof.
  rewrite decode_neg. intros [Hv Hu]. destruct (decode d) as [s|s| |s m e]; cbn [SFopp valid_binary units] in *; try discriminate Hu; split; [done| |done|].
  - apply Some_inj in Hu. by rewrite Z.mul_opp_l, <- Hu.
  - apply Some_inj in Hu. rewrite Z.mul_opp_l, <- Hu. destruct s; cbn [negb cond_Zopp]; [by rewrite Z.opp_involutive|done].
Qed.

Lemma units_leb a b x y : units (decode a) = Some x → units (decode b) = Some y → leb a b = (x <=? y).
Proof.
  intros Ha Hb. unfold leb, SFleb. rewrite (compare_units _ _ x y (decode_valid a) (decode_valid b) Ha Hb).
  destruct (Z.compare_spec x y), (Z.leb_spec x y); (done || lia).
Qed.

Lemma encode_lt f : valid_binary prec emax f = true → (encode f < 2^64)%N.
Proof.
  destruct f as [s|s| |s m e]; cbn [encode valid_binary]; [by destruct s|by destruct s|done|]. intros Hb. destruct (bounded_cases m e Hb) as [[Hm ->]|[Hm He]].
  - rewrite (proj2 (Z.ltb_lt _ _)) by lia. unfold sign_bit. destruct s; lia.
  - rewrite (proj2 (Z.ltb_ge _ _)) by lia. unfold sign_bit. destruct s; lia.
Qed.

Lemma int_not_nan d z : is_int (decode d) z → is_nan d = false ∧ is_infinite d = false.
Proof. intros [_ Hu]. unfold is_nan, is_infinite. destruct (decode d); (done || discriminate Hu). Qed.

Lemma add_is_int x y a b : is_int (decode x) a → is_int (decode y) b → Z.abs (a + b) < 2^53 → is_int (decode (add x y)) (a + b).
Proof. intros Hx Hy Hab. unfold add. pose proof (add_int _ _ a b Hx Hy Hab) as H. by rewrite decode_encode by apply H. Qed.

Lemma mul_is_int x y a b : is_int (decode x) a → is_int (decode y) b → Z.abs (a * b) < 2^53 → is_int (decode (mul x y)) (a * b).
Proof. intros Hx Hy Hab. unfold mul. pose proof (mul_int _ _ a b Hx Hy Hab) as H. by rewrite decode_encode by apply H. Qed.

Lemma trunc_is_int x z : is_int (decode x) z → is_int (decode (trunc x)) z.
Proof. intros Hx. unfold trunc. pose proof (trunc_int _ z (proj1 Hx) (int_int_part _ _ Hx)) as H. by rewrite decode_encode by apply H. Qed.

Lemma zero_is_int : is_int (decode Coercion.ZERO) 0.
Proof. split; done. Qed.

Lemma eqb_zero d z : is_int (decode d) z → eqb d Coercion.ZERO = (z =? 0).
Proof.
  intros [_ Hu]. rewrite (CoercionFacts.units_eqb _ _ _ _ Hu (proj2 zero_is_int)). pose proof unit_pos. destruct (Z.eqb_spec z 0) as [->|]; [done|]. apply Z.eqb_neq. nia.
Qed.

(** What [parseInt] makes of an integer. *)
Definition int_result (z : Z) : Prim := if (- 2^31 <=? z) && (z <=? 2^31 - 1) then PInt z else PDouble (of_Z z).

Lemma int_form_ok neg acc z : is_int (decode acc) z → z ≠ 0 → Z.abs z < 2^53 → (acc < 2^64)%N → int_form neg acc = int_result z.
Proof.
  intros Hi Hz Hb Hlt. unfold int_form, int_result. rewrite (eqb_zero acc z Hi), (proj2 (Z.eqb_neq z 0)) by done. pose proof unit_pos as Hu.
  assert (eqb (sub acc (trunc acc)) Coercion.ZERO = true) as ->.
  { pose proof (sub_int _ _ z z Hi (trunc_is_int acc z Hi) ltac:(lia)) as Hs. rewrite Z.sub_diag in Hs. apply (eqb_zero _ 0). unfold sub. by rewrite decode_encode by apply Hs. }
  destruct (of_Z_int (- 2^31) ltac:(lia)) as [_ Ul], (of_Z_int (2^31 - 1) ltac:(lia)) as [_ Uh]. cbn [andb].
  rewrite (units_leb _ _ _ _ Ul (proj2 Hi)), (units_leb _ _ _ _ (proj2 Hi) Uh).
  assert (∀ a b, (a * UNIT <=? b * UNIT) = (a <=? b)) as Hle by (intros a b; apply Bool.eq_iff_eq_true; rewrite !Z.leb_le; symmetry; by apply Z.mul_le_mono_pos_r). rewrite !Hle.
  destruct ((- 2^31 <=? z) && (z <=? 2^31 - 1)) eqn:Er.
  - apply andb_true_iff in Er as [H1%Z.leb_le H2%Z.leb_le]. rewrite (saturate_int _ _ _ z Hi (conj H1 H2)). reflexivity.
  - unfold Coercion.float. rewrite (proj1 (int_not_nan acc z Hi)). f_equal. symmetry. by apply CoercionFacts.of_Z_unique.
Qed.

Lemma neg_lt d : (d < 2^64)%N → (neg d < 2^64)%N.
Proof.
  intros Hd. unfold neg. destruct (N.eq_dec (N.lxor d (2^63)) 0) as [->|Hn]; [done|]. apply N.log2_lt_pow2; [lia|].
  eapply N.le_lt_trans; [apply N.log2_lxor|]. apply N.max_lub_lt; [|done]. destruct (N.eq_dec d 0) as [->|]; [done|]. apply N.log2_lt_pow2; [lia|done].
Qed.

(** ** Texts of digits *)

Definition digit_of (r : Z) (c : N) : Z := default 0 (to_digit36 r c).

Definition text_value (r : Z) (text : list N) (acc : Z) : Z := fold_left (λ a c, a * r + digit_of r c) text acc.

(** A character that is a digit in base [r], hence no space and no sign. *)
Definition good (r : Z) (c : N) : Prop := to_digit36 r c = Some (digit_of r c) ∧ 0 <= digit_of r c < r.

Lemma good_not r c : good r c → is_js_ws c = false ∧ c ≠ 45%N ∧ c ≠ 43%N.
Proof.
  intros [Hd _]. unfold to_digit36 in Hd. assert (in_range 48 57 c = true ∨ in_range 97 122 c = true ∨ in_range 65 90 c = true) as Hr.
  { destruct (in_range 48 57 c); [by left|]. destruct (in_range 97 122 c); [by right; left|]. destruct (in_range 65 90 c); [by right; right|done]. }
  assert (48 <= c <= 122)%N as Hc by (destruct Hr as [Hr|[Hr|Hr]]; apply in_range_true in Hr; lia).
  split; [|split; lia]. unfold is_js_ws. rewrite orb_false_iff, in_range_false, bool_decide_eq_false, !not_elem_of_cons. split; [|lia]. split_and!; try lia. by apply not_elem_of_nil.
Qed.

Lemma trim_ws_good text : Forall (λ c, is_js_ws c = false) text → trim_ws text = text.
Proof.
  assert (∀ t, Forall (λ c, is_js_ws c = false) t → skip_ws t = t) as H by (intros [|c t]; [done|]; intros [Hc _]%Forall_cons; cbn; by rewrite Hc).
  intros Ht. unfold trim_ws. rewrite (H text Ht), (H (reverse text)), reverse_involutive; [done|]. by apply Forall_reverse.
Qed.

Lemma digit_prefix_good r text : Forall (good r) text → digit_prefix r text = text.
Proof. induction 1 as [|c text [Hc _] _ IH]; [done|]. cbn. by rewrite Hc, IH. Qed.

Lemma text_value_grows r text acc : 2 <= r → Forall (good r) text → 0 <= acc → acc <= text_value r text acc.
Proof.
  intros Hr Ht. revert acc. induction Ht as [|c text [_ Hc] _ IH]; intros acc Ha; cbn; [lia|]. fold (text_value r text (acc * r + digit_of r c)).
  etransitivity; [|apply IH; nia]. nia.
Qed.

Lemma accumulate_ok r text : 2 <= r <= 36 → Forall (good r) text → ∀ acc a, is_int (decode acc) a → 0 <= a → text_value r text a < 2^53 → (acc < 2^64)%N →
  is_int (decode (accumulate r text acc)) (text_value r text a) ∧ (accumulate r text acc < 2^64)%N.
Proof.
  intros Hr. induction 1 as [|c text [Hc Hd] Ht IH]; intros acc a Hi Ha Hb Hl; [done|]. cbn [accumulate text_value fold_left] in *. fold (text_value r text (a * r + digit_of r c)) in *.
  pose proof (text_value_grows r text (a * r + digit_of r c) ltac:(lia) Ht ltac:(nia)) as Hg. fold (digit_of r c).
  destruct (of_Z_int r ltac:(lia)) as [Vr Ur]. destruct (of_Z_int (digit_of r c) ltac:(lia)) as [Vd Ud].
  pose proof (mul_is_int acc (of_Z r) a r Hi (conj Vr Ur) ltac:(nia)) as Hm.
  pose proof (add_is_int _ (of_Z (digit_of r c)) _ _ Hm (conj Vd Ud) ltac:(nia)) as Hs. apply IH; [done|nia|done|].
  unfold add. apply encode_lt. apply (add_int _ _ _ _ Hm (conj Vd Ud)). nia.
Qed.

(** ** The parser on a text of digits *)

Definition radix_ok (r : nat) : bool :=
  let raw := of_Z (Z.of_nat r) in
  (to_int32 raw =? Z.of_nat r) && Digits.within 2 36 (Digits.to_integer_or_infinity raw) && (as_u32 (Digits.to_integer_or_infinity raw) =? Z.of_nat r).

Lemma radix_range r : 2 <= r <= 36 → to_int32 (of_Z r) = r ∧ Digits.within 2 36 (Digits.to_integer_or_infinity (of_Z r)) = true ∧ as_u32 (Digits.to_integer_or_infinity (of_Z r)) = r.
Proof.
  intros Hr. assert (forallb radix_ok (seq 2 35) = true) as H by (vm_compute; reflexivity). rewrite forallb_forall in H.
  specialize (H (Z.to_nat r) ltac:(apply in_seq; lia)). unfold radix_ok in H. rewrite Z2Nat.id in H by lia. rewrite !andb_true_iff, !Z.eqb_eq in H. tauto.
Qed.

(** The number a text of digits is read as, before the sign. *)
Definition reading (r : Z) (text : list N) : option N := if r =? 10 then Coercion.parse_f64 text else Some (accumulate r text Coercion.ZERO).

Lemma parse_int_text r (s : bool) text acc : 2 <= r <= 36 → Forall (good r) text → text ≠ [] → (∀ c t, text = c :: t → c = 48%N → t = []) → reading r text = Some acc →
  number_parse_int (Digits.sign_text s ++ text) (of_Z r) = int_form s (if s then neg acc else acc).
Proof.
  intros Hr Ht Hne Hz Ha. destruct (radix_range r Hr) as [Er _]. unfold number_parse_int. rewrite Er.
  assert (Forall (λ c, is_js_ws c = false) text) as Hws by (eapply Forall_impl; [exact Ht|]; intros c Hc; by apply (good_not r c)).
  rewrite trim_ws_good by (unfold Digits.sign_text; destruct s; [constructor; [by vm_compute|done]|done]).
  assert (read_sign (Digits.sign_text s ++ text) = (s, text)) as ->.
  { destruct s; [done|]. destruct text as [|c t]; [done|]. apply Forall_cons in Ht as [Hc _]. destruct (good_not r c Hc) as (_ & H1 & H2). cbn. by rewrite (proj2 (N.eqb_neq c 45)), (proj2 (N.eqb_neq c 43)). }
  assert ((r =? 0) = false) as Hr0 by (apply Z.eqb_neq; lia). assert (negb ((r =? 0) || ((2 <=? r) && (r <=? 36))) = false) as ->.
  { apply negb_false_iff. rewrite Hr0. apply andb_true_iff. rewrite !Z.leb_le. done. }
  assert (hex_prefix r text = None) as ->.
  { destruct text as [|a [|b t]]; [done..|]. cbn. destruct (N.eqb_spec a 48) as [->|]; [by specialize (Hz 48%N (b :: t) eq_refl eq_refl)|]. by rewrite andb_false_r. }
  rewrite Hr0, digit_prefix_good by done. unfold reading in Ha. destruct text as [|c t]; [done|]. by rewrite Ha.
Qed.

Lemma read_back r (s : bool) text v : 2 <= r <= 36 → Forall (good r) text → text ≠ [] → (∀ c t, text = c :: t → c = 48%N → t = []) →
  text_value r text 0 = v → 0 < v < 2^53 → (r = 10 → Forall (λ c, Coercion.is_digit c = true) text ∧ Coercion.digits_value text = v) →
  number_parse_int (Digits.sign_text s ++ text) (of_Z r) = int_result (if s then - v else v).
Proof.
  intros Hr Ht Hne Hz Ev Hv H10.
  assert (∃ acc, reading r text = Some acc ∧ is_int (decode acc) v ∧ (acc < 2^64)%N) as (acc & Ea & Hi & Hl).
  { unfold reading. destruct (Z.eqb_spec r 10) as [E|E].
    - destruct (H10 E) as [Hd Hdv]. pose proof (CoercionFacts.parse_digits false text Hd Hne) as Hp. cbn [app] in Hp. rewrite Hp, Hdv, CoercionFacts.nearest_int by (done || lia). cbn [cond_Zopp].
      eexists. split; [done|]. split; [apply of_Z_int; lia|]. unfold of_Z. apply encode_lt. destruct (normalize_int v 0 false v) as [Hn _]; (done || lia).
    - eexists. split; [done|]. rewrite <- Ev. apply accumulate_ok; (done || lia || apply zero_is_int). }
  rewrite (parse_int_text r s text acc) by done. destruct s.
  - apply int_form_ok; [by apply neg_int|lia|lia|by apply neg_lt].
  - apply int_form_ok; (done || lia).
Qed.

(** ** The printer *)

Lemma digit36_good r d : 2 <= r <= 36 → 0 <= d < r → good r (digit36 d) ∧ digit_of r (digit36 d) = d ∧ (digit36 d = 48%N → d = 0).
Proof.
  intros Hr Hd. assert (to_digit36 r (digit36 d) = Some d) as E.
  { unfold to_digit36, digit36. destruct (Z.ltb_spec d 10) as [H|H].
    - rewrite (proj2 (in_range_true _ _ _)) by lia. rewrite Z2N.id by lia. replace (48 + d - 48) with d by lia. by rewrite (proj2 (Z.ltb_lt _ _)) by lia.
    - rewrite (proj2 (in_range_false 48 57 _)), (proj2 (in_range_true 97 122 _)) by lia. rewrite Z2N.id by lia. replace (87 + d - 87) with d by lia. by rewrite (proj2 (Z.ltb_lt _ _)) by lia. }
  assert (digit_of r (digit36 d) = d) as Ed by (unfold digit_of; by rewrite E). split_and!; [split; by rewrite Ed|done|]. unfold digit36. destruct (Z.ltb_spec d 10); lia.
Qed.

Lemma text_value_snoc r text c acc : text_value r (text ++ [c]) acc = text_value r text acc * r + digit_of r c.
Proof. unfold text_value. by rewrite fold_left_app. Qed.

Lemma radix_digits_ok fuel r : 2 <= r <= 36 → ∀ v, 0 <= v < 2 ^ Z.of_nat fuel →
  Forall (good r) (radix_digits fuel r v) ∧ text_value r (reverse (radix_digits fuel r v)) 0 = v ∧ (0 < v → ∃ c t, reverse (radix_digits fuel r v) = c :: t ∧ c ≠ 48%N).
Proof.
  intros Hr. induction fuel as [|fuel IH]; intros v Hv; cbn [radix_digits]; [cbn in Hv; split_and!; [constructor|cbn; lia|lia]|].
  destruct (Z.ltb_spec 0 v) as [H0|H0]; [|split_and!; [constructor|cbn; lia|lia]]. rewrite Nat2Z.inj_succ, Z.pow_succ_r in Hv by lia.
  pose proof (Z.mod_pos_bound v r ltac:(lia)) as Hm. pose proof (Z.div_mod v r ltac:(lia)) as Ed. destruct (digit36_good r (v mod r) Hr Hm) as (Hg & Hd & Hz).
  assert (0 <= v / r) as Hq by (apply Z.div_pos; lia). destruct (IH (v / r)) as (H1 & H2 & H3); [split; [done|apply Z.div_lt_upper_bound; nia]|].
  rewrite reverse_cons. split_and!; [by constructor|rewrite text_value_snoc, H2, Hd; lia|]. intros _. destruct (Z.eq_dec (v / r) 0) as [E|E].
  - rewrite E. assert (radix_digits fuel r 0 = []) as -> by (by destruct fuel). exists (digit36 (v mod r)), []. split; [done|]. intros Ec. apply Hz in Ec. lia.
  - destruct H3 as (c & t & -> & Hc); [lia|]. by exists c, (t ++ [digit36 (v mod r)]).
Qed.

Lemma good_digit c : Coercion.is_digit c = true → good 10 c ∧ digit_of 10 c = Z.of_N c - 48.
Proof.
  intros Hc. pose proof Hc as H%in_range_true. assert (to_digit36 10 c = Some (Z.of_N c - 48)) as E.
  { unfold to_digit36. unfold Coercion.is_digit in Hc. rewrite Hc. by rewrite (proj2 (Z.ltb_lt _ _)) by lia. }
  assert (digit_of 10 c = Z.of_N c - 48) as Ed by (unfold digit_of; by rewrite E). unfold good. rewrite E, Ed. split; [split; [done|lia]|done].
Qed.

Lemma text_value_decimal text : Forall (λ c, Coercion.is_digit c = true) text → text_value 10 text 0 = Coercion.digits_value text.
Proof.
  intros Ht. unfold text_value, Coercion.digits_value. generalize 0. induction Ht as [|c text Hc _ IH]; intros acc; [done|]. cbn. destruct (good_digit c Hc) as [_ ->]. apply IH.
Qed.
End RadixFacts.

Import Radix RadixFacts.

(** The text of an integer in base [r]. *)
Definition radix_text (r z : Z) : list N :=
  Digits.sign_text (z <? 0) ++ (if z =? 0 then [48%N] else if r =? 10 then Coercion.decimal (Z.to_N (Z.abs z)) else reverse (radix_digits 128 r (Z.abs z))).

Lemma u128_max_units : F64Facts.units (F64.decode (F64.of_Z (2^128 - 1))) = Some (2^128 * F64Facts.UNIT).
Proof. vm_compute. reflexivity. Qed.

Lemma to_string_int ryu z r : Z.abs z < 2^53 → 2 <= r <= 36 → number_to_string ryu (F64.of_Z z) (Some (F64.of_Z r)) = Digits.Text (radix_text r z).
Proof.
  intros Hz Hr. destruct (radix_range r Hr) as (_ & Hw & Er). unfold number_to_string, radix_text. rewrite Hw, Er. f_equal.
  pose proof (F64Facts.of_Z_int z Hz) as Hi. destruct (int_not_nan _ _ Hi) as [En Ei]. rewrite En, Ei.
  destruct (Z.eqb_spec z 0) as [->|Hnz].
  - destruct (r =? 10); [by vm_compute|]. by vm_compute.
  - assert (Coercion.js_number_to_string ryu (F64.of_Z z) = Digits.sign_text (z <? 0) ++ Coercion.decimal (Z.to_N (Z.abs z))) as Edec.
    { unfold Coercion.js_number_to_string. rewrite (CoercionFacts.print_int ryu _ z Hi Hnz Hz). unfold Coercion.decimal_Z. destruct (Z.ltb_spec z 0); cbn [Digits.sign_text app]; [do 3 f_equal; lia|do 2 f_equal; lia]. }
    destruct (r =? 10); [exact Edec|]. pose proof (CoercionFacts.abs_int _ _ Hi) as Ha.
    assert (F64.leb (F64.of_Z (2^128 - 1)) (F64.abs (F64.of_Z z)) = false) as ->.
    { rewrite (units_leb _ _ _ _ u128_max_units (proj2 Ha)). apply Z.leb_gt. pose proof F64Facts.unit_pos. nia. }
    unfold as_u128. rewrite (F64Facts.saturate_int _ _ _ (Z.abs z) (trunc_is_int _ _ Ha)) by lia. rewrite (proj2 (Z.eqb_neq _ 0)) by lia.
    rewrite (CoercionFacts.sign_of_int _ z Hi Hnz). by destruct (z <? 0).
Qed.

(** Reading an integer back: for every integer below 2^53 in magnitude and every
    base from 2 to 36, [parseInt] of the text that [toString] gives in that
    base is the integer again, in the int form where it fits. *)
Theorem radix_roundtrip ryu z r : Z.abs z < 2^53 → 2 <= r <= 36 →
  number_to_string ryu (F64.of_Z z) (Some (F64.of_Z r)) = Digits.Text (radix_text r z) ∧
  number_parse_int (radix_text r z) (F64.of_Z r) = if z =? 0 then PDouble Coercion.ZERO else int_result z.
Proof.
  intros Hz Hr. split; [by apply to_string_int|]. unfold radix_text. destruct (Z.eqb_spec z 0) as [->|Hnz].
  - cbn [Z.ltb Z.compare]. pose proof (digit36_good r 0 Hr ltac:(lia)) as (Hg & Hd & _). change (digit36 0) with 48%N in Hg, Hd.
    assert (text_value r [48%N] 0 = 0) as E0 by (unfold text_value; cbn [fold_left]; rewrite Hd; lia).
    rewrite (parse_int_text r false [48%N] (if r =? 10 then Coercion.ZERO else accumulate r [48%N] Coercion.ZERO)); [|done|by constructor|done|by intros c t [= <- <-]|].
    + unfold int_form. assert (F64.eqb (if r =? 10 then Coercion.ZERO else accumulate r [48%N] Coercion.ZERO) Coercion.ZERO = true) as ->; [|by vm_compute].
      destruct (r =? 10); [by vm_compute|]. destruct (accumulate_ok r [48%N] Hr ltac:(by constructor) Coercion.ZERO 0 zero_is_int) as [Hi _]; [lia|rewrite E0; lia|done|].
      rewrite (eqb_zero _ _ Hi). by rewrite E0.
    + unfold reading. destruct (Z.eqb_spec r 10); [by vm_compute|done].
  - assert (int_result z = int_result (if z <? 0 then - Z.abs z else Z.abs z)) as -> by (f_equal; destruct (Z.ltb_spec z 0); lia). destruct (Z.eqb_spec r 10) as [->|Hr10].
    + destruct (CoercionFacts.decimal_ok (Z.to_N (Z.abs z))) as (Hv & Hd & Hne & H0). rewrite Z2N.id in Hv by lia.
      assert (Forall (good 10) (Coercion.decimal (Z.to_N (Z.abs z)))) as Hg by (eapply Forall_impl; [exact Hd|]; intros c Hc; by apply good_digit).
      apply read_back; [done|done|done| |by rewrite text_value_decimal|lia|done]. intros c t E ->. by apply H0 in E as [_ ->].
    + destruct (radix_digits_ok 128 r Hr (Z.abs z)) as (H1 & H2 & H3); [lia|]. destruct H3 as (c & t & E & Hc); [lia|].
      apply read_back; [done|by apply Forall_reverse|by rewrite E| |done|lia|done]. intros c' t' E' ->. rewrite E in E'. by injection E' as -> _.
Qed.

Lemma radix_roundtrip_witness : number_parse_int (radix_text 16 (-255)) (F64.of_Z 16) = PInt (-255).
Proof. exact (proj2 (radix_roundtrip (λ _, []) (-255) 16 ltac:(lia) ltac:(lia))). Defined.

(** The number -0 prints as [-0] in base 2, and -0.5 too. *)
Lemma negative_zero_printed :
  number_to_string (λ _, []) (F64.neg Coercion.ZERO) (Some (F64.of_Z 2)) = Digits.Text (bytes_of "-0") ∧
  number_to_string (λ _, []) (F64.neg Coercion.ZERO) None = Digits.Text (bytes_of "0").
Proof. split; vm_compute; reflexivity. Qed.
