(* ===== verification/NumberMethods.v ===== *)
(** * The functions and methods of Number (crates/oxide_builtins/src/number.rs)

    The whole handlers around the text functions of [Digits] and [Radix]: the
    receiver, the conversion of the arguments, the errors; and [parseFloat],
    the constructor and the tests.  A handler runs in a state of the virtual
    machine, of which [Host] gives what number.rs asks for: conversions, which run
    code of the program and may leave an exception behind, and the number
    an object carries. *)

From stdpp Require Import base tactics numbers list option sets strings.
From Stdlib Require Import ZArith Lia SpecFloat.
From S2P Require Import Prelude Unicode Float Coercion Digits Radix.

Open Scope Z_scope.

Module ParseFloat.

(** The scan of [parse_decimal_prefix]: the rest of the text, the place [i] of the
    scan, the number of digits and the end of the prefix so far. *)
Fixpoint mantissa (text : list N) (i : nat) (dot : bool) (digits last : nat) : list N * nat * nat * nat :=
  match text with
  | c :: rest =>
      if Coercion.is_digit c then mantissa rest (S i) dot (S digits) (S i)
      else if (c =? 46)%N && negb dot then mantissa rest (S i) true digits last
      else (text, i, digits, last)
  | [] => ([], i, digits, last)
  end.

Fixpoint skip_digits (text : list N) (j : nat) : nat :=
  match text with c :: rest => if Coercion.is_digit c then skip_digits rest (S j) else j | [] => j end.

Definition is_e (c : N) : bool := (c =? 101)%N || (c =? 69)%N.
Definition skip_sign (text : list N) (j : nat) : list N * nat :=
  match text with c :: rest => if (c =? 43)%N || (c =? 45)%N then (rest, S j) else (text, j) | [] => ([], j) end.

Definition exponent (text : list N) (i digits last : nat) : nat :=
  match text with
  | c :: rest =>
      if is_e c && bool_decide (0 < digits)%nat then
        let '(rest, j) := skip_sign rest (S i) in
        match rest with d :: _ => if Coercion.is_digit d then skip_digits rest j else last | [] => last end
      else last
  | [] => last
  end.

(** [fast_float] is the reader of the third-party package of that name. *)
Definition parse_decimal_prefix (fast_float : list N → option N) (text : list N) : option (N * nat) :=
  let '(rest, i, digits, last) := mantissa text 0 false 0 0 in
  let last := exponent rest i digits last in
  if bool_decide (digits = 0)%nat then None
  else match fast_float (take last text) with Some v => Some (v, last) | None => None end.

Definition starts_with (pre text : list N) : bool := bool_decide (take (length pre) text = pre).

(** [parseFloat] of a text. *)
Definition parse_float (fast_float : list N → option N) (text : list N) : Prim :=
  let '(neg, rest) := Radix.read_sign (Radix.trim_ws text) in
  if starts_with (bytes_of "Infinity") rest then Coercion.float (if neg then Coercion.NEG_INFINITY else Coercion.INFINITY)
  else match parse_decimal_prefix fast_float rest with
       | Some (value, _) => Coercion.float (if neg then F64.neg value else value)
       | None => Coercion.float F64.NAN
       end.

End ParseFloat.

Module NumberMethods.
Import F64.

(** A value: a primitive, or an object by its address (0 is the null address). *)
Inductive Value := VPrim (p : Prim) | VObject (ptr : N).

Section methods.
Context {S Exc : Type}.

Record Host := mkHost {
  number_proto : N;
  proto : S → N → N;
  (** The boxed value, where the type tag is that of a Number object. *)
  number_data : S → N → option Prim;
  set_number_data : N → Prim → S → S;
  (** [None] is the error of the conversion. *)
  coerce_number_bounded : Value → S → S * option N;
  coerce_primitive_bounded : Value → S → S * option Prim;
  to_string_full : Value → S → S * option (list N);
  take_uncaught_value : S → S * option Exc
}.

Inductive Answer := Ret (v : Value) | NewString (t : list N) | Uncaught (e : Exc) | TypeError (msg : string) | RangeError (msg : string).

Variable vm : Host.
Variables (ryu lower_exp : N → list N) (fast_float : list N → option N).

(** The error after a failed conversion: the exception of the program's code where there is one. *)
Definition conversion_error (msg : string) (s : S) : S * Answer :=
  match take_uncaught_value vm s with (s, Some e) => (s, Uncaught e) | (s, None) => (s, TypeError msg) end.

Definition i32_of_integral (n : N) : option Z :=
  if eqb n Coercion.ZERO && is_sign_negative n then None
  else if eqb (sub n (trunc n)) Coercion.ZERO && is_finite n && leb (of_Z (- 2^31)) n && leb n (of_Z (2^31 - 1)) then Some (saturate (- 2^31) (2^31 - 1) n)
  else None.
Definition number_form (n : N) : Prim := match i32_of_integral n with Some i => PInt i | None => Coercion.float n end.

Definition constructed (s : S) (this : Value) : option N :=
  match this with
  | VObject ptr => if (ptr =? 0)%N then None else if negb (proto vm s ptr =? 0)%N && (proto vm s ptr =? number_proto vm)%N then Some ptr else None
  | VPrim _ => None
  end.

Definition construct (this : Value) (n : N) (s : S) : S * Answer :=
  match constructed s this with
  | Some ptr => (set_number_data vm ptr (number_form n) s, Ret this)
  | None => (s, Ret (VPrim (number_form n)))
  end.

Definition number_constructor (this : Value) (args : list Value) (s : S) : S * Answer :=
  match args with
  | [] => construct this Coercion.ZERO s
  | raw :: _ =>
      match coerce_primitive_bounded vm raw s with
      | (s, None) => conversion_error "Cannot convert value to a number" s
      | (s, Some (PBigInt z)) => construct this (Coercion.bigint_to_f64 z) s
      | (s, Some (PSymbol _)) => conversion_error "Cannot convert a Symbol value to a number" s
      | (s, Some prim) => construct this (Coercion.to_number prim) s
      end
  end.

(** The tests of primitive numbers. *)
Definition on_number (v : Value) (test : N → bool) : Answer :=
  Ret (VPrim (PBool (match v with VPrim ((PInt _ | PDouble _) as p) => test (Coercion.to_number p) | _ => false end))).

Definition number_is_nan (args : list Value) : Answer :=
  match args with [] => Ret (VPrim (PBool false)) | v :: _ => on_number v is_nan end.
Definition number_is_finite (args : list Value) : Answer :=
  match args with [] => Ret (VPrim (PBool false)) | v :: _ => on_number v is_finite end.

(** Without an argument these two test the receiver. *)
Definition number_is_integer (this : Value) (args : list Value) : Answer :=
  on_number (hd this args) (λ n, eqb (trunc n) n && is_finite n).
Definition number_is_safe_integer (this : Value) (args : list Value) : Answer :=
  on_number (hd this args) (λ n, eqb (trunc n) n && is_finite n && leb (of_Z (-9007199254740991)) n && leb n (of_Z 9007199254740991)).

Definition number_parse_int (args : list Value) (s : S) : S * Answer :=
  match args with
  | [] => (s, Ret (VPrim (Coercion.float NAN)))
  | v :: more =>
      match to_string_full vm v s with
      | (s, None) => conversion_error "Cannot convert value to a string" s
      | (s, Some text) =>
          match more with
          | [] => (s, Ret (VPrim (Radix.number_parse_int text NAN)))
          | r :: _ =>
              match coerce_number_bounded vm r s with
              | (s, None) => conversion_error "Cannot convert radix to a number" s
              | (s, Some raw) => (s, Ret (VPrim (Radix.number_parse_int text raw)))
              end
          end
      end
  end.

Definition number_parse_float (args : list Value) (s : S) : S * Answer :=
  match args with
  | [] => (s, Ret (VPrim (Coercion.float NAN)))
  | v :: _ =>
      match to_string_full vm v s with
      | (s, None) => conversion_error "Cannot convert value to a string" s
      | (s, Some text) => (s, Ret (VPrim (ParseFloat.parse_float fast_float text)))
      end
  end.

(** ** Methods of numbers *)

Definition this_number_value (s : S) (this : Value) : option N :=
  match this with
  | VPrim ((PInt _ | PDouble _) as p) => Some (Coercion.to_number p)
  | VPrim _ => None
  | VObject ptr =>
      if (ptr =? 0)%N then None
      else if (ptr =? number_proto vm)%N then Some Coercion.ZERO
      else Coercion.to_number <$> number_data vm s ptr
  end.

Definition NOT_A_NUMBER : Answer := TypeError "Cannot convert this value to a number".

Definition with_number (this : Value) (s : S) (k : N → S * res Answer) : S * res Answer :=
  match this_number_value s this with Some n => k n | None => (s, Ok NOT_A_NUMBER) end.

Definition coerce_to_integer_or_infinity (v : Value) (s : S) (k : N → S → S * res Answer) : S * res Answer :=
  match coerce_number_bounded vm v s with
  | (s, Some raw) => k (Digits.to_integer_or_infinity raw) s
  | (s, None) => let '(s, e) := conversion_error "Cannot convert argument to a number" s in (s, Ok e)
  end.

(** The text, or the RangeError with the message of the method. *)
Definition answer (msg : string) (r : res Digits.NumText) : res Answer :=
  let* t := r in Ok (match t with Digits.Text t => NewString t | Digits.RangeError => RangeError msg end).

Definition given (args : list Value) : option Value :=
  match args with [] => None | VPrim PUndefined :: _ => None | v :: _ => Some v end.

Definition number_to_locale_string (this : Value) (s : S) : S * res Answer :=
  with_number this s (λ n, (s, Ok (NewString (Coercion.js_number_to_string ryu n)))).

Definition number_to_string (this : Value) (args : list Value) (s : S) : S * res Answer :=
  let finish n raw := answer "toString() radix must be between 2 and 36" (Ok (Radix.number_to_string ryu n raw)) in
  with_number this s (λ n,
    match given args with
    | None => (s, finish n None)
    | Some v =>
        match coerce_number_bounded vm v s with
        | (s, Some raw) => (s, finish n (Some raw))
        | (s, None) => let '(s, e) := conversion_error "Cannot convert radix to a number" s in (s, Ok e)
        end
    end).

Definition number_to_fixed (this : Value) (args : list Value) (s : S) : S * res Answer :=
  let finish n raw := answer "toFixed() fractionDigits must be between 0 and 100" (Digits.number_to_fixed ryu n raw) in
  with_number this s (λ n,
    match args with
    | [] => (s, finish n Coercion.ZERO)
    | v :: _ => coerce_to_integer_or_infinity v s (λ raw s, (s, finish n raw))
    end).

Definition number_to_precision (this : Value) (args : list Value) (s : S) : S * res Answer :=
  let finish n raw := answer "toPrecision() precision must be between 1 and 100" (Digits.number_to_precision ryu n raw) in
  with_number this s (λ n,
    match given args with
    | None => (s, finish n None)
    | Some v => coerce_to_integer_or_infinity v s (λ raw s, (s, finish n (Some raw)))
    end).

Definition number_to_exponential (this : Value) (args : list Value) (s : S) : S * res Answer :=
  let finish n raw := answer "toExponential() fractionDigits must be between 0 and 100" (Digits.number_to_exponential lower_exp n raw) in
  with_number this s (λ n,
    match given args with
    | None => (s, finish n None)
    | Some v => coerce_to_integer_or_infinity v s (λ raw s, (s, finish n (Some raw)))
    end).

Definition number_value_of (this : Value) (s : S) : Answer :=
  let incompatible := TypeError "Number.prototype.valueOf called on incompatible receiver" in
  match this with
  | VPrim (PInt _ | PDouble _) => Ret this
  | VPrim _ => incompatible
  | VObject ptr =>
      if (ptr =? 0)%N then incompatible
      else if (ptr =? number_proto vm)%N then Ret (VPrim (PInt 0))
      else match number_data vm s ptr with Some boxed => Ret (VPrim boxed) | None => incompatible end
  end.

End methods.
Arguments Host : clear implicits.
Arguments Answer : clear implicits.
End NumberMethods.

(** ** Facts *)

Module NumberFacts.
Import F64 F64Facts NumberMethods.

(** *** Fractions *)

Lemma normalize_units n e b u : -1074 <= e → n * 2 ^ (e + 1074) = u → u = 0 ∨ fits (Z.abs u) →
  valid_binary prec emax (binary_normalize prec emax n e b) = true ∧ units (binary_normalize prec emax n e b) = Some u.
Proof.
  intros He <- Hf. pose proof (Z.pow_pos_nonneg 2 (e + 1074) ltac:(lia) ltac:(lia)) as Hp. destruct n as [|p|p]; [done|..]; destruct Hf as [Hf|Hf]; try lia;
    rewrite Z.abs_mul, (Z.abs_eq (2 ^ _)) in Hf by lia; cbn [binary_normalize Z.abs] in *;
    [destruct (round_fits false p e He Hf) as (m' & e' & -> & Hb & _ & Es)|destruct (round_fits true p e He Hf) as (m' & e' & -> & Hb & _ & Es)];
    (split; [done|]); cbn [units cond_Zopp]; rewrite Es; unfold scaled; f_equal; lia.
Qed.

Lemma sub_units x y a b : valid_binary prec emax x = true → valid_binary prec emax y = true → units x = Some a → units y = Some b →
  a - b = 0 ∨ fits (Z.abs (a - b)) → valid_binary prec emax (SFsub prec emax x y) = true ∧ units (SFsub prec emax x y) = Some (a - b).
Proof.
  intros Hx Hy Ux Uy Hf. destruct x as [s|s| |s m e], y as [s'|s'| |s' m' e']; try done; cbn [units] in Ux, Uy; injection Ux as <-; injection Uy as <-; cbn [SFsub].
  - by destruct s, s'.
  - split; [done|]. cbn [units]. f_equal. destruct s'; cbn [negb cond_Zopp]; lia.
  - split; [done|]. cbn [units]. f_equal. lia.
  - apply bounded_low in Hx as Hex. apply bounded_low in Hy as Hey. apply normalize_units; [lia| |done]. rewrite Z.mul_sub_distr_r, !align_units by lia. lia.
Qed.

Lemma fraction_fits x z a : valid_binary prec emax x = true → int_part x = Some z → units x = Some a → a - z * UNIT = 0 ∨ fits (Z.abs (a - z * UNIT)).
Proof.
  intros Hv Hi Hu. destruct x as [s|s| |s m e]; try done; cbn [int_part units] in *; injection Hi as <-; injection Hu as <-; [by left|].
  apply bounded_low in Hv as He. unfold scaled. destruct (Z.leb_spec 0 e) as [H0|H0].
  - left. rewrite Z.pow_add_r by lia. fold UNIT. destruct s; cbn [cond_Zopp]; lia.
  - assert (UNIT = 2 ^ (- e) * 2 ^ (e + 1074)) as -> by (rewrite <- Z.pow_add_r by lia; unfold UNIT; f_equal; lia).
    pose proof (Z.pow_pos_nonneg 2 (- e) ltac:(lia) ltac:(lia)) as Hp. pose proof (Z.pow_pos_nonneg 2 (e + 1074) ltac:(lia) ltac:(lia)) as Hk.
    pose proof (Z.div_mod (Zpos m) (2 ^ (- e)) ltac:(lia)) as Ed. pose proof (Z.mod_pos_bound (Zpos m) (2 ^ (- e)) Hp) as Hm.
    assert (cond_Zopp s (Zpos m * 2 ^ (e + 1074)) - cond_Zopp s (Zpos m / 2 ^ (- e)) * (2 ^ (- e) * 2 ^ (e + 1074)) = cond_Zopp s (Zpos m mod 2 ^ (- e)) * 2 ^ (e + 1074)) as ->
      by (destruct s; cbn [cond_Zopp]; nia).
    destruct (Z.eq_dec (Zpos m mod 2 ^ (- e)) 0) as [->|Hn]; [left; by destruct s|right].
    assert (Zpos m < 2^53) as Hm53 by (destruct (bounded_cases m e Hv); lia). pose proof (Z.mod_le (Zpos m) (2 ^ (- e)) ltac:(lia) Hp) as Hle.
    exists (Zpos m mod 2 ^ (- e)), (e + 1074). split_and!; [lia..|]. rewrite Z.abs_mul, (Z.abs_eq (2 ^ (e + 1074))) by lia. destruct s; cbn [cond_Zopp]; lia.
Qed.

(** A finite number has an integer part and a value. *)
Lemma finite_parts n : is_finite n = true → ∃ z a, int_part (decode n) = Some z ∧ units (decode n) = Some a.
Proof. unfold is_finite. destruct (decode n); naive_solver. Qed.

Lemma int_finite n z : is_int (decode n) z → is_finite n = true.
Proof. intros [_ Hu]. unfold is_finite. by destruct (decode n). Qed.

(** Both tests for an integer. *)
Lemma integral_test n : (eqb (trunc n) n && is_finite n = true ↔ ∃ z, is_int (decode n) z) ∧ (eqb (sub n (trunc n)) Coercion.ZERO && is_finite n = true ↔ ∃ z, is_int (decode n) z).
Proof.
  destruct (is_finite n) eqn:Ef.
  - destruct (finite_parts n Ef) as (z & a & Hi & Ha). pose proof (decode_valid n) as Hv. pose proof (trunc_int _ _ Hv Hi) as Ht.
    assert (is_int (decode (trunc n)) z) as Hz by (unfold trunc; by rewrite decode_encode by apply Ht).
    assert ((∃ z', is_int (decode n) z') ↔ a = z * UNIT) as ->.
    { split; [|by exists z; split; [done|subst a]]. intros [z' Hz']. pose proof (int_int_part _ _ Hz') as E. rewrite Hi in E. injection E as <-. destruct Hz' as [_ Hu]. congruence. }
    rewrite !andb_true_r. split.
    + rewrite (CoercionFacts.units_eqb _ _ _ _ (proj2 Hz) Ha), Z.eqb_eq. split; intros E; exact (eq_sym E).
    + destruct (sub_units _ _ _ _ Hv (proj1 Hz) Ha (proj2 Hz) (fraction_fits _ _ _ Hv Hi Ha)) as [Sv Su].
      assert (units (decode (sub n (trunc n))) = Some (a - z * UNIT)) as E by (unfold sub; by rewrite decode_encode).
      rewrite (CoercionFacts.units_eqb _ Coercion.ZERO _ 0 E eq_refl), Z.eqb_eq. lia.
  - rewrite !andb_false_r. split; (split; [done|]); intros [z Hz%int_finite]; congruence.
Qed.

Lemma leb_int n z k : is_int (decode n) z → Z.abs k < 2^53 → leb n (of_Z k) = (z <=? k) ∧ leb (of_Z k) n = (k <=? z).
Proof.
  intros [_ Hu] Hk. destruct (of_Z_int k Hk) as [_ Uk]. rewrite (RadixFacts.units_leb _ _ _ _ Hu Uk), (RadixFacts.units_leb _ _ _ _ Uk Hu). pose proof unit_pos as Hp.
  split; apply Bool.eq_iff_eq_true; rewrite !Z.leb_le; symmetry; by apply Z.mul_le_mono_pos_r.
Qed.

Lemma zero_bits n : (n < 2^64)%N → eqb n Coercion.ZERO = true → n = if is_sign_negative n then neg Coercion.ZERO else Coercion.ZERO.
Proof.
  intros Hn Hz. assert (∃ s, decode n = S754_zero s) as [s E].
  { revert Hz. unfold eqb, SFeqb. destruct (decode n) as [s|s| |s m e]; [by exists s|by destruct s|done|]. by destruct s. }
  assert (is_nan n = false) as Hnan by (unfold is_nan; by rewrite E). pose proof (encode_decode n Hn Hnan) as Ed. rewrite E in Ed. subst n. by destruct s.
Qed.

(** The int form is taken exactly for the integers of 32 bits other than -0. *)
Lemma i32_of_integral_iff n i : (n < 2^64)%N → i32_of_integral n = Some i ↔ is_int (decode n) i ∧ - 2^31 <= i <= 2^31 - 1 ∧ n ≠ neg Coercion.ZERO.
Proof.
  intros Hn. unfold i32_of_integral. destruct (eqb n Coercion.ZERO && is_sign_negative n) eqn:Ez.
  - apply andb_true_iff in Ez as [Ez Es]. pose proof (zero_bits n Hn Ez) as E. rewrite Es in E. split; [done|]. by intros (_ & _ & ?).
  - assert (n ≠ neg Coercion.ZERO) as Hnz by (intros ->; done).
    destruct (eqb (sub n (trunc n)) Coercion.ZERO && is_finite n) eqn:Et.
    + apply (proj2 (integral_test n)) in Et as [z Hz]. destruct (leb_int n z (- 2^31) Hz ltac:(lia)) as [_ ->], (leb_int n z (2^31 - 1) Hz ltac:(lia)) as [-> _].
      destruct (Z.leb_spec (- 2^31) z) as [H1|H1], (Z.leb_spec z (2^31 - 1)) as [H2|H2]; cbn [andb].
      1: rewrite (saturate_int _ _ _ z Hz (conj H1 H2)). split; [intros [= <-]; by split_and!|intros (Hi & _ & _); f_equal].
      2-4: split; [done|]; intros (Hi & Hr & _); exfalso.
      all: pose proof (int_int_part _ _ Hi) as E; rewrite (int_int_part _ _ Hz) in E; injection E as <-; lia.
    + split; [done|]. intros (Hi & _). assert (∃ z, is_int (decode n) z) as Ht by by exists i. apply (proj2 (integral_test n)) in Ht. congruence.
Qed.
End NumberFacts.

Module ParseFacts.
Import ParseFloat.

#[local] Abbreviation digits := (Forall (λ c, Coercion.is_digit c = true)).
#[local] Abbreviation stops x := (∀ c t, x = c :: t → Coercion.is_digit c = false).

(** The grammar of decimal literals: digits with at most one point and at least
    one digit, then an exponent or none. *)
Definition exponent_part (e : list N) : Prop :=
  e = [] ∨ ∃ c sign ds, e = c :: sign ++ ds ∧ is_e c = true ∧ sign ∈ [[]; [43%N]; [45%N]] ∧ digits ds ∧ ds ≠ [].

Inductive literal : list N → Prop :=
  | whole a e : digits a → a ≠ [] → exponent_part e → literal (a ++ e)
  | pointed a b e : digits a → digits b → a ++ b ≠ [] → exponent_part e → literal (a ++ 46%N :: b ++ e).

(** The longest literal at the front, up to a point without digits after it. *)
Definition longest (text t : list N) : Prop :=
  literal t ∧ t `prefix_of` text ∧ ∀ t', literal t' → t' `prefix_of` text → (length t' <= length t)%nat ∨ t' = t ++ [46%N].

Lemma take_digits_ok text a rest : Coercion.take_digits text = (a, rest) → text = a ++ rest ∧ digits a ∧ stops rest.
Proof.
  revert a rest. induction text as [|c text IH]; intros a rest; cbn [Coercion.take_digits]; [by intros [= <- <-]|].
  destruct (Coercion.is_digit c) eqn:Ec; [|intros [= <- <-]; split_and!; [done|done|by intros c' t [= <- <-]]].
  destruct (Coercion.take_digits text) as [ds r]. intros [= <- <-]. destruct (IH _ _ eq_refl) as (-> & Hd & Hr). split_and!; [done|by constructor|done].
Qed.

(** Digits at the front of a text are digits of its run. *)
Lemma digits_front text a rest a' x : Coercion.take_digits text = (a, rest) → text = a' ++ x → digits a' → (length a' <= length a)%nat ∧ (stops x → a' = a ∧ x = rest).
Proof.
  intros E -> Ha. split; [|intros Hx; rewrite CoercionFacts.take_digits_app in E by done; by injection E].
  revert a rest E. induction Ha as [|c a' Hc _ IH]; intros a rest; cbn [Coercion.take_digits app]; [cbn; lia|]. rewrite Hc.
  destruct (Coercion.take_digits (a' ++ x)) as [ds r]. intros [= <- <-]. specialize (IH _ _ eq_refl). cbn. lia.
Qed.

Lemma skip_digits_ok text j : skip_digits text j = (j + length (Coercion.take_digits text).1)%nat.
Proof.
  revert j. induction text as [|c text IH]; intros j; cbn [skip_digits Coercion.take_digits]; [cbn; lia|]. destruct (Coercion.is_digit c); [|cbn; lia].
  rewrite IH. destruct (Coercion.take_digits text). cbn. lia.
Qed.

(** The exponent at the front of a text. *)
Definition exponent_length (text : list N) : nat := exponent text 0 1 0.

Lemma exponent_shift text i n last : (0 < n)%nat → exponent text i n last = if bool_decide (exponent_length text = 0)%nat then last else (i + exponent_length text)%nat.
Proof.
  intros Hn. unfold exponent_length, exponent. destruct text as [|c text]; [done|]. rewrite (bool_decide_true (0 < n)%nat), (bool_decide_true (0 < 1)%nat) by lia. rewrite andb_true_r.
  destruct (is_e c); [|done]. assert (∀ t : list N, skip_sign t (S i) = ((skip_sign t 1).1, (i + (skip_sign t 1).2)%nat) ∧ (0 < (skip_sign t 1).2)%nat) as Hs.
  { intros [|c' t]; cbn [skip_sign]; [cbn; split; [f_equal|]; lia|]. destruct (_ || _); cbn; (split; [f_equal|]; lia). }
  destruct (Hs text) as [-> Hp]. destruct (skip_sign text 1) as [t j]. cbn [fst snd] in *. destruct t as [|d t]; [done|]. destruct (Coercion.is_digit d); [|done].
  rewrite !skip_digits_ok. rewrite bool_decide_false by lia. lia.
Qed.

Lemma skip_sign_ok text j : ∃ sign rest, sign ∈ [[]; [43%N]; [45%N]] ∧ text = sign ++ rest ∧ skip_sign text j = (rest, (j + length sign)%nat).
Proof.
  destruct text as [|c text]; cbn [skip_sign]; [exists [], []; split_and!; [set_solver|done|f_equal; cbn; lia]|].
  destruct (N.eqb_spec c 43) as [->|H1]; [exists [43%N], text; split_and!; [set_solver|done|f_equal; cbn; lia]|].
  destruct (N.eqb_spec c 45) as [->|H2]; [exists [45%N], text; split_and!; [set_solver|done|f_equal; cbn; lia]|].
  exists [], (c :: text). split_and!; [set_solver|done|cbn; f_equal; lia].
Qed.

Lemma skip_sign_app sign ds j c t : sign ∈ [[]; [43%N]; [45%N]] → ds = c :: t → Coercion.is_digit c = true → skip_sign (sign ++ ds) j = (ds, (j + length sign)%nat).
Proof.
  intros Hs -> Hc. assert (c ≠ 43%N ∧ c ≠ 45%N) as [H1 H2] by (split; apply CoercionFacts.digit_not; (done || lia)).
  rewrite !elem_of_cons, elem_of_nil in Hs. destruct Hs as [->|[->|[->|[]]]]; cbn [skip_sign app]; [|cbn; f_equal; lia..].
  rewrite (proj2 (N.eqb_neq _ _) H1), (proj2 (N.eqb_neq _ _) H2). cbn. f_equal. lia.
Qed.

Lemma exponent_ok text : exponent_part (take (exponent_length text) text) ∧ ∀ e u, text = e ++ u → exponent_part e → (length e <= exponent_length text)%nat.
Proof.
  split.
  - unfold exponent_length, exponent. destruct text as [|c text]; [by left|]. rewrite bool_decide_true, andb_true_r by lia. destruct (is_e c) eqn:Ec; [|by left].
    destruct (skip_sign_ok text 1) as (sign & rest & Hs & -> & ->). destruct rest as [|d rest]; [by left|]. destruct (Coercion.is_digit d) eqn:Ed; [|by left]. right.
    rewrite skip_digits_ok. destruct (Coercion.take_digits (d :: rest)) as [ds more] eqn:Et. destruct (take_digits_ok _ _ _ Et) as (Er & Hds & _). cbn [fst].
    exists c, sign, ds. split_and!; [|done|done|done|]; [|intros ->; cbn [Coercion.take_digits] in Et; rewrite Ed in Et; by destruct (Coercion.take_digits rest)].
    rewrite Er. replace (1 + length sign + length ds)%nat with (S (length (sign ++ ds))) by (rewrite length_app; lia). cbn [take]. f_equal. by rewrite app_assoc, take_app_length.
  - intros e u -> [->|(c & sign & ds & -> & Hc & Hs & Hds & Hne)]; [cbn; lia|]. unfold exponent_length, exponent. cbn [app]. rewrite Hc, bool_decide_true by lia. cbn [andb].
    destruct ds as [|d ds]; [done|]. inversion Hds as [|? ? Hd Hds']; subst. rewrite <- app_assoc. rewrite (skip_sign_app sign ((d :: ds) ++ u) 1 d (ds ++ u)) by done.
    cbn [app]. rewrite Hd, skip_digits_ok. destruct (Coercion.take_digits (d :: ds ++ u)) as [a rest] eqn:Et.
    pose proof (proj1 (digits_front _ _ _ (d :: ds) u Et eq_refl Hds)) as Hl. cbn [fst length] in *. rewrite length_app. cbn [length]. lia.
Qed.

(** *** The scan *)

Lemma mantissa_after text : ∀ i n last, mantissa text i true n last =
  let '(b, rest) := Coercion.take_digits text in (rest, (i + length b)%nat, (n + length b)%nat, if bool_decide (b = []) then last else (i + length b)%nat).
Proof.
  induction text as [|c text IH]; intros i n last; cbn [mantissa Coercion.take_digits]; [cbn; by rewrite !Nat.add_0_r|].
  destruct (Coercion.is_digit c); [|rewrite andb_false_r; cbn; by rewrite !Nat.add_0_r]. rewrite IH. destruct (Coercion.take_digits text) as [b rest].
  rewrite (bool_decide_false (c :: b = [])) by done. cbn [length]. rewrite !Nat.add_succ_r. case_bool_decide; [subst b; cbn; by rewrite !Nat.add_0_r|done].
Qed.

Lemma mantissa_before text : ∀ i n last, mantissa text i false n last =
  let '(a, rest) := Coercion.take_digits text in
  let last := if bool_decide (a = []) then last else (i + length a)%nat in
  match rest with
  | c :: r => if (c =? 46)%N then mantissa r (S (i + length a)) true (n + length a) last else (rest, (i + length a)%nat, (n + length a)%nat, last)
  | [] => ([], (i + length a)%nat, (n + length a)%nat, last)
  end.
Proof.
  induction text as [|c text IH]; intros i n last; cbn [mantissa Coercion.take_digits]; [cbn; by rewrite !Nat.add_0_r|].
  destruct (Coercion.is_digit c); [|cbn; rewrite andb_true_r, !Nat.add_0_r; done]. rewrite IH. destruct (Coercion.take_digits text) as [a rest].
  rewrite (bool_decide_false (c :: a = [])) by done. cbn [length]. rewrite !Nat.add_succ_r.
  assert ((if bool_decide (a = []) then S i else (S i + length a)%nat) = S (i + length a)) as -> by (case_bool_decide; [subst a; cbn|]; lia). done.
Qed.

Lemma exponent_nonempty e u : exponent_part e → e ≠ [] → stops (e ++ u).
Proof.
  intros [->|(c & sign & ds & -> & Hc & _)] Hu; [done|]. intros c' t [= <- <-]. unfold is_e in Hc. by apply orb_true_iff in Hc as [Hc|Hc]; apply N.eqb_eq in Hc; subst c.
Qed.

(** An exponent after digits, at the front of a text. *)
Lemma digits_exponent text a rest a' e u : Coercion.take_digits text = (a, rest) → text = a' ++ e ++ u → digits a' → exponent_part e →
  (e = [] ∧ length a' <= length a)%nat ∨ (a' = a ∧ rest = e ++ u ∧ (length e <= exponent_length rest)%nat).
Proof.
  intros Et E Ha He. destruct (digits_front _ _ _ _ _ Et E Ha) as [Hl Hs]. destruct (decide (e = [])) as [->|Hne]; [by left|right].
  destruct (Hs (exponent_nonempty _ _ He Hne)) as [-> <-]. split_and!; [done|done|]. by apply (proj2 (exponent_ok _) e u).
Qed.

Lemma no_exponent rest : exponent_length rest = 0%nat → ∀ e u, rest = e ++ u → exponent_part e → e = [].
Proof. intros H0 e u E He. pose proof (proj2 (exponent_ok rest) e u E He). destruct e; [done|cbn in *; lia]. Qed.

(** Without a point. *)
Lemma longest_whole text a rest : Coercion.take_digits text = (a, rest) → a ≠ [] → (∀ r, rest ≠ 46%N :: r) → longest text (take (length a + exponent_length rest) text).
Proof.
  intros Et Ha Hp. destruct (take_digits_ok _ _ _ Et) as (E & Hd & Hs). destruct (exponent_ok rest) as [He Hm].
  assert (take (length a + exponent_length rest) text = a ++ take (exponent_length rest) rest) as Etake by (rewrite E at 1; apply take_app_add).
  split_and!; [rewrite Etake; by constructor|apply prefix_take|]. intros t' Hl [u Eu]. left. rewrite Etake, length_app.
  destruct Hl as [a' e Ha' Hne He'|a' b e Ha' Hb Hne He'].
  - rewrite <- app_assoc in Eu. destruct (digits_exponent _ _ _ _ _ _ Et Eu Ha' He') as [[-> Hl]|(-> & Er & Hl)]; rewrite !length_app; [cbn; lia|].
    pose proof (f_equal length Er) as El. rewrite length_app in El. rewrite length_take. lia.
  - rewrite <- app_assoc in Eu. destruct (digits_front _ _ _ _ _ Et Eu Ha') as [_ Hs']. destruct Hs' as [_ Er]; [by intros c t [= <- <-]|]. by destruct (Hp ((b ++ e) ++ u)).
Qed.

(** With a point. *)
Definition pointed_end (a b rest : list N) : nat :=
  if bool_decide (exponent_length rest = 0)%nat then if bool_decide (b = []) then length a else S (length a + length b) else (S (length a + length b) + exponent_length rest)%nat.

Lemma take_pointed a b rest k : take (S (length a + length b) + k) (a ++ 46%N :: b ++ rest) = a ++ 46%N :: b ++ take k rest.
Proof. replace (S (length a + length b) + k)%nat with (length a + S (length b + k))%nat by lia. rewrite take_app_add. cbn [take]. by rewrite take_app_add. Qed.

Lemma pointed_taken a b rest : digits a → digits b → a ++ b ≠ [] → literal (take (pointed_end a b rest) (a ++ 46%N :: b ++ rest)).
Proof.
  intros Ha Hb Hne. unfold pointed_end. pose proof (take_pointed a b rest) as Ht. destruct (exponent_ok rest) as [He _]. case_bool_decide as H0; [case_bool_decide as Hb0|].
  - subst b. rewrite app_nil_r in Hne. rewrite take_app_length. rewrite <- (app_nil_r a). constructor; [done|done|by left].
  - specialize (Ht 0%nat). rewrite Nat.add_0_r in Ht. rewrite Ht. cbn [take]. constructor; (done || by left).
  - rewrite Ht. by constructor.
Qed.

Lemma longest_pointed text a b rest more : Coercion.take_digits text = (a, 46%N :: rest) → Coercion.take_digits rest = (b, more) → a ++ b ≠ [] → longest text (take (pointed_end a b more) text).
Proof.
  intros Et Eb Hne. destruct (take_digits_ok _ _ _ Et) as (E & Ha & Hs). destruct (take_digits_ok _ _ _ Eb) as (E' & Hb & Hs'). subst rest.
  assert (length (take (pointed_end a b more) text) = Nat.min (pointed_end a b more) (length text)) as El by apply length_take.
  split_and!; [rewrite E; by apply pointed_taken|apply prefix_take|]. intros t' Hl [u Eu]. pose proof (f_equal length Eu) as Elu. rewrite length_app in Elu. rewrite El.
  assert (length a <= pointed_end a b more)%nat as Hlow by (unfold pointed_end; repeat case_bool_decide; lia).
  destruct Hl as [a' e Ha' _ He'|a' b' e Ha' Hb' _ He']; rewrite <- app_assoc in Eu.
  - left. destruct (digits_exponent _ _ _ _ _ _ Et Eu Ha' He') as [[-> Hl]|(-> & Er & Hl)]; rewrite ?length_app in *; cbn in *; lia.
  - destruct (digits_front _ _ _ _ _ Et Eu Ha') as [_ Hs'']. destruct Hs'' as [-> Er]; [by intros c t [= <- <-]|]. injection Er as Er. rewrite <- app_assoc in Er.
    rewrite length_app in *. cbn [length] in *. rewrite length_app in *.
    destruct (digits_exponent _ _ _ _ _ _ Eb (eq_sym Er) Hb' He') as [[-> Hl]|(-> & Er' & Hl)]; unfold pointed_end; cbn [length] in *; case_bool_decide as H0; try (left; lia).
    + case_bool_decide as Hb0; [|left; lia]. subst b. right. destruct b'; [|cbn in Hl; lia]. rewrite E, take_app_length. by rewrite app_nil_l.
    + destruct e; [|cbn in Hl; lia]. cbn [length] in *. case_bool_decide as Hb0; [|left; lia]. subst b. right. rewrite E, take_app_length. by rewrite app_nil_l.
Qed.

Lemma no_literal text : (∀ c t, text = c :: t → Coercion.is_digit c = false) → (∀ c t, text = 46%N :: c :: t → Coercion.is_digit c = false) → ∀ t, literal t → ¬ t `prefix_of` text.
Proof.
  intros H1 H2 t Hl [u ->]. destruct Hl as [a e Ha Hne _|a b e Ha Hb Hne _].
  - destruct Ha as [|c a Hc _]; [done|]. specialize (H1 c _ eq_refl). congruence.
  - destruct Ha as [|c a Hc _]; [|specialize (H1 c _ eq_refl); congruence]. destruct Hb as [|c b Hc _]; [done|]. specialize (H2 c _ eq_refl). congruence.
Qed.

Lemma exponent_le e : (exponent_length e <= length e)%nat.
Proof.
  unfold exponent_length, exponent. destruct e as [|c e]; [cbn; lia|]. destruct (_ && _); [|cbn; lia]. destruct (skip_sign_ok e 1) as (sign & rest & _ & -> & ->).
  destruct rest as [|d rest]; [lia|]. destruct (Coercion.is_digit d); [|lia]. rewrite skip_digits_ok. destruct (Coercion.take_digits (d :: rest)) as [ds more] eqn:Ed.
  destruct (take_digits_ok _ _ _ Ed) as (-> & _). cbn [fst length]. rewrite !length_app. lia.
Qed.

Definition reads (ff : list N → option N) (text : list N) (r : option (N * nat)) : Prop :=
  (∃ t, longest text t ∧ r = match ff t with Some v => Some (v, length t) | None => None end) ∨ ((∀ t, literal t → ¬ t `prefix_of` text) ∧ r = None).

Lemma reads_found ff text last k : longest text (take k text) → (k <= length text)%nat → last = k →
  reads ff text (match ff (take last text) with Some v => Some (v, last) | None => None end).
Proof. intros Hl Hk ->. left. exists (take k text). split; [done|]. by rewrite length_take, Nat.min_l by lia. Qed.

Lemma reads_whole ff text a rest : Coercion.take_digits text = (a, rest) → (∀ r, rest ≠ 46%N :: r) →
  reads ff text (if bool_decide (length a = 0)%nat then None else
    let last := exponent rest (length a) (length a) (if bool_decide (a = []) then 0%nat else length a) in match ff (take last text) with Some v => Some (v, last) | None => None end).
Proof.
  intros Et Hp. destruct (take_digits_ok _ _ _ Et) as (E & Ha & Hs). case_bool_decide as H0.
  - right. split; [|done]. destruct a; [|done]. apply no_literal; [intros c t ->; by apply (Hs c t)|]. intros c t ->. by destruct (Hp (c :: t)).
  - assert (a ≠ []) as Hne by (by intros ->). cbn zeta. apply (reads_found ff text _ (length a + exponent_length rest)); [by apply longest_whole|rewrite E, length_app; pose proof (exponent_le rest); lia|].
    rewrite exponent_shift, (bool_decide_false (a = [])) by (done || lia). case_bool_decide; lia.
Qed.

Lemma reads_pointed ff text a b rest more : Coercion.take_digits text = (a, 46%N :: rest) → Coercion.take_digits rest = (b, more) →
  reads ff text (if bool_decide (length a + length b = 0)%nat then None else
    let last := if bool_decide (a = []) then 0%nat else length a in
    let last := exponent more (S (length a) + length b) (length a + length b) (if bool_decide (b = []) then last else (S (length a) + length b)%nat) in
    match ff (take last text) with Some v => Some (v, last) | None => None end).
Proof.
  intros Et Eb. destruct (take_digits_ok _ _ _ Et) as (E & Ha & Hs), (take_digits_ok _ _ _ Eb) as (E' & Hb & Hs'). case_bool_decide as H0.
  - right. split; [|done]. destruct a, b; try done. subst rest text. apply no_literal; [by intros c t [= <- <-]|]. intros c t [= ->]. by apply (Hs' c t).
  - assert (a ++ b ≠ []) as Hne by (intros [-> ->]%app_eq_nil; done). cbn zeta. apply (reads_found ff text _ (pointed_end a b more)); [by eapply longest_pointed| |].
    + rewrite E, E', length_app. cbn [length]. rewrite length_app. pose proof (exponent_le more). unfold pointed_end. repeat case_bool_decide; lia.
    + rewrite exponent_shift by lia. unfold pointed_end. repeat case_bool_decide; subst; cbn [length] in *; lia || done.
Qed.

Lemma prefix_longest ff text : reads ff text (parse_decimal_prefix ff text).
Proof.
  unfold parse_decimal_prefix. rewrite mantissa_before. destruct (Coercion.take_digits text) as [a r] eqn:Et. cbn zeta. rewrite !Nat.add_0_l.
  destruct r as [|c r]; [by apply (reads_whole ff _ _ _ Et)|]. destruct (N.eqb_spec c 46) as [->|Hc].
  - rewrite mantissa_after. destruct (Coercion.take_digits r) as [b more] eqn:Eb. apply (reads_pointed ff _ _ _ _ _ Et Eb).
  - apply (reads_whole ff _ _ _ Et). by intros r' [= ->].
Qed.
End ParseFacts.

Import ParseFloat NumberMethods.

(** [parseFloat] reads, after white space and a sign, [Infinity] or the longest
    decimal literal of the grammar at the front of the text, a point without
    digits after it aside; where there is none the result is NaN. *)
Theorem parse_float_longest ff text :
  let neg := (Radix.read_sign (Radix.trim_ws text)).1 in
  let rest := (Radix.read_sign (Radix.trim_ws text)).2 in
  (bytes_of "Infinity" `prefix_of` rest ∧ parse_float ff text = Coercion.float (if neg then Coercion.NEG_INFINITY else Coercion.INFINITY)) ∨
  (¬ bytes_of "Infinity" `prefix_of` rest ∧ ∃ t, ParseFacts.longest rest t ∧
     parse_float ff text = Coercion.float (match ff t with Some v => if neg then F64.neg v else v | None => F64.NAN end)) ∨
  (¬ bytes_of "Infinity" `prefix_of` rest ∧ (∀ t, ParseFacts.literal t → ¬ t `prefix_of` rest) ∧ parse_float ff text = Coercion.float F64.NAN).
Proof.
  unfold parse_float, starts_with. destruct (Radix.read_sign (Radix.trim_ws text)) as [neg rest]. cbn [fst snd]. case_bool_decide as Hi.
  - left. split; [|done]. rewrite <- Hi. apply prefix_take.
  - right. assert (¬ bytes_of "Infinity" `prefix_of` rest) as Hn by (intros [u ->]; by rewrite take_app_length in Hi).
    destruct (ParseFacts.prefix_longest ff rest) as [(t & Ht & ->)|[Hno ->]]; [left|by right]. split; [done|]. exists t. split; [done|]. by destruct (ff t).
Qed.

(** [Number(x)] gives exactly the number [x] converts to, also -0, in the int
    form exactly for the integers of 32 bits other than -0. *)
Theorem number_form_exact n : (n < 2^64)%N →
  Coercion.to_number (number_form n) = (if F64.is_nan n then F64.NAN else n) ∧
  ∀ i, number_form n = PInt i ↔ F64Facts.is_int (F64.decode n) i ∧ - 2^31 <= i <= 2^31 - 1 ∧ n ≠ F64.neg Coercion.ZERO.
Proof.
  intros Hn. pose proof (λ i, NumberFacts.i32_of_integral_iff n i Hn) as Hi. unfold number_form. split; [|intros i; rewrite <- Hi; clear Hi; destruct (i32_of_integral n); unfold Coercion.float; split; congruence].
  destruct (i32_of_integral n) as [i|] eqn:E.
  - destruct (proj1 (Hi i) eq_refl) as (Hint & Hr & Hz). rewrite (proj1 (RadixFacts.int_not_nan n i Hint)). cbn [Coercion.to_number].
    destruct (Z.eq_dec i 0) as [->|Hnz]; [|by apply CoercionFacts.of_Z_unique; (done || lia)]. pose proof (RadixFacts.eqb_zero n 0 Hint) as Ez.
    pose proof (NumberFacts.zero_bits n Hn Ez) as Eb. destruct (F64.is_sign_negative n); [by destruct (Hz Eb)|by rewrite Eb].
  - unfold Coercion.float. cbn [Coercion.to_number]. done.
Qed.

Lemma number_form_exact_witness : number_form (F64.of_Z (-7)) = PInt (-7) ∧ Coercion.to_number (number_form (F64.neg Coercion.ZERO)) = F64.neg Coercion.ZERO.
Proof.
  split; [|exact (proj1 (number_form_exact (F64.neg Coercion.ZERO) ltac:(done)))].
  apply (proj2 (number_form_exact (F64.of_Z (-7)) ltac:(vm_compute; reflexivity)) (-7)). split_and!; [apply F64Facts.of_Z_int; lia|lia|lia|by vm_compute].
Defined.

Lemma on_primitive {Exc} p test : (∃ i, p = PInt i) ∨ (∃ d, p = PDouble d) → on_number (Exc := Exc) (VPrim p) test = Ret (VPrim (PBool (test (Coercion.to_number p)))).
Proof. by intros [[i ->]|[d ->]]. Qed.

(** [Number.isInteger] and [Number.isSafeInteger] of a number answer whether it is an
    integer, and one below 2^53 in magnitude. *)
Lemma integer_tests_exact {Exc} this p more : (∃ i, p = PInt i) ∨ (∃ d, p = PDouble d) → ∃ yes safe,
  number_is_integer (Exc := Exc) this (VPrim p :: more) = Ret (VPrim (PBool yes)) ∧ number_is_safe_integer (Exc := Exc) this (VPrim p :: more) = Ret (VPrim (PBool safe)) ∧
  (yes = true ↔ ∃ z, F64Facts.is_int (F64.decode (Coercion.to_number p)) z) ∧
  (safe = true ↔ ∃ z, F64Facts.is_int (F64.decode (Coercion.to_number p)) z ∧ Z.abs z <= 2^53 - 1).
Proof.
  intros Hp. set (n := Coercion.to_number p). exists (F64.eqb (F64.trunc n) n && F64.is_finite n).
  exists (F64.eqb (F64.trunc n) n && F64.is_finite n && F64.leb (F64.of_Z (-9007199254740991)) n && F64.leb n (F64.of_Z 9007199254740991)).
  pose proof (proj1 (NumberFacts.integral_test n)) as Ht. pose proof (λ test, @on_primitive Exc p test Hp) as Hon. fold n in Hon.
  split; [apply Hon|]. split; [apply Hon|]. split; [exact Ht|]. split.
  - intros [[[z Hz]%Ht Hlo]%andb_true_iff Hhi]%andb_true_iff. exists z. split; [done|].
    rewrite (proj2 (NumberFacts.leb_int n z (-9007199254740991) Hz ltac:(lia))) in Hlo. rewrite (proj1 (NumberFacts.leb_int n z 9007199254740991 Hz ltac:(lia))) in Hhi. lia.
  - intros (z & Hz & Hr). rewrite (proj2 Ht) by by exists z. rewrite (proj2 (NumberFacts.leb_int n z (-9007199254740991) Hz ltac:(lia))), (proj1 (NumberFacts.leb_int n z 9007199254740991 Hz ltac:(lia))). lia.
Qed.

(** Without an argument the tests look at the receiver. *)
Lemma tests_of_receiver {Exc} : number_is_integer (Exc := Exc) (VPrim (PInt 5)) [] = Ret (VPrim (PBool true)) ∧ number_is_safe_integer (Exc := Exc) (VPrim (PInt 5)) [] = Ret (VPrim (PBool true)).
Proof. split; vm_compute; reflexivity. Qed.
