(* ===== verification/Json.v ===== *)
(** * The JSON reader (crates/oxide_builtins/src/json.rs)

    [parse_json], the recursive descent parser behind [JSON.parse], on the text
    as the list of its characters.  The cursor of the parser is the rest of the
    text; the depth of open containers is an argument.  A loop or a recursive
    call takes one unit of fuel.

    The reader is compared with the grammar [value], in which the texts of
    primitive values are the sources that the nodes keep. *)

From stdpp Require Import base tactics numbers list option sets strings.
From Stdlib Require Import ZArith Lia SpecFloat.
From S2P Require Import Prelude Unicode Float Coercion Digits Radix NumberMethods.

Open Scope N_scope.

Module Json.

Inductive JsonNode := mkNode (kind : JsonKind) (source : option (list N))
with JsonKind :=
  | Null
  | Bool (b : bool)
  | Number (n : N)
  | String (s : list N)
  | Array (items : list JsonNode)
  | Object (entries : list (list N * JsonNode)).

Definition kind (node : JsonNode) : JsonKind := let 'mkNode k _ := node in k.
Definition source (node : JsonNode) : option (list N) := let 'mkNode _ s := node in s.

Definition MAX_JSON_DEPTH : nat := 128.

(** ** The cursor *)

Definition is_ws (c : N) : bool := bool_decide (c ∈ [32; 9; 10; 13]).

Fixpoint skip_ws (s : list N) : list N := match s with c :: rest => if is_ws c then skip_ws rest else s | [] => [] end.

(** What was read between two cursors. *)
Definition slice (start rest : list N) : list N := take (length start - length rest) start.

Definition prim (k : JsonKind) (start rest : list N) : JsonNode := mkNode k (Some (slice start rest)).

Definition expect_word (word s : list N) : res (list N) :=
  if bool_decide (take (length word) s = word) then Ok (drop (length word) s) else Err "invalid literal".

(** ** Numbers *)

Definition skip_char (c : N) (s : list N) : list N := match s with x :: rest => if x =? c then rest else s | [] => [] end.

Definition some_digits (s : list N) : res (list N) :=
  match Coercion.take_digits s with ([], _) => Err "invalid number" | (_, rest) => Ok rest end.

Definition integer_part (s : list N) : res (list N) :=
  match s with
  | c :: rest => if c =? 48 then Ok rest else if in_range 49 57 c then Ok (Coercion.take_digits s).2 else Err "invalid number"
  | [] => Err "invalid number"
  end.
Definition fraction (s : list N) : res (list N) :=
  match s with c :: rest => if c =? 46 then some_digits rest else Ok s | [] => Ok [] end.
Definition exponent (s : list N) : res (list N) :=
  match s with c :: rest => if ParseFloat.is_e c then some_digits (ParseFloat.skip_sign rest 0).1 else Ok s | [] => Ok [] end.

Definition parse_number (s : list N) : res (N * list N) :=
  let* rest := integer_part (skip_char 45 s) in
  let* rest := fraction rest in
  let* rest := exponent rest in
  match Coercion.parse_f64 (slice s rest) with
  | None => Err "invalid number"
  | Some n => if F64.is_finite n then Ok (n, rest) else Err "number out of range"
  end.

(** ** Strings *)

(** [String::from_utf16]. *)
Fixpoint from_utf16 (units : list N) : option (list N) :=
  match units with
  | [] => Some []
  | u :: rest =>
      if is_high u then
        match rest with
        | lo :: rest' => if is_low lo then cons (pair_value u lo) <$> from_utf16 rest' else None
        | [] => None
        end
      else if is_low u then None else cons u <$> from_utf16 rest
  end.

Fixpoint parse_hex (k : nat) (v : N) (s : list N) : res (N * list N) :=
  match k with
  | O => Ok (v, s)
  | S k =>
      match s with
      | [] => Err "unexpected end of hex escape"
      | c :: rest => match to_digit16 c with Some d => parse_hex k (v * 16 + d) rest | None => Err "invalid hex digit" end
      end
  end.
Definition parse_hex4 : list N → res (N * list N) := parse_hex 4 0.

Definition parse_unicode_escape (s : list N) : res (N * list N) :=
  let* (hi, s) := parse_hex4 s in
  if is_high hi then
    if bool_decide (take 2 s = [92; 117]) then
      let* (lo, s) := parse_hex4 (drop 2 s) in
      if is_low lo then Ok (pair_value hi lo, s) else Err "invalid surrogate pair"
    else Err "lone leading surrogate in hex escape"
  else if is_low hi then Err "lone leading surrogate in hex escape"
  else Ok (hi, s).

Definition simple_escape (e : N) : option N :=
  if e =? 34 then Some 0x22 else if e =? 92 then Some 0x5C else if e =? 47 then Some 0x2F
  else if e =? 98 then Some 0x08 else if e =? 102 then Some 0x0C else if e =? 110 then Some 0x0A
  else if e =? 114 then Some 0x0D else if e =? 116 then Some 0x09 else None.

Definition parse_escape (s : list N) : res (N * list N) :=
  match s with
  | [] => Err "unterminated escape"
  | e :: rest =>
      match simple_escape e with
      | Some u => Ok (u, rest)
      | None => if e =? 117 then parse_unicode_escape rest else Err "invalid escape"
      end
  end.

(** The units between the quotes, and the rest after the closing one.  An escape
    pushes one unit, [u as u16]. *)
Fixpoint string_units (fuel : nat) (s : list N) : res (list N * list N) :=
  match fuel with
  | O => Panic
  | S fuel =>
      match s with
      | [] => Err "unterminated string"
      | c :: rest =>
          if c =? 34 then Ok ([], rest)
          else if c =? 92 then
            let* (u, rest) := parse_escape rest in
            let* (units, rest) := string_units fuel rest in
            Ok (u16 u :: units, rest)
          else if c <=? 0x1F then Err "unescaped control character in string"
          else
            let* (units, rest) := string_units fuel rest in
            Ok (utf16 [c] ++ units, rest)
      end
  end.

(** From the opening quote. *)
Definition parse_string (s : list N) : res (list N * list N) :=
  let* (units, rest) := string_units (S (length s)) (tail s) in
  match from_utf16 units with Some text => Ok (text, rest) | None => Panic end.

(** ** Values *)

Fixpoint parse_value (fuel depth : nat) (s : list N) : res (JsonNode * list N) :=
  match fuel with
  | O => Panic
  | S fuel =>
      let s := skip_ws s in
      match s with
      | [] => Err "unexpected end of input"
      | c :: after =>
          if c =? 110 then let* rest := expect_word (bytes_of "null") s in Ok (prim Null s rest, rest)
          else if c =? 116 then let* rest := expect_word (bytes_of "true") s in Ok (prim (Bool true) s rest, rest)
          else if c =? 102 then let* rest := expect_word (bytes_of "false") s in Ok (prim (Bool false) s rest, rest)
          else if c =? 34 then let* (text, rest) := parse_string s in Ok (prim (String text) s rest, rest)
          else if c =? 91 then
            if bool_decide (MAX_JSON_DEPTH <= depth)%nat then Err "recursion limit exceeded"
            else
              let s := skip_ws after in
              let* (items, rest) := match s with
                                    | x :: rest => if x =? 93 then Ok ([], rest) else parse_array fuel (S depth) s
                                    | [] => parse_array fuel (S depth) s
                                    end in
              Ok (mkNode (Array items) None, rest)
          else if c =? 123 then
            if bool_decide (MAX_JSON_DEPTH <= depth)%nat then Err "recursion limit exceeded"
            else
              let s := skip_ws after in
              let* (entries, rest) := match s with
                                      | x :: rest => if x =? 125 then Ok ([], rest) else parse_object fuel (S depth) s
                                      | [] => parse_object fuel (S depth) s
                                      end in
              Ok (mkNode (Object entries) None, rest)
          else if (c =? 45) || Coercion.is_digit c then let* (n, rest) := parse_number s in Ok (prim (Number n) s rest, rest)
          else Err "expected value"
      end
  end
(** The loop over the elements. *)
with parse_array (fuel depth : nat) (s : list N) : res (list JsonNode * list N) :=
  match fuel with
  | O => Panic
  | S fuel =>
      let* (item, s) := parse_value fuel depth s in
      match skip_ws s with
      | c :: rest =>
          if c =? 44 then
            let s := skip_ws rest in
            if bool_decide (head s = Some 93) then Err "trailing comma"
            else let* (items, rest) := parse_array fuel depth s in Ok (item :: items, rest)
          else if c =? 93 then Ok ([item], rest)
          else Err "expected ',' or ']'"
      | [] => Err "expected ',' or ']'"
      end
  end
(** The loop over the members. *)
with parse_object (fuel depth : nat) (s : list N) : res (list (list N * JsonNode) * list N) :=
  match fuel with
  | O => Panic
  | S fuel =>
      let s := skip_ws s in
      if bool_decide (head s = Some 34) then
        let* (key, s) := parse_string s in
        match skip_ws s with
        | c :: s =>
            if c =? 58 then
              let* (val, s) := parse_value fuel depth s in
              match skip_ws s with
              | c :: rest =>
                  if c =? 44 then
                    let s := skip_ws rest in
                    if bool_decide (head s = Some 125) then Err "trailing comma"
                    else let* (entries, rest) := parse_object fuel depth s in Ok ((key, val) :: entries, rest)
                  else if c =? 125 then Ok ([(key, val)], rest)
                  else Err "expected ',' or '}'"
              | [] => Err "expected ',' or '}'"
              end
            else Err "expected ':'"
        | [] => Err "expected ':'"
        end
      else Err "expected property name"
  end.

Definition parse_json (text : list N) : res JsonNode :=
  let* (node, rest) := parse_value (2 * length text + 1) 0 (skip_ws text) in
  match skip_ws rest with [] => Ok node | _ => Err "trailing characters" end.

End Json.

(** ** The grammar *)

Module Grammar.
Import Json.

#[local] Abbreviation digits := (Forall (λ c, Coercion.is_digit c = true)).

Definition ws (w : list N) : Prop := Forall (λ c, is_ws c = true) w.

(** A number: no leading zeros, digits on both sides of a point. *)
Definition number_text (t : list N) : Prop := ∃ sign int frac exp, t = sign ++ int ++ frac ++ exp ∧
  sign ∈ [[]; [45]] ∧ (int = [48] ∨ ∃ c ds, int = c :: ds ∧ in_range 49 57 c = true ∧ digits ds) ∧
  (frac = [] ∨ ∃ ds, frac = 46 :: ds ∧ digits ds ∧ ds ≠ []) ∧ ParseFacts.exponent_part exp.

Definition hex_value (h : list N) (v : N) : Prop := length h = 4%nat ∧ ∀ rest, parse_hex4 (h ++ rest) = Ok (v, rest).

Section pairs.
(** What an escaped surrogate pair means. *)
Variable pair : N → N → list N.

(** The text between quotes, and the units it stands for. *)
Inductive chars : list N → list N → Prop :=
  | C_end : chars [] []
  | C_plain c t u : 0x20 <= c → c ≠ 34 → c ≠ 92 → chars t u → chars (c :: t) (utf16 [c] ++ u)
  | C_escape e x t u : simple_escape e = Some x → chars t u → chars (92 :: e :: t) (x :: u)
  | C_unicode h v t u : hex_value h v → is_surrogate v = false → chars t u → chars (92 :: 117 :: h ++ t) (v :: u)
  | C_pair h hi h' lo t u : hex_value h hi → is_high hi = true → hex_value h' lo → is_low lo = true → chars t u →
      chars (92 :: 117 :: h ++ 92 :: 117 :: h' ++ t) (pair hi lo ++ u).

Definition string_text (t text : list N) : Prop := ∃ body units, t = 34 :: body ++ [34] ∧ chars body units ∧ from_utf16 units = Some text.

(** Values with at most [d] containers inside one another. *)
Inductive value : nat → list N → JsonNode → Prop :=
  | V_null d : value d (bytes_of "null") (mkNode Null (Some (bytes_of "null")))
  | V_true d : value d (bytes_of "true") (mkNode (Bool true) (Some (bytes_of "true")))
  | V_false d : value d (bytes_of "false") (mkNode (Bool false) (Some (bytes_of "false")))
  | V_string d t text : string_text t text → value d t (mkNode (String text) (Some t))
  | V_number d t n : number_text t → Coercion.parse_f64 t = Some n → F64.is_finite n = true → value d t (mkNode (Number n) (Some t))
  | V_array0 d w : ws w → value (S d) (91 :: w ++ [93]) (mkNode (Array []) None)
  | V_array d t items : elements d t items → value (S d) (91 :: t ++ [93]) (mkNode (Array items) None)
  | V_object0 d w : ws w → value (S d) (123 :: w ++ [125]) (mkNode (Object []) None)
  | V_object d t entries : members d t entries → value (S d) (123 :: t ++ [125]) (mkNode (Object entries) None)
with elements : nat → list N → list JsonNode → Prop :=
  | E_last d w t v w' : ws w → value d t v → ws w' → elements d (w ++ t ++ w') [v]
  | E_more d w t v w' t' vs : ws w → value d t v → ws w' → elements d t' vs → elements d (w ++ t ++ w' ++ 44 :: t') (v :: vs)
with members : nat → list N → list (list N * JsonNode) → Prop :=
  | M_last d w k key w1 w2 t v w' : ws w → string_text k key → ws w1 → ws w2 → value d t v → ws w' →
      members d (w ++ k ++ w1 ++ 58 :: w2 ++ t ++ w') [(key, v)]
  | M_more d w k key w1 w2 t v w' t' es : ws w → string_text k key → ws w1 → ws w2 → value d t v → ws w' → members d t' es →
      members d (w ++ k ++ w1 ++ 58 :: w2 ++ t ++ w' ++ 44 :: t') ((key, v) :: es).

Scheme value_mut := Induction for value Sort Prop
with elements_mut := Induction for elements Sort Prop
with members_mut := Induction for members Sort Prop.
Combined Scheme value_elements_members_ind from value_mut, elements_mut, members_mut.

Definition json_text (text : list N) (node : JsonNode) : Prop := ∃ w t w', text = w ++ t ++ w' ∧ ws w ∧ ws w' ∧ value MAX_JSON_DEPTH t node.
End pairs.

(** The reader keeps the low 16 bits of the character. *)
Definition truncated (hi lo : N) : list N := [u16 (pair_value hi lo)].
End Grammar.

(** ** Facts *)

Module JsonFacts.
Import Json Grammar.

#[local] Abbreviation digits := (Forall (λ c, Coercion.is_digit c = true)).

Lemma skip_ws_app w s : ws w → skip_ws (w ++ s) = skip_ws s.
Proof. intros Hw. induction Hw as [|c w Hc _ IH]; [done|]. cbn. by rewrite Hc. Qed.

Lemma skip_ws_ok s : ∃ w, ws w ∧ s = w ++ skip_ws s.
Proof.
  induction s as [|c s (w & Hw & E)]; cbn [skip_ws]; [exists []; split; [constructor|done]|]. destruct (is_ws c) eqn:Ec; [|exists []; split; [constructor|done]].
  exists (c :: w). split; [by constructor|]. cbn. by f_equal.
Qed.

Lemma skip_ws_head s c rest : skip_ws s = c :: rest → is_ws c = false.
Proof. induction s as [|x s IH]; cbn [skip_ws]; [done|]. destruct (is_ws x) eqn:E; [done|]. by intros [= <- <-]. Qed.

Lemma skip_ws_stop c s : is_ws c = false → skip_ws (c :: s) = c :: s.
Proof. intros E. cbn. by rewrite E. Qed.

Lemma skip_ws_length s : (length (skip_ws s) <= length s)%nat.
Proof. destruct (skip_ws_ok s) as (w & _ & E). rewrite E at 2. rewrite length_app. lia. Qed.

Lemma slice_app t rest : slice (t ++ rest) rest = t.
Proof. unfold slice. rewrite length_app. replace (length t + length rest - length rest)%nat with (length t) by lia. apply take_app_length. Qed.

(** *** Numbers *)

Lemma some_digits_ok s rest : some_digits s = Ok rest → ∃ ds, s = ds ++ rest ∧ digits ds ∧ ds ≠ [].
Proof.
  unfold some_digits. destruct (Coercion.take_digits s) as [ds r] eqn:E. destruct (ParseFacts.take_digits_ok _ _ _ E) as (-> & Hd & _). destruct ds; [done|].
  intros [= <-]. eexists. by split_and!.
Qed.

(** A text that does not go on a number. *)
Definition ends_number (rest : list N) : Prop := ∀ c t, rest = c :: t → Coercion.is_digit c = false ∧ c ≠ 46 ∧ ParseFloat.is_e c = false.

Lemma some_digits_app ds rest : digits ds → ds ≠ [] → (∀ c t, rest = c :: t → Coercion.is_digit c = false) → some_digits (ds ++ rest) = Ok rest.
Proof. intros Hd Hne Hr. unfold some_digits. rewrite CoercionFacts.take_digits_app by done. by destruct ds. Qed.

Lemma is_e_cases c : ParseFloat.is_e c = true → c = 101 ∨ c = 69.
Proof. unfold ParseFloat.is_e. rewrite orb_true_iff, !N.eqb_eq. done. Qed.

Lemma exponent_app e rest : ParseFacts.exponent_part e → ends_number rest → exponent (e ++ rest) = Ok rest.
Proof.
  intros [->|(c & sign & ds & -> & Hc & Hs & Hd & Hne)] Hr; unfold exponent.
  - cbn [app]. destruct rest as [|c rest]; [done|]. destruct (Hr c rest eq_refl) as (_ & _ & ->). done.
  - cbn [app]. rewrite Hc. destruct ds as [|d ds]; [done|]. inversion Hd as [|? ? Hd1 _]; subst. rewrite <- app_assoc.
    rewrite (ParseFacts.skip_sign_app sign ((d :: ds) ++ rest) 0 d (ds ++ rest)) by done. cbn [fst]. apply some_digits_app; [done|done|]. intros c' t E. by destruct (Hr c' t E).
Qed.

Lemma exponent_sound s rest : exponent s = Ok rest → ∃ e, s = e ++ rest ∧ ParseFacts.exponent_part e.
Proof.
  unfold exponent. destruct s as [|c s]; [intros [= <-]; exists []; split; [done|by left]|]. destruct (ParseFloat.is_e c) eqn:Ec; [|intros [= <-]; exists []; split; [done|by left]].
  destruct (ParseFacts.skip_sign_ok s 0) as (sign & r & Hs & -> & ->). cbn [fst]. intros (ds & -> & Hd & Hne)%some_digits_ok. exists (c :: sign ++ ds).
  split; [cbn; by rewrite <- app_assoc|]. right. by exists c, sign, ds.
Qed.

Lemma fraction_app f rest : f = [] ∨ (∃ ds, f = 46 :: ds ∧ digits ds ∧ ds ≠ []) → (∀ c t, rest = c :: t → Coercion.is_digit c = false ∧ c ≠ 46) → fraction (f ++ rest) = Ok rest.
Proof.
  intros [->|(ds & -> & Hd & Hne)] Hr; unfold fraction; cbn [app].
  - destruct rest as [|c rest]; [done|]. destruct (Hr c rest eq_refl) as [_ Hc%N.eqb_neq]. by rewrite Hc.
  - apply some_digits_app; [done|done|]. intros c t E. by destruct (Hr c t E).
Qed.

Lemma fraction_sound s rest : fraction s = Ok rest → ∃ f, s = f ++ rest ∧ (f = [] ∨ ∃ ds, f = 46 :: ds ∧ digits ds ∧ ds ≠ []).
Proof.
  unfold fraction. destruct s as [|c s]; [intros [= <-]; exists []; by auto|]. destruct (N.eqb_spec c 46) as [->|]; [|intros [= <-]; exists []; by auto].
  intros (ds & -> & Hd & Hne)%some_digits_ok. exists (46 :: ds). split; [done|]. right. by exists ds.
Qed.

Lemma integer_app i rest : i = [48] ∨ (∃ c ds, i = c :: ds ∧ in_range 49 57 c = true ∧ digits ds) → (∀ c t, rest = c :: t → Coercion.is_digit c = false) → integer_part (i ++ rest) = Ok rest.
Proof.
  intros [->|(c & ds & -> & Hc & Hd)] Hr; [done|]. unfold integer_part. cbn [app]. pose proof Hc as Hc'%in_range_true. destruct (N.eqb_spec c 48) as [->|_]; [lia|]. rewrite Hc.
  change (c :: ds ++ rest) with ((c :: ds) ++ rest). rewrite CoercionFacts.take_digits_app; [done| |done]. constructor; [apply in_range_true; lia|done].
Qed.

Lemma integer_sound s rest : integer_part s = Ok rest → ∃ i, s = i ++ rest ∧ (i = [48] ∨ ∃ c ds, i = c :: ds ∧ in_range 49 57 c = true ∧ digits ds).
Proof.
  unfold integer_part. destruct s as [|c s]; [done|]. destruct (N.eqb_spec c 48) as [->|Hc]; [intros [= <-]; exists [48]; by auto|].
  destruct (in_range 49 57 c) eqn:Er; [|done]. destruct (Coercion.take_digits (c :: s)) as [ds r] eqn:E. destruct (ParseFacts.take_digits_ok _ _ _ E) as (Es & Hd & Hr). cbn [snd]. intros [= <-].
  destruct ds as [|x ds]; [cbn in Es; subst r; assert (Coercion.is_digit c = true) as Hx by (apply in_range_true in Er; apply in_range_true; lia); by rewrite (Hr c s eq_refl) in Hx|].
  injection Es as <- ->. exists (c :: ds). split; [done|]. right. exists c, ds. by inversion Hd.
Qed.

Lemma parse_number_sound s n rest : parse_number s = Ok (n, rest) → ∃ t, s = t ++ rest ∧ number_text t ∧ Coercion.parse_f64 t = Some n ∧ F64.is_finite n = true.
Proof.
  unfold parse_number. destruct (integer_part (skip_char 45 s)) as [r1| |] eqn:E1; cbn [res_bind]; [|done..]. destruct (fraction r1) as [r2| |] eqn:E2; cbn [res_bind]; [|done..].
  destruct (exponent r2) as [r3| |] eqn:E3; cbn [res_bind]; [|done..].
  destruct (integer_sound _ _ E1) as (i & Ei & Hi), (fraction_sound _ _ E2) as (f & -> & Hf), (exponent_sound _ _ E3) as (e & -> & He).
  assert (∃ sign, s = sign ++ i ++ f ++ e ++ r3 ∧ sign ∈ [[]; [45]]) as (sign & -> & Hs).
  { unfold skip_char in Ei. destruct s as [|c s]; [exists []; split; [done|constructor]|]. destruct (N.eqb_spec c 45) as [->|]; [exists [45]|exists []]; (split; [by rewrite Ei|repeat constructor]). }
  replace (sign ++ i ++ f ++ e ++ r3) with ((sign ++ i ++ f ++ e) ++ r3) by (by rewrite <- !app_assoc). rewrite slice_app.
  destruct (Coercion.parse_f64 _) as [m|] eqn:Ep; [|done]. destruct (F64.is_finite m) eqn:Ef; [|done]. intros [= <- <-]. exists (sign ++ i ++ f ++ e). split_and!; [done| |done|done].
  by exists sign, i, f, e.
Qed.

Lemma exponent_front e : ParseFacts.exponent_part e → ∀ rest, ends_number rest → ∀ c t, e ++ rest = c :: t → Coercion.is_digit c = false ∧ c ≠ 46.
Proof.
  intros [->|(x & sign & ds & -> & Hx & _)] rest Hr c t E; [by destruct (Hr c t E) as (? & ? & _)|]. injection E as -> _. by destruct (is_e_cases c Hx) as [-> | ->].
Qed.

Lemma parse_number_complete t n rest : number_text t → Coercion.parse_f64 t = Some n → F64.is_finite n = true → ends_number rest → parse_number (t ++ rest) = Ok (n, rest).
Proof.
  intros (sign & i & f & e & -> & Hs & Hi & Hf & He) Hp Hfin Hr. pose proof (exponent_front e He rest Hr) as Hfront.
  assert (∀ c t, f ++ e ++ rest = c :: t → Coercion.is_digit c = false) as Hfront' by (intros c t E; destruct Hf as [->|(ds & -> & _)]; [by apply (Hfront c t)|injection E as <- _; done]).
  assert (skip_char 45 ((sign ++ i ++ f ++ e) ++ rest) = i ++ f ++ e ++ rest) as Esign.
  { rewrite <- !app_assoc. rewrite !elem_of_cons, elem_of_nil in Hs. destruct Hs as [->|[->|[]]]; [|done]. cbn [app].
    destruct Hi as [->|(c & ds & -> & Hc & _)]; [done|]. apply in_range_true in Hc. cbn [app skip_char]. by rewrite (proj2 (N.eqb_neq c 45)) by lia. }
  unfold parse_number. rewrite Esign, (integer_app i _ Hi) by done. cbn [res_bind]. rewrite (fraction_app f _ Hf) by done. cbn [res_bind]. rewrite (exponent_app e rest He) by done. cbn [res_bind].
  by rewrite slice_app, Hp, Hfin.
Qed.

(** *** Strings *)

Lemma parse_hex_ok k : ∀ v s v' rest, parse_hex k v s = Ok (v', rest) → ∃ h, length h = k ∧ s = h ++ rest ∧ (∀ r, parse_hex k v (h ++ r) = Ok (v', r)) ∧ v' < (v + 1) * 16 ^ N.of_nat k.
Proof.
  induction k as [|k IH]; intros v s v' rest; cbn [parse_hex]; [intros [= <- <-]; exists []; split_and!; (done || lia)|]. destruct s as [|c s]; [done|].
  destruct (to_digit16 c) as [d|] eqn:Ed; [|done]. pose proof (to_digit16_lt c d Ed). intros (h & <- & -> & Hh & Hv)%IH. exists (c :: h). split_and!; [done|done| |].
  - intros r. cbn [app parse_hex]. rewrite Ed. apply Hh.
  - eapply N.lt_le_trans; [exact Hv|]. cbn [length]. rewrite Nat2N.inj_succ, N.pow_succ_r', N.mul_assoc. apply N.mul_le_mono_r. lia.
Qed.

Lemma hex4_ok s v rest : parse_hex4 s = Ok (v, rest) → ∃ h, s = h ++ rest ∧ hex_value h v ∧ v < 2^16.
Proof. intros (h & Hl & -> & Hh & Hv)%parse_hex_ok. exists h. split_and!; [done|by split|cbn in Hv; lia]. Qed.

Lemma escape_sound s u rest : parse_escape s = Ok (u, rest) → ∃ t, s = t ++ rest ∧ t ≠ [] ∧ ∀ t' u', chars truncated t' u' → chars truncated (92 :: t ++ t') (u16 u :: u').
Proof.
  unfold parse_escape. destruct s as [|e s]; [done|]. destruct (simple_escape e) as [x|] eqn:Ex.
  - intros [= <- <-]. exists [e]. split_and!; [done|done|]. intros t' u' Hc. cbn [app]. assert (u16 x = x) as ->; [|by constructor].
    revert Ex. unfold simple_escape. repeat (destruct (_ =? _); [by intros [= <-]|]). done.
  - destruct (N.eqb_spec e 117) as [->|]; [|done]. unfold parse_unicode_escape. destruct (parse_hex4 s) as [[hi r]| |] eqn:E1; cbn [res_bind]; [|done..].
    destruct (hex4_ok _ _ _ E1) as (h & -> & Hh & Hlt). destruct (is_high hi) eqn:Ehi.
    + case_bool_decide as H2; [|done]. destruct (parse_hex4 (drop 2 r)) as [[lo r']| |] eqn:E2; cbn [res_bind]; [|done..]. destruct (is_low lo) eqn:Elo; [|done].
      destruct (hex4_ok _ _ _ E2) as (h' & Er & Hh' & _). intros [= <- <-]. exists (117 :: h ++ 92 :: 117 :: h'). split_and!; [|done|].
      * cbn [app]. rewrite <- app_assoc. do 2 f_equal. cbn [app]. by rewrite <- (take_drop 2 r), H2, Er at 1.
      * intros t' u' Hc. cbn [app]. rewrite <- app_assoc. cbn [app]. change (u16 (pair_value hi lo) :: u') with (truncated hi lo ++ u'). by apply C_pair.
    + destruct (is_low hi) eqn:Elo; [done|]. intros [= <- <-]. exists (117 :: h). split_and!; [done|done|]. intros t' u' Hc. cbn [app].
      assert (u16 hi = hi) as -> by (by apply N.mod_small). apply C_unicode; [done| |done]. by rewrite is_surrogate_split, Ehi, Elo.
Qed.

Lemma string_units_sound fuel : ∀ s units rest, string_units fuel s = Ok (units, rest) → ∃ body, s = body ++ 34 :: rest ∧ chars truncated body units.
Proof.
  induction fuel as [|fuel IH]; intros s units rest; cbn [string_units]; [done|]. destruct s as [|c s]; [done|].
  destruct (N.eqb_spec c 34) as [->|H34]; [intros [= <- <-]; exists []; split; [done|constructor]|]. destruct (N.eqb_spec c 92) as [->|H92].
  - destruct (parse_escape s) as [[u r]| |] eqn:Ee; cbn [res_bind]; [|done..]. destruct (string_units fuel r) as [[us r']| |] eqn:Es; cbn [res_bind]; [|done..]. intros [= <- <-].
    destruct (escape_sound _ _ _ Ee) as (t & -> & _ & Ht), (IH _ _ _ Es) as (body & -> & Hb). exists (92 :: t ++ body). split; [cbn; by rewrite <- app_assoc|by apply Ht].
  - destruct (N.leb_spec c 0x1F); [done|]. destruct (string_units fuel s) as [[us r']| |] eqn:Es; cbn [res_bind]; [|done..]. intros [= <- <-].
    destruct (IH _ _ _ Es) as (body & -> & Hb). exists (c :: body). split; [done|]. constructor; [lia|done|done|done].
Qed.

Lemma string_units_complete body units : chars truncated body units → ∀ fuel rest, (length body < fuel)%nat → string_units fuel (body ++ 34 :: rest) = Ok (units, rest).
Proof.
  induction 1 as [|c t u H20 H34 H92 _ IH|e x t u He _ IH|h v t u [Hl Hh] Hv _ IH|h hi h' lo t u [Hl Hh] Hhi [Hl' Hh'] Hlo _ IH]; intros fuel rest Hf; (destruct fuel as [|fuel]; [cbn in Hf; lia|]);
    cbn [string_units app length] in *; [done|..].
  - rewrite (proj2 (N.eqb_neq c 34)), (proj2 (N.eqb_neq c 92)), (proj2 (N.leb_gt c 0x1F)) by (done || lia). rewrite IH by lia. done.
  - cbn [N.eqb Pos.eqb]. unfold parse_escape. rewrite He. cbn [res_bind]. rewrite IH by lia. cbn [res_bind]. do 2 f_equal. f_equal.
    revert He. unfold simple_escape. repeat (destruct (_ =? _); [by intros [= <-]|]). done.
  - rewrite length_app in Hf. cbn [N.eqb Pos.eqb]. unfold parse_escape, parse_unicode_escape. cbn [simple_escape N.eqb Pos.eqb]. rewrite <- app_assoc, Hh. cbn [res_bind].
    rewrite is_surrogate_split in Hv. apply orb_false_iff in Hv as [-> ->]. cbn [res_bind]. rewrite IH by lia. cbn [res_bind]. do 3 f_equal. apply N.mod_small.
    specialize (Hh []). apply hex4_ok in Hh as (_ & _ & _ & ?). done.
  - rewrite !length_app in Hf. cbn [length] in Hf. rewrite length_app in Hf. cbn [N.eqb Pos.eqb]. unfold parse_escape, parse_unicode_escape. cbn [simple_escape N.eqb Pos.eqb].
    rewrite <- !app_assoc, Hh. cbn [res_bind app take drop]. rewrite Hhi. rewrite bool_decide_true by done. rewrite drop_0, <- app_assoc, Hh'. cbn [res_bind]. rewrite Hlo. cbn [res_bind]. rewrite IH by lia. done.
Qed.

Lemma parse_string_sound s text rest : parse_string (34 :: s) = Ok (text, rest) → ∃ t, 34 :: s = t ++ rest ∧ string_text truncated t text.
Proof.
  unfold parse_string. cbn [tail]. destruct (string_units _ s) as [[us r]| |] eqn:E; cbn [res_bind]; [|done..]. destruct (from_utf16 us) as [tx|] eqn:Eu; [|done]. intros [= <- <-].
  destruct (string_units_sound _ _ _ _ E) as (body & -> & Hb). exists (34 :: body ++ [34]). split; [cbn; by rewrite <- app_assoc|]. by exists body, us.
Qed.

Lemma parse_string_complete t text rest : string_text truncated t text → parse_string (t ++ rest) = Ok (text, rest).
Proof.
  intros (body & us & -> & Hb & Hu). unfold parse_string. cbn [app tail length]. rewrite <- app_assoc. cbn [app]. rewrite (string_units_complete _ _ Hb) by (rewrite length_app; cbn; lia).
  cbn [res_bind]. by rewrite Hu.
Qed.

(** *** Values *)

Lemma expect_word_sound word s rest : expect_word word s = Ok rest → s = word ++ rest.
Proof. unfold expect_word. case_bool_decide as H; [|done]. intros [= <-]. rewrite <- H at 1. by rewrite take_drop. Qed.

Lemma expect_word_app word rest : expect_word word (word ++ rest) = Ok rest.
Proof. unfold expect_word. by rewrite take_app_length, bool_decide_true, drop_app_length. Qed.

Definition sound_value (fuel : nat) : Prop := ∀ depth s v rest, (depth <= MAX_JSON_DEPTH)%nat → parse_value fuel depth s = Ok (v, rest) →
  ∃ w t, s = w ++ t ++ rest ∧ ws w ∧ value truncated (MAX_JSON_DEPTH - depth) t v.
Definition sound_array (fuel : nat) : Prop := ∀ depth s vs rest, (depth <= MAX_JSON_DEPTH)%nat → parse_array fuel depth s = Ok (vs, rest) →
  ∃ t, s = t ++ 93 :: rest ∧ elements truncated (MAX_JSON_DEPTH - depth) t vs.
Definition sound_object (fuel : nat) : Prop := ∀ depth s es rest, (depth <= MAX_JSON_DEPTH)%nat → parse_object fuel depth s = Ok (es, rest) →
  ∃ t, s = t ++ 125 :: rest ∧ members truncated (MAX_JSON_DEPTH - depth) t es.

Ltac step_ok := match goal with |- context [res_bind ?c _] => let E := fresh "E" in destruct c as [[? ?]| |] eqn:E; cbn [res_bind]; [|done..] end.

Lemma prim_value d k t rest : value truncated d t (mkNode k (Some t)) → value truncated d t (prim k (t ++ rest) rest).
Proof. unfold prim. by rewrite slice_app. Qed.

Lemma parse_value_sound fuel : sound_array fuel → sound_object fuel → sound_value (S fuel).
Proof.
  intros Ha Ho depth s v rest Hd. cbn [parse_value]. destruct (skip_ws_ok s) as (w & Hw & E). rewrite E. rewrite <- E. destruct (skip_ws s) as [|c r]; [done|]. intros Hp. exists w. rewrite E. clear E s.
  enough (∃ t, c :: r = t ++ rest ∧ value truncated (MAX_JSON_DEPTH - depth) t v) as (t & -> & Hv) by by exists t. revert Hp.
  assert (∀ word k, (let* r' := expect_word word (c :: r) in Ok (prim k (c :: r) r', r')) = Ok (v, rest) → value truncated (MAX_JSON_DEPTH - depth) word (mkNode k (Some word)) →
    ∃ t, c :: r = t ++ rest ∧ value truncated (MAX_JSON_DEPTH - depth) t v) as Hword.
  { intros word k Hp Hv. destruct (expect_word word (c :: r)) as [r'| |] eqn:E; [|done..]. injection Hp as <- <-. apply expect_word_sound in E. rewrite E. exists word. split; [done|by apply prim_value]. }
  repeat (destruct (_ =? _); [intros Hp; eapply Hword; [exact Hp|constructor]|]). clear Hword.
  destruct (N.eqb_spec c 34) as [->|H34].
  { step_ok. intros [= <- <-]. destruct (parse_string_sound _ _ _ E) as (t & -> & Ht). exists t. split; [done|]. apply prim_value. by constructor. }
  destruct (N.eqb_spec c 91) as [->|H91].
  { case_bool_decide; [done|]. replace (MAX_JSON_DEPTH - depth)%nat with (S (MAX_JSON_DEPTH - S depth)) by lia. destruct (skip_ws_ok r) as (w' & Hw' & E').
    step_ok. intros [= <- <-]. destruct (skip_ws r) as [|x r'] eqn:Es; [|destruct (N.eqb_spec x 93) as [->|]; [injection E as <- <-; exists (91 :: w' ++ [93]); split; [cbn; by rewrite <- app_assoc, E'|by constructor]|]].
    all: apply Ha in E as (t & Et & Ht); [|lia]; rewrite Et, app_assoc in E'; exists (91 :: (w' ++ t) ++ [93]); split; [cbn; by rewrite <- app_assoc, E'|constructor].
    all: inversion Ht; subst; rewrite app_assoc; constructor; try done; by apply Forall_app. }
  destruct (N.eqb_spec c 123) as [->|H123].
  { case_bool_decide; [done|]. replace (MAX_JSON_DEPTH - depth)%nat with (S (MAX_JSON_DEPTH - S depth)) by lia. destruct (skip_ws_ok r) as (w' & Hw' & E').
    step_ok. intros [= <- <-]. destruct (skip_ws r) as [|x r'] eqn:Es; [|destruct (N.eqb_spec x 125) as [->|]; [injection E as <- <-; exists (123 :: w' ++ [125]); split; [cbn; by rewrite <- app_assoc, E'|by constructor]|]].
    all: apply Ho in E as (t & Et & Ht); [|lia]; rewrite Et, app_assoc in E'; exists (123 :: (w' ++ t) ++ [125]); split; [cbn; by rewrite <- app_assoc, E'|constructor].
    all: inversion Ht; subst; rewrite app_assoc; constructor; try done; by apply Forall_app. }
  destruct (_ || _); [|done]. step_ok. intros [= <- <-]. destruct (parse_number_sound _ _ _ E) as (t & -> & Ht & Hn & Hf). exists t. split; [done|]. apply prim_value. by constructor.
Qed.

Lemma skip_ws_split s c rest : skip_ws s = c :: rest → ∃ w, ws w ∧ s = w ++ c :: rest.
Proof. intros E. destruct (skip_ws_ok s) as (w & Hw & Es). rewrite E in Es. by exists w. Qed.

Lemma parse_array_sound fuel : sound_value fuel → sound_array fuel → sound_array (S fuel).
Proof.
  intros Hv Ha depth s vs rest Hd. cbn [parse_array]. step_ok. apply Hv in E as (w & t & -> & Hw & Ht); [|done]. destruct (skip_ws _) as [|c r] eqn:Es; [done|].
  destruct (skip_ws_split _ _ _ Es) as (w' & Hw' & ->). destruct (N.eqb_spec c 44) as [->|H44].
  - case_bool_decide; [done|]. step_ok. intros [= <- <-]. apply Ha in E as (t' & Et & Ht'); [|done]. destruct (skip_ws_ok r) as (w2 & Hw2 & Er). rewrite Et in Er.
    exists (w ++ t ++ w' ++ 44 :: w2 ++ t'). split; [rewrite Er, <- !app_assoc; cbn; by rewrite <- app_assoc|]. constructor; [done..|].
    inversion Ht'; subst; rewrite app_assoc; constructor; try done; by apply Forall_app.
  - destruct (N.eqb_spec c 93) as [->|]; [|done]. intros [= <- <-]. exists (w ++ t ++ w'). split; [by rewrite <- !app_assoc|by constructor].
Qed.

Lemma parse_object_sound fuel : sound_value fuel → sound_object fuel → sound_object (S fuel).
Proof.
  intros Hv Ho depth s es rest Hd. cbn [parse_object]. case_bool_decide as Hh; [|done]. destruct (skip_ws s) as [|q s'] eqn:Es; [done|]. injection Hh as ->.
  destruct (skip_ws_split _ _ _ Es) as (w & Hw & ->). clear Es. step_ok. destruct (parse_string_sound _ _ _ E) as (k & -> & Hk). clear E.
  destruct (skip_ws _) as [|c s1] eqn:Es; [done|]. destruct (skip_ws_split _ _ _ Es) as (w1 & Hw1 & ->). clear Es. destruct (N.eqb_spec c 58) as [->|]; [|done].
  step_ok. apply Hv in E as (w2 & t & -> & Hw2 & Ht); [|done]. destruct (skip_ws _) as [|c r] eqn:Es; [done|]. destruct (skip_ws_split _ _ _ Es) as (w' & Hw' & ->). clear Es.
  destruct (N.eqb_spec c 44) as [->|H44].
  - case_bool_decide; [done|]. step_ok. intros [= <- <-]. apply Ho in E as (t' & Et & Ht'); [|done]. destruct (skip_ws_ok r) as (w3 & Hw3 & Er). rewrite Et in Er.
    exists (w ++ k ++ w1 ++ 58 :: w2 ++ t ++ w' ++ 44 :: w3 ++ t'). split; [rewrite Er, <- !app_assoc; cbn; rewrite <- !app_assoc; cbn; by rewrite <- app_assoc|]. constructor; [done..|].
    inversion Ht'; subst; rewrite app_assoc; constructor; try done; by apply Forall_app.
  - destruct (N.eqb_spec c 125) as [->|]; [|done]. intros [= <- <-]. exists (w ++ k ++ w1 ++ 58 :: w2 ++ t ++ w'). split; [rewrite <- !app_assoc; cbn; by rewrite <- !app_assoc|by constructor].
Qed.

Lemma parse_sound fuel : sound_value fuel ∧ sound_array fuel ∧ sound_object fuel.
Proof.
  induction fuel as [|fuel (Hv & Ha & Ho)]; [by split_and!|]. split_and!; [by apply parse_value_sound|by apply parse_array_sound|by apply parse_object_sound].
Qed.

(** A text that begins a value, and what may come after one. *)
Lemma string_head pair t text : string_text pair t text → ∃ t', t = 34 :: t'.
Proof. intros (body & us & -> & _). by eexists. Qed.

Lemma number_head t : number_text t → ∃ c t', t = c :: t' ∧ ((c =? 45) || Coercion.is_digit c) = true.
Proof.
  intros (sign & i & f & e & -> & Hs & Hi & _). rewrite !elem_of_cons, elem_of_nil in Hs. destruct Hs as [->|[->|[]]]; [|by eexists _, _].
  destruct Hi as [->|(c & ds & -> & Hc & _)]; cbn [app]; [by eexists _, _|]. eexists _, _. split; [done|]. apply orb_true_iff. right. apply in_range_true in Hc. apply in_range_true. lia.
Qed.

Definition starts (c : N) : Prop := is_ws c = false ∧ c ≠ 93.

Lemma number_starts c : ((c =? 45) || Coercion.is_digit c) = true → starts c ∧ c ≠ 110 ∧ c ≠ 116 ∧ c ≠ 102 ∧ c ≠ 34 ∧ c ≠ 91 ∧ c ≠ 123.
Proof.
  intros H. assert (c = 45 ∨ 48 <= c <= 57) as Hc by (apply orb_true_iff in H as [->%N.eqb_eq|H%in_range_true]; [by left|by right]). unfold starts, is_ws.
  split_and!; try lia. apply bool_decide_eq_false. rewrite !elem_of_cons, elem_of_nil. lia.
Qed.

Lemma value_head pair d t v : value pair d t v → ∃ c t', t = c :: t' ∧ starts c.
Proof.
  destruct 1 as [d|d|d|d t text Ht|d t n Ht _ _|d w _|d t items _|d w _|d t es _].
  4: destruct (string_head _ _ _ Ht) as [t' ->]. 5: destruct (number_head _ Ht) as (c & t' & -> & Hc); eexists _, _; split; [done|by apply number_starts].
  all: by eexists _, _.
Qed.

Lemma ends_after w c t : ws w → c ∈ [44; 93; 125] → ends_number (w ++ c :: t).
Proof.
  intros Hw Hc x t' E. assert (is_ws x = true ∨ x ∈ [44; 93; 125]) as Hx by (destruct Hw as [|y w Hy _]; injection E as -> _; auto).
  unfold is_ws in Hx. rewrite bool_decide_eq_true, !elem_of_cons, elem_of_nil in Hx. by repeat destruct Hx as [Hx|Hx]; subst.
Qed.

Lemma ends_at_end w : ws w → ends_number w.
Proof.
  intros Hw x t' ->. assert (is_ws x = true) as Hx by by inversion Hw. unfold is_ws in Hx. rewrite bool_decide_eq_true, !elem_of_cons, elem_of_nil in Hx. by repeat destruct Hx as [Hx|Hx]; subst.
Qed.

Lemma parse_value_skip fuel depth w s : ws w → parse_value fuel depth (w ++ s) = parse_value fuel depth s.
Proof. intros Hw. destruct fuel; [done|]. cbn [parse_value]. by rewrite skip_ws_app. Qed.

Lemma skip_ws_idem s : skip_ws (skip_ws s) = skip_ws s.
Proof. destruct (skip_ws s) as [|c r] eqn:E; [done|]. by apply skip_ws_stop, (skip_ws_head s c r). Qed.

Lemma parse_array_skip fuel depth s : parse_array fuel depth (skip_ws s) = parse_array fuel depth s.
Proof. destruct fuel as [|[|fuel]]; [done|done|]. cbn [parse_array parse_value]. by rewrite skip_ws_idem. Qed.

Lemma parse_object_skip fuel depth s : parse_object fuel depth (skip_ws s) = parse_object fuel depth s.
Proof. destruct fuel as [|fuel]; [done|]. cbn [parse_object]. by rewrite skip_ws_idem. Qed.

Definition reads_value (d : nat) (t : list N) (v : JsonNode) : Prop := ∀ fuel rest, ends_number rest → (2 * length t + 1 <= fuel)%nat → (d <= MAX_JSON_DEPTH)%nat →
  parse_value fuel (MAX_JSON_DEPTH - d) (t ++ rest) = Ok (v, rest).
Definition reads_array (d : nat) (t : list N) (vs : list JsonNode) : Prop := ∀ fuel rest, (2 * length t + 2 <= fuel)%nat → (d <= MAX_JSON_DEPTH)%nat →
  parse_array fuel (MAX_JSON_DEPTH - d) (t ++ 93 :: rest) = Ok (vs, rest).
Definition reads_object (d : nat) (t : list N) (es : list (list N * JsonNode)) : Prop := ∀ fuel rest, (2 * length t + 2 <= fuel)%nat → (d <= MAX_JSON_DEPTH)%nat →
  parse_object fuel (MAX_JSON_DEPTH - d) (t ++ 125 :: rest) = Ok (es, rest).

Lemma reads_string d t text : string_text truncated t text → reads_value d t (mkNode (String text) (Some t)).
Proof.
  intros Ht [|fuel] rest _ Hf _; [lia|]. destruct (string_head _ _ _ Ht) as [t' E]. cbn [parse_value]. rewrite E. cbn [app]. rewrite skip_ws_stop by done. cbn [N.eqb Pos.eqb].
  rewrite (app_comm_cons t' rest 34), <- E, (parse_string_complete _ _ _ Ht). cbn [res_bind]. unfold prim. by rewrite slice_app.
Qed.

Lemma reads_number d t n : number_text t → Coercion.parse_f64 t = Some n → F64.is_finite n = true → reads_value d t (mkNode (Number n) (Some t)).
Proof.
  intros Ht Hp Hn [|fuel] rest Hr Hf _; [lia|]. destruct (number_head _ Ht) as (c & t' & E & Hc). destruct (number_starts c Hc) as ([Hw _] & H1 & H2 & H3 & H4 & H5 & H6).
  cbn [parse_value]. rewrite E. cbn [app]. rewrite skip_ws_stop by done. rewrite Hc. do 6 rewrite (proj2 (N.eqb_neq _ _)) by done.
  rewrite (app_comm_cons t' rest c), <- E, (parse_number_complete _ _ _ Ht Hp Hn Hr). cbn [res_bind]. unfold prim. by rewrite slice_app.
Qed.

(** A container, empty or not. *)
Lemma reads_array_text d t items : (ws t ∧ items = []) ∨ (elements truncated d t items ∧ reads_array d t items) → reads_value (S d) (91 :: t ++ [93]) (mkNode (Array items) None).
Proof.
  intros Ht [|fuel] rest _ Hf Hd; [lia|]. cbn [parse_value app]. rewrite skip_ws_stop by done. cbn [N.eqb Pos.eqb]. rewrite bool_decide_false by lia. rewrite <- app_assoc. cbn [app length] in *. rewrite length_app in Hf. cbn [length] in Hf.
  replace (S (MAX_JSON_DEPTH - S d)) with (MAX_JSON_DEPTH - d)%nat by lia. destruct Ht as [[Hw ->]|[He Hr]].
  - by rewrite skip_ws_app, skip_ws_stop by done.
  - assert (∃ x r, skip_ws (t ++ 93 :: rest) = x :: r ∧ x ≠ 93) as (x & r & Ex & Hx).
    { destruct He as [d w t v w' Hw Hv _|d w t v w' t' vs Hw Hv _ _]; destruct (value_head _ _ _ _ Hv) as (c & t1 & -> & Hc & H93); rewrite <- !app_assoc, skip_ws_app by done; cbn [app]; rewrite skip_ws_stop by done; by eexists _, _. }
    rewrite Ex, (proj2 (N.eqb_neq x 93) Hx), <- Ex, parse_array_skip, Hr by lia. done.
Qed.

Lemma reads_object_text d t es : (ws t ∧ es = []) ∨ (members truncated d t es ∧ reads_object d t es) → reads_value (S d) (123 :: t ++ [125]) (mkNode (Object es) None).
Proof.
  intros Ht [|fuel] rest _ Hf Hd; [lia|]. cbn [parse_value app]. rewrite skip_ws_stop by done. cbn [N.eqb Pos.eqb]. rewrite bool_decide_false by lia. rewrite <- app_assoc. cbn [app length] in *. rewrite length_app in Hf. cbn [length] in Hf.
  replace (S (MAX_JSON_DEPTH - S d)) with (MAX_JSON_DEPTH - d)%nat by lia. destruct Ht as [[Hw ->]|[He Hr]].
  - by rewrite skip_ws_app, skip_ws_stop by done.
  - assert (∃ x r, skip_ws (t ++ 125 :: rest) = x :: r ∧ x ≠ 125) as (x & r & Ex & Hx).
    { destruct He as [d w k key w1 w2 t v w' Hw Hk|d w k key w1 w2 t v w' t' es Hw Hk]; destruct (string_head _ _ _ Hk) as [k' ->]; rewrite <- !app_assoc, skip_ws_app by done; cbn [app]; rewrite skip_ws_stop by done; by eexists _, _. }
    rewrite Ex, (proj2 (N.eqb_neq x 125) Hx), <- Ex, parse_object_skip, Hr by lia. done.
Qed.

Lemma reads_last d w t v w' : ws w → reads_value d t v → ws w' → reads_array d (w ++ t ++ w') [v].
Proof.
  intros Hw Hv Hw' [|fuel] rest Hf Hd; [lia|]. rewrite !length_app in Hf. cbn [parse_array]. rewrite <- !app_assoc, parse_value_skip by done.
  rewrite Hv by (done || lia || (apply ends_after; [done|set_solver])). cbn [res_bind]. by rewrite skip_ws_app, skip_ws_stop by done.
Qed.

Lemma reads_more d w t v w' t' vs : ws w → reads_value d t v → ws w' → elements truncated d t' vs → reads_array d t' vs → reads_array d (w ++ t ++ w' ++ 44 :: t') (v :: vs).
Proof.
  intros Hw Hv Hw' He Ha [|fuel] rest Hf Hd; [lia|]. rewrite !length_app in Hf. cbn [length] in Hf. cbn [parse_array]. rewrite <- !app_assoc, parse_value_skip by done.
  rewrite Hv by (done || lia || (apply ends_after; [done|set_solver])). cbn [res_bind app]. rewrite skip_ws_app, skip_ws_stop by done. cbn [N.eqb Pos.eqb].
  rewrite bool_decide_false; [by rewrite parse_array_skip, Ha by lia|].
  destruct He as [d w2 t2 v2 w3 Hw2 Hv2 _|d w2 t2 v2 w3 t3 vs Hw2 Hv2 _ _]; destruct (value_head _ _ _ _ Hv2) as (c & t1 & -> & Hc & H93); rewrite <- !app_assoc, skip_ws_app by done;
    cbn [app]; rewrite skip_ws_stop by done; by intros [= ->].
Qed.

(** The key and the value of a member. *)
Lemma reads_member d w k key w1 w2 t v fuel rest : ws w → string_text truncated k key → ws w1 → ws w2 → reads_value d t v → ends_number rest → (2 * length t + 1 <= fuel)%nat → (d <= MAX_JSON_DEPTH)%nat →
  parse_object (S fuel) (MAX_JSON_DEPTH - d) (w ++ k ++ w1 ++ 58 :: w2 ++ t ++ rest) =
  match skip_ws rest with
  | c :: r =>
      if c =? 44 then
        let s := skip_ws r in
        if bool_decide (head s = Some 125) then Err "trailing comma" else let* (entries, rest) := parse_object fuel (MAX_JSON_DEPTH - d) s in Ok ((key, v) :: entries, rest)
      else if c =? 125 then Ok ([(key, v)], r) else Err "expected ',' or '}'"
  | [] => Err "expected ',' or '}'"
  end.
Proof.
  intros Hw Hk Hw1 Hw2 Hv He Hf Hd. cbn [parse_object]. rewrite skip_ws_app by done. destruct (string_head _ _ _ Hk) as [k' E]. rewrite E. cbn [app]. rewrite skip_ws_stop by done.
  rewrite bool_decide_true by done. rewrite (app_comm_cons k' _ 34), <- E, (parse_string_complete _ _ _ Hk). cbn [res_bind]. rewrite skip_ws_app, skip_ws_stop by done. cbn [N.eqb Pos.eqb].
  rewrite parse_value_skip, Hv by done. done.
Qed.

Lemma reads_last_member d w k key w1 w2 t v w' : ws w → string_text truncated k key → ws w1 → ws w2 → reads_value d t v → ws w' →
  reads_object d (w ++ k ++ w1 ++ 58 :: w2 ++ t ++ w') [(key, v)].
Proof.
  intros Hw Hk Hw1 Hw2 Hv Hw' [|fuel] rest Hf Hd; [lia|]. repeat (rewrite length_app in Hf; cbn [length] in Hf). rewrite <- !app_assoc. cbn [app]. rewrite <- !app_assoc.
  rewrite (reads_member d w k key w1 w2 t v) by (done || lia || (apply ends_after; [done|set_solver])). by rewrite skip_ws_app, skip_ws_stop by done.
Qed.

Lemma reads_more_members d w k key w1 w2 t v w' t' es : ws w → string_text truncated k key → ws w1 → ws w2 → reads_value d t v → ws w' → members truncated d t' es → reads_object d t' es →
  reads_object d (w ++ k ++ w1 ++ 58 :: w2 ++ t ++ w' ++ 44 :: t') ((key, v) :: es).
Proof.
  intros Hw Hk Hw1 Hw2 Hv Hw' Hm Ho [|fuel] rest Hf Hd; [lia|]. repeat (rewrite length_app in Hf; cbn [length] in Hf). rewrite <- !app_assoc. cbn [app]. rewrite <- !app_assoc. cbn [app].
  rewrite (reads_member d w k key w1 w2 t v) by (done || lia || (apply ends_after; [done|set_solver])). rewrite skip_ws_app, skip_ws_stop by done. cbn [N.eqb Pos.eqb].
  cbn zeta. rewrite bool_decide_false; [by rewrite parse_object_skip, Ho by lia|].
  destruct Hm as [d w3 k3 key3 w4 w5 t3 v3 w6 Hw3 Hk3|d w3 k3 key3 w4 w5 t3 v3 w6 t4 es Hw3 Hk3]; destruct (string_head _ _ _ Hk3) as [k' ->]; rewrite <- !app_assoc, skip_ws_app by done;
    cbn [app]; rewrite skip_ws_stop by done; done.
Qed.

Lemma parse_complete : (∀ d t v, value truncated d t v → reads_value d t v) ∧ (∀ d t vs, elements truncated d t vs → reads_array d t vs) ∧ (∀ d t es, members truncated d t es → reads_object d t es).
Proof.
  assert (∀ d word k, (∀ fuel depth rest, parse_value (S fuel) depth (word ++ rest) = let* r := expect_word word (word ++ rest) in Ok (prim k (word ++ rest) r, r)) → reads_value d word (mkNode k (Some word))) as Hword.
  { intros d word k Hp [|fuel] rest _ Hf _; [lia|]. rewrite Hp, expect_word_app. cbn [res_bind]. unfold prim. by rewrite slice_app. }
  apply (value_elements_members_ind truncated (λ d t v _, reads_value d t v) (λ d t vs _, reads_array d t vs) (λ d t es _, reads_object d t es)).
  1-3: intros d; by apply Hword.
  - by apply reads_string.
  - by apply reads_number.
  - intros d w Hw. apply reads_array_text. by left.
  - intros d t items He IH. apply reads_array_text. by right.
  - intros d w Hw. apply reads_object_text. by left.
  - intros d t es He IH. apply reads_object_text. by right.
  - intros d w t v w' Hw _ IH Hw'. by apply reads_last.
  - intros d w t v w' t' vs Hw _ IH Hw' He IH'. by apply reads_more.
  - intros d w k key w1 w2 t v w' Hw Hk Hw1 Hw2 _ IH Hw'. by apply reads_last_member.
  - intros d w k key w1 w2 t v w' t' es Hw Hk Hw1 Hw2 _ IH Hw' Hm IH'. by apply reads_more_members.
Qed.

(** *** Texts without escaped surrogate pairs *)

Definition no_escaped_pair (s : list N) : Prop := ∀ a h hi b, s = a ++ 92 :: 117 :: h ++ 92 :: 117 :: b → hex_value h hi → is_high hi = false.

Lemma no_pair_infix a s b : no_escaped_pair (a ++ s ++ b) → no_escaped_pair s.
Proof. intros H a' h hi b' -> Hh. apply (H (a ++ a') h hi (b' ++ b)); [|done]. rewrite <- !app_assoc. cbn [app]. by rewrite <- app_assoc. Qed.

Lemma no_pair_front s b : no_escaped_pair (s ++ b) → no_escaped_pair s.
Proof. apply (no_pair_infix [] s b). Qed.

Lemma no_pair_back a s : no_escaped_pair (a ++ s) → no_escaped_pair s.
Proof. intros H. apply (no_pair_infix a s []). by rewrite app_nil_r. Qed.

Lemma no_pair_here h hi b : no_escaped_pair (92 :: 117 :: h ++ 92 :: 117 :: b) → hex_value h hi → is_high hi = false.
Proof. intros H. by apply (H [] h hi b). Qed.

Lemma chars_change p q t u : chars p t u → no_escaped_pair t → chars q t u.
Proof.
  induction 1 as [|c t u H20 H34 H92 _ IH|e x t u He _ IH|h v t u Hh Hv _ IH|h hi h' lo t u Hh Hhi Hh' Hlo _ IH]; intros Hn.
  - constructor.
  - constructor; [done..|]. apply IH. by apply (no_pair_back [c]).
  - constructor; [done|]. apply IH. by apply (no_pair_back [92; e]).
  - constructor; [done..|]. apply IH. by apply (no_pair_back (92 :: 117 :: h)).
  - pose proof (no_pair_here _ _ _ Hn Hh). congruence.
Qed.

Lemma string_change p q t text : string_text p t text → no_escaped_pair t → string_text q t text.
Proof. intros (body & us & -> & Hc & Hu) Hn. exists body, us. split_and!; [done| |done]. apply (chars_change p); [done|]. by apply (no_pair_infix [34] body [34]). Qed.

Lemma value_change p q : (∀ d t v, value p d t v → no_escaped_pair t → value q d t v) ∧ (∀ d t vs, elements p d t vs → no_escaped_pair t → elements q d t vs) ∧
  (∀ d t es, members p d t es → no_escaped_pair t → members q d t es).
Proof.
  apply (value_elements_members_ind p (λ d t v _, no_escaped_pair t → value q d t v) (λ d t vs _, no_escaped_pair t → elements q d t vs) (λ d t es _, no_escaped_pair t → members q d t es));
    intros; constructor; try done; try (by eapply string_change).
  - match goal with H : _ → elements q _ _ _ |- _ => apply H end. by apply (no_pair_infix [91] t [93]).
  - match goal with H : _ → members q _ _ _ |- _ => apply H end. by apply (no_pair_infix [123] t [125]).
  - match goal with H : _ → value q _ _ _ |- _ => apply H end. by apply (no_pair_infix w t w').
  - match goal with H : _ → value q _ _ _ |- _ => apply H end. by eapply (no_pair_infix w t).
  - match goal with H : _ → elements q _ _ _ |- _ => apply H end. apply (no_pair_back (w ++ t ++ w' ++ [44])). by rewrite <- ?app_assoc.
  - apply (string_change p); [done|]. by eapply (no_pair_infix w k).
  - match goal with H : _ → value q _ _ _ |- _ => apply H end. apply (no_pair_infix (w ++ k ++ w1 ++ 58 :: w2) t w'). rewrite <- !app_assoc. cbn [app]. by rewrite <- ?app_assoc.
  - apply (string_change p); [done|]. by eapply (no_pair_infix w k).
  - match goal with H : _ → value q _ _ _ |- _ => apply H end. apply (no_pair_infix (w ++ k ++ w1 ++ 58 :: w2) t (w' ++ 44 :: t')). rewrite <- !app_assoc. cbn [app]. by rewrite <- ?app_assoc.
  - match goal with H : _ → members q _ _ _ |- _ => apply H end. apply (no_pair_back (w ++ k ++ w1 ++ 58 :: w2 ++ t ++ w' ++ [44])). rewrite <- !app_assoc. cbn [app]. by rewrite <- ?app_assoc.
Qed.

(** *** No panic *)

Lemma from_utf16_char c u : is_char c = true → from_utf16 (utf16 [c] ++ u) = cons c <$> from_utf16 u.
Proof.
  intros Hc. unfold utf16. cbn [mbind list_bind app]. rewrite app_nil_r. destruct (N.ltb_spec 0xFFFF c) as [Hl|Hl]; cbn [app from_utf16].
  - destruct (halves_pair c) as (H1 & H2 & H3); [apply is_char_true in Hc; lia|..]. by rewrite H1, H2, H3.
  - apply is_char_true in Hc. assert (is_high c = false) as -> by (apply in_range_false; lia). assert (is_low c = false) as -> by (apply in_range_false; lia). done.
Qed.

Lemma chars_decode p t u : chars p t u → Forall (λ c, is_char c = true) t → no_escaped_pair t → ∃ text, from_utf16 u = Some text.
Proof.
  induction 1 as [|c t u H20 H34 H92 _ IH|e x t u He _ IH|h v t u Hh Hv _ IH|h hi h' lo t u Hh Hhi Hh' Hlo _ IH]; intros Hc Hn.
  - by exists [].
  - inversion Hc as [|? ? Hc1 Hc2]; subst. destruct IH as [text IH]; [done|by apply (no_pair_back [c])|]. rewrite from_utf16_char by done. rewrite IH. by eexists.
  - inversion Hc as [|? ? _ Hc2]; subst. inversion Hc2; subst. destruct IH as [text IH]; [done|by apply (no_pair_back [92; e])|]. exists (x :: text). cbn [from_utf16]. rewrite IH.
    revert He. unfold simple_escape. repeat (destruct (_ =? _); [by intros [= <-]|]). done.
  - destruct IH as [text IH]; [apply (Forall_app _ (92 :: 117 :: h) t); exact Hc|by apply (no_pair_back (92 :: 117 :: h))|]. exists (v :: text). cbn [from_utf16].
    rewrite is_surrogate_split in Hv. apply orb_false_iff in Hv as [-> ->]. by rewrite IH.
  - pose proof (no_pair_here _ _ _ Hn Hh). congruence.
Qed.

Lemma hex_total k : ∀ v s, parse_hex k v s ≠ Panic.
Proof. induction k as [|k IH]; intros v s; cbn [parse_hex]; [done|]. destruct s as [|c s]; [done|]. destruct (to_digit16 c); [apply IH|done]. Qed.

Lemma escape_total s : parse_escape s ≠ Panic.
Proof.
  unfold parse_escape. destruct s as [|e s]; [done|]. destruct (simple_escape e); [done|]. destruct (e =? 117); [|done]. unfold parse_unicode_escape.
  destruct (parse_hex4 s) as [[hi r]| |] eqn:E; cbn [res_bind]; [|done|by apply hex_total in E]. destruct (is_high hi); [|by destruct (is_low hi)]. case_bool_decide; [|done].
  destruct (parse_hex4 (drop 2 r)) as [[lo r']| |] eqn:E'; cbn [res_bind]; [by destruct (is_low lo)|done|by apply hex_total in E'].
Qed.

Lemma string_units_total fuel : ∀ s, (length s < fuel)%nat → string_units fuel s ≠ Panic.
Proof.
  induction fuel as [|fuel IH]; intros s Hf; [lia|]. cbn [string_units]. destruct s as [|c s]; [done|]. cbn [length] in Hf. destruct (c =? 34); [done|]. destruct (c =? 92).
  - destruct (parse_escape s) as [[u r]| |] eqn:E; cbn [res_bind]; [|done|by apply escape_total in E]. destruct (escape_sound _ _ _ E) as (t & -> & _ & _). rewrite length_app in Hf.
    specialize (IH r ltac:(lia)). by destruct (string_units fuel r) as [[us r']| |].
  - destruct (c <=? 0x1F); [done|]. specialize (IH s ltac:(lia)). by destruct (string_units fuel s) as [[us r']| |].
Qed.

(** What is left after a prefix was read. *)
Definition clean (s : list N) : Prop := Forall (λ c, is_char c = true) s ∧ no_escaped_pair s.

Lemma clean_back a s : clean (a ++ s) → clean s.
Proof. intros [H1 H2]. split; [exact (proj2 (proj1 (Forall_app _ _ _) H1))|by apply (no_pair_back a)]. Qed.

Lemma clean_skip s : clean s → clean (skip_ws s).
Proof. destruct (skip_ws_ok s) as (w & _ & E). rewrite E at 1. apply clean_back. Qed.

Lemma string_total s : clean (34 :: s) → parse_string (34 :: s) ≠ Panic.
Proof.
  intros [Hc Hn]. unfold parse_string. cbn [tail length]. destruct (string_units _ s) as [[us r]| |] eqn:E; cbn [res_bind]; [|done|by apply string_units_total in E; [|lia]].
  destruct (string_units_sound _ _ _ _ E) as (body & -> & Hb). destruct (chars_decode _ _ _ Hb) as [text ->]; [|by apply (no_pair_infix [34] body (34 :: r))|done].
  inversion Hc as [|? ? _ Hc2]; subst. by apply Forall_app in Hc2 as [? _].
Qed.

Lemma number_total s : parse_number s ≠ Panic.
Proof.
  assert (∀ s, some_digits s ≠ Panic) as Hd by (intros s'; unfold some_digits; by destruct (Coercion.take_digits s') as [[|? ?] ?]).
  unfold parse_number. destruct (integer_part _) as [r1| |] eqn:E1; cbn [res_bind]; [|done|unfold integer_part in E1; destruct (skip_char 45 s); [done|]; by repeat case_match].
  destruct (fraction r1) as [r2| |] eqn:E2; cbn [res_bind]; [|done|unfold fraction in E2; destruct r1; [done|]; case_match; [by apply Hd in E2|done]].
  destruct (exponent r2) as [r3| |] eqn:E3; cbn [res_bind]; [|done|unfold exponent in E3; destruct r2; [done|]; case_match; [by apply Hd in E3|done]]. by repeat case_match.
Qed.

Definition total_value (fuel : nat) : Prop := ∀ depth s, (depth <= MAX_JSON_DEPTH)%nat → clean s → (2 * length s + 1 <= fuel)%nat → parse_value fuel depth s ≠ Panic.
Definition total_array (fuel : nat) : Prop := ∀ depth s, (depth <= MAX_JSON_DEPTH)%nat → clean s → (2 * length s + 2 <= fuel)%nat → parse_array fuel depth s ≠ Panic.
Definition total_object (fuel : nat) : Prop := ∀ depth s, (depth <= MAX_JSON_DEPTH)%nat → clean s → (2 * length s + 2 <= fuel)%nat → parse_object fuel depth s ≠ Panic.

Lemma value_total fuel : total_array fuel → total_object fuel → total_value (S fuel).
Proof.
  intros Ha Ho depth s Hd Hs Hf. cbn [parse_value]. apply clean_skip in Hs as Hs'. pose proof (skip_ws_length s) as Hl. destruct (skip_ws s) as [|c r]; [done|]. cbn [length] in Hl.
  assert (∀ word k, (let* r' := expect_word word (c :: r) in Ok (prim k (c :: r) r', r')) ≠ Panic) as Hword by (intros word k; unfold expect_word; by case_bool_decide).
  repeat (destruct (_ =? _); [apply Hword|]). clear Hword. pose proof (clean_back [c] r Hs') as Hr. pose proof (clean_skip r Hr) as Hr'. pose proof (skip_ws_length r) as Hl'.
  destruct (N.eqb_spec c 34) as [->|_].
  { pose proof (string_total r Hs'). by destruct (parse_string (34 :: r)) as [[? ?]| |]. }
  destruct (c =? 91).
  { case_bool_decide; [done|]. assert (parse_array fuel (S depth) (skip_ws r) ≠ Panic) as Hp by (apply Ha; (done || lia)).
    destruct (skip_ws r) as [|x r'']; [|destruct (x =? 93); [done|]]; by destruct (parse_array _ _ _) as [[? ?]| |]. }
  destruct (c =? 123).
  { case_bool_decide; [done|]. assert (parse_object fuel (S depth) (skip_ws r) ≠ Panic) as Hp by (apply Ho; (done || lia)).
    destruct (skip_ws r) as [|x r'']; [|destruct (x =? 125); [done|]]; by destruct (parse_object _ _ _) as [[? ?]| |]. }
  destruct (_ || _); [|done]. pose proof (number_total (c :: r)). by destruct (parse_number (c :: r)) as [[? ?]| |].
Qed.

(** After a value, at least one character has been read. *)
Lemma value_reads fuel depth s v rest : (depth <= MAX_JSON_DEPTH)%nat → parse_value fuel depth s = Ok (v, rest) → clean s → clean rest ∧ (length rest < length s)%nat.
Proof.
  intros Hd (w & t & -> & _ & Hv)%(proj1 (parse_sound fuel)) Hs; [|done]. destruct (value_head _ _ _ _ Hv) as (c & t' & -> & _). split; [rewrite app_assoc in Hs; by apply clean_back in Hs|].
  rewrite !length_app. cbn. lia.
Qed.

Lemma array_total fuel : total_value fuel → total_array fuel → total_array (S fuel).
Proof.
  intros Hv Ha depth s Hd Hs Hf. cbn [parse_array]. destruct (parse_value fuel depth s) as [[v r]| |] eqn:E; cbn [res_bind]; [|done|by apply Hv in E; [|done|done|lia]].
  destruct (value_reads _ _ _ _ _ Hd E Hs) as [Hr Hl]. pose proof (skip_ws_length r) as Hl'. apply clean_skip in Hr. destruct (skip_ws r) as [|c r']; [done|]. cbn [length] in Hl'.
  pose proof (clean_skip r' (clean_back [c] r' Hr)) as Hr2. pose proof (skip_ws_length r') as Hl2. destruct (c =? 44); [|by destruct (c =? 93)]. case_bool_decide; [done|].
  assert (parse_array fuel depth (skip_ws r') ≠ Panic) as Hp by (apply Ha; (done || lia)). by destruct (parse_array _ _ _) as [[? ?]| |].
Qed.

Lemma object_total fuel : total_value fuel → total_object fuel → total_object (S fuel).
Proof.
  intros Hv Ho depth s Hd Hs Hf. cbn [parse_object]. apply clean_skip in Hs as Hs'. pose proof (skip_ws_length s) as Hl. case_bool_decide as Hh; [|done]. destruct (skip_ws s) as [|q s']; [done|]. injection Hh as ->.
  destruct (parse_string (34 :: s')) as [[k r]| |] eqn:E; cbn [res_bind]; [|done|by apply string_total in E]. destruct (parse_string_sound _ _ _ E) as (t & Et & Ht). destruct (string_head _ _ _ Ht) as [t' ->].
  assert (clean r) as Hr by (rewrite Et in Hs'; by apply clean_back in Hs'). rewrite Et, length_app in Hl. cbn [length] in Hl. pose proof (skip_ws_length r) as Hl2. apply clean_skip in Hr. destruct (skip_ws r) as [|c r1]; [done|]. cbn [length] in Hl2.
  destruct (c =? 58); [|done]. pose proof (clean_back [c] r1 Hr) as Hr1. destruct (parse_value fuel depth r1) as [[v r2]| |] eqn:Ev; cbn [res_bind]; [|done|by apply Hv in Ev; [|done|done|lia]].
  destruct (value_reads _ _ _ _ _ Hd Ev Hr1) as [Hr2 Hl3]. pose proof (skip_ws_length r2) as Hl4. apply clean_skip in Hr2. destruct (skip_ws r2) as [|c' r3]; [done|]. cbn [length] in Hl4.
  pose proof (clean_skip r3 (clean_back [c'] r3 Hr2)) as Hr3. pose proof (skip_ws_length r3) as Hl5. destruct (c' =? 44); [|by destruct (c' =? 125)]. case_bool_decide; [done|].
  assert (parse_object fuel depth (skip_ws r3) ≠ Panic) as Hp by (apply Ho; (done || lia)). by destruct (parse_object _ _ _) as [[? ?]| |].
Qed.

Lemma parse_total fuel : total_value fuel ∧ total_array fuel ∧ total_object fuel.
Proof.
  induction fuel as [|fuel (Hv & Ha & Ho)]; [split_and!; intros depth s _ _ Hf; lia|]. split_and!; [by apply value_total|by apply array_total|by apply object_total].
Qed.

Lemma parse_json_iff text node : parse_json text = Ok node ↔ json_text truncated text node.
Proof.
  unfold parse_json, json_text. split.
  - step_ok. destruct (skip_ws l) as [|x l'] eqn:Es; [|intros Hx; discriminate Hx]. intros [= <-]. apply (proj1 (parse_sound _)) in E as (w & t & Et & Hw & Hv); [|lia]. destruct (skip_ws_ok text) as (w0 & Hw0 & E0).
    match goal with H : skip_ws ?r = [] |- _ => destruct (skip_ws_ok r) as (w' & Hw' & E'); rewrite H, app_nil_r in E' end. exists (w0 ++ w), t, w'. rewrite Nat.sub_0_r in Hv.
    split_and!; [by rewrite E0, Et, E', <- !app_assoc|by apply Forall_app|done|done].
  - intros (w & t & w' & -> & Hw & Hw' & Hv). rewrite skip_ws_app by done. destruct (value_head _ _ _ _ Hv) as (c & t' & E & Hc & _).
    rewrite E at 2. cbn [app]. rewrite skip_ws_stop by done. rewrite app_comm_cons, <- E.
    pose proof (proj1 parse_complete _ _ _ Hv (2 * length (w ++ t ++ w') + 1)%nat w' (ends_at_end w' Hw')) as Hp. rewrite Nat.sub_diag in Hp. rewrite Hp by (rewrite ?length_app; lia). cbn [res_bind].
    assert (skip_ws w' = []) as -> by (rewrite <- (app_nil_r w'); by rewrite skip_ws_app). done.
Qed.
End JsonFacts.

Import Json Grammar JsonFacts.

(** The meaning of an escaped surrogate pair in the standard: both of its units. *)
Definition standard_pair (hi lo : N) : list N := [hi; lo].

(** C18: [JSON.parse] accepts exactly the texts of the JSON grammar with at most 128
    containers inside one another and numbers in range, and gives the tree the
    text stands for, with the source of every primitive value; every other text
    is an error and none a panic.  Texts with an escaped surrogate pair apart. *)
Theorem json_parse_exact text : Forall (λ c, is_char c = true) text → no_escaped_pair text →
  (∀ node, parse_json text = Ok node ↔ json_text standard_pair text node) ∧ parse_json text ≠ Panic.
Proof.
  intros Hc Hn. split.
  - intros node. rewrite parse_json_iff. unfold json_text. split; intros (w & t & w' & -> & Hw & Hw' & Hv); exists w, t, w'; (split_and!; [done..|]);
      (eapply (proj1 (value_change _ _)); [exact Hv|by apply (no_pair_infix w t w')]).
  - unfold parse_json. assert (parse_value (2 * length text + 1) 0 (skip_ws text) ≠ Panic) as Hp.
    { apply (proj1 (parse_total _)); [lia|by apply clean_skip|pose proof (skip_ws_length text); lia]. }
    destruct (parse_value _ _ _) as [[v r]| |]; cbn [res_bind]; [by destruct (skip_ws r)|done|done].
Qed.

(** An escaped surrogate pair loses its upper bits, so that it reads as another
    character; where the rest is a lone surrogate the reader panics. *)
Lemma escaped_pair_truncated :
  parse_json (34 :: bytes_of "\ud83d\ude00" ++ [34]) = Ok (mkNode (String [0xF600]) (Some (34 :: bytes_of "\ud83d\ude00" ++ [34]))) ∧
  parse_json (34 :: bytes_of "\ud836\udc00" ++ [34]) = Panic.
Proof. split; vm_compute; reflexivity. Qed.

Lemma json_parse_exact_witness (t := bytes_of " [1, {}] ") : parse_json t ≠ Panic ∧ ∃ node, json_text standard_pair t node.
Proof.
  assert (no_escaped_pair t) as Hn by (intros a h hi b E _; assert (92 ∈ t) as Hin by (rewrite E; set_solver); vm_compute in Hin; set_solver).
  destruct (json_parse_exact t ltac:(by repeat constructor) Hn) as [Hi Hp]. split; [exact Hp|].
  exists (mkNode (Array [mkNode (Number (F64.of_Z 1)) (Some [49]); mkNode (Object []) None]) None). apply Hi. vm_compute. reflexivity.
Defined.
