(* ===== verification/JsonText.v ===== *)
(** * The JSON writer (crates/oxide_builtins/src/json.rs)

    [JSON.stringify]: values, strings and containers with white lists, replacer
    functions, [toJSON], indentation and the check for cycles.  The writer asks the
    virtual machine for the properties of objects and calls functions of the
    program; [Host] has these operations, each on the state [S] of the machine.
    The writer keeps the set of the objects it is inside of and the text so far,
    in 16-bit units.  The nesting of calls takes fuel. *)

From stdpp Require Import base tactics numbers list option gmap sets strings.
From Stdlib Require Import ZArith Lia SpecFloat.
From S2P Require Import Prelude Unicode Float Coercion Digits Radix NumberMethods Json.

Open Scope N_scope.

Module JsonText.

Abbreviation Value := NumberMethods.Value.
Abbreviation VPrim := NumberMethods.VPrim.
Abbreviation VObject := NumberMethods.VObject.

#[export] Instance Value_eq_dec : EqDecision Value.
Proof. solve_decision. Defined.

Section writer.
Context {S Exc K : Type}.

(** An operation that may run code of the program gives a value or a message. *)
Record Host := mkHost {
  is_function : S → N → bool;
  is_array : S → N → bool;
  is_raw_json_obj : S → N → bool;
  is_number_obj : S → N → bool;
  is_boolean_obj : S → N → bool;
  is_string_obj : S → N → bool;
  is_typed_array_obj : S → N → bool;
  boxed_value : S → N → Prim;
  raw_text : S → N → list N;
  prop_count : S → N → nat;
  walk_own_keys : S → N → list (K * N);
  enumerable : S → N → N → bool;
  is_accessor_meta : S → N → N → bool;
  get_prop_at : S → N → N → Value;
  ordinary_get : N → K → Value → S → S * (Value + string);
  call_function_sync : Value → Value → list Value → S → S * (Value + string);
  take_uncaught_value : S → S * option Exc;
  to_number_full : N → S → S * (N + string);
  to_string_value_full : N → S → S * (list N + string);
  create_wrapper : Value → S → S * Value;
  bigint_proto : N;
  key_units : S → K → list N;
  string_key_si : list N → S → S * K;
  perm_intern : list N → S → S * K;
  make_int_key : N → K;
  int_key_value : K → option N;
  typed_array_length : N → S → S * (nat + Exc);
  typed_array_element_get : N → N → S → S * (Value + string)
}.

Inductive Thrown := Uncaught (e : Exc) | TypeError (msg : string).

Record St := mkSt { host : S; visited : gset N; out : list N }.
Inductive Outcome (A : Type) := Done (a : A) | Raised (e : Thrown) | OutOfFuel.
Arguments Done {A} a.
Arguments Raised {A} e.
Arguments OutOfFuel {A}.

(** A computation of the writer. *)
Definition M (A : Type) : Type := St → St * Outcome A.
Definition ret {A} (a : A) : M A := λ st, (st, Done a).
Definition bind {A B} (m : M A) (k : A → M B) : M B := λ st,
  match m st with (st, Done a) => k a st | (st, Raised e) => (st, Raised e) | (st, OutOfFuel) => (st, OutOfFuel) end.
Definition throw {A} (e : Thrown) : M A := λ st, (st, Raised e).
Definition push (units : list N) : M unit := λ st, (mkSt (host st) (visited st) (out st ++ units), Done ()).
Definition on_host {A} (f : S → S * A) : M A := λ st, let '(s, a) := f (host st) in (mkSt s (visited st) (out st), Done a).
Definition asks {A} (f : S → A) : M A := λ st, (st, Done (f (host st))).
Notation "'let!' x ':=' m 'in' k" := (bind m (λ x, k)) (at level 10, x pattern, m at level 100, k at level 200).
Notation "m ;; k" := (bind m (λ _, k)) (at level 100, k at level 200, right associativity).

Fixpoint for_each {A} (l : list A) (body : A → M unit) : M unit := match l with [] => ret () | x :: l => body x ;; for_each l body end.

Variable vm : Host.
Variable ryu : N → list N.

(** The error of a failed operation: the exception of the program where there is one. *)
Definition failed {A} (msg : string) : M A :=
  let! e := on_host (take_uncaught_value vm) in throw (match e with Some e => Uncaught e | None => TypeError msg end).
Definition attempt {A} (f : S → S * (A + string)) : M A :=
  let! r := on_host f in match r with inl a => ret a | inr msg => failed msg end.

(** ** Primitive values *)

Definition push_ascii (text : list N) : M unit := push (utf16 text).
Definition push_number (n : N) : M unit := push_ascii (Coercion.write_number_into ryu n).

Definition escape_unit (u : N) : list N :=
  if u =? 0x22 then [92; 34] else if u =? 0x5C then [92; 92]
  else if u =? 0x08 then [92; 98] else if u =? 0x0C then [92; 102]
  else if u =? 0x0A then [92; 110] else if u =? 0x0D then [92; 114] else if u =? 0x09 then [92; 116]
  else if in_range 0 0x1F u || in_range 0x7F 0x9F u || is_surrogate u then 92 :: 117 :: hex4 u
  else [u].

Fixpoint escape_units (units : list N) : list N :=
  match units with
  | [] => []
  | u :: rest =>
      match rest with
      | lo :: rest' => if is_high u && is_low lo then u :: lo :: escape_units rest' else escape_unit u ++ escape_units rest
      | [] => escape_unit u
      end
  end.
Definition stringify_string_units (units : list N) : list N := 34 :: escape_units units ++ [34].

(** ** Hooks *)

Definition is_fn (s : S) (v : Value) : bool := match v with VObject p => negb (p =? 0) && is_function vm s p | VPrim _ => false end.

Definition call_to_json (v : Value) (key : list N) : M Value :=
  let ptr := match v with
             | VObject p => if p =? 0 then None else Some p
             | VPrim (PBigInt _) => Some (bigint_proto vm)
             | VPrim _ => None
             end in
  match ptr with
  | None => ret v
  | Some ptr =>
      let! to_json := on_host (perm_intern vm (bytes_of "toJSON")) in
      let! f := attempt (ordinary_get vm ptr to_json v) in
      let! callable := asks (λ s, is_fn s f) in
      if callable then attempt (call_function_sync vm f v [VPrim (PString key)]) else ret v
  end.

Definition read_json_property_value (obj : N) (si : K) (pos : N) : M Value :=
  let! accessor := asks (λ s, is_accessor_meta vm s obj pos) in
  if accessor then attempt (ordinary_get vm obj si (VObject obj)) else asks (λ s, get_prop_at vm s obj pos).

(** ** Containers *)

Section containers.
Variable replacer_fn : option Value.
Variable replacer_whitelist : option (list (list N)).
Variable space : list N.

Definition has_space : bool := negb (bool_decide (space = [])).
Definition indent (n : nat) : M unit := push_ascii [10] ;; push (mjoin (replicate n space)).

(** [None] where the replacer gives undefined. *)
Definition replace (holder : Value) (key : list N) (v : Value) : M (option Value) :=
  match replacer_fn with
  | None => ret (Some v)
  | Some f => let! v := attempt (call_function_sync vm f holder [VPrim (PString key); v]) in ret (match v with VPrim PUndefined => None | _ => Some v end)
  end.

Definition omitted (s : S) (v : Value) : bool := match v with VPrim PUndefined | VPrim (PSymbol _) => true | _ => is_fn s v end.

(** One member: its comma, its key and its value; the result says whether it was written. *)
Definition write_member (write : Value → M unit) (level : nat) (first : bool) (units : list N) (v : Value) : M bool :=
  let! skip := asks (λ s, omitted s v) in
  if skip then ret first
  else
    (if first then ret () else push_ascii [44]) ;;
    (if has_space then indent (Datatypes.S level) ;; push (stringify_string_units units) ;; push_ascii [58] ;; push_ascii [32]
     else push (stringify_string_units units) ;; push_ascii [58]) ;;
    write v ;;
    ret false.

(** [get] reads the value of an entry. *)
Fixpoint write_members {E} (write : Value → M unit) (level : nat) (obj : N) (units : E → list N) (get : E → M Value) (first : bool) (entries : list E) : M bool :=
  match entries with
  | [] => ret first
  | e :: entries =>
      let! v := get e in
      let! v := call_to_json v (units e) in
      let! v := replace (VObject obj) (units e) v in
      let! first := match v with None => ret first | Some v => write_member write level first (units e) v end in
      write_members write level obj units get first entries
  end.

Definition finish_members (level : nat) (first : bool) : M unit :=
  (if has_space && negb first then indent level else ret ()) ;; push_ascii [125].

Fixpoint whitelist_entries (names : list (list N)) : M (list (list N * K * option N)) :=
  match names with
  | [] => ret []
  | name :: names =>
      let! si := on_host (string_key_si vm name) in
      let! units := asks (λ s, key_units vm s si) in
      let! rest := whitelist_entries names in
      ret ((units, si, None) :: rest)
  end.

Definition object_entries (obj : N) : M (list (list N * K * option N)) :=
  match replacer_whitelist with
  | Some names => whitelist_entries names
  | None => asks (λ s, (λ '(si, pos), (key_units vm s si, si, Some pos)) <$> filter (λ '(_, pos), enumerable vm s obj pos = true) (walk_own_keys vm s obj))
  end.

Definition stringify_object (write : Value → M unit) (level : nat) (obj : N) : M unit :=
  push_ascii [123] ;;
  let! entries := object_entries obj in
  let get '((_, si, pos) : list N * K * option N) := match pos with
                             | Some pos => read_json_property_value obj si pos
                             | None => attempt (ordinary_get vm obj si (VObject obj))
                             end in
  let! first := write_members write level obj (λ e, e.1.1) get true entries in
  finish_members level first.

Fixpoint write_elements (write : Value → M unit) (level : nat) (obj : N) (i n : nat) : M unit :=
  match n with
  | O => ret ()
  | Datatypes.S n =>
      (if bool_decide (i = O) then ret () else push_ascii [44]) ;;
      (if has_space then indent (Datatypes.S level) else ret ()) ;;
      let units := Coercion.decimal (N.of_nat i) in
      let! v := read_json_property_value obj (make_int_key vm (N.of_nat i)) (N.of_nat i) in
      let! v := call_to_json v units in
      let! v := replace (VObject obj) units v in
      match v with
      | None => push_ascii (bytes_of "null")
      | Some v =>
          let! fn := asks (λ s, is_fn s v) in
          if fn || bool_decide (v = VPrim PUndefined) then push_ascii (bytes_of "null") else write v
      end ;;
      write_elements write level obj (Datatypes.S i) n
  end.

Definition stringify_array (write : Value → M unit) (level : nat) (obj : N) : M unit :=
  push_ascii [91] ;;
  let! len := asks (λ s, prop_count vm s obj) in
  write_elements write level obj 0 len ;;
  (if has_space && bool_decide (0 < len)%nat then indent level else ret ()) ;;
  push_ascii [93].

(** A failed element read makes a TypeError of its message. *)
Definition element (f : S → S * (Value + string)) : M Value :=
  let! r := on_host f in match r with inl v => ret v | inr msg => throw (TypeError msg) end.

Fixpoint typed_whitelist (obj : N) (len : nat) (names : list (list N)) : M (list (list N * Value)) :=
  match names with
  | [] => ret []
  | name :: names =>
      let! si := on_host (string_key_si vm name) in
      let! v := match int_key_value vm si with
                | Some idx => if bool_decide (len <= N.to_nat idx)%nat then ret None else let! v := element (typed_array_element_get vm obj idx) in ret (Some v)
                | None => let! v := element (ordinary_get vm obj si (VObject obj)) in ret (Some v)
                end in
      let! units := asks (λ s, key_units vm s si) in
      let! rest := typed_whitelist obj len names in
      ret (match v with Some v => (units, v) :: rest | None => rest end)
  end.

Fixpoint typed_elements (obj : N) (i n : nat) : M (list (list N * Value)) :=
  match n with
  | O => ret []
  | Datatypes.S n =>
      let! v := element (typed_array_element_get vm obj (N.of_nat i)) in
      let! rest := typed_elements obj (Datatypes.S i) n in
      ret ((Coercion.decimal (N.of_nat i), v) :: rest)
  end.

Definition stringify_typed_array (write : Value → M unit) (level : nat) (obj : N) : M unit :=
  let! len := on_host (typed_array_length vm obj) in
  match len with
  | inr e => throw (Uncaught e)
  | inl len =>
      push_ascii [123] ;;
      let! entries := match replacer_whitelist with Some names => typed_whitelist obj len names | None => typed_elements obj 0 len end in
      let! first := write_members write level obj fst (λ e, ret e.2) true entries in
      finish_members level first
  end.

(** ** Values *)

Definition enter (ptr : N) : M bool := λ st,
  if bool_decide (ptr ∈ visited st) then (st, Done false) else (mkSt (host st) ({[ptr]} ∪ visited st) (out st), Done true).
Definition leave (ptr : N) : M unit := λ st, (mkSt (host st) (visited st ∖ {[ptr]}) (out st), Done ()).

(** A conversion of a wrapper object; the object is left before an error goes on. *)
Definition convert {A} (ptr : N) (f : S → S * (A + string)) : M A :=
  let! r := on_host f in
  match r with
  | inl a => ret a
  | inr msg => let! e := on_host (take_uncaught_value vm) in leave ptr ;; throw (match e with Some e => Uncaught e | None => TypeError msg end)
  end.

Definition BIGINT : Thrown := TypeError "Do not know how to serialize a BigInt".

Definition write_finite (n : N) : M unit := if F64.is_finite n then push_number n else push_ascii (bytes_of "null").

(** A container, by its kind. *)
Definition write_container (write : nat → Value → M unit) (level : nat) (ptr : N) : M unit :=
  let! boolean := asks (λ s, is_boolean_obj vm s ptr) in
  let! boxed := asks (λ s, boxed_value vm s ptr) in
  let! str := asks (λ s, is_string_obj vm s ptr) in
  let! typed := asks (λ s, is_typed_array_obj vm s ptr) in
  let! array := asks (λ s, is_array vm s ptr) in
  if boolean then push_ascii (match boxed with PBool true => bytes_of "true" | _ => bytes_of "false" end) ;; leave ptr
  else if Coercion.is_bigint boxed then throw BIGINT
  else
    (if str then let! units := convert ptr (to_string_value_full vm ptr) in push (stringify_string_units units)
     else if typed then stringify_typed_array (write (Datatypes.S level)) level ptr
     else if array then stringify_array (write (Datatypes.S level)) level ptr
     else stringify_object (write (Datatypes.S level)) level ptr) ;;
    leave ptr.

Definition write_object (write : nat → Value → M unit) (level : nat) (ptr : N) : M unit :=
  if ptr =? 0 then push_ascii (bytes_of "null")
  else
    let! raw := asks (λ s, is_raw_json_obj vm s ptr) in
    if raw then let! text := asks (λ s, raw_text vm s ptr) in push_ascii text
    else
      let! entered := enter ptr in
      if negb entered then throw (TypeError "Converting circular structure to JSON")
      else
        let! number := asks (λ s, is_number_obj vm s ptr) in
        if number then let! n := convert ptr (to_number_full vm ptr) in write_finite n ;; leave ptr
        else write_container write level ptr.

Fixpoint jsvalue_to_json (fuel level : nat) (v : Value) : M unit :=
  match fuel with
  | O => λ st, (st, OutOfFuel)
  | Datatypes.S fuel =>
      match v with
      | VPrim PNull => push_ascii (bytes_of "null")
      | VPrim PUndefined => ret ()
      | VPrim (PSymbol _) => push_ascii (bytes_of "null")
      | VPrim (PBool b) => push_ascii (if b then bytes_of "true" else bytes_of "false")
      | VPrim (PInt i) => push_ascii (Coercion.decimal_Z i)
      | VPrim (PDouble n) => write_finite n
      | VPrim (PBigInt _) => throw BIGINT
      | VPrim (PString units) => push (stringify_string_units units)
      | VObject ptr => write_object (jsvalue_to_json fuel) level ptr
      end
  end.
End containers.

(** ** The arguments *)

Definition to_string (v : Value) : list N := match v with VPrim p => Coercion.to_string ryu p | VObject _ => bytes_of "[object]" end.

Definition is_name (p : Prim) : bool := Coercion.is_string p || Coercion.is_int p || Coercion.is_double p.

(** The first callable of the methods named. *)
Fixpoint name_by (ptr : N) (methods : list K) : M (option (list N)) :=
  match methods with
  | [] => ret None
  | si :: methods =>
      let! m := attempt (ordinary_get vm ptr si (VObject ptr)) in
      let! callable := asks (λ s, is_fn s m) in
      if callable then let! r := attempt (call_function_sync vm m (VObject ptr) []) in ret (Some (to_string r)) else name_by ptr methods
  end.

Definition whitelist_element_name (elem : Value) : M (option (list N)) :=
  match elem with
  | VPrim p => ret (if is_name p then Some (Coercion.to_string ryu p) else None)
  | VObject ptr =>
      if ptr =? 0 then ret None
      else
        let! boxed := asks (λ s, boxed_value vm s ptr) in
        if negb (is_name boxed) then ret None
        else
          let! to_string_si := on_host (perm_intern vm (bytes_of "toString")) in
          let! value_of_si := on_host (perm_intern vm (bytes_of "valueOf")) in
          let! name := name_by ptr [to_string_si; value_of_si] in
          ret (Some (default (Coercion.to_string ryu boxed) name))
  end.

Fixpoint read_whitelist (arr : N) (i n : nat) (names : list (list N)) : M (list (list N)) :=
  match n with
  | O => ret names
  | Datatypes.S n =>
      let! elem := asks (λ s, get_prop_at vm s arr (N.of_nat i)) in
      let! name := whitelist_element_name elem in
      read_whitelist arr (Datatypes.S i) n (match name with Some name => if bool_decide (name ∈ names) then names else names ++ [name] | None => names end)
  end.

Definition read_replacer (v : Value) : M (option Value * option (list (list N))) :=
  match v with
  | VPrim _ => ret (None, None)
  | VObject ptr =>
      if ptr =? 0 then ret (None, None)
      else
        let! fn := asks (λ s, is_function vm s ptr) in
        let! array := asks (λ s, is_array vm s ptr) in
        if fn then ret (Some v, None)
        else if array then
          let! len := asks (λ s, prop_count vm s ptr) in
          let! names := read_whitelist ptr 0 len [] in
          ret (None, Some names)
        else ret (None, None)
  end.

(** [f64::min]. *)
Definition f64_min (a b : N) : N := if F64.is_nan a then b else if F64.is_nan b then a else if F64.ltb a b then a else b.

Definition number_space_units (n : N) : list N :=
  let m := f64_min n (F64.of_Z 10) in
  if F64.is_nan m || F64.ltb m (F64.of_Z 1) then [] else replicate (Digits.as_usize m) 0x20.

Definition process_space (v : Value) : M (list N) :=
  match v with
  | VPrim (PInt _ as p) | VPrim (PDouble _ as p) => ret (number_space_units (Coercion.to_integer_or_infinity p))
  | VPrim (PString units) => ret (take 10 units)
  | VPrim _ => ret []
  | VObject ptr =>
      if ptr =? 0 then ret []
      else
        let! number := asks (λ s, is_number_obj vm s ptr) in
        let! str := asks (λ s, is_string_obj vm s ptr) in
        if number then let! n := attempt (to_number_full vm ptr) in ret (number_space_units (Coercion.to_integer_or_infinity (Coercion.float n)))
        else if str then let! units := attempt (to_string_value_full vm ptr) in ret (take 10 units)
        else ret []
  end.

Definition json_stringify (fuel : nat) (args : list Value) : M Value :=
  match args with
  | [] => ret (VPrim PUndefined)
  | value :: more =>
      let! (replacer_fn, replacer_whitelist) := match more with r :: _ => read_replacer r | [] => ret (None, None) end in
      let! space := match more with _ :: v :: _ => process_space v | _ => ret [] end in
      let! holder := on_host (create_wrapper vm value) in
      let! value := call_to_json value [] in
      let! value := match replacer_fn with Some f => attempt (call_function_sync vm f holder [VPrim (PString []); value]) | None => ret value end in
      let! skip := asks (λ s, omitted s value) in
      if skip then ret (VPrim PUndefined)
      else λ st,
        match jsvalue_to_json replacer_fn replacer_whitelist space fuel 0 value (mkSt (host st) ∅ []) with
        | (st, Done _) => (st, Done (VPrim (PString (out st))))
        | (st, Raised e) => (st, Raised e)
        | (st, OutOfFuel) => (st, OutOfFuel)
        end
  end.
End writer.
Arguments Done {Exc A} a.
Arguments Raised {Exc A} e.
Arguments OutOfFuel {Exc A}.
Notation "'let!' x ':=' m 'in' k" := (bind m (λ x, k)) (at level 10, x pattern, m at level 100, k at level 200).
Notation "m ;; k" := (bind m (λ _, k)) (at level 100, k at level 200, right associativity).
End JsonText.

(** ** Plain data: arrays and objects with data properties *)

Module Plain.
Import JsonText.

(** The properties of an object are in the order of its keys. *)
Inductive Obj := PArray (items : list Value) | PObject (props : list (list N * Value)).
Definition heap : Type := gmap N Obj.

Definition undefined : Value := VPrim PUndefined.
Definition items_of (o : Obj) : list Value := match o with PArray items => items | PObject props => props.*2 end.
Definition keys_of (o : Obj) : list (list N) := match o with PArray items => [] | PObject props => props.*1 end.

Definition own_value (h : heap) (p i : N) : Value := default undefined (h !! p ≫= λ o, items_of o !! N.to_nat i).

(** Objects of this heap have no functions, accessors or wrapped values, and a
    function is never called. *)
Definition host : Host (S := heap) (Exc := Empty_set) (K := list N) := {|
  is_function := λ _ _, false;
  is_array := λ h p, match h !! p with Some (PArray _) => true | _ => false end;
  is_raw_json_obj := λ _ _, false;
  is_number_obj := λ _ _, false;
  is_boolean_obj := λ _ _, false;
  is_string_obj := λ _ _, false;
  is_typed_array_obj := λ _ _, false;
  boxed_value := λ _ _, PUndefined;
  raw_text := λ _ _, [];
  prop_count := λ h p, length (default [] (items_of <$> h !! p));
  walk_own_keys := λ h p, imap (λ i k, (k, N.of_nat i)) (default [] (keys_of <$> h !! p));
  enumerable := λ _ _ _, true;
  is_accessor_meta := λ _ _ _, false;
  get_prop_at := own_value;
  ordinary_get := λ _ _ _ h, (h, inl undefined);
  call_function_sync := λ _ _ _ h, (h, inl undefined);
  take_uncaught_value := λ h, (h, None);
  to_number_full := λ _ h, (h, inl F64.NAN);
  to_string_value_full := λ _ h, (h, inl []);
  create_wrapper := λ v h, (h, v);
  bigint_proto := 0;
  key_units := λ _ k, k;
  string_key_si := λ k h, (h, k);
  perm_intern := λ k h, (h, k);
  make_int_key := Coercion.decimal;
  int_key_value := λ _, None;
  typed_array_length := λ _ h, (h, inl 0%nat);
  typed_array_element_get := λ _ _ h, (h, inl undefined)
|}.

(** Data: a number by its text, a string by its units. *)
Inductive Data :=
  | DNull
  | DBool (b : bool)
  | DNumber (text : list N)
  | DString (units : list N)
  | DArray (items : list Data)
  | DObject (props : list (list N * Data)).

Section data.
Variable ryu : N → list N.
Variable h : heap.

(** The data a value stands for; a value on a cycle stands for none. *)
Inductive stands : Value → Data → Prop :=
  | S_null : stands (VPrim PNull) DNull
  | S_bool b : stands (VPrim (PBool b)) (DBool b)
  | S_int i : stands (VPrim (PInt i)) (DNumber (Coercion.decimal_Z i))
  | S_double n : F64.is_finite n = true → stands (VPrim (PDouble n)) (DNumber (Coercion.write_number_into ryu n))
  | S_not_finite n : F64.is_finite n = false → stands (VPrim (PDouble n)) DNull
  | S_string units : stands (VPrim (PString units)) (DString units)
  | S_array p items ds : p ≠ 0 → h !! p = Some (PArray items) → Forall2 stands items ds → stands (VObject p) (DArray ds)
  | S_object p props ds : p ≠ 0 → h !! p = Some (PObject props) → Forall2 stands props.*2 ds → stands (VObject p) (DObject (zip props.*1 ds)).

(** A value of plain data, cyclic or not. *)
Definition plain (v : Value) : Prop :=
  match v with
  | VPrim (PNull | PBool _ | PInt _ | PDouble _ | PString _) => True
  | VPrim _ => False
  | VObject p => p ≠ 0 ∧ is_Some (h !! p)
  end.
Definition plain_heap : Prop := ∀ p o, h !! p = Some o → Forall plain (items_of o).
End data.

(** ** The text of data *)

Section text.
Variable space : list N.

Definition new_line (n : nat) : list N := if has_space space then 10 :: mjoin (replicate n space) else [].
Definition join (pieces : list (list N)) : list N := match pieces with [] => [] | x :: l => x ++ mjoin (cons 44 <$> l) end.
Definition member_text (level : nat) (key value : list N) : list N :=
  new_line (S level) ++ stringify_string_units key ++ 58 :: (if has_space space then [32] else []) ++ value.

Fixpoint text (level : nat) (d : Data) : list N :=
  match d with
  | DNull => bytes_of "null"
  | DBool b => if b then bytes_of "true" else bytes_of "false"
  | DNumber t => utf16 t
  | DString units => stringify_string_units units
  | DArray items => 91 :: join (map (λ d, new_line (S level) ++ text (S level) d) items) ++ (match items with [] => [] | _ => new_line level end) ++ [93]
  | DObject props => 123 :: join (map (λ '(k, d), member_text level k (text (S level) d)) props) ++ (match props with [] => [] | _ => new_line level end) ++ [125]
  end.
End text.
End Plain.

(** ** Facts *)

Module PlainFacts.
Import JsonText Plain.

Section data_ind.
Variable P : Data → Prop.
Hypothesis HNull : P DNull.
Hypothesis HBool : ∀ b, P (DBool b).
Hypothesis HNumber : ∀ t, P (DNumber t).
Hypothesis HString : ∀ u, P (DString u).
Hypothesis HArray : ∀ ds, Forall P ds → P (DArray ds).
Hypothesis HObject : ∀ ps, Forall P ps.*2 → P (DObject ps).

Fixpoint data_ind (d : Data) : P d :=
  match d with
  | DNull => HNull
  | DBool b => HBool b
  | DNumber t => HNumber t
  | DString u => HString u
  | DArray ds => HArray ds ((fix go l : Forall P l := match l with [] => Forall_nil_2 _ | d :: l => Forall_cons_2 _ _ _ (data_ind d) (go l) end) ds)
  | DObject ps => HObject ps ((fix go (l : list (list N * Data)) : Forall P l.*2 := match l with [] => Forall_nil_2 _ | kd :: l => Forall_cons_2 _ _ _ (data_ind kd.2) (go l) end) ps)
  end.
End data_ind.

Fixpoint dsize (d : Data) : nat :=
  match d with
  | DArray ds => S (sum_list (map dsize ds))
  | DObject ps => S (sum_list (map (λ '(_, d), dsize d) ps))
  | _ => 1
  end.

Lemma sum_list_elem (l : list nat) n : n ∈ l → (n <= sum_list l)%nat.
Proof. induction 1 as [|m l n H IH]; cbn; lia. Qed.

Lemma dsize_item d ds : d ∈ ds → (dsize d < dsize (DArray ds))%nat.
Proof. intros H. cbn. pose proof (sum_list_elem (map dsize ds) (dsize d)). specialize (H0 ltac:(apply list_elem_of_fmap; by exists d)). lia. Qed.

Lemma dsize_prop d ks ds : length ks = length ds → d ∈ ds → (dsize d < dsize (DObject (zip ks ds)))%nat.
Proof.
  intros Hl H. cbn. apply Nat.lt_succ_r, sum_list_elem. replace (map _ (zip ks ds)) with (dsize <$> ds); [apply list_elem_of_fmap; by exists d|]. clear H.
  revert ds Hl. induction ks as [|k ks IH]; intros [|d' ds] Hl; try done. cbn. f_equal. apply IH. by injection Hl.
Qed.

Section plain.
Variables (ryu : N → list N) (h : heap) (space : list N).

#[local] Abbreviation stands := (stands ryu h).
#[local] Abbreviation write := (jsvalue_to_json host ryu None None space).
#[local] Abbreviation text := (text space).
#[local] Abbreviation new_line := (new_line space).
#[local] Abbreviation M := (JsonText.M (S := heap) (Exc := Empty_set)).

Lemma stands_fun d : ∀ v d', stands v d → stands v d' → d = d'.
Proof.
  assert (∀ ds, Forall (λ d, ∀ v d', stands v d → stands v d' → d = d') ds → ∀ vs ds', Forall2 stands vs ds → Forall2 stands vs ds' → ds = ds') as Hlist.
  { clear d. induction 1 as [|d ds Hd _ IH]; intros vs ds' H1 H2; inversion H1; subst; inversion H2; subst; [done|]. f_equal; eauto. }
  induction d as [| | | |ds IH|ps IH] using data_ind; intros v d' H1 H2.
  1-4: inversion H1; subst; inversion H2; subst; congruence.
  - inversion H1; subst. inversion H2; subst; simplify_eq. f_equal. by eapply Hlist.
  - inversion H1 as [| | | | | | |p props ds Hp Hh Hf]; subst. inversion H2; subst; simplify_eq. do 2 f_equal. eapply Hlist; [|done|done].
    rewrite snd_zip in IH; [done|]. apply Forall2_length in Hf. rewrite !length_fmap in *. lia.
Qed.

(** *** Running the writer *)

Definition CIRCULAR : Thrown (Exc := Empty_set) := TypeError "Converting circular structure to JSON".

(** [m] writes [u] and keeps the rest of the state. *)
Definition writes (m : M ()) (vis : gset N) (u : list N) : Prop := ∀ o, m (mkSt h vis o) = (mkSt h vis (o ++ u), Done ()).
Definition gives {A} (m : M A) (vis : gset N) (a : A) : Prop := ∀ o, m (mkSt h vis o) = (mkSt h vis o, Done a).
Definition raises {A} (m : M A) (vis : gset N) : Prop := ∀ o, ∃ st, m (mkSt h vis o) = (st, Raised CIRCULAR).

Lemma writes_push vis u : writes (push u) vis u.
Proof. done. Qed.

Lemma writes_ret vis : writes (ret ()) vis [].
Proof. intros o. by rewrite app_nil_r. Qed.

Lemma writes_then m k vis u u' : writes m vis u → writes k vis u' → writes (bind m (λ _, k)) vis (u ++ u').
Proof. intros H1 H2 o. unfold bind. by rewrite H1, H2, app_assoc. Qed.

Lemma gives_then {A} (m : M A) (k : A → M ()) vis a u : gives m vis a → writes (k a) vis u → writes (bind m k) vis u.
Proof. intros H1 H2 o. unfold bind. by rewrite H1, H2. Qed.

Lemma gives_gives {A B} (m : M A) (k : A → M B) vis a b : gives m vis a → gives (k a) vis b → gives (bind m k) vis b.
Proof. intros H1 H2 o. unfold bind. by rewrite H1, H2. Qed.

Lemma raises_here {A B} (m : M A) (k : A → M B) vis : raises m vis → raises (bind m k) vis.
Proof. intros H1 o. destruct (H1 o) as [st E]. exists st. unfold bind. by rewrite E. Qed.

Lemma gives_raises {A B} (m : M A) (k : A → M B) vis a : gives m vis a → raises (k a) vis → raises (bind m k) vis.
Proof. intros H1 H2 o. unfold bind. rewrite H1. apply H2. Qed.

Lemma writes_raises {B} (m : M ()) (k : M B) vis u : writes m vis u → raises k vis → raises (bind m (λ _, k)) vis.
Proof. intros H1 H2 o. unfold bind. rewrite H1. apply H2. Qed.

Lemma writes_ascii vis t : Forall (λ c, c < 128) t → writes (push_ascii t) vis t.
Proof. intros Ht o. unfold push_ascii. by rewrite CoercionFacts.utf16_ascii. Qed.

Lemma writes_indent vis n : has_space space = true → writes (indent space n) vis (new_line n).
Proof. intros Hs. unfold indent, Plain.new_line. rewrite Hs. apply (writes_then _ _ _ [10]); [by apply writes_ascii; repeat constructor|apply writes_push]. Qed.

Lemma gives_to_json vis v key : gives (call_to_json host v key) vis v.
Proof. intros o. unfold call_to_json. destruct v as [[]|p]; try done. by destruct (p =? 0). Qed.

(** *** Verdicts *)

(** A smaller or equal value is being written already. *)
Definition inside (vis : gset N) (d : Data) : Prop := ∃ q d', q ∈ vis ∧ stands (VObject q) d' ∧ (dsize d' <= dsize d)%nat.
Definition verdict (w : Value → M ()) (vis : gset N) (level : nat) (v : Value) : Prop :=
  (∃ d, stands v d ∧ writes (w v) vis (text level d)) ∨ (raises (w v) vis ∧ ∀ d, stands v d → inside vis d).

Lemma plain_not_undefined v : plain h v → v ≠ undefined ∧ omitted host h v = false ∧ is_fn host h v = false.
Proof. destruct v as [[]|p]; cbn; try done. intros _. by rewrite andb_false_r. Qed.

Definition pieces (level : nat) (ds : list Data) : list (list N) := map (λ d, new_line (S level) ++ text (S level) d) ds.

Definition after (i : nat) (l : list (list N)) : list N := if bool_decide (i = 0)%nat then join l else mjoin (cons 44 <$> l).

Lemma after_cons i x l : after i (x :: l) = (if bool_decide (i = 0)%nat then [] else [44]) ++ x ++ after (S i) l.
Proof. unfold after, join. rewrite (bool_decide_false (S i = 0)%nat) by lia. by case_bool_decide. Qed.

Lemma pieces_cons i level d ds : after i (pieces level (d :: ds)) = (if bool_decide (i = 0)%nat then [] else [44]) ++ new_line (S level) ++ text (S level) d ++ after (S i) (pieces level ds).
Proof. unfold pieces. cbn [map]. rewrite after_cons. by rewrite <- app_assoc. Qed.

Lemma elements_verdict w level p vis rest : ∀ i, Forall (plain h) rest → Forall (verdict w vis (S level)) rest → (∀ k v, rest !! k = Some v → own_value h p (N.of_nat (i + k)) = v) →
  (∃ ds, Forall2 stands rest ds ∧ writes (write_elements host None space w level p i (length rest)) vis (after i (pieces level ds))) ∨
  (raises (write_elements host None space w level p i (length rest)) vis ∧ ∃ v, v ∈ rest ∧ ∀ d, stands v d → inside vis d).
Proof.
  induction rest as [|v rest IH]; intros i Hp Hv Hget; cbn [length write_elements].
  { left. exists []. split; [constructor|]. unfold after. case_bool_decide; apply writes_ret. }
  inversion Hp as [|? ? Hp1 Hp2]; inversion Hv as [|? ? Hv1 Hv2]; subst. destruct (plain_not_undefined v Hp1) as (Hu & _ & Hfn).
  assert (writes (if bool_decide (i = 0)%nat then ret () else push_ascii [44]) vis (if bool_decide (i = 0)%nat then [] else [44])) as Hcomma
    by (case_bool_decide; [apply writes_ret|by apply writes_ascii; repeat constructor]).
  assert (writes (if has_space space then indent space (S level) else ret ()) vis (new_line (S level))) as Hind
    by (destruct (has_space space) eqn:Es; [by apply writes_indent|unfold Plain.new_line; rewrite Es; apply writes_ret]).
  assert (gives (read_json_property_value host p (make_int_key host (N.of_nat i)) (N.of_nat i)) vis v) as Hread.
  { intros o. specialize (Hget 0%nat v eq_refl). rewrite Nat.add_0_r in Hget. by rewrite <- Hget. }
  assert (gives (replace host None (VObject p) (Coercion.decimal (N.of_nat i)) v) vis (Some v)) as Hrep by (intros o; done).
  assert (∀ u, writes (w v) vis u → writes (let! fn := asks (λ s, is_fn host s v) in if fn || bool_decide (v = VPrim PUndefined) then push_ascii (bytes_of "null") else w v) vis u) as Hw.
  { intros u Hw. apply (gives_then _ _ _ false); [intros o; unfold asks; cbn [JsonText.host]; by rewrite Hfn|]. rewrite bool_decide_false by done. done. }
  destruct (IH (S i) Hp2 Hv2) as [(ds & Hds & Hrun)|[Hrun (x & Hx & Hbad)]].
  { intros k x Hk. rewrite Nat.add_succ_comm. by apply Hget. }
  - destruct Hv1 as [(d & Hd & Hd')|[Hr Hbad]].
    + left. exists (d :: ds). split; [by constructor|]. rewrite pieces_cons. apply writes_then; [done|]. apply writes_then; [done|].
      apply (gives_then _ _ _ v); [done|]. apply (gives_then _ _ _ v); [apply gives_to_json|]. apply (gives_then _ _ _ (Some v)); [done|]. apply writes_then; [by apply Hw|done].
    + right. split; [|exists v; split; [by left|done]]. eapply writes_raises; [done|]. eapply writes_raises; [done|]. eapply (gives_raises _ _ _ v); [done|]. eapply (gives_raises _ _ _ v); [apply gives_to_json|].
      eapply (gives_raises _ _ _ (Some v)); [done|]. apply raises_here. apply (gives_raises _ _ _ false); [intros o; unfold asks; cbn [JsonText.host]; by rewrite Hfn|]. by rewrite bool_decide_false by done.
  - destruct Hv1 as [(d & Hd & Hd')|[Hr Hbad']].
    + right. split; [|exists x; split; [by right|done]]. eapply writes_raises; [done|]. eapply writes_raises; [done|]. eapply (gives_raises _ _ _ v); [done|]. eapply (gives_raises _ _ _ v); [apply gives_to_json|].
      eapply (gives_raises _ _ _ (Some v)); [done|]. eapply writes_raises; [by apply Hw|done].
    + right. split; [|exists v; split; [by left|done]]. eapply writes_raises; [done|]. eapply writes_raises; [done|]. eapply (gives_raises _ _ _ v); [done|]. eapply (gives_raises _ _ _ v); [apply gives_to_json|].
      eapply (gives_raises _ _ _ (Some v)); [done|]. apply raises_here. apply (gives_raises _ _ _ false); [intros o; unfold asks; cbn [JsonText.host]; by rewrite Hfn|]. by rewrite bool_decide_false by done.
Qed.

(** *** Members *)

Definition puts {A} (m : M A) (vis : gset N) (u : list N) (a : A) : Prop := ∀ o, m (mkSt h vis o) = (mkSt h vis (o ++ u), Done a).

Lemma writes_puts {A} (m : M ()) (k : M A) vis u u' a : writes m vis u → puts k vis u' a → puts (bind m (λ _, k)) vis (u ++ u') a.
Proof. intros H1 H2 o. unfold bind. by rewrite H1, H2, app_assoc. Qed.

Lemma gives_puts {A B} (m : M A) (k : A → M B) vis a u b : gives m vis a → puts (k a) vis u b → puts (bind m k) vis u b.
Proof. intros H1 H2 o. unfold bind. by rewrite H1, H2. Qed.

Lemma puts_puts {A B} (m : M A) (k : A → M B) vis a u u' b : puts m vis u a → puts (k a) vis u' b → puts (bind m k) vis (u ++ u') b.
Proof. intros H1 H2 o. unfold bind. by rewrite H1, H2, app_assoc. Qed.

Lemma puts_raises {A B} (m : M A) (k : A → M B) vis a u : puts m vis u a → raises (k a) vis → raises (bind m k) vis.
Proof. intros H1 H2 o. unfold bind. rewrite H1. apply H2. Qed.

Lemma puts_writes {A} (m : M A) (k : A → M ()) vis a u u' : puts m vis u a → writes (k a) vis u' → writes (bind m k) vis (u ++ u').
Proof. intros H1 H2 o. unfold bind. by rewrite H1, H2, app_assoc. Qed.

(** What comes before the value of a member. *)
Definition member_head (level : nat) (first : bool) (key : list N) : list N :=
  (if first then [] else [44]) ++ new_line (S level) ++ stringify_string_units key ++ 58 :: (if has_space space then [32] else []).

Lemma member_puts w level vis first key v u : plain h v → writes (w v) vis u → puts (write_member host space w level first key v) vis (member_head level first key ++ u) false.
Proof.
  intros Hp Hw. destruct (plain_not_undefined v Hp) as (_ & Ho & _). unfold write_member, member_head. rewrite <- !app_assoc. cbn [app].
  apply (gives_puts _ _ _ false); [intros o; unfold asks; cbn [JsonText.host]; by rewrite Ho|]. apply writes_puts; [destruct first; [apply writes_ret|by apply writes_ascii; repeat constructor]|].
  unfold Plain.new_line. destruct (has_space space) eqn:Es.
  - pose proof (writes_indent vis (S level) Es) as Hi. unfold Plain.new_line in Hi. rewrite Es in Hi.
    replace ((10 :: mjoin (replicate (S level) space)) ++ stringify_string_units key ++ 58 :: [32] ++ u)
      with (((10 :: mjoin (replicate (S level) space)) ++ stringify_string_units key ++ [58] ++ [32]) ++ u ++ []) by (by rewrite app_nil_r, <- !app_assoc).
    apply writes_puts; [|apply writes_puts; [done|intros o; by rewrite app_nil_r]].
    apply writes_then; [done|]. apply writes_then; [apply writes_push|]. apply writes_then; by apply writes_ascii; repeat constructor.
  - replace ([] ++ stringify_string_units key ++ 58 :: [] ++ u) with ((stringify_string_units key ++ [58]) ++ u ++ []) by (by rewrite app_nil_r, <- !app_assoc).
    apply writes_puts; [|apply writes_puts; [done|intros o; by rewrite app_nil_r]]. apply writes_then; [apply writes_push|by apply writes_ascii; repeat constructor].
Qed.

Lemma member_raises w level vis first key v : plain h v → raises (w v) vis → raises (write_member host space w level first key v) vis.
Proof.
  intros Hp Hw. destruct (plain_not_undefined v Hp) as (_ & Ho & _). unfold write_member. apply (gives_raises _ _ _ false); [intros o; unfold asks; cbn [JsonText.host]; by rewrite Ho|].
  apply (writes_raises _ _ _ (if first then [] else [44])); [destruct first; [apply writes_ret|by apply writes_ascii; repeat constructor]|]. destruct (has_space space) eqn:Es.
  - eapply writes_raises; [|by apply raises_here]. apply writes_then; [by apply writes_indent|]. apply writes_then; [apply writes_push|]. apply writes_then; by apply writes_ascii; repeat constructor.
  - eapply writes_raises; [|by apply raises_here]. apply writes_then; [apply writes_push|by apply writes_ascii; repeat constructor].
Qed.

Definition member_pieces (level : nat) (ps : list (list N * Data)) : list (list N) := map (λ '(k, d), member_text space level k (text (S level) d)) ps.

Lemma member_pieces_cons i level k d ps :
  after i (member_pieces level ((k, d) :: ps)) = (member_head level (bool_decide (i = 0)%nat) k ++ text (S level) d) ++ after (S i) (member_pieces level ps).
Proof.
  unfold member_pieces. cbn [map]. rewrite after_cons. unfold member_head, member_text. case_bool_decide; cbn [app]; rewrite <- !app_assoc; cbn [app]; rewrite <- !app_assoc; cbn [app]; by rewrite <- ?app_assoc.
Qed.

Definition entry (i : nat) (k : list N) : list N * list N * option N := (k, k, Some (N.of_nat i)).

Section members.
Context (w : Value → M ()) (level : nat) (p : N) (vis : gset N).
#[local] Abbreviation get := (λ '((_, si, pos) : list N * list N * option N), match pos with
  | Some pos => read_json_property_value host p si pos | None => attempt host (ordinary_get host p si (VObject p)) end).
#[local] Abbreviation members := (write_members host None space w level p (λ e, e.1.1) get).

Lemma members_verdict rest : ∀ i, Forall (plain h) rest.*2 → Forall (verdict w vis (S level)) rest.*2 → (∀ j v, rest.*2 !! j = Some v → own_value h p (N.of_nat (i + j)) = v) →
  (∃ ds, Forall2 stands rest.*2 ds ∧
     puts (members (bool_decide (i = 0)%nat) (imap (λ j k, entry (i + j) k) rest.*1)) vis (after i (member_pieces level (zip rest.*1 ds))) (bool_decide (i = 0)%nat && bool_decide (rest = []))) ∨
  (raises (members (bool_decide (i = 0)%nat) (imap (λ j k, entry (i + j) k) rest.*1)) vis ∧ ∃ v, v ∈ rest.*2 ∧ ∀ d, stands v d → inside vis d).
Proof.
  induction rest as [|[k v] rest IH]; intros i Hp Hv Hget; cbn [fmap list_fmap imap write_members fst snd] in *.
  { left. exists []. split; [constructor|]. intros o. rewrite andb_true_r. unfold after. by case_bool_decide; rewrite app_nil_r. }
  inversion Hp as [|? ? Hp1 Hp2]; inversion Hv as [|? ? Hv1 Hv2]; subst.
  assert (gives (get (entry (i + 0) k)) vis v) as Hread by (intros o; specialize (Hget 0%nat v eq_refl); by rewrite <- Hget).
  assert (∀ A (body : option Value → M A), raises (body (Some v)) vis → raises (let! v := get (entry (i + 0) k) in let! v := call_to_json host v k in let! v := replace host None (VObject p) k v in body v) vis) as Hbefore.
  { intros A body Hb. apply (gives_raises _ _ _ v); [done|]. apply (gives_raises _ _ _ v); [apply gives_to_json|]. by apply (gives_raises _ _ _ (Some v)). }
  replace (imap ((λ j k0, entry (i + j) k0) ∘ S) rest.*1) with (imap (λ j k0, entry (S i + j) k0) rest.*1) by (apply imap_ext; intros; cbn; unfold entry; do 3 f_equal; lia).
  assert (raises (w v) vis → raises (members (bool_decide (i = 0)%nat) (entry (i + 0) k :: imap (λ j k0, entry (S i + j) k0) rest.*1)) vis) as Hfail.
  { intros Hr. cbn [write_members fst entry]. apply Hbefore. apply raises_here. by apply member_raises. }
  cbn [write_members fst entry] in Hfail.
  destruct Hv1 as [(d & Hd & Hd')|[Hr Hbad]]; [|right; split; [by apply Hfail|exists v; split; [by left|done]]].
  pose proof (member_puts w level vis (bool_decide (i = 0)%nat) k v _ Hp1 Hd') as Hm.
  destruct (IH (S i) Hp2 Hv2) as [(ds & Hds & Hrun)|[Hrun (x & Hx & Hbad)]].
  { intros j x Hj. rewrite Nat.add_succ_comm. by apply Hget. }
  - left. exists (d :: ds). split; [by constructor|]. cbn [zip]. rewrite member_pieces_cons, (bool_decide_false (_ :: _ = [])), andb_false_r by done.
    apply (gives_puts _ _ _ v); [done|]. apply (gives_puts _ _ _ v); [apply gives_to_json|]. apply (gives_puts _ _ _ (Some v)); [done|].
    eapply (puts_puts _ _ _ false); [exact Hm|]. rewrite (bool_decide_false (S i = 0)%nat) in Hrun by lia. exact Hrun.
  - right. split; [|exists x; split; [by right|done]]. apply Hbefore. eapply (puts_raises _ _ _ false); [exact Hm|]. rewrite (bool_decide_false (S i = 0)%nat) in Hrun by lia. exact Hrun.
Qed.
End members.

(** *** Values *)

Lemma writes_close vis level (b : bool) c : c < 128 → writes ((if has_space space && b then indent space level else ret ()) ;; push_ascii [c]) vis ((if b then new_line level else []) ++ [c]).
Proof.
  intros Hc. apply writes_then; [|apply writes_ascii; repeat constructor; done]. unfold Plain.new_line. destruct (has_space space) eqn:Es; cbn [andb]; [|destruct b; apply writes_ret].
  destruct b; [|apply writes_ret]. pose proof (writes_indent vis level Es) as H. unfold Plain.new_line in H. by rewrite Es in H.
Qed.

Lemma array_verdict w level p items vis : h !! p = Some (PArray items) → Forall (plain h) items → Forall (verdict w vis (S level)) items →
  (∃ ds, Forall2 stands items ds ∧ writes (stringify_array host None space w level p) vis (text level (DArray ds))) ∨
  (raises (stringify_array host None space w level p) vis ∧ ∃ v, v ∈ items ∧ ∀ d, stands v d → inside vis d).
Proof.
  intros Hh Hp Hv. assert (gives (asks (λ s, prop_count host s p)) vis (length items)) as Hlen by (intros o; unfold asks; cbn; by rewrite Hh).
  assert (writes (push_ascii [91]) vis [91]) as Hopen by (apply writes_ascii; repeat constructor; done). unfold stringify_array.
  destruct (elements_verdict w level p vis items 0 Hp Hv) as [(ds & Hds & Hrun)|[Hrun Hbad]].
  { intros k v Hk. unfold own_value. rewrite Hh. cbn. by rewrite Nat2N.id, Hk. }
  - left. exists ds. split; [done|]. cbn [Plain.text]. change (91 :: ?x) with ([91] ++ x). apply writes_then; [done|]. apply (gives_then _ _ _ (length items)); [done|]. apply writes_then; [exact Hrun|].
    pose proof (writes_close vis level (bool_decide (0 < length items)%nat) 93 ltac:(done)) as Hc. destruct Hds; exact Hc.
  - right. split; [|done]. eapply writes_raises; [done|]. apply (gives_raises _ _ _ (length items)); [done|]. by apply raises_here.
Qed.

Lemma object_keys p props : h !! p = Some (PObject props) → ∀ vis, gives (object_entries host None p) vis (imap (λ j k, entry (0 + j) k) props.*1).
Proof.
  intros Hh vis o. unfold object_entries, asks. cbn [JsonText.host]. do 2 f_equal. cbn [walk_own_keys enumerable key_units host]. rewrite Hh. cbn [fmap option_fmap option_map default keys_of].
  change (default [] (Some props.*1)) with props.*1.
  assert (∀ (l : list (list N * N)), filter (λ '(_, pos), true = true) l = l) as Hfil by (intros l; induction l as [|[k n] l IH]; [done|]; cbn; by f_equal). rewrite Hfil.
  generalize (fst <$> props). intros l. rewrite fmap_imap. apply imap_ext. by intros.
Qed.

Lemma object_verdict w level p props vis : h !! p = Some (PObject props) → Forall (plain h) props.*2 → Forall (verdict w vis (S level)) props.*2 →
  (∃ ds, Forall2 stands props.*2 ds ∧ writes (stringify_object host None None space w level p) vis (text level (DObject (zip props.*1 ds)))) ∨
  (raises (stringify_object host None None space w level p) vis ∧ ∃ v, v ∈ props.*2 ∧ ∀ d, stands v d → inside vis d).
Proof.
  intros Hh Hp Hv. pose proof (object_keys p props Hh vis) as Hkeys.
  assert (writes (push_ascii [123]) vis [123]) as Hopen by (apply writes_ascii; repeat constructor; done). unfold stringify_object.
  destruct (members_verdict w level p vis props 0 Hp Hv) as [(ds & Hds & Hrun)|[Hrun Hbad]].
  { intros k v Hk. unfold own_value. rewrite Hh. cbn. by rewrite Nat2N.id, Hk. }
  - left. exists ds. split; [done|]. cbn [Plain.text]. change (123 :: ?x) with ([123] ++ x). apply writes_then; [done|]. eapply gives_then; [done|]. eapply puts_writes; [exact Hrun|].
    rewrite bool_decide_true by done. cbn [andb]. unfold finish_members. pose proof (writes_close vis level (negb (bool_decide (props = []))) 125 ltac:(done)) as Hc.
    destruct props as [|[k v] props]; [by destruct ds|]. destruct ds as [|d ds]; [inversion Hds|]. exact Hc.
  - right. split; [|done]. eapply writes_raises; [done|]. eapply gives_raises; [done|]. by apply raises_here.
Qed.

(** Leaving an object again. *)
Lemma writes_inside (m : M ()) p vis u : p ∉ vis → writes m ({[p]} ∪ vis) u → ∀ o, (m ;; leave p) (mkSt h ({[p]} ∪ vis) o) = (mkSt h vis (o ++ u), Done ()).
Proof. intros Hp Hm o. unfold bind, leave. rewrite Hm. cbn [JsonText.host visited out]. do 2 f_equal. set_solver. Qed.

Lemma enter_smaller p vis : p ∈ dom h → p ∉ vis → (size (dom h ∖ ({[p]} ∪ vis)) < size (dom h ∖ vis))%nat.
Proof. intros Hp Hv. apply subset_size. split; [set_solver|]. intros H. specialize (H p). set_solver. Qed.

(** A bad item makes its container bad. *)
Lemma inside_container vis p d v dv : stands (VObject p) d → stands v dv → (dsize dv < dsize d)%nat → inside ({[p]} ∪ vis) dv → inside vis d.
Proof.
  intros Hd Hv Hs (q & d' & Hq & Hd' & Hle). apply elem_of_union in Hq as [->%elem_of_singleton|Hq]; [rewrite (stands_fun _ _ _ Hd Hd') in Hs; lia|]. exists q, d'. split_and!; (done || lia).
Qed.

Lemma forall2_elem vs ds v : Forall2 stands vs ds → v ∈ vs → ∃ d, d ∈ ds ∧ stands v d.
Proof. intros Hf Hv. apply list_elem_of_lookup in Hv as [i Hi]. destruct (Forall2_lookup_l _ _ _ _ _ Hf Hi) as (d & Hd & Hs). exists d. split; [by eapply list_elem_of_lookup_2|done]. Qed.

Lemma container_verdict fuel level p vis : (∀ level v, plain h v → verdict (write fuel level) ({[p]} ∪ vis) level v) → plain_heap h → p ≠ 0 → is_Some (h !! p) → p ∉ vis →
  verdict (write (S fuel) level) vis level (VObject p).
Proof.
  intros IH Hh H0 [o Ho] Hp. unfold verdict. pose proof (Hh p o Ho) as Hitems.
  assert (∀ q, is_array host h q = match h !! q with Some (PArray _) => true | _ => false end) as Harr by done.
  assert (∀ st u (m : M ()), (if is_array host h p then stringify_array host None space (write fuel (S level)) level p else stringify_object host None None space (write fuel (S level)) level p) = m →
    (m ;; leave p) (mkSt h ({[p]} ∪ vis) u) = st → write (S fuel) level (VObject p) (mkSt h vis u) = st) as Hunf.
  { intros st u m <- <-. cbn [jsvalue_to_json write_object]. unfold write_object. rewrite (proj2 (N.eqb_neq p 0) H0). unfold bind at 1. cbn [asks JsonText.host is_raw_json_obj host]. unfold bind at 1, enter. cbn [visited].
    rewrite bool_decide_false by done. cbn [negb]. unfold write_container. unfold bind at 1 2 3 4 5 6. cbn [asks JsonText.host is_number_obj is_boolean_obj boxed_value is_string_obj is_typed_array_obj host Coercion.is_bigint].
    cbn [out]. unfold bind at 1 2. cbn [asks JsonText.host]. by destruct (is_array host h p). }
  assert (Forall (verdict (write fuel (S level)) ({[p]} ∪ vis) (S level)) (items_of o)) as Hv by (eapply Forall_impl; [exact Hitems|]; intros v Hpv; by apply IH).
  rewrite Harr, Ho in Hunf. destruct o as [items|props]; cbn [items_of] in *.
  - destruct (array_verdict (write fuel (S level)) level p items _ Ho Hitems Hv) as [(ds & Hds & Hrun)|[Hrun (v & Hin & Hbad)]].
    + left. exists (DArray ds). split; [by econstructor|]. intros u. eapply Hunf; [done|]. by apply writes_inside.
    + right. split; [intros u; destruct (raises_here _ (λ _, leave p) _ Hrun u) as [st E]; exists st; by eapply Hunf|]. intros d Hd. inversion Hd as [| | | | | |q items' ds Hq Hqo Hds|]; subst; [|congruence]. simplify_eq.
      destruct (forall2_elem _ _ _ Hds Hin) as (dv & Hdv & Hsv). eapply (inside_container vis p _ v dv); [done|done|by apply dsize_item|by apply Hbad].
  - destruct (object_verdict (write fuel (S level)) level p props _ Ho Hitems Hv) as [(ds & Hds & Hrun)|[Hrun (v & Hin & Hbad)]].
    + left. exists (DObject (zip props.*1 ds)). split; [by econstructor|]. intros u. eapply Hunf; [done|]. by apply writes_inside.
    + right. split; [intros u; destruct (raises_here _ (λ _, leave p) _ Hrun u) as [st E]; exists st; by eapply Hunf|]. intros d Hd. inversion Hd as [| | | | | | |q props' ds Hq Hqo Hds]; subst; [congruence|]. simplify_eq.
      destruct (forall2_elem _ _ _ Hds Hin) as (dv & Hdv & Hsv). eapply (inside_container vis p _ v dv); [done|done| |by apply Hbad]. apply dsize_prop; [|done]. apply Forall2_length in Hds. by rewrite !length_fmap in *.
Qed.

Lemma value_verdict fuel : ∀ level v vis, plain_heap h → plain h v → (size (dom h ∖ vis) < fuel)%nat → verdict (write fuel level) vis level v.
Proof.
  induction fuel as [|fuel IH]; intros level v vis Hh Hp Hf; [lia|]. destruct v as [p|p].
  - left. destruct p; cbn [plain] in Hp; try done.
    + eexists. split; [constructor|]. intros o. by cbn.
    + destruct (F64.is_finite bits) eqn:Ef; eexists; (split; [by constructor|]); intros o; cbn [jsvalue_to_json]; unfold write_finite; rewrite Ef; by cbn.
    + eexists. split; [constructor|]. intros o. cbn. by destruct b.
    + eexists. split; [constructor|]. intros o. by cbn.
    + eexists. split; [constructor|]. intros o. by cbn.
  - destruct Hp as [H0 Ho]. destruct (decide (p ∈ vis)) as [Hin|Hin].
    + right. split; [|intros d Hd; exists p, d; by split_and!]. intros o. eexists. cbn [jsvalue_to_json]. unfold write_object. rewrite (proj2 (N.eqb_neq p 0) H0). unfold bind at 1. cbn [asks JsonText.host is_raw_json_obj host].
      unfold bind at 1, enter. cbn [visited]. rewrite bool_decide_true by done. done.
    + apply container_verdict; [|done|done|done|done]. intros level' v' Hp'. apply IH; [done|done|]. pose proof (enter_smaller p vis ltac:(by apply elem_of_dom) Hin). lia.
Qed.
End plain.
End PlainFacts.

(** ** Reading the text back *)

Module RoundTrip.
Import JsonText Plain PlainFacts Json Grammar JsonFacts.

#[local] Abbreviation all_chars := (Forall (λ c, is_char c = true)).

(** The tree that a reader makes of data: strings of whole characters, numbers whose
    text is a number in range, at most [n] containers inside one another. *)
Inductive denotes : nat → Data → JsonNode → Prop :=
  | D_null n s : denotes n DNull (mkNode Null s)
  | D_bool n b s : denotes n (DBool b) (mkNode (Bool b) s)
  | D_number n t x s : number_text t → Coercion.parse_f64 t = Some x → F64.is_finite x = true → denotes n (DNumber t) (mkNode (Number x) s)
  | D_string n text s : all_chars text → denotes n (DString (utf16 text)) (mkNode (String text) s)
  | D_array n ds vs : Forall2 (denotes n) ds vs → denotes (S n) (DArray ds) (mkNode (Array vs) None)
  | D_object n keys ds vs : Forall all_chars keys → length keys = length ds → Forall2 (denotes n) ds vs →
      denotes (S n) (DObject (zip (utf16 <$> keys) ds)) (mkNode (Object (zip keys vs)) None).

Lemma utf16_app a b : utf16 (a ++ b) = utf16 a ++ utf16 b.
Proof. unfold utf16. apply bind_app. Qed.

Lemma utf16_small t : Forall (λ c, c <= 0xFFFF) t → utf16 t = t.
Proof. induction 1 as [|c t Hc _ IH]; [done|]. change (c :: t) with ([c] ++ t) at 1. rewrite utf16_app, IH. unfold utf16. cbn [mbind list_bind app]. by destruct (N.ltb_spec 0xFFFF c); [lia|]. Qed.

Lemma from_utf16_utf16 s : all_chars s → from_utf16 (utf16 s) = Some s.
Proof. induction 1 as [|c s Hc _ IH]; [done|]. change (c :: s) with ([c] ++ s) at 1. by rewrite utf16_app, from_utf16_char, IH. Qed.

Lemma lossy_utf16 s : all_chars s → Coercion.lossy (utf16 s) = s.
Proof.
  induction 1 as [|c s Hc _ IH]; [done|]. change (c :: s) with ([c] ++ s) at 1. rewrite utf16_app. unfold utf16 at 1. cbn [mbind list_bind app]. rewrite app_nil_r. apply is_char_true in Hc as Hr.
  destruct (N.ltb_spec 0xFFFF c) as [Hl|Hl]; cbn [app Coercion.lossy].
  - destruct (halves_pair c) as (H1 & H2 & H3); [lia|]. rewrite H1, H2. cbn [andb]. by rewrite H3, IH.
  - assert (is_surrogate c = false) as Hs by (apply in_range_false; lia). assert (is_high c = false) as Hh by (apply in_range_false; lia).
    rewrite Hs, Hh. cbn [andb]. destruct (utf16 s); [cbn in IH; by subst s|by rewrite IH].
Qed.

(** *** Strings *)

Definition quote_char (c : N) : list N := if 0xFFFF <? c then [c] else escape_unit c.

Lemma escape_small u : u <= 0xFFFF → Forall (λ c, c <= 0xFFFF) (escape_unit u).
Proof.
  intros Hu. unfold escape_unit. do 7 (destruct (_ =? _); [by repeat constructor|]). destruct (_ || _); [|by repeat constructor]. assert (∀ d, hex_lower d <= 87 + d) as Hh by (intros d; unfold hex_lower; destruct (d <? 10); lia).
  repeat constructor; try done; (etransitivity; [apply Hh|]); first [pose proof (N.mod_lt (u / 256) 16 ltac:(done)); lia|pose proof (N.mod_lt (u / 16) 16 ltac:(done)); lia|pose proof (N.mod_lt u 16 ltac:(done)); lia|idtac].
  pose proof (N.div_le_mono u 0xFFFF 4096 ltac:(done) Hu) as Hd. change (0xFFFF / 4096) with 15 in Hd. lia.
Qed.

Lemma escape_utf16 s : all_chars s → escape_units (utf16 s) = utf16 (s ≫= quote_char).
Proof.
  induction 1 as [|c s Hc _ IH]; [done|]. change (c :: s) with ([c] ++ s) at 1. rewrite utf16_app. cbn [mbind list_bind]. rewrite utf16_app, <- IH. apply is_char_true in Hc. unfold quote_char, utf16 at 1 3. cbn [mbind list_bind app].
  destruct (N.ltb_spec 0xFFFF c) as [Hl|Hl]; cbn [app mbind list_bind].
  - rewrite (proj2 (N.ltb_lt _ _) Hl). cbn [app escape_units]. destruct (halves_pair c) as (H1 & H2 & _); [lia|]. by rewrite H1, H2.
  - assert (is_high c = false) as Hh by (apply in_range_false; lia). pose proof (utf16_small _ (escape_small c Hl)) as Eu. unfold utf16 in Eu at 1. cbn [mbind] in Eu. rewrite Eu.
    cbn [escape_units]. rewrite Hh. destruct (utf16 s); [by rewrite app_nil_r|done].
Qed.

Lemma hex4_value_ok u : u < 2^16 → hex_value (hex4 u) u.
Proof.
  intros Hu. destruct (hex4_digits u Hu) as (H1 & H2 & H3 & H4 & E). split; [done|]. intros rest. unfold parse_hex4, hex4. cbn [app parse_hex].
  rewrite (proj1 (to_digit16_lower _ H1)), (proj1 (to_digit16_lower _ H2)), (proj1 (to_digit16_lower _ H3)), (proj1 (to_digit16_lower _ H4)). do 2 f_equal. rewrite <- E at 5. cbn. lia.
Qed.

Lemma quote_chars pair c t u : is_char c = true → chars pair t u → chars pair (quote_char c ++ t) (utf16 [c] ++ u).
Proof.
  intros Hc Ht. unfold quote_char. destruct (N.ltb_spec 0xFFFF c) as [Hl|Hl]; [by apply C_plain; try lia|]. assert (utf16 [c] = [c]) as Eu by (apply utf16_small; by repeat constructor).
  apply is_char_true in Hc. unfold escape_unit. repeat match goal with |- context [if ?x =? ?y then _ else _] => destruct (N.eqb_spec x y) as [->|]; [by apply C_escape|] end.
  assert (is_surrogate c = false) as Hs by (apply in_range_false; lia). rewrite Hs, orb_false_r. destruct (in_range 0 0x1F c || in_range 0x7F 0x9F c) eqn:Er.
  - rewrite Eu. cbn [app]. apply C_unicode; [apply hex4_value_ok; change (2^16) with 65536; lia|done|done].
  - apply orb_false_iff in Er as [E1%in_range_false _]. cbn [app]. by apply C_plain; try lia.
Qed.

Lemma quoted pair s : all_chars s → string_text pair (34 :: (s ≫= quote_char) ++ [34]) s.
Proof.
  intros Hs. exists (s ≫= quote_char), (utf16 s). split_and!; [done| |by apply from_utf16_utf16]. induction Hs as [|c s Hc _ IH]; [constructor|]. cbn [mbind list_bind].
  change (c :: s) with ([c] ++ s) at 1. rewrite utf16_app. by apply quote_chars.
Qed.

Lemma stringify_quoted s : all_chars s → stringify_string_units (utf16 s) = utf16 (34 :: (s ≫= quote_char) ++ [34]).
Proof. intros Hs. unfold stringify_string_units. rewrite escape_utf16 by done. change (34 :: ?x) with ([34] ++ x). by rewrite !utf16_app. Qed.

Lemma escape_chars c : is_char c = true → all_chars (quote_char c).
Proof.
  intros Hc. unfold quote_char. destruct (N.ltb_spec 0xFFFF c) as [Hl|Hl]; [by repeat constructor|]. unfold escape_unit. do 7 (destruct (_ =? _); [by repeat constructor|]).
  destruct (_ || _); [|by repeat constructor]. assert (∀ d, d < 16 → is_char (hex_lower d) = true) as Hh by (intros d Hd; apply is_char_true; unfold hex_lower; destruct (d <? 10); lia).
  assert (c < 2^16) as Hlt by (change (2^16) with 65536; lia). destruct (hex4_digits c Hlt) as (H1 & H2 & H3 & H4 & _). repeat constructor; auto.
Qed.

Lemma quoted_chars s : all_chars s → all_chars (34 :: (s ≫= quote_char) ++ [34]).
Proof. intros Hs. constructor; [done|]. apply Forall_app. split; [|by repeat constructor]. induction Hs as [|c s Hc _ IH]; [constructor|]. cbn. apply Forall_app. split; [by apply escape_chars|done]. Qed.

(** *** Containers *)

Section reading.
Variable space : list N.
Hypothesis ws_space : ws space.

Lemma ws_small w : ws w → utf16 w = w ∧ all_chars w.
Proof.
  intros Hw. assert (Forall (λ c, c < 128) w) as Hl.
  { eapply Forall_impl; [exact Hw|]. intros c Hc. unfold is_ws in Hc. rewrite bool_decide_eq_true, !elem_of_cons, elem_of_nil in Hc. cbv beta. lia. }
  split; [apply CoercionFacts.utf16_ascii; done|]. eapply Forall_impl; [exact Hl|]. intros c Hc. apply is_char_true. cbv beta in Hc. lia.
Qed.

Lemma ws_line n : ws (new_line space n).
Proof. unfold new_line. destruct (has_space space); [|constructor]. constructor; [done|]. induction n as [|n IH]; [constructor|]. cbn. apply Forall_app. by split. Qed.

(** The texts of items: [t] is read as [v], the tree of [d]. *)
Definition item_ok (n level : nat) (d : Data) (t : list N) (v : JsonNode) : Prop :=
  text space level d = utf16 t ∧ value truncated n t v ∧ denotes n d v ∧ all_chars t.

Lemma join_cons x y l : join (x :: y :: l) = x ++ 44 :: join (y :: l).
Proof. done. Qed.

Lemma elements_text n level ds ts vs close : ws close → Forall3 (item_ok n (S level)) ds ts vs → ds ≠ [] → ∃ t,
  join (map (λ d, new_line space (S level) ++ text space (S level) d) ds) ++ close = utf16 t ∧ elements truncated n t vs ∧ all_chars t.
Proof.
  intros Hc H. destruct (ws_small _ (ws_line (S level))) as [Ew Cw], (ws_small _ Hc) as [Ec Cc]. induction H as [|d t v ds ts vs (Et & Hv & _ & Ct) H IH]; intros Hne; [done|]. destruct H as [|d' t' v' ds ts vs Hi H].
  - exists (new_line space (S level) ++ t ++ close). cbn [map join fmap list_fmap mjoin list_join]. rewrite app_nil_r, Et, !utf16_app, Ew, Ec, <- app_assoc. split_and!; [done|by constructor; [apply ws_line|..]|by rewrite !Forall_app].
  - destruct IH as (t1 & E1 & He & C1); [done|]. exists (new_line space (S level) ++ t ++ [] ++ 44 :: t1). cbn [map] in *. rewrite join_cons. split_and!.
    + rewrite !utf16_app. change (44 :: t1) with ([44] ++ t1). rewrite !utf16_app, Ew, <- E1, Et, <- !app_assoc. done.
    + apply E_more; [apply ws_line|done|constructor|done].
    + rewrite !Forall_app. split_and!; [done|done|constructor|]. by constructor.
Qed.

Lemma members_text n level keys ds ts vs close : ws close → Forall all_chars keys → length keys = length ds → Forall3 (item_ok n (S level)) ds ts vs → ds ≠ [] → ∃ t,
  join (map (λ '(k, d), member_text space level k (text space (S level) d)) (zip (utf16 <$> keys) ds)) ++ close = utf16 t ∧ members truncated n t (zip keys vs) ∧ all_chars t.
Proof.
  intros Hc Hk Hl H. destruct (ws_small _ (ws_line (S level))) as [Ew Cw], (ws_small _ Hc) as [Ec Cc]. set (gap := if has_space space then [32] else [] : list N).
  assert (ws gap ∧ utf16 gap = gap ∧ all_chars gap) as (Wg & Eg & Cg) by (subst gap; destruct (has_space space); split_and!; by repeat constructor).
  revert keys Hk Hl. induction H as [|d t v ds ts vs (Et & Hv & _ & Ct) H IH]; intros [|k keys] Hk Hl Hne; try done. inversion Hk as [|? ? Hk1 Hk2]; subst. injection Hl as Hl.
  pose proof (quoted truncated k Hk1) as Hq. pose proof (quoted_chars k Hk1) as Cq. pose proof (stringify_quoted k Hk1) as Eq. set (q := 34 :: _) in Hq, Cq, Eq.
  destruct H as [|d' t' v' ds ts vs Hi H].
  - destruct keys; [|done]. exists (new_line space (S level) ++ q ++ [] ++ 58 :: gap ++ t ++ close). cbn [fmap list_fmap zip map join mjoin list_join]. split_and!.
    + unfold member_text. fold gap. rewrite app_nil_r, !utf16_app. change (58 :: gap ++ t ++ close) with ([58] ++ gap ++ t ++ close). rewrite !utf16_app, Ew, Ec, Eg, <- Et, <- Eq, <- !app_assoc. cbn [app]. by rewrite <- !app_assoc.
    + cbn [zip]. apply M_last; (done || apply ws_line || constructor).
    + rewrite !Forall_app. split_and!; [done|done|constructor|]. constructor; [done|]. by rewrite !Forall_app.
  - destruct keys as [|k' keys]; [done|]. destruct (IH (k' :: keys)) as (t1 & E1 & He & C1); [done|done|done|]. exists (new_line space (S level) ++ q ++ [] ++ 58 :: gap ++ t ++ [] ++ 44 :: t1).
    cbn [fmap list_fmap zip map] in *. rewrite join_cons. split_and!.
    + unfold member_text at 1. fold gap. rewrite !utf16_app. change (58 :: gap ++ t ++ [] ++ 44 :: t1) with ([58] ++ gap ++ t ++ [44] ++ t1). rewrite !utf16_app, Ew, Eg, <- Et, <- Eq, <- E1, <- !app_assoc. cbn [app]. by rewrite <- !app_assoc.
    + cbn [zip]. apply M_more; (done || apply ws_line || constructor).
    + rewrite !Forall_app. split_and!; [done|done|constructor|]. constructor; [done|]. rewrite !Forall_app. split_and!; [done|done|constructor|]. by constructor.
Qed.

Lemma items_ok n ds : Forall (λ d, ∀ n level node, denotes n d node → ∃ t v, item_ok n level d t v) ds → ∀ vs level, Forall2 (denotes n) ds vs → ∃ ts vs', Forall3 (item_ok n level) ds ts vs'.
Proof.
  induction 1 as [|d ds Hd _ IH]; intros vs level Hf; inversion Hf; subst; [exists [], []; constructor|]. destruct (Hd n level y) as (t & v & Hi); [done|]. destruct (IH l' level) as (ts & vs' & H'); [done|].
  exists (t :: ts), (v :: vs'). by constructor.
Qed.

Lemma ascii_chars t : Forall (λ c, c < 128) t → all_chars t.
Proof. intros H. eapply Forall_impl; [exact H|]. intros c Hc. apply is_char_true. cbn in Hc. lia. Qed.

Lemma number_ascii t : number_text t → Forall (λ c, c < 128) t.
Proof.
  assert (∀ c, Coercion.is_digit c = true → c < 128) as Hd by (intros c Hc%in_range_true; lia).
  intros (sign & i & f & e & -> & Hs & Hi & Hf & He). rewrite !Forall_app. split_and!.
  - rewrite !elem_of_cons, elem_of_nil in Hs. destruct Hs as [->|[->|[]]]; by repeat constructor.
  - destruct Hi as [->|(c & ds & -> & Hc & Hds)]; [by repeat constructor|]. apply in_range_true in Hc. constructor; [lia|]. by eapply Forall_impl.
  - destruct Hf as [->|(ds & -> & Hds & _)]; [constructor|]. constructor; [done|]. by eapply Forall_impl.
  - destruct He as [->|(c & s & ds & -> & Hc & Hs' & Hds & _)]; [constructor|]. constructor; [by destruct (is_e_cases c Hc) as [-> | ->]|]. apply Forall_app. split; [|by eapply Forall_impl].
    rewrite !elem_of_cons, elem_of_nil in Hs'. destruct Hs' as [->|[->|[->|[]]]]; by repeat constructor.
Qed.

Lemma denotes_text d : ∀ n level node, denotes n d node → ∃ t v, item_ok n level d t v.
Proof.
  induction d as [|b|t0|u|ds IH|ps IH] using data_ind; intros n level node Hd; inversion Hd as [| |? t x s Ht Hx Hf|? s ? Hs|n0 ds1 vs Hvs|n0 keys es vs Hkeys Hl Hvs]; subst.
  - exists (bytes_of "null"). eexists. split_and!; [by vm_compute|constructor|constructor|by repeat constructor].
  - destruct b; [exists (bytes_of "true")|exists (bytes_of "false")]; eexists; (split_and!; [by vm_compute|constructor|constructor|by repeat constructor]).
  - exists t0. eexists. split_and!; [done|by constructor|by constructor|by apply ascii_chars, number_ascii].
  - exists (34 :: (s ≫= quote_char) ++ [34]). eexists. split_and!; [by apply stringify_quoted|constructor; by apply quoted|by constructor|by apply quoted_chars].
  - destruct (items_ok _ _ IH _ (S level) Hvs) as (ts & vs' & H). assert (Forall2 (denotes n0) ds vs') as Hv' by (clear -H; induction H as [|? ? ? ? ? ? (_ & _ & ? & _)]; constructor; done).
    destruct (decide (ds = [])) as [->|Hne].
    + inversion H; subst. exists (91 :: [] ++ [93]). eexists. split_and!; [done|apply V_array0; constructor|by constructor|by repeat constructor].
    + destruct (elements_text n0 level ds ts vs' (new_line space level) (ws_line level) H Hne) as (t & Et & He & Ct). exists (91 :: t ++ [93]). eexists. split_and!; [|by apply V_array|by constructor|].
      * cbn [text]. destruct ds; [done|]. rewrite app_assoc, Et. change (91 :: t ++ [93]) with ([91] ++ t ++ [93]). by rewrite !utf16_app.
      * constructor; [done|]. apply Forall_app. split; [done|by repeat constructor].
  - rewrite snd_zip in IH by (rewrite length_fmap; lia). destruct (items_ok _ _ IH _ (S level) Hvs) as (ts & vs' & H).
    assert (Forall2 (denotes n0) es vs') as Hv' by (clear -H; induction H as [|? ? ? ? ? ? (_ & _ & ? & _)]; constructor; done).
    destruct (decide (es = [])) as [->|Hne].
    + inversion H; subst. destruct keys; [|done]. exists (123 :: [] ++ [125]). eexists. split_and!; [done|apply V_object0; constructor|by apply (D_object n0 [] [] [])|by repeat constructor].
    + destruct (members_text n0 level keys es ts vs' (new_line space level) (ws_line level) Hkeys Hl H Hne) as (t & Et & He & Ct). exists (123 :: t ++ [125]). eexists. split_and!; [|by apply V_object|by constructor|].
      * cbn [text]. destruct es as [|e es], keys as [|k keys]; try done. cbn [fmap list_fmap zip map] in Et |- *. rewrite app_assoc, Et. change (123 :: t ++ [125]) with ([123] ++ t ++ [125]). by rewrite !utf16_app.
      * constructor; [done|]. apply Forall_app. split; [done|by repeat constructor].
Qed.
End reading.
End RoundTrip.

Module IntegerText.
Import Json Grammar RoundTrip Plain.

Lemma decimal_Z_shape z : Coercion.decimal_Z z = (if (z <? 0)%Z then [45] else []) ++ Coercion.decimal (Z.to_N (Z.abs z)).
Proof. unfold Coercion.decimal_Z. destruct (Z.ltb_spec z 0); [rewrite Z.abs_neq by lia|rewrite Z.abs_eq by lia]; done. Qed.

(** Small integers are numbers a reader takes. *)
Lemma denotes_int n z s : (Z.abs z < 2^53)%Z → denotes n (DNumber (Coercion.decimal_Z z)) (mkNode (Number (F64.of_Z z)) s).
Proof.
  intros Hz. destruct (CoercionFacts.decimal_ok (Z.to_N (Z.abs z))) as (Ev & Hd & Hne & H0). rewrite Z2N.id in Ev by lia. constructor.
  - rewrite decimal_Z_shape. exists (if (z <? 0)%Z then [45] else []), (Coercion.decimal (Z.to_N (Z.abs z))), [], []. rewrite !app_nil_r. split_and!; [done| | |by left|by left].
    + destruct (z <? 0)%Z; repeat constructor.
    + destruct (Coercion.decimal _) as [|c ds]; [done|]. inversion Hd as [|? ? Hc Hds]; subst. destruct (decide (c = 48)) as [->|Hc0]; [left; by destruct (H0 ds eq_refl) as [_ ->]|right].
      exists c, ds. split_and!; [done| |done]. apply in_range_true in Hc. apply in_range_true. lia.
  - rewrite decimal_Z_shape, (CoercionFacts.parse_digits (z <? 0)%Z) by done. rewrite Ev, CoercionFacts.nearest_int by (lia || (intros ?%Z.ltb_lt; lia)). do 2 f_equal. destruct (Z.ltb_spec z 0); cbn [cond_Zopp]; lia.
  - pose proof (F64Facts.of_Z_int z Hz) as Hi. by apply (NumberFacts.int_finite _ z).
Qed.
End IntegerText.

Import JsonText Plain PlainFacts RoundTrip.

(** [JSON.stringify] of a value with a gap. *)
Definition stringify (ryu : N → list N) (h : heap) (v : Value) (gap : list N) : Outcome (Exc := Empty_set) Value :=
  (json_stringify host ryu (S (size h)) [v; undefined; VPrim (PString gap)] (mkSt h ∅ [])).2.

Lemma stringify_eq ryu h v gap : plain h v → stringify ryu h v gap =
  match jsvalue_to_json host ryu None None (take 10 gap) (S (size h)) 0 v (mkSt h ∅ []) with
  | (st, Done _) => Done (VPrim (PString (out st))) | (_, Raised e) => Raised e | (_, OutOfFuel) => OutOfFuel
  end.
Proof.
  intros Hp. destruct (plain_not_undefined h v Hp) as (_ & Ho & _). unfold stringify, json_stringify, undefined. unfold bind at 1 2 3. cbn [read_replacer process_space ret on_host JsonText.host create_wrapper host].
  unfold bind at 1. cbn [visited out]. rewrite (gives_to_json h ∅ v [] []). unfold bind at 1, ret. unfold bind at 1, asks. cbn [JsonText.host]. rewrite Ho.
  destruct (jsvalue_to_json _ _ _ _ _ _ _ _ _) as [st [a|e|]]; done.
Qed.

Lemma stringify_cases ryu h v gap : plain_heap h → plain h v →
  (∃ d, stands ryu h v d ∧ stringify ryu h v gap = Done (VPrim (PString (text (take 10 gap) 0 d)))) ∨ ((∀ d, ¬ stands ryu h v d) ∧ stringify ryu h v gap = Raised CIRCULAR).
Proof.
  intros Hh Hp. rewrite stringify_eq by done. assert (size (dom h ∖ ∅) < S (size h))%nat as Hf by (rewrite difference_empty_L; pose proof (size_dom (M := gmap N) (D := gset N) h); unfold heap in *; lia).
  destruct (value_verdict ryu h (take 10 gap) (S (size h)) 0 v ∅ Hh Hp Hf) as [(d & Hd & Hw)|[Hr Hbad]]; [left|right].
  - exists d. split; [done|]. by rewrite (Hw []).
  - split; [intros d Hd; destruct (Hbad d Hd) as (q & _ & Hq & _); by apply not_elem_of_empty in Hq|]. by destruct (Hr []) as [st ->].
Qed.

(** C20: [JSON.stringify] of plain data ends, within a nesting of one more than the
    number of objects; it gives the text of the data exactly when no object
    contains itself, and raises the TypeError for cyclic structures otherwise,
    also where an object occurs many times without a cycle. *)
Theorem stringify_exact ryu h v gap : plain_heap h → plain h v →
  ((∃ d, stands ryu h v d) ↔ ∃ u, stringify ryu h v gap = Done (VPrim (PString u))) ∧
  (∀ d, stands ryu h v d → stringify ryu h v gap = Done (VPrim (PString (text (take 10 gap) 0 d)))) ∧
  ((∀ d, ¬ stands ryu h v d) ↔ stringify ryu h v gap = Raised CIRCULAR).
Proof.
  intros Hh Hp. destruct (stringify_cases ryu h v gap Hh Hp) as [(d & Hd & E)|[Hn E]]; rewrite E.
  - split_and!; [split; [by eexists|by exists d]|intros d' Hd'; by rewrite (stands_fun _ _ _ _ _ Hd Hd')|split; [intros Hn; by destruct (Hn d)|done]].
  - split_and!; [split; [intros [d Hd]; by destruct (Hn d)|by intros [u Hu]]|intros d Hd; by destruct (Hn d)|done].
Qed.

(** C19: Reading back what was written: when the data is a tree of strings without lone surrogates,
    numbers in range and at most 128 containers deep, and the gap is white
    space, [JSON.parse] of the text that [JSON.stringify] gives is that tree. *)
Theorem json_roundtrip ryu h v gap d node : plain_heap h → plain h v → stands ryu h v d → denotes Json.MAX_JSON_DEPTH d node → Grammar.ws gap →
  ∃ u node', stringify ryu h v gap = Done (VPrim (PString u)) ∧ Json.parse_json (Coercion.lossy u) = Ok node' ∧ denotes Json.MAX_JSON_DEPTH d node'.
Proof.
  intros Hh Hp Hd Hn Hg. destruct (stringify_cases ryu h v gap Hh Hp) as [(d' & Hd' & E)|[Hno _]]; [|by destruct (Hno d)]. rewrite (stands_fun _ _ _ _ _ Hd Hd') in *.
  assert (Grammar.ws (take 10 gap)) as Hg' by by apply Forall_take. destruct (denotes_text (take 10 gap) Hg' d' _ 0 _ Hn) as (t & node' & Et & Hv & Hn' & Hc).
  exists (text (take 10 gap) 0 d'), node'. split_and!; [done| |done]. rewrite Et, lossy_utf16 by done. apply JsonFacts.parse_json_iff. exists [], t, []. rewrite app_nil_r. split_and!; (done || constructor).
Qed.

(** *** Examples *)

(** [{"a": [1, {}, {}], "b": "x"}], with one object twice. *)
Definition demo : gmap N Obj := {[1 := PObject [([97], VObject 2); ([98], VPrim (PString [120]))]; 2 := PArray [VPrim (PInt 1); VObject 3; VObject 3]; 3 := PObject []]}.
Definition demo_data : Data := DObject [([97], DArray [DNumber (Coercion.decimal_Z 1); DObject []; DObject []]); ([98], DString [120])].

(** An array that contains itself. *)
Definition loop : gmap N Obj := {[1 := PArray [VPrim PNull; VObject 1]]}.

Lemma demo_plain : plain_heap demo ∧ plain demo (VObject 1).
Proof.
  split; [|split; [done|by eexists]]. assert (map_Forall (λ _ o, Forall (plain demo) (items_of o)) demo) as H; [|intros p o Ho; exact (H p o Ho)].
  unfold demo at 2. repeat apply map_Forall_insert_2; [..|apply map_Forall_empty]; cbn [items_of fmap list_fmap snd]; repeat first [apply Forall_nil_2|apply Forall_cons_2|split]; try done; by eexists.
Qed.

Lemma demo_stands ryu : stands ryu demo (VObject 1) demo_data.
Proof.
  assert (stands ryu demo (VObject 3) (DObject [])) as H3 by (by apply (S_object ryu demo 3 [] [])).
  apply (S_object ryu demo 1 [([97], VObject 2); ([98], VPrim (PString [120]))] [DArray [DNumber (Coercion.decimal_Z 1); DObject []; DObject []]; DString [120]]); [done|done|].
  repeat constructor. apply (S_array ryu demo 2 [VPrim (PInt 1); VObject 3; VObject 3]); [done|done|]. by repeat constructor.
Qed.

Lemma demo_denotes : ∃ node, denotes Json.MAX_JSON_DEPTH demo_data node.
Proof.
  eexists. apply (D_object 127 [[97]; [98]] [DArray [DNumber (Coercion.decimal_Z 1); DObject []; DObject []]; DString [120]]); [by repeat constructor|done|]. constructor; [|constructor; [|constructor]].
  - assert (∀ n, denotes (S n) (DObject []) (Json.mkNode (Json.Object []) None)) as He by (intros n; by apply (D_object n [] [] [])).
    apply (D_array 126 _ [Json.mkNode (Json.Number (F64.of_Z 1)) None; Json.mkNode (Json.Object []) None; Json.mkNode (Json.Object []) None]).
    constructor; [by apply IntegerText.denotes_int|]. by repeat constructor.
  - by apply (D_string 127 [120] None); repeat constructor.
Qed.

Lemma stringify_exact_witness : stringify (λ _, []) demo (VObject 1) [] = Done (VPrim (PString (text [] 0 demo_data))) ∧ stringify (λ _, []) loop (VObject 1) [] = Raised CIRCULAR.
Proof.
  split; [|by vm_compute]. destruct demo_plain as [H1 H2]. destruct (stringify_exact (λ _, []) demo (VObject 1) [] H1 H2) as (_ & H & _). exact (H _ (demo_stands _)).
Defined.

Lemma json_roundtrip_witness : ∃ u node, stringify (λ _, []) demo (VObject 1) [32; 32] = Done (VPrim (PString u)) ∧ Json.parse_json (Coercion.lossy u) = Ok node ∧ denotes Json.MAX_JSON_DEPTH demo_data node.
Proof.
  destruct demo_plain as [H1 H2], demo_denotes as [node Hn].
  exact (json_roundtrip (λ _, []) demo (VObject 1) [32; 32] demo_data node H1 H2 (demo_stands _) Hn ltac:(by repeat constructor)).
Defined.

(** The text of a lone surrogate is not read back. *)
Lemma lone_surrogate_unreadable :
  Json.parse_json (Coercion.lossy (stringify_string_units [0xD800])) = Err "lone leading surrogate in hex escape".
Proof. by vm_compute. Qed.
